(* ===== verification/_CoqProject ===== *)
-Q . S2P
Prelude.v
RustStr.v
Extern.v
Json.v
Transcript.v
Base64.v
Kv.v
JobTypes.v
JobProjection.v
JobLifecycle.v
JobReplay.v
JobKeys.v
JobCoordination.v
Protocol.v
Wire.v
Authorization.v
Identifiers.v
Subjects.v
TransportPolicy.v
Permissions.v
Flow.v
DataPlane.v
TransferSubjects.v
Transfer.v
TransferProof.v
SessionAuthority.v
SessionMessages.v
Catalog.v
SessionResponse.v
VerificationCore.v
IssuerMetadata.v
AuthorizationOwner.v
OwnerSafety.v
OwnerTasks.v
OwnerAdmission.v
OwnerConcurrency.v
OwnerExamples.v
OperationRecord.v
OperationRepository.v
OperationHistory.v
OperationExamples.v
Live.v
LiveDeadlines.v
LiveTypes.v
LiveProvider.v
LiveEngine.v
LivePublication.v
LiveSource.v
LiveConsumer.v
LiveSession.v
LiveExamples.v
Leases.v
Ownership.v
LeaseSystem.v
LeaseLanes.v
LeaseInvariant.v
LeaseRuns.v
LeaseSafety.v
LeaseExclusion.v
LeaseExamples.v
IdlTypes.v
JsonSchema.v
IdlSchema.v
IdlMeaning.v
IdlBounds.v
TypeGraph.v
SurfaceDigest.v
Compatibility.v
CompatibilitySafety.v
ApiCompatibility.v
CompatibilityCache.v
ActionCodecs.v
ResourceEvolution.v
IdlExamples.v
SurfaceExamples.v
Admission.v
SessionProof.v
Pagination.v
AdmissionExamples.v
TransportGenerations.v
