(* ===== verification/Prelude.v ===== *)
(** * Trellis: a verification of its runtime core

    Trellis is a runtime for services that talk over NATS: participants call each other's
    RPCs and operations, publish events, run jobs and transfer files, under an authority
    that issues permissions.  This library models the parts of it in which the rules of the
    system live, as functions on the data the Rust code has, and proves what the rest of the
    system relies on.  Paths below are relative to [src/crates/].

    ** Foundations

    - [Prelude]: results and the [let?] notation for [?], record update, machine integers
      at their width, vectors, stable sorting.
    - [RustStr]: the [str] and slice functions the sources use, on strings of bytes:
      splitting, joining, trimming, number parsing and printing, byte order, UTF-8 classes.
    - [Extern]: the code the sources call and do not contain, as classes: JSON values and
      codecs, canonical JSON, SHA-256, base64url, Ed25519, RFC 3339 and ULID parsers.  Each
      class of laws states documented behaviour; concrete instances show it can hold.
      [Base64] is an implementation of the base64url class with its laws proved.
    - [Json]: [serde_json] values and the reading of their members.  [Transcript]: the
      length-framed components that are hashed before they are signed, which determine
      what they frame.
    - [Kv]: the interface of a NATS key-value bucket shared with other clients.  A call
      takes the world and returns a later one.  The laws say what a read, a conditional
      write and a refusal mean; they allow stale reads, writes by others at any moment, and
      errors that leave open whether a write took effect.  [MemKv] is an in-memory bucket
      with a script of other clients' writes that satisfies them.

    ** Jobs ([trellis/src/jobs])

    - [JobTypes] ([types.rs], [events.rs]): jobs, lifecycle events, the
      constructor of each event, an event as it is read back from the stream (an optional
      JSON member that was written as [null] is absent), the error fingerprint.
    - [JobProjection] ([projection.rs], and the recovery of a delivered work item in
      [runtime_worker.rs]): the reducer [reduce_job_event] with its transition guard, and
      [work_decision].
    - [JobLifecycle], [JobReplay]: the abstract lifecycle as an inductive relation.  On events
      as they are read back, the reducer implements it exactly; every projected job is
      consistent; redelivery changes
      nothing; ended jobs stay ended; the identity never changes; a worker that replays
      only part of the events sees the same job, and processes a work message exactly when
      it belongs to the current run.
    - [JobKeys], [JobCoordination] ([keys.rs]): keyed concurrency.  The state of a key, its
      reducers (admit, acquire, renew, release, remove, restore) and the compare-and-set
      coordinator.  Reachable keys, under calls that each bring their own policy, respect the
      largest of the limits and hold no job twice; a slot is
      taken over only when it is expired, and the old token is fenced off; an update takes
      effect on exactly the state it read, at one moment, whatever other clients do.

    ** Operations

    - [Protocol] ([protocol/src/authorization.rs], the caller projection) and
      [OperationRecord] ([protocol/src/operation_record.rs]): the durable record of an
      invocation, its validation and stored form.
    - [OperationRepository], [OperationHistory]
      ([trellis/src/service/operation_repository.rs]): create, claim, renew, the two
      compare-and-set writes, watch and list.  Every successful write is one atomic step of
      the record, which replaces the last one its key held; along any history of calls the
      identity is kept, the revision counts the writes,
      the owner epoch never falls, and a superseded owner can neither renew nor write;
      creation is idempotent.  [OperationExamples] evaluates them on an in-memory bucket.

    ** Protocol ([protocol/src])

    - [Protocol] ([error.rs]), [Wire] ([canonical.rs], and the scalars of [live.rs]):
      errors, digests of canonical JSON, counters, nonces, subject tokens.
    - [Identifiers] ([identifiers.rs]), [Subjects] ([subjects.rs]): the validators against
      grammars; the subjects of calls, events and live routes, which identify their route,
      the event descriptor encoding, and the overlap test against common subjects.
    - [TransportPolicy] ([transport_authorization.rs]): coverage of a subject pattern by a
      union of patterns is exactly inclusion of the subjects they match; the classification
      of a policy against another is exact.
    - [Permissions] ([permissions.rs]): permission targets and their canonical bytes.
    - [TransferSubjects], [Transfer], [TransferProof] ([transfer.rs]): the subjects of a
      transfer and the scope of its permissions; the messages and their validation; frame
      digests, which determine what they digest up to a SHA-256 collision, and the
      provider's proofs.

    ** Authorization

    - [Authorization], [SessionAuthority] ([protocol/src/authorization.rs]): the authority
      an issuer signs for a runtime session.  What is signed, parsed or verified is well
      formed; what verifies was signed by the pinned issuer and, for live use, is current;
      what is signed verifies; digests bind every field up to a SHA-256 collision.
    - [SessionMessages] ([authorization.rs]), [SessionResponse] ([response.rs]): requests,
      events and responses under a session key.  What is accepted was signed over exactly
      these bytes under a current authority, a response answers the retained request, and a
      signed message is accepted precisely when it is admissible.
    - [Catalog] ([catalog.rs]), [IssuerMetadata] ([issuer_metadata.rs]): catalog snapshots,
      provider certificates, issuer rotations and revocations, what they authorize, and
      issuer statements.  Authenticating a record once gives the same decisions as
      verifying it at every use.
    - [Admission] ([admission.rs]): the credentials of provisioned identities and of OAuth
      grants, and the exchange in which an admitted runtime asks for its first context.
      What is signed is accepted in its window, and the signature on what is accepted is
      over the digest of this document, which no other document has.  [SessionProof] ([session_proof.rs]): the
      proof of a device that enrolls, accepted exactly within the policy's window, which
      binds the origin and the whole request.  [Pagination] ([pagination.rs]): cursors
      bound to their query.  [AdmissionExamples] runs them.
    - [VerificationCore] ([trellis/src/client/authorization/core.rs]): the decision on a
      request or an event.
    - [AuthorizationOwner], [OwnerSafety]
      ([trellis/src/client/authorization/provider_cache.rs]): the state a runtime keeps
      about issuers, revocations and its own authority, as a machine with a clock.  It stays
      consistent and its issuer chain never goes back; revocations and retirements are final;
      lost coverage comes back only with a new mirror.
    - [OwnerTasks] (with [registry.rs]), [OwnerAdmission]: the owner's asynchronous
      operations.  A task is a function of what the tasks share and of an environment that
      plays the other tasks, the clock, the broker and the timers; the others run at every
      wait and before every lock.
    - [OwnerConcurrency]: rely and guarantee for these tasks.  Others are relied on to
      change what is shared only by listed steps, which is also all that every task does.
      Admitted requests, responses, retained events and actions are justified by the state
      at the end; revoked sessions are kept out of every interleaving; the cache holds only
      authentic material; issuer resolution ends.  [OwnerExamples] runs them.

    ** Data plane ([trellis/src/data_plane])

    - [Flow] ([flow.rs]): the sender's ledger of outstanding frames refines a window of
      frames and bytes; consumed credit frees it.
    - [DataPlane] ([credit.rs], [budget.rs], and the window negotiation of
      [protocol/src/transfer.rs]): credit is sent in time; the process budget is never
      overcommitted whatever the interleaving; offered windows are valid.

    ** Transport generations ([trellis/src/client])

    - [TransportGenerations] ([transport_generations.rs]): one physical attachment, shared by
      tasks that interleave at every lock, atomic and await: its leases and their fences, the
      intake of framework owners, the sweeps that dispose it, the reaper.  An orderly sweep
      disposes a handle only after its intake has stopped and the last lease is gone; no
      wake-up is lost; every handle is in one place.  A close, forced or not, does not reach a
      sweep that is waiting already when the intake is empty.

    ** Live sessions ([trellis/src/live])

    - [Json]: what derived deserialization makes of a JSON value.  [Live]
      ([protocol/src/live.rs]): controls, frames and terminal records with their strict
      decoding, the subjects of a session, the provider's proofs and the logical hashes.  A
      body decodes to one message only.
    - [LiveDeadlines] ([deadlines.rs]), [LiveTypes] ([types.rs], and how errors and lost
      authority end a session in [authority.rs] and [manager.rs]): the timers of a session
      and its outcomes.
    - [LiveProvider] ([provider.rs], [provider_engine.rs]): the provider's session record
      and each operation on it.  [LiveEngine] (with [service/live_router.rs]): the control
      dispatch, source driver, timer and close driver that share the record.  A step is
      what a task does between two awaits, so a run is an interleaving of the tasks.
    - [LivePublication], [LiveSource]: by induction on runs.  The data frames carry the
      values of the source, numbered from one without a gap; the end frame counts them all;
      the source is started once; a driver that waits for credit is woken by it, or has no
      room yet.
    - [LiveConsumer] ([subscription.rs], [client_open.rs]): the consumer's core, its polls,
      control exchanges, close and drop, and the data pump, as steps in the same way.
    - [LiveSession]: both sides over a network that loses, repeats and reorders messages
      and on which anyone may publish, with signatures that cannot be forged.  Values
      are delivered in the order of the source, and without gaps as long as no queued value
      is discarded; a subscription that then completes has delivered all of them; every
      frame the provider sends fits the consumer's queue.  [LiveExamples] runs sessions, among them those in
      which the code strands a driver, a source or a session.

    ** Runtime leases ([runtime/src])

    - [Leases] ([leases/mod.rs], the lease settings of [config/mod.rs]): the lease manager.
      Its operations are programs: trees of the calls they await and of the answers.
    - [Ownership] ([ownership.rs], [supervisor.rs], [mode.rs]): the life of a runtime
      process as steps between awaits: it acquires and verifies its leases, renews them,
      starts and supervises its subsystems, stops them, and releases the leases.
    - [LeaseSystem]: any number of processes over one bucket, in which a call takes effect
      at some moment after it was made, or never, whether or not its caller still waits.
    - [LeaseLanes], [LeaseInvariant], [LeaseRuns], [LeaseSafety]: what every step keeps.
      A lane is what a process knows of its writes to a key.
    - [LeaseExclusion]: a lease whose task is at work and renewed it in time is held; two
      processes do not run the same subsystem unless a renewal failed, a timer was late or a
      round overran; fences order the owners of a key, and late writes and deletions of an
      earlier owner are refused; a process that stops cleanly leaves its keys free.
      [LeaseExamples] runs them, also where two processes do run the same subsystem.

    ** Interfaces ([idl/src])

    - [IdlTypes] ([semantic.rs]): the resolved types, APIs, selections and resources of a
      graph of packages, and what makes a graph well formed.
    - [JsonSchema]: the meaning of the JSON Schema keywords that are used, with the engine
      for regular expressions as a parameter.  [IdlSchema] ([projection.rs]): the projection
      of types to schemas, with its collections of finished and visited types.
      [IdlMeaning]: the documented values of a type, and the values that have its shape, which
      are those a projected schema accepts: JSON Schema does not check the range of 64-bit
      integers, the base64 of bytes and the calendar of timestamps.
      [ActionCodecs]: the schemas of an action's channels.
    - [IdlBounds], [TypeGraph] ([compile.rs]): constraints and type expressions, which give
      types whose bounds fit their kinds; the check of aliases, which passes exactly when
      none is cyclic; the marking of recursive fields, which leaves no unmarked cycle among
      the models that hold each other, read off the structure of their fields' types.
    - [SurfaceDigest] ([canonical.rs]): the digest of what a consumer has selected of an API,
      with its table of schema texts.  The text that is hashed determines the selected
      actions up to types with equal schemas.
    - [Compatibility] ([compatibility.rs]): the comparison of types, actions, APIs and
      selections, and the cache of comparisons.  [CompatibilitySafety]: the comparison of
      types, with its set of visited pairs, ends and decides simulation.  [ApiCompatibility]: a
      compatible replacement serves the users of the previous API, and a compatible provider
      the consumer, also when equal digests end the comparison at once.  Models are open; the
      one value that is not promised has a member beyond the sender's model that carries the
      name of a field the receiver declares.
      [CompatibilityCache]: the cache answers as a comparison does.
    - [ResourceEvolution] ([compatibility.rs]): along compatible replacements of a resource
      the data of every version stays readable; what is retained suffices exactly when the
      comparison says so.  [IdlExamples] and [SurfaceExamples] evaluate two versions of a
      small package, and behaviours at the edges of the comparison.

    ** Conventions

    Strings and byte slices are Rocq strings, one character per byte.  Unsigned integers
    are [N] with the operation at the type's limit written out, signed ones [Z].
    Timestamps stay texts where the code compares texts.  The wall clock that the authority
    owner reads is taken not to go back between two readings.  A loop with a retry limit is a
    recursion on the turns left: the source's own limit (8) in the repository, and a number
    of turns in the key coordinator, whose limit is a deadline; the theorems hold for any
    number.  In the same way the loops of the owner that end by a timeout of ten seconds
    ([verify_request_loop], [renewal_settled], [status_replies]) take the number of changes
    or replies that arrive before it, and running out of it is the timeout; the loop over
    issuer rotations has the source's own bound (256), which is shown to be enough.  The
    recursions of the IDL through the names of types take as fuel the number of types of the
    graph and one more; each call visits a type or a pair that was not visited before, and
    that the fuel is enough is proved.  Other recursions are structural, so nothing runs out
    of fuel.

    ** Not modelled

    Asynchronous plumbing (connections, subscriptions, timers, worker loops, request
    routing), SQL storage, HTTP and OAuth, telemetry, configuration and processes, the code
    generators, the command line and test support.  Of the authority owner, the stream of
    mirrored revocations.  Of live sessions, the opening exchange, the manager's admission
    and receipts, the bookkeeping of the authority guards and the parsing of replies to
    controls, whose results are given to the steps.  Of the supervisor, the
    preflight check and what happens inside a subsystem.  The dead letters of events are
    rows that SQL statements update.  Of the transport generations, the manager, which opens
    them and chooses among them.  Of the IDL, the lexer (generated by a derive macro), the
    parser, the canonical text of packages with the digests over it, and the resolution of
    names, APIs and participants from the parser's output: they take source text apart and
    put it together.  Whether two whole APIs have the same digest is therefore an input of
    their comparison. *)

From stdpp Require Export prelude strings gmap numbers list.

(** ** Results

    Rust's [Result<T, E>].  The [?] operator is the [let?] notation: an error
    returns from the enclosing function at once. *)

Inductive result (T E : Type) : Type :=
| Ok (t : T)
| Err (e : E).

Arguments Ok {T E} t.
Arguments Err {T E} e.

Declare Scope trellis_scope.
Delimit Scope trellis_scope with trellis.

Notation "'let?' x ':=' c 'in' k" :=
  (match c with Ok x => k | Err e => Err e end)
  (at level 10, x pattern, c at level 150, k at level 200,
   format "'[v' 'let?'  x  ':='  c  'in' '/' k ']'") : trellis_scope.

Global Open Scope trellis_scope.

Definition is_ok {T E} (r : result T E) : bool :=
  match r with Ok _ => true | Err _ => false end.

(** [Option::ok_or] *)
Definition ok_or {T E} (o : option T) (e : E) : result T E :=
  match o with Some t => Ok t | None => Err e end.

(** [Result::map_err] *)
Definition map_err {T E F} (f : E -> F) (r : result T E) : result T F :=
  match r with Ok t => Ok t | Err e => Err (f e) end.

(** A guard: [if failed { return Err(e) }]. *)
Definition reject_if {E} (failed : bool) (e : E) : result unit E :=
  if failed then Err e else Ok tt.

Global Instance result_eq_dec `{EqDecision T, EqDecision E} :
  EqDecision (result T E).
Proof. solve_decision. Defined.

Lemma ok_inj {T E} (a b : T) : @Ok T E a = Ok b -> a = b.
Proof. congruence. Qed.

Lemma let_ok {T U E} (c : result T E) (k : T -> result U E) (u : U) :
  (let? x := c in k x) = Ok u <-> exists t, c = Ok t /\ k t = Ok u.
Proof. destruct c; naive_solver. Qed.

Lemma reject_if_ok {E} (b : bool) (e : E) (u : unit) :
  reject_if b e = Ok u <-> b = false.
Proof. destruct b, u; naive_solver. Qed.

Lemma ok_or_ok {T E} (o : option T) (e : E) (t : T) :
  ok_or o e = Ok t <-> o = Some t.
Proof. destruct o; naive_solver. Qed.

Lemma map_err_ok {T E F} (f : E -> F) (r : result T E) (t : T) :
  map_err f r = Ok t <-> r = Ok t.
Proof. destruct r; naive_solver. Qed.

(** [peel H as Hc] takes the first step off a computation [H] that succeeds: the step
    succeeds, and so does what follows it.  [skip H] drops the step. *)
Ltac peel_step Hc :=
  lazymatch type of Hc with
  | reject_if _ _ = _ => apply reject_if_ok in Hc
  | ok_or _ _ = _ => apply ok_or_ok in Hc
  | map_err _ _ = _ => apply map_err_ok in Hc
  | _ => idtac
  end.

Tactic Notation "peel" hyp(H) "as" ident(Hc) :=
  apply let_ok in H as (? & Hc & H); peel_step Hc.

Tactic Notation "peel" hyp(H) "as" ident(x) ident(Hc) :=
  apply let_ok in H as (x & Hc & H); peel_step Hc.

Tactic Notation "skip" hyp(H) := apply let_ok in H as (? & _ & H).

(** [for x in l { f(x)?; }] *)
Fixpoint for_each {A E} (f : A -> result unit E) (l : list A) : result unit E :=
  match l with
  | [] => Ok tt
  | x :: l => let? _ := f x in for_each f l
  end.

Lemma for_each_ok {A E} (f : A -> result unit E) l :
  for_each f l = Ok tt <-> Forall (fun x => f x = Ok tt) l.
Proof.
  induction l as [|x l IH]; cbn [for_each]; [split; [constructor|done]|].
  rewrite let_ok, Forall_cons, <- IH. split; [by intros ([] & ? & ?)|by exists tt].
Qed.

(** ** Record update

    [r <| field := v |>] is the record [r] with one field replaced, the way the
    code assigns to a field of a mutable struct.  A record becomes updatable by
    an instance of [Settable], its eta expansion. *)

Class Settable (R : Type) := settable_eta : R -> R.
Class Setter {R A : Type} (proj : R -> A) := modify : (A -> A) -> R -> R.
Global Hint Mode Setter - - ! : typeclass_instances.

Ltac solve_setter :=
  lazymatch goal with
  | |- @Setter ?R ?A ?proj =>
      let f := fresh "f" in
      let r := fresh "r" in
      intros f r;
      let e := eval hnf in (@settable_eta R _ r) in
      lazymatch eval pattern (proj r) in e with
      | ?g _ => let b := eval cbv beta in (g (f (proj r))) in exact b
      end
  end.

Global Hint Extern 1 (Setter _) => solve_setter : typeclass_instances.

Notation "r <| proj := v |>" := (modify (proj := proj) (fun _ => v) r)
  (at level 12, left associativity, proj at level 200, v at level 200,
   format "r  <| proj  :=  v |>") : trellis_scope.

(** ** Machine integers

    Unsigned machine integers are values of [N]; the operations below write out
    what each of the source's operations does at the type's limits. *)

Definition u32_max : N := 4294967295.
Definition u64_modulus : N := 18446744073709551616.
Definition u64_max : N := 18446744073709551615.
Definition u128_max : N := 340282366920938463463374607431768211455.

(** The largest integer a double, and so JSON, represents exactly with its neighbours. *)
Definition MAX_SAFE_INTEGER : N := 9007199254740991.

(** [u64::checked_add] *)
Definition checked_add_u64 (a b : N) : option N :=
  if (a + b <=? u64_max)%N then Some (a + b)%N else None.

(** [u64::checked_sub] (the same at every width) *)
Definition checked_sub (a b : N) : option N :=
  if (b <=? a)%N then Some (a - b)%N else None.

(** [i64::saturating_add] *)
Definition saturating_add_i64 (a b : Z) : Z :=
  Z.max (- 9223372036854775808) (Z.min (a + b) 9223372036854775807).

(** [u64::saturating_add]; [saturating_sub] is [N.sub], truncated at zero. *)
Definition saturating_add_u64 (a b : N) : N := N.min (a + b) u64_max.

(** [AtomicU64::fetch_add] and [fetch_sub] wrap around. *)
Definition wrapping_add_u64 (a b : N) : N := ((a + b) mod u64_modulus)%N.
Definition wrapping_sub_u64 (a b : N) : N :=
  ((a + u64_modulus - b) mod u64_modulus)%N.

(** [u64::wrapping_mul] *)
Definition wrapping_mul_u64 (a b : N) : N := ((a * b) mod u64_modulus)%N.

(** [u64::div_ceil] *)
Definition div_ceil (a b : N) : N := ((a + b - 1) / b)%N.

Lemma checked_add_u64_Some a b c :
  checked_add_u64 a b = Some c <-> c = (a + b)%N /\ (a + b <= u64_max)%N.
Proof.
  unfold checked_add_u64. destruct (N.leb_spec (a + b) u64_max); naive_solver lia.
Qed.

Lemma checked_sub_Some a b c :
  checked_sub a b = Some c <-> c = (a - b)%N /\ (b <= a)%N.
Proof. unfold checked_sub. destruct (N.leb_spec b a); naive_solver lia. Qed.

Lemma wrapping_add_u64_exact a b :
  (a + b <= u64_max)%N -> wrapping_add_u64 a b = (a + b)%N.
Proof.
  intros. unfold wrapping_add_u64, u64_modulus. unfold u64_max in *.
  apply N.mod_small. lia.
Qed.

Lemma wrapping_sub_u64_exact a b :
  (b <= a)%N -> (a <= u64_max)%N -> wrapping_sub_u64 a b = (a - b)%N.
Proof.
  intros. unfold wrapping_sub_u64, u64_modulus. unfold u64_max in *.
  replace (a + 18446744073709551616 - b)%N
    with ((a - b) + 1 * 18446744073709551616)%N by lia.
  rewrite N.Div0.mod_add. apply N.mod_small. lia.
Qed.

(** ** Vectors

    A [Vec<T>] is a list.  [Vec::len] counts in a machine integer. *)

Definition len {A} (l : list A) : N := N.of_nat (length l).

(** [iter().position(p)] *)
Definition position {A} (P : A -> Prop) `{forall x, Decision (P x)} (l : list A) :
  option nat := fst <$> list_find P l.

(** [iter().find(p)] *)
Definition find_first {A} (P : A -> Prop) `{forall x, Decision (P x)} (l : list A) :
  option A := snd <$> list_find P l.

(** [iter().any(p)] *)
Definition any {A} (P : A -> Prop) `{forall x, Decision (P x)} (l : list A) : bool :=
  bool_decide (Exists P l).

Section vectors.
Context {A : Type} (P : A -> Prop) `{forall x, Decision (P x)}.
Implicit Types l : list A.

Lemma any_true l : any P l = true <-> exists x, x ∈ l /\ P x.
Proof. unfold any. rewrite bool_decide_eq_true, Exists_exists. done. Qed.

Lemma any_false l : any P l = false <-> forall x, x ∈ l -> ~ P x.
Proof.
  unfold any. rewrite bool_decide_eq_false, Exists_exists. naive_solver.
Qed.

Lemma position_Some l i :
  position P l = Some i <->
  exists x, l !! i = Some x /\ P x /\ forall j y, l !! j = Some y -> (j < i)%nat -> ~ P y.
Proof.
  unfold position. rewrite fmap_Some. split.
  - intros ([k x] & Hf & ->). apply list_find_Some in Hf. naive_solver.
  - intros (x & Hl & HP & Hmin). exists (i, x). split; [|done].
    apply list_find_Some. eauto.
Qed.

Lemma position_None l : position P l = None <-> forall x, x ∈ l -> ~ P x.
Proof.
  unfold position. rewrite fmap_None, list_find_None, Forall_forall. done.
Qed.

Lemma find_first_Some l x :
  find_first P l = Some x ->
  x ∈ l /\ P x.
Proof.
  unfold find_first. intros ([k y] & Hf & ->)%fmap_Some.
  apply list_find_Some in Hf as (Hl & ? & _). simpl.
  split; [by eapply list_elem_of_lookup_2|done].
Qed.

Lemma find_first_None l : find_first P l = None <-> forall x, x ∈ l -> ~ P x.
Proof.
  unfold find_first. rewrite fmap_None, list_find_None, Forall_forall. done.
Qed.
End vectors.

(** ** Stable sorting

    [slice::sort_by_key]: elements of equal keys keep their order. *)
Fixpoint insert_by_key {A} (key : A -> N) (x : A) (l : list A) : list A :=
  match l with
  | [] => [x]
  | y :: l => if (key x <=? key y)%N then x :: y :: l else y :: insert_by_key key x l
  end.

Definition sort_by_key {A} (key : A -> N) (l : list A) : list A :=
  foldr (insert_by_key key) [] l.

Lemma insert_by_key_perm {A} (key : A -> N) x l : insert_by_key key x l ≡ₚ x :: l.
Proof.
  induction l as [|y l IH]; simpl; [done|]. case_match; [done|].
  rewrite IH. apply Permutation_swap.
Qed.

Lemma sort_by_key_perm {A} (key : A -> N) l : sort_by_key key l ≡ₚ l.
Proof. induction l as [|x l IH]; simpl; [done|]. by rewrite insert_by_key_perm, IH. Qed.

(** [position] followed by [Vec::remove]: the first element that satisfies [P], and
    the vector without it. *)
Fixpoint extract {A} (P : A -> Prop) `{forall x, Decision (P x)} (l : list A) :
    option (A * list A) :=
  match l with
  | [] => None
  | x :: l =>
      if decide (P x) then Some (x, l)
      else '(y, rest) ← extract P l; Some (y, x :: rest)
  end.

Lemma extract_Some {A} (P : A -> Prop) `{forall x, Decision (P x)} l y rest :
  extract P l = Some (y, rest) ->
  exists l1 l2, l = l1 ++ y :: l2 /\ rest = l1 ++ l2 /\ P y /\ Forall (fun x => ~ P x) l1.
Proof.
  revert rest. induction l as [|x l IH]; intros rest; simpl; [done|].
  case_decide as HP.
  - intros [= <- <-]. exists [], l. by split_and!.
  - intros ([z l'] & He & [= <- <-])%bind_Some.
    destruct (IH _ He) as (l1 & l2 & -> & -> & Hz & Hl1).
    exists (x :: l1), l2. split_and!; auto.
Qed.

Lemma extract_None {A} (P : A -> Prop) `{forall x, Decision (P x)} l :
  extract P l = None <-> forall x, x ∈ l -> ~ P x.
Proof.
  induction l as [|x l IH]; simpl; [split; [intros _ x; set_solver|done]|].
  case_decide as HP; [split; [done|intros Hl; by destruct (Hl x); [left|]]|].
  transitivity (extract P l = None); [by destruct (extract P l) as [[]|]|].
  rewrite IH. setoid_rewrite elem_of_cons. naive_solver.
Qed.

(** Removing from a list or pushing a fresh element keeps the images distinct. *)
Lemma NoDup_fmap_sublist {A B} (f : A -> B) (l k : list A) :
  sublist l k -> NoDup (f <$> k) -> NoDup (f <$> l).
Proof. intros Hs Hk. eapply sublist_NoDup; [exact Hk|]. by apply fmap_sublist. Qed.

Lemma NoDup_fmap_push {A B} (f : A -> B) (l : list A) (x : A) :
  (forall y, y ∈ l -> f y <> f x) -> NoDup (f <$> l) -> NoDup (f <$> (l ++ [x])).
Proof.
  intros Hx Hl. rewrite fmap_app. apply NoDup_app. split_and!; [done| |apply NoDup_singleton].
  intros y (z & -> & Hz)%list_elem_of_fmap. simpl. rewrite list_elem_of_singleton. by apply Hx.
Qed.

Lemma extract_sublist {A} (P : A -> Prop) `{forall x, Decision (P x)} l y rest :
  extract P l = Some (y, rest) -> sublist rest l.
Proof.
  intros (l1 & l2 & -> & -> & _)%extract_Some. apply sublist_app; [done|].
  by apply sublist_cons.
Qed.

Lemma extract_len {A} (P : A -> Prop) `{forall x, Decision (P x)} l y rest :
  extract P l = Some (y, rest) -> (len l = len rest + 1)%N.
Proof.
  intros (l1 & l2 & -> & -> & _)%extract_Some. unfold len.
  rewrite !length_app. simpl. lia.
Qed.

(** The element [extract] removes was there, and with distinct images it is the only
    one of its image. *)
Lemma extract_perm {A} (P : A -> Prop) `{forall x, Decision (P x)} l y rest :
  extract P l = Some (y, rest) -> P y /\ l ≡ₚ y :: rest.
Proof.
  intros (l1 & l2 & -> & -> & Hy & _)%extract_Some. split; [done|].
  by rewrite Permutation_middle.
Qed.

Lemma sublist_len {A} (l k : list A) : sublist l k -> (len l <= len k)%N.
Proof. intros Hs%sublist_length. unfold len. lia. Qed.

Lemma filter_all {A} (P : A -> Prop) `{forall x, Decision (P x)} (l : list A) :
  (forall x, x ∈ l -> P x) -> filter P l = l.
Proof.
  induction l as [|x l IH]; intros Hl; [done|].
  rewrite filter_cons_True by (apply Hl; by left). f_equal. apply IH.
  intros y Hy. apply Hl. by right.
Qed.

Lemma forallb_false_In {A} (f : A -> bool) (l : list A) :
  forallb f l = false -> exists x, In x l /\ f x = false.
Proof.
  induction l as [|x l IH]; simpl; [done|].
  destruct (f x) eqn:Hx; [|by eauto]. intros (y & ? & ?)%IH. eauto.
Qed.
