(* ===== verification/RustStr.v ===== *)
(** * Rust strings

    A [String], a [&str] and a byte vector are a [string], the sequence of their
    bytes; the bytes of a [str] are its UTF-8 encoding.  This file models the
    operations of Rust's standard library on them that the verified code uses.
    A search for an ASCII character or for an encoded character can proceed byte
    by byte, since no UTF-8 encoding occurs inside another. *)

From Stdlib Require Export Ascii String.
From S2P Require Import Prelude.

Local Open Scope string_scope.

#[global] Arguments String.append !_ _ /.


(** ** Characters *)

Definition byte_of (c : ascii) : N := N_of_ascii c.

Definition in_range (lo hi : N) (c : ascii) : bool :=
  ((lo <=? byte_of c) && (byte_of c <=? hi))%N.

Definition is_ascii_lowercase : ascii -> bool := in_range 97 122.
Definition is_ascii_uppercase : ascii -> bool := in_range 65 90.
Definition is_ascii_digit : ascii -> bool := in_range 48 57.

Definition is_ascii_hexdigit (c : ascii) : bool :=
  is_ascii_digit c || in_range 97 102 c || in_range 65 70 c.

(** [str::to_ascii_lowercase] *)
Definition ascii_lowercase (c : ascii) : ascii :=
  if is_ascii_uppercase c then ascii_of_N (byte_of c + 32) else c.

Fixpoint to_ascii_lowercase (s : string) : string :=
  match s with
  | EmptyString => EmptyString
  | String c s => String (ascii_lowercase c) (to_ascii_lowercase s)
  end.

(** [str::to_ascii_uppercase] *)
Definition ascii_uppercase (c : ascii) : ascii :=
  if is_ascii_lowercase c then ascii_of_N (byte_of c - 32) else c.

Fixpoint to_ascii_uppercase (s : string) : string :=
  match s with
  | EmptyString => EmptyString
  | String c s => String (ascii_uppercase c) (to_ascii_uppercase s)
  end.

(** [a <= b] on strings: lexicographic on the bytes. *)
Fixpoint str_le (a b : string) : bool :=
  match a, b with
  | EmptyString, _ => true
  | String _ _, EmptyString => false
  | String c a, String d b =>
      (byte_of c <? byte_of d)%N || ((byte_of c =? byte_of d)%N && str_le a b)
  end.

(** [char::is_ascii_control] *)
Definition is_ascii_control (c : ascii) : bool :=
  in_range 0 31 c || (byte_of c =? 127)%N.

(** One character of Unicode's White_Space at the front of a string, and the
    rest of the string: the ASCII ones, U+0085 and U+00A0 (two bytes), U+1680,
    U+2000 to U+200A, U+2028, U+2029, U+202F, U+205F and U+3000 (three bytes). *)
Definition is_ascii_space (c : ascii) : bool :=
  in_range 9 13 c || (byte_of c =? 32)%N.

Definition white_space_2 (a b : ascii) : bool :=
  ((byte_of a =? 194) && ((byte_of b =? 133) || (byte_of b =? 160)))%N.

Definition white_space_3 (a b c : ascii) : bool :=
  ((byte_of a =? 225) && (byte_of b =? 154) && (byte_of c =? 128))%N
  || ((byte_of a =? 226) && (byte_of b =? 128)
      && (in_range 128 138 c || (byte_of c =? 168) || (byte_of c =? 169)
          || (byte_of c =? 175)))%N
  || ((byte_of a =? 226) && (byte_of b =? 129) && (byte_of c =? 159))%N
  || ((byte_of a =? 227) && (byte_of b =? 128) && (byte_of c =? 128))%N.

Definition strip_space (s : string) : option string :=
  match s with
  | String a s1 =>
      if is_ascii_space a then Some s1 else
      match s1 with
      | String b s2 =>
          if white_space_2 a b then Some s2 else
          match s2 with
          | String c s3 => if white_space_3 a b c then Some s3 else None
          | EmptyString => None
          end
      | EmptyString => None
      end
  | EmptyString => None
  end.

(** The same at the back of a string given in reverse. *)
Definition strip_space_rev (s : string) : option string :=
  match s with
  | String c s1 =>
      if is_ascii_space c then Some s1 else
      match s1 with
      | String b s2 =>
          if white_space_2 b c then Some s2 else
          match s2 with
          | String a s3 => if white_space_3 a b c then Some s3 else None
          | EmptyString => None
          end
      | EmptyString => None
      end
  | EmptyString => None
  end.

(** ** Trimming and splitting at white space *)

Fixpoint strip_while (strip : string -> option string) (fuel : nat) (s : string) : string :=
  match fuel with
  | O => s
  | S fuel => match strip s with Some s' => strip_while strip fuel s' | None => s end
  end.

Fixpoint rev_append (s acc : string) : string :=
  match s with
  | EmptyString => acc
  | String c s => rev_append s (String c acc)
  end.

Definition reverse (s : string) : string := rev_append s "".

(** [str::trim]: every step removes at least one byte, so the string's length is
    enough fuel. *)
Definition trim_start (s : string) : string :=
  strip_while strip_space (String.length s) s.
Definition trim_end (s : string) : string :=
  reverse (strip_while strip_space_rev (String.length s) (reverse s)).
Definition trim (s : string) : string := trim_end (trim_start s).

(** [s.chars().any(char::is_whitespace)] *)
Fixpoint has_whitespace (s : string) : bool :=
  match s with
  | EmptyString => false
  | String _ s' => bool_decide (is_Some (strip_space s)) || has_whitespace s'
  end.

(** [str::split_whitespace]: [word] is the word being read, in reverse. *)
Fixpoint split_whitespace_from (fuel : nat) (word s : string) : list string :=
  let emit := if String.eqb word "" then [] else [reverse word] in
  match fuel, s with
  | S fuel, String c s' =>
      match strip_space s with
      | Some rest => emit ++ split_whitespace_from fuel "" rest
      | None => split_whitespace_from fuel (String c word) s'
      end
  | _, _ => emit
  end.

Definition split_whitespace (s : string) : list string :=
  split_whitespace_from (String.length s) "" s.

(** [Vec<String>::join] *)
Fixpoint join (sep : string) (l : list string) : string :=
  match l with
  | [] => ""
  | [s] => s
  | s :: l => s +:+ sep +:+ join sep l
  end.

(** ** Searching *)

Fixpoint all_chars (p : ascii -> bool) (s : string) : bool :=
  match s with
  | EmptyString => true
  | String c s => p c && all_chars p s
  end.

Definition any_char (p : ascii -> bool) (s : string) : bool :=
  negb (all_chars (fun c => negb (p c)) s).

Definition contains_char (c : ascii) (s : string) : bool := any_char (Ascii.eqb c) s.

(** [str::strip_prefix] *)
Fixpoint strip_prefix (p s : string) : option string :=
  match p, s with
  | EmptyString, _ => Some s
  | String a p, String b s => if Ascii.eqb a b then strip_prefix p s else None
  | String _ _, EmptyString => None
  end.

Definition starts_with (p s : string) : bool := bool_decide (is_Some (strip_prefix p s)).

Definition ends_with (p s : string) : bool := starts_with (reverse p) (reverse s).

(** [str::contains] of a string *)
Fixpoint contains (p s : string) : bool :=
  starts_with p s
  || match s with EmptyString => false | String _ s => contains p s end.

(** [str::split] at a character *)
Fixpoint split (sep : ascii) (s : string) : list string :=
  match s with
  | EmptyString => [""]
  | String c s =>
      if Ascii.eqb c sep then "" :: split sep s
      else match split sep s with
           | w :: ws => String c w :: ws
           | [] => [String c ""]
           end
  end.

(** [str::rsplit_once] of a string: split at its last occurrence *)
Fixpoint rsplit_once (p s : string) : option (string * string) :=
  match s with
  | EmptyString => None
  | String c s' =>
      match rsplit_once p s' with
      | Some (a, b) => Some (String c a, b)
      | None => (fun b => ("", b)) <$> strip_prefix p s
      end
  end.

(** [s.lines().next().unwrap_or_default()]: up to the first line feed, without a
    carriage return before it. *)
Fixpoint first_line (s : string) : string :=
  match s with
  | EmptyString => ""
  | String c s' =>
      if (byte_of c =? 10)%N then ""
      else match s' with
           | String d _ =>
               if ((byte_of c =? 13) && (byte_of d =? 10))%N then ""
               else String c (first_line s')
           | EmptyString => String c ""
           end
  end.

(** [String::from_utf8] accepts the bytes: every character is encoded in its shortest
    form and none is a surrogate or beyond U+10FFFF. *)
Definition is_continuation : ascii -> bool := in_range 128 191.

(** [str::chars().count()]: a scalar has one byte that is not a continuation. *)
Fixpoint chars_count (s : string) : N :=
  match s with
  | EmptyString => 0
  | String c s => (if is_continuation c then 0 else 1) + chars_count s
  end%N.

(** The second byte of a three-byte or four-byte sequence, by the first. *)
Definition second_of_3 (a b : ascii) : bool :=
  if (byte_of a =? 224)%N then in_range 160 191 b
  else if (byte_of a =? 237)%N then in_range 128 159 b
  else in_range 225 239 a && is_continuation b.

Definition second_of_4 (a b : ascii) : bool :=
  if (byte_of a =? 240)%N then in_range 144 191 b
  else if (byte_of a =? 244)%N then in_range 128 143 b
  else in_range 241 243 a && is_continuation b.

Fixpoint is_utf8 (s : string) : bool :=
  match s with
  | EmptyString => true
  | String a s1 =>
      if in_range 0 127 a then is_utf8 s1 else
      match s1 with
      | EmptyString => false
      | String b s2 =>
          if in_range 194 223 a && is_continuation b then is_utf8 s2 else
          match s2 with
          | EmptyString => false
          | String c s3 =>
              if second_of_3 a b && is_continuation c then is_utf8 s3 else
              match s3 with
              | EmptyString => false
              | String d s4 =>
                  second_of_4 a b && is_continuation c && is_continuation d && is_utf8 s4
              end
          end
      end
  end.

(** [str::encode_utf16]: the code units of a UTF-8 string. *)
Definition utf16_units (code_point : N) : list N :=
  (if code_point <? 65536 then [code_point]
   else [55296 + (code_point - 65536) / 1024; 56320 + (code_point - 65536) mod 1024])%N.

Fixpoint encode_utf16 (s : string) : list N :=
  match s with
  | EmptyString => []
  | String a s1 =>
      if in_range 0 127 a then byte_of a :: encode_utf16 s1 else
      match s1 with
      | EmptyString => []
      | String b s2 =>
          if in_range 194 223 a then
            ((byte_of a - 192) * 64 + (byte_of b - 128))%N :: encode_utf16 s2 else
          match s2 with
          | EmptyString => []
          | String c s3 =>
              if in_range 224 239 a then
                ((byte_of a - 224) * 4096 + (byte_of b - 128) * 64 + (byte_of c - 128))%N
                :: encode_utf16 s3 else
              match s3 with
              | EmptyString => []
              | String d s4 =>
                  (utf16_units ((byte_of a - 240) * 262144 + (byte_of b - 128) * 4096
                                + (byte_of c - 128) * 64 + (byte_of d - 128))
                   ++ encode_utf16 s4)%list%N
              end
          end
      end
  end.

(** [Iterator::cmp(..).is_lt()]: lexicographic order on the units. *)
Fixpoint units_lt (a b : list N) : bool :=
  match a, b with
  | _, [] => false
  | [], _ :: _ => true
  | x :: a, y :: b => ((x <? y) || ((x =? y) && units_lt a b))%N
  end.

(** ** Numbers in text *)

Definition digit_char (d : N) : ascii := ascii_of_N (48 + d).

Definition hex_char (d : N) : ascii :=
  ascii_of_N (if (d <? 10)%N then 48 + d else 87 + d).

(** The low [k] hexadecimal digits of [n]: [format!("{n:0k$x}")] for an [n] of at
    most [k] digits. *)
Fixpoint hex_padded (k : nat) (n : N) : string :=
  match k with
  | O => ""
  | S k => hex_padded k (n / 16) +:+ String (hex_char (n mod 16)) ""
  end.

(** The low [k] bytes of [n], most significant first. *)
Fixpoint be_bytes (k : nat) (n : N) : string :=
  match k with
  | O => ""
  | S k => be_bytes k (n / 256) +:+ String (ascii_of_N (n mod 256)) ""
  end.

(** [u32::to_be_bytes], [u64::to_be_bytes] and [i64::to_be_bytes], the last in two's
    complement. *)
Definition be_bytes_u32 (n : N) : string := be_bytes 4 n.
Definition be_bytes_u64 (n : N) : string := be_bytes 8 n.
Definition be_bytes_i64 (z : Z) : string := be_bytes 8 (Z.to_N (z mod 2 ^ 64)).

(** Decimal text of a number, most significant digit first ([to_string]). *)
Fixpoint decimal_from (fuel : nat) (n : N) (acc : string) : string :=
  match fuel with
  | O => acc
  | S fuel =>
      let acc := String (digit_char (n mod 10)) acc in
      if (n <? 10)%N then acc else decimal_from fuel (n / 10) acc
  end.

Definition decimal (n : N) : string := decimal_from (S (N.to_nat (N.log2 n))) n "".

(** [to_string] of a signed integer *)
Definition z_decimal (z : Z) : string :=
  if (z <? 0)%Z then "-" +:+ decimal (Z.to_N (- z)) else decimal (Z.to_N z).

(** The value of a string of decimal digits, most significant first. *)
Fixpoint digits_value (acc : N) (s : string) : option N :=
  match s with
  | EmptyString => Some acc
  | String c s =>
      if is_ascii_digit c then digits_value (acc * 10 + (byte_of c - 48))%N s else None
  end.

(** [str::parse::<uN>()]: an optional plus sign, then at least one digit, and a
    value within the type. *)
Definition parse_unsigned (max : N) (s : string) : option N :=
  let digits := match s with String "+" (String _ _ as s') => s' | _ => s end in
  if String.eqb digits "" then None else
  match digits_value 0 digits with
  | Some n => if (n <=? max)%N then Some n else None
  | None => None
  end.

Example trim_unicode :
  trim (String "009" (String "194" (String "160" "a b"))
        +:+ String "227" (String "128" (String "128" ""))) = "a b".
Proof. reflexivity. Qed.

Example split_whitespace_runs : split_whitespace "  a  bc d " = ["a"; "bc"; "d"].
Proof. reflexivity. Qed.

Example rsplit_last : rsplit_once "@v" "a@v1@v2" = Some ("a@v1", "2").
Proof. reflexivity. Qed.

Example decimal_text : decimal 10203 = "10203" /\ decimal 0 = "0".
Proof. done. Qed.

(** ** Lemmas *)

Lemma append_nil_r (s : string) : s +:+ "" = s.
Proof. induction s; simpl; congruence. Qed.

Lemma append_assoc (a b c : string) : (a +:+ b) +:+ c = a +:+ (b +:+ c).
Proof. induction a; simpl; congruence. Qed.

Lemma append_inj_l (a b c : string) : a +:+ b = a +:+ c -> b = c.
Proof. induction a; simpl; naive_solver. Qed.

Lemma length_append (a b : string) :
  String.length (a +:+ b) = (String.length a + String.length b)%nat.
Proof. induction a; simpl; congruence. Qed.

Lemma all_chars_append p a b : all_chars p (a +:+ b) = all_chars p a && all_chars p b.
Proof. induction a; simpl; [done|]. rewrite IHa. by rewrite andb_assoc. Qed.

Lemma all_chars_impl p q s :
  (forall c, p c = true -> q c = true) -> all_chars p s = true -> all_chars q s = true.
Proof.
  intros Hpq. induction s as [|c s IH]; simpl; [done|].
  intros [? ?]%andb_true_iff. by rewrite Hpq, IH.
Qed.

Lemma strip_prefix_Some p s r : strip_prefix p s = Some r <-> s = p +:+ r.
Proof.
  revert s; induction p as [|a p IH]; intros s; simpl; [naive_solver|].
  destruct s as [|b s]; [naive_solver|].
  destruct (Ascii.eqb_spec a b) as [->|]; [rewrite IH|]; naive_solver.
Qed.

Lemma strip_prefix_append p r : strip_prefix p (p +:+ r) = Some r.
Proof. by apply strip_prefix_Some. Qed.

Lemma split_nonempty sep s : split sep s <> [].
Proof.
  destruct s as [|c s]; simpl; [done|].
  destruct (Ascii.eqb c sep); [done|]. by destruct (split sep s).
Qed.

(** A word without the separator is not split, and a separator after it ends it. *)
Lemma split_word sep w :
  contains_char sep w = false -> split sep w = [w].
Proof.
  unfold contains_char, any_char. rewrite negb_false_iff.
  induction w as [|c w IH]; simpl; [done|]. intros [Hc Hw]%andb_true_iff.
  rewrite negb_true_iff, Ascii.eqb_sym in Hc. by rewrite Hc, IH.
Qed.

Lemma split_append sep w s :
  contains_char sep w = false ->
  split sep (w +:+ String sep s) = w :: split sep s.
Proof.
  unfold contains_char, any_char. rewrite negb_false_iff.
  induction w as [|c w IH]; simpl; [by rewrite Ascii.eqb_refl|].
  intros [Hc Hw]%andb_true_iff. rewrite negb_true_iff, Ascii.eqb_sym in Hc.
  by rewrite Hc, IH.
Qed.

(** Joining the parts of a split with the separator gives the string back. *)
Lemma join_split sep s : join (String sep "") (split sep s) = s.
Proof.
  induction s as [|c s IH]; simpl; [done|].
  pose proof (split_nonempty sep s) as Hne.
  destruct (Ascii.eqb_spec c sep) as [->|].
  - destruct (split sep s) as [|w ws]; [done|]. simpl in *. by rewrite IH.
  - destruct (split sep s) as [|w [|w' ws]]; [done|..]; simpl in *; by rewrite IH.
Qed.

Lemma length_hex_padded k n : String.length (hex_padded k n) = k.
Proof.
  revert n; induction k as [|k IH]; intros n; simpl; [done|].
  rewrite length_append, IH. simpl. lia.
Qed.

Lemma hex_char_hexdigit d :
  (d < 16)%N -> is_ascii_hexdigit (hex_char d) = true /\ is_ascii_uppercase (hex_char d) = false.
Proof.
  intros Hd.
  assert (Hin : In d (List.map N.of_nat (seq 0 16))).
  { apply in_map_iff. exists (N.to_nat d). split; [lia|]. apply in_seq. lia. }
  simpl in Hin. naive_solver.
Qed.

Lemma hex_padded_digits k n :
  all_chars (fun c => is_ascii_hexdigit c && negb (is_ascii_uppercase c)) (hex_padded k n) = true.
Proof.
  revert n; induction k as [|k IH]; intros n; simpl; [done|].
  rewrite all_chars_append, IH. simpl.
  destruct (hex_char_hexdigit (n mod 16)) as [-> ->]; [|done].
  apply N.mod_upper_bound. lia.
Qed.

Lemma ascii_is_utf8 s : all_chars (in_range 0 127) s = true -> is_utf8 s = true.
Proof.
  induction s as [|c s IH]; simpl; [done|]. intros [-> Hs]%andb_true_iff. by apply IH.
Qed.

(** ** Decimal text *)

Lemma digit_char_spec d :
  (d < 10)%N -> is_ascii_digit (digit_char d) = true /\ byte_of (digit_char d) = (48 + d)%N.
Proof.
  intros Hd. unfold is_ascii_digit, in_range, byte_of, digit_char.
  rewrite N_ascii_embedding by lia. split; [|done].
  apply andb_true_intro. rewrite !N.leb_le. lia.
Qed.

Lemma digits_value_decimal fuel n acc :
  (0 < fuel)%nat -> (n < 2 ^ N.of_nat fuel)%N ->
  digits_value 0 (decimal_from fuel n acc) = digits_value n acc.
Proof.
  revert n acc. induction fuel as [|fuel IH]; intros n acc Hf Hn; [lia|]. simpl.
  assert (n mod 10 < 10)%N as Hmod by (by apply N.mod_upper_bound).
  destruct (digit_char_spec (n mod 10) Hmod) as [Hdig Hval].
  destruct (N.ltb_spec n 10) as [Hlt|Hge].
  - simpl. rewrite Hdig, Hval, N.mod_small by done. f_equal. lia.
  - rewrite Nat2N.inj_succ, N.pow_succ_r' in Hn.
    assert (n / 10 < 2 ^ N.of_nat fuel)%N.
    { apply N.Div0.div_lt_upper_bound. lia. }
    destruct fuel as [|fuel]; [simpl in *; lia|].
    rewrite IH by (done || lia). simpl. rewrite Hdig, Hval.
    pose proof (N.div_mod n 10 ltac:(done)) as Hdm.
    set (q := (n / 10)%N) in *. set (d := (n mod 10)%N) in *. clearbody q d.
    replace (q * 10 + (48 + d - 48))%N with n by lia. done.
Qed.

Lemma decimal_digits fuel n acc :
  all_chars is_ascii_digit acc = true ->
  all_chars is_ascii_digit (decimal_from fuel n acc) = true.
Proof.
  revert n acc. induction fuel as [|fuel IH]; intros n acc Hacc; simpl; [done|].
  destruct (digit_char_spec (n mod 10)) as [Hdig _]; [by apply N.mod_upper_bound|].
  destruct (n <? 10)%N; [simpl; by rewrite Hdig|]. apply IH. simpl. by rewrite Hdig.
Qed.

Lemma decimal_from_nonempty fuel n c acc : decimal_from fuel n (String c acc) <> "".
Proof.
  revert n c acc. induction fuel as [|fuel IH]; intros n c acc; simpl; [done|].
  by destruct (n <? 10)%N.
Qed.

Lemma decimal_nonempty n : decimal n <> "".
Proof. unfold decimal. simpl. destruct (n <? 10)%N; [done|apply decimal_from_nonempty]. Qed.

(** The decimal text of a number parses to it. *)
Lemma parse_decimal max n : (n <= max)%N -> parse_unsigned max (decimal n) = Some n.
Proof.
  intros Hmax. unfold parse_unsigned.
  assert (digits_value 0 (decimal n) = Some n) as Hval.
  { unfold decimal. rewrite digits_value_decimal; [done|lia|].
    rewrite Nat2N.inj_succ, N2Nat.id. destruct (N.eq_dec n 0%N) as [->|]; [done|].
    apply N.log2_spec. lia. }
  pose proof (decimal_nonempty n) as Hne.
  assert (all_chars is_ascii_digit (decimal n) = true) as Hdig by (by apply decimal_digits).
  destruct (decimal n) as [|c s] eqn:Hdec; [done|].
  assert (c <> "+"%char) as Hplus by (intros ->; by simpl in Hdig).
  assert (match String c s with
          | String "+" (String _ _ as s') => s' | _ => String c s end = String c s) as ->.
  { destruct c as [[] [] [] [] [] [] [] []]; try done. }
  simpl String.eqb. rewrite Hval.
  destruct (N.leb_spec n max); [done|lia].
Qed.

Lemma decimal_from_append fuel n acc : decimal_from fuel n acc = decimal_from fuel n "" +:+ acc.
Proof.
  revert n acc. induction fuel as [|fuel IH]; intros n acc; simpl; [done|].
  destruct (n <? 10)%N; [done|].
  rewrite (IH _ (String _ acc)), (IH _ (String _ "")), append_assoc. done.
Qed.

(** Fuel beyond the number of binary digits changes nothing. *)
Lemma decimal_from_fuel fuel fuel' n acc :
  (0 < fuel)%nat -> (0 < fuel')%nat ->
  (n < 2 ^ N.of_nat fuel)%N -> (n < 2 ^ N.of_nat fuel')%N ->
  decimal_from fuel n acc = decimal_from fuel' n acc.
Proof.
  revert fuel' n acc.
  induction fuel as [|fuel IH]; intros [|fuel'] n acc H1 H2 Hn Hn'; [lia..|].
  simpl. destruct (N.ltb_spec n 10) as [|Hge]; [done|].
  rewrite Nat2N.inj_succ, N.pow_succ_r' in Hn, Hn'.
  assert (n / 10 < 2 ^ N.of_nat fuel)%N by (apply N.Div0.div_lt_upper_bound; lia).
  assert (n / 10 < 2 ^ N.of_nat fuel')%N by (apply N.Div0.div_lt_upper_bound; lia).
  destruct fuel as [|fuel]; [simpl in *; lia|]. destruct fuel' as [|fuel']; [simpl in *; lia|].
  apply IH; done || lia.
Qed.

Lemma log2_fuel n : (n < 2 ^ N.of_nat (S (N.to_nat (N.log2 n))))%N.
Proof.
  rewrite Nat2N.inj_succ, N2Nat.id. destruct (N.eq_dec n 0%N) as [->|]; [done|].
  apply N.log2_spec. lia.
Qed.

Lemma decimal_push n d :
  (0 < n)%N -> (d < 10)%N -> decimal (n * 10 + d) = decimal n +:+ String (digit_char d) "".
Proof.
  intros Hn Hd. unfold decimal at 1. simpl.
  destruct (N.ltb_spec (n * 10 + d) 10); [lia|].
  assert ((n * 10 + d) mod 10 = d /\ (n * 10 + d) / 10 = n)%N as [-> ->].
  { rewrite N.add_comm, N.Div0.mod_add, N.mod_small, N.div_add by done.
    rewrite N.div_small by done. done. }
  rewrite decimal_from_append. f_equal. unfold decimal.
  assert (n < 2 ^ N.of_nat (N.to_nat (N.log2 (n * 10 + d))))%N as Hlt.
  { rewrite N2Nat.id. pose proof (N.log2_spec (n * 10 + d) ltac:(lia)) as [_ Hs].
    rewrite N.pow_succ_r' in Hs. lia. }
  apply decimal_from_fuel; [|lia|done|apply log2_fuel].
  destruct (N.to_nat (N.log2 (n * 10 + d))); [simpl in Hlt; lia|lia].
Qed.

(** A numeral without a leading zero is the decimal text of its value. *)
Lemma decimal_numeral n m s :
  (0 < n)%N -> digits_value n s = Some m -> decimal m = decimal n +:+ s /\ (0 < m)%N.
Proof.
  revert n. induction s as [|c s IH]; intros n Hn; simpl.
  - intros [= <-]. by rewrite append_nil_r.
  - destruct (is_ascii_digit c) eqn:Hc; [|done]. intros Hv.
    assert (byte_of c - 48 < 10 /\ digit_char (byte_of c - 48) = c)%N as [Hd Hchar].
    { unfold is_ascii_digit, in_range in Hc. rewrite andb_true_iff, !N.leb_le in Hc.
      split; [lia|]. unfold digit_char. replace (48 + (byte_of c - 48))%N with (byte_of c) by lia.
      apply ascii_N_embedding. }
    apply IH in Hv as [-> ?]; [|lia]. split; [|done].
    rewrite decimal_push, Hchar, append_assoc by done. done.
Qed.

Lemma digits_value_total n s : all_chars is_ascii_digit s = true -> is_Some (digits_value n s).
Proof.
  revert n. induction s as [|c s IH]; intros n; simpl; [done|].
  intros [-> Hs]%andb_true_iff. by apply IH.
Qed.

(** ** Printable ASCII

    Text of the characters from exclamation mark to tilde has nothing to trim, no
    control characters and is UTF-8. *)
Definition graphic : ascii -> bool := in_range 33 126.

Lemma graphic_not_space c s :
  graphic c = true -> strip_space (String c s) = None /\ strip_space_rev (String c s) = None.
Proof.
  intros Hc.
  assert (is_ascii_space c = false /\ forall a b,
    white_space_2 c b = false /\ white_space_2 b c = false /\
    white_space_3 c b a = false /\ white_space_3 a b c = false) as [H1 H2].
  { unfold graphic, in_range in Hc. apply andb_true_iff in Hc. rewrite !N.leb_le in Hc.
    unfold is_ascii_space, white_space_2, white_space_3, in_range.
    set (n := byte_of c) in *. clearbody n.
    split; [|intros a b; set (x := byte_of a); set (y := byte_of b); clearbody x y];
      rewrite <- ?not_true_iff_false, ?orb_true_iff, ?andb_true_iff, ?orb_true_iff,
        ?andb_true_iff, ?N.eqb_eq, ?N.leb_le; lia. }
  split; simpl; rewrite H1; destruct s as [|b s]; try done;
    (destruct (H2 b b) as (? & ? & _)); destruct s as [|d s]; try (by case_match);
    destruct (H2 d b) as (? & ? & ? & ?); by repeat case_match.
Qed.

Lemma strip_while_graphic strip fuel s :
  (forall c s, graphic c = true -> strip (String c s) = None) -> strip "" = None ->
  all_chars graphic s = true -> strip_while strip fuel s = s.
Proof.
  intros Hstrip Hnil Hs. destruct fuel; [done|]. simpl.
  destruct s as [|c s]; [by rewrite Hnil|].
  simpl in Hs. apply andb_true_iff in Hs as [Hc _]. by rewrite Hstrip.
Qed.

Lemma rev_append_spec s acc : rev_append s acc = reverse s +:+ acc.
Proof.
  unfold reverse. revert acc. induction s as [|c s IH]; intros acc; simpl; [done|].
  rewrite IH, (IH (String c "")), append_assoc. done.
Qed.

Lemma reverse_cons c s : reverse (String c s) = reverse s +:+ String c "".
Proof. unfold reverse at 1. simpl. apply rev_append_spec. Qed.

Lemma reverse_append a b : reverse (a +:+ b) = reverse b +:+ reverse a.
Proof.
  induction a as [|c a IH]; simpl; [by rewrite append_nil_r|].
  by rewrite !reverse_cons, IH, append_assoc.
Qed.

Lemma reverse_involutive s : reverse (reverse s) = s.
Proof.
  induction s as [|c s IH]; [done|]. by rewrite reverse_cons, reverse_append, IH.
Qed.

Lemma all_chars_reverse p s : all_chars p (reverse s) = all_chars p s.
Proof.
  induction s as [|c s IH]; [done|].
  rewrite reverse_cons, all_chars_append, IH. simpl. rewrite andb_true_r. apply andb_comm.
Qed.

Lemma trim_graphic s : all_chars graphic s = true -> trim s = s.
Proof.
  intros Hs. unfold trim, trim_start, trim_end.
  rewrite (strip_while_graphic strip_space); [|intros; by apply graphic_not_space|done..].
  rewrite (strip_while_graphic strip_space_rev);
    [|intros; by apply graphic_not_space|done|by rewrite all_chars_reverse].
  apply reverse_involutive.
Qed.

Lemma graphic_not_control s : all_chars graphic s = true -> any_char is_ascii_control s = false.
Proof.
  intros Hs. unfold any_char. rewrite negb_false_iff. revert Hs. apply all_chars_impl.
  intros c. unfold graphic, is_ascii_control, in_range.
  rewrite negb_true_iff, <- not_true_iff_false, orb_true_iff, !andb_true_iff, !N.leb_le, N.eqb_eq.
  lia.
Qed.

Lemma graphic_is_utf8 s : all_chars graphic s = true -> is_utf8 s = true.
Proof.
  intros Hs. apply ascii_is_utf8. revert Hs. apply all_chars_impl. intros c.
  unfold graphic, in_range. rewrite !andb_true_iff, !N.leb_le. lia.
Qed.

Lemma all_chars_in p c s : contains_char c s = true -> all_chars p s = true -> p c = true.
Proof.
  unfold contains_char, any_char. rewrite negb_true_iff.
  induction s as [|d s IH]; simpl; [done|]. intros Hc [Hd Hs]%andb_true_iff.
  destruct (Ascii.eqb_spec c d) as [->|]; [done|]. by apply IH.
Qed.

Lemma all_chars_excludes p c s : p c = false -> all_chars p s = true -> contains_char c s = false.
Proof.
  intros Hp Hs. destruct (contains_char c s) eqn:Hc; [|done].
  by rewrite (all_chars_in p c s) in Hp.
Qed.

Lemma contains_char_append c a b :
  contains_char c (a +:+ b) = contains_char c a || contains_char c b.
Proof. unfold contains_char, any_char. rewrite all_chars_append. apply negb_andb. Qed.

(** Splitting distributes over a separator. *)
Lemma split_sep sep a b : split sep (a +:+ String sep b) = (split sep a ++ split sep b)%list.
Proof.
  induction a as [|c a IH]; simpl; [by rewrite Ascii.eqb_refl|].
  destruct (Ascii.eqb c sep); [by rewrite IH|].
  rewrite IH. pose proof (split_nonempty sep a). by destruct (split sep a).
Qed.

Lemma starts_with_true p s : starts_with p s = true <-> exists r, s = p +:+ r.
Proof.
  unfold starts_with. rewrite bool_decide_eq_true. unfold is_Some.
  by setoid_rewrite strip_prefix_Some.
Qed.

Lemma ends_with_true p s : ends_with p s = true <-> exists r, s = r +:+ p.
Proof.
  unfold ends_with. rewrite starts_with_true. split; intros [r Hr].
  - exists (reverse r). by rewrite <- (reverse_involutive s), Hr, reverse_append, reverse_involutive.
  - exists (reverse r). by rewrite Hr, reverse_append.
Qed.

Lemma contains_true p s : contains p s = true <-> exists a b, s = a +:+ p +:+ b.
Proof.
  induction s as [|c s IH]; simpl; rewrite orb_true_iff, starts_with_true.
  - split; [intros [[r Hr]|]; [by exists "", r|done]|].
    intros (a & b & Hab). left. destruct a; [by exists b|done].
  - rewrite IH. split.
    + intros [[r Hr]|(a & b & ->)]; [by exists "", r|by exists (String c a), b].
    + intros ([|d a] & b & Hab); simpl in Hab; [left; by exists b|].
      right. exists a, b. congruence.
Qed.

Lemma rsplit_once_Some p s a b : rsplit_once p s = Some (a, b) -> s = a +:+ p +:+ b.
Proof.
  revert a. induction s as [|c s IH]; intros a; simpl; [done|].
  destruct (rsplit_once p s) as [[x y]|].
  - intros [= <- <-]. simpl. f_equal. by apply IH.
  - intros (r & Hr & Heq)%fmap_Some. injection Heq as -> ->. by apply strip_prefix_Some in Hr.
Qed.

Lemma rsplit_once_None x p s :
  contains_char x s = false -> rsplit_once (String x p) s = None.
Proof.
  unfold contains_char, any_char. rewrite negb_false_iff.
  induction s as [|c s IH]; simpl; [done|]. intros [Hc Hs]%andb_true_iff.
  rewrite negb_true_iff in Hc. by rewrite IH, Hc.
Qed.

Lemma rsplit_once_last x p a b :
  contains_char x p = false -> contains_char x b = false ->
  rsplit_once (String x p) (a +:+ String x p +:+ b) = Some (a, b).
Proof.
  intros Hp Hb. induction a as [|c a IH]; simpl in *; [|by rewrite IH].
  rewrite rsplit_once_None by (by rewrite contains_char_append, Hp, Hb).
  by rewrite Ascii.eqb_refl, strip_prefix_append.
Qed.

(** Tokens without the separator, joined with it, split back. *)
Lemma split_join sep tokens :
  tokens <> [] -> Forall (fun t => contains_char sep t = false) tokens ->
  split sep (join (String sep "") tokens) = tokens.
Proof.
  induction tokens as [|t tokens IH]; intros Hne Hall; [done|].
  apply Forall_cons in Hall as [Ht Hall]. destruct tokens as [|t' tokens]; [by apply split_word|].
  cbn [join]. cbn [String.append]. rewrite split_append by done. f_equal. by apply IH.
Qed.

Lemma split_no_sep sep s : Forall (fun t => contains_char sep t = false) (split sep s).
Proof.
  induction s as [|c s IH]; simpl; [by constructor|].
  destruct (Ascii.eqb_spec c sep) as [->|Hc]; [by constructor|].
  destruct (split sep s) as [|w ws] eqn:Hs; [by destruct (split_nonempty sep s)|].
  apply Forall_cons in IH as [Hw Hws]. constructor; [|done].
  change (String c w) with (String c "" +:+ w). rewrite contains_char_append, Hw.
  unfold contains_char, any_char. cbn [all_chars]. apply not_eq_sym, Ascii.eqb_neq in Hc.
  by rewrite Hc.
Qed.

Lemma split_inj sep a b : split sep a = split sep b -> a = b.
Proof. intros Heq. by rewrite <- (join_split sep a), <- (join_split sep b), Heq. Qed.

Lemma graphic_no_whitespace s : all_chars graphic s = true -> has_whitespace s = false.
Proof.
  induction s as [|c s IH]; [done|]. cbn [all_chars has_whitespace].
  intros [Hc Hs]%andb_true_iff. rewrite IH by done.
  by destruct (graphic_not_space c s Hc) as [-> _].
Qed.

Lemma digit_char_byte c : (48 <= byte_of c)%N -> digit_char (byte_of c - 48) = c.
Proof.
  intros Hc. unfold digit_char. replace (48 + (byte_of c - 48))%N with (byte_of c) by lia.
  apply ascii_N_embedding.
Qed.

Lemma decimal_digit d : (d < 10)%N -> decimal d = String (digit_char d) "".
Proof.
  intros Hd. unfold decimal. simpl. rewrite N.mod_small by done.
  by destruct (N.ltb_spec d 10); [|lia].
Qed.

(** The decimal text of a positive number has no leading zero. *)
Lemma decimal_positive n :
  (0 < n)%N -> exists c s, decimal n = String c s /\ in_range 49 57 c = true /\
                           all_chars is_ascii_digit s = true.
Proof.
  induction n as [n IH] using (well_founded_induction N.lt_wf_0). intros Hn.
  pose proof (N.div_mod n 10 ltac:(done)) as Hdm.
  pose proof (N.mod_upper_bound n 10 ltac:(done)) as Hmod.
  destruct (N.ltb_spec n 10) as [Hlt|Hge].
  - rewrite decimal_digit by done. eexists _, _. split_and!; [done| |done].
    destruct (digit_char_spec n Hlt) as [_ Hb]. unfold in_range. rewrite Hb.
    apply andb_true_intro. rewrite !N.leb_le. lia.
  - set (q := (n / 10)%N) in *. set (d := (n mod 10)%N) in *. clearbody q d.
    destruct (IH q) as (c & s & Hq & Hc & Hs); [lia..|].
    exists c, (s +:+ String (digit_char d) ""). subst n. rewrite (N.mul_comm 10 q).
    rewrite decimal_push, Hq by lia. split_and!; [done..|].
    rewrite all_chars_append, Hs. simpl. by rewrite (proj1 (digit_char_spec d Hmod)).
Qed.

(** Two concatenations of equally long fronts. *)
Lemma append_eq_length a a' b b' :
  String.length a = String.length a' -> a +:+ b = a' +:+ b' -> a = a' /\ b = b'.
Proof.
  revert a'. induction a as [|c a IH]; intros [|c' a'] Hlen Heq; simpl in *; try done.
  injection Heq as -> Heq. injection Hlen as Hlen. by destruct (IH _ Hlen Heq) as [-> ->].
Qed.

Lemma append_snoc_inj a b c d :
  a +:+ String c "" = b +:+ String d "" -> a = b /\ c = d.
Proof.
  intros Heq. apply (f_equal reverse) in Heq. rewrite !reverse_append in Heq.
  cbn in Heq. injection Heq as -> Heq. split; [|done].
  by rewrite <- (reverse_involutive a), Heq, reverse_involutive.
Qed.

Lemma length_be_bytes k n : String.length (be_bytes k n) = k.
Proof.
  revert n. induction k as [|k IH]; intros n; [done|]. cbn [be_bytes].
  rewrite length_append, IH. simpl. lia.
Qed.

Lemma be_bytes_inj k n m :
  (n < 256 ^ N.of_nat k)%N -> (m < 256 ^ N.of_nat k)%N -> be_bytes k n = be_bytes k m -> n = m.
Proof.
  revert n m. induction k as [|k IH]; intros n m Hn Hm Heq.
  { change (256 ^ N.of_nat 0)%N with 1%N in *. lia. }
  cbn [be_bytes] in Heq. apply append_snoc_inj in Heq as [Hdiv Hmod].
  apply (f_equal N_of_ascii) in Hmod.
  rewrite !N_ascii_embedding in Hmod by (by apply N.mod_upper_bound).
  rewrite (N.div_mod n 256), (N.div_mod m 256), Hmod by done.
  rewrite Nat2N.inj_succ, N.pow_succ_r' in Hn, Hm.
  rewrite (IH (n / 256) (m / 256))%N; [done| | |done]; by apply N.Div0.div_lt_upper_bound.
Qed.

Lemma be_bytes_u32_inj n m :
  (n <= u32_max)%N -> (m <= u32_max)%N -> be_bytes_u32 n = be_bytes_u32 m -> n = m.
Proof.
  unfold u32_max. intros Hn Hm. apply be_bytes_inj; change (256 ^ N.of_nat 4)%N with 4294967296%N; lia.
Qed.

Lemma be_bytes_u64_inj n m :
  (n <= u64_max)%N -> (m <= u64_max)%N -> be_bytes_u64 n = be_bytes_u64 m -> n = m.
Proof.
  unfold u64_max. intros Hn Hm. apply be_bytes_inj;
    change (256 ^ N.of_nat 8)%N with 18446744073709551616%N; lia.
Qed.

(** For the numbers of the type that are not negative. *)
Lemma be_bytes_i64_inj a b :
  (0 <= a < 2 ^ 63)%Z -> (0 <= b < 2 ^ 63)%Z -> be_bytes_i64 a = be_bytes_i64 b -> a = b.
Proof.
  intros Ha Hb Heq. unfold be_bytes_i64 in Heq.
  rewrite !Z.mod_small in Heq by (change (2 ^ 64)%Z with (2 * 2 ^ 63)%Z; lia).
  apply be_bytes_inj in Heq; [lia| |];
    change (256 ^ N.of_nat 8)%N with (Z.to_N (2 ^ 64)); apply Z2N.inj_lt;
    change (2 ^ 64)%Z with (2 * 2 ^ 63)%Z; lia.
Qed.

(** ** The order of strings *)

Lemma str_le_total a b : str_le a b = false -> str_le b a = true.
Proof.
  revert b. induction a as [|c a IH]; intros [|d b]; try done. cbn [str_le].
  destruct (N.ltb_spec (byte_of c) (byte_of d)); [done|]. cbn [orb].
  destruct (N.eqb_spec (byte_of c) (byte_of d)) as [Heq|Hne]; cbn [andb].
  - intros Hle%IH. rewrite Heq, N.ltb_irrefl, N.eqb_refl. done.
  - intros _. destruct (N.ltb_spec (byte_of d) (byte_of c)); [done|lia].
Qed.

Lemma str_le_trans a b c : str_le a b = true -> str_le b c = true -> str_le a c = true.
Proof.
  revert b c. induction a as [|x a IH]; intros [|y b] [|z c]; try done. cbn [str_le].
  rewrite !orb_true_iff, !andb_true_iff, !N.ltb_lt, !N.eqb_eq.
  intros [?|[? Hab]] [?|[? Hbc]]; [left; lia|left; lia|left; lia|].
  right. split; [congruence|by eapply IH].
Qed.

Lemma str_le_antisym a b : str_le a b = true -> str_le b a = true -> a = b.
Proof.
  revert b. induction a as [|x a IH]; intros [|y b]; try done. cbn [str_le].
  rewrite !orb_true_iff, !andb_true_iff, !N.ltb_lt, !N.eqb_eq.
  intros [?|[Hxy Hab]] [?|[? Hba]]; [lia|lia|lia|]. rewrite (IH b) by done.
  unfold byte_of in Hxy. by rewrite <- (ascii_N_embedding x), Hxy, ascii_N_embedding.
Qed.

Lemma decimal_inj n m : decimal n = decimal m -> n = m.
Proof.
  intros Heq. assert (Some n = Some m) as [= ->]; [|done].
  rewrite <- (parse_decimal (N.max n m) n), <- (parse_decimal (N.max n m) m) by lia.
  by rewrite Heq.
Qed.

(** The decimal text determines an integer. *)
Lemma z_decimal_inj a b : z_decimal a = z_decimal b -> a = b.
Proof.
  assert (Hsign : forall n m, "-" +:+ decimal n <> decimal m).
  { intros n m Heq. pose proof (decimal_digits (S (N.to_nat (N.log2 m))) m "" eq_refl) as Hd.
    change (all_chars is_ascii_digit (decimal m) = true) in Hd. by rewrite <- Heq in Hd. }
  unfold z_decimal. destruct (Z.ltb_spec a 0), (Z.ltb_spec b 0); intros Heq.
  - apply append_inj_l, decimal_inj in Heq. lia.
  - by destruct (Hsign _ _ Heq).
  - by destruct (Hsign _ _ (eq_sym Heq)).
  - apply decimal_inj in Heq. lia.
Qed.

Lemma units_lt_irrefl a : units_lt a a = false.
Proof. induction a as [|x a IH]; simpl; [done|]. by rewrite N.ltb_irrefl, N.eqb_refl, IH. Qed.

Lemma units_lt_trans a b c : units_lt a b = true -> units_lt b c = true -> units_lt a c = true.
Proof.
  revert b c. induction a as [|x a IH]; intros [|y b] [|z c]; simpl; try done.
  rewrite !orb_true_iff, !andb_true_iff, !N.ltb_lt, !N.eqb_eq.
  intros [?|[-> ?]] [?|[-> ?]]; [left; lia|left; lia|by left|right; eauto].
Qed.
