(* ===== verification/Extern.v ===== *)
(** * Code outside the repository

    The interfaces of what the verified code calls and does not define: the
    [serde_json] value type and codecs, base64url, SHA-256, the RFC 3339 and ULID
    parsers.  Each is a class: its operations are parameters of the definitions
    that use them, and a class of laws states the documented behaviour a theorem
    relies on.  The instances at the end show that the laws can hold. *)

From Stdlib Require Import Ascii String.
From S2P Require Import Prelude RustStr.

(** ** JSON values

    [serde_json::Value], an opaque type with decidable equality. *)
Class JsonValue := {
  Value : Type;
  #[global] Value_eq_dec :: EqDecision Value;
  value_null : Value;
}.

(** The value that [serde_json] reads back from the text it wrote for a value. *)
Class ValueText `{JsonValue} := value_reread : Value -> Value.

(** What the keyed-jobs code asks of a value: a JSON pointer lookup, and the scalar it
    is, if it is a string, a number (with its text) or a boolean. *)
Inductive JsonScalar :=
| ScalarString (s : string)
| ScalarNumber (text : string)
| ScalarBool (b : bool).

Class JsonScalars `{JsonValue} := {
  value_string : string -> Value;
  value_pointer : Value -> string -> option Value;
  value_scalar : Value -> option JsonScalar;
  segments_to_json : N -> list Value -> string;
}.

Class JsonScalarsLaws `{JsonScalars} : Prop :=
  value_scalar_string : forall s, value_scalar (value_string s) = Some (ScalarString s).

(** [Sha256::digest]: the 32 bytes of the digest. *)
Class Sha256 := sha256 : string -> string.

(** [str::to_lowercase]: Unicode's lower-case mapping. *)
Class Lowercase := to_lowercase : string -> string.

(** ** Base64

    [base64::engine::general_purpose::URL_SAFE_NO_PAD]: unpadded base64url. *)
Definition is_base64url (c : ascii) : bool :=
  is_ascii_uppercase c || is_ascii_lowercase c || is_ascii_digit c
  || (c =? "-")%char || (c =? "_")%char.

Class Base64Url := {
  b64_encode : string -> string;
  b64_decode : string -> option string;
}.

(** RFC 4648: decoding inverts encoding, an encoding uses the URL-safe alphabet, and
    has four characters for three bytes, rounded up. *)
Class Base64UrlLaws `{Base64Url} : Prop := {
  b64_decode_encode s : b64_decode (b64_encode s) = Some s;
  b64_alphabet s : all_chars is_base64url (b64_encode s) = true;
  b64_length s : String.length (b64_encode s) = ((4 * String.length s + 2) / 3)%nat;
}.

(** [serde_json::to_vec] and [from_slice] at a type, with the text of an error. *)
Class JsonCodec (A : Type) := {
  to_vec : A -> result string string;
  from_slice : string -> result A string;
}.

(** What is encoded decodes to itself. *)
Class JsonCodecLaws (A : Type) `{JsonCodec A} :=
  from_slice_to_vec : forall (a : A) bytes, to_vec a = Ok bytes -> from_slice bytes = Ok a.

(** [serde_json::to_value] at a type. *)
Class ToValue (A : Type) `{JsonValue} := to_value : A -> result Value string.

(** [serde_json::from_value] at a type. *)
Class FromValue (A : Type) `{JsonValue} := from_value : Value -> result A string.

(** [serde_json_canonicalizer::to_string]: the RFC 8785 text of a value. *)
Class CanonicalJson `{JsonValue} := canonical_text : Value -> result string string.

(** ** Time and signatures *)

(** [time::OffsetDateTime::parse(_, &Rfc3339)]: the instant, in nanoseconds of Unix time. *)
Class Rfc3339 := rfc3339_nanos : string -> option Z.

Definition is_rfc3339 `{Rfc3339} (s : string) : bool := bool_decide (is_Some (rfc3339_nanos s)).

(** [ulid::Ulid::from_string]: the text the parsed identifier prints as. *)
Class UlidParser := ulid_text : string -> option string.

Definition is_ulid `{UlidParser} (s : string) : bool := bool_decide (is_Some (ulid_text s)).

(** [url::Url]: parsing, the scheme, the host, and the ASCII serialization of the origin. *)
Class UrlParser := {
  Url : Type;
  url_parse : string -> option Url;
  url_scheme : Url -> string;
  url_host : Url -> option string;
  url_origin : Url -> string;
}.

(** [nkeys::KeyPair::from_public_key]: whether the key is a user's, and the text it
    prints as. *)
Class NkeyParser := nkey_public : string -> option (bool * string).

(** [ed25519_dalek]: signing and verifying keys. *)
Class Ed25519 := {
  SigningKey : Type;
  VerifyingKey : Type;
  verifying_key : SigningKey -> VerifyingKey;
  verifying_key_to_bytes : VerifyingKey -> string;
  verifying_key_from_bytes : string -> option VerifyingKey;
  is_weak : VerifyingKey -> bool;
  sign : SigningKey -> string -> string;
  verify_strict : VerifyingKey -> string -> string -> bool;
}.

(** A signature is 64 bytes and verifies under the signer's key, which is 32 bytes. *)
Class Ed25519Laws `{Ed25519} : Prop := {
  sign_length k m : String.length (sign k m) = 64%nat;
  verify_sign k m : verify_strict (verifying_key k) m (sign k m) = true;
  verifying_key_length vk : String.length (verifying_key_to_bytes vk) = 32%nat;
  verifying_key_bytes vk : verifying_key_from_bytes (verifying_key_to_bytes vk) = Some vk;
}.

(** ** Instances

    Small implementations of the parameters, for closed examples. *)

(** A JSON value as its text. *)
Definition json_text : JsonValue := {| Value := string; value_null := "null" |}.

(** A codec for any countable type: the bits of the value's code. *)
Fixpoint code_text (p : positive) : string :=
  match p with
  | xH => ""
  | xO p => String "0" (code_text p)
  | xI p => String "1" (code_text p)
  end.

Fixpoint text_code (s : string) : positive :=
  match s with
  | EmptyString => xH
  | String c s => if (c =? "1")%char then xI (text_code s) else xO (text_code s)
  end.

Definition countable_codec (A : Type) `{Countable A} : JsonCodec A := {|
  to_vec a := Ok (code_text (encode a));
  from_slice s := ok_or (decode (text_code s)) "invalid value";
|}.

Lemma text_code_text p : text_code (code_text p) = p.
Proof. induction p; simpl; congruence. Qed.

Lemma countable_codec_laws (A : Type) `{Countable A} :
  @JsonCodecLaws A (countable_codec A).
Proof. intros a bytes [= <-]. simpl. by rewrite text_code_text, decode_encode. Qed.

(** A codec for the values of a table: the decimal position of the value. *)
Definition table_codec {A : Type} `{EqDecision A} (table : list A) : JsonCodec A := {|
  to_vec a :=
    match list_find (a =.) table with
    | Some (n, _) => if (N.of_nat n <=? u64_max)%N then Ok (decimal (N.of_nat n)) else Err "too large"
    | None => Err "not in the table"
    end;
  from_slice s :=
    match parse_unsigned u64_max s with
    | Some n => ok_or (table !! N.to_nat n) "not in the table"
    | None => Err "not a position"
    end;
|}.

Lemma table_codec_laws {A : Type} `{EqDecision A} (table : list A) :
  @JsonCodecLaws A (table_codec table).
Proof.
  intros a bytes. simpl. destruct (list_find (a =.) table) as [[n x]|] eqn:Hf; [|done].
  apply list_find_Some in Hf as (Hl & <- & _).
  destruct (N.leb_spec (N.of_nat n) u64_max); [|done]. intros [= <-].
  rewrite parse_decimal, Nat2N.id, Hl by done. done.
Qed.

(** The bytes reversed, cut or padded to 32, in place of SHA-256, and two keys, whose
    signatures are the message after a letter of the key, cut or padded. *)
Fixpoint take_padded (n : nat) (s : string) : string :=
  match n, s with
  | O, _ => ""
  | S n, String c s => String c (take_padded n s)
  | S n, EmptyString => String "." (take_padded n "")
  end.

Lemma length_take_padded n s : String.length (take_padded n s) = n.
Proof. revert s. induction n as [|n IH]; intros [|c s]; simpl; by rewrite ?IH. Qed.

Definition sample_sha256 : Sha256 := fun s => take_padded 32 (reverse s).

Definition sample_key_bytes (key : bool) : string :=
  take_padded 32 (if key then "key" else "other").

Definition sample_ed25519 : Ed25519 := {|
  SigningKey := bool;
  VerifyingKey := bool;
  verifying_key := fun k => k;
  verifying_key_to_bytes := sample_key_bytes;
  verifying_key_from_bytes := fun bytes =>
    if String.eqb bytes (sample_key_bytes true) then Some true
    else if String.eqb bytes (sample_key_bytes false) then Some false else None;
  is_weak := fun _ => false;
  sign := fun k m => take_padded 64 (String (if k : bool then "k" else "o") m);
  verify_strict := fun k m s =>
    String.eqb s (take_padded 64 (String (if k : bool then "k" else "o") m));
|}.

Lemma sample_ed25519_laws : @Ed25519Laws sample_ed25519.
Proof.
  split; intros; [apply length_take_padded|apply String.eqb_refl|apply length_take_padded|].
  by destruct vk.
Qed.
