(* ===== verification/Json.v ===== *)
(** * JSON values

    [serde_json::Value] as the protocol code takes it apart and builds it.  A number is an
    unsigned or a negative 64-bit integer, or a finite double.  An object is a
    [BTreeMap]: its members in the order of their names, each name once.  At the end, what
    derived deserialization makes of a value. *)

From Stdlib Require Import Ascii String Sorted QArith.
From S2P Require Import Prelude RustStr Extern.

Local Open Scope string_scope.

(** [Float negative mantissa exponent] is the double [± mantissa * 2 ^ exponent]. *)
Inductive JsonNumber :=
| PosInt (n : N)
| NegInt (z : Z)
| Float (negative : bool) (mantissa : N) (exponent : Z).

Inductive Json :=
| JNull
| JBool (b : bool)
| JNumber (n : JsonNumber)
| JString (s : string)
| JArray (items : list Json)
| JObject (members : list (string * Json)).

Global Instance JsonNumber_eq_dec : EqDecision JsonNumber.
Proof. solve_decision. Defined.

Global Instance Json_eq_dec : EqDecision Json.
Proof.
  refine (fix go v w := let _ : EqDecision Json := @go in
    match v, w with
    | JNull, JNull => left _
    | JBool a, JBool b => cast_if (decide (a = b))
    | JNumber a, JNumber b => cast_if (decide (a = b))
    | JString a, JString b => cast_if (decide (a = b))
    | JArray a, JArray b => cast_if (decide (a = b))
    | JObject a, JObject b => cast_if (decide (a = b))
    | _, _ => right _
    end); abstract congruence.
Defined.

Definition json_tree : JsonValue := {| Value := Json; value_null := JNull |}.

(** ** Access *)

(** [Number::as_i64] and [as_u64] *)
Definition number_as_i64 (n : JsonNumber) : option Z :=
  match n with
  | PosInt n => if (n <? 9223372036854775808)%N then Some (Z.of_N n) else None
  | NegInt z => Some z
  | Float _ _ _ => None
  end.

Definition number_as_u64 (n : JsonNumber) : option N :=
  match n with PosInt n => Some n | _ => None end.

Definition as_str (v : Json) : option string :=
  match v with JString s => Some s | _ => None end.

Definition as_object (v : Json) : option (list (string * Json)) :=
  match v with JObject m => Some m | _ => None end.

Definition as_array (v : Json) : option (list Json) :=
  match v with JArray l => Some l | _ => None end.

Definition as_i64 (v : Json) : option Z :=
  match v with JNumber n => number_as_i64 n | _ => None end.

(** [Map::get], [insert] and [remove] *)
Fixpoint map_get (k : string) (m : list (string * Json)) : option Json :=
  match m with
  | [] => None
  | (k', v) :: m => if String.eqb k k' then Some v else map_get k m
  end.

Fixpoint map_insert (k : string) (v : Json) (m : list (string * Json)) : list (string * Json) :=
  match m with
  | [] => [(k, v)]
  | (k', v') :: m' =>
      if String.eqb k k' then (k, v) :: m'
      else if str_le k k' then (k, v) :: m
      else (k', v') :: map_insert k v m'
  end.

Definition map_remove (k : string) (m : list (string * Json)) : list (string * Json) :=
  filter (fun member => fst member <> k) m.

(** [Value::get], and indexing, which gives [null] for a missing member. *)
Definition value_get (k : string) (v : Json) : option Json :=
  m ← as_object v; map_get k m.

Definition value_index (k : string) (v : Json) : Json := default JNull (value_get k v).

(** The object of a derived [Serialize]: its members inserted one by one. *)
Definition object (fields : list (string * Json)) : Json :=
  JObject (foldr (fun field => map_insert (fst field) (snd field)) [] fields).

(** A member that is left out when there is none
    ([skip_serializing_if = "Option::is_none"]). *)
Definition optional {A} (name : string) (f : A -> Json) (o : option A) : list (string * Json) :=
  match o with Some a => [(name, f a)] | None => [] end.

(** An [i64] as a number. *)
Definition JInt (z : Z) : Json := JNumber (if (z <? 0)%Z then NegInt z else PosInt (Z.to_N z)).

(** ** Numbers that are exact in JSON *)

(** The value of a number. *)
Definition number_value (n : JsonNumber) : Q :=
  match n with
  | PosInt n => inject_Z (Z.of_N n)
  | NegInt z => inject_Z z
  | Float negative m e => inject_Z (if negative then - Z.of_N m else Z.of_N m) * Qpower 2 e
  end.

(** [value.fract() == 0.0 && value.abs() > 2^53 - 1] on a double.  On an integer that is
    converted first the answer is that of the integer itself: rounding changes no integer
    up to the bound and takes none beyond it back to it. *)
Definition unsafe_double (n : JsonNumber) : bool :=
  match n with
  | PosInt n => (MAX_SAFE_INTEGER <? n)%N
  | NegInt z => (MAX_SAFE_INTEGER <? Z.abs_N z)%N
  | Float _ m e =>
      if (0 <=? e)%Z then (MAX_SAFE_INTEGER <? m * 2 ^ Z.to_N e)%N
      else (m mod 2 ^ Z.to_N (- e) =? 0)%N && (MAX_SAFE_INTEGER <? m / 2 ^ Z.to_N (- e))%N
  end.

(** Two values that differ at most in how their numbers are written. *)
Fixpoint json_same (v w : Json) : Prop :=
  match v, w with
  | JNull, JNull => True
  | JBool a, JBool b => a = b
  | JNumber a, JNumber b => (number_value a == number_value b)%Q
  | JString a, JString b => a = b
  | JArray a, JArray b =>
      (fix go a b :=
         match a, b with
         | [], [] => True
         | v :: a, w :: b => json_same v w /\ go a b
         | _, _ => False
         end) a b
  | JObject a, JObject b =>
      (fix go a b :=
         match a, b with
         | [], [] => True
         | (k, v) :: a, (l, w) :: b => k = l /\ json_same v w /\ go a b
         | _, _ => False
         end) a b
  | _, _ => False
  end.

Definition name_lt (a b : string) : Prop := str_le a b = true /\ a <> b.

(** A value that can exist: the members of every object are in order. *)
Fixpoint json_sorted (v : Json) : Prop :=
  match v with
  | JArray l => (fix go l := match l with [] => True | v :: l => json_sorted v /\ go l end) l
  | JObject m =>
      StronglySorted name_lt (fst <$> m) /\
      (fix go m := match m with [] => True | (_, v) :: m => json_sorted v /\ go m end) m
  | _ => True
  end.

(** A value whose integers are all exact in JSON. *)
Fixpoint json_exact (v : Json) : Prop :=
  match v with
  | JNumber n => unsafe_double n = false
  | JArray l => (fix go l := match l with [] => True | v :: l => json_exact v /\ go l end) l
  | JObject m => (fix go m := match m with [] => True | (_, v) :: m => json_exact v /\ go m end) m
  | _ => True
  end.

Local Existing Instance json_tree.

(** RFC 8785: the canonical text is JSON text for the value. *)
Class CanonicalJsonLaws `{!CanonicalJson} : Prop :=
  canonical_text_same : forall v w text,
    json_sorted v -> json_sorted w -> json_exact v -> json_exact w ->
    canonical_text v = Ok text -> canonical_text w = Ok text -> json_same v w.

(** ** Lemmas *)

Lemma map_get_insert j k v m :
  map_get j (map_insert k v m) = if String.eqb j k then Some v else map_get j m.
Proof.
  induction m as [|[k' v'] m IH]; simpl; [done|].
  destruct (String.eqb_spec k k') as [<-|Hne]; simpl.
  - by destruct (String.eqb_spec j k).
  - destruct (str_le k k'); simpl; [by destruct (String.eqb_spec j k)|].
    rewrite IH. destruct (String.eqb_spec j k'), (String.eqb_spec j k); congruence.
Qed.

Lemma get_object k fields : value_get k (object fields) = map_get k fields.
Proof.
  unfold value_get, object. simpl. induction fields as [|[k' v] fields IH]; simpl; [done|].
  rewrite map_get_insert. by destruct (String.eqb k k').
Qed.

Lemma map_get_app k l l' :
  map_get k (l ++ l') = match map_get k l with Some v => Some v | None => map_get k l' end.
Proof. induction l as [|[k' v] l IH]; simpl; [done|]. by destruct (String.eqb k k'). Qed.

Lemma map_get_optional {A} k name (f : A -> Json) o :
  map_get k (optional name f o) = if String.eqb k name then f <$> o else None.
Proof. destruct o; simpl; by destruct (String.eqb k name). Qed.

(** The same values have the same members. *)
Lemma json_same_get k v w :
  json_same v w ->
  match value_get k v, value_get k w with
  | Some a, Some b => json_same a b
  | None, None => True
  | _, _ => False
  end.
Proof.
  destruct v as [| | | | |m], w as [| | | | |m']; try done. unfold value_get. simpl.
  revert m'. induction m as [|[a v] m IH]; intros [|[b w] m']; try done.
  intros (<- & Hv & Hm). simpl. destruct (String.eqb k a); [done|]. by apply IH.
Qed.

Lemma object_same k fields fields' :
  json_same (object fields) (object fields') ->
  match map_get k fields, map_get k fields' with
  | Some a, Some b => json_same a b
  | None, None => True
  | _, _ => False
  end.
Proof. intros Hs%(json_same_get k). by rewrite !get_object in Hs. Qed.

(** [member k of Hs as H]: what the sameness [Hs] of two objects says of their members
    [k]. *)
Tactic Notation "member" constr(k) "of" hyp(Hs) "as" ident(H) :=
  pose proof (object_same k _ _ Hs) as H; cbn in H.

(** The same for a member that may be left out. *)
Tactic Notation "optional_member" constr(k) "of" hyp(Hs) "as" ident(H) :=
  pose proof (object_same k _ _ Hs) as H; rewrite ?map_get_app, ?map_get_optional in H; cbn in H.

Lemma int_same a b : json_same (JInt a) (JInt b) -> a = b.
Proof.
  assert (forall z, number_value (if (z <? 0)%Z then NegInt z else PosInt (Z.to_N z)) = inject_Z z)
    as Hv.
  { intros z. destruct (Z.ltb_spec z 0); simpl; [done|]. by rewrite Z2N.id by lia. }
  cbn [json_same JInt]. rewrite !Hv. unfold Qeq. simpl. lia.
Qed.

Lemma unsigned_same n m : json_same (JNumber (PosInt n)) (JNumber (PosInt m)) -> n = m.
Proof. cbn. unfold Qeq. simpl. lia. Qed.

Lemma array_same {A} (f : A -> Json) l l' :
  (forall a b, json_same (f a) (f b) -> a = b) ->
  json_same (JArray (f <$> l)) (JArray (f <$> l')) -> l = l'.
Proof.
  intros Hf. revert l'. induction l as [|a l IH]; intros [|b l']; try done.
  intros [Hab Hl]. f_equal; [by apply Hf|by apply IH].
Qed.

Lemma texts_same l l' : json_same (JArray (JString <$> l)) (JArray (JString <$> l')) -> l = l'.
Proof. by apply array_same. Qed.

Lemma map_insert_members k v m (P : string * Json -> Prop) :
  P (k, v) -> Forall P m -> Forall P (map_insert k v m).
Proof.
  intros Hk. induction 1 as [|[k' v'] m Hhd Hm IH]; simpl; [by constructor|].
  destruct (String.eqb k k'); [by constructor|]. destruct (str_le k k'); by repeat constructor.
Qed.

Lemma name_lt_trans a b c : name_lt a b -> name_lt b c -> name_lt a c.
Proof.
  intros [Hab Hne] [Hbc _]. split; [by eapply str_le_trans|]. intros ->. apply Hne.
  by apply str_le_antisym.
Qed.

Lemma map_insert_sorted k v m :
  StronglySorted name_lt (fst <$> m) -> StronglySorted name_lt (fst <$> map_insert k v m).
Proof.
  induction m as [|[k' v'] m IH]; simpl; [intros _; repeat constructor|].
  intros [Hm Hall]%StronglySorted_inv. destruct (String.eqb_spec k k') as [<-|Hne].
  { by constructor. }
  destruct (str_le k k') eqn:Hle; simpl; constructor; [by constructor| |by apply IH|].
  - constructor; [done|]. eapply Forall_impl; [exact Hall|]. intros x. by apply name_lt_trans.
  - rewrite Forall_fmap in Hall |- *. apply map_insert_members; [|done].
    split; [by apply str_le_total|]. by intros ->.
Qed.

Definition members_all (P : Json -> Prop) (m : list (string * Json)) : Prop :=
  Forall (fun member => P (snd member)) m.

Lemma object_sorted fields : members_all json_sorted fields -> json_sorted (object fields).
Proof.
  assert (forall m, members_all json_sorted m <->
    (fix go m := match m with [] => True | (_, v) :: m => json_sorted v /\ go m end) m) as Hall.
  { induction m as [|[k v] m IH]; [split; [done|by constructor]|].
    unfold members_all in *. rewrite Forall_cons, IH. done. }
  intros Hf. unfold object. cbn [json_sorted]. rewrite <- Hall. clear Hall.
  induction Hf as [|[k v] fields Hv Hf [IHs IHm]]; simpl; [split; constructor|].
  split; [by apply map_insert_sorted|by apply map_insert_members].
Qed.

Lemma object_exact fields : members_all json_exact fields -> json_exact (object fields).
Proof.
  assert (forall m, members_all json_exact m <->
    (fix go m := match m with [] => True | (_, v) :: m => json_exact v /\ go m end) m) as Hall.
  { induction m as [|[k v] m IH]; [split; [done|by constructor]|].
    unfold members_all in *. rewrite Forall_cons, IH. done. }
  intros Hf. unfold object. cbn [json_exact]. rewrite <- Hall. clear Hall.
  induction Hf as [|[k v] fields Hv Hf IH]; simpl; [constructor|by apply map_insert_members].
Qed.

Lemma array_sorted l : Forall json_sorted l -> json_sorted (JArray l).
Proof. induction 1; [done|split; assumption]. Qed.

Lemma array_exact l : Forall json_exact l -> json_exact (JArray l).
Proof. induction 1; [done|split; assumption]. Qed.

Lemma int_exact z : (Z.abs z <= Z.of_N MAX_SAFE_INTEGER)%Z -> json_exact (JInt z).
Proof.
  intros Hz. unfold JInt. destruct (Z.ltb_spec z 0); cbn [json_exact unsafe_double];
    apply N.ltb_ge; lia.
Qed.

(** Values that can exist and are exact, the ones canonical text determines. *)
Definition json_plain (v : Json) : Prop := json_sorted v /\ json_exact v.

Lemma plain_string s : json_plain (JString s).
Proof. done. Qed.

Lemma plain_bool b : json_plain (JBool b).
Proof. done. Qed.

Lemma plain_int z : (0 <= z <= Z.of_N MAX_SAFE_INTEGER)%Z -> json_plain (JInt z).
Proof. intros Hz. split; [done|]. apply int_exact. lia. Qed.

Lemma plain_unsigned n : (n <= MAX_SAFE_INTEGER)%N -> json_plain (JNumber (PosInt n)).
Proof. intros Hn. split; [done|]. by apply N.ltb_ge. Qed.

Lemma plain_object fields : members_all json_plain fields -> json_plain (object fields).
Proof.
  intros Hf. split; [apply object_sorted|apply object_exact];
    (eapply Forall_impl; [exact Hf|]; by intros ? []).
Qed.

Lemma plain_array {A} (f : A -> Json) l :
  (forall a, a ∈ l -> json_plain (f a)) -> json_plain (JArray (f <$> l)).
Proof.
  intros Hl. split; [apply array_sorted|apply array_exact];
    apply Forall_fmap, Forall_forall; intros a Ha; by destruct (Hl a Ha).
Qed.

Lemma plain_optional {A} name (f : A -> Json) o :
  (forall a, o = Some a -> json_plain (f a)) -> members_all json_plain (optional name f o).
Proof. destruct o; intros Hf; constructor; [by apply Hf|constructor]. Qed.

(** [plain] proves a serialized record plain, but for its own conditions on integers. *)
Ltac plain :=
  repeat lazymatch goal with
  | |- json_plain (JString _) => apply plain_string
  | |- json_plain (JBool _) => apply plain_bool
  | |- json_plain (object _) => apply plain_object
  | |- json_plain (JArray (_ <$> _)) => apply plain_array; intros
  | |- json_plain (JNumber _) => fail
  | |- json_plain (JInt _) => fail
  | |- json_plain (?f _) => progress unfold f
  | |- members_all _ (optional _ _ _) => apply plain_optional; intros
  | |- members_all _ (_ ++ _) => apply Forall_app; split
  | |- Forall _ (_ ++ _) => apply Forall_app; split
  | |- members_all _ _ => unfold members_all
  | |- Forall _ (optional ?n ?f ?o) => change (members_all json_plain (optional n f o))
  | |- Forall _ (_ :: _) => apply Forall_cons; split; cbn [snd]
  | |- Forall _ [] => apply Forall_nil; exact I
  end.

(** Members that agree but for the value of [k]. *)
Definition same_but (k : string) : list (string * Json) -> list (string * Json) -> Prop :=
  Forall2 (fun a b => fst a = fst b /\ (fst a <> k -> snd a = snd b)).

Lemma map_insert_same_but k j v v' m m' :
  (j <> k -> v = v') -> same_but k m m' -> same_but k (map_insert j v m) (map_insert j v' m').
Proof.
  intros Hv. induction 1 as [|[a w] [b w'] m m' [Hab Hw] Hm IH]; simpl in *; [by repeat constructor|].
  subst b. destruct (String.eqb_spec j a) as [<-|]; [by repeat constructor|].
  destruct (str_le j a); by repeat constructor.
Qed.

Lemma object_same_but k fields fields' :
  same_but k fields fields' ->
  exists m m', object fields = JObject m /\ object fields' = JObject m' /\ same_but k m m'.
Proof.
  intros Hf. eexists _, _. split_and!; [done..|].
  induction Hf as [|[a v] [b v'] fields fields' [Hab Hv] Hf IH]; simpl in *; [constructor|].
  subst b. by apply map_insert_same_but.
Qed.

Lemma map_remove_same_but k m m' : same_but k m m' -> map_remove k m = map_remove k m'.
Proof.
  unfold map_remove. induction 1 as [|[a v] [b v'] m m' [Hab Hv] Hm IH]; [done|].
  simpl in *. subst b. rewrite !filter_cons. simpl. case_decide; [|done]. by rewrite Hv, IH.
Qed.

Lemma map_get_same_but k j m m' : same_but k m m' -> j <> k -> map_get j m = map_get j m'.
Proof.
  intros Hm Hj. induction Hm as [|[a v] [b v'] m m' [Hab Hv] Hm IH]; [done|].
  simpl in *. subst b. destruct (String.eqb_spec j a) as [->|]; [by rewrite Hv|done].
Qed.

(** A canonicalizer for the values of a table: the decimal position of the value. *)
Definition canonical_table (table : list Json) : CanonicalJson := to_vec (JsonCodec := table_codec table).

Lemma json_same_refl v : json_same v v.
Proof.
  revert v. fix go 1. intros [|b|n|s|l|m]; cbn [json_same]; [done|done|apply Qeq_refl|done| |].
  - induction l as [|v l IH]; [done|]. split; [apply go|apply IH].
  - induction m as [|[k v] m IH]; [done|]. split_and!; [done|apply go|apply IH].
Qed.

Lemma canonical_table_laws table : @CanonicalJsonLaws (canonical_table table).
Proof.
  intros v w text _ _ _ _ Hv Hw.
  pose proof (table_codec_laws table v text Hv) as Hv'.
  pose proof (table_codec_laws table w text Hw) as Hw'.
  rewrite Hv' in Hw'. injection Hw' as ->. apply json_same_refl.
Qed.

(** ** Derived deserialization

    What [#[derive(Deserialize)]] makes of a [serde_json::Value]: a struct from an object,
    or from an array in the order of its fields; an enum without data from its name, or
    from an object with that one name and [null].  The texts of errors are abbreviated. *)

(** The members of a struct by name.  [deny_unknown_fields] refuses any other member. *)
Definition Members : Type := string -> option Json.

(** The first [required] elements of an array have to be there; the fields after them
    have a default. *)
Definition struct_members (fields : list string) (required : nat) (v : Json) :
    result Members string :=
  match v with
  | JObject m =>
      if forallb (fun member => bool_decide (fst member ∈ fields)) m then Ok (fun k => map_get k m)
      else Err "unknown field"
  | JArray l =>
      if Nat.leb required (List.length l) && Nat.leb (List.length l) (List.length fields) then
        Ok (fun k => map_get k (zip fields l))
      else Err "invalid length"
  | _ => Err "invalid type"
  end.

Definition member {T} (m : Members) (k : string) (decode : Json -> result T string) :
    result T string :=
  match m k with
  | Some v => decode v
  | None => Err ("missing field " +:+ k)
  end.

(** A member of type [Option<T>], which may also be missing. *)
Definition optional_member {T} (m : Members) (k : string) (decode : Json -> result T string) :
    result (option T) string :=
  match m k with
  | None | Some JNull => Ok None
  | Some v => let? t := decode v in Ok (Some t)
  end.

Definition string_value (v : Json) : result string string :=
  match v with JString s => Ok s | _ => Err "invalid type" end.

Definition any_value (v : Json) : result Json string := Ok v.

(** The first of [values] that has this name. *)
Fixpoint named {T} (name : T -> string) (values : list T) (s : string) : option T :=
  match values with
  | [] => None
  | t :: values => if String.eqb (name t) s then Some t else named name values s
  end.

Definition enum_value {T} (name : T -> string) (values : list T) (v : Json) : result T string :=
  match v with
  | JString s | JObject [(s, JNull)] => ok_or (named name values s) "unknown variant"
  | _ => Err "invalid type"
  end.

(** ** Lemmas *)

Lemma named_name {T} (name : T -> string) values t :
  (forall a b, a ∈ values -> b ∈ values -> name a = name b -> a = b) -> t ∈ values ->
  named name values (name t) = Some t.
Proof.
  intros Hinj. induction values as [|a values IH]; [by intros ?%not_elem_of_nil|].
  intros Ht. simpl. destruct (String.eqb_spec (name a) (name t)) as [Heq|Hne].
  - f_equal. apply Hinj; [left|done|done].
  - apply elem_of_cons in Ht as [->|Ht]; [done|]. apply IH; [|done].
    intros x y Hx Hy. apply Hinj; by right.
Qed.

Lemma enum_value_name {T} (name : T -> string) values t :
  (forall a b, a ∈ values -> b ∈ values -> name a = name b -> a = b) -> t ∈ values ->
  enum_value name values (JString (name t)) = Ok t.
Proof. intros. simpl. by rewrite named_name. Qed.

Lemma map_insert_fields k v (m : list (string * Json)) (fields : list string) :
  k ∈ fields -> forallb (fun member => bool_decide (fst member ∈ fields)) m = true ->
  forallb (fun member => bool_decide (fst member ∈ fields)) (map_insert k v m) = true.
Proof.
  intros Hk. induction m as [|[k' v'] m IH]; cbn; [by rewrite bool_decide_true|].
  intros [H1 H2]%andb_true_iff.
  repeat case_match; cbn; rewrite ?H1, ?H2, ?IH, ?(bool_decide_true (k ∈ fields)) by done; done.
Qed.

(** The members of a serialized struct. *)
Lemma struct_members_object fields required members :
  forallb (fun member => bool_decide (fst member ∈ fields)) members = true ->
  exists m, struct_members fields required (object members) = Ok m /\
    forall k, m k = map_get k members.
Proof.
  intros Hf. unfold object. cbn [struct_members].
  assert (forallb (fun member => bool_decide (fst member ∈ fields))
    (foldr (fun field => map_insert (fst field) (snd field)) [] members) = true) as ->.
  { induction members as [|[k v] members IH]; [done|]. cbn [foldr fst snd].
    apply andb_true_iff in Hf as [Hk Hf]. apply map_insert_fields; [|by apply IH].
    by apply bool_decide_eq_true in Hk. }
  eexists. split; [done|]. intros k. exact (get_object k members).
Qed.
