(* ===== verification/Transcript.v ===== *)
(** * Transcripts

    What is hashed before it is signed: a list of components, each preceded by its length
    as four big-endian bytes.  [authorization.rs], [session_proof.rs], [live.rs] and
    [transfer.rs] of [crates/protocol/src] all write transcripts this way, and start them
    with the text of a domain. *)

From Stdlib Require Import Ascii String.
From S2P Require Import Prelude RustStr Extern.

Local Open Scope string_scope.

(** [push_component] over the components; [too_large] is the error of a component whose
    length does not fit. *)
Fixpoint transcript {E} (too_large : E) (components : list string) : result string E :=
  match components with
  | [] => Ok ""
  | component :: components =>
      if (u32_max <? N.of_nat (String.length component))%N then Err too_large
      else
        let? rest := transcript too_large components in
        Ok (be_bytes_u32 (N.of_nat (String.length component)) +:+ component +:+ rest)
  end.

(** A transcript determines its components. *)
Lemma transcript_inj {E} (e e' : E) l l' bytes :
  transcript e l = Ok bytes -> transcript e' l' = Ok bytes -> l = l'.
Proof.
  revert l' bytes. induction l as [|c l IH]; intros [|c' l'] bytes; cbn [transcript]; [done| | |].
  - intros [= <-]. case_match; [done|]. rewrite let_ok. by intros (rest & _ & [=]).
  - case_match; [done|]. rewrite let_ok. by intros (rest & _ & [= <-]) [=].
  - destruct (N.ltb_spec u32_max (N.of_nat (String.length c))) as [|Hc]; [done|].
    destruct (N.ltb_spec u32_max (N.of_nat (String.length c'))) as [|Hc']; [done|].
    rewrite !let_ok. intros (rest & Hl & Hb) (rest' & Hl' & Hb').
    assert (be_bytes_u32 (N.of_nat (String.length c)) +:+ (c +:+ rest) =
            be_bytes_u32 (N.of_nat (String.length c')) +:+ (c' +:+ rest')) as Heq
      by (apply ok_inj in Hb as ->; by apply ok_inj in Hb').
    apply append_eq_length in Heq as [Hlen Heq]; [|done].
    apply be_bytes_u32_inj in Hlen; [|done..]. apply Nat2N.inj in Hlen.
    apply append_eq_length in Heq as [-> ->]; [|done]. f_equal. by eapply IH.
Qed.

(** [components H] takes an equation of two lists of components apart without looking
    into the components. *)
Lemma cons_parts {A} (x y : A) l m : x :: l = y :: m -> x = y /\ l = m.
Proof. intros [= -> ->]. done. Qed.

Ltac components H :=
  repeat (let E := fresh "E" in apply cons_parts in H as [E H]);
  repeat match goal with
  | E : be_bytes_u64 _ = be_bytes_u64 _ |- _ => apply be_bytes_u64_inj in E; [|lia..]
  | E : be_bytes_i64 _ = be_bytes_i64 _ |- _ => apply be_bytes_i64_inj in E; [|lia..]
  end.

Section digests.
Context `{Sha256}.

(** Two different inputs of SHA-256 with one digest. *)
Definition sha256_collision : Prop := exists x y, x <> y /\ sha256 x = sha256 y.

Definition transcript_digest {E} (too_large : E) (components : list string) : result string E :=
  let? bytes := transcript too_large components in
  Ok (sha256 bytes).

Lemma sha256_binds x y : sha256 x = sha256 y -> x = y \/ sha256_collision.
Proof. intros Heq. destruct (decide (x = y)); [by left|right]. by exists x, y. Qed.

Lemma transcript_digest_binds {E} (e e' : E) l l' digest :
  transcript_digest e l = Ok digest -> transcript_digest e' l' = Ok digest ->
  l = l' \/ sha256_collision.
Proof.
  unfold transcript_digest. rewrite !let_ok. intros (b & Hb & [= <-]) (b' & Hb' & [= Heq]).
  destruct (sha256_binds _ _ Heq) as [->|]; [|by right]. left. by eapply transcript_inj.
Qed.
End digests.
