(* ===== verification/Base64.v ===== *)
(** * Unpadded base64url

    An implementation of the [Base64Url] interface (RFC 4648, section 5), with its laws:
    the theorems that rely on them can be evaluated. *)

From Stdlib Require Import Ascii String.
From S2P Require Import Prelude RustStr Extern.

Local Open Scope N_scope.

Definition digit (d : N) : ascii :=
  ascii_of_N
    (if d <? 26 then 65 + d
     else if d <? 52 then 71 + d
     else if d <? 62 then d - 4
     else if d =? 62 then 45 else 95).

Definition value (c : ascii) : option N :=
  if is_ascii_uppercase c then Some (byte_of c - 65)
  else if is_ascii_lowercase c then Some (byte_of c - 71)
  else if is_ascii_digit c then Some (byte_of c + 4)
  else if (c =? "-")%char then Some 62
  else if (c =? "_")%char then Some 63
  else None.

Fixpoint encode_bytes (s : string) : string :=
  match s with
  | EmptyString => ""
  | String a EmptyString =>
      let a := byte_of a in
      String (digit (a / 4)) (String (digit (a mod 4 * 16)) "")
  | String a (String b EmptyString) =>
      let a := byte_of a in
      let b := byte_of b in
      String (digit (a / 4)) (String (digit (a mod 4 * 16 + b / 16))
        (String (digit (b mod 16 * 4)) ""))
  | String a (String b (String c s)) =>
      let a := byte_of a in
      let b := byte_of b in
      let c := byte_of c in
      String (digit (a / 4)) (String (digit (a mod 4 * 16 + b / 16))
        (String (digit (b mod 16 * 4 + c / 64)) (String (digit (c mod 64))
           (encode_bytes s))))
  end.

(** Bits beyond the last byte must be zero. *)
Fixpoint decode_text (s : string) : option string :=
  match s with
  | EmptyString => Some ""
  | String w (String x EmptyString) =>
      w ← value w; x ← value x;
      if x mod 16 =? 0 then Some (String (ascii_of_N (w * 4 + x / 16)) "") else None
  | String w (String x (String y EmptyString)) =>
      w ← value w; x ← value x; y ← value y;
      if y mod 4 =? 0 then
        Some (String (ascii_of_N (w * 4 + x / 16))
                (String (ascii_of_N (x mod 16 * 16 + y / 4)) ""))
      else None
  | String w (String x (String y (String z s))) =>
      w ← value w; x ← value x; y ← value y; z ← value z;
      rest ← decode_text s;
      Some (String (ascii_of_N (w * 4 + x / 16))
              (String (ascii_of_N (x mod 16 * 16 + y / 4))
                 (String (ascii_of_N (y mod 4 * 64 + z)) rest)))
  | String _ EmptyString => None
  end.

(** Everything about one digit, checked for each of the 64. *)
Lemma digit_spec d :
  d < 64 -> value (digit d) = Some d /\ is_base64url (digit d) = true.
Proof.
  intros Hd.
  assert (In d (List.map N.of_nat (seq 0 64))) as Hin.
  { apply in_map_iff. exists (N.to_nat d). split; [lia|]. apply in_seq. lia. }
  assert (Forall (fun d => value (digit d) = Some d /\ is_base64url (digit d) = true)
            (List.map N.of_nat (seq 0 64))) as Hall
    by (repeat constructor; reflexivity).
  by apply (proj1 (List.Forall_forall _ _) Hall).
Qed.

Lemma byte_lt c : byte_of c < 256.
Proof. apply N_ascii_bounded. Qed.

Lemma byte_char c : ascii_of_N (byte_of c) = c.
Proof. apply ascii_N_embedding. Qed.

(** The arithmetic of a group: six-bit digits of three bytes and back. *)
Lemma split_byte n k m : 0 < k -> n < k * m -> n / k < m /\ n / k * k + n mod k = n.
Proof.
  intros Hk Hn. split; [by apply N.Div0.div_lt_upper_bound|].
  pose proof (N.div_mod n k ltac:(lia)) as Hdm. rewrite N.mul_comm in Hdm. lia.
Qed.

Lemma combine_digits a k b : 0 < k -> b < k -> (a * k + b) / k = a /\ (a * k + b) mod k = b.
Proof.
  intros Hk Hb. split.
  - rewrite N.div_add_l by lia. rewrite N.div_small by done. lia.
  - rewrite N.add_comm, N.Div0.mod_add. by apply N.mod_small.
Qed.

Lemma digits_of a k m : 0 < k -> a < k * m -> a / k < m /\ a mod k < k.
Proof.
  intros Hk Ha. split; [by apply N.Div0.div_lt_upper_bound|]. apply N.mod_upper_bound. lia.
Qed.

(** What the proofs below need of one byte, split above its low [k] values. *)
Ltac split_byte_of c k m H :=
  destruct (digits_of (byte_of c) k m) as [? ?]; [lia|apply byte_lt|];
  destruct (split_byte (byte_of c) k m) as [_ H]; [lia|apply byte_lt|].

Ltac values := rewrite !(fun d Hd => proj1 (digit_spec d Hd)) by lia; simpl.

Lemma decode_encode_bytes s : decode_text (encode_bytes s) = Some s.
Proof.
  revert s. fix IH 1. intros [|a [|b [|c s]]]; simpl; [done|..]; split_byte_of a 4 64 Ha.
  - values. rewrite N.Div0.mod_mul, N.div_mul by done. simpl. by rewrite Ha, byte_char.
  - split_byte_of b 16 16 Hb. values.
    destruct (combine_digits (byte_of a mod 4) 16 (byte_of b / 16)) as [-> ->]; [lia|done|].
    rewrite N.Div0.mod_mul, N.div_mul by done. simpl. by rewrite Ha, Hb, !byte_char.
  - split_byte_of b 16 16 Hb. split_byte_of c 64 4 Hc. values. rewrite IH. simpl.
    destruct (combine_digits (byte_of a mod 4) 16 (byte_of b / 16)) as [-> ->]; [lia|done|].
    destruct (combine_digits (byte_of b mod 16) 4 (byte_of c / 64)) as [-> ->]; [lia|done|].
    by rewrite Ha, Hb, Hc, !byte_char.
Qed.

Lemma encode_alphabet s : all_chars is_base64url (encode_bytes s) = true.
Proof.
  revert s. fix IH 1. intros [|a [|b [|c s]]]; simpl; [done|..]; split_byte_of a 4 64 Ha;
    [|split_byte_of b 16 16 Hb..]; [..|split_byte_of c 64 4 Hc];
    rewrite !(fun d Hd => proj2 (digit_spec d Hd)) by lia; simpl; auto.
Qed.

Lemma encode_length s :
  String.length (encode_bytes s) = ((4 * String.length s + 2) / 3)%nat.
Proof.
  revert s. fix IH 1. intros [|a [|b [|c s]]]; [done..|].
  cbn [encode_bytes String.length]. rewrite IH.
  replace (4 * S (S (S (String.length s))) + 2)%nat
    with ((4 * String.length s + 2) + 4 * 3)%nat by lia.
  rewrite Nat.div_add by lia. lia.
Qed.

Definition rfc4648 : Base64Url :=
  {| b64_encode := encode_bytes; b64_decode := decode_text |}.

Lemma rfc4648_laws : @Base64UrlLaws rfc4648.
Proof.
  split; [exact decode_encode_bytes|exact encode_alphabet|exact encode_length].
Qed.
