(* ===== verification/Kv.v ===== *)
(** * The NATS key-value store

    The interface of [async_nats::jetstream::kv::Store] the coordination code is
    written against: the keyed-jobs coordinator, the operation repository and the
    runtime leases.  The store is shared with other clients.  A call takes the world
    before the request and returns the world after it; between them other clients may
    have acted, so nothing relates the two but the laws of [KvLaws].

    [MemKv] is an implementation: an in-memory bucket in which a scripted sequence of
    other clients' writes takes effect between the calls. *)

From Stdlib Require Import Ascii String.
From S2P Require Import Prelude RustStr.

Local Open Scope N_scope.

(** [kv::Operation] and [kv::Entry] *)
Inductive Operation :=
| Put
| Delete
| Purge.

Record Entry := mkEntry {
  entry_value : string;
  entry_revision : N;
  entry_operation : Operation;
}.

(** The kinds of error the callers tell apart, with the text of the error. *)
Inductive KvErrorKind :=
| WrongLastRevision
| AlreadyExists
| TimedOut
| OtherKind.

Record KvError := mkKvError {
  kv_kind : KvErrorKind;
  kv_message : string;
}.

Global Instance Operation_eq_dec : EqDecision Operation.
Proof. solve_decision. Defined.
Global Instance KvErrorKind_eq_dec : EqDecision KvErrorKind.
Proof. solve_decision. Defined.

(** A key holds a value when its last message is a put. *)
Definition live (entry : option Entry) : option Entry :=
  match entry with
  | Some e => if bool_decide (entry_operation e = Put) then Some e else None
  | None => None
  end.

Class KvStore := {
  World : Type;
  kv_entry : string -> World -> result (option Entry) KvError * World;
  kv_create : string -> string -> World -> result N KvError * World;
  kv_update : string -> string -> N -> World -> result N KvError * World;
  kv_delete_expect_revision : string -> N -> World -> result unit KvError * World;
}.

(** ** What the store promises

    [kv_at w key] is the last message of the key in the stream behind the bucket, and
    [kv_le w w'] says that [w'] comes after [w]. *)
Class KvSpec `{KvStore} := {
  kv_at : World -> string -> option Entry;
  kv_le : relation World;
}.

Section written.
Context `{KvSpec}.

(** A write of [entry] to [key] that takes effect in [w]. *)
Definition kv_written (w w' : World) (key : string) (entry : Entry) : Prop :=
  kv_at w' key = Some entry /\
  (forall e, kv_at w key = Some e -> entry_revision e < entry_revision entry) /\
  forall key', key' <> key -> kv_at w' key' = kv_at w key'.

Definition kv_same (w w' : World) : Prop := forall key, kv_at w' key = kv_at w key.

(** The revision a conditional write expects: that of the last message of the key, or
    0 when there is none. *)
Definition at_revision (revision : N) (entry : option Entry) : Prop :=
  match entry with
  | Some e => entry_revision e = revision
  | None => revision = 0
  end.

(** What became of a write request that reached the store in [w]: it was accepted,
    which requires [ready]; it was refused for the reason [refused] and nothing was
    written; or it failed in a way that leaves open whether it was written. *)
Definition kv_outcome (w w' : World) (key : string) (value : string) (op : Operation)
    (ready : option Entry -> Prop) (refused : KvErrorKind) (r : result N KvError) : Prop :=
  match r with
  | Ok revision =>
      ready (kv_at w key) /\ kv_written w w' key (mkEntry value revision op)
  | Err error =>
      (kv_same w w' /\ (kv_kind error = refused -> ~ ready (kv_at w key))) \/
      (kv_kind error <> refused /\ ready (kv_at w key) /\
       exists revision, kv_written w w' key (mkEntry value revision op))
  end.
End written.

(** The laws.  A read returns what the key held at some earlier moment, not
    necessarily the present one (a replica may answer).  A write takes effect at one
    moment [w1] between the request and its answer.  Revisions are sequence numbers of
    one stream: a key's entry is replaced only by one with a larger revision, the revision
    identifies the entry, and a write conditional on a revision succeeds only if its key
    had no later message. *)
Class KvLaws `{KvSpec} : Prop := {
  kv_le_preorder :: PreOrder kv_le;
  kv_revision_pos w key e : kv_at w key = Some e -> 0 < entry_revision e;
  kv_le_entry w w' key e e' :
    kv_le w w' -> kv_at w key = Some e -> kv_at w' key = Some e' ->
    e' = e \/ entry_revision e < entry_revision e';
  kv_entry_unique w1 w2 w key e e' :
    kv_le w1 w -> kv_le w2 w -> kv_at w1 key = Some e -> kv_at w2 key = Some e' ->
    entry_revision e = entry_revision e' -> e = e';
  kv_entry_spec key w r w' :
    kv_entry key w = (r, w') ->
    kv_le w w' /\
    forall o, r = Ok o -> exists w1, kv_le w1 w' /\ kv_at w1 key = o;
  kv_create_spec key value w r w' :
    kv_create key value w = (r, w') ->
    exists w1, kv_le w w1 /\ kv_le w1 w' /\
      kv_outcome w1 w' key value Put (fun e => live e = None) AlreadyExists r;
  kv_update_spec key value revision w r w' :
    kv_update key value revision w = (r, w') ->
    exists w1, kv_le w w1 /\ kv_le w1 w' /\
      kv_outcome w1 w' key value Put
        (at_revision revision) WrongLastRevision r;
  kv_update_latest key value expected w revision w' w1 e :
    kv_update key value expected w = (Ok revision, w') -> 0 < expected -> kv_le w1 w' ->
    kv_at w1 key = Some e -> entry_revision e < revision -> entry_revision e <= expected;
  kv_delete_spec key revision w r w' :
    kv_delete_expect_revision key revision w = (r, w') ->
    exists w1 r', kv_le w w1 /\ kv_le w1 w' /\
      is_ok r = is_ok r' /\ (forall e, r = Err e <-> r' = Err e) /\
      kv_outcome w1 w' key "" Delete
        (at_revision revision) WrongLastRevision r';
}.

(** An entry read earlier and still at its revision is the entry that was read. *)
Lemma kv_unchanged `{KvLaws} w w' key e :
  kv_le w w' -> kv_at w key = Some e -> at_revision (entry_revision e) (kv_at w' key) ->
  kv_at w' key = Some e.
Proof.
  intros Hle He Hrev. pose proof (kv_revision_pos w key e He).
  destruct (kv_at w' key) as [e'|] eqn:He'; simpl in Hrev; [|lia].
  destruct (kv_le_entry w w' key e e' Hle He He') as [->|]; [done|lia].
Qed.

(** ** An in-memory bucket *)
Module MemKv.

(** What happened to the bucket, oldest first (a message of a key, or its removal by
    age), and what other clients do before each of the next calls.  The revision of a
    message is its position. *)
Definition event : Type := string * option (string * Operation).

Record mem := mkMem {
  mem_log : list event;
  mem_script : list (list event);
}.

(** The last message of [key] in [log], whose first event has position [n + 1]. *)
Fixpoint mem_scan (key : string) (n : N) (last : option Entry) (log : list event) :
    option Entry :=
  match log with
  | [] => last
  | (k, message) :: log =>
      let last :=
        if bool_decide (k = key) then
          (fun '(value, op) => mkEntry value (n + 1) op) <$> message
        else last in
      mem_scan key (n + 1) last log
  end.

Definition mem_at (w : mem) (key : string) : option Entry := mem_scan key 0 None (mem_log w).

Definition mem_append (events : list event) (w : mem) : mem :=
  mkMem (mem_log w ++ events) (mem_script w).

Definition mem_last (w : mem) : N := N.of_nat (List.length (mem_log w)).

(** Other clients' turn. *)
Definition mem_others (w : mem) : mem :=
  match mem_script w with
  | [] => w
  | events :: script => mkMem (mem_log w ++ events) script
  end.

Definition mem_entry (key : string) (w : mem) : result (option Entry) KvError * mem :=
  let w := mem_others w in (Ok (mem_at w key), w).

Definition mem_create (key value : string) (w : mem) : result N KvError * mem :=
  let w := mem_others w in
  match live (mem_at w key) with
  | None => (Ok (mem_last w + 1), mem_append [(key, Some (value, Put))] w)
  | Some _ => (Err (mkKvError AlreadyExists "key already exists"), w)
  end.

(** A write of [value] as [op] conditional on the revision. *)
Definition mem_write (key value : string) (op : Operation) (revision : N) (w : mem) :
    result N KvError * mem :=
  let w := mem_others w in
  if match mem_at w key with Some e => entry_revision e =? revision | None => revision =? 0 end
  then (Ok (mem_last w + 1), mem_append [(key, Some (value, op))] w)
  else (Err (mkKvError WrongLastRevision "wrong last revision"), w).

#[export] Instance mem_store : KvStore := {|
  World := mem;
  kv_entry := mem_entry;
  kv_create := mem_create;
  kv_update key value := mem_write key value Put;
  kv_delete_expect_revision key revision w :=
    match mem_write key "" Delete revision w with
    | (Ok _, w) => (Ok tt, w)
    | (Err e, w) => (Err e, w)
    end;
|}.

Definition mem_le (w w' : mem) : Prop := mem_log w `prefix_of` mem_log w'.

#[export] Instance mem_spec : KvSpec := {| kv_at := mem_at; kv_le := mem_le |}.

Lemma mem_scan_app key n last log1 log2 :
  mem_scan key n last (log1 ++ log2) =
  mem_scan key (n + N.of_nat (List.length log1)) (mem_scan key n last log1) log2.
Proof.
  revert n last. induction log1 as [|[k m] log1 IH]; intros n last; simpl.
  - by rewrite N.add_0_r.
  - rewrite IH. f_equal. lia.
Qed.

Lemma mem_scan_range key n last log e :
  mem_scan key n last log = Some e ->
  last = Some e \/ n < entry_revision e <= n + N.of_nat (List.length log).
Proof.
  revert n last. induction log as [|[k m] log IH]; intros n last Hscan; simpl in *; [auto|].
  destruct (IH _ _ Hscan) as [Hlast|]; [|right; lia].
  case_bool_decide; [|auto]. destruct m as [[v op]|]; simplify_eq/=. right. lia.
Qed.

Lemma mem_at_range w key e : mem_at w key = Some e -> 0 < entry_revision e <= mem_last w.
Proof. intros [|]%mem_scan_range; [done|]. unfold mem_last. lia. Qed.

Lemma mem_others_le w : mem_le w (mem_others w).
Proof. unfold mem_le, mem_others. destruct (mem_script w); [done|]. by eexists. Qed.

Lemma mem_le_refl w : mem_le w w.
Proof. unfold mem_le. reflexivity. Qed.

Lemma mem_append_le events w : mem_le w (mem_append events w).
Proof. by eexists. Qed.

Lemma mem_append_written key value op w :
  kv_written w (mem_append [(key, Some (value, op))] w) key (mkEntry value (mem_last w + 1) op).
Proof.
  split_and!; simpl.
  - unfold mem_at. simpl. rewrite mem_scan_app. simpl. by rewrite bool_decide_true.
  - intros e He%mem_at_range. lia.
  - intros k Hk. unfold mem_at. simpl. rewrite mem_scan_app. simpl. by rewrite bool_decide_false.
Qed.

Lemma mem_write_outcome key value op revision w r w' :
  mem_write key value op revision w = (r, w') ->
  exists w1, mem_le w w1 /\ mem_le w1 w' /\
    kv_outcome w1 w' key value op (at_revision revision) WrongLastRevision r.
Proof.
  unfold mem_write. intros Hw. exists (mem_others w). split; [apply mem_others_le|].
  assert (match mem_at (mem_others w) key with
          | Some e => entry_revision e =? revision | None => revision =? 0 end = true <->
          at_revision revision (mem_at (mem_others w) key)) as Hready.
  { unfold at_revision. destruct (mem_at _ _); by rewrite N.eqb_eq. }
  destruct (match mem_at _ _ with Some _ => _ | None => _ end) eqn:Hb; simplify_eq.
  - split; [apply mem_append_le|]. split; [by apply Hready|apply mem_append_written].
  - split; [apply mem_le_refl|]. left. split; [done|]. intros _ ?%Hready. congruence.
Qed.

Lemma mem_le_entry w w' key e e' :
  mem_le w w' -> mem_at w key = Some e -> mem_at w' key = Some e' ->
  e' = e \/ entry_revision e < entry_revision e'.
Proof.
  intros [ext Hext] He He'. pose proof (mem_at_range _ _ _ He) as Hr.
  unfold mem_at in He'. rewrite Hext, mem_scan_app in He'. fold (mem_at w key) in He'.
  apply mem_scan_range in He' as [|]; [left; congruence|right].
  unfold mem_last in Hr. simpl in *. lia.
Qed.

Lemma mem_le_linear w1 w2 w : mem_le w1 w -> mem_le w2 w -> mem_le w1 w2 \/ mem_le w2 w1.
Proof. unfold mem_le. apply prefix_weak_total. Qed.

(** A world before the write is one before the appended message, or the written one. *)
Lemma mem_write_latest key value op expected w revision w' w1 e :
  mem_write key value op expected w = (Ok revision, w') -> 0 < expected -> mem_le w1 w' ->
  mem_at w1 key = Some e -> entry_revision e < revision -> entry_revision e <= expected.
Proof.
  unfold mem_write. intros Hw Hpos Hle He Hlt.
  destruct (match mem_at (mem_others w) key with Some _ => _ | None => _ end) eqn:Hready;
    simplify_eq.
  assert (mem_le w1 (mem_others w)) as Hle'.
  { destruct (mem_le_linear w1 (mem_others w) _ Hle (mem_append_le _ _)) as [|Hge]; [done|].
    destruct Hge as [ext Hext], Hle as [ext' Hext']. simpl in *. rewrite Hext in Hext'.
    rewrite <- app_assoc in Hext'. simplify_eq/=. destruct ext as [|x [|]]; simplify_eq/=.
    - unfold mem_le. by rewrite Hext, app_nil_r.
    - exfalso. unfold mem_at in He. rewrite Hext, mem_scan_app in He. simpl in He.
      rewrite bool_decide_true in He by done. simplify_eq/=. unfold mem_last in Hlt. lia. }
  destruct (mem_at (mem_others w) key) as [e'|] eqn:He'; rewrite N.eqb_eq in Hready.
  - destruct (mem_le_entry _ _ _ _ _ Hle' He He') as [->|]; lia.
  - lia.
Qed.

#[export] Instance mem_laws : KvLaws.
Proof.
  split; simpl.
  - split; [exact mem_le_refl|]. unfold mem_le. intros w1 w2 w3. apply transitivity.
  - intros w key e He%mem_at_range. lia.
  - apply mem_le_entry.
  - intros w1 w2 w key e e' Hle1 Hle2 He He' Hrev.
    destruct (mem_le_linear _ _ _ Hle1 Hle2) as [Hle|Hle];
      destruct (mem_le_entry _ _ _ _ _ Hle ltac:(eassumption) ltac:(eassumption)); by subst || lia.
  - intros key w r w' [= <- <-]. split; [apply mem_others_le|].
    intros o [= <-]. exists (mem_others w). split; [apply mem_le_refl|done].
  - intros key value w r w'. unfold mem_create. intros Hw. exists (mem_others w).
    split; [apply mem_others_le|]. destruct (live (mem_at _ key)) eqn:Hlive; simplify_eq.
    + split; [apply mem_le_refl|]. left. split; [done|]. simpl. congruence.
    + split; [apply mem_append_le|]. split; [done|apply mem_append_written].
  - intros key value revision w r w'. apply mem_write_outcome.
  - intros key value expected w revision w' w1 e. apply mem_write_latest.
  - intros key revision w r w' Hw. destruct (mem_write key "" Delete revision w) as [r0 w0] eqn:H0.
    destruct (mem_write_outcome _ _ _ _ _ _ _ H0) as (w1 & Hle & Hle' & Hout).
    exists w1, r0. destruct r0; simplify_eq; naive_solver.
Qed.
End MemKv.
