(* ===== verification/JobTypes.v ===== *)
(** * Jobs: data types and events

    The types of [crates/trellis/src/jobs/types.rs]: jobs, their lifecycle events
    and the metadata both carry, and the error fingerprint computed from a
    failure message.  Timestamps are strings, as in the code.  At the end, the event
    constructors of [events.rs]. *)

From Stdlib Require Import Ascii String.
From S2P Require Import Prelude RustStr Extern.

Local Open Scope N_scope.

Record JobContext := mkJobContext {
  ctx_request_id : string;
  ctx_trace_id : string;
  ctx_traceparent : string;
  ctx_tracestate : option string;
}.

Inductive JobTriggerKind :=
| TriggerSchedule
| TriggerOperation
| TriggerRpc
| TriggerEvent
| TriggerManualReplay
| TriggerServiceCode
| TriggerParentJob.

Record JobTrigger := mkJobTrigger {
  trigger_kind : JobTriggerKind;
  trigger_id : option string;
  trigger_subject : option string;
  trigger_operation_id : option string;
  trigger_parent_job_id : option string;
  trigger_trace_id : option string;
  trigger_request_id : option string;
}.

Record JobLineage := mkJobLineage {
  lineage_parent_job_id : option string;
  lineage_root_job_id : option string;
  lineage_operation_id : option string;
  lineage_related_keys : option (list string);
}.

Record JobAdminAction := mkJobAdminAction {
  admin_reason : option string;
}.

Inductive JobWaitTargetKind :=
| WaitJob
| WaitOperation
| WaitExternal.

Record JobWaitTarget := mkJobWaitTarget {
  wait_kind : JobWaitTargetKind;
  wait_target_id : option string;
  wait_operation_id : option string;
  wait_target_label : option string;
  wait_service : option string;
  wait_target_type : option string;
  wait_system : option string;
  wait_operation : option string;
  wait_key : option string;
}.

Record JobWaitEdge := mkJobWaitEdge {
  edge_id : string;
  edge_target : JobWaitTarget;
  edge_started_at : string;
  edge_label : option string;
}.

Inductive JobState :=
| Pending
| Active
| Retry
| Completed
| Failed
| Cancelled
| Expired
| Skipped
| Stale
| Dead
| Dismissed.

Global Instance JobState_eq_dec : EqDecision JobState.
Proof. solve_decision. Defined.

Inductive JobEventType :=
| EvCreated
| EvStarted
| EvRetry
| EvProgress
| EvLogged
| EvWaiting
| EvResumed
| EvCompleted
| EvFailed
| EvCancelled
| EvExpired
| EvSkipped
| EvStale
| EvHeartbeat
| EvStaleCompletionIgnored
| EvRetried
| EvDead
| EvDismissed.

Global Instance JobEventType_eq_dec : EqDecision JobEventType.
Proof. solve_decision. Defined.

(** [JobEventType::as_token] *)
Definition as_token (t : JobEventType) : string :=
  match t with
  | EvCreated => "created"
  | EvStarted => "started"
  | EvRetry => "retry"
  | EvProgress => "progress"
  | EvLogged => "logged"
  | EvWaiting => "waiting"
  | EvResumed => "resumed"
  | EvCompleted => "completed"
  | EvFailed => "failed"
  | EvCancelled => "cancelled"
  | EvExpired => "expired"
  | EvSkipped => "skipped"
  | EvStale => "stale"
  | EvHeartbeat => "heartbeat"
  | EvStaleCompletionIgnored => "staleCompletionIgnored"
  | EvRetried => "retried"
  | EvDead => "dead"
  | EvDismissed => "dismissed"
  end%string.

Record JobConcurrency := mkJobConcurrency {
  conc_key : string;
  conc_key_hash : string;
  conc_instance_id : option string;
  conc_slot_token : option string;
  conc_heartbeat_at : option string;
  conc_lease_expires_at : option string;
  conc_stale_takeover_count : option N;
}.

Inductive JobQueuePolicyOutcome :=
| OutcomeAccepted
| OutcomeRejected
| OutcomeCoalesced
| OutcomeReplaced.

Record JobQueuePolicy := mkJobQueuePolicy {
  qp_outcome : option JobQueuePolicyOutcome;
  qp_reason : option string;
  qp_existing_job_id : option string;
  qp_replaced_job_id : option string;
}.

Inductive JobLogLevel :=
| Info
| Warn
| Error.

Record JobLogEntry := mkJobLogEntry {
  log_timestamp : string;
  log_level : JobLogLevel;
  log_message : string;
}.

Record JobProgress := mkJobProgress {
  progress_step : option string;
  progress_message : option string;
  progress_current : option N;
  progress_total : option N;
}.

Record JobErrorWorker := mkJobErrorWorker {
  worker_service : option string;
  worker_instance_id : option string;
  worker_version : option string;
  worker_runtime : option string;
}.

Inductive JobErrorDetail := mkJobErrorDetail {
  err_message : string;
  err_error_type : option string;
  err_stack : option string;
  err_causes : option (list JobErrorDetail);
  err_fingerprint : string;
  err_first_seen : option string;
  err_occurrence_count : option N;
  err_worker : option JobErrorWorker;
}.

(** ** Error fingerprints *)

Section fingerprint.
Context `{Lowercase}.

(** The loop of [error_fingerprint]: FNV-1a over the bytes. *)
Fixpoint fnv1a (hash : N) (bytes : string) : N :=
  match bytes with
  | EmptyString => hash
  | String byte bytes =>
      fnv1a (wrapping_mul_u64 (N.lxor hash (byte_of byte)) 0x00000100000001b3) bytes
  end.

Definition error_fingerprint (service job_type message : string) : string :=
  let line := first_line message in
  let normalized := join " " (split_whitespace line) in
  let nul := String "000" "" in
  let hash :=
    fnv1a 0xcbf29ce484222325
      (service +:+ nul +:+ job_type +:+ nul +:+ to_lowercase normalized) in
  hex_padded 16 hash.

(** [JobErrorDetail::from_message] *)
Definition from_message (service job_type message : string) : JobErrorDetail :=
  {| err_message := message;
     err_error_type := None;
     err_stack := None;
     err_causes := None;
     err_fingerprint := error_fingerprint service job_type message;
     err_first_seen := None;
     err_occurrence_count := None;
     err_worker := None |}.
End fingerprint.

(** ** Jobs and lifecycle events *)

Section job.
Context `{JsonValue}.

Record Job := mkJob {
  job_id : string;
  job_context : JobContext;
  job_service : string;
  job_job_type : string;
  job_state : JobState;
  job_payload : Value;
  job_result : option Value;
  job_created_at : string;
  job_updated_at : string;
  job_started_at : option string;
  job_completed_at : option string;
  job_tries : N;
  job_max_tries : N;
  job_last_error : option string;
  job_error_detail : option JobErrorDetail;
  job_deadline : option string;
  job_progress : option JobProgress;
  job_logs : option (list JobLogEntry);
  job_concurrency : option JobConcurrency;
  job_queue_policy : option JobQueuePolicy;
  job_trigger : option JobTrigger;
  job_lineage : option JobLineage;
  job_waiting_on : option (list JobWaitEdge);
}.

Global Instance Job_settable : Settable Job := fun j =>
  mkJob (job_id j) (job_context j) (job_service j) (job_job_type j) (job_state j)
    (job_payload j) (job_result j) (job_created_at j) (job_updated_at j)
    (job_started_at j) (job_completed_at j) (job_tries j) (job_max_tries j)
    (job_last_error j) (job_error_detail j) (job_deadline j) (job_progress j)
    (job_logs j) (job_concurrency j) (job_queue_policy j) (job_trigger j)
    (job_lineage j) (job_waiting_on j).

Record JobEvent := mkJobEvent {
  ev_job_id : string;
  ev_context : JobContext;
  ev_service : string;
  ev_job_type : string;
  ev_event_type : JobEventType;
  ev_state : JobState;
  ev_previous_state : option JobState;
  ev_tries : N;
  ev_max_tries : option N;
  ev_error : option string;
  ev_error_detail : option JobErrorDetail;
  ev_progress : option JobProgress;
  ev_logs : option (list JobLogEntry);
  ev_payload : option Value;
  ev_result : option Value;
  ev_deadline : option string;
  ev_concurrency : option JobConcurrency;
  ev_queue_policy : option JobQueuePolicy;
  ev_trigger : option JobTrigger;
  ev_lineage : option JobLineage;
  ev_wait_edge : option JobWaitEdge;
  ev_admin_action : option JobAdminAction;
  ev_timestamp : string;
}.

Global Instance JobEvent_settable : Settable JobEvent := fun e =>
  mkJobEvent (ev_job_id e) (ev_context e) (ev_service e) (ev_job_type e)
    (ev_event_type e) (ev_state e) (ev_previous_state e) (ev_tries e)
    (ev_max_tries e) (ev_error e) (ev_error_detail e) (ev_progress e) (ev_logs e)
    (ev_payload e) (ev_result e) (ev_deadline e) (ev_concurrency e)
    (ev_queue_policy e) (ev_trigger e) (ev_lineage e) (ev_wait_edge e)
    (ev_admin_action e) (ev_timestamp e).
End job.

(** ** Properties *)

Lemma fnv1a_range hash bytes : hash < u64_modulus -> fnv1a hash bytes < u64_modulus.
Proof.
  revert hash; induction bytes as [|c bytes IH]; intros hash Hh; simpl; [done|].
  apply IH. unfold wrapping_mul_u64. apply N.mod_upper_bound. done.
Qed.

(** ** Lifecycle event constructors

    The constructors of [crates/trellis/src/jobs/events.rs], and [constructed],
    the events the runtime can publish: those one of the constructors returns,
    up to the metadata the manager attaches afterwards. *)

Record EventMeta := mkEventMeta {
  meta_service : string;
  meta_job_type : string;
  meta_job_id : string;
  meta_context : JobContext;
  meta_timestamp : string;
}.

Section events.
Context `{JsonValue} `{!ValueText} `{Lowercase}.

Definition admin_action (reason : option string) : option JobAdminAction :=
  (fun reason => {| admin_reason := Some reason |}) <$> reason.

Definition base_event (meta : EventMeta) (event_type : JobEventType) (state : JobState)
    (previous_state : option JobState) (tries : N) : JobEvent :=
  {| ev_job_id := meta_job_id meta;
     ev_context := meta_context meta;
     ev_service := meta_service meta;
     ev_job_type := meta_job_type meta;
     ev_event_type := event_type;
     ev_state := state;
     ev_previous_state := previous_state;
     ev_tries := tries;
     ev_max_tries := None;
     ev_error := None;
     ev_error_detail := None;
     ev_progress := None;
     ev_logs := None;
     ev_payload := None;
     ev_result := None;
     ev_deadline := None;
     ev_concurrency := None;
     ev_queue_policy := None;
     ev_trigger := None;
     ev_lineage := None;
     ev_wait_edge := None;
     ev_admin_action := None;
     ev_timestamp := meta_timestamp meta |}.

Definition detail_of (meta : EventMeta) (message : string) : JobErrorDetail :=
  from_message (meta_service meta) (meta_job_type meta) message.

Definition created (meta : EventMeta) (payload : Value) (max_tries : N)
    (deadline : option string) : JobEvent :=
  base_event meta EvCreated Pending None 0
    <| ev_payload := Some payload |>
    <| ev_max_tries := Some max_tries |>
    <| ev_deadline := deadline |>.

Definition created_with_policy (meta : EventMeta) (payload : Value) (max_tries : N)
    (deadline : option string) (concurrency : option JobConcurrency)
    (queue_policy : option JobQueuePolicy) : JobEvent :=
  created meta payload max_tries deadline
    <| ev_concurrency := concurrency |>
    <| ev_queue_policy := queue_policy |>.

Definition started (meta : EventMeta) (tries : N) (previous_state : JobState) : JobEvent :=
  base_event meta EvStarted Active (Some previous_state) tries.

Definition started_with_concurrency (meta : EventMeta) (tries : N)
    (previous_state : JobState) (concurrency : JobConcurrency) : JobEvent :=
  started meta tries previous_state <| ev_concurrency := Some concurrency |>.

Definition retry (meta : EventMeta) (tries : N) (previous_state : JobState)
    (error : option string) : JobEvent :=
  base_event meta EvRetry Retry (Some previous_state) tries
    <| ev_error := error |>
    <| ev_error_detail := detail_of meta <$> error |>.

Definition progress (meta : EventMeta) (tries : N) (progress : JobProgress) : JobEvent :=
  base_event meta EvProgress Active (Some Active) tries
    <| ev_progress := Some progress |>.

Definition logged (meta : EventMeta) (tries : N) (logs : list JobLogEntry) : JobEvent :=
  base_event meta EvLogged Active (Some Active) tries <| ev_logs := Some logs |>.

Definition waiting (meta : EventMeta) (tries : N) (wait_edge : JobWaitEdge) : JobEvent :=
  base_event meta EvWaiting Active (Some Active) tries
    <| ev_wait_edge := Some wait_edge |>.

Definition resumed (meta : EventMeta) (tries : N) (wait_edge : JobWaitEdge) : JobEvent :=
  base_event meta EvResumed Active (Some Active) tries
    <| ev_wait_edge := Some wait_edge |>.

Definition completed (meta : EventMeta) (tries : N) (result : Value) : JobEvent :=
  base_event meta EvCompleted Completed (Some Active) tries
    <| ev_result := Some result |>.

Definition failed (meta : EventMeta) (tries : N) (previous_state : JobState)
    (error : string) : JobEvent :=
  base_event meta EvFailed Failed (Some previous_state) tries
    <| ev_error := Some error |>
    <| ev_error_detail := Some (detail_of meta error) |>.

Definition cancelled_by_admin (meta : EventMeta) (tries : N) (previous_state : JobState)
    (reason : option string) : JobEvent :=
  base_event meta EvCancelled Cancelled (Some previous_state) tries
    <| ev_admin_action := admin_action reason |>.

Definition cancelled (meta : EventMeta) (tries : N) (previous_state : JobState) : JobEvent :=
  cancelled_by_admin meta tries previous_state None.

Definition expired (meta : EventMeta) (tries : N) (previous_state : JobState)
    (error : string) : JobEvent :=
  base_event meta EvExpired Expired (Some previous_state) tries
    <| ev_error := Some error |>
    <| ev_error_detail := Some (detail_of meta error) |>.

Definition skipped (meta : EventMeta) (previous_state : JobState)
    (reason : option string) : JobEvent :=
  base_event meta EvSkipped Skipped (Some previous_state) 0
    <| ev_error := reason |>
    <| ev_error_detail := detail_of meta <$> reason |>.

Definition stale (meta : EventMeta) (tries : N) (reason : option string)
    (concurrency : option JobConcurrency) : JobEvent :=
  base_event meta EvStale Stale (Some Active) tries
    <| ev_error := reason |>
    <| ev_error_detail := detail_of meta <$> reason |>
    <| ev_concurrency := concurrency |>.

Definition heartbeat (meta : EventMeta) (tries : N)
    (concurrency : option JobConcurrency) : JobEvent :=
  base_event meta EvHeartbeat Active (Some Active) tries
    <| ev_concurrency := concurrency |>.

Definition stale_completion_ignored (meta : EventMeta) (tries : N)
    (reason : option string) (concurrency : option JobConcurrency) : JobEvent :=
  base_event meta EvStaleCompletionIgnored Active (Some Active) tries
    <| ev_error := reason |>
    <| ev_error_detail := detail_of meta <$> reason |>
    <| ev_concurrency := concurrency |>.

Definition retried_by_admin (meta : EventMeta) (previous_state : JobState)
    (payload : option Value) (max_tries : option N) (deadline : option string)
    (reason : option string) : JobEvent :=
  base_event meta EvRetried Pending (Some previous_state) 0
    <| ev_payload := payload |>
    <| ev_max_tries := max_tries |>
    <| ev_deadline := deadline |>
    <| ev_admin_action := admin_action reason |>.

Definition retried (meta : EventMeta) (previous_state : JobState)
    (payload : option Value) (max_tries : option N) (deadline : option string) : JobEvent :=
  retried_by_admin meta previous_state payload max_tries deadline None.

Definition dead (meta : EventMeta) (tries : N) (previous_state : JobState)
    (error : string) : JobEvent :=
  base_event meta EvDead Dead (Some previous_state) tries
    <| ev_error := Some error |>
    <| ev_error_detail := Some (detail_of meta error) |>.

Definition dismissed (meta : EventMeta) (tries : N) (previous_state : JobState)
    (reason : option string) : JobEvent :=
  base_event meta EvDismissed Dismissed (Some previous_state) tries
    <| ev_error := reason |>
    <| ev_error_detail := detail_of meta <$> reason |>
    <| ev_admin_action := admin_action reason |>.

(** The events the runtime publishes: those of the constructors, with what the
    manager sets on them afterwards (the trigger and the lineage of a created
    job, the previous state of a job that ends before it runs). *)
Inductive constructed : JobEvent -> Prop :=
| c_created m p n d : constructed (created m p n d)
| c_created_with_policy m p n d c q : constructed (created_with_policy m p n d c q)
| c_started m n s : constructed (started m n s)
| c_started_with_concurrency m n s c : constructed (started_with_concurrency m n s c)
| c_retry m n s e : constructed (retry m n s e)
| c_progress m n p : constructed (progress m n p)
| c_logged m n l : constructed (logged m n l)
| c_waiting m n w : constructed (waiting m n w)
| c_resumed m n w : constructed (resumed m n w)
| c_completed m n v : constructed (completed m n v)
| c_failed m n s e : constructed (failed m n s e)
| c_cancelled m n s : constructed (cancelled m n s)
| c_cancelled_by_admin m n s r : constructed (cancelled_by_admin m n s r)
| c_expired m n s e : constructed (expired m n s e)
| c_skipped m s r : constructed (skipped m s r)
| c_stale m n r c : constructed (stale m n r c)
| c_heartbeat m n c : constructed (heartbeat m n c)
| c_stale_completion_ignored m n r c : constructed (stale_completion_ignored m n r c)
| c_retried m s p n d : constructed (retried m s p n d)
| c_retried_by_admin m s p n d r : constructed (retried_by_admin m s p n d r)
| c_dead m n s e : constructed (dead m n s e)
| c_dismissed m n s r : constructed (dismissed m n s r)
| c_provenance e t l : constructed e ->
    constructed (e <| ev_trigger := t |> <| ev_lineage := l |>)
| c_previous_state e s : constructed e -> ev_event_type e <> EvCreated ->
    constructed (e <| ev_previous_state := Some s |>).

(** ** Events on the stream

    An event is published as JSON text, and every reader folds what it reads back:
    [serde_json::from_slice::<JobEvent>].  A field [Option<Value>] that holds the value
    [null] is written as [null] and read as [None]. *)
Definition read_field (field : option Value) : option Value :=
  value ← field;
  if decide (value = value_null) then None else Some (value_reread value).

Definition read_back (e : JobEvent) : JobEvent :=
  e <| ev_payload := read_field (ev_payload e) |>
    <| ev_result := read_field (ev_result e) |>.

(** The events a reader of the stream sees. *)
Definition received (e : JobEvent) : Prop := exists e0, constructed e0 /\ e = read_back e0.

(** ** Well-formed events

    The state each type of event announces, and what holds of every event a reader
    sees: the announced state, and a completion's result, unless it was [null]. *)
Definition announced_state (t : JobEventType) : JobState :=
  match t with
  | EvCreated | EvRetried => Pending
  | EvStarted | EvProgress | EvLogged | EvWaiting | EvResumed | EvHeartbeat
  | EvStaleCompletionIgnored => Active
  | EvRetry => Retry
  | EvCompleted => Completed
  | EvFailed => Failed
  | EvCancelled => Cancelled
  | EvExpired => Expired
  | EvSkipped => Skipped
  | EvStale => Stale
  | EvDead => Dead
  | EvDismissed => Dismissed
  end.

Record event_wf (e : JobEvent) : Prop := {
  wf_state : ev_state e = announced_state (ev_event_type e);
  wf_created : ev_event_type e = EvCreated -> ev_tries e = 0;
  wf_result : ev_event_type e = EvCompleted ->
    exists v, ev_result e = read_field (Some v);
  wf_error : is_Some (ev_error_detail e) -> is_Some (ev_error e);
}.

Lemma received_wf e : received e -> event_wf e.
Proof.
  intros (e0 & He & ->).
  induction He as [| | | | | | | | | | | | | | | | | | | | | |e t l _ []|e s _ []];
    split; simpl; rewrite ?fmap_is_Some; by eauto.
Qed.
End events.
