(* ===== verification/JobProjection.v ===== *)
(** * Jobs: the lifecycle projection

    [crates/trellis/src/jobs/projection.rs] folds a job's lifecycle events into
    its current state; the worker ([runtime_worker.rs]) and the jobs service's
    projector ([crates/jobs-runtime/src/projector.rs]) use the same reducer.
    [JobLifecycle] states the lifecycle the reducer implements. *)

From Stdlib Require Import Ascii String.
From S2P Require Import Prelude RustStr Extern JobTypes.

Local Open Scope N_scope.

Section projection.
Context `{JsonValue} `{Lowercase}.

Definition is_terminal (state : JobState) : bool :=
  match state with
  | Completed | Failed | Cancelled | Expired | Skipped | Stale | Dead | Dismissed => true
  | Pending | Active | Retry => false
  end.

Definition error_detail_from_event (event : JobEvent) : option JobErrorDetail :=
  match ev_error_detail event with
  | Some detail => Some detail
  | None => from_message (ev_service event) (ev_job_type event) <$> ev_error event
  end.

Definition seed_job_from_event (event : JobEvent) : option Job :=
  payload ← ev_payload event;
  Some {| job_id := ev_job_id event;
          job_context := ev_context event;
          job_service := ev_service event;
          job_job_type := ev_job_type event;
          job_state := ev_state event;
          job_payload := payload;
          job_result := None;
          job_created_at := ev_timestamp event;
          job_updated_at := ev_timestamp event;
          job_started_at := None;
          job_completed_at := None;
          job_tries := ev_tries event;
          job_max_tries := default 1 (ev_max_tries event);
          job_last_error := None;
          job_error_detail := None;
          job_deadline := ev_deadline event;
          job_progress := None;
          job_logs := None;
          job_concurrency := ev_concurrency event;
          job_queue_policy := ev_queue_policy event;
          job_trigger := ev_trigger event;
          job_lineage := ev_lineage event;
          job_waiting_on := None |}.

Definition job_from_work_event (event : JobEvent) : option Job :=
  match ev_event_type event with
  | EvCreated | EvRetried => seed_job_from_event event
  | _ => None
  end.

(** [event.previous_state == Some(state)] *)
Definition previous_is (event : JobEvent) (state : JobState) : bool :=
  bool_decide (ev_previous_state event = Some state).

Definition is_legal_transition (current : Job) (event : JobEvent) : bool :=
  let state := job_state current in
  let in_active := bool_decide (state = Active) && previous_is event Active in
  match ev_event_type event with
  | EvCreated => false
  | EvStarted | EvCancelled | EvExpired =>
      match state with Pending | Retry | Active => true | _ => false end
      && previous_is event state
  | EvRetry => in_active
  | EvProgress | EvLogged | EvCompleted => in_active
  | EvWaiting | EvResumed => in_active
  | EvFailed => in_active
  | EvSkipped =>
      match state with Pending | Retry => true | _ => false end
      && previous_is event state
  | EvStale =>
      (bool_decide (state = Active)
       || (bool_decide (state = Pending) && (job_tries current =? 0)
           && (ev_tries event =? 0)))
      && previous_is event state
  | EvHeartbeat | EvStaleCompletionIgnored => in_active
  | EvRetried =>
      match state with Failed | Dead => true | _ => false end
      && previous_is event state
  | EvDead =>
      match state with Active | Retry | Failed | Expired => true | _ => false end
      && previous_is event state
  | EvDismissed => bool_decide (state = Dead) && previous_is event Dead
  end.

(** The part of [reduce_job_event] every accepted event shares: the announced
    state, the attempt count, and the metadata the event carries.  An [if let
    Some(v) = event.f { next.f = Some(v) }] keeps the job's own value where the
    event has none, the left-biased union of options. *)
Definition with_event_metadata (current : Job) (event : JobEvent) : Job :=
  current <| job_state := ev_state event |>
          <| job_updated_at := ev_timestamp event |>
          <| job_tries := ev_tries event |>
          <| job_max_tries := default (job_max_tries current) (ev_max_tries event) |>
          <| job_concurrency := ev_concurrency event ∪ job_concurrency current |>
          <| job_queue_policy := ev_queue_policy event ∪ job_queue_policy current |>
          <| job_trigger := ev_trigger event ∪ job_trigger current |>
          <| job_lineage := ev_lineage event ∪ job_lineage current |>.

(** [waiting_on.retain(|edge| edge.id != id)] *)
Definition without_edge (id : string) (edges : list JobWaitEdge) : list JobWaitEdge :=
  filter (fun edge => edge_id edge <> id) edges.

(** An accepted event: what each type of event does to the job. *)
Definition accept_event (current : Job) (event : JobEvent) : Job :=
  let next := with_event_metadata current event in
  match ev_event_type event with
  | EvStarted => next <| job_started_at := Some (ev_timestamp event) |>
  | EvProgress => next <| job_progress := ev_progress event |>
  | EvLogged =>
      let logs := default [] (job_logs next) in
      next <| job_logs := Some (logs ++ default [] (ev_logs event)) |>
  | EvWaiting =>
      match ev_wait_edge event with
      | Some wait_edge =>
          let waiting_on := default [] (job_waiting_on next) in
          next <| job_waiting_on :=
                    Some (without_edge (edge_id wait_edge) waiting_on ++ [wait_edge]) |>
      | None => next
      end
  | EvResumed =>
      match ev_wait_edge event with
      | Some wait_edge =>
          let waiting_on :=
            without_edge (edge_id wait_edge) (default [] (job_waiting_on next)) in
          next <| job_waiting_on :=
                    match waiting_on with [] => None | _ => Some waiting_on end |>
      | None => next
      end
  | EvCompleted =>
      next <| job_result := ev_result event |>
           <| job_completed_at := Some (ev_timestamp event) |>
           <| job_waiting_on := None |>
  | EvFailed | EvCancelled | EvExpired | EvSkipped | EvStale | EvDead | EvDismissed =>
      next <| job_last_error := ev_error event |>
           <| job_error_detail := error_detail_from_event event |>
           <| job_completed_at := Some (ev_timestamp event) |>
           <| job_waiting_on := None |>
  | EvHeartbeat => next
  | EvStaleCompletionIgnored =>
      next <| job_last_error := ev_error event |>
           <| job_error_detail := error_detail_from_event event |>
  | EvRetry =>
      next <| job_last_error := ev_error event |>
           <| job_error_detail := error_detail_from_event event |>
  | EvRetried =>
      next <| job_payload := default (job_payload next) (ev_payload event) |>
           <| job_deadline := ev_deadline event ∪ job_deadline next |>
           <| job_result := None |>
           <| job_completed_at := None |>
           <| job_started_at := None |>
           <| job_last_error := None |>
           <| job_error_detail := None |>
           <| job_progress := None |>
           <| job_logs := None |>
           <| job_concurrency := ev_concurrency event |>
           <| job_queue_policy := ev_queue_policy event |>
           <| job_waiting_on := None |>
           <| job_tries := 0 |>
  | EvCreated => next
  end.

Definition reduce_job_event (current : option Job) (event : JobEvent) : option Job :=
  match current with
  | None =>
      if bool_decide (ev_event_type event <> EvCreated) then None
      else seed_job_from_event event
  | Some current =>
      if negb (is_legal_transition current event) then Some current
      else Some (accept_event current event)
  end.

(** The projection of a stream of events, oldest first. *)
Definition replay (current : option Job) (events : list JobEvent) : option Job :=
  foldl reduce_job_event current events.

(** The event types the worker skips when it rebuilds a job from its history. *)
Definition is_observation (t : JobEventType) : bool :=
  match t with
  | EvProgress | EvLogged | EvHeartbeat | EvStaleCompletionIgnored | EvWaiting
  | EvResumed => true
  | _ => false
  end.

(** The worker's recovery of a job from its events, in stream order: the job, and
    the sequence and the type of the event that opened its current run. *)
Record recovery := mkRecovery {
  rec_current : option Job;
  rec_run_sequence : option N;
  rec_run_type : JobEventType;
}.

Definition opens_run (current : option Job) (event : JobEvent) : bool :=
  match current with
  | None => bool_decide (ev_event_type event = EvCreated)
  | Some job =>
      bool_decide (ev_event_type event = EvRetried)
      && match job_state job with Failed | Dead => true | _ => false end
      && previous_is event (job_state job)
  end.

Definition recover_step (r : recovery) (transition : N * JobEvent) : recovery :=
  let '(sequence, event) := transition in
  if is_observation (ev_event_type event) then r else
  let opens := opens_run (rec_current r) event in
  let current := reduce_job_event (rec_current r) event in
  if opens && bool_decide (is_Some current) then
    mkRecovery current (Some sequence) (ev_event_type event)
  else mkRecovery current (rec_run_sequence r) (rec_run_type r).

Definition recover (transitions : list (N * JobEvent)) : recovery :=
  foldl recover_step (mkRecovery None None EvCreated) transitions.

Inductive ProjectedWorkDecision :=
| Process
| SkipAck
| OldRunAck.

(** The transitions of a work item's job, in stream order. *)
Definition work_transitions (work : Job) (transitions : list (N * JobEvent)) :
    list (N * JobEvent) :=
  sort_by_key fst
    (filter (fun transition =>
               ev_service (snd transition) = job_service work /\
               ev_job_type (snd transition) = job_job_type work /\
               ev_job_id (snd transition) = job_id work) transitions).

(** [stream_work_decision], from the transitions read: what to do with a delivered
    work message, and the job to process. *)
Definition work_decision (work : Job) (work_sequence : N) (work_event_type : JobEventType)
    (transitions : list (N * JobEvent)) : ProjectedWorkDecision * Job :=
  let r := recover (work_transitions work transitions) in
  let terminal :=
    match rec_current r with Some job => is_terminal (job_state job) | None => false end in
  if bool_decide (is_Some (rec_run_sequence r))
     && (bool_decide (rec_run_type r <> work_event_type)
         || (bool_decide (rec_run_sequence r <> Some work_sequence)
             && (bool_decide (rec_run_type r = EvRetried) || negb terminal)))
  then (OldRunAck, work)
  else
    let work := default work (rec_current r) in
    (if is_terminal (job_state work) then SkipAck else Process, work).

(** The projector's fallback for a terminal event of a job it has not seen. *)
Definition job_from_terminal_event (event : JobEvent) : option Job :=
  if negb (is_terminal (ev_state event)) then None else
  let job :=
    {| job_id := ev_job_id event;
       job_context := ev_context event;
       job_service := ev_service event;
       job_job_type := ev_job_type event;
       job_state := ev_state event;
       job_payload := default value_null (ev_payload event);
       job_result := None;
       job_created_at := ev_timestamp event;
       job_updated_at := ev_timestamp event;
       job_started_at := None;
       job_completed_at := Some (ev_timestamp event);
       job_tries := ev_tries event;
       job_max_tries := default (N.max (ev_tries event) 1) (ev_max_tries event);
       job_last_error := ev_error event;
       job_error_detail := error_detail_from_event event;
       job_deadline := ev_deadline event;
       job_progress := ev_progress event;
       job_logs := ev_logs event;
       job_concurrency := ev_concurrency event;
       job_queue_policy := ev_queue_policy event;
       job_trigger := ev_trigger event;
       job_lineage := ev_lineage event;
       job_waiting_on := None |} in
  Some (if bool_decide (ev_event_type event = EvCompleted) then
          job <| job_result := ev_result event |>
              <| job_last_error := None |>
              <| job_error_detail := None |>
        else job).

(** [next] in [project_job_event_with_payload_on_connection]. *)
Definition project_job_event (current : option Job) (event : JobEvent) : option Job :=
  match reduce_job_event current event with
  | Some next => Some next
  | None => job_from_terminal_event event
  end.
End projection.
