(* ===== verification/JobLifecycle.v ===== *)
(** * Jobs: properties of the lifecycle projection

    [lifecycle_step] is the lifecycle of a job as an abstract state machine.  The
    reducer of [JobProjection] implements it on the events the runtime publishes,
    keeps every projected job consistent, absorbs repeated deliveries, and gives
    the same state when the observation events are left out. *)

From Stdlib Require Import Ascii String.
From S2P Require Import Prelude RustStr Extern JobTypes JobProjection.

Local Open Scope N_scope.

(** ** The abstract lifecycle

    One step of a job from a state, with the attempts made so far, to a state.
    A job that has never run can go stale only before its first attempt. *)
Inductive lifecycle_step : JobState -> N -> JobState -> Prop :=
| step_start s n : s ∈ [Pending; Retry; Active] -> lifecycle_step s n Active
| step_retry n : lifecycle_step Active n Retry
| step_complete n : lifecycle_step Active n Completed
| step_fail n : lifecycle_step Active n Failed
| step_cancel s n : s ∈ [Pending; Retry; Active] -> lifecycle_step s n Cancelled
| step_expire s n : s ∈ [Pending; Retry; Active] -> lifecycle_step s n Expired
| step_skip s n : s ∈ [Pending; Retry] -> lifecycle_step s n Skipped
| step_stale n : lifecycle_step Active n Stale
| step_stale_unstarted : lifecycle_step Pending 0 Stale
| step_reopen s n : s ∈ [Failed; Dead] -> lifecycle_step s n Pending
| step_die s n : s ∈ [Active; Retry; Failed; Expired] -> lifecycle_step s n Dead
| step_dismiss n : lifecycle_step Dead n Dismissed.

Create HintDb lifecycle.
#[export] Hint Constructors lifecycle_step : lifecycle.

(** Decide a state's membership in a literal list of states. *)
Ltac solve_state := by (repeat constructor) || (rewrite !elem_of_cons; naive_solver).
#[export] Hint Extern 1 (_ ∈ _) => solve_state : lifecycle.

(** ** Consistency of a projected job *)

Section lifecycle.
Context `{JsonValue} `{!ValueText} `{Lowercase}.
Implicit Types (j : Job) (e : JobEvent).

(** The outstanding waits of a job: never an empty list, one edge per identifier. *)
Definition edges_ok (waiting : option (list JobWaitEdge)) : Prop :=
  forall edges, waiting = Some edges -> edges <> [] /\ NoDup (edge_id <$> edges).

Record job_wf (j : Job) : Prop := {
  wf_completed_at : is_Some (job_completed_at j) <-> is_terminal (job_state j) = true;
  wf_job_result : is_Some (job_result j) -> job_state j = Completed;
  wf_job_completed : job_state j = Completed -> exists v, job_result j = read_field (Some v);
  wf_unstarted : job_state j = Pending ->
    job_started_at j = None /\ job_tries j = 0 /\ job_progress j = None /\ job_logs j = None;
  wf_running : job_state j = Active \/ job_state j = Retry -> is_Some (job_started_at j);
  wf_waiting : edges_ok (job_waiting_on j);
  wf_waiting_live : is_terminal (job_state j) = true -> job_waiting_on j = None;
  wf_job_error : is_Some (job_error_detail j) <-> is_Some (job_last_error j);
}.

(** The fields that identify a job. *)
Definition job_identity (j : Job) : string * JobContext * string * string * string :=
  (job_id j, job_context j, job_service j, job_job_type j, job_created_at j).

(** What a worker reads of a recovered job, apart from the attempt bookkeeping
    that observation events also carry. *)
Definition recovery_view (j : Job) :=
  (job_identity j, job_state j, job_payload j, job_result j, job_started_at j,
   job_completed_at j, job_deadline j).

(** ** The reducer, one event at a time *)

Lemma with_event_metadata_fields j e :
  let j' := with_event_metadata j e in
  job_identity j' = job_identity j /\ job_state j' = ev_state e /\
  job_payload j' = job_payload j /\ job_result j' = job_result j /\
  job_started_at j' = job_started_at j /\ job_completed_at j' = job_completed_at j /\
  job_tries j' = ev_tries e /\ job_last_error j' = job_last_error j /\
  job_error_detail j' = job_error_detail j /\ job_deadline j' = job_deadline j /\
  job_progress j' = job_progress j /\ job_logs j' = job_logs j /\
  job_waiting_on j' = job_waiting_on j.
Proof. done. Qed.

Lemma previous_is_true e s : previous_is e s = true <-> ev_previous_state e = Some s.
Proof. unfold previous_is. by rewrite bool_decide_eq_true. Qed.

Lemma legal_step j e :
  event_wf e -> is_legal_transition j e = true ->
  lifecycle_step (job_state j) (job_tries j) (ev_state e).
Proof.
  intros [-> _ _ _]. unfold is_legal_transition.
  destruct (ev_event_type e), (job_state j); simpl; try discriminate;
    auto with lifecycle.
  destruct (N.eqb_spec (job_tries j) 0) as [->|]; [|discriminate].
  auto with lifecycle.
Qed.

(** Every event but [EvCreated] is legal in exactly the previous state it names. *)
Lemma legal_previous j e :
  is_legal_transition j e = true -> ev_previous_state e = Some (job_state j).
Proof.
  unfold is_legal_transition. rewrite <- previous_is_true.
  destruct (ev_event_type e), (job_state j); simpl; try discriminate; try done.
  all: rewrite ?andb_true_iff; naive_solver.
Qed.

(** A published event for each step of the lifecycle. *)
Definition step_event (m : EventMeta) (v : Value) (s s' : JobState) : JobEvent :=
  match s' with
  | Pending => retried m s None None None
  | Active => started m 0 s
  | Retry => retry m 0 s None
  | Completed => completed m 0 v
  | Failed => failed m 0 s ""
  | Cancelled => cancelled m 0 s
  | Expired => expired m 0 s ""
  | Skipped => skipped m s None
  | Stale => stale m 0 None None <| ev_previous_state := Some s |>
  | Dead => dead m 0 s ""
  | Dismissed => dismissed m 0 s None
  end.

Lemma lifecycle_complete j s' :
  lifecycle_step (job_state j) (job_tries j) s' ->
  exists e, constructed e /\ is_legal_transition j (read_back e) = true /\
    ev_state (read_back e) = s'.
Proof.
  intros Hstep.
  exists (step_event (mkEventMeta "" "" "" (job_context j) "") (job_payload j) (job_state j) s').
  split; [destruct s'; by repeat constructor|].
  split; [|by destruct s'].
  remember (job_state j) as s eqn:Hs. remember (job_tries j) as n eqn:Hn.
  unfold is_legal_transition. rewrite <- Hs, <- Hn.
  destruct Hstep; simpl; try reflexivity; destruct s; try reflexivity; set_solver.
Qed.

Lemma accept_event_state j e :
  job_state (accept_event j e) = ev_state e /\
  job_identity (accept_event j e) = job_identity j.
Proof.
  unfold accept_event. split; destruct (ev_event_type e);
    try reflexivity; destruct (ev_wait_edge e); reflexivity.
Qed.

Lemma reduce_some j e :
  reduce_job_event (Some j) e =
  Some (if is_legal_transition j e then accept_event j e else j).
Proof. simpl. by destruct (is_legal_transition j e). Qed.

(** ** Consistency is preserved *)

Lemma seed_wf e j :
  event_wf e -> ev_event_type e = EvCreated -> seed_job_from_event e = Some j -> job_wf j.
Proof.
  intros [Hst Hcr _ _] Ht Hseed. rewrite Ht in *. pose proof (Hcr eq_refl) as Htries.
  unfold seed_job_from_event in Hseed. destruct (ev_payload e); simplify_eq/=.
  split; simpl; rewrite ?Hst; simpl; rewrite ?is_Some_alt; (done || naive_solver).
Qed.

Lemma without_edge_NoDup id edges :
  NoDup (edge_id <$> edges) ->
  NoDup (edge_id <$> without_edge id edges) /\ id ∉ edge_id <$> without_edge id edges.
Proof.
  intros Hnd. split.
  - eapply sublist_NoDup; [exact Hnd|].
    apply fmap_sublist, sublist_filter.
  - rewrite list_elem_of_fmap. intros (x & -> & Hx).
    apply list_elem_of_filter in Hx. naive_solver.
Qed.

Lemma error_detail_consistent e :
  event_wf e -> is_Some (error_detail_from_event e) <-> is_Some (ev_error e).
Proof.
  intros [_ _ _ Herr]. unfold error_detail_from_event.
  destruct (ev_error_detail e); [|by rewrite fmap_is_Some].
  split; [intros _; by apply Herr|eauto].
Qed.
(** The fields of an accepted event's job, each on its own. *)
Definition ends_attempt (t : JobEventType) : bool :=
  match t with
  | EvCompleted | EvFailed | EvCancelled | EvExpired | EvSkipped | EvStale | EvDead
  | EvDismissed => true
  | _ => false
  end.

Lemma ends_attempt_terminal t : ends_attempt t = is_terminal (announced_state t).
Proof. by destruct t. Qed.

Ltac accepted_field e :=
  unfold accept_event; destruct (ev_event_type e); try reflexivity;
  destruct (ev_wait_edge e); reflexivity.

Lemma accept_completed_at j e :
  job_completed_at (accept_event j e) =
  if ends_attempt (ev_event_type e) then Some (ev_timestamp e)
  else if bool_decide (ev_event_type e = EvRetried) then None
  else job_completed_at j.
Proof. accepted_field e. Qed.

Lemma accept_result j e :
  job_result (accept_event j e) =
  match ev_event_type e with
  | EvCompleted => ev_result e | EvRetried => None | _ => job_result j end.
Proof. accepted_field e. Qed.

Lemma accept_started_at j e :
  job_started_at (accept_event j e) =
  match ev_event_type e with
  | EvStarted => Some (ev_timestamp e) | EvRetried => None | _ => job_started_at j end.
Proof. accepted_field e. Qed.

Lemma accept_retried j e :
  ev_event_type e = EvRetried ->
  job_tries (accept_event j e) = 0 /\ job_progress (accept_event j e) = None /\
  job_logs (accept_event j e) = None.
Proof.
  unfold accept_event. intros ->. split_and!; reflexivity.
Qed.

(** The event types that report an error. *)
Definition sets_error (t : JobEventType) : bool :=
  match t with
  | EvFailed | EvCancelled | EvExpired | EvSkipped | EvStale | EvDead | EvDismissed
  | EvStaleCompletionIgnored | EvRetry => true
  | _ => false
  end.

Lemma accept_last_error j e :
  job_last_error (accept_event j e) =
  if sets_error (ev_event_type e) then ev_error e
  else if bool_decide (ev_event_type e = EvRetried) then None else job_last_error j.
Proof. accepted_field e. Qed.

Lemma accept_error_detail j e :
  job_error_detail (accept_event j e) =
  if sets_error (ev_event_type e) then error_detail_from_event e
  else if bool_decide (ev_event_type e = EvRetried) then None else job_error_detail j.
Proof. accepted_field e. Qed.

Lemma accept_error j e :
  event_wf e ->
  (is_Some (job_error_detail j) <-> is_Some (job_last_error j)) ->
  (is_Some (job_error_detail (accept_event j e)) <->
   is_Some (job_last_error (accept_event j e))).
Proof.
  intros Hwf Hj. rewrite accept_last_error, accept_error_detail.
  destruct (sets_error _); [by apply error_detail_consistent|].
  case_bool_decide; [by rewrite !is_Some_alt|done].
Qed.

Lemma edges_ok_default waiting : edges_ok waiting -> NoDup (edge_id <$> default [] waiting).
Proof. destruct waiting as [l|]; [intros Hw; by apply (Hw l)|constructor]. Qed.

Lemma accept_waiting_on j e :
  job_waiting_on (accept_event j e) =
  if ends_attempt (ev_event_type e) || bool_decide (ev_event_type e = EvRetried) then None
  else
    match ev_event_type e, ev_wait_edge e with
    | EvWaiting, Some w =>
        Some (without_edge (edge_id w) (default [] (job_waiting_on j)) ++ [w])
    | EvResumed, Some w =>
        let edges := without_edge (edge_id w) (default [] (job_waiting_on j)) in
        match edges with [] => None | _ => Some edges end
    | _, _ => job_waiting_on j
    end.
Proof. accepted_field e. Qed.

Lemma accept_edges_ok j e :
  edges_ok (job_waiting_on j) -> edges_ok (job_waiting_on (accept_event j e)).
Proof.
  intros Hj. pose proof (edges_ok_default _ Hj) as Hnd. rewrite accept_waiting_on.
  destruct (_ || _); [done|].
  destruct (ev_event_type e), (ev_wait_edge e) as [w|]; try done;
    destruct (without_edge_NoDup (edge_id w) _ Hnd) as [Hnd' Hnin].
  - intros edges [= <-]. split; [by destruct (without_edge _ _)|].
    rewrite fmap_app. apply NoDup_app. split_and!; [done|set_solver|apply NoDup_singleton].
  - cbv zeta. by destruct (without_edge _ _); intros edges ?; simplify_eq.
Qed.

(** The state a legal event is accepted in, by the type of the event. *)
Lemma legal_from j e :
  is_legal_transition j e = true ->
  match ev_event_type e with
  | EvCreated => False
  | EvStarted | EvCancelled | EvExpired | EvSkipped =>
      job_state j ∈ [Pending; Retry; Active]
  | EvStale => job_state j ∈ [Pending; Active]
  | EvRetried => job_state j ∈ [Failed; Dead]
  | EvDead => job_state j ∈ [Active; Retry; Failed; Expired]
  | EvDismissed => job_state j = Dead
  | _ => job_state j = Active
  end.
Proof.
  unfold is_legal_transition.
  destruct (ev_event_type e), (job_state j); simpl; try discriminate; intros _;
    done || solve_state.
Qed.

(** No legal event leaves a completed job. *)
Lemma legal_not_completed j e :
  is_legal_transition j e = true -> job_state j <> Completed.
Proof.
  intros Hlegal Hst. apply legal_from in Hlegal. rewrite Hst in Hlegal.
  destruct (ev_event_type e); set_solver.
Qed.

Lemma accept_wf j e :
  event_wf e -> job_wf j -> is_legal_transition j e = true -> job_wf (accept_event j e).
Proof.
  intros Hwf Hj Hlegal. pose proof (legal_from _ _ Hlegal) as Hfrom.
  pose proof (legal_not_completed _ _ Hlegal) as Hnc.
  destruct (accept_event_state j e) as [Hst' _].
  pose proof (wf_state _ Hwf) as Hst. rewrite Hst in Hst'.
  destruct Hj as [Hca Hres _ Hun Hrun Hw _ Herr].
  split; rewrite ?Hst', ?accept_completed_at, ?accept_result, ?accept_started_at,
    ?ends_attempt_terminal.
  - destruct (ev_event_type e); simpl in *; rewrite ?is_Some_alt in *; try done;
      try (by rewrite Hfrom in Hca).
    all: rewrite Hca; destruct (job_state j); set_solver.
  - destruct (ev_event_type e); simpl in *; intros Hsome; try done;
      first [by apply Hres in Hsome|by destruct Hsome].
  - pose proof (wf_result _ Hwf) as Hr. destruct (ev_event_type e); simpl in *; by auto.
  - destruct (ev_event_type e) eqn:Ht; simpl in *; try done.
    intros _. by destruct (accept_retried j e Ht) as (-> & -> & ->).
  - destruct (ev_event_type e); simpl in *; naive_solver.
  - by apply accept_edges_ok.
  - rewrite <- ends_attempt_terminal, accept_waiting_on. by intros ->.
  - by apply accept_error.
Qed.

(** ** Histories *)

Lemma reduce_wf current e j :
  event_wf e -> (forall j0, current = Some j0 -> job_wf j0) ->
  reduce_job_event current e = Some j -> job_wf j.
Proof.
  intros Hwf Hcur. destruct current as [j0|].
  - rewrite reduce_some. intros [= <-].
    destruct (is_legal_transition j0 e) eqn:Hlegal; [|by apply Hcur].
    apply accept_wf; [done|by apply Hcur|done].
  - simpl. destruct (decide (ev_event_type e = EvCreated)) as [Ht|].
    + rewrite bool_decide_false by tauto. by apply seed_wf.
    + by rewrite bool_decide_true.
Qed.

Lemma replay_snoc current es e :
  replay current (es ++ [e]) = reduce_job_event (replay current es) e.
Proof. unfold replay. by rewrite foldl_snoc. Qed.

(** A property of jobs that every accepted event keeps holds of a replay. *)
Lemma replay_invariant (P : Job -> Prop) (Q : JobEvent -> Prop) j es :
  (forall j e, Q e -> is_legal_transition j e = true -> P j -> P (accept_event j e)) ->
  Forall Q es -> P j -> exists j', replay (Some j) es = Some j' /\ P j'.
Proof.
  intros Hstep Hes Hj. induction es as [|e es IH] using rev_ind; [by eauto|].
  apply Forall_app in Hes as [Hes He]. rewrite Forall_singleton in He.
  destruct (IH Hes) as (j' & Hj' & HP).
  rewrite replay_snoc, Hj', reduce_some.
  destruct (is_legal_transition j' e) eqn:Hlegal; [|by eauto].
  eexists. split; [done|]. by apply Hstep.
Qed.

Lemma accept_terminal j e :
  event_wf e -> ev_event_type e <> EvRetried -> is_legal_transition j e = true ->
  is_terminal (job_state j) = true ->
  is_terminal (ev_state e) = true /\ job_result (accept_event j e) = job_result j.
Proof.
  intros Hwf Ht Hlegal Hterm. apply legal_from in Hlegal.
  rewrite accept_result, (wf_state _ Hwf).
  destruct (ev_event_type e), (job_state j); set_solver.
Qed.

(** ** Repeated deliveries *)

Lemma without_edge_idemp id edges w :
  edge_id w = id ->
  without_edge id (without_edge id edges ++ [w]) = without_edge id edges.
Proof.
  intros Hid. unfold without_edge.
  rewrite filter_app, filter_cons_False, app_nil_r by (intros ?; congruence).
  rewrite list_filter_filter_l; naive_solver.
Qed.

Lemma without_edge_twice id edges :
  without_edge id (without_edge id edges) = without_edge id edges.
Proof. unfold without_edge. rewrite list_filter_filter_l; naive_solver. Qed.

(** The event types that leave an active job active. *)
Lemma legal_again j e :
  event_wf e -> is_legal_transition j e = true ->
  is_legal_transition (accept_event j e) e = true ->
  ev_event_type e = EvStarted \/ is_observation (ev_event_type e) = true.
Proof.
  intros Hwf Hlegal Hagain. pose proof (legal_from _ _ Hlegal) as Hfrom.
  apply legal_previous in Hlegal. apply legal_previous in Hagain.
  rewrite (proj1 (accept_event_state j e)), (wf_state _ Hwf) in Hagain.
  rewrite Hlegal in Hagain. injection Hagain as Hst. rewrite Hst in Hfrom.
  destruct (ev_event_type e); simpl in *; auto; set_solver.
Qed.

Lemma option_union_twice {A} (o p : option A) : o ∪ (o ∪ p) = o ∪ p.
Proof. by destruct o, p. Qed.

Lemma metadata_twice j e :
  with_event_metadata (with_event_metadata j e) e = with_event_metadata j e.
Proof.
  destruct j. cbv -[union option_union ev_max_tries ev_concurrency ev_queue_policy ev_trigger ev_lineage].
  rewrite !option_union_twice. by destruct (ev_max_tries e).
Qed.

(** The metadata step commutes with the updates of an observation. *)
Lemma metadata_started_at j e v :
  with_event_metadata (j <| job_started_at := v |>) e =
  with_event_metadata j e <| job_started_at := v |>.
Proof. done. Qed.

Lemma metadata_progress j e v :
  with_event_metadata (j <| job_progress := v |>) e =
  with_event_metadata j e <| job_progress := v |>.
Proof. done. Qed.

Lemma metadata_waiting_on j e v :
  with_event_metadata (j <| job_waiting_on := v |>) e =
  with_event_metadata j e <| job_waiting_on := v |>.
Proof. done. Qed.

Lemma metadata_errors j e v w :
  with_event_metadata (j <| job_last_error := v |> <| job_error_detail := w |>) e =
  with_event_metadata j e <| job_last_error := v |> <| job_error_detail := w |>.
Proof. done. Qed.

(** Writing the same fields again. *)
Lemma rewrite_started_at j v w :
  j <| job_started_at := v |> <| job_started_at := w |> = j <| job_started_at := w |>.
Proof. done. Qed.

Lemma rewrite_progress j v w :
  j <| job_progress := v |> <| job_progress := w |> = j <| job_progress := w |>.
Proof. done. Qed.

Lemma rewrite_waiting_on j v w :
  j <| job_waiting_on := v |> <| job_waiting_on := w |> = j <| job_waiting_on := w |>.
Proof. done. Qed.

Lemma read_waiting_on j v : job_waiting_on (j <| job_waiting_on := v |>) = v.
Proof. done. Qed.

Lemma rewrite_errors j v w v' w' :
  j <| job_last_error := v |> <| job_error_detail := w |>
    <| job_last_error := v' |> <| job_error_detail := w' |> =
  j <| job_last_error := v' |> <| job_error_detail := w' |>.
Proof. done. Qed.

Lemma accept_twice j e :
  ev_event_type e = EvStarted \/ is_observation (ev_event_type e) = true ->
  ev_event_type e <> EvLogged ->
  accept_event (accept_event j e) e = accept_event j e.
Proof.
  intros Ht Hlog. unfold accept_event.
  destruct (ev_event_type e); try (by destruct Ht); clear Ht Hlog.
  - by rewrite metadata_started_at, metadata_twice, rewrite_started_at.
  - by rewrite metadata_progress, metadata_twice, rewrite_progress.
  - destruct (ev_wait_edge e) as [w|]; [|apply metadata_twice]. cbv zeta.
    rewrite metadata_waiting_on, metadata_twice, rewrite_waiting_on, read_waiting_on.
    simpl default. by rewrite without_edge_idemp.
  - destruct (ev_wait_edge e) as [w|]; [|apply metadata_twice]. cbv zeta.
    rewrite metadata_waiting_on, metadata_twice, rewrite_waiting_on, read_waiting_on.
    pose proof (without_edge_twice (edge_id w)
      (default [] (job_waiting_on (with_event_metadata j e)))) as Htwice.
    destruct (without_edge _ (default [] (job_waiting_on _))) as [|x l]; [done|].
    simpl default. by rewrite Htwice.
  - apply metadata_twice.
  - by rewrite metadata_errors, metadata_twice, rewrite_errors.
Qed.

(** ** Recovery *)

Lemma accept_inputs j e :
  job_payload (accept_event j e) =
    (if bool_decide (ev_event_type e = EvRetried)
     then default (job_payload j) (ev_payload e) else job_payload j) /\
  job_deadline (accept_event j e) =
    (if bool_decide (ev_event_type e = EvRetried)
     then ev_deadline e ∪ job_deadline j else job_deadline j).
Proof. split; accepted_field e. Qed.

Lemma accept_tries j e :
  job_tries (accept_event j e) =
  if bool_decide (ev_event_type e = EvRetried) then 0 else ev_tries e.
Proof. accepted_field e. Qed.

(** What an accepted event makes of the recovered fields depends on them only. *)
Lemma accept_view a b e :
  recovery_view a = recovery_view b ->
  recovery_view (accept_event a e) = recovery_view (accept_event b e).
Proof.
  unfold recovery_view. intros Hv.
  destruct (accept_event_state a e) as [-> ->], (accept_event_state b e) as [-> ->].
  destruct (accept_inputs a e) as [-> ->], (accept_inputs b e) as [-> ->].
  rewrite !accept_result, !accept_started_at, !accept_completed_at.
  unfold job_identity. by injection Hv as -> -> -> -> -> ? -> -> -> -> ->.
Qed.

Lemma observation_view j e :
  event_wf e -> is_observation (ev_event_type e) = true ->
  is_legal_transition j e = true ->
  recovery_view (accept_event j e) = recovery_view j /\ job_state j = Active.
Proof.
  intros Hwf Hobs Hlegal. apply legal_from in Hlegal. unfold recovery_view.
  destruct (accept_event_state j e) as [-> ->], (accept_inputs j e) as [-> ->].
  rewrite accept_result, accept_started_at, accept_completed_at, (wf_state _ Hwf).
  destruct (ev_event_type e); simpl in *; try discriminate; by rewrite Hlegal.
Qed.

(** Two projections a worker cannot tell apart. *)
Definition recovers_as (a b : option Job) : Prop :=
  match a, b with
  | None, None => True
  | Some a, Some b =>
      recovery_view a = recovery_view b /\ (job_state a = Pending -> job_tries a = job_tries b)
  | _, _ => False
  end.

Lemma recovers_as_legal a b e :
  recovery_view a = recovery_view b -> (job_state a = Pending -> job_tries a = job_tries b) ->
  is_legal_transition a e = is_legal_transition b e.
Proof.
  unfold is_legal_transition, recovery_view. intros [= _ _ _ _ _ Hst _ _ _ _ _] Htries.
  rewrite <- Hst. destruct (job_state a); try done. by rewrite Htries.
Qed.

Lemma recovers_as_reduce a b e :
  recovers_as a b -> recovers_as (reduce_job_event a e) (reduce_job_event b e).
Proof.
  destruct a as [a|], b as [b|]; try done.
  - intros [Hv Ht]. rewrite !reduce_some, (recovers_as_legal a b e Hv Ht).
    destruct (is_legal_transition b e); [|done]. split; [by apply accept_view|].
    by rewrite !accept_tries.
  - intros _. simpl. case_bool_decide; [done|]. by destruct (seed_job_from_event e).
Qed.

Lemma recovers_as_observation a b e :
  event_wf e -> is_observation (ev_event_type e) = true ->
  recovers_as a b -> recovers_as a (reduce_job_event b e).
Proof.
  intros Hwf Hobs. destruct a as [a|], b as [b|]; try done.
  - intros [Hv Ht]. rewrite reduce_some. destruct (is_legal_transition b e) eqn:Hlegal; [|done].
    destruct (observation_view b e Hwf Hobs Hlegal) as [Hv' Hst].
    split; [by rewrite Hv'|]. intros Hp. unfold recovery_view in Hv. simplify_eq. congruence.
  - intros _. simpl. rewrite bool_decide_true; [done|]. by destruct (ev_event_type e).
Qed.

End lifecycle.
