(* ===== verification/JobReplay.v ===== *)
(** * Jobs: theorems about replayed histories

    What holds of a job projected from any history of published events, and of the
    worker's recovery of a job from the history it reads back.  The lemmas about a
    single event are in [JobLifecycle]. *)

From Stdlib Require Import Ascii String.
From S2P Require Import Prelude RustStr Extern JobTypes JobProjection.
From S2P Require Import JobLifecycle.

Local Open Scope N_scope.

Section replay.
Context `{JsonValue} `{!ValueText} `{Lowercase}.
Implicit Types (j : Job) (e : JobEvent) (ts : list (N * JobEvent)).


Lemma all_received_wf es : Forall received es -> Forall event_wf es.
Proof. intros. eapply Forall_impl; [done|]. apply received_wf. Qed.

(** ** The worker's recovery *)

Lemma recover_snoc ts t : recover (ts ++ [t]) = recover_step (recover ts) t.
Proof. unfold recover. by rewrite foldl_snoc. Qed.

Definition events_wf (ts : list (N * JobEvent)) : Prop := Forall (fun t => event_wf (snd t)) ts.

Lemma events_wf_snoc ts n e : events_wf (ts ++ [(n, e)]) <-> events_wf ts /\ event_wf e.
Proof. unfold events_wf. by rewrite Forall_app, Forall_singleton. Qed.

Lemma recover_step_current r n e :
  rec_current (recover_step r (n, e)) =
  if is_observation (ev_event_type e) then rec_current r
  else reduce_job_event (rec_current r) e.
Proof. simpl. repeat case_match; done. Qed.

Lemma recover_replay ts :
  events_wf ts -> recovers_as (rec_current (recover ts)) (replay None (snd <$> ts)).
Proof.
  induction ts as [|[n e] ts IH] using rev_ind; [done|].
  rewrite events_wf_snoc. intros [Hts He]. specialize (IH Hts).
  rewrite fmap_snoc, recover_snoc, recover_step_current, replay_snoc.
  destruct (is_observation (ev_event_type e)) eqn:Hobs.
  - by apply recovers_as_observation.
  - by apply recovers_as_reduce.
Qed.

(** A run starts with the job's creation, if the event has a payload, and with every
    [Retried] event the reducer accepts. *)
Definition starts_run (current : option Job) (e : JobEvent) : bool :=
  match current with
  | None => bool_decide (ev_event_type e = EvCreated) && bool_decide (is_Some (ev_payload e))
  | Some j => bool_decide (ev_event_type e = EvRetried) && is_legal_transition j e
  end.

Lemma opens_run_starts current e :
  opens_run current e && bool_decide (is_Some (reduce_job_event current e)) = starts_run current e.
Proof.
  destruct current as [j|].
  - rewrite reduce_some, bool_decide_true, andb_true_r by eauto.
    unfold opens_run, starts_run, is_legal_transition. by destruct (ev_event_type e).
  - simpl. destruct (decide (ev_event_type e = EvCreated)) as [Ht|Ht];
      [|by rewrite (bool_decide_false (_ = EvCreated))].
    rewrite (bool_decide_true (_ = EvCreated)), (bool_decide_false (_ <> EvCreated)) by tauto.
    unfold seed_job_from_event. by destruct (ev_payload e).
Qed.

Lemma starts_run_no_observation current e :
  starts_run current e = true -> is_observation (ev_event_type e) = false.
Proof.
  unfold starts_run. destruct current; rewrite andb_true_iff, bool_decide_eq_true;
    by intros [-> _].
Qed.

(** The event with sequence [n] and type [t] started the current run: no event after
    it started another. *)
Definition current_run (ts : list (N * JobEvent)) (n : N) (t : JobEventType) : Prop :=
  exists before e after,
    ts = before ++ (n, e) :: after /\ ev_event_type e = t /\
    starts_run (replay None (snd <$> before)) e = true /\
    forall mid m e' rest, after = mid ++ (m, e') :: rest ->
      starts_run (replay None (snd <$> (before ++ (n, e) :: mid))) e' = false.

Lemma current_run_opened ts n e :
  starts_run (replay None (snd <$> ts)) e = true ->
  current_run (ts ++ [(n, e)]) n (ev_event_type e).
Proof. exists ts, e, []. split_and!; try done. by intros [] ? ? ?. Qed.

Lemma current_run_kept ts n t m e :
  current_run ts n t -> starts_run (replay None (snd <$> ts)) e = false ->
  current_run (ts ++ [(m, e)]) n t.
Proof.
  intros (before & e0 & after & -> & Ht & Hopen & Hkept) Hclosed.
  exists before, e0, (after ++ [(m, e)]). split_and!; [by rewrite <- app_assoc|done|done|].
  intros mid m' e' rest Heq.
  destruct rest as [|x rest _] using rev_ind.
  - apply app_inj_tail in Heq as [-> [= -> ->]]. done.
  - rewrite app_comm_cons, app_assoc in Heq. apply app_inj_tail in Heq as [-> _]. eauto.
Qed.

Lemma current_run_snoc ts n t m e :
  current_run (ts ++ [(m, e)]) n t ->
  (n = m /\ t = ev_event_type e /\ starts_run (replay None (snd <$> ts)) e = true) \/
  (current_run ts n t /\ starts_run (replay None (snd <$> ts)) e = false).
Proof.
  intros (before & e0 & after & Heq & Ht & Hopen & Hkept).
  destruct after as [|x after _] using rev_ind.
  - apply app_inj_tail in Heq as [-> [= -> ->]]. auto.
  - rewrite app_comm_cons, app_assoc in Heq. apply app_inj_tail in Heq as [-> <-].
    right. split; [|by eapply Hkept].
    exists before, e0, after. split_and!; try done.
    intros mid m' e' rest ->. apply (Hkept mid m' e' (rest ++ [(m, e)])).
    by rewrite <- app_assoc.
Qed.

Lemma starts_run_recovers a b e : recovers_as a b -> starts_run a e = starts_run b e.
Proof.
  destruct a as [a|], b as [b|]; try done. intros [Hv Ht]. simpl.
  by rewrite (recovers_as_legal a b e Hv Ht).
Qed.

Lemma recover_step_run r n e :
  let opened := starts_run (rec_current r) e in
  rec_run_sequence (recover_step r (n, e)) =
    (if opened then Some n else rec_run_sequence r) /\
  rec_run_type (recover_step r (n, e)) =
    (if opened then ev_event_type e else rec_run_type r).
Proof.
  simpl. rewrite <- opens_run_starts.
  pose proof (starts_run_no_observation (rec_current r) e) as Hobs.
  rewrite <- opens_run_starts in Hobs.
  destruct (opens_run _ _ && _); [by rewrite Hobs|by case_match].
Qed.

(** The recovery's run is the current run, and there is one as soon as there is a
    job. *)
Lemma recover_run ts n t :
  events_wf ts ->
  (rec_run_sequence (recover ts) = Some n /\ rec_run_type (recover ts) = t
   <-> current_run ts n t).
Proof.
  revert n t. induction ts as [|[m e] ts IH] using rev_ind; intros n t.
  { intros _. split; [by intros [? _]|]. by intros ([] & ? & ? & ? & _). }
  rewrite events_wf_snoc, recover_snoc. intros [Hts He].
  destruct (recover_step_run (recover ts) m e) as [-> ->].
  rewrite (starts_run_recovers _ _ e (recover_replay ts Hts)).
  destruct (starts_run (replay None (snd <$> ts)) e) eqn:Hopen; simpl.
  - split; [intros [[= <-] <-]; by apply current_run_opened|].
    by intros [(-> & -> & _)|[_ ?]]%current_run_snoc; [|congruence].
  - rewrite IH by done. split; [intros; by apply current_run_kept|].
    by intros [(_ & _ & ?)|[? _]]%current_run_snoc; [congruence|].
Qed.

Lemma recover_run_some ts :
  events_wf ts -> is_Some (rec_current (recover ts)) -> is_Some (rec_run_sequence (recover ts)).
Proof.
  induction ts as [|[m e] ts IH] using rev_ind; [by intros _ []|].
  rewrite events_wf_snoc, recover_snoc, recover_step_current. intros [Hts He] Hcur.
  destruct (recover_step_run (recover ts) m e) as [-> _].
  destruct (starts_run (rec_current (recover ts)) e) eqn:Hopen; simpl; [by eauto|].
  apply IH; [done|]. destruct (rec_current (recover ts)) as [j|] eqn:Hj; [by eauto|].
  destruct (is_observation (ev_event_type e)); [done|].
  rewrite <- opens_run_starts, bool_decide_true, andb_true_r in Hopen by done.
  simpl in *. rewrite bool_decide_eq_false in Hopen. by rewrite bool_decide_true in Hcur.
Qed.

(** A state either absorbs or has a step to another state. *)
Lemma absorbing_or_step s n :
  s ∈ [Completed; Cancelled; Skipped; Stale; Dismissed] \/
  exists s', s' <> s /\ lifecycle_step s n s'.
Proof.
  destruct s; try (left; solve_state); right.
  1,3: by exists Active; split; [done|apply step_start; solve_state].
  - exists Retry. split; [done|constructor].
  - exists Pending. split; [done|apply step_reopen; solve_state].
  - exists Dead. split; [done|apply step_die; solve_state].
  - exists Dismissed. split; [done|constructor].
Qed.

(** ** Theorems *)


(** C7: the reducer implements the abstract lifecycle: the state of a job steps to
    [s'] in the lifecycle exactly when some published event, as it is read back, is
    accepted and leaves the job in [s'].  Every other event leaves the job unchanged. *)
Theorem reducer_implements_lifecycle j s' :
  lifecycle_step (job_state j) (job_tries j) s' <->
  exists e j', constructed e /\ is_legal_transition j (read_back e) = true /\
    reduce_job_event (Some j) (read_back e) = Some j' /\ job_state j' = s'.
Proof.
  split.
  - intros Hstep. destruct (lifecycle_complete j s' Hstep) as (e & He & Hlegal & Hst).
    exists e, (accept_event j (read_back e)). rewrite reduce_some, Hlegal.
    by rewrite (proj1 (accept_event_state j (read_back e))).
  - intros (e & j' & He & Hlegal & Hred & <-). rewrite reduce_some, Hlegal in Hred.
    injection Hred as <-. rewrite (proj1 (accept_event_state j (read_back e))).
    apply legal_step; [by apply received_wf; exists e|done].
Qed.

(** A job that has ended stays ended, with its result, whatever is published
    afterwards, unless an administrator retries it. *)
Theorem ended_job_stays_ended j es :
  Forall received es -> Forall (fun e => ev_event_type e <> EvRetried) es ->
  is_terminal (job_state j) = true ->
  exists j', replay (Some j) es = Some j' /\
    is_terminal (job_state j') = true /\ job_result j' = job_result j.
Proof.
  intros Hes Hret Hj.
  apply (replay_invariant
    (fun j' => is_terminal (job_state j') = true /\ job_result j' = job_result j)
    (fun e => event_wf e /\ ev_event_type e <> EvRetried)); [| |done].
  - intros j1 e [He Ht] Hlegal [Hterm <-].
    destruct (accept_terminal j1 e He Ht Hlegal Hterm) as [? ?].
    by rewrite (proj1 (accept_event_state j1 e)).
  - apply Forall_and. split; [by apply all_received_wf|done].
Qed.

(** No event, published by the runtime or not, changes what identifies a job or
    removes a projected job. *)
Theorem job_identity_immutable j es :
  exists j', replay (Some j) es = Some j' /\ job_identity j' = job_identity j.
Proof.
  apply (replay_invariant (fun j' => job_identity j' = job_identity j) (fun _ => True));
    [|by apply Forall_true|done].
  intros j1 e _ _ <-. apply accept_event_state.
Qed.

(** The states no event leaves are exactly completed, cancelled, skipped, stale
    and dismissed. *)
Theorem absorbing_states j :
  (forall e, received e -> reduce_job_event (Some j) e = Some j) <->
  job_state j ∈ [Completed; Cancelled; Skipped; Stale; Dismissed].
Proof.
  split.
  - intros Hfix. destruct (absorbing_or_step (job_state j) (job_tries j)) as [|(s' & Hne & Hstep)];
      [done|].
    destruct (lifecycle_complete j s' Hstep) as (e & He & Hlegal & Hst).
    specialize (Hfix (read_back e) (ex_intro _ e (conj He eq_refl))).
    rewrite reduce_some, Hlegal in Hfix. injection Hfix as Hfix.
    destruct (accept_event_state j (read_back e)) as [Hst' _]. congruence.
  - intros Hst e _. rewrite reduce_some. destruct (is_legal_transition j e) eqn:Hlegal; [|done].
    apply legal_from in Hlegal. destruct (ev_event_type e), (job_state j); set_solver.
Qed.

(** A second delivery of a published event changes nothing, except that a
    [Logged] event appends its entries again. *)
Theorem redelivery_is_harmless current e j :
  received e -> ev_event_type e <> EvLogged ->
  reduce_job_event current e = Some j -> reduce_job_event (Some j) e = Some j.
Proof.
  intros He Hlog Hred. apply received_wf in He.
  rewrite reduce_some. destruct (is_legal_transition j e) eqn:Hagain; [|done]. f_equal.
  destruct current as [j0|].
  - rewrite reduce_some in Hred. destruct (is_legal_transition j0 e) eqn:Hlegal.
    + injection Hred as <-. apply accept_twice; [by apply (legal_again j0)|done].
    + congruence.
  - simpl in Hred. apply legal_from in Hagain.
    case_bool_decide as Ht; [done|]. by destruct (ev_event_type e).
Qed.

(** Recovering a job without its progress, log, heartbeat, wait and
    stale-completion events gives what the full history gives: the same identity,
    state, payload, result, times and deadline. *)
Theorem recovery_agrees_with_replay ts :
  Forall (fun t => received (snd t)) ts ->
  recovery_view <$> rec_current (recover ts) = recovery_view <$> replay None (snd <$> ts).
Proof.
  intros Hts.
  assert (recovers_as (rec_current (recover ts)) (replay None (snd <$> ts))) as Hrec.
  { apply recover_replay. eapply Forall_impl; [done|]. intros t. apply received_wf. }
  destruct (rec_current (recover ts)), (replay None (snd <$> ts)); try done.
  simpl. f_equal. apply Hrec.
Qed.

(** C20: for a job whose history shows it exists, a delivered work message is
    processed exactly when the job has not ended and the message is the one that
    started the job's current run, its creation or the last accepted retry: messages of
    earlier runs and of ended jobs are never processed again, and the current one is never
    dropped. *)
Theorem work_processed_iff_current_run work n t ts j :
  Forall (fun t => received (snd t)) ts ->
  replay None (snd <$> work_transitions work ts) = Some j ->
  (fst (work_decision work n t ts) = Process <->
   is_terminal (job_state j) = false /\ current_run (work_transitions work ts) n t).
Proof.
  intros Hts Hj. set (ts' := work_transitions work ts) in *.
  assert (events_wf ts') as Hwf.
  { unfold events_wf, ts', work_transitions. rewrite sort_by_key_perm.
    apply Forall_forall. intros x [_ Hx]%list_elem_of_filter.
    rewrite Forall_forall in Hts. by apply received_wf, Hts. }
  rewrite <- recover_run by done.
  pose proof (recover_replay ts' Hwf) as Hrec. rewrite Hj in Hrec.
  unfold work_decision. fold ts'.
  destruct (rec_current (recover ts')) as [j'|] eqn:Hcur; [|done].
  destruct (recover_run_some ts' Hwf) as [n' Hn']; [by rewrite Hcur|].
  destruct Hrec as [Hv _]. assert (job_state j' = job_state j) as Hst
    by (unfold recovery_view in Hv; by injection Hv).
  rewrite Hn'. rewrite bool_decide_true by eauto. simpl. rewrite Hst.
  destruct (decide (rec_run_type (recover ts') = t)) as [Ht|Ht], (decide (n' = n)) as [->|Hn],
    (is_terminal (job_state j)); repeat case_bool_decide; naive_solver.
Qed.
End replay.

(** ** Closed instances *)

Local Existing Instance json_text.
#[local] Instance replay_lowercase : Lowercase := to_ascii_lowercase.
#[local] Instance replay_text : ValueText := fun value => value.

(** ** A sample history

    The events of one job that is retried, fails, is retried by an administrator and
    runs again, for closed examples. *)

Definition sample_meta (timestamp : string) : EventMeta :=
  {| meta_service := "billing"; meta_job_type := "invoice"; meta_job_id := "job-1";
     meta_context := mkJobContext "r" "t" "p" None; meta_timestamp := timestamp |}.

Definition sample_edge : JobWaitEdge :=
  {| edge_id := "w1";
     edge_target := mkJobWaitTarget WaitExternal None None None None None None None None;
     edge_started_at := "03"; edge_label := None |}.

Definition sample_failure : list JobEvent :=
  read_back <$>
  [created (sample_meta "01") "{}" 2 None; started (sample_meta "02") 1 Pending;
   waiting (sample_meta "03") 1 sample_edge; retry (sample_meta "04") 1 Active (Some "timeout");
   started (sample_meta "05") 2 Retry; heartbeat (sample_meta "06") 2 None;
   failed (sample_meta "07") 2 Active "timeout"].

Definition sample_history : list JobEvent :=
  sample_failure ++
  (read_back <$>
   [retried (sample_meta "08") Failed None None None; started (sample_meta "09") 1 Pending;
    heartbeat (sample_meta "10") 1 None]).

(** The history with its stream sequences. *)
Definition sample_transitions : list (N * JobEvent) :=
  zip (N.of_nat <$> seq 1 10) sample_history.

(** A job, projected from events known to leave one. *)
Definition sample_job (events : list JobEvent) : Job :=
  match replay None events with
  | Some job => job
  | None => mkJob "" (mkJobContext "" "" "" None) "" "" Pending "" None "" "" None None 0 0
              None None None None None None None None None None
  end.

Lemma all_read_back es : Forall constructed es -> Forall received (read_back <$> es).
Proof. rewrite Forall_fmap. intros. eapply Forall_impl; [done|]. intros e He. by exists e. Qed.

Lemma sample_history_received : Forall received sample_history.
Proof. apply Forall_app. split; apply all_read_back; by repeat constructor. Defined.

Lemma sample_transitions_received : Forall (fun t => received (snd t)) sample_transitions.
Proof. apply (Forall_fmap snd received sample_transitions). apply sample_history_received. Defined.


Lemma ended_job_stays_ended_witness :
  exists j', replay (Some (sample_job sample_failure)) (take 7 sample_history) = Some j' /\
    is_terminal (job_state j') = true /\ job_result j' = None.
Proof.
  apply (ended_job_stays_ended (sample_job sample_failure) (take 7 sample_history)).
  - apply Forall_take, sample_history_received.
  - by repeat constructor.
  - reflexivity.
Defined.

Lemma redelivery_is_harmless_witness :
  let e := read_back (waiting (sample_meta "03") 1 sample_edge) in
  let j := sample_job (take 3 sample_history) in
  reduce_job_event (Some j) e = Some j.
Proof.
  apply (redelivery_is_harmless (Some (sample_job (take 2 sample_history)))).
  - eexists. split; [constructor|reflexivity].
  - done.
  - vm_compute. reflexivity.
Defined.

Lemma recovery_agrees_with_replay_witness :
  recovery_view <$> rec_current (recover sample_transitions) =
  recovery_view <$> replay None (snd <$> sample_transitions).
Proof. apply (recovery_agrees_with_replay sample_transitions), sample_transitions_received. Defined.

Lemma work_processed_iff_current_run_witness :
  fst (work_decision (sample_job sample_failure) 8 EvRetried sample_transitions) = Process <->
  false = false /\
  current_run (work_transitions (sample_job sample_failure) sample_transitions) 8 EvRetried.
Proof.
  apply (work_processed_iff_current_run (sample_job sample_failure) 8 EvRetried
           sample_transitions (sample_job sample_history)).
  - apply sample_transitions_received.
  - vm_compute. reflexivity.
Defined.

(** A job that is submitted with the payload [null] is never projected: the event reads
    back without a payload, and no later event seeds the job.  One that completes with
    the result [null] has no result. *)
Example null_payload_lost :
  replay None (read_back <$> [created (sample_meta "01") "null" 2 None;
                              started (sample_meta "02") 1 Pending]) = None.
Proof. reflexivity. Qed.

Example null_result_absent :
  (fun j => (job_state j, job_result j)) <$>
    replay None (read_back <$> [created (sample_meta "01") "{}" 2 None;
                                started (sample_meta "02") 1 Pending;
                                completed (sample_meta "03") 1 "null"]) =
  Some (Completed, None).
Proof. reflexivity. Qed.
