(* ===== verification/JobKeys.v ===== *)
(** * Jobs: keyed concurrency

    [crates/trellis/src/jobs/keys.rs]: the state of one concurrency key (the active
    slots and the queued reservations of the jobs that share it), the reducers that
    admit, acquire, renew, release, remove and restore, and the coordinator that
    applies a reducer to the state stored in the [JOBS_KEYS] bucket with
    compare-and-set retries.  The worker's clean-up of a terminal job is in
    [runtime_worker.rs]. *)

From Stdlib Require Import Ascii String.
From S2P Require Import Prelude RustStr Extern Kv JobTypes.

Local Open Scope N_scope.

Definition KEY_STATE_VERSION : N := 1.

Definition job_key (service job_type job_id : string) : string :=
  service +:+ "." +:+ job_type +:+ "." +:+ job_id.

Definition coordination_key (service job_type key_hash : string) : string :=
  service +:+ "." +:+ job_type +:+ "." +:+ key_hash.

(** ** Key derivation *)

Inductive KeyDerivationError :=
| EmptyTemplate
| MissingPointer (pointer : string)
| NonScalarPointer (pointer : string).

Record DerivedJobKey := mkDerivedJobKey {
  derived_key : string;
  derived_key_hash : string;
}.

Section derivation.
Context `{JsonScalars} `{Sha256}.

Definition derive_key_segment (payload : Value) (segment : string) :
    result Value KeyDerivationError :=
  if negb (starts_with "/" segment) then Ok (value_string segment) else
  let? value := ok_or (value_pointer payload segment) (MissingPointer segment) in
  match value_scalar value with
  | Some _ => Ok value
  | None => Err (NonScalarPointer segment)
  end.

(** [iter.map(f).collect::<Result<Vec<_>, _>>()] *)
Fixpoint collect {A B E} (f : A -> result B E) (l : list A) : result (list B) E :=
  match l with
  | [] => Ok []
  | x :: l =>
      let? y := f x in
      let? ys := collect f l in
      Ok (y :: ys)
  end.

(** The text of a scalar value; the last case is the source's [unreachable!], which
    [derived_segments_scalar] shows is not reached. *)
Definition display_key_segment (segment : Value) : string :=
  match value_scalar segment with
  | Some (ScalarString value) => value
  | Some (ScalarNumber text) => text
  | Some (ScalarBool value) => if value then "true" else "false"
  | None => ""
  end.

(** The lower-case hexadecimal text of a digest. *)
Fixpoint hex_bytes (bytes : string) : string :=
  match bytes with
  | EmptyString => EmptyString
  | String byte bytes => hex_padded 2 (byte_of byte) +:+ hex_bytes bytes
  end.

Definition key_hash (key : string) : string := hex_bytes (sha256 key).

Definition key_hash_for_segments (segments : list Value) : string :=
  key_hash (segments_to_json 1 segments).

Definition derive_job_key (payload : Value) (template : list string) :
    result DerivedJobKey KeyDerivationError :=
  if bool_decide (template = []) then Err EmptyTemplate else
  let? segments := collect (derive_key_segment payload) template in
  Ok {| derived_key := join ":" (display_key_segment <$> segments);
        derived_key_hash := key_hash_for_segments segments |}.

Definition derive_key (payload : Value) (template : list string) :
    result string KeyDerivationError :=
  let? derived := derive_job_key payload template in
  Ok (derived_key derived).

Lemma derived_segments_scalar `{!JsonScalarsLaws} payload template segments :
  collect (derive_key_segment payload) template = Ok segments ->
  Forall (fun segment => is_Some (value_scalar segment)) segments.
Proof.
  revert segments. induction template as [|t template IH]; intros segments; cbn [collect].
  { intros [= <-]. constructor. }
  rewrite let_ok. intros (y & Hy & Hs). apply let_ok in Hs as (ys & Hys & [= <-]).
  constructor; [|by apply IH]. unfold derive_key_segment in Hy.
  destruct (negb _); [injection Hy as <-; rewrite value_scalar_string; eauto|].
  apply let_ok in Hy as (v & _ & Hv). destruct (value_scalar v) eqn:?; [|done].
  injection Hv as <-. eauto.
Qed.
End derivation.

(** ** The state of a key *)

Inductive JobKeyStalePolicy :=
| FailStale
| Block.

Inductive JobQueueWhenFull :=
| Reject
| Coalesce
| ReplaceOldest.

Record JobKeyActiveSlot := mkSlot {
  slot_job_id : string;
  slot_token : string;
  slot_instance_id : string;
  slot_started_at : string;
  slot_heartbeat_at : string;
  slot_lease_expires_at : string;
  slot_tries : N;
  slot_context : option JobContext;
}.

Record JobKeyQueuedEntry := mkQueuedEntry {
  queued_job_id : string;
  queued_created_at : string;
  queued_request_id : string;
  queued_context : option JobContext;
}.

Record JobKeyState := mkKeyState {
  key_version : N;
  key_service : string;
  key_job_type : string;
  key_key : string;
  key_key_hash : string;
  key_max_active : N;
  key_max_queued_per_key : option N;
  key_active : list JobKeyActiveSlot;
  key_cleanup_pending : list string;
  key_queued : list JobKeyQueuedEntry;
  key_stale_takeover_count : N;
  key_updated_at : string;
}.

Record JobKeyPolicy := mkKeyPolicy {
  policy_service : string;
  policy_job_type : string;
  policy_key : string;
  policy_key_hash : string;
  policy_max_active : N;
  policy_max_queued_per_key : N;
  policy_when_full : JobQueueWhenFull;
  policy_stale_policy : JobKeyStalePolicy;
}.

Record AdmitJobInput := mkAdmitInput {
  admit_job_id : string;
  admit_request_id : string;
  admit_created_at : string;
  admit_context : JobContext;
}.

Record AcquireSlotInput := mkAcquireInput {
  acquire_job_id : string;
  acquire_slot_token : string;
  acquire_instance_id : string;
  acquire_started_at : string;
  acquire_lease_expires_at : string;
  acquire_tries : N;
  acquire_context : JobContext;
}.

Global Instance JobKeyStalePolicy_eq_dec : EqDecision JobKeyStalePolicy.
Proof. solve_decision. Defined.
Global Instance JobKeyState_settable : Settable JobKeyState := fun s =>
  mkKeyState (key_version s) (key_service s) (key_job_type s) (key_key s)
    (key_key_hash s) (key_max_active s) (key_max_queued_per_key s) (key_active s)
    (key_cleanup_pending s) (key_queued s) (key_stale_takeover_count s)
    (key_updated_at s).
Global Instance JobKeyActiveSlot_settable : Settable JobKeyActiveSlot := fun s =>
  mkSlot (slot_job_id s) (slot_token s) (slot_instance_id s) (slot_started_at s)
    (slot_heartbeat_at s) (slot_lease_expires_at s) (slot_tries s) (slot_context s).

Inductive KeyRejectReason :=
| ActiveLimit
| QueueDepth
| StaleBlocked.

Inductive AdmitJobOutcome :=
| Accepted (state : JobKeyState)
| Rejected (reason : KeyRejectReason) (active queued limit : N)
| Coalesced (existing_job_id : string)
| Replaced (state : JobKeyState) (replaced : JobKeyQueuedEntry).

Inductive AcquireSlotOutcome :=
| Acquired (state : JobKeyState) (slot : JobKeyActiveSlot)
    (stale_slots : list JobKeyActiveSlot)
| Blocked (state : JobKeyState) (reason : KeyRejectReason).

Inductive LeaseMutationOutcome :=
| Renewed (state : JobKeyState)
| Released (state : JobKeyState)
| Lost (state : JobKeyState).

Inductive QueueMutationOutcome :=
| Removed (state : JobKeyState)
| Restored (state : JobKeyState)
| Missing (state : JobKeyState).

(** ** Reducers *)

Definition new_key_state (policy : JobKeyPolicy) (timestamp : string) : JobKeyState :=
  {| key_version := KEY_STATE_VERSION;
     key_service := policy_service policy;
     key_job_type := policy_job_type policy;
     key_key := policy_key policy;
     key_key_hash := policy_key_hash policy;
     key_max_active := policy_max_active policy;
     key_max_queued_per_key := Some (policy_max_queued_per_key policy);
     key_active := [];
     key_cleanup_pending := [];
     key_queued := [];
     key_stale_takeover_count := 0;
     key_updated_at := timestamp |}.

Definition admission_reject_reason (state : JobKeyState) (policy : JobKeyPolicy) :
    KeyRejectReason :=
  if policy_max_active policy <=? len (key_active state) then ActiveLimit else QueueDepth.

Definition admission_reject_limit (state : JobKeyState) (policy : JobKeyPolicy)
    (queue_limit : N) : N :=
  if policy_max_active policy <=? len (key_active state) then policy_max_active policy
  else queue_limit.

(** The reservation of an admitted job. *)
Definition reservation (input : AdmitJobInput) : JobKeyQueuedEntry :=
  {| queued_job_id := admit_job_id input;
     queued_created_at := admit_created_at input;
     queued_request_id := admit_request_id input;
     queued_context := Some (admit_context input) |}.

(** The number of reservations a key may hold: the declared depth, and one for each
    active slot that is free. *)
Definition queue_limit (state : JobKeyState) (policy : JobKeyPolicy) : N :=
  let active_capacity := policy_max_active policy - len (key_active state) in
  saturating_add_u64 (policy_max_queued_per_key policy) active_capacity.

Definition admit_job (current : option JobKeyState) (policy : JobKeyPolicy)
    (input : AdmitJobInput) : AdmitJobOutcome :=
  let state := default (new_key_state policy (admit_created_at input)) current in
  let state :=
    state <| key_max_active := policy_max_active policy |>
          <| key_max_queued_per_key := Some (policy_max_queued_per_key policy) |> in
  if any (fun slot => slot_job_id slot = admit_job_id input) (key_active state)
     || any (fun entry => queued_job_id entry = admit_job_id input) (key_queued state)
  then Accepted state
  else
    let limit := queue_limit state policy in
    let rejected :=
      Rejected (admission_reject_reason state policy) (len (key_active state))
        (len (key_queued state)) (admission_reject_limit state policy limit) in
    if limit <=? len (key_queued state) then
      match policy_when_full policy, key_queued state with
      | Reject, _ => rejected
      | Coalesce, entry :: _ => Coalesced (queued_job_id entry)
      | Coalesce, [] =>
          Coalesced (default "" (slot_job_id <$> head (key_active state)))
      | ReplaceOldest, replaced :: queued =>
          Replaced
            (state <| key_queued := queued ++ [reservation input] |>
                   <| key_updated_at := admit_created_at input |>) replaced
      | ReplaceOldest, [] => rejected
      end
    else
      Accepted
        (state <| key_queued := key_queued state ++ [reservation input] |>
               <| key_updated_at := admit_created_at input |>).

Definition expired_at (now : string) (slot : JobKeyActiveSlot) : Prop :=
  str_le (slot_lease_expires_at slot) now = true.

Global Instance expired_at_dec now slot : Decision (expired_at now slot).
Proof. unfold expired_at. apply _. Defined.

Definition count_takeover (state : JobKeyState) : JobKeyState :=
  state <| key_stale_takeover_count :=
             saturating_add_u64 (key_stale_takeover_count state) 1 |>.

Definition new_slot (input : AcquireSlotInput) : JobKeyActiveSlot :=
  {| slot_job_id := acquire_job_id input;
     slot_token := acquire_slot_token input;
     slot_instance_id := acquire_instance_id input;
     slot_started_at := acquire_started_at input;
     slot_heartbeat_at := acquire_started_at input;
     slot_lease_expires_at := acquire_lease_expires_at input;
     slot_tries := acquire_tries input;
     slot_context := Some (acquire_context input) |}.

(** The slot is pushed once there is room for it. *)
Definition push_slot (state : JobKeyState) (input : AcquireSlotInput)
    (stale_slots : list JobKeyActiveSlot) : AcquireSlotOutcome :=
  let slot := new_slot input in
  Acquired
    (state <| key_active := key_active state ++ [slot] |>
           <| key_updated_at := acquire_started_at input |>) slot stale_slots.

(** The second half of [acquire_active_slot]: the job holds no slot of its own; where
    the key is full, an expired slot makes room or the acquisition is blocked. *)
Definition acquire_with_capacity (state : JobKeyState) (policy : JobKeyPolicy)
    (input : AcquireSlotInput) : AcquireSlotOutcome :=
  if policy_max_active policy <=? len (key_active state) then
    match extract (expired_at (acquire_started_at input)) (key_active state),
          policy_stale_policy policy with
    | Some (displaced, active), FailStale =>
        let state := state <| key_active := active |> in
        let state :=
          if bool_decide (slot_job_id displaced ∈ key_cleanup_pending state) then state
          else state <| key_cleanup_pending :=
                          key_cleanup_pending state ++ [slot_job_id displaced] |> in
        push_slot (count_takeover state) input [displaced]
    | Some _, Block => Blocked state StaleBlocked
    | None, _ => Blocked state ActiveLimit
    end
  else push_slot state input [].

Definition acquire_active_slot (state : JobKeyState) (policy : JobKeyPolicy)
    (input : AcquireSlotInput) : AcquireSlotOutcome :=
  let state :=
    state <| key_max_active := policy_max_active policy |>
          <| key_queued :=
               filter (fun entry => queued_job_id entry <> acquire_job_id input)
                 (key_queued state) |> in
  match find_first (fun slot => slot_job_id slot = acquire_job_id input /\
                                slot_token slot = acquire_slot_token input)
          (key_active state) with
  | Some existing =>
      if str_le (slot_lease_expires_at existing) (acquire_started_at input)
      then Blocked state StaleBlocked
      else Acquired state existing []
  | None =>
      match extract (fun slot => slot_job_id slot = acquire_job_id input) (key_active state) with
      | Some (slot, active) =>
          if negb (str_le (slot_lease_expires_at slot) (acquire_started_at input))
          then Blocked state ActiveLimit
          else
            let state := state <| key_active := active |> in
            acquire_with_capacity (count_takeover state) policy input
      | None => acquire_with_capacity state policy input
      end
  end.

Definition acquire_active_slot_from_state (current : option JobKeyState)
    (policy : JobKeyPolicy) (input : AcquireSlotInput) : AcquireSlotOutcome :=
  let state := default (new_key_state policy (acquire_started_at input)) current in
  acquire_active_slot state policy input.

(** The first slot of the job with the token, changed in place. *)
Fixpoint update_slot (job_id token : string) (f : JobKeyActiveSlot -> JobKeyActiveSlot)
    (active : list JobKeyActiveSlot) : option (list JobKeyActiveSlot) :=
  match active with
  | [] => None
  | slot :: active =>
      if decide (slot_job_id slot = job_id /\ slot_token slot = token)
      then Some (f slot :: active)
      else cons slot <$> update_slot job_id token f active
  end.

Definition renewed (heartbeat_at lease_expires_at : string) (slot : JobKeyActiveSlot) :
    JobKeyActiveSlot :=
  slot <| slot_heartbeat_at := heartbeat_at |>
       <| slot_lease_expires_at := lease_expires_at |>.

Definition renew_active_slot (state : JobKeyState)
    (job_id token heartbeat_at lease_expires_at : string) : LeaseMutationOutcome :=
  match update_slot job_id token (renewed heartbeat_at lease_expires_at)
          (key_active state) with
  | None => Lost state
  | Some active =>
      Renewed (state <| key_active := active |> <| key_updated_at := heartbeat_at |>)
  end.

Definition release_active_slot (state : JobKeyState) (job_id token released_at : string) :
    LeaseMutationOutcome :=
  match extract (fun slot => slot_job_id slot = job_id /\ slot_token slot = token)
          (key_active state) with
  | None => Lost state
  | Some (_, active) =>
      Released (state <| key_active := active |> <| key_updated_at := released_at |>)
  end.

Definition remove_queued_entry (state : JobKeyState) (job_id removed_at : string) :
    QueueMutationOutcome :=
  match extract (fun entry => queued_job_id entry = job_id) (key_queued state) with
  | None => Missing state
  | Some (_, queued) =>
      Removed (state <| key_queued := queued |> <| key_updated_at := removed_at |>)
  end.

Definition restore_replaced_queued_entry (state : JobKeyState)
    (replaced : JobKeyQueuedEntry) (replacement_job_id restored_at : string) :
    QueueMutationOutcome :=
  let kept :=
    filter (fun entry => queued_job_id entry <> replacement_job_id /\
                         queued_job_id entry <> queued_job_id replaced)
      (key_queued state) in
  Restored
    (state <| key_queued := replaced :: kept |> <| key_updated_at := restored_at |>).

(** The update of [cleanup_queued_key_for_terminal]. *)
Definition forget_job (state : JobKeyState) (job_id removed_at : string) :
    QueueMutationOutcome :=
  Removed
    (state <| key_queued :=
                filter (fun entry => queued_job_id entry <> job_id) (key_queued state) |>
           <| key_active :=
                filter (fun slot => slot_job_id slot <> job_id) (key_active state) |>
           <| key_cleanup_pending :=
                filter (fun id => id <> job_id) (key_cleanup_pending state) |>
           <| key_updated_at := removed_at |>).

(** ** The coordinator *)

Inductive NatsKeyCoordinatorError :=
| KeyOpen (details : string)
| KeyRead (key details : string)
| KeyDecode (key details : string)
| KeyEncode (key details : string)
| KeyConflict (key : string)
| KeyWrite (key details : string).

(** The state an outcome asks to persist. *)
Class KeyStateUpdate (T : Type) := next_state : T -> option JobKeyState.

Global Instance AdmitJobOutcome_update : KeyStateUpdate AdmitJobOutcome := fun outcome =>
  match outcome with
  | Accepted state | Replaced state _ => Some state
  | Rejected _ _ _ _ | Coalesced _ => None
  end.
Global Instance AcquireSlotOutcome_update : KeyStateUpdate AcquireSlotOutcome := fun outcome =>
  match outcome with
  | Acquired state _ _ => Some state
  | Blocked _ _ => None
  end.
Global Instance LeaseMutationOutcome_update : KeyStateUpdate LeaseMutationOutcome :=
  fun outcome =>
  match outcome with
  | Renewed state | Released state => Some state
  | Lost _ => None
  end.
Global Instance QueueMutationOutcome_update : KeyStateUpdate QueueMutationOutcome :=
  fun outcome =>
  match outcome with
  | Removed state | Restored state => Some state
  | Missing _ => None
  end.

(** The identity a loaded state must have. *)
Definition matches_policy (policy : JobKeyPolicy) (state : JobKeyState) : Prop :=
  key_version state = KEY_STATE_VERSION /\
  key_service state = policy_service policy /\
  key_job_type state = policy_job_type policy /\
  key_key state = policy_key policy /\
  key_key_hash state = policy_key_hash policy.

Definition validate_loaded_state (key : string) (policy : JobKeyPolicy)
    (state : JobKeyState) : result unit NatsKeyCoordinatorError :=
  if bool_decide (key_version state <> KEY_STATE_VERSION)
     || bool_decide (key_service state <> policy_service policy)
     || bool_decide (key_job_type state <> policy_job_type policy)
     || bool_decide (key_key state <> policy_key policy)
     || bool_decide (key_key_hash state <> policy_key_hash policy)
  then
    Err (KeyDecode key
      ("loaded key state does not match expected service/job/key/hash: expected "
       +:+ join "/" [policy_service policy; policy_job_type policy; policy_key policy;
                     policy_key_hash policy]
       +:+ ", found version=" +:+ decimal (key_version state) +:+ " "
       +:+ join "/" [key_service state; key_job_type state; key_key state;
                     key_key_hash state]))
  else Ok tt.

Definition is_revision_mismatch (error : string) : bool :=
  let message := to_ascii_lowercase error in
  contains "wrong last sequence" message || contains "wrong last revision" message
  || contains "revision mismatch" message || contains "sequence mismatch" message.

Definition already_exists (error : string) : bool :=
  contains "already exists" (to_ascii_lowercase error).

(** The updates of the coordinator's calls where the key may have no state yet. *)
Definition release_current (policy : JobKeyPolicy) (job_id token at_ : string)
    (current : option JobKeyState) : LeaseMutationOutcome :=
  match current with
  | Some state => release_active_slot state job_id token at_
  | None => Lost (new_key_state policy at_)
  end.

Definition remove_queued_current (policy : JobKeyPolicy) (job_id at_ : string)
    (current : option JobKeyState) : QueueMutationOutcome :=
  match current with
  | Some state => remove_queued_entry state job_id at_
  | None => Missing (new_key_state policy at_)
  end.

Definition restore_current (policy : JobKeyPolicy) (replaced : JobKeyQueuedEntry)
    (replacement_job_id at_ : string) (current : option JobKeyState) : QueueMutationOutcome :=
  match current with
  | Some state => restore_replaced_queued_entry state replaced replacement_job_id at_
  | None =>
      let state := new_key_state policy at_ in
      Restored (state <| key_queued := key_queued state ++ [replaced] |>)
  end.

Definition renew_current (policy : JobKeyPolicy)
    (job_id token heartbeat_at lease_expires_at : string) (current : option JobKeyState) :
    LeaseMutationOutcome :=
  match current with
  | Some state => renew_active_slot state job_id token heartbeat_at lease_expires_at
  | None => Lost (new_key_state policy heartbeat_at)
  end.

Definition forget_current (policy : JobKeyPolicy) (job_id at_ : string)
    (current : option JobKeyState) : QueueMutationOutcome :=
  match current with
  | Some state => forget_job state job_id at_
  | None => Missing (new_key_state policy at_)
  end.

Section coordinator.
Context `{KvStore} `{JsonCodec JobKeyState}.

(** The decoded state of an entry, validated against the policy. *)
Definition load_state (key : string) (policy : JobKeyPolicy) (entry : option Entry) :
    result (option JobKeyState) NatsKeyCoordinatorError :=
  match entry with
  | None => Ok None
  | Some entry =>
      let? state := map_err (KeyDecode key) (from_slice (entry_value entry)) in
      let? _ := validate_loaded_state key policy state in
      Ok (Some state)
  end.

Definition write_state (key value : string) (entry : option Entry) (w : World) :
    result N string * World :=
  let '(written, w) :=
    match entry with
    | Some entry => kv_update key value (entry_revision entry) w
    | None => kv_create key value w
    end in
  (map_err kv_message written, w).

(** One turn of the retry loop: an answer, or [None] after a conflict. *)
Definition update_key_once {T} `{KeyStateUpdate T} (policy : JobKeyPolicy)
    (update : option JobKeyState -> T) (w : World) :
    option (result T NatsKeyCoordinatorError) * World :=
  let key :=
    coordination_key (policy_service policy) (policy_job_type policy)
      (policy_key_hash policy) in
  let '(read, w) := kv_entry key w in
  match read with
  | Err error => (Some (Err (KeyRead key (kv_message error))), w)
  | Ok entry =>
      match load_state key policy entry with
      | Err error => (Some (Err error), w)
      | Ok current =>
          let output := update current in
          match next_state output with
          | None => (Some (Ok output), w)
          | Some next =>
              match to_vec next with
              | Err details => (Some (Err (KeyEncode key details)), w)
              | Ok value =>
                  let '(written, w) := write_state key value entry w in
                  match written with
                  | Ok _ => (Some (Ok output), w)
                  | Err error =>
                      if is_revision_mismatch error || already_exists error then (None, w)
                      else (Some (Err (KeyWrite key error)), w)
                  end
              end
          end
      end
  end.

(** [update_key], with the number of turns that begin before the deadline. *)
Fixpoint update_key {T} `{KeyStateUpdate T} (turns : nat) (policy : JobKeyPolicy)
    (update : option JobKeyState -> T) (w : World) :
    result T NatsKeyCoordinatorError * World :=
  match turns with
  | O =>
      (Err (KeyConflict
              (coordination_key (policy_service policy) (policy_job_type policy)
                 (policy_key_hash policy))), w)
  | S turns =>
      match update_key_once policy update w with
      | (Some answer, w) => (answer, w)
      | (None, w) => update_key turns policy update w
      end
  end.

(** ** The coordinator's calls *)

Definition admit_call (turns : nat) (policy : JobKeyPolicy) (input : AdmitJobInput) :=
  update_key turns policy (fun current => admit_job current policy input).

Definition acquire (turns : nat) (policy : JobKeyPolicy) (input : AcquireSlotInput) :=
  update_key turns policy
    (fun current => acquire_active_slot_from_state current policy input).

Definition release (turns : nat) (policy : JobKeyPolicy) (job_id token at_ : string) :=
  update_key turns policy (release_current policy job_id token at_).

Definition remove_queued (turns : nat) (policy : JobKeyPolicy) (job_id at_ : string) :=
  update_key turns policy (remove_queued_current policy job_id at_).

Definition restore_replaced (turns : nat) (policy : JobKeyPolicy)
    (replaced : JobKeyQueuedEntry) (replacement_job_id at_ : string) :=
  update_key turns policy (restore_current policy replaced replacement_job_id at_).

(** [renew_key_lease_at] of the worker, with the new expiry computed. *)
Definition renew_key_lease (turns : nat) (policy : JobKeyPolicy)
    (job_id token heartbeat_at lease_expires_at : string) :=
  update_key turns policy (renew_current policy job_id token heartbeat_at lease_expires_at).

Definition cleanup_queued_key_for_terminal (turns : nat) (policy : JobKeyPolicy)
    (job_id at_ : string) :=
  update_key turns policy (forget_current policy job_id at_).
End coordinator.
