(* ===== verification/JobCoordination.v ===== *)
(** * Jobs: properties of keyed concurrency

    The states a key can reach under the calls of its clients, what an acquired slot
    guarantees, and that a coordinator call acts on the stored state at one moment. *)

From Stdlib Require Import Ascii String.
From S2P Require Import Prelude RustStr Extern Kv JobTypes JobKeys.

Local Open Scope N_scope.

(** ** The calls, as steps of a key's state *)
Inductive key_call :=
| CallAdmit (input : AdmitJobInput)
| CallAcquire (input : AcquireSlotInput)
| CallRenew (job_id token heartbeat_at lease_expires_at : string)
| CallRelease (job_id token at_ : string)
| CallRemoveQueued (job_id at_ : string)
| CallRestoreReplaced (replaced : JobKeyQueuedEntry) (replacement_job_id at_ : string)
| CallForget (job_id at_ : string).

(** The state a call writes, if it writes one. *)
Definition call_next (policy : JobKeyPolicy) (call : key_call) (current : option JobKeyState) :
    option JobKeyState :=
  match call with
  | CallAdmit input => next_state (admit_job current policy input)
  | CallAcquire input => next_state (acquire_active_slot_from_state current policy input)
  | CallRenew job_id token heartbeat_at lease_expires_at =>
      next_state (renew_current policy job_id token heartbeat_at lease_expires_at current)
  | CallRelease job_id token at_ => next_state (release_current policy job_id token at_ current)
  | CallRemoveQueued job_id at_ => next_state (remove_queued_current policy job_id at_ current)
  | CallRestoreReplaced replaced replacement at_ =>
      next_state (restore_current policy replaced replacement at_ current)
  | CallForget job_id at_ => next_state (forget_current policy job_id at_ current)
  end.

(** Two policies of one key: a stored state of the one loads for the other.  Clients may
    differ in the limits they bring along, such as before and after a change of them. *)
Definition same_key (policy p : JobKeyPolicy) : Prop :=
  policy_service p = policy_service policy /\ policy_job_type p = policy_job_type policy /\
  policy_key p = policy_key policy /\ policy_key_hash p = policy_key_hash policy.

(** A call of a client of the key, with the policy of that call; [limit] is the largest number
    of active slots that any of the policies allows. *)
Inductive key_step (policy : JobKeyPolicy) (limit : N) : relation (option JobKeyState) :=
| key_step_call p call current next :
    same_key policy p -> policy_max_active p <= limit ->
    call_next p call current = Some next -> key_step policy limit current (Some next).

(** ** The invariant of a key *)

Record key_wf (policy : JobKeyPolicy) (limit : N) (state : JobKeyState) : Prop := {
  wf_policy : matches_policy policy state;
  wf_active : NoDup (slot_job_id <$> key_active state);
  wf_capacity : len (key_active state) <= limit;
  wf_queued : NoDup (queued_job_id <$> key_queued state);
  wf_cleanup : NoDup (key_cleanup_pending state);
}.

Section reducers.
Context (base : JobKeyPolicy) (limit : N) (policy : JobKeyPolicy).
Context (same : same_key base policy) (within : policy_max_active policy <= limit).
Implicit Types (st next : JobKeyState).

Lemma new_key_state_wf at_ : key_wf base limit (new_key_state policy at_).
Proof.
  destruct same as (? & ? & ? & ?).
  split; simpl; [by split_and!|constructor|apply N.le_0_l|constructor|constructor].
Qed.

Lemma admit_wf current input next :
  (forall st, current = Some st -> key_wf base limit st) ->
  next_state (admit_job current policy input) = Some next -> key_wf base limit next.
Proof.
  intros Hcur. unfold admit_job.
  set (st := default _ current).
  assert (key_wf base limit st) as [Hm Ha Hc Hq Hcl].
  { subst st. destruct current; simpl; [by apply Hcur|apply new_key_state_wf]. }
  clearbody st. simpl.
  destruct (any _ (key_active st) || any _ (key_queued st)) eqn:Hany.
  { intros [= <-]. by split. }
  apply orb_false_iff in Hany as [_ Hany]. rewrite any_false in Hany.
  destruct (_ <=? _).
  - destruct (policy_when_full policy), (key_queued st) as [|e q] eqn:Hqs; simpl; try discriminate.
    intros [= <-]. split; simpl; try done. apply NoDup_fmap_push.
    + intros y Hy. apply Hany. set_solver.
    + by inversion Hq.
  - intros [= <-]. split; simpl; try done. by apply NoDup_fmap_push.
Qed.

Lemma acquire_with_capacity_wf st input next :
  key_wf base limit st ->
  (forall slot, slot ∈ key_active st -> slot_job_id slot <> acquire_job_id input) ->
  next_state (acquire_with_capacity st policy input) = Some next -> key_wf base limit next.
Proof.
  intros [Hm Ha Hc Hq Hcl] Hfree. unfold acquire_with_capacity.
  destruct (N.leb_spec (policy_max_active policy) (len (key_active st))).
  - destruct (extract _ _) as [[displaced active]|] eqn:Hex; [|by destruct (policy_stale_policy policy)].
    destruct (policy_stale_policy policy); [|done]. simpl. intros [= <-].
    pose proof (extract_sublist _ _ _ _ Hex) as Hsub.
    pose proof (extract_len _ _ _ _ Hex) as Hlen.
    assert (NoDup (slot_job_id <$> active)) by (by eapply NoDup_fmap_sublist).
    assert (forall slot, slot ∈ active -> slot_job_id slot <> acquire_job_id input).
    { intros slot Hs. apply Hfree. destruct (extract_perm _ _ _ _ Hex) as [_ ->]. by right. }
    case_bool_decide as Hin; split; simpl; try done.
    all: try (by apply NoDup_fmap_push).
    all: try (unfold len in *; rewrite length_app; simpl; lia).
    apply NoDup_app. split_and!; [done|set_solver|apply NoDup_singleton].
  - simpl. intros [= <-]. split; simpl; try done; [by apply NoDup_fmap_push|].
    unfold len in *. rewrite length_app. simpl. lia.
Qed.

Lemma acquire_wf current input next :
  (forall st, current = Some st -> key_wf base limit st) ->
  next_state (acquire_active_slot_from_state current policy input) = Some next ->
  key_wf base limit next.
Proof.
  intros Hcur. unfold acquire_active_slot_from_state.
  set (st := default _ current).
  assert (key_wf base limit st) as [Hm Ha Hc Hq Hcl].
  { subst st. destruct current; simpl; [by apply Hcur|apply new_key_state_wf]. }
  clearbody st. unfold acquire_active_slot. simpl.
  set (queued := filter _ (key_queued st)).
  assert (NoDup (queued_job_id <$> queued)) as Hq'
    by (eapply NoDup_fmap_sublist; [apply sublist_filter|done]).
  destruct (find_first _ _) as [existing|] eqn:Hfind.
  { destruct (str_le _ _); [done|]. intros [= <-]. by split. }
  destruct (extract _ _) as [[slot active]|] eqn:Hex.
  - destruct (negb _); [done|].
    destruct (extract_perm _ _ _ _ Hex) as [Hslot Hperm].
    rewrite Hperm in Ha. simpl in Ha. apply NoDup_cons in Ha as [Hnin Ha].
    pose proof (extract_len _ _ _ _ Hex). apply acquire_with_capacity_wf; simpl.
    + split; simpl; try done. lia.
    + intros s Hs Heq. apply Hnin. rewrite Hslot, <- Heq. by apply list_elem_of_fmap_2.
  - rewrite extract_None in Hex. apply acquire_with_capacity_wf; [by split|]. simpl.
    intros s Hs. by apply Hex.
Qed.

Lemma update_slot_ids job_id token f active active' :
  (forall slot, slot_job_id (f slot) = slot_job_id slot) ->
  update_slot job_id token f active = Some active' ->
  slot_job_id <$> active' = slot_job_id <$> active.
Proof.
  intros Hf. revert active'. induction active as [|slot active IH]; intros active'; simpl; [done|].
  case_decide; [intros [= <-]; simpl; by rewrite Hf|].
  intros (rest & Hrest & ->)%fmap_Some. simpl. f_equal. by apply IH.
Qed.

Lemma renew_wf st job_id token heartbeat_at lease_expires_at next :
  key_wf base limit st ->
  next_state (renew_active_slot st job_id token heartbeat_at lease_expires_at) = Some next ->
  key_wf base limit next.
Proof.
  intros [Hm Ha Hc Hq Hcl]. unfold renew_active_slot.
  destruct (update_slot _ _ _ _) as [active|] eqn:Hup; [|done]. intros [= <-].
  apply update_slot_ids in Hup; [|done]. split; simpl; try done; [by rewrite Hup|].
  unfold len in *. by rewrite <- (length_fmap slot_job_id), Hup, length_fmap.
Qed.

Lemma release_wf st job_id token at_ next :
  key_wf base limit st ->
  next_state (release_active_slot st job_id token at_) = Some next -> key_wf base limit next.
Proof.
  intros [Hm Ha Hc Hq Hcl]. unfold release_active_slot.
  destruct (extract _ _) as [[slot active]|] eqn:Hex; [|done]. intros [= <-].
  apply extract_sublist in Hex. split; simpl; try done; [by eapply NoDup_fmap_sublist|].
  apply sublist_len in Hex. lia.
Qed.

Lemma remove_queued_wf st job_id at_ next :
  key_wf base limit st ->
  next_state (remove_queued_entry st job_id at_) = Some next -> key_wf base limit next.
Proof.
  intros [Hm Ha Hc Hq Hcl]. unfold remove_queued_entry.
  destruct (extract _ _) as [[entry queued]|] eqn:Hex; [|done]. intros [= <-].
  apply extract_sublist in Hex. split; simpl; try done. by eapply NoDup_fmap_sublist.
Qed.

Lemma restore_wf st replaced replacement at_ next :
  key_wf base limit st ->
  next_state (restore_replaced_queued_entry st replaced replacement at_) = Some next ->
  key_wf base limit next.
Proof.
  intros [Hm Ha Hc Hq Hcl] [= <-]. split; simpl; try done.
  apply NoDup_cons. split.
  - intros (e & He & [Hne _]%list_elem_of_filter)%list_elem_of_fmap. naive_solver.
  - eapply NoDup_fmap_sublist; [apply sublist_filter|done].
Qed.

Lemma forget_wf st job_id at_ next :
  key_wf base limit st -> next_state (forget_job st job_id at_) = Some next -> key_wf base limit next.
Proof.
  intros [Hm Ha Hc Hq Hcl] [= <-]. split; simpl; try done.
  - eapply NoDup_fmap_sublist; [apply sublist_filter|done].
  - etrans; [apply sublist_len, sublist_filter|done].
  - eapply NoDup_fmap_sublist; [apply sublist_filter|done].
  - by apply NoDup_filter.
Qed.

Lemma call_wf call current next :
  (forall st, current = Some st -> key_wf base limit st) ->
  call_next policy call current = Some next -> key_wf base limit next.
Proof.
  intros Hcur Hnext.
  destruct call; simpl in Hnext; [by eapply admit_wf|by eapply acquire_wf|..].
  all: destruct current as [st|]; [specialize (Hcur st eq_refl)|simplify_eq/=; try done].
  - by eapply renew_wf.
  - by eapply release_wf.
  - by eapply remove_queued_wf.
  - by eapply restore_wf.
  - injection Hnext as <-. destruct same as (? & ? & ? & ?).
    split; simpl; [by split_and!|constructor|apply N.le_0_l|apply NoDup_singleton|constructor].
  - by eapply forget_wf.
Qed.
End reducers.

Lemma key_reachable_wf policy limit current :
  rtc (key_step policy limit) None current ->
  forall st, current = Some st -> key_wf policy limit st.
Proof.
  revert current.
  apply (rtc_ind_r (fun current => forall st, current = Some st -> key_wf policy limit st)); [done|].
  intros c1 c2 _ [p call current next Hsame Hmax Hnext] IH st [= <-].
  by eapply (call_wf policy limit p).
Qed.

(** The invariant under a larger limit *)
Lemma key_wf_widen policy limit limit' st :
  key_wf policy limit st -> len (key_active st) <= limit' -> key_wf policy limit' st.
Proof. intros [? ? _ ? ?] Hl. by split. Qed.

(** ** What an acquisition does to the other slots *)

(** [st'] holds [slot] for the input's job, every other slot of [active] that is gone
    had expired, nothing else appeared, and a slot handed back as stale belongs to a
    job whose clean-up is recorded. *)
Record acquired (policy : JobKeyPolicy) (input : AcquireSlotInput)
    (active : list JobKeyActiveSlot) (st' : JobKeyState) (slot : JobKeyActiveSlot)
    (stale : list JobKeyActiveSlot) : Prop := {
  acquired_holds : slot ∈ key_active st';
  acquired_job : slot_job_id slot = acquire_job_id input;
  acquired_token : slot_token slot = acquire_slot_token input;
  acquired_live : expired_at (acquire_started_at input) slot ->
    slot_lease_expires_at slot = acquire_lease_expires_at input;
  acquired_others : forall s, s ∈ active ->
    s ∈ key_active st' \/ expired_at (acquire_started_at input) s;
  acquired_only : forall s, s ∈ key_active st' -> s ∈ active \/ s = slot;
  acquired_stale : forall s, s ∈ stale ->
    policy_stale_policy policy = FailStale /\ s ∈ active /\
    expired_at (acquire_started_at input) s /\ slot_job_id s ∈ key_cleanup_pending st';
}.

Lemma acquire_with_capacity_acquired policy st input st' slot stale :
  acquire_with_capacity st policy input = Acquired st' slot stale ->
  acquired policy input (key_active st) st' slot stale.
Proof.
  unfold acquire_with_capacity. destruct (_ <=? _).
  - destruct (extract _ _) as [[displaced active]|] eqn:Hex; [|by destruct (policy_stale_policy policy)].
    destruct (policy_stale_policy policy) eqn:Hpol; [|done].
    destruct (extract_perm _ _ _ _ Hex) as [Hexp Hperm]. intros [= <- <- <-].
    split; simpl; try done.
    + case_bool_decide; set_solver.
    + intros s. rewrite Hperm. case_bool_decide; set_solver.
    + intros s. rewrite Hperm. case_bool_decide; set_solver.
    + intros s ->%list_elem_of_singleton. rewrite Hperm. split_and!; [done|by left|done|].
      case_bool_decide; set_solver.
  - intros [= <- <- <-]. split; simpl; try done; set_solver.
Qed.

Lemma acquire_acquired policy current input st' slot stale :
  acquire_active_slot_from_state current policy input = Acquired st' slot stale ->
  acquired policy input (default [] (key_active <$> current)) st' slot stale.
Proof.
  unfold acquire_active_slot_from_state, acquire_active_slot.
  set (st := default _ current).
  assert (key_active st = default [] (key_active <$> current)) as <- by (by subst st; destruct current).
  clearbody st. simpl.
  destruct (find_first _ _) as [existing|] eqn:Hfind.
  - apply find_first_Some in Hfind as (Hin & Hid & Htok).
    destruct (str_le _ _) eqn:Hlive; [done|]. intros [= <- <- <-].
    split; simpl; try done; [|set_solver..]. unfold expired_at. congruence.
  - destruct (extract _ _) as [[own active]|] eqn:Hex.
    + destruct (str_le _ _) eqn:Hexp; [|done]. simpl. intros Hacq.
      destruct (extract_perm _ _ _ _ Hex) as [_ Hperm].
      apply acquire_with_capacity_acquired in Hacq as [? ? ? ? Hothers Honly Hstale].
      simpl in *. split; try done.
      * intros s. rewrite Hperm, elem_of_cons. intros [->|]; [by right|auto].
      * intros s Hs. rewrite Hperm, elem_of_cons. destruct (Honly s Hs); auto.
      * intros s Hs. rewrite Hperm, elem_of_cons. destruct (Hstale s Hs) as (?&?&?&?). auto.
    + intros Hacq. by apply acquire_with_capacity_acquired in Hacq.
Qed.

(** ** Fencing *)

Definition holds_slot (job_id token : string) (slot : JobKeyActiveSlot) : Prop :=
  slot_job_id slot = job_id /\ slot_token slot = token.

Lemma update_slot_None job_id token f active :
  update_slot job_id token f active = None <->
  forall slot, slot ∈ active -> ~ holds_slot job_id token slot.
Proof.
  unfold holds_slot. induction active as [|slot active IH]; simpl; [set_solver|].
  case_decide as Hd.
  - split; [done|]. intros Hn. by destruct (Hn slot); [left|].
  - rewrite fmap_None, IH. setoid_rewrite elem_of_cons. naive_solver.
Qed.

(** With one slot per job, a token other than the holder's matches no slot. *)
Lemma other_token_absent policy limit st slot token :
  key_wf policy limit st -> slot ∈ key_active st -> token <> slot_token slot ->
  forall s, s ∈ key_active st -> ~ holds_slot (slot_job_id slot) token s.
Proof.
  intros Hwf Hin Htok s Hs [Hid Ht]. apply Htok. rewrite <- Ht. f_equal. symmetry.
  pose proof (wf_active _ _ _ Hwf) as Hnd.
  apply list_elem_of_lookup_1 in Hin as [i Hi]. apply list_elem_of_lookup_1 in Hs as [k Hk].
  assert (i = k); [|congruence].
  apply (NoDup_lookup _ _ _ (slot_job_id slot) Hnd);
    rewrite list_lookup_fmap; [by rewrite Hi|rewrite Hk; simpl; congruence].
Qed.

Lemma renew_lost_iff st job_id token hb exp :
  renew_active_slot st job_id token hb exp = Lost st <->
  forall s, s ∈ key_active st -> ~ holds_slot job_id token s.
Proof.
  unfold renew_active_slot. rewrite <- (update_slot_None _ _ (renewed hb exp)).
  destruct (update_slot _ _ _ _); by split.
Qed.

Lemma release_lost_iff st job_id token at_ :
  release_active_slot st job_id token at_ = Lost st <->
  forall s, s ∈ key_active st -> ~ holds_slot job_id token s.
Proof.
  unfold release_active_slot, holds_slot.
  destruct (extract _ _) as [[slot active]|] eqn:Hex.
  - destruct (extract_perm _ _ _ _ Hex) as [Hslot Hperm]. split; [done|].
    intros Hn. destruct (Hn slot); [rewrite Hperm; by left|done].
  - rewrite extract_None in Hex. by split.
Qed.

(** ** Theorems about the reducers *)

(** C24: whatever calls the clients of a key make, in whatever order and each with its own
    policy for the key, its state stays consistent: it carries the key's identity, no job
    holds two slots, there are never more slots than the largest of the policies allows, and
    no job is queued or awaits clean-up twice.  And no call leaves more slots than there were
    or than its own policy allows. *)
Theorem reachable_key_consistent policy limit st :
  rtc (key_step policy limit) None (Some st) ->
  key_wf policy limit st /\
  forall p call next, same_key policy p -> call_next p call (Some st) = Some next ->
    len (key_active next) <= N.max (len (key_active st)) (policy_max_active p).
Proof.
  intros Hr. pose proof (key_reachable_wf _ _ _ Hr st eq_refl) as Hwf. split; [done|].
  intros p call next Hsame Hnext.
  apply (wf_capacity policy), (call_wf policy _ p Hsame) with (call := call) (current := Some st); [lia| |done].
  intros ? [= <-]. eapply key_wf_widen; [exact Hwf|lia].
Qed.

(** An acquisition that succeeds gives the job a slot with the token it asked for,
    takes a slot away only where its lease had expired, adds no other slot, and records
    the clean-up of every job it displaces, which it does only under the fail-stale
    policy. *)
Theorem acquire_displaces_only_expired policy current input st' slot stale :
  acquire_active_slot_from_state current policy input = Acquired st' slot stale ->
  acquired policy input (default [] (key_active <$> current)) st' slot stale.
Proof. apply acquire_acquired. Qed.

(** An acquired slot fences its job: from any reachable state, after an
    acquisition the holder's token renews, and every other token of the job, such as
    that of the worker that was displaced, can neither renew nor release the slot. *)
Theorem acquisition_fences_other_tokens policy limit current input st' slot stale :
  policy_max_active policy <= limit -> rtc (key_step policy limit) None current ->
  acquire_active_slot_from_state current policy input = Acquired st' slot stale ->
  (forall hb exp, exists st'', renew_active_slot st' (acquire_job_id input)
     (acquire_slot_token input) hb exp = Renewed st'') /\
  forall token, token <> acquire_slot_token input ->
    (forall hb exp, renew_active_slot st' (acquire_job_id input) token hb exp = Lost st') /\
    (forall at_, release_active_slot st' (acquire_job_id input) token at_ = Lost st').
Proof.
  intros Hmax Hr Hacq. pose proof (acquire_acquired _ _ _ _ _ _ Hacq) as Hspec.
  assert (key_wf policy limit st') as Hwf.
  { apply (acquire_wf policy limit policy) with (current := current) (input := input);
      [done|done|by eapply key_reachable_wf|by rewrite Hacq]. }
  destruct Hspec as [Hin Hjob Htok _ _ _ _]. split.
  - intros hb exp. destruct (renew_active_slot _ _ _ _ _) eqn:Hren; [eauto|..].
    + unfold renew_active_slot in Hren. by destruct (update_slot _ _ _ _).
    + assert (state = st') as -> by (unfold renew_active_slot in Hren; by destruct (update_slot _ _ _ _); simplify_eq).
      rewrite renew_lost_iff in Hren. by destruct (Hren slot Hin).
  - intros token Hne. rewrite <- Htok in Hne. rewrite <- Hjob.
    split; intros; [apply renew_lost_iff|apply release_lost_iff];
      by eapply other_token_absent.
Qed.

(** Undoing a replacement restores the queue: after an admission that replaced the
    oldest reservation of a reachable state, restoring the replaced entry gives back
    exactly the reservations there were. *)
Theorem restore_undoes_replacement policy limit st input st' replaced at_ :
  rtc (key_step policy limit) None (Some st) ->
  admit_job (Some st) policy input = Replaced st' replaced ->
  exists st'', restore_replaced_queued_entry st' replaced (admit_job_id input) at_ = Restored st'' /\
    key_queued st'' = key_queued st /\ key_active st'' = key_active st.
Proof.
  intros Hr. apply (key_reachable_wf policy) with (st := st) in Hr; [|done].
  unfold admit_job. simpl.
  destruct (any _ (key_active st) || any _ (key_queued st)) eqn:Hany; [done|].
  apply orb_false_iff in Hany as [_ Hany]. rewrite any_false in Hany.
  destruct (_ <=? _); [|done].
  destruct (policy_when_full policy), (key_queued st) as [|e q] eqn:Hq; try done.
  intros [= <- <-]. eexists. split; [done|]. simpl. split; [|done]. f_equal.
  pose proof (wf_queued _ _ _ Hr) as Hnd. rewrite Hq in Hnd. apply NoDup_cons in Hnd as [Hnin _].
  rewrite filter_app, filter_cons_False, app_nil_r by naive_solver.
  apply filter_all. intros x Hx. split; [apply Hany; by right|].
  intros Heq. apply Hnin. rewrite <- Heq. by apply list_elem_of_fmap_2.
Qed.

(** The jobs a key knows. *)
Definition known_jobs (st : JobKeyState) : list string :=
  (slot_job_id <$> key_active st) ++ (queued_job_id <$> key_queued st).

(** Admission promises what its outcome says.  An accepted job is active or queued,
    no reservation is lost, and a new one is made only while queued and active jobs
    together stay within the depth and the active limit; a replacement gives up exactly
    the oldest reservation; a rejection or a replacement happens only when the queue is
    at its limit; and a coalesced job is an existing one. *)
Theorem admission_outcomes policy st input :
  len (key_active st) <= policy_max_active policy ->
  match admit_job (Some st) policy input with
  | Accepted st' =>
      key_active st' = key_active st /\ admit_job_id input ∈ known_jobs st' /\
      (key_queued st' = key_queued st \/
       key_queued st' = key_queued st ++ [reservation input] /\
       len (key_active st') + len (key_queued st') <=
         policy_max_active policy + policy_max_queued_per_key policy)
  | Replaced st' replaced =>
      key_active st' = key_active st /\ queue_limit st policy <= len (key_queued st) /\
      exists rest, key_queued st = replaced :: rest /\
        key_queued st' = rest ++ [reservation input]
  | Rejected _ active queued _ =>
      active = len (key_active st) /\ queued = len (key_queued st) /\
      queue_limit st policy <= queued
  | Coalesced existing => known_jobs st <> [] -> existing ∈ known_jobs st
  end.
Proof.
  intros Hcap. unfold admit_job. simpl.
  destruct (any _ (key_active st) || any _ (key_queued st)) eqn:Hany; simpl.
  { split_and!; [done| |by left]. unfold known_jobs. rewrite elem_of_app.
    apply orb_true_iff in Hany as [(s & Hs & <-)%any_true|(s & Hs & <-)%any_true];
      [left|right]; by apply list_elem_of_fmap_2. }
  change (queue_limit (st <| key_max_active := _ |> <| key_max_queued_per_key := _ |>) policy)
    with (queue_limit st policy).
  destruct (N.leb_spec (queue_limit st policy) (len (key_queued st))) as [Hfull|Hroom].
  - destruct (policy_when_full policy), (key_queued st) as [|e q] eqn:Hq; simpl;
      try (split_and!; [done..|eauto]).
    + unfold known_jobs. rewrite Hq, app_nil_r. destruct (key_active st); [by intros []|by left].
    + intros _. unfold known_jobs. rewrite Hq. set_solver.
  - split_and!; [done| |right; split; [done|]].
    + unfold known_jobs. simpl. rewrite fmap_app. set_solver.
    + unfold queue_limit, saturating_add_u64 in Hroom. simpl. unfold len in *. rewrite length_app.
      simpl. lia.
Qed.

(** ** The client's view of the store

    Where reads are answered by the stream's leader, a read returns the present entry;
    and the text of an error says that a revision did not match, or that a key already
    exists, only for errors of that kind. *)
Class KvClient `{KvSpec} : Prop := {
  kv_read_fresh key w o w' : kv_entry key w = (Ok o, w') -> kv_at w' key = o;
  kv_update_text key value revision w e w' :
    kv_update key value revision w = (Err e, w') ->
    is_revision_mismatch (kv_message e) || already_exists (kv_message e) = true ->
    kv_kind e = WrongLastRevision;
  kv_create_text key value w e w' :
    kv_create key value w = (Err e, w') ->
    is_revision_mismatch (kv_message e) || already_exists (kv_message e) = true ->
    kv_kind e = AlreadyExists;
}.

(** A write answered with a conflict was refused. *)
Lemma refused_write `{KvLaws} `{!KvClient} key value entry w error w' :
  write_state key value entry w = (Err error, w') ->
  is_revision_mismatch error || already_exists error = true ->
  exists w1, kv_le w w1 /\ kv_le w1 w' /\ kv_same w1 w' /\
    ~ match entry with
      | Some e => at_revision (entry_revision e) (kv_at w1 key)
      | None => live (kv_at w1 key) = None
      end.
Proof.
  unfold write_state. destruct entry as [e|].
  - destruct (kv_update _ _ _ _) as [[?|err] w2] eqn:Hup; [done|]. intros [= <- ->] Ht.
    pose proof (kv_update_text _ _ _ _ _ _ Hup Ht).
    destruct (kv_update_spec _ _ _ _ _ _ Hup) as (w1 & ? & ? & [[? ?]|[? _]]); [|done].
    exists w1. split_and!; auto.
  - destruct (kv_create _ _ _) as [[?|err] w2] eqn:Hup; [done|]. intros [= <- ->] Ht.
    pose proof (kv_create_text _ _ _ _ _ Hup Ht).
    destruct (kv_create_spec _ _ _ _ _ Hup) as (w1 & ? & ? & [[? ?]|[? _]]); [|done].
    exists w1. split_and!; auto.
Qed.

(** ** Theorems about the coordinator *)

Section coordinator.
Context `{KvLaws} `{JsonCodecLaws JobKeyState}.
Context {T : Type} `{KeyStateUpdate T} (policy : JobKeyPolicy) (update : option JobKeyState -> T).

Definition policy_entry_key : string :=
  coordination_key (policy_service policy) (policy_job_type policy) (policy_key_hash policy).

(** What the store holds for the key: nothing, or an entry that decodes. *)
Definition stored_state (w : World) (current : option JobKeyState) : Prop :=
  match current with
  | None => live (kv_at w policy_entry_key) = None
  | Some st =>
      exists e, kv_at w policy_entry_key = Some e /\ from_slice (entry_value e) = Ok st
  end.

(** A call took effect: its output is the reducer's on a state the store held, and
    where it writes, that state was the stored one at the moment of the write and
    nothing else changed. *)
Definition took_effect (w w' : World) (output : T) : Prop :=
  exists current, output = update current /\
    match next_state output with
    | None => exists w0, kv_le w0 w' /\ stored_state w0 current
    | Some next =>
        exists w1 bytes revision,
          kv_le w w1 /\ stored_state w1 current /\ to_vec next = Ok bytes /\
          kv_written w1 w' policy_entry_key (mkEntry bytes revision Put)
    end.

Lemma load_state_stored w entry current :
  kv_at w policy_entry_key = entry ->
  load_state policy_entry_key policy entry = Ok current -> stored_state w current.
Proof.
  intros Hat. destruct entry as [e|]; simpl.
  - intros (st & Hst & (u & _ & [= <-])%let_ok)%let_ok. apply map_err_ok in Hst.
    simpl. eauto.
  - intros [= <-]. simpl. by rewrite Hat.
Qed.

(** A successful write happens in a world where the state that was read still stands. *)
Lemma write_state_stored w0 w1 w2 entry current value revision :
  kv_le w0 w1 -> kv_at w0 policy_entry_key = entry ->
  load_state policy_entry_key policy entry = Ok current ->
  write_state policy_entry_key value entry w1 = (Ok revision, w2) ->
  exists w, kv_le w1 w /\ stored_state w current /\
    kv_written w w2 policy_entry_key (mkEntry value revision Put).
Proof.
  intros Hle Hat Hload. unfold write_state. destruct entry as [e|].
  - destruct (kv_update _ _ _ _) as [r w'] eqn:Hup. intros [= Hr ->].
    apply map_err_ok in Hr as ->.
    destruct (kv_update_spec _ _ _ _ _ _ Hup) as (w & Hle1 & _ & Hready & Hwr).
    exists w. split_and!; [done| |done]. apply (load_state_stored w (Some e)); [|done].
    apply (kv_unchanged w0); [by transitivity w1|done|done].
  - destruct (kv_create _ _ _) as [r w'] eqn:Hcr. intros [= Hr ->].
    apply map_err_ok in Hr as ->.
    destruct (kv_create_spec _ _ _ _ _ Hcr) as (w & Hle1 & _ & Hready & Hwr).
    exists w. simpl in Hload. injection Hload as <-. by split_and!.
Qed.

Lemma update_key_once_effect w output w' :
  update_key_once policy update w = (Some (Ok output), w') -> took_effect w w' output.
Proof.
  unfold update_key_once. fold policy_entry_key.
  destruct (kv_entry _ _) as [read w1] eqn:Hread.
  destruct (kv_entry_spec _ _ _ _ Hread) as [Hle Hread'].
  destruct read as [entry|]; [|done]. destruct (Hread' entry eq_refl) as (w0 & Hle0 & Hat).
  destruct (load_state _ _ entry) as [current|] eqn:Hload; [|done].
  pose proof (load_state_stored w0 entry current Hat Hload) as Hst.
  destruct (next_state (update current)) as [next|] eqn:Hnext.
  - destruct (to_vec next) as [value|] eqn:Hvec; [|done].
    destruct (write_state _ _ _ _) as [[revision|error] w2] eqn:Hwr.
    + intros [= <- <-].
      destruct (write_state_stored _ _ _ _ _ _ _ Hle0 Hat Hload Hwr) as (wl & Hle1 & Hst1 & Hw).
      exists current. split; [done|]. rewrite Hnext. exists wl, value, revision.
      split_and!; try done. by transitivity w1.
    + destruct (_ || _); naive_solver.
  - intros [= <- <-]. exists current. rewrite Hnext. eauto.
Qed.

Lemma update_key_once_le w answer w' :
  update_key_once policy update w = (answer, w') -> kv_le w w'.
Proof.
  unfold update_key_once. fold policy_entry_key.
  destruct (kv_entry _ _) as [read w1] eqn:Hread.
  destruct (kv_entry_spec _ _ _ _ Hread) as [Hle _].
  destruct read as [entry|]; [|naive_solver]. destruct (load_state _ _ _); [|naive_solver].
  destruct (next_state _) as [next|]; [|naive_solver]. destruct (to_vec next); [|naive_solver].
  destruct (write_state _ _ _ _) as [written w2] eqn:Hwr.
  assert (kv_le w1 w2).
  { unfold write_state in Hwr. destruct entry as [e|].
    - destruct (kv_update _ _ _ _) as [r w''] eqn:Hup. injection Hwr as _ ->.
      destruct (kv_update_spec _ _ _ _ _ _ Hup) as (w0 & ? & ? & _). by transitivity w0.
    - destruct (kv_create _ _ _) as [r w''] eqn:Hup. injection Hwr as _ ->.
      destruct (kv_create_spec _ _ _ _ _ Hup) as (w0 & ? & ? & _). by transitivity w0. }
  intros Heq. assert (w2 = w') as <- by (destruct written; [|destruct (_ || _)]; naive_solver).
  by transitivity w1.
Qed.

(** C23: a coordinator call that returns acted atomically: its outcome is the reducer's
    on one state of the key, and where the outcome is persisted, that state was the
    stored one at the moment of the write, whatever other clients did before, between
    and after the call's requests. *)
Theorem update_key_atomic turns w output w' :
  update_key turns policy update w = (Ok output, w') -> took_effect w w' output.
Proof.
  revert w. induction turns as [|turns IH]; intros w; simpl; [done|].
  destruct (update_key_once policy update w) as [[answer|] w1] eqn:Honce.
  - intros [= -> <-]. by apply update_key_once_effect.
  - intros Hrest. destruct (IH _ Hrest) as (current & Hout & Heff).
    exists current. split; [done|]. apply update_key_once_le in Honce.
    destruct (next_state output); [|done].
    destruct Heff as (wl & bytes & revision & Hle & ?). exists wl, bytes, revision.
    split; [by transitivity w1|done].
Qed.

(** Each conflict means a competing writer committed: when a turn of the retry loop
    ends in a conflict, the call wrote nothing and the key's entry changed between the
    turn's read and its write. *)
Theorem conflict_means_competing_write `{!KvClient} w w' :
  update_key_once policy update w = (None, w') ->
  exists w0 w1, kv_le w w0 /\ kv_le w0 w1 /\ kv_le w1 w' /\
    kv_at w1 policy_entry_key <> kv_at w0 policy_entry_key /\ kv_same w1 w'.
Proof.
  unfold update_key_once. fold policy_entry_key.
  destruct (kv_entry _ _) as [read w1] eqn:Hread.
  destruct (kv_entry_spec _ _ _ _ Hread) as [Hle _].
  destruct read as [entry|]; [|done]. apply kv_read_fresh in Hread as Hat.
  destruct (load_state _ _ _); [|done]. destruct (next_state _) as [next|]; [|done].
  destruct (to_vec next) as [value|]; [|done].
  destruct (write_state _ _ _ _) as [[?|error] w2] eqn:Hwr; [done|].
  destruct (_ || _) eqn:Hconflict; [|done]. intros [= <-].
  destruct (refused_write _ _ _ _ _ _ Hwr Hconflict) as (wl & ? & ? & Hsame & Hready).
  exists w1, wl. split_and!; try done. rewrite Hat. intros Heq. apply Hready. rewrite Heq.
  by destruct entry.
Qed.
End coordinator.

(** A state the coordinator has stored loads again: a reachable state survives
    encoding, and the check of its identity, so no later call of the key's clients is
    refused for it. *)
Theorem stored_key_reloads `{JsonCodecLaws JobKeyState} policy limit p st bytes revision op :
  rtc (key_step policy limit) None (Some st) -> to_vec st = Ok bytes -> same_key policy p ->
  load_state (policy_entry_key p) p (Some (mkEntry bytes revision op)) = Ok (Some st).
Proof.
  intros Hr Hvec (E1 & E2 & E3 & E4). apply (key_reachable_wf policy) with (st := st) in Hr; [|done].
  simpl. rewrite (from_slice_to_vec st bytes Hvec). simpl.
  destruct (wf_policy _ _ _ Hr) as (? & ? & ? & ? & ?). unfold validate_loaded_state.
  by rewrite E1, E2, E3, E4, !bool_decide_false by tauto.
Qed.

(** ** Closed instances *)

Definition slot_tuple (s : JobKeyActiveSlot) :=
  (((slot_job_id s, slot_token s), (slot_instance_id s, slot_started_at s)),
   ((slot_heartbeat_at s, slot_lease_expires_at s), (slot_tries s, slot_context s))).
Definition queued_tuple (e : JobKeyQueuedEntry) :=
  ((queued_job_id e, queued_created_at e), (queued_request_id e, queued_context e)).
Definition context_tuple (c : JobContext) :=
  ((ctx_request_id c, ctx_trace_id c), (ctx_traceparent c, ctx_tracestate c)).
Definition key_tuple (s : JobKeyState) :=
  ((((key_version s, key_service s), (key_job_type s, key_key s)),
    ((key_key_hash s, key_max_active s), (key_max_queued_per_key s, key_active s))),
   ((key_cleanup_pending s, key_queued s), (key_stale_takeover_count s, key_updated_at s))).

#[local] Instance JobContext_eq_dec : EqDecision JobContext.
Proof. solve_decision. Defined.
#[local] Instance JobContext_countable : Countable JobContext.
Proof.
  by apply (inj_countable' context_tuple (fun '((a, b), (c, d)) => mkJobContext a b c d)); intros [].
Defined.
#[local] Instance JobKeyActiveSlot_eq_dec : EqDecision JobKeyActiveSlot.
Proof. solve_decision. Defined.
#[local] Instance JobKeyActiveSlot_countable : Countable JobKeyActiveSlot.
Proof.
  by apply (inj_countable' slot_tuple
    (fun '(((a, b), (c, d)), ((e, f), (g, h))) => mkSlot a b c d e f g h)); intros [].
Defined.
#[local] Instance JobKeyQueuedEntry_eq_dec : EqDecision JobKeyQueuedEntry.
Proof. solve_decision. Defined.
#[local] Instance JobKeyQueuedEntry_countable : Countable JobKeyQueuedEntry.
Proof.
  by apply (inj_countable' queued_tuple (fun '((a, b), (c, d)) => mkQueuedEntry a b c d)); intros [].
Defined.
#[local] Instance JobKeyState_eq_dec : EqDecision JobKeyState.
Proof. solve_decision. Defined.
#[local] Instance JobKeyState_countable : Countable JobKeyState.
Proof.
  by apply (inj_countable' key_tuple
    (fun '((((a, b), (c, d)), ((e, f), (g, h))), ((i, j), (k, l))) => mkKeyState a b c d e f g h i j k l)); intros [].
Defined.
#[local] Instance sample_codec : JsonCodec JobKeyState := countable_codec JobKeyState.
#[local] Instance sample_codec_laws : JsonCodecLaws JobKeyState.
Proof. apply countable_codec_laws. Defined.

Definition sample_policy : JobKeyPolicy :=
  mkKeyPolicy "svc" "t" "k" "h" 1 1 ReplaceOldest FailStale.

Definition sample_admit (id : string) : AdmitJobInput :=
  mkAdmitInput id "r" "01" (mkJobContext "" "" "" None).

Definition sample_acquire (id token from until : string) : AcquireSlotInput :=
  mkAcquireInput id token "w" from until 1 (mkJobContext "" "" "" None).

(** A sequence of calls; a call that writes nothing leaves the state. *)
Definition run_calls (policy : JobKeyPolicy) (calls : list key_call)
    (current : option JobKeyState) : option JobKeyState :=
  foldl (fun current call =>
           match call_next policy call current with
           | Some next => Some next
           | None => current
           end) current calls.

Lemma run_calls_reach policy p limit calls current :
  same_key policy p -> policy_max_active p <= limit ->
  rtc (key_step policy limit) current (run_calls p calls current).
Proof.
  intros Hsame Hmax. revert current. induction calls as [|call calls IH]; intros current; simpl; [done|].
  destruct (call_next p call current) as [next|] eqn:Hnext; [|done].
  eapply rtc_l; [by apply (key_step_call policy limit p call)|apply IH].
Qed.

(** The key after job [a] was admitted, acquired its slot, and [b] was admitted. *)
Definition sample_calls : list key_call :=
  [CallAdmit (sample_admit "a"); CallAcquire (sample_acquire "a" "t1" "02" "05");
   CallAdmit (sample_admit "b")].

Definition sample_key : JobKeyState :=
  default (new_key_state sample_policy "") (run_calls sample_policy sample_calls None).

Lemma sample_key_reach : rtc (key_step sample_policy 1) None (Some sample_key).
Proof.
  assert (Some sample_key = run_calls sample_policy sample_calls None) as ->
    by (vm_compute; reflexivity).
  by apply run_calls_reach.
Qed.

(** The same key, for a client whose policy allows two slots *)
Definition wide_policy : JobKeyPolicy := mkKeyPolicy "svc" "t" "k" "h" 2 1 ReplaceOldest FailStale.

Definition widened_key : JobKeyState :=
  default (new_key_state sample_policy "")
    (run_calls wide_policy [CallAcquire (sample_acquire "b" "t2" "03" "06")] (Some sample_key)).

Lemma reachable_key_consistent_witness :
  key_wf sample_policy 2 widened_key /\ len (key_active widened_key) = 2 /\
  forall next, call_next sample_policy (CallAdmit (sample_admit "c")) (Some widened_key) = Some next ->
    len (key_active next) <= 2.
Proof.
  destruct (reachable_key_consistent sample_policy 2 widened_key) as [Hwf Hgrow].
  - assert (Some widened_key = run_calls wide_policy [CallAcquire (sample_acquire "b" "t2" "03" "06")]
      (run_calls sample_policy sample_calls None)) as -> by (vm_compute; reflexivity).
    transitivity (run_calls sample_policy sample_calls None);
      (apply run_calls_reach; [done|vm_compute; discriminate]).
  - split; [done|]. split; [vm_compute; reflexivity|]. intros next Hn.
    exact (Hgrow sample_policy _ next (conj eq_refl (conj eq_refl (conj eq_refl eq_refl))) Hn).
Defined.

(** A client with a smaller limit acquires nothing while there are as many slots. *)
Example smaller_limit_blocks :
  match acquire_active_slot_from_state (Some widened_key) sample_policy
          (sample_acquire "c" "t3" "04" "07") with
  | Blocked _ reason => reason = ActiveLimit
  | Acquired _ _ _ => False
  end.
Proof. vm_compute. reflexivity. Qed.

Definition sample_takeover : AcquireSlotOutcome :=
  acquire_active_slot_from_state (Some sample_key) sample_policy
    (sample_acquire "b" "t2" "06" "09").

Lemma acquire_displaces_only_expired_witness :
  exists st slot stale, sample_takeover = Acquired st slot stale /\ stale <> [] /\
    acquired sample_policy (sample_acquire "b" "t2" "06" "09") (key_active sample_key)
      st slot stale.
Proof.
  eexists _, _, _. split_and!; [vm_compute; reflexivity|discriminate|].
  apply (acquire_displaces_only_expired sample_policy (Some sample_key)).
  vm_compute. reflexivity.
Defined.

(** Leases are compared as texts: of two instants in the same second, the one with more
    fraction digits can come first.  A lease that ends half a second after [05Z] is
    expired at [05Z]. *)
Example lease_expired_early :
  let lease := "2026-01-01T00:00:05.5Z"%string in
  let now := "2026-01-01T00:00:05Z"%string in
  let held := run_calls sample_policy
    [CallAdmit (sample_admit "a"); CallAcquire (sample_acquire "a" "t1" "2026-01-01T00:00:00Z" lease)]
    None in
  match acquire_active_slot_from_state held sample_policy (sample_acquire "b" "t2" now "") with
  | Acquired _ _ stale => slot_lease_expires_at <$> stale = [lease]
  | Blocked _ _ => False
  end.
Proof. vm_compute. reflexivity. Qed.

Lemma acquisition_fences_other_tokens_witness :
  exists st slot stale, sample_takeover = Acquired st slot stale /\
    renew_active_slot st "b" "t1" "07" "10" = Lost st.
Proof.
  eexists _, _, _. split; [vm_compute; reflexivity|].
  eapply (acquisition_fences_other_tokens sample_policy 1 (Some sample_key)
            (sample_acquire "b" "t2" "06" "09")).
  - vm_compute. discriminate.
  - apply sample_key_reach.
  - vm_compute. reflexivity.
  - discriminate.
Defined.

Lemma restore_undoes_replacement_witness :
  exists st' replaced,
    admit_job (Some sample_key) sample_policy (sample_admit "c") = Replaced st' replaced /\
    exists st'', restore_replaced_queued_entry st' replaced "c" "08" = Restored st'' /\
      key_queued st'' = key_queued sample_key /\ key_active st'' = key_active sample_key.
Proof.
  eexists _, _. split; [vm_compute; reflexivity|].
  apply (restore_undoes_replacement sample_policy 1 sample_key (sample_admit "c")).
  - apply sample_key_reach.
  - vm_compute. reflexivity.
Defined.

Lemma admission_outcomes_witness :
  match admit_job (Some sample_key) sample_policy (sample_admit "b") with
  | Accepted st' => "b" ∈ known_jobs st'
  | _ => False
  end.
Proof.
  assert (len (key_active sample_key) <= policy_max_active sample_policy) as Hcap
    by (vm_compute; discriminate).
  pose proof (admission_outcomes sample_policy sample_key (sample_admit "b") Hcap) as Hadm.
  destruct (admit_job _ _ _) eqn:Hout; [apply Hadm|vm_compute in Hout; discriminate..].
Defined.

Local Existing Instances MemKv.mem_store MemKv.mem_spec MemKv.mem_laws.

(** A bucket in which another client writes the key between this client's read and its
    write. *)
Definition sample_world : @World MemKv.mem_store :=
  let bytes := code_text (encode sample_key) in
  MemKv.mkMem [("svc.t.h", Some (bytes, Put))] [[]; [("svc.t.h", Some (bytes, Put))]].

Lemma update_key_atomic_witness :
  took_effect sample_policy (forget_current sample_policy "b" "07") sample_world
    (snd (cleanup_queued_key_for_terminal 2 sample_policy "b" "07" sample_world))
    (forget_current sample_policy "b" "07" (Some sample_key)).
Proof.
  apply (update_key_atomic sample_policy _ 2). vm_compute. reflexivity.
Defined.

#[local] Instance mem_client : @KvClient _ MemKv.mem_spec.
Proof.
  split; simpl.
  - by intros key w o w' [= <- <-].
  - intros key value revision w e w'. unfold MemKv.mem_write.
    destruct (if MemKv.mem_at _ _ is Some _ then _ else _); [done|]. by intros [= <- <-].
  - intros key value w e w'. unfold MemKv.mem_create.
    destruct (live _); [|done]. by intros [= <- <-].
Qed.

Lemma conflict_means_competing_write_witness :
  exists w0 w1 : World,
    kv_at w1 (policy_entry_key sample_policy) <> kv_at w0 (policy_entry_key sample_policy).
Proof.
  destruct (conflict_means_competing_write sample_policy
    (forget_current sample_policy "b" "07") sample_world
    (snd (update_key_once sample_policy (forget_current sample_policy "b" "07") sample_world)))
    as (w0 & w1 & _ & _ & _ & Hne & _).
  - vm_compute. reflexivity.
  - by exists w0, w1.
Defined.

Lemma stored_key_reloads_witness :
  load_state (policy_entry_key sample_policy) sample_policy
    (Some (mkEntry (code_text (encode sample_key)) 1 Put)) = Ok (Some sample_key).
Proof.
  apply (stored_key_reloads sample_policy 1 sample_policy sample_key).
  - apply sample_key_reach.
  - reflexivity.
  - done.
Defined.
