(* ===== verification/Protocol.v ===== *)
(** * Protocol errors and callers

    [ProtocolError] of [crates/protocol/src/error.rs], the error of every validation in
    the protocol crate.  The field names and messages are the source's; a path is the
    list of tokens of its RFC 6901 pointer.  At the end, the caller projection that accepted
    work retains. *)

From Stdlib Require Import Ascii String.
From S2P Require Import Prelude.

Inductive AuthorizationErrorCode :=
| AuthInvalidFormat
| AuthUnsafeJsonInteger
| AuthInvalidEncoding
| AuthInvalidPublicKey
| AuthInvalidKeyId
| AuthInvalidSignature
| AuthUnknownCriticalExtension
| AuthNonCanonicalSet
| AuthInvalidValidityWindow
| AuthIssuerRevoked
| AuthIssuerRetired
| AuthHistoricalContext
| AuthContextNotYetValid
| AuthContextExpired
| AuthContextLifetimeExceeded
| AuthInvalidSessionKey
| AuthPermissionDenied
| AuthScopeMismatch
| AuthSessionRevoked
| AuthContextTooLarge
| AuthProofIatOutOfRange
| AuthInvalidRequestProof
| AuthInvalidResponseProof
| AuthReplySubjectMismatch
| AuthInvalidEventTime
| AuthInvalidEventProof
| AuthEventRevoked.

Global Instance AuthorizationErrorCode_eq_dec : EqDecision AuthorizationErrorCode.
Proof. solve_decision. Defined.

Inductive SessionProofErrorCode :=
| ProofInvalidFormat
| ProofUnsafeJsonInteger
| ProofInvalidEncoding
| ProofInvalidPublicKey
| ProofInvalidKeyId
| ProofInvalidNatsKey
| ProofInvalidSignature
| ProofProofIatOutOfRange.

Global Instance SessionProofErrorCode_eq_dec : EqDecision SessionProofErrorCode.
Proof. solve_decision. Defined.

Inductive LiveProtocolErrorCode :=
| LiveInvalidFormat
| LiveInvalidCounter
| LiveInvalidNonce
| LiveInvalidSubjectToken
| LiveBodyTooLarge
| LiveInvalidDataBodyLimit
| LiveInvalidSignature
| LiveInvalidHeaders.

Global Instance LiveProtocolErrorCode_eq_dec : EqDecision LiveProtocolErrorCode.
Proof. solve_decision. Defined.

Inductive ProtocolError :=
| TransferError (field message : string)
| JsonError (details : string)
| NonCanonicalNumber (details : string)
| InvalidIdentifier (field reason : string)
| InvalidPermission (action target : string)
| InvalidGrantSetFormat (format : string)
| AuthorizationError (code : AuthorizationErrorCode) (path : list string) (message : string)
| SessionProofError (code : SessionProofErrorCode) (path : list string) (message : string)
| LiveError (code : LiveProtocolErrorCode) (path : list string) (message : string).

Global Instance ProtocolError_eq_dec : EqDecision ProtocolError.
Proof. solve_decision. Defined.

(** ** Authenticated callers

    The caller projection of [crates/protocol/src/authorization.rs] that accepted work
    retains. *)

Inductive PrincipalKind := PrincipalUser | PrincipalService | PrincipalDevice.

Inductive SessionBinding :=
| BindingBrowser (client_id origin : string)
| BindingNative (client_id durable_dpop_jkt : string)
| BindingService (deployment_id instance_id participant_id : string)
| BindingDevice (deployment_id instance_id participant_id : string).

Record CapabilityAuthority := mkCapabilityAuthority {
  cap_capability_id : string;
  cap_identity_generation : N;
  cap_consent_revision : N;
}.

Record AuthorityApi := mkAuthorityApi {
  authority_api_id : string;
  authority_generation : N;
  authority_accepted_revision : N;
  authority_catalog_snapshot_digest : string;
}.

Record CallerUser := mkCallerUser {
  user_display_name : string;
  user_given_name : option string;
  user_family_name : option string;
  user_email : option string;
  user_email_verified : bool;
  user_avatar_url : option string;
}.

Record AuthenticatedCaller := mkAuthenticatedCaller {
  caller_authority_digest : string;
  caller_principal_id : string;
  caller_principal_kind : PrincipalKind;
  caller_binding : SessionBinding;
  caller_authorization_session_id : string;
  caller_runtime_id : string;
  caller_session_public_key : string;
  caller_inbox_prefix : string;
  caller_login_session_id : option string;
  caller_oauth_grant_id : option string;
  caller_capabilities : list CapabilityAuthority;
  caller_apis : list AuthorityApi;
  caller_user : option CallerUser;
}.

Global Instance PrincipalKind_eq_dec : EqDecision PrincipalKind.
Proof. solve_decision. Defined.
Global Instance SessionBinding_eq_dec : EqDecision SessionBinding.
Proof. solve_decision. Defined.
Global Instance CapabilityAuthority_eq_dec : EqDecision CapabilityAuthority.
Proof. solve_decision. Defined.
Global Instance AuthorityApi_eq_dec : EqDecision AuthorityApi.
Proof. solve_decision. Defined.
Global Instance CallerUser_eq_dec : EqDecision CallerUser.
Proof. solve_decision. Defined.
Global Instance AuthenticatedCaller_eq_dec : EqDecision AuthenticatedCaller.
Proof. solve_decision. Defined.
