(* ===== verification/Wire.v ===== *)
(** * Wire primitives

    Canonical JSON digests ([crates/protocol/src/canonical.rs]), and the subject tokens,
    nonces and counters of [crates/protocol/src/live.rs], which every session protocol
    shares. *)

From Stdlib Require Import Ascii String.
From S2P Require Import Prelude RustStr Extern Base64 Protocol.

Local Open Scope string_scope.

Section canonical.
Context `{CanonicalJson, Base64Url, Sha256}.

Definition canonicalize_json (value : Value) : result string ProtocolError :=
  map_err JsonError (canonical_text value).

Definition sha256_base64url (text : string) : string := b64_encode (sha256 text).

Definition digest_json (value : Value) : result string ProtocolError :=
  let? text := canonicalize_json value in
  Ok (sha256_base64url text).
End canonical.

Definition live_error (code : LiveProtocolErrorCode) (tokens : list string) (message : string) :
    ProtocolError := LiveError code tokens message.

Definition NONCE_BYTES : nat := 16.
Definition NONCE_TEXT_LENGTH : nat := 22.

Section tokens.
Context `{Base64Url}.

(** [decode(value).is_ok_and(|bytes| encode(&bytes) == value)] *)
Definition is_canonical_token (value : string) : bool :=
  negb (String.eqb value "")
  && match b64_decode value with
     | Some bytes => String.eqb (b64_encode bytes) value
     | None => false
     end.

(** [expect("canonical token decodes")] cannot fail after the first check; the arm for it
    is never reached. *)
Definition validate_subject_token (value : string) (tokens : list string) :
    result string ProtocolError :=
  if negb (is_canonical_token value) then
    Err (live_error LiveInvalidSubjectToken tokens
           "subject token must be non-empty canonical unpadded base64url")
  else if negb (match b64_decode value with Some decoded => is_utf8 decoded | None => false end)
  then Err (live_error LiveInvalidSubjectToken tokens "subject token must encode UTF-8")
  else Ok value.

Definition parse_nonce (value : string) (tokens : list string) : result string ProtocolError :=
  if negb (Nat.eqb (String.length value) NONCE_TEXT_LENGTH)
     || negb (is_canonical_token value)
     || match b64_decode value with
        | None => true
        | Some bytes =>
            negb (Nat.eqb (String.length bytes) NONCE_BYTES)
            || negb (String.eqb (b64_encode bytes) value)
        end
  then Err (live_error LiveInvalidNonce tokens
              "nonce must be the canonical 22-character encoding of 16 random bytes")
  else Ok value.

(** [generate_nonce]; [random] is what the operating system's generator returned. *)
Definition generate_nonce (random : option string) : result string ProtocolError :=
  let? bytes := ok_or random (live_error LiveInvalidNonce ["nonce"]
                  "operating system random number generator failed") in
  Ok (b64_encode bytes).
End tokens.

Definition parse_u64s (value : string) (tokens : list string) : result N ProtocolError :=
  if String.eqb value "" || negb (all_chars is_ascii_digit value) then
    Err (live_error LiveInvalidCounter tokens
           "counter must be a canonical unsigned decimal string")
  else if (1 <? N.of_nat (String.length value))%N && starts_with "0" value then
    Err (live_error LiveInvalidCounter tokens "counter must not have a leading zero")
  else
    ok_or (parse_unsigned u64_max value)
      (live_error LiveInvalidCounter tokens "counter exceeds the unsigned 64-bit range").

Definition u64s (value : N) : string := decimal value.

(** ** Counters *)

Lemma digits_parse value :
  value <> "" -> all_chars is_ascii_digit value = true ->
  parse_unsigned u64_max value =
  (n ← digits_value 0 value; if (n <=? u64_max)%N then Some n else None).
Proof.
  intros Hne Hd. unfold parse_unsigned.
  assert (match value with
          | String "+" (String _ _ as s') => s' | _ => value end = value) as ->.
  { destruct value as [|c s]; [done|]. simpl in Hd.
    destruct c as [[] [] [] [] [] [] [] []]; try done. }
  destruct (String.eqb_spec value ""); [done|]. by destruct (digits_value 0 value).
Qed.

(** A numeral without a leading zero, or zero itself. *)
Lemma canonical_numeral value n :
  value <> "" -> all_chars is_ascii_digit value = true ->
  (1 <? N.of_nat (String.length value))%N && starts_with "0" value = false ->
  digits_value 0 value = Some n -> decimal n = value.
Proof.
  destruct value as [|c s]; [done|]. intros _ Hd Hz. cbn [digits_value]. simpl in Hd.
  apply andb_true_iff in Hd as [Hc Hs]. rewrite Hc, N.mul_0_l, N.add_0_l.
  unfold is_ascii_digit, in_range in Hc. rewrite andb_true_iff, !N.leb_le in Hc.
  assert (decimal (byte_of c - 48) = String c "") as Hdec
    by (rewrite decimal_digit, digit_char_byte; (done || lia)).
  destruct s as [|d s]; [simpl; intros [= <-]; exact Hdec|].
  intros Hv. apply decimal_numeral in Hv as [-> _]; [by rewrite Hdec|].
  destruct (N.eq_dec (byte_of c) 48%N) as [H48|]; [|lia]. exfalso.
  assert (c = "0"%char) as ->.
  { rewrite <- (ascii_N_embedding c). unfold byte_of in H48. by rewrite H48. }
  cbn [String.length] in Hz. simpl in Hz. rewrite andb_false_iff in Hz. destruct Hz as [Hz|Hz]; [|done].
  apply N.ltb_ge in Hz. lia.
Qed.

Lemma parse_u64s_ok value tokens n :
  parse_u64s value tokens = Ok n <-> value = decimal n /\ (n <= u64_max)%N.
Proof.
  unfold parse_u64s. split.
  - destruct (String.eqb_spec value "") as [|Hne]; [done|].
    destruct (all_chars is_ascii_digit value) eqn:Hd; [|done]. cbn [orb negb].
    destruct (_ && _) eqn:Hz; [done|]. rewrite ok_or_ok, digits_parse by done.
    intros (m & Hm & Hle)%bind_Some. destruct (N.leb_spec m u64_max); [|done].
    injection Hle as ->. split; [|done]. symmetry. by apply canonical_numeral.
  - intros [-> Hle]. destruct (String.eqb_spec (decimal n) "") as [He|_];
      [by apply decimal_nonempty in He|].
    assert (all_chars is_ascii_digit (decimal n) = true) as -> by (by apply decimal_digits).
    cbn [orb negb]. rewrite parse_decimal by done.
    destruct (N.eq_dec n 0%N) as [->|Hn]; [done|].
    destruct (decimal_positive n) as (c & s & -> & Hc & _); [lia|].
    assert (starts_with "0" (String c s) = false) as ->.
    { destruct (starts_with "0" (String c s)) eqn:Hs; [|done].
      apply starts_with_true in Hs as [r [= -> _]]. done. }
    by rewrite andb_false_r.
Qed.

(** Wire counters are exact: a text parses to the 64-bit number [n] precisely when
    it is the text [u64s] writes for [n], so a counter has one spelling and no value is
    lost, those beyond a double's integers included. *)
Theorem counter_roundtrip value tokens n :
  parse_u64s value tokens = Ok n <-> value = u64s n /\ (n <= u64_max)%N.
Proof. apply parse_u64s_ok. Qed.

(** ** Nonces and tokens *)

Section tokens_lemmas.
Context `{Base64UrlLaws}.

Lemma is_canonical_token_ok value :
  is_canonical_token value = true <-> exists bytes, bytes <> "" /\ value = b64_encode bytes.
Proof.
  unfold is_canonical_token. rewrite andb_true_iff, negb_true_iff.
  assert (b64_encode "" = "") as Hnil.
  { pose proof (b64_length "") as Hl. by destruct (b64_encode ""). }
  split.
  - intros [Hne%String.eqb_neq Hd]. destruct (b64_decode value) as [bytes|]; [|done].
    apply String.eqb_eq in Hd. exists bytes. split; [|done]. intros ->. congruence.
  - intros (bytes & Hne & ->). rewrite b64_decode_encode, String.eqb_refl. split; [|done].
    apply String.eqb_neq. intros He. apply Hne. rewrite <- Hnil in He.
    enough (Some bytes = Some "") by congruence. by rewrite <- !b64_decode_encode, He.
Qed.

(** A nonce is the encoding of sixteen bytes. *)
Lemma parse_nonce_ok value tokens text :
  parse_nonce value tokens = Ok text <->
  text = value /\ exists bytes, String.length bytes = NONCE_BYTES /\ value = b64_encode bytes.
Proof.
  unfold parse_nonce. split.
  - destruct (_ || _) eqn:Hc; [done|]. intros [= <-]. split; [done|].
    rewrite !orb_false_iff, !negb_false_iff in Hc. destruct Hc as [[_ _] Hd].
    destruct (b64_decode value) as [bytes|]; [|done].
    rewrite orb_false_iff, !negb_false_iff, Nat.eqb_eq, String.eqb_eq in Hd.
    destruct Hd as [? ?]. by exists bytes.
  - intros (-> & bytes & Hlen & ->). rewrite b64_length, b64_decode_encode, Hlen, String.eqb_refl.
    assert (is_canonical_token (b64_encode bytes) = true) as ->.
    { apply is_canonical_token_ok. exists bytes. split; [|done]. by intros ->. }
    done.
Qed.

Lemma validate_subject_token_ok value tokens text :
  validate_subject_token value tokens = Ok text <->
  text = value /\
  exists identity, identity <> "" /\ is_utf8 identity = true /\ value = b64_encode identity.
Proof.
  unfold validate_subject_token. destruct (is_canonical_token value) eqn:Hc; cbn [negb].
  - apply is_canonical_token_ok in Hc as (bytes & Hne & ->). rewrite b64_decode_encode.
    destruct (is_utf8 bytes) eqn:Hu; cbn [negb]; split; try naive_solver.
    intros (-> & id & ? & Hid & Heq).
    assert (Some bytes = Some id) as [= ->] by (by rewrite <- !b64_decode_encode, Heq).
    congruence.
  - split; [done|]. intros (-> & id & Hne & _ & ->).
    by rewrite (proj2 (is_canonical_token_ok _)) in Hc by eauto.
Qed.
End tokens_lemmas.
