(* ===== verification/Authorization.v ===== *)
(** * Validation shared by the authority documents

    The helpers of [crates/protocol/src/authorization.rs] that the authority, the messages,
    the catalogs and the admission credentials are checked with. *)

From Stdlib Require Import Ascii String.
From S2P Require Import Prelude RustStr Extern Json Transcript Base64 Protocol Wire.

Local Open Scope string_scope.

Local Existing Instance json_tree.

Definition authorization_error (code : AuthorizationErrorCode) (tokens : list string)
    (message : string) : ProtocolError := AuthorizationError code tokens message.

Definition validate_text (value : string) (path : list string) : result unit ProtocolError :=
  if String.eqb value "" || (1024 <? N.of_nat (String.length value))%N
     || negb (String.eqb (trim value) value) || any_char is_ascii_control value
  then Err (authorization_error AuthInvalidFormat path
              "value must be bounded nonempty protocol-safe text")
  else Ok tt.

Fixpoint is_utf16_strictly_sorted (values : list string) : bool :=
  match values with
  | a :: (b :: _) as rest =>
      units_lt (encode_utf16 a) (encode_utf16 b) && is_utf16_strictly_sorted rest
  | _ => true
  end.

Definition validate_subject (value : string) : result unit ProtocolError :=
  let? _ := validate_text value ["subject"] in
  reject_if
    (existsb (String.eqb "") (split "." value)
     || contains_char "*" value || contains_char ">" value || has_whitespace value)
    (authorization_error AuthInvalidFormat ["subject"] "literal NATS subject required").

Definition validate_id `{UlidParser} (value field : string) : result unit ProtocolError :=
  reject_if
    (negb (Nat.eqb (String.length value) 26) || negb (is_ulid value)
     || negb (String.eqb value (to_ascii_uppercase value)))
    (authorization_error AuthInvalidFormat [field] "identifier must be a canonical ULID").

Section keys.
Context `{Base64Url, Ed25519, Sha256}.

Definition decode_base64url (n : nat) (value : string) : result string ProtocolError :=
  let invalid := authorization_error AuthInvalidEncoding [] in
  if negb (Nat.eqb (String.length value) ((n * 8 + 5) / 6)) then
    Err (invalid "invalid encoded length")
  else
    let? bytes := ok_or (b64_decode value) (invalid "invalid base64url") in
    if negb (String.eqb (b64_encode bytes) value) then Err (invalid "noncanonical base64url")
    else if negb (Nat.eqb (String.length bytes) n) then Err (invalid "invalid decoded length")
    else Ok bytes.

(** [verifying_key] *)
Definition parse_verifying_key (value : string) : result VerifyingKey ProtocolError :=
  let? bytes := decode_base64url 32 value in
  let? key := ok_or (verifying_key_from_bytes bytes)
                (authorization_error AuthInvalidPublicKey [] "invalid Ed25519 key") in
  if is_weak key then Err (authorization_error AuthInvalidPublicKey [] "weak Ed25519 key")
  else Ok key.

(** The content address of a key: [URL_SAFE_NO_PAD.encode(Sha256::digest(key.as_bytes()))] *)
Definition key_id_of (key : VerifyingKey) : string :=
  b64_encode (sha256 (verifying_key_to_bytes key)).
End keys.

Section digests.
Context `{Base64Url, Sha256} `{!CanonicalJson}.

(** [push_component] over the components, then the digest. *)
Definition component_digest (components : list string) : result string ProtocolError :=
  transcript_digest (authorization_error AuthInvalidFormat [] "proof component too large")
    components.

Definition signed_json_digest (domain : string) (value : Json) : result string ProtocolError :=
  let? canonical := canonicalize_json value in
  component_digest [domain; canonical].

(** [URL_SAFE_NO_PAD.encode(Sha256::digest(canonicalize_json(&to_value(record)?)?))], the
    content address of a signed record. *)
Definition content_address (value : Json) : result string ProtocolError :=
  let? canonical := canonicalize_json value in
  Ok (b64_encode (sha256 canonical)).
End digests.

Definition unsafe_extension_number (number : JsonNumber) : bool :=
  match number_as_i64 number with Some z => (MAX_SAFE_INTEGER <? Z.abs_N z)%N | None => false end
  || match number_as_u64 number with Some n => (MAX_SAFE_INTEGER <? n)%N | None => false end
  || unsafe_double number.

Fixpoint validate_extension_numbers (value : Json) : result unit ProtocolError :=
  match value with
  | JNumber number =>
      if unsafe_extension_number number then
        Err (authorization_error AuthUnsafeJsonInteger ["extensions"]
               "extension integer outside interoperable range")
      else Ok tt
  | JArray values =>
      (fix go values :=
         match values with
         | [] => Ok tt
         | value :: values => let? _ := validate_extension_numbers value in go values
         end) values
  | JObject members =>
      (fix go members :=
         match members with
         | [] => Ok tt
         | (_, value) :: members => let? _ := validate_extension_numbers value in go members
         end) members
  | _ => Ok tt
  end.

(** ** Lemmas *)

Lemma validate_extension_numbers_exact value :
  validate_extension_numbers value = Ok tt -> json_exact value.
Proof.
  revert value. fix go 1. intros [| |n| |l|m]; cbn [validate_extension_numbers json_exact]; try done.
  - unfold unsafe_extension_number. destruct (_ || _) eqn:Hu; [done|].
    by apply orb_false_iff in Hu as [_ Hu].
  - induction l as [|v l IH]; [done|]. rewrite let_ok. intros ([] & Hv & Hl).
    split; [by apply go|by apply IH].
  - induction m as [|[k v] m IH]; [done|]. rewrite let_ok. intros ([] & Hv & Hm).
    split; [by apply go|by apply IH].
Qed.

(** The order on identities is strict: what it sorts has no duplicate. *)
Lemma utf16_sorted_below a l :
  is_utf16_strictly_sorted (a :: l) = true ->
  Forall (fun b => units_lt (encode_utf16 a) (encode_utf16 b) = true) l.
Proof.
  revert a. induction l as [|b l IH]; intros a; [constructor|].
  cbn [is_utf16_strictly_sorted]. rewrite andb_true_iff. intros [Hab Hl].
  constructor; [done|]. eapply Forall_impl; [by apply IH|]. intros c. by apply units_lt_trans.
Qed.

Lemma utf16_sorted_nodup l : is_utf16_strictly_sorted l = true -> NoDup l.
Proof.
  induction l as [|a l IH]; [constructor|]. intros Hl. constructor.
  - intros Ha. pose proof (utf16_sorted_below a l Hl) as Hall.
    rewrite Forall_forall in Hall. specialize (Hall a Ha). simpl in Hall.
    by rewrite units_lt_irrefl in Hall.
  - apply IH. destruct l; [done|]. cbn [is_utf16_strictly_sorted] in Hl.
    by apply andb_true_iff in Hl as [_ ?].
Qed.

Lemma decode_base64url_bytes `{Base64Url} n value bytes :
  decode_base64url n value = Ok bytes -> value = b64_encode bytes /\ String.length bytes = n.
Proof.
  unfold decode_base64url. destruct (negb _); [done|]. rewrite let_ok. intros (b & _ & Hb).
  destruct (String.eqb_spec (b64_encode b) value) as [<-|]; [|done]. cbn [negb] in Hb.
  destruct (Nat.eqb_spec (String.length b) n) as [<-|]; [|done]. by injection Hb as ->.
Qed.

Lemma decode_base64url_encode `{Base64UrlLaws} n bytes :
  String.length bytes = n -> decode_base64url n (b64_encode bytes) = Ok bytes.
Proof.
  intros <-. unfold decode_base64url. rewrite b64_length, b64_decode_encode.
  replace ((String.length bytes * 8 + 5) / 6)%nat with ((4 * String.length bytes + 2) / 3)%nat.
  { cbn. by rewrite !Nat.eqb_refl, String.eqb_refl. }
  replace (String.length bytes * 8 + 5)%nat with ((4 * String.length bytes + 2) * 2 + 1)%nat by lia.
  change 6%nat with (2 * 3)%nat. rewrite <- Nat.Div0.div_div.
  by rewrite Nat.div_add_l, Nat.add_0_r by done.
Qed.

(** A key parses from the text of its bytes. *)
Lemma parse_verifying_key_encode `{Base64UrlLaws, Ed25519Laws} key :
  is_weak key = false ->
  parse_verifying_key (b64_encode (verifying_key_to_bytes key)) = Ok key.
Proof.
  intros Hw. unfold parse_verifying_key.
  rewrite decode_base64url_encode, verifying_key_bytes by apply verifying_key_length.
  cbn. by rewrite Hw.
Qed.

Section binding.
Context `{Base64Url, Sha256} `{!CanonicalJson} `{!CanonicalJsonLaws}.

Lemma signed_json_digest_binds domain value domain' value' digest :
  json_plain value -> json_plain value' ->
  signed_json_digest domain value = Ok digest -> signed_json_digest domain' value' = Ok digest ->
  (domain = domain' /\ json_same value value') \/ sha256_collision.
Proof.
  intros [Hs He] [Hs' He']. unfold signed_json_digest, canonicalize_json. rewrite !let_ok.
  intros (t & Ht & Hd) (t' & Ht' & Hd'). rewrite map_err_ok in Ht. rewrite map_err_ok in Ht'.
  destruct (transcript_digest_binds _ _ _ _ _ Hd Hd') as [[= -> ->]|]; [|by right].
  left. split; [done|]. by eapply canonical_text_same.
Qed.

Lemma content_address_binds `{!Base64UrlLaws} v w address :
  json_plain v -> json_plain w ->
  content_address v = Ok address -> content_address w = Ok address ->
  json_same v w \/ sha256_collision.
Proof.
  intros [Hs He] [Hs' He'] Hv Hw. unfold content_address, canonicalize_json in Hv, Hw.
  peel Hv as t Ht. peel Hw as t' Ht'. injection Hv as <-. injection Hw as Heq.
  assert (Some (sha256 t') = Some (sha256 t)) as [= Hd]
    by by rewrite <- !b64_decode_encode, Heq.
  destruct (sha256_binds _ _ Hd) as [->|]; [|by right]. left. by eapply canonical_text_same.
Qed.
End binding.
