(* ===== verification/Identifiers.v ===== *)
(** * Protocol identifiers

    The validators of [crates/protocol/src/identifiers.rs], and the grammar an API
    identifier has to follow. *)

From Stdlib Require Import Ascii String.
From S2P Require Import Prelude RustStr Protocol.

Definition invalid (field reason : string) : ProtocolError := InvalidIdentifier field reason.

Definition validate_protocol_identifier (field value : string) : result unit ProtocolError :=
  if String.eqb value "" then Err (invalid field "must not be empty")
  else if negb (String.eqb (trim value) value) then
    Err (invalid field "must not have leading or trailing whitespace")
  else if any_char is_ascii_control value then
    Err (invalid field "must not contain ASCII control characters")
  else Ok tt.

Definition validate_positive_decimal (field value : string) : result unit ProtocolError :=
  let e := invalid field "must use a positive decimal major version" in
  match value with
  | EmptyString => Err e
  | String first rest =>
      if negb (in_range 49 57 first) || negb (all_chars is_ascii_digit rest) then Err e
      else Ok tt
  end.

(** [matches!(byte, b'.' | b'_' | b'-')] *)
Definition is_separator (c : ascii) : bool :=
  ((c =? ".") || (c =? "_") || (c =? "-"))%char.

Definition is_alphanumeric (c : ascii) : bool := is_ascii_lowercase c || is_ascii_digit c.

(** [bytes.windows(2).any(|pair| ..)] *)
Fixpoint any_pair (p : ascii -> ascii -> bool) (s : string) : bool :=
  match s with
  | String a (String b _ as s') => p a b || any_pair p s'
  | _ => false
  end.

Definition first_byte_is (p : ascii -> bool) (s : string) : bool :=
  match s with String c _ => p c | EmptyString => false end.

Fixpoint last_byte_is (p : ascii -> bool) (s : string) : bool :=
  match s with
  | EmptyString => false
  | String c EmptyString => p c
  | String _ s => last_byte_is p s
  end.

Definition validate_api_id (value : string) : result unit ProtocolError :=
  let? _ := validate_protocol_identifier "api id" value in
  if (128 <? N.of_nat (String.length value))%N then
    Err (invalid "api id" "must be at most 128 bytes")
  else match rsplit_once "@v" value with
  | None => Err (invalid "api id" "must end in one '@vN' major suffix")
  | Some (lineage, major) =>
      if String.eqb lineage ""
         || negb (all_chars (fun c => is_ascii_lowercase c || is_ascii_digit c
                                       || is_separator c) lineage)
         || negb (first_byte_is is_alphanumeric lineage)
         || negb (last_byte_is is_alphanumeric lineage)
         || any_pair (fun a b => is_separator a && is_separator b) lineage
      then
        Err (invalid "api id"
               "must use lowercase alphanumeric lineage tokens separated by '.', '_', or '-' before '@vN'")
      else validate_positive_decimal "api id" major
  end.

Definition validate_version (value : string) : result unit ProtocolError :=
  match strip_prefix "v" value with
  | None => Err (invalid "surface version" "must be a positive 'vN' version")
  | Some major => validate_positive_decimal "surface version" major
  end.

Definition validate_logical_name (value : string) : result unit ProtocolError :=
  let? _ := validate_protocol_identifier "logical name" value in
  if starts_with "." value
     || ends_with "." value
     || contains ".." value
     || existsb (fun token => String.eqb token "" || contains_char "*" token
                  || contains_char ">" token || has_whitespace token)
          (split "." value)
  then Err (invalid "logical name" "must be dot-separated non-empty NATS-safe tokens")
  else Ok tt.

(** ** The grammar of API identifiers

    A lineage is a run of lowercase letters and digits, in which a single separator may
    stand between two of them. *)
Inductive lineage_grammar : string -> Prop :=
| lineage_end c :
    is_alphanumeric c = true -> lineage_grammar (String c "")
| lineage_next c s :
    is_alphanumeric c = true -> lineage_grammar s -> lineage_grammar (String c s)
| lineage_separator c d s :
    is_alphanumeric c = true -> is_separator d = true -> lineage_grammar s ->
    lineage_grammar (String c (String d s)).

Definition lineage_checks (s : string) : bool :=
  all_chars (fun c => is_ascii_lowercase c || is_ascii_digit c || is_separator c) s
  && first_byte_is is_alphanumeric s && last_byte_is is_alphanumeric s
  && negb (any_pair (fun a b => is_separator a && is_separator b) s).

Lemma alphanumeric_not_separator c : is_alphanumeric c = true -> is_separator c = false.
Proof. by destruct c as [[] [] [] [] [] [] [] []]. Qed.

Lemma lineage_char c : is_alphanumeric c = true \/ is_separator c = true -> graphic c = true.
Proof. destruct c as [[] [] [] [] [] [] [] []]; cbn; naive_solver. Qed.

(** The checks, one character at a time. *)
Lemma lineage_checks_step a b s :
  lineage_checks (String a (String b s)) =
  is_alphanumeric a
  && (if is_alphanumeric b then lineage_checks (String b s)
      else is_separator b && lineage_checks s).
Proof.
  unfold lineage_checks.
  change (fun c => is_ascii_lowercase c || is_ascii_digit c || is_separator c)
    with (fun c => is_alphanumeric c || is_separator c).
  destruct s as [|d s]; simpl; [|destruct (is_alphanumeric d) eqn:Hd];
    destruct (is_alphanumeric a) eqn:Ha, (is_alphanumeric b) eqn:Hb;
    repeat match goal with
      | H : is_alphanumeric ?c = true |- _ =>
          rewrite (alphanumeric_not_separator c H); clear H
      | |- context [is_separator ?c] => destruct (is_separator c)
      end; simpl; rewrite ?andb_false_r; try done.
  all: by rewrite ?andb_true_r.
Qed.

Lemma lineage_checks_grammar s : lineage_checks s = true <-> lineage_grammar s.
Proof.
  split.
  - induction s as [s IH] using (induction_ltof1 _ String.length).
    intros Hs. destruct s as [|a [|b s]]; [done|..].
    + constructor. unfold lineage_checks in Hs. simpl in Hs. rewrite !andb_true_iff in Hs. tauto.
    + rewrite lineage_checks_step in Hs. apply andb_true_iff in Hs as [Ha Hs].
      destruct (is_alphanumeric b) eqn:Hb.
      * apply lineage_next; [done|]. apply IH; [unfold ltof; simpl; lia|done].
      * apply andb_true_iff in Hs as [Hsep Hs]. apply lineage_separator; [done..|].
        apply IH; [unfold ltof; simpl; lia|done].
  - induction 1 as [c Hc|c s Hc Hs IH|c d s Hc Hd Hs IH].
    + unfold lineage_checks. simpl. unfold is_alphanumeric in *. by rewrite Hc.
    + destruct s as [|d s]; [by inversion Hs|]. rewrite lineage_checks_step, Hc. simpl.
      assert (is_alphanumeric d = true) as -> by (by inversion Hs). done.
    + rewrite lineage_checks_step, Hc, Hd. simpl.
      destruct (is_alphanumeric d) eqn:Hd'; [|done].
      by rewrite (alphanumeric_not_separator d Hd') in Hd.
Qed.

(** ** What the validators accept *)

Lemma validate_positive_decimal_ok field s :
  validate_positive_decimal field s = Ok tt <-> exists n, (0 < n)%N /\ s = decimal n.
Proof.
  split.
  - destruct s as [|c s]; simpl; [done|]. case_match eqn:Hcond; [done|]. intros _.
    apply orb_false_iff in Hcond as [Hc Hs]. rewrite negb_false_iff in Hc, Hs.
    unfold in_range in Hc. rewrite andb_true_iff, !N.leb_le in Hc.
    destruct (digits_value_total (byte_of c - 48) s Hs) as [n Hn].
    exists n. apply decimal_numeral in Hn as [-> ?]; [|lia]. split; [done|].
    rewrite decimal_digit by lia. simpl. by rewrite digit_char_byte by lia.
  - intros (n & Hn & ->). destruct (decimal_positive n Hn) as (c & s & -> & Hc & Hs).
    simpl. by rewrite Hc, Hs.
Qed.

(** An API identifier: a lineage and a positive major version, at most 128 bytes. *)
Definition api_id_grammar (value : string) : Prop :=
  exists lineage n,
    value = lineage +:+ "@v" +:+ decimal n /\ lineage_grammar lineage /\ (0 < n)%N /\
    (N.of_nat (String.length value) <= 128)%N.

Lemma lineage_graphic s : lineage_grammar s -> s <> "" /\ all_chars graphic s = true.
Proof.
  induction 1 as [c Hc|c s Hc _ [_ IH]|c d s Hc Hd _ [_ IH]]; split; try done; simpl;
    rewrite ?IH, !lineage_char by auto; done.
Qed.

Lemma decimal_graphic n : all_chars graphic (decimal n) = true.
Proof.
  eapply all_chars_impl; [|by apply (decimal_digits _ n "")].
  intros c. unfold is_ascii_digit, graphic, in_range. rewrite !andb_true_iff, !N.leb_le. lia.
Qed.

Lemma graphic_identifier field s :
  s <> "" -> all_chars graphic s = true -> validate_protocol_identifier field s = Ok tt.
Proof.
  intros Hne Hs. unfold validate_protocol_identifier.
  rewrite trim_graphic, String.eqb_refl, graphic_not_control by done.
  by destruct (String.eqb_spec s "").
Qed.

Lemma api_id_graphic value : api_id_grammar value -> value <> "" /\ all_chars graphic value = true.
Proof.
  intros (lineage & n & -> & [Hne Hg]%lineage_graphic & _ & _).
  split; [by destruct lineage|]. rewrite all_chars_append, Hg. simpl. apply decimal_graphic.
Qed.

Lemma validate_api_id_ok value : validate_api_id value = Ok tt <-> api_id_grammar value.
Proof.
  unfold validate_api_id. split.
  - rewrite let_ok. intros (u & _ & Hv).
    destruct (N.ltb_spec 128 (N.of_nat (String.length value))); [done|].
    destruct (rsplit_once "@v" value) as [[lineage major]|] eqn:Hsplit; [|done].
    apply rsplit_once_Some in Hsplit. case_match eqn:Hcond; [done|].
    rewrite !orb_false_iff, !negb_false_iff in Hcond.
    apply validate_positive_decimal_ok in Hv as (n & Hn & ->).
    exists lineage, n. split_and!; [done| |done|done].
    apply lineage_checks_grammar. unfold lineage_checks.
    rewrite !andb_true_iff, negb_true_iff. tauto.
  - intros Hg. destruct (api_id_graphic value Hg) as [Hne Hgr].
    rewrite graphic_identifier by done.
    destruct Hg as (lineage & n & Hv & Hl & Hn & Hlen).
    destruct (N.ltb_spec 128 (N.of_nat (String.length value))); [lia|].
    rewrite Hv, rsplit_once_last; [|done|].
    2:{ by apply (all_chars_excludes is_ascii_digit), decimal_digits. }
    pose proof (proj1 (lineage_graphic _ Hl)) as Hlne.
    apply lineage_checks_grammar in Hl. unfold lineage_checks in Hl.
    rewrite !andb_true_iff, negb_true_iff in Hl. destruct Hl as (((-> & ->) & ->) & ->).
    destruct (String.eqb_spec lineage ""); [done|]. simpl.
    apply validate_positive_decimal_ok. eauto.
Qed.

(** A token that can stand literally in a NATS subject. *)
Definition nats_token (token : string) : bool :=
  negb (String.eqb token "" || contains_char "*" token || contains_char ">" token
        || has_whitespace token).

(** An empty token is what a leading, trailing or doubled dot leaves. *)
Lemma dots_leave_empty_token value :
  starts_with "." value || ends_with "." value || contains ".." value = true ->
  In "" (split "." value).
Proof.
  rewrite !orb_true_iff, starts_with_true, ends_with_true, contains_true.
  intros [[[r ->]|[r ->]]|(a & b & ->)].
  - by left.
  - rewrite split_sep. apply in_or_app. right. by left.
  - change (".." +:+ b) with (String "." ("" +:+ String "." b)).
    rewrite !split_sep. rewrite !in_app_iff. right. left. by left.
Qed.

Lemma validate_logical_name_ok value :
  validate_logical_name value = Ok tt <->
  validate_protocol_identifier "logical name" value = Ok tt /\
  forallb nats_token (split "." value) = true.
Proof.
  unfold validate_logical_name. rewrite let_ok.
  assert (existsb (fun token => String.eqb token "" || contains_char "*" token
            || contains_char ">" token || has_whitespace token) (split "." value)
          = negb (forallb nats_token (split "." value))) as ->.
  { induction (split "." value) as [|t l IH]; simpl; [done|].
    rewrite IH. unfold nats_token at 2. by rewrite negb_andb, negb_involutive. }
  destruct (starts_with "." value || ends_with "." value || contains ".." value) eqn:Hdots.
  - split; [naive_solver|]. intros [_ Hall]. apply dots_leave_empty_token in Hdots.
    rewrite forallb_forall in Hall. by apply Hall in Hdots.
  - simpl. destruct (forallb nats_token (split "." value)); simpl; [|naive_solver].
    split; [intros ([] & ? & _); done|intros [? _]; eauto].
Qed.

(** The checks of the two validators are their grammars.  An API identifier is
    accepted exactly when it is a lineage (runs of lowercase letters and digits joined by
    single separators), [@v] and a positive decimal without leading zeros, in at most 128
    bytes; a logical name exactly when it is a trimmed identifier whose dot-separated
    tokens are all literal NATS tokens, the separate tests for leading, trailing and
    doubled dots following from that. *)
Theorem identifier_grammars value :
  (validate_api_id value = Ok tt <-> api_id_grammar value) /\
  (validate_logical_name value = Ok tt <->
   validate_protocol_identifier "logical name" value = Ok tt /\
   forallb nats_token (split "." value) = true).
Proof. split; [apply validate_api_id_ok|apply validate_logical_name_ok]. Qed.
