(* ===== verification/Subjects.v ===== *)
(** * NATS subjects

    [crates/protocol/src/subjects.rs]: event descriptor identities, the subjects derived
    for RPCs, operations, events and live routes, and the overlap of event patterns. *)

From Stdlib Require Import Ascii String.
From S2P Require Import Prelude RustStr Extern Base64 Protocol Identifiers.

Local Open Scope string_scope.

Record EventDescriptorIdentity := mkEventDescriptorIdentity {
  api_id : string;
  event_name : string;
  parameter_count : N;
}.

Section derivations.
Context `{Base64Url, Sha256}.

Definition subject_token (value : string) : string := b64_encode value.

Definition encode_subject_token (value : string) : string := subject_token value.

Definition encode_event_descriptor_identity (api_id event_name : string)
    (parameter_count : N) : result string ProtocolError :=
  let? _ := validate_api_id api_id in
  let? _ := validate_logical_name event_name in
  if (u32_max <? parameter_count)%N then
    Err (InvalidIdentifier "event parameter count" "must fit an unsigned 32-bit integer")
  else
    Ok ("v1." +:+ subject_token api_id +:+ "." +:+ subject_token event_name +:+ "."
        +:+ decimal parameter_count).

Definition invalid_descriptor : ProtocolError :=
  InvalidIdentifier "event descriptor identity" "must be canonical v1 descriptor identity".

(** The closure [decode] of [decode_event_descriptor_identity]. *)
Definition decode_text_token (token : string) : result string ProtocolError :=
  let? bytes := ok_or (b64_decode token) invalid_descriptor in
  if is_utf8 bytes then Ok bytes else Err invalid_descriptor.

Definition decode_event_descriptor_identity (value : string) :
    result EventDescriptorIdentity ProtocolError :=
  match split "." value with
  | version :: parts =>
      if negb (String.eqb version "v1") then Err invalid_descriptor else
      match parts with
      | api_token :: event_token :: parameter_token :: rest =>
          if negb (bool_decide (rest = [])) || String.eqb parameter_token "" then
            Err invalid_descriptor
          else
            let? api_id := decode_text_token api_token in
            let? event_name := decode_text_token event_token in
            let? parameter_count :=
              ok_or (parse_unsigned u32_max parameter_token) invalid_descriptor in
            if negb (String.eqb (decimal parameter_count) parameter_token) then
              Err invalid_descriptor
            else
              let? encoded :=
                encode_event_descriptor_identity api_id event_name parameter_count in
              if negb (String.eqb encoded value) then Err invalid_descriptor
              else Ok (mkEventDescriptorIdentity api_id event_name parameter_count)
      | _ => Err invalid_descriptor
      end
  | [] => Err invalid_descriptor
  end.

Definition derive_event_subject (api_id action : string) : result string ProtocolError :=
  let? _ := validate_api_id api_id in
  let? _ := validate_logical_name action in
  Ok ("events.v1." +:+ subject_token api_id +:+ "." +:+ action).

Fixpoint push_wildcards (n : nat) (subject : string) : string :=
  match n with
  | O => subject
  | S n => push_wildcards n (subject +:+ ".*")
  end.

Definition derive_event_wildcard_subject (api_id action : string) (parameter_count : N) :
    result string ProtocolError :=
  let? subject := derive_event_subject api_id action in
  Ok (push_wildcards (N.to_nat parameter_count) subject).

Definition validate_event_descriptor_subject (identity : EventDescriptorIdentity)
    (subject : string) : result unit ProtocolError :=
  let mismatch :=
    InvalidIdentifier "event subject" "must match the signed event descriptor identity" in
  let? base := derive_event_subject (api_id identity) (event_name identity) in
  let? suffix := ok_or (strip_prefix base subject) mismatch in
  let? parameters :=
    if String.eqb suffix "" then Ok 0%N
    else
      let? suffix := ok_or (strip_prefix "." suffix) mismatch in
      let tokens := split "." suffix in
      if existsb (fun token => String.eqb token "") tokens then
        Err (InvalidIdentifier "event subject" "contains an empty parameter token")
      else Ok (len tokens) in
  if negb (parameters =? parameter_count identity)%N then
    Err (InvalidIdentifier "event subject"
           "parameter suffix does not match the signed descriptor shape")
  else Ok tt.

Definition derive_bound_subject (family api_id provider_deployment_id action : string) :
    result string ProtocolError :=
  let? _ := validate_api_id api_id in
  let? _ := validate_logical_name action in
  if String.eqb provider_deployment_id "" then
    Err (InvalidIdentifier "provider deployment id" "must not be empty")
  else
    Ok (family +:+ ".v1." +:+ subject_token api_id +:+ "."
        +:+ subject_token provider_deployment_id +:+ "." +:+ action).

Definition derive_bound_rpc_subject := derive_bound_subject "rpc".

Definition derive_bound_operation_subject := derive_bound_subject "operation".

Definition derive_bound_live_subject (api_id provider_deployment_id action : string) :
    result string ProtocolError :=
  let? _ := validate_api_id api_id in
  let? _ := validate_logical_name action in
  if String.eqb provider_deployment_id "" then
    Err (InvalidIdentifier "provider deployment id" "must not be empty")
  else
    Ok ("live.v1.route." +:+ subject_token api_id +:+ "."
        +:+ subject_token provider_deployment_id +:+ "." +:+ action).

Definition route_queue_group (subscription_subject : string) : string :=
  "trellis." +:+ b64_encode (sha256 subscription_subject).

Definition derive_subject (family version logical_name : string) :
    result string ProtocolError :=
  let? _ := validate_version version in
  let? _ := validate_logical_name logical_name in
  Ok (family +:+ "." +:+ version +:+ "." +:+ logical_name).

Definition derive_rpc_subject := derive_subject "rpc".

Definition derive_operation_subject := derive_subject "operations".

Definition derive_live_subject (api_id action : string) : result string ProtocolError :=
  let? _ := validate_api_id api_id in
  let? _ := validate_logical_name action in
  Ok ("live.v1.route." +:+ subject_token api_id +:+ "." +:+ action).
End derivations.

Fixpoint tokens_overlap (ls rs : list string) : bool :=
  match ls, rs with
  | l :: ls, r :: rs =>
      (String.eqb l "*" || String.eqb r "*" || String.eqb l r) && tokens_overlap ls rs
  | _, _ => true
  end.

Definition event_patterns_overlap (left right : string) : bool :=
  let left := split "." left in
  let right := split "." right in
  (len left =? len right)%N && tokens_overlap left right.

(** ** Tokens *)

Section tokens.
Context `{Base64UrlLaws}.

Lemma subject_token_excludes c value :
  is_base64url c = false -> contains_char c (subject_token value) = false.
Proof. intros Hc. eapply all_chars_excludes; [exact Hc|apply b64_alphabet]. Qed.

Lemma subject_token_inj : Inj (=) (=) subject_token.
Proof.
  intros a b Heq. unfold subject_token in Heq.
  enough (Some a = Some b) by congruence. by rewrite <- !b64_decode_encode, Heq.
Qed.

Lemma subject_token_nonempty value : value <> "" -> subject_token value <> "".
Proof.
  intros Hne Heq. apply Hne. apply (subject_token_inj value ""). rewrite Heq.
  pose proof (b64_length "") as Hlen. symmetry. unfold subject_token.
  by destruct (b64_encode "").
Qed.

(** A subject built from a token and the rest splits back. *)
Lemma split_subject_token value rest :
  split "." (subject_token value +:+ "." +:+ rest) = subject_token value :: split "." rest.
Proof. simpl. apply split_append. by apply subject_token_excludes. Qed.

Lemma decode_subject_token value :
  is_utf8 value = true -> decode_text_token (subject_token value) = Ok value.
Proof.
  intros Hv. unfold decode_text_token, subject_token. rewrite b64_decode_encode. simpl.
  by rewrite Hv.
Qed.

(** The text of a descriptor identity determines its three parts. *)
Lemma split_descriptor a e n :
  split "." ("v1." +:+ subject_token a +:+ "." +:+ subject_token e +:+ "." +:+ decimal n) =
  ["v1"; subject_token a; subject_token e; decimal n].
Proof.
  change ("v1." +:+ ?x) with ("v1" +:+ String "." x).
  rewrite split_append by done.
  rewrite split_subject_token, split_subject_token, split_word; [done|].
  by apply (all_chars_excludes is_ascii_digit), decimal_digits.
Qed.
End tokens.

(** ** Event descriptor identities *)

Section descriptors.
Context `{Base64UrlLaws}.

Lemma encode_descriptor_ok a e n text :
  encode_event_descriptor_identity a e n = Ok text <->
  validate_api_id a = Ok tt /\ validate_logical_name e = Ok tt /\ (n <= u32_max)%N /\
  text = "v1." +:+ subject_token a +:+ "." +:+ subject_token e +:+ "." +:+ decimal n.
Proof.
  unfold encode_event_descriptor_identity.
  destruct (validate_api_id a) as [[]|], (validate_logical_name e) as [[]|];
    try naive_solver.
  destruct (N.ltb_spec u32_max n); naive_solver lia.
Qed.

(** The wire text of an event descriptor identity and the identity determine each
    other: decoding accepts exactly the text encoding produces, and yields the API
    identifier, event name and parameter count that were encoded.  The event name is
    UTF-8, as every Rust string is. *)
Theorem descriptor_identity_roundtrip id text :
  is_utf8 (event_name id) = true ->
  decode_event_descriptor_identity text = Ok id <->
  encode_event_descriptor_identity (api_id id) (event_name id) (parameter_count id) = Ok text.
Proof.
  intros Hutf. split.
  - unfold decode_event_descriptor_identity. intros Hd.
    destruct (split "." text) as [|version [|a [|e [|n rest]]]]; try (by case_match); [done|].
    destruct (negb _); [done|]. destruct (_ || _); [done|].
    apply let_ok in Hd as (a' & _ & Hd). apply let_ok in Hd as (e' & _ & Hd).
    apply let_ok in Hd as (n' & _ & Hd). destruct (negb _); [done|].
    apply let_ok in Hd as (text' & Henc & Hd).
    destruct (String.eqb_spec text' text) as [->|]; [|done]. by injection Hd as <-.
  - intros Henc. pose proof Henc as (Ha & He & Hn & Ht)%encode_descriptor_ok.
    destruct id as [a e n]. cbn [api_id event_name parameter_count] in *.
    assert (is_utf8 a = true) as Hutfa.
    { apply graphic_is_utf8. by apply api_id_graphic, validate_api_id_ok. }
    unfold decode_event_descriptor_identity. rewrite Ht, split_descriptor, <- Ht.
    change (negb (String.eqb "v1" "v1")) with false. cbv iota.
    rewrite bool_decide_eq_true_2 by done.
    pose proof (decimal_nonempty n). destruct (String.eqb_spec (decimal n) ""); [done|].
    cbn [negb orb]. rewrite !decode_subject_token, parse_decimal by done. cbn [ok_or].
    rewrite String.eqb_refl. cbn [negb]. by rewrite Henc, String.eqb_refl.
Qed.
End descriptors.

(** ** Patterns

    What a pattern with [*] wildcards matches: token by token, a wildcard matches any
    token and any other token only itself.  A concrete subject has no wildcard token. *)
Definition token_matches (pattern token : string) : Prop := pattern = "*" \/ pattern = token.

Definition star_matches (pattern subject : string) : Prop :=
  Forall2 token_matches (split "." pattern) (split "." subject).

Definition concrete (subject : string) : Prop := Forall (fun t => t <> "*") (split "." subject).

(** A token both patterns match at one position. *)
Definition common_token (l r : string) : string :=
  if String.eqb l "*" then if String.eqb r "*" then "x" else r else l.

Lemma tokens_overlap_common ls rs :
  List.length ls = List.length rs -> tokens_overlap ls rs = true ->
  Forall2 token_matches ls (zip_with common_token ls rs) /\
  Forall2 token_matches rs (zip_with common_token ls rs) /\
  Forall (fun t => t <> "*") (zip_with common_token ls rs).
Proof.
  revert rs. induction ls as [|l ls IH]; intros [|r rs]; try done; simpl.
  intros [= Hlen] [Hlr Ho]%andb_true_iff. destruct (IH rs Hlen Ho) as (H1 & H2 & H3).
  unfold common_token. rewrite !orb_true_iff, !String.eqb_eq in Hlr.
  destruct (String.eqb_spec l "*") as [->|Hl]; [destruct (String.eqb_spec r "*") as [->|Hr]|];
    (split_and!; (constructor; [|done])); unfold token_matches; naive_solver.
Qed.

Lemma common_token_no_dot ls rs :
  Forall (fun t => contains_char "." t = false) ls ->
  Forall (fun t => contains_char "." t = false) rs ->
  Forall (fun t => contains_char "." t = false) (zip_with common_token ls rs).
Proof.
  intros Hl. revert rs. induction Hl as [|l ls Hdot _ IH]; intros rs Hr; [constructor|].
  destruct Hr as [|r rs Hdot' Hr]; [constructor|]. constructor; [|by apply IH].
  unfold common_token. by repeat case_match.
Qed.

Lemma common_tokens_overlap ls rs ts :
  Forall2 token_matches ls ts -> Forall2 token_matches rs ts ->
  List.length ls = List.length rs /\ tokens_overlap ls rs = true.
Proof.
  intros Hl. revert rs. induction Hl as [|l t ls ts Hlt _ IH]; intros rs Hr;
    inversion Hr as [|r t' rs' ts' Hrt Hrest]; subst; [done|].
  destruct (IH _ Hrest) as [Hlen Ho]. split; [simpl; congruence|]. simpl. rewrite Ho, andb_true_r.
  rewrite !orb_true_iff, !String.eqb_eq. unfold token_matches in *. naive_solver.
Qed.

(** Two event patterns overlap, by the code's test, exactly when some concrete
    subject is matched by both. *)
Theorem overlap_means_common_subject left right :
  event_patterns_overlap left right = true <->
  exists subject, concrete subject /\ star_matches left subject /\ star_matches right subject.
Proof.
  unfold event_patterns_overlap, star_matches, concrete, len.
  rewrite andb_true_iff, N.eqb_eq. split.
  - intros [Hlen Ho]. apply Nat2N.inj in Hlen.
    destruct (tokens_overlap_common _ _ Hlen Ho) as (Hl & Hr & Hc).
    pose proof (split_nonempty "." left) as Hne.
    exists (join "." (zip_with common_token (split "." left) (split "." right))).
    rewrite split_join; [done|by destruct (split "." left), (split "." right)|].
    apply common_token_no_dot; apply split_no_sep.
  - intros (subject & _ & Hl & Hr). by destruct (common_tokens_overlap _ _ _ Hl Hr) as [-> ->].
Qed.

(** ** Event subjects *)

Lemma split_push_wildcards n base :
  split "." (push_wildcards n base) = (split "." base ++ replicate n "*")%list.
Proof.
  revert base. induction n as [|n IH]; intros base; simpl; [by rewrite app_nil_r|].
  rewrite IH. change (base +:+ ".*") with (base +:+ String "." "*").
  rewrite split_sep, <- app_assoc. done.
Qed.

(** Literal tokens followed by wildcards match themselves and as many tokens. *)
Lemma literals_then_wildcards bs n ts :
  Forall (fun t => t <> "*") bs ->
  Forall2 token_matches (bs ++ replicate n "*") ts <->
  exists ps, ts = (bs ++ ps)%list /\ List.length ps = n.
Proof.
  intros Hbs. revert ts. induction Hbs as [|b bs Hb _ IH]; intros ts; simpl.
  - split.
    + intros Hm. exists ts. split; [done|]. apply Forall2_length in Hm.
      by rewrite length_replicate in Hm.
    + intros (ps & -> & Hlen). subst n. induction ps; simpl; constructor; [by left|done].
  - split.
    + intros Hm. inversion Hm as [|? t ? ts' Hbt Hrest]; subst. apply IH in Hrest as (ps & -> & Hn).
      destruct Hbt as [->| ->]; [done|]. eauto.
    + intros (ps & -> & Hn). constructor; [by right|]. apply IH. eauto.
Qed.

Lemma split_suffix base subject ps :
  split "." subject = (split "." base ++ ps)%list <->
  (ps = [] /\ subject = base) \/ exists suffix, subject = base +:+ String "." suffix /\ split "." suffix = ps.
Proof.
  split.
  - intros Hs. destruct ps as [|p ps].
    { left. split; [done|]. apply (split_inj "."). by rewrite Hs, app_nil_r. }
    right. exists (join "." (p :: ps)).
    assert (split "." (join "." (p :: ps)) = p :: ps) as Hj.
    { apply split_join; [done|]. pose proof (split_no_sep "." subject) as Hno.
      rewrite Hs in Hno. by apply Forall_app in Hno as [_ ?]. }
    split; [|done]. apply (split_inj "."). by rewrite split_sep, Hj.
  - intros [[-> ->]|(suffix & -> & <-)]; [by rewrite app_nil_r|apply split_sep].
Qed.

Section event_subjects.
Context `{Base64UrlLaws}.

Lemma event_subject_tokens a action base :
  derive_event_subject a action = Ok base ->
  Forall (fun t => t <> "*") (split "." base).
Proof.
  unfold derive_event_subject. destruct (validate_api_id a) as [[]|]; [|done].
  destruct (validate_logical_name action) as [[]|] eqn:Hname; [|done]. intros Heq.
  assert (base = "events" +:+ String "." ("v1" +:+ String "."
            (subject_token a +:+ "." +:+ action))) as ->
    by (by injection Heq).
  apply validate_logical_name_ok in Hname as [_ Htok]. rewrite !split_append by done. rewrite split_subject_token.
  do 2 (constructor; [done|]). constructor.
  - intros Ht. pose proof (subject_token_excludes "*" a eq_refl) as Hx. by rewrite Ht in Hx.
  - apply Forall_forall. intros t Ht Hstar. rewrite forallb_forall in Htok.
    apply list_elem_of_In in Ht. apply Htok in Ht. by rewrite Hstar in Ht.
Qed.

(** What the validator accepts: the base followed by the declared number of tokens. *)
Lemma validate_event_subject_ok id base subject :
  derive_event_subject (api_id id) (event_name id) = Ok base ->
  validate_event_descriptor_subject id subject = Ok tt <->
  exists ps, split "." subject = (split "." base ++ ps)%list /\
             len ps = parameter_count id /\ Forall (fun t => t <> "") ps.
Proof.
  intros Hb. unfold validate_event_descriptor_subject. rewrite Hb.
  setoid_rewrite split_suffix. split.
  - intros Hv. apply let_ok in Hv as (suffix & Hsuf & Hv).
    rewrite ok_or_ok, strip_prefix_Some in Hsuf. subst subject.
    apply let_ok in Hv as (n & Hn & Hv).
    destruct (N.eqb_spec n (parameter_count id)) as [Hcount|]; [|done].
    destruct (String.eqb suffix "") eqn:Hempty.
    + apply String.eqb_eq in Hempty as ->. injection Hn as <-. exists [].
      rewrite append_nil_r. split_and!; [by left|done|done].
    + apply let_ok in Hn as (rest & Hrest & Hn).
      rewrite ok_or_ok, strip_prefix_Some in Hrest. subst suffix.
      destruct (existsb _ _) eqn:Hex; [done|]. injection Hn as <-. exists (split "." rest).
      split_and!; [right; eauto|done|]. apply Forall_forall. intros t Ht ->.
      apply list_elem_of_In in Ht. rewrite <- not_true_iff_false, existsb_exists in Hex.
      apply Hex. by exists "".
  - intros (ps & [[-> ->]|(rest & -> & <-)] & Hlen & Hne).
    + rewrite <- (append_nil_r base) at 2. rewrite strip_prefix_append. simpl.
      by rewrite <- Hlen.
    + rewrite strip_prefix_append. simpl. destruct (existsb _ _) eqn:Hex.
      { apply existsb_exists in Hex as (t & Ht & ->%String.eqb_eq).
        apply list_elem_of_In in Ht. rewrite Forall_forall in Hne. by apply Hne in Ht. }
      by rewrite Hlen, N.eqb_refl.
Qed.

(** For a subject of non-empty tokens, the descriptor check accepts exactly the
    subjects that the event's wildcard subscription receives. *)
Theorem descriptor_subject_is_wildcard_match id pattern subject :
  derive_event_wildcard_subject (api_id id) (event_name id) (parameter_count id)
    = Ok pattern ->
  Forall (fun t => t <> "") (split "." subject) ->
  validate_event_descriptor_subject id subject = Ok tt <-> star_matches pattern subject.
Proof.
  intros Hw Hne. unfold derive_event_wildcard_subject in Hw.
  apply let_ok in Hw as (base & Hb & [= <-]). unfold star_matches.
  rewrite (validate_event_subject_ok id base), split_push_wildcards by done.
  rewrite literals_then_wildcards by (by eapply event_subject_tokens). unfold len.
  split; intros (ps & Heq & Hps); exists ps; (split; [done|]).
  - destruct Hps as [<- _]. lia.
  - split; [lia|]. rewrite Heq in Hne. by apply Forall_app in Hne as [_ ?].
Qed.
End event_subjects.

(** ** Bound subjects *)

Inductive bound_family := BoundRpc | BoundOperation | BoundLive.

Section bound_subjects.
Context `{Base64UrlLaws}.

Definition derive_bound (f : bound_family) : string -> string -> string -> result string ProtocolError :=
  match f with
  | BoundRpc => derive_bound_rpc_subject
  | BoundOperation => derive_bound_operation_subject
  | BoundLive => derive_bound_live_subject
  end.

Definition family_tokens (f : bound_family) : list string :=
  match f with
  | BoundRpc => ["rpc"; "v1"]
  | BoundOperation => ["operation"; "v1"]
  | BoundLive => ["live"; "v1"; "route"]
  end.

Lemma base64url_graphic c : is_base64url c = true -> graphic c = true.
Proof. by destruct c as [[] [] [] [] [] [] [] []]. Qed.

Lemma subject_token_literal value : value <> "" -> nats_token (subject_token value) = true.
Proof.
  intros Hne%subject_token_nonempty. unfold nats_token.
  rewrite !subject_token_excludes, graphic_no_whitespace; [|eapply all_chars_impl|done..];
    [|apply base64url_graphic|apply b64_alphabet].
  by destruct (String.eqb_spec (subject_token value) "").
Qed.

Lemma derive_bound_tokens f a p n s :
  derive_bound f a p n = Ok s ->
  a <> "" /\ p <> "" /\ forallb nats_token (split "." n) = true /\
  split "." s = (family_tokens f ++ subject_token a :: subject_token p :: split "." n)%list.
Proof.
  assert (forall k s' : string, (let? _ := validate_api_id a in
            let? _ := validate_logical_name n in
            if String.eqb p "" then
              Err (InvalidIdentifier "provider deployment id" "must not be empty")
            else Ok s') = Ok k ->
          (a <> "" /\ p <> "" /\ forallb nats_token (split "." n) = true) /\ s' = k) as Hguard.
  { intros k s'. destruct (validate_api_id a) as [[]|] eqn:Ha; [|done].
    destruct (validate_logical_name n) as [[]|] eqn:Hn; [|done].
    destruct (String.eqb_spec p ""); [done|]. intros [= ->].
    apply validate_api_id_ok, api_id_graphic in Ha as [? _].
    by apply validate_logical_name_ok in Hn as [_ ?]. }
  set (tail := subject_token a +:+ "." +:+ subject_token p +:+ "." +:+ n).
  assert (split "." tail = subject_token a :: subject_token p :: split "." n) as Htail
    by (unfold tail; by rewrite !split_subject_token).
  destruct f; intros [(? & ? & ?) <-]%Hguard; (split_and!; [done..|]); rewrite <- Htail.
  - trans (split "." ("rpc" +:+ String "." ("v1" +:+ String "." tail))); [done|].
    by rewrite !split_append.
  - trans (split "." ("operation" +:+ String "." ("v1" +:+ String "." tail))); [done|].
    by rewrite !split_append.
  - trans (split "." ("live" +:+ String "." ("v1" +:+ String "." ("route" +:+ String "." tail))));
      [done|].
    by rewrite !split_append.
Qed.

(** A deployment-bound subject determines the route it was derived for (the
    family, the API, the providing deployment and the action), so no two routes share a
    subject; and it is literal: no API, deployment or action name can bring in a wildcard
    or an empty token. *)
Theorem bound_subject_identifies_route f a p n f' a' p' n' s :
  derive_bound f a p n = Ok s -> derive_bound f' a' p' n' = Ok s ->
  (f = f' /\ a = a' /\ p = p' /\ n = n') /\ forallb nats_token (split "." s) = true.
Proof.
  intros (Ha & Hp & Hn & Hs)%derive_bound_tokens (_ & _ & _ & Hs')%derive_bound_tokens. split.
  - rewrite Hs in Hs'. destruct f, f'; try done; simpl in Hs';
      (injection Hs' as ?%subject_token_inj ?%subject_token_inj ?%split_inj; by subst).
  - rewrite Hs, forallb_app. simpl. rewrite !subject_token_literal, Hn by done.
    by destruct f.
Qed.
End bound_subjects.

(** ** Evaluated examples *)

Local Existing Instances rfc4648 rfc4648_laws.

Definition sample_identity : EventDescriptorIdentity :=
  mkEventDescriptorIdentity "trellis.jobs@v1" "job.completed" 2.

Lemma descriptor_identity_roundtrip_witness :
  decode_event_descriptor_identity "v1.dHJlbGxpcy5qb2JzQHYx.am9iLmNvbXBsZXRlZA.2"
    = Ok sample_identity.
Proof. by apply (descriptor_identity_roundtrip sample_identity); vm_compute. Defined.

Lemma descriptor_subject_is_wildcard_match_witness :
  validate_event_descriptor_subject sample_identity
    "events.v1.dHJlbGxpcy5qb2JzQHYx.job.completed.a.b" = Ok tt.
Proof.
  apply (descriptor_subject_is_wildcard_match sample_identity
           "events.v1.dHJlbGxpcy5qb2JzQHYx.job.completed.*.*"); [by vm_compute|by vm_compute; repeat constructor|].
  vm_compute. repeat (constructor; [by (left + right)|]). constructor.
Defined.

Lemma bound_subject_identifies_route_witness :
  derive_bound BoundRpc "trellis.jobs@v1" "deployment.7" "job.get"
    = Ok "rpc.v1.dHJlbGxpcy5qb2JzQHYx.ZGVwbG95bWVudC43.job.get" /\
  forallb nats_token (split "." "rpc.v1.dHJlbGxpcy5qb2JzQHYx.ZGVwbG95bWVudC43.job.get") = true.
Proof.
  split; [by vm_compute|].
  refine (proj2 (bound_subject_identifies_route BoundRpc "trellis.jobs@v1" "deployment.7" "job.get"
            BoundRpc "trellis.jobs@v1" "deployment.7" "job.get" _ _ _)); by vm_compute.
Defined.
