(* ===== verification/TransportPolicy.v ===== *)
(** * Transport policies

    [crates/protocol/src/transport_authorization.rs]: the allow-only NATS policy bound
    into an authorization context, and how a policy that was admitted compares with the
    one that is currently allowed. *)

From Stdlib Require Import Ascii String.
From S2P Require Import Prelude RustStr Protocol Authorization.

Local Open Scope string_scope.

(** ** Subject patterns *)

Inductive Token :=
| Literal (literal : string)
| Star
| Greater.

Global Instance Token_eq_dec : EqDecision Token.
Proof. solve_decision. Defined.

(** [chars().any(|c| c.is_whitespace() || c.is_ascii_control())] *)
Definition unsafe_character (token : string) : bool :=
  has_whitespace token || any_char is_ascii_control token.

(** The loop of [parse_pattern]; a token is the last one when no other follows. *)
Fixpoint parse_tokens (raw : list string) : result (list Token) string :=
  match raw with
  | [] => Ok []
  | token :: rest =>
      if String.eqb token "" then Err "subject pattern contains an empty token"
      else if String.eqb token ">" then
        if negb (bool_decide (rest = [])) then
          Err "terminal wildcard must be the last subject token"
        else let? tokens := parse_tokens rest in Ok (Greater :: tokens)
      else if String.eqb token "*" then
        let? tokens := parse_tokens rest in Ok (Star :: tokens)
      else if contains_char "*" token || contains_char ">" token || unsafe_character token then
        Err "subject token contains a wildcard or unsafe character"
      else let? tokens := parse_tokens rest in Ok (Literal token :: tokens)
  end.

Definition parse_pattern (pattern : string) : result (list Token) string :=
  if String.eqb pattern "" then Err "subject pattern must be nonempty"
  else parse_tokens (split "." pattern).

Definition WITNESS_TOKEN_BASE : string := "trellis-other-witness".

(** The loop of [unique_witness_token]. *)
Fixpoint unique_witness_from (fuel : nat) (literals : list string) (witness : string) : string :=
  match fuel with
  | O => witness
  | S fuel =>
      if bool_decide (witness ∈ literals) then
        unique_witness_from fuel literals (witness +:+ "_")
      else witness
  end.

Definition unique_witness_token (literals : list string) : string :=
  unique_witness_from (S (List.length literals)) literals WITNESS_TOKEN_BASE.

Definition witness_for (tokens : list Token) (witness : string) (length : nat) : list string :=
  (fun index => match tokens !! index with
                | Some (Literal literal) => literal
                | Some (Star | Greater) | None => witness
                end) <$> seq 0 length.

(** [witness] is what is left of the subject from [position] on. *)
Fixpoint pattern_matches (pattern : list Token) (witness : list string) : bool :=
  match pattern with
  | [] => bool_decide (witness = [])
  | Literal literal :: pattern =>
      match witness with
      | token :: witness => String.eqb token literal && pattern_matches pattern witness
      | [] => false
      end
  | Star :: pattern =>
      match witness with
      | _ :: witness => pattern_matches pattern witness
      | [] => false
      end
  | Greater :: _ => negb (bool_decide (witness = []))
  end.

Definition pattern_covered_by_union (source : list Token) (destination : list (list Token))
    (witness : string) (maximum_length : nat) : bool :=
  match last source with
  | Some Greater =>
      let prefix_length := (List.length source - 1)%nat in
      forallb (fun length =>
                 let candidate := witness_for source witness length in
                 existsb (fun pattern => pattern_matches pattern candidate) destination)
        (seq (prefix_length + 1) (maximum_length + 1 - prefix_length))
  | _ =>
      let candidate := witness_for source witness (List.length source) in
      existsb (fun pattern => pattern_matches pattern candidate) destination
  end.

Definition pattern_error (reason : string) : ProtocolError :=
  authorization_error AuthInvalidFormat ["subjectPattern"] reason.

(** [iter().map(parse_pattern).collect::<Result<Vec<_>, _>>()] *)
Fixpoint parse_patterns (patterns : list string) : result (list (list Token)) string :=
  match patterns with
  | [] => Ok []
  | pattern :: patterns =>
      let? tokens := parse_pattern pattern in
      let? rest := parse_patterns patterns in
      Ok (tokens :: rest)
  end.

(** The loop over [source] of [subject_union_covered_by]. *)
Fixpoint all_patterns_covered (source : list string) (destination : list (list Token))
    (witness : string) (maximum_length : nat) : result bool ProtocolError :=
  match source with
  | [] => Ok true
  | pattern :: source =>
      let? tokens := map_err pattern_error (parse_pattern pattern) in
      if negb (pattern_covered_by_union tokens destination witness maximum_length) then Ok false
      else all_patterns_covered source destination witness maximum_length
  end.

Definition subject_union_covered_by (source destination : list string) :
    result bool ProtocolError :=
  let? destination_patterns := map_err pattern_error (parse_patterns destination) in
  let literals :=
    filter (fun token => token <> "*" /\ token <> ">")
      (mjoin (split "." <$> (source ++ destination)%list)) in
  let witness := unique_witness_token literals in
  let maximum_length :=
    max_list ((fun pattern => List.length (split "." pattern)) <$> (source ++ destination)%list) in
  all_patterns_covered source destination_patterns witness maximum_length.

(** ** Policies *)

Record TransportResponseAuthorizationV1 := mkTransportResponse {
  max_messages : N;
  ttl_ms : N;
}.

Record TransportAuthorizationV1 := mkTransportAuthorization {
  format : string;
  account : string;
  publish_allow : list string;
  subscribe_allow : list string;
  response : option TransportResponseAuthorizationV1;
  hard_expires_at : option Z;
}.

Global Instance TransportResponse_eq_dec : EqDecision TransportResponseAuthorizationV1.
Proof. solve_decision. Defined.

Global Instance TransportAuthorization_eq_dec : EqDecision TransportAuthorizationV1.
Proof. solve_decision. Defined.

Inductive TransportPolicyClass :=
| Current
| UpgradeAvailable
| ReductionRequired.

Definition TRANSPORT_AUTHORIZATION_FORMAT_V1 : string := "trellis.transport-authorization.v1".

Definition MAXIMUM_SAFE_JSON_INTEGER : N := 9007199254740991.

Fixpoint validate_patterns (patterns : list string) (field : string) (index : N) :
    result unit ProtocolError :=
  match patterns with
  | [] => Ok tt
  | pattern :: patterns =>
      match parse_pattern pattern with
      | Err reason => Err (authorization_error AuthInvalidFormat [field; decimal index] reason)
      | Ok _ => validate_patterns patterns field (index + 1)
      end
  end.

Definition validate_subject_pattern_set (patterns : list string) (field : string) :
    result unit ProtocolError :=
  let? _ := validate_patterns patterns field 0 in
  if negb (is_utf16_strictly_sorted patterns) then
    Err (authorization_error AuthNonCanonicalSet [field]
           "subject patterns must be sorted and unique")
  else Ok tt.

Definition validate_response (r : TransportResponseAuthorizationV1) : result unit ProtocolError :=
  let unsafe := "integer must be within the interoperable JSON safe-integer range" in
  if (max_messages r =? 0)%N then
    Err (authorization_error AuthInvalidFormat ["response"; "maxMessages"]
           "response message count must be positive")
  else if (MAXIMUM_SAFE_JSON_INTEGER <? max_messages r)%N then
    Err (authorization_error AuthUnsafeJsonInteger ["response"; "maxMessages"] unsafe)
  else if (ttl_ms r =? 0)%N then
    Err (authorization_error AuthInvalidFormat ["response"; "ttlMs"]
           "response expiry must be positive")
  else if (MAXIMUM_SAFE_JSON_INTEGER <? ttl_ms r)%N then
    Err (authorization_error AuthUnsafeJsonInteger ["response"; "ttlMs"] unsafe)
  else Ok tt.

(** [TransportAuthorizationV1::validate] *)
Definition validate (p : TransportAuthorizationV1) : result unit ProtocolError :=
  if negb (String.eqb (format p) TRANSPORT_AUTHORIZATION_FORMAT_V1) then
    Err (authorization_error AuthInvalidFormat ["format"]
           "unsupported transport-authorization format")
  else
    let? _ := validate_text (account p) ["account"] in
    let? _ := validate_subject_pattern_set (publish_allow p) "publishAllow" in
    let? _ := validate_subject_pattern_set (subscribe_allow p) "subscribeAllow" in
    let? _ := match response p with Some r => validate_response r | None => Ok tt end in
    match hard_expires_at p with
    | Some deadline =>
        if negb ((1 <=? deadline) && (deadline <=? Z.of_N MAXIMUM_SAFE_JSON_INTEGER))%Z then
          Err (authorization_error AuthUnsafeJsonInteger ["hardExpiresAt"]
                 "hard deadline must be a positive interoperable JSON integer")
        else Ok tt
    | None => Ok tt
    end.

Definition response_covered (admitted allowed : option TransportResponseAuthorizationV1) : bool :=
  match admitted with
  | None => true
  | Some admitted =>
      match allowed with
      | None => false
      | Some allowed =>
          ((max_messages admitted <=? max_messages allowed)
           && (ttl_ms admitted <=? ttl_ms allowed))%N
      end
  end.

Definition i64_max : Z := 9223372036854775807.

Definition deadline_covered (admitted allowed : option Z) : bool :=
  (default i64_max admitted <=? default i64_max allowed)%Z.

(** [TransportAuthorizationV1::is_covered_by] *)
Definition is_covered_by (self allowed : TransportAuthorizationV1) : result bool ProtocolError :=
  let? _ := validate self in
  let? _ := validate allowed in
  if negb (String.eqb (account self) (account allowed)) then Ok false
  else
    let? published := subject_union_covered_by (publish_allow self) (publish_allow allowed) in
    if negb published then Ok false
    else
      let? subscribed :=
        subject_union_covered_by (subscribe_allow self) (subscribe_allow allowed) in
      if negb subscribed then Ok false
      else if negb (response_covered (response self) (response allowed)) then Ok false
      else if negb (deadline_covered (hard_expires_at self) (hard_expires_at allowed)) then
        Ok false
      else Ok true.

(** [TransportAuthorizationV1::classify] *)
Definition classify (self allowed : TransportAuthorizationV1) (now_unix_seconds : Z) :
    result TransportPolicyClass ProtocolError :=
  let identical := bool_decide (self = allowed) in
  let? _ := if identical then validate self else Ok tt in
  let elapsed :=
    match hard_expires_at self with
    | Some deadline => (deadline <=? now_unix_seconds)%Z
    | None => false
    end in
  if elapsed then Ok ReductionRequired
  else if identical then Ok Current
  else
    let? covered := is_covered_by self allowed in
    if negb covered then Ok ReductionRequired
    else
      let? covers := is_covered_by allowed self in
      if covers then Ok Current else Ok UpgradeAvailable.

(** ** What patterns permit

    NATS subscription semantics: a literal token matches itself, [*] any one token and a
    final [>] one or more. *)
Inductive permits : list Token -> list string -> Prop :=
| permits_nil : permits [] []
| permits_literal t p s : permits p s -> permits (Literal t :: p) (t :: s)
| permits_star t p s : permits p s -> permits (Star :: p) (t :: s)
| permits_greater t s : permits [Greater] (t :: s).

(** [>] only at the end. *)
Fixpoint greater_last (p : list Token) : Prop :=
  match p with
  | [] => True
  | Greater :: p => p = []
  | _ :: p => greater_last p
  end.

Lemma pattern_matches_permits p s :
  greater_last p -> pattern_matches p s = true <-> permits p s.
Proof.
  revert s. induction p as [|[t| |] p IH]; intros s; simpl.
  - intros _. rewrite bool_decide_eq_true. split; [intros ->; constructor|by inversion 1].
  - intros Hp. destruct s as [|t' s]; [split; [done|by inversion 1]|].
    rewrite andb_true_iff, String.eqb_eq, IH by done.
    split; [intros [-> ?]; by constructor|by inversion 1].
  - intros Hp. destruct s as [|t' s]; [split; [done|by inversion 1]|].
    rewrite IH by done. split; [by constructor|by inversion 1].
  - intros ->. rewrite negb_true_iff, bool_decide_eq_false.
    destruct s; split; try done; [by inversion 1|constructor].
Qed.

Lemma parse_tokens_shape raw tokens :
  parse_tokens raw = Ok tokens ->
  greater_last tokens /\ List.length tokens = List.length raw /\
  (forall t, Literal t ∈ tokens -> t ∈ raw /\ t <> "*" /\ t <> ">").
Proof.
  revert tokens. induction raw as [|token raw IH]; intros tokens; simpl.
  { intros [= <-]. split_and!; [done..|]. set_solver. }
  destruct (String.eqb token ""); [done|].
  destruct (String.eqb_spec token ">") as [->|Hg].
  { rewrite bool_decide_decide. destruct (decide (raw = [])) as [->|]; [|done].
    simpl. intros [= <-]. split_and!; [done..|]. set_solver. }
  destruct (String.eqb_spec token "*") as [->|Hs].
  { rewrite let_ok. intros (ts & Hts & [= <-]). destruct (IH ts Hts) as (? & ? & Hl).
    split_and!; [done|simpl; congruence|]. set_solver. }
  destruct (_ || _); [done|]. rewrite let_ok. intros (ts & Hts & [= <-]).
  destruct (IH ts Hts) as (? & ? & Hl). split_and!; [done|simpl; congruence|]. set_solver.
Qed.

Lemma parse_pattern_shape pattern tokens :
  parse_pattern pattern = Ok tokens ->
  greater_last tokens /\ List.length tokens = List.length (split "." pattern) /\
  (forall t, Literal t ∈ tokens -> t ∈ split "." pattern /\ t <> "*" /\ t <> ">").
Proof.
  unfold parse_pattern. destruct (String.eqb pattern ""); [done|]. apply parse_tokens_shape.
Qed.

(** ** The fresh token *)

Lemma unique_witness_fresh fuel literals w :
  (List.length (filter (fun t => String.length w <= String.length t)%nat literals) < fuel)%nat ->
  unique_witness_from fuel literals w ∉ literals.
Proof.
  revert w. induction fuel as [|fuel IH]; intros w Hf; [lia|]. simpl.
  case_bool_decide as Hin; [|done]. apply IH.
  enough (List.length (filter (fun t => String.length (w +:+ "_") <= String.length t)%nat literals)
          < List.length (filter (fun t => String.length w <= String.length t)%nat literals))%nat
    by lia.
  clear -Hin. rewrite length_append, Nat.add_comm. simpl.
  induction literals as [|t l IH]; [set_solver|].
  apply elem_of_cons in Hin as [<-|Hin].
  - rewrite !filter_cons. rewrite decide_False by lia. rewrite decide_True by lia. simpl.
    apply Nat.lt_succ_r. clear IH. induction l as [|t l IH]; [done|].
    rewrite !filter_cons. repeat case_decide; simpl; lia.
  - specialize (IH Hin). rewrite !filter_cons. repeat case_decide; simpl; lia.
Qed.

Lemma unique_witness_token_fresh literals : unique_witness_token literals ∉ literals.
Proof.
  apply unique_witness_fresh. apply Nat.lt_succ_r. apply length_filter.
Qed.

(** ** Coverage is decided by candidates made of the fresh token *)

Definition fill (w : string) (t : Token) : string :=
  match t with Literal literal => literal | _ => w end.

Lemma witness_for_fill p w n :
  (List.length p <= n)%nat ->
  witness_for p w n = ((fill w <$> p) ++ replicate (n - List.length p) w)%list.
Proof.
  revert n. induction p as [|t p IH]; intros n Hn.
  - simpl. rewrite Nat.sub_0_r. clear. unfold witness_for. generalize 0%nat.
    induction n as [|n IH]; intros k; simpl; [done|]. by rewrite IH.
  - destruct n as [|n]; simpl in Hn; [lia|].
    trans (fill w t :: witness_for p w n); [|by rewrite IH by lia].
    unfold witness_for. cbn [seq fmap list_fmap].
    rewrite <- fmap_S_seq, <- list_fmap_compose. by destruct t.
Qed.

(** A pattern that matches the candidate matches everything the candidate stands for:
    at a wildcard of the source it cannot have a literal. *)
Lemma permits_generalise w p q s :
  Literal w ∉ q -> Greater ∉ p ->
  permits p s -> permits q (fill w <$> p) -> permits q s.
Proof.
  intros Hw Hg Hp. revert q Hw.
  induction Hp as [|t p s _ IH|t p s _ IH|]; intros q Hw Hq; [done| | |set_solver];
    simpl in Hq; (inversion Hq as [|? q' ? Hq'|? q' ? Hq'|]; subst;
                  [|constructor; apply IH; [set_solver..|done]|constructor]).
  - constructor. apply IH; [set_solver..|done].
  - set_solver.
Qed.

(** A pattern shorter than a subject it matches ends in [>], and matches every longer
    subject. *)
Lemma permits_extend q s extra :
  permits q s -> (List.length q < List.length s)%nat -> permits q (s ++ extra).
Proof.
  induction 1; simpl; intros Hlen; [lia|constructor; apply IHpermits; lia..|constructor].
Qed.

(** [p] with its final [>] replaced by [k] single wildcards. *)
Definition widen (p : list Token) (k : nat) : list Token := (p ++ replicate k Star)%list.

Lemma permits_widen p s :
  Greater ∉ p -> permits (p ++ [Greater]) s ->
  (List.length p < List.length s)%nat /\ permits (widen p (List.length s - List.length p)) s.
Proof.
  intros Hg. revert s. induction p as [|t p IH]; intros s Hs; simpl in *.
  - inversion Hs as [| | |t s']; subst. split; [simpl; lia|]. simpl. clear.
    constructor. induction s'; simpl; constructor; done.
  - inversion Hs as [|t' ? s' Hs'|t' ? s' Hs'|]; subst;
      try (destruct (IH ltac:(set_solver) _ Hs') as [? ?]; split; [simpl; lia|];
           by constructor).
    by destruct p.
Qed.

Lemma fill_widen w p k : fill w <$> widen p k = ((fill w <$> p) ++ replicate k w)%list.
Proof. unfold widen. by rewrite fmap_app, fmap_replicate. Qed.

Lemma candidate_of_greater w p n :
  (List.length p < n)%nat ->
  witness_for (p ++ [Greater]) w n = fill w <$> widen p (n - List.length p).
Proof.
  intros Hn. rewrite witness_for_fill, fill_widen, fmap_app, <- app_assoc
    by (rewrite length_app; simpl; lia). f_equal. simpl.
  rewrite length_app. simpl.
  by replace (n - List.length p)%nat with (S (n - (List.length p + 1)))%nat by lia.
Qed.

(** The candidate is itself permitted by the pattern it is made of. *)
Lemma permits_fill w p : Greater ∉ p -> permits p (fill w <$> p).
Proof.
  induction p as [|[t| |] p IH]; intros Hg; simpl; [constructor|constructor; apply IH; set_solver..|].
  set_solver.
Qed.

Lemma permits_greater_candidate w p k :
  Greater ∉ p -> permits (p ++ [Greater]) (fill w <$> widen p (S k)).
Proof.
  rewrite fill_widen. induction p as [|[t| |] p IH]; intros Hg; simpl;
    [constructor|constructor; apply IH; set_solver..|]. set_solver.
Qed.

(** A parsed pattern either has no [>], or is a prefix without it and a final one. *)
Lemma greater_last_cases p :
  greater_last p ->
  (Greater ∉ p /\ last p <> Some Greater) \/
  exists p0, p = (p0 ++ [Greater])%list /\ Greater ∉ p0 /\ last p = Some Greater.
Proof.
  induction p as [|t p IH]; [left; set_solver|].
  assert (t <> Greater -> greater_last p ->
    (Greater ∉ t :: p /\ last (t :: p) <> Some Greater) \/
    exists p0, t :: p = (p0 ++ [Greater])%list /\ Greater ∉ p0 /\ last (t :: p) = Some Greater) as Hstep.
  { intros Ht Hp. destruct (IH Hp) as [[Hin Hlast]|(p0 & -> & Hin & Hlast)].
    - left. split; [set_solver|]. destruct p; [simpl; congruence|done].
    - right. exists (t :: p0). split_and!; [done|set_solver|].
      change (t :: p0 ++ [Greater])%list with ((t :: p0) ++ [Greater])%list. apply last_snoc. }
  destruct t; simpl; [by apply Hstep..|]. intros ->. right. exists [].
  split_and!; [done|set_solver|done].
Qed.

Section coverage.
Context (ds : list (list Token)) (w : string) (m : nat).
Context (Hds : forall q, q ∈ ds -> greater_last q /\ Literal w ∉ q /\ (List.length q <= m)%nat).

Lemma existsb_matches s :
  existsb (fun q => pattern_matches q s) ds = true <-> exists q, q ∈ ds /\ permits q s.
Proof.
  rewrite existsb_exists. split; intros (q & Hq & Hm); exists q.
  - apply list_elem_of_In in Hq. split; [done|]. apply pattern_matches_permits; [|done]. by apply Hds.
  - split; [by apply list_elem_of_In|]. apply pattern_matches_permits; [|done]. by apply Hds.
Qed.

Lemma pattern_covered_sound p s :
  greater_last p -> (List.length p <= m)%nat ->
  pattern_covered_by_union p ds w m = true -> permits p s ->
  exists q, q ∈ ds /\ permits q s.
Proof.
  intros Hp Hm Hcov Hs. unfold pattern_covered_by_union in Hcov.
  destruct (greater_last_cases p Hp) as [[Hg Hlast]|(p0 & -> & Hg & Hlast)].
  - assert (existsb (fun q => pattern_matches q (witness_for p w (List.length p))) ds = true)
      as (q & Hq & Hm')%existsb_matches by (by destruct (last p) as [[]|]).
    exists q. split; [done|]. rewrite witness_for_fill, Nat.sub_diag, app_nil_r in Hm' by done.
    eapply permits_generalise; [by apply Hds|exact Hg|done..].
  - rewrite Hlast in Hcov. rewrite forallb_forall in Hcov.
    rewrite length_app in Hcov, Hm. simpl in Hcov, Hm. rewrite Nat.add_sub in Hcov.
    destruct (permits_widen p0 s Hg Hs) as [Hlen Hw].
    set (n := Nat.min (List.length s) (m + 1)).
    destruct (proj1 (existsb_matches (witness_for (p0 ++ [Greater]) w n))) as (q & Hq & Hm').
    { apply Hcov, in_seq. lia. }
    exists q. split; [done|]. destruct (Hds q Hq) as (_ & Hfresh & Hql).
    eapply permits_generalise; [done| |exact Hw|].
    { unfold widen. rewrite elem_of_app, elem_of_replicate. naive_solver. }
    rewrite candidate_of_greater in Hm' by lia. rewrite fill_widen in *.
    destruct (decide (List.length s <= m + 1)%nat) as [Hle|Hgt].
    { by replace (List.length s) with n by lia. }
    replace (List.length s - List.length p0)%nat
      with ((n - List.length p0) + (List.length s - n))%nat by lia.
    rewrite replicate_add, app_assoc. apply permits_extend; [done|].
    rewrite length_app, length_fmap, length_replicate. lia.
Qed.

Lemma pattern_covered_complete p :
  greater_last p ->
  pattern_covered_by_union p ds w m = false ->
  exists s, permits p s /\ (forall q, q ∈ ds -> ~ permits q s) /\
            (forall t, t ∈ s -> t = w \/ Literal t ∈ p).
Proof.
  intros Hp Hcov. unfold pattern_covered_by_union in Hcov.
  assert (forall t (p : list Token), t ∈ fill w <$> p -> t = w \/ Literal t ∈ p) as Hfill.
  { intros t p' ([l| |] & -> & ?)%list_elem_of_fmap; simpl; auto. }
  assert (forall s, existsb (fun q => pattern_matches q s) ds = false ->
            forall q, q ∈ ds -> ~ permits q s) as Hnone.
  { intros s Hs q Hq Hqs. rewrite <- not_true_iff_false, existsb_matches in Hs. eauto. }
  destruct (greater_last_cases p Hp) as [[Hg Hlast]|(p0 & -> & Hg & Hlast)].
  - exists (fill w <$> p). split_and!; [by apply permits_fill| |intros t; apply Hfill].
    apply Hnone. rewrite <- Hcov, witness_for_fill, Nat.sub_diag, app_nil_r by done.
    by destruct (last p) as [[]|].
  - rewrite Hlast in Hcov. apply forallb_false_In in Hcov as (n & [Hn _]%in_seq & Hf).
    rewrite length_app in Hn. simpl in Hn.
    rewrite candidate_of_greater in Hf by lia.
    exists (fill w <$> widen p0 (n - List.length p0)). split_and!; [|by apply Hnone|].
    + replace (n - List.length p0)%nat with (S (n - List.length p0 - 1)) by lia.
      by apply permits_greater_candidate.
    + intros t [->|Ht]%Hfill; [by left|]. right. unfold widen in Ht.
      rewrite elem_of_app, elem_of_replicate in Ht. set_solver.
Qed.
End coverage.

(** ** Subjects an allow list permits *)

Definition allow_permits (allow : list string) (subject : list string) : Prop :=
  exists pattern tokens, pattern ∈ allow /\ parse_pattern pattern = Ok tokens /\
                         permits tokens subject.

Definition well_formed (allow : list string) : Prop :=
  Forall (fun pattern => is_ok (parse_pattern pattern) = true) allow.

(** A token of a concrete subject. *)
Definition publishable (token : string) : Prop := parse_tokens [token] = Ok [Literal token].

Lemma parsed_literal_publishable raw tokens t :
  parse_tokens raw = Ok tokens -> Literal t ∈ tokens -> publishable t.
Proof.
  revert tokens. induction raw as [|token raw IH]; intros tokens; simpl; [intros [= <-]; set_solver|].
  destruct (String.eqb token "") eqn:H1; [done|].
  destruct (String.eqb token ">") eqn:H2.
  { case_match; [done|]. rewrite let_ok. intros (ts & Hts & [= <-]) Hin. set_solver. }
  destruct (String.eqb token "*") eqn:H3.
  { rewrite let_ok. intros (ts & Hts & [= <-]) Hin. set_solver. }
  destruct (_ || _) eqn:H4; [done|]. rewrite let_ok. intros (ts & Hts & [= <-]).
  rewrite elem_of_cons. intros [[= ->]|Hin]; [|by eapply IH].
  unfold publishable. simpl. by rewrite H1, H2, H3, H4.
Qed.

Definition plain (c : ascii) : bool := graphic c && negb (c =? "*")%char && negb (c =? ">")%char.

Lemma plain_publishable t : t <> "" -> all_chars plain t = true -> publishable t.
Proof.
  intros Hne Ht. unfold publishable. cbn [parse_tokens]. unfold unsafe_character.
  assert (all_chars graphic t = true) as Hg.
  { revert Ht. apply all_chars_impl. intros c. unfold plain. rewrite !andb_true_iff. tauto. }
  rewrite graphic_no_whitespace, graphic_not_control by done.
  rewrite !(all_chars_excludes plain _ t) by done.
  destruct (String.eqb_spec t ""), (String.eqb_spec t ">"), (String.eqb_spec t "*"); by subst.
Qed.

Lemma witness_plain fuel literals w :
  w <> "" -> all_chars plain w = true ->
  publishable (unique_witness_from fuel literals w).
Proof.
  revert w. induction fuel as [|fuel IH]; intros w Hne Hw; simpl; [by apply plain_publishable|].
  case_bool_decide; [|by apply plain_publishable]. apply IH; [by destruct w|].
  by rewrite all_chars_append, Hw.
Qed.

Lemma parse_patterns_ok allow :
  well_formed allow ->
  exists parsed, parse_patterns allow = Ok parsed /\
                 forall tokens, tokens ∈ parsed <->
                   exists pattern, pattern ∈ allow /\ parse_pattern pattern = Ok tokens.
Proof.
  induction 1 as [|pattern allow Hp _ (parsed & IH & Hin)]; [exists []; set_solver|]. simpl.
  destruct (parse_pattern pattern) as [tokens|] eqn:Ht; [|done]. rewrite IH.
  exists (tokens :: parsed). split; [done|]. intros ts. rewrite elem_of_cons, Hin. split.
  - intros [->|(p & ? & ?)]; [exists pattern|exists p]; set_solver.
  - intros (p & [->|?]%elem_of_cons & ?); [left; congruence|right; eauto].
Qed.

(** The loop over the source patterns: true when all are covered, and otherwise the
    first that is not. *)
Lemma all_patterns_covered_ok source ds w m :
  well_formed source ->
  (all_patterns_covered source ds w m = Ok true /\
   forall pattern tokens, pattern ∈ source -> parse_pattern pattern = Ok tokens ->
     pattern_covered_by_union tokens ds w m = true) \/
  (all_patterns_covered source ds w m = Ok false /\
   exists pattern tokens, pattern ∈ source /\ parse_pattern pattern = Ok tokens /\
     pattern_covered_by_union tokens ds w m = false).
Proof.
  induction 1 as [|pattern source Hp _ IH]; [left; set_solver|]. simpl.
  destruct (parse_pattern pattern) as [tokens|] eqn:Ht; [|done]. simpl.
  destruct (pattern_covered_by_union tokens ds w m) eqn:Hc; simpl.
  - destruct IH as [[-> Hall]|[-> (p & ts & ? & ? & ?)]].
    + left. split; [done|]. intros p ts [->|?]%elem_of_cons ?; [congruence|eauto].
    + right. split; [done|]. exists p, ts. set_solver.
  - right. split; [done|]. exists pattern, tokens. set_solver.
Qed.

Lemma coverage_decides source destination :
  well_formed source -> well_formed destination ->
  (subject_union_covered_by source destination = Ok true /\
   forall s, allow_permits source s -> allow_permits destination s) \/
  (subject_union_covered_by source destination = Ok false /\
   exists s, Forall publishable s /\ allow_permits source s /\ ~ allow_permits destination s).
Proof.
  intros Hsrc Hdst. unfold subject_union_covered_by.
  destruct (parse_patterns_ok destination Hdst) as (ds & -> & Hin). simpl.
  set (literals := filter _ _). set (w := unique_witness_token literals). set (m := max_list _).
  assert (forall p, p ∈ (source ++ destination)%list -> (List.length (split "." p) <= m)%nat) as Hmax.
  { intros p Hp. apply max_list_elem_of_le, list_elem_of_fmap. eauto. }
  assert (forall q, q ∈ ds -> greater_last q /\ Literal w ∉ q /\ (List.length q <= m)%nat) as Hds.
  { intros q (pattern & Hp & Hq)%Hin. destruct (parse_pattern_shape _ _ Hq) as (? & Hlen & Hlit).
    split_and!; [done| |rewrite Hlen; apply Hmax; set_solver].
    intros (Hw & ? & ?)%Hlit. apply (unique_witness_token_fresh literals).
    apply list_elem_of_filter. split; [done|]. apply list_elem_of_join.
    exists (split "." pattern). split; [done|]. apply list_elem_of_fmap. set_solver. }
  destruct (all_patterns_covered_ok source ds w m Hsrc)
    as [[-> Hall]|[-> (pattern & tokens & Hp & Ht & Hc)]]; [left|right]; (split; [done|]).
  - intros s (pattern & tokens & Hp & Ht & Hs).
    destruct (parse_pattern_shape _ _ Ht) as (Hg & Hlen & _).
    destruct (pattern_covered_sound ds w m Hds tokens s) as (q & (p' & ? & ?)%Hin & Hq);
      [done|rewrite Hlen; apply Hmax; set_solver|by eapply Hall|done|].
    by exists p', q.
  - destruct (parse_pattern_shape _ _ Ht) as (Hg & _ & _).
    destruct (pattern_covered_complete ds w m Hds tokens Hg Hc) as (s & Hs & Hnone & Htok).
    exists s. split_and!; [|by exists pattern, tokens|].
    + apply Forall_forall. intros t [->|Hlit]%Htok; [by apply witness_plain|].
      unfold parse_pattern in Ht. destruct (String.eqb pattern ""); [done|].
      by eapply parsed_literal_publishable.
    + intros (p' & q & ? & ? & Hq). apply (Hnone q); [apply Hin; eauto|done].
Qed.

(** C11: the coverage test is exact.  On well-formed pattern lists it always answers; a
    positive answer means that every subject the source patterns permit is permitted by
    the destination patterns, and a negative one that some concrete subject (of literal,
    publishable tokens) is permitted by the source and not by the destination. *)
Theorem union_coverage_exact source destination :
  well_formed source -> well_formed destination ->
  exists covered, subject_union_covered_by source destination = Ok covered /\
    (covered = true -> forall s, allow_permits source s -> allow_permits destination s) /\
    (covered = false ->
     exists s, Forall publishable s /\ allow_permits source s /\ ~ allow_permits destination s).
Proof.
  intros Hs Hd.
  destruct (coverage_decides source destination Hs Hd) as [[-> ?]|[-> ?]]; eexists; split_and!; done.
Qed.

(** ** Inclusion of policies *)

Definition response_included (a d : option TransportResponseAuthorizationV1) : Prop :=
  forall r, a = Some r ->
  exists r', d = Some r' /\ (max_messages r <= max_messages r')%N /\ (ttl_ms r <= ttl_ms r')%N.

Definition deadline_included (a d : option Z) : Prop :=
  forall deadline', d = Some deadline' -> exists deadline, a = Some deadline /\ (deadline <= deadline')%Z.

(** [A <= D] of the module's documentation. *)
Definition included (a d : TransportAuthorizationV1) : Prop :=
  account a = account d /\
  (forall s, allow_permits (publish_allow a) s -> allow_permits (publish_allow d) s) /\
  (forall s, allow_permits (subscribe_allow a) s -> allow_permits (subscribe_allow d) s) /\
  response_included (response a) (response d) /\
  deadline_included (hard_expires_at a) (hard_expires_at d).

Lemma validate_patterns_ok patterns field index :
  validate_patterns patterns field index = Ok tt -> well_formed patterns.
Proof.
  revert index. induction patterns as [|p ps IH]; intros index; simpl; [constructor|].
  destruct (parse_pattern p) eqn:Hp; [|done]. intros Hv. constructor; [by rewrite Hp|by eapply IH].
Qed.

Lemma validate_pattern_set_ok patterns field u :
  validate_subject_pattern_set patterns field = Ok u -> well_formed patterns.
Proof.
  unfold validate_subject_pattern_set. rewrite let_ok. intros ([] & Hv & _).
  by eapply validate_patterns_ok.
Qed.

Lemma validate_ok p :
  validate p = Ok tt ->
  well_formed (publish_allow p) /\ well_formed (subscribe_allow p) /\
  (forall deadline, hard_expires_at p = Some deadline -> (deadline < i64_max)%Z).
Proof.
  unfold validate. destruct (negb _); [done|].
  rewrite let_ok. intros (? & _ & Hv). rewrite let_ok in Hv. destruct Hv as (? & Hp & Hv).
  rewrite let_ok in Hv. destruct Hv as (? & Hs & Hv). rewrite let_ok in Hv. destruct Hv as (? & _ & Hv).
  split_and!; [by eapply validate_pattern_set_ok..|].
  intros deadline Hd. rewrite Hd in Hv.
  destruct (negb _) eqn:Hb; [done|]. rewrite negb_false_iff, andb_true_iff, !Z.leb_le in Hb.
  unfold MAXIMUM_SAFE_JSON_INTEGER, i64_max in *. lia.
Qed.

Lemma response_covered_spec a d : response_covered a d = true <-> response_included a d.
Proof.
  unfold response_included. destruct a as [r|], d as [r'|]; simpl; try naive_solver.
  rewrite andb_true_iff, !N.leb_le. naive_solver.
Qed.

Lemma deadline_covered_spec a d :
  (forall z, a = Some z -> (z < i64_max)%Z) -> (forall z, d = Some z -> (z < i64_max)%Z) ->
  deadline_covered a d = true <-> deadline_included a d.
Proof.
  intros Ha Hd. unfold deadline_covered, deadline_included. rewrite Z.leb_le.
  destruct a as [x|], d as [y|]; simpl; naive_solver lia.
Qed.

Lemma is_covered_by_decides a d :
  validate a = Ok tt -> validate d = Ok tt ->
  exists covered, is_covered_by a d = Ok covered /\ (covered = true <-> included a d).
Proof.
  intros Ha Hd. unfold is_covered_by. rewrite Ha, Hd.
  destruct (validate_ok a Ha) as (Hpa & Hsa & Hda). destruct (validate_ok d Hd) as (Hpd & Hsd & Hdd).
  unfold included.
  destruct (String.eqb_spec (account a) (account d)) as [Hacc|Hacc]; simpl; [|exists false; naive_solver].
  destruct (coverage_decides _ _ Hpa Hpd) as [[-> Hp]|[-> Hp]]; simpl; [|exists false; naive_solver].
  destruct (coverage_decides _ _ Hsa Hsd) as [[-> Hs]|[-> Hs]]; simpl; [|exists false; naive_solver].
  pose proof (response_covered_spec (response a) (response d)) as Hr.
  destruct (response_covered _ _); simpl; [|exists false; naive_solver].
  pose proof (deadline_covered_spec _ _ Hda Hdd) as Hdl.
  destruct (deadline_covered _ _); simpl; [exists true|exists false]; naive_solver.
Qed.

Lemma included_refl p : included p p.
Proof.
  split_and!; [done..| |]; intros r ->; eexists; split_and!; (done || lia).
Qed.

(** What the class of an admitted policy [a] against the allowed policy [d] means,
    both valid.  An attachment keeps its transport ([Current] or [UpgradeAvailable])
    exactly when its deadline has not elapsed and everything [a] grants (subjects,
    responses and lifetime) [d] still grants; an upgrade is available exactly when [d]
    moreover grants something [a] does not; in every other case a reduction is required. *)
Theorem classification_exact a d now :
  validate a = Ok tt -> validate d = Ok tt ->
  exists c, classify a d now = Ok c /\
    let live := forall deadline, hard_expires_at a = Some deadline -> (now < deadline)%Z in
    (c = Current <-> live /\ included a d /\ included d a) /\
    (c = UpgradeAvailable <-> live /\ included a d /\ ~ included d a) /\
    (c = ReductionRequired <-> ~ live \/ ~ included a d).
Proof.
  intros Ha Hd. unfold classify.
  destruct (is_covered_by_decides a d Ha Hd) as (c1 & -> & H1).
  destruct (is_covered_by_decides d a Hd Ha) as (c2 & -> & H2).
  set (elapsed := match hard_expires_at a with Some z => (z <=? now)%Z | None => false end).
  set (live := forall deadline, hard_expires_at a = Some deadline -> (now < deadline)%Z).
  assert (elapsed = true <-> ~ live) as Helapsed.
  { unfold elapsed, live. destruct (hard_expires_at a) as [z|]; [|naive_solver].
    rewrite Z.leb_le. split; [intros ? Hl; specialize (Hl z eq_refl); lia|].
    intros Hn. apply Z.nlt_ge. intros ?. apply Hn. by intros ? [= <-]. }
  assert (elapsed = false -> live) as Hlive.
  { unfold elapsed, live. intros He deadline Hdl. rewrite Hdl in He. by apply Z.leb_gt in He. }
  clearbody elapsed live.
  assert ((let? _ := if bool_decide (a = d) then validate a else Ok tt in
           if elapsed then Ok ReductionRequired
           else if bool_decide (a = d) then Ok Current
           else if negb c1 then Ok ReductionRequired
           else if c2 then Ok Current else Ok UpgradeAvailable) =
          @Ok _ ProtocolError (if elapsed then ReductionRequired
              else if negb c1 then ReductionRequired
              else if c2 then Current else UpgradeAvailable)) as ->.
  { case_bool_decide as Heq; [|by destruct elapsed, c1, c2].
    rewrite Ha. destruct elapsed; [done|]. subst d.
    assert (c1 = true) as -> by (apply H1, included_refl).
    by assert (c2 = true) as -> by (apply H2, included_refl). }
  eexists. split; [done|]. destruct elapsed, c1, c2; simpl; naive_solver.
Qed.

(** ** Evaluated examples *)

Definition sample_policy (publish : list string) : TransportAuthorizationV1 :=
  {| format := TRANSPORT_AUTHORIZATION_FORMAT_V1; account := "AACCOUNT";
     publish_allow := publish; subscribe_allow := ["_INBOX.a.>"];
     response := None; hard_expires_at := Some 2000%Z |}.

Lemma union_coverage_exact_witness :
  well_formed ["a.>"] /\ well_formed ["a.*"; "a.*.>"] /\
  forall s, allow_permits ["a.>"] s -> allow_permits ["a.*"; "a.*.>"] s.
Proof.
  assert (well_formed ["a.>"] /\ well_formed ["a.*"; "a.*.>"]) as [Hs Hd]
    by (split; repeat constructor).
  split_and!; [done..|].
  destruct (union_coverage_exact ["a.>"] ["a.*"; "a.*.>"] Hs Hd) as ([] & Heq & Hcov & _);
    [by apply Hcov|by vm_compute in Heq].
Defined.

Lemma classification_exact_witness :
  included (sample_policy ["a.b"]) (sample_policy ["a.>"]) /\
  ~ included (sample_policy ["a.>"]) (sample_policy ["a.b"]).
Proof.
  destruct (classification_exact (sample_policy ["a.b"]) (sample_policy ["a.>"]) 1000)
    as (c & Heq & _ & Hup & _); [by vm_compute..|].
  assert (c = UpgradeAvailable) as Hc by (vm_compute in Heq; congruence).
  by apply Hup in Hc as (_ & ? & ?).
Defined.
