(* ===== verification/Permissions.v ===== *)
(** * Permissions

    [crates/protocol/src/permissions.rs]: the exact permission targets and atoms a grant
    is made of, and their canonical wire form. *)

From Stdlib Require Import Ascii String.
From S2P Require Import Prelude RustStr Extern Protocol Wire.

Local Open Scope string_scope.

Inductive ApiSurfaceKind :=
| SurfaceRpc
| SurfaceOperation
| SurfaceEvent
| SurfaceLive
| SurfaceState.

Definition surface_as_str (k : ApiSurfaceKind) : string :=
  match k with
  | SurfaceRpc => "rpc"
  | SurfaceOperation => "operation"
  | SurfaceEvent => "event"
  | SurfaceLive => "live"
  | SurfaceState => "state"
  end.

Inductive ParticipantResourceKind :=
| ResourceKv
| ResourceStore
| ResourceJobQueue
| ResourceEventConsumer
| ResourceState.

Definition resource_as_str (k : ParticipantResourceKind) : string :=
  match k with
  | ResourceKv => "kv"
  | ResourceStore => "store"
  | ResourceJobQueue => "jobQueue"
  | ResourceEventConsumer => "eventConsumer"
  | ResourceState => "state"
  end.

Inductive PermissionAction :=
| ActionCall
| ActionInvoke
| ActionObserve
| ActionCancel
| ActionControl
| ActionPublish
| ActionSubscribe
| ActionRead
| ActionWrite
| ActionDelete
| ActionSubmit
| ActionProcess
| ActionConsume.

Definition action_as_str (a : PermissionAction) : string :=
  match a with
  | ActionCall => "call"
  | ActionInvoke => "invoke"
  | ActionObserve => "observe"
  | ActionCancel => "cancel"
  | ActionControl => "control"
  | ActionPublish => "publish"
  | ActionSubscribe => "subscribe"
  | ActionRead => "read"
  | ActionWrite => "write"
  | ActionDelete => "delete"
  | ActionSubmit => "submit"
  | ActionProcess => "process"
  | ActionConsume => "consume"
  end.

(** What the catalog calls an action: [CatalogActionIdentity] of
    [crates/protocol/src/catalog.rs]. *)
Record CatalogActionIdentity := mkCatalogActionIdentity {
  identity_kind : ApiSurfaceKind;
  identity_name : string;
  identity_direction : PermissionAction;
}.

Inductive PermissionTarget :=
| ApiSurface (api : string) (surface : ApiSurfaceKind) (name : string)
| ParticipantResource (participant : string) (resource : ParticipantResourceKind) (name : string)
| OperationSignal (api operation signal : string).

Definition validate_identifier (field value : string) : result unit ProtocolError :=
  if String.eqb value "" then Err (InvalidIdentifier field "must not be empty")
  else if negb (String.eqb (trim value) value) then
    Err (InvalidIdentifier field "must not have leading or trailing whitespace")
  else if any_char is_ascii_control value then
    Err (InvalidIdentifier field "must not contain ASCII control characters")
  else Ok tt.

(** [PermissionTarget::validate] *)
Definition validate_target (target : PermissionTarget) : result unit ProtocolError :=
  match target with
  | ApiSurface api _ name =>
      let? _ := validate_identifier "API identifier" api in
      validate_identifier "surface name" name
  | ParticipantResource participant _ name =>
      let? _ := validate_identifier "participant identifier" participant in
      validate_identifier "resource name" name
  | OperationSignal api operation signal =>
      let? _ := validate_identifier "API identifier" api in
      let? _ := validate_identifier "operation name" operation in
      validate_identifier "signal name" signal
  end.

Definition checked_target (target : PermissionTarget) : result PermissionTarget ProtocolError :=
  let? _ := validate_target target in
  Ok target.

Definition api_surface (api : string) (surface : ApiSurfaceKind) (name : string) :=
  checked_target (ApiSurface api surface name).

Definition participant_resource (participant : string) (resource : ParticipantResourceKind)
    (name : string) := checked_target (ParticipantResource participant resource name).

Definition operation_signal (api operation signal : string) :=
  checked_target (OperationSignal api operation signal).

(** [PermissionTarget::description] *)
Definition description (target : PermissionTarget) : string :=
  match target with
  | ApiSurface _ surface _ => surface_as_str surface
  | ParticipantResource _ resource _ => resource_as_str resource
  | OperationSignal _ _ _ => "operationSignal"
  end.

Record PermissionAtom := mkPermissionAtom {
  target : PermissionTarget;
  action : PermissionAction;
}.

Definition action_valid (target : PermissionTarget) (action : PermissionAction) : bool :=
  match target with
  | ApiSurface _ surface _ =>
      match surface, action with
      | SurfaceRpc, ActionCall => true
      | SurfaceOperation, (ActionInvoke | ActionObserve | ActionCancel) => true
      | SurfaceEvent, (ActionPublish | ActionSubscribe) => true
      | SurfaceLive, ActionSubscribe => true
      | SurfaceState, (ActionRead | ActionWrite) => true
      | _, _ => false
      end
  | ParticipantResource _ resource _ =>
      match resource, action with
      | (ResourceKv | ResourceStore), (ActionRead | ActionWrite | ActionDelete) => true
      | ResourceJobQueue, (ActionSubmit | ActionProcess) => true
      | ResourceEventConsumer, (ActionConsume | ActionRead | ActionControl) => true
      | ResourceState, (ActionRead | ActionWrite | ActionDelete) => true
      | _, _ => false
      end
  | OperationSignal _ _ _ => match action with ActionControl => true | _ => false end
  end.

(** [PermissionAtom::validate_action] *)
Definition validate_action (atom : PermissionAtom) : result unit ProtocolError :=
  if action_valid (target atom) (action atom) then Ok tt
  else Err (InvalidPermission (action_as_str (action atom)) (description (target atom))).

(** [PermissionAtom::new] *)
Definition new_atom (target : PermissionTarget) (action : PermissionAction) :
    result PermissionAtom ProtocolError :=
  let? _ := validate_target target in
  let atom := mkPermissionAtom target action in
  let? _ := validate_action atom in
  Ok atom.

(** ** Wire form

    [WireTarget] is the derived shape the deserializer reads; the constructors then
    validate it. *)
Inductive WireTarget :=
| WireApiSurface (api : string) (surface : ApiSurfaceKind) (name : string)
| WireParticipantResource (participant : string) (resource : ParticipantResourceKind) (name : string)
| WireOperationSignal (api operation signal : string).

Definition wire_of (target : PermissionTarget) : WireTarget :=
  match target with
  | ApiSurface api surface name => WireApiSurface api surface name
  | ParticipantResource participant resource name =>
      WireParticipantResource participant resource name
  | OperationSignal api operation signal => WireOperationSignal api operation signal
  end.

Section wire.
Context `{JsonValue} `{!ToValue PermissionTarget} `{!CanonicalJson} `{!JsonCodec WireTarget}.

(** The text [D::Error::custom] makes of a validation error. *)
Context (error_text : ProtocolError -> string).

(** [PermissionTarget::encode] *)
Definition encode_target (target : PermissionTarget) : result string ProtocolError :=
  let? _ := validate_target target in
  let? value := map_err JsonError (to_value target) in
  canonicalize_json value.

(** [<PermissionTarget as Deserialize>::deserialize] *)
Definition deserialize_target (bytes : string) : result PermissionTarget string :=
  let? wire := from_slice bytes in
  map_err error_text
    match wire with
    | WireApiSurface api surface name => api_surface api surface name
    | WireParticipantResource participant resource name =>
        participant_resource participant resource name
    | WireOperationSignal api operation signal => operation_signal api operation signal
    end.

(** [PermissionTarget::decode] *)
Definition decode_target (bytes : string) : result PermissionTarget ProtocolError :=
  let? target := map_err JsonError (deserialize_target bytes) in
  let? _ := validate_target target in
  Ok target.

(** What [serde] documents of the derived encodings: the canonical text of a target
    reads back as the wire shape with the same members. *)
Context (wire_roundtrip : forall target value text,
  to_value target = Ok value -> canonical_text value = Ok text ->
  from_slice text = Ok (wire_of target)).

(** The canonical bytes of a permission target decode to that target, and what
    decodes is a target that satisfies the identifier rules, whoever wrote the bytes. *)
Theorem permission_target_roundtrip target bytes :
  (encode_target target = Ok bytes -> decode_target bytes = Ok target) /\
  (decode_target bytes = Ok target -> validate_target target = Ok tt).
Proof.
  split.
  - unfold encode_target, canonicalize_json. rewrite let_ok. intros ([] & Hv & Hb).
    apply let_ok in Hb as (value & Hval & Hb). cbv beta in Hb.
    rewrite map_err_ok in Hval. rewrite map_err_ok in Hb.
    unfold decode_target, deserialize_target.
    rewrite (wire_roundtrip _ _ _ Hval Hb). cbn [map_err].
    assert (match wire_of target with
            | WireApiSurface api surface name => api_surface api surface name
            | WireParticipantResource participant resource name =>
                participant_resource participant resource name
            | WireOperationSignal api operation signal => operation_signal api operation signal
            end = Ok target) as ->.
    { assert (checked_target target = Ok target) as Hc by (unfold checked_target; by rewrite Hv).
      by destruct target. }
    simpl. by rewrite Hv.
  - unfold decode_target. rewrite let_ok. intros (t & _ & Ht).
    apply let_ok in Ht as ([] & Hv & [= <-]). done.
Qed.
End wire.

(** ** Evaluated example *)

Global Instance ApiSurfaceKind_eq_dec : EqDecision ApiSurfaceKind.
Proof. solve_decision. Defined.

Global Instance ParticipantResourceKind_eq_dec : EqDecision ParticipantResourceKind.
Proof. solve_decision. Defined.

Global Instance PermissionAction_eq_dec : EqDecision PermissionAction.
Proof. solve_decision. Defined.

Global Instance CatalogActionIdentity_eq_dec : EqDecision CatalogActionIdentity.
Proof. solve_decision. Defined.

Global Instance PermissionTarget_eq_dec : EqDecision PermissionTarget.
Proof. solve_decision. Defined.

Definition sample_target : PermissionTarget :=
  ApiSurface "trellis.jobs@v1" SurfaceRpc "Jobs.Get".

(** A codec that knows one target. *)
Definition sample_json : JsonValue :=
  {| Value := PermissionTarget; value_null := sample_target |}.

Definition sample_to_value : @ToValue PermissionTarget sample_json := fun t => Ok t.

Definition sample_canonical : @CanonicalJson sample_json :=
  fun t : PermissionTarget =>
    if decide (t = sample_target) then Ok "target" else Err "unknown".

Definition sample_codec : JsonCodec WireTarget :=
  {| to_vec := fun _ => Err "unsupported";
     from_slice := fun text => if String.eqb text "target" then Ok (wire_of sample_target)
                               else Err "unknown" |}.

Lemma permission_target_roundtrip_witness :
  @decode_target sample_codec (fun _ => "error") "target" = Ok sample_target.
Proof.
  refine (proj1 (@permission_target_roundtrip sample_json sample_to_value sample_canonical
                   sample_codec (fun _ => "error") _ sample_target "target") _).
  - intros t value text [= <-]. unfold canonical_text, sample_canonical.
    destruct (decide (t = sample_target)) as [->|]; [|by intros ?]. by intros [= <-].
  - reflexivity.
Defined.
