(* ===== verification/Flow.v ===== *)
(** * Data plane: sender flow control

    [crates/trellis/src/data_plane/flow.rs]: the window a sender of Live or Transfer
    frames keeps.  Frames are numbered from 1; a frame occupies the window from its
    handoff until the receiver's cumulative credit consumes it.

    [spec] is the window as a receiver would describe it, the lengths of all frames
    handed off and how far they were received and consumed; the theorems show that the
    ledger, with its machine-width counters, implements it. *)

From S2P Require Import Prelude.

Local Open Scope N_scope.

Record FlowLimits := mkFlowLimits {
  max_frame_bytes : N;
  window_frames : N;
  window_bytes : N;
}.

Inductive FlowError :=
| PayloadTooLarge
| WindowFull
| InvalidCursor
| SequenceExhausted
| Unavailable.

(** [SenderWindow] with its [Ledger] inlined.  The ledger's mutex is never poisoned:
    nothing that can panic runs while it is held. *)
Record SenderWindow := mkSenderWindow {
  limits : FlowLimits;
  highest_sent : N;
  highest_received : N;
  highest_consumed : N;
  frames : list (N * N);
  consumed_bytes : N;
  outstanding_bytes : N;
}.

Global Instance SenderWindow_settable : Settable SenderWindow := fun w =>
  mkSenderWindow (limits w) (highest_sent w) (highest_received w) (highest_consumed w)
    (frames w) (consumed_bytes w) (outstanding_bytes w).

Definition new_window (limits : FlowLimits) : SenderWindow :=
  {| limits := limits;
     highest_sent := 0;
     highest_received := 0;
     highest_consumed := 0;
     frames := [];
     consumed_bytes := 0;
     outstanding_bytes := 0 |}.

Definition next_frame_seq (w : SenderWindow) : result N FlowError :=
  ok_or (checked_add_u64 (highest_sent w) 1) SequenceExhausted.

Definition validate_frame_slot (w : SenderWindow) (length max_frame : N) :
    result unit FlowError :=
  let? _ := reject_if (N.min (max_frame_bytes (limits w)) max_frame <? length) PayloadTooLarge in
  reject_if
    ((window_frames (limits w) <=? len (frames w))
     || (window_bytes (limits w) - outstanding_bytes w <? length)) WindowFull.

(** The part of [commit_frame] that runs under the ledger's lock. *)
Definition commit_locked (w : SenderWindow) (seq length : N) :
    result SenderWindow FlowError :=
  let? next := next_frame_seq w in
  let? _ := reject_if (negb (seq =? next)) InvalidCursor in
  Ok (w <| frames := frames w ++ [(seq, length)] |>
        <| outstanding_bytes := wrapping_add_u64 (outstanding_bytes w) length |>
        <| highest_sent := seq |>).

Definition commit_frame (w : SenderWindow) (seq length : N) :
    result SenderWindow FlowError :=
  let? _ := validate_frame_slot w length (max_frame_bytes (limits w)) in
  commit_locked w seq length.

(** Addition of [u128]. *)
Definition add_u128 (a b : N) : N := (a + b) mod (u128_max + 1).

(** [iter().take_while(|(seq, _)| *seq <= consumed)] *)
Fixpoint take_consumed (consumed : N) (frames : list (N * N)) : list (N * N) :=
  match frames with
  | (seq, length) :: frames =>
      if seq <=? consumed then (seq, length) :: take_consumed consumed frames else []
  | [] => []
  end.

Definition validate_credit (w : SenderWindow) (received consumed : N)
    (reported : option N) : result unit FlowError :=
  let? _ :=
    reject_if
      ((received <? consumed) || (highest_sent w <? received)
       || (received <? highest_received w) || (consumed <? highest_consumed w))
      InvalidCursor in
  match reported with
  | Some reported =>
      let expected :=
        add_u128 (consumed_bytes w)
          (foldl add_u128 0 (snd <$> take_consumed consumed (frames w))) in
      reject_if (negb (reported =? expected)) InvalidCursor
  | None => Ok tt
  end.

(** The loop of [apply_credit]: frames leave from the front. *)
Fixpoint release_frames (consumed : N) (frames : list (N * N)) (total outstanding : N) :
    list (N * N) * N * N :=
  match frames with
  | (seq, length) :: rest =>
      if seq <=? consumed then
        release_frames consumed rest (add_u128 total length)
          (wrapping_sub_u64 outstanding length)
      else (frames, total, outstanding)
  | [] => ([], total, outstanding)
  end.

Definition apply_credit (w : SenderWindow) (received consumed : N) (reported : option N) :
    result SenderWindow FlowError :=
  let? _ := validate_credit w received consumed reported in
  let '(kept, total, outstanding) :=
    release_frames consumed (frames w) (consumed_bytes w) (outstanding_bytes w) in
  Ok (w <| frames := kept |>
        <| consumed_bytes := total |>
        <| outstanding_bytes := outstanding |>
        <| highest_received := received |>
        <| highest_consumed := consumed |>).

Definition outstanding_empty (w : SenderWindow) : bool := bool_decide (frames w = []).

Definition validate_complete (w : SenderWindow) (final_seq : N) : result unit FlowError :=
  reject_if
    (negb (final_seq =? highest_sent w) || negb (final_seq =? highest_consumed w)
     || negb (outstanding_empty w)) InvalidCursor.

(** ** The window as a receiver describes it *)
Record spec := mkSpec {
  sent : list N;
  received : N;
  consumed : N;
}.

Definition total (l : list N) : N := foldr N.add 0 l.

(** The lengths of the frames that occupy the window. *)
Definition outstanding (s : spec) : list N := drop (N.to_nat (consumed s)) (sent s).

Definition has_room (l : FlowLimits) (s : spec) (length : N) : Prop :=
  length <= max_frame_bytes l /\ len (outstanding s) < window_frames l /\
  total (outstanding s) + length <= window_bytes l.

(** A step of the description: a frame is handed off, or credit arrives. *)
Inductive spec_step (l : FlowLimits) : spec -> spec -> Prop :=
| spec_send s length :
    has_room l s length -> len (sent s) < u64_max ->
    spec_step l s (mkSpec (sent s ++ [length]) (received s) (consumed s))
| spec_credit s r c :
    received s <= r -> consumed s <= c -> c <= r <= len (sent s) ->
    spec_step l s (mkSpec (sent s) r c).

(** The frames the ledger holds for outstanding lengths, numbered after [n]. *)
Fixpoint numbered (n : N) (l : list N) : list (N * N) :=
  match l with
  | [] => []
  | length :: l => (n + 1, length) :: numbered (n + 1) l
  end.

(** The ledger [w] keeps for the description [s]. *)
Record refines (w : SenderWindow) (s : spec) : Prop := {
  ref_sent : highest_sent w = len (sent s);
  ref_received : highest_received w = received s;
  ref_consumed : highest_consumed w = consumed s;
  ref_frames : frames w = numbered (consumed s) (outstanding s);
  ref_consumed_bytes : consumed_bytes w = total (take (N.to_nat (consumed s)) (sent s));
  ref_outstanding : outstanding_bytes w = total (outstanding s);
}.

(** What holds of every description a sender reaches. *)
Record spec_wf (l : FlowLimits) (s : spec) : Prop := {
  wf_cursors : consumed s <= received s <= len (sent s);
  wf_sequence : len (sent s) <= u64_max;
  wf_lengths : Forall (fun length => length <= max_frame_bytes l) (sent s);
  wf_window_frames : len (outstanding s) <= window_frames l;
  wf_window_bytes : total (outstanding s) <= window_bytes l;
}.

(** The limits are [u64] values. *)
Definition limits_u64 (l : FlowLimits) : Prop :=
  max_frame_bytes l <= u64_max /\ window_bytes l <= u64_max.

(** ** Lists of lengths *)

Lemma total_app l1 l2 : total (l1 ++ l2) = total l1 + total l2.
Proof. induction l1; simpl; lia. Qed.

Lemma total_take_drop n l : total (take n l) + total (drop n l) = total l.
Proof. by rewrite <- total_app, take_drop. Qed.

Lemma total_bound m l : Forall (fun x => x <= m) l -> total l <= len l * m.
Proof.
  unfold len. induction 1; cbn [total foldr length]; [lia|].
  rewrite Nat2N.inj_succ, N.mul_succ_l. fold (total l). lia.
Qed.

Lemma numbered_app n l1 l2 : numbered n (l1 ++ l2) = numbered n l1 ++ numbered (n + len l1) l2.
Proof.
  unfold len. revert n. induction l1 as [|x l1 IH]; intros n; simpl.
  - f_equal. lia.
  - rewrite IH. do 3 f_equal. lia.
Qed.

Lemma numbered_length n l : len (numbered n l) = len l.
Proof. unfold len. f_equal. revert n. induction l; intros n; simpl; auto. Qed.

Lemma take_consumed_numbered n c l :
  n <= c -> take_consumed c (numbered n l) = numbered n (take (N.to_nat (c - n)) l).
Proof.
  revert n. induction l as [|x l IH]; intros n Hn; simpl; [by destruct (N.to_nat _)|].
  destruct (N.leb_spec (n + 1) c).
  - replace (N.to_nat (c - n)) with (S (N.to_nat (c - (n + 1)))) by lia.
    simpl. by rewrite IH by lia.
  - by replace (N.to_nat (c - n)) with 0%nat by lia.
Qed.

Lemma numbered_lengths n l : snd <$> numbered n l = l.
Proof. revert n. induction l as [|x l IH]; intros n; simpl; [done|]. f_equal. apply IH. Qed.

Lemma add_u128_exact a b : a + b <= u128_max -> add_u128 a b = a + b.
Proof. intros. unfold add_u128. apply N.mod_small. lia. Qed.

Lemma foldl_add_u128 acc l :
  acc + total l <= u128_max -> foldl add_u128 acc l = acc + total l.
Proof.
  revert acc. induction l as [|x l IH]; intros acc; simpl; [lia|]. intros.
  rewrite add_u128_exact by lia. rewrite IH; lia.
Qed.

Lemma release_numbered c n l t o :
  n <= c -> t + total l <= u128_max -> total l <= o <= u64_max ->
  release_frames c (numbered n l) t o =
  (numbered c (drop (N.to_nat (c - n)) l), t + total (take (N.to_nat (c - n)) l),
   o - total (take (N.to_nat (c - n)) l)).
Proof.
  revert n t o. induction l as [|x l IH]; intros n t o Hn Ht Ho; simpl.
  - rewrite drop_nil, take_nil. simpl. f_equal; [f_equal; lia|lia].
  - simpl in *. destruct (N.leb_spec (n + 1) c).
    + replace (N.to_nat (c - n)) with (S (N.to_nat (c - (n + 1)))) by lia. simpl.
      rewrite add_u128_exact, wrapping_sub_u64_exact by lia.
      rewrite IH by lia. f_equal; [f_equal; lia|lia].
    + replace (N.to_nat (c - n)) with 0%nat by lia. simpl.
      replace c with n by lia. f_equal; [f_equal; lia|lia].
Qed.

(** ** Refinement, one operation at a time *)

Lemma sent_u128 l s : limits_u64 l -> spec_wf l s -> total (sent s) <= u128_max.
Proof.
  intros [Hm _] Hwf. etrans; [apply total_bound, (wf_lengths _ _ Hwf)|].
  pose proof (wf_sequence _ _ Hwf). transitivity (u64_max * u64_max); [|done].
  by apply N.mul_le_mono.
Qed.

Lemma outstanding_length s : consumed s <= len (sent s) -> len (outstanding s) = len (sent s) - consumed s.
Proof. unfold outstanding, len. rewrite length_drop. lia. Qed.

(** The cursors and the byte count of a credit are right for the description. *)
Definition credit_ok (s : spec) (r c : N) (reported : option N) : Prop :=
  received s <= r /\ consumed s <= c /\ c <= r <= len (sent s) /\
  forall bytes, reported = Some bytes -> bytes = total (take (N.to_nat c) (sent s)).

Section refinement.
Context (w : SenderWindow) (s : spec).
Hypothesis (Hu : limits_u64 (limits w)) (Href : refines w s) (Hwf : spec_wf (limits w) s).

Lemma validate_frame_slot_ok length max_frame :
  validate_frame_slot w length max_frame = Ok tt <->
  has_room (limits w) s length /\ length <= max_frame.
Proof.
  unfold validate_frame_slot, has_room, reject_if.
  rewrite (ref_frames _ _ Href), numbered_length, (ref_outstanding _ _ Href).
  pose proof (wf_window_bytes _ _ Hwf).
  destruct (N.ltb_spec (N.min (max_frame_bytes (limits w)) max_frame) length);
    [split; [done|lia]|].
  destruct (N.leb_spec (window_frames (limits w)) (len (outstanding s)));
    [split; [done|lia]|].
  destruct (N.ltb_spec (window_bytes (limits w) - total (outstanding s)) length); simpl;
    [split; [done|lia]|split; [intros _; split_and!; lia|done]].
Qed.

Lemma commit_locked_ok seq length :
  has_room (limits w) s length ->
  match commit_locked w seq length with
  | Ok w' =>
      seq = len (sent s) + 1 /\ len (sent s) < u64_max /\ limits w' = limits w /\
      refines w' (mkSpec (sent s ++ [length]) (received s) (consumed s))
  | Err SequenceExhausted => len (sent s) = u64_max
  | Err InvalidCursor => len (sent s) < u64_max /\ seq <> len (sent s) + 1
  | Err _ => False
  end.
Proof.
  intros (Hlen & Hframes & Hbytes). destruct Hu as [_ Hwb].
  pose proof (wf_sequence _ _ Hwf). pose proof (wf_cursors _ _ Hwf) as Hcur.
  unfold commit_locked, next_frame_seq. rewrite (ref_sent _ _ Href).
  destruct (checked_add_u64 (len (sent s)) 1) as [next|] eqn:Hnext; simpl.
  2: { unfold checked_add_u64 in Hnext. destruct (N.leb_spec (len (sent s) + 1) u64_max); [done|lia]. }
  apply checked_add_u64_Some in Hnext as [-> Hmax].
  destruct (N.eqb_spec seq (len (sent s) + 1)) as [->|]; simpl; [|split; [lia|done]].
  assert (outstanding (mkSpec (sent s ++ [length]) (received s) (consumed s)) =
          outstanding s ++ [length]) as Hout.
  { unfold outstanding. simpl. rewrite drop_app_le; [done|]. unfold len in *. lia. }
  pose proof (outstanding_length s ltac:(lia)) as Hol.
  split_and!; [done|lia|done|]. split; rewrite ?Hout; simpl; try apply Href.
  - unfold len. rewrite length_app. simpl. lia.
  - rewrite numbered_app, (ref_frames _ _ Href). simpl. do 4 f_equal. lia.
  - rewrite (ref_consumed_bytes _ _ Href), take_app_le; [done|]. unfold len in *. lia.
  - rewrite (ref_outstanding _ _ Href), wrapping_add_u64_exact by lia.
    rewrite total_app. simpl. lia.
Qed.

Lemma validate_credit_ok r c reported :
  validate_credit w r c reported = Ok tt <-> credit_ok s r c reported.
Proof.
  unfold validate_credit, credit_ok.
  rewrite (ref_sent _ _ Href), (ref_received _ _ Href), (ref_consumed _ _ Href).
  assert (consumed s <= c -> c <= len (sent s) ->
    add_u128 (consumed_bytes w) (foldl add_u128 0 (snd <$> take_consumed c (frames w))) =
    total (take (N.to_nat c) (sent s))) as Hexp.
  { intros Hc Hc'. pose proof (sent_u128 _ _ Hu Hwf) as H128.
    rewrite (ref_frames _ _ Href), take_consumed_numbered, numbered_lengths by done.
    assert (take (N.to_nat c) (sent s) =
      take (N.to_nat (consumed s)) (sent s) ++ take (N.to_nat (c - consumed s)) (outstanding s))
      as Htake.
    { unfold outstanding. rewrite take_take_drop. f_equal. lia. }
    pose proof (total_take_drop (N.to_nat c) (sent s)) as Htd.
    rewrite Htake, total_app in *. rewrite (ref_consumed_bytes _ _ Href).
    rewrite foldl_add_u128, N.add_0_l, add_u128_exact; lia. }
  destruct (_ || _ || _ || _) eqn:Hcursors; simpl.
  { split; [done|]. intros (? & ? & [? ?] & _). rewrite !orb_true_iff, !N.ltb_lt in Hcursors. lia. }
  rewrite !orb_false_iff, !N.ltb_ge in Hcursors. destruct Hcursors as [[[? ?] ?] ?].
  destruct reported as [bytes|]; [|split; [intros _; split_and!; done|done]].
  rewrite reject_if_ok, negb_false_iff, N.eqb_eq, Hexp by lia. naive_solver.
Qed.

Lemma outstanding_credit r c :
  consumed s <= c ->
  outstanding (mkSpec (sent s) r c) = drop (N.to_nat (c - consumed s)) (outstanding s).
Proof. intros. unfold outstanding. simpl. rewrite drop_drop. f_equal. lia. Qed.

Lemma apply_credit_ok r c reported w' :
  apply_credit w r c reported = Ok w' ->
  credit_ok s r c reported /\ limits w' = limits w /\ refines w' (mkSpec (sent s) r c).
Proof.
  unfold apply_credit. rewrite let_ok. intros ([] & Hval & Happ).
  apply validate_credit_ok in Hval as Hok. destruct Hok as (? & Hc & [? ?] & _).
  destruct Hu as [_ Hwb]. pose proof (wf_window_bytes _ _ Hwf).
  pose proof (sent_u128 _ _ Hu Hwf) as H128.
  pose proof (total_take_drop (N.to_nat (consumed s)) (sent s)) as Htd.
  fold (outstanding s) in Htd.
  rewrite (ref_frames _ _ Href), release_numbered in Happ;
    [|done|rewrite (ref_consumed_bytes _ _ Href); lia|rewrite (ref_outstanding _ _ Href); lia].
  injection Happ as <-.
  split_and!; [by apply validate_credit_ok|done|].
  split; simpl; rewrite ?outstanding_credit by done; try done; try apply Href.
  - rewrite (ref_consumed_bytes _ _ Href).
    replace (N.to_nat c) with (N.to_nat (consumed s) + N.to_nat (c - consumed s))%nat by lia.
    rewrite <- take_take_drop, total_app. done.
  - rewrite (ref_outstanding _ _ Href).
    pose proof (total_take_drop (N.to_nat (c - consumed s)) (outstanding s)). lia.
Qed.

Lemma apply_credit_err r c reported e :
  apply_credit w r c reported = Err e -> e = InvalidCursor /\ ~ credit_ok s r c reported.
Proof.
  unfold apply_credit. destruct (validate_credit w r c reported) as [[]|e'] eqn:Hval.
  - by destruct (release_frames _ _ _ _) as [[? ?] ?].
  - intros [= <-]. split.
    + unfold validate_credit, reject_if in Hval.
      destruct (_ || _), reported; try destruct (negb _); congruence.
    + intros Hok. apply validate_credit_ok in Hok. congruence.
Qed.
End refinement.

(** ** Steps of the description keep its invariant *)

Lemma total_drop n l : total (drop n l) <= total l.
Proof. pose proof (total_take_drop n l). lia. Qed.

Lemma spec_step_wf l s s' : spec_wf l s -> spec_step l s s' -> spec_wf l s'.
Proof.
  intros [Hcur Hseq Hlen Hwf Hwb]. destruct 1 as [s length (Hl & Hf & Hb) Hmax|s r c Hr Hc Hrc].
  - assert (outstanding (mkSpec (sent s ++ [length]) (received s) (consumed s)) =
            outstanding s ++ [length]) as Hout.
    { unfold outstanding. simpl. rewrite drop_app_le; [done|]. unfold len in *. lia. }
    assert (len (sent s ++ [length]) = len (sent s) + 1) as Hls
      by (unfold len; rewrite length_app; simpl; lia).
    split; simpl; rewrite ?Hls, ?Hout; try lia.
    + apply Forall_app. by rewrite Forall_singleton.
    + unfold len in *. rewrite length_app. simpl. lia.
    + rewrite total_app. simpl. lia.
  - split; simpl; rewrite ?outstanding_credit by done; try lia; try done.
    + unfold len in *. rewrite length_drop. lia.
    + etrans; [apply total_drop|done].
Qed.

Lemma has_room_credit l s r c length :
  consumed s <= c -> has_room l s length -> has_room l (mkSpec (sent s) r c) length.
Proof.
  intros Hc (Hl & Hf & Hb). unfold has_room. rewrite outstanding_credit by done.
  pose proof (total_drop (N.to_nat (c - consumed s)) (outstanding s)).
  unfold len in *. rewrite length_drop. split_and!; lia.
Qed.

(** ** The sender's lane

    The owner of the output lane validates a frame, hands it off and commits it; credit
    may arrive at any point in between, since it only takes the ledger's lock. *)
Inductive lane :=
| Idle
| Validated (length : N).

Inductive lane_step : lane * SenderWindow -> lane * SenderWindow -> Prop :=
| lane_validate w length max_frame :
    validate_frame_slot w length max_frame = Ok tt ->
    lane_step (Idle, w) (Validated length, w)
| lane_commit w seq length w' :
    commit_locked w seq length = Ok w' ->
    lane_step (Validated length, w) (Idle, w')
| lane_abort w length : lane_step (Validated length, w) (Idle, w)
| lane_credit p w r c reported w' :
    apply_credit w r c reported = Ok w' -> lane_step (p, w) (p, w').

(** The description of a lane's window, and room for the frame being handed off. *)
Definition lane_refines (l : FlowLimits) (p : lane) (w : SenderWindow) (s : spec) : Prop :=
  limits w = l /\ refines w s /\ spec_wf l s /\
  match p with Idle => True | Validated length => has_room l s length end.

Lemma lane_step_refines l p w p' w' s :
  limits_u64 l -> lane_refines l p w s -> lane_step (p, w) (p', w') ->
  exists s', rtc (spec_step l) s s' /\ lane_refines l p' w' s'.
Proof.
  intros Hu (<- & Href & Hwf & Hp).
  inversion 1 as [? length ? Hv|? seq length ? Hcommit| |? ? r c ? ? Hcr]; subst.
  - exists s. split; [done|]. split_and!; try done.
    by apply (validate_frame_slot_ok w' s Href Hwf) in Hv as [? _].
  - pose proof (commit_locked_ok w s Hu Href Hwf seq length Hp) as Hok. rewrite Hcommit in Hok.
    destruct Hok as (-> & Hmax & Hlim & Href').
    assert (spec_step (limits w) s (mkSpec (sent s ++ [length]) (received s) (consumed s)))
      by (by constructor).
    eexists. split; [by apply rtc_once|]. split_and!; try done. by eapply spec_step_wf.
  - exists s. by split_and!.
  - destruct (apply_credit_ok w s Hu Href Hwf _ _ _ _ Hcr) as ((? & ? & ? & _) & Hlim & Href').
    assert (spec_step (limits w) s (mkSpec (sent s) r c)) by (by constructor).
    eexists. split; [by apply rtc_once|]. split_and!; try done; [by eapply spec_step_wf|].
    destruct p'; [done|]. by apply has_room_credit.
Qed.

Lemma lane_reachable_refines l p w :
  limits_u64 l -> rtc lane_step (Idle, new_window l) (p, w) ->
  exists s, rtc (spec_step l) (mkSpec [] 0 0) s /\ lane_refines l p w s.
Proof.
  intros Hu Hr. remember (p, w) as pw eqn:Hpw. revert p w Hpw.
  pattern pw. eapply rtc_ind_r; [| |exact Hr].
  - intros p w [= <- <-]. exists (mkSpec [] 0 0). split; [done|].
    split_and!; try done. split; simpl; try done; unfold len; simpl; lia.
  - intros [p1 w1] z _ Hstep IH p w ->. destruct (IH p1 w1 eq_refl) as (s & Hs & Hlane).
    destruct (lane_step_refines _ _ _ _ _ _ Hu Hlane Hstep) as (s' & Hs' & Hlane').
    exists s'. split; [by transitivity s|done].
Qed.

(** ** Theorems *)

(** C13: the sender's ledger implements the description of the window: whatever frames
    are validated, handed off, committed or given up and whatever credit arrives at
    whatever moment, its cursors, frames and byte counts are those of a description
    that frames and credit lead to, in which the outstanding frames and bytes never
    exceed the negotiated window and no counter has wrapped. *)
Theorem ledger_implements_window l p w :
  limits_u64 l -> rtc lane_step (Idle, new_window l) (p, w) ->
  exists s, rtc (spec_step l) (mkSpec [] 0 0) s /\ refines w s /\ spec_wf l s.
Proof.
  intros Hu Hr. destruct (lane_reachable_refines l p w Hu Hr) as (s & Hs & _ & Href & Hwf & _).
  eauto.
Qed.

(** Each operation of the ledger succeeds exactly when the description allows it: a
    frame commits when it is the next one, fits the frame limit and the window and the
    sequence is not exhausted; credit applies when its cursors neither regress nor
    outrun what was sent and any byte count it carries is that of the consumed prefix;
    and completion holds when every frame was sent and consumed. *)
Theorem ledger_operations l w s :
  limits_u64 l -> lane_refines l Idle w s ->
  (forall seq length, is_ok (commit_frame w seq length) = true <->
     has_room l s length /\ seq = len (sent s) + 1 /\ len (sent s) < u64_max) /\
  (forall r c reported, is_ok (apply_credit w r c reported) = true <-> credit_ok s r c reported) /\
  (forall final, validate_complete w final = Ok tt <->
     final = len (sent s) /\ consumed s = len (sent s)).
Proof.
  intros Hu (<- & Href & Hwf & _). split_and!.
  - intros seq length. unfold commit_frame.
    pose proof (validate_frame_slot_ok w s Href Hwf length (max_frame_bytes (limits w))) as Hv.
    destruct (validate_frame_slot _ _ _) as [[]|e]; simpl.
    + destruct Hv as [Hv _]. destruct (Hv eq_refl) as [Hroom _].
      pose proof (commit_locked_ok w s Hu Href Hwf seq length Hroom) as Hc.
      destruct (commit_locked w seq length) as [|[]]; simpl; naive_solver lia.
    + split; [done|]. intros (Hroom & _). destruct Hv as [_ Hv].
      by discriminate Hv; split; [|apply Hroom].
  - intros r c reported. destruct (apply_credit w r c reported) as [w'|e] eqn:Ha; simpl.
    + apply (apply_credit_ok w s Hu Href Hwf) in Ha as [? _]. done.
    + apply (apply_credit_err w s Hu Href Hwf) in Ha as [_ ?]. done.
  - intros final. unfold validate_complete, outstanding_empty. rewrite reject_if_ok.
    rewrite (ref_sent _ _ Href), (ref_consumed _ _ Href), (ref_frames _ _ Href).
    rewrite !orb_false_iff, !negb_false_iff, !N.eqb_eq, bool_decide_eq_true.
    split; [lia|]. intros [-> Hc]. split; [lia|].
    pose proof (outstanding_length s ltac:(lia)) as Hl. unfold len in Hl, Hc.
    destruct (outstanding s); [done|]. simpl in Hl. lia.
Qed.

(** Consumed credit gives the whole window back: once everything sent is consumed,
    any frame within the frame limit and the window's bytes can be sent next. *)
Theorem consumed_credit_frees_window l w s w' length :
  limits_u64 l -> lane_refines l Idle w s ->
  apply_credit w (len (sent s)) (len (sent s)) None = Ok w' ->
  0 < window_frames l -> length <= N.min (max_frame_bytes l) (window_bytes l) ->
  len (sent s) < u64_max ->
  is_ok (commit_frame w' (len (sent s) + 1) length) = true.
Proof.
  intros Hu (<- & Href & Hwf & _) Ha Hframes Hlen Hmax.
  destruct (apply_credit_ok w s Hu Href Hwf _ _ _ _ Ha) as ((? & ? & ? & _) & Hlim & Href').
  set (s' := mkSpec (sent s) (len (sent s)) (len (sent s))) in *.
  assert (spec_wf (limits w') s') as Hwf'.
  { rewrite Hlim. eapply spec_step_wf; [done|]. by constructor. }
  assert (outstanding s' = []) as Hout.
  { unfold outstanding, s'. simpl. apply drop_ge. unfold len. lia. }
  assert (has_room (limits w') s' length) as Hroom.
  { rewrite Hlim. unfold has_room. rewrite Hout. unfold len. simpl. lia. }
  unfold commit_frame. rewrite <- Hlim in Hu.
  destruct (validate_frame_slot_ok w' s' Href' Hwf' length (max_frame_bytes (limits w'))) as [_ Hv].
  rewrite Hv by (split; [done|apply Hroom]).
  pose proof (commit_locked_ok w' s' Hu Href' Hwf' (len (sent s) + 1) length Hroom) as Hc.
  destruct (commit_locked _ _ _) as [|[]]; simpl in *; naive_solver lia.
Qed.

(** ** Closed instances *)

Definition sample_limits : FlowLimits := mkFlowLimits 10 2 15.

(** Two frames sent, the first consumed with its byte count. *)
Definition sample_window : SenderWindow :=
  mkSenderWindow sample_limits 2 1 1 [(2, 5)] 10 5.

Definition sample_spec : spec := mkSpec [10; 5] 1 1.

Lemma sample_refines : lane_refines sample_limits Idle sample_window sample_spec.
Proof.
  split_and!; try done; split; try done; try (vm_compute; split_and?; discriminate).
  repeat constructor; discriminate.
Qed.

Lemma ledger_implements_window_witness :
  exists s, rtc (spec_step sample_limits) (mkSpec [] 0 0) s /\
    refines sample_window s /\ spec_wf sample_limits s.
Proof.
  apply (ledger_implements_window sample_limits Idle sample_window); [by vm_compute|].
  eapply rtc_l; [apply (lane_validate _ 10 10); reflexivity|].
  eapply rtc_l; [apply (lane_commit _ 1); reflexivity|].
  eapply rtc_l; [apply (lane_validate _ 5 10); reflexivity|].
  eapply rtc_l; [apply (lane_credit _ _ 1 1 (Some 10)); reflexivity|].
  eapply rtc_l; [apply (lane_commit _ 2); reflexivity|].
  apply rtc_refl.
Defined.

Lemma ledger_operations_witness :
  is_ok (commit_frame sample_window 3 10) = true <->
  has_room sample_limits sample_spec 10 /\ 3 = 2 + 1 /\ 2 < u64_max.
Proof.
  apply (ledger_operations sample_limits sample_window sample_spec);
    [by vm_compute|apply sample_refines].
Defined.

Lemma consumed_credit_frees_window_witness :
  exists w', apply_credit sample_window 2 2 None = Ok w' /\
    is_ok (commit_frame w' 3 10) = true.
Proof.
  eexists. split; [reflexivity|].
  apply (consumed_credit_frees_window sample_limits sample_window sample_spec);
    [by vm_compute|apply sample_refines|reflexivity|by vm_compute..].
Defined.
