(* ===== verification/DataPlane.v ===== *)
(** * Data plane: receive side

    [TransferWindow] is the window a receiver offers ([crates/protocol/src/transfer.rs]);
    [Credit] the scheduler that coalesces its acknowledgements
    ([crates/trellis/src/data_plane/credit.rs]); [Budget] the process-wide receive budget
    ([crates/trellis/src/data_plane/budget.rs]), whose compare-exchange loop is a
    transition system of concurrent threads. *)

From Stdlib Require Import Ascii String.
From S2P Require Import Prelude Protocol.

Local Open Scope N_scope.

(** ** The window policy *)
Module TransferWindow.

Definition MAX_TRANSFER_FRAME_BYTES : N := 1048576.
Definition TRANSFER_WINDOW_FRAMES : N := 64.
Definition TRANSFER_WINDOW_BYTES : N := 16777216.
Definition TRANSFER_MAX_WINDOW_FRAMES : N := 1024.
Definition TRANSFER_MAX_WINDOW_BYTES : N := 67108864.
Definition TRANSFER_PROCESS_RECEIVE_BYTES : N := 268435456.
Definition TRANSFER_HEADER_RESERVE : N := 4096.

Definition transfer_receive_window (available max_frame_bytes : N) : option (N * N) :=
  let bytes := N.min TRANSFER_WINDOW_BYTES available in
  if (bytes =? 0) || (bytes <? N.min max_frame_bytes TRANSFER_WINDOW_BYTES) then None
  else
    let frames :=
      N.max (div_ceil (TRANSFER_WINDOW_FRAMES * bytes) TRANSFER_WINDOW_BYTES) 1 in
    Some (frames, bytes).

Definition validate_window (frames bytes frame : N) : result unit ProtocolError :=
  reject_if
    ((frames =? 0) || (bytes =? 0) || (TRANSFER_MAX_WINDOW_FRAMES <? frames)
     || (TRANSFER_MAX_WINDOW_BYTES <? bytes) || (bytes <? frame))
    (TransferError "window" "window outside protocol bounds").

Definition negotiate_transfer_max_frame_bytes (consumer provider : N) :
    result N ProtocolError :=
  let usable :=
    value ← checked_sub (N.min consumer provider) TRANSFER_HEADER_RESERVE;
    if 0 <? value then Some value else None in
  let? usable :=
    ok_or usable
      (TransferError "maxFrameBytes"
         "NATS payload limit cannot accommodate headers and DATA") in
  Ok (N.min usable MAX_TRANSFER_FRAME_BYTES).

(** The window a receiver offers never overcommits what is left, and is one the
    protocol accepts for any frame size two peers negotiate: it holds at least one
    frame of the negotiated size, within the protocol's bounds. *)
Theorem offered_window_valid available consumer provider frame frames bytes :
  negotiate_transfer_max_frame_bytes consumer provider = Ok frame ->
  transfer_receive_window available frame = Some (frames, bytes) ->
  bytes <= available /\ 0 < frames <= TRANSFER_WINDOW_FRAMES /\ frame <= bytes /\
  validate_window frames bytes frame = Ok tt.
Proof.
  unfold negotiate_transfer_max_frame_bytes, transfer_receive_window, validate_window.
  intros (usable & Hu & [= <-])%let_ok Hw.
  apply ok_or_ok, bind_Some in Hu as (value & Hv & Hpos).
  destruct (N.ltb_spec 0 value); [injection Hpos as ->|done].
  destruct (_ || _) eqn:Hroom in Hw; [done|]. injection Hw as <- <-.
  rewrite orb_false_iff, N.eqb_neq, N.ltb_ge in Hroom. destruct Hroom as [Hne Hle].
  set (bytes := N.min TRANSFER_WINDOW_BYTES available) in *.
  assert (bytes <= TRANSFER_WINDOW_BYTES /\ bytes <= available) as [Hb Ha] by lia.
  clearbody bytes. unfold div_ceil, TRANSFER_WINDOW_FRAMES, TRANSFER_WINDOW_BYTES,
    MAX_TRANSFER_FRAME_BYTES in *.
  assert ((64 * bytes + 16777216 - 1) / 16777216 < 65).
  { apply N.Div0.div_lt_upper_bound. lia. }
  split_and!; try lia. rewrite reject_if_ok, !orb_false_iff, !N.eqb_neq, !N.ltb_ge.
  unfold TRANSFER_MAX_WINDOW_FRAMES, TRANSFER_MAX_WINDOW_BYTES. lia.
Qed.

Lemma offered_window_valid_witness :
  1048576 <= 2000000 /\ 0 < 8 <= TRANSFER_WINDOW_FRAMES /\ 1048576 <= 2000000 /\
  validate_window 8 2000000 1048576 = Ok tt.
Proof.
  assert (2000000 <= 2000000 /\ 0 < 8 <= TRANSFER_WINDOW_FRAMES /\ 1048576 <= 2000000 /\
          validate_window 8 2000000 1048576 = Ok tt) as (_ & H).
  { apply (offered_window_valid 2000000 8388608 8388608); reflexivity. }
  split; [discriminate|exact H].
Defined.
End TransferWindow.

(** ** Credit scheduling *)
Module Credit.

(** Instants and durations are nanoseconds. *)
Record CreditPolicy := mkCreditPolicy {
  frame_step : N;
  byte_step : option N;
  max_delay : N;
}.

Record CreditScheduler := mkCreditScheduler {
  policy : CreditPolicy;
  deadline : option N;
}.

Global Instance CreditScheduler_settable : Settable CreditScheduler := fun s =>
  mkCreditScheduler (policy s) (deadline s).

Definition new_scheduler (policy : CreditPolicy) : CreditScheduler :=
  {| policy := policy; deadline := None |}.

Definition force (s : CreditScheduler) (now : N) : CreditScheduler :=
  s <| deadline := Some (match deadline s with Some old => N.min old now | None => now end) |>.

Definition reaches_step (p : CreditPolicy) (frames bytes : N) : bool :=
  (frame_step p <=? frames)
  || match byte_step p with Some step => step <=? bytes | None => false end.

Definition note_pending (s : CreditScheduler) (now frames bytes : N) : CreditScheduler :=
  if reaches_step (policy s) frames bytes then force s now
  else
    match deadline s with
    | None => s <| deadline := Some (now + max_delay (policy s)) |>
    | Some _ => s
    end.

Definition next_due (s : CreditScheduler) : option N := deadline s.

Definition is_due (s : CreditScheduler) (now : N) : bool :=
  match deadline s with Some deadline => deadline <=? now | None => false end.

Definition clear (s : CreditScheduler) : CreditScheduler := s <| deadline := None |>.

(** What happens between two handoffs of credit, at its time. *)
Inductive pending :=
| Noted (now frames bytes : N)
| Forced (now : N).

Definition pending_at (p : pending) : N :=
  match p with Noted now _ _ | Forced now => now end.

Definition handle (s : CreditScheduler) (p : pending) : CreditScheduler :=
  match p with
  | Noted now frames bytes => note_pending s now frames bytes
  | Forced now => force s now
  end.

(** The event asks for credit at once. *)
Definition urgent (policy : CreditPolicy) (p : pending) : bool :=
  match p with
  | Noted _ frames bytes => reaches_step policy frames bytes
  | Forced _ => true
  end.

Lemma handle_policy s p : policy (handle s p) = policy s.
Proof.
  destruct p; simpl; [|done]. unfold note_pending.
  destruct (reaches_step _ _ _), (deadline s); done.
Qed.

(** One event gives a deadline no later than the pending one, than its own delay, and,
    when urgent, than now. *)
Lemma handle_deadline s p :
  exists d, deadline (handle s p) = Some d /\
    (forall d0, deadline s = Some d0 -> d <= d0) /\
    (deadline s = None -> d <= pending_at p + max_delay (policy s)) /\
    (urgent (policy s) p = true -> d <= pending_at p).
Proof.
  destruct p as [now frames bytes|now]; simpl.
  - unfold note_pending. destruct (reaches_step _ _ _); simpl.
    + eexists. split; [done|]. destruct (deadline s); naive_solver lia.
    + destruct (deadline s) as [d|] eqn:Hd; simpl; [exists d|eexists]; naive_solver lia.
  - eexists. split; [done|]. destruct (deadline s); naive_solver lia.
Qed.

(** Credit is never starved: after any consumption events since the last handoff,
    in any order and number, credit falls due no later than the policy's delay after
    the first of them, and no later than any event that reaches a step or is forced.
    Later events never postpone it. *)
Theorem credit_due policy first rest now :
  pending_at first + max_delay policy <= now \/
    (exists p, p ∈ first :: rest /\ urgent policy p = true /\ pending_at p <= now) ->
  is_due (foldl handle (new_scheduler policy) (first :: rest)) now = true.
Proof.
  intros Hnow.
  assert (forall s events, Credit.policy s = policy ->
    (exists d, deadline s = Some d /\
       (d <= now \/ exists p, p ∈ events /\ urgent policy p = true /\ pending_at p <= now)) ->
    is_due (foldl handle s events) now = true) as Hloop.
  { intros s events. revert s. induction events as [|p events IH]; intros s Hpol (d & Hd & Hd').
    - unfold is_due. simpl. rewrite Hd. apply N.leb_le. destruct Hd' as [|(p & Hp & _)]; [done|].
      by apply elem_of_nil in Hp.
    - simpl. apply IH; [by rewrite handle_policy|].
      destruct (handle_deadline s p) as (d' & Hnew & Hle & _ & Hurg).
      exists d'. split; [done|]. rewrite Hpol in Hurg.
      destruct Hd' as [|(q & [->|Hq]%elem_of_cons & Hu & Hqn)].
      + left. specialize (Hle d Hd). lia.
      + left. specialize (Hurg Hu). lia.
      + right. eauto. }
  simpl. destruct (handle_deadline (new_scheduler policy) first) as (d & Hd & _ & Hfirst & Hurg).
  apply Hloop; [apply handle_policy|]. exists d. split; [done|].
  specialize (Hfirst eq_refl). simpl in *.
  destruct Hnow as [|(p & [->|Hp]%elem_of_cons & Hu & Hpn)].
  - left. lia.
  - left. specialize (Hurg Hu). lia.
  - right. eauto.
Qed.

Lemma credit_due_witness :
  is_due (foldl handle (new_scheduler (mkCreditPolicy 8 (Some 100) 25))
            [Noted 0 1 10; Noted 20 2 20]) 25 = true.
Proof. apply (credit_due (mkCreditPolicy 8 (Some 100) 25)). left. discriminate. Defined.
End Credit.

(** ** The receive budget *)
Module Budget.
Import TransferWindow.

(** [ReceiveBudget::offer] on a budget of [total] bytes of which [reserved] are taken. *)
Definition offer (total reserved max_frame_bytes : N) : option (N * N) :=
  transfer_receive_window (total - reserved) max_frame_bytes.

(** What [reserve] computes from the value it read before it tries to exchange it. *)
Definition reserve_next (total current bytes : N) : option N :=
  next ← checked_add_u64 current bytes;
  if next <=? total then Some next else None.

(** Where a thread is: outside, in the loop of [reserve] with the value it read, or
    holding a reservation. *)
Inductive thread :=
| Outside
| Reserving (current bytes : N)
| Holding (bytes : N).

(** The atomic counter and the threads. *)
Definition state : Type := N * list thread.

(** One atomic action of one thread.  A weak compare-exchange may fail although the
    counter holds the expected value. *)
Inductive step (total : N) : state -> state -> Prop :=
| step_load reserved threads i bytes :
    threads !! i = Some Outside ->
    step total (reserved, threads) (reserved, <[i := Reserving reserved bytes]> threads)
| step_refused reserved threads i current bytes :
    threads !! i = Some (Reserving current bytes) ->
    reserve_next total current bytes = None ->
    step total (reserved, threads) (reserved, <[i := Outside]> threads)
| step_exchanged reserved threads i bytes next :
    threads !! i = Some (Reserving reserved bytes) ->
    reserve_next total reserved bytes = Some next ->
    step total (reserved, threads) (next, <[i := Holding bytes]> threads)
| step_retry reserved threads i current bytes next :
    threads !! i = Some (Reserving current bytes) ->
    reserve_next total current bytes = Some next ->
    step total (reserved, threads) (reserved, <[i := Reserving reserved bytes]> threads)
| step_drop reserved threads i bytes :
    threads !! i = Some (Holding bytes) ->
    step total (reserved, threads)
      (wrapping_sub_u64 reserved bytes, <[i := Outside]> threads).

(** The bytes the threads hold. *)
Definition held (t : thread) : N := match t with Holding bytes => bytes | _ => 0 end.
Definition held_total (threads : list thread) : N := foldr (fun t n => held t + n) 0 threads.

Lemma held_total_insert threads i t t' :
  threads !! i = Some t ->
  held_total (<[i := t']> threads) + held t = held_total threads + held t'.
Proof.
  revert i. induction threads as [|x threads IH]; intros [|i] Hi; simplify_eq/=; [lia|].
  specialize (IH i Hi). lia.
Qed.

Lemma reserve_next_Some total current bytes next :
  reserve_next total current bytes = Some next <->
  next = current + bytes /\ next <= total /\ next <= u64_max.
Proof.
  unfold reserve_next. rewrite bind_Some. setoid_rewrite checked_add_u64_Some. split.
  - intros (n & [-> ?] & Hn). destruct (N.leb_spec (current + bytes) total); naive_solver.
  - intros (-> & ? & ?). exists (current + bytes). split; [done|].
    destruct (N.leb_spec (current + bytes) total); [done|lia].
Qed.

Definition budget_ok (total : N) (st : state) : Prop :=
  fst st = held_total (snd st) /\ fst st <= total.

Lemma step_ok total st st' :
  total <= u64_max -> budget_ok total st -> step total st st' -> budget_ok total st'.
Proof.
  intros Hu [Heq Hle]. unfold budget_ok.
  destruct 1 as [reserved threads i bytes Hi|reserved threads i current bytes Hi _|
    reserved threads i bytes next Hi Hnext|reserved threads i current bytes next Hi _|
    reserved threads i bytes Hi]; simpl in *.
  all: match goal with
       | Hk : ?l !! ?k = Some _ |- context [<[?k := ?t']> ?l] =>
           pose proof (held_total_insert l k _ t' Hk) as Hins; simpl in Hins
       end.
  1,2,4: lia.
  - apply reserve_next_Some in Hnext as (-> & ? & ?). lia.
  - rewrite wrapping_sub_u64_exact by lia. lia.
Qed.

(** The receive budget is never overcommitted: however the threads of a process
    interleave their reservations and releases, the counter is the sum of what they
    hold and stays within the budget, so it returns to zero when all are released. *)
Theorem budget_never_overcommitted total n st :
  total <= u64_max -> rtc (step total) (0, replicate n Outside) st ->
  fst st = held_total (snd st) /\ fst st <= total.
Proof.
  intros Hu. revert st. apply (rtc_ind_r (budget_ok total)).
  - split; simpl; [|lia]. by induction n.
  - intros st st' _ Hstep Hok. by eapply step_ok.
Qed.

(** Two threads race: the second exchange fails, retries and is refused. *)
Lemma budget_never_overcommitted_witness :
  fst (6, [Holding 6; Outside]) = held_total [Holding 6; Outside] /\ 6 <= 10.
Proof.
  apply (budget_never_overcommitted 10 2 (6, [Holding 6; Outside])); [discriminate|].
  eapply rtc_l; [apply (step_load _ _ _ 0 6); reflexivity|].
  eapply rtc_l; [apply (step_load _ _ _ 1 5); reflexivity|].
  eapply rtc_l; [apply (step_exchanged _ _ _ 0 6 6); reflexivity|].
  eapply rtc_l; [apply (step_retry _ _ _ 1 0 5 5); reflexivity|].
  eapply rtc_l; [apply (step_refused _ _ _ 1 6 5); reflexivity|].
  apply rtc_refl.
Defined.

End Budget.
