(* ===== verification/TransferSubjects.v ===== *)
(** * Transfer subjects

    The session subjects of [crates/protocol/src/transfer.rs]: their derivation from the
    two logical connections and the transfer, the permission patterns that pin one of the
    connections, and the validation of a subject. *)

From Stdlib Require Import Ascii String.
From S2P Require Import Prelude RustStr Extern Base64 Protocol Wire Identifiers Subjects.

Local Open Scope string_scope.

Definition invalid_transfer (field message : string) : ProtocolError :=
  TransferError field message.

Inductive TransferSubjectKind :=
| UploadData
| DownloadData
| Control
| Signal.

Definition prefix (kind : TransferSubjectKind) : string :=
  match kind with
  | UploadData => "transfer.v1.upload.data"
  | DownloadData => "transfer.v1.download.data"
  | Control => "transfer.v1.control"
  | Signal => "transfer.v1.signal"
  end.

(** [TransferSubjects] *)
Record transfer_subjects := mkTransferSubjects {
  upload_data_subject : string;
  download_data_subject : string;
  control_subject : string;
  signal_subject : string;
}.

(** [!identity.is_empty() && identity.trim() == identity] *)
Definition is_identity (identity : string) : bool :=
  negb (String.eqb identity "") && String.eqb (trim identity) identity.

Section derivation.
Context `{Base64Url}.

Definition validate_transfer_id (value : string) : result unit ProtocolError :=
  match parse_nonce value ["transferId"] with
  | Ok _ => Ok tt
  | Err _ => Err (invalid_transfer "transferId" "expected canonical 128-bit base64url token")
  end.

Definition derive_transfer_subject (kind : TransferSubjectKind)
    (provider_connection_id consumer_connection_id transfer_id : string) :
    result string ProtocolError :=
  if negb (is_identity provider_connection_id) || negb (is_identity consumer_connection_id) then
    Err (invalid_transfer "connectionId" "expected non-empty unpadded logical identity")
  else
    let? _ := validate_transfer_id transfer_id in
    Ok (prefix kind +:+ "." +:+ encode_subject_token provider_connection_id +:+ "."
        +:+ encode_subject_token consumer_connection_id +:+ "." +:+ transfer_id).

(** One turn of the loop of [derive_transfer_permission_subject]. *)
Definition permission_token (identity : option string) : result string ProtocolError :=
  match identity with
  | None => Ok "*"
  | Some value =>
      if is_identity value then Ok (encode_subject_token value)
      else Err (invalid_transfer "connectionId" "expected non-empty unpadded logical identity")
  end.

Definition derive_transfer_permission_subject (kind : TransferSubjectKind)
    (provider_connection_id consumer_connection_id : option string) :
    result string ProtocolError :=
  match provider_connection_id, consumer_connection_id with
  | None, None =>
      Err (invalid_transfer "connectionId" "permission must pin at least one endpoint")
  | _, _ =>
      let? provider := permission_token provider_connection_id in
      let? consumer := permission_token consumer_connection_id in
      Ok (prefix kind +:+ "." +:+ provider +:+ "." +:+ consumer +:+ ".*")
  end.

Definition derive_transfer_subjects (provider consumer transfer_id : string) :
    result transfer_subjects ProtocolError :=
  let? upload := derive_transfer_subject UploadData provider consumer transfer_id in
  let? download := derive_transfer_subject DownloadData provider consumer transfer_id in
  let? control := derive_transfer_subject Control provider consumer transfer_id in
  let? signal := derive_transfer_subject Signal provider consumer transfer_id in
  Ok {| upload_data_subject := upload; download_data_subject := download;
        control_subject := control; signal_subject := signal |}.

Definition derive_transfer_provider_upload_data_wildcard_subject (connection_id : string) :=
  derive_transfer_permission_subject UploadData (Some connection_id) None.
Definition derive_transfer_provider_download_data_wildcard_subject (connection_id : string) :=
  derive_transfer_permission_subject DownloadData (Some connection_id) None.
Definition derive_transfer_provider_control_wildcard_subject (connection_id : string) :=
  derive_transfer_permission_subject Control (Some connection_id) None.
Definition derive_transfer_provider_signal_wildcard_subject (connection_id : string) :=
  derive_transfer_permission_subject Signal (Some connection_id) None.
Definition derive_transfer_consumer_upload_data_wildcard_subject (connection_id : string) :=
  derive_transfer_permission_subject UploadData None (Some connection_id).
Definition derive_transfer_consumer_download_data_wildcard_subject (connection_id : string) :=
  derive_transfer_permission_subject DownloadData None (Some connection_id).
Definition derive_transfer_consumer_control_wildcard_subject (connection_id : string) :=
  derive_transfer_permission_subject Control None (Some connection_id).
Definition derive_transfer_consumer_signal_wildcard_subject (connection_id : string) :=
  derive_transfer_permission_subject Signal None (Some connection_id).

(** The checks of one identity token in [validate_transfer_subject]. *)
Definition validate_identity_token (token : string) : result unit ProtocolError :=
  let? _ := map_err (fun _ => invalid_transfer "subject" "invalid logical identity token")
              (validate_subject_token token ["subject"]) in
  let? bytes := ok_or (b64_decode token)
                  (invalid_transfer "subject" "invalid identity encoding") in
  if negb (is_utf8 bytes) then
    Err (invalid_transfer "subject" "identity must encode UTF-8")
  else if negb (is_identity bytes) then
    Err (invalid_transfer "subject" "invalid logical identity")
  else Ok tt.

(** The loop over the kinds; [break] leaves it for the final error. *)
Fixpoint validate_kinds (kinds : list TransferSubjectKind) (subject : string) :
    result TransferSubjectKind ProtocolError :=
  let no_match :=
    Err (invalid_transfer "subject" "not an exact canonical Transfer v1 subject") in
  match kinds with
  | [] => no_match
  | kind :: kinds =>
      match strip_prefix (prefix kind +:+ ".") subject with
      | None => validate_kinds kinds subject
      | Some tail =>
          match split "." tail with
          | [provider; consumer; transfer_id] =>
              let? _ := validate_identity_token provider in
              let? _ := validate_identity_token consumer in
              let? _ := validate_transfer_id transfer_id in
              Ok kind
          | _ => no_match
          end
      end
  end.

Definition validate_transfer_subject (subject : string) :
    result TransferSubjectKind ProtocolError :=
  validate_kinds [UploadData; DownloadData; Control; Signal] subject.
End derivation.

(** ** Exactness *)

Section exactness.
Context `{Base64UrlLaws}.

Lemma validate_transfer_id_ok value :
  validate_transfer_id value = Ok tt <->
  exists bytes, String.length bytes = NONCE_BYTES /\ value = b64_encode bytes.
Proof.
  unfold validate_transfer_id. pose proof (parse_nonce_ok value ["transferId"] value) as Hn.
  destruct (parse_nonce value ["transferId"]) as [text|] eqn:Hp.
  - apply parse_nonce_ok in Hp as [-> Hb]. by split.
  - naive_solver.
Qed.

Lemma validate_identity_token_ok token :
  validate_identity_token token = Ok tt <->
  exists identity, is_utf8 identity = true /\ is_identity identity = true /\
                   token = subject_token identity.
Proof.
  unfold validate_identity_token, subject_token. split.
  - rewrite let_ok. intros (u & Hu & Hv). rewrite map_err_ok in Hu.
    apply validate_subject_token_ok in Hu as (-> & identity & _ & Hutf & ->).
    rewrite b64_decode_encode in Hv. simpl in Hv. rewrite Hutf in Hv. simpl in Hv.
    destruct (is_identity identity) eqn:Hid; [|done]. by exists identity.
  - intros (identity & Hutf & Hid & ->).
    rewrite (proj2 (validate_subject_token_ok _ _ (b64_encode identity))).
    + simpl. rewrite b64_decode_encode. simpl. by rewrite Hutf, Hid.
    + split; [done|]. exists identity. split_and!; [by destruct identity|done..].
Qed.

Definition session_subject (kind : TransferSubjectKind) (p c id : string) : string :=
  prefix kind +:+ "." +:+ subject_token p +:+ "." +:+ subject_token c +:+ "." +:+ id.

Lemma derive_transfer_subject_ok kind p c id s :
  derive_transfer_subject kind p c id = Ok s <->
  is_identity p = true /\ is_identity c = true /\ validate_transfer_id id = Ok tt /\
  s = session_subject kind p c id.
Proof.
  unfold derive_transfer_subject, session_subject, encode_subject_token.
  destruct (is_identity p), (is_identity c); simpl; try naive_solver.
  destruct (validate_transfer_id id) as [[]|]; naive_solver.
Qed.

Lemma transfer_id_no_dot id : validate_transfer_id id = Ok tt -> contains_char "." id = false.
Proof.
  intros (bytes & _ & ->)%validate_transfer_id_ok. by apply (subject_token_excludes "." bytes).
Qed.

Lemma strip_other_prefix kind kind' tail :
  strip_prefix (prefix kind +:+ ".") (prefix kind' +:+ "." +:+ tail) =
  if bool_decide (prefix kind = prefix kind') then Some tail else None.
Proof. destruct kind, kind'; reflexivity. Qed.

Lemma split_session p c id :
  validate_transfer_id id = Ok tt ->
  split "." (subject_token p +:+ "." +:+ subject_token c +:+ "." +:+ id)
    = [subject_token p; subject_token c; id].
Proof.
  intros Hid. rewrite !split_subject_token, split_word; [done|]. by apply transfer_id_no_dot.
Qed.

Lemma validate_kinds_ok kinds subject kind :
  validate_kinds kinds subject = Ok kind ->
  exists p c id, is_utf8 p = true /\ is_utf8 c = true /\
    derive_transfer_subject kind p c id = Ok subject.
Proof.
  induction kinds as [|k kinds IH]; [done|]. cbn [validate_kinds].
  destruct (strip_prefix (prefix k +:+ ".") subject) as [tail|] eqn:Hs; [|done].
  apply strip_prefix_Some in Hs.
  destruct (split "." tail) as [|a [|b [|id [|]]]] eqn:Htail; try done. intros Hv.
  apply let_ok in Hv as ([] & Ha & Hv). apply let_ok in Hv as ([] & Hb & Hv).
  apply let_ok in Hv as ([] & Hid & [= <-]).
  apply validate_identity_token_ok in Ha as (p & Hup & Hp & ->).
  apply validate_identity_token_ok in Hb as (c & Huc & Hc & ->).
  exists p, c, id. split_and!; [done..|]. apply derive_transfer_subject_ok.
  split_and!; [done..|]. rewrite Hs, append_assoc. unfold session_subject. f_equal.
  simpl. f_equal. rewrite <- (join_split "." tail), Htail. done.
Qed.

Lemma validate_derived kind p c id :
  is_utf8 p = true -> is_utf8 c = true -> is_identity p = true -> is_identity c = true ->
  validate_transfer_id id = Ok tt ->
  validate_transfer_subject (session_subject kind p c id) = Ok kind.
Proof.
  intros Hup Huc Hp Hc Hid. unfold validate_transfer_subject, session_subject.
  cbn [validate_kinds]. rewrite !strip_other_prefix.
  destruct kind;
    repeat match goal with
      | |- context [bool_decide ?P] =>
          let b := eval vm_compute in (bool_decide P) in change (bool_decide P) with b
      end; cbv iota;
    rewrite split_session, !(proj2 (validate_identity_token_ok _)), Hid by eauto; done.
Qed.

Definition prefix_tokens (kind : TransferSubjectKind) : list string :=
  match kind with
  | UploadData => ["transfer"; "v1"; "upload"; "data"]
  | DownloadData => ["transfer"; "v1"; "download"; "data"]
  | Control => ["transfer"; "v1"; "control"]
  | Signal => ["transfer"; "v1"; "signal"]
  end.

Lemma split_prefix kind tail :
  split "." (prefix kind +:+ "." +:+ tail) = (prefix_tokens kind ++ split "." tail)%list.
Proof. destruct kind; reflexivity. Qed.

(** The transfer subjects are exact.  Validation accepts a subject as one of kind
    [kind] precisely when it is the subject derived for that kind from two logical
    connections and a transfer, and a subject is derived for only one kind, provider,
    consumer and transfer, so two sessions never share a subject. *)
Theorem transfer_subject_exact subject kind :
  (validate_transfer_subject subject = Ok kind <->
   exists p c id, is_utf8 p = true /\ is_utf8 c = true /\
     derive_transfer_subject kind p c id = Ok subject) /\
  (forall p c id kind' p' c' id',
     derive_transfer_subject kind p c id = Ok subject ->
     derive_transfer_subject kind' p' c' id' = Ok subject ->
     kind = kind' /\ p = p' /\ c = c' /\ id = id').
Proof.
  split; [split|].
  - apply validate_kinds_ok.
  - intros (p & c & id & Hup & Huc & Hd). apply derive_transfer_subject_ok in Hd as (? & ? & ? & ->).
    by apply validate_derived.
  - intros p c id kind' p' c' id' Hd Hd'.
    apply derive_transfer_subject_ok in Hd as (_ & _ & Hid & Hs).
    apply derive_transfer_subject_ok in Hd' as (_ & _ & Hid' & Hs').
    assert (split "." subject = prefix_tokens kind ++ [subject_token p; subject_token c; id])%list
      as Ht by (subst subject; unfold session_subject; by rewrite split_prefix, split_session).
    assert (split "." subject = prefix_tokens kind' ++ [subject_token p'; subject_token c'; id'])%list
      as Ht' by (rewrite Hs'; unfold session_subject; by rewrite split_prefix, split_session).
    rewrite Ht in Ht'. destruct kind, kind'; try done; simpl in Ht';
      injection Ht' as ?%subject_token_inj ?%subject_token_inj ?; by subst.
Qed.

(** What the token of one endpoint of a permission matches. *)
Lemma permission_token_matches o t x :
  permission_token o = Ok t ->
  contains_char "." t = false /\
  (token_matches t (subject_token x) <-> forall y, o = Some y -> y = x).
Proof.
  destruct o as [y|]; unfold permission_token, token_matches.
  - destruct (is_identity y); [|done]. intros [= <-]. unfold encode_subject_token.
    split; [by apply subject_token_excludes|]. split.
    + intros [Hstar|Heq] ? [= <-]; [|by apply subject_token_inj].
      pose proof (subject_token_excludes "*" y eq_refl) as Hx. by rewrite Hstar in Hx.
    + intros Hy. right. by rewrite (Hy y eq_refl).
  - intros [= <-]. naive_solver.
Qed.

Lemma permission_pattern_tokens kind provider consumer pattern :
  derive_transfer_permission_subject kind provider consumer = Ok pattern ->
  exists tp tc, permission_token provider = Ok tp /\ permission_token consumer = Ok tc /\
    split "." pattern = (prefix_tokens kind ++ [tp; tc; "*"])%list.
Proof.
  intros Hpat.
  assert (exists tp tc, permission_token provider = Ok tp /\ permission_token consumer = Ok tc /\
            pattern = prefix kind +:+ "." +:+ tp +:+ "." +:+ tc +:+ ".*") as (tp & tc & Hp & Hc & ->).
  { unfold derive_transfer_permission_subject in Hpat.
    destruct provider, consumer; [..|done];
      apply let_ok in Hpat as (tp & ? & Hpat); apply let_ok in Hpat as (tc & ? & [= <-]); eauto. }
  exists tp, tc. split_and!; [done..|]. rewrite split_prefix.
  change (".*") with (String "." "*"). simpl ("." +:+ _).
  destruct (permission_token_matches _ _ "" Hp) as [? _], (permission_token_matches _ _ "" Hc) as [? _].
  by rewrite !split_append.
Qed.

(** Patterns of equally long literal prefixes. *)
Lemma same_prefix_matches ks ks' ps ss :
  Forall (fun t => t <> "*") ks -> List.length ks = List.length ks' ->
  Forall2 token_matches (ks ++ ps) (ks' ++ ss) <-> ks = ks' /\ Forall2 token_matches ps ss.
Proof.
  revert ks'. induction ks as [|k ks IH]; intros [|k' ks'] Hks Hlen; try done; simpl; [naive_solver|].
  apply Forall_cons in Hks as [Hk Hks]. rewrite Forall2_cons, IH by (done || simpl in Hlen; lia).
  unfold token_matches at 1. naive_solver.
Qed.

(** A transfer permission reaches exactly the sessions of the connection it pins:
    its pattern matches a session subject precisely when the kinds agree and every
    connection it names is that endpoint of the session. *)
Theorem transfer_permission_scope kind provider consumer pattern kind' p c id subject :
  derive_transfer_permission_subject kind provider consumer = Ok pattern ->
  derive_transfer_subject kind' p c id = Ok subject ->
  star_matches pattern subject <->
  kind = kind' /\ (forall x, provider = Some x -> x = p) /\ (forall x, consumer = Some x -> x = c).
Proof.
  intros (tp & tc & Hp & Hc & Hpat)%permission_pattern_tokens Hsub.
  apply derive_transfer_subject_ok in Hsub as (_ & _ & Hid & ->).
  unfold star_matches, session_subject. rewrite Hpat, split_prefix, split_session by done.
  rewrite <- (proj2 (permission_token_matches _ _ p Hp)), <- (proj2 (permission_token_matches _ _ c Hc)).
  destruct (decide (List.length (prefix_tokens kind) = List.length (prefix_tokens kind'))) as [Hl|Hl].
  - rewrite same_prefix_matches by (done || by destruct kind; repeat constructor).
    rewrite !Forall2_cons, Forall2_nil. unfold token_matches at 3.
    destruct kind, kind'; naive_solver.
  - split; [|intros [-> _]; done]. intros Hf%Forall2_length. rewrite !length_app in Hf.
    simpl in Hf. lia.
Qed.
End exactness.

(** ** Evaluated examples *)

Local Existing Instances rfc4648 rfc4648_laws.

(** The encoding of sixteen bytes 7. *)
Definition sample_transfer_id : string := "BwcHBwcHBwcHBwcHBwcHBw".

Lemma transfer_subject_exact_witness :
  validate_transfer_subject ("transfer.v1.control.cHJvdmlkZXI.Y29uc3VtZXI." +:+ sample_transfer_id)
    = Ok Control.
Proof.
  apply (transfer_subject_exact _ Control). exists "provider", "consumer", sample_transfer_id.
  by vm_compute.
Defined.

Lemma transfer_permission_scope_witness :
  star_matches "transfer.v1.control.cHJvdmlkZXI.*.*"
    ("transfer.v1.control.cHJvdmlkZXI.Y29uc3VtZXI." +:+ sample_transfer_id).
Proof.
  apply (transfer_permission_scope Control (Some "provider") None _ Control "provider" "consumer"
           sample_transfer_id); [by vm_compute..|naive_solver].
Defined.
