(* ===== verification/Transfer.v ===== *)
(** * Transfer messages

    The wire values of [crates/protocol/src/transfer.rs]: controls, signals, completion and
    EOF descriptors, grants and frame descriptors, with their validation.  Fields carry the
    source's names, prefixed by their record; a [U64s] counter is its number. *)

From Stdlib Require Import Ascii String.
From S2P Require Import Prelude RustStr Extern Protocol Wire Identifiers.
From S2P Require Import Permissions DataPlane TransferSubjects.

Import TransferWindow.

Local Open Scope string_scope.

Definition MAX_TRANSFER_CONTROL_BYTES : N := 8192.


Inductive TransferDirection := DirectionSend | DirectionReceive.

Inductive TransferFormat := FormatV1.

Inductive TransferControlKind := KindControl.

Inductive TransferControl :=
| Activate (format : TransferFormat) (kind : TransferControlKind) (transfer_id : string)
    (control_seq received_seq consumed_seq : N) (receive_max_frame_bytes : N)
    (receive_window_frames receive_window_bytes : option N)
| Credit (format : TransferFormat) (kind : TransferControlKind) (transfer_id : string)
    (control_seq received_seq consumed_seq consumed_bytes : N)
| Cancel (format : TransferFormat) (kind : TransferControlKind) (transfer_id : string)
    (control_seq received_seq consumed_seq consumed_bytes : N)
| EndAck (format : TransferFormat) (kind : TransferControlKind) (transfer_id : string)
    (control_seq received_seq consumed_seq consumed_bytes : N) (final_seq : N).

Definition control_transfer_id (c : TransferControl) : string :=
  match c with
  | Activate _ _ transfer_id _ _ _ _ _ _
  | Credit _ _ transfer_id _ _ _ _
  | Cancel _ _ transfer_id _ _ _ _
  | EndAck _ _ transfer_id _ _ _ _ _ => transfer_id
  end.

Definition control_seq (c : TransferControl) : N :=
  match c with
  | Activate _ _ _ control_seq _ _ _ _ _
  | Credit _ _ _ control_seq _ _ _
  | Cancel _ _ _ control_seq _ _ _
  | EndAck _ _ _ control_seq _ _ _ _ => control_seq
  end.

Definition validate_frame_limit (limit : N) : result unit ProtocolError :=
  if ((limit =? 0) || (MAX_TRANSFER_FRAME_BYTES <? limit))%N then
    Err (invalid_transfer "maxFrameBytes" "frame limit outside protocol bounds")
  else Ok tt.

Definition validate_cursors (received consumed bytes : N) : result unit ProtocolError :=
  if (received <? consumed)%N || negb (Bool.eqb (consumed =? 0)%N (bytes =? 0)%N) then
    Err (invalid_transfer "consumedSeq" "impossible consumption cursor or byte total")
  else Ok tt.

Inductive TransferCompleteKind := KindComplete.

Record TransferComplete := mkTransferComplete {
  complete_format : TransferFormat;
  complete_kind : TransferCompleteKind;
  complete_transfer_id : string;
  complete_final_seq : N;
  complete_size : N;
  complete_digest : string;
}.

Record TransferTerminal := mkTransferTerminal {
  terminal_final_seq : N;
  terminal_size : N;
  terminal_digest : string;
}.

Record TransferFileInfo := mkTransferFileInfo {
  info_key : string;
  info_size : N;
  info_updated_at : string;
  info_digest : string;
  info_content_type : option string;
  info_metadata : gmap string string;
}.

Inductive TransferErrorCode :=
| CodeInvalidRequest
| CodePermissionDenied
| CodeExpired
| CodeAuthorizationLost
| CodeDisconnected
| CodeDeliveryGap
| CodeWindowExceeded
| CodePayloadTooLarge
| CodeIntegrityFailed
| CodeStorageFailed
| CodeCommitFailed
| CodeClosed
| CodeNotFound
| CodeResourceExhausted
| CodeControlConflict
| CodeControlGap
| CodeCancelled.

Inductive TransferSignal :=
| SignalActivated (format : TransferFormat) (transfer_id : string) (control_seq : N)
    (request_id : string) (max_frame_bytes window_frames window_bytes : N)
| SignalCredit (format : TransferFormat) (transfer_id : string)
    (received_seq consumed_seq consumed_bytes : N)
| SignalCommitted (format : TransferFormat) (transfer_id : string) (final_seq : N)
    (info : TransferFileInfo)
| SignalCancelled (format : TransferFormat) (transfer_id : string)
| SignalError (format : TransferFormat) (transfer_id : string) (code : TransferErrorCode).

Definition signal_transfer_id (s : TransferSignal) : string :=
  match s with
  | SignalActivated _ transfer_id _ _ _ _ _
  | SignalCredit _ transfer_id _ _ _
  | SignalCommitted _ transfer_id _ _
  | SignalCancelled _ transfer_id
  | SignalError _ transfer_id _ => transfer_id
  end.

Record TransferGrantIdentity := mkTransferGrantIdentity {
  connection_id : string;
  session_key : string;
}.

Inductive TransferGrantKind := KindTransferGrant.

Record TransferOrigin := mkTransferOrigin {
  origin_api_id : string;
  origin_action : CatalogActionIdentity;
}.

Record TransferSendGrant := mkTransferSendGrant {
  send_origin : TransferOrigin;
  send_format : TransferFormat;
  send_kind : TransferGrantKind;
  send_service : string;
  send_transfer_id : string;
  send_expires_at : string;
  send_provider : TransferGrantIdentity;
  send_consumer : TransferGrantIdentity;
  send_data_subject : string;
  send_control_subject : string;
  send_signal_subject : string;
  send_max_frame_bytes : N;
  send_window_frames : N;
  send_window_bytes : N;
  send_max_bytes : option N;
  send_content_type : option string;
  send_metadata : option (gmap string string);
}.

Record TransferReceiveGrant := mkTransferReceiveGrant {
  receive_origin : TransferOrigin;
  receive_format : TransferFormat;
  receive_kind : TransferGrantKind;
  receive_service : string;
  receive_transfer_id : string;
  receive_expires_at : string;
  receive_provider : TransferGrantIdentity;
  receive_consumer : TransferGrantIdentity;
  receive_data_subject : string;
  receive_control_subject : string;
  receive_signal_subject : string;
  receive_max_frame_bytes : N;
  receive_window_frames : N;
  receive_window_bytes : N;
  receive_info : TransferFileInfo;
}.

Inductive TransferGrant :=
| GrantSend (grant : TransferSendGrant)
| GrantReceive (grant : TransferReceiveGrant).

Inductive TransferFrameKind :=
| FrameData
| FrameComplete
| FrameEof
| FrameControl
| FrameSignal.

Record TransferFrameDescriptor := mkTransferFrameDescriptor {
  frame_transfer_id : string;
  frame_direction : TransferDirection;
  frame_sequence : N;
  frame_kind : TransferFrameKind;
  frame_terminal : option TransferTerminal;
}.

Global Instance TransferDirection_eq_dec : EqDecision TransferDirection.
Proof. solve_decision. Defined.

Global Instance TransferTerminal_eq_dec : EqDecision TransferTerminal.
Proof. solve_decision. Defined.

(** [as_ref().is_some_and(String::is_empty)] *)
Definition is_some_empty (s : option string) : bool :=
  match s with Some s => String.eqb s "" | None => false end.

(** [metadata.keys().any(String::is_empty)] *)
Definition has_empty_key (metadata : gmap string string) : bool :=
  bool_decide (is_Some (metadata !! "")).

(** ** Validation *)

Section validation.
Context `{Base64Url, Rfc3339, Ed25519}.

(** [TransferControl::validate] *)
Definition validate_control (c : TransferControl) : result unit ProtocolError :=
  let? _ := validate_transfer_id (control_transfer_id c) in
  if (control_seq c =? 0)%N then
    Err (invalid_transfer "controlSeq" "control sequence must be nonzero")
  else
    match c with
    | Activate _ _ _ control_seq received_seq consumed_seq receive_max_frame_bytes
        receive_window_frames receive_window_bytes =>
        if negb (control_seq =? 1)%N || negb (received_seq =? 0)%N || negb (consumed_seq =? 0)%N
        then Err (invalid_transfer "activate" "activation requires sequence 1 and zero cursors")
        else
          let? _ := validate_frame_limit receive_max_frame_bytes in
          match receive_window_frames, receive_window_bytes with
          | None, None => Ok tt
          | Some frames, Some bytes =>
              validate_window frames bytes (N.min receive_max_frame_bytes bytes)
          | _, _ =>
              Err (invalid_transfer "activate" "a receive window declares both frames and bytes")
          end
    | Credit _ _ _ _ received_seq consumed_seq consumed_bytes
    | Cancel _ _ _ _ received_seq consumed_seq consumed_bytes =>
        validate_cursors received_seq consumed_seq consumed_bytes
    | EndAck _ _ _ _ received_seq consumed_seq consumed_bytes final_seq =>
        let? _ := validate_cursors received_seq consumed_seq consumed_bytes in
        if negb (final_seq =? received_seq)%N || negb (final_seq =? consumed_seq)%N then
          Err (invalid_transfer "finalSeq" "EOF acknowledgement requires all DATA consumed")
        else Ok tt
    end.

Definition validate_transfer_digest (value : string) : result unit ProtocolError :=
  let? encoded := ok_or (strip_prefix "SHA-256=" value)
                    (invalid_transfer "digest" "expected SHA-256 object digest") in
  let? bytes := ok_or (b64_decode encoded)
                  (invalid_transfer "digest" "invalid SHA-256 encoding") in
  if negb (Nat.eqb (String.length bytes) 32) || negb (String.eqb (b64_encode bytes) encoded) then
    Err (invalid_transfer "digest" "digest must encode exactly 32 bytes canonically")
  else Ok tt.

(** [TransferTerminal::validate] *)
Definition validate_terminal (t : TransferTerminal) : result unit ProtocolError :=
  if (MAX_SAFE_INTEGER <? terminal_size t)%N
     || negb (Bool.eqb (terminal_final_seq t =? 0)%N (terminal_size t =? 0)%N)
     || (terminal_size t <? terminal_final_seq t)%N
  then Err (invalid_transfer "size" "invalid final sequence or unsafe object size")
  else validate_transfer_digest (terminal_digest t).

(** [TransferFileInfo::validate] *)
Definition validate_info (i : TransferFileInfo) : result unit ProtocolError :=
  if String.eqb (info_key i) "" || (MAX_SAFE_INTEGER <? info_size i)%N
     || is_some_empty (info_content_type i) || has_empty_key (info_metadata i)
  then Err (invalid_transfer "info" "invalid logical file metadata or unsafe size")
  else if negb (is_rfc3339 (info_updated_at i)) then
    Err (invalid_transfer "updatedAt" "expected RFC3339 commit timestamp")
  else validate_transfer_digest (info_digest i).

(** [TransferSignal::validate] *)
Definition validate_signal (s : TransferSignal) : result unit ProtocolError :=
  let? _ := validate_transfer_id (signal_transfer_id s) in
  match s with
  | SignalActivated _ _ control_seq request_id max_frame_bytes window_frames window_bytes =>
      let? _ := validate_frame_limit max_frame_bytes in
      if negb (control_seq =? 1)%N || String.eqb request_id ""
         || negb (is_ok (validate_window window_frames window_bytes max_frame_bytes))
      then Err (invalid_transfer "activated" "invalid activation correlation or window limits")
      else Ok tt
  | SignalCredit _ _ received_seq consumed_seq consumed_bytes =>
      validate_cursors received_seq consumed_seq consumed_bytes
  | SignalCommitted _ _ final_seq info =>
      validate_terminal {| terminal_final_seq := final_seq; terminal_size := info_size info;
                           terminal_digest := info_digest info |}
  | SignalCancelled _ _ | SignalError _ _ _ => Ok tt
  end.

Definition decode_fixed (n : nat) (value field : string) : result string ProtocolError :=
  let? bytes := ok_or (b64_decode value) (invalid_transfer field "invalid base64url encoding") in
  if negb (String.eqb (b64_encode bytes) value) then
    Err (invalid_transfer field "noncanonical base64url encoding")
  else if negb (Nat.eqb (String.length bytes) n) then
    Err (invalid_transfer field "encoded value has wrong length")
  else Ok bytes.

Definition validate_session_key (identity : TransferGrantIdentity) : result unit ProtocolError :=
  let? key := decode_fixed 32 (session_key identity) "sessionKey" in
  let? _ := ok_or (verifying_key_from_bytes key)
              (invalid_transfer "sessionKey" "invalid Ed25519 public key") in
  Ok tt.

(** One turn of the loop over the grant's subjects. *)
Definition validate_grant_subject (provider consumer : TransferGrantIdentity) (id : string)
    (kind : TransferSubjectKind) (actual : string) : result unit ProtocolError :=
  let? expected :=
    derive_transfer_subject kind (connection_id provider) (connection_id consumer) id in
  if negb (String.eqb actual expected) then
    Err (invalid_transfer "subject" "grant subject does not match direction and pinned identities")
  else Ok tt.

(** The checks both directions share, on the tuple of fields [validate] takes out. *)
Definition validate_coordinates (origin : TransferOrigin) (service id expiry : string)
    (provider consumer : TransferGrantIdentity) (data control signal : string)
    (frame frames bytes : N) (data_kind : TransferSubjectKind) : result unit ProtocolError :=
  let? _ := validate_api_id (origin_api_id origin) in
  let? _ := validate_logical_name (identity_name (origin_action origin)) in
  if String.eqb service "" || negb (String.eqb (trim service) service) then
    Err (invalid_transfer "service" "expected non-empty logical service name")
  else if negb (is_rfc3339 expiry) then
    Err (invalid_transfer "expiresAt" "expected RFC3339 absolute expiry")
  else
    let? _ := validate_session_key provider in
    let? _ := validate_session_key consumer in
    let? _ := validate_frame_limit frame in
    let? _ := validate_window frames bytes frame in
    let? _ := validate_grant_subject provider consumer id data_kind data in
    let? _ := validate_grant_subject provider consumer id Control control in
    validate_grant_subject provider consumer id Signal signal.

(** [TransferGrant::validate] *)
Definition validate_grant (g : TransferGrant) : result unit ProtocolError :=
  match g with
  | GrantSend g =>
      let? _ := validate_coordinates (send_origin g) (send_service g) (send_transfer_id g)
                  (send_expires_at g) (send_provider g) (send_consumer g)
                  (send_data_subject g) (send_control_subject g) (send_signal_subject g)
                  (send_max_frame_bytes g) (send_window_frames g) (send_window_bytes g)
                  UploadData in
      if match send_max_bytes g with
         | Some value => (value =? 0)%N || (MAX_SAFE_INTEGER <? value)%N
         | None => false
         end
      then Err (invalid_transfer "maxBytes" "expected positive interoperable JSON integer")
      else if is_some_empty (send_content_type g)
              || match send_metadata g with Some m => has_empty_key m | None => false end
      then Err (invalid_transfer "metadata" "media type and metadata keys must be non-empty")
      else Ok tt
  | GrantReceive g =>
      let? _ := validate_coordinates (receive_origin g) (receive_service g)
                  (receive_transfer_id g) (receive_expires_at g) (receive_provider g)
                  (receive_consumer g) (receive_data_subject g) (receive_control_subject g)
                  (receive_signal_subject g) (receive_max_frame_bytes g)
                  (receive_window_frames g) (receive_window_bytes g) DownloadData in
      validate_info (receive_info g)
  end.
End validation.
