(* ===== verification/TransferProof.v ===== *)
(** * Transfer frames and provider proofs

    The admission of controls, signals and frames, the compact frame digest and the
    provider's signature over it, from [crates/protocol/src/transfer.rs]. *)

From Stdlib Require Import Ascii String.
From S2P Require Import Prelude RustStr Extern Json Transcript Base64 Protocol Wire Subjects.
From S2P Require Import DataPlane TransferSubjects Transfer.

Import TransferWindow.

Local Open Scope string_scope.

Definition TRANSFER_FRAME_DOMAIN_V1 : string := "trellis.transfer-frame.v1".
Definition TRANSFER_SERVER_PROOF_DOMAIN_V1 : string := "trellis.transfer-server-proof.v1".

(** ** Parsing bodies *)

Definition parse_body {T} `{JsonCodec T} (raw : string) : result T ProtocolError :=
  if String.eqb raw "" || (MAX_TRANSFER_CONTROL_BYTES <? N.of_nat (String.length raw))%N then
    Err (invalid_transfer "body" "control or signal body exceeds protocol bound")
  else map_err JsonError (from_slice raw).

Section parsing.
Context `{Base64Url, Rfc3339, Ed25519}.
Context `{JsonCodec TransferControl, JsonCodec TransferSignal, JsonCodec TransferComplete}.
Context `{JsonCodec TransferTerminal, JsonCodec TransferGrant}.

Definition parse_transfer_grant (raw : string) : result TransferGrant ProtocolError :=
  let? grant := parse_body raw in
  let? _ := validate_grant grant in
  Ok grant.

Definition parse_transfer_control (raw : string) : result TransferControl ProtocolError :=
  let? body := parse_body raw in
  let? _ := validate_control body in
  Ok body.

Definition parse_transfer_signal (raw : string) : result TransferSignal ProtocolError :=
  let? body := parse_body raw in
  let? _ := validate_signal body in
  Ok body.

Definition parse_transfer_complete (raw : string) : result TransferComplete ProtocolError :=
  let? body := parse_body raw in
  let? _ := validate_transfer_id (complete_transfer_id body) in
  let? _ := validate_terminal {| terminal_final_seq := complete_final_seq body;
                                 terminal_size := complete_size body;
                                 terminal_digest := complete_digest body |} in
  Ok body.

Definition parse_transfer_terminal (raw : string) : result TransferTerminal ProtocolError :=
  let? body := parse_body raw in
  let? _ := validate_terminal body in
  Ok body.

(** [TransferFrameDescriptor::validate] *)
Definition validate_descriptor (d : TransferFrameDescriptor) (payload : string) :
    result unit ProtocolError :=
  let? _ := validate_transfer_id (frame_transfer_id d) in
  match frame_kind d with
  | FrameData =>
      if (frame_sequence d =? 0)%N || String.eqb payload ""
         || (MAX_TRANSFER_FRAME_BYTES <? N.of_nat (String.length payload))%N
         || bool_decide (is_Some (frame_terminal d))
      then Err (invalid_transfer "data" "invalid DATA sequence, size or terminal metadata")
      else Ok tt
  | FrameEof =>
      let? terminal := ok_or (frame_terminal d)
                         (invalid_transfer "terminal" "EOF requires terminal metadata") in
      let? _ := validate_terminal terminal in
      if negb (String.eqb payload "") || negb (bool_decide (frame_direction d = DirectionReceive))
         || negb (terminal_final_seq terminal =? frame_sequence d)%N
      then Err (invalid_transfer "eof" "EOF must be empty and bind the final download sequence")
      else Ok tt
  | FrameComplete =>
      let? complete := parse_transfer_complete payload in
      if negb (bool_decide (frame_direction d = DirectionSend))
         || negb (frame_sequence d =? complete_final_seq complete)%N
         || negb (String.eqb (frame_transfer_id d) (complete_transfer_id complete))
         || bool_decide (is_Some (frame_terminal d))
      then Err (invalid_transfer "complete" "completion does not match frame identity")
      else Ok tt
  | FrameControl =>
      let? control := parse_transfer_control payload in
      if negb (control_seq control =? frame_sequence d)%N
         || negb (String.eqb (control_transfer_id control) (frame_transfer_id d))
         || bool_decide (is_Some (frame_terminal d))
      then Err (invalid_transfer "control" "control does not match frame identity")
      else Ok tt
  | FrameSignal =>
      let? signal := parse_transfer_signal payload in
      if negb (frame_sequence d =? 0)%N
         || negb (String.eqb (signal_transfer_id signal) (frame_transfer_id d))
         || bool_decide (is_Some (frame_terminal d))
      then Err (invalid_transfer "signal" "signal does not match frame identity")
      else Ok tt
  end.
End parsing.

(** ** Digests *)

(** The derived [Serialize] of a descriptor. *)
Definition direction_json (d : TransferDirection) : Json :=
  JString match d with DirectionSend => "send" | DirectionReceive => "receive" end.

Definition frame_kind_json (k : TransferFrameKind) : Json :=
  JString match k with
          | FrameData => "data" | FrameComplete => "complete" | FrameEof => "eof"
          | FrameControl => "control" | FrameSignal => "signal"
          end.

Definition terminal_json (t : TransferTerminal) : Json :=
  object [("finalSeq", JString (u64s (terminal_final_seq t)));
          ("size", JNumber (PosInt (terminal_size t)));
          ("digest", JString (terminal_digest t))].

Definition descriptor_json (d : TransferFrameDescriptor) : Json :=
  object ([("transferId", JString (frame_transfer_id d));
           ("direction", direction_json (frame_direction d));
           ("sequence", JString (u64s (frame_sequence d)));
           ("kind", frame_kind_json (frame_kind d))]
          ++ optional "terminal" terminal_json (frame_terminal d))%list.

Local Existing Instance json_tree.

Section digests.
Context `{Base64Url, Rfc3339, Ed25519, Sha256}.
Context `{JsonCodec TransferControl, JsonCodec TransferSignal, JsonCodec TransferComplete}.
Context `{!CanonicalJson}.

Definition hash_components (components : list string) : result string ProtocolError :=
  transcript_digest
    (invalid_transfer "proof" "proof component exceeds length-prefix range") components.

Definition transfer_frame_digest (descriptor : TransferFrameDescriptor) (payload : string) :
    result string ProtocolError :=
  let? _ := validate_descriptor descriptor payload in
  let? descriptor_bytes := canonicalize_json (descriptor_json descriptor) in
  hash_components [TRANSFER_FRAME_DOMAIN_V1; descriptor_bytes; sha256 payload].

Definition transfer_frame_digest_encoded (descriptor : TransferFrameDescriptor)
    (payload : string) : result string ProtocolError :=
  let? digest := transfer_frame_digest descriptor payload in
  Ok (b64_encode digest).

(** [matches!((kind, descriptor.kind, descriptor.direction), ..)] *)
Definition provider_originated (kind : TransferSubjectKind) (d : TransferFrameDescriptor) : bool :=
  match kind, frame_kind d, frame_direction d with
  | DownloadData, (FrameData | FrameEof), DirectionReceive => true
  | Signal, FrameSignal, _ => true
  | _, _, _ => false
  end.

Definition transfer_server_proof_digest (context_digest subject : string)
    (descriptor : TransferFrameDescriptor) (payload : string) : result string ProtocolError :=
  let? kind := validate_transfer_subject subject in
  if negb (bool_decide (last (split "." subject) = Some (frame_transfer_id descriptor)))
     || negb (provider_originated kind descriptor)
  then Err (invalid_transfer "subject"
              "provider proof must address this transfer's download DATA or signal subject")
  else
    let? context := decode_fixed 32 context_digest "contextDigest" in
    let? frame_digest := transfer_frame_digest descriptor payload in
    hash_components [TRANSFER_SERVER_PROOF_DOMAIN_V1; context; subject; frame_digest].

Definition transfer_server_proof_digest_encoded (context_digest subject : string)
    (descriptor : TransferFrameDescriptor) (payload : string) : result string ProtocolError :=
  let? digest := transfer_server_proof_digest context_digest subject descriptor payload in
  Ok (b64_encode digest).

(** ** Proofs *)

Record TransferServerProof := mkTransferServerProof { proof_text : string }.

(** [TransferServerProof::parse] *)
Definition parse_proof (value : string) : result TransferServerProof ProtocolError :=
  let? _ := decode_fixed 64 value "proof" in
  Ok (mkTransferServerProof value).

Definition sign_transfer_server_proof (context_digest subject : string)
    (descriptor : TransferFrameDescriptor) (payload : string) (key : SigningKey) :
    result TransferServerProof ProtocolError :=
  let? digest := transfer_server_proof_digest context_digest subject descriptor payload in
  Ok (mkTransferServerProof (b64_encode (sign key digest))).

Definition verify_transfer_server_proof (proof : TransferServerProof)
    (context_digest subject : string) (descriptor : TransferFrameDescriptor) (payload : string)
    (key : VerifyingKey) : result unit ProtocolError :=
  let? digest := transfer_server_proof_digest context_digest subject descriptor payload in
  let? signature := decode_fixed 64 (proof_text proof) "proof" in
  if verify_strict key digest signature then Ok tt
  else Err (invalid_transfer "proof" "provider signature verification failed").

Definition verify_transfer_server_proof_encoded (proof : TransferServerProof)
    (context_digest subject : string) (descriptor : TransferFrameDescriptor)
    (payload provider_key : string) : result unit ProtocolError :=
  let? bytes := decode_fixed 32 provider_key "sessionKey" in
  let? key := ok_or (verifying_key_from_bytes bytes)
                (invalid_transfer "sessionKey" "invalid Ed25519 public key") in
  verify_transfer_server_proof proof context_digest subject descriptor payload key.
End digests.

(** ** What a digest binds *)

(** A descriptor whose object size is exact in JSON, as validation demands. *)
Definition descriptor_exact (d : TransferFrameDescriptor) : Prop :=
  forall t, frame_terminal d = Some t -> (terminal_size t <= MAX_SAFE_INTEGER)%N.

Lemma terminal_same a b : json_same (terminal_json a) (terminal_json b) -> a = b.
Proof.
  intros Hs. pose proof (object_same "finalSeq" _ _ Hs) as Hf.
  pose proof (object_same "size" _ _ Hs) as Hz. pose proof (object_same "digest" _ _ Hs) as Hd.
  apply unsigned_same in Hz. cbn in Hf, Hd. apply decimal_inj in Hf.
  destruct a, b; simpl in *. congruence.
Qed.

Lemma descriptor_same a b : json_same (descriptor_json a) (descriptor_json b) -> a = b.
Proof.
  intros Hs. pose proof (object_same "transferId" _ _ Hs) as Hi.
  pose proof (object_same "direction" _ _ Hs) as Hd. pose proof (object_same "sequence" _ _ Hs) as Hq.
  pose proof (object_same "kind" _ _ Hs) as Hk. pose proof (object_same "terminal" _ _ Hs) as Ht.
  cbn in Hi, Hd, Hq, Hk. apply decimal_inj in Hq. destruct a as [i d q k t], b as [i' d' q' k' t'].
  cbn [frame_transfer_id frame_direction frame_sequence frame_kind frame_terminal] in *.
  subst i' q'. f_equal.
  - by destruct d, d'.
  - by destruct k, k'.
  - destruct t, t'; cbn in Ht; [|done..]. f_equal. by apply terminal_same.
Qed.

Lemma descriptor_json_exact d :
  descriptor_exact d -> json_sorted (descriptor_json d) /\ json_exact (descriptor_json d).
Proof.
  intros He. assert (forall t, frame_terminal d = Some t ->
    json_sorted (terminal_json t) /\ json_exact (terminal_json t)) as Ht.
  { intros t Ht. split; [apply object_sorted; by repeat constructor|].
    apply object_exact. repeat constructor. simpl. apply N.ltb_ge. by apply He. }
  split; [apply object_sorted|apply object_exact];
    (apply Forall_app; split; [by repeat constructor|]);
    (destruct (frame_terminal d) as [t|]; constructor; [|done]; by apply Ht).
Qed.

Section binding.
Context `{Base64Url, Rfc3339, Ed25519, Sha256}.
Context `{JsonCodec TransferControl, JsonCodec TransferSignal, JsonCodec TransferComplete}.
Context `{!CanonicalJson}.
Context `{!CanonicalJsonLaws}.

Lemma validate_descriptor_exact d payload :
  validate_descriptor d payload = Ok tt -> descriptor_exact d.
Proof.
  unfold validate_descriptor, descriptor_exact. rewrite let_ok. intros (_ & _ & Hv) t Ht.
  rewrite Ht in Hv. destruct (frame_kind d).
  - by rewrite !orb_true_r in Hv.
  - apply let_ok in Hv as (? & _ & Hv). by rewrite !orb_true_r in Hv.
  - apply let_ok in Hv as (t' & [= ->] & Hv). apply let_ok in Hv as ([] & Hv & _).
    unfold validate_terminal in Hv. destruct (N.ltb_spec MAX_SAFE_INTEGER (terminal_size t')); done.
  - apply let_ok in Hv as (? & _ & Hv). by rewrite !orb_true_r in Hv.
  - apply let_ok in Hv as (? & _ & Hv). by rewrite !orb_true_r in Hv.
Qed.

Lemma frame_digest_components d payload digest :
  transfer_frame_digest d payload = Ok digest ->
  descriptor_exact d /\
  exists text, canonical_text (descriptor_json d) = Ok text /\
    hash_components [TRANSFER_FRAME_DOMAIN_V1; text; sha256 payload] = Ok digest.
Proof.
  unfold transfer_frame_digest, canonicalize_json. rewrite let_ok. intros ([] & He & Hd).
  apply let_ok in Hd as (text & Ht & Hd). rewrite map_err_ok in Ht.
  split; [by eapply validate_descriptor_exact|eauto].
Qed.

Lemma frame_digest_binds d payload d' payload' digest :
  transfer_frame_digest d payload = Ok digest -> transfer_frame_digest d' payload' = Ok digest ->
  (d = d' /\ payload = payload') \/ sha256_collision.
Proof.
  intros (He & t & Ht & Hh)%frame_digest_components
         (He' & t' & Ht' & Hh')%frame_digest_components.
  destruct (transcript_digest_binds _ _ _ _ _ Hh Hh') as [[= -> Hp]|]; [|by right].
  destruct (sha256_binds _ _ Hp) as [->|]; [|by right]. left. split; [|done].
  apply descriptor_same. destruct (descriptor_json_exact d He), (descriptor_json_exact d' He').
  by eapply canonical_text_same.
Qed.

Lemma decode_fixed_ok n value field bytes :
  decode_fixed n value field = Ok bytes -> value = b64_encode bytes.
Proof.
  unfold decode_fixed. rewrite let_ok. intros (b & _ & Hb).
  destruct (String.eqb_spec (b64_encode b) value) as [<-|]; [|done].
  simpl in Hb. case_match; [done|]. by injection Hb as ->.
Qed.

Lemma proof_digest_components ctx s d payload digest :
  transfer_server_proof_digest ctx s d payload = Ok digest ->
  exists context frame, ctx = b64_encode context /\ transfer_frame_digest d payload = Ok frame /\
    hash_components [TRANSFER_SERVER_PROOF_DOMAIN_V1; context; s; frame] = Ok digest.
Proof.
  unfold transfer_server_proof_digest. rewrite let_ok. intros (kind & _ & Hd).
  destruct (_ || _); [done|]. apply let_ok in Hd as (context & Hc & Hd).
  apply let_ok in Hd as (frame & Hf & Hd). apply decode_fixed_ok in Hc. eauto.
Qed.

(** What the digest a provider signs binds.  Two accepted inputs with one digest are
    the same authorization context, subject, frame descriptor and payload, and the digest
    of a proof is never that of a caller's frame, unless SHA-256 collides.  The encoding
    of the components before hashing is therefore unambiguous and the two domains are
    separate. *)
Theorem proof_digest_binds ctx s d payload digest :
  transfer_server_proof_digest ctx s d payload = Ok digest ->
  (forall ctx' s' d' payload',
     transfer_server_proof_digest ctx' s' d' payload' = Ok digest ->
     (ctx = ctx' /\ s = s' /\ d = d' /\ payload = payload') \/ sha256_collision) /\
  (forall d' payload', transfer_frame_digest d' payload' = Ok digest -> sha256_collision).
Proof.
  intros (c & f & -> & Hf & Hh)%proof_digest_components. split.
  - intros ctx' s' d' payload' (c' & f' & -> & Hf' & Hh')%proof_digest_components.
    destruct (transcript_digest_binds _ _ _ _ _ Hh Hh') as [[= -> -> ->]|]; [|by right].
    destruct (frame_digest_binds _ _ _ _ _ Hf Hf') as [[-> ->]|]; [by left|by right].
  - intros d' payload' (_ & t & _ & Hh')%frame_digest_components.
    by destruct (transcript_digest_binds _ _ _ _ _ Hh Hh') as [[=]|].
Qed.
End binding.

(** ** Signing and verifying *)

Section signing.
Context `{Base64UrlLaws, Rfc3339, Ed25519Laws, Sha256}.
Context `{JsonCodec TransferControl, JsonCodec TransferSignal, JsonCodec TransferComplete}.
Context `{!CanonicalJson}.

Lemma decode_fixed_encode n bytes field :
  String.length bytes = n -> decode_fixed n (b64_encode bytes) field = Ok bytes.
Proof.
  intros <-. unfold decode_fixed. rewrite b64_decode_encode. simpl.
  by rewrite String.eqb_refl, Nat.eqb_refl.
Qed.

(** A proof a provider signs is accepted for the same context, subject, frame and
    payload under the provider's key, given as a key or in its wire encoding, and the
    text of the proof is one [parse] accepts. *)
Theorem signed_proof_verifies ctx s d payload key proof :
  sign_transfer_server_proof ctx s d payload key = Ok proof ->
  verify_transfer_server_proof proof ctx s d payload (verifying_key key) = Ok tt /\
  verify_transfer_server_proof_encoded proof ctx s d payload
    (b64_encode (verifying_key_to_bytes (verifying_key key))) = Ok tt /\
  parse_proof (proof_text proof) = Ok proof.
Proof.
  unfold sign_transfer_server_proof. rewrite let_ok. intros (digest & Hd & [= <-]).
  assert (verify_transfer_server_proof (mkTransferServerProof (b64_encode (sign key digest)))
            ctx s d payload (verifying_key key) = Ok tt) as Hv.
  { unfold verify_transfer_server_proof. rewrite Hd. cbn [proof_text].
    by rewrite decode_fixed_encode, verify_sign by apply sign_length. }
  split_and!; [done| |].
  - unfold verify_transfer_server_proof_encoded.
    rewrite decode_fixed_encode, verifying_key_bytes by apply verifying_key_length. done.
  - unfold parse_proof. cbn [proof_text]. by rewrite decode_fixed_encode by apply sign_length.
Qed.
End signing.

(** ** Evaluated examples *)

Local Existing Instances rfc4648 rfc4648_laws.

Global Instance TransferFrameKind_eq_dec : EqDecision TransferFrameKind.
Proof. solve_decision. Defined.

Global Instance TransferFrameDescriptor_eq_dec : EqDecision TransferFrameDescriptor.
Proof. solve_decision. Defined.

(** Implementations of the parameters for the examples: a hash and a signature of the right
    length that depend on their input, and a JSON encoding that knows one descriptor. *)
Definition sample_descriptor : TransferFrameDescriptor :=
  {| frame_transfer_id := sample_transfer_id; frame_direction := DirectionReceive;
     frame_sequence := 1; frame_kind := FrameData; frame_terminal := None |}.

Definition sample_canonical : CanonicalJson := canonical_table [descriptor_json sample_descriptor].

Definition sample_canonical_laws : @CanonicalJsonLaws sample_canonical :=
  canonical_table_laws [descriptor_json sample_descriptor].

Definition sample_body_codec (T : Type) : JsonCodec T :=
  {| to_vec := fun _ => Err "unsupported"; from_slice := fun _ => Err "unsupported" |}.

Definition sample_context : string := "AAAAAAAAAAAAAAAAAAAAAAAAAAAAAAAAAAAAAAAAAAA".

Definition sample_subject : string :=
  "transfer.v1.download.data.cHJvdmlkZXI.Y29uc3VtZXI." +:+ sample_transfer_id.

Local Existing Instances sample_sha256 sample_ed25519 sample_ed25519_laws
  sample_canonical sample_canonical_laws sample_body_codec.

Definition sample_rfc3339 : Rfc3339 := fun _ => Some 0%Z.
Local Existing Instance sample_rfc3339.

Definition sample_digest : string :=
  Eval vm_compute in
    match transfer_server_proof_digest sample_context sample_subject sample_descriptor "data" with
    | Ok digest => digest
    | Err _ => ""
    end.

Lemma proof_digest_binds_witness :
  transfer_server_proof_digest sample_context sample_subject sample_descriptor "data"
    = Ok sample_digest /\
  Forall (fun payload =>
      transfer_server_proof_digest sample_context sample_subject sample_descriptor payload
        = Ok sample_digest -> payload = "data" \/ sha256_collision) ["data"; "atad"].
Proof.
  assert (transfer_server_proof_digest sample_context sample_subject sample_descriptor "data"
          = Ok sample_digest) as Hsample by (vm_compute; reflexivity).
  pose proof (proof_digest_binds _ _ _ _ _ Hsample) as [Hbinds _]. split; [done|].
  apply Forall_forall. intros payload _ [(_ & _ & _ & <-)|Hc]%Hbinds; [by left|by right].
Defined.

Definition sample_key : SigningKey := true.

Definition sample_proof : TransferServerProof :=
  Eval vm_compute in
    match sign_transfer_server_proof sample_context sample_subject sample_descriptor "data"
            sample_key with
    | Ok proof => proof
    | Err _ => mkTransferServerProof ""
    end.

Lemma signed_proof_verifies_witness :
  sign_transfer_server_proof sample_context sample_subject sample_descriptor "data" sample_key
    = Ok sample_proof /\
  verify_transfer_server_proof sample_proof sample_context sample_subject sample_descriptor "data"
    (verifying_key sample_key) = Ok tt.
Proof.
  assert (sign_transfer_server_proof sample_context sample_subject sample_descriptor "data"
            sample_key = Ok sample_proof) as Hsign by (vm_compute; reflexivity).
  split; [exact Hsign|]. exact (proj1 (signed_proof_verifies _ _ _ _ _ _ Hsign)).
Defined.
