(* ===== verification/SessionAuthority.v ===== *)
(** * Session authority

    The issuer-signed authority of a runtime session, from
    [crates/protocol/src/authorization.rs]: its document, validation, signature and
    verification against a pinned issuer. *)

From Stdlib Require Import Ascii String.
From S2P Require Import Prelude RustStr Extern Json Transcript Base64 Protocol Wire.
From S2P Require Import Authorization Identifiers.

Local Open Scope string_scope.

Local Existing Instance json_tree.

Definition SESSION_AUTHORITY_FORMAT_V1 : string := "trellis.session-authority.v1".
Definition MAX_SESSION_AUTHORITY_BYTES : N := 65536.

(** ** Documents *)

Record AuthorityProvider := mkAuthorityProvider {
  provider_api_id : string;
  provider_generation : N;
  provider_deployment_id : string;
  provider_implementation_digest : string;
  provider_certificate_digest : string;
}.

Record UnsignedSessionAuthority := mkUnsignedSessionAuthority {
  format : string;
  issuer_key_id : string;
  trellis_instance_id : string;
  audience_nats_account : string;
  principal_id : string;
  principal_kind : PrincipalKind;
  binding : SessionBinding;
  authorization_session_id : string;
  runtime_id : string;
  session_public_key : string;
  inbox_prefix : string;
  login_session_id : option string;
  oauth_grant_id : option string;
  capabilities : list CapabilityAuthority;
  apis : list AuthorityApi;
  provider_bindings : list AuthorityProvider;
  resource_bindings_digest : option string;
  issued_at : Z;
  not_before : Z;
  expires_at : Z;
  extensions : list (string * Json);
  critical : list string;
}.

Record SignedSessionAuthority := mkSignedSessionAuthority {
  unsigned : UnsignedSessionAuthority;
  signature : string;
}.

Inductive AuthorityIssuerState := IssuerActive | IssuerRetired | IssuerRevoked.

Record AuthorityIssuerKey := mkAuthorityIssuerKey {
  key_id : string;
  public_key : string;
  issuer_state : AuthorityIssuerState;
}.

Record SessionAuthorityVerificationPolicy := mkVerificationPolicy {
  now_unix_seconds : Z;
  allowed_clock_skew_seconds : N;
  maximum_authority_lifetime_seconds : N;
  maximum_authority_bytes : N;
  maximum_entries : N;
}.

Inductive SessionAuthorityPurpose := PurposeLive | PurposeHistoricalEvent.

Record SessionAuthorityVerificationInput := mkVerificationInput {
  input_issuer : AuthorityIssuerKey;
  input_instance_id : string;
  input_nats_account : string;
  input_authority : SignedSessionAuthority;
  input_policy : SessionAuthorityVerificationPolicy;
  input_purpose : SessionAuthorityPurpose;
  input_revocation_cutoff : option Z;
}.

Global Instance AuthorityIssuerState_eq_dec : EqDecision AuthorityIssuerState.
Proof. solve_decision. Defined.
Global Instance SessionAuthorityPurpose_eq_dec : EqDecision SessionAuthorityPurpose.
Proof. solve_decision. Defined.

(** ** Serialization *)

Definition principal_kind_json (k : PrincipalKind) : Json :=
  JString match k with
          | PrincipalUser => "user" | PrincipalService => "service" | PrincipalDevice => "device"
          end.

Definition binding_json (b : SessionBinding) : Json :=
  match b with
  | BindingBrowser client_id origin =>
      object [("kind", JString "browser"); ("clientId", JString client_id); ("origin", JString origin)]
  | BindingNative client_id jkt =>
      object [("kind", JString "native"); ("clientId", JString client_id);
              ("durableDpopJkt", JString jkt)]
  | BindingService deployment instance participant =>
      object [("kind", JString "service"); ("deploymentId", JString deployment);
              ("instanceId", JString instance); ("participantId", JString participant)]
  | BindingDevice deployment instance participant =>
      object [("kind", JString "device"); ("deploymentId", JString deployment);
              ("instanceId", JString instance); ("participantId", JString participant)]
  end.

Definition capability_json (c : CapabilityAuthority) : Json :=
  object [("capabilityId", JString (cap_capability_id c));
          ("identityGeneration", JString (u64s (cap_identity_generation c)));
          ("consentRevision", JString (u64s (cap_consent_revision c)))].

Definition api_json (a : AuthorityApi) : Json :=
  object [("apiId", JString (authority_api_id a));
          ("generation", JString (u64s (authority_generation a)));
          ("acceptedRevision", JString (u64s (authority_accepted_revision a)));
          ("catalogSnapshotDigest", JString (authority_catalog_snapshot_digest a))].

Definition provider_json (p : AuthorityProvider) : Json :=
  object [("apiId", JString (provider_api_id p));
          ("generation", JString (u64s (provider_generation p)));
          ("deploymentId", JString (provider_deployment_id p));
          ("implementationDigest", JString (provider_implementation_digest p));
          ("providerCertificateDigest", JString (provider_certificate_digest p))].

Definition unsigned_fields (a : UnsignedSessionAuthority) : list (string * Json) :=
  [("format", JString (format a));
   ("issuerKeyId", JString (issuer_key_id a));
   ("trellisInstanceId", JString (trellis_instance_id a));
   ("audienceNatsAccount", JString (audience_nats_account a));
   ("principalId", JString (principal_id a));
   ("principalKind", principal_kind_json (principal_kind a));
   ("binding", binding_json (binding a));
   ("authorizationSessionId", JString (authorization_session_id a));
   ("runtimeId", JString (runtime_id a));
   ("sessionPublicKey", JString (session_public_key a));
   ("inboxPrefix", JString (inbox_prefix a));
   ("capabilities", JArray (capability_json <$> capabilities a));
   ("apis", JArray (api_json <$> apis a));
   ("providerBindings", JArray (provider_json <$> provider_bindings a));
   ("issuedAt", JInt (issued_at a));
   ("notBefore", JInt (not_before a));
   ("expiresAt", JInt (expires_at a));
   ("extensions", JObject (extensions a));
   ("critical", JArray (JString <$> critical a))]
  ++ optional "loginSessionId" JString (login_session_id a)
  ++ optional "oauthGrantId" JString (oauth_grant_id a)
  ++ optional "resourceBindingsDigest" JString (resource_bindings_digest a).

Definition unsigned_json (a : UnsignedSessionAuthority) : Json := object (unsigned_fields a).

(** With the unsigned part flattened into the object. *)
Definition signed_json (a : SignedSessionAuthority) : Json :=
  object (unsigned_fields (unsigned a) ++ [("signature", JString (signature a))]).

(** ** Validation *)

Section validation.
Context `{Base64Url, Ed25519, UlidParser, UrlParser}.

Definition digest_text (value : string) : result unit ProtocolError :=
  let? _ := decode_base64url 32 value in Ok tt.

Definition validate_binding (b : SessionBinding) (kind : PrincipalKind) :
    result unit ProtocolError :=
  match b, kind with
  | BindingBrowser client_id origin, PrincipalUser =>
      let? _ := validate_text client_id ["binding"; "clientId"] in
      let? url := ok_or (url_parse origin)
                    (authorization_error AuthInvalidFormat ["binding"; "origin"] "invalid origin") in
      reject_if
        (negb (String.eqb (url_scheme url) "http" || String.eqb (url_scheme url) "https")
         || negb (String.eqb (url_origin url) origin))
        (authorization_error AuthInvalidFormat ["binding"; "origin"]
           "origin must be canonical scheme/host/port")
  | BindingNative client_id durable_dpop_jkt, PrincipalUser =>
      let? _ := validate_text client_id ["binding"; "clientId"] in
      digest_text durable_dpop_jkt
  | BindingService deployment_id instance_id participant_id, PrincipalService =>
      let? _ := validate_id deployment_id "deploymentId" in
      let? _ := validate_id instance_id "instanceId" in
      if String.eqb participant_id "" then Ok tt
      else validate_text participant_id ["binding"; "participantId"]
  | BindingDevice deployment_id instance_id participant_id, PrincipalDevice =>
      let? _ := validate_id deployment_id "deploymentId" in
      let? _ := validate_id instance_id "instanceId" in
      validate_text participant_id ["binding"; "participantId"]
  | _, _ => Err (authorization_error AuthInvalidFormat ["binding"] "binding/principal mismatch")
  end.

Definition validate_credentials (body : UnsignedSessionAuthority) : result unit ProtocolError :=
  match principal_kind body, login_session_id body, oauth_grant_id body with
  | PrincipalUser, Some login, Some grant =>
      let? _ := validate_id login "loginSessionId" in
      let? _ := validate_id grant "oauthGrantId" in
      reject_if
        (bool_decide (is_Some (resource_bindings_digest body))
         || match provider_bindings body with [] => false | _ => true end)
        (authorization_error AuthInvalidFormat []
           "user binding cannot own deployment resources or provider rights")
  | (PrincipalService | PrincipalDevice), None, None => Ok tt
  | _, _, _ => Err (authorization_error AuthInvalidFormat [] "invalid credential association")
  end.

Definition validate_capability (capability : CapabilityAuthority) : result unit ProtocolError :=
  let? _ := validate_text (cap_capability_id capability) ["capabilityId"] in
  reject_if
    ((cap_identity_generation capability =? 0)%N || (cap_consent_revision capability =? 0)%N)
    (authorization_error AuthInvalidFormat ["capabilities"] "capability counters must be positive").

Definition validate_api (api : AuthorityApi) : result unit ProtocolError :=
  let? _ := validate_api_id (authority_api_id api) in
  let? _ := reject_if
              ((authority_generation api =? 0)%N || (authority_accepted_revision api =? 0)%N)
              (authorization_error AuthInvalidFormat ["apis"] "API counters must be positive") in
  digest_text (authority_catalog_snapshot_digest api).

Definition bound_deployment (b : SessionBinding) : option string :=
  match b with
  | BindingService deployment_id _ _ | BindingDevice deployment_id _ _ => Some deployment_id
  | _ => None
  end.

Definition validate_provider (body : UnsignedSessionAuthority) (provider : AuthorityProvider) :
    result unit ProtocolError :=
  let? _ := validate_api_id (provider_api_id provider) in
  let? _ := validate_id (provider_deployment_id provider) "deploymentId" in
  let? _ := digest_text (provider_implementation_digest provider) in
  let? _ := digest_text (provider_certificate_digest provider) in
  let? deployment :=
    ok_or (bound_deployment (binding body))
      (authorization_error AuthInvalidFormat ["providerBindings"] "deployment binding required") in
  reject_if
    (negb (String.eqb (provider_deployment_id provider) deployment)
     || negb (existsb (fun api => String.eqb (authority_api_id api) (provider_api_id provider)
                                  && (authority_generation api =? provider_generation provider)%N)
                (apis body)))
    (authorization_error AuthInvalidFormat ["providerBindings"]
       "provider must match the bound deployment and API generation").

Definition validate_authority (body : UnsignedSessionAuthority) : result unit ProtocolError :=
  let? _ := reject_if (negb (String.eqb (format body) SESSION_AUTHORITY_FORMAT_V1))
              (authorization_error AuthInvalidFormat ["format"] "unsupported authority format") in
  let? _ := validate_id (trellis_instance_id body) "trellisInstanceId" in
  let? _ := validate_id (principal_id body) "principalId" in
  let? _ := validate_id (authorization_session_id body) "authorizationSessionId" in
  let? _ := validate_text (audience_nats_account body) ["audienceNatsAccount"] in
  let? _ := digest_text (issuer_key_id body) in
  let? _ := decode_base64url 16 (runtime_id body) in
  let? _ := parse_verifying_key (session_public_key body) in
  let? _ := validate_subject (inbox_prefix body) in
  let? _ := reject_if
              ((not_before body <? 0)%Z || (issued_at body <? not_before body)%Z
               || (expires_at body <=? issued_at body)%Z)
              (authorization_error AuthInvalidValidityWindow [] "invalid authority interval") in
  let? _ := reject_if (Z.of_N MAX_SAFE_INTEGER <? expires_at body)%Z
              (authorization_error AuthUnsafeJsonInteger [] "time outside JSON safe range") in
  let? _ := validate_binding (binding body) (principal_kind body) in
  let? _ := validate_credentials body in
  let? _ := for_each validate_capability (capabilities body) in
  let? _ := for_each validate_api (apis body) in
  let? _ := for_each (validate_provider body) (provider_bindings body) in
  let? _ := for_each
              (fun ids => reject_if (negb (is_utf16_strictly_sorted ids))
                 (authorization_error AuthNonCanonicalSet []
                    "authority identities must be sorted and unique"))
              [cap_capability_id <$> capabilities body; authority_api_id <$> apis body;
               provider_api_id <$> provider_bindings body] in
  let? _ := reject_if (negb (is_utf16_strictly_sorted (critical body)))
              (authorization_error AuthNonCanonicalSet []
                 "critical names must be sorted and unique") in
  let? _ := reject_if match critical body with [] => false | _ => true end
              (authorization_error AuthUnknownCriticalExtension ["critical"]
                 "unsupported critical extension") in
  let? _ := match resource_bindings_digest body with
            | Some digest => digest_text digest
            | None => Ok tt
            end in
  for_each (fun member => validate_extension_numbers (snd member)) (extensions body).
End validation.

(** ** Signing and verification *)

Section authority.
Context `{Base64Url, Sha256, Ed25519, UlidParser, UrlParser} `{!CanonicalJson}.
Context `{JsonCodec SignedSessionAuthority}.

(** [SignedSessionAuthority::digest] *)
Definition authority_digest (a : SignedSessionAuthority) : result string ProtocolError :=
  content_address (signed_json a).

(** [AuthorityIssuerKey::verifying_key] *)
Definition issuer_verifying_key (issuer : AuthorityIssuerKey) : result VerifyingKey ProtocolError :=
  let? key := parse_verifying_key (public_key issuer) in
  let? _ := reject_if (negb (String.eqb (key_id issuer) (key_id_of key)))
              (authorization_error AuthInvalidKeyId [] "issuer content address mismatch") in
  Ok key.

Record VerifiedSessionAuthority := mkVerifiedSessionAuthority {
  verified_signed : SignedSessionAuthority;
  verified_digest : string;
  verified_session_key : VerifyingKey;
  verified_purpose : SessionAuthorityPurpose;
  verified_revocation_cutoff : option Z;
}.

(** [VerifiedSessionAuthority::authority] *)
Definition verified_authority (v : VerifiedSessionAuthority) : UnsignedSessionAuthority :=
  unsigned (verified_signed v).

Definition assert_current (v : VerifiedSessionAuthority)
    (policy : SessionAuthorityVerificationPolicy) (known_revoked : bool) :
    result unit ProtocolError :=
  let? _ := reject_if (negb (bool_decide (verified_purpose v = PurposeLive)))
              (authorization_error AuthHistoricalContext [] "historical-only authority") in
  let? _ := reject_if (known_revoked || bool_decide (is_Some (verified_revocation_cutoff v)))
              (authorization_error AuthSessionRevoked [] "logical session revoked") in
  let body := verified_authority v in
  let? _ := reject_if (now_unix_seconds policy <? not_before body)%Z
              (authorization_error AuthContextNotYetValid [] "authority not yet valid") in
  reject_if (expires_at body <=? now_unix_seconds policy)%Z
    (authorization_error AuthContextExpired [] "authority expired").

Definition sign_session_authority (body : UnsignedSessionAuthority) (issuer : SigningKey) :
    result SignedSessionAuthority ProtocolError :=
  let? _ := validate_authority body in
  let? _ := reject_if (negb (String.eqb (issuer_key_id body) (key_id_of (verifying_key issuer))))
              (authorization_error AuthInvalidKeyId ["issuerKeyId"] "issuer key mismatch") in
  let? digest := signed_json_digest SESSION_AUTHORITY_FORMAT_V1 (unsigned_json body) in
  let authority := {| unsigned := body; signature := b64_encode (sign issuer digest) |} in
  let? canonical := canonicalize_json (signed_json authority) in
  let? _ := reject_if (MAX_SESSION_AUTHORITY_BYTES <? N.of_nat (String.length canonical))%N
              (authorization_error AuthContextTooLarge [] "authority exceeds byte budget") in
  Ok authority.

Definition parse_session_authority (bytes : string) (maximum_bytes : N) :
    result SignedSessionAuthority ProtocolError :=
  let? _ := reject_if
              ((maximum_bytes =? 0)%N
               || (N.min maximum_bytes MAX_SESSION_AUTHORITY_BYTES
                   <? N.of_nat (String.length bytes))%N)
              (authorization_error AuthContextTooLarge [] "authority exceeds byte budget") in
  let? wire := map_err JsonError (from_slice bytes) in
  let? _ := validate_authority (unsigned wire) in
  let? _ := decode_base64url 64 (signature wire) in
  Ok wire.

Definition authority_entries (body : UnsignedSessionAuthority) : N :=
  saturating_add_u64
    (saturating_add_u64 (N.of_nat (List.length (capabilities body))) (N.of_nat (List.length (apis body))))
    (N.of_nat (List.length (provider_bindings body))).

Definition verify_session_authority (input : SessionAuthorityVerificationInput) :
    result VerifiedSessionAuthority ProtocolError :=
  let authority := input_authority input in
  let body := unsigned authority in
  let policy := input_policy input in
  let issuer := input_issuer input in
  let? _ := validate_authority body in
  let? _ := reject_if
              ((maximum_authority_bytes policy =? 0)%N || (maximum_entries policy =? 0)%N
               || (maximum_authority_lifetime_seconds policy =? 0)%N)
              (authorization_error AuthInvalidFormat [] "verification limits must be nonzero") in
  let? canonical := canonicalize_json (signed_json authority) in
  let? _ := reject_if
              ((N.min (maximum_authority_bytes policy) MAX_SESSION_AUTHORITY_BYTES
                <? N.of_nat (String.length canonical))%N
               || (maximum_entries policy <? authority_entries body)%N)
              (authorization_error AuthContextTooLarge [] "authority exceeds configured bounds") in
  let? _ := reject_if
              (Z.of_N (maximum_authority_lifetime_seconds policy)
               <? expires_at body - not_before body)%Z
              (authorization_error AuthContextLifetimeExceeded []
                 "authority lease exceeds policy") in
  let? _ := reject_if
              (negb (String.eqb (trellis_instance_id body) (input_instance_id input))
               || negb (String.eqb (audience_nats_account body) (input_nats_account input)))
              (authorization_error AuthScopeMismatch []
                 "authority installation/account mismatch") in
  let? key := issuer_verifying_key issuer in
  let? _ := reject_if (negb (String.eqb (issuer_key_id body) (key_id issuer)))
              (authorization_error AuthInvalidKeyId [] "pinned issuer mismatch") in
  let? _ := reject_if (bool_decide (issuer_state issuer = IssuerRevoked))
              (authorization_error AuthIssuerRevoked [] "issuer revoked") in
  let? _ := reject_if (bool_decide (input_purpose input = PurposeLive)
                       && bool_decide (issuer_state issuer = IssuerRetired))
              (authorization_error AuthIssuerRetired [] "issuer historical-only") in
  let? signature := decode_base64url 64 (signature authority) in
  let? digest := signed_json_digest SESSION_AUTHORITY_FORMAT_V1 (unsigned_json body) in
  let? _ := reject_if (negb (verify_strict key digest signature))
              (authorization_error AuthInvalidSignature [] "invalid issuer signature") in
  let? address := authority_digest authority in
  let? session_key := parse_verifying_key (session_public_key body) in
  let verified := {|
    verified_signed := authority;
    verified_digest := address;
    verified_session_key := session_key;
    verified_purpose := input_purpose input;
    verified_revocation_cutoff := input_revocation_cutoff input;
  |} in
  let? _ := match input_purpose input with
            | PurposeLive => assert_current verified policy false
            | PurposeHistoricalEvent => Ok tt
            end in
  Ok verified.
End authority.

(** ** Well-formed authorities *)

(** The kind of principal a binding is for. *)
Definition binding_kind (b : SessionBinding) : PrincipalKind :=
  match b with
  | BindingBrowser _ _ | BindingNative _ _ => PrincipalUser
  | BindingService _ _ _ => PrincipalService
  | BindingDevice _ _ _ => PrincipalDevice
  end.

(** Provider rights belong to the bound deployment and extend an API the authority has,
    at its generation. *)
Definition provider_covered (body : UnsignedSessionAuthority) (p : AuthorityProvider) : Prop :=
  bound_deployment (binding body) = Some (provider_deployment_id p) /\
  exists api, api ∈ apis body /\ authority_api_id api = provider_api_id p /\
              authority_generation api = provider_generation p.

Record authority_wf (body : UnsignedSessionAuthority) : Prop := {
  wf_window : (0 <= not_before body <= issued_at body)%Z /\ (issued_at body < expires_at body)%Z
              /\ (expires_at body <= Z.of_N MAX_SAFE_INTEGER)%Z;
  wf_binding : binding_kind (binding body) = principal_kind body;
  wf_user : principal_kind body = PrincipalUser ->
            is_Some (login_session_id body) /\ is_Some (oauth_grant_id body) /\
            provider_bindings body = [] /\ resource_bindings_digest body = None;
  wf_deployment : principal_kind body <> PrincipalUser ->
                  login_session_id body = None /\ oauth_grant_id body = None;
  wf_capabilities : NoDup (cap_capability_id <$> capabilities body) /\
                    Forall (fun c => 0 < cap_identity_generation c /\ 0 < cap_consent_revision c)%N
                      (capabilities body);
  wf_apis : NoDup (authority_api_id <$> apis body) /\
            Forall (fun a => api_id_grammar (authority_api_id a) /\
                             0 < authority_generation a /\ 0 < authority_accepted_revision a)%N
              (apis body);
  wf_providers : NoDup (provider_api_id <$> provider_bindings body) /\
                 Forall (provider_covered body) (provider_bindings body);
  wf_critical : critical body = [];
  wf_extensions : Forall (fun member => json_exact (snd member)) (extensions body);
}.

Section wf.
Context `{Base64Url, Ed25519, UlidParser, UrlParser}.

Lemma validate_binding_kind b kind : validate_binding b kind = Ok tt -> binding_kind b = kind.
Proof. by destruct b, kind. Qed.

Lemma validate_capability_ok c :
  validate_capability c = Ok tt -> (0 < cap_identity_generation c /\ 0 < cap_consent_revision c)%N.
Proof.
  unfold validate_capability. intros Hv. peel Hv as Ht. apply reject_if_ok in Hv.
  apply orb_false_iff in Hv as [?%N.eqb_neq ?%N.eqb_neq]. lia.
Qed.

Lemma validate_api_ok a :
  validate_api a = Ok tt ->
  api_id_grammar (authority_api_id a) /\
  (0 < authority_generation a /\ 0 < authority_accepted_revision a)%N.
Proof.
  unfold validate_api. intros Hv. peel Hv as u Ht. destruct u. apply validate_api_id_ok in Ht.
  peel Hv as Hc. apply orb_false_iff in Hc as [?%N.eqb_neq ?%N.eqb_neq].
  split; [done|]. lia.
Qed.

Lemma validate_provider_ok body p :
  validate_provider body p = Ok tt -> provider_covered body p.
Proof.
  unfold validate_provider. intros Hv. do 4 skip Hv. peel Hv as deployment Hd.
  apply reject_if_ok in Hv. apply orb_false_iff in Hv as [He Ha]. apply negb_false_iff in Ha, He.
  apply String.eqb_eq in He. split; [by rewrite He|].
  apply existsb_exists in Ha as (api & Hin & Hapi). exists api.
  apply andb_true_iff in Hapi as [?%String.eqb_eq ?%N.eqb_eq].
  split; [by apply list_elem_of_In|done].
Qed.

Lemma validate_credentials_ok body :
  validate_credentials body = Ok tt ->
  (principal_kind body = PrincipalUser ->
     is_Some (login_session_id body) /\ is_Some (oauth_grant_id body) /\
     provider_bindings body = [] /\ resource_bindings_digest body = None) /\
  (principal_kind body <> PrincipalUser ->
     login_session_id body = None /\ oauth_grant_id body = None).
Proof.
  unfold validate_credentials.
  destruct (principal_kind body), (login_session_id body), (oauth_grant_id body); try done.
  intros Hv. do 2 skip Hv. apply reject_if_ok in Hv.
  apply orb_false_iff in Hv as [Hr Hp]. apply bool_decide_eq_false, eq_None_not_Some in Hr.
  split; [|done]. intros _. split_and!; [done|done| |done]. by destruct (provider_bindings body).
Qed.

Lemma validate_authority_wf body : validate_authority body = Ok tt -> authority_wf body.
Proof.
  unfold validate_authority. intros Hv. do 9 skip Hv. peel Hv as Hw. peel Hv as Hx.
  peel Hv as ub Hb. peel Hv as uc Hc. peel Hv as ucap Hcap. peel Hv as uapi Hapi.
  peel Hv as up Hp. peel Hv as us Hs. peel Hv as Hcs. peel Hv as Hcr. peel Hv as Hrd.
  destruct ub, uc, ucap, uapi, up, us. apply validate_binding_kind in Hb.
  apply validate_credentials_ok in Hc as [Huser Hdep]. apply for_each_ok in Hcap, Hapi, Hp, Hs, Hv.
  apply orb_false_iff in Hw as [[?%Z.ltb_ge ?%Z.ltb_ge]%orb_false_iff ?%Z.leb_gt].
  apply Z.ltb_ge in Hx.
  apply Forall_cons in Hs as [Hs1 [Hs2 [Hs3 _]%Forall_cons]%Forall_cons].
  apply reject_if_ok, negb_false_iff, utf16_sorted_nodup in Hs1, Hs2, Hs3.
  split; try done.
  - split; [done|]. eapply Forall_impl; [exact Hcap|]. apply validate_capability_ok.
  - split; [done|]. eapply Forall_impl; [exact Hapi|]. apply validate_api_ok.
  - split; [done|]. eapply Forall_impl; [exact Hp|]. apply validate_provider_ok.
  - by destruct (critical body).
  - eapply Forall_impl; [exact Hv|]. intros member. apply validate_extension_numbers_exact.
Qed.
End wf.

(** ** What verification establishes *)

Section verification.
Context `{Base64Url, Sha256, Ed25519, UlidParser, UrlParser} `{!CanonicalJson}.

Lemma issuer_verifying_key_ok issuer key :
  issuer_verifying_key issuer = Ok key <->
  parse_verifying_key (public_key issuer) = Ok key /\ key_id issuer = key_id_of key.
Proof.
  unfold issuer_verifying_key. rewrite let_ok. split.
  - intros (k & Hk & Hr). rewrite let_ok in Hr. destruct Hr as (u & Hid & [= <-]).
    apply reject_if_ok, negb_false_iff, String.eqb_eq in Hid. done.
  - intros [Hk Hid]. exists key. rewrite Hid, String.eqb_refl. done.
Qed.

Lemma assert_current_ok v policy known_revoked :
  assert_current v policy known_revoked = Ok tt <->
  verified_purpose v = PurposeLive /\ known_revoked = false /\
  verified_revocation_cutoff v = None /\
  (not_before (verified_authority v) <= now_unix_seconds policy
   < expires_at (verified_authority v))%Z.
Proof.
  unfold assert_current. split.
  - intros Hv. peel Hv as Hp. peel Hv as Hr. peel Hv as Hn. apply reject_if_ok in Hv.
    apply negb_false_iff, bool_decide_eq_true in Hp.
    apply orb_false_iff in Hr as [-> Hr%bool_decide_eq_false%eq_None_not_Some].
    apply Z.ltb_ge in Hn. apply Z.leb_gt in Hv. done.
  - intros (-> & -> & -> & Hn & Hx). cbn.
    rewrite (proj2 (Z.ltb_ge _ _) Hn), (proj2 (Z.leb_gt _ _) Hx). done.
Qed.

(** What an accepted authority satisfies: it is valid, within the limits and the scope of
    the verifier, signed by the pinned issuer, and, for live use, by an issuer that is
    active, in its window and not revoked. *)
Record authority_accepted (input : SessionAuthorityVerificationInput)
    (key : VerifyingKey) (v : VerifiedSessionAuthority) : Prop := {
  accepted_valid : validate_authority (unsigned (input_authority input)) = Ok tt;
  accepted_limits : (0 < maximum_authority_bytes (input_policy input) /\
                     0 < maximum_entries (input_policy input) /\
                     0 < maximum_authority_lifetime_seconds (input_policy input))%N;
  accepted_size : exists text, canonicalize_json (signed_json (input_authority input)) = Ok text /\
    (N.of_nat (String.length text)
     <= N.min (maximum_authority_bytes (input_policy input)) MAX_SESSION_AUTHORITY_BYTES)%N;
  accepted_entries : (authority_entries (unsigned (input_authority input))
                      <= maximum_entries (input_policy input))%N;
  accepted_lifetime : (expires_at (unsigned (input_authority input))
                       - not_before (unsigned (input_authority input))
                       <= Z.of_N (maximum_authority_lifetime_seconds (input_policy input)))%Z;
  accepted_scope : trellis_instance_id (unsigned (input_authority input)) = input_instance_id input
    /\ audience_nats_account (unsigned (input_authority input)) = input_nats_account input;
  accepted_issuer : parse_verifying_key (public_key (input_issuer input)) = Ok key /\
    key_id (input_issuer input) = key_id_of key /\
    issuer_key_id (unsigned (input_authority input)) = key_id (input_issuer input);
  accepted_state : issuer_state (input_issuer input) = IssuerActive \/
    (issuer_state (input_issuer input) = IssuerRetired /\
     input_purpose input = PurposeHistoricalEvent);
  accepted_signature : exists bytes digest,
    decode_base64url 64 (signature (input_authority input)) = Ok bytes /\
    signed_json_digest SESSION_AUTHORITY_FORMAT_V1
      (unsigned_json (unsigned (input_authority input))) = Ok digest /\
    verify_strict key digest bytes = true;
  accepted_current : input_purpose input = PurposeLive ->
    assert_current v (input_policy input) false = Ok tt;
  accepted_digest : authority_digest (input_authority input) = Ok (verified_digest v);
  accepted_session : parse_verifying_key (session_public_key (unsigned (input_authority input)))
    = Ok (verified_session_key v);
  accepted_result : verified_signed v = input_authority input /\
    verified_purpose v = input_purpose input /\
    verified_revocation_cutoff v = input_revocation_cutoff input;
}.

Lemma verify_accepted input v :
  verify_session_authority input = Ok v -> exists key, authority_accepted input key v.
Proof.
  unfold verify_session_authority. intros Hv. peel Hv as u Hvalid. destruct u.
  peel Hv as Hlim. peel Hv as text Htext. peel Hv as Hsize. peel Hv as Hlife. peel Hv as Hscope.
  peel Hv as key Hkey. peel Hv as Hpin. peel Hv as Hrev. peel Hv as Hret. peel Hv as bytes Hsig.
  peel Hv as digest Hdig. peel Hv as Hver. peel Hv as address Haddr. peel Hv as session Hses.
  peel Hv as u Hcur. injection Hv as <-. exists key.
  apply issuer_verifying_key_ok in Hkey as [Hkey Hid].
  apply orb_false_iff in Hlim as [[?%N.eqb_neq ?%N.eqb_neq]%orb_false_iff ?%N.eqb_neq].
  apply orb_false_iff in Hsize as [Hsize%N.ltb_ge ?%N.ltb_ge]. apply Z.ltb_ge in Hlife.
  apply orb_false_iff in Hscope as [Hs1 Hs2].
  apply negb_false_iff, String.eqb_eq in Hs1, Hs2, Hpin.
  apply negb_false_iff in Hver. apply bool_decide_eq_false in Hrev.
  split; try done; [lia|eauto| |eauto|].
  - destruct (issuer_state (input_issuer input)); [by left| |done]. right.
    destruct (input_purpose input); done.
  - intros Hp. destruct u. by destruct (input_purpose input).
Qed.

Lemma accepted_verify input key v :
  authority_accepted input key v -> verify_session_authority input = Ok v.
Proof.
  intros [Hvalid Hlim (text & Htext & Hsize) Hent Hlife [Hs1 Hs2] (Hkey & Hid & Hpin) Hstate
    (bytes & digest & Hsig & Hdig & Hver) Hcur Haddr Hses (Hr1 & Hr2 & Hr3)].
  assert (issuer_verifying_key (input_issuer input) = Ok key) as Hik
    by by apply issuer_verifying_key_ok.
  unfold verify_session_authority. rewrite Hvalid. cbn [reject_if].
  rewrite !(proj2 (N.eqb_neq _ _)) by lia. cbn [orb reject_if]. rewrite Htext.
  rewrite !(proj2 (N.ltb_ge _ _)) by lia. cbn [orb reject_if].
  rewrite (proj2 (Z.ltb_ge _ _) Hlife), Hs1, Hs2, Hpin, !String.eqb_refl, Hik. cbn [orb negb reject_if].
  rewrite Hsig, Hdig, Hver, Haddr, Hses.
  rewrite (bool_decide_eq_false_2 (issuer_state _ = IssuerRevoked))
    by (destruct Hstate as [Hx|[Hx _]]; rewrite Hx; done).
  destruct v as [signed address session purpose cutoff]. cbn in *. subst.
  destruct (input_purpose input).
  - rewrite (bool_decide_eq_false_2 (issuer_state _ = IssuerRetired))
      by (destruct Hstate as [Hx|[_ ?]]; [by rewrite Hx|done]).
    cbn. by rewrite Hcur.
  - done.
Qed.
End verification.

(** ** Properties *)

Section properties.
Context `{Base64Url, Sha256, Ed25519, UlidParser, UrlParser} `{!CanonicalJson}.
Context `{JsonCodec SignedSessionAuthority}.

(** An authority that is signed, parsed or verified is well formed: its binding is of
    its principal's kind, a user owns a login and a grant and no provider right, no
    identity is listed twice, every counter is positive, every provider right is of the
    bound deployment and of an API and generation the authority has, nothing critical is
    left uninterpreted, and every integer is exact in JSON. *)
Theorem authorities_well_formed :
  (forall body key signed, sign_session_authority body key = Ok signed ->
     unsigned signed = body /\ authority_wf body) /\
  (forall bytes limit signed, parse_session_authority bytes limit = Ok signed ->
     authority_wf (unsigned signed)) /\
  (forall input v, verify_session_authority input = Ok v -> authority_wf (verified_authority v)).
Proof.
  split_and!.
  - intros body key signed Hs. unfold sign_session_authority in Hs. peel Hs as u Hvalid. destruct u.
    do 4 skip Hs. injection Hs as <-. split; [done|]. by apply validate_authority_wf.
  - intros bytes limit signed Hp. unfold parse_session_authority in Hp.
    do 2 skip Hp. peel Hp as u Hvalid. destruct u. skip Hp. injection Hp as <-.
    by apply validate_authority_wf.
  - intros input v Hv. apply verify_accepted in Hv as (key & Hacc).
    unfold verified_authority. rewrite (proj1 (accepted_result _ _ _ Hacc)).
    apply validate_authority_wf. by destruct Hacc.
Qed.

(** An authority that verifies is the one given, for the expected installation and
    account, signed over its canonical body by the pinned issuer's key, which its key
    identifier addresses and which is not revoked.  For live use the issuer is active, the
    logical session is not revoked, and the time is in a window no longer than the policy
    allows. *)
Theorem verified_authority_trusted input v :
  verify_session_authority input = Ok v ->
  let body := verified_authority v in
  verified_signed v = input_authority input /\
  authority_digest (input_authority input) = Ok (verified_digest v) /\
  trellis_instance_id body = input_instance_id input /\
  audience_nats_account body = input_nats_account input /\
  issuer_state (input_issuer input) <> IssuerRevoked /\
  (expires_at body - not_before body
   <= Z.of_N (maximum_authority_lifetime_seconds (input_policy input)))%Z /\
  (exists key bytes digest,
     parse_verifying_key (public_key (input_issuer input)) = Ok key /\
     issuer_key_id body = key_id_of key /\
     signature (verified_signed v) = b64_encode bytes /\
     signed_json_digest SESSION_AUTHORITY_FORMAT_V1 (unsigned_json body) = Ok digest /\
     verify_strict key digest bytes = true) /\
  (input_purpose input = PurposeLive ->
     issuer_state (input_issuer input) = IssuerActive /\ input_revocation_cutoff input = None /\
     (not_before body <= now_unix_seconds (input_policy input) < expires_at body)%Z).
Proof.
  intros (key & [Hvalid Hlim _ _ Hlife [Hs1 Hs2] (Hkey & Hid & Hpin) Hstate
    (bytes & digest & Hsig & Hdig & Hver) Hcur Haddr _ (Hr1 & Hr2 & Hr3)])%verify_accepted.
  unfold verified_authority in *. rewrite Hr1. cbn zeta.
  apply decode_base64url_bytes in Hsig as [Hsig _]. split_and!; try done.
  - destruct Hstate as [->|[-> _]]; done.
  - exists key, bytes, digest. split_and!; try done. congruence.
  - intros Hp. specialize (Hcur Hp). apply assert_current_ok in Hcur as (_ & _ & Hcut & Hwin).
    unfold verified_authority in Hwin. rewrite Hr1 in Hwin. rewrite <- Hr3.
    destruct Hstate as [?|[_ ?]]; [done|congruence].
Qed.
End properties.

Section signing.
Context `{Base64UrlLaws, Sha256, Ed25519Laws, UlidParser, UrlParser} `{!CanonicalJson}.
Context `{JsonCodecLaws SignedSessionAuthority}.

(** The metadata of an issuer's key, in a state. *)
Definition issuer_of (key : SigningKey) (state : AuthorityIssuerState) : AuthorityIssuerKey := {|
  key_id := key_id_of (verifying_key key);
  public_key := b64_encode (verifying_key_to_bytes (verifying_key key));
  issuer_state := state;
|}.

(** The policy has room for an authority and the time is in its window. *)
Definition policy_admits (policy : SessionAuthorityVerificationPolicy)
    (body : UnsignedSessionAuthority) : Prop :=
  (MAX_SESSION_AUTHORITY_BYTES <= maximum_authority_bytes policy)%N /\
  (0 < maximum_entries policy)%N /\ (authority_entries body <= maximum_entries policy)%N /\
  (expires_at body - not_before body <= Z.of_N (maximum_authority_lifetime_seconds policy))%Z /\
  (not_before body <= now_unix_seconds policy < expires_at body)%Z.

(** What an issuer signs, its text parses to and its active key verifies, for the
    installation and account it names and under a policy with room for it, until it
    expires or is revoked. *)
Theorem signed_authority_verifies body key signed bytes policy :
  sign_session_authority body key = Ok signed ->
  is_weak (verifying_key key) = false ->
  to_vec signed = Ok bytes ->
  (N.of_nat (String.length bytes) <= MAX_SESSION_AUTHORITY_BYTES)%N ->
  policy_admits policy body ->
  parse_session_authority bytes (maximum_authority_bytes policy) = Ok signed /\
  exists v, verified_signed v = signed /\ verify_session_authority {|
    input_issuer := issuer_of key IssuerActive;
    input_instance_id := trellis_instance_id body;
    input_nats_account := audience_nats_account body;
    input_authority := signed;
    input_policy := policy;
    input_purpose := PurposeLive;
    input_revocation_cutoff := None;
  |} = Ok v.
Proof.
  intros Hs Hweak Hvec Hlen (Hbytes & Hent0 & Hent & Hlife & Hwin).
  unfold sign_session_authority in Hs. peel Hs as u Hvalid. destruct u. peel Hs as Hid.
  peel Hs as digest Hdig. peel Hs as text Htext. peel Hs as Hsize. injection Hs as <-.
  apply negb_false_iff, String.eqb_eq in Hid. apply N.ltb_ge in Hsize.
  pose proof (sign_length key digest) as Hsl. set (signed := mkSignedSessionAuthority _ _) in *.
  assert (decode_base64url 64 (signature signed) = Ok (sign key digest)) as Hsig
    by by apply decode_base64url_encode.
  split.
  { unfold parse_session_authority. unfold MAX_SESSION_AUTHORITY_BYTES in *.
    rewrite (proj2 (N.eqb_neq _ 0)), (proj2 (N.ltb_ge _ _)) by lia. cbn [orb reject_if].
    rewrite (from_slice_to_vec _ _ Hvec). cbn [map_err].
    change (unsigned signed) with body. by rewrite Hvalid, Hsig. }
  destruct (parse_verifying_key (session_public_key body)) as [session|] eqn:Hses.
  2:{ unfold validate_authority in Hvalid. do 7 skip Hvalid. peel Hvalid as k Hk.
      by rewrite Hses in Hk. }
  exists {| verified_signed := signed; verified_digest := b64_encode (sha256 text);
            verified_session_key := session; verified_purpose := PurposeLive;
            verified_revocation_cutoff := None |}. split; [done|].
  apply (accepted_verify _ (verifying_key key)).
  pose proof (wf_window _ (validate_authority_wf _ Hvalid)).
  unfold MAX_SESSION_AUTHORITY_BYTES in *. split; cbn; try done; try lia.
  - exists text. split; [done|]. unfold MAX_SESSION_AUTHORITY_BYTES. lia.
  - split_and!; [by apply parse_verifying_key_encode|done|done].
  - by left.
  - exists (sign key digest), digest. split_and!; [done..|]. apply verify_sign.
  - intros _. by apply assert_current_ok.
  - unfold authority_digest, content_address. by rewrite Htext.
Qed.
End signing.

(** ** What a signature and a content address bind *)

Global Instance UnsignedSessionAuthority_settable : Settable UnsignedSessionAuthority := fun a =>
  {| format := format a; issuer_key_id := issuer_key_id a;
     trellis_instance_id := trellis_instance_id a;
     audience_nats_account := audience_nats_account a; principal_id := principal_id a;
     principal_kind := principal_kind a; binding := binding a;
     authorization_session_id := authorization_session_id a; runtime_id := runtime_id a;
     session_public_key := session_public_key a; inbox_prefix := inbox_prefix a;
     login_session_id := login_session_id a; oauth_grant_id := oauth_grant_id a;
     capabilities := capabilities a; apis := apis a; provider_bindings := provider_bindings a;
     resource_bindings_digest := resource_bindings_digest a; issued_at := issued_at a;
     not_before := not_before a; expires_at := expires_at a; extensions := extensions a;
     critical := critical a |}.

(** Authorities that agree on every field, and on the extensions up to the spelling of
    numbers. *)
Definition authority_same (a b : UnsignedSessionAuthority) : Prop :=
  a <| extensions := extensions b |> = b /\
  json_same (JObject (extensions a)) (JObject (extensions b)).

Lemma capability_same a b : json_same (capability_json a) (capability_json b) -> a = b.
Proof.
  intros Hs. member "capabilityId" of Hs as H1.
  member "identityGeneration" of Hs as H2.
  member "consentRevision" of Hs as H3.
  apply decimal_inj in H2, H3. destruct a, b; simpl in *. congruence.
Qed.

Lemma api_same a b : json_same (api_json a) (api_json b) -> a = b.
Proof.
  intros Hs. member "apiId" of Hs as H1.
  member "generation" of Hs as H2.
  member "acceptedRevision" of Hs as H3.
  member "catalogSnapshotDigest" of Hs as H4.
  apply decimal_inj in H2, H3. destruct a, b; simpl in *. congruence.
Qed.

Lemma provider_same a b : json_same (provider_json a) (provider_json b) -> a = b.
Proof.
  intros Hs. member "apiId" of Hs as H1.
  member "generation" of Hs as H2.
  member "deploymentId" of Hs as H3.
  member "implementationDigest" of Hs as H4.
  member "providerCertificateDigest" of Hs as H5.
  apply decimal_inj in H2. destruct a, b; simpl in *. congruence.
Qed.

Lemma binding_same a b : json_same (binding_json a) (binding_json b) -> a = b.
Proof.
  intros Hs. pose proof (json_same_get "kind" _ _ Hs) as Hk.
  destruct a, b; try done; clear Hk.
  - member "clientId" of Hs as H1. member "origin" of Hs as H2.
    congruence.
  - member "clientId" of Hs as H1.
    member "durableDpopJkt" of Hs as H2. congruence.
  - member "deploymentId" of Hs as H1.
    member "instanceId" of Hs as H2.
    member "participantId" of Hs as H3. congruence.
  - member "deploymentId" of Hs as H1.
    member "instanceId" of Hs as H2.
    member "participantId" of Hs as H3. congruence.
Qed.

(** The object of an authority, with its signature if it has one. *)
Definition authority_object (a : UnsignedSessionAuthority) (sig : option string) : Json :=
  object (unsigned_fields a ++ optional "signature" JString sig).

Lemma authority_object_same a b s t :
  json_same (authority_object a s) (authority_object b t) -> authority_same a b /\ s = t.
Proof.
  intros Hs. unfold authority_object, unsigned_fields in Hs.
  optional_member "signature" of Hs as Hsig. optional_member "loginSessionId" of Hs as Hlogin.
  optional_member "oauthGrantId" of Hs as Hgrant.
  optional_member "resourceBindingsDigest" of Hs as Hres.
  member "format" of Hs as H1. member "issuerKeyId" of Hs as H2.
  member "trellisInstanceId" of Hs as H3. member "audienceNatsAccount" of Hs as H4.
  member "principalId" of Hs as H5. member "principalKind" of Hs as H6.
  pose proof (binding_same _ _ (object_same "binding" _ _ Hs)) as H7.
  member "authorizationSessionId" of Hs as H8. member "runtimeId" of Hs as H9.
  member "sessionPublicKey" of Hs as H10. member "inboxPrefix" of Hs as H11.
  pose proof (array_same _ _ _ capability_same (object_same "capabilities" _ _ Hs)) as H12.
  pose proof (array_same _ _ _ api_same (object_same "apis" _ _ Hs)) as H13.
  pose proof (array_same _ _ _ provider_same (object_same "providerBindings" _ _ Hs)) as H14.
  pose proof (int_same _ _ (object_same "issuedAt" _ _ Hs)) as H15.
  pose proof (int_same _ _ (object_same "notBefore" _ _ Hs)) as H16.
  pose proof (int_same _ _ (object_same "expiresAt" _ _ Hs)) as H17.
  pose proof (object_same "extensions" _ _ Hs) as H18.
  pose proof (texts_same _ _ (object_same "critical" _ _ Hs)) as H19.
  clear Hs. unfold authority_same. split; [split; [|exact H18]|by destruct s, t; cbn in Hsig; subst].
  destruct a as [? ? ? ? ? k ? ? ? ? ? lo oa ? ? ? re ? ? ? ? ?],
           b as [? ? ? ? ? k' ? ? ? ? ? lo' oa' ? ? ? re' ? ? ? ? ?].
  cbn in * |-. clear H18. assert (k = k') as -> by by destruct k, k'.
  assert (lo = lo') as -> by by destruct lo, lo'; cbn in Hlogin; subst.
  assert (oa = oa') as -> by by destruct oa, oa'; cbn in Hgrant; subst.
  assert (re = re') as -> by by destruct re, re'; cbn in Hres; subst. cbn. subst. done.
Qed.

(** The values that are hashed can exist and are exact. *)
Lemma authority_object_plain a s :
  authority_wf a -> json_sorted (JObject (extensions a)) -> json_plain (authority_object a s).
Proof.
  intros Hwf Hext. pose proof (wf_window _ Hwf) as (? & ? & ?).
  assert (json_exact (JObject (extensions a))) as Hexact.
  { pose proof (wf_extensions _ Hwf) as Hx. cbn. clear - Hx.
    induction Hx as [|[k v] m Hv Hm IH]; done. }
  unfold authority_object, unsigned_fields. plain; try (apply plain_int; lia); [|done].
  destruct (binding a); cbn [binding_json]; plain.
Qed.

Section binding_theorems.
Context `{Base64UrlLaws, Sha256, Ed25519, UlidParser, UrlParser}.
Context `{!CanonicalJson} `{!CanonicalJsonLaws}.

(** What an issuer signs and what names an authority.  Two valid authorities with one
    signing digest agree on every field and on the extensions up to the spelling of
    numbers, and two with one content address also carry the same signature, unless SHA-256
    collides: a signature or an address cannot be moved to another principal, key, window
    or set of capabilities. *)
Theorem authority_digests_bind a b digest :
  validate_authority (unsigned a) = Ok tt -> validate_authority (unsigned b) = Ok tt ->
  json_sorted (JObject (extensions (unsigned a))) ->
  json_sorted (JObject (extensions (unsigned b))) ->
  (signed_json_digest SESSION_AUTHORITY_FORMAT_V1 (unsigned_json (unsigned a)) = Ok digest ->
   signed_json_digest SESSION_AUTHORITY_FORMAT_V1 (unsigned_json (unsigned b)) = Ok digest ->
   authority_same (unsigned a) (unsigned b) \/ sha256_collision) /\
  (authority_digest a = Ok digest -> authority_digest b = Ok digest ->
   (authority_same (unsigned a) (unsigned b) /\ signature a = signature b) \/ sha256_collision).
Proof.
  intros Ha%validate_authority_wf Hb%validate_authority_wf Hea Heb.
  assert (forall a, unsigned_json a = authority_object a None) as Hu
    by (intros; unfold unsigned_json, authority_object; cbn [optional]; by rewrite app_nil_r).
  split.
  - rewrite !Hu. intros Hda Hdb.
    destruct (signed_json_digest_binds _ _ _ _ _ (authority_object_plain _ None Ha Hea)
      (authority_object_plain _ None Hb Heb) Hda Hdb) as [[_ Hs]|]; [|by right].
    left. by apply authority_object_same in Hs as [? _].
  - intros Hda Hdb.
    destruct (content_address_binds _ _ _ (authority_object_plain _ (Some (signature a)) Ha Hea)
      (authority_object_plain _ (Some (signature b)) Hb Heb) Hda Hdb) as [Hs|]; [|by right].
    left. apply authority_object_same in Hs as [Hs Hsig]. injection Hsig as Hsig. done.
Qed.
End binding_theorems.

(** ** Evaluated examples *)

Global Instance AuthorityProvider_eq_dec : EqDecision AuthorityProvider.
Proof. solve_decision. Defined.
Global Instance UnsignedSessionAuthority_eq_dec : EqDecision UnsignedSessionAuthority.
Proof. solve_decision. Defined.
Global Instance SignedSessionAuthority_eq_dec : EqDecision SignedSessionAuthority.
Proof. solve_decision. Defined.

(** Parsers that accept every text and keep it. *)
Definition sample_ulid : UlidParser := Some.

Definition sample_url : UrlParser := {|
  Url := string;
  url_parse := Some;
  url_scheme := fun _ => "https";
  url_host := fun _ => None;
  url_origin := fun s => s;
|}.

Local Existing Instances rfc4648 rfc4648_laws sample_sha256 sample_ed25519 sample_ed25519_laws
  sample_ulid sample_url.

Definition sample_signer : SigningKey := true.
Definition sample_zeros : string := "AAAAAAAAAAAAAAAAAAAAAAAAAAAAAAAAAAAAAAAAAAA".
Definition sample_id : string := "01ARZ3NDEKTSV4RRFFQ69G5FAV".

Definition sample_issuer_id : string := Eval vm_compute in key_id_of (true : VerifyingKey).
Definition sample_session_key : string :=
  Eval vm_compute in b64_encode (verifying_key_to_bytes (true : VerifyingKey)).

Definition sample_body : UnsignedSessionAuthority := {|
  format := SESSION_AUTHORITY_FORMAT_V1;
  issuer_key_id := sample_issuer_id;
  trellis_instance_id := sample_id;
  audience_nats_account := "ACCOUNT";
  principal_id := sample_id;
  principal_kind := PrincipalService;
  binding := BindingService sample_id sample_id "worker";
  authorization_session_id := sample_id;
  runtime_id := "AAAAAAAAAAAAAAAAAAAAAA";
  session_public_key := sample_session_key;
  inbox_prefix := "_INBOX.worker";
  login_session_id := None;
  oauth_grant_id := None;
  capabilities := [mkCapabilityAuthority "files.read" 1 1];
  apis := [mkAuthorityApi "files@v1" 1 2 sample_zeros];
  provider_bindings := [mkAuthorityProvider "files@v1" 1 sample_id sample_zeros sample_zeros];
  resource_bindings_digest := None;
  issued_at := 100;
  not_before := 90;
  expires_at := 400;
  extensions := [("note", JNumber (PosInt 7))];
  critical := [];
|}.

Definition sample_signed : SignedSessionAuthority :=
  Eval vm_compute in
    let canonical : CanonicalJson := canonical_table [unsigned_json sample_body] in
    match signed_json_digest SESSION_AUTHORITY_FORMAT_V1 (unsigned_json sample_body) with
    | Ok digest => {| unsigned := sample_body; signature := b64_encode (sign sample_signer digest) |}
    | Err _ => {| unsigned := sample_body; signature := "" |}
    end.

Definition sample_texts : list Json := [unsigned_json sample_body; signed_json sample_signed].

Definition sample_policy : SessionAuthorityVerificationPolicy := {|
  now_unix_seconds := 200; allowed_clock_skew_seconds := 30;
  maximum_authority_lifetime_seconds := 600; maximum_authority_bytes := 65536;
  maximum_entries := 16;
|}.

Definition sample_input : SessionAuthorityVerificationInput := {|
  input_issuer := issuer_of sample_signer IssuerActive;
  input_instance_id := sample_id;
  input_nats_account := "ACCOUNT";
  input_authority := sample_signed;
  input_policy := sample_policy;
  input_purpose := PurposeLive;
  input_revocation_cutoff := None;
|}.

Section examples.
Let canonical : CanonicalJson := canonical_table sample_texts.
Let canonical_laws : CanonicalJsonLaws := canonical_table_laws sample_texts.
Let codec : JsonCodec SignedSessionAuthority := table_codec [sample_signed].
Let codec_laws : JsonCodecLaws SignedSessionAuthority := table_codec_laws [sample_signed].
Local Existing Instances canonical canonical_laws codec codec_laws.

Lemma authorities_well_formed_witness :
  sign_session_authority sample_body sample_signer = Ok sample_signed /\
  authority_wf sample_body.
Proof.
  assert (sign_session_authority sample_body sample_signer = Ok sample_signed) as Hs
    by (vm_compute; reflexivity).
  split; [exact Hs|]. exact (proj2 (proj1 authorities_well_formed _ _ _ Hs)).
Defined.

Lemma verified_authority_trusted_witness :
  exists v, verify_session_authority sample_input = Ok v /\
    verified_signed v = sample_signed /\ issuer_state (input_issuer sample_input) <> IssuerRevoked.
Proof.
  destruct (verify_session_authority sample_input) as [v|e] eqn:Hv; [|by vm_compute in Hv].
  exists v. split; [done|].
  pose proof (verified_authority_trusted _ _ Hv) as (Hsig & _ & _ & _ & Hstate & _).
  exact (conj Hsig Hstate).
Defined.

Lemma signed_authority_verifies_witness :
  parse_session_authority "0" 65536 = Ok sample_signed /\
  exists v, verified_signed v = sample_signed /\ verify_session_authority sample_input = Ok v.
Proof.
  assert (sign_session_authority sample_body sample_signer = Ok sample_signed) as Hs
    by (vm_compute; reflexivity).
  apply (signed_authority_verifies sample_body sample_signer sample_signed "0" sample_policy Hs);
    [done|vm_compute; reflexivity|vm_compute; done|].
  unfold policy_admits. split_and!; vm_compute; congruence.
Defined.

Lemma authority_digests_bind_witness :
  exists digest, authority_digest sample_signed = Ok digest /\
    (authority_digest sample_signed = Ok digest ->
     (authority_same sample_body sample_body /\ signature sample_signed = signature sample_signed)
     \/ sha256_collision).
Proof.
  destruct (authority_digest sample_signed) as [digest|e] eqn:Hd; [|by vm_compute in Hd].
  exists digest. split; [done|]. intros _.
  assert (validate_authority sample_body = Ok tt) as Hvalid by (vm_compute; reflexivity).
  assert (json_sorted (JObject (extensions sample_body))) as Hsorted
    by (cbn; repeat constructor).
  exact (proj2 (authority_digests_bind sample_signed sample_signed digest Hvalid Hvalid
    Hsorted Hsorted) Hd Hd).
Defined.
End examples.
