(* ===== verification/SessionMessages.v ===== *)
(** * Authenticated messages

    Requests and events signed by a session key, from
    [crates/protocol/src/authorization.rs]: their transcripts, their proofs, and their
    verification against a verified authority. *)

From Stdlib Require Import Ascii String.
From S2P Require Import Prelude RustStr Extern Json Transcript Base64 Protocol Wire.
From S2P Require Import Authorization Identifiers Subjects TransferSubjects.
From S2P Require Import SessionAuthority.

Local Open Scope string_scope.

Local Existing Instance json_tree.

Definition MESSAGE_REQUEST_DOMAIN_V1 : string := "trellis.message.request.v1".
Definition MESSAGE_EVENT_DOMAIN_V1 : string := "trellis.message.event.v1".
Definition USER_PROFILE_EXTENSION : string := "trellis.user.v1".

(** ** Documents *)

Record SessionRequest := mkSessionRequest {
  request_authority_digest : string;
  request_api_id : string;
  request_api_generation : N;
  request_accepted_revision : N;
  request_action : string;
  request_subject : string;
  request_reply_subject : option string;
  request_id : string;
  request_issued_at : Z;
}.

Record SessionEvent := mkSessionEvent {
  event_authority_digest : string;
  event_api_id : string;
  event_api_generation : N;
  event_accepted_revision : N;
  event_action : string;
  event_subject : string;
  event_id : string;
  event_time : string;
}.

(** [SessionRequestProof] and [SessionEventProof] *)
Record SessionProof := mkSessionProof { session_proof : string }.

Record OriginalEventPublication := mkOriginalEventPublication {
  published_at : string;
  stream_sequence : N;
}.

Section messages.
Context `{Base64Url, Sha256, Ed25519, UlidParser, Rfc3339} `{!FromValue CallerUser}.

(** [SessionRequestProof::parse] and [SessionEventProof::parse] *)
Definition parse_session_proof (value : string) : result SessionProof ProtocolError :=
  let? _ := decode_base64url 64 value in
  Ok (mkSessionProof value).

(** ** Requests *)

Definition request_signing_digest_sha256 (request : SessionRequest) (payload_sha256 : string) :
    result string ProtocolError :=
  let? _ := validate_api_id (request_api_id request) in
  let? _ := validate_text (request_action request) ["action"] in
  let? _ := validate_subject (request_subject request) in
  let? _ := match request_reply_subject request with
            | Some reply => validate_subject reply
            | None => Ok tt
            end in
  let? _ := validate_id (request_id request) "requestId" in
  let? _ := reject_if
              ((request_api_generation request =? 0)%N || (request_accepted_revision request =? 0)%N
               || (request_issued_at request <? 0)%Z)
              (authorization_error AuthInvalidFormat [] "request counters/time must be valid") in
  let? authority := decode_base64url 32 (request_authority_digest request) in
  component_digest
    [MESSAGE_REQUEST_DOMAIN_V1;
     authority;
     request_api_id request;
     be_bytes_u64 (request_api_generation request);
     be_bytes_u64 (request_accepted_revision request);
     request_action request;
     request_subject request;
     default "" (request_reply_subject request);
     request_id request;
     be_bytes_i64 (request_issued_at request);
     payload_sha256].

Definition session_request_signing_digest (request : SessionRequest) (raw_payload : string) :
    result string ProtocolError :=
  request_signing_digest_sha256 request (sha256 raw_payload).

Definition sign_session_request (request : SessionRequest) (raw_payload : string)
    (key : SigningKey) : result SessionProof ProtocolError :=
  let? digest := session_request_signing_digest request raw_payload in
  Ok (mkSessionProof (b64_encode (sign key digest))).

Record VerifiedSessionRequest := mkVerifiedSessionRequest {
  verified_request_authority : VerifiedSessionAuthority;
  verified_request : SessionRequest;
  verified_request_digest : string;
}.

(** [VerifiedSessionRequest::caller] *)
Definition caller (v : VerifiedSessionRequest) : AuthenticatedCaller :=
  let authority := verified_authority (verified_request_authority v) in
  {| caller_authority_digest := verified_digest (verified_request_authority v);
     caller_principal_id := principal_id authority;
     caller_principal_kind := principal_kind authority;
     caller_binding := binding authority;
     caller_authorization_session_id := authorization_session_id authority;
     caller_runtime_id := runtime_id authority;
     caller_session_public_key := session_public_key authority;
     caller_inbox_prefix := inbox_prefix authority;
     caller_login_session_id := login_session_id authority;
     caller_oauth_grant_id := oauth_grant_id authority;
     caller_capabilities := capabilities authority;
     caller_apis := apis authority;
     caller_user :=
       if bool_decide (principal_kind authority = PrincipalUser) then
         match map_get USER_PROFILE_EXTENSION (extensions authority) with
         | Some profile =>
             match from_value (profile : Value) with Ok user => Some user | Err _ => None end
         | None => None
         end
       else None |}.

Definition has_api_stamp (body : UnsignedSessionAuthority) (api_id : string)
    (generation revision : N) : bool :=
  existsb (fun api => String.eqb (authority_api_id api) api_id
                      && (authority_generation api =? generation)%N
                      && (authority_accepted_revision api =? revision)%N)
    (apis body).

(** [abs_diff(a, b) > skew] *)
Definition skew_exceeded (a b : Z) (skew : N) : bool := (skew <? Z.abs_N (a - b))%N.

(** A transfer's control or upload subject of the runtime, with a reply on the signal
    subject of the same transfer. *)
Definition transfer_reply (runtime subject reply : string) : bool :=
  match validate_transfer_subject subject with
  | Ok (Control | UploadData) => true
  | _ => false
  end
  && bool_decide (rev (split "." subject) !! 1%nat = Some (encode_subject_token runtime))
  && bool_decide (take 3 (rev (split "." subject)) = take 3 (rev (split "." reply)))
  && match validate_transfer_subject reply with Ok Signal => true | _ => false end.

Definition verify_session_request (authority : VerifiedSessionAuthority)
    (request : SessionRequest) (payload_sha256 : string) (proof : SessionProof)
    (policy : SessionAuthorityVerificationPolicy) (known_revoked : bool) :
    result VerifiedSessionRequest ProtocolError :=
  let? _ := assert_current authority policy known_revoked in
  let body := verified_authority authority in
  let? _ := reject_if
              (negb (String.eqb (request_authority_digest request) (verified_digest authority)))
              (authorization_error AuthInvalidRequestProof [] "request authority mismatch") in
  let? _ := reject_if
              (negb (has_api_stamp body (request_api_id request) (request_api_generation request)
                       (request_accepted_revision request)))
              (authorization_error AuthPermissionDenied []
                 "request API stamp is not in the authority") in
  let? _ := reject_if
              (skew_exceeded (request_issued_at request) (now_unix_seconds policy)
                 (allowed_clock_skew_seconds policy))
              (authorization_error AuthProofIatOutOfRange [] "request clock skew exceeded") in
  let? _ := match request_reply_subject request with
            | Some reply =>
                reject_if
                  (negb (starts_with (inbox_prefix body +:+ ".") reply)
                   && negb (transfer_reply (runtime_id body) (request_subject request) reply))
                  (authorization_error AuthReplySubjectMismatch []
                     "reply outside authenticated caller inbox")
            | None => Ok tt
            end in
  let? digest := request_signing_digest_sha256 request payload_sha256 in
  let? signature := decode_base64url 64 (session_proof proof) in
  let? _ := reject_if (negb (verify_strict (verified_session_key authority) digest signature))
              (authorization_error AuthInvalidRequestProof [] "request signature mismatch") in
  Ok {| verified_request_authority := authority;
        verified_request := request;
        verified_request_digest := digest |}.

(** ** Events *)

Definition event_signing_digest_sha256 (event : SessionEvent) (payload_sha256 : string) :
    result string ProtocolError :=
  let? _ := validate_api_id (event_api_id event) in
  let? _ := validate_text (event_action event) ["action"] in
  let? _ := validate_subject (event_subject event) in
  let? _ := validate_id (event_id event) "eventId" in
  let? _ := validate_text (event_time event) ["eventTime"] in
  let? _ := reject_if
              ((event_api_generation event =? 0)%N || (event_accepted_revision event =? 0)%N)
              (authorization_error AuthInvalidFormat [] "event API counters must be nonzero") in
  let? authority := decode_base64url 32 (event_authority_digest event) in
  component_digest
    [MESSAGE_EVENT_DOMAIN_V1;
     authority;
     event_api_id event;
     be_bytes_u64 (event_api_generation event);
     be_bytes_u64 (event_accepted_revision event);
     event_action event;
     event_subject event;
     event_id event;
     event_time event;
     payload_sha256].

Definition session_event_signing_digest (event : SessionEvent) (raw_payload : string) :
    result string ProtocolError :=
  event_signing_digest_sha256 event (sha256 raw_payload).

Definition sign_session_event (event : SessionEvent) (raw_payload : string) (key : SigningKey) :
    result SessionProof ProtocolError :=
  let? digest := session_event_signing_digest event raw_payload in
  Ok (mkSessionProof (b64_encode (sign key digest))).

Record VerifiedSessionEvent := mkVerifiedSessionEvent {
  verified_event_authority : VerifiedSessionAuthority;
  verified_event : SessionEvent;
  verified_event_publication : option OriginalEventPublication;
  verified_event_digest : string;
}.

Definition NANOS : Z := 1000000000.

(** At or after the cutoff of a revocation, if there is one. *)
Definition past_cutoff (authority : VerifiedSessionAuthority) (nanos : Z) : bool :=
  match verified_revocation_cutoff authority with
  | Some cutoff => (cutoff * NANOS <=? nanos)%Z
  | None => false
  end.

Definition verify_session_event (authority : VerifiedSessionAuthority) (event : SessionEvent)
    (payload_sha256 : string) (proof : SessionProof)
    (policy : SessionAuthorityVerificationPolicy)
    (original_publication : option OriginalEventPublication) (known_revoked : bool) :
    result VerifiedSessionEvent ProtocolError :=
  let body := verified_authority authority in
  let reject := authorization_error AuthInvalidEventProof []
                  "event identity or publication evidence rejected" in
  let? _ := match verified_purpose authority with
            | PurposeLive => assert_current authority policy known_revoked
            | PurposeHistoricalEvent =>
                reject_if
                  (negb (bool_decide (is_Some original_publication))
                   || (known_revoked
                       && negb (bool_decide (is_Some (verified_revocation_cutoff authority)))))
                  reject
            end in
  let? _ := reject_if
              (negb (String.eqb (event_authority_digest event) (verified_digest authority))
               || negb (has_api_stamp body (event_api_id event) (event_api_generation event)
                          (event_accepted_revision event)))
              reject in
  let? nanos := ok_or (rfc3339_nanos (event_time event)) reject in
  let start := (not_before body * NANOS)%Z in
  let finish := (expires_at body * NANOS)%Z in
  let? _ := reject_if
              ((nanos <? start)%Z || (finish <=? nanos)%Z || past_cutoff authority nanos
               || (bool_decide (verified_purpose authority = PurposeLive)
                   && skew_exceeded (nanos / NANOS) (now_unix_seconds policy)
                        (allowed_clock_skew_seconds policy)))
              reject in
  let? _ := match original_publication with
            | Some publication =>
                let? published := ok_or (rfc3339_nanos (published_at publication)) reject in
                reject_if
                  ((stream_sequence publication =? 0)%N || (published <? start)%Z
                   || (finish <=? published)%Z || past_cutoff authority published)
                  reject
            | None => Ok tt
            end in
  let? digest := event_signing_digest_sha256 event payload_sha256 in
  let? signature := decode_base64url 64 (session_proof proof) in
  let? _ := reject_if (negb (verify_strict (verified_session_key authority) digest signature))
              reject in
  Ok {| verified_event_authority := authority;
        verified_event := event;
        verified_event_publication := original_publication;
        verified_event_digest := digest |}.
End messages.

(** ** What a transcript binds *)

(** The integers of a message are those of its fields' types. *)
Definition request_typed (r : SessionRequest) : Prop :=
  (request_api_generation r <= u64_max /\ request_accepted_revision r <= u64_max)%N /\
  (request_issued_at r < 2 ^ 63)%Z.

Definition event_typed (e : SessionEvent) : Prop :=
  (event_api_generation e <= u64_max /\ event_accepted_revision e <= u64_max)%N.

Lemma validate_subject_nonempty s : validate_subject s = Ok tt -> s <> "".
Proof. unfold validate_subject. intros Hs ->. by peel Hs as Ht. Qed.

Section transcripts.
Context `{Base64Url, Sha256, UlidParser}.

Lemma request_digest_components r hash digest :
  request_signing_digest_sha256 r hash = Ok digest ->
  request_reply_subject r <> Some "" /\ (0 <= request_issued_at r)%Z /\
  exists authority, request_authority_digest r = b64_encode authority /\
    component_digest
      [MESSAGE_REQUEST_DOMAIN_V1; authority; request_api_id r;
       be_bytes_u64 (request_api_generation r); be_bytes_u64 (request_accepted_revision r);
       request_action r; request_subject r; default "" (request_reply_subject r); request_id r;
       be_bytes_i64 (request_issued_at r); hash] = Ok digest.
Proof.
  unfold request_signing_digest_sha256. intros Hd. do 3 skip Hd. peel Hd as u Hreply. destruct u.
  skip Hd. peel Hd as Hcounters. peel Hd as authority Ha.
  apply orb_false_iff in Hcounters as [_ Htime%Z.ltb_ge].
  apply decode_base64url_bytes in Ha as [Ha _]. split_and!; [|done|eauto].
  intros Hr. rewrite Hr in Hreply. by apply validate_subject_nonempty in Hreply.
Qed.

Lemma event_digest_components e hash digest :
  event_signing_digest_sha256 e hash = Ok digest ->
  exists authority, event_authority_digest e = b64_encode authority /\
    component_digest
      [MESSAGE_EVENT_DOMAIN_V1; authority; event_api_id e; be_bytes_u64 (event_api_generation e);
       be_bytes_u64 (event_accepted_revision e); event_action e; event_subject e; event_id e;
       event_time e; hash] = Ok digest.
Proof.
  unfold event_signing_digest_sha256. intros Hd. do 6 skip Hd. peel Hd as authority Ha.
  apply decode_base64url_bytes in Ha as [Ha _]. eauto.
Qed.

Lemma request_digest_binds r hash r' hash' digest :
  request_typed r -> request_typed r' ->
  request_signing_digest_sha256 r hash = Ok digest ->
  request_signing_digest_sha256 r' hash' = Ok digest ->
  (r = r' /\ hash = hash') \/ sha256_collision.
Proof.
  intros [[Hg Hv] Ht] [[Hg' Hv'] Ht'] (Hr & Hi & a & Ha & Hd)%request_digest_components
    (Hr' & Hi' & a' & Ha' & Hd')%request_digest_components.
  destruct (transcript_digest_binds _ _ _ _ _ Hd Hd') as [Heq|]; [|by right]. left.
  components Heq. split; [|done].
  destruct r as [? ? ? ? ? ? o ? ?], r' as [? ? ? ? ? ? o' ? ?]. simpl in *. subst. f_equal.
  destruct o, o'; simpl in *; congruence.
Qed.

Lemma event_digest_binds e hash e' hash' digest :
  event_typed e -> event_typed e' ->
  event_signing_digest_sha256 e hash = Ok digest ->
  event_signing_digest_sha256 e' hash' = Ok digest ->
  (e = e' /\ hash = hash') \/ sha256_collision.
Proof.
  intros [Hg Hv] [Hg' Hv'] (a & Ha & Hd)%event_digest_components
    (a' & Ha' & Hd')%event_digest_components.
  destruct (transcript_digest_binds _ _ _ _ _ Hd Hd') as [Heq|]; [|by right]. left.
  components Heq. split; [|done]. destruct e, e'. simpl in *. by subst.
Qed.

Lemma request_event_separate r hash e hash' digest :
  request_signing_digest_sha256 r hash = Ok digest ->
  event_signing_digest_sha256 e hash' = Ok digest -> sha256_collision.
Proof.
  intros (_ & _ & a & _ & Hd)%request_digest_components (a' & _ & Hd')%event_digest_components.
  by destruct (transcript_digest_binds _ _ _ _ _ Hd Hd').
Qed.
End transcripts.

(** ** What verification establishes *)

Section acceptance.
Context `{Base64UrlLaws, Sha256, Ed25519, UlidParser, Rfc3339}.

Lemma has_api_stamp_ok body api_id generation revision :
  has_api_stamp body api_id generation revision = true <->
  exists api, api ∈ apis body /\ authority_api_id api = api_id /\
    authority_generation api = generation /\ authority_accepted_revision api = revision.
Proof.
  unfold has_api_stamp. rewrite existsb_exists. setoid_rewrite <- list_elem_of_In.
  setoid_rewrite andb_true_iff. setoid_rewrite andb_true_iff.
  setoid_rewrite String.eqb_eq. setoid_rewrite N.eqb_eq. naive_solver.
Qed.

Lemma split_session_subject kind p c id :
  validate_transfer_id id = Ok tt ->
  rev (split "." (session_subject kind p c id)) =
  (id :: subject_token c :: subject_token p :: rev (prefix_tokens kind))%list.
Proof.
  intros Hid. unfold session_subject. rewrite split_prefix, split_session, rev_app_distr by done.
  done.
Qed.

(** A reply outside the inbox is the signal subject of the very transfer the request is
    on, of which the runtime is the consumer. *)
Lemma transfer_reply_sound runtime subject reply :
  transfer_reply runtime subject reply = true ->
  exists kind p id, (kind = Control \/ kind = UploadData) /\
    derive_transfer_subject kind p runtime id = Ok subject /\
    derive_transfer_subject Signal p runtime id = Ok reply.
Proof.
  unfold transfer_reply. rewrite !andb_true_iff. intros [[[Hk Hc] Ht] Hs].
  destruct (validate_transfer_subject subject) as [kind|] eqn:Hv; [|done].
  destruct (validate_transfer_subject reply) as [[]|] eqn:Hv'; try done.
  apply validate_kinds_ok in Hv as (p & c & id & _ & _ & Hd).
  apply validate_kinds_ok in Hv' as (p' & c' & id' & _ & _ & Hd').
  assert (kind = Control \/ kind = UploadData) as Hkind by (destruct kind; naive_solver).
  pose proof Hd as (_ & _ & Hid & ->)%derive_transfer_subject_ok.
  pose proof Hd' as (_ & _ & Hid' & ->)%derive_transfer_subject_ok.
  apply bool_decide_eq_true in Hc, Ht. rewrite !split_session_subject in Ht by done.
  rewrite split_session_subject in Hc by done. cbn in Hc, Ht.
  injection Hc as ->%subject_token_inj. injection Ht as -> <-%subject_token_inj <-%subject_token_inj.
  eauto 6.
Qed.

(** What an accepted request satisfies. *)
Definition request_admissible (authority : VerifiedSessionAuthority) (request : SessionRequest)
    (policy : SessionAuthorityVerificationPolicy) : Prop :=
  let body := verified_authority authority in
  verified_purpose authority = PurposeLive /\ verified_revocation_cutoff authority = None /\
  (not_before body <= now_unix_seconds policy < expires_at body)%Z /\
  request_authority_digest request = verified_digest authority /\
  (exists api, api ∈ apis body /\ authority_api_id api = request_api_id request /\
     authority_generation api = request_api_generation request /\
     authority_accepted_revision api = request_accepted_revision request) /\
  (Z.abs (request_issued_at request - now_unix_seconds policy)
   <= Z.of_N (allowed_clock_skew_seconds policy))%Z /\
  (forall reply, request_reply_subject request = Some reply ->
     starts_with (inbox_prefix body +:+ ".") reply = true \/
     transfer_reply (runtime_id body) (request_subject request) reply = true).

Lemma verify_session_request_ok authority request hash proof policy revoked v :
  verify_session_request authority request hash proof policy revoked = Ok v <->
  revoked = false /\ request_admissible authority request policy /\
  exists digest bytes, request_signing_digest_sha256 request hash = Ok digest /\
    decode_base64url 64 (session_proof proof) = Ok bytes /\
    verify_strict (verified_session_key authority) digest bytes = true /\
    v = mkVerifiedSessionRequest authority request digest.
Proof.
  unfold verify_session_request, request_admissible, skew_exceeded. split.
  - intros Hv. peel Hv as u Hcur. destruct u. apply assert_current_ok in Hcur as (? & -> & ? & [? ?]).
    peel Hv as Hdig. peel Hv as Hapi. peel Hv as Hskew. peel Hv as u Hreply.
    peel Hv as digest Hd. peel Hv as bytes Hb. peel Hv as Hs. injection Hv as <-.
    apply negb_false_iff, String.eqb_eq in Hdig. apply negb_false_iff, has_api_stamp_ok in Hapi.
    apply negb_false_iff in Hs. apply N.ltb_ge in Hskew. split_and!; try done; [lia| |eauto 7].
    intros reply Hr. rewrite Hr in Hreply.
    apply reject_if_ok, andb_false_iff in Hreply as [Hb'|Hb']; apply negb_false_iff in Hb'; auto.
  - intros (-> & (Hp & Hcut & Hwin & Hdig & Hapi & Hskew & Hreply) & digest & bytes & Hd & Hb
      & Hs & ->).
    rewrite (proj2 (assert_current_ok _ _ _)) by done.
    rewrite Hdig, String.eqb_refl, (proj2 (has_api_stamp_ok _ _ _ _) Hapi). cbn [negb reject_if].
    rewrite (proj2 (N.ltb_ge _ _)) by lia. cbn [reject_if].
    destruct (request_reply_subject request) as [reply|]; [|cbn; by rewrite Hd, Hb, Hs].
    destruct (Hreply reply eq_refl) as [->| ->]; cbn [negb andb]; [|rewrite andb_false_r];
      cbn; by rewrite Hd, Hb, Hs.
Qed.

(** An accepted request is authentic and current.  Its authority is live, inside its
    window and not revoked, it names that authority and an API stamp the authority has,
    its clock is within the allowed skew, its session key signed exactly this request and
    payload, and its reply goes to the caller's own inbox or to the signal subject of the
    transfer the request is on, of which the caller is the consumer. *)
Theorem accepted_request authority request hash proof policy revoked v :
  verify_session_request authority request hash proof policy revoked = Ok v ->
  let body := verified_authority authority in
  revoked = false /\ verified_purpose authority = PurposeLive /\
  verified_revocation_cutoff authority = None /\
  (not_before body <= now_unix_seconds policy < expires_at body)%Z /\
  request_authority_digest request = verified_digest authority /\
  (exists api, api ∈ apis body /\ authority_api_id api = request_api_id request /\
     authority_generation api = request_api_generation request /\
     authority_accepted_revision api = request_accepted_revision request) /\
  (Z.abs (request_issued_at request - now_unix_seconds policy)
   <= Z.of_N (allowed_clock_skew_seconds policy))%Z /\
  (exists bytes, session_proof proof = b64_encode bytes /\
     request_signing_digest_sha256 request hash = Ok (verified_request_digest v) /\
     verify_strict (verified_session_key authority) (verified_request_digest v) bytes = true) /\
  (forall reply, request_reply_subject request = Some reply ->
     (exists rest, reply = inbox_prefix body +:+ "." +:+ rest) \/
     exists kind p id, (kind = Control \/ kind = UploadData) /\
       derive_transfer_subject kind p (runtime_id body) id = Ok (request_subject request) /\
       derive_transfer_subject Signal p (runtime_id body) id = Ok reply).
Proof.
  intros (-> & (Hp & Hcut & [Hw Hw'] & Hdig & Hapi & Hskew & Hreply) & digest & bytes & Hd & Hb
    & Hs & ->)%verify_session_request_ok.
  apply decode_base64url_bytes in Hb as [Hb _]. cbn zeta. split_and!; try done; [by eexists|].
  intros reply Hr. destruct (Hreply reply Hr) as [Hi|Ht].
  - left. apply starts_with_true in Hi as [rest ->]. exists rest. by rewrite append_assoc.
  - right. by apply transfer_reply_sound.
Qed.

(** An instant inside the authority's window and before a revocation's cutoff. *)
Definition eligible (authority : VerifiedSessionAuthority) (nanos : Z) : Prop :=
  let body := verified_authority authority in
  (not_before body * NANOS <= nanos < expires_at body * NANOS)%Z /\
  forall cutoff, verified_revocation_cutoff authority = Some cutoff -> (nanos < cutoff * NANOS)%Z.

(** What an accepted event satisfies. *)
Definition event_admissible (authority : VerifiedSessionAuthority) (event : SessionEvent)
    (policy : SessionAuthorityVerificationPolicy) (publication : option OriginalEventPublication)
    (known_revoked : bool) : Prop :=
  let body := verified_authority authority in
  event_authority_digest event = verified_digest authority /\
  (exists api, api ∈ apis body /\ authority_api_id api = event_api_id event /\
     authority_generation api = event_api_generation event /\
     authority_accepted_revision api = event_accepted_revision event) /\
  (exists nanos, rfc3339_nanos (event_time event) = Some nanos /\ eligible authority nanos /\
     (verified_purpose authority = PurposeLive ->
        (Z.abs (nanos / NANOS - now_unix_seconds policy)
         <= Z.of_N (allowed_clock_skew_seconds policy))%Z)) /\
  (forall p, publication = Some p ->
     stream_sequence p <> 0%N /\
     exists nanos, rfc3339_nanos (published_at p) = Some nanos /\ eligible authority nanos) /\
  match verified_purpose authority with
  | PurposeLive => assert_current authority policy known_revoked = Ok tt
  | PurposeHistoricalEvent =>
      is_Some publication /\
      (known_revoked = true -> is_Some (verified_revocation_cutoff authority))
  end.

Lemma eligible_ok authority nanos :
  eligible authority nanos <->
  ((nanos <? not_before (verified_authority authority) * NANOS)%Z
   || (expires_at (verified_authority authority) * NANOS <=? nanos)%Z
   || past_cutoff authority nanos) = false.
Proof.
  unfold eligible, past_cutoff. rewrite !orb_false_iff, Z.ltb_ge, Z.leb_gt.
  destruct (verified_revocation_cutoff authority) as [cutoff|];
    [rewrite Z.leb_gt|]; naive_solver.
Qed.

Lemma verify_session_event_ok authority event hash proof policy publication revoked v :
  verify_session_event authority event hash proof policy publication revoked = Ok v <->
  event_admissible authority event policy publication revoked /\
  exists digest bytes, event_signing_digest_sha256 event hash = Ok digest /\
    decode_base64url 64 (session_proof proof) = Ok bytes /\
    verify_strict (verified_session_key authority) digest bytes = true /\
    v = mkVerifiedSessionEvent authority event publication digest.
Proof.
  unfold verify_session_event, event_admissible, skew_exceeded. split.
  - intros Hv. peel Hv as u Hpur. destruct u. peel Hv as Hid. peel Hv as nanos Hn. peel Hv as Ht.
    peel Hv as u Hpub. destruct u. peel Hv as digest Hd. peel Hv as bytes Hb. peel Hv as Hs.
    injection Hv as <-. apply orb_false_iff in Hid as [Hdig Hapi].
    apply negb_false_iff, String.eqb_eq in Hdig. apply negb_false_iff, has_api_stamp_ok in Hapi.
    apply orb_false_iff in Ht as [Ht%eligible_ok Hskew]. apply negb_false_iff in Hs.
    split; [|eauto 7]. split_and!; try done.
    + exists nanos. split_and!; [done..|]. intros Hl. rewrite Hl in Hskew.
      apply andb_false_iff in Hskew as [?|Hskew%N.ltb_ge]; [done|lia].
    + intros p ->. peel Hpub as published Hp. apply reject_if_ok in Hpub.
      rewrite <- !orb_assoc in Hpub. apply orb_false_iff in Hpub as [?%N.eqb_neq Hpub].
      rewrite orb_assoc in Hpub. apply eligible_ok in Hpub. eauto.
    + destruct (verified_purpose authority); [done|].
      apply reject_if_ok, orb_false_iff in Hpur as [Hp%negb_false_iff%bool_decide_eq_true Hr].
      split; [done|]. intros ->. by apply negb_false_iff, bool_decide_eq_true in Hr.
  - intros ((Hdig & Hapi & (nanos & Hn & Ht & Hskew) & Hpub & Hpur) & digest & bytes & Hd & Hb
      & Hs & ->).
    assert (forall T (k : result T ProtocolError), (let? _ :=
      match verified_purpose authority with
      | PurposeLive => assert_current authority policy revoked
      | PurposeHistoricalEvent =>
          reject_if (negb (bool_decide (is_Some publication)) ||
            revoked && negb (bool_decide (is_Some (verified_revocation_cutoff authority))))
            (authorization_error AuthInvalidEventProof []
               "event identity or publication evidence rejected")
      end in k) = k) as ->.
    { intros T k. destruct (verified_purpose authority); [by rewrite Hpur|].
      destruct Hpur as [Hp Hr]. rewrite bool_decide_eq_true_2 by done. cbn.
      destruct revoked; [|done]. by rewrite bool_decide_eq_true_2 by auto. }
    rewrite Hdig, String.eqb_refl, (proj2 (has_api_stamp_ok _ _ _ _) Hapi), Hn. cbn [negb orb reject_if ok_or].
    rewrite (proj1 (eligible_ok _ _) Ht). cbn [orb].
    assert ((bool_decide (verified_purpose authority = PurposeLive) &&
      (allowed_clock_skew_seconds policy <?
         Z.abs_N (nanos / NANOS - now_unix_seconds policy))%N) = false) as ->.
    { case_bool_decide as Hl; [|done]. specialize (Hskew Hl). apply N.ltb_ge. lia. }
    cbn [reject_if]. destruct publication as [p|].
    + destruct (Hpub p eq_refl) as (Hseq%N.eqb_neq & published & Hp & He%eligible_ok).
      rewrite Hp. cbn [ok_or]. rewrite Hseq. cbn [orb]. rewrite He. cbn [reject_if].
      by rewrite Hd, Hb, Hs.
    + by rewrite Hd, Hb, Hs.
Qed.

(** An accepted event was published while its publisher was authorized.  It names the
    verified authority and an API stamp the authority has, the session key signed exactly
    this event and payload, and its signed time, and the broker's own publication time
    when there is one, lie inside the authority's window and before the cutoff of a
    revocation.  A live event is also within the clock skew of a current, unrevoked
    authority; a retained one needs the broker's evidence, and a revoked session's retained
    events need the cutoff. *)
Theorem accepted_event authority event hash proof policy publication revoked v :
  verify_session_event authority event hash proof policy publication revoked = Ok v ->
  event_admissible authority event policy publication revoked /\
  verified_event v = event /\ verified_event_publication v = publication /\
  exists bytes, session_proof proof = b64_encode bytes /\
    event_signing_digest_sha256 event hash = Ok (verified_event_digest v) /\
    verify_strict (verified_session_key authority) (verified_event_digest v) bytes = true.
Proof.
  intros (Ha & digest & bytes & Hd & Hb & Hs & ->)%verify_session_event_ok.
  apply decode_base64url_bytes in Hb as [Hb _]. split_and!; try done. by exists bytes.
Qed.

(** What a session signs is accepted precisely when it is admissible: a request or an
    event signed with the session key of a verified authority, whose proof also parses, is
    accepted for its payload under every condition [request_admissible] or
    [event_admissible] states, and under no other. *)
Theorem signed_messages_accepted `{!Ed25519Laws} authority key policy :
  verified_session_key authority = verifying_key key ->
  (forall request payload proof, sign_session_request request payload key = Ok proof ->
     parse_session_proof (session_proof proof) = Ok proof /\
     ((exists v, verify_session_request authority request (sha256 payload) proof policy false = Ok v)
      <-> request_admissible authority request policy)) /\
  (forall event payload proof publication revoked,
     sign_session_event event payload key = Ok proof ->
     parse_session_proof (session_proof proof) = Ok proof /\
     ((exists v, verify_session_event authority event (sha256 payload) proof policy publication
                   revoked = Ok v)
      <-> event_admissible authority event policy publication revoked)).
Proof.
  intros Hkey. split.
  - intros request payload proof Hs. unfold sign_session_request in Hs. peel Hs as digest Hd.
    injection Hs as <-. pose proof (decode_base64url_encode 64 _ (sign_length key digest)) as Hb.
    split; [unfold parse_session_proof; cbn; by rewrite Hb|].
    setoid_rewrite verify_session_request_ok. split; [by intros (v & _ & ? & _)|].
    intros Ha. eexists. split_and!; [done|done|]. exists digest, (sign key digest).
    rewrite Hkey. split_and!; [done|done|apply verify_sign|done].
  - intros event payload proof publication revoked Hs. unfold sign_session_event in Hs.
    peel Hs as digest Hd.
    injection Hs as <-. pose proof (decode_base64url_encode 64 _ (sign_length key digest)) as Hb.
    split; [unfold parse_session_proof; cbn; by rewrite Hb|].
    setoid_rewrite verify_session_event_ok. split; [by intros (v & ? & _)|].
    intros Ha. eexists. split_and!; [done|]. exists digest, (sign key digest).
    rewrite Hkey. split_and!; [done|done|apply verify_sign|done].
Qed.
End acceptance.

(** ** Evaluated examples *)

Local Existing Instances rfc4648 rfc4648_laws sample_sha256 sample_ed25519 sample_ed25519_laws
  sample_ulid sample_url.

(** A clock whose texts are all the same instant. *)
Definition sample_clock : Rfc3339 := fun _ => Some (205 * NANOS)%Z.
Local Existing Instance sample_clock.

Definition sample_verified : VerifiedSessionAuthority := {|
  verified_signed := sample_signed;
  verified_digest := sample_zeros;
  verified_session_key := verifying_key sample_signer;
  verified_purpose := PurposeLive;
  verified_revocation_cutoff := None;
|}.

Definition sample_retained : VerifiedSessionAuthority := {|
  verified_signed := sample_signed;
  verified_digest := sample_zeros;
  verified_session_key := verifying_key sample_signer;
  verified_purpose := PurposeHistoricalEvent;
  verified_revocation_cutoff := Some 300%Z;
|}.

Definition sample_request : SessionRequest := {|
  request_authority_digest := sample_zeros;
  request_api_id := "files@v1";
  request_api_generation := 1;
  request_accepted_revision := 2;
  request_action := "files.read";
  request_subject := "rpc.v1.files.read";
  request_reply_subject := Some "_INBOX.worker.1";
  request_id := sample_id;
  request_issued_at := 190;
|}.

Definition sample_event : SessionEvent := {|
  event_authority_digest := sample_zeros;
  event_api_id := "files@v1";
  event_api_generation := 1;
  event_accepted_revision := 2;
  event_action := "files.changed";
  event_subject := "events.v1.files.changed";
  event_id := sample_id;
  event_time := "1970-01-01T00:03:25Z";
|}.

Definition sample_publication : OriginalEventPublication := mkOriginalEventPublication "1970" 7.

Definition sample_request_proof : SessionProof :=
  Eval vm_compute in
    match sign_session_request sample_request "data" sample_signer with
    | Ok proof => proof
    | Err _ => mkSessionProof ""
    end.

Definition sample_event_proof : SessionProof :=
  Eval vm_compute in
    match sign_session_event sample_event "data" sample_signer with
    | Ok proof => proof
    | Err _ => mkSessionProof ""
    end.

Lemma accepted_request_witness :
  exists v, verify_session_request sample_verified sample_request (sha256 "data")
      sample_request_proof sample_policy false = Ok v /\
    request_authority_digest sample_request = verified_digest sample_verified.
Proof.
  destruct (verify_session_request sample_verified sample_request (sha256 "data")
    sample_request_proof sample_policy false) as [v|e] eqn:Hv; [|by vm_compute in Hv].
  exists v. pose proof (accepted_request _ _ _ _ _ _ _ Hv) as (_ & _ & _ & _ & Hd & _).
  exact (conj eq_refl Hd).
Defined.

Lemma accepted_event_witness :
  exists v, verify_session_event sample_retained sample_event (sha256 "data") sample_event_proof
      sample_policy (Some sample_publication) true = Ok v /\ verified_event v = sample_event.
Proof.
  destruct (verify_session_event sample_retained sample_event (sha256 "data") sample_event_proof
    sample_policy (Some sample_publication) true) as [v|e] eqn:Hv; [|by vm_compute in Hv].
  exists v. pose proof (accepted_event _ _ _ _ _ _ _ _ Hv) as (_ & He & _).
  exact (conj eq_refl He).
Defined.

Lemma signed_messages_accepted_witness :
  sign_session_request sample_request "data" sample_signer = Ok sample_request_proof /\
  parse_session_proof (session_proof sample_request_proof) = Ok sample_request_proof.
Proof.
  assert (sign_session_request sample_request "data" sample_signer = Ok sample_request_proof) as Hs
    by (vm_compute; reflexivity).
  pose proof (signed_messages_accepted sample_verified sample_signer sample_policy eq_refl)
    as [Hr _].
  exact (conj Hs (proj1 (Hr _ _ _ Hs))).
Defined.
