(* ===== verification/Catalog.v ===== *)
(** * Signed verification records

    The records Auth signs and a verifier consults, from
    [crates/protocol/src/catalog.rs]: catalog snapshots, provider certificates, issuer
    rotations and session revocations, their signatures, and the decisions taken on them. *)

From Stdlib Require Import Ascii String.
From S2P Require Import Prelude RustStr Extern Json Transcript Base64 Protocol Wire.
From S2P Require Import Authorization Identifiers Permissions SessionAuthority.

Local Open Scope string_scope.

Local Existing Instance json_tree.

Definition CATALOG_SNAPSHOT_FORMAT_V1 : string := "trellis.catalog-snapshot.v1".
Definition PROVIDER_CERTIFICATE_FORMAT_V1 : string := "trellis.provider-certificate.v1".
Definition ISSUER_ROTATION_FORMAT_V1 : string := "trellis.issuer-rotation.v1".
Definition SESSION_REVOCATION_FORMAT_V1 : string := "trellis.session-revocation.v1".

(** ** Documents *)

Record CatalogAction := mkCatalogAction {
  action_identity : CatalogActionIdentity;
  introduced_revision : N;
}.

Record CatalogCapabilityMembership := mkCatalogCapabilityMembership {
  member_action : CatalogActionIdentity;
  member_since_revision : N;
}.

Record CatalogCapability := mkCatalogCapability {
  catalog_capability_id : string;
  catalog_identity_generation : N;
  catalog_consent_revision : N;
  memberships : list CatalogCapabilityMembership;
}.

Record SignedCatalogSnapshot := mkSignedCatalogSnapshot {
  snapshot_format : string;
  snapshot_issuer_key_id : string;
  snapshot_instance_id : string;
  snapshot_nats_account : string;
  snapshot_api_id : string;
  snapshot_generation : N;
  snapshot_accepted_revision : N;
  snapshot_definition_digest : string;
  snapshot_actions : list CatalogAction;
  snapshot_capabilities : list CatalogCapability;
  snapshot_issued_at : Z;
  snapshot_extensions : list (string * Json);
  snapshot_critical : list string;
  snapshot_signature : string;
}.

Record SignedProviderCertificate := mkSignedProviderCertificate {
  cert_format : string;
  cert_issuer_key_id : string;
  cert_instance : string;
  cert_nats_account : string;
  cert_principal_id : string;
  cert_deployment_id : string;
  cert_instance_id : string;
  cert_session_public_key : string;
  cert_api_id : string;
  cert_generation : N;
  cert_implementation_digest : string;
  cert_implemented_actions : list CatalogActionIdentity;
  cert_issued_at : Z;
  cert_not_before : Z;
  cert_expires_at : Z;
  cert_extensions : list (string * Json);
  cert_critical : list string;
  cert_signature : string;
}.

Record SignedIssuerRotation := mkSignedIssuerRotation {
  rotation_format : string;
  rotation_instance_id : string;
  rotation_nats_account : string;
  rotation_sequence : N;
  rotation_previous_key_id : string;
  rotation_next_key_id : string;
  rotation_next_public_key : string;
  rotation_activated_at : Z;
  rotation_previous_retired_at : Z;
  rotation_extensions : list (string * Json);
  rotation_critical : list string;
  rotation_signature : string;
}.

Record SignedSessionRevocation := mkSignedSessionRevocation {
  revocation_format : string;
  revocation_issuer_key_id : string;
  revocation_instance_id : string;
  revocation_nats_account : string;
  revocation_session_id : string;
  effective_cutoff : Z;
  revocation_reason : string;
  revocation_issued_at : Z;
  latest_context_expiry : Z;
  revocation_extensions : list (string * Json);
  revocation_critical : list string;
  revocation_signature : string;
}.

(** ** Serialization *)

Definition identity_json (i : CatalogActionIdentity) : Json :=
  object [("kind", JString (surface_as_str (identity_kind i)));
          ("name", JString (identity_name i));
          ("direction", JString (action_as_str (identity_direction i)))].

Definition action_json (a : CatalogAction) : Json :=
  object [("identity", identity_json (action_identity a));
          ("introducedRevision", JString (u64s (introduced_revision a)))].

Definition membership_json (m : CatalogCapabilityMembership) : Json :=
  object [("action", identity_json (member_action m));
          ("memberSinceRevision", JString (u64s (member_since_revision m)))].

Definition catalog_capability_json (c : CatalogCapability) : Json :=
  object [("capabilityId", JString (catalog_capability_id c));
          ("identityGeneration", JString (u64s (catalog_identity_generation c)));
          ("consentRevision", JString (u64s (catalog_consent_revision c)));
          ("memberships", JArray (membership_json <$> memberships c))].

Definition snapshot_json (s : SignedCatalogSnapshot) : Json :=
  object [("format", JString (snapshot_format s));
          ("issuerKeyId", JString (snapshot_issuer_key_id s));
          ("trellisInstanceId", JString (snapshot_instance_id s));
          ("audienceNatsAccount", JString (snapshot_nats_account s));
          ("apiId", JString (snapshot_api_id s));
          ("generation", JString (u64s (snapshot_generation s)));
          ("acceptedRevision", JString (u64s (snapshot_accepted_revision s)));
          ("definitionDigest", JString (snapshot_definition_digest s));
          ("actions", JArray (action_json <$> snapshot_actions s));
          ("capabilities", JArray (catalog_capability_json <$> snapshot_capabilities s));
          ("issuedAt", JInt (snapshot_issued_at s));
          ("extensions", JObject (snapshot_extensions s));
          ("critical", JArray (JString <$> snapshot_critical s));
          ("signature", JString (snapshot_signature s))].

Definition certificate_json (c : SignedProviderCertificate) : Json :=
  object [("format", JString (cert_format c));
          ("issuerKeyId", JString (cert_issuer_key_id c));
          ("trellisInstanceId", JString (cert_instance c));
          ("audienceNatsAccount", JString (cert_nats_account c));
          ("principalId", JString (cert_principal_id c));
          ("deploymentId", JString (cert_deployment_id c));
          ("instanceId", JString (cert_instance_id c));
          ("sessionPublicKey", JString (cert_session_public_key c));
          ("apiId", JString (cert_api_id c));
          ("generation", JString (u64s (cert_generation c)));
          ("implementationDigest", JString (cert_implementation_digest c));
          ("implementedActions", JArray (identity_json <$> cert_implemented_actions c));
          ("issuedAt", JInt (cert_issued_at c));
          ("notBefore", JInt (cert_not_before c));
          ("expiresAt", JInt (cert_expires_at c));
          ("extensions", JObject (cert_extensions c));
          ("critical", JArray (JString <$> cert_critical c));
          ("signature", JString (cert_signature c))].

Definition rotation_json (r : SignedIssuerRotation) : Json :=
  object [("format", JString (rotation_format r));
          ("trellisInstanceId", JString (rotation_instance_id r));
          ("audienceNatsAccount", JString (rotation_nats_account r));
          ("sequence", JString (u64s (rotation_sequence r)));
          ("previousKeyId", JString (rotation_previous_key_id r));
          ("nextKeyId", JString (rotation_next_key_id r));
          ("nextPublicKey", JString (rotation_next_public_key r));
          ("activatedAt", JInt (rotation_activated_at r));
          ("previousRetiredAt", JInt (rotation_previous_retired_at r));
          ("extensions", JObject (rotation_extensions r));
          ("critical", JArray (JString <$> rotation_critical r));
          ("signature", JString (rotation_signature r))].

Definition revocation_json (r : SignedSessionRevocation) : Json :=
  object [("format", JString (revocation_format r));
          ("issuerKeyId", JString (revocation_issuer_key_id r));
          ("trellisInstanceId", JString (revocation_instance_id r));
          ("audienceNatsAccount", JString (revocation_nats_account r));
          ("authorizationSessionId", JString (revocation_session_id r));
          ("effectiveCutoff", JInt (effective_cutoff r));
          ("reason", JString (revocation_reason r));
          ("issuedAt", JInt (revocation_issued_at r));
          ("latestContextExpiry", JInt (latest_context_expiry r));
          ("extensions", JObject (revocation_extensions r));
          ("critical", JArray (JString <$> revocation_critical r));
          ("signature", JString (revocation_signature r))].

(** ** Signatures *)

(** The records of [signed_record!]: their domain, their serialization, and their
    signature. *)
Class SignedRecord (R : Type) := {
  record_domain : string;
  record_json : R -> Json;
  record_signature : R -> string;
  with_signature : string -> R -> R;
}.

Global Instance snapshot_record : SignedRecord SignedCatalogSnapshot := {|
  record_domain := CATALOG_SNAPSHOT_FORMAT_V1;
  record_json := snapshot_json;
  record_signature := snapshot_signature;
  with_signature := fun s '(mkSignedCatalogSnapshot a b c d e f g h i j k l m _) =>
    mkSignedCatalogSnapshot a b c d e f g h i j k l m s;
|}.

Global Instance certificate_record : SignedRecord SignedProviderCertificate := {|
  record_domain := PROVIDER_CERTIFICATE_FORMAT_V1;
  record_json := certificate_json;
  record_signature := cert_signature;
  with_signature := fun s '(mkSignedProviderCertificate a b c d e f g h i j k l m n o p q _) =>
    mkSignedProviderCertificate a b c d e f g h i j k l m n o p q s;
|}.

Global Instance rotation_record : SignedRecord SignedIssuerRotation := {|
  record_domain := ISSUER_ROTATION_FORMAT_V1;
  record_json := rotation_json;
  record_signature := rotation_signature;
  with_signature := fun s '(mkSignedIssuerRotation a b c d e f g h i j k _) =>
    mkSignedIssuerRotation a b c d e f g h i j k s;
|}.

Global Instance revocation_record : SignedRecord SignedSessionRevocation := {|
  record_domain := SESSION_REVOCATION_FORMAT_V1;
  record_json := revocation_json;
  record_signature := revocation_signature;
  with_signature := fun s '(mkSignedSessionRevocation a b c d e f g h i j k _) =>
    mkSignedSessionRevocation a b c d e f g h i j k s;
|}.

Definition metadata_error : ProtocolError :=
  authorization_error AuthInvalidFormat [] "invalid signed verification material".

(** The most bytes of a record's canonical text. *)
Definition MAX_METADATA_BYTES : N := 1048576.

(** A record authenticated once. *)
Record Authenticated (R : Type) := mkAuthenticated {
  auth_record : R;
  auth_digest : string;
  auth_issuer_key_id : string;
  auth_issuer_public_key : string;
  auth_instance : string;
  auth_account : string;
}.
Arguments mkAuthenticated {R}.
Arguments auth_record {R}.
Arguments auth_digest {R}.
Arguments auth_issuer_key_id {R}.
Arguments auth_issuer_public_key {R}.
Arguments auth_instance {R}.
Arguments auth_account {R}.

Section records.
Context `{Base64Url, Sha256, Ed25519} `{!CanonicalJson}.

Section record.
Context {R : Type} `{SignedRecord R}.

Definition metadata_digest (record : R) (domain : string) : result string ProtocolError :=
  let? fields := ok_or (as_object (record_json record)) metadata_error in
  signed_json_digest domain (JObject (map_remove "signature" fields)).

Definition verify_metadata (record : R) (domain : string) (signature : string)
    (issuer : AuthorityIssuerKey) (instance account : string) : result unit ProtocolError :=
  let value := record_json record in
  let? canonical := canonicalize_json value in
  let? _ := reject_if
              ((MAX_METADATA_BYTES <? N.of_nat (String.length canonical))%N
               || negb (bool_decide (value_index "format" value = JString domain))
               || negb (bool_decide (value_index "trellisInstanceId" value = JString instance))
               || negb (bool_decide (value_index "audienceNatsAccount" value = JString account))
               || match as_array (value_index "critical" value) with
                  | Some [] => false
                  | _ => true
                  end
               || bool_decide (issuer_state issuer = IssuerRevoked)
               || match value_get "issuerKeyId" value with
                  | Some id => negb (bool_decide (id = JString (key_id issuer)))
                  | None => false
                  end)
              metadata_error in
  let? bytes := ok_or (b64_decode signature) metadata_error in
  let? _ := reject_if (negb (String.eqb (b64_encode bytes) signature)) metadata_error in
  let? _ := reject_if (negb (Nat.eqb (String.length bytes) 64)) metadata_error in
  let? key := issuer_verifying_key issuer in
  let? digest := metadata_digest record domain in
  reject_if (negb (verify_strict key digest bytes)) metadata_error.

(** [sign] and [digest] of [signed_record!] *)
Definition sign_record (record : R) (key : SigningKey) : result R ProtocolError :=
  let? digest := metadata_digest record record_domain in
  Ok (with_signature (b64_encode (sign key digest)) record).

Definition record_digest (record : R) : result string ProtocolError :=
  content_address (record_json record).
End record.

(** ** Catalog snapshots *)

(** [SignedCatalogSnapshot::verify] *)
Definition verify_snapshot (s : SignedCatalogSnapshot) (issuer : AuthorityIssuerKey)
    (instance account : string) : result unit ProtocolError :=
  let? _ := verify_metadata s CATALOG_SNAPSHOT_FORMAT_V1 (snapshot_signature s) issuer instance
              account in
  let late revision := (revision =? 0)%N || (snapshot_accepted_revision s <? revision)%N in
  reject_if
    ((snapshot_generation s =? 0)%N || (snapshot_accepted_revision s =? 0)%N
     || existsb (fun action => late (introduced_revision action)) (snapshot_actions s)
     || existsb
          (fun capability =>
             (catalog_identity_generation capability =? 0)%N
             || (catalog_consent_revision capability =? 0)%N
             || existsb
                  (fun member =>
                     late (member_since_revision member)
                     || negb (existsb
                                (fun action =>
                                   bool_decide (action_identity action = member_action member))
                                (snapshot_actions s)))
                  (memberships capability))
          (snapshot_capabilities s))
    metadata_error.

(** [SignedCatalogSnapshot::authorizes] *)
Definition authorizes (s : SignedCatalogSnapshot) (authority : SignedSessionAuthority)
    (action : CatalogActionIdentity) : bool :=
  match find (fun api => String.eqb (authority_api_id api) (snapshot_api_id s))
          (apis (unsigned authority)) with
  | None => false
  | Some api =>
      if negb (authority_generation api =? snapshot_generation s)%N
         || (snapshot_accepted_revision s <? authority_accepted_revision api)%N
      then false
      else
        match find (fun entry => bool_decide (action_identity entry = action))
                (snapshot_actions s) with
        | None => false
        | Some entry =>
            (introduced_revision entry <=? authority_accepted_revision api)%N
            && existsb
                 (fun capability =>
                    existsb
                      (fun grant =>
                         String.eqb (cap_capability_id grant) (catalog_capability_id capability)
                         && (cap_identity_generation grant
                             =? catalog_identity_generation capability)%N
                         && (cap_consent_revision grant =? catalog_consent_revision capability)%N)
                      (capabilities (unsigned authority))
                    && existsb
                         (fun member =>
                            bool_decide (member_action member = action)
                            && (member_since_revision member <=? authority_accepted_revision api)%N)
                         (memberships capability))
                 (snapshot_capabilities s)
        end
  end.

(** ** Provider certificates *)

Definition is_event_publication (action : CatalogActionIdentity) : bool :=
  bool_decide (identity_kind action = SurfaceEvent)
  && bool_decide (identity_direction action = ActionPublish).

(** The deployment and instance of the binding are the certificate's. *)
Definition binding_certified (b : SessionBinding) (c : SignedProviderCertificate) : bool :=
  match b with
  | BindingService deployment instance _ | BindingDevice deployment instance _ =>
      String.eqb deployment (cert_deployment_id c) && String.eqb instance (cert_instance_id c)
  | _ => false
  end.

Definition event_publication_matches (c : SignedProviderCertificate)
    (authority : SignedSessionAuthority) (catalog : SignedCatalogSnapshot)
    (catalog_digest certificate_digest : string) (action : CatalogActionIdentity) : bool :=
  if negb (is_event_publication action) then false
  else
    let body := unsigned authority in
    match find (fun b => String.eqb (provider_api_id b) (cert_api_id c)) (provider_bindings body),
          find (fun a => String.eqb (authority_api_id a) (cert_api_id c)) (apis body),
          find (fun entry => bool_decide (action_identity entry = action))
            (snapshot_actions catalog) with
    | Some b, Some api, Some entry =>
        binding_certified (binding body) c
        && String.eqb (cert_principal_id c) (principal_id body)
        && String.eqb (cert_session_public_key c) (session_public_key body)
        && String.eqb (provider_certificate_digest b) certificate_digest
        && String.eqb (provider_deployment_id b) (cert_deployment_id c)
        && String.eqb (provider_implementation_digest b) (cert_implementation_digest c)
        && (provider_generation b =? cert_generation c)%N
        && (authority_generation api =? cert_generation c)%N
        && String.eqb (snapshot_api_id catalog) (cert_api_id c)
        && (snapshot_generation catalog =? cert_generation c)%N
        && String.eqb (authority_catalog_snapshot_digest api) catalog_digest
        && (authority_accepted_revision api <=? snapshot_accepted_revision catalog)%N
        && (introduced_revision entry <=? authority_accepted_revision api)%N
        && bool_decide (action ∈ cert_implemented_actions c)
    | _, _, _ => false
    end.

Definition verify_authenticity (c : SignedProviderCertificate) (issuer : AuthorityIssuerKey)
    (instance account : string) : result unit ProtocolError :=
  let? _ := verify_metadata c PROVIDER_CERTIFICATE_FORMAT_V1 (cert_signature c) issuer instance
              account in
  reject_if
    ((cert_generation c =? 0)%N || (cert_issued_at c <? cert_not_before c)%Z
     || (cert_expires_at c <=? cert_issued_at c)%Z)
    metadata_error.

Definition certificate_window (c : SignedProviderCertificate) (now : Z) :
    result unit ProtocolError :=
  reject_if ((now <? cert_not_before c)%Z || (cert_expires_at c <=? now)%Z) metadata_error.

(** [SignedProviderCertificate::verify] *)
Definition verify_certificate (c : SignedProviderCertificate) (issuer : AuthorityIssuerKey)
    (instance account : string) (now : Z) : result unit ProtocolError :=
  let? _ := verify_authenticity c issuer instance account in
  certificate_window c now.

Definition authorizes_event_publication (c : SignedProviderCertificate)
    (issuer : AuthorityIssuerKey) (authority : SignedSessionAuthority)
    (catalog : SignedCatalogSnapshot) (action : CatalogActionIdentity) (at_time : Z) :
    result bool ProtocolError :=
  if negb (is_event_publication action) then Ok false
  else
    let body := unsigned authority in
    let? _ := verify_certificate c issuer (trellis_instance_id body) (audience_nats_account body)
                at_time in
    let? catalog_digest := record_digest catalog in
    let? certificate_digest := record_digest c in
    Ok (event_publication_matches c authority catalog catalog_digest certificate_digest action).

(** ** Revocations and rotations *)

(** [SignedSessionRevocation::verify] *)
Definition verify_revocation `{UlidParser} (r : SignedSessionRevocation)
    (issuer : AuthorityIssuerKey) (instance account : string) : result unit ProtocolError :=
  let? _ := verify_metadata r SESSION_REVOCATION_FORMAT_V1 (revocation_signature r) issuer instance
              account in
  reject_if
    (negb (is_ulid (revocation_session_id r)) || (effective_cutoff r <? 0)%Z
     || (revocation_issued_at r <? effective_cutoff r)%Z
     || (latest_context_expiry r <? effective_cutoff r)%Z)
    metadata_error.

Definition verify_successor (r : SignedIssuerRotation) (previous : AuthorityIssuerKey)
    (instance account : string) (installed_sequence : N) (now : Z) :
    result AuthorityIssuerKey ProtocolError :=
  let? _ := verify_metadata r ISSUER_ROTATION_FORMAT_V1 (rotation_signature r) previous instance
              account in
  let? _ := reject_if (negb (String.eqb (rotation_previous_key_id r) (key_id previous)))
              metadata_error in
  let? next_sequence := ok_or (checked_add_u64 installed_sequence 1) metadata_error in
  let? _ := reject_if
              (negb (rotation_sequence r =? next_sequence)%N || (now <? rotation_activated_at r)%Z
               || (rotation_previous_retired_at r <? rotation_activated_at r)%Z)
              metadata_error in
  let next := {| key_id := rotation_next_key_id r; public_key := rotation_next_public_key r;
                 issuer_state := IssuerActive |} in
  let? _ := issuer_verifying_key next in
  let? _ := reject_if (String.eqb (key_id next) (key_id previous)) metadata_error in
  Ok next.

(** ** Records authenticated once *)

Definition authenticated_check {R} (a : Authenticated R) (issuer : AuthorityIssuerKey)
    (instance account : string) : result unit ProtocolError :=
  reject_if
    (negb (String.eqb (key_id issuer) (auth_issuer_key_id a))
     || negb (String.eqb (public_key issuer) (auth_issuer_public_key a))
     || bool_decide (issuer_state issuer = IssuerRevoked)
     || negb (String.eqb instance (auth_instance a))
     || negb (String.eqb account (auth_account a)))
    metadata_error.

(** [Authenticated::new] *)
Definition authenticated {R} (record : R) (digest : string) (issuer : AuthorityIssuerKey)
    (instance account : string) : Authenticated R := {|
  auth_record := record;
  auth_digest := digest;
  auth_issuer_key_id := key_id issuer;
  auth_issuer_public_key := public_key issuer;
  auth_instance := instance;
  auth_account := account;
|}.

Definition authenticate_catalog (s : SignedCatalogSnapshot) (issuer : AuthorityIssuerKey)
    (instance account : string) : result (Authenticated SignedCatalogSnapshot) ProtocolError :=
  let? _ := verify_snapshot s issuer instance account in
  let? digest := record_digest s in
  Ok (authenticated s digest issuer instance account).

Definition authenticate_certificate (c : SignedProviderCertificate) (issuer : AuthorityIssuerKey)
    (instance account : string) : result (Authenticated SignedProviderCertificate) ProtocolError :=
  let? _ := verify_authenticity c issuer instance account in
  let? digest := record_digest c in
  Ok (authenticated c digest issuer instance account).

Definition check_at (a : Authenticated SignedProviderCertificate) (issuer : AuthorityIssuerKey)
    (instance account : string) (now : Z) : result unit ProtocolError :=
  let? _ := authenticated_check a issuer instance account in
  certificate_window (auth_record a) now.

(** [AuthenticatedProviderCertificate::authorizes_event_publication] *)
Definition authenticated_authorizes_event_publication (a : Authenticated SignedProviderCertificate)
    (issuer : AuthorityIssuerKey) (authority : SignedSessionAuthority)
    (catalog : Authenticated SignedCatalogSnapshot) (action : CatalogActionIdentity)
    (at_time : Z) : result bool ProtocolError :=
  if negb (is_event_publication action) then Ok false
  else
    let body := unsigned authority in
    let? _ := check_at a issuer (trellis_instance_id body) (audience_nats_account body) at_time in
    Ok (event_publication_matches (auth_record a) authority (auth_record catalog)
          (auth_digest catalog) (auth_digest a) action).
End records.

(** ** What a verified record satisfies *)

(** What the records' shape gives: the signature is the one that was set, it is the only
    member that setting it changes, and it is not signed. *)
Class SignedRecordLaws (R : Type) `{SignedRecord R} : Prop := {
  signature_with s r : record_signature (with_signature s r) = s;
  signature_only s r : exists fields fields',
    record_json r = object fields /\ record_json (with_signature s r) = object fields' /\
    same_but "signature" fields fields';
}.

Ltac solve_record :=
  split; [by intros s []|];
  intros s []; eexists _, _; split; [reflexivity|]; split; [reflexivity|];
  repeat (apply Forall2_cons; split; [split; [reflexivity|]|]);
  [.. | apply Forall2_nil]; cbn; by intros.

Global Instance snapshot_laws : SignedRecordLaws SignedCatalogSnapshot.
Proof. solve_record. Qed.
Global Instance certificate_laws : SignedRecordLaws SignedProviderCertificate.
Proof. solve_record. Qed.
Global Instance rotation_laws : SignedRecordLaws SignedIssuerRotation.
Proof. solve_record. Qed.
Global Instance revocation_laws : SignedRecordLaws SignedSessionRevocation.
Proof. solve_record. Qed.

(** A record of the domain and scope, without critical extension, that names the issuer
    if it names one. *)
Definition record_scope {R} `{SignedRecord R} (r : R) (domain instance account issuer_id : string) :
    Prop :=
  value_index "format" (record_json r) = JString domain /\
  value_index "trellisInstanceId" (record_json r) = JString instance /\
  value_index "audienceNatsAccount" (record_json r) = JString account /\
  value_index "critical" (record_json r) = JArray [] /\
  forall id, value_get "issuerKeyId" (record_json r) = Some id -> id = JString issuer_id.

Section verified.
Context `{Base64Url, Sha256, Ed25519} `{!CanonicalJson}.
Context {R : Type} `{SignedRecord R}.

Lemma verify_metadata_ok (r : R) domain sig issuer instance account :
  verify_metadata r domain sig issuer instance account = Ok tt <->
  record_scope r domain instance account (key_id issuer) /\
  issuer_state issuer <> IssuerRevoked /\
  exists text bytes key digest,
    canonicalize_json (record_json r) = Ok text /\
    (N.of_nat (String.length text) <= MAX_METADATA_BYTES)%N /\
    b64_decode sig = Some bytes /\ sig = b64_encode bytes /\ String.length bytes = 64%nat /\
    issuer_verifying_key issuer = Ok key /\ metadata_digest r domain = Ok digest /\
    verify_strict key digest bytes = true.
Proof.
  unfold verify_metadata, record_scope. split.
  - intros Hv. peel Hv as text Ht. peel Hv as Hc. peel Hv as bytes Hb. peel Hv as He.
    peel Hv as Hl. peel Hv as key Hk. peel Hv as digest Hd. apply reject_if_ok, negb_false_iff in Hv.
    apply negb_false_iff in He, Hl. apply String.eqb_eq in He. apply Nat.eqb_eq in Hl.
    rewrite !orb_false_iff, !negb_false_iff, N.ltb_ge, !bool_decide_eq_true,
      bool_decide_eq_false in Hc.
    destruct Hc as ((((((Hsize & Hf) & Hi) & Ha) & Hcr) & Hst) & Hid).
    split_and!; try done.
    + destruct (value_index "critical" (record_json r)) as [| | | |[]|]; done.
    + intros id Hget. rewrite Hget, negb_false_iff, bool_decide_eq_true in Hid. done.
    + exists text, bytes, key, digest. done.
  - intros ((Hf & Hi & Ha & Hcr & Hid) & Hst & text & bytes & key & digest & Ht & Hsize & Hb & -> & Hl
      & Hk & Hd & Hs).
    rewrite Ht, (proj2 (N.ltb_ge _ _) Hsize), Hf, Hi, Ha, Hcr, !bool_decide_eq_true_2,
      bool_decide_eq_false_2 by done. cbn [orb negb as_array].
    assert (match value_get "issuerKeyId" (record_json r) with
            | Some id => negb (bool_decide (id = JString (key_id issuer)))
            | None => false
            end = false) as ->.
    { destruct (value_get "issuerKeyId" (record_json r)) as [id|]; [|done].
      by rewrite bool_decide_eq_true_2 by by apply Hid. }
    cbn [reject_if]. rewrite Hb. cbn [ok_or]. rewrite String.eqb_refl, Hl, Hk, Hd, Hs. done.
Qed.
End verified.

Section signing.
Context `{Base64UrlLaws, Sha256, Ed25519Laws} `{!CanonicalJson}.
Context {R : Type} `{SignedRecordLaws R}.

Lemma with_signature_members s r k :
  k <> "signature" -> value_get k (record_json (with_signature s r)) = value_get k (record_json r).
Proof.
  intros Hk. destruct (signature_only s r) as (f & f' & -> & -> & Hf). rewrite !get_object.
  symmetry. by apply (map_get_same_but "signature").
Qed.

Lemma metadata_digest_with s r domain :
  metadata_digest (with_signature s r) domain = metadata_digest r domain.
Proof.
  unfold metadata_digest. destruct (signature_only s r) as (f & f' & -> & -> & Hf).
  apply object_same_but in Hf as (m & m' & -> & -> & Hm). cbn.
  by rewrite (map_remove_same_but "signature" m m').
Qed.

Lemma with_signature_scope s (r : R) domain instance account id :
  record_scope (with_signature s r) domain instance account id <->
  record_scope r domain instance account id.
Proof. unfold record_scope, value_index. by rewrite !with_signature_members by done. Qed.

(** A record an issuer signs is one verification accepts: for a catalog snapshot, a
    provider certificate, an issuer rotation or a session revocation of the expected scope
    and of bounded size, under the issuer's key while it is not revoked, and setting the
    signature changes no other member. *)
Theorem signed_record_verifies (r : R) key signed state instance account text :
  sign_record r key = Ok signed ->
  is_weak (verifying_key key) = false -> state <> IssuerRevoked ->
  record_scope r record_domain instance account (key_id_of (verifying_key key)) ->
  canonicalize_json (record_json signed) = Ok text ->
  (N.of_nat (String.length text) <= MAX_METADATA_BYTES)%N ->
  verify_metadata signed record_domain (record_signature signed) (issuer_of key state) instance
    account = Ok tt /\
  forall k, k <> "signature" -> value_get k (record_json signed) = value_get k (record_json r).
Proof.
  unfold sign_record. intros Hs Hweak Hstate Hscope Ht Hsize. peel Hs as digest Hd.
  injection Hs as <-. split; [|intros; by apply with_signature_members].
  apply verify_metadata_ok. split; [by apply with_signature_scope|]. split; [done|].
  exists text, (sign key digest), (verifying_key key), digest.
  rewrite signature_with, b64_decode_encode, sign_length, metadata_digest_with.
  split_and!; try done; [|apply verify_sign].
  apply issuer_verifying_key_ok. split; [by apply parse_verifying_key_encode|done].
Qed.
End signing.

(** ** Authenticated once *)

Section once.
Context `{Base64Url, Sha256, Ed25519} `{!CanonicalJson}.

(** The same key, whose state may have changed. *)
Definition same_key (a b : AuthorityIssuerKey) : Prop :=
  key_id a = key_id b /\ public_key a = public_key b.

Lemma same_key_verifying a b : same_key a b -> issuer_verifying_key a = issuer_verifying_key b.
Proof. unfold issuer_verifying_key. by intros [-> ->]. Qed.

(** Once verified, a record is accepted or not by the scope and the state of its issuer
    alone. *)
Lemma verify_metadata_again {R} `{SignedRecord R} (r : R) domain sig issuer i a issuer' i' a' :
  verify_metadata r domain sig issuer i a = Ok tt -> same_key issuer' issuer ->
  verify_metadata r domain sig issuer' i' a' =
  reject_if (bool_decide (issuer_state issuer' = IssuerRevoked) || negb (String.eqb i' i)
             || negb (String.eqb a' a)) metadata_error.
Proof.
  intros Hv Hkey. pose proof Hv as (Hscope & _ & text & bytes & key & digest & Ht & Hsize & Hb & Hsig
    & Hl & Hk & Hd & Hs)%verify_metadata_ok.
  destruct (bool_decide (issuer_state issuer' = IssuerRevoked)) eqn:Hst; cbn [orb].
  { unfold verify_metadata. rewrite Ht, Hst, !orb_true_r. done. }
  apply bool_decide_eq_false in Hst. destruct Hscope as (Hf & Hi & Ha & Hcr & Hid).
  destruct (String.eqb_spec i' i) as [->|Hne].
  2:{ unfold verify_metadata. rewrite Ht, Hi, (bool_decide_eq_false_2 (JString i = JString i'))
        by congruence. cbn [negb]. by rewrite !orb_true_r. }
  destruct (String.eqb_spec a' a) as [->|Hne].
  2:{ unfold verify_metadata. rewrite Ht, Ha, (bool_decide_eq_false_2 (JString a = JString a'))
        by congruence. cbn [negb]. by rewrite !orb_true_r. }
  apply verify_metadata_ok. split; [|split; [done|]].
  - unfold record_scope. rewrite (proj1 Hkey). done.
  - exists text, bytes, key, digest. rewrite (same_key_verifying _ _ Hkey). done.
Qed.

(** Authenticating a record once is as good as verifying it at every use.  For a
    certificate and a catalog authenticated against an issuer, and the same issuer key
    presented later, in whatever state, with whatever scope and time, the recheck gives
    exactly the result of a full verification, errors included, and so does the decision
    whether an event publication is authorized. *)
Theorem authenticated_once c s issuer i a cert catalog issuer' :
  authenticate_certificate c issuer i a = Ok cert ->
  authenticate_catalog s issuer i a = Ok catalog ->
  same_key issuer' issuer ->
  (forall i' a' now, check_at cert issuer' i' a' now = verify_certificate c issuer' i' a' now) /\
  (forall authority action now,
     authenticated_authorizes_event_publication cert issuer' authority catalog action now =
     authorizes_event_publication c issuer' authority s action now).
Proof.
  intros Hc Hs Hkey. unfold authenticate_certificate in Hc. unfold authenticate_catalog in Hs.
  peel Hc as u Hauth. peel Hc as cd Hcd. injection Hc as <-. skip Hs. peel Hs as sd Hsd.
  injection Hs as <-. pose proof Hauth as Hv. unfold verify_authenticity in Hv. peel Hv as u' Hmeta.
  destruct u'. apply reject_if_ok in Hv.
  assert (forall i' a' now, check_at (authenticated c cd issuer i a) issuer' i' a' now =
    verify_certificate c issuer' i' a' now) as Hcheck.
  { intros i' a' now. unfold check_at, authenticated_check, verify_certificate, verify_authenticity.
    rewrite (verify_metadata_again _ _ _ _ _ _ _ i' a' Hmeta Hkey), Hv. cbn.
    destruct Hkey as [-> ->]. rewrite !String.eqb_refl. cbn [negb orb].
    by destruct (reject_if _ _). }
  split; [done|]. intros authority action now.
  unfold authenticated_authorizes_event_publication, authorizes_event_publication.
  rewrite Hcheck, Hcd, Hsd. done.
Qed.
End once.

(** ** Authorization by membership *)

Section membership.

(** A grant of the authority is the catalog's capability, in identity and meaning. *)
Definition granted (authority : SignedSessionAuthority) (capability : CatalogCapability) : Prop :=
  exists grant, grant ∈ capabilities (unsigned authority) /\
    cap_capability_id grant = catalog_capability_id capability /\
    cap_identity_generation grant = catalog_identity_generation capability /\
    cap_consent_revision grant = catalog_consent_revision capability.

(** The authority's stamp of the catalog's API covers an action and a capability's
    membership of it, both introduced no later than the stamp, and the stamp is no newer
    than the catalog. *)
Definition action_covered (s : SignedCatalogSnapshot) (authority : SignedSessionAuthority)
    (action : CatalogActionIdentity) : Prop :=
  exists api entry capability member,
    api ∈ apis (unsigned authority) /\ entry ∈ snapshot_actions s /\
    capability ∈ snapshot_capabilities s /\ member ∈ memberships capability /\
    authority_api_id api = snapshot_api_id s /\ authority_generation api = snapshot_generation s /\
    action_identity entry = action /\ member_action member = action /\
    granted authority capability /\
    (introduced_revision entry <= authority_accepted_revision api)%N /\
    (member_since_revision member <= authority_accepted_revision api)%N /\
    (authority_accepted_revision api <= snapshot_accepted_revision s)%N.

Lemma find_unique {A B} (key : A -> B) (p : A -> bool) (l : list A) x :
  NoDup (key <$> l) -> (forall y, p y = true <-> key y = key x) -> x ∈ l -> find p l = Some x.
Proof.
  intros Hnd Hp. induction l as [|y l IH]; [by intros ?%not_elem_of_nil|].
  rewrite fmap_cons, NoDup_cons in Hnd. destruct Hnd as [Hy Hnd]. cbn [find]. intros Hin.
  destruct (p y) eqn:Hpy.
  - apply Hp in Hpy. apply elem_of_cons in Hin as [->|Hin]; [done|]. exfalso. apply Hy.
    rewrite Hpy. by apply list_elem_of_fmap_2.
  - apply elem_of_cons in Hin as [->|Hin]; [|by apply IH].
    by rewrite (proj2 (Hp y) eq_refl) in Hpy.
Qed.

Lemma capability_covers authority action api capability :
  existsb
    (fun grant =>
       String.eqb (cap_capability_id grant) (catalog_capability_id capability)
       && (cap_identity_generation grant =? catalog_identity_generation capability)%N
       && (cap_consent_revision grant =? catalog_consent_revision capability)%N)
    (capabilities (unsigned authority))
  && existsb
       (fun member =>
          bool_decide (member_action member = action)
          && (member_since_revision member <=? authority_accepted_revision api)%N)
       (memberships capability) = true <->
  granted authority capability /\
  exists member, member ∈ memberships capability /\ member_action member = action /\
    (member_since_revision member <= authority_accepted_revision api)%N.
Proof.
  unfold granted. rewrite andb_true_iff, !existsb_exists. setoid_rewrite <- list_elem_of_In.
  setoid_rewrite andb_true_iff. setoid_rewrite andb_true_iff.
  setoid_rewrite String.eqb_eq. setoid_rewrite N.eqb_eq. setoid_rewrite N.leb_le.
  setoid_rewrite bool_decide_eq_true. naive_solver.
Qed.

(** What a catalog authorizes.  An action is authorized only for an authority that has
    the catalog's API at its generation, at a revision at or after the one that introduced
    the action and not after the catalog's, and a capability of the same identity and
    consent whose membership of the action is also that old, so an authority gains nothing
    from what was added after it was issued.  For a well-formed authority and a catalog that
    lists each action once, every such action is authorized. *)
Theorem authorizes_covered s authority action :
  (authorizes s authority action = true -> action_covered s authority action) /\
  (authority_wf (unsigned authority) -> NoDup (action_identity <$> snapshot_actions s) ->
   action_covered s authority action -> authorizes s authority action = true).
Proof.
  unfold authorizes, action_covered. split.
  - destruct (find _ (apis _)) as [api|] eqn:Hapi; [|done].
    apply find_some in Hapi as [Hin Hid%String.eqb_eq].
    destruct (_ || _) eqn:Hrev; [done|].
    apply orb_false_iff in Hrev as [Hg%negb_false_iff%N.eqb_eq Hle%N.ltb_ge].
    destruct (find _ (snapshot_actions s)) as [entry|] eqn:He; [|done].
    apply find_some in He as [Hein He%bool_decide_eq_true].
    rewrite andb_true_iff, N.leb_le, existsb_exists.
    intros (Hintro & capability & Hcin & (Hgr & member & Hmin & Hm & Hsince)%capability_covers).
    apply list_elem_of_In in Hin, Hein, Hcin. exists api, entry, capability, member. done.
  - intros Hwf Hnd (api & entry & capability & member & Hin & Hein & Hcin & Hmin & Hid & Hg & He & Hm
      & Hgr & Hintro & Hsince & Hle).
    rewrite (find_unique authority_api_id _ _ api);
      [|apply Hwf|intros; by rewrite String.eqb_eq, Hid|done].
    rewrite Hg, N.eqb_refl, (proj2 (N.ltb_ge _ _) Hle). cbn [negb orb].
    rewrite (find_unique action_identity _ _ entry);
      [|done|intros; by rewrite bool_decide_eq_true, He|done].
    rewrite andb_true_iff, N.leb_le, existsb_exists. split; [done|].
    exists capability. split; [by apply list_elem_of_In|]. apply capability_covers. eauto.
Qed.
End membership.

(** ** Rotations and revocations *)

Section rotation.
Context `{Base64Url, Sha256, Ed25519} `{!CanonicalJson}.

Lemma verify_successor_ok r previous instance account n now next :
  verify_successor r previous instance account n now = Ok next ->
  verify_metadata r ISSUER_ROTATION_FORMAT_V1 (rotation_signature r) previous instance account
    = Ok tt /\
  rotation_previous_key_id r = key_id previous /\ rotation_sequence r = (n + 1)%N /\
  (n + 1 <= u64_max)%N /\ (rotation_activated_at r <= now)%Z /\
  next = mkAuthorityIssuerKey (rotation_next_key_id r) (rotation_next_public_key r) IssuerActive /\
  key_id next <> key_id previous /\ exists key, issuer_verifying_key next = Ok key.
Proof.
  unfold verify_successor. intros Hv. peel Hv as u Hm. destruct u. peel Hv as Hp. peel Hv as m Hc.
  peel Hv as Hs. peel Hv as key Hk. peel Hv as Hne. injection Hv as <-.
  apply negb_false_iff, String.eqb_eq in Hp. apply String.eqb_neq in Hne.
  unfold checked_add_u64 in Hc. destruct (N.leb_spec (n + 1) u64_max); [|done]. injection Hc as <-.
  apply orb_false_iff in Hs as [[Hs%negb_false_iff%N.eqb_eq Ha%Z.ltb_ge]%orb_false_iff _].
  split_and!; try done. by exists key.
Qed.
End rotation.

(** ** Evaluated examples *)

Local Existing Instances rfc4648 rfc4648_laws sample_sha256 sample_ed25519 sample_ed25519_laws.

Definition sample_action : CatalogActionIdentity :=
  mkCatalogActionIdentity SurfaceRpc "files.read" ActionCall.

Definition sample_snapshot_unsigned : SignedCatalogSnapshot := {|
  snapshot_format := CATALOG_SNAPSHOT_FORMAT_V1;
  snapshot_issuer_key_id := sample_issuer_id;
  snapshot_instance_id := sample_id;
  snapshot_nats_account := "ACCOUNT";
  snapshot_api_id := "files@v1";
  snapshot_generation := 1;
  snapshot_accepted_revision := 3;
  snapshot_definition_digest := sample_zeros;
  snapshot_actions := [mkCatalogAction sample_action 2];
  snapshot_capabilities :=
    [mkCatalogCapability "files.read" 1 1 [mkCatalogCapabilityMembership sample_action 2]];
  snapshot_issued_at := 100;
  snapshot_extensions := [];
  snapshot_critical := [];
  snapshot_signature := "";
|}.

Definition sample_certificate_unsigned : SignedProviderCertificate := {|
  cert_format := PROVIDER_CERTIFICATE_FORMAT_V1;
  cert_issuer_key_id := sample_issuer_id;
  cert_instance := sample_id;
  cert_nats_account := "ACCOUNT";
  cert_principal_id := sample_id;
  cert_deployment_id := sample_id;
  cert_instance_id := sample_id;
  cert_session_public_key := sample_session_key;
  cert_api_id := "files@v1";
  cert_generation := 1;
  cert_implementation_digest := sample_zeros;
  cert_implemented_actions := [sample_action];
  cert_issued_at := 100;
  cert_not_before := 90;
  cert_expires_at := 400;
  cert_extensions := [];
  cert_critical := [];
  cert_signature := "";
|}.

(** What is signed of a record. *)
Definition signed_part {R} `{SignedRecord R} (r : R) : Json :=
  match record_json r with JObject m => JObject (map_remove "signature" m) | v => v end.

Definition sample_parts : list Json :=
  [signed_part sample_snapshot_unsigned; signed_part sample_certificate_unsigned].

Definition sample_sign {R} `{SignedRecord R} (parts : list Json) (r : R) : R :=
  let canonical : CanonicalJson := canonical_table parts in
  match sign_record r sample_signer with Ok r' => r' | Err _ => r end.

Definition sample_snapshot : SignedCatalogSnapshot :=
  Eval vm_compute in sample_sign sample_parts sample_snapshot_unsigned.

Definition sample_certificate : SignedProviderCertificate :=
  Eval vm_compute in sample_sign sample_parts sample_certificate_unsigned.

Definition sample_record_texts : list Json :=
  (sample_parts ++ [snapshot_json sample_snapshot; certificate_json sample_certificate])%list.

Section examples.
Let canonical : CanonicalJson := canonical_table sample_record_texts.
Local Existing Instance canonical.

Lemma signed_record_verifies_witness :
  sign_record sample_snapshot_unsigned sample_signer = Ok sample_snapshot /\
  verify_metadata sample_snapshot CATALOG_SNAPSHOT_FORMAT_V1 (snapshot_signature sample_snapshot)
    (issuer_of sample_signer IssuerRetired) sample_id "ACCOUNT" = Ok tt.
Proof.
  assert (sign_record sample_snapshot_unsigned sample_signer = Ok sample_snapshot) as Hs
    by (vm_compute; reflexivity).
  split; [exact Hs|].
  apply (signed_record_verifies sample_snapshot_unsigned sample_signer sample_snapshot IssuerRetired
    sample_id "ACCOUNT" "2" Hs); [reflexivity|discriminate| |vm_compute; reflexivity|vm_compute; discriminate].
  split_and!; try (vm_compute; reflexivity). intros id. vm_compute. congruence.
Defined.

Lemma authenticated_once_witness :
  exists cert catalog,
    authenticate_certificate sample_certificate (issuer_of sample_signer IssuerActive) sample_id
      "ACCOUNT" = Ok cert /\
    authenticate_catalog sample_snapshot (issuer_of sample_signer IssuerActive) sample_id
      "ACCOUNT" = Ok catalog /\
    check_at cert (issuer_of sample_signer IssuerRevoked) sample_id "ACCOUNT" 200 =
    verify_certificate sample_certificate (issuer_of sample_signer IssuerRevoked) sample_id
      "ACCOUNT" 200.
Proof.
  destruct (authenticate_certificate sample_certificate (issuer_of sample_signer IssuerActive)
    sample_id "ACCOUNT") as [cert|e] eqn:Hc; [|vm_compute in Hc; discriminate].
  destruct (authenticate_catalog sample_snapshot (issuer_of sample_signer IssuerActive)
    sample_id "ACCOUNT") as [catalog|e] eqn:Hs; [|vm_compute in Hs; discriminate].
  exists cert, catalog. split; [reflexivity|]. split; [reflexivity|].
  exact (proj1 (authenticated_once _ _ _ _ _ _ _ (issuer_of sample_signer IssuerRevoked) Hc Hs
    (conj eq_refl eq_refl)) _ _ _).
Defined.

(** The sample authority may call the sample action. *)
Example sample_authorized : authorizes sample_snapshot sample_signed sample_action = true.
Proof. vm_compute. reflexivity. Qed.
End examples.
