(* ===== verification/SessionResponse.v ===== *)
(** * Provider responses

    [crates/protocol/src/response.rs]: a provider's signed answer and its verification
    against the retained opening request and the provider's certificate. *)

From Stdlib Require Import Ascii String.
From S2P Require Import Prelude RustStr Extern Json Transcript Base64 Protocol Wire.
From S2P Require Import Authorization Identifiers Permissions SessionAuthority.
From S2P Require Import SessionMessages Catalog.

Local Open Scope string_scope.

Local Existing Instance json_tree.

Definition MESSAGE_RESPONSE_DOMAIN_V1 : string := "trellis.message.response.v1".

Inductive SessionResponseKind := ResponseSuccess | ResponseError.

Record SessionResponse := mkSessionResponse {
  response_instance_id : string;
  response_nats_account : string;
  response_authority_digest : string;
  response_certificate_digest : string;
  response_api_id : string;
  response_api_generation : N;
  response_action : string;
  response_request_authority_digest : string;
  response_request_id : string;
  response_request_proof_digest : string;
  response_subject : string;
  response_kind : SessionResponseKind;
  response_issued_at : Z;
}.

Definition response_kind_text (kind : SessionResponseKind) : string :=
  match kind with ResponseSuccess => "success" | ResponseError => "error" end.

Section responses.
Context `{Base64Url, Sha256, Ed25519, UlidParser}.

Definition response_signing_digest_sha256 (response : SessionResponse) (payload_sha256 : string) :
    result string ProtocolError :=
  let? _ := validate_text (response_instance_id response) ["trellisInstanceId"] in
  let? _ := validate_text (response_nats_account response) ["audienceNatsAccount"] in
  let? _ := validate_api_id (response_api_id response) in
  let? _ := validate_text (response_action response) ["action"] in
  let? _ := validate_subject (response_subject response) in
  let? _ := validate_id (response_request_id response) "requestId" in
  let? _ := reject_if
              ((response_api_generation response =? 0)%N || (response_issued_at response <? 0)%Z)
              (authorization_error AuthInvalidFormat [] "invalid response generation/time") in
  let? provider := decode_base64url 32 (response_authority_digest response) in
  let? certificate := decode_base64url 32 (response_certificate_digest response) in
  let? caller := decode_base64url 32 (response_request_authority_digest response) in
  let? request := decode_base64url 32 (response_request_proof_digest response) in
  component_digest
    [MESSAGE_RESPONSE_DOMAIN_V1;
     response_instance_id response;
     response_nats_account response;
     provider;
     certificate;
     response_api_id response;
     be_bytes_u64 (response_api_generation response);
     response_action response;
     caller;
     response_request_id response;
     request;
     response_subject response;
     response_kind_text (response_kind response);
     payload_sha256;
     be_bytes_i64 (response_issued_at response)].

Definition session_response_signing_digest (response : SessionResponse) (raw_payload : string) :
    result string ProtocolError :=
  response_signing_digest_sha256 response (sha256 raw_payload).

Definition sign_session_response (response : SessionResponse) (raw_payload : string)
    (key : SigningKey) : result SessionProof ProtocolError :=
  let? digest := session_response_signing_digest response raw_payload in
  Ok (mkSessionProof (b64_encode (sign key digest))).

Record SessionResponseVerificationInput := mkResponseInput {
  resp_provider : VerifiedSessionAuthority;
  resp_certificate : Authenticated SignedProviderCertificate;
  resp_certificate_issuer : AuthorityIssuerKey;
  pending_request : SessionRequest;
  pending_request_digest : string;
  resp_action : CatalogActionIdentity;
  expected_deployment_id : option string;
  received_subject : string;
  resp_response : SessionResponse;
  resp_payload_sha256 : string;
  resp_proof : SessionProof;
  resp_policy : SessionAuthorityVerificationPolicy;
  resp_known_revoked : bool;
}.

(** The provider named by the certificate is the responder and is certified for the
    requested action. *)
Definition provider_certified (input : SessionResponseVerificationInput) : bool :=
  let provider := verified_authority (resp_provider input) in
  let certificate := auth_record (resp_certificate input) in
  let request := pending_request input in
  binding_certified (binding provider) certificate
  && String.eqb (cert_principal_id certificate) (principal_id provider)
  && String.eqb (cert_session_public_key certificate) (session_public_key provider)
  && String.eqb (cert_api_id certificate) (request_api_id request)
  && (cert_generation certificate =? request_api_generation request)%N
  && bool_decide (resp_action input ∈ cert_implemented_actions certificate)
  && String.eqb (identity_name (resp_action input)) (request_action request)
  && match expected_deployment_id input with
     | Some id => String.eqb id (cert_deployment_id certificate)
     | None => true
     end
  && existsb
       (fun b =>
          String.eqb (provider_api_id b) (cert_api_id certificate)
          && (provider_generation b =? cert_generation certificate)%N
          && String.eqb (provider_deployment_id b) (cert_deployment_id certificate)
          && String.eqb (provider_implementation_digest b) (cert_implementation_digest certificate)
          && String.eqb (provider_certificate_digest b) (auth_digest (resp_certificate input)))
       (provider_bindings provider).

(** The response is the one to the retained request, from the provider, on the subject it
    was asked for. *)
Definition response_matches (input : SessionResponseVerificationInput) : bool :=
  let provider := verified_authority (resp_provider input) in
  let request := pending_request input in
  let response := resp_response input in
  String.eqb (response_instance_id response) (trellis_instance_id provider)
  && String.eqb (response_nats_account response) (audience_nats_account provider)
  && String.eqb (response_authority_digest response) (verified_digest (resp_provider input))
  && String.eqb (response_certificate_digest response) (auth_digest (resp_certificate input))
  && String.eqb (response_api_id response) (request_api_id request)
  && (response_api_generation response =? request_api_generation request)%N
  && String.eqb (response_action response) (request_action request)
  && String.eqb (response_request_authority_digest response) (request_authority_digest request)
  && String.eqb (response_request_id response) (request_id request)
  && String.eqb (response_request_proof_digest response)
       (b64_encode (pending_request_digest input))
  && bool_decide (request_reply_subject request = Some (received_subject input))
  && String.eqb (response_subject response) (received_subject input).

Definition verify_session_response (input : SessionResponseVerificationInput) :
    result (VerifiedSessionAuthority * SessionResponse) ProtocolError :=
  let provider := verified_authority (resp_provider input) in
  let policy := resp_policy input in
  let response := resp_response input in
  let? _ := assert_current (resp_provider input) policy (resp_known_revoked input) in
  let? _ := check_at (resp_certificate input) (resp_certificate_issuer input)
              (trellis_instance_id provider) (audience_nats_account provider)
              (now_unix_seconds policy) in
  let? _ := reject_if (negb (provider_certified input))
              (authorization_error AuthPermissionDenied []
                 "response provider is not certified for the requested action") in
  let? _ := reject_if (negb (response_matches input))
              (authorization_error AuthInvalidResponseProof []
                 "response does not match the retained opening request") in
  let? _ := reject_if
              ((response_issued_at response <? not_before provider)%Z
               || (expires_at provider <=? response_issued_at response)%Z
               || skew_exceeded (response_issued_at response) (now_unix_seconds policy)
                    (allowed_clock_skew_seconds policy))
              (authorization_error AuthProofIatOutOfRange []
                 "response issue time is outside provider authority") in
  let? digest := response_signing_digest_sha256 response (resp_payload_sha256 input) in
  let? bytes := decode_base64url 32 (session_public_key provider) in
  let? key := ok_or (verifying_key_from_bytes bytes)
                (authorization_error AuthInvalidPublicKey [] "invalid provider session key") in
  let? signature := decode_base64url 64 (session_proof (resp_proof input)) in
  let? _ := reject_if (negb (verify_strict key digest signature))
              (authorization_error AuthInvalidResponseProof []
                 "invalid provider response signature") in
  Ok (resp_provider input, response).
End responses.

(** ** What a transcript binds *)

Definition response_typed (r : SessionResponse) : Prop :=
  (response_api_generation r <= u64_max)%N /\ (response_issued_at r < 2 ^ 63)%Z.

Section transcripts.
Context `{Base64Url, Sha256, UlidParser}.

Lemma response_digest_components r hash digest :
  response_signing_digest_sha256 r hash = Ok digest ->
  (0 <= response_issued_at r)%Z /\
  exists provider certificate caller request,
    response_authority_digest r = b64_encode provider /\
    response_certificate_digest r = b64_encode certificate /\
    response_request_authority_digest r = b64_encode caller /\
    response_request_proof_digest r = b64_encode request /\
    component_digest
      [MESSAGE_RESPONSE_DOMAIN_V1; response_instance_id r; response_nats_account r; provider;
       certificate; response_api_id r; be_bytes_u64 (response_api_generation r); response_action r;
       caller; response_request_id r; request; response_subject r;
       response_kind_text (response_kind r); hash; be_bytes_i64 (response_issued_at r)]
      = Ok digest.
Proof.
  unfold response_signing_digest_sha256. intros Hd. do 6 skip Hd. peel Hd as Hc.
  peel Hd as p Hp. peel Hd as c Hcert. peel Hd as a Ha. peel Hd as q Hq.
  apply orb_false_iff in Hc as [_ Ht%Z.ltb_ge].
  apply decode_base64url_bytes in Hp as [Hp _], Hcert as [Hcert _], Ha as [Ha _], Hq as [Hq _].
  split; [done|]. exists p, c, a, q. done.
Qed.

Lemma response_digest_binds r hash r' hash' digest :
  response_typed r -> response_typed r' ->
  response_signing_digest_sha256 r hash = Ok digest ->
  response_signing_digest_sha256 r' hash' = Ok digest ->
  (r = r' /\ hash = hash') \/ sha256_collision.
Proof.
  intros [Hg Ht] [Hg' Ht']
    (Hi & p & c & a & q & Hp & Hc & Ha & Hq & Hd)%response_digest_components
    (Hi' & p' & c' & a' & q' & Hp' & Hc' & Ha' & Hq' & Hd')%response_digest_components.
  destruct (transcript_digest_binds _ _ _ _ _ Hd Hd') as [Heq|]; [|by right]. left.
  components Heq. split; [|done].
  destruct r as [? ? ? ? ? ? ? ? ? ? ? k ?], r' as [? ? ? ? ? ? ? ? ? ? ? k' ?].
  simpl in *. subst. f_equal. by destruct k, k'.
Qed.

Lemma response_separate r hash digest :
  response_signing_digest_sha256 r hash = Ok digest ->
  (forall q hash', request_signing_digest_sha256 q hash' = Ok digest -> sha256_collision) /\
  (forall e hash', event_signing_digest_sha256 e hash' = Ok digest -> sha256_collision).
Proof.
  intros (_ & p & c & a & q & _ & _ & _ & _ & Hd)%response_digest_components. split.
  - intros q' hash' (_ & _ & a' & _ & Hd')%request_digest_components.
    by destruct (transcript_digest_binds _ _ _ _ _ Hd Hd').
  - intros e hash' (a' & _ & Hd')%event_digest_components.
    by destruct (transcript_digest_binds _ _ _ _ _ Hd Hd').
Qed.

(** One digest of two payloads is one payload, or a collision. *)
Lemma payload_binds {A} (x y : A) payload payload' :
  (x = y /\ sha256 payload = sha256 payload') \/ sha256_collision ->
  (x = y /\ payload = payload') \/ sha256_collision.
Proof.
  intros [[-> Hh]|]; [|by right]. destruct (sha256_binds _ _ Hh); [by left|by right].
Qed.

(** What a session key signs.  Two requests, two events or two responses with one
    signing digest are the same in every field, an absent reply and a success or error
    included, and have the same payload, and the digest of a message of one kind is never
    that of another kind, unless SHA-256 collides. *)
Theorem message_digests_bind :
  (forall r payload r' payload' digest, request_typed r -> request_typed r' ->
     session_request_signing_digest r payload = Ok digest ->
     session_request_signing_digest r' payload' = Ok digest ->
     (r = r' /\ payload = payload') \/ sha256_collision) /\
  (forall e payload e' payload' digest, event_typed e -> event_typed e' ->
     session_event_signing_digest e payload = Ok digest ->
     session_event_signing_digest e' payload' = Ok digest ->
     (e = e' /\ payload = payload') \/ sha256_collision) /\
  (forall r payload r' payload' digest, response_typed r -> response_typed r' ->
     session_response_signing_digest r payload = Ok digest ->
     session_response_signing_digest r' payload' = Ok digest ->
     (r = r' /\ payload = payload') \/ sha256_collision) /\
  (forall q payload e payload' r payload'' digest,
     (session_request_signing_digest q payload = Ok digest /\
      session_event_signing_digest e payload' = Ok digest) \/
     (session_request_signing_digest q payload = Ok digest /\
      session_response_signing_digest r payload'' = Ok digest) \/
     (session_event_signing_digest e payload' = Ok digest /\
      session_response_signing_digest r payload'' = Ok digest) -> sha256_collision).
Proof.
  unfold session_request_signing_digest, session_event_signing_digest,
    session_response_signing_digest.
  split_and!; intros.
  - by eapply payload_binds, request_digest_binds.
  - by eapply payload_binds, event_digest_binds.
  - by eapply payload_binds, response_digest_binds.
  - match goal with H : _ \/ _ |- _ =>
      destruct H as [[Hq He]|[[Hq [Hs _]%response_separate]|[He [_ Hs]%response_separate]]] end.
    + by eapply request_event_separate.
    + by eapply Hs.
    + by eapply Hs.
Qed.
End transcripts.

(** ** What verification establishes *)

Section acceptance.
Context `{Base64Url, Sha256, Ed25519, UlidParser}.

(** The response's time is in the provider's window and near the verifier's clock. *)
Definition response_timely (input : SessionResponseVerificationInput) : Prop :=
  let provider := verified_authority (resp_provider input) in
  let issued := response_issued_at (resp_response input) in
  (not_before provider <= issued < expires_at provider)%Z /\
  (Z.abs (issued - now_unix_seconds (resp_policy input))
   <= Z.of_N (allowed_clock_skew_seconds (resp_policy input)))%Z.

Lemma verify_session_response_ok input v :
  verify_session_response input = Ok v <->
  assert_current (resp_provider input) (resp_policy input) (resp_known_revoked input) = Ok tt /\
  check_at (resp_certificate input) (resp_certificate_issuer input)
    (trellis_instance_id (verified_authority (resp_provider input)))
    (audience_nats_account (verified_authority (resp_provider input)))
    (now_unix_seconds (resp_policy input)) = Ok tt /\
  provider_certified input = true /\ response_matches input = true /\ response_timely input /\
  (exists digest bytes key sig,
     response_signing_digest_sha256 (resp_response input) (resp_payload_sha256 input) = Ok digest /\
     decode_base64url 32 (session_public_key (verified_authority (resp_provider input))) = Ok bytes /\
     verifying_key_from_bytes bytes = Some key /\
     decode_base64url 64 (session_proof (resp_proof input)) = Ok sig /\
     verify_strict key digest sig = true) /\
  v = (resp_provider input, resp_response input).
Proof.
  unfold verify_session_response, response_timely, skew_exceeded. split.
  - intros Hv. peel Hv as u Hcur. destruct u. peel Hv as u Hchk. destruct u. peel Hv as Hcert.
    peel Hv as Hm. peel Hv as Ht. peel Hv as digest Hd. peel Hv as bytes Hb. peel Hv as key Hk.
    peel Hv as sig Hs. peel Hv as Hver. injection Hv as <-.
    apply negb_false_iff in Hcert, Hm, Hver.
    apply orb_false_iff in Ht as [[?%Z.ltb_ge ?%Z.leb_gt]%orb_false_iff ?%N.ltb_ge].
    split_and!; try done; [lia|]. exists digest, bytes, key, sig. done.
  - intros (Hcur & Hchk & Hcert & Hm & [[Hb1 Hb2] Hskew] & (digest & bytes & key & sig & Hd & Hb & Hk
      & Hs & Hver) & ->).
    rewrite Hcur, Hchk, Hcert, Hm. cbn [negb reject_if].
    rewrite (proj2 (Z.ltb_ge _ _) Hb1), (proj2 (Z.leb_gt _ _) Hb2), (proj2 (N.ltb_ge _ _)) by lia.
    cbn [orb reject_if]. rewrite Hd, Hb, Hk. cbn [ok_or]. rewrite Hs, Hver. done.
Qed.

Lemma provider_certified_ok input :
  provider_certified input = true ->
  let provider := verified_authority (resp_provider input) in
  let certificate := auth_record (resp_certificate input) in
  bound_deployment (binding provider) = Some (cert_deployment_id certificate) /\
  cert_principal_id certificate = principal_id provider /\
  cert_session_public_key certificate = session_public_key provider /\
  cert_api_id certificate = request_api_id (pending_request input) /\
  cert_generation certificate = request_api_generation (pending_request input) /\
  resp_action input ∈ cert_implemented_actions certificate /\
  identity_name (resp_action input) = request_action (pending_request input) /\
  (forall id, expected_deployment_id input = Some id -> id = cert_deployment_id certificate) /\
  exists b, b ∈ provider_bindings provider /\ provider_api_id b = cert_api_id certificate /\
    provider_certificate_digest b = auth_digest (resp_certificate input).
Proof.
  unfold provider_certified. rewrite !andb_true_iff, !String.eqb_eq, N.eqb_eq, bool_decide_eq_true.
  intros ((((((((Hb & Hp) & Hs) & Ha) & Hg) & Hi) & Hn) & He) & Hx). cbn zeta.
  apply existsb_exists in Hx as (b & Hin & Hx). rewrite !andb_true_iff, !String.eqb_eq in Hx.
  split_and!; try done.
  - unfold binding_certified in Hb. destruct (binding _); try done;
      apply andb_true_iff in Hb as [->%String.eqb_eq _]; done.
  - intros id Hid. rewrite Hid in He. by apply String.eqb_eq.
  - exists b. split; [by apply list_elem_of_In|]. naive_solver.
Qed.

Lemma response_matches_ok input :
  response_matches input = true <->
  let provider := verified_authority (resp_provider input) in
  let request := pending_request input in
  let response := resp_response input in
  response_instance_id response = trellis_instance_id provider /\
  response_nats_account response = audience_nats_account provider /\
  response_authority_digest response = verified_digest (resp_provider input) /\
  response_certificate_digest response = auth_digest (resp_certificate input) /\
  response_api_id response = request_api_id request /\
  response_api_generation response = request_api_generation request /\
  response_action response = request_action request /\
  response_request_authority_digest response = request_authority_digest request /\
  response_request_id response = request_id request /\
  response_request_proof_digest response = b64_encode (pending_request_digest input) /\
  request_reply_subject request = Some (received_subject input) /\
  response_subject response = received_subject input.
Proof.
  unfold response_matches. rewrite !andb_true_iff, !String.eqb_eq, N.eqb_eq, bool_decide_eq_true.
  cbn zeta. naive_solver.
Qed.

(** An accepted response is the certified provider's answer to the retained request.
    The provider's authority is live, current and not revoked; its certificate is current,
    under an issuer that is not revoked, and names this very principal, session key and
    deployment, which is the expected one if one was, the requested API at its generation
    and the requested action; the authority itself binds that certificate.  The response
    names the retained request by its identifier, authority and signed digest and arrived
    on its reply subject, its time is in the provider's window, and the provider's session
    key signed exactly this response and payload. *)
Theorem accepted_response input v :
  verify_session_response input = Ok v ->
  let provider := verified_authority (resp_provider input) in
  let certificate := auth_record (resp_certificate input) in
  let request := pending_request input in
  let response := resp_response input in
  v = (resp_provider input, response) /\
  assert_current (resp_provider input) (resp_policy input) (resp_known_revoked input) = Ok tt /\
  (cert_not_before certificate <= now_unix_seconds (resp_policy input)
   < cert_expires_at certificate)%Z /\
  issuer_state (resp_certificate_issuer input) <> IssuerRevoked /\
  key_id (resp_certificate_issuer input) = auth_issuer_key_id (resp_certificate input) /\
  cert_principal_id certificate = principal_id provider /\
  cert_session_public_key certificate = session_public_key provider /\
  bound_deployment (binding provider) = Some (cert_deployment_id certificate) /\
  (forall id, expected_deployment_id input = Some id -> id = cert_deployment_id certificate) /\
  cert_api_id certificate = request_api_id request /\
  cert_generation certificate = request_api_generation request /\
  (exists action, action ∈ cert_implemented_actions certificate /\
     identity_name action = request_action request) /\
  (exists b, b ∈ provider_bindings provider /\ provider_api_id b = cert_api_id certificate /\
     provider_certificate_digest b = auth_digest (resp_certificate input)) /\
  response_request_id response = request_id request /\
  response_request_authority_digest response = request_authority_digest request /\
  response_request_proof_digest response = b64_encode (pending_request_digest input) /\
  request_reply_subject request = Some (received_subject input) /\
  (not_before provider <= response_issued_at response < expires_at provider)%Z /\
  (exists digest bytes key sig,
     response_signing_digest_sha256 response (resp_payload_sha256 input) = Ok digest /\
     session_public_key provider = b64_encode bytes /\ verifying_key_from_bytes bytes = Some key /\
     session_proof (resp_proof input) = b64_encode sig /\ verify_strict key digest sig = true).
Proof.
  intros (Hcur & Hchk & Hcert & Hm & [Hwin _] & (digest & bytes & key & sig & Hd & Hb & Hk & Hs & Hver)
    & ->)%verify_session_response_ok. cbn zeta.
  apply provider_certified_ok in Hcert as (Hdep & Hp & Hses & Ha & Hg & Hi & Hn & He & Hx).
  apply response_matches_ok in Hm as (_ & _ & _ & _ & _ & _ & _ & Hq & Hid & Hpd & Hr & _).
  unfold check_at, authenticated_check, certificate_window in Hchk. peel Hchk as Hc.
  apply reject_if_ok, orb_false_iff in Hchk as [?%Z.ltb_ge ?%Z.leb_gt].
  rewrite !orb_false_iff, bool_decide_eq_false, !negb_false_iff, !String.eqb_eq in Hc.
  destruct Hc as ((((Hkid & _) & Hst) & _) & _).
  apply decode_base64url_bytes in Hb as [Hb _], Hs as [Hs _].
  split; [done|]. do 17 (split; [by eauto|]). exists digest, bytes, key, sig. done.
Qed.

(** A provider's signed response is accepted precisely when it should be: signed with
    the provider's session key, it is accepted for its payload exactly when the provider is
    current, its certificate current and for the requested action, and the response the one
    to the retained request and timely. *)
Theorem signed_response_accepted `{!Base64UrlLaws, !Ed25519Laws} input key payload :
  sign_session_response (resp_response input) payload key = Ok (resp_proof input) ->
  resp_payload_sha256 input = sha256 payload ->
  session_public_key (verified_authority (resp_provider input))
    = b64_encode (verifying_key_to_bytes (verifying_key key)) ->
  verify_session_response input = Ok (resp_provider input, resp_response input) <->
  assert_current (resp_provider input) (resp_policy input) (resp_known_revoked input) = Ok tt /\
  check_at (resp_certificate input) (resp_certificate_issuer input)
    (trellis_instance_id (verified_authority (resp_provider input)))
    (audience_nats_account (verified_authority (resp_provider input)))
    (now_unix_seconds (resp_policy input)) = Ok tt /\
  provider_certified input = true /\ response_matches input = true /\ response_timely input.
Proof.
  unfold sign_session_response. intros Hs Hpay Hkey. peel Hs as digest Hd. apply ok_inj in Hs.
  rewrite verify_session_response_ok, <- Hs, Hpay, Hkey. cbn [session_proof].
  rewrite !decode_base64url_encode by (apply sign_length || apply verifying_key_length).
  split; [by intros (? & ? & ? & ? & ? & _)|]. intros (? & ? & ? & ? & ?). split_and!; try done.
  exists digest, (verifying_key_to_bytes (verifying_key key)), (verifying_key key), (sign key digest).
  split_and!; [done|done|apply verifying_key_bytes|done|apply verify_sign].
Qed.
End acceptance.

(** ** Evaluated examples *)

Local Existing Instances rfc4648 rfc4648_laws sample_sha256 sample_ed25519 sample_ed25519_laws
  sample_ulid sample_url.

Definition sample_request_digest : string :=
  Eval vm_compute in
    match session_request_signing_digest sample_request "data" with Ok d => d | Err _ => "" end.

Definition sample_response : SessionResponse := {|
  response_instance_id := sample_id;
  response_nats_account := "ACCOUNT";
  response_authority_digest := sample_zeros;
  response_certificate_digest := sample_zeros;
  response_api_id := "files@v1";
  response_api_generation := 1;
  response_action := "files.read";
  response_request_authority_digest := sample_zeros;
  response_request_id := sample_id;
  response_request_proof_digest := b64_encode sample_request_digest;
  response_subject := "_INBOX.worker.1";
  response_kind := ResponseSuccess;
  response_issued_at := 210;
|}.

Definition sample_response_proof : SessionProof :=
  Eval vm_compute in
    match sign_session_response sample_response "result" sample_signer with
    | Ok proof => proof
    | Err _ => mkSessionProof ""
    end.

Definition sample_response_input : SessionResponseVerificationInput := {|
  resp_provider := sample_verified;
  resp_certificate := authenticated sample_certificate sample_zeros
                        (issuer_of sample_signer IssuerActive) sample_id "ACCOUNT";
  resp_certificate_issuer := issuer_of sample_signer IssuerActive;
  pending_request := sample_request;
  pending_request_digest := sample_request_digest;
  resp_action := sample_action;
  expected_deployment_id := Some sample_id;
  received_subject := "_INBOX.worker.1";
  resp_response := sample_response;
  resp_payload_sha256 := sha256 "result";
  resp_proof := sample_response_proof;
  resp_policy := sample_policy;
  resp_known_revoked := false;
|}.

Lemma accepted_response_witness :
  exists v, verify_session_response sample_response_input = Ok v /\
    response_request_id sample_response = request_id sample_request.
Proof.
  destruct (verify_session_response sample_response_input) as [v|e] eqn:Hv;
    [|vm_compute in Hv; discriminate].
  exists v. split; [reflexivity|].
  pose proof (accepted_response _ _ Hv)
    as (_ & _ & _ & _ & _ & _ & _ & _ & _ & _ & _ & _ & _ & Hid & _).
  exact Hid.
Defined.

Lemma signed_response_accepted_witness :
  verify_session_response sample_response_input = Ok (sample_verified, sample_response).
Proof.
  assert (sign_session_response sample_response "result" sample_signer = Ok sample_response_proof)
    as Hs by (vm_compute; reflexivity).
  apply (signed_response_accepted sample_response_input sample_signer "result" Hs);
    [reflexivity|vm_compute; reflexivity|].
  split_and!; try (vm_compute; reflexivity); vm_compute; split_and?; congruence.
Defined.
