(* ===== verification/VerificationCore.v ===== *)
(** * Proof and capability verification

    [crates/trellis/src/client/authorization/core.rs]: what every transport adapter applies
    to a received message once its material is at hand.  It authenticates the exact bytes
    and checks that the catalog grants the registered action. *)

From Stdlib Require Import Ascii String.
From S2P Require Import Prelude RustStr Extern Json Transcript Base64 Protocol Wire.
From S2P Require Import Authorization Permissions SessionAuthority SessionMessages Catalog.

Local Open Scope string_scope.

Local Existing Instance json_tree.

Inductive AuthorizationVerificationError :=
| VerificationProtocol (error : ProtocolError)
| PermissionDenied.

(** [?] on a protocol result, by the [From] of the error. *)
Definition checked {T} (r : result T ProtocolError) : result T AuthorizationVerificationError :=
  map_err VerificationProtocol r.

Section core.
Context `{Base64Url, Sha256, Ed25519, UlidParser, Rfc3339}.
Context `{!FromValue CallerUser}.

Record VerifiedAuthorizationRequest := mkVerifiedAuthorizationRequest {
  opening_authority : VerifiedSessionAuthority;
  opening_caller : AuthenticatedCaller;
  opening_request : SessionRequest;
  opening_digest : string;
  opening_action : option CatalogActionIdentity;
  handler_authorized : bool;
}.

#[global] Instance opening_settable : Settable VerifiedAuthorizationRequest := fun v =>
  {| opening_authority := opening_authority v; opening_caller := opening_caller v;
     opening_request := opening_request v; opening_digest := opening_digest v;
     opening_action := opening_action v; handler_authorized := handler_authorized v |}.

Record VerifiedAuthorizationEvent := mkVerifiedAuthorizationEvent {
  publisher_authority : VerifiedSessionAuthority;
  published_event : SessionEvent;
  original_publication : option OriginalEventPublication;
}.

(** [VerifiedAuthorizationRequest::authorize_handler] *)
Definition authorize_handler (v : VerifiedAuthorizationRequest) (action : CatalogActionIdentity) :
    result VerifiedAuthorizationRequest AuthorizationVerificationError :=
  if negb (String.eqb (request_action (opening_request v)) (identity_name action))
     || match opening_action v with
        | Some current => negb (bool_decide (current = action))
        | None => false
        end
  then Err PermissionDenied
  else Ok (v <| opening_action := Some action |> <| handler_authorized := true |>).

Definition verify_possession (authority : VerifiedSessionAuthority) (request : SessionRequest)
    (payload : string) (proof : SessionProof) (policy : SessionAuthorityVerificationPolicy)
    (known_revoked : bool) : result VerifiedAuthorizationRequest AuthorizationVerificationError :=
  let? verified := checked (verify_session_request authority request (sha256 payload) proof policy
                              known_revoked) in
  Ok {| opening_authority := authority;
        opening_caller := caller verified;
        opening_request := request;
        opening_digest := verified_request_digest verified;
        opening_action := None;
        handler_authorized := false |}.

(** [AuthorizationVerificationCore::verify_request] *)
Definition core_verify_request (authority : VerifiedSessionAuthority) (request : SessionRequest)
    (payload : string) (proof : SessionProof) (policy : SessionAuthorityVerificationPolicy)
    (known_revoked : bool) (catalog : Authenticated SignedCatalogSnapshot)
    (catalog_issuer : AuthorityIssuerKey) (action : CatalogActionIdentity) :
    result VerifiedAuthorizationRequest AuthorizationVerificationError :=
  let? verified := verify_possession authority request payload proof policy known_revoked in
  let body := verified_authority authority in
  let? _ := checked (authenticated_check catalog catalog_issuer (trellis_instance_id body)
                       (audience_nats_account body)) in
  let? _ := reject_if
              (negb (String.eqb (request_api_id request) (snapshot_api_id (auth_record catalog)))
               || negb (String.eqb (request_action request) (identity_name action))
               || negb (authorizes (auth_record catalog) (verified_signed authority) action))
              PermissionDenied in
  Ok (verified <| opening_action := Some action |>).

(** The publication right a provider's certificate gives: at the event's time and, for a
    retained event, at the time the broker stored it. *)
Definition provider_publication (certificate : Authenticated SignedProviderCertificate)
    (issuer : AuthorityIssuerKey) (authority : VerifiedSessionAuthority) (event : SessionEvent)
    (publication : option OriginalEventPublication)
    (catalog : Authenticated SignedCatalogSnapshot) (action : CatalogActionIdentity) :
    result bool AuthorizationVerificationError :=
  let at_time (text : string) :=
    let? nanos := ok_or (rfc3339_nanos text) PermissionDenied in
    checked (authenticated_authorizes_event_publication certificate issuer
               (verified_signed authority) catalog action (nanos / NANOS)%Z) in
  let? authorized := at_time (event_time event) in
  match publication with
  | Some publication =>
      let? published := at_time (published_at publication) in
      Ok (authorized && published)
  | None => Ok authorized
  end.

(** [AuthorizationVerificationCore::verify_event] *)
Definition core_verify_event (authority : VerifiedSessionAuthority) (event : SessionEvent)
    (payload : string) (proof : SessionProof) (policy : SessionAuthorityVerificationPolicy)
    (known_revoked : bool) (catalog : Authenticated SignedCatalogSnapshot)
    (catalog_issuer : AuthorityIssuerKey) (action : CatalogActionIdentity)
    (publication : option OriginalEventPublication)
    (provider : option (Authenticated SignedProviderCertificate * AuthorityIssuerKey)) :
    result VerifiedAuthorizationEvent AuthorizationVerificationError :=
  let? _ := checked (verify_session_event authority event (sha256 payload) proof policy publication
                       known_revoked) in
  let body := verified_authority authority in
  let? _ := checked (authenticated_check catalog catalog_issuer (trellis_instance_id body)
                       (audience_nats_account body)) in
  let? authorized :=
    if authorizes (auth_record catalog) (verified_signed authority) action then Ok true
    else
      match provider with
      | Some (certificate, issuer) =>
          provider_publication certificate issuer authority event publication catalog action
      | None => Ok false
      end in
  let? _ := reject_if
              (negb (String.eqb (event_api_id event) (snapshot_api_id (auth_record catalog)))
               || negb (String.eqb (event_action event) (identity_name action))
               || negb (is_event_publication action)
               || negb authorized)
              PermissionDenied in
  Ok {| publisher_authority := authority;
        published_event := event;
        original_publication := publication |}.
End core.
