(* ===== verification/IssuerMetadata.v ===== *)
(** * Issuer metadata exchanges

    [crates/protocol/src/issuer_metadata.rs]: the issuer-signed answers to queries for
    public verification material, bound to one request and reply. *)

From Stdlib Require Import Ascii String.
From S2P Require Import Prelude RustStr Extern Json Transcript Base64 Protocol Wire.
From S2P Require Import Authorization Identifiers SessionAuthority.

Local Open Scope string_scope.

Local Existing Instance json_tree.

Definition ISSUER_METADATA_DOMAIN_V1 : string := "trellis.issuer.metadata.v1".
Definition MAX_ADMISSION_RESPONSE_BYTES : N := 2097152.

Inductive IssuerMetadataQuery :=
| QueryIssuerKey (key_id : string)
| QueryAuthorityResolve (context_digest : string)
| QueryAuthorityStatus (authorization_session_id : string)
| QueryIssuerChain (pinned_key_id target_key_id : string).

Record IssuerMetadataRequest := mkIssuerMetadataRequest {
  metadata_instance_id : string;
  metadata_nats_account : string;
  metadata_nonce : string;
  metadata_query : IssuerMetadataQuery;
}.

Inductive IssuerMetadataResult :=
| ResultValue (payload : string)
| ResultMissing
| ResultUnavailable.

Record IssuerMetadata := mkIssuerMetadata {
  metadata_format : string;
  metadata_issuer_key_id : string;
  metadata_request : IssuerMetadataRequest;
  metadata_request_subject : string;
  metadata_reply_subject : string;
  metadata_result : IssuerMetadataResult;
  metadata_issued_at : Z;
  metadata_expires_at : Z;
}.

Record SignedIssuerMetadata := mkSignedIssuerMetadata {
  metadata_response : IssuerMetadata;
  metadata_signature : string;
}.

Record AuthorityMaterial := mkAuthorityMaterial {
  material_authority : string;
  material_catalogs : list string;
  material_providers : list string;
}.

Inductive AuthorizationSessionState := SessionActive | SessionSuperseded | SessionRevoked.

Record AuthorizationSessionStatus := mkAuthorizationSessionStatus {
  status_session_id : string;
  status_state : AuthorizationSessionState;
  status_revocation : option string;
}.

Record IssuerChain := mkIssuerChain { chain_rotations : list string }.

Inductive IssuerMetadataValue :=
| ValueIssuerKey (key : AuthorityIssuerKey)
| ValueAuthority (material : AuthorityMaterial)
| ValueStatus (status : AuthorizationSessionStatus)
| ValueChain (chain : IssuerChain).

Record VerifiedIssuerMetadata := mkVerifiedIssuerMetadata {
  verified_metadata : SignedIssuerMetadata;
  verified_value : option IssuerMetadataValue;
}.

Global Instance AuthorityIssuerKey_eq_dec : EqDecision AuthorityIssuerKey.
Proof. solve_decision. Defined.
Global Instance IssuerMetadataQuery_eq_dec : EqDecision IssuerMetadataQuery.
Proof. solve_decision. Defined.
Global Instance IssuerMetadataRequest_eq_dec : EqDecision IssuerMetadataRequest.
Proof. solve_decision. Defined.
Global Instance IssuerMetadataResult_eq_dec : EqDecision IssuerMetadataResult.
Proof. solve_decision. Defined.
Global Instance IssuerMetadata_eq_dec : EqDecision IssuerMetadata.
Proof. solve_decision. Defined.
Global Instance SignedIssuerMetadata_eq_dec : EqDecision SignedIssuerMetadata.
Proof. solve_decision. Defined.

(** ** Serialization *)

Definition query_json (q : IssuerMetadataQuery) : Json :=
  match q with
  | QueryIssuerKey key_id => object [("kind", JString "issuerKey"); ("keyId", JString key_id)]
  | QueryAuthorityResolve digest =>
      object [("kind", JString "authorityResolve"); ("contextDigest", JString digest)]
  | QueryAuthorityStatus session =>
      object [("kind", JString "authorityStatus"); ("authorizationSessionId", JString session)]
  | QueryIssuerChain pinned target =>
      object [("kind", JString "issuerChain"); ("pinnedKeyId", JString pinned);
              ("targetKeyId", JString target)]
  end.

Definition metadata_request_json (r : IssuerMetadataRequest) : Json :=
  object [("trellisInstanceId", JString (metadata_instance_id r));
          ("audienceNatsAccount", JString (metadata_nats_account r));
          ("requestNonce", JString (metadata_nonce r));
          ("query", query_json (metadata_query r))].

Definition metadata_result_json (r : IssuerMetadataResult) : Json :=
  match r with
  | ResultValue payload => object [("kind", JString "value"); ("payload", JString payload)]
  | ResultMissing => object [("kind", JString "missing")]
  | ResultUnavailable => object [("kind", JString "unavailable")]
  end.

Definition metadata_json (m : IssuerMetadata) : Json :=
  object [("format", JString (metadata_format m));
          ("issuerKeyId", JString (metadata_issuer_key_id m));
          ("request", metadata_request_json (metadata_request m));
          ("requestSubject", JString (metadata_request_subject m));
          ("replySubject", JString (metadata_reply_subject m));
          ("result", metadata_result_json (metadata_result m));
          ("issuedAt", JInt (metadata_issued_at m));
          ("expiresAt", JInt (metadata_expires_at m))].

(** ** Signing and verification *)

Section metadata.
Context `{Base64Url, Sha256, Ed25519, UlidParser} `{!CanonicalJson}.
Context `{JsonCodec Json, JsonCodec SignedIssuerMetadata, JsonCodec AuthorityIssuerKey}.
Context `{JsonCodec AuthorityMaterial, JsonCodec AuthorizationSessionStatus, JsonCodec IssuerChain}.

Definition validate_query (q : IssuerMetadataQuery) : result unit ProtocolError :=
  match q with
  | QueryIssuerKey key_id => digest_text key_id
  | QueryAuthorityResolve digest => digest_text digest
  | QueryAuthorityStatus session => validate_id session "authorizationSessionId"
  | QueryIssuerChain pinned target =>
      let? _ := digest_text pinned in
      digest_text target
  end.

Definition too_large : ProtocolError :=
  authorization_error AuthContextTooLarge [] "issuer metadata exceeds admission budget".

(** [IssuerMetadata::digest] *)
Definition issuer_metadata_digest (m : IssuerMetadata) : result string ProtocolError :=
  let request := metadata_request m in
  let? _ := validate_id (metadata_instance_id request) "trellisInstanceId" in
  let? _ := digest_text (metadata_issuer_key_id m) in
  let? _ := decode_base64url 16 (metadata_nonce request) in
  let? _ := validate_subject (metadata_request_subject m) in
  let? _ := validate_subject (metadata_reply_subject m) in
  let? _ := validate_query (metadata_query request) in
  let? _ := reject_if
              (negb (String.eqb (metadata_format m) ISSUER_METADATA_DOMAIN_V1)
               || String.eqb (metadata_nats_account request) ""
               || (1024 <? N.of_nat (String.length (metadata_nats_account request)))%N
               || (metadata_issued_at m <? 0)%Z
               || (metadata_expires_at m <=? metadata_issued_at m)%Z
               || (saturating_add_i64 (metadata_issued_at m) 30 <? metadata_expires_at m)%Z
               || (Z.of_N MAX_SAFE_INTEGER <? metadata_expires_at m)%Z
               || match metadata_result m with
                  | ResultValue payload =>
                      String.eqb payload ""
                      || (MAX_ADMISSION_RESPONSE_BYTES <? N.of_nat (String.length payload))%N
                  | _ => false
                  end)
              (authorization_error AuthInvalidFormat [] "invalid issuer metadata statement") in
  let value := metadata_json m in
  let? text := map_err (fun _ => authorization_error AuthInvalidFormat []
                                   "invalid issuer metadata encoding") (to_vec value) in
  let? _ := reject_if (MAX_ADMISSION_RESPONSE_BYTES <? N.of_nat (String.length text))%N too_large in
  signed_json_digest ISSUER_METADATA_DOMAIN_V1 value.

Definition sign_issuer_metadata (response : IssuerMetadata) (signer : SigningKey) :
    result SignedIssuerMetadata ProtocolError :=
  let? _ := reject_if
              (negb (String.eqb (metadata_issuer_key_id response) (key_id_of (verifying_key signer))))
              (authorization_error AuthInvalidKeyId [] "issuer metadata signing key mismatch") in
  let? digest := issuer_metadata_digest response in
  let signed := {| metadata_response := response;
                   metadata_signature := b64_encode (sign signer digest) |} in
  let? text := map_err JsonError (to_vec signed) in
  let? _ := reject_if (MAX_ADMISSION_RESPONSE_BYTES <? N.of_nat (String.length text))%N too_large in
  Ok signed.

Definition decode_value (query : IssuerMetadataQuery) (payload : string) :
    result IssuerMetadataValue ProtocolError :=
  let mismatch reason := authorization_error AuthScopeMismatch [] reason in
  let malformed (_ : string) := authorization_error AuthInvalidFormat []
                                  "invalid issuer metadata payload" in
  match query with
  | QueryIssuerKey key =>
      let? historical := map_err malformed (from_slice payload) in
      let? _ := issuer_verifying_key historical in
      let? _ := reject_if
                  (negb (String.eqb (key_id historical) key)
                   || bool_decide (issuer_state historical = IssuerActive))
                  (mismatch "invalid historical issuer statement") in
      Ok (ValueIssuerKey historical)
  | QueryAuthorityResolve _ =>
      let? material := map_err malformed (from_slice payload) in
      Ok (ValueAuthority material)
  | QueryAuthorityStatus session =>
      let? status := map_err malformed (from_slice payload) in
      let? _ := reject_if (negb (String.eqb (status_session_id status) session))
                  (mismatch "status for another authorization session") in
      Ok (ValueStatus status)
  | QueryIssuerChain _ _ =>
      let? chain := map_err malformed (from_slice payload) in
      Ok (ValueChain chain)
  end.

Definition verify_issuer_metadata (bytes : string) (issuer : AuthorityIssuerKey)
    (request : IssuerMetadataRequest) (subject reply : string) (now : Z) :
    result VerifiedIssuerMetadata ProtocolError :=
  let? _ := reject_if
              (String.eqb bytes ""
               || (MAX_ADMISSION_RESPONSE_BYTES <? N.of_nat (String.length bytes))%N)
              too_large in
  let? signed := map_err (fun _ => authorization_error AuthInvalidFormat []
                                     "invalid issuer metadata encoding") (from_slice bytes) in
  let response := metadata_response signed in
  let? _ := reject_if
              (negb (bool_decide (issuer_state issuer = IssuerActive))
               || negb (String.eqb (metadata_issuer_key_id response) (key_id issuer))
               || negb (bool_decide (metadata_request response = request))
               || negb (String.eqb (metadata_request_subject response) subject)
               || negb (String.eqb (metadata_reply_subject response) reply)
               || (saturating_add_i64 now 5 <? metadata_issued_at response)%Z
               || (metadata_expires_at response <=? now)%Z)
              (authorization_error AuthScopeMismatch []
                 "issuer metadata does not match retained exchange") in
  let? key := issuer_verifying_key issuer in
  let? digest := issuer_metadata_digest response in
  let? signature := decode_base64url 64 (metadata_signature signed) in
  let? _ := reject_if (negb (verify_strict key digest signature))
              (authorization_error AuthInvalidSignature [] "invalid issuer metadata signature") in
  let? value := match metadata_result response with
                | ResultValue payload =>
                    let? value := decode_value (metadata_query request) payload in
                    Ok (Some value)
                | ResultMissing | ResultUnavailable => Ok None
                end in
  Ok {| verified_metadata := signed; verified_value := value |}.
End metadata.

(** ** What verification establishes *)

(** A value answers the query it is the value of. *)
Definition answers `{Base64Url, Sha256, Ed25519} (query : IssuerMetadataQuery)
    (value : IssuerMetadataValue) : Prop :=
  match query, value with
  | QueryIssuerKey key, ValueIssuerKey historical =>
      key_id historical = key /\ issuer_state historical <> IssuerActive /\
      exists vk, issuer_verifying_key historical = Ok vk
  | QueryAuthorityResolve _, ValueAuthority _ => True
  | QueryAuthorityStatus session, ValueStatus status => status_session_id status = session
  | QueryIssuerChain _ _, ValueChain _ => True
  | _, _ => False
  end.

Section acceptance.
Context `{Base64Url, Sha256, Ed25519, UlidParser} `{!CanonicalJson}.
Context `{JsonCodec Json, JsonCodec SignedIssuerMetadata, JsonCodec AuthorityIssuerKey}.
Context `{JsonCodec AuthorityMaterial, JsonCodec AuthorizationSessionStatus, JsonCodec IssuerChain}.

Lemma decode_value_answers query payload value :
  decode_value query payload = Ok value -> answers query value.
Proof.
  destruct query; cbn [decode_value]; intros Hv.
  - peel Hv as historical Hh. peel Hv as key Hk. peel Hv as Hc. injection Hv as <-.
    apply orb_false_iff in Hc as [Hc%negb_false_iff%String.eqb_eq Hs%bool_decide_eq_false].
    split_and!; [done..|]. by exists key.
  - skip Hv. by injection Hv as <-.
  - peel Hv as status Hs. peel Hv as Hc. injection Hv as <-.
    by apply negb_false_iff, String.eqb_eq in Hc.
  - skip Hv. by injection Hv as <-.
Qed.

(** The statement is issued for at most half a minute. *)
Lemma issuer_metadata_digest_window m digest :
  issuer_metadata_digest m = Ok digest ->
  (0 <= metadata_issued_at m < metadata_expires_at m)%Z /\
  (metadata_expires_at m <= metadata_issued_at m + 30)%Z /\
  (metadata_expires_at m <= Z.of_N MAX_SAFE_INTEGER)%Z.
Proof.
  unfold issuer_metadata_digest. intros Hd. do 6 skip Hd. peel Hd as Hc.
  rewrite !orb_false_iff, !Z.ltb_ge, Z.leb_gt in Hc. unfold saturating_add_i64 in Hc.
  destruct Hc as (((((_ & ?) & ?) & ?) & ?) & _). unfold MAX_SAFE_INTEGER in *. lia.
Qed.

Lemma verify_issuer_metadata_ok bytes issuer request subject reply now v :
  verify_issuer_metadata bytes issuer request subject reply now = Ok v <->
  let response := metadata_response (verified_metadata v) in
  bytes <> "" /\ (N.of_nat (String.length bytes) <= MAX_ADMISSION_RESPONSE_BYTES)%N /\
  from_slice bytes = Ok (verified_metadata v) /\
  issuer_state issuer = IssuerActive /\ metadata_issuer_key_id response = key_id issuer /\
  metadata_request response = request /\ metadata_request_subject response = subject /\
  metadata_reply_subject response = reply /\
  (metadata_issued_at response <= saturating_add_i64 now 5)%Z /\
  (now < metadata_expires_at response)%Z /\
  (exists key digest sig, issuer_verifying_key issuer = Ok key /\
     issuer_metadata_digest response = Ok digest /\
     decode_base64url 64 (metadata_signature (verified_metadata v)) = Ok sig /\
     verify_strict key digest sig = true) /\
  match metadata_result response, verified_value v with
  | ResultValue payload, Some value => decode_value (metadata_query request) payload = Ok value
  | ResultMissing, None | ResultUnavailable, None => True
  | _, _ => False
  end.
Proof.
  unfold verify_issuer_metadata. split.
  - intros Hv. peel Hv as Hsize. peel Hv as signed Hs. peel Hv as Hc. peel Hv as key Hk.
    peel Hv as digest Hd. peel Hv as sig Hsig. peel Hv as Hver. peel Hv as value Hval.
    injection Hv as <-. cbn [verified_metadata verified_value].
    apply orb_false_iff in Hsize as [Hne%String.eqb_neq Hsize%N.ltb_ge].
    rewrite !orb_false_iff, !negb_false_iff, !bool_decide_eq_true, !String.eqb_eq, Z.ltb_ge,
      Z.leb_gt in Hc. apply negb_false_iff in Hver.
    destruct Hc as ((((((? & ?) & ?) & ?) & ?) & ?) & ?). split_and!; try done.
    + exists key, digest, sig. done.
    + destruct (metadata_result (metadata_response signed)); [|by injection Hval as <-..].
      peel Hval as decoded Hx. by injection Hval as <-.
  - destruct v as [signed value]. cbn [verified_metadata verified_value].
    intros (Hne & Hsize & Hs & Hst & Hid & Hreq & Hsub & Hrep & Hiss & Hexp
      & (key & digest & sig & Hk & Hd & Hsig & Hver) & Hval).
    rewrite (proj2 (String.eqb_neq _ _) Hne), (proj2 (N.ltb_ge _ _) Hsize), Hs.
    cbn [orb reject_if map_err].
    rewrite Hst, Hid, Hreq, Hsub, Hrep, !String.eqb_refl, (proj2 (Z.ltb_ge _ _) Hiss),
      (proj2 (Z.leb_gt _ _) Hexp), !bool_decide_eq_true_2 by done.
    cbn [orb negb reject_if]. rewrite Hk, Hd, Hsig, Hver. cbn [negb reject_if].
    destruct (metadata_result (metadata_response signed)), value; try done. by rewrite Hval.
Qed.

Lemma accepted_value_answers bytes issuer request subject reply now v value :
  verify_issuer_metadata bytes issuer request subject reply now = Ok v ->
  verified_value v = Some value -> answers (metadata_query request) value.
Proof.
  intros (_ & _ & _ & _ & _ & _ & _ & _ & _ & _ & _ & Hval)%verify_issuer_metadata_ok Hv.
  rewrite Hv in Hval.
  destruct (metadata_result _); [by apply decode_value_answers in Hval|done..].
Qed.

(** An accepted issuer statement answers the retained exchange.  It is the reply to this
    request, on these subjects, signed over its canonical form by the pinned issuer while
    active, issued for at most thirty seconds and not expired, and a value it carries
    answers the query that was asked: a historical key of that identifier, never an active
    one, or the status of that very session. *)
Theorem accepted_metadata bytes issuer request subject reply now v :
  verify_issuer_metadata bytes issuer request subject reply now = Ok v ->
  let response := metadata_response (verified_metadata v) in
  metadata_request response = request /\ metadata_request_subject response = subject /\
  metadata_reply_subject response = reply /\ issuer_state issuer = IssuerActive /\
  metadata_issuer_key_id response = key_id issuer /\
  (now < metadata_expires_at response <= metadata_issued_at response + 30)%Z /\
  (exists key digest sig, issuer_verifying_key issuer = Ok key /\
     issuer_metadata_digest response = Ok digest /\
     metadata_signature (verified_metadata v) = b64_encode sig /\
     verify_strict key digest sig = true) /\
  (forall value, verified_value v = Some value -> answers (metadata_query request) value).
Proof.
  intros Hv. pose proof Hv as (_ & _ & _ & Hst & Hid & Hreq & Hsub & Hrep & _ & Hexp
    & (key & digest & sig & Hk & Hd & Hsig & Hver) & _)%verify_issuer_metadata_ok. cbn zeta.
  pose proof (issuer_metadata_digest_window _ _ Hd) as (_ & Hlife & _).
  apply decode_base64url_bytes in Hsig as [Hsig _]. split_and!; try done.
  - exists key, digest, sig. done.
  - intros value. by eapply accepted_value_answers.
Qed.
End acceptance.

Section signing.
Context `{Base64UrlLaws, Sha256, Ed25519Laws, UlidParser} `{!CanonicalJson}.
Context `{JsonCodec Json, JsonCodecLaws SignedIssuerMetadata, JsonCodec AuthorityIssuerKey}.
Context `{JsonCodec AuthorityMaterial, JsonCodec AuthorizationSessionStatus, JsonCodec IssuerChain}.

(** The statement an active issuer signs is accepted by the requester: its bytes verify
    for the request and the subjects it was made for, until it expires, with the value its
    payload decodes to, or none when the object is missing or unavailable. *)
Theorem signed_metadata_verifies response key signed bytes now value :
  sign_issuer_metadata response key = Ok signed ->
  is_weak (verifying_key key) = false ->
  to_vec signed = Ok bytes -> bytes <> "" ->
  (metadata_issued_at response <= now < metadata_expires_at response)%Z ->
  match metadata_result response, value with
  | ResultValue payload, Some x =>
      decode_value (metadata_query (metadata_request response)) payload = Ok x
  | ResultMissing, None | ResultUnavailable, None => True
  | _, _ => False
  end ->
  verify_issuer_metadata bytes (issuer_of key IssuerActive) (metadata_request response)
    (metadata_request_subject response) (metadata_reply_subject response) now
  = Ok {| verified_metadata := signed; verified_value := value |}.
Proof.
  unfold sign_issuer_metadata. intros Hs Hweak Hvec Hne Hnow Hval. peel Hs as Hid.
  peel Hs as digest Hd. peel Hs as text Ht. peel Hs as Hsize. injection Hs as <-.
  rewrite Ht in Hvec. injection Hvec as ->. apply negb_false_iff, String.eqb_eq in Hid.
  apply N.ltb_ge in Hsize. pose proof (issuer_metadata_digest_window _ _ Hd) as (? & ? & ?).
  apply verify_issuer_metadata_ok. cbn [verified_metadata verified_value metadata_response].
  split_and!; try done.
  - by apply from_slice_to_vec.
  - unfold saturating_add_i64, MAX_SAFE_INTEGER in *. lia.
  - lia.
  - exists (verifying_key key), digest, (sign key digest). split_and!; [|done| |apply verify_sign].
    + apply issuer_verifying_key_ok. split; [by apply parse_verifying_key_encode|done].
    + apply decode_base64url_encode, sign_length.
Qed.
End signing.

(** ** Evaluated examples *)

Local Existing Instances rfc4648 rfc4648_laws sample_sha256 sample_ed25519 sample_ed25519_laws
  sample_ulid.

(** The metadata of the other key, retired. *)
Definition sample_historical : AuthorityIssuerKey :=
  Eval vm_compute in issuer_of (false : SigningKey) IssuerRetired.

Definition sample_metadata : IssuerMetadata := {|
  metadata_format := ISSUER_METADATA_DOMAIN_V1;
  metadata_issuer_key_id := sample_issuer_id;
  metadata_request := {|
    metadata_instance_id := sample_id;
    metadata_nats_account := "ACCOUNT";
    metadata_nonce := "AAAAAAAAAAAAAAAAAAAAAA";
    metadata_query := QueryIssuerKey (key_id sample_historical) |};
  metadata_request_subject := "trellis.auth.metadata.get";
  metadata_reply_subject := "_INBOX.worker.metadata";
  metadata_result := ResultValue "0";
  metadata_issued_at := 200;
  metadata_expires_at := 220;
|}.

Section examples.
Let canonical : CanonicalJson := canonical_table [metadata_json sample_metadata].
Let text_codec : JsonCodec Json := table_codec [metadata_json sample_metadata].
Let key_codec : JsonCodec AuthorityIssuerKey := table_codec [sample_historical].
Let material_codec : JsonCodec AuthorityMaterial :=
  {| to_vec := fun _ => Err "unsupported"; from_slice := fun _ => Err "unsupported" |}.
Let status_codec : JsonCodec AuthorizationSessionStatus :=
  {| to_vec := fun _ => Err "unsupported"; from_slice := fun _ => Err "unsupported" |}.
Let chain_codec : JsonCodec IssuerChain :=
  {| to_vec := fun _ => Err "unsupported"; from_slice := fun _ => Err "unsupported" |}.
Local Existing Instances canonical text_codec key_codec material_codec status_codec chain_codec.

Let digest : string :=
  match issuer_metadata_digest sample_metadata with Ok digest => digest | Err _ => "" end.
Let signed : SignedIssuerMetadata :=
  {| metadata_response := sample_metadata;
     metadata_signature := b64_encode (sign (sample_signer : SigningKey) digest) |}.
Let signed_codec : JsonCodec SignedIssuerMetadata := table_codec [signed].
Let signed_codec_laws : JsonCodecLaws SignedIssuerMetadata := table_codec_laws [signed].
Local Existing Instances signed_codec signed_codec_laws.

Lemma signed_metadata_verifies_witness :
  verify_issuer_metadata "0" (issuer_of sample_signer IssuerActive)
    (metadata_request sample_metadata) (metadata_request_subject sample_metadata)
    (metadata_reply_subject sample_metadata) 210
  = Ok {| verified_metadata := signed;
          verified_value := Some (ValueIssuerKey sample_historical) |}.
Proof.
  assert (sign_issuer_metadata sample_metadata sample_signer = Ok signed) as Hs
    by (vm_compute; reflexivity).
  apply (signed_metadata_verifies sample_metadata sample_signer signed "0" 210 _ Hs);
    [reflexivity|vm_compute; reflexivity|discriminate|split; vm_compute; congruence
    |vm_compute; reflexivity].
Defined.

Lemma accepted_metadata_witness :
  exists v, verify_issuer_metadata "0" (issuer_of sample_signer IssuerActive)
    (metadata_request sample_metadata) (metadata_request_subject sample_metadata)
    (metadata_reply_subject sample_metadata) 210 = Ok v /\
    (210 < metadata_expires_at (metadata_response (verified_metadata v)))%Z.
Proof.
  destruct (verify_issuer_metadata "0" (issuer_of sample_signer IssuerActive)
    (metadata_request sample_metadata) (metadata_request_subject sample_metadata)
    (metadata_reply_subject sample_metadata) 210) as [v|e] eqn:Hv;
    [|vm_compute in Hv; discriminate].
  exists v. split; [reflexivity|].
  pose proof (accepted_metadata _ _ _ _ _ _ _ Hv) as (_ & _ & _ & _ & _ & [Hnow _] & _).
  exact Hnow.
Defined.
End examples.
