(* ===== verification/AuthorizationOwner.v ===== *)
(** * The authority owner of a runtime

    [crates/trellis/src/client/authorization/provider_cache.rs]: the state a connected
    runtime keeps to decide whose authority is current.  It holds the pinned issuer chain,
    the runtime's own authority, the session revocations it has seen, and whether a mirror
    of the revocations covers it.

    These are the operations on the state while its lock is held; each takes the clock
    readings it makes.  A transport is the number of its connection.  The tasks that fetch
    material and take the lock several times are in [OwnerTasks]. *)

From Stdlib Require Import Ascii String.
From S2P Require Import Prelude RustStr Extern Json Transcript Base64 Protocol Wire.
From S2P Require Import Authorization Identifiers SessionAuthority Catalog.
From S2P Require Import SessionMessages VerificationCore IssuerMetadata.

Local Open Scope string_scope.

Local Existing Instance json_tree.

Definition MAX_ISSUERS : nat := 256.
Definition MAX_OBSERVED_REVOCATIONS : nat := 4096.

(** [TrellisClientError], as far as the owner raises it. *)
Inductive OwnerError :=
| AuthorizationUnavailable (message : string)
| OwnerProtocolError (error : ProtocolError)
| OwnerJsonError (error : string)
| AuthorizationVerification (error : AuthorizationVerificationError).

(** [RuntimeAuthorizationTrust]; what configures the transport is left out. *)
Record AuthorizationTrust := mkAuthorizationTrust {
  trust_instance_id : string;
  trust_account : string;
  trust_issuer : AuthorityIssuerKey;
  trust_rotation_sequence : N;
}.

(** The immutable part of [AuthorizationOwner]. *)
Record Owner := mkOwner {
  owner_trust : AuthorizationTrust;
  owner_runtime_id : string;
  owner_session_public_key : string;
}.

Section owner.
Context `{Base64Url, Sha256, Ed25519, UlidParser, UrlParser} `{!CanonicalJson}.

(** [OwnerState] without the cache of fetched material. *)
Record OwnerState := mkOwnerState {
  current_issuer : AuthorityIssuerKey;
  installed_sequence : N;
  issuers : gmap string AuthorityIssuerKey;
  issuer_retirements : gmap string Z;
  own : option VerifiedSessionAuthority;
  revocations : gmap string SignedSessionRevocation;
  revocation_overflow_until : Z;
  revocation_epoch : option N;
  revocation_predecessor_epoch : option N;
  revocation_pending_epoch : option N;
  revocation_covered : bool;
}.

#[global] Instance OwnerState_settable : Settable OwnerState := fun s =>
  {| current_issuer := current_issuer s; installed_sequence := installed_sequence s;
     issuers := issuers s; issuer_retirements := issuer_retirements s; own := own s;
     revocations := revocations s; revocation_overflow_until := revocation_overflow_until s;
     revocation_epoch := revocation_epoch s;
     revocation_predecessor_epoch := revocation_predecessor_epoch s;
     revocation_pending_epoch := revocation_pending_epoch s;
     revocation_covered := revocation_covered s |}.

Definition unavailable {T} (message : string) : result T OwnerError :=
  Err (AuthorizationUnavailable message).

(** [?] on a protocol result. *)
Definition protocol {T} (r : result T ProtocolError) : result T OwnerError :=
  map_err OwnerProtocolError r.

(** [AuthorizationOwner::policy] *)
Definition owner_policy (now : Z) : SessionAuthorityVerificationPolicy := {|
  now_unix_seconds := now;
  allowed_clock_skew_seconds := 30;
  maximum_authority_lifetime_seconds := 300;
  maximum_authority_bytes := MAX_SESSION_AUTHORITY_BYTES;
  maximum_entries := 4096;
|}.

(** [decode(value).is_ok_and(|bytes| bytes.len() == n && encode(bytes) == value)] *)
Definition is_canonical (n : nat) (value : string) : bool :=
  match b64_decode value with
  | Some bytes => Nat.eqb (String.length bytes) n && String.eqb (b64_encode bytes) value
  | None => false
  end.

Definition owner_new (trust : AuthorizationTrust) (runtime_id session_public_key : string) :
    result (Owner * OwnerState) OwnerError :=
  let? _ := protocol (issuer_verifying_key (trust_issuer trust)) in
  let? _ := reject_if
              (negb (bool_decide (issuer_state (trust_issuer trust) = IssuerActive))
               || negb (is_ulid (trust_instance_id trust))
               || negb (is_canonical 16 runtime_id) || negb (is_canonical 32 session_public_key)
               || String.eqb (trust_account trust) "")
              (AuthorizationUnavailable "invalid runtime trust pin") in
  Ok ({| owner_trust := trust; owner_runtime_id := runtime_id;
         owner_session_public_key := session_public_key |},
      {| current_issuer := trust_issuer trust;
         installed_sequence := trust_rotation_sequence trust;
         issuers := {[key_id (trust_issuer trust) := trust_issuer trust]};
         issuer_retirements := ∅;
         own := None;
         revocations := ∅;
         revocation_overflow_until := 0;
         revocation_epoch := None;
         revocation_predecessor_epoch := None;
         revocation_pending_epoch := None;
         revocation_covered := false |}).

Implicit Types (owner : Owner) (s : OwnerState) (now : Z).

(** [OwnerState::issuer]: the key, retired once its deadline has come. *)
Definition state_issuer s (id : string) now : option AuthorityIssuerKey :=
  match issuers s !! id with
  | None => None
  | Some issuer =>
      Some (if bool_decide (issuer_state issuer = IssuerActive)
               && match issuer_retirements s !! id with
                  | Some deadline => (deadline <=? now)%Z
                  | None => false
                  end
            then mkAuthorityIssuerKey (key_id issuer) (public_key issuer) IssuerRetired
            else issuer)
  end.

Definition issuer_active s (id : string) now : bool :=
  match state_issuer s id now with
  | Some issuer => bool_decide (issuer_state issuer = IssuerActive)
  | None => false
  end.

Definition known_revoked s (v : VerifiedSessionAuthority) : bool :=
  bool_decide (is_Some (revocations s !! authorization_session_id (verified_authority v))).

(** [OwnerState::require_live_coverage] *)
Definition require_live_coverage s : result unit OwnerError :=
  reject_if (negb (revocation_covered s))
    (AuthorizationUnavailable "revocation mirror is not current").

Definition overflowing s now : bool := (now <? revocation_overflow_until s)%Z.

(** ** Decisions *)

Definition assert_issuer_current s (id : string) now : result unit OwnerError :=
  reject_if (negb (issuer_active s id now)) (AuthorizationUnavailable "issuer no longer current").

(** [AuthorizationOwner::assert_current] *)
Definition owner_assert_current owner s now (v : VerifiedSessionAuthority) :
    result unit OwnerError :=
  let body := verified_authority v in
  let? _ := require_live_coverage s in
  let? _ := reject_if
              (negb (String.eqb (trellis_instance_id body) (trust_instance_id (owner_trust owner)))
               || negb (String.eqb (audience_nats_account body) (trust_account (owner_trust owner)))
               || (String.eqb (runtime_id body) (owner_runtime_id owner)
                   && String.eqb (session_public_key body) (owner_session_public_key owner)
                   && negb (bool_decide (verified_digest <$> own s = Some (verified_digest v))))
               || overflowing s now
               || negb (issuer_active s (issuer_key_id body) now))
              (AuthorizationUnavailable "authority no longer trusted") in
  protocol (assert_current v (owner_policy now) (known_revoked s v)).

Definition staged_own_authority s now : result VerifiedSessionAuthority OwnerError :=
  let? v := ok_or (own s) (AuthorizationUnavailable "own authority not installed") in
  let? _ := reject_if (overflowing s now)
              (AuthorizationUnavailable "revocation capacity reached") in
  let? _ := protocol (assert_current v (owner_policy now) (known_revoked s v)) in
  let? issuer := ok_or (state_issuer s (issuer_key_id (verified_authority v)) now)
                   (AuthorizationUnavailable "own issuer unavailable") in
  let? _ := reject_if (negb (bool_decide (issuer_state issuer = IssuerActive)))
              (AuthorizationUnavailable "own issuer retired") in
  Ok v.

(** [own_authority] takes the lock twice: the state and the time of each. *)
Definition own_authority owner s now s' now' : result VerifiedSessionAuthority OwnerError :=
  let? v := staged_own_authority s now in
  let? _ := owner_assert_current owner s' now' v in
  Ok v.

Definition maintenance_identity s now : result (string * string) OwnerError :=
  let? v := ok_or (own s) (AuthorizationUnavailable "own authority not installed") in
  let? _ := reject_if (overflowing s now)
              (AuthorizationUnavailable "revocation capacity reached") in
  let? _ := reject_if (known_revoked s v)
              (AuthorizationUnavailable "own logical session retired") in
  Ok (verified_digest v, authorization_session_id (verified_authority v)).

Definition assert_accepted_response_allowed owner s now (opening : VerifiedSessionAuthority) :
    result unit OwnerError :=
  let body := verified_authority opening in
  let? _ := require_live_coverage s in
  reject_if
    (negb (String.eqb (trellis_instance_id body) (trust_instance_id (owner_trust owner)))
     || negb (String.eqb (audience_nats_account body) (trust_account (owner_trust owner)))
     || negb (String.eqb (runtime_id body) (owner_runtime_id owner))
     || negb (String.eqb (session_public_key body) (owner_session_public_key owner))
     || match own s with
        | Some v => negb (String.eqb (authorization_session_id (verified_authority v))
                            (authorization_session_id body))
        | None => true
        end
     || known_revoked s opening
     || overflowing s now
     || match state_issuer s (issuer_key_id body) now with
        | Some issuer => bool_decide (issuer_state issuer = IssuerRevoked)
        | None => true
        end)
    (AuthorizationUnavailable "accepted response ownership no longer trusted").

(** [AuthorizationOwner::verify_authority], for the issuer named [id]. *)
Definition owner_verify_authority owner s now (signed : SignedSessionAuthority) (id : string)
    (purpose : SessionAuthorityPurpose) : result VerifiedSessionAuthority OwnerError :=
  let? _ := reject_if (overflowing s now)
              (AuthorizationUnavailable "revocation capacity reached") in
  let? issuer := ok_or (state_issuer s id now)
                   (AuthorizationUnavailable "issuer no longer trusted") in
  protocol (verify_session_authority {|
    input_issuer := issuer;
    input_instance_id := trust_instance_id (owner_trust owner);
    input_nats_account := trust_account (owner_trust owner);
    input_authority := signed;
    input_policy := owner_policy now;
    input_purpose := purpose;
    input_revocation_cutoff :=
      effective_cutoff <$> revocations s !! authorization_session_id (unsigned signed);
  |}).

(** [assert_prepared_current] takes the lock for the issuer and again to verify. *)
Definition assert_prepared_current owner s now s' now' (v : VerifiedSessionAuthority) :
    result unit OwnerError :=
  let body := verified_authority v in
  let? _ := reject_if
              (negb (String.eqb (runtime_id body) (owner_runtime_id owner))
               || negb (String.eqb (session_public_key body) (owner_session_public_key owner)))
              (AuthorizationUnavailable "prepared authority runtime mismatch") in
  let? issuer := ok_or (state_issuer s (issuer_key_id body) now)
                   (AuthorizationUnavailable "prepared issuer unavailable") in
  let? _ := owner_verify_authority owner s' now' (verified_signed v) (key_id issuer) PurposeLive in
  Ok tt.

Definition issuer_renewal_pending s now : result bool OwnerError :=
  match own s with
  | None => Ok false
  | Some v =>
      if String.eqb (issuer_key_id (verified_authority v)) (key_id (current_issuer s))
         || known_revoked s v
      then Ok false
      else
        let? _ := require_live_coverage s in
        let? _ := reject_if (overflowing s now)
                    (AuthorizationUnavailable "revocation capacity reached") in
        Ok true
  end.

(** [current_trust] *)
Definition current_trust owner s : AuthorizationTrust := {|
  trust_instance_id := trust_instance_id (owner_trust owner);
  trust_account := trust_account (owner_trust owner);
  trust_issuer := current_issuer s;
  trust_rotation_sequence := installed_sequence s;
|}.

(** ** Changes *)

Definition promote_own owner s (now now' now'' : Z) (candidate : VerifiedSessionAuthority)
    (expected_digest : option string) : result OwnerState OwnerError :=
  let body := verified_authority candidate in
  let? _ := reject_if (negb (bool_decide (verified_digest <$> own s = expected_digest)))
              (AuthorizationUnavailable "own candidate superseded") in
  let? _ := reject_if
              match own s with
              | Some current =>
                  negb (String.eqb (principal_id (verified_authority current)) (principal_id body))
                  || negb (bool_decide (binding (verified_authority current) = binding body))
              | None => false
              end
              (AuthorizationUnavailable "own candidate changes runtime identity") in
  let? _ := reject_if
              (negb (String.eqb (runtime_id body) (owner_runtime_id owner))
               || negb (String.eqb (session_public_key body) (owner_session_public_key owner))
               || negb (String.eqb (trellis_instance_id body)
                          (trust_instance_id (owner_trust owner)))
               || negb (String.eqb (audience_nats_account body)
                          (trust_account (owner_trust owner)))
               || overflowing s now)
              (AuthorizationUnavailable "own candidate unavailable") in
  let? issuer := ok_or (state_issuer s (issuer_key_id body) now')
                   (AuthorizationUnavailable "candidate issuer unavailable") in
  let? _ := reject_if (negb (bool_decide (issuer_state issuer = IssuerActive)))
              (AuthorizationUnavailable "candidate issuer retired") in
  let? _ := protocol (assert_current candidate (owner_policy now'') (known_revoked s candidate)) in
  Ok (s <| own := Some candidate |>).

Definition accept_issuer_rotation owner s now (r : SignedIssuerRotation) :
    result OwnerState OwnerError :=
  let? _ := reject_if (MAX_ISSUERS <=? size (issuers s))%nat
              (AuthorizationUnavailable "issuer chain capacity reached") in
  let? successor := protocol (verify_successor r (current_issuer s)
                                (trust_instance_id (owner_trust owner))
                                (trust_account (owner_trust owner)) (installed_sequence s) now) in
  let? _ := reject_if (bool_decide (is_Some (issuers s !! key_id successor)))
              (AuthorizationUnavailable "issuer chain reuses a retired signer") in
  Ok (s <| issuer_retirements :=
             <[key_id (current_issuer s) := rotation_previous_retired_at r]>
               (issuer_retirements s) |>
        <| issuers := <[key_id successor := successor]> (issuers s) |>
        <| current_issuer := successor |>
        <| installed_sequence := rotation_sequence r |>).

(** [accept_revocation]: the state changes on some of the errors too. *)
Definition accept_revocation owner s now (r : SignedSessionRevocation) :
    OwnerState * result unit OwnerError :=
  match state_issuer s (revocation_issuer_key_id r) now with
  | None => (s, unavailable "revocation issuer unavailable")
  | Some issuer =>
      match verify_revocation r issuer (trust_instance_id (owner_trust owner))
              (trust_account (owner_trust owner)) with
      | Err e => (s, Err (OwnerProtocolError e))
      | Ok _ =>
          let s := s <| revocations :=
                          filter (fun known => now < latest_context_expiry (snd known))%Z
                            (revocations s) |> in
          if (latest_context_expiry r <=? now)%Z then (s, Ok tt)
          else
            match revocations s !! revocation_session_id r with
            | Some known =>
                if negb (effective_cutoff known =? effective_cutoff r)%Z then
                  (s, unavailable "conflicting session cutoff")
                else if (latest_context_expiry known <? latest_context_expiry r)%Z then
                  (s <| revocations := <[revocation_session_id r := r]> (revocations s) |>, Ok tt)
                else (s, Ok tt)
            | None =>
                if (size (revocations s) <? MAX_OBSERVED_REVOCATIONS)%nat then
                  (s <| revocations := <[revocation_session_id r := r]> (revocations s) |>, Ok tt)
                else
                  (s <| revocation_overflow_until :=
                          Z.max (revocation_overflow_until s) (latest_context_expiry r) |>,
                   unavailable "revocation capacity reached")
            end
      end
  end.

(** The historical key a verified answer to an issuer-key query attests, from
    [verify_metadata_inner]. *)
Definition install_historical s (historical : AuthorityIssuerKey) :
    OwnerState * result unit OwnerError :=
  let installed := s <| issuers := <[key_id historical := historical]> (issuers s) |> in
  match issuers s !! key_id historical with
  | Some previous =>
      if negb (String.eqb (public_key previous) (public_key historical)) then
        (s, unavailable "historical issuer conflict")
      else
        match issuer_state previous with
        | IssuerRevoked => (s, Ok tt)
        | IssuerActive => (s, unavailable "historical issuer is a live pin")
        | IssuerRetired => (installed, Ok tt)
        end
  | None =>
      if (MAX_ISSUERS <=? size (issuers s))%nat then
        (s, unavailable "issuer chain capacity reached")
      else (installed, Ok tt)
  end.

(** ** Coverage by a revocation mirror *)

(** What [run_revocations] does first: a mirror on [epoch] is being prepared. *)
Definition stage_coverage (epoch : N) s : OwnerState :=
  s <| revocation_pending_epoch := Some epoch |>.

(** [RevocationCoverage::ready]: its snapshot is complete. *)
Definition coverage_ready (epoch : N) s now : result OwnerState OwnerError :=
  if negb (bool_decide (revocation_pending_epoch s = Some epoch)) || overflowing s now then
    unavailable "revocation snapshot superseded or incomplete"
  else
    Ok (s <| revocation_predecessor_epoch :=
               if revocation_covered s then revocation_epoch s else None |>
          <| revocation_epoch := Some epoch |>
          <| revocation_pending_epoch := None |>
          <| revocation_covered := true |>).

(** [epoch.filter(|epoch| epoch is the given one)], cleared. *)
Definition cleared (epoch : N) (o : option N) : option N :=
  if bool_decide (o = Some epoch) then None else o.

(** [RevocationCoverage::drop], with the transports that are connected. *)
Definition coverage_drop (connected : N -> bool) (epoch : N) s : OwnerState :=
  let s := s <| revocation_pending_epoch := cleared epoch (revocation_pending_epoch s) |>
             <| revocation_predecessor_epoch := cleared epoch (revocation_predecessor_epoch s) |> in
  if bool_decide (revocation_epoch s = Some epoch) then
    let successor := match revocation_predecessor_epoch s with
                     | Some predecessor => if connected predecessor then Some predecessor else None
                     | None => None
                     end in
    s <| revocation_epoch := successor |>
      <| revocation_predecessor_epoch := None |>
      <| revocation_covered := bool_decide (is_Some successor) |>
  else s.

Definition retire_revocation_coverage s : OwnerState :=
  s <| revocation_covered := false |>
    <| revocation_epoch := None |>
    <| revocation_predecessor_epoch := None |>
    <| revocation_pending_epoch := None |>.

Definition fence_revocation_coverage (connected : N -> bool) s : OwnerState :=
  let s := s <| revocation_pending_epoch := None |> in
  match revocation_epoch s with
  | Some epoch =>
      if connected epoch then s
      else s <| revocation_covered := false |> <| revocation_epoch := None |>
             <| revocation_predecessor_epoch := None |>
  | None => s <| revocation_covered := false |> <| revocation_epoch := None |>
              <| revocation_predecessor_epoch := None |>
  end.
End owner.
