(* ===== verification/OwnerSafety.v ===== *)
(** * What the authority owner guarantees

    The operations of [AuthorizationOwner] as steps of a machine with a clock that does not
    go back, its invariant, and what no sequence of steps can undo. *)

From Stdlib Require Import Ascii String.
From S2P Require Import Prelude RustStr Extern Json Transcript Base64 Protocol Wire.
From S2P Require Import Authorization Identifiers SessionAuthority Catalog.
From S2P Require Import SessionMessages VerificationCore IssuerMetadata AuthorizationOwner.

Local Open Scope string_scope.

Local Existing Instance json_tree.

Local Opaque MAX_ISSUERS MAX_OBSERVED_REVOCATIONS.

Section safety.
Context `{Base64Url, Sha256, Ed25519, UlidParser, UrlParser} `{!CanonicalJson}.
Context `{JsonCodec Json, JsonCodec SignedIssuerMetadata, JsonCodec AuthorityIssuerKey}.
Context `{JsonCodec AuthorityMaterial, JsonCodec AuthorizationSessionStatus, JsonCodec IssuerChain}.
Context (owner : Owner).

Implicit Types (s : OwnerState) (t now : Z).

(** One change of the state, and the clock after it. *)
Inductive owner_step : Z * OwnerState -> Z * OwnerState -> Prop :=
| step_rotation t now r s s' : (t <= now)%Z ->
    accept_issuer_rotation owner s now r = Ok s' -> owner_step (t, s) (now, s')
| step_revocation t now r s : (t <= now)%Z ->
    owner_step (t, s) (now, fst (accept_revocation owner s now r))
| step_metadata t at_time bytes issuer request subject reply v historical s :
    verify_issuer_metadata bytes issuer request subject reply at_time = Ok v ->
    verified_value v = Some (ValueIssuerKey historical) ->
    owner_step (t, s) (t, fst (install_historical s historical))
| step_promote t now now' now'' candidate expected s s' : (t <= now <= now')%Z -> (now' <= now'')%Z ->
    promote_own owner s now now' now'' candidate expected = Ok s' ->
    owner_step (t, s) (now'', s')
| step_stage t epoch s : owner_step (t, s) (t, stage_coverage epoch s)
| step_ready t now epoch s s' : (t <= now)%Z ->
    coverage_ready epoch s now = Ok s' -> owner_step (t, s) (now, s')
| step_drop t connected epoch s : owner_step (t, s) (t, coverage_drop connected epoch s)
| step_retire t s : owner_step (t, s) (t, retire_revocation_coverage s)
| step_fence t connected s : owner_step (t, s) (t, fence_revocation_coverage connected s).

(** ** Invariant *)

Record owner_wf s : Prop := {
  owner_current : issuers s !! key_id (current_issuer s) = Some (current_issuer s) /\
                  issuer_state (current_issuer s) = IssuerActive /\
                  issuer_retirements s !! key_id (current_issuer s) = None;
  owner_keys : forall id k, issuers s !! id = Some k ->
    key_id k = id /\ exists vk, issuer_verifying_key k = Ok vk;
  owner_predecessors : forall id k, issuers s !! id = Some k -> issuer_state k = IssuerActive ->
    id <> key_id (current_issuer s) -> is_Some (issuer_retirements s !! id);
  owner_retirements : forall id d, issuer_retirements s !! id = Some d -> is_Some (issuers s !! id);
  owner_capacity : (size (issuers s) <= MAX_ISSUERS)%nat /\
                   (size (revocations s) <= MAX_OBSERVED_REVOCATIONS)%nat;
  owner_sequence : (trust_rotation_sequence (owner_trust owner) <= installed_sequence s)%N;
  owner_revocations : forall id r, revocations s !! id = Some r -> revocation_session_id r = id;
  owner_covered : revocation_covered s = bool_decide (is_Some (revocation_epoch s));
  owner_own : forall v, own s = Some v ->
    runtime_id (verified_authority v) = owner_runtime_id owner /\
    session_public_key (verified_authority v) = owner_session_public_key owner /\
    trellis_instance_id (verified_authority v) = trust_instance_id (owner_trust owner) /\
    audience_nats_account (verified_authority v) = trust_account (owner_trust owner) /\
    verified_purpose v = PurposeLive;
}.

Lemma accept_issuer_rotation_ok s now r s' :
  accept_issuer_rotation owner s now r = Ok s' ->
  exists next, (size (issuers s) < MAX_ISSUERS)%nat /\
    verify_successor r (current_issuer s) (trust_instance_id (owner_trust owner))
      (trust_account (owner_trust owner)) (installed_sequence s) now = Ok next /\
    issuers s !! key_id next = None /\
    s' = s <| issuer_retirements :=
                <[key_id (current_issuer s) := rotation_previous_retired_at r]>
                  (issuer_retirements s) |>
           <| issuers := <[key_id next := next]> (issuers s) |>
           <| current_issuer := next |>
           <| installed_sequence := rotation_sequence r |>.
Proof.
  unfold accept_issuer_rotation, protocol. intros Hv. peel Hv as Hcap. peel Hv as next Hn. peel Hv as Hnew.
  injection Hv as <-. exists next. apply Nat.leb_gt in Hcap.
  apply bool_decide_eq_false, eq_None_not_Some in Hnew. done.
Qed.

Lemma rotation_wf s now r s' :
  owner_wf s -> accept_issuer_rotation owner s now r = Ok s' -> owner_wf s'.
Proof.
  intros Hwf (next & Hcap & Hv & Hnew & ->)%accept_issuer_rotation_ok.
  apply verify_successor_ok in Hv as (_ & _ & Hseq & _ & _ & Hnext & Hne & Hvk).
  destruct Hwf as [(Hc & Hact & Hret) Hkeys Hpred Hrets [_ Hcr] Hsq Hrev Hcov Hown].
  assert (issuer_state next = IssuerActive) as Hnact by by subst next.
  split; cbn; try done.
  - rewrite lookup_insert_eq, lookup_insert_ne by done. split_and!; try done.
    apply eq_None_not_Some. intros [d Hd]. apply Hrets in Hd. rewrite Hnew in Hd.
    by apply is_Some_None in Hd.
  - intros id k [[<- <-]|[_ Hk]]%lookup_insert_Some; [done|eauto].
  - intros id k [[<- <-]|[Hid Hk]]%lookup_insert_Some Hstate Hother; [done|].
    destruct (decide (id = key_id (current_issuer s))) as [->|Hnc];
      [by rewrite lookup_insert_eq|]. rewrite lookup_insert_ne by done. eauto.
  - intros id d [[<- _]|[_ Hd]]%lookup_insert_Some; apply lookup_insert_is_Some'; [eauto|].
    right. by eapply Hrets.
  - rewrite map_size_insert_None by done. lia.
  - rewrite Hseq. lia.
Qed.

Lemma accept_revocation_fields s now r :
  let s' := fst (accept_revocation owner s now r) in
  current_issuer s' = current_issuer s /\ installed_sequence s' = installed_sequence s /\
  issuers s' = issuers s /\ issuer_retirements s' = issuer_retirements s /\ own s' = own s /\
  revocation_epoch s' = revocation_epoch s /\
  revocation_pending_epoch s' = revocation_pending_epoch s /\
  revocation_covered s' = revocation_covered s.
Proof. unfold accept_revocation. cbn zeta. by repeat (case_match; cbn). Qed.

Lemma accept_revocation_map s now r :
  (size (revocations s) <= MAX_OBSERVED_REVOCATIONS)%nat ->
  (forall id r, revocations s !! id = Some r -> revocation_session_id r = id) ->
  let s' := fst (accept_revocation owner s now r) in
  (size (revocations s') <= MAX_OBSERVED_REVOCATIONS)%nat /\
  (forall id r, revocations s' !! id = Some r -> revocation_session_id r = id).
Proof.
  intros Hsize Hids. unfold accept_revocation. cbn zeta.
  destruct (state_issuer _ _ _) as [issuer|]; [|done].
  destruct (verify_revocation _ _ _ _) as [u|]; [|done]. cbn -[Nat.ltb].
  set (kept := filter _ (revocations s)).
  assert (size kept <= size (revocations s))%nat as Hk
    by (apply map_size_filter).
  assert (forall id r, kept !! id = Some r -> revocation_session_id r = id) as Hkids.
  { intros id known [Hl _]%map_lookup_filter_Some. eauto. }
  assert (forall id r', <[revocation_session_id r := r]> kept !! id = Some r' ->
    revocation_session_id r' = id) as Hins.
  { intros id r' [[<- <-]|[_ Hl]]%lookup_insert_Some; eauto. }
  clearbody kept. case_match; cbn -[Nat.ltb]; [split; [lia|done]|].
  destruct (kept !! revocation_session_id r) as [known|] eqn:Hl.
  - case_match; cbn; [split; [lia|done]|]. case_match; cbn; [|split; [lia|done]].
    split; [|done]. rewrite map_size_insert_Some by eauto. lia.
  - destruct (Nat.ltb_spec (size kept) MAX_OBSERVED_REVOCATIONS); cbn; [|split; [lia|done]].
    split; [|done]. rewrite map_size_insert_None by done. lia.
Qed.

Lemma revocation_wf s now r : owner_wf s -> owner_wf (fst (accept_revocation owner s now r)).
Proof.
  intros [Hc Hkeys Hpred Hrets [Hci Hcr] Hsq Hrev Hcov Hown].
  destruct (accept_revocation_fields s now r) as (E1 & E2 & E3 & E4 & E5 & E6 & _ & E7).
  destruct (accept_revocation_map s now r Hcr Hrev) as [Hcr' Hrev'].
  split; rewrite ?E1, ?E2, ?E3, ?E4, ?E5, ?E6, ?E7; done.
Qed.

Lemma install_historical_ok s h :
  fst (install_historical s h) = s \/
  (fst (install_historical s h) = s <| issuers := <[key_id h := h]> (issuers s) |> /\
   ((exists previous, issuers s !! key_id h = Some previous /\
       issuer_state previous = IssuerRetired) \/
    (issuers s !! key_id h = None /\ (size (issuers s) < MAX_ISSUERS)%nat))).
Proof.
  unfold install_historical. destruct (issuers s !! key_id h) as [previous|] eqn:Hl.
  - case_match; [by left|]. destruct (issuer_state previous) eqn:Hst; eauto.
    right. eauto.
  - destruct (Nat.leb_spec MAX_ISSUERS (size (issuers s))); [by left|]. right. eauto.
Qed.

Lemma historical_wf s h :
  owner_wf s -> issuer_state h <> IssuerActive -> (exists vk, issuer_verifying_key h = Ok vk) ->
  owner_wf (fst (install_historical s h)).
Proof.
  intros Hwf Hh Hvk. destruct (install_historical_ok s h) as [->|[-> Hcase]]; [done|].
  destruct Hwf as [(Hc & Hact & Hret) Hkeys Hpred Hrets [Hci Hcr] Hsq Hrev Hcov Hown].
  assert (key_id h <> key_id (current_issuer s)) as Hne.
  { intros He. rewrite He, Hc in Hcase. destruct Hcase as [(p & [= <-] & Hp)|[? _]]; congruence. }
  split; cbn; try done.
  - by rewrite lookup_insert_ne.
  - intros id k [[<- <-]|[_ Hk]]%lookup_insert_Some; [done|eauto].
  - intros id k [[<- <-]|[_ Hk]]%lookup_insert_Some; [done|eauto].
  - intros id d Hd. apply lookup_insert_is_Some'. right. eauto.
  - destruct Hcase as [(p & Hp & _)|[Hn Hlt]];
      [rewrite map_size_insert_Some by eauto|rewrite map_size_insert_None by done]; lia.
Qed.

Lemma promote_own_ok s now now' now'' v expected s' :
  promote_own owner s now now' now'' v expected = Ok s' ->
  s' = s <| own := Some v |> /\
  verified_digest <$> own s = expected /\
  (forall current, own s = Some current ->
     principal_id (verified_authority current) = principal_id (verified_authority v) /\
     binding (verified_authority current) = binding (verified_authority v)) /\
  runtime_id (verified_authority v) = owner_runtime_id owner /\
  session_public_key (verified_authority v) = owner_session_public_key owner /\
  trellis_instance_id (verified_authority v) = trust_instance_id (owner_trust owner) /\
  audience_nats_account (verified_authority v) = trust_account (owner_trust owner) /\
  assert_current v (owner_policy now'') (known_revoked s v) = Ok tt.
Proof.
  unfold promote_own, protocol. intros Hv. peel Hv as Hd. peel Hv as Hid. peel Hv as Hc.
  peel Hv as issuer Hi. peel Hv as Ha. peel Hv as u Hcur. destruct u. injection Hv as <-.
  apply negb_false_iff, bool_decide_eq_true in Hd.
  rewrite !orb_false_iff, !negb_false_iff, !String.eqb_eq in Hc. split_and!; try done; [|naive_solver..].
  intros current Hown. rewrite Hown in Hid. apply orb_false_iff in Hid as [Hp Hb].
  apply negb_false_iff, String.eqb_eq in Hp. by apply negb_false_iff, bool_decide_eq_true in Hb.
Qed.

Lemma metadata_historical bytes issuer request subject reply now v h :
  verify_issuer_metadata bytes issuer request subject reply now = Ok v ->
  verified_value v = Some (ValueIssuerKey h) ->
  issuer_state h <> IssuerActive /\ exists vk, issuer_verifying_key h = Ok vk.
Proof.
  intros Hm Hv. pose proof (accepted_value_answers _ _ _ _ _ _ _ _ Hm Hv) as Hans.
  unfold answers in Hans. destruct (metadata_query request); naive_solver.
Qed.

Lemma coverage_ready_ok epoch s now s' :
  coverage_ready epoch s now = Ok s' ->
  revocation_pending_epoch s = Some epoch /\
  s' = s <| revocation_predecessor_epoch :=
              if revocation_covered s then revocation_epoch s else None |>
         <| revocation_epoch := Some epoch |>
         <| revocation_pending_epoch := None |>
         <| revocation_covered := true |>.
Proof.
  unfold coverage_ready. destruct (_ || _) eqn:Hc; [done|]. intros [= <-].
  apply orb_false_iff in Hc as [Hc _]. by apply negb_false_iff, bool_decide_eq_true in Hc.
Qed.

Lemma step_wf t s t' s' : owner_step (t, s) (t', s') -> owner_wf s -> owner_wf s'.
Proof.
  intros Hstep Hwf. inversion Hstep as
    [? ? r ? ? Hle Hr|? ? r ? Hle|? ? ? ? ? ? ? ? ? ? Hm Hv|? ? ? ? ? ? ? ? Hle Hle' Hp
    |? ? ?|? ? ? ? ? Hle Hr|? ? ? ?|? ?|? ? ?]; subst.
  - by eapply rotation_wf.
  - by apply revocation_wf.
  - destruct (metadata_historical _ _ _ _ _ _ _ _ Hm Hv). by apply historical_wf.
  - apply promote_own_ok in Hp as (-> & _ & _ & Hrt & Hsk & Hin & Hac & Hcur).
    apply assert_current_ok in Hcur as [Hlive _].
    destruct Hwf; split; try done. cbn. intros v [= <-]. done.
  - by destruct Hwf.
  - apply coverage_ready_ok in Hr as [_ ->]. by destruct Hwf.
  - destruct Hwf. unfold coverage_drop. cbn zeta. cbn [revocation_epoch modify].
    destruct (bool_decide (revocation_epoch s = Some epoch)); by split.
  - destruct Hwf. by split.
  - destruct Hwf. unfold fence_revocation_coverage. cbn zeta. cbn [revocation_epoch modify].
    destruct (revocation_epoch s) as [epoch|] eqn:He; [destruct (connected epoch)|];
      split; cbn; try done. by rewrite He in *.
Qed.

Notation owner_steps := (rtc owner_step).

Lemma owner_steps_invariant (P : Z -> OwnerState -> Prop) :
  (forall t s t' s', owner_step (t, s) (t', s') -> P t s -> P t' s') ->
  forall c c', owner_steps c c' -> P (fst c) (snd c) -> P (fst c') (snd c').
Proof.
  intros Hstep c c'. induction 1 as [|[t s] [t1 s1] c2 Hone _ IH]; [done|]. intros HP.
  apply IH. by eapply Hstep.
Qed.

Lemma new_wf trust runtime key s :
  owner_new trust runtime key = Ok (owner, s) -> owner_wf s.
Proof.
  unfold owner_new, protocol. intros Hn. peel Hn as vk Hk. peel Hn as Hc. injection Hn as Ho <-.
  rewrite !orb_false_iff, !negb_false_iff in Hc. destruct Hc as ((((Ha & _) & _) & _) & _).
  apply bool_decide_eq_true in Ha. split; cbn; try done.
  - by rewrite lookup_singleton_eq.
  - intros id k [<- <-]%lookup_singleton_Some. eauto.
  - by intros id k [<- _]%lookup_singleton_Some _ [].
  - rewrite map_size_singleton, map_size_empty. split; [|lia].
    change MAX_ISSUERS with 256%nat. lia.
  - rewrite <- Ho. cbn. lia.
Qed.

(** The chain of issuers is further along, or where it was with the same current issuer. *)
Definition chain_from s (_ : Z) s' : Prop :=
  (installed_sequence s < installed_sequence s')%N \/
  (installed_sequence s' = installed_sequence s /\ current_issuer s' = current_issuer s).

Lemma step_chain s0 t s t' s' :
  owner_step (t, s) (t', s') -> chain_from s0 t s -> chain_from s0 t' s'.
Proof.
  unfold chain_from. intros Hstep Hs. inversion Hstep as
    [? ? r ? ? Hle Hr|? ? r ? Hle|? ? ? ? ? ? ? ? h ? Hm Hv|? ? ? ? ? ? ? ? Hle Hle' Hp
    |? ? ?|? ? ? ? ? Hle Hr|? ? ? ?|? ?|? ? ?]; subst; try done.
  - apply accept_issuer_rotation_ok in Hr as (next & _ & Hv & _ & ->).
    apply verify_successor_ok in Hv as (_ & _ & Hseq & _). cbn. left.
    destruct Hs as [?|[? _]]; lia.
  - by destruct (accept_revocation_fields s t' r) as (-> & -> & _).
  - by destruct (install_historical_ok s h) as [->|[-> _]].
  - by apply promote_own_ok in Hp as [-> _].
  - by apply coverage_ready_ok in Hr as [_ ->].
  - unfold coverage_drop. cbn zeta. cbn [revocation_epoch modify].
    by destruct (bool_decide (revocation_epoch s = Some epoch)).
  - unfold fence_revocation_coverage. cbn zeta. cbn [revocation_epoch modify].
    destruct (revocation_epoch s) as [epoch|]; [destruct (connected epoch)|]; done.
Qed.

(** C28: the owner's state stays consistent.  From a new owner, through any sequence of
    rotations, revocations, historical keys, promotions and changes of the mirror, the
    current issuer is installed, active and unretired, every key is filed under its own
    content address and is a valid key, every other active key has a retirement deadline,
    no table exceeds its capacity, coverage means a mirror, and the own authority is a live
    one of this runtime and installation.  The chain position starts at the pin and never
    goes back, and the current issuer changes only as the position advances. *)
Theorem owner_stays_consistent trust runtime key s0 t0 t s t' s' :
  owner_new trust runtime key = Ok (owner, s0) ->
  owner_steps (t0, s0) (t, s) -> owner_steps (t, s) (t', s') ->
  owner_wf s' /\ (installed_sequence s <= installed_sequence s')%N
  /\ (installed_sequence s' = installed_sequence s -> current_issuer s' = current_issuer s).
Proof.
  intros Hn%new_wf Hs Hs'.
  pose proof (owner_steps_invariant (fun _ => owner_wf) step_wf _ _ (transitivity Hs Hs') Hn) as Hwf.
  pose proof (owner_steps_invariant (chain_from s) (step_chain s) _ _ Hs') as Hchain. cbn in Hchain.
  destruct Hchain as [Hlt|[Heq Hc]]; [by right|..]; (split_and!; [done|lia|]); [lia|done].
Qed.

(** ** Revocation is sticky *)

(** A session is shut out until [deadline]: its revocation is on record until then, or
    there were too many to record, or the time has passed. *)
Definition shut_out (session : string) (deadline : Z) t s : Prop :=
  (deadline <= t)%Z \/ (deadline <= revocation_overflow_until s)%Z \/
  exists r, revocations s !! session = Some r /\ (deadline <= latest_context_expiry r)%Z.

Lemma accept_revocation_shut_out session deadline t now r s :
  (t <= now)%Z -> shut_out session deadline t s ->
  shut_out session deadline now (fst (accept_revocation owner s now r)).
Proof.
  intros Ht [Hd|[Ho|(known & Hl & Hk)]]; [left; lia| |].
  - right; left. unfold accept_revocation. cbn zeta. repeat (case_match; cbn; try done). lia.
  - destruct (Z.le_gt_cases deadline now) as [|Hnow]; [by left|]. right; right.
    unfold accept_revocation. destruct (state_issuer _ _ _) as [issuer|]; [|by exists known].
    destruct (verify_revocation _ _ _ _) as [u|]; [|by exists known]. cbn -[Nat.ltb].
    set (kept := filter _ (revocations s)).
    assert (kept !! session = Some known) as Hkept
      by (apply map_lookup_filter_Some; split; [done|cbn; lia]).
    clearbody kept. case_match; cbn -[Nat.ltb]; [by exists known|].
    destruct (decide (session = revocation_session_id r)) as [->|Hne].
    + rewrite Hkept. case_match; cbn; [by exists known|].
      case_match; cbn; [|by exists known]. exists r. rewrite lookup_insert_eq. split; [done|lia].
    + exists known. split; [|done]. repeat (case_match; cbn -[Nat.ltb]; try done);
        by rewrite lookup_insert_ne.
Qed.

Lemma step_shut_out session deadline t s t' s' :
  owner_step (t, s) (t', s') -> shut_out session deadline t s -> shut_out session deadline t' s'.
Proof.
  intros Hstep. inversion Hstep as
    [? ? r ? ? Hle Hr|? ? r ? Hle|? ? ? ? ? ? ? ? h ? Hm Hv|? ? ? ? ? ? ? ? Hle Hle' Hp
    |? ? ?|? ? ? ? ? Hle Hr|? ? ? ?|? ?|? ? ?]; subst; unfold shut_out.
  - apply accept_issuer_rotation_ok in Hr as (next & _ & _ & _ & ->). cbn.
    intros [?|?]; [left; lia|by right].
  - by apply accept_revocation_shut_out.
  - destruct (install_historical_ok s h) as [->|[-> _]]; cbn; intros [?|?]; try (left; lia); by right.
  - apply promote_own_ok in Hp as [-> _]. cbn. intros [?|?]; [left; lia|by right].
  - done.
  - apply coverage_ready_ok in Hr as [_ ->]. cbn. intros [?|?]; [left; lia|by right].
  - unfold coverage_drop. cbn zeta. cbn [revocation_epoch modify].
    by destruct (bool_decide (revocation_epoch s = Some epoch)).
  - done.
  - unfold fence_revocation_coverage. cbn zeta. cbn [revocation_epoch modify].
    destruct (revocation_epoch s) as [epoch|]; [destruct (connected epoch)|]; done.
Qed.

Lemma shut_out_rejects session deadline t s now v :
  shut_out session deadline t s -> (t <= now)%Z ->
  authorization_session_id (verified_authority v) = session ->
  (expires_at (verified_authority v) <= deadline)%Z ->
  overflowing s now = true \/ assert_current v (owner_policy now) (known_revoked s v) <> Ok tt.
Proof.
  intros Hs Ht Hid Hexp. destruct (overflowing s now) eqn:Ho; [by left|right].
  apply Z.ltb_ge in Ho. intros (_ & Hr & _ & _ & Hlt)%assert_current_ok. cbn in Hlt.
  destruct Hs as [?|[?|(r & Hl & _)]]; [lia|lia|].
  unfold known_revoked in Hr. rewrite Hid, Hl in Hr. by apply bool_decide_eq_false in Hr; destruct Hr.
Qed.

(** What a decision that accepts an authority has checked. *)
Lemma owner_assert_current_ok s now v :
  owner_assert_current owner s now v = Ok tt ->
  revocation_covered s = true /\
  trellis_instance_id (verified_authority v) = trust_instance_id (owner_trust owner) /\
  audience_nats_account (verified_authority v) = trust_account (owner_trust owner) /\
  overflowing s now = false /\
  issuer_active s (issuer_key_id (verified_authority v)) now = true /\
  (runtime_id (verified_authority v) = owner_runtime_id owner ->
   session_public_key (verified_authority v) = owner_session_public_key owner ->
   verified_digest <$> own s = Some (verified_digest v)) /\
  assert_current v (owner_policy now) (known_revoked s v) = Ok tt.
Proof.
  unfold owner_assert_current, require_live_coverage, protocol. intros Hv. peel Hv as Hc.
  peel Hv as Hx. apply map_err_ok in Hv. apply negb_false_iff in Hc.
  rewrite !orb_false_iff, !negb_false_iff, !String.eqb_eq in Hx.
  destruct Hx as ((((Hi & Ha) & Hown) & Ho) & Hact). split_and!; try done.
  intros Hr Hk. rewrite Hr, Hk, !String.eqb_refl in Hown. cbn in Hown.
  by apply negb_false_iff, bool_decide_eq_true in Hown.
Qed.

(** Revocation is sticky.  Once a session's verified revocation has been taken in, even
    when there was no room left to record it, no authority of that session that expires by
    the revocation's final deadline is found current, at any later time and after any
    sequence of steps, nor is it the owner's own authority.  Only a revocation that
    conflicts with a recorded cutoff is refused instead. *)
Theorem revocation_sticks s now r t' s' v later :
  snd (accept_revocation owner s now r) = Ok tt \/
  snd (accept_revocation owner s now r) = unavailable "revocation capacity reached" ->
  owner_steps (now, fst (accept_revocation owner s now r)) (t', s') -> (t' <= later)%Z ->
  authorization_session_id (verified_authority v) = revocation_session_id r ->
  (expires_at (verified_authority v) <= latest_context_expiry r)%Z ->
  owner_assert_current owner s' later v <> Ok tt /\
  staged_own_authority s' later <> Ok v.
Proof.
  intros Hres Hsteps Hlater Hid Hexp.
  assert (shut_out (revocation_session_id r) (latest_context_expiry r) now
            (fst (accept_revocation owner s now r))) as Hout.
  { revert Hres. unfold accept_revocation, shut_out. destruct (state_issuer _ _ _); [|by intros [|]].
    destruct (verify_revocation _ _ _ _); [|by intros [|]]. cbn -[Nat.ltb].
    set (kept := filter _ (revocations s)). clearbody kept.
    destruct (Z.leb_spec (latest_context_expiry r) now); cbn -[Nat.ltb]; [by left|].
    destruct (kept !! revocation_session_id r) as [known|] eqn:Hl.
    - case_match; cbn; [by intros [|]|].
      destruct (Z.ltb_spec (latest_context_expiry known) (latest_context_expiry r)); cbn; intros _;
        right; right; [exists r; by rewrite lookup_insert_eq|by exists known].
    - destruct (Nat.ltb _ _); cbn; intros _; [right; right; exists r; by rewrite lookup_insert_eq|].
      right; left. lia. }
  pose proof (owner_steps_invariant (shut_out (revocation_session_id r) (latest_context_expiry r))
    (step_shut_out _ _) _ _ Hsteps Hout) as Hout'. cbn in Hout'.
  pose proof (shut_out_rejects _ _ _ _ later v Hout' Hlater Hid Hexp) as Hrej. split.
  - intros (_ & _ & _ & Ho & _ & _ & Hcur)%owner_assert_current_ok. destruct Hrej; congruence.
  - unfold staged_own_authority, protocol. intros Hs. peel Hs as v' Hv. peel Hs as Ho.
    peel Hs as u Hcur. do 2 skip Hs. injection Hs as ->. destruct u.
    destruct Hrej; [congruence|done].
Qed.

(** ** Retirement is final *)

(** A key that has been succeeded, with the deadline of its retirement. *)
Definition succeeded (id : string) (deadline : Z) (position : N) (_ : Z) s : Prop :=
  is_Some (issuers s !! id) /\ issuer_retirements s !! id = Some deadline /\
  id <> key_id (current_issuer s) /\ (position <= installed_sequence s)%N.

Lemma step_succeeded id deadline position t s t' s' :
  owner_step (t, s) (t', s') -> succeeded id deadline position t s ->
  succeeded id deadline position t' s'.
Proof.
  unfold succeeded. intros Hstep (Hi & Hd & Hne & Hp). inversion Hstep as
    [? ? r ? ? Hle Hr|? ? r ? Hle|? ? ? ? ? ? ? ? h ? Hm Hv|? ? ? ? ? ? ? ? Hle Hle' Hpr
    |? ? ?|? ? ? ? ? Hle Hr|? ? ? ?|? ?|? ? ?]; subst.
  - apply accept_issuer_rotation_ok in Hr as (next & _ & Hv & Hnew & ->).
    apply verify_successor_ok in Hv as (_ & _ & Hseq & _). cbn.
    assert (id <> key_id next) by (intros ->; rewrite Hnew in Hi; by apply is_Some_None in Hi).
    rewrite !lookup_insert_ne by done. split_and!; try done. lia.
  - destruct (accept_revocation_fields s t' r) as (-> & -> & -> & -> & _). done.
  - destruct (install_historical_ok s h) as [->|[-> _]]; [done|]. cbn. split_and!; try done.
    apply lookup_insert_is_Some'. by right.
  - by apply promote_own_ok in Hpr as [-> _].
  - done.
  - by apply coverage_ready_ok in Hr as [_ ->].
  - unfold coverage_drop. cbn zeta. cbn [revocation_epoch modify].
    by destruct (bool_decide (revocation_epoch s = Some epoch)).
  - done.
  - unfold fence_revocation_coverage. cbn zeta. cbn [revocation_epoch modify].
    destruct (revocation_epoch s) as [epoch|]; [destruct (connected epoch)|]; done.
Qed.

(** An issuer's retirement is final.  After the owner accepts a rotation, the position
    is one further and the new key is the current issuer; and whatever happens later, from
    the signed deadline on the key that was succeeded is never active again, no authority it
    signed is found current, and no rotation up to that position is accepted again. *)
Theorem retirement_is_final s now r s1 t' s' later :
  owner_wf s -> accept_issuer_rotation owner s now r = Ok s1 ->
  owner_steps (now, s1) (t', s') -> (rotation_previous_retired_at r <= later)%Z ->
  installed_sequence s1 = (installed_sequence s + 1)%N /\
  key_id (current_issuer s1) = rotation_next_key_id r /\
  issuer_active s' (key_id (current_issuer s)) later = false /\
  (forall v, issuer_key_id (verified_authority v) = key_id (current_issuer s) ->
     owner_assert_current owner s' later v <> Ok tt) /\
  (forall r' now', (rotation_sequence r' <= installed_sequence s1)%N ->
     forall s2, accept_issuer_rotation owner s' now' r' <> Ok s2).
Proof.
  intros Hwf (next & _ & Hv & Hnew & ->)%accept_issuer_rotation_ok Hsteps Hlater.
  apply verify_successor_ok in Hv as (_ & _ & Hseq & _ & _ & Hnext & Hne & _).
  pose proof (owner_current _ Hwf) as (Hc & _ & _).
  pose proof (owner_steps_invariant (succeeded (key_id (current_issuer s))
    (rotation_previous_retired_at r) (rotation_sequence r)) (step_succeeded _ _ _) _ _ Hsteps) as Hs.
  cbn in Hs. destruct Hs as ([k Hk] & Hd & _ & Hpos).
  { unfold succeeded. cbn. rewrite lookup_insert_eq, lookup_insert_ne, Hc by done.
    split_and!; [by eexists|done|by apply not_eq_sym|lia]. }
  assert (issuer_active s' (key_id (current_issuer s)) later = false) as Hact.
  { unfold issuer_active, state_issuer. rewrite Hk, Hd, (proj2 (Z.leb_le _ _) Hlater), andb_true_r.
    apply bool_decide_eq_false. destruct (bool_decide (issuer_state k = IssuerActive)) eqn:Hb; [done|].
    by apply bool_decide_eq_false in Hb. }
  cbn. split_and!; [done|by subst next|done| |].
  - intros v Hid (_ & _ & _ & _ & Ha & _)%owner_assert_current_ok. congruence.
  - intros r' now' Hr' s2 (next' & _ & Hv' & _)%accept_issuer_rotation_ok.
    apply verify_successor_ok in Hv' as (_ & _ & Hs' & _). lia.
Qed.

(** ** Coverage *)

(** No mirror covers the owner and none is being prepared. *)
Definition coverage_lost (_ : Z) s : Prop :=
  revocation_covered s = false /\ revocation_epoch s = None /\ revocation_pending_epoch s = None.

(** A step that does not prepare a mirror. *)
Definition unstaged_step (c c' : Z * OwnerState) : Prop :=
  owner_step c c' /\ forall epoch, snd c' <> stage_coverage epoch (snd c).

Lemma unstaged_lost c c' :
  unstaged_step c c' -> coverage_lost (fst c) (snd c) -> coverage_lost (fst c') (snd c').
Proof.
  unfold coverage_lost. intros [Hstep Hst] (Hc & He & Hp). inversion Hstep as
    [? ? r ? ? Hle Hr|? ? r ? Hle|? ? ? ? ? ? ? ? h ? Hm Hv|? ? ? ? ? ? ? ? Hle Hle' Hpr
    |? epoch ?|? ? ? ? ? Hle Hr|? ? ? ?|? ?|? ? ?]; subst; cbn in *.
  - apply accept_issuer_rotation_ok in Hr as (next & _ & _ & _ & ->). done.
  - destruct (accept_revocation_fields s now r) as (_ & _ & _ & _ & _ & -> & -> & ->). done.
  - destruct (install_historical_ok s h) as [->|[-> _]]; done.
  - by apply promote_own_ok in Hpr as [-> _].
  - by destruct (Hst epoch).
  - apply coverage_ready_ok in Hr as [Hr _]. congruence.
  - unfold coverage_drop. cbn zeta. cbn [revocation_epoch modify]. rewrite He. cbn. by rewrite Hp.
  - done.
  - unfold fence_revocation_coverage. cbn zeta. cbn [revocation_epoch modify]. by rewrite He.
Qed.

(** Lost coverage comes back only with a new mirror.  When the runtime closes, or is
    fenced while the mirror's transport is down, no authority is found current, own or
    peer's, for as long as no mirror is prepared afterwards: a snapshot that was already
    under way, on any transport, cannot complete any more, and no other step restores
    coverage. *)
Theorem coverage_needs_a_new_mirror s t c' connected s0 :
  s0 = retire_revocation_coverage s \/
  (s0 = fence_revocation_coverage connected s /\
   forall epoch, revocation_epoch s = Some epoch -> connected epoch = false) ->
  rtc unstaged_step (t, s0) c' ->
  (forall now v, owner_assert_current owner (snd c') now v <> Ok tt) /\
  (forall s1 now now' v, own_authority owner s1 now (snd c') now' <> Ok v) /\
  (forall epoch now s', coverage_ready epoch (snd c') now <> Ok s').
Proof.
  intros Hlost Hsteps. assert (coverage_lost (fst c') (snd c')) as (Hc & He & Hp).
  { assert (coverage_lost t s0) as Hlost'.
    { destruct Hlost as [->|[-> Hcon]]; [done|]. unfold coverage_lost, fence_revocation_coverage.
      cbn zeta. cbn [revocation_epoch modify]. destruct (revocation_epoch s) as [epoch|]; [|done].
      by rewrite (Hcon epoch eq_refl). }
    clear Hlost. remember (t, s0) as c eqn:Hceq.
    assert (coverage_lost (fst c) (snd c)) as Hl by by subst c. clear Hceq Hlost'.
    induction Hsteps as [|c c1 c2 Hone _ IH]; [done|]. apply IH. by eapply unstaged_lost. }
  assert (forall now v, owner_assert_current owner (snd c') now v <> Ok tt) as Hno.
  { intros now v (Hcov & _)%owner_assert_current_ok. congruence. }
  split_and!; [done| |].
  - intros s1 now now' v Hv. unfold own_authority in Hv. skip Hv. peel Hv as u Hu. destruct u.
    by eapply Hno.
  - intros epoch now s' [Hr _]%coverage_ready_ok. congruence.
Qed.
End safety.

(** ** Evaluated examples *)

Local Existing Instances rfc4648 rfc4648_laws sample_sha256 sample_ed25519 sample_ed25519_laws
  sample_ulid sample_url.

Definition sample_rotation_unsigned : SignedIssuerRotation := {|
  rotation_format := ISSUER_ROTATION_FORMAT_V1;
  rotation_instance_id := sample_id;
  rotation_nats_account := "ACCOUNT";
  rotation_sequence := 1;
  rotation_previous_key_id := sample_issuer_id;
  rotation_next_key_id := key_id sample_historical;
  rotation_next_public_key := public_key sample_historical;
  rotation_activated_at := 100;
  rotation_previous_retired_at := 300;
  rotation_extensions := [];
  rotation_critical := [];
  rotation_signature := "";
|}.

Definition sample_revocation_unsigned : SignedSessionRevocation := {|
  revocation_format := SESSION_REVOCATION_FORMAT_V1;
  revocation_issuer_key_id := sample_issuer_id;
  revocation_instance_id := sample_id;
  revocation_nats_account := "ACCOUNT";
  revocation_session_id := sample_id;
  effective_cutoff := 100;
  revocation_reason := "logout";
  revocation_issued_at := 150;
  latest_context_expiry := 500;
  revocation_extensions := [];
  revocation_critical := [];
  revocation_signature := "";
|}.

Definition sample_chain_parts : list Json :=
  [signed_part sample_rotation_unsigned; signed_part sample_revocation_unsigned].

Definition sample_rotation : SignedIssuerRotation :=
  Eval vm_compute in sample_sign sample_chain_parts sample_rotation_unsigned.

Definition sample_revocation : SignedSessionRevocation :=
  Eval vm_compute in sample_sign sample_chain_parts sample_revocation_unsigned.

Definition sample_trust : AuthorizationTrust := {|
  trust_instance_id := sample_id;
  trust_account := "ACCOUNT";
  trust_issuer := issuer_of sample_signer IssuerActive;
  trust_rotation_sequence := 0;
|}.

Definition sample_owner : Owner := {|
  owner_trust := sample_trust;
  owner_runtime_id := "AAAAAAAAAAAAAAAAAAAAAA";
  owner_session_public_key := sample_session_key;
|}.

(** The state of the new owner. *)
Definition sample_owner_state : OwnerState :=
  match owner_new sample_trust "AAAAAAAAAAAAAAAAAAAAAA" sample_session_key with
  | Ok (_, s) => s
  | Err _ => mkOwnerState (trust_issuer sample_trust) 0 ∅ ∅ None ∅ 0 None None None false
  end.

(** An authority of the revoked session. *)
Definition sample_held : VerifiedSessionAuthority := {|
  verified_signed := sample_signed;
  verified_digest := sample_zeros;
  verified_session_key := verifying_key sample_signer;
  verified_purpose := PurposeLive;
  verified_revocation_cutoff := None;
|}.

Section examples.
Let canonical : CanonicalJson :=
  canonical_table (sample_chain_parts
                   ++ [rotation_json sample_rotation; revocation_json sample_revocation])%list.
Let no_codec {A} : JsonCodec A :=
  {| to_vec := fun _ => Err "unsupported"; from_slice := fun _ => Err "unsupported" |}.
Let codec1 : JsonCodec Json := no_codec.
Let codec2 : JsonCodec SignedIssuerMetadata := no_codec.
Let codec3 : JsonCodec AuthorityIssuerKey := no_codec.
Let codec4 : JsonCodec AuthorityMaterial := no_codec.
Let codec5 : JsonCodec AuthorizationSessionStatus := no_codec.
Let codec6 : JsonCodec IssuerChain := no_codec.
Local Existing Instances canonical codec1 codec2 codec3 codec4 codec5 codec6.

Lemma sample_new :
  owner_new sample_trust "AAAAAAAAAAAAAAAAAAAAAA" sample_session_key
  = Ok (sample_owner, sample_owner_state).
Proof. vm_compute. reflexivity. Qed.

Lemma owner_stays_consistent_witness :
  exists s, accept_issuer_rotation sample_owner (stage_coverage 1 sample_owner_state) 200
      sample_rotation = Ok s
    /\ owner_wf sample_owner s /\ (0 <= installed_sequence s)%N.
Proof.
  destruct (accept_issuer_rotation sample_owner (stage_coverage 1 sample_owner_state) 200
    sample_rotation) as [s|e] eqn:Hr; [|vm_compute in Hr; discriminate].
  destruct (owner_stays_consistent sample_owner sample_trust _ _ sample_owner_state 0 0
    (stage_coverage 1 sample_owner_state) 200 s sample_new) as (Hwf & Hseq & _).
  - apply rtc_once, step_stage.
  - by eapply rtc_once, step_rotation.
  - exists s. split; [done|]. exact (conj Hwf Hseq).
Defined.

Lemma revocation_sticks_witness :
  owner_assert_current sample_owner
    (fst (accept_revocation sample_owner sample_owner_state 200 sample_revocation)) 250 sample_held
  <> Ok tt.
Proof.
  assert (snd (accept_revocation sample_owner sample_owner_state 200 sample_revocation) = Ok tt)
    as Hok by (vm_compute; reflexivity).
  apply (revocation_sticks sample_owner sample_owner_state 200 sample_revocation 200 _ sample_held 250
    (or_introl Hok) (rtc_refl _ _)); [lia|reflexivity|vm_compute; discriminate].
Defined.

Lemma retirement_is_final_witness :
  exists s, accept_issuer_rotation sample_owner sample_owner_state 200 sample_rotation = Ok s /\
    issuer_active s sample_issuer_id 300 = false.
Proof.
  destruct (accept_issuer_rotation sample_owner sample_owner_state 200 sample_rotation) as [s|e]
    eqn:Hr; [|vm_compute in Hr; discriminate].
  exists s. split; [reflexivity|].
  pose proof (retirement_is_final sample_owner sample_owner_state 200 sample_rotation s 200 s 300
    (new_wf sample_owner _ _ _ _ sample_new) Hr (rtc_refl _ _) ltac:(vm_compute; discriminate))
    as (_ & _ & Hact & _).
  exact Hact.
Defined.

Lemma coverage_needs_a_new_mirror_witness :
  owner_assert_current sample_owner
    (retire_revocation_coverage (stage_coverage 1 sample_owner_state)) 250 sample_held <> Ok tt.
Proof.
  apply (proj1 (coverage_needs_a_new_mirror sample_owner (stage_coverage 1 sample_owner_state) 0
    (0%Z, retire_revocation_coverage (stage_coverage 1 sample_owner_state)) (fun _ => true) _
    (or_introl eq_refl) (rtc_refl _ _))).
Defined.
End examples.
