(* ===== verification/OwnerTasks.v ===== *)
(** * Tasks of the authority owner

    The asynchronous operations of [AuthorizationOwner]
    ([crates/trellis/src/client/authorization/provider_cache.rs]) and the registry reads
    they make ([registry.rs]).  A task runs interleaved with the other tasks of the runtime:
    whenever it waits, and before each time it takes the lock, they may have changed what is
    shared.  An operation is a function of what is shared and of the environment, which
    plays the other tasks, the clock, the broker and the timers. *)

From Stdlib Require Import Ascii String.
From S2P Require Import Prelude RustStr Extern Json Transcript Base64 Protocol Wire.
From S2P Require Import Authorization Identifiers Permissions SessionAuthority Catalog.
From S2P Require Import SessionMessages VerificationCore IssuerMetadata AuthorizationOwner.

Local Open Scope string_scope.

Local Existing Instance json_tree.

Definition MAX_CACHED_MATERIAL : nat := 256.

Definition ISSUER_METADATA_SUBJECT : string := "trellis.auth.metadata.get".

(** ** Material *)

Inductive MaterialKind := KindAuthority | KindCatalog | KindProvider.

Inductive UnverifiedMaterial :=
| UnverifiedAuthority (authority : SignedSessionAuthority)
| UnverifiedCatalog (catalog : SignedCatalogSnapshot)
| UnverifiedProvider (certificate : SignedProviderCertificate).

Inductive RegistryMaterial :=
| MaterialAuthority (authority : SignedSessionAuthority)
| MaterialCatalog (catalog : Authenticated SignedCatalogSnapshot)
| MaterialProvider (certificate : Authenticated SignedProviderCertificate).

Global Instance MaterialKind_eq_dec : EqDecision MaterialKind.
Proof. solve_decision. Defined.

Definition kind_index (kind : MaterialKind) : nat :=
  match kind with KindAuthority => 0 | KindCatalog => 1 | KindProvider => 2 end.

Definition kind_of_index (n : nat) : option MaterialKind :=
  match n with
  | 0 => Some KindAuthority
  | 1 => Some KindCatalog
  | 2 => Some KindProvider
  | _ => None
  end%nat.

Global Instance MaterialKind_countable : Countable MaterialKind.
Proof. refine (inj_countable kind_index kind_of_index _). by intros []. Defined.

(** [UnverifiedMaterial::issuer_key_id] *)
Definition material_issuer_key_id (m : UnverifiedMaterial) : string :=
  match m with
  | UnverifiedAuthority authority => issuer_key_id (unsigned authority)
  | UnverifiedCatalog catalog => snapshot_issuer_key_id catalog
  | UnverifiedProvider certificate => cert_issuer_key_id certificate
  end.

Notation MaterialKey := (MaterialKind * string)%type.

(** A [OnceCell] of the cache: the material it is for, and its content once it is
    initialized. *)
Record Cell := mkCell {
  cell_key : MaterialKey;
  cell_value : option (result RegistryMaterial string);
}.

(** [CacheEntry]: a cell is its position in the table of cells. *)
Record CacheEntry := mkCacheEntry {
  entry_cell : nat;
  entry_last_used : N;
}.

(** ** What the tasks share *)

Section shared.
Context `{Ed25519}.

(** The clock, [OwnerState] with its cache, the cells and the free permits of
    [metadata_reads]. *)
Record Shared := mkShared {
  sh_clock : Z;
  sh_owner : OwnerState;
  sh_material : gmap MaterialKey CacheEntry;
  sh_cells : list Cell;
  sh_permits : nat;
}.

#[global] Instance Shared_settable : Settable Shared := fun s =>
  {| sh_clock := sh_clock s; sh_owner := sh_owner s; sh_material := sh_material s;
     sh_cells := sh_cells s; sh_permits := sh_permits s |}.

(** What a task does not control.  [env_turn]: the other tasks run.  [env_lapse]: the
    seconds that pass before the clock is read.  [env_elapsed]: whether a timeout ends the
    wait, and how many timeouts within it are abandoned.  [env_held]: whether a cell or its
    material is referenced outside the cache.  The others are the answers of the broker, the
    random bytes and the channel of changes. *)
Class Environment := {
  Env : Type;
  env_turn : Shared * Env -> Shared * Env;
  env_lapse : Env -> N * Env;
  env_elapsed : Env -> option nat;
  env_instant : Env -> N;
  env_held : Env -> nat -> bool;
  env_bucket : Env -> bool;
  env_get : Env -> string -> result (option string) unit;
  env_random : Env -> string;
  env_inbox : Env -> string;
  env_connected : Env -> bool;
  env_reply : Env -> option string;
  env_changes_closed : Env -> bool;
}.
End shared.

(** Why an operation ends without a result: an error, or a timeout around it, with the
    number of timeouts in between. *)
Inductive Fault :=
| Failed (error : OwnerError)
| Elapsed (depth : nat).

Section tasks.
Context `{Base64Url, Sha256, Ed25519, UlidParser, UrlParser} `{!CanonicalJson}.
Context `{!Environment}.

Definition Task (T : Type) : Type := Shared * Env -> result T Fault * (Shared * Env).

Definition ret {T} (t : T) : Task T := fun w => (Ok t, w).

Definition bind {T U} (m : Task T) (k : T -> Task U) : Task U := fun w =>
  match m w with
  | (Ok t, w') => k t w'
  | (Err e, w') => (Err e, w')
  end.

(** [return Err(..)] and [?] *)
Definition fail {T} (e : OwnerError) : Task T := fun w => (Err (Failed e), w).

Definition lift {T} (r : result T OwnerError) : Task T := fun w => (map_err Failed r, w).

(** The outcome as a value; a timeout still ends the operation. *)
Definition attempt {T} (m : Task T) : Task (result T OwnerError) := fun w =>
  match m w with
  | (Ok t, w') => (Ok (Ok t), w')
  | (Err (Failed e), w') => (Ok (Err e), w')
  | (Err (Elapsed n), w') => (Err (Elapsed n), w')
  end.

(** [tokio::time::timeout(RESOLUTION_TIMEOUT, m)], its elapsing turned into an error. *)
Definition timeout {T} (message : string) (m : Task T) : Task T := fun w =>
  match m w with
  | (Err (Elapsed O), w') => (Err (Failed (AuthorizationUnavailable message)), w')
  | (Err (Elapsed (S n)), w') => (Err (Elapsed n), w')
  | r => r
  end.

Definition observe {T} (f : Env -> T) : Task T := fun w => (Ok (f (snd w)), w).

(** Wait: the other tasks run, and a timeout may end the wait. *)
Definition await : Task unit := fun w =>
  let w' := env_turn w in
  match env_elapsed (snd w') with
  | Some n => (Err (Elapsed n), w')
  | None => (Ok tt, w')
  end.

(** Take the lock of the owner's state. *)
Definition lock : Task OwnerState := fun w =>
  let w' := env_turn w in (Ok (sh_owner (fst w')), w').

(** Write the state while the lock is held. *)
Definition put (s : OwnerState) : Task unit := fun w =>
  (Ok tt, (fst w <| sh_owner := s |>, snd w)).

(** [self.policy().now_unix_seconds]; the wall clock is taken not to go back. *)
Definition policy_now : Task Z := fun w =>
  let '(lapse, e) := env_lapse (snd w) in
  let now := (sh_clock (fst w) + Z.of_N lapse)%Z in
  (Ok now, (fst w <| sh_clock := now |>, e)).
End tasks.

Notation "'let!' x := m 'in' k" := (bind m (fun x => k))
  (at level 200, x pattern, m at level 100, k at level 200, right associativity).

Section operations.
Context `{Base64Url, Sha256, Ed25519, UlidParser, UrlParser} `{!CanonicalJson}.
Context `{JsonCodec Json, JsonCodec SignedIssuerMetadata, JsonCodec AuthorityIssuerKey}.
Context `{JsonCodec AuthorityMaterial, JsonCodec AuthorizationSessionStatus, JsonCodec IssuerChain}.
Context `{JsonCodec SignedSessionAuthority, JsonCodec SignedCatalogSnapshot}.
Context `{JsonCodec SignedProviderCertificate, JsonCodec SignedIssuerRotation}.
Context `{JsonCodec IssuerMetadataRequest}.
Context `{!Environment}.
Context (owner : Owner).

Definition json {T} (r : result T string) : result T OwnerError := map_err OwnerJsonError r.

(** ** Registry reads *)

(** [AuthorizationRegistryReader::read] *)
Definition registry_read (key : string) (maximum_bytes : N) : Task (option string) :=
  let! _ := await in
  let! opened := observe env_bucket in
  if negb opened then fail (AuthorizationUnavailable "verification registry unavailable")
  else
    let! _ := await in
    let! answer := observe (fun e => env_get e key) in
    match answer with
    | Err _ => fail (AuthorizationUnavailable "verification registry read failed")
    | Ok None => ret None
    | Ok (Some value) =>
        if negb (String.eqb value "") && (N.of_nat (String.length value) <=? maximum_bytes)%N then
          ret (Some value)
        else fail (AuthorizationUnavailable "verification material exceeds size budget")
    end.

(** The decoding and the content address of fetched bytes. *)
Definition decode_material (kind : MaterialKind) (maximum_bytes : N) (bytes : string) :
    result UnverifiedMaterial OwnerError :=
  match kind with
  | KindAuthority =>
      let? authority := protocol (parse_session_authority bytes maximum_bytes) in
      Ok (UnverifiedAuthority authority)
  | KindCatalog => let? catalog := json (from_slice bytes) in Ok (UnverifiedCatalog catalog)
  | KindProvider =>
      let? certificate := json (from_slice bytes) in Ok (UnverifiedProvider certificate)
  end.

Definition material_digest (m : UnverifiedMaterial) : result string ProtocolError :=
  match m with
  | UnverifiedAuthority authority => authority_digest authority
  | UnverifiedCatalog catalog => record_digest catalog
  | UnverifiedProvider certificate => record_digest certificate
  end.

(** [AuthorizationRegistryReader::material] *)
Definition registry_material (kind : MaterialKind) (digest : string) : Task UnverifiedMaterial :=
  if negb (is_canonical 32 digest) then
    fail (AuthorizationUnavailable "invalid material digest")
  else
    let '(prefix, maximum_bytes) :=
      match kind with
      | KindAuthority => ("context", MAX_SESSION_AUTHORITY_BYTES)
      | KindCatalog => ("api", MAX_ADMISSION_RESPONSE_BYTES)
      | KindProvider => ("provider", MAX_ADMISSION_RESPONSE_BYTES)
      end in
    let! answer := registry_read (prefix +:+ "." +:+ digest) maximum_bytes in
    let! bytes := lift (ok_or answer
                          (AuthorizationUnavailable "verification material unavailable")) in
    let! m := lift (decode_material kind maximum_bytes bytes) in
    let! actual := lift (protocol (material_digest m)) in
    if negb (String.eqb actual digest) then
      fail (AuthorizationUnavailable "verification material digest mismatch")
    else ret m.

(** [AuthorizationRegistryReader::rotation] *)
Definition registry_rotation (sequence : N) : Task (option SignedIssuerRotation) :=
  let! answer := registry_read ("rotation." +:+ decimal sequence) MAX_SESSION_AUTHORITY_BYTES in
  match answer with
  | None => ret None
  | Some bytes => let! r := lift (json (from_slice bytes)) in ret (Some r)
  end.

(** ** Operations that take the lock once *)

(** Take the lock, read the clock and decide. *)
Definition reading {T} (f : OwnerState -> Z -> result T OwnerError) : Task T :=
  let! s := lock in
  let! now := policy_now in
  lift (f s now).

(** Take the lock, read the clock and write the state. *)
Definition writing {T} (f : OwnerState -> Z -> OwnerState * result T OwnerError) : Task T :=
  let! s := lock in
  let! now := policy_now in
  let '(s', outcome) := f s now in
  let! _ := put s' in
  lift outcome.

Definition run_accept_issuer_rotation (r : SignedIssuerRotation) : Task unit :=
  writing (fun s now =>
    match accept_issuer_rotation owner s now r with
    | Ok s' => (s', Ok tt)
    | Err e => (s, Err e)
    end).

Definition run_accept_revocation (r : SignedSessionRevocation) : Task unit :=
  writing (fun s now => accept_revocation owner s now r).

Definition run_assert_current (v : VerifiedSessionAuthority) : Task unit :=
  reading (fun s now => owner_assert_current owner s now v).

Definition run_verify_authority (signed : SignedSessionAuthority) (issuer : AuthorityIssuerKey)
    (purpose : SessionAuthorityPurpose) : Task VerifiedSessionAuthority :=
  reading (fun s now => owner_verify_authority owner s now signed (key_id issuer) purpose).

Definition run_own_authority : Task VerifiedSessionAuthority :=
  let! v := reading staged_own_authority in
  let! _ := run_assert_current v in
  ret v.

Definition run_issuer_renewal_pending : Task bool := reading issuer_renewal_pending.

(** [metadata_reads.try_acquire()], held to the end of the operation. *)
Definition with_permit {T} (message : string) (m : Task T) : Task T := fun w =>
  let '(sh, e) := w in
  match sh_permits sh with
  | O => (Err (Failed (AuthorizationUnavailable message)), w)
  | S free =>
      let '(r, (sh', e')) := m (sh <| sh_permits := free |>, e) in
      (r, (sh' <| sh_permits := S (sh_permits sh') |>, e'))
  end.

(** ** Resolving an issuer *)

(** [install_oauth_rotations] *)
Fixpoint install_rotations (rotations : list SignedIssuerRotation) : Task unit :=
  match rotations with
  | [] => ret tt
  | r :: rotations =>
      let! s := lock in
      if (trust_rotation_sequence (current_trust owner s) <? rotation_sequence r)%N then
        let! _ := run_accept_issuer_rotation r in
        install_rotations rotations
      else install_rotations rotations
  end.

Definition install_oauth_rotations (rotations : list SignedIssuerRotation) : Task unit :=
  let! _ := await in
  install_rotations rotations.

(** The loop of [forward_issuer], [fuel] being its remaining turns: follow the registry's
    rotations from the installed position until the key is known. *)
Fixpoint follow_rotations (id : string) (fuel : nat) : Task AuthorityIssuerKey :=
  match fuel with
  | O => fail (AuthorizationUnavailable "unknown issuer")
  | S fuel =>
      let! s := lock in
      let! now := policy_now in
      match state_issuer s id now with
      | Some issuer => ret issuer
      | None =>
          if (MAX_ISSUERS <=? size (issuers s))%nat then
            fail (AuthorizationUnavailable "issuer chain capacity reached")
          else
            let! next := lift (ok_or (checked_add_u64 (installed_sequence s) 1)
                                 (AuthorizationUnavailable "issuer chain exhausted")) in
            let! answer := registry_rotation next in
            let! r := lift (ok_or answer (AuthorizationUnavailable "unknown issuer")) in
            let! _ := run_accept_issuer_rotation r in
            follow_rotations id fuel
      end
  end.

Definition invalid_digest (id : string) : bool :=
  negb (Nat.eqb (String.length id) 43) || negb (is_canonical 32 id).

Definition forward_issuer (id : string) : Task AuthorityIssuerKey :=
  if invalid_digest id then fail (AuthorizationUnavailable "invalid issuer digest")
  else
    timeout "issuer resolution timed out"
      (let! s := lock in
       let! now := policy_now in
       match state_issuer s id now with
       | Some issuer => ret issuer
       | None => let! _ := await in follow_rotations id MAX_ISSUERS
       end).

(** ** Metadata answers *)

(** The check of an answer's scope, before any issuer is resolved for it. *)
Definition metadata_scope (bytes : string) (request : IssuerMetadataRequest)
    (subject reply : string) : result SignedIssuerMetadata OwnerError :=
  let? _ := reject_if
              (String.eqb bytes ""
               || (MAX_ADMISSION_RESPONSE_BYTES <? N.of_nat (String.length bytes))%N)
              (AuthorizationUnavailable "metadata exceeds byte budget") in
  let? signed := json (from_slice bytes) in
  let response := metadata_response signed in
  let? _ := reject_if
              (negb (String.eqb (metadata_instance_id request)
                       (trust_instance_id (owner_trust owner)))
               || negb (String.eqb (metadata_nats_account request)
                          (trust_account (owner_trust owner)))
               || negb (bool_decide (metadata_request response = request))
               || negb (String.eqb (metadata_request_subject response) subject)
               || negb (String.eqb (metadata_reply_subject response) reply))
              (AuthorizationUnavailable "metadata scope mismatch") in
  Ok signed.

(** [verify_metadata_inner]: the issuer of the answer is resolved forward, the answer is
    verified, and a historical key it attests is installed. *)
Definition verify_metadata_inner (bytes : string) (request : IssuerMetadataRequest)
    (subject reply : string) : Task VerifiedIssuerMetadata :=
  let! signed := lift (metadata_scope bytes request subject reply) in
  let! resolved := forward_issuer (metadata_issuer_key_id (metadata_response signed)) in
  let! s := lock in
  let! now := policy_now in
  let! issuer := lift (ok_or (state_issuer s (key_id resolved) now)
                         (AuthorizationUnavailable "metadata issuer unavailable")) in
  let! now' := policy_now in
  let! v := lift (protocol (verify_issuer_metadata bytes issuer request subject reply now')) in
  match metadata_query request, verified_value v with
  | QueryIssuerKey _, Some (ValueIssuerKey historical) =>
      let! _ := writing (fun s _ => install_historical s historical) in
      ret v
  | _, _ => ret v
  end.

(** [AuthorizationOwner::verify_metadata] *)
Definition run_verify_metadata (bytes : string) (request : IssuerMetadataRequest)
    (subject reply : string) : Task VerifiedIssuerMetadata :=
  with_permit "metadata verification capacity reached"
    (verify_metadata_inner bytes request subject reply).

(** A request for metadata: its nonce, and its publication with a reply subject. *)
Definition metadata_request_for (query : IssuerMetadataQuery) : Task IssuerMetadataRequest :=
  let! nonce := observe env_random in
  ret {| metadata_instance_id := trust_instance_id (owner_trust owner);
         metadata_nats_account := trust_account (owner_trust owner);
         metadata_nonce := b64_encode nonce;
         metadata_query := query |}.

(** A call to the broker that may fail. *)
Definition broker_call (message : string) : Task unit :=
  let! _ := await in
  let! connected := observe env_connected in
  if connected then ret tt else fail (AuthorizationUnavailable message).

Definition next_reply : Task (option string) :=
  let! _ := await in observe env_reply.

(** The loop of [issuer] over the replies, [candidates] more of which are looked at. *)
Fixpoint historical_replies (id : string) (request : IssuerMetadataRequest) (reply : string)
    (candidates : nat) (bytes : N) : Task AuthorityIssuerKey :=
  let! message := next_reply in
  match message, candidates with
  | None, _ | _, O => fail (AuthorizationUnavailable "historical issuer unavailable")
  | Some payload, S candidates =>
      let bytes := saturating_add_u64 bytes (N.of_nat (String.length payload)) in
      if (MAX_ADMISSION_RESPONSE_BYTES <? bytes)%N then
        fail (AuthorizationUnavailable "historical issuer unavailable")
      else
        let! outcome := attempt (verify_metadata_inner payload request ISSUER_METADATA_SUBJECT
                                   reply) in
        match outcome with
        | Err _ => historical_replies id request reply candidates bytes
        | Ok verified =>
            match metadata_result (metadata_response (verified_metadata verified)) with
            | ResultValue _ =>
                reading (fun s now =>
                  ok_or (state_issuer s id now)
                    (AuthorizationUnavailable "historical issuer unavailable"))
            | _ => fail (AuthorizationUnavailable "historical issuer unavailable")
            end
        end
  end.

(** [AuthorizationOwner::issuer]: forward from the pinned chain, or a historical key the
    active pin attests. *)
Definition issuer (id : string) : Task AuthorityIssuerKey :=
  if invalid_digest id then fail (AuthorizationUnavailable "invalid issuer digest")
  else
    let! forward := attempt (forward_issuer id) in
    match forward with
    | Ok issuer => ret issuer
    | Err error =>
        let! s := lock in
        if bool_decide (is_Some (issuers s !! id)) then fail error
        else
          with_permit "metadata read capacity reached"
            (timeout "historical issuer read timed out"
               (let! request := metadata_request_for (QueryIssuerKey id) in
                let! inbox := observe env_inbox in
                let reply := inbox +:+ ".metadata" in
                let! _ := broker_call "metadata reply unavailable" in
                let! _ := broker_call "metadata transport unavailable" in
                let! _ := lift (json (to_vec request)) in
                let! _ := broker_call "metadata request unavailable" in
                historical_replies id request reply 16 0))
    end.

(** ** Cached material *)

(** Nothing outside the cache refers to the entry, and its read has ended. *)
Definition evictable (e : Env) (cells : list Cell) (entry : CacheEntry) : bool :=
  negb (env_held e (entry_cell entry))
  && match cells !! entry_cell entry with
     | Some cell => bool_decide (is_Some (cell_value cell))
     | None => false
     end.

(** Used less recently or, for the same instant, earlier in the order of the keys. *)
Definition older (a b : MaterialKey * CacheEntry) : bool :=
  let '((kind, digest), entry) := a in
  let '((kind', digest'), entry') := b in
  (entry_last_used entry <? entry_last_used entry')%N
  || ((entry_last_used entry =? entry_last_used entry')%N
      && ((kind_index kind <? kind_index kind')%nat
          || ((kind_index kind =? kind_index kind')%nat && String.ltb digest digest'))).

Fixpoint oldest (entries : list (MaterialKey * CacheEntry)) :
    option (MaterialKey * CacheEntry) :=
  match entries with
  | [] => None
  | a :: entries =>
      match oldest entries with
      | Some b => if older a b then Some a else Some b
      | None => Some a
      end
  end.

Definition victim (e : Env) (sh : Shared) : option MaterialKey :=
  fst <$> oldest (List.filter (fun item => evictable e (sh_cells sh) (snd item))
                    (map_to_list (sh_material sh))).

(** A full cache makes room for a new key by giving up the oldest unused entry. *)
Definition make_room (e : Env) (key : MaterialKey) (sh : Shared) : option Shared :=
  if negb (bool_decide (is_Some (sh_material sh !! key)))
     && (MAX_CACHED_MATERIAL <=? size (sh_material sh))%nat
  then match victim e sh with
       | Some evicted => Some (sh <| sh_material := delete evicted (sh_material sh) |>)
       | None => None
       end
  else Some sh.

(** The cell of the key's entry, which is now used, or of a new entry. *)
Definition enter_key (instant : N) (key : MaterialKey) (sh : Shared) : nat * Shared :=
  match sh_material sh !! key with
  | Some entry =>
      (entry_cell entry,
       sh <| sh_material := <[key := mkCacheEntry (entry_cell entry) instant]> (sh_material sh) |>)
  | None =>
      let id := List.length (sh_cells sh) in
      (id, sh <| sh_cells := (sh_cells sh ++ [mkCell key None])%list |>
              <| sh_material := <[key := mkCacheEntry id instant]> (sh_material sh) |>)
  end.

Definition cache_slot (key : MaterialKey) : Task nat := fun w =>
  let '(sh, e) := env_turn w in
  match make_room e key sh with
  | None =>
      (Err (Failed (AuthorizationUnavailable "verification material capacity reached")), (sh, e))
  | Some sh => let '(id, sh) := enter_key (env_instant e) key sh in (Ok id, (sh, e))
  end.

Definition cell_content (id : nat) : Task (option (result RegistryMaterial string)) := fun w =>
  (Ok (sh_cells (fst w) !! id ≫= cell_value), w).

(** A cell is set once. *)
Definition set_cell (id : nat) (r : result RegistryMaterial string) : Task unit := fun w =>
  match sh_cells (fst w) !! id with
  | Some (mkCell key None) =>
      (Ok tt, (fst w <| sh_cells := <[id := mkCell key (Some r)]> (sh_cells (fst w)) |>, snd w))
  | _ => (Ok tt, w)
  end.

(** Fetch and authenticate, once for all uses. *)
Definition fetch_material (kind : MaterialKind) (digest : string) : Task RegistryMaterial :=
  let! m := registry_material kind digest in
  let! key := issuer (material_issuer_key_id m) in
  let instance := trust_instance_id (owner_trust owner) in
  let account := trust_account (owner_trust owner) in
  match m with
  | UnverifiedAuthority authority =>
      let! _ := run_verify_authority authority key PurposeHistoricalEvent in
      ret (MaterialAuthority authority)
  | UnverifiedCatalog catalog =>
      let! c := lift (protocol (authenticate_catalog catalog key instance account)) in
      ret (MaterialCatalog c)
  | UnverifiedProvider certificate =>
      let! c := lift (protocol (authenticate_certificate certificate key instance account)) in
      ret (MaterialProvider c)
  end.

(** [cell.get_or_init(..)], one task initializing the cell while the others wait. *)
Definition get_or_init (id : nat) (kind : MaterialKind) (digest : string) :
    Task (result RegistryMaterial string) :=
  let! content := cell_content id in
  match content with
  | Some r => ret r
  | None =>
      let! _ := await in
      let! content := cell_content id in
      match content with
      | Some r => ret r
      | None =>
          let! outcome := attempt (timeout "" (fetch_material kind digest)) in
          let r := map_err (fun _ => "verification material unavailable") outcome in
          let! _ := set_cell id r in
          ret r
      end
  end.

(** The entry of a failed read is dropped, unless a new one has taken its place. *)
Definition forget_failed (key : MaterialKey) (id : nat) : Task unit := fun w =>
  let '(sh, e) := env_turn w in
  match sh_material sh !! key with
  | Some entry =>
      if Nat.eqb (entry_cell entry) id then
        (Ok tt, (sh <| sh_material := delete key (sh_material sh) |>, e))
      else (Ok tt, (sh, e))
  | None => (Ok tt, (sh, e))
  end.

(** [AuthorizationOwner::material] *)
Definition material (kind : MaterialKind) (digest : string) : Task RegistryMaterial :=
  if invalid_digest digest then fail (AuthorizationUnavailable "invalid material digest")
  else
    let key := (kind, digest) in
    let! id := cache_slot key in
    let! r := get_or_init id kind digest in
    match r with
    | Ok m => ret m
    | Err message =>
        let! _ := forget_failed key id in
        fail (AuthorizationUnavailable message)
    end.

Definition catalog_material (digest : string) : Task (Authenticated SignedCatalogSnapshot) :=
  let! m := material KindCatalog digest in
  match m with
  | MaterialCatalog catalog => ret catalog
  | _ => fail (AuthorizationUnavailable "wrong catalog material")
  end.

Definition provider_material (digest : string) : Task (Authenticated SignedProviderCertificate) :=
  let! m := material KindProvider digest in
  match m with
  | MaterialProvider certificate => ret certificate
  | _ => fail (AuthorizationUnavailable "wrong provider material")
  end.

Definition authority_material (digest message : string) : Task SignedSessionAuthority :=
  let! m := material KindAuthority digest in
  match m with
  | MaterialAuthority signed => ret signed
  | _ => fail (AuthorizationUnavailable message)
  end.

(** ** Authorities *)

(** [resolve_authority]: a peer's authority that is current. *)
Definition resolve_authority (digest : string) : Task VerifiedSessionAuthority :=
  let! signed := authority_material digest "wrong authority material" in
  let! key := issuer (issuer_key_id (unsigned signed)) in
  let! v := run_verify_authority signed key PurposeLive in
  let! _ := run_assert_current v in
  ret v.

Definition prepare_own (signed : SignedSessionAuthority) : Task VerifiedSessionAuthority :=
  if negb (String.eqb (runtime_id (unsigned signed)) (owner_runtime_id owner))
     || negb (String.eqb (session_public_key (unsigned signed)) (owner_session_public_key owner))
  then fail (AuthorizationUnavailable "own authority runtime mismatch")
  else
    let! key := issuer (issuer_key_id (unsigned signed)) in
    run_verify_authority signed key PurposeLive.

(** [observe_revocation] *)
Definition observe_revocation (r : SignedSessionRevocation) : Task unit :=
  let! _ := issuer (revocation_issuer_key_id r) in
  run_accept_revocation r.
End operations.
