(* ===== verification/OwnerAdmission.v ===== *)
(** * Admission of messages

    What the owner decides about requests, responses, events and actions
    ([crates/trellis/src/client/authorization/provider_cache.rs]): each operation resolves
    the material it needs, then takes the lock once more and decides on the state it finds
    then. *)

From Stdlib Require Import Ascii String.
From S2P Require Import Prelude RustStr Extern Json Transcript Base64 Protocol Wire.
From S2P Require Import Authorization Identifiers Permissions SessionAuthority Catalog.
From S2P Require Import SessionMessages SessionResponse VerificationCore IssuerMetadata.
From S2P Require Import AuthorizationOwner OwnerTasks.

Local Open Scope string_scope.

Local Existing Instance json_tree.

Definition denied : OwnerError := AuthorizationVerification PermissionDenied.

(** [?] on the result of the verification core. *)
Definition verification {T} (r : result T AuthorizationVerificationError) : result T OwnerError :=
  map_err AuthorizationVerification r.

Section decisions.
Context `{Base64Url, Sha256, Ed25519, UlidParser, UrlParser, Rfc3339} `{!CanonicalJson}.
Context `{!FromValue CallerUser}.
Context (owner : Owner).

Implicit Types (s : OwnerState) (now : Z) (authority : VerifiedSessionAuthority).

Let instance := trust_instance_id (owner_trust owner).
Let account := trust_account (owner_trust owner).

(** The authority is still current, and the installed one when it is the runtime's own. *)
Definition recheck_authority s now authority : result unit OwnerError :=
  let body := verified_authority authority in
  let? _ := reject_if
              (String.eqb (runtime_id body) (owner_runtime_id owner)
               && String.eqb (session_public_key body) (owner_session_public_key owner)
               && negb (bool_decide (verified_digest <$> own s = Some (verified_digest authority))))
              (AuthorizationUnavailable "own authority superseded") in
  let? _ := protocol (assert_current authority (owner_policy now) (known_revoked s authority)) in
  reject_if (overflowing s now || negb (issuer_active s (issuer_key_id body) now))
    (AuthorizationUnavailable "revocation capacity reached").

Definition catalog_delegates s now authority (api_id : string) (action : CatalogActionIdentity)
    (catalog : Authenticated SignedCatalogSnapshot) (issuer_id : string) :
    result bool OwnerError :=
  let? _ := require_live_coverage s in
  let? key := ok_or (state_issuer s issuer_id now)
                (AuthorizationUnavailable "catalog issuer unavailable") in
  let? _ := recheck_authority s now authority in
  let? _ := protocol (authenticated_check catalog key instance account) in
  let? _ := reject_if (negb (String.eqb (snapshot_api_id (auth_record catalog)) api_id)) denied in
  Ok (authorizes (auth_record catalog) (verified_signed authority) action).

Definition certified_provider s now authority (b : AuthorityProvider) (api_id : string)
    (certificate : Authenticated SignedProviderCertificate) (issuer_id : string) :
    result unit OwnerError :=
  let body := verified_authority authority in
  let c := auth_record certificate in
  let? key := ok_or (state_issuer s issuer_id now)
                (AuthorizationUnavailable "provider issuer unavailable") in
  let? _ := recheck_authority s now authority in
  let? _ := reject_if (negb (bool_decide (issuer_state key = IssuerActive)))
              (AuthorizationUnavailable "certificate issuer retired") in
  let? _ := protocol (check_at certificate key instance account now) in
  reject_if
    (negb (binding_certified (binding body) c)
     || negb (String.eqb (cert_principal_id c) (principal_id body))
     || negb (String.eqb (cert_session_public_key c) (session_public_key body))
     || negb (String.eqb (cert_api_id c) api_id)
     || negb (cert_generation c =? provider_generation b)%N
     || negb (String.eqb (cert_deployment_id c) (provider_deployment_id b))
     || negb (String.eqb (cert_implementation_digest c) (provider_implementation_digest b))
     || (now <? cert_not_before c)%Z || (cert_expires_at c <=? now)%Z)
    denied.

(** The last step of [verify_request], on the state it finds. *)
Definition admit_request s now (own_authority authority : VerifiedSessionAuthority)
    (certificate : Authenticated SignedProviderCertificate)
    (catalog : Authenticated SignedCatalogSnapshot) (issuer_id : string)
    (request : SessionRequest) (payload : string) (proof : SessionProof)
    (action : CatalogActionIdentity) : result VerifiedAuthorizationRequest OwnerError :=
  let? _ := require_live_coverage s in
  let? _ := reject_if (overflowing s now)
              (AuthorizationUnavailable "revocation capacity reached") in
  let? _ := protocol (assert_current own_authority (owner_policy now)
                        (known_revoked s own_authority)) in
  let? _ := reject_if
              (negb (issuer_active s (issuer_key_id (verified_authority own_authority)) now))
              (AuthorizationUnavailable "provider issuer retired") in
  let? _ := reject_if
              (negb (bool_decide (verified_digest <$> own s = Some (verified_digest own_authority))))
              (AuthorizationUnavailable "provider authority superseded during verification") in
  let? _ := reject_if (negb (issuer_active s (issuer_key_id (verified_authority authority)) now))
              (AuthorizationUnavailable "caller issuer retired") in
  let? catalog_issuer := ok_or (state_issuer s issuer_id now)
                           (AuthorizationUnavailable "catalog issuer unavailable") in
  let? certificate_issuer :=
    ok_or (state_issuer s (cert_issuer_key_id (auth_record certificate)) now)
      (AuthorizationUnavailable "certificate issuer unavailable") in
  let? _ := reject_if (negb (bool_decide (issuer_state certificate_issuer = IssuerActive)))
              (AuthorizationUnavailable "provider material issuer retired") in
  let? _ := protocol (check_at certificate certificate_issuer instance account now) in
  verification (core_verify_request authority request payload proof (owner_policy now)
                  (known_revoked s authority) catalog catalog_issuer action).

Definition admit_possession s now authority (request : SessionRequest) (payload : string)
    (proof : SessionProof) : result VerifiedAuthorizationRequest OwnerError :=
  let? _ := reject_if
              (overflowing s now
               || negb (issuer_active s (issuer_key_id (verified_authority authority)) now))
              (AuthorizationUnavailable "caller authority unavailable") in
  verification (verify_possession authority request payload proof (owner_policy now)
                  (known_revoked s authority)).

(** [ResponseVerificationInput] *)
Record ResponseInput := mkOwnerResponseInput {
  owner_pending_request : SessionRequest;
  owner_pending_digest : string;
  owner_action : CatalogActionIdentity;
  owner_expected_deployment : option string;
  owner_received_subject : string;
  owner_response : SessionResponse;
  owner_payload : string;
  owner_proof : SessionProof;
}.

Definition admit_response s now (provider : VerifiedSessionAuthority)
    (certificate : Authenticated SignedProviderCertificate) (issuer_id : string)
    (input : ResponseInput) : result (VerifiedSessionAuthority * SessionResponse) OwnerError :=
  let? _ := require_live_coverage s in
  let? _ := reject_if (overflowing s now)
              (AuthorizationUnavailable "revocation capacity reached") in
  let? _ := reject_if (negb (issuer_active s (issuer_key_id (verified_authority provider)) now))
              (AuthorizationUnavailable "provider issuer retired") in
  let? key := ok_or (state_issuer s issuer_id now)
                (AuthorizationUnavailable "provider issuer unavailable") in
  let? _ := reject_if (negb (bool_decide (issuer_state key = IssuerActive)))
              (AuthorizationUnavailable "response certificate issuer retired") in
  protocol (verify_session_response {|
    resp_provider := provider;
    resp_certificate := certificate;
    resp_certificate_issuer := key;
    pending_request := owner_pending_request input;
    pending_request_digest := owner_pending_digest input;
    resp_action := owner_action input;
    expected_deployment_id := owner_expected_deployment input;
    received_subject := owner_received_subject input;
    resp_response := owner_response input;
    resp_payload_sha256 := sha256 (owner_payload input);
    resp_proof := owner_proof input;
    resp_policy := owner_policy now;
    resp_known_revoked := known_revoked s provider;
  |}).

(** [HistoricalEventVerificationInput] *)
Record HistoricalInput := mkHistoricalInput {
  historical_event : SessionEvent;
  historical_payload : string;
  historical_proof : SessionProof;
  historical_action : CatalogActionIdentity;
  historical_publication : OriginalEventPublication;
  historical_status : VerifiedIssuerMetadata;
}.

(** The session's status that the evidence attests for the publisher's authority. *)
Definition historical_scope (signed : SignedSessionAuthority) (input : HistoricalInput) :
    result AuthorizationSessionStatus OwnerError :=
  let response := metadata_response (verified_metadata (historical_status input)) in
  let request := metadata_request response in
  let session := authorization_session_id (unsigned signed) in
  let? _ := reject_if
              (negb (String.eqb (metadata_instance_id request) instance)
               || negb (String.eqb (metadata_nats_account request) account)
               || match metadata_query request with
                  | QueryAuthorityStatus id => negb (String.eqb id session)
                  | _ => true
                  end)
              (AuthorizationUnavailable "historical status scope mismatch") in
  let? status := match verified_value (historical_status input) with
                 | Some (ValueStatus status) => Ok status
                 | _ => unavailable "historical status unavailable"
                 end in
  let? _ := reject_if
              (negb (String.eqb (status_session_id status) session)
               || (negb match status_state status with SessionActive => true | _ => false end
                   && negb (bool_decide (is_Some (status_revocation status)))))
              (AuthorizationUnavailable "historical cutoff unavailable") in
  Ok status.

(** The cutoff that applies: the earlier of the mirrored and the attested one. *)
Definition historical_cutoff s now (signed : SignedSessionAuthority)
    (revocation : option SignedSessionRevocation) : result (option Z) OwnerError :=
  let session := authorization_session_id (unsigned signed) in
  let mirrored := effective_cutoff <$> revocations s !! session in
  match revocation with
  | None => Ok mirrored
  | Some r =>
      let? key := ok_or (state_issuer s (revocation_issuer_key_id r) now)
                    (AuthorizationUnavailable "cutoff issuer unavailable") in
      let? _ := protocol (verify_revocation r key instance account) in
      let? _ := reject_if (negb (String.eqb (revocation_session_id r) session))
                  (AuthorizationUnavailable "historical cutoff session mismatch") in
      Ok (Some match mirrored with
               | Some known => Z.min known (effective_cutoff r)
               | None => effective_cutoff r
               end)
  end.

(** The last step of [verify_historical_event]. *)
Definition admit_historical s now (signed : SignedSessionAuthority) (issuer_id : string)
    (revocation : option SignedSessionRevocation)
    (catalog : Authenticated SignedCatalogSnapshot)
    (provider : option (Authenticated SignedProviderCertificate)) (input : HistoricalInput) :
    result VerifiedAuthorizationEvent OwnerError :=
  let status := metadata_response (verified_metadata (historical_status input)) in
  let? _ := reject_if
              ((metadata_expires_at status <=? now)%Z
               || (saturating_add_i64 now 5 <? metadata_issued_at status)%Z
               || negb (issuer_active s (metadata_issuer_key_id status) now))
              (AuthorizationUnavailable "historical status expired or issuer retired") in
  let? cutoff := historical_cutoff s now signed revocation in
  let? key := ok_or (state_issuer s issuer_id now)
                (AuthorizationUnavailable "publisher issuer unavailable") in
  let? publisher := protocol (verify_session_authority {|
    input_issuer := key;
    input_instance_id := instance;
    input_nats_account := account;
    input_authority := signed;
    input_policy := owner_policy now;
    input_purpose := PurposeHistoricalEvent;
    input_revocation_cutoff := cutoff;
  |}) in
  let? provider := match provider with
                   | Some certificate =>
                       let? key := ok_or (state_issuer s
                                            (cert_issuer_key_id (auth_record certificate)) now)
                                     (AuthorizationUnavailable "provider issuer unavailable") in
                       Ok (Some (certificate, key))
                   | None => Ok None
                   end in
  let? catalog_issuer := ok_or (state_issuer s (snapshot_issuer_key_id (auth_record catalog)) now)
                           (AuthorizationUnavailable "catalog issuer unavailable") in
  verification (core_verify_event publisher (historical_event input) (historical_payload input)
                  (historical_proof input) (owner_policy now) (bool_decide (is_Some cutoff)) catalog
                  catalog_issuer (historical_action input) (Some (historical_publication input))
                  provider).

(** ** What the decisions have checked *)

Lemma core_verify_request_ok authority request payload proof policy revoked catalog key action v :
  core_verify_request authority request payload proof policy revoked catalog key action = Ok v ->
  exists r, verify_session_request authority request (sha256 payload) proof policy revoked = Ok r /\
    v = {| opening_authority := authority; opening_caller := caller r; opening_request := request;
           opening_digest := verified_request_digest r; opening_action := Some action;
           handler_authorized := false |} /\
    request_api_id request = snapshot_api_id (auth_record catalog) /\
    request_action request = identity_name action /\
    authorizes (auth_record catalog) (verified_signed authority) action = true.
Proof.
  unfold core_verify_request, verify_possession, checked. intros Hv. peel Hv as p Hp.
  peel Hp as r Hr. injection Hp as <-. peel Hv as u Hc. peel Hv as Hd. injection Hv as <-.
  rewrite !orb_false_iff, !negb_false_iff, !String.eqb_eq in Hd. exists r. naive_solver.
Qed.

Lemma state_issuer_active s id now k :
  state_issuer s id now = Some k -> issuer_state k = IssuerActive -> issuer_active s id now = true.
Proof. unfold issuer_active. intros -> Hk. by apply bool_decide_eq_true. Qed.

Lemma check_at_window certificate key inst acct now u :
  check_at certificate key inst acct now = Ok u ->
  (cert_not_before (auth_record certificate) <= now
   < cert_expires_at (auth_record certificate))%Z.
Proof.
  unfold check_at, certificate_window. intros Hc. skip Hc. apply reject_if_ok in Hc.
  rewrite orb_false_iff, Z.ltb_ge, Z.leb_gt in Hc. done.
Qed.

Lemma recheck_authority_ok s now authority u :
  recheck_authority s now authority = Ok u ->
  assert_current authority (owner_policy now) (known_revoked s authority) = Ok tt /\
  overflowing s now = false /\
  issuer_active s (issuer_key_id (verified_authority authority)) now = true.
Proof.
  unfold recheck_authority, protocol. intros Hr. peel Hr as Ho. peel Hr as t Hc. destruct t.
  apply reject_if_ok in Hr. by rewrite orb_false_iff, negb_false_iff in Hr.
Qed.

Lemma certified_provider_ok s now authority b api_id certificate id u :
  certified_provider s now authority b api_id certificate id = Ok u ->
  let body := verified_authority authority in
  let c := auth_record certificate in
  assert_current authority (owner_policy now) (known_revoked s authority) = Ok tt /\
  overflowing s now = false /\ issuer_active s (issuer_key_id body) now = true /\
  issuer_active s id now = true /\
  (cert_not_before c <= now < cert_expires_at c)%Z /\
  binding_certified (binding body) c = true /\
  cert_principal_id c = principal_id body /\ cert_session_public_key c = session_public_key body /\
  cert_api_id c = api_id /\ cert_generation c = provider_generation b /\
  cert_deployment_id c = provider_deployment_id b /\
  cert_implementation_digest c = provider_implementation_digest b.
Proof.
  unfold certified_provider, protocol. intros Hv. peel Hv as key Hk. peel Hv as t Hr.
  peel Hv as Ha. peel Hv as t' Hc. apply reject_if_ok in Hv.
  apply recheck_authority_ok in Hr as (Hcur & Ho & Hact). apply check_at_window in Hc.
  apply negb_false_iff, bool_decide_eq_true in Ha.
  rewrite !orb_false_iff, !negb_false_iff, !String.eqb_eq, N.eqb_eq in Hv. cbn zeta.
  pose proof (state_issuer_active _ _ _ _ Hk Ha). naive_solver.
Qed.

Lemma admit_request_ok s now own_v v request payload proof action certificate catalog id opening :
  admit_request s now own_v v certificate catalog id request payload proof action = Ok opening ->
  revocation_covered s = true /\ overflowing s now = false /\
  assert_current own_v (owner_policy now) (known_revoked s own_v) = Ok tt /\
  issuer_active s (issuer_key_id (verified_authority own_v)) now = true /\
  verified_digest <$> own s = Some (verified_digest own_v) /\
  issuer_active s (issuer_key_id (verified_authority v)) now = true /\
  issuer_active s (cert_issuer_key_id (auth_record certificate)) now = true /\
  (cert_not_before (auth_record certificate) <= now < cert_expires_at (auth_record certificate))%Z /\
  exists key, core_verify_request v request payload proof (owner_policy now) (known_revoked s v)
                catalog key action = Ok opening.
Proof.
  unfold admit_request, require_live_coverage, protocol, verification. intros Hv.
  peel Hv as Hcov. peel Hv as Ho. peel Hv as t Hcur. destruct t. peel Hv as Hi. peel Hv as Hd.
  peel Hv as Hci. peel Hv as ki Hki. peel Hv as kc Hkc. peel Hv as Hact. peel Hv as t Hchk.
  apply map_err_ok in Hv. apply negb_false_iff in Hcov, Hi, Hci.
  apply negb_false_iff, bool_decide_eq_true in Hd, Hact. apply check_at_window in Hchk.
  pose proof (state_issuer_active _ _ _ _ Hkc Hact). split_and!; try done; [lia..|]. by exists ki.
Qed.

Lemma admit_response_ok s now provider certificate id input v :
  admit_response s now provider certificate id input = Ok v ->
  revocation_covered s = true /\ overflowing s now = false /\
  issuer_active s (issuer_key_id (verified_authority provider)) now = true /\
  issuer_active s id now = true /\
  exists key, verify_session_response {|
    resp_provider := provider; resp_certificate := certificate; resp_certificate_issuer := key;
    pending_request := owner_pending_request input;
    pending_request_digest := owner_pending_digest input;
    resp_action := owner_action input;
    expected_deployment_id := owner_expected_deployment input;
    received_subject := owner_received_subject input;
    resp_response := owner_response input;
    resp_payload_sha256 := sha256 (owner_payload input);
    resp_proof := owner_proof input;
    resp_policy := owner_policy now;
    resp_known_revoked := known_revoked s provider |} = Ok v.
Proof.
  unfold admit_response, require_live_coverage, protocol. intros Hv. peel Hv as Hcov. peel Hv as Ho.
  peel Hv as Hi. peel Hv as key Hk. peel Hv as Ha. apply map_err_ok in Hv.
  apply negb_false_iff in Hcov, Hi. apply negb_false_iff, bool_decide_eq_true in Ha.
  pose proof (state_issuer_active _ _ _ _ Hk Ha). split_and!; try done. by exists key.
Qed.

Lemma core_verify_event_ok v event payload proof policy revoked catalog key action publication
    provider e :
  core_verify_event v event payload proof policy revoked catalog key action publication provider
    = Ok e ->
  (exists r, verify_session_event v event (sha256 payload) proof policy publication revoked = Ok r) /\
  e = {| publisher_authority := v; published_event := event;
         original_publication := publication |} /\
  event_api_id event = snapshot_api_id (auth_record catalog) /\
  event_action event = identity_name action /\ is_event_publication action = true /\
  (authorizes (auth_record catalog) (verified_signed v) action = true \/
   exists c k, provider = Some (c, k) /\
     provider_publication c k v event publication catalog action = Ok true).
Proof.
  unfold core_verify_event, checked. intros Hv. peel Hv as r Hr. peel Hv as u Hc.
  destruct (authorizes _ _ _) eqn:Ha.
  - peel Hv as Hd. injection Hv as <-.
    rewrite !orb_false_iff, !negb_false_iff, !String.eqb_eq in Hd. naive_solver.
  - destruct provider as [[c k]|]; [|by peel Hv as Hd; rewrite orb_true_r in Hd].
    peel Hv as b Hb. peel Hv as Hd. injection Hv as <-.
    rewrite !orb_false_iff, !negb_false_iff, !String.eqb_eq in Hd.
    destruct Hd as (((Hd1 & Hd2) & Hd3) & ->). split_and!; eauto 6.
Qed.

Lemma provider_publication_ok c k v event publication catalog action :
  provider_publication c k v event (Some publication) catalog action = Ok true ->
  forall text, text = event_time event \/ text = published_at publication ->
    exists nanos, rfc3339_nanos text = Some nanos /\
      authenticated_authorizes_event_publication c k (verified_signed v) catalog action
        (nanos / NANOS)%Z = Ok true.
Proof.
  unfold provider_publication, checked. intros Hv. peel Hv as b Hb. peel Hv as b' Hb'.
  injection Hv as Hand. apply andb_true_iff in Hand as [-> ->].
  peel Hb as n Hn. peel Hb' as n' Hn'. apply map_err_ok in Hb, Hb'.
  intros text [->| ->]; eauto.
Qed.

(** The cutoff that is applied is no later than any that is known. *)
Lemma historical_cutoff_ok s now signed revocation cutoff :
  historical_cutoff s now signed revocation = Ok cutoff ->
  forall r, revocations s !! authorization_session_id (unsigned signed) = Some r \/
            revocation = Some r ->
    exists c, cutoff = Some c /\ (c <= effective_cutoff r)%Z.
Proof.
  unfold historical_cutoff, protocol. intros Hc r.
  destruct revocation as [attested|].
  - peel Hc as key Hk. peel Hc as u Hv. peel Hc as Hs. injection Hc as <-.
    intros [Hr|[= <-]].
    + rewrite Hr. cbn. eexists. split; [done|]. lia.
    + destruct (revocations s !! _) as [known|]; cbn; eexists; (split; [done|]); lia.
  - injection Hc as <-. intros [->|[=]]. cbn. eexists. split; [done|]. lia.
Qed.

Lemma admit_historical_ok s now signed id revocation catalog provider input v :
  admit_historical s now signed id revocation catalog provider input = Ok v ->
  let status := metadata_response (verified_metadata (historical_status input)) in
  (now < metadata_expires_at status)%Z /\
  (metadata_issued_at status <= saturating_add_i64 now 5)%Z /\
  issuer_active s (metadata_issuer_key_id status) now = true /\
  exists cutoff key kc p, historical_cutoff s now signed revocation = Ok cutoff /\
    state_issuer s id now = Some key /\
    verify_session_authority {|
      input_issuer := key; input_instance_id := instance; input_nats_account := account;
      input_authority := signed; input_policy := owner_policy now;
      input_purpose := PurposeHistoricalEvent; input_revocation_cutoff := cutoff |}
      = Ok (publisher_authority v) /\
    (forall c k, p = Some (c, k) ->
       provider = Some c /\ state_issuer s (cert_issuer_key_id (auth_record c)) now = Some k) /\
    core_verify_event (publisher_authority v) (historical_event input) (historical_payload input)
      (historical_proof input) (owner_policy now) (bool_decide (is_Some cutoff)) catalog kc
      (historical_action input) (Some (historical_publication input)) p = Ok v.
Proof.
  unfold admit_historical, protocol, verification. intros Hv. peel Hv as Hf. peel Hv as cutoff Hc.
  peel Hv as key Hk. peel Hv as publisher Hp. peel Hv as p Hprov. peel Hv as kc Hkc.
  apply map_err_ok in Hv. rewrite !orb_false_iff, negb_false_iff, Z.leb_gt, Z.ltb_ge in Hf.
  destruct Hf as ((Hexp & Hiss) & Hact). cbn zeta.
  assert (publisher = publisher_authority v) as Heq
    by by apply core_verify_event_ok in Hv as (_ & -> & _).
  rewrite Heq in Hp, Hv. split_and!; try done.
  exists cutoff, key, kc, p. split_and!; try done.
  intros c k ->. destruct provider as [c'|]; [|done]. peel Hprov as k' Hk'.
  by injection Hprov as <- <-.
Qed.
End decisions.

Section admission.
Context `{Base64Url, Sha256, Ed25519, UlidParser, UrlParser, Rfc3339} `{!CanonicalJson}.
Context `{!FromValue CallerUser}.
Context `{JsonCodec Json, JsonCodec SignedIssuerMetadata, JsonCodec AuthorityIssuerKey}.
Context `{JsonCodec AuthorityMaterial, JsonCodec AuthorizationSessionStatus, JsonCodec IssuerChain}.
Context `{JsonCodec SignedSessionAuthority, JsonCodec SignedCatalogSnapshot}.
Context `{JsonCodec SignedProviderCertificate, JsonCodec SignedIssuerRotation}.
Context `{JsonCodec IssuerMetadataRequest, JsonCodec SignedSessionRevocation}.
Context `{!Environment}.
Context (owner : Owner).

Implicit Types (authority : VerifiedSessionAuthority) (action : CatalogActionIdentity).

(** ** Actions *)

(** [provider_certificate]: the certified implementation of an API the authority provides. *)
Definition provider_certificate authority (api_id : string) :
    Task (Authenticated SignedProviderCertificate) :=
  let body := verified_authority authority in
  let! b := lift (ok_or (find (fun b => String.eqb (provider_api_id b) api_id)
                           (provider_bindings body)) denied) in
  let! certificate := provider_material owner (provider_certificate_digest b) in
  let! key := issuer owner (cert_issuer_key_id (auth_record certificate)) in
  let! _ := run_assert_current owner authority in
  let! s := lock in
  let! _ := lift (require_live_coverage s) in
  let! now := policy_now in
  let! _ := lift (certified_provider owner s now authority b api_id certificate (key_id key)) in
  ret certificate.

Definition authorize_provider authority (api_id : string) action :
    Task (Authenticated SignedProviderCertificate) :=
  let! certificate := provider_certificate authority api_id in
  if negb (bool_decide (action ∈ cert_implemented_actions (auth_record certificate)))
  then fail denied
  else ret certificate.

(** [authorize_action]: by a capability the catalog grants, or as the certified publisher of
    the API's event. *)
Definition authorize_action authority (api_id : string) action :
    Task (Authenticated SignedCatalogSnapshot) :=
  let body := verified_authority authority in
  let! reference := lift (ok_or (find (fun api => String.eqb (authority_api_id api) api_id)
                                   (apis body)) denied) in
  let! catalog := catalog_material owner (authority_catalog_snapshot_digest reference) in
  let! key := issuer owner (snapshot_issuer_key_id (auth_record catalog)) in
  let! _ := run_assert_current owner authority in
  let! now := policy_now in
  let! s := lock in
  let! delegated := lift (catalog_delegates owner s now authority api_id action catalog
                            (key_id key)) in
  if (delegated : bool) then ret catalog
  else if negb (is_event_publication action)
          || negb (existsb (fun b => String.eqb (provider_api_id b) api_id)
                     (provider_bindings body))
  then fail denied
  else
    let! certificate := provider_certificate authority api_id in
    let! key := issuer owner (cert_issuer_key_id (auth_record certificate)) in
    let! allowed := lift (protocol (authenticated_authorizes_event_publication certificate key
                                      (verified_signed authority) catalog action now)) in
    if negb allowed then fail denied
    else
      let! _ := run_assert_current owner authority in
      ret catalog.

(** ** Requests *)

(** One attempt of [verify_request], with the authority the provider had at its start. *)
Definition verify_request_once (own_authority : VerifiedSessionAuthority)
    (request : SessionRequest) (payload : string) (proof : SessionProof) action :
    Task VerifiedAuthorizationRequest :=
  let! authority := resolve_authority owner (request_authority_digest request) in
  let! certificate := authorize_provider own_authority (request_api_id request) action in
  if negb (cert_generation (auth_record certificate) =? request_api_generation request)%N
  then fail denied
  else
    let! reference :=
      lift (ok_or (find (fun api => String.eqb (authority_api_id api) (request_api_id request))
                     (apis (verified_authority authority))) denied) in
    let! catalog := catalog_material owner (authority_catalog_snapshot_digest reference) in
    let! key := issuer owner (snapshot_issuer_key_id (auth_record catalog)) in
    let! now := policy_now in
    let! s := lock in
    lift (admit_request owner s now own_authority authority certificate catalog (key_id key)
            request payload proof action).

(** [changes.recv()] *)
Definition next_change : Task unit :=
  let! _ := await in
  let! closed := observe env_changes_closed in
  if closed then fail (AuthorizationUnavailable "authority owner closed") else ret tt.

(** The timeout around the operation ends it. *)
Definition elapse {T} : Task T := fun w => (Err (Elapsed 0), w).

(** The wait for the renewal of the own authority; [fuel] more changes arrive before the
    timeout. *)
Fixpoint renewal_settled (fuel : nat) : Task unit :=
  let! pending := run_issuer_renewal_pending in
  if negb pending then ret tt
  else
    let! _ := next_change in
    match fuel with
    | O => elapse
    | S fuel => renewal_settled fuel
    end.

(** The loop of [verify_request], with time for [fuel] more attempts. *)
Fixpoint verify_request_loop (fuel : nat) (request : SessionRequest) (payload : string)
    (proof : SessionProof) action : Task VerifiedAuthorizationRequest :=
  let again :=
    match fuel with
    | O => elapse
    | S fuel => verify_request_loop fuel request payload proof action
    end in
  let! held := attempt (run_own_authority owner) in
  match held with
  | Err error =>
      let! pending := run_issuer_renewal_pending in
      if negb pending then fail error
      else
        let! _ := next_change in
        again
  | Ok own_authority =>
      let! outcome := attempt (verify_request_once own_authority request payload proof action) in
      match outcome with
      | Ok verified => ret verified
      | Err error =>
          let! _ := renewal_settled fuel in
          let! current := attempt (run_own_authority owner) in
          let replaced :=
            match current with
            | Ok v => negb (String.eqb (verified_digest v) (verified_digest own_authority))
            | Err _ => false
            end in
          if replaced then again else fail error
      end
  end.

(** [AuthorizationOwner::verify_request] *)
Definition owner_verify_request (fuel : nat) (request : SessionRequest) (payload : string)
    (proof : SessionProof) action : Task VerifiedAuthorizationRequest :=
  timeout "request verification timed out" (verify_request_loop fuel request payload proof action).

(** [AuthorizationOwner::verify_possession] *)
Definition owner_verify_possession (request : SessionRequest) (payload : string)
    (proof : SessionProof) : Task VerifiedAuthorizationRequest :=
  let! authority := resolve_authority owner (request_authority_digest request) in
  let! s := lock in
  let! _ := lift (require_live_coverage s) in
  let! now := policy_now in
  lift (admit_possession s now authority request payload proof).

(** ** Responses *)

(** [AuthorizationOwner::verify_response] *)
Definition owner_verify_response (input : ResponseInput) :
    Task (VerifiedSessionAuthority * SessionResponse) :=
  let response := owner_response input in
  let! provider := resolve_authority owner (response_authority_digest response) in
  let! certificate := provider_material owner (response_certificate_digest response) in
  let! key := issuer owner (cert_issuer_key_id (auth_record certificate)) in
  let! now := policy_now in
  let! s := lock in
  lift (admit_response s now provider certificate (key_id key) input).

(** ** Retained events *)

(** The loop of [historical_status]; [fuel] replies arrive before its timeout. *)
Fixpoint status_replies (fuel : nat) (request : IssuerMetadataRequest) (reply : string) :
    Task VerifiedIssuerMetadata :=
  match fuel with
  | O => elapse
  | S fuel =>
      let! message := next_reply in
      match message with
      | None => fail (AuthorizationUnavailable "metadata reply unavailable")
      | Some payload =>
          let! outcome := attempt (verify_metadata_inner owner payload request
                                     ISSUER_METADATA_SUBJECT reply) in
          match outcome with
          | Ok verified => ret verified
          | Err _ => status_replies fuel request reply
          end
      end
  end.

(** [historical_status]: fresh signed status of a retained publisher's session. *)
Definition fetch_status (fuel : nat) (digest : string) : Task VerifiedIssuerMetadata :=
  with_permit "metadata read capacity reached"
    (timeout "metadata read timed out"
       (let! signed := authority_material owner digest "wrong publisher material" in
        let! request := metadata_request_for owner
                          (QueryAuthorityStatus (authorization_session_id (unsigned signed))) in
        let! reply := observe env_inbox in
        let! _ := broker_call "metadata reply registration unavailable" in
        let! _ := broker_call "metadata reply registration unavailable" in
        let! _ := lift (json (to_vec request)) in
        let! _ := broker_call "metadata request unavailable" in
        status_replies fuel request reply)).

(** The certificate of the publisher, when the catalog does not grant it the action. *)
Definition publisher_certificate (signed : SignedSessionAuthority)
    (catalog : Authenticated SignedCatalogSnapshot) (input : HistoricalInput) :
    Task (option (Authenticated SignedProviderCertificate)) :=
  if authorizes (auth_record catalog) signed (historical_action input) then ret None
  else
    match find (fun b => String.eqb (provider_api_id b) (event_api_id (historical_event input)))
            (provider_bindings (unsigned signed)) with
    | None => ret None
    | Some b =>
        let! certificate := provider_material owner (provider_certificate_digest b) in
        let! _ := issuer owner (cert_issuer_key_id (auth_record certificate)) in
        ret (Some certificate)
    end.

(** [AuthorizationOwner::verify_historical_event] *)
Definition owner_verify_historical_event (input : HistoricalInput) :
    Task VerifiedAuthorizationEvent :=
  let event := historical_event input in
  let! signed := authority_material owner (event_authority_digest event)
                   "wrong authority material" in
  let! status := lift (historical_scope owner signed input) in
  let! revocation := match status_revocation status with
                     | Some text => let! r := lift (json (from_slice text)) in ret (Some r)
                     | None => ret None
                     end in
  let! key := issuer owner (issuer_key_id (unsigned signed)) in
  let! _ := match revocation with
            | Some r =>
                let! _ := issuer owner (revocation_issuer_key_id r) in
                run_accept_revocation owner r
            | None => ret tt
            end in
  let! reference := lift (ok_or (find (fun api => String.eqb (authority_api_id api)
                                                    (event_api_id event))
                                   (apis (unsigned signed))) denied) in
  let! catalog := catalog_material owner (authority_catalog_snapshot_digest reference) in
  let! _ := issuer owner (snapshot_issuer_key_id (auth_record catalog)) in
  let! provider := publisher_certificate signed catalog input in
  let! now := policy_now in
  let! s := lock in
  lift (admit_historical owner s now signed (key_id key) revocation catalog provider input).
End admission.
