(* ===== verification/OwnerConcurrency.v ===== *)
(** * Tasks of the owner among other tasks

    What the interleaved operations of [OwnerTasks] and [OwnerAdmission] guarantee.  Other
    tasks are relied on to change what is shared only by the steps below, and every
    operation is shown to make no other steps itself; so the facts no step undoes hold
    across any interleaving. *)

From Stdlib Require Import Ascii String.
From S2P Require Import Prelude RustStr Extern Json Transcript Base64 Protocol Wire.
From S2P Require Import Authorization Identifiers Permissions SessionAuthority Catalog.
From S2P Require Import SessionMessages SessionResponse VerificationCore IssuerMetadata.
From S2P Require Import AuthorizationOwner OwnerSafety OwnerTasks OwnerAdmission.

Local Open Scope string_scope.

Local Existing Instance json_tree.

Local Opaque MAX_ISSUERS MAX_OBSERVED_REVOCATIONS MAX_CACHED_MATERIAL.

(** The operations known to be safe. *)
Create HintDb owner_tasks.

Section concurrency.
Context `{Base64Url, Sha256, Ed25519, UlidParser, UrlParser, Rfc3339} `{!CanonicalJson}.
Context `{!FromValue CallerUser}.
Context `{JsonCodec Json, JsonCodec SignedIssuerMetadata, JsonCodec AuthorityIssuerKey}.
Context `{JsonCodec AuthorityMaterial, JsonCodec AuthorizationSessionStatus, JsonCodec IssuerChain}.
Context `{JsonCodec SignedSessionAuthority, JsonCodec SignedCatalogSnapshot}.
Context `{JsonCodec SignedProviderCertificate, JsonCodec SignedIssuerRotation}.
Context `{JsonCodec IssuerMetadataRequest, JsonCodec SignedSessionRevocation}.
Context (owner : Owner).

Let instance := trust_instance_id (owner_trust owner).
Let account := trust_account (owner_trust owner).

(** ** Steps *)

(** The issuer table has the key under the id. *)
Definition known_key (s : OwnerState) (k : AuthorityIssuerKey) : Prop :=
  exists k', issuers s !! key_id k = Some k' /\ public_key k' = public_key k.

(** The material is what its key asks for, authenticated by a key of the table. *)
Definition authentic (s : OwnerState) (key : MaterialKey) (m : RegistryMaterial) : Prop :=
  match m with
  | MaterialAuthority a =>
      fst key = KindAuthority /\ authority_digest a = Ok (snd key) /\
      exists k now cutoff v, known_key s k /\
        verify_session_authority {|
          input_issuer := k; input_instance_id := instance; input_nats_account := account;
          input_authority := a; input_policy := owner_policy now;
          input_purpose := PurposeHistoricalEvent; input_revocation_cutoff := cutoff |} = Ok v
  | MaterialCatalog c =>
      fst key = KindCatalog /\ auth_digest c = snd key /\
      exists k, known_key s k /\ authenticate_catalog (auth_record c) k instance account = Ok c
  | MaterialProvider c =>
      fst key = KindProvider /\ auth_digest c = snd key /\
      exists k, known_key s k /\ authenticate_certificate (auth_record c) k instance account = Ok c
  end.

(** What a task may do to what is shared: an owner step, letting time pass, and the changes
    of the cache and its cells, of which only authentic material gets into a cell. *)
Inductive shared_step : Shared -> Shared -> Prop :=
| shared_owner sh t s :
    owner_step owner (sh_clock sh, sh_owner sh) (t, s) ->
    shared_step sh (sh <| sh_clock := t |> <| sh_owner := s |>)
| shared_time sh t :
    (sh_clock sh <= t)%Z -> shared_step sh (sh <| sh_clock := t |>)
| shared_cell sh key :
    shared_step sh (sh <| sh_cells := (sh_cells sh ++ [mkCell key None])%list |>)
| shared_entry sh key id used v :
    sh_cells sh !! id = Some (mkCell key v) ->
    (size (<[key := mkCacheEntry id used]> (sh_material sh)) <= MAX_CACHED_MATERIAL)%nat ->
    shared_step sh (sh <| sh_material := <[key := mkCacheEntry id used]> (sh_material sh) |>)
| shared_remove sh key :
    shared_step sh (sh <| sh_material := delete key (sh_material sh) |>)
| shared_init sh id key r :
    sh_cells sh !! id = Some (mkCell key None) ->
    (forall m, r = Ok m -> authentic (sh_owner sh) key m) ->
    shared_step sh (sh <| sh_cells := <[id := mkCell key (Some r)]> (sh_cells sh) |>)
| shared_permit sh n : shared_step sh (sh <| sh_permits := n |>).

Notation shared_steps := (rtc shared_step).

Record shared_wf (sh : Shared) : Prop := {
  shared_owner_wf : owner_wf owner (sh_owner sh);
  shared_entries : forall key entry, sh_material sh !! key = Some entry ->
    exists v, sh_cells sh !! entry_cell entry = Some (mkCell key v);
  shared_cells : forall id key m, sh_cells sh !! id = Some (mkCell key (Some (Ok m))) ->
    authentic (sh_owner sh) key m;
  shared_capacity : (size (sh_material sh) <= MAX_CACHED_MATERIAL)%nat;
}.

(** ** What no step undoes *)

(** A fact of the clock and the owner's state that no step and no time undoes. *)
Definition lasting (P : Z -> OwnerState -> Prop) : Prop :=
  (forall t s t' s', owner_step owner (t, s) (t', s') -> P t s -> P t' s') /\
  (forall t t' s, (t <= t')%Z -> P t s -> P t' s).

Lemma lasting_steps P sh sh' :
  lasting P -> shared_steps sh sh' -> P (sh_clock sh) (sh_owner sh) ->
  P (sh_clock sh') (sh_owner sh').
Proof.
  intros [Hstep Htime]. induction 1 as [|sh sh1 sh2 Hone _ IH]; [done|]. intros HP. apply IH.
  destruct Hone; cbn in *; eauto.
Qed.

Lemma step_clock t s t' s' : owner_step owner (t, s) (t', s') -> (t <= t')%Z.
Proof. inversion 1; subst; lia. Qed.

Lemma clock_monotone sh sh' : shared_steps sh sh' -> (sh_clock sh <= sh_clock sh')%Z.
Proof.
  intros Hs. apply (lasting_steps (fun t _ => sh_clock sh <= t)%Z sh sh'); [|done|lia].
  split; [intros t s t' s' Ho%step_clock|intros]; lia.
Qed.

Lemma step_issuers t s t' s' :
  owner_step owner (t, s) (t', s') ->
  forall id k, issuers s !! id = Some k ->
    exists k', issuers s' !! id = Some k' /\ public_key k' = public_key k.
Proof.
  intros Hstep id k Hk. inversion Hstep as
    [? ? r ? ? Hle Hr|? ? r ? Hle|? ? ? ? ? ? ? ? h ? Hm Hv|? ? ? ? ? ? ? ? Hle Hle' Hp
    |? ? ?|? ? ? ? ? Hle Hr|? ? ? ?|? ?|? ? ?]; subst; eauto.
  - apply accept_issuer_rotation_ok in Hr as (next & _ & _ & Hnew & ->). cbn.
    assert (id <> key_id next) by congruence. rewrite lookup_insert_ne by done. eauto.
  - destruct (accept_revocation_fields owner s t' r) as (_ & _ & -> & _). eauto.
  - unfold install_historical. destruct (decide (id = key_id h)) as [->|Hne].
    + rewrite Hk. case_match eqn:Hb; [eauto|]. apply negb_false_iff, String.eqb_eq in Hb.
      case_match; cbn; eauto. rewrite lookup_insert_eq. eauto.
    + repeat case_match; cbn; eauto; rewrite lookup_insert_ne; eauto.
  - apply promote_own_ok in Hp as [-> _]. eauto.
  - apply coverage_ready_ok in Hr as [_ ->]. eauto.
  - unfold coverage_drop. cbn zeta. case_match; cbn; eauto.
  - unfold fence_revocation_coverage. cbn zeta. repeat case_match; cbn; eauto.
Qed.

Lemma known_key_lasting k : lasting (fun _ s => known_key s k).
Proof.
  split; [|done]. intros t s t' s' Hstep (k1 & Hk & Hp).
  destruct (step_issuers _ _ _ _ Hstep _ _ Hk) as (k2 & Hk2 & Hp2). exists k2. split; congruence.
Qed.

Lemma authentic_lasting key m : lasting (fun _ s => authentic s key m).
Proof.
  split; [|done]. intros t s t' s' Hstep.
  assert (forall k, known_key s k -> known_key s' k) as Hk
    by (intros k; by apply (proj1 (known_key_lasting k) t s t' s')).
  destruct m as [a|c|c]; cbn.
  - intros (? & ? & k & now & cutoff & v & ? & ?). split_and!; try done. exists k, now, cutoff, v. auto.
  - intros (? & ? & k & ? & ?). split_and!; try done. exists k. auto.
  - intros (? & ? & k & ? & ?). split_and!; try done. exists k. auto.
Qed.

Lemma shared_step_wf sh sh' : shared_step sh sh' -> shared_wf sh -> shared_wf sh'.
Proof.
  intros Hstep [Hwf Hent Hcel Hcap].
  destruct Hstep as [sh t s Hs|sh t Ht|sh key|sh key id used v Hv Hsize|sh key|sh id key r Hc Ha|sh n].
  - split; cbn; try done; [by eapply step_wf|]. intros id key m Hm.
    eapply (proj1 (authentic_lasting key m)); [exact Hs|]. eauto.
  - by split.
  - split; cbn; try done.
    + intros k e He. destruct (Hent k e He) as [v Hv]. exists v. by apply lookup_app_l_Some.
    + intros id k m [Hm|[_ Hm]]%lookup_app_Some; [eauto|].
      by apply list_lookup_singleton_Some in Hm as [_ [=]].
  - split; cbn; try done. intros k e [[<- <-]|[_ He]]%lookup_insert_Some; [by exists v|eauto].
  - split; cbn; try done.
    + intros k e [_ He]%lookup_delete_Some. eauto.
    + rewrite map_size_delete. destruct (sh_material sh !! key); [|done]. revert Hcap. cbn. lia.
  - split; cbn; try done.
    + intros k e He. destruct (Hent k e He) as [v Hv].
      destruct (decide (entry_cell e = id)) as [Heq|Hne].
      * rewrite Heq, Hc in Hv. injection Hv as -> <-. exists (Some r). rewrite Heq.
        apply list_lookup_insert_eq. by eapply lookup_lt_Some.
      * exists v. by rewrite list_lookup_insert_ne.
    + intros id' k m Hm. apply list_lookup_insert_Some in Hm as [(_ & [= -> ->] & _)|[_ Hm]]; eauto.
  - by split.
Qed.

Lemma shared_steps_wf sh sh' : shared_steps sh sh' -> shared_wf sh -> shared_wf sh'.
Proof. induction 1; eauto using shared_step_wf. Qed.

(** ** Operations make no other steps *)

Section tasks.
Context `{!Environment}.

(** What is relied on: the other tasks make such steps. *)
Definition relies : Prop := forall w,
  shared_wf (fst w) -> shared_steps (fst w) (fst (env_turn w)).

Context (Hrely : relies).

(** What is guaranteed of an operation. *)
Definition safe {T} (m : Task T) : Prop := forall w,
  shared_wf (fst w) -> shared_steps (fst w) (fst (snd (m w))).

Lemma safe_wf {T} (m : Task T) w r w' :
  shared_wf (fst w) -> m w = (r, w') -> safe m ->
  shared_steps (fst w) (fst w') /\ shared_wf (fst w').
Proof.
  intros Hwf Hm Hs. specialize (Hs w Hwf). rewrite Hm in Hs.
  split; [done|]. by eapply shared_steps_wf.
Qed.

Lemma safe_ret {T} (t : T) : safe (ret t).
Proof. by intros w _. Qed.

Lemma safe_fail {T} e : safe (@fail _ _ T e).
Proof. by intros w _. Qed.

Lemma safe_lift {T} (r : result T OwnerError) : safe (lift r).
Proof. by intros w _. Qed.

Lemma safe_observe {T} (f : Env -> T) : safe (observe f).
Proof. by intros w _. Qed.

Lemma safe_elapse {T} : safe (@elapse _ _ T).
Proof. by intros w _. Qed.

Lemma safe_bind {T U} (m : Task T) (k : T -> Task U) :
  safe m -> (forall t, safe (k t)) -> safe (bind m k).
Proof.
  intros Hm Hk w Hwf. unfold bind. destruct (m w) as [[t|e] w1] eqn:Hw;
    destruct (safe_wf m w _ w1 Hwf Hw Hm) as [Hs Hwf1]; cbn; [|done].
  etrans; [exact Hs|]. by apply Hk.
Qed.

Lemma safe_attempt {T} (m : Task T) : safe m -> safe (attempt m).
Proof.
  intros Hm w Hwf. specialize (Hm w Hwf). unfold attempt.
  destruct (m w) as [[t|[e|n]] w1]; exact Hm.
Qed.

Lemma safe_timeout {T} message (m : Task T) : safe m -> safe (timeout message m).
Proof.
  intros Hm w Hwf. specialize (Hm w Hwf). unfold timeout.
  destruct (m w) as [[t|[e|[|n]]] w1]; exact Hm.
Qed.

Lemma safe_await : safe await.
Proof.
  intros w Hwf. specialize (Hrely w Hwf). unfold await.
  destruct (env_elapsed (snd (env_turn w))); exact Hrely.
Qed.

Lemma safe_lock : safe lock.
Proof. intros w Hwf. by apply Hrely. Qed.

Lemma policy_now_clock w : (sh_clock (fst w) <= sh_clock (fst (snd (policy_now w))))%Z.
Proof. unfold policy_now. destruct (env_lapse (snd w)). cbn. lia. Qed.

Lemma safe_policy_now : safe policy_now.
Proof.
  intros w Hwf. apply rtc_once. unfold policy_now. destruct (env_lapse (snd w)) as [lapse e]. cbn.
  apply shared_time. lia.
Qed.

Lemma safe_with_permit {T} message (m : Task T) : safe m -> safe (with_permit message m).
Proof.
  intros Hm [sh e] Hwf. unfold with_permit. destruct (sh_permits sh) as [|free]; [done|].
  assert (shared_step sh (sh <| sh_permits := free |>)) as Hp by apply shared_permit.
  assert (shared_wf (sh <| sh_permits := free |>)) as Hwf' by by eapply shared_step_wf.
  specialize (Hm (sh <| sh_permits := free |>, e) Hwf').
  destruct (m _) as [r [sh' e']]. cbn in *. eapply rtc_l; [exact Hp|]. eapply rtc_r; [exact Hm|].
  apply shared_permit.
Qed.

Lemma owner_steps_shared sh c :
  rtc (owner_step owner) (sh_clock sh, sh_owner sh) c ->
  shared_steps sh (sh <| sh_clock := fst c |> <| sh_owner := snd c |>).
Proof.
  remember (sh_clock sh, sh_owner sh) as c0 eqn:Hc0. intros Hs. revert sh Hc0.
  induction Hs as [c|c [t s] c2 Hone _ IH]; intros sh ->; [by destruct sh|].
  eapply rtc_l; [by apply shared_owner|]. exact (IH (sh <| sh_clock := t |> <| sh_owner := s |>) eq_refl).
Qed.

Lemma safe_reading {T} (f : OwnerState -> Z -> result T OwnerError) : safe (reading f).
Proof.
  apply safe_bind; [apply safe_lock|]. intros s.
  apply safe_bind; [apply safe_policy_now|]. intros now. apply safe_lift.
Qed.

Lemma safe_writing {T} (f : OwnerState -> Z -> OwnerState * result T OwnerError) :
  (forall s t now, (t <= now)%Z ->
     exists t', (t' <= now)%Z /\ rtc (owner_step owner) (t, s) (t', fst (f s now))) ->
  safe (writing f).
Proof.
  intros Hf w Hwf. specialize (Hrely w Hwf). etrans; [exact Hrely|].
  unfold writing, bind, lock, policy_now. destruct (env_turn w) as [sh e]. cbn.
  destruct (env_lapse e) as [lapse e']. set (now := (sh_clock sh + Z.of_N lapse)%Z).
  destruct (Hf (sh_owner sh) (sh_clock sh) now ltac:(lia)) as (t' & Ht & Hs). cbn.
  destruct (f (sh_owner sh) now) as [s' outcome]. cbn in *.
  apply owner_steps_shared in Hs. cbn in Hs. eapply rtc_r; [exact Hs|].
  exact (shared_time (sh <| sh_clock := t' |> <| sh_owner := s' |>) now Ht).
Qed.

Lemma safe_lift_bind {T U} (r : result T OwnerError) (k : T -> Task U) :
  (forall t, r = Ok t -> safe (k t)) -> safe (bind (lift r) k).
Proof. intros Hk w Hwf. unfold bind, lift. destruct r as [t|e]; cbn; [by apply Hk|done]. Qed.

Hint Resolve safe_ret safe_fail safe_lift safe_observe safe_elapse safe_attempt safe_timeout
  safe_await safe_lock safe_policy_now safe_with_permit safe_reading : owner_tasks.

Ltac solve_safe :=
  repeat first
    [ progress intros
    | solve [auto with owner_tasks]
    | apply safe_bind
    | apply safe_attempt
    | apply safe_timeout
    | apply safe_with_permit
    | match goal with |- safe (match ?x with _ => _ end) => destruct x end
    | match goal with |- safe (if ?x then _ else _) => destruct x end ].

Lemma safe_accept_issuer_rotation r : safe (run_accept_issuer_rotation owner r).
Proof.
  apply safe_writing. intros s t now Ht.
  destruct (accept_issuer_rotation owner s now r) as [s'|e] eqn:Hr; cbn;
    [exists now|by exists t]. split; [lia|]. apply rtc_once. by eapply step_rotation.
Qed.

Lemma safe_accept_revocation r : safe (run_accept_revocation owner r).
Proof.
  apply safe_writing. intros s t now Ht. exists now. split; [lia|].
  apply rtc_once. by apply step_revocation.
Qed.

Hint Resolve safe_accept_issuer_rotation safe_accept_revocation : owner_tasks.

Lemma safe_assert_current v : safe (run_assert_current owner v).
Proof. apply safe_reading. Qed.

Lemma safe_verify_authority signed k purpose : safe (run_verify_authority owner signed k purpose).
Proof. apply safe_reading. Qed.

Lemma safe_renewal_pending : safe run_issuer_renewal_pending.
Proof. apply safe_reading. Qed.

Hint Resolve safe_assert_current safe_verify_authority safe_renewal_pending : owner_tasks.

Lemma safe_own_authority : safe (run_own_authority owner).
Proof. unfold run_own_authority. solve_safe. Qed.

Lemma safe_registry_read key n : safe (registry_read key n).
Proof. unfold registry_read. solve_safe. Qed.

Hint Resolve safe_own_authority safe_registry_read : owner_tasks.

Lemma safe_registry_material kind digest : safe (registry_material kind digest).
Proof. unfold registry_material. solve_safe. Qed.

Lemma safe_registry_rotation n : safe (registry_rotation n).
Proof. unfold registry_rotation. solve_safe. Qed.

Hint Resolve safe_registry_material safe_registry_rotation : owner_tasks.

Lemma safe_install_oauth_rotations rotations : safe (install_oauth_rotations owner rotations).
Proof.
  apply safe_bind; [apply safe_await|]. intros _.
  induction rotations as [|r rotations IH]; cbn [install_rotations]; solve_safe.
Qed.

Lemma safe_follow_rotations id fuel : safe (follow_rotations owner id fuel).
Proof. induction fuel as [|fuel IH]; cbn [follow_rotations]; solve_safe. Qed.

Hint Resolve safe_follow_rotations : owner_tasks.

Lemma safe_forward_issuer id : safe (forward_issuer owner id).
Proof. unfold forward_issuer. solve_safe. Qed.

Hint Resolve safe_forward_issuer : owner_tasks.

Lemma safe_verify_metadata_inner bytes request subject reply :
  safe (verify_metadata_inner owner bytes request subject reply).
Proof.
  unfold verify_metadata_inner. do 3 (apply safe_bind; [auto with owner_tasks|intros ?]).
  do 3 (apply safe_bind; [auto with owner_tasks|intros ?]). apply safe_lift_bind. intros v Hv.
  unfold protocol in Hv. apply map_err_ok in Hv.
  destruct (metadata_query request); [|apply safe_ret..].
  destruct (verified_value v) as [[h| | |]|] eqn:Hval; try apply safe_ret.
  apply safe_bind; [|auto with owner_tasks]. apply safe_writing. intros s' clock now' Ht. exists clock.
  split; [done|]. apply rtc_once. by eapply step_metadata.
Qed.

Hint Resolve safe_verify_metadata_inner : owner_tasks.

Lemma safe_historical_replies id request reply candidates bytes :
  safe (historical_replies owner id request reply candidates bytes).
Proof.
  revert bytes. induction candidates as [|candidates IH]; intros bytes; cbn [historical_replies];
    unfold next_reply; solve_safe.
Qed.

Hint Resolve safe_historical_replies : owner_tasks.

Lemma safe_issuer id : safe (issuer owner id).
Proof. unfold issuer, metadata_request_for, broker_call. solve_safe. Qed.

Hint Resolve safe_issuer : owner_tasks.

Lemma safe_fetch_material kind digest : safe (fetch_material owner kind digest).
Proof. unfold fetch_material. solve_safe. Qed.

Hint Resolve safe_fetch_material : owner_tasks.

(** ** What an operation that returns has done *)

Lemma bind_ok {T U} (m : Task T) (k : T -> Task U) w u w' :
  bind m k w = (Ok u, w') <-> exists t w1, m w = (Ok t, w1) /\ k t w1 = (Ok u, w').
Proof.
  unfold bind. split.
  - destruct (m w) as [[t|e] w1]; [eauto|done].
  - by intros (t & w1 & -> & ?).
Qed.

Lemma lift_ok {T} (r : result T OwnerError) w t w' : lift r w = (Ok t, w') -> r = Ok t /\ w' = w.
Proof. unfold lift. destruct r; [|done]. by intros [= <- <-]. Qed.

Lemma ret_ok {T} (t u : T) w w' : ret t w = (Ok u, w') -> u = t /\ w' = w.
Proof. by intros [= <- <-]. Qed.

Lemma attempt_ok {T} (m : Task T) w t w' : attempt m w = (Ok (Ok t), w') -> m w = (Ok t, w').
Proof. unfold attempt. destruct (m w) as [[u|[e|n]] w1]; by intros [= <- <-]. Qed.

Lemma timeout_ok {T} message (m : Task T) w t w' :
  timeout message m w = (Ok t, w') -> m w = (Ok t, w').
Proof. unfold timeout. destruct (m w) as [[u|[e|[|n]]] w1]; by intros [= <- <-]. Qed.

Lemma lock_ok w s w' : lock w = (Ok s, w') -> s = sh_owner (fst w').
Proof. by intros [= <- <-]. Qed.

Lemma policy_now_ok w now w' :
  policy_now w = (Ok now, w') ->
  sh_owner (fst w') = sh_owner (fst w) /\ now = sh_clock (fst w') /\
  (sh_clock (fst w) <= now)%Z.
Proof. unfold policy_now. destruct (env_lapse (snd w)). intros [= <- <-]. cbn. split_and!; try done. lia. Qed.

Lemma reading_ok {T} (f : OwnerState -> Z -> result T OwnerError) w t w' :
  reading f w = (Ok t, w') ->
  f (sh_owner (fst w')) (sh_clock (fst w')) = Ok t.
Proof.
  unfold reading. intros (s & w1 & Hs & (now & w2 & Hn & [Hf ->]%lift_ok)%bind_ok)%bind_ok.
  apply lock_ok in Hs as ->. apply policy_now_ok in Hn as (-> & -> & _). done.
Qed.

Lemma with_permit_ok {T} message (m : Task T) w t w' :
  with_permit message m w = (Ok t, w') ->
  exists w1 w2, shared_step (fst w) (fst w1) /\ m w1 = (Ok t, w2) /\
    sh_owner (fst w') = sh_owner (fst w2).
Proof.
  unfold with_permit. destruct w as [sh e]. destruct (sh_permits sh) as [|free]; [done|].
  destruct (m (sh <| sh_permits := free |>, e)) as [r [sh' e']] eqn:Hm. intros [= -> <-].
  eexists _, _. split; [|split; [exact Hm|done]]. apply shared_permit.
Qed.

Lemma state_issuer_known s id now k :
  owner_wf owner s -> state_issuer s id now = Some k -> known_key s k /\ key_id k = id.
Proof.
  unfold state_issuer, known_key. intros Hwf.
  destruct (issuers s !! id) as [k0|] eqn:Hk; [|done]. intros [= <-].
  destruct (owner_keys _ _ Hwf _ _ Hk) as [Hid _]. case_match; cbn; rewrite Hid; eauto.
Qed.

(** One more operation of a sequence has run: [w] is where it left off and [Hs] the steps
    it made from the well-formed state of [Hwf]. *)
Tactic Notation "run" hyp(H) "from" hyp(Hwf) "as" ident(x) ident(w) ident(Hx) ident(Hs) ident(Hw) :=
  apply bind_ok in H as (x & w & Hx & H);
  destruct (safe_wf _ _ _ _ Hwf Hx ltac:(auto with owner_tasks)) as [Hs Hw].

(** The last operation. *)
Tactic Notation "ends" hyp(H) := first [apply ret_ok in H as [-> ->] | apply lift_ok in H as [H ->]].

Lemma follow_rotations_known id fuel w k w' :
  shared_wf (fst w) -> follow_rotations owner id fuel w = (Ok k, w') ->
  known_key (sh_owner (fst w')) k /\ key_id k = id.
Proof.
  revert w. induction fuel as [|fuel IH]; intros w Hwf; cbn [follow_rotations]; [done|].
  intros Hf. run Hf from Hwf as s w1 Hs Hs1 Hwf1. run Hf from Hwf1 as now w2 Hn Hs2 Hwf2.
  apply lock_ok in Hs as ->. apply policy_now_ok in Hn as (Ho & _). rewrite <- Ho in Hf.
  destruct (state_issuer _ _ _) as [k0|] eqn:Hk.
  - ends Hf. eapply state_issuer_known; [by apply shared_owner_wf|done].
  - destruct (Nat.leb _ _); [done|]. run Hf from Hwf2 as next w3 Hx Hs3 Hwf3.
    run Hf from Hwf3 as answer w4 Ha Hs4 Hwf4. run Hf from Hwf4 as r w5 Hr Hs5 Hwf5.
    run Hf from Hwf5 as u w6 Hu Hs6 Hwf6. by eapply IH.
Qed.

Lemma forward_issuer_known id w k w' :
  shared_wf (fst w) -> forward_issuer owner id w = (Ok k, w') ->
  known_key (sh_owner (fst w')) k /\ key_id k = id.
Proof.
  intros Hwf. unfold forward_issuer. destruct (invalid_digest id); [done|].
  intros Hf%timeout_ok. run Hf from Hwf as s w1 Hs Hs1 Hwf1. run Hf from Hwf1 as now w2 Hn Hs2 Hwf2.
  apply lock_ok in Hs as ->. apply policy_now_ok in Hn as (Ho & _). rewrite <- Ho in Hf.
  destruct (state_issuer _ _ _) as [k0|] eqn:Hk.
  - ends Hf. eapply state_issuer_known; [by apply shared_owner_wf|done].
  - run Hf from Hwf2 as u w3 Hu Hs3 Hwf3. by eapply follow_rotations_known.
Qed.

Lemma historical_replies_known id request reply candidates bytes w k w' :
  shared_wf (fst w) -> historical_replies owner id request reply candidates bytes w = (Ok k, w') ->
  known_key (sh_owner (fst w')) k /\ key_id k = id.
Proof.
  assert (safe next_reply) as Hnext by (unfold next_reply; solve_safe).
  revert bytes w. induction candidates as [|candidates IH]; intros bytes w Hwf;
    cbn [historical_replies]; intros Hf; run Hf from Hwf as message w1 Hm Hs1 Hwf1;
    (destruct message as [payload|]; [|done]); [done|].
  destruct (N.ltb _ _); [done|].
  run Hf from Hwf1 as outcome w2 Ho Hs2 Hwf2. destruct outcome as [v|e]; [|by eapply IH].
  destruct (metadata_result _); try done.
  destruct (safe_wf _ _ _ _ Hwf2 Hf (safe_reading _)) as [_ Hwf'].
  apply reading_ok, ok_or_ok in Hf. eapply state_issuer_known; [by apply shared_owner_wf|done].
Qed.

Lemma issuer_known id w k w' :
  shared_wf (fst w) -> issuer owner id w = (Ok k, w') ->
  known_key (sh_owner (fst w')) k /\ key_id k = id.
Proof.
  intros Hwf. unfold issuer. destruct (invalid_digest id); [done|].
  intros Hf. run Hf from Hwf as forward w1 Ho Hs1 Hwf1. destruct forward as [k0|e].
  - ends Hf. apply attempt_ok in Ho. exact (forward_issuer_known _ _ _ _ Hwf Ho).
  - run Hf from Hwf1 as s w2 Hs Hs2 Hwf2. destruct (bool_decide _); [done|].
    apply with_permit_ok in Hf as (w3 & w4 & Hp & Hf%timeout_ok & ->).
    assert (shared_wf (fst w3)) as Hwf3 by by eapply shared_step_wf.
    assert (forall q, safe (metadata_request_for owner q)) as Hreq
      by (intros q; unfold metadata_request_for; solve_safe).
    assert (forall message, safe (broker_call message)) as Hcall
      by (intros message; unfold broker_call; solve_safe).
    run Hf from Hwf3 as request w5 H1' Hs5 Hwf5. run Hf from Hwf5 as inbox w6 H2' Hs6 Hwf6.
    run Hf from Hwf6 as u7 w7 H3' Hs7 Hwf7. run Hf from Hwf7 as u8 w8 H4' Hs8 Hwf8.
    run Hf from Hwf8 as u9 w9 H5' Hs9 Hwf9. run Hf from Hwf9 as u10 w10 H6' Hs10 Hwf10.
    by eapply historical_replies_known.
Qed.

(** ** Material *)

Lemma registry_material_digest kind digest w m w' :
  registry_material kind digest w = (Ok m, w') ->
  material_digest m = Ok digest /\
  match m with
  | UnverifiedAuthority _ => kind = KindAuthority
  | UnverifiedCatalog _ => kind = KindCatalog
  | UnverifiedProvider _ => kind = KindProvider
  end.
Proof.
  unfold registry_material. destruct (negb (is_canonical 32 digest)); [done|].
  destruct (match kind with KindAuthority => _ | KindCatalog => _ | KindProvider => _ end)
    as [prefix bytes].
  intros (answer & w1 & _ & (text & w2 & _ & (m' & w3 & [Hd _]%lift_ok &
    (actual & w4 & [Ha _]%lift_ok & Hf)%bind_ok)%bind_ok)%bind_ok)%bind_ok.
  destruct (String.eqb_spec actual digest) as [->|]; [|done]. cbn in Hf. ends Hf.
  unfold protocol in Ha. apply map_err_ok in Ha. split; [done|].
  destruct kind; cbn in Hd; by peel Hd as x Hx; injection Hd as <-.
Qed.

Lemma fetch_material_authentic kind digest w m w' :
  shared_wf (fst w) -> fetch_material owner kind digest w = (Ok m, w') ->
  authentic (sh_owner (fst w')) (kind, digest) m.
Proof.
  intros Hwf. unfold fetch_material. intros Hf. run Hf from Hwf as u w1 Hu Hs1 Hwf1.
  apply registry_material_digest in Hu as [Hd Hkind].
  run Hf from Hwf1 as k w2 Hk Hs2 Hwf2. destruct (issuer_known _ _ _ _ Hwf1 Hk) as [Hkey _].
  destruct u as [a|c|c]; cbn in Hd; subst kind.
  - run Hf from Hwf2 as v w3 Hv Hs3 Hwf3. ends Hf. apply reading_ok in Hv.
    unfold owner_verify_authority, protocol in Hv. peel Hv as Ho. peel Hv as k' Hk'.
    apply map_err_ok in Hv. split_and!; [done..|]. eexists k', _, _, v. split; [|exact Hv].
    eapply state_issuer_known; [by apply shared_owner_wf|done].
  - run Hf from Hwf2 as c' w3 Hc Hs3 Hwf3. ends Hf. apply lift_ok in Hc as [Hc ->].
    unfold protocol in Hc. apply map_err_ok in Hc. pose proof Hc as Hc'.
    unfold authenticate_catalog in Hc'. peel Hc' as u Hv. peel Hc' as digest' Hd'.
    injection Hc' as <-. cbn in *. split_and!; [done|congruence|]. by exists k.
  - run Hf from Hwf2 as c' w3 Hc Hs3 Hwf3. ends Hf. apply lift_ok in Hc as [Hc ->].
    unfold protocol in Hc. apply map_err_ok in Hc. pose proof Hc as Hc'.
    unfold authenticate_certificate in Hc'. peel Hc' as u Hv. peel Hc' as digest' Hd'.
    injection Hc' as <-. cbn in *. split_and!; [done|congruence|]. by exists k.
Qed.

(** The cell is for the key. *)
Definition cell_for (id : nat) (key : MaterialKey) (sh : Shared) : Prop :=
  exists v, sh_cells sh !! id = Some (mkCell key v).

Lemma cell_for_steps id key sh sh' : shared_steps sh sh' -> cell_for id key sh -> cell_for id key sh'.
Proof.
  unfold cell_for. induction 1 as [|sh sh1 sh2 Hone _ IH]; [done|]. intros [v Hv]. apply IH.
  destruct Hone as [| |sh key'| | |sh id' key' r Hc _|]; cbn; eauto.
  - exists v. by apply lookup_app_l_Some.
  - destruct (decide (id' = id)) as [->|Hne]; [|exists v; by rewrite list_lookup_insert_ne].
    rewrite Hc in Hv. injection Hv as -> <-. exists (Some r).
    apply list_lookup_insert_eq. by eapply lookup_lt_Some.
Qed.

Lemma size_room {A} (m : gmap MaterialKey A) key a :
  (size m < MAX_CACHED_MATERIAL)%nat -> (size (<[key := a]> m) <= MAX_CACHED_MATERIAL)%nat.
Proof.
  intros Hs. destruct (m !! key) eqn:Hk;
    [rewrite map_size_insert_Some by eauto|rewrite map_size_insert_None by done]; lia.
Qed.

Definition has_room (key : MaterialKey) (sh : Shared) : Prop :=
  is_Some (sh_material sh !! key) \/ (size (sh_material sh) < MAX_CACHED_MATERIAL)%nat.

Lemma oldest_elem l x : oldest l = Some x -> x ∈ l.
Proof.
  revert x. induction l as [|a l IH]; intros x; cbn; [done|].
  destruct (oldest l) as [b|]; [|intros [= <-]; left].
  case_match; intros [= <-]; [left|right; by apply IH].
Qed.

Lemma victim_present e sh key : victim e sh = Some key -> is_Some (sh_material sh !! key).
Proof.
  unfold victim. destruct (oldest _) as [[k entry]|] eqn:Ho; [|done]. intros [= <-].
  apply oldest_elem, list_elem_of_In, filter_In in Ho as [Hin _].
  apply list_elem_of_In, elem_of_map_to_list in Hin. eauto.
Qed.

Lemma make_room_steps e key sh sh' :
  shared_wf sh -> make_room e key sh = Some sh' -> shared_steps sh sh' /\ has_room key sh'.
Proof.
  intros Hwf. unfold make_room, has_room.
  destruct (decide (is_Some (sh_material sh !! key))) as [Hk|Hk];
    [rewrite bool_decide_eq_true_2 by done|rewrite bool_decide_eq_false_2 by done]; cbn [negb andb].
  - intros [= <-]. split; [done|by left].
  - pose proof (shared_capacity _ Hwf).
    destruct (Nat.leb_spec MAX_CACHED_MATERIAL (size (sh_material sh))); [|by intros [= <-]; split; [|right]].
    destruct (victim e sh) as [evicted|] eqn:Hv; [|done]. intros [= <-]. cbn.
    split; [apply rtc_once, shared_remove|right]. apply victim_present in Hv as [entry He].
    rewrite map_size_delete, He. pose proof (map_size_ne_0_lookup_2 (sh_material sh) evicted (ex_intro _ _ He)). lia.
Qed.

Lemma enter_key_steps instant key sh id sh' :
  shared_wf sh -> has_room key sh -> enter_key instant key sh = (id, sh') ->
  shared_steps sh sh' /\ cell_for id key sh'.
Proof.
  intros Hwf Hroom. unfold enter_key, cell_for.
  destruct (sh_material sh !! key) as [entry|] eqn:He; intros [= <- <-].
  - destruct (shared_entries _ Hwf _ _ He) as [v Hv]. split; [|by exists v].
    apply rtc_once, (shared_entry sh key (entry_cell entry) instant v Hv).
    rewrite map_size_insert_Some by eauto. by apply shared_capacity.
  - destruct Hroom as [[? ?]|Hsize]; [congruence|].
    assert ((sh_cells sh ++ [mkCell key None])%list !! List.length (sh_cells sh)
            = Some (mkCell key None)) as Hcell by by apply list_lookup_middle.
    split; [|by exists None]. eapply rtc_l; [apply (shared_cell sh key)|].
    apply rtc_once.
    exact (shared_entry (sh <| sh_cells := (sh_cells sh ++ [mkCell key None])%list |>) key
             (List.length (sh_cells sh)) instant None Hcell (size_room _ _ _ Hsize)).
Qed.

Lemma cache_slot_ok key w r w' :
  shared_wf (fst w) -> cache_slot key w = (r, w') ->
  shared_steps (fst w) (fst w') /\ forall id, r = Ok id -> cell_for id key (fst w').
Proof.
  intros Hwf. unfold cache_slot. pose proof (Hrely w Hwf) as Hturn.
  destruct (env_turn w) as [sh e]. cbn in Hturn.
  assert (shared_wf sh) as Hwf1 by by eapply shared_steps_wf.
  destruct (make_room e key sh) as [sh1|] eqn:Hr; [|by intros [= <- <-]].
  destruct (make_room_steps _ _ _ _ Hwf1 Hr) as [Hs1 Hroom].
  assert (shared_wf sh1) as Hwf2 by by eapply shared_steps_wf.
  destruct (enter_key (env_instant e) key sh1) as [id sh2] eqn:He. intros [= <- <-].
  destruct (enter_key_steps _ _ _ _ _ Hwf2 Hroom He) as [Hs2 Hcell]. cbn.
  split; [by do 2 (etrans; [eassumption|])|]. by intros ? [= <-].
Qed.

Lemma set_cell_steps id key r w :
  cell_for id key (fst w) -> (forall m, r = Ok m -> authentic (sh_owner (fst w)) key m) ->
  shared_steps (fst w) (fst (snd (set_cell id r w))) /\
  sh_owner (fst (snd (set_cell id r w))) = sh_owner (fst w).
Proof.
  intros [v Hv] Ha. unfold set_cell. rewrite Hv. destruct v as [v|]; cbn; [done|].
  split; [|done]. by apply rtc_once, shared_init.
Qed.

Lemma get_or_init_ok id kind digest w r w' :
  shared_wf (fst w) -> cell_for id (kind, digest) (fst w) ->
  get_or_init owner id kind digest w = (r, w') ->
  shared_steps (fst w) (fst w') /\
  forall m, r = Ok (Ok m) -> authentic (sh_owner (fst w')) (kind, digest) m.
Proof.
  intros Hwf Hcell. unfold get_or_init.
  assert (forall sh, shared_wf sh -> cell_for id (kind, digest) sh ->
    forall m, sh_cells sh !! id ≫= cell_value = Some (Ok m) ->
    authentic (sh_owner sh) (kind, digest) m) as Hold.
  { intros sh Hwf0 [v Hv] m. rewrite Hv. cbn. intros ->. by eapply shared_cells. }
  unfold bind at 1, cell_content at 1. cbn.
  destruct (sh_cells (fst w) !! id ≫= cell_value) as [r0|] eqn:Hr0.
  { intros [= <- <-]. split; [done|]. intros m [= ->]. by apply Hold. }
  unfold bind at 1. pose proof (safe_await w Hwf) as Hs1.
  destruct (await w) as [[u|e] w1]; cbn in Hs1; [|by intros [= <- <-]].
  assert (shared_wf (fst w1)) as Hwf1 by by eapply shared_steps_wf.
  pose proof (cell_for_steps _ _ _ _ Hs1 Hcell) as Hcell1.
  unfold bind at 1, cell_content at 1. cbn.
  destruct (sh_cells (fst w1) !! id ≫= cell_value) as [r1|] eqn:Hr1.
  { intros [= <- <-]. split; [done|]. intros m [= ->]. by apply Hold. }
  unfold bind at 1.
  destruct (attempt (timeout "" (fetch_material owner kind digest)) w1) as [o w2] eqn:Ho.
  destruct (safe_wf _ _ _ _ Hwf1 Ho ltac:(auto with owner_tasks)) as [Hs2 Hwf2].
  assert (shared_steps (fst w) (fst w2)) as Hs12 by by etrans.
  destruct o as [outcome|e]; [|by intros [= <- <-]].
  assert (forall m, outcome = Ok m -> authentic (sh_owner (fst w2)) (kind, digest) m) as Hnew.
  { intros m ->. apply attempt_ok, timeout_ok in Ho. exact (fetch_material_authentic _ _ _ _ _ Hwf1 Ho). }
  set (r2 := map_err _ outcome). intros Hset.
  assert (forall m, r2 = Ok m -> authentic (sh_owner (fst w2)) (kind, digest) m) as Hr2.
  { intros m Hm. apply Hnew. by apply map_err_ok in Hm. }
  destruct (set_cell_steps id (kind, digest) r2 w2) as [Hs3 Hsame]; [|done|].
  { by eapply cell_for_steps. }
  unfold bind in Hset. destruct (set_cell id r2 w2) as [[u'|e] w3] eqn:Hw3; cbn in *;
    injection Hset as <- <-; (split; [by etrans|]); [|done].
  intros m [= Hm]. rewrite Hsame. auto.
Qed.

Lemma forget_failed_safe key id : safe (forget_failed key id).
Proof.
  intros w Hwf. pose proof (Hrely w Hwf) as Hturn. unfold forget_failed.
  destruct (env_turn w) as [sh e]. repeat case_match; cbn in *; try done.
  eapply rtc_r; [done|]. apply shared_remove.
Qed.

Lemma material_ok kind digest w r w' :
  shared_wf (fst w) -> material owner kind digest w = (r, w') ->
  shared_steps (fst w) (fst w') /\
  forall m, r = Ok m -> authentic (sh_owner (fst w')) (kind, digest) m.
Proof.
  intros Hwf. unfold material. destruct (invalid_digest digest); [by intros [= <- <-]|].
  unfold bind. destruct (cache_slot (kind, digest) w) as [slot w1] eqn:Hslot.
  destruct (cache_slot_ok _ _ _ _ Hwf Hslot) as [Hs1 Hcell].
  assert (shared_wf (fst w1)) as Hwf1 by by eapply shared_steps_wf.
  destruct slot as [id|e]; [|by intros [= <- <-]].
  destruct (get_or_init owner id kind digest w1) as [o w2] eqn:Hinit.
  destruct (get_or_init_ok _ _ _ _ _ _ Hwf1 (Hcell id eq_refl) Hinit) as [Hs2 Hauth].
  assert (shared_steps (fst w) (fst w2)) as Hs12 by by etrans.
  assert (shared_wf (fst w2)) as Hwf2 by by eapply shared_steps_wf.
  destruct o as [[m|message]|e]; [|..|by intros [= <- <-]].
  - intros [= <- <-]. split; [done|]. intros ? [= <-]. by apply Hauth.
  - pose proof (forget_failed_safe (kind, digest) id w2 Hwf2) as Hs3.
    destruct (forget_failed (kind, digest) id w2) as [[u|e] w3]; intros [= <- <-];
      (split; [by etrans|done]).
Qed.

Lemma safe_material kind digest : safe (material owner kind digest).
Proof.
  intros w Hwf. destruct (material owner kind digest w) as [r w'] eqn:Hm.
  by destruct (material_ok _ _ _ _ _ Hwf Hm).
Qed.

Hint Resolve safe_material : owner_tasks.

(** ** Resolving an issuer ends *)

Lemma issuers_grow sh sh' :
  shared_steps sh sh' -> (size (issuers (sh_owner sh)) <= size (issuers (sh_owner sh')))%nat.
Proof.
  intros Hs. rewrite <- !(size_dom (D := gset string)). apply subseteq_size.
  apply (lasting_steps (fun _ s => dom (issuers (sh_owner sh)) ⊆ (dom (issuers s) : gset string))
    sh sh'); [|done|reflexivity].
  split; [|done]. intros t s t' s' Hstep Hsub id Hid. apply Hsub in Hid.
  apply elem_of_dom in Hid as [k Hk]. apply elem_of_dom.
  destruct (step_issuers _ _ _ _ Hstep _ _ Hk) as (k' & -> & _). eauto.
Qed.

Lemma rotation_grows r w u w' :
  shared_wf (fst w) -> run_accept_issuer_rotation owner r w = (Ok u, w') ->
  (size (issuers (sh_owner (fst w))) < size (issuers (sh_owner (fst w'))))%nat.
Proof.
  intros Hwf. unfold run_accept_issuer_rotation, writing. intros Hf.
  run Hf from Hwf as s w1 Hs Hs1 Hwf1. run Hf from Hwf1 as now w2 Hn Hs2 Hwf2.
  apply issuers_grow in Hs1, Hs2. apply lock_ok in Hs as ->. apply policy_now_ok in Hn as (Ho & _).
  destruct (accept_issuer_rotation owner (sh_owner (fst w1)) now r) as [s'|e] eqn:Hr.
  - apply bind_ok in Hf as (u' & w3 & Hput & Hf). apply lift_ok in Hf as [_ ->].
    injection Hput as <- <-. apply accept_issuer_rotation_ok in Hr as (next & _ & _ & Hnew & ->).
    cbn. rewrite map_size_insert_None by done. lia.
  - by apply bind_ok in Hf as (u' & w3 & _ & [? _]%lift_ok).
Qed.

Lemma bind_same {T U} (m : Task T) (k k' : T -> Task U) w :
  (forall t w', m w = (Ok t, w') -> k t w' = k' t w') -> bind m k w = bind m k' w.
Proof. unfold bind. intros Hk. destruct (m w) as [[t|e] w'] eqn:Hm; auto. Qed.

Lemma follow_rotations_turn id fuel :
  follow_rotations owner id (S fuel) =
  let! s := lock in
  let! now := policy_now in
  match state_issuer s id now with
  | Some issuer => ret issuer
  | None =>
      if (MAX_ISSUERS <=? size (issuers s))%nat then
        fail (AuthorizationUnavailable "issuer chain capacity reached")
      else
        let! next := lift (ok_or (checked_add_u64 (installed_sequence s) 1)
                             (AuthorizationUnavailable "issuer chain exhausted")) in
        let! answer := registry_rotation next in
        let! r := lift (ok_or answer (AuthorizationUnavailable "unknown issuer")) in
        let! _ := run_accept_issuer_rotation owner r in
        follow_rotations owner id fuel
  end.
Proof. done. Qed.

Lemma follow_rotations_enough id fuel w :
  shared_wf (fst w) -> (MAX_ISSUERS < fuel + size (issuers (sh_owner (fst w))))%nat ->
  follow_rotations owner id (S fuel) w = follow_rotations owner id fuel w.
Proof.
  revert w. induction fuel as [|fuel IH]; intros w Hwf Hf.
  { pose proof (owner_capacity _ _ (shared_owner_wf _ Hwf)). lia. }
  rewrite follow_rotations_turn. symmetry. rewrite follow_rotations_turn. symmetry.
  apply bind_same. intros s w1 Hs. destruct (safe_wf _ _ _ _ Hwf Hs safe_lock) as [Hs1 Hwf1].
  apply bind_same. intros now w2 Hn.
  destruct (safe_wf _ _ _ _ Hwf1 Hn safe_policy_now) as [Hs2 Hwf2].
  destruct (state_issuer s id now); [done|]. destruct (Nat.leb _ _); [done|].
  apply bind_same. intros next w3 Hx. destruct (safe_wf _ _ _ _ Hwf2 Hx (safe_lift _)) as [Hs3 Hwf3].
  apply bind_same. intros answer w4 Ha.
  destruct (safe_wf _ _ _ _ Hwf3 Ha (safe_registry_rotation _)) as [Hs4 Hwf4].
  apply bind_same. intros r w5 Hr. destruct (safe_wf _ _ _ _ Hwf4 Hr (safe_lift _)) as [Hs5 Hwf5].
  apply bind_same. intros u w6 Hu.
  destruct (safe_wf _ _ _ _ Hwf5 Hu (safe_accept_issuer_rotation _)) as [Hs6 Hwf6].
  apply IH; [done|]. pose proof (rotation_grows _ _ _ _ Hwf5 Hu).
  apply issuers_grow in Hs1, Hs2, Hs3, Hs4, Hs5. lia.
Qed.

(** C34: resolving an issuer ends, and loses nothing by its bound.  Whatever the registry
    answers and whatever other tasks do meanwhile, the loop with more turns than its bound
    has the same outcome, because every turn of it adds a key and the table is bounded.
    The key it returns has the id asked for and is in the table, and the resolution has
    changed the state by nothing but valid steps. *)
Theorem forward_issuer_terminates id w :
  shared_wf (fst w) ->
  (forall extra, follow_rotations owner id (MAX_ISSUERS + extra) w =
                 follow_rotations owner id MAX_ISSUERS w) /\
  shared_steps (fst w) (fst (snd (forward_issuer owner id w))) /\
  (forall k w', forward_issuer owner id w = (Ok k, w') ->
     key_id k = id /\ known_key (sh_owner (fst w')) k).
Proof.
  intros Hwf. assert (0 < size (issuers (sh_owner (fst w))))%nat as Hpos.
  { pose proof (owner_current _ _ (shared_owner_wf _ Hwf)) as [Hc _].
    pose proof (map_size_ne_0_lookup_2 _ _ (ex_intro _ _ Hc)). lia. }
  split_and!.
  - induction extra as [|extra IH]; [by rewrite Nat.add_0_r|]. rewrite <- IH, Nat.add_succ_r.
    apply follow_rotations_enough; [done|lia].
  - by apply safe_forward_issuer.
  - intros k w' Hf. by destruct (forward_issuer_known _ _ _ _ Hwf Hf).
Qed.

(** ** Admission makes no other steps *)

Lemma safe_catalog_material digest : safe (catalog_material owner digest).
Proof. unfold catalog_material. solve_safe. Qed.

Lemma safe_provider_material digest : safe (provider_material owner digest).
Proof. unfold provider_material. solve_safe. Qed.

Lemma safe_authority_material digest message : safe (authority_material owner digest message).
Proof. unfold authority_material. solve_safe. Qed.

Hint Resolve safe_catalog_material safe_provider_material safe_authority_material : owner_tasks.

Lemma safe_resolve_authority digest : safe (resolve_authority owner digest).
Proof. unfold resolve_authority. solve_safe. Qed.

Lemma safe_provider_certificate v api_id : safe (provider_certificate owner v api_id).
Proof. unfold provider_certificate. solve_safe. Qed.

Hint Resolve safe_resolve_authority safe_provider_certificate : owner_tasks.

Lemma safe_authorize_provider v api_id action : safe (authorize_provider owner v api_id action).
Proof. unfold authorize_provider. solve_safe. Qed.

Hint Resolve safe_authorize_provider : owner_tasks.

Lemma safe_verify_request_once v request payload proof action :
  safe (verify_request_once owner v request payload proof action).
Proof. unfold verify_request_once. solve_safe. Qed.

Lemma safe_next_change : safe next_change.
Proof. unfold next_change. solve_safe. Qed.

Hint Resolve safe_verify_request_once safe_next_change : owner_tasks.

Lemma safe_renewal_settled fuel : safe (renewal_settled fuel).
Proof. induction fuel as [|fuel IH]; cbn [renewal_settled]; solve_safe. Qed.

Hint Resolve safe_renewal_settled : owner_tasks.

Lemma safe_verify_request_loop fuel request payload proof action :
  safe (verify_request_loop owner fuel request payload proof action).
Proof. induction fuel as [|fuel IH]; cbn [verify_request_loop]; solve_safe. Qed.

Hint Resolve safe_verify_request_loop : owner_tasks.

Lemma safe_verify_request fuel request payload proof action :
  safe (owner_verify_request owner fuel request payload proof action).
Proof. unfold owner_verify_request. solve_safe. Qed.

Lemma safe_publisher_certificate signed catalog input :
  safe (publisher_certificate owner signed catalog input).
Proof. unfold publisher_certificate. solve_safe. Qed.

Hint Resolve safe_verify_request safe_publisher_certificate : owner_tasks.

Lemma safe_verify_historical_event input : safe (owner_verify_historical_event owner input).
Proof. unfold owner_verify_historical_event. solve_safe. Qed.

(** ** What resolved material is *)

Lemma catalog_material_authentic digest w c w' :
  shared_wf (fst w) -> catalog_material owner digest w = (Ok c, w') ->
  authentic (sh_owner (fst w')) (KindCatalog, digest) (MaterialCatalog c).
Proof.
  unfold catalog_material. intros Hwf (m & w1 & Hm & Hf)%bind_ok.
  destruct (material_ok _ _ _ _ _ Hwf Hm) as [_ Ha]. destruct m; try done. ends Hf. by apply Ha.
Qed.

Lemma provider_material_authentic digest w c w' :
  shared_wf (fst w) -> provider_material owner digest w = (Ok c, w') ->
  authentic (sh_owner (fst w')) (KindProvider, digest) (MaterialProvider c).
Proof.
  unfold provider_material. intros Hwf (m & w1 & Hm & Hf)%bind_ok.
  destruct (material_ok _ _ _ _ _ Hwf Hm) as [_ Ha]. destruct m; try done. ends Hf. by apply Ha.
Qed.

Lemma authority_material_authentic digest message w a w' :
  shared_wf (fst w) -> authority_material owner digest message w = (Ok a, w') ->
  authentic (sh_owner (fst w')) (KindAuthority, digest) (MaterialAuthority a).
Proof.
  unfold authority_material. intros Hwf (m & w1 & Hm & Hf)%bind_ok.
  destruct (material_ok _ _ _ _ _ Hwf Hm) as [_ Ha]. destruct m; try done. ends Hf. by apply Ha.
Qed.

(** A key of the table signed the authority, and it was found live. *)
Definition trusted (s : OwnerState) (v : VerifiedSessionAuthority) : Prop :=
  exists k now cutoff, known_key s k /\
    verify_session_authority {|
      input_issuer := k; input_instance_id := instance; input_nats_account := account;
      input_authority := verified_signed v; input_policy := owner_policy now;
      input_purpose := PurposeLive; input_revocation_cutoff := cutoff |} = Ok v.

Lemma trusted_lasting v : lasting (fun _ s => trusted s v).
Proof.
  split; [|done]. intros t s t' s' Hstep (k & now & cutoff & Hk & Hv).
  exists k, now, cutoff. split; [|done]. by eapply (proj1 (known_key_lasting k)).
Qed.

Lemma authentic_steps key m sh sh' :
  shared_steps sh sh' -> authentic (sh_owner sh) key m -> authentic (sh_owner sh') key m.
Proof. intros Hs. exact (lasting_steps _ _ _ (authentic_lasting key m) Hs). Qed.

Lemma trusted_steps v sh sh' :
  shared_steps sh sh' -> trusted (sh_owner sh) v -> trusted (sh_owner sh') v.
Proof. intros Hs. exact (lasting_steps _ _ _ (trusted_lasting v) Hs). Qed.

Lemma resolve_authority_ok digest w v w' :
  shared_wf (fst w) -> resolve_authority owner digest w = (Ok v, w') ->
  trusted (sh_owner (fst w')) v /\ verified_digest v = digest /\
  owner_assert_current owner (sh_owner (fst w')) (sh_clock (fst w')) v = Ok tt.
Proof.
  intros Hwf. unfold resolve_authority. intros Hf.
  run Hf from Hwf as signed w1 Hm Hs1 Hwf1. run Hf from Hwf1 as k w2 Hk Hs2 Hwf2.
  run Hf from Hwf2 as v' w3 Hv Hs3 Hwf3. run Hf from Hwf3 as u w4 Hu Hs4 Hwf4. ends Hf.
  apply authority_material_authentic in Hm as (_ & Hd & _); [|done]. cbn in Hd.
  apply reading_ok in Hv, Hu. destruct u. split_and!; [|..|done];
    unfold owner_verify_authority, protocol in Hv; peel Hv as Ho; peel Hv as k' Hk';
    apply map_err_ok in Hv; pose proof (verify_accepted _ _ Hv) as [key Hacc].
  - apply (trusted_steps _ _ _ Hs4).
    eexists k', _, _. split; [eapply state_issuer_known; [by apply shared_owner_wf|done]|].
    rewrite (proj1 (accepted_result _ _ _ Hacc)). exact Hv.
  - pose proof (accepted_digest _ _ _ Hacc) as Hdig. cbn in Hdig. congruence.
Qed.

(** A certificate that was found to certify the authority for the API. *)
Definition certifies (s : OwnerState) (v : VerifiedSessionAuthority) (api_id : string)
    (certificate : Authenticated SignedProviderCertificate) : Prop :=
  let c := auth_record certificate in
  let body := verified_authority v in
  authentic s (KindProvider, auth_digest certificate) (MaterialProvider certificate) /\
  cert_api_id c = api_id /\ cert_principal_id c = principal_id body /\
  cert_session_public_key c = session_public_key body /\
  binding_certified (binding body) c = true /\
  exists b, b ∈ provider_bindings body /\ provider_api_id b = api_id /\
    provider_certificate_digest b = auth_digest certificate /\
    provider_generation b = cert_generation c.

Lemma certifies_steps v api_id c sh sh' :
  shared_steps sh sh' -> certifies (sh_owner sh) v api_id c -> certifies (sh_owner sh') v api_id c.
Proof. intros Hs [Ha Hrest]. split; [|done]. by eapply authentic_steps. Qed.

Lemma find_api {A} (f : A -> string) id l x :
  find (fun a => String.eqb (f a) id) l = Some x -> x ∈ l /\ f x = id.
Proof. intros [Hin Hx]%find_some. apply String.eqb_eq in Hx. by apply list_elem_of_In in Hin. Qed.

Lemma provider_certificate_ok v api_id w c w' :
  shared_wf (fst w) -> provider_certificate owner v api_id w = (Ok c, w') ->
  certifies (sh_owner (fst w')) v api_id c /\
  assert_current v (owner_policy (sh_clock (fst w'))) (known_revoked (sh_owner (fst w')) v) = Ok tt.
Proof.
  intros Hwf. unfold provider_certificate. intros Hf.
  run Hf from Hwf as b w1 Hb Hs1 Hwf1. apply lift_ok in Hb as [Hb ->]. apply ok_or_ok, find_api in Hb as [Hb Hid].
  run Hf from Hwf as c' w2 Hc Hs2 Hwf2. apply provider_material_authentic in Hc; [|done].
  run Hf from Hwf2 as k w3 Hk Hs3 Hwf3. run Hf from Hwf3 as u w4 Hu Hs4 Hwf4.
  run Hf from Hwf4 as s w5 Hs Hs5 Hwf5. apply lock_ok in Hs as ->.
  run Hf from Hwf5 as u' w6 Hcov Hs6 Hwf6. apply lift_ok in Hcov as [_ ->].
  run Hf from Hwf5 as now w7 Hn Hs7 Hwf7. apply policy_now_ok in Hn as (Ho & -> & _).
  run Hf from Hwf7 as u'' w8 Hcert Hs8 Hwf8. apply lift_ok in Hcert as [Hcert ->]. ends Hf.
  rewrite <- Ho in Hcert.
  apply certified_provider_ok in Hcert as (Hcur & _ & _ & _ & _ & Hbc & Hp & Hk' & Ha & Hg & _).
  split; [|done]. pose proof Hc as (_ & Hd & _). cbn in Hd. rewrite <- Hd in Hc.
  split_and!; try done; [|exists b; split_and!; by try rewrite Hd].
  eapply authentic_steps; [|exact Hc]. etrans; [exact Hs3|]. etrans; [exact Hs4|]. by etrans.
Qed.

(** Why a request was let through, on the state found last. *)
Record opening_justified (s : OwnerState) (now : Z) (request : SessionRequest) (payload : string)
    (proof : SessionProof) (action : CatalogActionIdentity) (v : VerifiedAuthorizationRequest)
    (provider : VerifiedSessionAuthority) (certificate : Authenticated SignedProviderCertificate)
    (catalog : Authenticated SignedCatalogSnapshot) : Prop := {
  justified_result : opening_request v = request /\ opening_action v = Some action /\
    handler_authorized v = false;
  justified_covered : revocation_covered s = true /\ overflowing s now = false;
  justified_caller : trusted s (opening_authority v) /\
    known_revoked s (opening_authority v) = false /\
    issuer_active s (issuer_key_id (verified_authority (opening_authority v))) now = true /\
    request_admissible (opening_authority v) request (owner_policy now);
  justified_signature : exists bytes, session_proof proof = b64_encode bytes /\
    session_request_signing_digest request payload = Ok (opening_digest v) /\
    verify_strict (verified_session_key (opening_authority v)) (opening_digest v) bytes = true;
  justified_grant :
    authentic s (KindCatalog, auth_digest catalog) (MaterialCatalog catalog) /\
    (exists api, api ∈ apis (verified_authority (opening_authority v)) /\
       authority_api_id api = request_api_id request /\
       authority_catalog_snapshot_digest api = auth_digest catalog) /\
    snapshot_api_id (auth_record catalog) = request_api_id request /\
    identity_name action = request_action request /\
    authorizes (auth_record catalog) (verified_signed (opening_authority v)) action = true;
  justified_provider : verified_digest <$> own s = Some (verified_digest provider) /\
    known_revoked s provider = false /\
    issuer_active s (issuer_key_id (verified_authority provider)) now = true /\
    (not_before (verified_authority provider) <= now
     < expires_at (verified_authority provider))%Z;
  justified_certificate : certifies s provider (request_api_id request) certificate /\
    cert_generation (auth_record certificate) = request_api_generation request /\
    action ∈ cert_implemented_actions (auth_record certificate) /\
    issuer_active s (cert_issuer_key_id (auth_record certificate)) now = true /\
    (cert_not_before (auth_record certificate) <= now
     < cert_expires_at (auth_record certificate))%Z;
}.

Lemma verify_request_once_ok provider request payload proof action w v w' :
  shared_wf (fst w) -> verify_request_once owner provider request payload proof action w = (Ok v, w') ->
  exists now certificate catalog, (sh_clock (fst w) <= now <= sh_clock (fst w'))%Z /\
    opening_justified (sh_owner (fst w')) now request payload proof action v provider certificate
      catalog.
Proof.
  intros Hwf. unfold verify_request_once. intros Hf.
  run Hf from Hwf as caller w1 Hcaller Hs1 Hwf1.
  destruct (resolve_authority_ok _ _ _ _ Hwf Hcaller) as (Htr & _ & _).
  run Hf from Hwf1 as certificate w2 Hcert Hs2 Hwf2.
  unfold authorize_provider in Hcert. apply bind_ok in Hcert as (c' & w2' & Hpc & Hcert).
  destruct (bool_decide (action ∈ _)) eqn:Hact; [|done]. ends Hcert.
  apply bool_decide_eq_true in Hact.
  destruct (provider_certificate_ok _ _ _ _ _ Hwf1 Hpc) as [Hcf _].
  destruct (N.eqb_spec (cert_generation (auth_record c')) (request_api_generation request))
    as [Hgen|]; [|done]. cbn [negb] in Hf.
  run Hf from Hwf2 as api w3 Hapi Hs3 Hwf3. apply lift_ok in Hapi as [Hapi ->].
  apply ok_or_ok, find_api in Hapi as [Hin Hid].
  run Hf from Hwf2 as catalog w4 Hcat Hs4 Hwf4. apply catalog_material_authentic in Hcat; [|done].
  run Hf from Hwf4 as k w5 Hk Hs5 Hwf5. run Hf from Hwf5 as now w6 Hn Hs6 Hwf6.
  apply policy_now_ok in Hn as (_ & -> & Hle).
  run Hf from Hwf6 as s w7 Hs Hs7 Hwf7. apply lock_ok in Hs as ->. apply lift_ok in Hf as [Hf ->].
  exists (sh_clock (fst w6)), c', catalog. split.
  { pose proof (clock_monotone _ _ Hs7). split; [|done]. etrans; [|exact Hle].
    apply clock_monotone. by do 4 (etrans; [eassumption|]). }
  apply admit_request_ok in Hf as (Hcov & Ho & Hown & Hoi & Hod & Hci & Hcert & Hwin & key & Hcore).
  apply core_verify_request_ok in Hcore as (r & Hr & -> & Ha1 & Ha2 & Haz).
  apply verify_session_request_ok in Hr as (Hrev & Hadm & digest & bytes & Hd & Hb & Hsig & ->).
  apply assert_current_ok in Hown as (_ & Hor & _ & How).
  assert (shared_steps (fst w4) (fst w7)) as Hs47 by by do 3 (etrans; [eassumption|]).
  assert (shared_steps (fst w2') (fst w7)) as Hs27 by by etrans.
  assert (shared_steps (fst w1) (fst w7)) as Hs17 by by etrans.
  pose proof Hcat as (_ & Hcd & _). cbn in Hcd.
  split; cbn -[authentic certifies]; try done.
  - split_and!; try done. exact (trusted_steps _ _ _ Hs17 Htr).
  - apply decode_base64url_bytes in Hb as [Hb _]. exists bytes. done.
  - split; [rewrite Hcd; exact (authentic_steps _ _ _ _ Hs47 Hcat)|]. split_and!; try done. by exists api.
  - split; [exact (certifies_steps _ _ _ _ _ Hs27 Hcf)|done].
Qed.

Lemma verify_request_loop_ok fuel request payload proof action w v w' :
  shared_wf (fst w) ->
  verify_request_loop owner fuel request payload proof action w = (Ok v, w') ->
  exists provider w1, shared_steps (fst w) (fst w1) /\ shared_wf (fst w1) /\
    verify_request_once owner provider request payload proof action w1 = (Ok v, w').
Proof.
  revert w. induction fuel as [|fuel IH]; intros w Hwf; cbn [verify_request_loop]; intros Hf;
    run Hf from Hwf as held w1 Hh Hs1 Hwf1;
    (destruct held as [provider|e];
     [run Hf from Hwf1 as outcome w2 Ho Hs2 Hwf2;
      destruct outcome as [v'|e];
        [ends Hf; apply attempt_ok in Ho; by exists provider, w1|];
      run Hf from Hwf2 as u w3 Hu Hs3 Hwf3; run Hf from Hwf3 as current w4 Hc Hs4 Hwf4;
      destruct (match current with Ok _ => _ | Err _ => false end); [|done]
     |run Hf from Hwf1 as pending w2 Hp Hs2 Hwf2; destruct (negb pending); [done|];
      run Hf from Hwf2 as u w3 Hu Hs3 Hwf3]); [done..| |].
  - destruct (IH _ Hwf4 Hf) as (p & w5 & Hs5 & Hrest). exists p, w5. split; [|done].
    by do 4 (etrans; [eassumption|]).
  - destruct (IH _ Hwf3 Hf) as (p & w5 & Hs5 & Hrest). exists p, w5. split; [|done].
    by do 3 (etrans; [eassumption|]).
Qed.

(** C1: an admitted request is justified by the state at its admission.  Whatever other tasks
    do while its material is fetched, when the owner lets a request through then, in the
    state it leaves behind and at a clock reading of the call, revocations are mirrored; the
    caller's authority is signed by a trusted active issuer, live and not revoked; its
    session key signed exactly this request and payload; the catalog the authority pins is
    authentic and grants the registered action; and the runtime's own installed authority is
    current and certified, by an active issuer, to implement the action at the requested
    generation. *)
Theorem admitted_request_justified fuel request payload proof action w v w' :
  shared_wf (fst w) ->
  owner_verify_request owner fuel request payload proof action w = (Ok v, w') ->
  exists now provider certificate catalog, (sh_clock (fst w) <= now <= sh_clock (fst w'))%Z /\
    opening_justified (sh_owner (fst w')) now request payload proof action v provider certificate
      catalog.
Proof.
  unfold owner_verify_request. intros Hwf Hf%timeout_ok.
  destruct (verify_request_loop_ok _ _ _ _ _ _ _ _ Hwf Hf) as (provider & w1 & Hs1 & Hwf1 & Hv).
  destruct (verify_request_once_ok _ _ _ _ _ _ _ _ Hwf1 Hv) as (now & c & cat & Hnow & Hj).
  exists now, provider, c, cat. split; [|done]. apply clock_monotone in Hs1. lia.
Qed.

(** C27: what the owner hands out of its cache is authentic.  Material asked for by kind and
    digest has that kind and that content address and was verified under a key of the issuer
    table, whether it was read by this task, by another one that was already reading it, or
    long ago; the cache then still holds nothing else and does not exceed its capacity. *)
Theorem material_authentic kind digest w m w' :
  shared_wf (fst w) -> material owner kind digest w = (Ok m, w') ->
  authentic (sh_owner (fst w')) (kind, digest) m /\
  (forall id key m', sh_cells (fst w') !! id = Some (mkCell key (Some (Ok m'))) ->
     authentic (sh_owner (fst w')) key m') /\
  (forall key entry, sh_material (fst w') !! key = Some entry ->
     cell_for (entry_cell entry) key (fst w')) /\
  (size (sh_material (fst w')) <= MAX_CACHED_MATERIAL)%nat.
Proof.
  intros Hwf Hm. destruct (material_ok _ _ _ _ _ Hwf Hm) as [Hs Ha].
  destruct (shared_steps_wf _ _ Hs Hwf) as [_ Hent Hcel Hcap]. split; [by apply Ha|done].
Qed.

(** ** Actions *)

(** The authority is current on the state. *)
Definition current_on (s : OwnerState) (now : Z) (v : VerifiedSessionAuthority) : Prop :=
  revocation_covered s = true /\ overflowing s now = false /\ known_revoked s v = false /\
  issuer_active s (issuer_key_id (verified_authority v)) now = true /\
  (not_before (verified_authority v) <= now < expires_at (verified_authority v))%Z.

Lemma catalog_delegates_ok s now v api_id action catalog id b :
  catalog_delegates owner s now v api_id action catalog id = Ok b ->
  current_on s now v /\ snapshot_api_id (auth_record catalog) = api_id /\
  b = authorizes (auth_record catalog) (verified_signed v) action.
Proof.
  unfold catalog_delegates, require_live_coverage, protocol, current_on. intros Hv.
  peel Hv as Hcov. peel Hv as k Hk. peel Hv as u Hr. peel Hv as u' Hc. peel Hv as Hapi.
  injection Hv as <-. apply recheck_authority_ok in Hr as (Hcur & Ho & Hact).
  apply assert_current_ok in Hcur as (_ & Hrev & _ & Hwin).
  apply negb_false_iff in Hcov. apply negb_false_iff, String.eqb_eq in Hapi. done.
Qed.

Lemma owner_current_on s now v : owner_assert_current owner s now v = Ok tt -> current_on s now v.
Proof.
  intros (Hcov & _ & _ & Ho & Hact & _ & Hcur)%owner_assert_current_ok.
  apply assert_current_ok in Hcur as (_ & Hrev & _ & Hwin). done.
Qed.

Lemma event_publication_certified c k signed catalog action now :
  authenticated_authorizes_event_publication c k signed catalog action now = Ok true ->
  is_event_publication action = true /\
  action ∈ cert_implemented_actions (auth_record c) /\
  (cert_not_before (auth_record c) <= now < cert_expires_at (auth_record c))%Z.
Proof.
  unfold authenticated_authorizes_event_publication.
  destruct (is_event_publication action) eqn:He; [|done]. cbn [negb]. intros Hv.
  peel Hv as u Hc. apply check_at_window in Hc. injection Hv as Hm. split_and!; try done; [|lia..].
  unfold event_publication_matches in Hm. rewrite He in Hm. cbn [negb] in Hm.
  repeat case_match; try done. apply andb_true_iff in Hm as [_ Hin]. by apply bool_decide_eq_true in Hin.
Qed.

(** An authorized action is granted on the state at the end.  When the owner authorizes an
    action of an API for an authority, then the authority is current in the state it leaves
    behind, the catalog it returns is authentic, is the one the authority pins for that API,
    and either grants the action to a capability the authority holds, or the action is the
    publication of an event and a certificate, valid at a clock reading of the call, certifies
    this very authority as a provider that implements it. *)
Theorem authorized_actions_granted v api_id action w catalog w' :
  shared_wf (fst w) -> authorize_action owner v api_id action w = (Ok catalog, w') ->
  let s := sh_owner (fst w') in
  (exists now, (sh_clock (fst w) <= now <= sh_clock (fst w'))%Z /\ current_on s now v) /\
  authentic s (KindCatalog, auth_digest catalog) (MaterialCatalog catalog) /\
  snapshot_api_id (auth_record catalog) = api_id /\
  (exists api, api ∈ apis (verified_authority v) /\ authority_api_id api = api_id /\
     authority_catalog_snapshot_digest api = auth_digest catalog) /\
  (authorizes (auth_record catalog) (verified_signed v) action = true \/
   is_event_publication action = true /\
   exists now certificate, (sh_clock (fst w) <= now <= sh_clock (fst w'))%Z /\
     certifies s v api_id certificate /\
     action ∈ cert_implemented_actions (auth_record certificate) /\
     (cert_not_before (auth_record certificate) <= now
      < cert_expires_at (auth_record certificate))%Z).
Proof.
  intros Hwf. unfold authorize_action. intros Hf.
  run Hf from Hwf as api w1 Hapi Hs1 Hwf1. apply lift_ok in Hapi as [Hapi ->]. clear Hs1 Hwf1.
  apply ok_or_ok, find_api in Hapi as [Hin Hid].
  run Hf from Hwf as c w2 Hcat Hs2 Hwf2. apply catalog_material_authentic in Hcat; [|done].
  run Hf from Hwf2 as k w3 Hk Hs3 Hwf3. run Hf from Hwf3 as u w4 Hu Hs4 Hwf4.
  run Hf from Hwf4 as now w5 Hn Hs5 Hwf5. apply policy_now_ok in Hn as (_ & -> & Hle).
  run Hf from Hwf5 as s w6 Hs Hs6 Hwf6. apply lock_ok in Hs as ->.
  run Hf from Hwf6 as b w7 Hb Hs7 Hwf7. apply lift_ok in Hb as [Hb ->]. clear Hs7.
  apply catalog_delegates_ok in Hb as (Hcur & Hsnap & ->).
  pose proof Hcat as (_ & Hcd & _). cbn in Hcd. rewrite <- Hcd in Hcat.
  assert (sh_clock (fst w) <= sh_clock (fst w5))%Z as Hstart.
  { etrans; [|exact Hle]. apply clock_monotone. by do 3 (etrans; [eassumption|]). }
  assert (shared_steps (fst w2) (fst w6)) as Hs26 by by do 4 (etrans; [eassumption|]).
  pose proof (clock_monotone _ _ Hs6) as H56.
  destruct (authorizes _ _ _) eqn:Ha.
  { apply ret_ok in Hf as [-> ->]. cbn zeta. split_and!; eauto.
    exact (authentic_steps _ _ _ _ Hs26 Hcat). }
  destruct (negb (is_event_publication action) || _); [done|].
  run Hf from Hwf6 as cert w8 Hcert Hs8 Hwf8.
  destruct (provider_certificate_ok _ _ _ _ _ Hwf6 Hcert) as [Hcf _].
  run Hf from Hwf8 as k9 w9 Hk9 Hs9 Hwf9. run Hf from Hwf9 as allowed w10 Hal Hs10 Hwf10.
  apply lift_ok in Hal as [Hal ->]. clear Hs10. unfold protocol in Hal. apply map_err_ok in Hal.
  destruct allowed; [|done]. cbn [negb] in Hf. run Hf from Hwf9 as u11 w11 Hu11 Hs11 Hwf11.
  apply ret_ok in Hf as [-> ->]. apply reading_ok in Hu11. destruct u11.
  assert (shared_steps (fst w6) (fst w11)) as Hs611 by by do 3 (etrans; [eassumption|]).
  pose proof (clock_monotone _ _ Hs611) as H611.
  apply event_publication_certified in Hal as (Hev & Hact & Hwin). cbn zeta. split_and!.
  - exists (sh_clock (fst w11)). split; [lia|]. by apply owner_current_on.
  - exact (authentic_steps _ _ _ _ Hs611 (authentic_steps _ _ _ _ Hs26 Hcat)).
  - done.
  - eauto.
  - right. split; [done|]. exists (sh_clock (fst w5)), cert. split; [lia|]. split; [|done].
    eapply certifies_steps; [|exact Hcf]. by etrans.
Qed.

(** ** Revoked sessions *)

Lemma shut_out_lasting session deadline : lasting (shut_out session deadline).
Proof.
  split; [apply step_shut_out|]. unfold shut_out. intros t t' s Ht [?|?]; [left; lia|by right].
Qed.

(** An authority that is resolved was current at a moment of the call, so it is not of a
    session that was shut out before. *)
Lemma shut_out_unresolved session deadline digest w v w' :
  shared_wf (fst w) -> shut_out session deadline (sh_clock (fst w)) (sh_owner (fst w)) ->
  resolve_authority owner digest w = (Ok v, w') ->
  authorization_session_id (verified_authority v) = session ->
  (deadline < expires_at (verified_authority v))%Z.
Proof.
  intros Hwf Hout Hr Hid. apply Z.nle_gt. intros Hexp.
  destruct (safe_wf _ _ _ _ Hwf Hr (safe_resolve_authority _)) as [Hs _].
  apply (lasting_steps _ _ _ (shut_out_lasting session deadline) Hs) in Hout.
  destruct (resolve_authority_ok _ _ _ _ Hwf Hr)
    as (_ & _ & (_ & _ & _ & Ho & _ & _ & Hcur)%owner_assert_current_ok).
  destruct (shut_out_rejects _ _ _ _ _ v Hout (Z.le_refl _) Hid Hexp); congruence.
Qed.

Lemma verify_request_once_resolves provider request payload proof action w v w' :
  verify_request_once owner provider request payload proof action w = (Ok v, w') ->
  exists w1, resolve_authority owner (request_authority_digest request) w
             = (Ok (opening_authority v), w1).
Proof.
  unfold verify_request_once. intros (caller & w1 & Hc & Hf)%bind_ok. exists w1. rewrite Hc.
  do 2 f_equal. apply bind_ok in Hf as (c & w2 & _ & Hf). destruct (negb _); [done|].
  apply bind_ok in Hf as (api & w3 & _ & (cat & w4 & _ & (k & w5 & _ & (now & w6 & _ &
    (s & w7 & _ & [Hf _]%lift_ok)%bind_ok)%bind_ok)%bind_ok)%bind_ok).
  apply admit_request_ok in Hf as (_ & _ & _ & _ & _ & _ & _ & _ & key & Hcore).
  by apply core_verify_request_ok in Hcore as (r & _ & -> & _).
Qed.

(** C6: a revoked session is kept out of every interleaving.  Once a session is shut out, no
    request, proof of possession or response under an authority of it that expires by the
    revocation's final deadline is accepted, however long its verification takes and
    whatever other tasks do meanwhile: fetch material, rotate issuers, replace the own
    authority, take in and expire other revocations, lose and regain the mirror. *)
Theorem revoked_sessions_kept_out session deadline w :
  shared_wf (fst w) -> shut_out session deadline (sh_clock (fst w)) (sh_owner (fst w)) ->
  (forall fuel request payload proof action v w',
     owner_verify_request owner fuel request payload proof action w = (Ok v, w') ->
     authorization_session_id (verified_authority (opening_authority v)) = session ->
     (deadline < expires_at (verified_authority (opening_authority v)))%Z) /\
  (forall request payload proof v w',
     owner_verify_possession owner request payload proof w = (Ok v, w') ->
     authorization_session_id (verified_authority (opening_authority v)) = session ->
     (deadline < expires_at (verified_authority (opening_authority v)))%Z) /\
  (forall input provider response w',
     owner_verify_response owner input w = (Ok (provider, response), w') ->
     authorization_session_id (verified_authority provider) = session ->
     (deadline < expires_at (verified_authority provider))%Z).
Proof.
  intros Hwf Hout. split_and!.
  - intros fuel request payload proof action v w' Hv Hid.
    unfold owner_verify_request in Hv. apply timeout_ok in Hv.
    destruct (verify_request_loop_ok _ _ _ _ _ _ _ _ Hwf Hv) as (p & w1 & Hs1 & Hwf1 & Hv1).
    apply (lasting_steps _ _ _ (shut_out_lasting session deadline) Hs1) in Hout.
    destruct (verify_request_once_resolves _ _ _ _ _ _ _ _ Hv1) as [w2 Hr].
    exact (shut_out_unresolved _ _ _ _ _ _ Hwf1 Hout Hr Hid).
  - intros request payload proof v w'. unfold owner_verify_possession.
    intros (caller & w1 & Hc & (s & w2 & _ & (u & w3 & _ & (now & w4 & _ &
      [Hf _]%lift_ok)%bind_ok)%bind_ok)%bind_ok)%bind_ok.
    unfold admit_possession, verification, verify_possession, checked in Hf.
    skip Hf. apply map_err_ok in Hf. peel Hf as r Hr. injection Hf as <-. cbn. intros Hid.
    exact (shut_out_unresolved _ _ _ _ _ _ Hwf Hout Hc Hid).
  - intros input provider response w'. unfold owner_verify_response.
    intros (p & w1 & Hp & (c & w2 & _ & (k & w3 & _ & (now & w4 & _ & (s & w5 & _ &
      [Hf _]%lift_ok)%bind_ok)%bind_ok)%bind_ok)%bind_ok)%bind_ok Hid.
    apply admit_response_ok in Hf as (_ & _ & _ & _ & key & Hf).
    apply verify_session_response_ok in Hf as (_ & _ & _ & _ & _ & _ & [= -> _]).
    exact (shut_out_unresolved _ _ _ _ _ _ Hwf Hout Hp Hid).
Qed.

(** ** Retained events *)

(** What the evidence attests about the publisher's session. *)
Definition attests (input : HistoricalInput) (r : SignedSessionRevocation) : Prop :=
  exists status text, verified_value (historical_status input) = Some (ValueStatus status) /\
    status_revocation status = Some text /\ from_slice text = Ok r.

Lemma historical_scope_ok signed input status :
  historical_scope owner signed input = Ok status ->
  verified_value (historical_status input) = Some (ValueStatus status) /\
  status_session_id status = authorization_session_id (unsigned signed).
Proof.
  unfold historical_scope. intros Hs. peel Hs as Hq. peel Hs as st Hv. peel Hs as Hst.
  injection Hs as <-. apply orb_false_iff in Hst as [Hid _].
  apply negb_false_iff, String.eqb_eq in Hid.
  destruct (verified_value _) as [[]|]; try done. by injection Hv as <-.
Qed.

Lemma publisher_certificate_ok signed catalog input w provider w' :
  shared_wf (fst w) -> publisher_certificate owner signed catalog input w = (Ok provider, w') ->
  forall c, provider = Some c ->
    authentic (sh_owner (fst w')) (KindProvider, auth_digest c) (MaterialProvider c).
Proof.
  intros Hwf. unfold publisher_certificate. destruct (authorizes _ _ _); [by intros [-> _]%ret_ok|].
  destruct (find _ _) as [b|]; [|by intros [-> _]%ret_ok]. intros Hf c ->.
  run Hf from Hwf as c' w1 Hc Hs1 Hwf1. apply provider_material_authentic in Hc; [|done].
  run Hf from Hwf1 as k w2 Hk Hs2 Hwf2. apply ret_ok in Hf as [[= ->] ->].
  pose proof Hc as (_ & Hd & _). cbn in Hd. rewrite Hd. exact (authentic_steps _ _ _ _ Hs2 Hc).
Qed.

(** The steps of the fetching part, and what the decision is then taken on. *)
Lemma verify_historical_event_ok input w v w' :
  shared_wf (fst w) -> owner_verify_historical_event owner input w = (Ok v, w') ->
  exists now signed id revocation catalog provider,
    (sh_clock (fst w) <= now <= sh_clock (fst w'))%Z /\
    authority_digest signed = Ok (event_authority_digest (historical_event input)) /\
    (forall r, attests input r -> revocation = Some r) /\
    (exists api, api ∈ apis (unsigned signed) /\
       authority_api_id api = event_api_id (historical_event input) /\
       authority_catalog_snapshot_digest api = auth_digest catalog) /\
    authentic (sh_owner (fst w')) (KindCatalog, auth_digest catalog) (MaterialCatalog catalog) /\
    (forall c, provider = Some c ->
       authentic (sh_owner (fst w')) (KindProvider, auth_digest c) (MaterialProvider c)) /\
    admit_historical owner (sh_owner (fst w')) now signed id revocation catalog provider input = Ok v.
Proof.
  intros Hwf. unfold owner_verify_historical_event. intros Hf.
  run Hf from Hwf as signed w1 Hm Hs1 Hwf1.
  apply authority_material_authentic in Hm as (_ & Hd & _); [|done].
  run Hf from Hwf1 as status w2 Hst Hs2 Hwf2. apply lift_ok in Hst as [Hst ->].
  apply historical_scope_ok in Hst as [Hval _].
  assert (forall text, safe (match text with
    | Some text => let! r := lift (json (from_slice text)) in ret (Some r)
    | None => ret None end : Task (option SignedSessionRevocation))) as Hsafe
    by (intros [text|]; solve_safe).
  assert (forall r, safe (match r with
    | Some r => let! _ := issuer owner (revocation_issuer_key_id r) in run_accept_revocation owner r
    | None => ret tt end)) as Hsafe' by (intros [r|]; solve_safe).
  run Hf from Hwf1 as revocation w3 Hr Hs3 Hwf3. run Hf from Hwf3 as key w4 Hk Hs4 Hwf4.
  run Hf from Hwf4 as u w5 Hu Hs5 Hwf5. run Hf from Hwf5 as api w6 Hapi Hs6 Hwf6.
  apply lift_ok in Hapi as [Hapi ->]. apply ok_or_ok, find_api in Hapi as [Hin Hid].
  run Hf from Hwf5 as catalog w7 Hcat Hs7 Hwf7. apply catalog_material_authentic in Hcat; [|done].
  run Hf from Hwf7 as k8 w8 Hk8 Hs8 Hwf8. run Hf from Hwf8 as provider w9 Hp Hs9 Hwf9.
  run Hf from Hwf9 as now w10 Hn Hs10 Hwf10. apply policy_now_ok in Hn as (_ & -> & Hle).
  run Hf from Hwf10 as s w11 Hs Hs11 Hwf11. apply lock_ok in Hs as ->. apply lift_ok in Hf as [Hf ->].
  exists (sh_clock (fst w10)), signed, (key_id key), revocation, catalog, provider.
  pose proof Hcat as (_ & Hcd & _). cbn in Hcd. split_and!; try done.
  - etrans; [|exact Hle]. apply clock_monotone. by do 7 (etrans; [eassumption|]).
  - by apply clock_monotone.
  - intros r (st & text & Hv' & Ht & Hj). rewrite Hval in Hv'. injection Hv' as <-.
    rewrite Ht in Hr. unfold json in Hr. rewrite Hj in Hr. by injection Hr as <- _.
  - exists api. by rewrite Hcd.
  - rewrite Hcd. eapply authentic_steps; [|exact Hcat]. by do 4 (etrans; [eassumption|]).
  - intros c Hc. pose proof (publisher_certificate_ok _ _ _ _ _ _ Hwf8 Hp c Hc) as Ha.
    eapply authentic_steps; [|exact Ha]. by etrans.
Qed.

(** C19: a retained event is accepted only as published before any known cutoff.  With fresh
    status evidence from an active issuer, the publisher's authority is the one the event
    names, signed by a trusted issuer that is not revoked, and its session key signed
    exactly this event and payload.  The event's time and the time the broker stored it
    lie in the authority's window and before the cutoff of every revocation of the session
    that is mirrored at the end of the call or attested by the evidence.  The event is
    granted by the authentic catalog the authority pins, or by a provider's certificate
    that held at both times. *)
Theorem retained_events_precede_cutoffs input w v w' :
  shared_wf (fst w) -> owner_verify_historical_event owner input w = (Ok v, w') ->
  let s := sh_owner (fst w') in
  let authority := publisher_authority v in
  let event := historical_event input in
  let publication := historical_publication input in
  let action := historical_action input in
  published_event v = event /\ original_publication v = Some publication /\
  verified_digest authority = event_authority_digest event /\
  (exists now key, (sh_clock (fst w) <= now <= sh_clock (fst w'))%Z /\
     (now < metadata_expires_at (metadata_response (verified_metadata (historical_status input))))%Z /\
     issuer_active s (metadata_issuer_key_id
       (metadata_response (verified_metadata (historical_status input)))) now = true /\
     known_key s key /\ issuer_state key <> IssuerRevoked /\
     issuer_key_id (verified_authority authority) = key_id key) /\
  (exists bytes digest, session_proof (historical_proof input) = b64_encode bytes /\
     session_event_signing_digest event (historical_payload input) = Ok digest /\
     verify_strict (verified_session_key authority) digest bytes = true) /\
  (forall text, text = event_time event \/ text = published_at publication ->
     exists nanos, rfc3339_nanos text = Some nanos /\ eligible authority nanos /\
       forall r, revocations s !! authorization_session_id (verified_authority authority) = Some r \/
                 attests input r -> (nanos < effective_cutoff r * NANOS)%Z) /\
  (exists catalog, authentic s (KindCatalog, auth_digest catalog) (MaterialCatalog catalog) /\
     event_api_id event = snapshot_api_id (auth_record catalog) /\
     event_action event = identity_name action /\ is_event_publication action = true /\
     (authorizes (auth_record catalog) (verified_signed authority) action = true \/
      exists certificate key,
        authentic s (KindProvider, auth_digest certificate) (MaterialProvider certificate) /\
        known_key s key /\ forall text,
        text = event_time event \/ text = published_at publication ->
        exists nanos, rfc3339_nanos text = Some nanos /\
          authenticated_authorizes_event_publication certificate key (verified_signed authority)
            catalog action (nanos / NANOS)%Z = Ok true)).
Proof.
  intros Hwf Hf. destruct (safe_wf _ _ _ _ Hwf Hf (safe_verify_historical_event _)) as [_ Hwf'].
  destruct (verify_historical_event_ok _ _ _ _ Hwf Hf)
    as (now & signed & id & revocation & catalog & provider & Hnow & Hdig & Hatt & Hapi & Hcat & Hprov
      & Hadm).
  apply admit_historical_ok in Hadm as (Hexp & _ & Hact & cutoff & key & kc & p & Hcut & Hkey & Hauth
    & Hp & Hcore).
  destruct (verify_accepted _ _ Hauth) as [vk Hacc].
  destruct (accepted_result _ _ _ Hacc) as (Hsigned & Hpurpose & Hcutoff). cbn in Hsigned, Hpurpose, Hcutoff.
  pose proof (accepted_digest _ _ _ Hacc) as Hd. cbn in Hd.
  pose proof (accepted_state _ _ _ Hacc) as Hstate. cbn in Hstate.
  destruct (accepted_issuer _ _ _ Hacc) as (_ & _ & Hkid). cbn in Hkid.
  apply core_verify_event_ok in Hcore as ((r & Hr) & Hres & Ha1 & Ha2 & Ha3 & Hright).
  apply verify_session_event_ok in Hr as ((_ & _ & (nanos & Hn & Hel & _) & Hpub & _) & digest & bytes
    & Hsd & Hb & Hver & _).
  destruct (Hpub _ eq_refl) as (_ & nanos' & Hn' & Hel').
  assert (forall n, eligible (publisher_authority v) n -> forall r,
    revocations (sh_owner (fst w')) !! authorization_session_id
      (verified_authority (publisher_authority v)) = Some r \/ attests input r ->
    (n < effective_cutoff r * NANOS)%Z) as Hbefore.
  { intros n [_ He] r' Hr'. unfold verified_authority in Hr'. rewrite Hsigned in Hr'.
    destruct (historical_cutoff_ok _ _ _ _ _ _ Hcut r') as (c & Hc & Hle); [naive_solver|].
    specialize (He c ltac:(by rewrite Hcutoff)). unfold NANOS in *. nia. }
  cbn zeta. split_and!; try (by rewrite Hres); [congruence| | |by intros text [->| ->]; eauto|].
  - exists now, key. destruct (state_issuer_known _ _ _ _ (shared_owner_wf _ Hwf') Hkey) as [Hkk _].
    unfold verified_authority. rewrite Hsigned. split_and!; try done; [lia..|].
    destruct Hstate as [->|[-> _]]; done.
  - apply decode_base64url_bytes in Hb as [Hb _]. exists bytes, digest. done.
  - exists catalog. split_and!; try done. destruct Hright as [|(c & k & -> & Hpp)]; [by left|right].
    destruct (Hp c k eq_refl) as [Hc Hk]. exists c, k. split_and!; [by apply Hprov| |].
    + by eapply state_issuer_known; [apply shared_owner_wf|].
    + intros text Ht. by eapply provider_publication_ok.
Qed.
End tasks.
End concurrency.
