(* ===== verification/OwnerExamples.v ===== *)
(** * The owner's tasks, evaluated

    A runtime that provides and calls one API, with its registry in memory and no other
    task: the theorems of [OwnerConcurrency] applied to runs of it. *)

From Stdlib Require Import Ascii String.
From S2P Require Import Prelude RustStr Extern Json Transcript Base64 Protocol Wire.
From S2P Require Import Authorization Identifiers Permissions SessionAuthority Catalog.
From S2P Require Import SessionMessages SessionResponse VerificationCore IssuerMetadata.
From S2P Require Import AuthorizationOwner OwnerSafety OwnerTasks OwnerAdmission OwnerConcurrency.

Local Open Scope string_scope.

Local Existing Instance json_tree.
Local Existing Instances rfc4648 rfc4648_laws sample_sha256 sample_ed25519 sample_ed25519_laws
  sample_ulid sample_url sample_clock.

(** ** Documents *)

Definition event_sample : CatalogActionIdentity :=
  mkCatalogActionIdentity SurfaceEvent "files.changed" ActionPublish.

(** A catalog that grants a call and an event to one capability. *)
Definition catalog_unsigned : SignedCatalogSnapshot := {|
  snapshot_format := CATALOG_SNAPSHOT_FORMAT_V1;
  snapshot_issuer_key_id := sample_issuer_id;
  snapshot_instance_id := sample_id;
  snapshot_nats_account := "ACCOUNT";
  snapshot_api_id := "files@v1";
  snapshot_generation := 1;
  snapshot_accepted_revision := 3;
  snapshot_definition_digest := sample_zeros;
  snapshot_actions := [mkCatalogAction sample_action 2; mkCatalogAction event_sample 2];
  snapshot_capabilities :=
    [mkCatalogCapability "files.read" 1 1
       [mkCatalogCapabilityMembership sample_action 2;
        mkCatalogCapabilityMembership event_sample 2]];
  snapshot_issued_at := 100;
  snapshot_extensions := [];
  snapshot_critical := [];
  snapshot_signature := "";
|}.

(** The revocation of the sample session. *)
Definition revocation_unsigned : SignedSessionRevocation := {|
  revocation_format := SESSION_REVOCATION_FORMAT_V1;
  revocation_issuer_key_id := sample_issuer_id;
  revocation_instance_id := sample_id;
  revocation_nats_account := "ACCOUNT";
  revocation_session_id := sample_id;
  effective_cutoff := 210;
  revocation_reason := "logout";
  revocation_issued_at := 215;
  latest_context_expiry := 400;
  revocation_extensions := [];
  revocation_critical := [];
  revocation_signature := "";
|}.

Definition document_parts : list Json :=
  [signed_part catalog_unsigned; signed_part sample_certificate_unsigned;
   signed_part revocation_unsigned].

Definition revocation_sample : SignedSessionRevocation :=
  Eval vm_compute in sample_sign document_parts revocation_unsigned.

Definition catalog_sample : SignedCatalogSnapshot :=
  Eval vm_compute in sample_sign document_parts catalog_unsigned.

Definition certificate_sample : SignedProviderCertificate :=
  Eval vm_compute in sample_sign document_parts sample_certificate_unsigned.

Definition record_texts : list Json :=
  (document_parts ++ [snapshot_json catalog_sample; certificate_json certificate_sample;
                      revocation_json revocation_sample])%list.

Definition address_of (v : Json) : string :=
  let canonical : CanonicalJson := canonical_table record_texts in
  match content_address v with Ok digest => digest | Err _ => "" end.

Definition catalog_address : string := Eval vm_compute in address_of (snapshot_json catalog_sample).
Definition certificate_address : string :=
  Eval vm_compute in address_of (certificate_json certificate_sample).

(** The authority of the runtime, which is also the caller. *)
Definition body_sample : UnsignedSessionAuthority := {|
  format := SESSION_AUTHORITY_FORMAT_V1;
  issuer_key_id := sample_issuer_id;
  trellis_instance_id := sample_id;
  audience_nats_account := "ACCOUNT";
  principal_id := sample_id;
  principal_kind := PrincipalService;
  binding := BindingService sample_id sample_id "worker";
  authorization_session_id := sample_id;
  runtime_id := "AAAAAAAAAAAAAAAAAAAAAA";
  session_public_key := sample_session_key;
  inbox_prefix := "_INBOX.worker";
  login_session_id := None;
  oauth_grant_id := None;
  capabilities := [mkCapabilityAuthority "files.read" 1 1];
  apis := [mkAuthorityApi "files@v1" 1 2 catalog_address];
  provider_bindings :=
    [mkAuthorityProvider "files@v1" 1 sample_id sample_zeros certificate_address];
  resource_bindings_digest := None;
  issued_at := 100;
  not_before := 100;
  expires_at := 380;
  extensions := [];
  critical := [];
|}.

Definition signed_sample : SignedSessionAuthority :=
  Eval vm_compute in
    let canonical : CanonicalJson := canonical_table (record_texts ++ [unsigned_json body_sample]) in
    match signed_json_digest SESSION_AUTHORITY_FORMAT_V1 (unsigned_json body_sample) with
    | Ok digest => {| unsigned := body_sample; signature := b64_encode (sign sample_signer digest) |}
    | Err _ => {| unsigned := body_sample; signature := "" |}
    end.

Definition all_texts : list Json :=
  (record_texts ++ [unsigned_json body_sample; signed_json signed_sample])%list.

Definition sample_canonical : CanonicalJson := canonical_table all_texts.
Local Existing Instance sample_canonical.

Definition no_codec {A} : JsonCodec A :=
  {| to_vec := fun _ => Err "unsupported"; from_slice := fun _ => Err "unsupported" |}.

Definition codec_json : JsonCodec Json := no_codec.
Definition codec_metadata : JsonCodec SignedIssuerMetadata := no_codec.
Definition codec_key : JsonCodec AuthorityIssuerKey := no_codec.
Definition codec_material : JsonCodec AuthorityMaterial := no_codec.
Definition codec_status : JsonCodec AuthorizationSessionStatus := no_codec.
Definition codec_chain : JsonCodec IssuerChain := no_codec.
Definition codec_rotation : JsonCodec SignedIssuerRotation := no_codec.
Definition codec_request : JsonCodec IssuerMetadataRequest := no_codec.
Definition codec_revocation : JsonCodec SignedSessionRevocation := no_codec.
Definition codec_authority : JsonCodec SignedSessionAuthority := table_codec [signed_sample].
Definition codec_catalog : JsonCodec SignedCatalogSnapshot :=
  {| to_vec := fun _ => Ok "catalog"; from_slice := fun _ => Ok catalog_sample |}.
Definition codec_certificate : JsonCodec SignedProviderCertificate :=
  {| to_vec := fun _ => Ok "certificate"; from_slice := fun _ => Ok certificate_sample |}.
Definition no_profile : FromValue CallerUser := fun _ => Err "unsupported".
Local Existing Instances codec_json codec_metadata codec_key codec_material codec_status codec_chain
  codec_rotation codec_request codec_revocation codec_authority codec_catalog codec_certificate
  no_profile.

Definition authority_address : string :=
  Eval vm_compute in match authority_digest signed_sample with Ok digest => digest | Err _ => "" end.

(** ** The runtime *)

(** No other task runs, no time passes, and the registry is a table. *)
Definition quiet : Environment := {|
  Env := list (string * string);
  env_turn := fun w => w;
  env_lapse := fun e => (0%N, e);
  env_elapsed := fun _ => None;
  env_instant := fun _ => 0%N;
  env_held := fun _ _ => false;
  env_bucket := fun _ => true;
  env_get := fun e key => Ok (snd <$> find (fun entry => String.eqb (fst entry) key) e);
  env_random := fun _ => "";
  env_inbox := fun _ => "_INBOX.worker";
  env_connected := fun _ => true;
  env_reply := fun _ => None;
  env_changes_closed := fun _ => true;
|}.
Local Existing Instance quiet.

Definition registry_sample : list (string * string) :=
  [("context." +:+ authority_address, "0");
   ("api." +:+ catalog_address, "catalog");
   ("provider." +:+ certificate_address, "certificate")].

Definition own_sample : VerifiedSessionAuthority := {|
  verified_signed := signed_sample;
  verified_digest := authority_address;
  verified_session_key := true;
  verified_purpose := PurposeLive;
  verified_revocation_cutoff := None;
|}.

(** A mirror covers the owner and its authority is installed. *)
Definition covered_state : OwnerState :=
  match coverage_ready 1 (stage_coverage 1 sample_owner_state) 200 with
  | Ok s => s
  | Err _ => sample_owner_state
  end.

Definition running_state : OwnerState :=
  match promote_own sample_owner covered_state 200 200 200 own_sample None with
  | Ok s => s
  | Err _ => covered_state
  end.

Definition running : Shared * Env :=
  (mkShared 200 running_state ∅ [] 16, registry_sample).

Definition request_sample : SessionRequest := {|
  request_authority_digest := authority_address;
  request_api_id := "files@v1";
  request_api_generation := 1;
  request_accepted_revision := 2;
  request_action := "files.read";
  request_subject := "rpc.v1.files.read";
  request_reply_subject := Some "_INBOX.worker.1";
  request_id := sample_id;
  request_issued_at := 190;
|}.

Definition proof_sample : SessionProof :=
  Eval vm_compute in
    match sign_session_request request_sample "data" sample_signer with
    | Ok proof => proof
    | Err _ => mkSessionProof ""
    end.

(** The session is revoked while the runtime runs. *)
Definition revoked : Shared * Env :=
  (mkShared 220 (fst (accept_revocation sample_owner running_state 220 revocation_sample)) ∅ [] 16,
   registry_sample).

Definition event_sample_message : SessionEvent := {|
  event_authority_digest := authority_address;
  event_api_id := "files@v1";
  event_api_generation := 1;
  event_accepted_revision := 2;
  event_action := "files.changed";
  event_subject := "events.v1.files.changed";
  event_id := sample_id;
  event_time := "1970-01-01T00:03:25Z";
|}.

Definition event_proof_sample : SessionProof :=
  Eval vm_compute in
    match sign_session_event event_sample_message "data" sample_signer with
    | Ok proof => proof
    | Err _ => mkSessionProof ""
    end.

(** Fresh status of the session. *)
Definition status_sample : VerifiedIssuerMetadata := {|
  verified_metadata := {|
    metadata_response := {|
      metadata_format := ISSUER_METADATA_DOMAIN_V1;
      metadata_issuer_key_id := sample_issuer_id;
      metadata_request := {|
        metadata_instance_id := sample_id;
        metadata_nats_account := "ACCOUNT";
        metadata_nonce := "AAAAAAAAAAAAAAAAAAAAAA";
        metadata_query := QueryAuthorityStatus sample_id;
      |};
      metadata_request_subject := ISSUER_METADATA_SUBJECT;
      metadata_reply_subject := "_INBOX.worker.2";
      metadata_result := ResultValue "0";
      metadata_issued_at := 215;
      metadata_expires_at := 245;
    |};
    metadata_signature := "";
  |};
  verified_value := Some (ValueStatus (mkAuthorizationSessionStatus sample_id SessionActive None));
|}.

Definition history_sample : HistoricalInput := {|
  historical_event := event_sample_message;
  historical_payload := "data";
  historical_proof := event_proof_sample;
  historical_action := event_sample;
  historical_publication := sample_publication;
  historical_status := status_sample;
|}.

(** ** Witnesses *)

Lemma ok_result {T E W} (x : result T E * W) :
  is_ok (fst x) = true -> exists t w, x = (Ok t, w).
Proof. destruct x as [[t|e] w]; [eauto|done]. Qed.

Lemma quiet_relies : relies sample_owner.
Proof. intros w _. apply rtc_refl. Qed.

Lemma running_owner_wf : owner_wf sample_owner running_state.
Proof.
  assert (owner_wf sample_owner covered_state) as Hc.
  { eapply (step_wf sample_owner 200 (stage_coverage 1 sample_owner_state) 200).
    - apply (step_ready sample_owner 200 200 1); [reflexivity|vm_compute; reflexivity].
    - eapply (step_wf sample_owner 200 sample_owner_state 200); [apply step_stage|].
      by eapply (new_wf sample_owner sample_trust), sample_new. }
  eapply (step_wf sample_owner 200 covered_state 200); [|exact Hc].
  eapply (step_promote sample_owner 200 200 200 200 own_sample None); [done..|].
  vm_compute. reflexivity.
Qed.

Lemma fresh_wf clock s permits :
  owner_wf sample_owner s -> shared_wf sample_owner (mkShared clock s ∅ [] permits).
Proof.
  intros Hwf. split; cbn; [done|..].
  - by intros key entry.
  - by intros id key m.
  - rewrite map_size_empty. apply Nat.le_0_l.
Qed.

Lemma running_wf : shared_wf sample_owner (fst running).
Proof. apply fresh_wf, running_owner_wf. Qed.

Lemma revoked_wf : shared_wf sample_owner (fst revoked).
Proof. apply fresh_wf, revocation_wf, running_owner_wf. Qed.

Lemma admitted_request_justified_witness :
  exists v w' now provider certificate catalog,
    owner_verify_request sample_owner 0 request_sample "data" proof_sample sample_action running
      = (Ok v, w') /\
    opening_justified sample_owner (sh_owner (fst w')) now request_sample "data" proof_sample
      sample_action v provider certificate catalog.
Proof.
  destruct (ok_result (owner_verify_request sample_owner 0 request_sample "data" proof_sample
    sample_action running)) as (v & w' & Hv); [vm_compute; reflexivity|].
  destruct (admitted_request_justified sample_owner quiet_relies 0 request_sample "data" proof_sample
    sample_action running v w' running_wf Hv) as (now & provider & certificate & catalog & _ & Hj).
  exists v, w', now, provider, certificate, catalog. exact (conj Hv Hj).
Defined.

Lemma authorized_actions_granted_witness :
  exists catalog w',
    authorize_action sample_owner own_sample "files@v1" sample_action running = (Ok catalog, w') /\
    snapshot_api_id (auth_record catalog) = "files@v1".
Proof.
  destruct (ok_result (authorize_action sample_owner own_sample "files@v1" sample_action running))
    as (catalog & w' & Hv); [vm_compute; reflexivity|].
  exists catalog, w'. split; [exact Hv|].
  exact (proj1 (proj2 (proj2 (authorized_actions_granted sample_owner quiet_relies own_sample
    "files@v1" sample_action running catalog w' running_wf Hv)))).
Defined.

Lemma material_authentic_witness :
  exists m w', material sample_owner KindCatalog catalog_address running = (Ok m, w') /\
    authentic sample_owner (sh_owner (fst w')) (KindCatalog, catalog_address) m.
Proof.
  destruct (ok_result (material sample_owner KindCatalog catalog_address running))
    as (m & w' & Hm); [vm_compute; reflexivity|].
  exists m, w'. split; [exact Hm|].
  exact (proj1 (material_authentic sample_owner quiet_relies KindCatalog catalog_address running m w'
    running_wf Hm)).
Defined.

Lemma forward_issuer_terminates_witness :
  follow_rotations sample_owner sample_zeros (MAX_ISSUERS + 1) running =
  follow_rotations sample_owner sample_zeros MAX_ISSUERS running.
Proof.
  exact (proj1 (forward_issuer_terminates sample_owner quiet_relies sample_zeros running running_wf)
    1%nat).
Defined.

Lemma revoked_shut_out : shut_out sample_id 400 220 (sh_owner (fst revoked)).
Proof.
  right. right. exists revocation_sample. split; [vm_compute; reflexivity|].
  vm_compute. discriminate.
Qed.

Lemma revoked_sessions_kept_out_witness :
  shut_out sample_id 400 220 (sh_owner (fst revoked)) /\
  forall fuel request payload proof action v w',
    owner_verify_request sample_owner fuel request payload proof action revoked = (Ok v, w') ->
    authorization_session_id (verified_authority (opening_authority v)) = sample_id ->
    (400 < expires_at (verified_authority (opening_authority v)))%Z.
Proof.
  split; [exact revoked_shut_out|].
  exact (proj1 (revoked_sessions_kept_out sample_owner quiet_relies sample_id 400 revoked revoked_wf
    revoked_shut_out)).
Defined.

(** The request that was admitted before is refused. *)
Example revoked_request_refused :
  is_ok (fst (owner_verify_request sample_owner 0 request_sample "data" proof_sample sample_action
                revoked)) = false.
Proof. vm_compute. reflexivity. Qed.

Lemma retained_events_precede_cutoffs_witness :
  exists v w', owner_verify_historical_event sample_owner history_sample revoked = (Ok v, w') /\
    published_event v = event_sample_message.
Proof.
  destruct (ok_result (owner_verify_historical_event sample_owner history_sample revoked))
    as (v & w' & Hv); [vm_compute; reflexivity|].
  exists v, w'. split; [exact Hv|].
  exact (proj1 (retained_events_precede_cutoffs sample_owner quiet_relies history_sample revoked v w'
    revoked_wf Hv)).
Defined.
