(* ===== verification/OperationRecord.v ===== *)
(** * Operation records

    The durable record of an operation invocation, its validation and its stored form,
    from [crates/protocol/src/operation_record.rs]. *)

From Stdlib Require Import Ascii String.
From S2P Require Import Prelude RustStr Extern Protocol Wire.
From S2P Require Import TransferSubjects Transfer TransferProof.

Local Open Scope string_scope.

Definition OPERATION_RECORD_VERSION : N := 2.
Definition MAX_OPERATION_INPUT_BYTES : N := 262144.
Definition MAX_OPERATION_PROGRESS_BYTES : N := 65536.
Definition MAX_OPERATION_OUTPUT_BYTES : N := 524288.
Definition MAX_OPERATION_ERROR_BYTES : N := 32768.
Definition MAX_OPERATION_SIGNALS : N := 100.
Definition MAX_OPERATION_SIGNAL_BYTES : N := 65536.
Definition MAX_OPERATION_RECORD_BYTES : N := 1048576.

Inductive OperationRecordError :=
| RecordInvalid (message : string)
| RecordCapacity (field : string) (actual_bytes max_bytes : N)
| RecordJsonError (message : string)
| RecordProtocol (error : ProtocolError).

Inductive OperationState :=
| OpPending
| OpRunning
| OpCompleted
| OpFailed
| OpCancelled.

Global Instance OperationState_eq_dec : EqDecision OperationState.
Proof. solve_decision. Defined.

Definition is_terminal (s : OperationState) : bool :=
  match s with OpCompleted | OpFailed | OpCancelled => true | OpPending | OpRunning => false end.

Record OperationTransferProgress := mkOperationTransferProgress {
  chunk_index : N;
  chunk_bytes : N;
  transferred_bytes : N;
}.

Record OperationTraceCarrier := mkOperationTraceCarrier {
  traceparent : string;
  tracestate : option string;
}.

Section records.
Context `{JsonValue}.

Record OperationError := mkOperationError {
  operr_error_type : string;
  operr_message : string;
  operr_fields : gmap string Value;
}.

Record OperationSnapshot := mkOperationSnapshot {
  snap_id : option string;
  snap_service : option string;
  snap_operation : option string;
  snap_revision : N;
  snap_state : OperationState;
  snap_created_at : option string;
  snap_updated_at : option string;
  snap_completed_at : option string;
  snap_progress : option Value;
  snap_transfer : option OperationTransferProgress;
  snap_output : option Value;
  snap_error : option OperationError;
}.

Record DurableOperationSignal := mkDurableOperationSignal {
  signal_sequence : N;
  signal_request_id : string;
  signal_name : string;
  signal_payload : Value;
  signal_accepted_at : string;
  signal_acknowledged : bool;
}.

Record DurableOperationRecord := mkDurableOperationRecord {
  invocation_id : string;
  invocation_digest : string;
  rec_api_id : string;
  rec_operation : string;
  deployment_id : string;
  creator_principal_id : string;
  creator_binding : SessionBinding;
  caller_session_key : string;
  caller : option AuthenticatedCaller;
  input : Value;
  snapshot : OperationSnapshot;
  revision : N;
  owner_executor_id : option string;
  owner_connection_id : option string;
  owner_epoch : N;
  lease_expires_at_ms : option Z;
  cancellation_requested : bool;
  cancellation_requested_at : option string;
  next_signal_sequence : N;
  update_sequence : N;
  signals : list DurableOperationSignal;
  transfer : option Value;
  telemetry : option OperationTraceCarrier;
}.

Global Instance OperationSnapshot_settable : Settable OperationSnapshot := fun s =>
  mkOperationSnapshot (snap_id s) (snap_service s) (snap_operation s) (snap_revision s)
    (snap_state s) (snap_created_at s) (snap_updated_at s) (snap_completed_at s)
    (snap_progress s) (snap_transfer s) (snap_output s) (snap_error s).

Global Instance DurableOperationRecord_settable : Settable DurableOperationRecord := fun r =>
  mkDurableOperationRecord (invocation_id r) (invocation_digest r) (rec_api_id r)
    (rec_operation r) (deployment_id r) (creator_principal_id r) (creator_binding r)
    (caller_session_key r) (caller r) (input r) (snapshot r) (revision r)
    (owner_executor_id r) (owner_connection_id r) (owner_epoch r) (lease_expires_at_ms r)
    (cancellation_requested r) (cancellation_requested_at r) (next_signal_sequence r)
    (update_sequence r) (signals r) (transfer r) (telemetry r).

(** [OperationUpload], with the grant as the JSON value the record holds. *)
Record OperationUpload := mkOperationUpload {
  upload_staging_key : string;
  upload_state : string;
  upload_grant : Value;
  upload_size : option N;
  upload_digest : option string;
  upload_updated_at : option string;
  upload_content_type : option string;
  upload_file_info : option Value;
}.
End records.

(** The object [operation_invocation_digest] digests, which [serde_json::json!] builds
    from its five members. *)
Class InvocationJson `{JsonValue} :=
  invocation_value : string -> string -> string -> SessionBinding -> Value -> Value.

(** What [serde_json] provides for the parts of a record. *)
Class RecordJson `{JsonValue} := {
  #[global] record_codec :: JsonCodec DurableOperationRecord;
  #[global] value_codec :: JsonCodec Value;
  #[global] upload_from_value :: FromValue OperationUpload;
  #[global] info_from_value :: FromValue TransferFileInfo;
  #[global] error_to_value :: ToValue OperationError;
  #[global] invocation_json :: InvocationJson;
}.

Section validation.
Context `{JsonValue} `{!RecordJson} `{!CanonicalJson}.
Context `{Base64Url, Sha256, Rfc3339, UlidParser, Ed25519, JsonCodec TransferGrant}.

Definition operation_invocation_digest (api_id operation principal_id : string)
    (binding : SessionBinding) (input : Value) : result string ProtocolError :=
  digest_json (invocation_value api_id operation principal_id binding input).

(** [serde_json::to_vec(value)?.len()], checked against a limit. *)
Definition check_size (field : string) (value : Value) (max_bytes : N) :
    result unit OperationRecordError :=
  let? bytes := map_err RecordJsonError (to_vec value) in
  let actual_bytes := N.of_nat (String.length bytes) in
  if (max_bytes <? actual_bytes)%N then Err (RecordCapacity field actual_bytes max_bytes)
  else Ok tt.

Definition check_timestamp (timestamp message : string) : result unit OperationRecordError :=
  reject_if (negb (is_rfc3339 timestamp)) (RecordInvalid message).

(** One of the checkpoint timestamps. *)
Definition check_checkpoint (value : option string) : result unit OperationRecordError :=
  let? value := ok_or value (RecordInvalid "missing checkpoint timestamp") in
  check_timestamp value "invalid checkpoint timestamp".

(** The loop over the signals; [before] are the ones already visited. *)
Fixpoint check_signals (before signals : list DurableOperationSignal) :
    result unit OperationRecordError :=
  match signals with
  | [] => Ok tt
  | signal :: signals =>
      if negb (signal_sequence signal =? len before + 1)%N
         || any (fun other => signal_request_id other = signal_request_id signal) before
      then Err (RecordInvalid "signals must have contiguous sequences and unique request ids")
      else
        let? _ := check_timestamp (signal_accepted_at signal)
                    "invalid signal acceptance timestamp" in
        let? _ := check_size "signal" (signal_payload signal) MAX_OPERATION_SIGNAL_BYTES in
        check_signals (before ++ [signal])%list signals
  end.

(** [upload.state] as the source matches it. *)
Definition upload_valid (upload : OperationUpload) : bool :=
  let state := upload_state upload in
  let staged := negb (String.eqb (upload_staging_key upload) "") in
  if String.eqb state "pending" || String.eqb state "uploading"
     || String.eqb state "committed" || String.eqb state "invalid" then staged
  else if String.eqb state "streaming" || String.eqb state "streamed" then negb staged
  else false.

Definition check_upload (value : Value) : result unit OperationRecordError :=
  let? upload := map_err RecordJsonError (from_value value) in
  if negb (upload_valid upload) then Err (RecordInvalid "invalid upload attempt")
  else
    let? bytes := map_err RecordJsonError (to_vec (upload_grant upload)) in
    let? _ := map_err RecordProtocol (parse_transfer_grant bytes) in
    if String.eqb (upload_state upload) "committed" || String.eqb (upload_state upload) "streamed"
    then
      let? file_info := ok_or (upload_file_info upload)
                          (RecordInvalid "committed upload is missing logical file metadata") in
      let? info := map_err RecordJsonError (from_value file_info) in
      reject_if
        (negb (bool_decide (Some (info_size info) = upload_size upload))
         || negb (bool_decide (Some (info_digest info) = upload_digest upload))
         || negb (bool_decide (Some (info_updated_at info) = upload_updated_at upload)))
        (RecordInvalid "committed upload metadata does not match staged object")
    else Ok tt.

Definition check_optional_size (field : string) (value : option Value) (max_bytes : N) :
    result unit OperationRecordError :=
  match value with Some value => check_size field value max_bytes | None => Ok tt end.

(** [DurableOperationRecord::validate] *)
Definition validate_record (r : DurableOperationRecord) : result unit OperationRecordError :=
  if existsb (fun counter => MAX_SAFE_INTEGER <? counter)%N
       [revision r; owner_epoch r; next_signal_sequence r; update_sequence r;
        snap_revision (snapshot r)]
  then Err (RecordInvalid "framework counter exceeds exact JSON integer range")
  else if cancellation_requested r && bool_decide (cancellation_requested_at r = None) then
    Err (RecordInvalid "cancellation intent is missing its committed timestamp")
  else
    let? _ :=
      match cancellation_requested_at r with
      | Some timestamp => check_timestamp timestamp "invalid cancellation timestamp"
      | None => Ok tt
      end in
    let mismatch := Err (RecordInvalid "invocation identity or digest does not match") in
    if negb (is_ulid (invocation_id r)) then mismatch
    else
      let? digest :=
        map_err RecordProtocol
          (operation_invocation_digest (rec_api_id r) (rec_operation r)
             (creator_principal_id r) (creator_binding r) (input r)) in
      if negb (String.eqb (invocation_digest r) digest) then mismatch
      else if negb (bool_decide (snap_id (snapshot r) = Some (invocation_id r)))
              || negb (bool_decide (snap_operation (snapshot r) = Some (rec_operation r)))
              || negb (snap_revision (snapshot r) =? revision r)%N
      then Err (RecordInvalid "snapshot identity or revision does not match")
      else
        let? _ := check_checkpoint (snap_created_at (snapshot r)) in
        let? _ := check_checkpoint (snap_updated_at (snapshot r)) in
        if (MAX_OPERATION_SIGNALS <? len (signals r))%N
           || negb (next_signal_sequence r =? len (signals r) + 1)%N
        then Err (RecordInvalid "inconsistent signal count or next sequence")
        else
          let? _ := check_signals [] (signals r) in
          let? _ := match transfer r with Some value => check_upload value | None => Ok tt end in
          let? error :=
            match snap_error (snapshot r) with
            | Some error => let? value := map_err RecordJsonError (to_value error) in Ok (Some value)
            | None => Ok None
            end in
          let? _ := check_optional_size "input" (Some (input r)) MAX_OPERATION_INPUT_BYTES in
          let? _ := check_optional_size "progress" (snap_progress (snapshot r))
                      MAX_OPERATION_PROGRESS_BYTES in
          let? _ := check_optional_size "output" (snap_output (snapshot r))
                      MAX_OPERATION_OUTPUT_BYTES in
          check_optional_size "error" error MAX_OPERATION_ERROR_BYTES.

(** [DurableOperationRecord::same_invocation] *)
Definition same_invocation (a b : DurableOperationRecord) : bool :=
  String.eqb (invocation_id a) (invocation_id b)
  && String.eqb (invocation_digest a) (invocation_digest b).

(** ** Stored form *)

Definition record_header : string :=
  "TRKV" +:+ String "001" (be_bytes_u32 OPERATION_RECORD_VERSION).

Definition encode_operation_record (r : DurableOperationRecord) :
    result string OperationRecordError :=
  let? _ := validate_record r in
  let? json := map_err RecordJsonError (to_vec r) in
  let bytes := record_header +:+ json in
  let actual_bytes := N.of_nat (String.length bytes) in
  if (MAX_OPERATION_RECORD_BYTES <? actual_bytes)%N then
    Err (RecordCapacity "record" actual_bytes MAX_OPERATION_RECORD_BYTES)
  else Ok bytes.

(** The checks of the length, the magic and the version are those of one prefix. *)
Definition decode_operation_record (bytes : string) :
    result DurableOperationRecord OperationRecordError :=
  match strip_prefix record_header bytes with
  | None => Err (RecordInvalid "unsupported record representation")
  | Some json =>
      let actual_bytes := N.of_nat (String.length bytes) in
      if (MAX_OPERATION_RECORD_BYTES <? actual_bytes)%N then
        Err (RecordCapacity "record" actual_bytes MAX_OPERATION_RECORD_BYTES)
      else
        let? record := map_err RecordJsonError (from_slice json) in
        let? _ := validate_record record in
        Ok record
  end.

(** ** Lemmas *)

Lemma decode_validated bytes r :
  decode_operation_record bytes = Ok r -> validate_record r = Ok tt.
Proof.
  unfold decode_operation_record. destruct (strip_prefix _ _); [|done].
  destruct (_ <? _)%N; [done|]. rewrite let_ok. intros (r' & _ & Hv).
  by apply let_ok in Hv as ([] & ? & [= <-]).
Qed.

Lemma encode_decode_record `{!JsonCodecLaws DurableOperationRecord} r bytes :
  encode_operation_record r = Ok bytes -> decode_operation_record bytes = Ok r.
Proof.
  unfold encode_operation_record, decode_operation_record. rewrite let_ok.
  intros ([] & Hv & He). apply let_ok in He as (json & Hj & He). cbv zeta in He.
  destruct (N.ltb_spec MAX_OPERATION_RECORD_BYTES
              (N.of_nat (String.length (record_header +:+ json)))) as [|Hle]; [done|].
  apply ok_inj in He as <-. rewrite strip_prefix_append.
  destruct (N.ltb_spec MAX_OPERATION_RECORD_BYTES
              (N.of_nat (String.length (record_header +:+ json)))); [lia|].
  rewrite map_err_ok in Hj. rewrite (from_slice_to_vec _ _ Hj). simpl. by rewrite Hv.
Qed.

(** The signals a check passes are numbered on from those before, and no request id
    occurs twice. *)
Lemma check_signals_ok before sigs :
  check_signals before sigs = Ok tt ->
  signal_sequence <$> sigs = (fun n => len before + 1 + N.of_nat n)%N <$> seq 0 (List.length sigs) /\
  (NoDup (signal_request_id <$> before) -> NoDup (signal_request_id <$> (before ++ sigs)%list)).
Proof.
  revert before. induction sigs as [|s sigs IH]; intros before; cbn [check_signals].
  { intros _. split; [done|]. by rewrite app_nil_r. }
  destruct (_ || _) eqn:Hguard; [done|].
  rewrite orb_false_iff, negb_false_iff, N.eqb_eq, any_false in Hguard. destruct Hguard as [Hseq Hnew].
  rewrite let_ok. intros ([] & _ & Hs). apply let_ok in Hs as ([] & _ & Hs).
  destruct (IH _ Hs) as [Hnum Hdup]. split.
  - cbn [fmap list_fmap List.length seq]. rewrite Hseq, Hnum, <- fmap_S_seq, <- list_fmap_compose.
    f_equal; [lia|]. apply list_fmap_ext. intros i x _. unfold len. rewrite length_app. simpl. lia.
  - intros Hb. rewrite <- app_assoc in Hdup. apply Hdup. by apply NoDup_fmap_push.
Qed.

(** What a valid record's counters are. *)
Lemma validate_record_ok r :
  validate_record r = Ok tt ->
  (revision r <= MAX_SAFE_INTEGER)%N /\ (owner_epoch r <= MAX_SAFE_INTEGER)%N /\
  snap_revision (snapshot r) = revision r /\ snap_id (snapshot r) = Some (invocation_id r) /\
  operation_invocation_digest (rec_api_id r) (rec_operation r) (creator_principal_id r)
    (creator_binding r) (input r) = Ok (invocation_digest r).
Proof.
  unfold validate_record. destruct (existsb _ _) eqn:Hc; [done|].
  assert (forall x, In x [revision r; owner_epoch r; next_signal_sequence r; update_sequence r;
            snap_revision (snapshot r)] -> (x <= MAX_SAFE_INTEGER)%N) as Hall.
  { intros x Hx. apply N.ltb_ge. rewrite <- not_true_iff_false in Hc |- *.
    intros Hlt. apply Hc. apply existsb_exists. eauto. }
  destruct (_ && _); [done|]. rewrite let_ok. intros (_ & _ & Hv). cbv zeta in Hv.
  destruct (negb (is_ulid _)); [done|]. apply let_ok in Hv as (digest & Hd & Hv).
  rewrite map_err_ok in Hd.
  destruct (String.eqb_spec (invocation_digest r) digest) as [->|]; [|done].
  destruct (_ || _) eqn:Hs; [done|].
  rewrite !orb_false_iff, !negb_false_iff, !bool_decide_eq_true, N.eqb_eq in Hs.
  destruct Hs as ((? & _) & ?). split_and!; try done; apply Hall; simpl; auto.
Qed.

Lemma validate_record_signals r :
  validate_record r = Ok tt ->
  (len (signals r) <= MAX_OPERATION_SIGNALS)%N /\ next_signal_sequence r = (len (signals r) + 1)%N /\
  check_signals [] (signals r) = Ok tt.
Proof.
  unfold validate_record. destruct (existsb _ _); [done|]. destruct (_ && _); [done|].
  rewrite let_ok. intros (_ & _ & Hv). cbv zeta in Hv. destruct (negb (is_ulid _)); [done|].
  apply let_ok in Hv as (digest & _ & Hv). destruct (negb _); [done|]. destruct (_ || _); [done|].
  apply let_ok in Hv as (_ & _ & Hv). apply let_ok in Hv as (_ & _ & Hv).
  destruct (_ || _) eqn:Hc; [done|]. rewrite orb_false_iff, N.ltb_ge, negb_false_iff, N.eqb_eq in Hc.
  destruct Hc as [? ?]. by apply let_ok in Hv as ([] & ? & _).
Qed.

(** Stored records.  A record that was encoded decodes to itself; and whatever decodes,
    whoever wrote it, is a consistent invocation: its digest is that of its identity and
    input, its snapshot carries its identity and revision, its counters are exact in JSON,
    and its at most 100 signals are numbered from one without gaps and distinct in their
    request ids, with the next number free. *)
Theorem stored_record_consistent `{!JsonCodecLaws DurableOperationRecord} r bytes :
  (encode_operation_record r = Ok bytes -> decode_operation_record bytes = Ok r) /\
  (decode_operation_record bytes = Ok r ->
   operation_invocation_digest (rec_api_id r) (rec_operation r) (creator_principal_id r)
     (creator_binding r) (input r) = Ok (invocation_digest r) /\
   snap_id (snapshot r) = Some (invocation_id r) /\ snap_revision (snapshot r) = revision r /\
   (revision r <= MAX_SAFE_INTEGER)%N /\ (owner_epoch r <= MAX_SAFE_INTEGER)%N /\
   (len (signals r) <= MAX_OPERATION_SIGNALS)%N /\
   signal_sequence <$> signals r = (fun n => 1 + N.of_nat n)%N <$> seq 0 (List.length (signals r)) /\
   next_signal_sequence r = (1 + len (signals r))%N /\
   NoDup (signal_request_id <$> signals r)).
Proof.
  split; [apply encode_decode_record|]. intros Hv%decode_validated.
  destruct (validate_record_ok r Hv) as (? & ? & ? & ? & ?).
  destruct (validate_record_signals r Hv) as (? & ? & [Hseq Hdup]%check_signals_ok).
  split_and!; try done; [lia|]. apply Hdup. constructor.
Qed.
End validation.

Global Instance OperationTransferProgress_eq_dec : EqDecision OperationTransferProgress.
Proof. solve_decision. Defined.
Global Instance OperationTraceCarrier_eq_dec : EqDecision OperationTraceCarrier.
Proof. solve_decision. Defined.
Global Instance OperationError_eq_dec `{JsonValue} : EqDecision OperationError.
Proof. solve_decision. Defined.
Global Instance OperationSnapshot_eq_dec `{JsonValue} : EqDecision OperationSnapshot.
Proof. solve_decision. Defined.
Global Instance DurableOperationSignal_eq_dec `{JsonValue} : EqDecision DurableOperationSignal.
Proof. solve_decision. Defined.
Global Instance DurableOperationRecord_eq_dec `{JsonValue} : EqDecision DurableOperationRecord.
Proof. solve_decision. Defined.
