(* ===== verification/OperationRepository.v ===== *)
(** * The operation repository

    [KvOperationRepository] of [crates/trellis/src/service/operation_repository.rs]: the
    durable records of operation invocations in a key-value bucket, written by
    compare-and-set under an owner fence.  Every call takes and returns the world of the
    store; [guard] is what acquiring the store for the call gave. *)

From Stdlib Require Import Ascii String.
From S2P Require Import Prelude RustStr Extern Kv Protocol.
From S2P Require Import Transfer OperationRecord.

Local Open Scope string_scope.

(** The variants of [ServerError] the repository returns. *)
Inductive ServerError :=
| Nats (message : string)
| OperationCapacityExceeded (field : string) (actual_bytes max_bytes : N)
| OperationIdempotencyConflict (kind request_id : string)
| OperationAlreadyTerminal (operation_id state : string).

(** The text of a [ProtocolError]. *)
Class ProtocolErrorText := protocol_error_text : ProtocolError -> string.

Section repository.
Context `{KvStore, ProtocolErrorText}.
Context `{JsonValue} `{!RecordJson} `{!CanonicalJson}.
Context `{Base64Url, Sha256, Rfc3339, UlidParser, Ed25519, JsonCodec TransferGrant}.

(** [From<OperationRecordError> for ServerError] *)
Definition from_record_error (error : OperationRecordError) : ServerError :=
  match error with
  | RecordCapacity field actual_bytes max_bytes =>
      OperationCapacityExceeded field actual_bytes max_bytes
  | RecordInvalid message => Nats ("invalid operation record: " +:+ message)
  | RecordJsonError message => Nats message
  | RecordProtocol error => Nats (protocol_error_text error)
  end.

Record RevisionedOperationRecord := mkRevisioned {
  record : DurableOperationRecord;
  kv_revision : N;
}.

(** The error of a call, at the world it was returned in. *)
Definition fail {A} (error : ServerError) (w : World) : result A ServerError * World :=
  (Err error, w).

Definition load (key : string) (w : World) :
    result (option RevisionedOperationRecord) ServerError * World :=
  match kv_entry key w with
  | (Err error, w) => fail (Nats (kv_message error)) w
  | (Ok None, w) => (Ok None, w)
  | (Ok (Some entry), w) =>
      match decode_operation_record (entry_value entry) with
      | Err error => fail (from_record_error error) w
      | Ok record => (Ok (Some (mkRevisioned record (entry_revision entry))), w)
      end
  end.

(** [get] *)
Definition get (guard : result unit ServerError) (key : string) (w : World) :
    result (option RevisionedOperationRecord) ServerError * World :=
  match guard with
  | Err error => fail error w
  | Ok _ => load key w
  end.

(** [load(..).await?.ok_or_else(..)?] *)
Definition load_existing (key message : string) (w : World) :
    result RevisionedOperationRecord ServerError * World :=
  match load key w with
  | (Ok (Some current), w) => (Ok current, w)
  | (Ok None, w) => fail (Nats message) w
  | (Err error, w) => fail error w
  end.

Definition not_found : string := "operation invocation was not found".

(** The fields of a record no write may change. *)
Definition same_identity (a b : DurableOperationRecord) : bool :=
  String.eqb (rec_api_id a) (rec_api_id b)
  && String.eqb (rec_operation a) (rec_operation b)
  && String.eqb (deployment_id a) (deployment_id b)
  && String.eqb (creator_principal_id a) (creator_principal_id b)
  && bool_decide (creator_binding a = creator_binding b)
  && bool_decide (caller a = caller b)
  && bool_decide (input a = input b).

(** [record.snapshot.revision = record.revision] *)
Definition with_snapshot_revision (r : DurableOperationRecord) : DurableOperationRecord :=
  r <| snapshot := snapshot r <| snap_revision := revision r |> |>.

(** Validate, encode and write [r] at [key] over [expected_revision], with the error of the
    store. *)
Definition validated_update (key : string) (r : DurableOperationRecord) (expected_revision : N)
    (w : World) :
    result (result RevisionedOperationRecord KvError) ServerError * World :=
  match validate_record r with
  | Err error => fail (from_record_error error) w
  | Ok _ =>
      match encode_operation_record r with
      | Err error => fail (from_record_error error) w
      | Ok bytes =>
          match kv_update key bytes expected_revision w with
          | (Ok revision, w) => (Ok (Ok (mkRevisioned r revision)), w)
          | (Err error, w) => (Ok (Err error), w)
          end
      end
  end.

(** [compare_record_exchange] *)
Definition compare_record_exchange (guard : result unit ServerError) (expected_revision : N)
    (r : DurableOperationRecord) (w : World) :
    result RevisionedOperationRecord ServerError * World :=
  match guard with
  | Err error => fail error w
  | Ok _ =>
      match load_existing (invocation_id r) not_found w with
      | (Err error, w) => fail error w
      | (Ok current, w) =>
          if negb (kv_revision current =? expected_revision)%N
             || negb (bool_decide (owner_executor_id r = owner_executor_id (record current)))
             || negb (owner_epoch r =? owner_epoch (record current))%N
             || negb (bool_decide (lease_expires_at_ms r = lease_expires_at_ms (record current)))
             || negb (same_identity r (record current))
          then fail (Nats "operation record CAS is stale") w
          else if negb (revision r =? saturating_add_u64 (revision (record current)) 1)%N then
            fail (Nats "operation durable revision must increment exactly once") w
          else
            match validated_update (invocation_id r) (with_snapshot_revision r) expected_revision w with
            | (Ok (Ok updated), w) => (Ok updated, w)
            | (Ok (Err error), w) =>
                fail (Nats ("operation CAS failed: " +:+ kv_message error)) w
            | (Err error, w) => fail error w
            end
      end
  end.

(** [unix_timestamp_nanos() as i64 / 1_000_000] *)
Definition clock_ms (unix_nanos : Z) : Z :=
  Z.quot ((unix_nanos + 9223372036854775808) mod 18446744073709551616 - 9223372036854775808)
    1000000.

(** [lease.is_none_or(|expiry| expiry <= now)] *)
Definition lease_expired (lease : option Z) (now : Z) : bool :=
  match lease with Some expiry => (expiry <=? now)%Z | None => true end.

Definition state_name (s : OperationState) : string :=
  match s with
  | OpPending => "pending"
  | OpRunning => "running"
  | OpCompleted => "completed"
  | OpFailed => "failed"
  | OpCancelled => "cancelled"
  end.

(** [compare_exchange]; [unix_nanos] is the wall clock when it is read. *)
Definition compare_exchange (guard : result unit ServerError) (unix_nanos : Z)
    (expected_revision : N) (expected_owner_executor_id : string) (expected_owner_epoch : N)
    (r : DurableOperationRecord) (w : World) :
    result RevisionedOperationRecord ServerError * World :=
  if negb (bool_decide (owner_executor_id r = Some expected_owner_executor_id))
     || negb (owner_epoch r =? expected_owner_epoch)%N
  then fail (Nats "operation owner fence rejected update") w
  else match guard with
  | Err error => fail error w
  | Ok _ =>
      match load_existing (invocation_id r) not_found w with
      | (Err error, w) => fail error w
      | (Ok current, w) =>
          if negb (kv_revision current =? expected_revision)%N
             || negb (bool_decide
                        (owner_executor_id (record current) = Some expected_owner_executor_id))
             || negb (owner_epoch (record current) =? expected_owner_epoch)%N
             || lease_expired (lease_expires_at_ms (record current)) (clock_ms unix_nanos)
          then fail (Nats "operation owner fence is stale") w
          else if negb (same_identity r (record current)) then
            fail (Nats "operation immutable identity cannot change") w
          else if negb (revision r =? saturating_add_u64 (revision (record current)) 1)%N then
            fail (Nats "operation durable revision must increment exactly once") w
          else
            let r := with_snapshot_revision r in
            match validate_record r with
            | Err error => fail (from_record_error error) w
            | Ok _ =>
                if cancellation_requested (record current)
                   && negb (bool_decide (snap_state (snapshot r) = OpCancelled))
                then fail (OperationAlreadyTerminal (invocation_id (record current)) "cancelled") w
                else if is_terminal (snap_state (snapshot (record current))) then
                  fail (OperationAlreadyTerminal (invocation_id (record current))
                          (state_name (snap_state (snapshot (record current))))) w
                else
                  match validated_update (invocation_id r) r expected_revision w with
                  | (Ok (Ok updated), w) => (Ok updated, w)
                  | (Ok (Err error), w) =>
                      fail (Nats ("operation CAS failed: " +:+ kv_message error)) w
                  | (Err error, w) => fail error w
                  end
            end
      end
  end.

(** The record the [create] loop writes to merge a requested cancellation.  The increment
    cannot wrap: a loaded record is valid, and its counters far below the limit. *)
Definition merge_cancellation (existing r : DurableOperationRecord) : DurableOperationRecord :=
  existing <| revision := wrapping_add_u64 (revision existing) 1 |>
           <| cancellation_requested := true |>
           <| cancellation_requested_at := cancellation_requested_at r |>
           <| snapshot := snapshot existing <| snap_updated_at := snap_updated_at (snapshot r) |> |>.

(** The loop of [create], with the turns left. *)
Fixpoint create_existing (turns : nat) (r : DurableOperationRecord) (w : World) :
    result RevisionedOperationRecord ServerError * World :=
  match turns with
  | O => fail (Nats "cancelled admission exceeded CAS retry limit") w
  | S turns =>
      match load_existing (invocation_id r) "operation acceptance lost its KV create race" w with
      | (Err error, w) => fail error w
      | (Ok existing, w) =>
          if negb (same_invocation (record existing) r) then
            fail (OperationIdempotencyConflict "invocation" (invocation_id r)) w
          else if negb (cancellation_requested r)
                  || cancellation_requested (record existing)
                  || is_terminal (snap_state (snapshot (record existing)))
          then (Ok existing, w)
          else
            match compare_record_exchange (Ok tt) (kv_revision existing)
                    (merge_cancellation (record existing) r) w with
            | (Ok updated, w) => (Ok updated, w)
            | (Err _, w) => create_existing turns r w
            end
      end
  end.

(** [create] *)
Definition create (guard : result unit ServerError) (r : DurableOperationRecord) (w : World) :
    result RevisionedOperationRecord ServerError * World :=
  match validate_record r with
  | Err error => fail (from_record_error error) w
  | Ok _ =>
      match guard with
      | Err error => fail error w
      | Ok _ =>
          match encode_operation_record r with
          | Err error => fail (from_record_error error) w
          | Ok bytes =>
              match kv_create (invocation_id r) bytes w with
              | (Ok revision, w) => (Ok (mkRevisioned r revision), w)
              | (Err _, w) => create_existing 8 r w
              end
          end
      end
  end.

(** The record a claim writes, or the error of a counter that would overflow. *)
Definition claimed_record (r : DurableOperationRecord) (owner_executor_id owner_connection_id : string)
    (lease : Z) : result DurableOperationRecord ServerError :=
  let? epoch := ok_or (checked_add_u64 (owner_epoch r) 1)
                  (Nats "operation owner epoch overflow") in
  let? revision := ok_or (checked_add_u64 (revision r) 1) (Nats "operation revision overflow") in
  Ok (with_snapshot_revision
        (r <| OperationRecord.owner_executor_id := Some owner_executor_id |>
           <| OperationRecord.owner_connection_id := Some owner_connection_id |>
           <| owner_epoch := epoch |>
           <| lease_expires_at_ms := Some lease |>
           <| OperationRecord.revision := revision |>)).

(** The loop of [claim_for_connection]. *)
Fixpoint claim_loop (turns : nat) (key owner_executor_id owner_connection_id : string)
    (now_ms lease : Z) (w : World) : result RevisionedOperationRecord ServerError * World :=
  match turns with
  | O => fail (Nats "operation claim exceeded CAS retry limit") w
  | S turns =>
      match load_existing key not_found w with
      | (Err error, w) => fail error w
      | (Ok current, w) =>
          if is_terminal (snap_state (snapshot (record current))) then
            fail (Nats "terminal operation cannot be claimed") w
          else if negb (lease_expired (lease_expires_at_ms (record current)) now_ms) then
            fail (Nats "operation already has an active lease") w
          else
            match claimed_record (record current) owner_executor_id owner_connection_id lease with
            | Err error => fail error w
            | Ok r =>
                match validated_update key r (kv_revision current) w with
                | (Ok (Ok updated), w) => (Ok updated, w)
                | (Ok (Err _), w) =>
                    claim_loop turns key owner_executor_id owner_connection_id now_ms lease w
                | (Err error, w) => fail error w
                end
            end
      end
  end.

(** [claim_for_connection] *)
Definition claim_for_connection (guard : result unit ServerError)
    (key owner_executor_id owner_connection_id : string) (now_ms lease_expires_at_ms : Z)
    (w : World) : result RevisionedOperationRecord ServerError * World :=
  if (lease_expires_at_ms <=? now_ms)%Z then
    fail (Nats "operation lease must expire in the future") w
  else
    match guard with
    | Err error => fail error w
    | Ok _ =>
        claim_loop 8 key owner_executor_id owner_connection_id now_ms lease_expires_at_ms w
    end.

(** [claim] *)
Definition claim (guard : result unit ServerError) (key owner_executor_id : string)
    (now_ms lease_expires_at_ms : Z) (w : World) :=
  claim_for_connection guard key owner_executor_id owner_executor_id now_ms lease_expires_at_ms w.

(** The record a renewal writes. *)
Definition renewed_record (r : DurableOperationRecord) (lease : Z) : DurableOperationRecord :=
  with_snapshot_revision
    (r <| lease_expires_at_ms := Some lease |>
       <| revision := wrapping_add_u64 (revision r) 1 |>).

(** The loop of [renew]. *)
Fixpoint renew_loop (turns : nat) (key owner : string) (epoch : N) (now_ms lease : Z)
    (w : World) : result RevisionedOperationRecord ServerError * World :=
  match turns with
  | O => fail (Nats "operation renewal exceeded CAS retry limit") w
  | S turns =>
      match load_existing key not_found w with
      | (Err error, w) => fail error w
      | (Ok current, w) =>
          if negb (bool_decide (owner_executor_id (record current) = Some owner))
             || negb (owner_epoch (record current) =? epoch)%N
             || lease_expired (lease_expires_at_ms (record current)) now_ms
             || is_terminal (snap_state (snapshot (record current)))
          then fail (Nats "operation owner fence is stale") w
          else
            match validated_update key (renewed_record (record current) lease)
                    (kv_revision current) w with
            | (Ok (Ok updated), w) => (Ok updated, w)
            | (Ok (Err _), w) => renew_loop turns key owner epoch now_ms lease w
            | (Err error, w) => fail error w
            end
      end
  end.

(** [renew] *)
Definition renew (guard : result unit ServerError) (key owner_executor_id : string)
    (owner_epoch : N) (now_ms lease_expires_at_ms : Z) (w : World) :
    result RevisionedOperationRecord ServerError * World :=
  if (lease_expires_at_ms <=? now_ms)%Z then
    fail (Nats "operation lease must expire in the future") w
  else
    match guard with
    | Err error => fail error w
    | Ok _ => renew_loop 8 key owner_executor_id owner_epoch now_ms lease_expires_at_ms w
    end.

(** The loop of [list_nonterminal] over the keys the store lists. *)
Fixpoint list_nonterminal_keys (keys : list (result string KvError)) (w : World) :
    result (list RevisionedOperationRecord) ServerError * World :=
  match keys with
  | [] => (Ok [], w)
  | Err error :: _ => fail (Nats (kv_message error)) w
  | Ok key :: keys =>
      match load key w with
      | (Err error, w) => fail error w
      | (Ok found, w) =>
          match list_nonterminal_keys keys w with
          | (Err error, w) => fail error w
          | (Ok records, w) =>
              (Ok match found with
                  | Some r =>
                      if is_terminal (snap_state (snapshot (record r))) then records
                      else r :: records
                  | None => records
                  end, w)
          end
      end
  end.

(** [list_nonterminal] *)
Definition list_nonterminal (guard : result unit ServerError)
    (keys : result (list (result string KvError)) KvError) (w : World) :
    result (list RevisionedOperationRecord) ServerError * World :=
  match guard, keys with
  | Err error, _ => fail error w
  | _, Err error => fail (Nats (kv_message error)) w
  | Ok _, Ok keys => list_nonterminal_keys keys w
  end.

(** What the stream of [watch] makes of one entry of the store's watch. *)
Definition watch_item (snapshot_revision : N) (entry : result Entry KvError) :
    option (result RevisionedOperationRecord ServerError) :=
  match entry with
  | Ok entry =>
      if (snapshot_revision <? entry_revision entry)%N then
        Some match decode_operation_record (entry_value entry) with
             | Ok r => Ok (mkRevisioned r (entry_revision entry))
             | Err error => Err (from_record_error error)
             end
      else None
  | Err error => Some (Err (Nats (kv_message error)))
  end.

(** [watch]: the snapshot, then the entries beyond it; [watcher] is the watch of the store,
    opened before the snapshot is read. *)
Definition watch (guard : result unit ServerError) (key : string)
    (watcher : result (list (result Entry KvError)) KvError) (w : World) :
    result (list (result RevisionedOperationRecord ServerError)) ServerError * World :=
  match guard, watcher with
  | Err error, _ => fail error w
  | _, Err error => fail (Nats (kv_message error)) w
  | Ok _, Ok entries =>
      match load_existing key not_found w with
      | (Err error, w) => fail error w
      | (Ok current, w) => (Ok (Ok current :: omap (watch_item (kv_revision current)) entries), w)
      end
  end.
End repository.
