(* ===== verification/OperationHistory.v ===== *)
(** * What the operation repository guarantees

    Each successful write of the repository replaces one record by another in a single
    moment, by one of the steps below; the steps keep an invocation's identity, advance
    its revision and its owner epoch, and so fence off stale owners. *)

From Stdlib Require Import Ascii String.
From S2P Require Import Prelude RustStr Extern Base64 Kv Protocol.
From S2P Require Import Transfer OperationRecord OperationRepository.

Local Open Scope string_scope.

Section history.
Context `{KvLaws, ProtocolErrorText}.
Context `{JsonValue} `{!RecordJson} `{!CanonicalJson}.
Context `{Base64Url, Sha256, Rfc3339, UlidParser, Ed25519, JsonCodec TransferGrant}.
Context `{!JsonCodecLaws DurableOperationRecord}.

(** ** Steps of a record *)

(** The fields that make an invocation what it is. *)
Definition identity_kept (a b : DurableOperationRecord) : Prop :=
  rec_api_id b = rec_api_id a /\ rec_operation b = rec_operation a /\
  deployment_id b = deployment_id a /\ creator_principal_id b = creator_principal_id a /\
  creator_binding b = creator_binding a /\ caller b = caller a /\ input b = input a /\
  invocation_digest b = invocation_digest a.

Definition state_of (r : DurableOperationRecord) : OperationState := snap_state (snapshot r).

(** Who wrote: an executor claiming or renewing the lease, an update of caller-owned
    fields, or the owning executor. *)
Inductive op_event :=
| Claimed (executor connection : string) (now lease : Z)
| Renewed (executor : string) (epoch : N) (now lease : Z)
| Updated
| Executed (executor : string) (epoch : N) (now : Z).

Definition op_step (ev : op_event) (r r' : DurableOperationRecord) : Prop :=
  identity_kept r r' /\ revision r' = (revision r + 1)%N /\ validate_record r' = Ok tt /\
  match ev with
  | Claimed executor connection now lease =>
      is_terminal (state_of r) = false /\ lease_expired (lease_expires_at_ms r) now = true /\
      (now < lease)%Z /\
      owner_executor_id r' = Some executor /\ owner_connection_id r' = Some connection /\
      owner_epoch r' = (owner_epoch r + 1)%N /\ lease_expires_at_ms r' = Some lease /\
      state_of r' = state_of r /\ signals r' = signals r /\
      cancellation_requested r' = cancellation_requested r
  | Renewed executor epoch now lease =>
      is_terminal (state_of r) = false /\ owner_executor_id r = Some executor /\
      owner_epoch r = epoch /\ lease_expired (lease_expires_at_ms r) now = false /\
      (now < lease)%Z /\
      owner_executor_id r' = Some executor /\ owner_epoch r' = epoch /\
      lease_expires_at_ms r' = Some lease /\
      state_of r' = state_of r /\ signals r' = signals r /\
      cancellation_requested r' = cancellation_requested r
  | Updated =>
      owner_executor_id r' = owner_executor_id r /\ owner_epoch r' = owner_epoch r /\
      lease_expires_at_ms r' = lease_expires_at_ms r
  | Executed executor epoch now =>
      is_terminal (state_of r) = false /\
      (cancellation_requested r = true -> state_of r' = OpCancelled) /\
      owner_executor_id r = Some executor /\ owner_epoch r = epoch /\
      lease_expired (lease_expires_at_ms r) now = false /\
      owner_executor_id r' = Some executor /\ owner_epoch r' = epoch
  end.

Definition any_step (r r' : DurableOperationRecord) : Prop := exists ev, op_step ev r r'.

(** ** The store *)

(** The record a key holds. *)
Definition stored (w : World) (key : string) : option RevisionedOperationRecord :=
  e ← kv_at w key;
  match decode_operation_record (entry_value e) with
  | Ok r => Some (mkRevisioned r (entry_revision e))
  | Err _ => None
  end.

(** A write that took effect in [w1]: it replaced the record [stored w1], the last the key
    held before it, by the one the call returned, related by [R], and changed no other
    key. *)
Definition committed (key : string) (R : DurableOperationRecord -> DurableOperationRecord -> Prop)
    (w w' : World) (written : RevisionedOperationRecord) : Prop :=
  exists w1 before, kv_le w w1 /\ kv_le w1 w' /\
    stored w1 key = Some before /\ stored w' key = Some written /\
    (kv_revision before < kv_revision written)%N /\
    R (record before) (record written) /\
    (forall w2 x, kv_le w2 w' -> stored w2 key = Some x ->
       (kv_revision x < kv_revision written)%N -> (kv_revision x <= kv_revision before)%N) /\
    forall key', key' <> key -> kv_at w' key' = kv_at w1 key'.

Lemma stored_entry w key x :
  stored w key = Some x -> exists e, kv_at w key = Some e /\ entry_revision e = kv_revision x.
Proof.
  unfold stored. intros (e & He & Hx)%bind_Some. exists e. split; [done|].
  by destruct (decode_operation_record _); simplify_eq.
Qed.

Lemma load_stored key w found w' :
  load key w = (Ok found, w') ->
  kv_le w w' /\
  forall current, found = Some current ->
    exists w0, kv_le w0 w' /\ stored w0 key = Some current.
Proof.
  unfold load. destruct (kv_entry key w) as [r w1] eqn:He.
  destruct (kv_entry_spec _ _ _ _ He) as [Hle Hread].
  destruct r as [[entry|]|]; [|intros [= <- <-]; done|done].
  destruct (decode_operation_record (entry_value entry)) as [r|] eqn:Hd; [|done].
  intros [= <- <-]. split; [done|]. intros current [= <-].
  destruct (Hread _ eq_refl) as (w0 & Hle0 & Hat). exists w0. split; [done|].
  unfold stored. rewrite Hat. simpl. by rewrite Hd.
Qed.

Lemma load_existing_stored key message w current w' :
  load_existing key message w = (Ok current, w') ->
  kv_le w w' /\ exists w0, kv_le w0 w' /\ stored w0 key = Some current.
Proof.
  unfold load_existing. destruct (load key w) as [[[found|]|] w1] eqn:Hl; try done.
  intros [= -> ->]. apply load_stored in Hl as [Hle Hs]. eauto.
Qed.

Lemma load_existing_le key message w r w' : load_existing key message w = (r, w') -> kv_le w w'.
Proof.
  unfold load_existing, load, fail. intros Hl. destruct (kv_entry key w) as [o w1] eqn:He.
  destruct (kv_entry_spec _ _ _ _ He) as [Hle _]. repeat case_match; by simplify_eq.
Qed.

(** ** Writes *)

(** A successful write over the revision of a record read before replaced that record. *)
Lemma validated_update_commits key r current w0 w w' written
    (R : DurableOperationRecord -> DurableOperationRecord -> Prop) :
  kv_le w0 w -> stored w0 key = Some current ->
  validated_update key r (kv_revision current) w = (Ok (Ok written), w') ->
  (validate_record r = Ok tt -> R (record current) r) ->
  record written = r /\ committed key R w w' written.
Proof.
  intros Hle0 Hs Hu HR. unfold validated_update in Hu.
  destruct (validate_record r) as [[]|] eqn:Hv; [|done].
  destruct (encode_operation_record r) as [bytes|] eqn:He; [|done].
  destruct (kv_update key bytes (kv_revision current) w) as [[rev|] w2] eqn:Hk; [|done].
  injection Hu as <- <-. split; [done|].
  pose proof (fun w1 e => kv_update_latest _ _ _ _ _ _ w1 e Hk) as Hlatest.
  apply kv_update_spec in Hk as (w1 & Hle1 & Hle2 & Hready & Hat & Hgrow & Hother).
  unfold stored in Hs. apply bind_Some in Hs as (e & He0 & Hs).
  destruct (decode_operation_record (entry_value e)) as [r0|] eqn:Hd; [|done].
  injection Hs as <-. cbn [kv_revision record] in *.
  assert (kv_at w1 key = Some e) as He1 by (by eapply kv_unchanged; [by transitivity w| |]).
  exists w1, (mkRevisioned r0 (entry_revision e)). unfold stored. rewrite He1, Hat. cbn.
  rewrite Hd, (encode_decode_record _ _ He). split_and!; try done.
  - by apply (Hgrow e).
  - by apply HR.
  - intros w3 x Hle3 Hx Hlt. apply stored_entry in Hx as (e3 & Hat3 & Hrev).
    rewrite <- Hrev in *. apply (Hlatest w3 e3); [by eapply kv_revision_pos|done..].
Qed.

Lemma same_identity_kept r c :
  same_identity r c = true -> validate_record r = Ok tt -> validate_record c = Ok tt ->
  identity_kept c r.
Proof.
  unfold same_identity. rewrite !andb_true_iff, !String.eqb_eq, !bool_decide_eq_true.
  intros ((((((Ha & Ho) & Hdep) & Hp) & Hb) & Hcl) & Hi) Hr Hc.
  unfold identity_kept. split_and!; try done.
  apply validate_record_ok in Hr as (_ & _ & _ & _ & Hr).
  apply validate_record_ok in Hc as (_ & _ & _ & _ & Hc).
  rewrite Ha, Ho, Hp, Hb, Hi in Hr. congruence.
Qed.

Lemma stored_valid w key current :
  stored w key = Some current -> validate_record (record current) = Ok tt.
Proof.
  unfold stored. intros (e & _ & Hs)%bind_Some.
  destruct (decode_operation_record (entry_value e)) as [r|] eqn:Hd; [|done].
  injection Hs as <-. by eapply decode_validated.
Qed.

(** The next revision of a valid record neither saturates nor wraps. *)
Lemma next_revision r :
  validate_record r = Ok tt ->
  saturating_add_u64 (revision r) 1 = (revision r + 1)%N /\
  wrapping_add_u64 (revision r) 1 = (revision r + 1)%N /\
  checked_add_u64 (revision r) 1 = Some (revision r + 1)%N /\
  checked_add_u64 (owner_epoch r) 1 = Some (owner_epoch r + 1)%N.
Proof.
  intros (Hr & He & _)%validate_record_ok. unfold MAX_SAFE_INTEGER in *.
  split_and!.
  - unfold saturating_add_u64, u64_max. lia.
  - apply wrapping_add_u64_exact. unfold u64_max. lia.
  - apply checked_add_u64_Some. unfold u64_max. lia.
  - apply checked_add_u64_Some. unfold u64_max. lia.
Qed.

Lemma committed_earlier key R w0 w w' written :
  kv_le w0 w -> committed key R w w' written -> committed key R w0 w' written.
Proof.
  intros Hle (w1 & before & Hle1 & Hrest). exists w1, before. split; [by transitivity w|done].
Qed.

Lemma compare_record_exchange_commits guard expected r w written w' :
  compare_record_exchange guard expected r w = (Ok written, w') ->
  record written = with_snapshot_revision r /\
  committed (invocation_id r) (op_step Updated) w w' written.
Proof.
  unfold compare_record_exchange, fail. destruct guard as [[]|]; [|done].
  destruct (load_existing _ _ w) as [[current|] w2] eqn:Hl; [|done].
  apply load_existing_stored in Hl as (Hle & w0 & Hle0 & Hs).
  destruct (_ || _) eqn:Hguard; [done|].
  rewrite !orb_false_iff, !negb_false_iff, !bool_decide_eq_true, !N.eqb_eq in Hguard.
  destruct Hguard as ((((<- & Howner) & Hepoch) & Hlease) & Hid).
  destruct (N.eqb_spec (revision r) (saturating_add_u64 (revision (record current)) 1))
    as [Hrev|]; [|done].
  destruct (validated_update _ _ _ w2) as [[[updated|]|] w3] eqn:Hu; try done.
  intros [= <- <-].
  eapply (validated_update_commits _ _ _ w0 _ _ _ (op_step Updated)) in Hu as [-> Hc]; [|done..|].
  - split; [done|]. by eapply committed_earlier.
  - intros Hv. pose proof (stored_valid _ _ _ Hs) as Hvc.
    unfold op_step. split_and!; try done.
    + by apply same_identity_kept.
    + by destruct (next_revision _ Hvc) as (<- & _).
Qed.

Lemma compare_exchange_commits guard nanos expected executor epoch r w written w' :
  compare_exchange guard nanos expected executor epoch r w = (Ok written, w') ->
  record written = with_snapshot_revision r /\
  committed (invocation_id r) (op_step (Executed executor epoch (clock_ms nanos))) w w' written.
Proof.
  unfold compare_exchange, fail. destruct (_ || _) eqn:Hfence; [done|].
  rewrite !orb_false_iff, !negb_false_iff, !bool_decide_eq_true, !N.eqb_eq in Hfence.
  destruct Hfence as [Hex Hep]. destruct guard as [[]|]; [|done].
  destruct (load_existing _ _ w) as [[current|] w2] eqn:Hl; [|done].
  apply load_existing_stored in Hl as (Hle & w0 & Hle0 & Hs).
  destruct (_ || _) eqn:Hguard; [done|].
  rewrite !orb_false_iff, !negb_false_iff, !bool_decide_eq_true, !N.eqb_eq in Hguard.
  destruct Hguard as (((<- & Howner) & Hepoch) & Hlease).
  destruct (same_identity r (record current)) eqn:Hid; [|done]. cbn [negb].
  destruct (N.eqb_spec (revision r) (saturating_add_u64 (revision (record current)) 1))
    as [Hrev|]; [|done]. cbn [negb].
  destruct (validate_record (with_snapshot_revision r)) as [[]|] eqn:Hv; [|done].
  destruct (cancellation_requested (record current) && _) eqn:Hcancel; [done|].
  destruct (is_terminal (snap_state (snapshot (record current)))) eqn:Hterm; [done|].
  destruct (validated_update _ _ _ w2) as [[[updated|]|] w3] eqn:Hu; try done.
  intros [= <- <-].
  eapply (validated_update_commits _ _ _ w0 _ _ _
            (op_step (Executed executor epoch (clock_ms nanos)))) in Hu as [-> Hc]; [|done..|].
  - split; [done|]. by eapply committed_earlier.
  - intros _. pose proof (stored_valid _ _ _ Hs) as Hvc.
    unfold op_step. split_and!; try done.
    + by apply same_identity_kept.
    + by destruct (next_revision _ Hvc) as (<- & _).
    + intros Hreq. rewrite Hreq in Hcancel. simpl in Hcancel.
      by rewrite negb_false_iff, bool_decide_eq_true in Hcancel.
Qed.

Lemma validated_update_le key r expected w o w' :
  validated_update key r expected w = (o, w') -> kv_le w w'.
Proof.
  unfold validated_update, fail. intros Hu.
  destruct (validate_record r) as [[]|]; [|by injection Hu as <- <-].
  destruct (encode_operation_record r) as [bytes|]; [|by injection Hu as <- <-].
  destruct (kv_update key bytes expected w) as [x w2] eqn:Hk.
  apply kv_update_spec in Hk as (w1 & Hle1 & Hle2 & _).
  assert (w' = w2) as -> by (destruct x; by injection Hu as <- <-). by transitivity w1.
Qed.

(** The record of a claim or a renewal keeps the rest of the record. *)
Lemma claimed_record_step c executor connection now lease r :
  validate_record c = Ok tt -> claimed_record c executor connection lease = Ok r ->
  is_terminal (state_of c) = false -> lease_expired (lease_expires_at_ms c) now = true ->
  (now < lease)%Z -> validate_record r = Ok tt ->
  op_step (Claimed executor connection now lease) c r.
Proof.
  intros Hvc Hr Hterm Hlease Hlt Hv. unfold claimed_record in Hr.
  destruct (next_revision c Hvc) as (_ & _ & Hrev & Hep). rewrite Hep, Hrev in Hr. cbn [ok_or] in Hr.
  apply ok_inj in Hr as <-. unfold op_step. split_and!; done.
Qed.

Lemma renewed_record_step c executor epoch now lease :
  validate_record c = Ok tt -> is_terminal (state_of c) = false ->
  owner_executor_id c = Some executor -> owner_epoch c = epoch ->
  lease_expired (lease_expires_at_ms c) now = false -> (now < lease)%Z ->
  validate_record (renewed_record c lease) = Ok tt ->
  op_step (Renewed executor epoch now lease) c (renewed_record c lease).
Proof.
  intros Hvc Hterm Hex Hep Hlease Hlt Hv. unfold op_step. split_and!; try done.
  by destruct (next_revision c Hvc) as (_ & <- & _).
Qed.

Lemma claim_loop_commits turns key executor connection now lease w written w' :
  (now < lease)%Z ->
  claim_loop turns key executor connection now lease w = (Ok written, w') ->
  committed key (op_step (Claimed executor connection now lease)) w w' written.
Proof.
  intros Hlt. revert w. induction turns as [|turns IH]; intros w; [done|]. cbn [claim_loop].
  destruct (load_existing key not_found w) as [[current|] w2] eqn:Hl; [|done].
  apply load_existing_stored in Hl as (Hle & w0 & Hle0 & Hs).
  destruct (is_terminal _) eqn:Hterm; [done|].
  destruct (lease_expired _ now) eqn:Hlease; [|done]. cbn [negb].
  destruct (claimed_record (record current) executor connection lease) as [r|] eqn:Hr; [|done].
  destruct (validated_update key r (kv_revision current) w2) as [[[updated|]|] w3] eqn:Hu; [| |done].
  - intros [= <- <-].
    eapply (validated_update_commits _ _ _ w0 _ _ _
              (op_step (Claimed executor connection now lease))) in Hu as [_ Hc]; [|done..|].
    + by eapply committed_earlier.
    + intros Hv. eapply claimed_record_step; try done. by eapply stored_valid.
  - intros Hc%IH. apply validated_update_le in Hu. eapply committed_earlier; [|exact Hc].
    by transitivity w2.
Qed.

Lemma renew_loop_commits turns key executor epoch now lease w written w' :
  (now < lease)%Z ->
  renew_loop turns key executor epoch now lease w = (Ok written, w') ->
  committed key (op_step (Renewed executor epoch now lease)) w w' written.
Proof.
  intros Hlt. revert w. induction turns as [|turns IH]; intros w; [done|]. cbn [renew_loop].
  destruct (load_existing key not_found w) as [[current|] w2] eqn:Hl; [|done].
  apply load_existing_stored in Hl as (Hle & w0 & Hle0 & Hs).
  destruct (_ || _) eqn:Hguard; [done|].
  rewrite !orb_false_iff, !negb_false_iff, !bool_decide_eq_true, !N.eqb_eq in Hguard.
  destruct Hguard as (((Hex & Hep) & Hlease) & Hterm).
  destruct (validated_update key _ (kv_revision current) w2) as [[[updated|]|] w3] eqn:Hu; [| |done].
  - intros [= <- <-].
    eapply (validated_update_commits _ _ _ w0 _ _ _
              (op_step (Renewed executor epoch now lease))) in Hu as [_ Hc]; [|done..|].
    + by eapply committed_earlier.
    + intros Hv. eapply renewed_record_step; try done. by eapply stored_valid.
  - intros Hc%IH. apply validated_update_le in Hu. eapply committed_earlier; [|exact Hc].
    by transitivity w2.
Qed.

(** C3: every successful write of the repository is one atomic step of the invocation's
    record.  At some moment during the call the key held a record, and the call replaced
    exactly that record by the one it returns, by the step its name promises: a claim of a
    free lease, a renewal of a live one by its owner, an update of caller-owned fields, or
    the owner's own update; no other client's write is lost and no other key is touched. *)
Theorem repository_writes_are_steps guard w written w' :
  (forall key executor connection now lease,
     claim_for_connection guard key executor connection now lease w = (Ok written, w') ->
     committed key (op_step (Claimed executor connection now lease)) w w' written) /\
  (forall key executor epoch now lease,
     renew guard key executor epoch now lease w = (Ok written, w') ->
     committed key (op_step (Renewed executor epoch now lease)) w w' written) /\
  (forall expected r,
     compare_record_exchange guard expected r w = (Ok written, w') ->
     record written = with_snapshot_revision r /\
     committed (invocation_id r) (op_step Updated) w w' written) /\
  (forall nanos expected executor epoch r,
     compare_exchange guard nanos expected executor epoch r w = (Ok written, w') ->
     record written = with_snapshot_revision r /\
     committed (invocation_id r) (op_step (Executed executor epoch (clock_ms nanos))) w w' written).
Proof.
  split_and!.
  - intros key executor connection now lease. unfold claim_for_connection.
    destruct (Z.leb_spec lease now); [done|]. destruct guard as [[]|]; [|done].
    by apply claim_loop_commits.
  - intros key executor epoch now lease. unfold renew.
    destruct (Z.leb_spec lease now); [done|]. destruct guard as [[]|]; [|done].
    by apply renew_loop_commits.
  - intros expected r. apply compare_record_exchange_commits.
  - intros nanos expected executor epoch r. apply compare_exchange_commits.
Qed.

(** ** Histories *)

Lemma step_advances ev r r' :
  op_step ev r r' ->
  identity_kept r r' /\ revision r' = (revision r + 1)%N /\ (owner_epoch r <= owner_epoch r')%N.
Proof.
  intros (Hid & Hrev & _ & Hev). split_and!; [done..|].
  destruct ev; destruct_and?; lia.
Qed.

Lemma identity_kept_trans a b c : identity_kept a b -> identity_kept b c -> identity_kept a c.
Proof. unfold identity_kept. intros; destruct_and?. split_and!; congruence. Qed.

Lemma history_advances r r' n :
  nsteps any_step n r r' ->
  identity_kept r r' /\ revision r' = (revision r + N.of_nat n)%N /\
  (owner_epoch r <= owner_epoch r')%N.
Proof.
  induction 1 as [r|n r r1 r' [ev Hstep] _ (Hid & Hrev & Hep)].
  - unfold identity_kept. split_and!; done || lia.
  - apply step_advances in Hstep as (Hid1 & Hrev1 & Hep1).
    split_and!; [by eapply identity_kept_trans|lia|lia].
Qed.

(** A call of the repository that writes a record there is.  ([create] makes the first
    one, and merges a cancellation by a call of [compare_record_exchange].) *)
Inductive Call :=
| CallClaim (key executor connection : string) (now lease : Z)
| CallRenew (key executor : string) (epoch : N) (now lease : Z)
| CallUpdate (expected : N) (r : DurableOperationRecord)
| CallWrite (nanos : Z) (expected : N) (executor : string) (epoch : N)
    (r : DurableOperationRecord).

Definition call_key (call : Call) : string :=
  match call with
  | CallClaim key _ _ _ _ | CallRenew key _ _ _ _ => key
  | CallUpdate _ r | CallWrite _ _ _ _ r => invocation_id r
  end.

Definition run_call (guard : result unit ServerError) (call : Call) (w : World) :
    result RevisionedOperationRecord ServerError * World :=
  match call with
  | CallClaim key executor connection now lease =>
      claim_for_connection guard key executor connection now lease w
  | CallRenew key executor epoch now lease => renew guard key executor epoch now lease w
  | CallUpdate expected r => compare_record_exchange guard expected r w
  | CallWrite nanos expected executor epoch r =>
      compare_exchange guard nanos expected executor epoch r w
  end.

(** The epoch a call claims to own the invocation with. *)
Definition call_epoch (call : Call) : option N :=
  match call with
  | CallRenew _ _ epoch _ _ | CallWrite _ _ _ epoch _ => Some epoch
  | _ => None
  end.

(** [a] is the last record the key held before [b], as of [w]. *)
Definition last_before (w : World) (key : string) (a b : RevisionedOperationRecord) : Prop :=
  (exists w1, kv_le w1 w /\ stored w1 key = Some a) /\ (kv_revision a < kv_revision b)%N /\
  forall w1 x, kv_le w1 w -> stored w1 key = Some x ->
    (kv_revision x < kv_revision b)%N -> (kv_revision x <= kv_revision a)%N.

(** A call that returned [b], which took the place of [a]; what other clients do while
    the call is under way is open. *)
Definition replaces (call : Call) (a b : RevisionedOperationRecord) : Prop :=
  exists guard w w',
    run_call guard call w = (Ok b, w') /\ last_before w' (call_key call) a b.

(** A history of a key: each record took the place of the one before by a call. *)
Inductive history (key : string) :
    RevisionedOperationRecord -> list Call -> RevisionedOperationRecord -> Prop :=
| history_nil a : history key a [] a
| history_cons a call b calls c :
    call_key call = key -> replaces call a b -> history key b calls c ->
    history key a (call :: calls) c.

Definition call_event (call : Call) : op_event :=
  match call with
  | CallClaim _ executor connection now lease => Claimed executor connection now lease
  | CallRenew _ executor epoch now lease => Renewed executor epoch now lease
  | CallUpdate _ _ => Updated
  | CallWrite nanos _ executor epoch _ => Executed executor epoch (clock_ms nanos)
  end.

Lemma run_call_commits guard call w written w' :
  run_call guard call w = (Ok written, w') ->
  committed (call_key call) (op_step (call_event call)) w w' written.
Proof.
  destruct call; simpl; [unfold claim_for_connection|unfold renew|intros Hc|intros Hc].
  - destruct (Z.leb_spec lease now); [done|]. destruct guard as [[]|]; [|done].
    by apply claim_loop_commits.
  - destruct (Z.leb_spec lease now); [done|]. destruct guard as [[]|]; [|done].
    by apply renew_loop_commits.
  - by apply compare_record_exchange_commits in Hc as [_ ?].
  - by apply compare_exchange_commits in Hc as [_ ?].
Qed.

Lemma stored_unique w1 w2 w key a b :
  kv_le w1 w -> kv_le w2 w -> stored w1 key = Some a -> stored w2 key = Some b ->
  kv_revision a = kv_revision b -> a = b.
Proof.
  intros Hle1 Hle2 Ha Hb Hrev.
  destruct (stored_entry _ _ _ Ha) as (e1 & He1 & Hr1), (stored_entry _ _ _ Hb) as (e2 & He2 & Hr2).
  assert (e1 = e2) as -> by (eapply (kv_entry_unique w1 w2 w); [done..|congruence]).
  unfold stored in *. rewrite He1 in Ha. rewrite He2 in Hb. congruence.
Qed.

(** The record a call replaces is the last one before its own, so the call takes it by
    the step its name promises. *)
Lemma replaces_step call a b :
  replaces call a b -> op_step (call_event call) (record a) (record b).
Proof.
  intros (guard & w & w' & Hrun & (w1 & Hle1 & Ha) & Hlt & Hlast).
  destruct (run_call_commits _ _ _ _ _ Hrun)
    as (w2 & before & _ & Hle2 & Hb & _ & Hlt' & Hstep & Hlatest & _).
  pose proof (Hlast w2 before Hle2 Hb Hlt'). pose proof (Hlatest w1 a Hle1 Ha Hlt).
  assert (a = before) as -> by (eapply (stored_unique w1 w2 w'); [done..|lia]). done.
Qed.

Lemma history_nsteps key a calls b :
  history key a calls b -> nsteps any_step (List.length calls) (record a) (record b).
Proof.
  induction 1 as [a|a call b calls c _ Hr _ IH]; [constructor|].
  econstructor; [|exact IH]. eexists. by apply replaces_step.
Qed.

(** C8: along any history of repository calls an invocation keeps its identity, input and
    digest, its revision counts the calls that wrote, and its owner epoch never decreases.
    Once a claim has taken the lease over, no call with the epoch the invocation had before
    the claim writes in any later state: the previous owner neither renews the lease nor
    writes through it.  A terminal operation is neither claimed nor renewed nor written by
    an owner. *)
Theorem history_fences_owners key a calls b :
  history key a calls b ->
  (identity_kept (record a) (record b) /\
   revision (record b) = (revision (record a) + N.of_nat (List.length calls))%N /\
   (owner_epoch (record a) <= owner_epoch (record b))%N) /\
  (forall executor connection now lease c calls' d call e epoch,
     replaces (CallClaim key executor connection now lease) b c -> history key c calls' d ->
     replaces call d e -> call_epoch call = Some epoch ->
     (owner_epoch (record b) < epoch)%N) /\
  (forall call c, replaces call b c -> is_terminal (state_of (record b)) = true ->
     exists expected r, call = CallUpdate expected r).
Proof.
  intros Hh. split; [by apply history_advances, (history_nsteps key)|]. split.
  - intros executor connection now lease c calls' d call e epoch Hclaim Hh' Hcall Hep.
    apply replaces_step in Hclaim as (_ & _ & _ & Hclaim). simpl in Hclaim. destruct_and?.
    apply history_nsteps, history_advances in Hh' as (_ & _ & Hmono).
    apply replaces_step in Hcall as (_ & _ & _ & Hev).
    destruct call; simplify_eq/=; destruct_and?; lia.
  - intros call c (_ & _ & _ & Hev)%replaces_step Hterm.
    destruct call; simpl in Hev; destruct_and?; try congruence. eauto.
Qed.

(** C36: a stale owner is fenced off.  If the key's owner epoch is already beyond the one a
    caller holds when it calls, and the key's record only changes by repository writes while
    the call is under way, then neither its renewal nor its write succeeds. *)
Theorem stale_owner_fenced key w c executor epoch r w' now lease nanos expected update guard :
  stored w key = Some c -> (epoch < owner_epoch (record c))%N ->
  renew guard key executor epoch now lease w = (r, w') \/
    (key = invocation_id update /\
     compare_exchange guard nanos expected executor epoch update w = (r, w')) ->
  (forall w1 b, kv_le w w1 -> kv_le w1 w' -> stored w1 key = Some b ->
                rtc any_step (record c) (record b)) ->
  is_ok r = false.
Proof.
  intros Hs Hlt Hcall Hwrites. destruct r as [written|]; [exfalso|done].
  assert (exists ev, committed key (op_step ev) w w' written /\
            match ev with Renewed _ e _ _ | Executed _ e _ => e = epoch | _ => False end)
    as (ev & (w1 & before & Hle & Hle' & Hb & _ & _ & Hstep & _) & Hev).
  { destruct Hcall as [Hc|[-> Hc]].
    - unfold renew in Hc. destruct (Z.leb_spec lease now); [done|]. destruct guard as [[]|]; [|done].
      apply renew_loop_commits in Hc; [|done]. by eexists.
    - apply compare_exchange_commits in Hc as [_ Hc]. by eexists. }
  destruct (proj1 (rtc_nsteps _ _) (Hwrites w1 before Hle Hle' Hb)) as [n Hn].
  apply history_advances in Hn as (_ & _ & Hep). destruct Hstep as (_ & _ & _ & Hstep).
  destruct ev; try done; destruct_and?; subst; lia.
Qed.

(** ** Acceptance *)

Definition accepted (r : DurableOperationRecord) (w' : World)
    (result : RevisionedOperationRecord) : Prop :=
  same_invocation (record result) r = true /\
  (cancellation_requested r = true ->
   cancellation_requested (record result) = true \/
   is_terminal (state_of (record result)) = true) /\
  exists w1, kv_le w1 w' /\ stored w1 (invocation_id r) = Some result.

Lemma create_existing_accepted turns r w result w' :
  create_existing turns r w = (Ok result, w') -> accepted r w' result.
Proof.
  revert w. induction turns as [|turns IH]; intros w; [done|]. cbn [create_existing].
  destruct (load_existing (invocation_id r) _ w) as [[existing|] w2] eqn:Hl; [|done].
  apply load_existing_stored in Hl as (Hle & w0 & Hle0 & Hs).
  destruct (same_invocation (record existing) r) eqn:Hsame; [|done]. cbn [negb].
  destruct (_ || _) eqn:Hskip.
  - intros [= <- <-]. split_and!; [done| |by exists w0].
    intros Hc. rewrite Hc in Hskip. by rewrite !orb_true_iff in Hskip; destruct Hskip as [[|]|]; auto.
  - destruct (compare_record_exchange _ _ _ w2) as [[updated|] w3] eqn:Hx; [|apply IH].
    intros [= <- <-]. apply compare_record_exchange_commits in Hx as [Hrec Hc].
    destruct Hc as (w1 & before & _ & _ & _ & Hst & _). unfold accepted.
    rewrite Hrec in *. unfold same_invocation in Hsame |- *.
    apply andb_true_iff in Hsame as [Hi Hd].
    split_and!; [by rewrite andb_true_iff|by left|].
    apply String.eqb_eq in Hi. rewrite <- Hi. by exists w3.
Qed.

(** Accepting an invocation is idempotent.  Whenever [create] succeeds, whether the key
    was free, another request had created it or an earlier attempt's write had been
    acknowledged or lost, the result is the invocation that was asked for, as the store
    holds it, and a requested cancellation is in force in it unless the operation had
    already ended. *)
Theorem create_is_idempotent guard r w result w' :
  create guard r w = (Ok result, w') -> accepted r w' result.
Proof.
  unfold create, fail. destruct (validate_record r) as [[]|] eqn:Hv; [|done].
  destruct guard as [[]|]; [|done].
  destruct (encode_operation_record r) as [bytes|] eqn:He; [|done].
  destruct (kv_create (invocation_id r) bytes w) as [[rev|] w2] eqn:Hk.
  - intros [= <- <-]. apply kv_create_spec in Hk as (w1 & _ & _ & _ & Hat & _).
    split_and!; cbn [record].
    + unfold same_invocation. by rewrite !String.eqb_refl.
    + by left.
    + exists w2. split; [done|]. unfold stored. rewrite Hat. cbn.
      by rewrite (encode_decode_record _ _ He).
  - apply create_existing_accepted.
Qed.
End history.
