(* ===== verification/OperationExamples.v ===== *)
(** * Operation repository: evaluated examples

    An in-memory bucket, a table of records as the JSON codec and small implementations of
    the other parameters, at which the theorems of the operation repository are evaluated. *)

From Stdlib Require Import Ascii String.
From S2P Require Import Prelude RustStr Extern Base64 Kv Protocol.
From S2P Require Import TransferSubjects Transfer TransferProof.
From S2P Require Import OperationRecord OperationRepository OperationHistory.

Local Open Scope string_scope.

Local Existing Instances rfc4648 rfc4648_laws json_text.
Local Existing Instances MemKv.mem_store MemKv.mem_spec MemKv.mem_laws.

Definition example_ulid : UlidParser :=
  fun s => if Nat.eqb (String.length s) 26 then Some s else None.
Definition example_rfc3339 : Rfc3339 := fun s => if ends_with "Z" s then Some 0%Z else None.
Definition example_canonical : CanonicalJson := fun v : string => Ok v.
Definition example_error_text : ProtocolErrorText := fun _ => "protocol error".
Definition example_grant_codec : JsonCodec TransferGrant :=
  {| to_vec := fun _ => Err "unsupported"; from_slice := fun _ => Err "unsupported" |}.
Definition example_invocation : InvocationJson :=
  fun api operation principal _ input => join "," [input; api; operation; principal].

Local Existing Instances sample_sha256 example_ulid example_rfc3339 example_canonical
  example_error_text example_grant_codec example_invocation sample_ed25519.

(** An invocation, accepted and then claimed. *)
Definition example_id : string := "01ARZ3NDEKTSV4RRFFQ69G5FAV".

Definition example_digest : string :=
  Eval vm_compute in b64_encode (sha256 (join "," ["{}"; "trellis.files@v1"; "Import"; "user-1"])).

Definition accepted_record : DurableOperationRecord := {|
  invocation_id := example_id;
  invocation_digest := example_digest;
  rec_api_id := "trellis.files@v1";
  rec_operation := "Import";
  deployment_id := "deployment-1";
  creator_principal_id := "user-1";
  creator_binding := BindingBrowser "client" "https://example.org";
  caller_session_key := "key";
  caller := None;
  input := "{}" : Value;
  snapshot := {|
    snap_id := Some example_id; snap_service := None; snap_operation := Some "Import";
    snap_revision := 1; snap_state := OpPending;
    snap_created_at := Some "2026-01-01T00:00:00Z";
    snap_updated_at := Some "2026-01-01T00:00:00Z";
    snap_completed_at := None; snap_progress := None; snap_transfer := None;
    snap_output := None; snap_error := None |};
  revision := 1;
  owner_executor_id := None;
  owner_connection_id := None;
  owner_epoch := 0;
  lease_expires_at_ms := None;
  cancellation_requested := false;
  cancellation_requested_at := None;
  next_signal_sequence := 2;
  update_sequence := 0;
  signals := [ {| signal_sequence := 1; signal_request_id := "request-1"; signal_name := "pause";
                  signal_payload := "{}" : Value; signal_accepted_at := "2026-01-01T00:00:01Z";
                  signal_acknowledged := false |} ];
  transfer := None;
  telemetry := None;
|}.

Definition claimed_by_a : DurableOperationRecord :=
  Eval vm_compute in
    match claimed_record accepted_record "executor-a" "connection-a" 2000 with
    | Ok r => r
    | Err _ => accepted_record
    end.

Definition example_json : RecordJson := {|
  record_codec := table_codec [accepted_record; claimed_by_a];
  value_codec := {| to_vec := fun v : string => Ok v; from_slice := fun v => Ok (v : Value) |};
  upload_from_value := fun _ => Err "unsupported";
  info_from_value := fun _ => Err "unsupported";
  error_to_value := fun _ => Err "unsupported";
  invocation_json := example_invocation;
|}.

Local Existing Instance example_json.

Definition example_laws : JsonCodecLaws DurableOperationRecord :=
  table_codec_laws [accepted_record; claimed_by_a].

Local Existing Instance example_laws.

Definition record_bytes (r : DurableOperationRecord) : string :=
  match encode_operation_record r with Ok bytes => bytes | Err _ => "" end.

Lemma stored_record_consistent_witness :
  decode_operation_record (record_bytes accepted_record) = Ok accepted_record /\
  NoDup (signal_request_id <$> signals accepted_record).
Proof.
  assert (encode_operation_record accepted_record = Ok (record_bytes accepted_record)) as He
    by (vm_compute; reflexivity).
  pose proof (proj1 (stored_record_consistent _ _) He) as Hd.
  split; [done|]. by apply (stored_record_consistent accepted_record (record_bytes accepted_record)).
Defined.

(** A bucket in which the invocation is accepted, and one in which it is claimed too. *)
Definition accepted_world : @World MemKv.mem_store :=
  MemKv.mkMem [(example_id, Some (record_bytes accepted_record, Put))] [].

Definition claimed_world : @World MemKv.mem_store :=
  MemKv.mkMem [(example_id, Some (record_bytes accepted_record, Put));
               (example_id, Some (record_bytes claimed_by_a, Put))] [].

Lemma repository_writes_are_steps_witness :
  committed example_id (op_step (Claimed "executor-a" "connection-a" 1000 2000))
    accepted_world claimed_world (mkRevisioned claimed_by_a 2).
Proof.
  apply (repository_writes_are_steps (Ok tt) accepted_world). vm_compute. reflexivity.
Defined.

(** The claim of [repository_writes_are_steps_witness] as a history of one call. *)
Definition claim_call : Call := CallClaim example_id "executor-a" "connection-a" 1000 2000.

Lemma claim_replaces :
  replaces claim_call (mkRevisioned accepted_record 1) (mkRevisioned claimed_by_a 2).
Proof.
  exists (Ok tt), accepted_world, claimed_world. split; [vm_compute; reflexivity|].
  split; [|split; [done|]].
  - exists accepted_world. split; [by eexists|vm_compute; reflexivity].
  - intros w1 x _ _. simpl. lia.
Qed.

Lemma history_fences_owners_witness :
  identity_kept accepted_record claimed_by_a /\
  revision claimed_by_a = (revision accepted_record + 1)%N.
Proof.
  destruct (history_fences_owners example_id (mkRevisioned accepted_record 1) [claim_call]
              (mkRevisioned claimed_by_a 2)) as [(? & ? & _) _]; [|done].
  eapply history_cons; [done|apply claim_replaces|constructor].
Defined.

Lemma stale_owner_fenced_witness :
  is_ok (fst (renew (Ok tt) example_id "executor-b" 0 1500 3000 claimed_world)) = false.
Proof.
  apply (stale_owner_fenced example_id claimed_world (mkRevisioned claimed_by_a 2) "executor-b" 0
           _ claimed_world 1500 3000 0 0 claimed_by_a (Ok tt)).
  - vm_compute. reflexivity.
  - done.
  - left. vm_compute. reflexivity.
  - intros w1 b Hle Hle' Hb.
    assert (MemKv.mem_log w1 = MemKv.mem_log claimed_world) as Hlog 
      by (by apply (anti_symm (fun l l' => l `prefix_of` l'))).
    assert (stored w1 example_id = stored claimed_world example_id) as Heq.
    { unfold stored. simpl. unfold MemKv.mem_at. by rewrite Hlog. }
    rewrite Heq in Hb.
    assert (stored claimed_world example_id = Some (mkRevisioned claimed_by_a 2)) as Hc
      by (vm_compute; reflexivity).
    rewrite Hc in Hb. injection Hb as <-. apply rtc_refl.
Defined.

Lemma create_is_idempotent_witness :
  accepted accepted_record accepted_world (mkRevisioned accepted_record 1).
Proof.
  apply (create_is_idempotent (Ok tt) accepted_record accepted_world). vm_compute. reflexivity.
Defined.
