(* ===== verification/Live.v ===== *)
(** * Live protocol messages

    The controls a consumer sends, the frames a provider sends, their subjects, proofs and
    hashes, from [crates/protocol/src/live.rs]. *)

From Stdlib Require Import Ascii String.
From S2P Require Import Prelude RustStr Extern Json Transcript Base64 Protocol Wire Identifiers.
From S2P Require Import Subjects SessionAuthority.

Local Open Scope string_scope.

Definition LIVE_VERSION : string := "trellis.live.v1".
Definition LIVE_SERVER_PROOF_DOMAIN_V1 : string := "trellis.live-server-proof.v1".

(** Milliseconds. *)
Definition OPEN_RESERVATION_MS : N := 15000.
Definition HEARTBEAT_INTERVAL_MS : N := 10000.
Definition CHALLENGE_RETRY_MS : N := 2000.
Definition PEER_INACTIVITY_MS : N := 35000.
Definition CONSUMER_STALL_MS : N := 35000.
Definition CLEANUP_GRACE_MS : N := 2000.
Definition CLOSE_EXCHANGE_MS : N := 5000.
Definition CLOSE_RETRY_MS : N := 1000.

Definition WINDOW_FRAMES : N := 64.
Definition WINDOW_BYTES : N := 1048576.
Definition PROTOCOL_HEADER_RESERVE_BYTES : N := 4096.
Definition MAX_OPEN_BODY_BYTES : N := 262144.
Definition MAX_CONTROL_BODY_BYTES : N := 8192.
Definition MIN_DATA_BODY_BYTES : N := 1024.
Definition MAXIMUM_REASON_MESSAGE_BYTES : N := 2048.
Definition MAXIMUM_REASON_MESSAGE_SCALARS : N := 512.

(** ** Codes and reasons *)

Inductive LiveErrorCode :=
| CodeUnsupportedProtocol
| CodeInvalidRequest
| CodeInvalidSubject
| CodePermissionDenied
| CodeAuthorizationExpired
| CodeAuthorizationRevoked
| CodeAuthorizationUnavailable
| CodeBindingChanged
| CodeResourceExhausted
| CodeOpenConflict
| CodeSessionNotFound
| CodeSetupTimeout
| CodeControlConflict
| CodeControlGap
| CodeInvalidCursor
| CodeInvalidChallenge
| CodeStaleControl
| CodePayloadTooLarge
| CodeConcurrentEmit
| CodeClosed
| CodePeerLost
| CodeDisconnected
| CodeConsumerSlow
| CodeDeliveryGap
| CodeCallbackFailed
| CodeSourceFailed
| CodeProtocolError
| CodeCancelled
| CodeLocalShutdown
| CodeCleanupIncomplete.

(** [LiveErrorCode::as_str], which is also the name it is serialized with. *)
Definition error_code_str (c : LiveErrorCode) : string :=
  match c with
  | CodeUnsupportedProtocol => "unsupported_protocol"
  | CodeInvalidRequest => "invalid_request"
  | CodeInvalidSubject => "invalid_subject"
  | CodePermissionDenied => "permission_denied"
  | CodeAuthorizationExpired => "authorization_expired"
  | CodeAuthorizationRevoked => "authorization_revoked"
  | CodeAuthorizationUnavailable => "authorization_unavailable"
  | CodeBindingChanged => "binding_changed"
  | CodeResourceExhausted => "resource_exhausted"
  | CodeOpenConflict => "open_conflict"
  | CodeSessionNotFound => "session_not_found"
  | CodeSetupTimeout => "setup_timeout"
  | CodeControlConflict => "control_conflict"
  | CodeControlGap => "control_gap"
  | CodeInvalidCursor => "invalid_cursor"
  | CodeInvalidChallenge => "invalid_challenge"
  | CodeStaleControl => "stale_control"
  | CodePayloadTooLarge => "payload_too_large"
  | CodeConcurrentEmit => "concurrent_emit"
  | CodeClosed => "closed"
  | CodePeerLost => "peer_lost"
  | CodeDisconnected => "disconnected"
  | CodeConsumerSlow => "consumer_slow"
  | CodeDeliveryGap => "delivery_gap"
  | CodeCallbackFailed => "callback_failed"
  | CodeSourceFailed => "source_failed"
  | CodeProtocolError => "protocol_error"
  | CodeCancelled => "cancelled"
  | CodeLocalShutdown => "local_shutdown"
  | CodeCleanupIncomplete => "cleanup_incomplete"
  end.

Definition error_codes : list LiveErrorCode :=
  [CodeUnsupportedProtocol; CodeInvalidRequest; CodeInvalidSubject; CodePermissionDenied;
   CodeAuthorizationExpired; CodeAuthorizationRevoked; CodeAuthorizationUnavailable;
   CodeBindingChanged; CodeResourceExhausted; CodeOpenConflict; CodeSessionNotFound;
   CodeSetupTimeout; CodeControlConflict; CodeControlGap; CodeInvalidCursor;
   CodeInvalidChallenge; CodeStaleControl; CodePayloadTooLarge; CodeConcurrentEmit;
   CodeClosed; CodePeerLost; CodeDisconnected; CodeConsumerSlow; CodeDeliveryGap;
   CodeCallbackFailed; CodeSourceFailed; CodeProtocolError; CodeCancelled;
   CodeLocalShutdown; CodeCleanupIncomplete].

Inductive LiveEndReason :=
| EndComplete
| EndCancelled
| EndLocalShutdown
| EndSetupTimeout
| EndPeerLost
| EndDisconnected
| EndAuthorizationLost
| EndBindingChanged
| EndConsumerSlow
| EndDeliveryGap
| EndSourceError
| EndProtocolError
| EndResourceExhausted.

(** [LiveEndReason::as_str] *)
Definition end_reason_str (r : LiveEndReason) : string :=
  match r with
  | EndComplete => "complete"
  | EndCancelled => "cancelled"
  | EndLocalShutdown => "local_shutdown"
  | EndSetupTimeout => "setup_timeout"
  | EndPeerLost => "peer_lost"
  | EndDisconnected => "disconnected"
  | EndAuthorizationLost => "authorization_lost"
  | EndBindingChanged => "binding_changed"
  | EndConsumerSlow => "consumer_slow"
  | EndDeliveryGap => "delivery_gap"
  | EndSourceError => "source_error"
  | EndProtocolError => "protocol_error"
  | EndResourceExhausted => "resource_exhausted"
  end.

Definition end_reasons : list LiveEndReason :=
  [EndComplete; EndCancelled; EndLocalShutdown; EndSetupTimeout; EndPeerLost; EndDisconnected;
   EndAuthorizationLost; EndBindingChanged; EndConsumerSlow; EndDeliveryGap; EndSourceError;
   EndProtocolError; EndResourceExhausted].

Inductive ConsumerCloseReason :=
| CloseCancelled
| CloseLocalShutdown
| CloseConsumerSlow
| CloseDeliveryGap
| CloseProtocolError.

(** [ConsumerCloseReason::as_str] *)
Definition close_reason_str (r : ConsumerCloseReason) : string :=
  match r with
  | CloseCancelled => "cancelled"
  | CloseLocalShutdown => "local_shutdown"
  | CloseConsumerSlow => "consumer_slow"
  | CloseDeliveryGap => "delivery_gap"
  | CloseProtocolError => "protocol_error"
  end.

Definition close_reasons : list ConsumerCloseReason :=
  [CloseCancelled; CloseLocalShutdown; CloseConsumerSlow; CloseDeliveryGap; CloseProtocolError].

Global Instance LiveErrorCode_eq_dec : EqDecision LiveErrorCode.
Proof. solve_decision. Defined.
Global Instance LiveEndReason_eq_dec : EqDecision LiveEndReason.
Proof. solve_decision. Defined.
Global Instance ConsumerCloseReason_eq_dec : EqDecision ConsumerCloseReason.
Proof. solve_decision. Defined.

(** ** Controls *)

(** The fields every control has.  Their [type] is the literal [control]. *)
Record LiveControlBase := mkControlBase {
  control_format : string;
  control_session : string;
  control_sequence : N;
  control_received : N;
  control_consumed : N;
}.

Inductive LiveControl :=
| ControlActivate (body : LiveControlBase)
| ControlPulse (body : LiveControlBase) (challenge_id : string)
| ControlAck (body : LiveControlBase)
| ControlClose (body : LiveControlBase) (reason : ConsumerCloseReason)
| ControlEndAck (body : LiveControlBase) (final_seq : N).

Global Instance LiveControlBase_eq_dec : EqDecision LiveControlBase.
Proof. solve_decision. Defined.
Global Instance LiveControl_eq_dec : EqDecision LiveControl.
Proof. solve_decision. Defined.

Definition control_body (c : LiveControl) : LiveControlBase :=
  match c with
  | ControlActivate body | ControlPulse body _ | ControlAck body | ControlClose body _
  | ControlEndAck body _ => body
  end.

(** [LiveControl::control_seq], [session_id], [action] *)
Definition live_control_seq (c : LiveControl) : N := control_sequence (control_body c).
Definition live_session_id (c : LiveControl) : string := control_session (control_body c).

Definition live_action (c : LiveControl) : string :=
  match c with
  | ControlActivate _ => "activate"
  | ControlPulse _ _ => "pulse"
  | ControlAck _ => "ack"
  | ControlClose _ _ => "close"
  | ControlEndAck _ _ => "end-ack"
  end.

(** [LiveControl::received_seq] and [consumed_seq] *)
Definition live_received_seq (c : LiveControl) : option N :=
  match c with ControlActivate _ => None | _ => Some (control_received (control_body c)) end.

Definition live_consumed_seq (c : LiveControl) : option N :=
  match c with ControlActivate _ => None | _ => Some (control_consumed (control_body c)) end.

Definition validate_cursors (received consumed : N) : result unit ProtocolError :=
  if (received <? consumed)%N then
    Err (live_error LiveInvalidCounter ["consumedSeq"]
           "consumed cursor cannot exceed the received cursor")
  else Ok tt.

Section control_validation.
Context `{Base64Url}.

(** [LiveControl::validate] *)
Definition validate_live_control (c : LiveControl) : result unit ProtocolError :=
  let? _ := parse_nonce (live_session_id c) ["sessionId"] in
  let received := control_received (control_body c) in
  let consumed := control_consumed (control_body c) in
  match c with
  | ControlActivate _ =>
      if negb (received =? 0)%N || negb (consumed =? 0)%N then
        Err (live_error LiveInvalidCounter ["activate"] "activation cursors must both be zero")
      else Ok tt
  | ControlPulse _ challenge_id =>
      let? _ := parse_nonce challenge_id ["challengeId"] in
      validate_cursors received consumed
  | ControlAck _ | ControlClose _ _ => validate_cursors received consumed
  | ControlEndAck _ final_seq =>
      let? _ := validate_cursors received consumed in
      if (final_seq <? received)%N then
        Err (live_error LiveInvalidCounter ["finalSeq"]
               "final sequence cannot be below the received cursor")
      else Ok tt
  end.
End control_validation.

(** [Deserialize for U64s] *)
Definition counter_value (v : Json) : result N string :=
  let? text := string_value v in
  map_err (fun _ => "invalid counter") (parse_u64s text ["counter"]).

(** A literal: an enum of one name. *)
Definition literal_value (name : string) (v : Json) : result unit string :=
  enum_value (fun _ : unit => name) [tt] v.

(** The derived [Deserialize] of the five controls: the fields of the body, and the extra
    field the action has. *)
Definition body_fields : list string :=
  ["receivedSeq"; "consumedSeq"; "format"; "type"; "sessionId"; "controlSeq"].

Definition body_value (m : Members) : result LiveControlBase string :=
  let? received := member m "receivedSeq" counter_value in
  let? consumed := member m "consumedSeq" counter_value in
  let? format := member m "format" string_value in
  let? _ := member m "type" (literal_value "control") in
  let? session_id := member m "sessionId" string_value in
  let? control_seq := member m "controlSeq" counter_value in
  Ok (mkControlBase format session_id control_seq received consumed).

Definition control_value (action : string) (extra : list string) (v : Json) :
    result (Members * LiveControlBase) string :=
  let fields := "action" :: extra ++ body_fields in
  let? m := struct_members fields (List.length fields) v in
  let? _ := member m "action" (literal_value action) in
  let? body := body_value m in
  Ok (m, body).

Definition activate_value (v : Json) : result LiveControl string :=
  let? decoded := control_value "activate" [] v in
  Ok (ControlActivate (snd decoded)).

Definition pulse_value (v : Json) : result LiveControl string :=
  let? decoded := control_value "pulse" ["challengeId"] v in
  let? challenge_id := member (fst decoded) "challengeId" string_value in
  Ok (ControlPulse (snd decoded) challenge_id).

Definition ack_value (v : Json) : result LiveControl string :=
  let? decoded := control_value "ack" [] v in
  Ok (ControlAck (snd decoded)).

Definition close_value (v : Json) : result LiveControl string :=
  let? decoded := control_value "close" ["reason"] v in
  let? reason := member (fst decoded) "reason" (enum_value close_reason_str close_reasons) in
  Ok (ControlClose (snd decoded) reason).

Definition end_ack_value (v : Json) : result LiveControl string :=
  let? decoded := control_value "end-ack" ["finalSeq"] v in
  let? final_seq := member (fst decoded) "finalSeq" counter_value in
  Ok (ControlEndAck (snd decoded) final_seq).

(** The derived [Serialize]. *)
Definition counter_json (n : N) : Json := JString (u64s n).

Definition body_json (b : LiveControlBase) : list (string * Json) :=
  [("receivedSeq", counter_json (control_received b));
   ("consumedSeq", counter_json (control_consumed b));
   ("format", JString (control_format b));
   ("type", JString "control");
   ("sessionId", JString (control_session b));
   ("controlSeq", counter_json (control_sequence b))].

Definition control_json (c : LiveControl) : Json :=
  object (("action", JString (live_action c)) ::
    match c with
    | ControlActivate _ | ControlAck _ => []
    | ControlPulse _ challenge_id => [("challengeId", JString challenge_id)]
    | ControlClose _ reason => [("reason", JString (close_reason_str reason))]
    | ControlEndAck _ final_seq => [("finalSeq", counter_json final_seq)]
    end ++ body_json (control_body c)).

Definition validate_open_body (raw : string) : result unit ProtocolError :=
  if String.eqb raw "" || (MAX_OPEN_BODY_BYTES <? N.of_nat (String.length raw))%N then
    Err (live_error LiveBodyTooLarge ["body"]
           "opening body must be non-empty and within the protocol limit")
  else Ok tt.

Definition validate_control_body (raw : string) : result unit ProtocolError :=
  if String.eqb raw "" || (MAX_CONTROL_BODY_BYTES <? N.of_nat (String.length raw))%N then
    Err (live_error LiveBodyTooLarge ["body"]
           "control body must be non-empty and within the protocol limit")
  else Ok tt.

(** [value.get(name).and_then(Value::as_str)] *)
Definition text_of (name : string) (v : Json) : option string := v ← value_get name v; as_str v.

(** [match action.as_str()] *)
Definition decode_control (action : string) (value : Json) : result LiveControl ProtocolError :=
  if String.eqb action "activate" then map_err JsonError (activate_value value)
  else if String.eqb action "pulse" then map_err JsonError (pulse_value value)
  else if String.eqb action "ack" then map_err JsonError (ack_value value)
  else if String.eqb action "close" then map_err JsonError (close_value value)
  else if String.eqb action "end-ack" then map_err JsonError (end_ack_value value)
  else Err (live_error LiveInvalidFormat ["action"] "control body carries an unknown action").

Section parse_control.
Context `{Base64Url, !JsonCodec Json}.

Definition parse_live_control (raw : string) : result LiveControl ProtocolError :=
  let? _ := validate_control_body raw in
  let? value := map_err JsonError (from_slice raw) in
  if negb (String.eqb (default "" (text_of "format" value)) LIVE_VERSION) then
    Err (live_error LiveInvalidFormat ["format"]
           "control body must carry the exact live protocol discriminator")
  else
    let? control := decode_control (default "" (text_of "action" value)) value in
    let? _ := validate_live_control control in
    Ok control.
End parse_control.

(** ** Terminals and frames *)

Record WireTerminalError := mkWireTerminalError {
  terminal_code : LiveErrorCode;
  terminal_message : string;
  terminal_trace_id : option string;
}.

Record WireTerminal := mkWireTerminal {
  terminal_reason : LiveEndReason;
  terminal_error : option WireTerminalError;
}.

Global Instance WireTerminalError_eq_dec : EqDecision WireTerminalError.
Proof. solve_decision. Defined.
Global Instance WireTerminal_eq_dec : EqDecision WireTerminal.
Proof. solve_decision. Defined.

(** [WireTerminal::complete] *)
Definition complete_terminal : WireTerminal := mkWireTerminal EndComplete None.

Definition nul : ascii := ascii_of_N 0.

Definition normal_reason (r : LiveEndReason) : bool :=
  match r with EndComplete | EndCancelled | EndLocalShutdown => true | _ => false end.

(** [WireTerminal::validate] *)
Definition validate_wire_terminal (t : WireTerminal) : result unit ProtocolError :=
  match normal_reason (terminal_reason t), terminal_error t with
  | true, None => Ok tt
  | false, Some error =>
      if (MAXIMUM_REASON_MESSAGE_BYTES <? N.of_nat (String.length (terminal_message error)))%N
         || (MAXIMUM_REASON_MESSAGE_SCALARS <? chars_count (terminal_message error))%N
         || contains_char nul (terminal_message error)
      then Err (live_error LiveInvalidFormat ["terminal"; "error"; "message"]
                  "terminal message exceeds its redaction bounds")
      else Ok tt
  | _, _ => Err (live_error LiveInvalidFormat ["terminal"]
                   "normal reasons carry no error and failure reasons require one")
  end.

(** The [format] of a frame is the protocol discriminator. *)
Inductive LiveFrame :=
| FrameData (session_id : string) (seq : N) (value : Json)
| FrameChallenge (session_id challenge_id : string) (last_sent_seq : N)
| FrameEnd (session_id : string) (final_seq : N) (terminal : WireTerminal).

Definition frame_session (f : LiveFrame) : string :=
  match f with FrameData s _ _ | FrameChallenge s _ _ | FrameEnd s _ _ => s end.

(** [LiveOfferKind], the [type] of what a provider sends. *)
Inductive LiveOfferKind :=
| KindOffer
| KindOpenError
| KindControlAck
| KindControlError
| KindData
| KindChallenge
| KindEnd.

Definition offer_kind_str (k : LiveOfferKind) : string :=
  match k with
  | KindOffer => "offer"
  | KindOpenError => "open-error"
  | KindControlAck => "control-ack"
  | KindControlError => "control-error"
  | KindData => "data"
  | KindChallenge => "challenge"
  | KindEnd => "end"
  end.

Definition offer_kinds : list LiveOfferKind :=
  [KindOffer; KindOpenError; KindControlAck; KindControlError; KindData; KindChallenge; KindEnd].

Definition terminal_error_value (v : Json) : result WireTerminalError string :=
  let? m := struct_members ["code"; "message"; "traceId"] 2 v in
  let? code := member m "code" (enum_value error_code_str error_codes) in
  let? message := member m "message" string_value in
  let? trace_id := optional_member m "traceId" string_value in
  Ok (mkWireTerminalError code message trace_id).

Definition terminal_value (v : Json) : result WireTerminal string :=
  let? m := struct_members ["reason"; "error"] 2 v in
  let? reason := member m "reason" (enum_value end_reason_str end_reasons) in
  let? error := optional_member m "error" terminal_error_value in
  Ok (mkWireTerminal reason error).

(** The three fields every frame starts with. *)
Definition frame_value (extra : list string) (v : Json) : result (Members * string) string :=
  let fields := (["format"; "type"; "sessionId"] ++ extra)%list in
  let? m := struct_members fields (List.length fields) v in
  let? _ := member m "format" string_value in
  let? _ := member m "type" (enum_value offer_kind_str offer_kinds) in
  let? session_id := member m "sessionId" string_value in
  Ok (m, session_id).

Definition data_value (v : Json) : result LiveFrame string :=
  let? decoded := frame_value ["seq"; "value"] v in
  let? seq := member (fst decoded) "seq" counter_value in
  let? value := member (fst decoded) "value" any_value in
  Ok (FrameData (snd decoded) seq value).

Definition challenge_value (v : Json) : result LiveFrame string :=
  let? decoded := frame_value ["challengeId"; "lastSentSeq"] v in
  let? challenge_id := member (fst decoded) "challengeId" string_value in
  let? last_sent_seq := member (fst decoded) "lastSentSeq" counter_value in
  Ok (FrameChallenge (snd decoded) challenge_id last_sent_seq).

Definition end_value (v : Json) : result LiveFrame string :=
  let? decoded := frame_value ["finalSeq"; "terminal"] v in
  let? final_seq := member (fst decoded) "finalSeq" counter_value in
  let? terminal := member (fst decoded) "terminal" terminal_value in
  Ok (FrameEnd (snd decoded) final_seq terminal).

Definition terminal_error_json (e : WireTerminalError) : Json :=
  object ([("code", JString (error_code_str (terminal_code e)));
           ("message", JString (terminal_message e))]
          ++ optional "traceId" JString (terminal_trace_id e)).

Definition wire_terminal_json (t : WireTerminal) : Json :=
  object [("reason", JString (end_reason_str (terminal_reason t)));
          ("error", default JNull (terminal_error_json <$> terminal_error t))].

Definition frame_json (f : LiveFrame) : Json :=
  let common kind := [("format", JString LIVE_VERSION); ("type", JString (offer_kind_str kind));
                      ("sessionId", JString (frame_session f))] in
  match f with
  | FrameData _ seq value =>
      object (common KindData ++ [("seq", counter_json seq); ("value", value)])
  | FrameChallenge _ challenge_id last_sent_seq =>
      object (common KindChallenge ++ [("challengeId", JString challenge_id);
                                       ("lastSentSeq", counter_json last_sent_seq)])
  | FrameEnd _ final_seq terminal =>
      object (common KindEnd ++ [("finalSeq", counter_json final_seq);
                                 ("terminal", wire_terminal_json terminal)])
  end.

Definition body_too_large : ProtocolError :=
  live_error LiveBodyTooLarge ["body"]
    "frame body must be non-empty and within its protocol limit".

(** [match value.get("type")] *)
Definition decode_frame (type : string) (length max_data_body_bytes : N) (value : Json) :
    result LiveFrame ProtocolError :=
  if String.eqb type "data" then
    if (max_data_body_bytes <? length)%N then Err body_too_large
    else map_err JsonError (data_value value)
  else if String.eqb type "challenge" then
    if (MAX_CONTROL_BODY_BYTES <? length)%N then Err body_too_large
    else map_err JsonError (challenge_value value)
  else if String.eqb type "end" then
    if (MAX_CONTROL_BODY_BYTES <? length)%N then Err body_too_large
    else map_err JsonError (end_value value)
  else Err (live_error LiveInvalidFormat ["type"] "frame carries an unknown discriminant").

Section parse_frame.
Context `{Base64Url, !JsonCodec Json}.

(** The checks of the decoded frame. *)
Definition validate_frame (f : LiveFrame) : result unit ProtocolError :=
  let? _ := parse_nonce (frame_session f) ["sessionId"] in
  match f with
  | FrameData _ _ _ => Ok tt
  | FrameChallenge _ challenge_id _ =>
      let? _ := parse_nonce challenge_id ["challengeId"] in
      Ok tt
  | FrameEnd _ _ terminal => validate_wire_terminal terminal
  end.

Definition parse_live_frame (raw : string) (max_data_body_bytes : N) :
    result LiveFrame ProtocolError :=
  let length := N.of_nat (String.length raw) in
  let pre_bound := N.max max_data_body_bytes MAX_CONTROL_BODY_BYTES in
  if String.eqb raw "" || (pre_bound <? length)%N then Err body_too_large
  else
    let? value := map_err JsonError (from_slice raw) in
    if negb (String.eqb (default "" (text_of "format" value)) LIVE_VERSION) then
      Err (live_error LiveInvalidFormat ["format"]
             "frame must carry the exact live protocol discriminator")
    else
      let? frame := decode_frame (default "" (text_of "type" value)) length max_data_body_bytes value in
      let? _ := validate_frame frame in
      Ok frame.
End parse_frame.

Definition negotiate_max_data_body_bytes (consumer_max_payload_bytes provider_max_payload_bytes : N) :
    result N ProtocolError :=
  if (consumer_max_payload_bytes <=? PROTOCOL_HEADER_RESERVE_BYTES)%N
     || (provider_max_payload_bytes <=? PROTOCOL_HEADER_RESERVE_BYTES)%N
  then
    Err (live_error LiveInvalidDataBodyLimit ["receiveMaxPayloadBytes"]
           "advertised NATS payload limit is absent or too small for the header reserve")
  else
    let negotiated :=
      N.min WINDOW_BYTES (N.min (consumer_max_payload_bytes - PROTOCOL_HEADER_RESERVE_BYTES)
                                (provider_max_payload_bytes - PROTOCOL_HEADER_RESERVE_BYTES)) in
    if (negotiated <? MIN_DATA_BODY_BYTES)%N then
      Err (live_error LiveInvalidDataBodyLimit ["receiveMaxPayloadBytes"]
             "negotiated data body limit is below the protocol minimum")
    else Ok negotiated.

(** ** Subjects *)

Definition validate_logical_identity (value field : string) : result unit ProtocolError :=
  if String.eqb value "" || negb (String.eqb (trim value) value) then
    Err (live_error LiveInvalidFormat [field]
           "identity must be a non-empty logical identifier without surrounding whitespace")
  else Ok tt.

Section subjects.
Context `{Base64Url}.

Definition derive_live_data_subject
    (provider_connection_id consumer_connection_id session_id : string) :
    result string ProtocolError :=
  let? _ := validate_logical_identity provider_connection_id "providerConnectionId" in
  let? _ := validate_logical_identity consumer_connection_id "consumerConnectionId" in
  let provider := encode_subject_token provider_connection_id in
  let consumer := encode_subject_token consumer_connection_id in
  let? session := parse_nonce session_id ["sessionId"] in
  Ok ("live.v1.data." +:+ provider +:+ "." +:+ consumer +:+ "." +:+ session).

(** A slice pattern that starts with literals: what comes after them. *)
Fixpoint after (literals tokens : list string) : option (list string) :=
  match literals, tokens with
  | [], _ => Some tokens
  | literal :: literals, token :: tokens =>
      if String.eqb literal token then after literals tokens else None
  | _ :: _, [] => None
  end.

(** The end of [validate_base_subject]: the API and the action of a route.  [decode(..)?]
    and [from_utf8(..)?] fail with the same error. *)
Definition validate_route (base_subject : string) (invalid : ProtocolError) (api_token : string)
    (action : list string) : result string ProtocolError :=
  let? _ := validate_subject_token api_token ["baseSubject"] in
  let? api_id := ok_or (b64_decode api_token) invalid in
  let? _ := reject_if (negb (is_utf8 api_id)) invalid in
  let? _ := map_err (fun _ => invalid) (validate_api_id api_id) in
  let? _ := map_err (fun _ => invalid) (validate_logical_name (join "." action)) in
  Ok base_subject.

Definition validate_base_subject (base_subject : string) (tokens : list string) :
    result string ProtocolError :=
  let invalid := live_error LiveInvalidSubjectToken tokens
                   "base subject must be a canonical Live or Operation route" in
  let parts := split "." base_subject in
  match after ["live"; "v1"; "route"] parts, after ["operation"; "v1"] parts,
        after ["operations"] parts with
  | Some (api_token :: action), _, _ => validate_route base_subject invalid api_token action
  | _, Some (api_token :: deployment_token :: action), _ =>
      let? _ := validate_subject_token deployment_token ["baseSubject"] in
      validate_route base_subject invalid api_token action
  | _, _, Some (version :: action) =>
      let? _ := map_err (fun _ => invalid) (validate_version version) in
      let? _ := map_err (fun _ => invalid) (validate_logical_name (join "." action)) in
      Ok base_subject
  | _, _, _ => Err invalid
  end.

Definition derive_live_observe_subject (base_subject provider_connection_id session_id : string) :
    result string ProtocolError :=
  let? _ := validate_base_subject base_subject ["baseSubject"] in
  let? _ := validate_logical_identity provider_connection_id "providerConnectionId" in
  let provider := encode_subject_token provider_connection_id in
  let? session := parse_nonce session_id ["sessionId"] in
  Ok (base_subject +:+ ".observe." +:+ provider +:+ "." +:+ session).

Definition derive_live_observe_wildcard_subject (base_subject provider_connection_id : string) :
    result string ProtocolError :=
  let? _ := validate_base_subject base_subject ["baseSubject"] in
  let? _ := validate_logical_identity provider_connection_id "providerConnectionId" in
  let provider := encode_subject_token provider_connection_id in
  Ok (base_subject +:+ ".observe." +:+ provider +:+ ".*").

Definition is_data_subject (tokens : list string) : bool :=
  match after ["live"; "v1"; "data"] tokens with
  | Some [provider; consumer; session] =>
      is_canonical_token provider && is_canonical_token consumer
      && is_ok (parse_nonce session ["sessionId"])
  | _ => false
  end.

(** [tokens.len().checked_sub(3)] finds the observe marker from the end. *)
Definition validate_live_subject (subject : string) : result unit ProtocolError :=
  let invalid := live_error LiveInvalidSubjectToken ["subject"]
                   "subject is not a canonical live-session route" in
  let tokens := split "." subject in
  if is_data_subject tokens then Ok tt
  else if negb (bool_decide (default "" (head tokens) ∈ ["live"; "operation"; "operations"])) then
    Err invalid
  else
    match rev tokens with
    | session :: provider :: observe :: base =>
        if negb (String.eqb observe "observe") then Err invalid
        else
          let? _ := validate_base_subject (join "." (rev base)) ["subject"] in
          if is_ok (parse_nonce session ["sessionId"])
             && is_ok (validate_subject_token provider ["subject"])
          then Ok tt
          else Err invalid
    | _ => Err invalid
    end.
End subjects.

(** ** Proofs and hashes *)

Inductive LiveSessionKind := SessionStandalone | SessionOperation.

Global Instance LiveSessionKind_eq_dec : EqDecision LiveSessionKind.
Proof. solve_decision. Defined.

(** [LiveSessionKind::as_str] *)
Definition session_kind_str (k : LiveSessionKind) : string :=
  match k with SessionStandalone => "standalone" | SessionOperation => "operation" end.

Record LogicalOpenIdentity := mkLogicalOpenIdentity {
  open_kind : LiveSessionKind;
  open_base_subject : string;
  open_id : string;
  open_connection_id : string;
  open_session_key : string;
  open_principal_id : string;
  open_binding : SessionBinding;
  open_receive_max_payload_bytes : N;
  open_live_input : option Json;
  open_operation_id : option string;
  open_include_updates : option bool;
}.

Definition logical_open_json (i : LogicalOpenIdentity) : Json :=
  object [("kind", JString (session_kind_str (open_kind i)));
          ("baseSubject", JString (open_base_subject i));
          ("openId", JString (open_id i));
          ("receiveMaxPayloadBytes", JNumber (PosInt (open_receive_max_payload_bytes i)));
          ("consumer", object [("connectionId", JString (open_connection_id i));
                               ("sessionKey", JString (open_session_key i));
                               ("principalId", JString (open_principal_id i));
                               ("binding", binding_json (open_binding i))]);
          ("input", default JNull (open_live_input i));
          ("operationId", default JNull (JString <$> open_operation_id i));
          ("includeUpdates", JBool (default false (open_include_updates i)))].

Local Existing Instance json_tree.

Section proofs.
Context `{Base64Url, Sha256, Ed25519, !CanonicalJson}.

(** [decode_base64url::<N>] *)
Definition decode_base64url (n : nat) (encoded : string) (tokens : list string)
    (code : LiveProtocolErrorCode) : result string ProtocolError :=
  let? bytes := ok_or (b64_decode encoded)
                  (live_error code tokens "value is not canonical unpadded base64url") in
  if negb (Nat.eqb (String.length bytes) n) then
    Err (live_error code tokens "decoded value has the wrong length")
  else Ok bytes.

(** [LiveServerProof::parse] *)
Definition parse_live_proof (encoded : string) : result string ProtocolError :=
  let? _ := decode_base64url 64 encoded ["trellis-live-proof"] LiveInvalidSignature in
  Ok encoded.

(** The digest of [build_live_server_proof_input]. *)
Definition build_live_server_proof_input (context_digest subject raw_body : string) :
    result string ProtocolError :=
  let? context := decode_base64url 32 context_digest ["authorization-context"] LiveInvalidFormat in
  transcript_digest
    (live_error LiveInvalidFormat ["proof"]
       "proof component exceeds the unsigned 32-bit length-prefix range")
    [LIVE_SERVER_PROOF_DOMAIN_V1; context; subject; sha256 raw_body].

Definition sign_live_server_proof (context_digest subject raw_body : string) (key : SigningKey) :
    result string ProtocolError :=
  let? digest := build_live_server_proof_input context_digest subject raw_body in
  Ok (b64_encode (sign key digest)).

Definition verify_live_server_proof (proof context_digest subject raw_body : string)
    (key : VerifyingKey) : result unit ProtocolError :=
  let? digest := build_live_server_proof_input context_digest subject raw_body in
  let? signature := decode_base64url 64 proof ["trellis-live-proof"] LiveInvalidSignature in
  if verify_strict key digest signature then Ok tt
  else Err (live_error LiveInvalidSignature ["trellis-live-proof"]
              "provider server-message signature verification failed").

Definition verify_live_server_proof_encoded
    (proof context_digest subject raw_body provider_key : string) : result unit ProtocolError :=
  let? bytes := decode_base64url 32 provider_key ["session-key"] LiveInvalidSignature in
  let? key := ok_or (verifying_key_from_bytes bytes)
                (live_error LiveInvalidSignature ["session-key"]
                   "provider runtime public key is malformed") in
  verify_live_server_proof proof context_digest subject raw_body key.

Definition live_server_proof_digest (context_digest subject raw_body : string) :
    result string ProtocolError :=
  let? digest := build_live_server_proof_input context_digest subject raw_body in
  Ok (b64_encode digest).

Definition logical_open_hash (i : LogicalOpenIdentity) : result string ProtocolError :=
  let? _ := parse_nonce (open_id i) ["openId"] in
  let? _ := validate_logical_identity (open_connection_id i) "consumerConnectionId" in
  let? _ := validate_subject_token (open_session_key i) ["consumerSessionKey"] in
  let? _ := validate_logical_identity (open_principal_id i) "consumerPrincipalId" in
  let? _ := reject_if (bool_decide (open_kind i = SessionStandalone)
                       && bool_decide (open_live_input i = None))
              (live_error LiveInvalidFormat ["input"]
                 "Live open identity requires the native input value") in
  let? _ := reject_if (bool_decide (open_kind i = SessionOperation)
                       && String.eqb (default "" (open_operation_id i)) "")
              (live_error LiveInvalidFormat ["operationId"]
                 "Operation watch identity requires a durable operation id") in
  digest_json (logical_open_json i).

Definition logical_control_hash (c : LiveControl) : result string ProtocolError :=
  digest_json (control_json c).
End proofs.

(** ** Round trips *)

Lemma control_counter n : (n <= u64_max)%N -> counter_value (counter_json n) = Ok n.
Proof.
  intros Hn. unfold counter_value, counter_json, u64s. cbn [string_value].
  by rewrite (proj2 (parse_u64s_ok (decimal n) _ n)) by done.
Qed.

Lemma close_reason_value r : enum_value close_reason_str close_reasons
  (JString (close_reason_str r)) = Ok r.
Proof. by destruct r. Qed.

Lemma end_reason_value r : enum_value end_reason_str end_reasons
  (JString (end_reason_str r)) = Ok r.
Proof. by destruct r. Qed.

Lemma error_code_value c : enum_value error_code_str error_codes
  (JString (error_code_str c)) = Ok c.
Proof. by destruct c. Qed.

(** The counters are 64-bit numbers. *)
Definition control_fits (c : LiveControl) : Prop :=
  let b := control_body c in
  (control_sequence b <= u64_max /\ control_received b <= u64_max /\
   control_consumed b <= u64_max)%N /\
  match c with ControlEndAck _ final_seq => (final_seq <= u64_max)%N | _ => True end.

Definition frame_fits (f : LiveFrame) : Prop :=
  match f with
  | FrameData _ n _ | FrameChallenge _ _ n | FrameEnd _ n _ => (n <= u64_max)%N
  end.

(** [decode_object] reads the members of a serialized object. *)
Ltac decode_object :=
  lazymatch goal with
  | |- context [struct_members ?fields ?n (object ?members)] =>
      let Hs := fresh "Hs" in let Hm := fresh "Hm" in
      destruct (struct_members_object fields n members) as (? & Hs & Hm);
      [reflexivity|rewrite Hs; clear Hs; unfold member, optional_member; cbn [fst snd];
                   rewrite !Hm]
  end.

Lemma terminal_error_roundtrip e : terminal_error_value (terminal_error_json e) = Ok e.
Proof.
  destruct e as [code message [trace|]]; unfold terminal_error_value, terminal_error_json;
    cbn [terminal_code terminal_message terminal_trace_id optional app]; decode_object;
    cbn [map_get String.eqb Ascii.eqb Bool.eqb]; by rewrite error_code_value.
Qed.

Lemma terminal_roundtrip t : terminal_value (wire_terminal_json t) = Ok t.
Proof.
  destruct t as [reason [e|]]; unfold terminal_value, wire_terminal_json;
    cbn [terminal_reason terminal_error fmap option_fmap option_map default]; decode_object;
    cbn [map_get String.eqb Ascii.eqb Bool.eqb]; rewrite end_reason_value; [|done].
  pose proof (terminal_error_roundtrip e) as He.
  unfold id. destruct (terminal_error_json e); rewrite ?He; done.
Qed.

(** [read_members] evaluates the lookups of a serialized object. *)
Ltac read_members :=
  cbn [map_get String.eqb Ascii.eqb Bool.eqb app body_json control_body control_format
       control_session control_sequence control_received control_consumed string_value any_value];
  rewrite ?control_counter, ?close_reason_value, ?terminal_roundtrip by done;
  cbn [literal_value enum_value named offer_kinds offer_kind_str String.eqb Ascii.eqb Bool.eqb
       ok_or fst snd].

Lemma decode_control_json c :
  control_fits c -> decode_control (live_action c) (control_json c) = Ok c.
Proof.
  intros [(? & ? & ?) Hfin].
  destruct c as [[]|[] challenge|[]|[] reason|[] final]; cbn in * |-;
    unfold control_json; cbn [live_action];
    unfold decode_control; cbn [String.eqb Ascii.eqb Bool.eqb];
    unfold activate_value, pulse_value, ack_value, close_value, end_ack_value, control_value, body_value;
    cbn [app body_fields List.length]; decode_object; read_members;
    rewrite ?Hm; by read_members.
Qed.

Lemma decode_frame_json f length bound :
  frame_fits f ->
  (length <= match f with FrameData _ _ _ => bound | _ => MAX_CONTROL_BODY_BYTES end)%N ->
  decode_frame (match f with FrameData _ _ _ => "data" | FrameChallenge _ _ _ => "challenge"
                | FrameEnd _ _ _ => "end" end) length bound (frame_json f) = Ok f.
Proof.
  intros Hfit Hlen%N.ltb_ge. destruct f; cbn in Hfit; unfold decode_frame, frame_json;
    cbn [String.eqb Ascii.eqb Bool.eqb frame_session]; rewrite Hlen;
    unfold data_value, challenge_value, end_value, frame_value;
    cbn [app List.length]; decode_object; read_members;
    rewrite ?Hm; by read_members.
Qed.

Lemma counter_unique n m : counter_value (counter_json n) = Ok m -> m = n.
Proof.
  unfold counter_value, counter_json, u64s. cbn [string_value]. intros Hm. apply map_err_ok in Hm.
  apply parse_u64s_ok in Hm as [Hd _]. by apply decimal_inj in Hd.
Qed.

(** [read_counters H] reads the counters of the object [H] decodes. *)
Ltac read_counters H :=
  repeat match type of H with
  | context [counter_value (counter_json ?n)] =>
      let E := fresh "E" in
      destruct (counter_value (counter_json n)) eqn:E; [apply counter_unique in E as ->|done];
      cbn [map_err] in H
  end.

(** Whatever is read from a serialized body is what was written. *)
Lemma decode_frame_unique f f' length bound :
  decode_frame (match f with FrameData _ _ _ => "data" | FrameChallenge _ _ _ => "challenge"
                | FrameEnd _ _ _ => "end" end) length bound (frame_json f) = Ok f' -> f' = f.
Proof.
  destruct f; unfold decode_frame, frame_json; cbn [String.eqb Ascii.eqb Bool.eqb frame_session];
    (destruct (_ <? _)%N; [done|]);
    unfold data_value, challenge_value, end_value, frame_value;
    cbn [app List.length]; decode_object; read_members; rewrite ?Hm;
    read_members; intros Hd; read_counters Hd; by injection Hd.
Qed.

Lemma decode_control_unique c c' :
  decode_control (live_action c) (control_json c) = Ok c' -> c' = c.
Proof.
  destruct c as [[]|[] challenge|[]|[] reason|[] final];
    unfold control_json; cbn [live_action];
    unfold decode_control; cbn [String.eqb Ascii.eqb Bool.eqb];
    unfold activate_value, pulse_value, ack_value, close_value, end_ack_value, control_value, body_value;
    cbn [app body_fields List.length]; decode_object; read_members; rewrite ?Hm;
    read_members; intros Hd; read_counters Hd; rewrite ?Hm in Hd;
    cbn [map_get String.eqb Ascii.eqb Bool.eqb app string_value fst snd] in Hd;
    rewrite ?close_reason_value in Hd; read_counters Hd; by injection Hd.
Qed.

Section roundtrips.
Context `{Base64Url, !JsonCodec Json, !JsonCodecLaws Json}.

Lemma raw_bounds (raw : string) bound :
  raw <> "" -> (N.of_nat (String.length raw) <= bound)%N ->
  String.eqb raw "" || (bound <? N.of_nat (String.length raw))%N = false.
Proof. intros Hr Hl. apply orb_false_iff. split; [by apply String.eqb_neq|by apply N.ltb_ge]. Qed.

(** A control that [validate] accepts is read back from what it is written as. *)
Lemma control_roundtrip c raw :
  validate_live_control c = Ok tt -> control_fits c ->
  control_format (control_body c) = LIVE_VERSION ->
  to_vec (control_json c) = Ok raw -> raw <> "" ->
  (N.of_nat (String.length raw) <= MAX_CONTROL_BODY_BYTES)%N ->
  parse_live_control raw = Ok c.
Proof.
  intros Hv Hfit Hf Hraw Hne Hlen. unfold parse_live_control, validate_control_body.
  rewrite raw_bounds, (from_slice_to_vec _ _ Hraw) by done. cbn [map_err].
  assert (text_of "format" (control_json c) = Some LIVE_VERSION) as ->.
  { unfold text_of, control_json. rewrite get_object. destruct c; cbn in *; congruence. }
  assert (text_of "action" (control_json c) = Some (live_action c)) as ->.
  { unfold text_of, control_json. by rewrite get_object. }
  cbn [default from_option]. unfold id. rewrite String.eqb_refl, decode_control_json by done.
  cbn [negb]. by rewrite Hv.
Qed.

Lemma frame_roundtrip f raw bound :
  validate_frame f = Ok tt -> frame_fits f -> to_vec (frame_json f) = Ok raw -> raw <> "" ->
  (N.of_nat (String.length raw) <=
     match f with FrameData _ _ _ => bound | _ => MAX_CONTROL_BODY_BYTES end)%N ->
  parse_live_frame raw bound = Ok f.
Proof.
  intros Hv Hfit Hraw Hne Hlen. unfold parse_live_frame.
  rewrite raw_bounds, (from_slice_to_vec _ _ Hraw) by (try done; destruct f; lia). cbn [map_err].
  assert (text_of "format" (frame_json f) = Some LIVE_VERSION) as ->
    by (unfold text_of, frame_json; destruct f; by rewrite get_object).
  assert (text_of "type" (frame_json f) = Some (match f with FrameData _ _ _ => "data"
    | FrameChallenge _ _ _ => "challenge" | FrameEnd _ _ _ => "end" end)) as ->
    by (unfold text_of, frame_json; destruct f; by rewrite get_object).
  cbn [default from_option]. unfold id. rewrite String.eqb_refl, decode_frame_json by done.
  cbn [negb]. by rewrite Hv.
Qed.

Lemma parse_control_unique c c' raw :
  to_vec (control_json c) = Ok raw -> parse_live_control raw = Ok c' -> c' = c.
Proof.
  intros Hraw. unfold parse_live_control. rewrite (from_slice_to_vec _ _ Hraw).
  destruct (validate_control_body raw); [|done]. cbn [map_err].
  assert (text_of "action" (control_json c) = Some (live_action c)) as ->.
  { unfold text_of, control_json. by rewrite get_object. }
  destruct (negb _); [done|]. cbn [default from_option]. unfold id.
  destruct (decode_control _ _) as [d|] eqn:Hd; [|done]. apply decode_control_unique in Hd as ->.
  destruct (validate_live_control c); [|done]. by intros [= <-].
Qed.

Lemma parse_frame_unique f f' raw bound :
  to_vec (frame_json f) = Ok raw -> parse_live_frame raw bound = Ok f' -> f' = f.
Proof.
  intros Hraw. unfold parse_live_frame. rewrite (from_slice_to_vec _ _ Hraw).
  destruct (_ || _); [done|]. cbn [map_err].
  assert (text_of "type" (frame_json f) = Some (match f with FrameData _ _ _ => "data"
    | FrameChallenge _ _ _ => "challenge" | FrameEnd _ _ _ => "end" end)) as ->
    by (unfold text_of, frame_json; destruct f; by rewrite get_object).
  destruct (negb _); [done|]. cbn [default from_option]. unfold id.
  destruct (decode_frame _ _ _ _) as [d|] eqn:Hd; [|done]. apply decode_frame_unique in Hd as ->.
  destruct (validate_frame f); [|done]. by intros [= <-].
Qed.
End roundtrips.

(** ** Hashes and proofs *)

Lemma control_json_plain c : json_plain (control_json c).
Proof. destruct c; unfold control_json, body_json, counter_json; cbn [app]; plain. Qed.

Lemma u64s_inj n m : u64s n = u64s m -> n = m.
Proof. apply decimal_inj. Qed.

Lemma close_reason_str_inj r r' : close_reason_str r = close_reason_str r' -> r = r'.
Proof. by destruct r, r'. Qed.

(** The same objects are the same controls. *)
Lemma control_json_same c c' : json_same (control_json c) (control_json c') -> c = c'.
Proof.
  intros Hs. unfold control_json in Hs. member "action" of Hs as Ha.
  assert (control_body c = control_body c') as Hb.
  { optional_member "receivedSeq" of Hs as H1. optional_member "consumedSeq" of Hs as H2.
    optional_member "format" of Hs as H3. optional_member "sessionId" of Hs as H4.
    optional_member "controlSeq" of Hs as H5. clear Hs.
    destruct c as [[]|[] ?|[]|[] ?|[] ?], c' as [[]|[] ?|[]|[] ?|[] ?]; try done; cbn in *;
      apply u64s_inj in H1, H2, H5; subst; done. }
  destruct c as [b|b ch|b|b r|b n], c' as [b'|b' ch'|b'|b' r'|b' n']; try done; cbn in Hb; subst b'.
  - done.
  - member "challengeId" of Hs as H1. by subst.
  - done.
  - member "reason" of Hs as H1. by apply close_reason_str_inj in H1 as ->.
  - member "finalSeq" of Hs as H1. by apply u64s_inj in H1 as ->.
Qed.

Section binding.
Context `{Base64UrlLaws, Sha256, Ed25519, !CanonicalJson, !CanonicalJsonLaws}.

(** A control is determined by its logical hash. *)
Lemma control_hash_binds c c' hash :
  logical_control_hash c = Ok hash -> logical_control_hash c' = Ok hash ->
  c = c' \/ sha256_collision.
Proof.
  intros Hc Hc'. destruct (control_json_plain c) as [Hs He], (control_json_plain c') as [Hs' He'].
  unfold logical_control_hash, digest_json, canonicalize_json in Hc, Hc'.
  peel Hc as t Ht. peel Hc' as t' Ht'. injection Hc as <-. injection Hc' as Heq.
  assert (Some (sha256 t') = Some (sha256 t)) as [= Hd].
  { unfold sha256_base64url in Heq. by rewrite <- !b64_decode_encode, Heq. }
  destruct (sha256_binds _ _ Hd) as [->|]; [|by right]. left.
  apply control_json_same. by eapply canonical_text_same.
Qed.

Lemma decode_base64url_ok n encoded tokens code bytes :
  decode_base64url n encoded tokens code = Ok bytes <->
  b64_decode encoded = Some bytes /\ String.length bytes = n.
Proof.
  unfold decode_base64url. rewrite let_ok. split.
  - intros (b & Hb%ok_or_ok & Hl). destruct (Nat.eqb_spec (String.length b) n); [|done].
    by injection Hl as ->.
  - intros [Hd <-]. exists bytes. rewrite ok_or_ok, Nat.eqb_refl. done.
Qed.

(** What the provider signs binds the authority, the subject and every byte of the body. *)
Lemma live_proof_binds ctx subject body ctx' subject' body' digest :
  build_live_server_proof_input ctx subject body = Ok digest ->
  build_live_server_proof_input ctx' subject' body' = Ok digest ->
  (b64_decode ctx = b64_decode ctx' /\ subject = subject' /\ body = body') \/ sha256_collision.
Proof.
  unfold build_live_server_proof_input. intros Hd Hd'.
  peel Hd as context Hc. peel Hd' as context' Hc'.
  apply decode_base64url_ok in Hc as [Hc _], Hc' as [Hc' _].
  destruct (transcript_digest_binds _ _ _ _ _ Hd Hd') as [Heq|]; [|by right].
  components Heq. subst. destruct (sha256_binds _ _ E2) as [->|]; [|by right].
  left. split_and!; congruence.
Qed.

Lemma live_proof_verifies `{!Ed25519Laws} ctx subject body key proof :
  sign_live_server_proof ctx subject body key = Ok proof ->
  parse_live_proof proof = Ok proof /\
  verify_live_server_proof_encoded proof ctx subject body
    (b64_encode (verifying_key_to_bytes (verifying_key key))) = Ok tt.
Proof.
  unfold sign_live_server_proof. intros Hs. peel Hs as digest Hd. injection Hs as <-.
  assert (forall tokens code, decode_base64url 64 (b64_encode (sign key digest)) tokens code =
    Ok (sign key digest)) as Hsig.
  { intros. apply decode_base64url_ok. by rewrite b64_decode_encode, sign_length. }
  unfold parse_live_proof, verify_live_server_proof_encoded, verify_live_server_proof.
  rewrite Hsig. split; [done|].
  rewrite (proj2 (decode_base64url_ok 32 _ _ _ (verifying_key_to_bytes (verifying_key key)))) by
    by rewrite b64_decode_encode, verifying_key_length.
  rewrite verifying_key_bytes, Hd. cbn [ok_or]. by rewrite verify_sign.
Qed.
End binding.

(** ** Subjects *)

Section subject_lemmas.
Context `{Base64UrlLaws}.

Lemma validate_route_ok base e api action text :
  validate_route base e api action = Ok text ->
  text = base /\ forall e', validate_route base e' api action = Ok base.
Proof.
  unfold validate_route. intros Hv. peel Hv as t Ht. peel Hv as api_id Hapi.
  peel Hv as Hu. peel Hv as u Hn. peel Hv as u' Hl. injection Hv as <-. split; [done|].
  intros e'. rewrite Ht, Hapi. cbn [ok_or]. rewrite Hu, Hn, Hl. done.
Qed.

Lemma after_Some literals tokens rest :
  after literals tokens = Some rest -> tokens = (literals ++ rest)%list.
Proof.
  revert tokens. induction literals as [|l literals IH]; intros [|t tokens]; cbn; try congruence.
  destruct (String.eqb_spec l t) as [->|]; [|done]. intros ->%IH. done.
Qed.

Lemma validate_base_subject_ok base tokens text :
  validate_base_subject base tokens = Ok text ->
  text = base /\ (forall tokens', validate_base_subject base tokens' = Ok base) /\
  default "" (head (split "." base)) ∈ ["live"; "operation"; "operations"].
Proof.
  unfold validate_base_subject.
  destruct (after ["live"; "v1"; "route"] (split "." base)) as [[|api action]|] eqn:Hl.
  2: { intros [-> Hv]%validate_route_ok. apply after_Some in Hl as ->.
       split_and!; [done|intros; apply Hv|cbn; set_solver]. }
  all: destruct (after ["operation"; "v1"] (split "." base)) as [[|api [|deployment action]]|] eqn:Ho.
  3, 7: intros Hv; peel Hv as t Ht; apply validate_route_ok in Hv as [-> Hv];
    apply after_Some in Ho as ->; rewrite Ht;
    split_and!; [done|intros; apply Hv|cbn; set_solver].
  all: destruct (after ["operations"] (split "." base)) as [[|version action]|] eqn:Hs; try done.
  all: intros Hv; peel Hv as u Hver; peel Hv as u' Hname; injection Hv as <-;
    apply after_Some in Hs as ->; split_and!; [done| |cbn; set_solver];
    intros; by rewrite Hver, Hname.
Qed.

Lemma nonce_no_dot id tokens : parse_nonce id tokens = Ok id -> contains_char "." id = false.
Proof.
  intros (_ & bytes & _ & ->)%parse_nonce_ok. by apply (subject_token_excludes "." bytes).
Qed.

Lemma logical_identity_nonempty value field :
  validate_logical_identity value field = Ok tt -> value <> "".
Proof. unfold validate_logical_identity. by intros Hv ->. Qed.

Lemma derive_data_ok p c s subject :
  derive_live_data_subject p c s = Ok subject ->
  p <> "" /\ c <> "" /\ parse_nonce s ["sessionId"] = Ok s /\
  split "." subject = ["live"; "v1"; "data"; subject_token p; subject_token c; s].
Proof.
  unfold derive_live_data_subject, encode_subject_token. intros Hd.
  peel Hd as u Hp. destruct u. peel Hd as u Hc. destruct u. peel Hd as s' Hs. apply ok_inj in Hd as <-.
  pose proof Hs as [-> _]%parse_nonce_ok.
  split_and!; [by eapply logical_identity_nonempty..|done|].
  assert (forall t, split "." ("live.v1.data." +:+ t) = "live" :: "v1" :: "data" :: split "." t)
    as -> by reflexivity.
  by rewrite !split_subject_token, split_word by by eapply nonce_no_dot.
Qed.

Lemma derive_observe_ok base p s subject :
  derive_live_observe_subject base p s = Ok subject ->
  p <> "" /\ validate_base_subject base ["baseSubject"] = Ok base /\
  parse_nonce s ["sessionId"] = Ok s /\
  split "." subject = (split "." base ++ ["observe"; subject_token p; s])%list.
Proof.
  unfold derive_live_observe_subject, encode_subject_token. intros Hd.
  peel Hd as b Hb. pose proof Hb as (-> & _)%validate_base_subject_ok.
  peel Hd as u Hp. destruct u. peel Hd as s' Hs. apply ok_inj in Hd as <-.
  pose proof Hs as [-> _]%parse_nonce_ok.
  split_and!; [by eapply logical_identity_nonempty|done..|].
  change (".observe." +:+ subject_token p +:+ "." +:+ s) with
    (String "." ("observe" +:+ "." +:+ subject_token p +:+ "." +:+ s)).
  rewrite split_sep. f_equal.
  assert (forall t, split "." ("observe" +:+ "." +:+ t) = "observe" :: split "." t)
    as -> by reflexivity.
  by rewrite !split_subject_token, split_word by by eapply nonce_no_dot.
Qed.

Lemma subject_token_valid p tokens :
  p <> "" -> is_utf8 p = true -> is_ok (validate_subject_token (subject_token p) tokens) = true.
Proof.
  intros Hne Hu. by rewrite (proj2 (validate_subject_token_ok _ tokens (subject_token p)))
    by eauto 6.
Qed.

(** The subjects of a session are canonical live subjects, and each belongs to one session:
    the delivery subject determines both connections and the session, the control subject
    the route, the provider's connection and the session. *)
Theorem live_subjects_exact :
  (forall p c s subject, derive_live_data_subject p c s = Ok subject ->
     validate_live_subject subject = Ok tt /\
     forall p' c' s', derive_live_data_subject p' c' s' = Ok subject ->
       p' = p /\ c' = c /\ s' = s) /\
  (forall base p s subject, is_utf8 p = true -> derive_live_observe_subject base p s = Ok subject ->
     validate_live_subject subject = Ok tt /\
     forall base' p' s', derive_live_observe_subject base' p' s' = Ok subject ->
       base' = base /\ p' = p /\ s' = s).
Proof.
  split.
  - intros p c s subject (Hp & Hc & Hs & Hsplit)%derive_data_ok. split.
    + unfold validate_live_subject. rewrite Hsplit. unfold is_data_subject.
      cbn [after String.eqb Ascii.eqb Bool.eqb].
      rewrite !(proj2 (is_canonical_token_ok _)) by eauto. by rewrite Hs.
    + intros p' c' s' (_ & _ & _ & Hsplit')%derive_data_ok. rewrite Hsplit in Hsplit'.
      injection Hsplit' as Hp' Hc' ->. by apply subject_token_inj in Hp' as ->, Hc' as ->.
  - intros base p s subject Hu (Hp & Hb & Hs & Hsplit)%derive_observe_ok. split.
    + pose proof Hb as (_ & Hb' & Hin)%validate_base_subject_ok.
      unfold validate_live_subject. rewrite Hsplit. destruct (is_data_subject _); [done|].
      rewrite bool_decide_true
        by (destruct (split "." base) eqn:He; [by apply split_nonempty in He|done]).
      rewrite rev_app_distr. cbn [rev app negb]. rewrite rev_involutive, join_split, Hb', Hs.
      by rewrite subject_token_valid by done.
    + intros base' p' s' (_ & _ & _ & Hsplit')%derive_observe_ok. rewrite Hsplit in Hsplit'.
      apply app_inj_2 in Hsplit' as [Hbase Htail]; [|done]. injection Htail as Hp' ->.
      apply split_inj in Hbase as ->. by apply subject_token_inj in Hp' as ->.
Qed.
End subject_lemmas.
