(* ===== verification/LiveDeadlines.v ===== *)
(** * Live session deadlines

    The deadline reducer of [crates/trellis/src/live/deadlines.rs].  Instants and durations
    are nanoseconds of the monotonic clock, which does not reach the end of its range. *)

From Stdlib Require Import String.
From S2P Require Import Prelude DataPlane Live.

Local Open Scope N_scope.

Definition TOMBSTONE_MS : N := 60000.
Definition ACK_MAX_DELAY_MS : N := 50.
Definition ACK_FRAME_THRESHOLD : N := 16.

(** [Duration::from_millis] *)
Definition millis (n : N) : N := n * 1000000.

Inductive LiveDeadlinePhase :=
| DlOffered
| DlPrepared
| DlActivating
| DlActive
| DlDraining
| DlClosing
| DlClosed.

Inductive DeadlineAction :=
| ReservationExpired
| ChallengeDue
| ChallengeRetry
| PeerInactive
| ConsumerStalled
| CreditDue
| CloseExchangeElapsed
| CleanupGraceElapsed.

Global Instance LiveDeadlinePhase_eq_dec : EqDecision LiveDeadlinePhase.
Proof. solve_decision. Defined.
Global Instance DeadlineAction_eq_dec : EqDecision DeadlineAction.
Proof. solve_decision. Defined.

Record LiveDeadlines := mkLiveDeadlines {
  dl_phase : LiveDeadlinePhase;
  reservation_until : option N;
  last_fresh_round_trip_at : option N;
  next_challenge_at : option N;
  challenge_retry_at : option N;
  outstanding_challenge : option string;
  unconsumed_since : option N;
  last_consumption_at : option N;
  dl_credit : Credit.CreditScheduler;
  close_until : option N;
  cleanup_until : option N;
  tombstone_until : option N;
  dl_generation : N;
}.

Global Instance LiveDeadlines_settable : Settable LiveDeadlines := fun d =>
  mkLiveDeadlines (dl_phase d) (reservation_until d) (last_fresh_round_trip_at d)
    (next_challenge_at d) (challenge_retry_at d) (outstanding_challenge d) (unconsumed_since d)
    (last_consumption_at d) (dl_credit d) (close_until d) (cleanup_until d) (tombstone_until d)
    (dl_generation d).

Definition with_phase (now : N) (phase : LiveDeadlinePhase) : LiveDeadlines := {|
  dl_phase := phase;
  reservation_until := Some (now + millis OPEN_RESERVATION_MS);
  last_fresh_round_trip_at := None;
  next_challenge_at := None;
  challenge_retry_at := None;
  outstanding_challenge := None;
  unconsumed_since := None;
  last_consumption_at := None;
  dl_credit := Credit.new_scheduler
    {| Credit.frame_step := ACK_FRAME_THRESHOLD; Credit.byte_step := None;
       Credit.max_delay := millis ACK_MAX_DELAY_MS |};
  close_until := None;
  cleanup_until := None;
  tombstone_until := None;
  dl_generation := 0;
|}.

Definition reserved (now : N) : LiveDeadlines := with_phase now DlOffered.
Definition prepared (now : N) : LiveDeadlines := with_phase now DlPrepared.

Definition prepared_until (deadline : N) : LiveDeadlines :=
  with_phase deadline DlPrepared <| reservation_until := Some deadline |>.

Definition begin_activating (d : LiveDeadlines) (now : N) (challenge_id : string) : LiveDeadlines :=
  d <| dl_phase := DlActivating |>
    <| outstanding_challenge := Some challenge_id |>
    <| challenge_retry_at := Some (now + millis CHALLENGE_RETRY_MS) |>.

Definition commit_active (d : LiveDeadlines) (now : N) (provider : bool) : LiveDeadlines :=
  d <| dl_phase := DlActive |>
    <| reservation_until := None |>
    <| last_fresh_round_trip_at := Some now |>
    <| outstanding_challenge := None |>
    <| challenge_retry_at := None |>
    <| next_challenge_at := if provider then Some (now + millis HEARTBEAT_INTERVAL_MS) else None |>.

Definition fresh_round_trip (d : LiveDeadlines) (now : N) (provider : bool) : LiveDeadlines :=
  let d := d <| last_fresh_round_trip_at := Some now |>
             <| outstanding_challenge := None |>
             <| challenge_retry_at := None |> in
  if provider then d <| next_challenge_at := Some (now + millis HEARTBEAT_INTERVAL_MS) |> else d.

Definition begin_challenge (d : LiveDeadlines) (now : N) (challenge_id : string) : LiveDeadlines :=
  d <| outstanding_challenge := Some challenge_id |>
    <| challenge_retry_at := Some (now + millis CHALLENGE_RETRY_MS) |>
    <| next_challenge_at := None |>.

Definition rearm_challenge_retry (d : LiveDeadlines) (now : N) : LiveDeadlines :=
  match outstanding_challenge d with
  | Some _ => d <| challenge_retry_at := Some (now + millis CHALLENGE_RETRY_MS) |>
  | None => d
  end.

Definition data_admitted (d : LiveDeadlines) (now : N) : LiveDeadlines :=
  match unconsumed_since d with
  | None => d <| unconsumed_since := Some now |>
  | Some _ => d
  end.

Definition note_consumption (d : LiveDeadlines) (now newly_consumed : N) : LiveDeadlines :=
  d <| last_consumption_at := Some now |>
    <| dl_credit := Credit.note_pending (dl_credit d) now newly_consumed 0 |>.

Definition note_stall_reset (d : LiveDeadlines) (now : N) : LiveDeadlines :=
  d <| last_consumption_at := Some now |>.

Definition mark_cleanup_grace_elapsed (d : LiveDeadlines) : LiveDeadlines :=
  d <| cleanup_until := None |>.

Definition outstanding_cleared (d : LiveDeadlines) : LiveDeadlines :=
  d <| unconsumed_since := None |>.

Definition credit_sent (d : LiveDeadlines) : LiveDeadlines :=
  d <| dl_credit := Credit.clear (dl_credit d) |>.

Definition begin_draining (d : LiveDeadlines) : LiveDeadlines :=
  d <| dl_phase := DlDraining |>
    <| reservation_until := None |>
    <| next_challenge_at := None |>
    <| challenge_retry_at := None |>
    <| outstanding_challenge := None |>.

Definition begin_closing (d : LiveDeadlines) (now : N) : LiveDeadlines :=
  d <| dl_phase := DlClosing |>
    <| dl_credit := Credit.clear (dl_credit d) |>
    <| next_challenge_at := None |>
    <| challenge_retry_at := None |>
    <| close_until := Some (now + millis CLOSE_EXCHANGE_MS) |>
    <| cleanup_until := Some (now + millis CLEANUP_GRACE_MS) |>.

(** [LiveDeadlines::closed] *)
Definition dl_closed (d : LiveDeadlines) (now : N) : LiveDeadlines :=
  d <| dl_phase := DlClosed |>
    <| reservation_until := None |>
    <| last_fresh_round_trip_at := None |>
    <| next_challenge_at := None |>
    <| challenge_retry_at := None |>
    <| outstanding_challenge := None |>
    <| unconsumed_since := None |>
    <| dl_credit := Credit.clear (dl_credit d) |>
    <| close_until := None |>
    <| cleanup_until := None |>
    <| tombstone_until := Some (now + millis TOMBSTONE_MS) |>
    <| dl_generation := wrapping_add_u64 (dl_generation d) 1 |>.

(** [is_some_and(|until| now >= until)] *)
Definition elapsed (deadline : option N) (now : N) : bool :=
  match deadline with Some until => until <=? now | None => false end.

Definition tombstone_expired (d : LiveDeadlines) (now : N) : bool :=
  elapsed (tombstone_until d) now.

Definition peer_deadline (d : LiveDeadlines) : option N :=
  (fun at_ => at_ + millis PEER_INACTIVITY_MS) <$> last_fresh_round_trip_at d.

Definition consumption_deadline (d : LiveDeadlines) : option N :=
  first_outstanding ← unconsumed_since d;
  let last_progress :=
    match last_consumption_at d with
    | Some last => N.max first_outstanding last
    | None => first_outstanding
    end in
  Some (last_progress + millis CONSUMER_STALL_MS).

(** The closure [consider] of [next_due]. *)
Definition consider (due candidate : option N) : option N :=
  match candidate, due with
  | Some candidate, Some current => Some (N.min current candidate)
  | Some candidate, None => Some candidate
  | None, _ => due
  end.

Definition next_due (d : LiveDeadlines) : option N :=
  match dl_phase d with
  | DlOffered | DlPrepared | DlActivating =>
      foldl consider None [reservation_until d; challenge_retry_at d]
  | DlActive =>
      foldl consider None
        [challenge_retry_at d; next_challenge_at d; peer_deadline d; consumption_deadline d;
         Credit.next_due (dl_credit d)]
  | DlDraining => consider None (consumption_deadline d)
  | DlClosing => foldl consider None [close_until d; cleanup_until d]
  | DlClosed => None
  end.

Definition evaluate (d : LiveDeadlines) (now : N) : option DeadlineAction :=
  match dl_phase d with
  | DlOffered | DlPrepared | DlActivating =>
      if elapsed (reservation_until d) now then Some ReservationExpired
      else if elapsed (challenge_retry_at d) now then Some ChallengeRetry
      else None
  | DlActive =>
      if elapsed (peer_deadline d) now then Some PeerInactive
      else if elapsed (consumption_deadline d) now then Some ConsumerStalled
      else if elapsed (challenge_retry_at d) now then Some ChallengeRetry
      else if elapsed (next_challenge_at d) now then Some ChallengeDue
      else if Credit.is_due (dl_credit d) now then Some CreditDue
      else None
  | DlDraining => if elapsed (consumption_deadline d) now then Some ConsumerStalled else None
  | DlClosing =>
      if elapsed (close_until d) now then Some CloseExchangeElapsed
      else if elapsed (cleanup_until d) now then Some CleanupGraceElapsed
      else None
  | DlClosed => None
  end.

(** ** The timer wakes exactly when something is due *)

Lemma elapsed_consider due candidate now :
  elapsed (consider due candidate) now = elapsed due now || elapsed candidate now.
Proof.
  destruct due as [d|], candidate as [c|]; cbn; try by rewrite ?orb_false_r.
  destruct (N.leb_spec d now), (N.leb_spec c now), (N.leb_spec (N.min d c) now); lia || done.
Qed.

(** A deadline is due precisely when there is an action for it, so a timer that sleeps until
    [next_due] neither misses an action nor wakes for none. *)
Theorem timer_exact d now :
  is_Some (evaluate d now) <-> elapsed (next_due d) now = true.
Proof.
  unfold evaluate, next_due.
  assert (forall s, Credit.is_due s now = elapsed (Credit.next_due s) now) as Hc by done.
  rewrite Hc. split.
  - intros [a Ha]. destruct (dl_phase d); cbn [foldl] in *; rewrite ?elapsed_consider; cbn [elapsed orb];
      repeat (case_match; [by rewrite ?orb_true_r|]); done.
  - destruct (dl_phase d); cbn [foldl]; rewrite ?elapsed_consider; cbn [elapsed orb]; intros Hd;
      repeat (case_match; [done|]); try done; exfalso;
      repeat match goal with He : elapsed _ _ = false |- _ => rewrite He in Hd end; done.
Qed.
