(* ===== verification/LiveTypes.v ===== *)
(** * Live outcomes

    How a live session ends, from [types.rs], [authority.rs], [manager.rs] and [provider.rs]
    of [crates/trellis/src/live]: the outcomes, the reasons errors and lost authority map
    to, and the bounded terminal record that goes on the wire. *)

From Stdlib Require Import Ascii String.
From S2P Require Import Prelude RustStr Extern Protocol Wire Live.

Local Open Scope string_scope.

Record LiveStreamError := mkLiveStreamError {
  stream_code : LiveErrorCode;
  stream_message : string;
  stream_trace_id : option string;
}.

Record LiveEnd := mkLiveEnd {
  end_reason : LiveEndReason;
  end_error : option LiveStreamError;
}.

Global Instance LiveStreamError_eq_dec : EqDecision LiveStreamError.
Proof. solve_decision. Defined.
Global Instance LiveEnd_eq_dec : EqDecision LiveEnd.
Proof. solve_decision. Defined.

(** [LiveEnd::complete] and [is_complete] *)
Definition complete_end : LiveEnd := mkLiveEnd EndComplete None.

Definition is_complete (e : LiveEnd) : bool := bool_decide (end_reason e = EndComplete).

Inductive CloseRemoteState := RemoteConfirmed | RemoteUnconfirmed | RemoteNotRequired.
Inductive CloseCleanupState := CleanupComplete | CleanupIncomplete | CleanupUnknown.
Inductive CleanupStatus := StatusComplete | StatusIncomplete.

Record LiveCloseReceipt := mkLiveCloseReceipt {
  receipt_end : LiveEnd;
  receipt_remote : CloseRemoteState;
  receipt_cleanup : CloseCleanupState;
}.

Global Instance CloseCleanupState_eq_dec : EqDecision CloseCleanupState.
Proof. solve_decision. Defined.
Global Instance CleanupStatus_eq_dec : EqDecision CleanupStatus.
Proof. solve_decision. Defined.

Definition end_reason_for_code (code : LiveErrorCode) : LiveEndReason :=
  match code with
  | CodeUnsupportedProtocol | CodeInvalidRequest | CodeInvalidSubject => EndProtocolError
  | CodePermissionDenied | CodeAuthorizationExpired | CodeAuthorizationRevoked
  | CodeAuthorizationUnavailable => EndAuthorizationLost
  | CodeBindingChanged => EndBindingChanged
  | CodeResourceExhausted => EndResourceExhausted
  | CodeOpenConflict | CodeControlConflict | CodeControlGap | CodeInvalidCursor
  | CodeInvalidChallenge | CodeStaleControl | CodeProtocolError => EndProtocolError
  | CodeSessionNotFound => EndProtocolError
  | CodeSetupTimeout => EndSetupTimeout
  | CodePayloadTooLarge | CodeConcurrentEmit => EndSourceError
  | CodeClosed => EndCancelled
  | CodePeerLost => EndPeerLost
  | CodeDisconnected => EndDisconnected
  | CodeConsumerSlow => EndConsumerSlow
  | CodeDeliveryGap => EndDeliveryGap
  | CodeCallbackFailed | CodeSourceFailed => EndSourceError
  | CodeCancelled => EndCancelled
  | CodeLocalShutdown => EndLocalShutdown
  | CodeCleanupIncomplete => EndProtocolError
  end.

Inductive LiveAuthorityLost :=
| LostTransportUnavailable
| LostEpochChanged
| LostCoverageLost
| LostRevoked
| LostCoverageUnknown
| LostExpired
| LostIdentityChanged
| LostBindingChanged
| LostPermissionLost.

Global Instance LiveAuthorityLost_eq_dec : EqDecision LiveAuthorityLost.
Proof. solve_decision. Defined.

(** [LiveAuthorityLost::end_reason] *)
Definition lost_end_reason (lost : LiveAuthorityLost) : LiveEndReason :=
  match lost with
  | LostTransportUnavailable => EndLocalShutdown
  | LostEpochChanged => EndDisconnected
  | LostIdentityChanged | LostBindingChanged => EndBindingChanged
  | _ => EndAuthorizationLost
  end.

Definition lost_message (lost : LiveAuthorityLost) : string :=
  match lost with
  | LostTransportUnavailable => "local transport is not usable"
  | LostEpochChanged => "local transport epoch changed"
  | LostCoverageLost => "exact revocation coverage is no longer retained"
  | LostRevoked => "authorization context was revoked"
  | LostCoverageUnknown => "revocation coverage is unknown"
  | LostExpired => "authorization context expired"
  | LostIdentityChanged => "pinned provider identity changed"
  | LostBindingChanged => "installed API binding changed"
  | LostPermissionLost => "required permission is no longer granted"
  end.

Definition authority_end (lost : LiveAuthorityLost) : LiveEnd :=
  let code :=
    match lost with
    | LostTransportUnavailable | LostEpochChanged => CodeDisconnected
    | LostCoverageLost | LostCoverageUnknown => CodeAuthorizationUnavailable
    | LostRevoked => CodeAuthorizationRevoked
    | LostExpired => CodeAuthorizationExpired
    | LostIdentityChanged | LostBindingChanged => CodeBindingChanged
    | LostPermissionLost => CodePermissionDenied
    end in
  mkLiveEnd (lost_end_reason lost) (Some (mkLiveStreamError code (lost_message lost) None)).

(** [provider_failure] of [provider.rs] and [consumer_failure] of [subscription.rs] *)
Definition provider_failure (code : LiveErrorCode) (message : string) : LiveEnd :=
  mkLiveEnd (end_reason_for_code code) (Some (mkLiveStreamError code message None)).

Definition consumer_failure (code : LiveErrorCode) (message : string) : LiveEnd :=
  mkLiveEnd (end_reason_for_code code) (Some (mkLiveStreamError code message None)).

(** [message.chars().take(n).collect()]: the bytes before scalar number [n + 1]. *)
Fixpoint take_chars (n : N) (s : string) : string :=
  match s with
  | EmptyString => ""
  | String c s =>
      if is_continuation c then String c (take_chars n s)
      else if (n =? 0)%N then ""
      else String c (take_chars (n - 1) s)
  end.

Definition bounded_message (message : string) : string :=
  if (chars_count message <=? 512)%N && (N.of_nat (String.length message) <=? 2048)%N then message
  else take_chars 512 message.

Definition terminal_from_end (e : LiveEnd) : WireTerminal :=
  mkWireTerminal (end_reason e)
    ((fun error => mkWireTerminalError (stream_code error) (bounded_message (stream_message error))
                     (stream_trace_id error)) <$> end_error e).

Definition source_failure_end (message : string) : LiveEnd :=
  mkLiveEnd EndSourceError
    (Some (mkLiveStreamError CodeSourceFailed (bounded_message message) None)).

(** What the consumer makes of a received terminal record. *)
Definition end_from_terminal (t : WireTerminal) : LiveEnd :=
  mkLiveEnd (terminal_reason t)
    ((fun error => mkLiveStreamError (terminal_code error) (terminal_message error) None)
     <$> terminal_error t).

(** ** The terminal of an outcome *)

(** The blocks of a UTF-8 text: a byte that starts a scalar and up to three that continue
    it. *)
Inductive scalars : string -> Prop :=
| scalars_nil : scalars ""
| scalars_next a rest s :
    is_continuation a = false -> all_chars is_continuation rest = true ->
    (String.length rest <= 3)%nat -> scalars s -> scalars (String a (rest +:+ s)).

Lemma in_range_sub lo hi lo' hi' c :
  (lo' <= lo)%N -> (hi <= hi')%N -> in_range lo hi c = true -> in_range lo' hi' c = true.
Proof. unfold in_range. rewrite !andb_true_iff, !N.leb_le. lia. Qed.

Lemma in_range_disjoint lo hi lo' hi' c :
  (hi < lo')%N \/ (hi' < lo)%N -> in_range lo hi c = true -> in_range lo' hi' c = false.
Proof.
  unfold in_range. rewrite andb_true_iff, andb_false_iff, !N.leb_le, !N.leb_gt. lia.
Qed.

Lemma second_of_3_spec a b :
  second_of_3 a b = true -> is_continuation a = false /\ is_continuation b = true.
Proof.
  unfold second_of_3, is_continuation. intros H.
  destruct (N.eqb_spec (byte_of a) 224) as [Ha|]; [|destruct (N.eqb_spec (byte_of a) 237) as [Ha|]].
  - split; [unfold in_range; by rewrite Ha|by eapply in_range_sub; [| |exact H]].
  - split; [unfold in_range; by rewrite Ha|by eapply in_range_sub; [| |exact H]].
  - apply andb_true_iff in H as [Ha Hb]. split; [|done]. by eapply in_range_disjoint; [|exact Ha]; lia.
Qed.

Lemma second_of_4_spec a b :
  second_of_4 a b = true -> is_continuation a = false /\ is_continuation b = true.
Proof.
  unfold second_of_4, is_continuation. intros H.
  destruct (N.eqb_spec (byte_of a) 240) as [Ha|]; [|destruct (N.eqb_spec (byte_of a) 244) as [Ha|]].
  - split; [unfold in_range; by rewrite Ha|by eapply in_range_sub; [| |exact H]].
  - split; [unfold in_range; by rewrite Ha|by eapply in_range_sub; [| |exact H]].
  - apply andb_true_iff in H as [Ha Hb]. split; [|done]. by eapply in_range_disjoint; [|exact Ha]; lia.
Qed.

Lemma utf8_scalars s : is_utf8 s = true -> scalars s.
Proof.
  remember (String.length s) as n eqn:Hn. revert s Hn.
  induction n as [n IH] using lt_wf_ind. intros [|a s1] Hn H; [constructor|]. cbn [is_utf8] in H.
  cbn [String.length] in Hn.
  destruct (in_range 0 127 a) eqn:Ha.
  { apply (scalars_next a "" s1); [|done|cbn; lia|by eapply IH; [|done|done]; lia].
    by eapply in_range_disjoint; [|exact Ha]; lia. }
  destruct s1 as [|b s2]; [done|]. cbn [String.length] in Hn.
  destruct (in_range 194 223 a && is_continuation b) eqn:Hab.
  { apply andb_true_iff in Hab as [Ha2 Hb].
    apply (scalars_next a (String b "") s2); [|cbn; by rewrite Hb|cbn; lia|by eapply IH; [|done|done]; lia].
    by eapply in_range_disjoint; [|exact Ha2]; lia. }
  destruct s2 as [|c s3]; [done|]. cbn [String.length] in Hn.
  destruct (second_of_3 a b && is_continuation c) eqn:Habc.
  { apply andb_true_iff in Habc as [[Ha3 Hb]%second_of_3_spec Hc].
    apply (scalars_next a (String b (String c "")) s3);
      [done|cbn; by rewrite Hb, Hc|cbn; lia|by eapply IH; [|done|done]; lia]. }
  destruct s3 as [|d s4]; [done|]. cbn [String.length] in Hn.
  rewrite !andb_true_iff in H. destruct H as [[[[Ha4 Hb]%second_of_4_spec Hc] Hd] H].
  apply (scalars_next a (String b (String c (String d ""))) s4);
    [done|cbn; by rewrite Hb, Hc, Hd|cbn; lia|by eapply IH; [|done|done]; lia].
Qed.

Lemma take_chars_continuation n rest s :
  all_chars is_continuation rest = true -> take_chars n (rest +:+ s) = rest +:+ take_chars n s.
Proof.
  induction rest as [|c rest IH]; [done|]. cbn [all_chars String.append take_chars].
  intros [-> Hr]%andb_true_iff. by rewrite IH.
Qed.

Lemma chars_count_continuation rest s :
  all_chars is_continuation rest = true -> chars_count (rest +:+ s) = chars_count s.
Proof.
  induction rest as [|c rest IH]; [done|]. cbn [all_chars String.append chars_count].
  intros [-> Hr]%andb_true_iff. by rewrite IH.
Qed.

Lemma take_chars_bound n s :
  scalars s ->
  (chars_count (take_chars n s) <= n /\ N.of_nat (String.length (take_chars n s)) <= 4 * n)%N.
Proof.
  intros Hs. revert n. induction Hs as [|a rest s Ha Hr Hl Hs IH]; intros n; [cbn; lia|].
  cbn [take_chars]. rewrite Ha. destruct (N.eqb_spec n 0) as [|Hn]; [cbn; lia|].
  rewrite take_chars_continuation by done. cbn [chars_count String.length].
  rewrite Ha, chars_count_continuation, length_append by done.
  specialize (IH (n - 1)%N) as [IHc IHl]. split; lia.
Qed.

(** A bounded message is within the bounds [WireTerminal::validate] sets. *)
Lemma bounded_message_bound message :
  is_utf8 message = true ->
  (chars_count (bounded_message message) <= MAXIMUM_REASON_MESSAGE_SCALARS /\
   N.of_nat (String.length (bounded_message message)) <= MAXIMUM_REASON_MESSAGE_BYTES)%N.
Proof.
  intros Hu%utf8_scalars. unfold bounded_message.
  destruct (_ && _) eqn:Hb.
  - apply andb_true_iff in Hb as [?%N.leb_le ?%N.leb_le]. done.
  - by apply take_chars_bound.
Qed.

(** When a receiver accepts the terminal record of an outcome: an outcome that is not a
    failure has no error, a failure has one, and its message has no NUL byte.  The length of
    a message is never the obstacle. *)
Theorem terminal_accepted e :
  (forall error, end_error e = Some error -> is_utf8 (stream_message error) = true) ->
  validate_wire_terminal (terminal_from_end e) = Ok tt <->
  match end_error e with
  | None => normal_reason (end_reason e) = true
  | Some error =>
      normal_reason (end_reason e) = false /\
      contains_char nul (bounded_message (stream_message error)) = false
  end.
Proof.
  intros Hu. destruct e as [reason [error|]]; unfold validate_wire_terminal, terminal_from_end;
    cbn [end_reason end_error terminal_reason terminal_error fmap option_fmap option_map
         terminal_message].
  - destruct (bounded_message_bound (stream_message error) (Hu error eq_refl)) as [Hc%N.ltb_ge Hl%N.ltb_ge].
    rewrite Hc, Hl. cbn [orb]. destruct (normal_reason reason); [split; [done|by intros []]|].
    by destruct (contains_char _ _); split; [|intros []| |].
  - by destruct (normal_reason reason).
Qed.

Definition sample_failure : LiveEnd := source_failure_end "upstream closed".

Lemma terminal_accepted_witness :
  validate_wire_terminal (terminal_from_end sample_failure) = Ok tt.
Proof. apply (terminal_accepted sample_failure); [by intros ? [= <-]|done]. Defined.
