(* ===== verification/LiveProvider.v ===== *)
(** * Live provider: the session record

    What a provider does with its session: [provider.rs] and the methods of
    [ProviderSessionRecord] in [provider_engine.rs], both of [crates/trellis/src/live].
    Mutexes are not poisoned, since nothing that can panic runs while one is held, and
    telemetry is left out.  The tasks that run these operations are in [LiveEngine]. *)

From Stdlib Require Import Ascii String.
From S2P Require Import Prelude RustStr Extern Json Protocol Wire Flow Live LiveTypes.
From S2P Require Import LiveDeadlines.

Local Open Scope string_scope.

Inductive ProviderPhase :=
| PhOffered
| PhActivating
| PhActive
| PhClosing
| PhClosed.

Global Instance ProviderPhase_eq_dec : EqDecision ProviderPhase.
Proof. solve_decision. Defined.

Record ChallengeState := mkChallengeState {
  challenge_id : string;
  challenge_last_sent : N;
}.

Inductive LiveSessionState := StateActivating | StateActive | StateClosed.

Global Instance LiveSessionState_eq_dec : EqDecision LiveSessionState.
Proof. solve_decision. Defined.

(** [ControlOutcome] *)
Record ControlOutcome := mkControlOutcome {
  outcome_state : LiveSessionState;
  outcome_terminal : option WireTerminal;
  outcome_cleanup : option CleanupStatus;
  outcome_challenge : option ChallengeState;
  outcome_start_source : bool;
  outcome_defer_cleanup : bool;
}.

(** [CachedControl] *)
Record CachedControl := mkCachedControl {
  cached_seq : N;
  cached_hash : string;
  cached_state : LiveSessionState;
  cached_terminal : option WireTerminal;
  cached_cleanup : option CleanupStatus;
  cached_challenge : option ChallengeState;
  cached_defer_cleanup : bool;
}.

Global Instance CachedControl_settable : Settable CachedControl := fun c =>
  mkCachedControl (cached_seq c) (cached_hash c) (cached_state c) (cached_terminal c)
    (cached_cleanup c) (cached_challenge c) (cached_defer_cleanup c).

(** [ProviderSessionRecord] with its [ProviderSession].  [credit_woken] is whether the
    waiter the source driver registered has been notified; [source_factory] is whether the
    factory is still there. *)
Record ProviderRecord := mkProviderRecord {
  session_id : string;
  data_body_limit : N;
  phase : ProviderPhase;
  challenge : option ChallengeState;
  flow : SenderWindow;
  terminal : option LiveEnd;
  cancelled : bool;
  source_started : bool;
  source_factory : bool;
  deadlines : LiveDeadlines;
  finished : bool;
  cleanup_driver_started : bool;
  cleanup_result : option CloseCleanupState;
  control_receipt : option CachedControl;
  pending_close_ack : option LiveControl;
  end_sent : bool;
  credit_woken : bool;
}.

Global Instance ProviderRecord_settable : Settable ProviderRecord := fun r =>
  mkProviderRecord (session_id r) (data_body_limit r) (phase r) (challenge r) (flow r) (terminal r)
    (cancelled r) (source_started r) (source_factory r) (deadlines r) (finished r)
    (cleanup_driver_started r) (cleanup_result r) (control_receipt r) (pending_close_ack r)
    (end_sent r) (credit_woken r).

Definition live_limits : FlowLimits := {|
  max_frame_bytes := WINDOW_BYTES;
  window_frames := WINDOW_FRAMES;
  window_bytes := WINDOW_BYTES;
|}.

(** [ProviderSession::new], registered with its factory and deadlines. *)
Definition new_record (session_id : string) (data_body_limit now : N) : ProviderRecord := {|
  session_id := session_id;
  data_body_limit := data_body_limit;
  phase := PhOffered;
  challenge := None;
  flow := new_window live_limits;
  terminal := None;
  cancelled := false;
  source_started := false;
  source_factory := true;
  deadlines := reserved now;
  finished := false;
  cleanup_driver_started := false;
  cleanup_result := None;
  control_receipt := None;
  pending_close_ack := None;
  end_sent := false;
  credit_woken := false;
|}.

Definition flow_error (e : FlowError) : LiveErrorCode :=
  match e with
  | PayloadTooLarge => CodePayloadTooLarge
  | InvalidCursor => CodeInvalidCursor
  | WindowFull | SequenceExhausted | Unavailable => CodeResourceExhausted
  end.

Definition current_state (p : ProviderPhase) : LiveSessionState :=
  match p with
  | PhOffered | PhActivating => StateActivating
  | PhActive => StateActive
  | PhClosing | PhClosed => StateClosed
  end.

(** ** Outcomes *)

Definition commit_end (r : ProviderRecord) (e : LiveEnd) : ProviderRecord :=
  match terminal r with None => r <| terminal := Some e |> | Some _ => r end.

Definition committed_end (r : ProviderRecord) : LiveEnd :=
  default (provider_failure CodeProtocolError "session closed") (terminal r).

Definition begin_close (r : ProviderRecord) (now : N) : ProviderRecord :=
  r <| phase := PhClosing |>
    <| cancelled := true |>
    <| deadlines := begin_closing (deadlines r) now |>.

Definition fence_and_begin_close (r : ProviderRecord) (now : N) : ProviderRecord :=
  begin_close (commit_end r (mkLiveEnd EndCancelled None)) now.

(** The flag of [spawn_close_driver]. *)
Definition spawn_close_driver (r : ProviderRecord) : ProviderRecord :=
  r <| cleanup_driver_started := true |>.

(** The three calls that end a session on the provider's own account. *)
Definition end_session (r : ProviderRecord) (e : LiveEnd) (now : N) : ProviderRecord :=
  spawn_close_driver (begin_close (commit_end r e) now).

Definition cleanup_status (c : CloseCleanupState) : CleanupStatus :=
  match c with CleanupComplete => StatusComplete | _ => StatusIncomplete end.

(** [finish_closed]; the receipt it gives the manager is not part of the record. *)
Definition finish_closed (r : ProviderRecord) (now : N) (cleanup : CloseCleanupState) :
    LiveEnd * ProviderRecord :=
  if finished r then (committed_end r, r)
  else
    let r := r <| finished := true |>
               <| cleanup_result := Some cleanup |>
               <| control_receipt :=
                    (fun c => c <| cached_cleanup := Some (cleanup_status cleanup) |>)
                    <$> control_receipt r |>
               <| deadlines := dl_closed (deadlines r) now |> in
    (committed_end r, r).

(** ** Credit *)

(** [ProviderSession::apply_credit]; [notify_waiters] reaches a registered waiter. *)
Definition session_apply_credit (r : ProviderRecord) (received consumed : N) :
    result ProviderRecord LiveErrorCode :=
  let? w := map_err flow_error (apply_credit (flow r) received consumed None) in
  Ok (r <| flow := w |> <| credit_woken := true |>).

Definition apply_credit_and_note (r : ProviderRecord) (received consumed now : N) :
    result ProviderRecord LiveErrorCode :=
  let before := highest_consumed (flow r) in
  let? r := session_apply_credit r received consumed in
  let advanced := (before <? highest_consumed (flow r))%N in
  let d := if advanced then note_stall_reset (deadlines r) now else deadlines r in
  let d := if outstanding_empty (flow r) then outstanding_cleared d else d in
  Ok (r <| deadlines := d |>).

Definition note_data_admitted (r : ProviderRecord) (now : N) : ProviderRecord :=
  r <| deadlines := data_admitted (deadlines r) now |>.

(** ** Controls *)

Definition classify_control (receipt : option CachedControl) (seq : N) (hash : string) :
    result (option CachedControl) LiveErrorCode :=
  match receipt with
  | None => if (seq =? 1)%N then Ok None else Err CodeControlGap
  | Some previous =>
      if (seq =? cached_seq previous)%N then
        if String.eqb (cached_hash previous) hash then Ok (Some previous)
        else Err CodeControlConflict
      else if (seq <? cached_seq previous)%N then Err CodeStaleControl
      else if (seq =? cached_seq previous + 1)%N then Ok None
      else Err CodeControlGap
  end.

(** What a replay of the last control is answered with. *)
Definition replayed (r : ProviderRecord) (cached : CachedControl) : ControlOutcome :=
  let cleanup :=
    if cached_defer_cleanup cached then
      match cached_cleanup cached with
      | Some c => Some c
      | None => cleanup_status <$> cleanup_result r
      end
    else cached_cleanup cached in
  {| outcome_state := cached_state cached;
     outcome_terminal := cached_terminal cached;
     outcome_cleanup := cleanup;
     outcome_challenge := cached_challenge cached;
     outcome_start_source := false;
     outcome_defer_cleanup := cached_defer_cleanup cached && bool_decide (cleanup = None) |}.

Definition store_control_receipt (r : ProviderRecord) (seq : N) (hash : string)
    (o : ControlOutcome) : ProviderRecord :=
  r <| control_receipt := Some
         {| cached_seq := seq; cached_hash := hash; cached_state := outcome_state o;
            cached_terminal := outcome_terminal o; cached_cleanup := outcome_cleanup o;
            cached_challenge := outcome_challenge o;
            cached_defer_cleanup := outcome_defer_cleanup o |} |>.

(** An outcome without a terminal, a challenge or a start. *)
Definition plain_outcome (s : LiveSessionState) : ControlOutcome := {|
  outcome_state := s; outcome_terminal := None; outcome_cleanup := None;
  outcome_challenge := None; outcome_start_source := false; outcome_defer_cleanup := false |}.

(** The arms of [match control] in [handle_control].  A failed arm keeps what it changed. *)
Definition apply_activate (r : ProviderRecord) (now : N) (nonce : option string) :
    result ControlOutcome LiveErrorCode * ProviderRecord :=
  if negb (bool_decide (phase r = PhOffered)) then (Err CodeStaleControl, r)
  else
    match nonce with
    | None => (Err CodeProtocolError, r)
    | Some id =>
        let c := mkChallengeState id (highest_sent (flow r)) in
        let o := {| outcome_state := StateActivating; outcome_terminal := None;
                    outcome_cleanup := None; outcome_challenge := Some c;
                    outcome_start_source := false; outcome_defer_cleanup := false |} in
        (Ok o, r <| phase := PhActivating |>
                 <| challenge := Some c |>
                 <| deadlines := begin_activating (deadlines r) now id |>)
    end.

Definition apply_pulse (r : ProviderRecord) (received consumed : N) (id : string) (now : N) :
    result ControlOutcome LiveErrorCode * ProviderRecord :=
  let activating := bool_decide (phase r = PhActivating) in
  match validate_credit (flow r) received consumed None with
  | Err e => (Err (flow_error e), r)
  | Ok _ =>
      if negb (bool_decide (outstanding_challenge (deadlines r) = Some id)) then
        (Err CodeInvalidChallenge, r)
      else
        let r := r <| deadlines := if activating then commit_active (deadlines r) now true
                                   else fresh_round_trip (deadlines r) now true |>
                   <| challenge := None |>
                   <| phase := if activating then PhActive else phase r |> in
        match apply_credit_and_note r received consumed now with
        | Err e => (Err e, r)
        | Ok r =>
            let o := {| outcome_state := StateActive; outcome_terminal := None;
                        outcome_cleanup := None; outcome_challenge := None;
                        outcome_start_source := activating && negb (source_started r);
                        outcome_defer_cleanup := false |} in
            (Ok o, r <| source_started := activating || source_started r |>)
        end
  end.

Definition apply_ack (r : ProviderRecord) (received consumed now : N) :
    result ControlOutcome LiveErrorCode * ProviderRecord :=
  match apply_credit_and_note r received consumed now with
  | Err e => (Err e, r)
  | Ok r => (Ok (plain_outcome (current_state (phase r))), r)
  end.

(** [Close] and [EndAck] have the same arm. *)
Definition apply_close (r : ProviderRecord) (received consumed now : N) :
    result ControlOutcome LiveErrorCode * ProviderRecord :=
  match session_apply_credit r received consumed with
  | Err e => (Err e, r)
  | Ok r =>
      let r := fence_and_begin_close r now in
      (Ok {| outcome_state := StateClosed;
             outcome_terminal := Some (terminal_from_end (committed_end r));
             outcome_cleanup := None; outcome_challenge := None;
             outcome_start_source := false; outcome_defer_cleanup := true |}, r)
  end.

Definition apply_control (r : ProviderRecord) (c : LiveControl) (now : N) (nonce : option string) :
    result ControlOutcome LiveErrorCode * ProviderRecord :=
  let received := control_received (control_body c) in
  let consumed := control_consumed (control_body c) in
  match c with
  | ControlActivate _ => apply_activate r now nonce
  | ControlPulse _ id => apply_pulse r received consumed id now
  | ControlAck _ => apply_ack r received consumed now
  | ControlClose _ _ | ControlEndAck _ _ => apply_close r received consumed now
  end.

Section handle.
Context `{Base64Url, Sha256}.
Local Existing Instance json_tree.
Context `{!CanonicalJson}.

(** [handle_control], with the output lane held; [nonce] is what [generate_nonce] gives. *)
Definition handle_control (r : ProviderRecord) (c : LiveControl) (now : N)
    (nonce : option string) : result ControlOutcome LiveErrorCode * ProviderRecord :=
  match logical_control_hash c with
  | Err _ => (Err CodeInvalidRequest, r)
  | Ok hash =>
      match classify_control (control_receipt r) (live_control_seq c) hash with
      | Err e => (Err e, r)
      | Ok (Some cached) => (Ok (replayed r cached), r)
      | Ok None =>
          match apply_control r c now nonce with
          | (Ok o, r) => (Ok o, store_control_receipt r (live_control_seq c) hash o)
          | (Err e, r) => (Err e, r)
          end
      end
  end.
End handle.
