(* ===== verification/LiveEngine.v ===== *)
(** * Live provider: the tasks of a session

    The tasks that run over one session record: the dispatch of a control, the source
    driver, the timer, and the close driver, from [provider_engine.rs] and
    [crates/trellis/src/service/live_router.rs], with what [manager.rs] does to a record.

    A step is what a task does from one [await] to the next, and carries what the task
    was woken with: the time, a message, the next item of the source, the result of a
    publication.  The output lane is held where [driver] says so, from the check of a data
    frame to its commit; the other holders of the lane do nothing to the record between
    their awaits, so each is one step.  [wire] is every body published on the data subject,
    [replies] every answer to a control, and [produced] the values the source gave. *)

From Stdlib Require Import Ascii String.
From S2P Require Import Prelude RustStr Extern Json Protocol Wire Flow Live LiveTypes.
From S2P Require Import LiveDeadlines LiveProvider.

Local Open Scope string_scope.

(** How [signed_headers] fails. *)
Inductive SigningFailure := GuardLost | ManagerGone | AuthorityUnavailable.

Definition signing_code (f : SigningFailure) : LiveErrorCode :=
  match f with
  | GuardLost => CodePermissionDenied
  | ManagerGone => CodeDisconnected
  | AuthorityUnavailable => CodeAuthorizationUnavailable
  end.

(** How a signed publication ends: it could not be signed, it failed before or after it
    left, or it was handed off. *)
Inductive Publish :=
| Unsigned (f : SigningFailure)
| NotSent
| SentAndFailed
| HandedOff.

Definition on_wire (p : Publish) : bool :=
  match p with SentAndFailed | HandedOff => true | _ => false end.

(** [SourceItem], the end of the stream and its failure. *)
Inductive SourceEvent :=
| SourceValue (value : Json)
| SourceEnd
| SourceFailure (message : string).

Inductive Driver :=
| DrvAbsent
| DrvTop
| DrvNext
| DrvAttempt (value : Json)
| DrvLane (value : Json)
| DrvHandoff (value : Json) (seq : N) (body : string)
| DrvCommit (value : Json) (seq : N) (body : string)
| DrvAdmitted
| DrvWait (value : Json)
| DrvEnding (e : LiveEnd)
| DrvEnded (e : LiveEnd)
| DrvReturned.

(** [LiveControlAck] without the constants and what it repeats of the control. *)
Record ControlAckBody := mkControlAckBody {
  ack_state : LiveSessionState;
  ack_received : N;
  ack_consumed : N;
  ack_terminal : option WireTerminal;
  ack_cleanup : option CleanupStatus;
}.

Inductive Dispatch :=
| DspAck (c : LiveControl) (o : ControlOutcome) (ack : ControlAckBody) (now : N)
| DspError (c : LiveControl) (code : LiveErrorCode)
| DspChallenge (ch : ChallengeState) (start : bool)
| DspStart
| DspGuard.

Inductive Timer :=
| TimIdle
| TimRetry (ch : option ChallengeState) (now : N)
| TimSend (ch : ChallengeState)
| TimReturned.

Inductive Closer :=
| ClsAbsent
| ClsCleanup
| ClsAck (pending : option (LiveControl * ControlAckBody))
| ClsReturned.

Definition Reply : Type := LiveControl * result ControlAckBody LiveErrorCode.

Record Engine := mkEngine {
  record : ProviderRecord;
  driver : Driver;
  dispatches : list Dispatch;
  timer : Timer;
  closer : Closer;
  wire : list string;
  replies : list Reply;
  produced : list Json;
}.

Global Instance Engine_settable : Settable Engine := fun e =>
  mkEngine (record e) (driver e) (dispatches e) (timer e) (closer e) (wire e) (replies e)
    (produced e).

Definition new_engine (sid : string) (limit now : N) : Engine := {|
  record := new_record sid limit now;
  driver := DrvAbsent;
  dispatches := [];
  timer := TimIdle;
  closer := ClsAbsent;
  wire := [];
  replies := [];
  produced := [];
|}.

Inductive Event :=
| EvControl (c : LiveControl) (now : N) (nonce : option string)
| EvReply (i : nat) (p : Publish)
| EvChallenge (i : nat) (p : Publish)
| EvStartCheck (i : nat)
| EvStart (i : nat) (lost : option LiveAuthorityLost) (now : N)
| EvSourcePoll
| EvSourceItem (item : SourceEvent)
| EvSourceCancelled (now : N)
| EvAttempt
| EvLane (now : N)
| EvHandoff (p : Publish) (now : N)
| EvCommit (now : N)
| EvAdmitted (now : N)
| EvCredit
| EvEnd (p : Publish)
| EvEnded (now : N)
| EvTimer (now : N) (nonce : option string)
| EvTimerPublish (p : Publish)
| EvTimerLost (lost : LiveAuthorityLost) (now : N)
| EvTimerCancelled
| EvCleanup (settled : bool) (now : N)
| EvCloseAck (p : Publish)
| EvSuspend
| EvShutdown (now : N)
| EvShutdownFinish (settled : bool) (now : N).

(** [set_record e r] also starts the close driver when [r] says it was spawned. *)
Definition set_record (e : Engine) (r : ProviderRecord) : Engine :=
  e <| record := r |>
    <| closer := match closer e with
                 | ClsAbsent => if cleanup_driver_started r then ClsCleanup else ClsAbsent
                 | c => c
                 end |>.

(** The source driver or a control that is being answered is where it was before. *)
Definition lane_free (e : Engine) : bool :=
  match driver e with DrvHandoff _ _ _ | DrvCommit _ _ _ => false | _ => true end.

Definition remove_dispatch (e : Engine) (i : nat) : Engine :=
  e <| dispatches := delete i (dispatches e) |>.

Definition ack_body (r : ProviderRecord) (o : ControlOutcome) : ControlAckBody := {|
  ack_state := outcome_state o;
  ack_received := highest_received (flow r);
  ack_consumed := highest_consumed (flow r);
  ack_terminal := outcome_terminal o;
  ack_cleanup := outcome_cleanup o;
|}.

Definition reply (e : Engine) (c : LiveControl) (a : result ControlAckBody LiveErrorCode)
    (p : Publish) : Engine :=
  if on_wire p then e <| replies := (replies e ++ [(c, a)])%list |> else e.

Section steps.
Context `{Base64Url, Sha256}.
Local Existing Instance json_tree.
Context `{!CanonicalJson, !JsonCodec Json}.

(** A body that is serialized and handed to the transport. *)
Definition publish_frame (e : Engine) (f : LiveFrame) (p : Publish) : Engine :=
  match to_vec (frame_json f) with
  | Ok body => if on_wire p then e <| wire := (wire e ++ [body])%list |> else e
  | Err _ => e
  end.

Definition publish_challenge (e : Engine) (ch : ChallengeState) (p : Publish) : Engine :=
  if bool_decide (phase (record e) = PhClosed) then e
  else publish_frame e (FrameChallenge (session_id (record e)) (challenge_id ch)
                          (challenge_last_sent ch)) p.

(** The bounded retries of the handoff are one publication. *)
Definition publish_end (e : Engine) (t : WireTerminal) (p : Publish) : Engine :=
  if end_sent (record e) then e
  else
    let e := e <| record := record e <| end_sent := true |> |> in
    if bool_decide (phase (record e) = PhClosed) then e
    else publish_frame e (FrameEnd (session_id (record e)) (highest_sent (flow (record e))) t) p.

(** [dispatch_control] after the control was authenticated and found to be for this
    session and subject. *)
Definition dispatch_control (e : Engine) (c : LiveControl) (now : N) (nonce : option string) :
    Engine :=
  match handle_control (record e) c now nonce with
  | (Ok o, r) =>
      if outcome_defer_cleanup o then
        set_record e (spawn_close_driver (r <| pending_close_ack := Some c |>))
      else
        set_record e r <| dispatches := (dispatches e ++ [DspAck c o (ack_body r o) now])%list |>
  | (Err code, r) => set_record e r <| dispatches := (dispatches e ++ [DspError c code])%list |>
  end.

Definition dispatch_reply (e : Engine) (i : nat) (p : Publish) : option Engine :=
  match dispatches e !! i with
  | Some (DspAck c o ack now) =>
      let e := reply e c (Ok ack) p in
      match p with
      | Unsigned _ => Some (remove_dispatch e i)
      | NotSent | SentAndFailed =>
          Some (remove_dispatch (set_record e (end_session (record e)
                  (provider_failure CodePeerLost
                     "activation acknowledgement could not be handed off") now)) i)
      | HandedOff =>
          match outcome_challenge o with
          | Some ch =>
              Some (e <| dispatches := <[i := DspChallenge ch (outcome_start_source o)]>
                                         (dispatches e) |>)
          | None =>
              if outcome_start_source o then
                Some (e <| dispatches := <[i := DspStart]> (dispatches e) |>)
              else Some (remove_dispatch e i)
          end
      end
  | Some (DspError c code) => Some (remove_dispatch (reply e c (Err code) p) i)
  | _ => None
  end.

Definition dispatch_challenge (e : Engine) (i : nat) (p : Publish) : option Engine :=
  match dispatches e !! i with
  | Some (DspChallenge ch start) =>
      let e := publish_challenge e ch p in
      if start then Some (e <| dispatches := <[i := DspStart]> (dispatches e) |>)
      else Some (remove_dispatch e i)
  | _ => None
  end.

(** [start_source_once], up to and after the guards are reconciled. *)
Definition start_check (e : Engine) (i : nat) : option Engine :=
  match dispatches e !! i with
  | Some DspStart =>
      if finished (record e) || negb (bool_decide (phase (record e) = PhActive)) then
        Some (remove_dispatch e i)
      else Some (e <| dispatches := <[i := DspGuard]> (dispatches e) |>)
  | _ => None
  end.

Definition start_source_once (e : Engine) (i : nat) (lost : option LiveAuthorityLost) (now : N) :
    option Engine :=
  match dispatches e !! i with
  | Some DspGuard =>
      let e := remove_dispatch e i in
      match lost with
      | Some lost => Some (set_record e (end_session (record e) (authority_end lost) now))
      | None =>
          if source_factory (record e) then
            Some (e <| record := record e <| source_factory := false |> |> <| driver := DrvTop |>)
          else
            Some (set_record e (end_session (record e)
                    (provider_failure CodeProtocolError "live source factory is unavailable") now))
      end
  | _ => None
  end.

(** [Err(code)] of [publish_data_frame], in [drive_source]. *)
Definition publication_failed (e : Engine) (value : Json) (code : LiveErrorCode) (now : N) : Engine :=
  if bool_decide (code = CodeResourceExhausted) then e <| driver := DrvWait value |>
  else
    set_record e (end_session (record e) (provider_failure code "live publication failed") now)
      <| driver := DrvReturned |>.

(** [publish_data_frame] from the lane to the signature. *)
Definition check_data_frame (r : ProviderRecord) (value : Json) :
    result (N * string) LiveErrorCode :=
  if bool_decide (phase r = PhClosing) || bool_decide (phase r = PhClosed) then Err CodeClosed
  else
    let? seq := map_err flow_error (next_frame_seq (flow r)) in
    let? body := map_err (fun _ => CodeProtocolError)
                   (to_vec (frame_json (FrameData (session_id r) seq value))) in
    let? _ := map_err flow_error
                (validate_frame_slot (flow r) (N.of_nat (String.length body)) (data_body_limit r)) in
    Ok (seq, body).

(** [drive_source], one step. *)
Definition drive_source (e : Engine) (ev : Event) : option Engine :=
  let r := record e in
  match driver e, ev with
  | DrvTop, EvSourcePoll =>
      Some (e <| driver := if bool_decide (phase r = PhActive) then DrvNext else DrvReturned |>)
  | DrvNext, EvSourceCancelled now | DrvWait _, EvSourceCancelled now =>
      if cancelled r then Some (e <| record := begin_close r now |> <| driver := DrvReturned |>)
      else None
  | DrvNext, EvSourceItem (SourceValue value) =>
      Some (e <| produced := (produced e ++ [value])%list |> <| driver := DrvAttempt value |>)
  | DrvNext, EvSourceItem SourceEnd => Some (e <| driver := DrvEnding complete_end |>)
  | DrvNext, EvSourceItem (SourceFailure message) =>
      Some (e <| driver := DrvEnding (source_failure_end message) |>)
  | DrvAttempt value, EvAttempt =>
      Some (e <| record := r <| credit_woken := false |> |>
              <| driver := if bool_decide (phase r = PhActive) then DrvLane value
                           else DrvReturned |>)
  | DrvLane value, EvLane now =>
      match check_data_frame r value with
      | Ok (seq, body) => Some (e <| driver := DrvHandoff value seq body |>)
      | Err code => Some (publication_failed e value code now)
      end
  | DrvHandoff value seq body, EvHandoff p now =>
      let e := if on_wire p then e <| wire := (wire e ++ [body])%list |> else e in
      match p with
      | Unsigned f => Some (publication_failed e value (signing_code f) now)
      | NotSent | SentAndFailed => Some (publication_failed e value CodePeerLost now)
      | HandedOff => Some (e <| driver := DrvCommit value seq body |>)
      end
  | DrvCommit value seq body, EvCommit now =>
      match commit_frame (flow r) seq (N.of_nat (String.length body)) with
      | Ok w => Some (e <| record := r <| flow := w |> |> <| driver := DrvAdmitted |>)
      | Err code => Some (publication_failed e value (flow_error code) now)
      end
  | DrvAdmitted, EvAdmitted now =>
      Some (e <| record := note_data_admitted r now |> <| driver := DrvTop |>)
  | DrvWait value, EvCredit =>
      if credit_woken r then Some (e <| driver := DrvAttempt value |>) else None
  | DrvEnding outcome, EvEnd p =>
      Some (publish_end e (terminal_from_end outcome) p <| driver := DrvEnded outcome |>)
  | DrvEnded outcome, EvEnded now =>
      Some (set_record e (end_session r outcome now) <| driver := DrvReturned |>)
  | _, _ => None
  end.

(** [evaluate_deadlines] up to its publication. *)
Definition evaluate_deadlines (e : Engine) (now : N) (nonce : option string) : Engine :=
  let r := record e in
  let over outcome := set_record e (end_session r outcome now) <| timer := TimReturned |> in
  match evaluate (deadlines r) now with
  | None => e
  | Some ReservationExpired => over (mkLiveEnd EndSetupTimeout None)
  | Some ChallengeRetry => e <| timer := TimRetry (challenge r) now |>
  | Some ChallengeDue =>
      match nonce with
      | None => over (provider_failure CodeProtocolError "challenge nonce unavailable")
      | Some id =>
          let ch := mkChallengeState id (highest_sent (flow r)) in
          e <| record := r <| challenge := Some ch |>
                           <| deadlines := begin_challenge (deadlines r) now id |> |>
            <| timer := TimSend ch |>
      end
  | Some PeerInactive =>
      over (provider_failure CodePeerLost "live consumer silent past the inactivity bound")
  | Some ConsumerStalled =>
      over (provider_failure CodeConsumerSlow "live consumer did not consume outstanding data")
  | Some CloseExchangeElapsed =>
      set_record e (spawn_close_driver (r <| phase := PhClosing |>)) <| timer := TimReturned |>
  | Some CreditDue => e <| record := r <| deadlines := credit_sent (deadlines r) |> |>
  | Some CleanupGraceElapsed =>
      e <| record := r <| deadlines := mark_cleanup_grace_elapsed (deadlines r) |> |>
  end.

Definition timer_publish (e : Engine) (p : Publish) : option Engine :=
  match timer e with
  | TimRetry ch now =>
      let e := match ch with Some ch => publish_challenge e ch p | None => e end in
      Some (e <| record := record e <| deadlines :=
                   rearm_challenge_retry (deadlines (record e)) now |> |>
              <| timer := TimIdle |>)
  | TimSend ch => Some (publish_challenge e ch p <| timer := TimIdle |>)
  | _ => None
  end.

(** [run_owned_cleanup]: the callbacks are awaited and the source task is joined, and
    aborted when it has not returned by the end of the grace. *)
Definition run_owned_cleanup (e : Engine) (settled : bool) : CloseCleanupState * Engine :=
  match driver e with
  | DrvAbsent | DrvReturned => (if settled then CleanupComplete else CleanupIncomplete, e)
  | _ => (CleanupIncomplete, e <| driver := DrvReturned |>)
  end.

Definition finish (e : Engine) (settled : bool) (now : N) : CloseCleanupState * LiveEnd * Engine :=
  let '(cleanup, e) := run_owned_cleanup e settled in
  let '(outcome, r) := finish_closed (record e) now cleanup in
  (cleanup, outcome, e <| record := r |>).

(** [publish_pending_close_ack], up to the lane: the control that waits and its answer. *)
Definition take_close_ack (e : Engine) (cleanup : CloseCleanupState) (outcome : LiveEnd) :
    option (LiveControl * ControlAckBody) * Engine :=
  ((fun c => (c, {| ack_state := StateClosed;
                    ack_received := highest_received (flow (record e));
                    ack_consumed := highest_consumed (flow (record e));
                    ack_terminal := Some (terminal_from_end outcome);
                    ack_cleanup := Some (cleanup_status cleanup) |}))
     <$> pending_close_ack (record e),
   e <| record := record e <| pending_close_ack := None |> |>).

Definition publish_pending_close_ack (e : Engine) (pending : option (LiveControl * ControlAckBody))
    (p : Publish) : Engine :=
  match pending with Some (c, ack) => reply e c (Ok ack) p | None => e end.

Definition exec (e : Engine) (ev : Event) : option Engine :=
  match ev with
  | EvControl c now nonce => if lane_free e then Some (dispatch_control e c now nonce) else None
  | EvReply i p => if lane_free e then dispatch_reply e i p else None
  | EvChallenge i p => if lane_free e then dispatch_challenge e i p else None
  | EvStartCheck i => start_check e i
  | EvStart i lost now => start_source_once e i lost now
  | EvTimer now nonce =>
      match timer e with TimIdle => Some (evaluate_deadlines e now nonce) | _ => None end
  | EvTimerPublish p => if lane_free e then timer_publish e p else None
  | EvTimerLost lost now =>
      match timer e with
      | TimIdle =>
          Some (set_record e (end_session (record e) (authority_end lost) now)
                  <| timer := TimReturned |>)
      | _ => None
      end
  | EvTimerCancelled =>
      match timer e with
      | TimIdle => if cancelled (record e) then Some (e <| timer := TimReturned |>) else None
      | _ => None
      end
  | EvCleanup settled now =>
      match closer e with
      | ClsCleanup =>
          let '(cleanup, outcome, e) := finish e settled now in
          let '(pending, e) := take_close_ack e cleanup outcome in
          Some (e <| closer := ClsAck pending |>)
      | _ => None
      end
  | EvCloseAck p =>
      match closer e with
      | ClsAck pending =>
          if lane_free e then
            Some (publish_pending_close_ack e pending p <| closer := ClsReturned |>)
          else None
      | _ => None
      end
  | EvSuspend => Some (e <| record := record e <| cancelled := true |> |>)
  | EvShutdown now => Some (e <| record := begin_close (record e) now |>)
  | EvShutdownFinish settled now => Some (snd (finish e settled now))
  | _ => drive_source e ev
  end.

Fixpoint run (e : Engine) (evs : list Event) : option Engine :=
  match evs with
  | [] => Some e
  | ev :: evs => match exec e ev with Some e => run e evs | None => None end
  end.
End steps.
