(* ===== verification/LivePublication.v ===== *)
(** * Live provider: what is published

    What the frames of a session are, whatever its tasks do and in whatever order: the data
    frames carry the values of the source, numbered from one without a gap, a challenge
    never counts a frame that was not sent, and the end frame counts them all. *)

From Stdlib Require Import Ascii String.
From S2P Require Import Prelude RustStr Extern Json Protocol Wire Flow Live LiveTypes.
From S2P Require Import LiveDeadlines LiveProvider LiveEngine.

Local Open Scope string_scope.

Lemma in_option_list {A} (x : A) o : x ∈ option_list o <-> o = Some x.
Proof. destruct o; cbn; set_solver. Qed.

Lemma live_limits_u64 : limits_u64 live_limits.
Proof. split; discriminate. Qed.

(** The challenges a session keeps, in its record and in the tasks that publish them. *)
Definition dispatch_challenges (d : Dispatch) : list ChallengeState :=
  match d with
  | DspAck _ o _ _ => option_list (outcome_challenge o)
  | DspChallenge ch _ => [ch]
  | _ => []
  end.

Definition timer_challenges (t : Timer) : list ChallengeState :=
  match t with TimRetry (Some ch) _ | TimSend ch => [ch] | _ => [] end.

Definition challenges (e : Engine) : list ChallengeState :=
  (option_list (challenge (record e))
   ++ option_list (c ← control_receipt (record e); cached_challenge c)
   ++ timer_challenges (timer e)
   ++ (dispatches e ≫= dispatch_challenges))%list.

(** The source driver has something to publish. *)
Definition staged (d : Driver) : option Json :=
  match d with
  | DrvAttempt v | DrvLane v | DrvWait v | DrvHandoff v _ _ | DrvCommit v _ _ => Some v
  | _ => None
  end.

Section publication.
Context `{Base64Url, Sha256}.
Local Existing Instance json_tree.
Context `{!CanonicalJson, !JsonCodec Json}.

(** The body of the data frame of the value at index [i]. *)
Definition data_body (sid : string) (i : nat) (v : Json) : result string string :=
  to_vec (frame_json (FrameData sid (N.of_nat (S i)) v)).

(** How far the driver is with the values the source gave; [n] frames are committed. *)
Definition driver_ok (e : Engine) (s : spec) : Prop :=
  let n := List.length (sent s) in
  match driver e with
  | DrvAbsent => produced e = [] /\ n = 0
  | DrvTop | DrvNext | DrvAdmitted | DrvEnding _ | DrvEnded _ => List.length (produced e) = n
  | DrvAttempt v | DrvLane v | DrvWait v => produced e !! n = Some v /\ List.length (produced e) = S n
  | DrvHandoff v seq body | DrvCommit v seq body =>
      produced e !! n = Some v /\ List.length (produced e) = S n /\ seq = N.of_nat (S n) /\
      data_body (session_id (record e)) n v = Ok body /\
      has_room live_limits s (N.of_nat (String.length body))
  | DrvReturned => n <= List.length (produced e)
  end%nat.

(** What a frame on the wire says of the session. *)
Definition frame_ok (e : Engine) (s : spec) (raw : string) (f : LiveFrame) : Prop :=
  match f with
  | FrameData _ seq v =>
      exists i, seq = N.of_nat (S i) /\ produced e !! i = Some v /\
        (i < List.length (sent s) \/
         (i = List.length (sent s) /\ has_room live_limits s (N.of_nat (String.length raw))))%nat
  | FrameChallenge _ _ n => (n <= len (sent s))%N
  | FrameEnd _ n t =>
      n = len (sent s) /\ end_sent (record e) = true /\
      (driver e = DrvReturned \/ exists outcome, driver e = DrvEnded outcome) /\
      (terminal_reason t = EndComplete -> n = N.of_nat (List.length (produced e)))
  end.

Record published (e : Engine) (s : spec) : Prop := {
  pub_flow : lane_refines live_limits Idle (flow (record e)) s;
  pub_factory : driver e <> DrvAbsent -> source_factory (record e) = false;
  pub_driver : driver_ok e s;
  pub_sent : forall i length, sent s !! i = Some length ->
    exists v body, produced e !! i = Some v /\ data_body (session_id (record e)) i v = Ok body /\
      length = N.of_nat (String.length body);
  pub_wire : forall raw, raw ∈ wire e -> exists f, to_vec (frame_json f) = Ok raw /\
    frame_session f = session_id (record e) /\ frame_ok e s raw f;
  pub_challenges : forall ch, ch ∈ challenges e -> (challenge_last_sent ch <= len (sent s))%N;
}.

(** ** Steps that publish nothing *)

(** A record that differs in nothing publication depends on. *)
Definition kept (r r' : ProviderRecord) : Prop :=
  flow r' = flow r /\ session_id r' = session_id r /\ source_factory r' = source_factory r /\
  end_sent r' = end_sent r /\ challenge r' = challenge r /\
  (c ← control_receipt r'; cached_challenge c) = (c ← control_receipt r; cached_challenge c).

Lemma kept_refl r : kept r r.
Proof. by split_and!. Qed.

Lemma kept_end_session r o now : kept r (end_session r o now).
Proof. unfold end_session, commit_end. destruct (terminal r); by split_and!. Qed.

Lemma kept_finish_closed r now c : kept r (snd (finish_closed r now c)).
Proof.
  unfold finish_closed. destruct (finished r); [apply kept_refl|]. split_and!; try done.
  cbn. by destruct (control_receipt r).
Qed.

(** A step that publishes nothing: credit may have arrived, a challenge for what was sent
    been set, and the driver is where it was or returned. *)
Record quiet (e e' : Engine) (s s' : spec) : Prop := {
  quiet_sid : session_id (record e') = session_id (record e);
  quiet_factory : source_factory (record e') = source_factory (record e);
  quiet_end : end_sent (record e') = end_sent (record e);
  quiet_produced : produced e' = produced e;
  quiet_wire : wire e' = wire e;
  quiet_driver : driver e' = driver e \/ (driver e' = DrvReturned /\ driver e <> DrvAbsent);
  quiet_sent : sent s' = sent s;
  quiet_room : forall n, has_room live_limits s n -> has_room live_limits s' n;
  quiet_flow : lane_refines live_limits Idle (flow (record e')) s';
  quiet_challenges : forall ch, ch ∈ challenges e' ->
    ch ∈ challenges e \/ (challenge_last_sent ch <= len (sent s))%N;
}.

Lemma driver_ok_bound e s : driver_ok e s -> (List.length (sent s) <= List.length (produced e))%nat.
Proof. unfold driver_ok. destruct (driver e); try lia; intros [? ?]; lia. Qed.

Lemma quiet_published e e' s s' : published e s -> quiet e e' s s' -> published e' s'.
Proof.
  intros [Hf Hfac Hd Hs Hw Hch] [Esid Efac Eend Ep Ew Edrv Esent Hroom Hf' Hsub].
  pose proof (driver_ok_bound _ _ Hd) as Hn.
  split; rewrite ?Esid, ?Ep, ?Ew, ?Esent; try done.
  - rewrite Efac. destruct Edrv as [->|[_ ?]]; auto.
  - unfold driver_ok in *. rewrite Esid, Ep, Esent.
    destruct Edrv as [->|[-> _]]; [|lia].
    destruct (driver e); try done; destruct Hd as (? & ? & ? & ? & ?); by split_and!; auto.
  - intros raw (f & Hv & Hsid & Hok)%Hw. exists f. split_and!; try done.
    unfold frame_ok in *. rewrite Ep, Eend, Esent. destruct f; [|done|].
    + destruct Hok as (i & ? & ? & [?|[? ?]]); exists i; split_and!; auto.
    + destruct Hok as (? & ? & Hdrv & ?). split_and!; try done.
      destruct Edrv as [->|[-> _]]; [done|by left].
  - intros ch [?%Hch|?]%Hsub; done.
Qed.

(** The flow is the same. *)
Lemma quiet_kept e e' s :
  lane_refines live_limits Idle (flow (record e)) s -> kept (record e) (record e') ->
  produced e' = produced e -> wire e' = wire e ->
  driver e' = driver e \/ (driver e' = DrvReturned /\ driver e <> DrvAbsent) ->
  (forall ch, ch ∈ (timer_challenges (timer e') ++ (dispatches e' ≫= dispatch_challenges))%list ->
     ch ∈ challenges e) ->
  quiet e e' s s.
Proof.
  intros Hf (Ef & Es & Efac & Eend & Ech & Erec) Ep Ew Edrv Hsub. split; try done; [by rewrite Ef|].
  intros ch. unfold challenges. rewrite Ech, Erec, !elem_of_app. intros [?|[?|Hc]]; left;
    [by left|by right; left|]. specialize (Hsub ch). unfold challenges in Hsub.
  rewrite !elem_of_app in Hsub. by apply Hsub.
Qed.

(** ** Controls *)

(** What handling a control does to what publication depends on. *)
Record control_effect (c : LiveControl) (r r' : ProviderRecord) : Prop := {
  effect_sid : session_id r' = session_id r;
  effect_factory : source_factory r' = source_factory r;
  effect_end : end_sent r' = end_sent r;
  effect_flow : flow r' = flow r \/
    apply_credit (flow r) (control_received (control_body c)) (control_consumed (control_body c))
      None = Ok (flow r');
  effect_challenge : forall ch, challenge r' = Some ch ->
    challenge r = Some ch \/ challenge_last_sent ch = highest_sent (flow r);
}.

Lemma control_effect_refl c r : control_effect c r r.
Proof. split; auto. Qed.

Lemma session_apply_credit_ok r received consumed r' :
  session_apply_credit r received consumed = Ok r' ->
  exists w, apply_credit (flow r) received consumed None = Ok w /\
    r' = r <| flow := w |> <| credit_woken := true |>.
Proof.
  unfold session_apply_credit. intros Ha. peel Ha as w Hw. injection Ha as <-. eauto.
Qed.

Lemma apply_credit_and_note_ok r received consumed now r' :
  apply_credit_and_note r received consumed now = Ok r' ->
  exists w d, apply_credit (flow r) received consumed None = Ok w /\
    r' = r <| flow := w |> <| credit_woken := true |> <| deadlines := d |>.
Proof.
  unfold apply_credit_and_note. intros Ha.
  peel Ha as r1 Hr. apply session_apply_credit_ok in Hr as (w & Hw & ->).
  injection Ha as <-. eauto.
Qed.

(** Credit was applied, and the rest of the record is as before or has no challenge. *)
Lemma credit_effect c r r' :
  apply_credit (flow r) (control_received (control_body c)) (control_consumed (control_body c))
    None = Ok (flow r') ->
  session_id r' = session_id r -> source_factory r' = source_factory r ->
  end_sent r' = end_sent r -> challenge r' = challenge r \/ challenge r' = None ->
  control_effect c r r'.
Proof.
  intros Hw ? ? ? Hch. split; [done..|by right|]. intros ch Hc.
  destruct Hch as [Hch|Hch]; rewrite Hch in Hc; [by left|done].
Qed.

Lemma apply_close_effect c r now res r' :
  apply_close r (control_received (control_body c)) (control_consumed (control_body c)) now
    = (res, r') ->
  control_effect c r r' /\ control_receipt r' = control_receipt r /\
  forall o ch, res = Ok o -> outcome_challenge o = Some ch ->
    challenge_last_sent ch = highest_sent (flow r).
Proof.
  unfold apply_close. destruct (session_apply_credit _ _ _) as [r1|] eqn:Ha; intros [= <- <-].
  2: { split_and!; [apply control_effect_refl|done|by intros ? ? [=]]. }
  apply session_apply_credit_ok in Ha as (w & Hw & ->).
  unfold fence_and_begin_close, commit_end. cbn [terminal].
  split_and!; [|by destruct (terminal _)|by intros o ch [= <-]].
  apply credit_effect; destruct (terminal _); cbn; eauto.
Qed.

Lemma apply_control_effect r c now nonce res r' :
  apply_control r c now nonce = (res, r') ->
  control_effect c r r' /\ control_receipt r' = control_receipt r /\
  forall o ch, res = Ok o -> outcome_challenge o = Some ch ->
    challenge_last_sent ch = highest_sent (flow r).
Proof.
  destruct c as [b|b id|b|b reason|b final]; cbn [apply_control];
    [| | |apply (apply_close_effect (ControlClose b reason))|apply (apply_close_effect (ControlEndAck b final))].
  - unfold apply_activate. destruct (negb _); [|destruct nonce as [id|]]; intros [= <- <-].
    1, 3: split_and!; [apply control_effect_refl|done|by intros ? ? [=]].
    split_and!; [|done|by intros o ch [= <-] [= <-]].
    split; [done..|by left|]. intros ch [= <-]. by right.
  - unfold apply_pulse. destruct (validate_credit _ _ _ _);
      [destruct (negb _)|]; try (intros [= <- <-];
        split_and!; [apply control_effect_refl|done|by intros ? ? [=]]).
    destruct (apply_credit_and_note _ _ _ _) as [r1|] eqn:Ha; intros [= <- <-].
    + apply apply_credit_and_note_ok in Ha as (w & d & Hw & ->).
      split_and!; [|done|by intros o ch [= <-]]. apply credit_effect; cbn; eauto.
    + split_and!; [|done|by intros ? ? [=]]. split; [done..|by left|]. by intros ch [=].
  - unfold apply_ack. destruct (apply_credit_and_note _ _ _ _) as [r1|] eqn:Ha; intros [= <- <-].
    + apply apply_credit_and_note_ok in Ha as (w & d & Hw & ->).
      split_and!; [|done|by intros o ch [= <-]]. apply credit_effect; cbn; eauto.
    + split_and!; [apply control_effect_refl|done|by intros ? ? [=]].
Qed.
(** The challenge of the last control. *)
Definition receipt_challenge (r : ProviderRecord) : option ChallengeState :=
  c ← control_receipt r; cached_challenge c.

Lemma classify_control_cached r seq hash cached :
  classify_control (control_receipt r) seq hash = Ok (Some cached) ->
  control_receipt r = Some cached.
Proof. unfold classify_control. intros. repeat case_match; naive_solver. Qed.

Lemma handle_control_effect r c now nonce res r' :
  handle_control r c now nonce = (res, r') ->
  control_effect c r r' /\
  (forall ch, receipt_challenge r' = Some ch ->
     receipt_challenge r = Some ch \/ challenge_last_sent ch = highest_sent (flow r)) /\
  (forall o ch, res = Ok o -> outcome_challenge o = Some ch ->
     receipt_challenge r = Some ch \/ challenge_last_sent ch = highest_sent (flow r)).
Proof.
  unfold handle_control.
  destruct (logical_control_hash c) as [hash|];
    [|intros [= <- <-]; split_and!; [apply control_effect_refl|auto|by intros ? ? [=]]].
  destruct (classify_control _ _ _) as [[cached|]|] eqn:Hc.
  - intros [= <- <-]. split_and!; [apply control_effect_refl|auto|]. intros o ch [= <-] Ho.
    apply classify_control_cached in Hc. left. unfold receipt_challenge. by rewrite Hc.
  - destruct (apply_control r c now nonce) as [[o|code] r1] eqn:Ha; intros [= <- <-];
      apply apply_control_effect in Ha as ([] & Hr & Hch).
    + split_and!; [by split| |].
      * intros ch Ho. right. by eapply Hch.
      * intros o' ch [= <-] Ho. right. by eapply Hch.
    + split_and!; [by split| |by intros ? ? [=]]. unfold receipt_challenge. rewrite Hr. auto.
  - intros [= <- <-]. split_and!; [apply control_effect_refl|auto|by intros ? ? [=]].
Qed.

Lemma in_challenges e ch :
  ch ∈ challenges e <->
  challenge (record e) = Some ch \/ receipt_challenge (record e) = Some ch \/
  ch ∈ timer_challenges (timer e) \/ ch ∈ (dispatches e ≫= dispatch_challenges).
Proof. unfold challenges. by rewrite !elem_of_app, !in_option_list. Qed.

(** The window after an effect. *)
Lemma effect_spec c r r' s :
  lane_refines live_limits Idle (flow r) s -> control_effect c r r' ->
  exists s', sent s' = sent s /\ lane_refines live_limits Idle (flow r') s' /\
    forall n, has_room live_limits s n -> has_room live_limits s' n.
Proof.
  intros Hf Heff. destruct (effect_flow _ _ _ Heff) as [Ef|Hc].
  { exists s. by rewrite Ef. }
  destruct Hf as (Hl & Href & Hwf & _).
  assert (limits_u64 (limits (flow r))) as Hu by (rewrite Hl; apply live_limits_u64).
  rewrite <- Hl in Hwf.
  destruct (apply_credit_ok _ _ Hu Href Hwf _ _ _ _ Hc) as ((? & ? & ? & _) & Hlim & Href').
  eexists (mkSpec (sent s) _ _). split; [done|]. split.
  - split_and!; [congruence|exact Href'| |done]. rewrite <- Hl. eapply spec_step_wf; [done|]. by constructor.
  - intros n. by apply has_room_credit.
Qed.

Lemma sent_highest w s : lane_refines live_limits Idle w s -> highest_sent w = len (sent s).
Proof. intros (_ & Href & _). apply Href. Qed.

Lemma dispatch_published e c now nonce s :
  published e s -> exists s', published (dispatch_control e c now nonce) s'.
Proof.
  intros Hp. pose proof (pub_flow _ _ Hp) as Hf. pose proof (sent_highest _ _ Hf) as Hn.
  unfold dispatch_control. destruct (handle_control _ _ _ _) as [res r'] eqn:Hh.
  apply handle_control_effect in Hh as (Heff & Hrec & Hout).
  destruct (effect_spec _ _ _ _ Hf Heff) as (s' & Hs' & Hf' & Hroom).
  assert (forall ch, challenge r' = Some ch \/ receipt_challenge r' = Some ch ->
    ch ∈ challenges e \/ (challenge_last_sent ch <= len (sent s))%N) as Hnew.
  { intros ch [Hc|Hc]; [apply (effect_challenge _ _ _ Heff) in Hc|apply Hrec in Hc];
      (destruct Hc as [Hc|Hc]; [left; apply in_challenges; auto|right; lia]). }
  assert (forall e' news, challenge (record e') = challenge r' ->
    receipt_challenge (record e') = receipt_challenge r' -> timer e' = timer e ->
    dispatches e' = (dispatches e ++ news)%list ->
    (forall ch, ch ∈ (news ≫= dispatch_challenges) -> exists o, res = Ok o /\
       outcome_challenge o = Some ch) ->
    forall ch, ch ∈ challenges e' -> ch ∈ challenges e \/ (challenge_last_sent ch <= len (sent s))%N)
    as Hall.
  { intros e' news Ec Er Et Ed Hnews ch.
    rewrite in_challenges, Ec, Er, Et, Ed, bind_app, elem_of_app.
    intros [?|[?|[?|[?|(o & Ho & Hc)%Hnews]]]];
      [by apply Hnew; auto..|left; apply in_challenges; by auto 6|left; apply in_challenges; by auto 6|].
    destruct (Hout _ _ Ho Hc); [left; apply in_challenges; auto|right; lia]. }
  exists s'. eapply quiet_published; [done|].
  destruct res as [o|code]; [destruct (outcome_defer_cleanup o)|];
    (split; [apply Heff..|done|done|by left|done|done|done|]).
  - apply (Hall _ []); try done; [by rewrite app_nil_r|by intros ch ?%not_elem_of_nil].
  - apply (Hall _ [DspAck c o (ack_body r' o) now]); try done. intros ch. cbn. rewrite app_nil_r, in_option_list. eauto.
  - apply (Hall _ [DspError c code]); try done. by intros ch ?%not_elem_of_nil.
Qed.
(** ** Publications *)

Lemma publish_frame_published e f p s :
  published e s -> frame_session f = session_id (record e) ->
  (forall raw, to_vec (frame_json f) = Ok raw -> frame_ok e s raw f) ->
  published (publish_frame e f p) s.
Proof.
  intros Hp Hsid Hok. unfold publish_frame.
  destruct (to_vec (frame_json f)) as [raw|] eqn:Hv; [|done]. destruct (on_wire p); [|done].
  destruct Hp as [Hf Hfac Hd Hs Hw Hch]. split; try done.
  intros raw' Hin. change (raw' ∈ (wire e ++ [raw])%list) in Hin.
  apply elem_of_app in Hin as [Hin| ->%list_elem_of_singleton]; [by apply Hw|].
  exists f. split_and!; auto. by apply Hok.
Qed.

Lemma publish_challenge_published e ch p s :
  published e s -> ch ∈ challenges e -> published (publish_challenge e ch p) s.
Proof.
  intros Hp Hch. unfold publish_challenge. destruct (bool_decide _); [done|].
  apply publish_frame_published; [done..|]. intros raw _. by apply (pub_challenges _ _ Hp).
Qed.

Lemma published_refines e s : published e s -> lane_refines live_limits Idle (flow (record e)) s.
Proof. apply pub_flow. Qed.

Lemma elem_of_delete_bind {A B} (f : A -> list B) i l b :
  b ∈ (delete i l ≫= f) -> b ∈ (l ≫= f).
Proof.
  rewrite !list_elem_of_bind. intros (a & Hb & Ha). exists a. split; [done|].
  by eapply list_elem_of_delete_inv.
Qed.

Lemma elem_of_insert_bind {A B} (f : A -> list B) i x l b :
  b ∈ (<[i:=x]> l ≫= f) -> b ∈ (l ≫= f) \/ b ∈ f x.
Proof.
  rewrite !list_elem_of_bind. intros (a & Hb & (j & Ha)%list_elem_of_lookup).
  apply list_lookup_insert_Some in Ha as [(<- & <- & _)|[_ Ha]]; [by right|left].
  exists a. split; [done|]. apply list_elem_of_lookup. eauto.
Qed.
(** ** Updates that publish nothing *)

Lemma published_record e r s :
  published e s -> kept (record e) r -> published (e <| record := r |>) s.
Proof.
  intros Hp Hk. eapply quiet_published; [done|].
  apply quiet_kept; try done; [apply Hp|by left|].
  intros ch Hch. apply in_challenges. rewrite elem_of_app in Hch. by destruct Hch; auto.
Qed.

Lemma published_set_record e r s :
  published e s -> kept (record e) r -> published (set_record e r) s.
Proof.
  intros Hp Hk. destruct (published_record _ _ _ Hp Hk) as [Hf Hfac Hd Hs Hw Hch]. by split.
Qed.

Lemma challenges_set_record e r :
  kept (record e) r -> challenges (set_record e r) = challenges e.
Proof.
  intros (_ & _ & _ & _ & Ech & Erec). unfold challenges. cbn. by rewrite Ech, Erec.
Qed.

Lemma published_dispatches e l s :
  published e s -> (forall ch, ch ∈ (l ≫= dispatch_challenges) -> ch ∈ challenges e) ->
  published (e <| dispatches := l |>) s.
Proof.
  intros Hp Hl. eapply quiet_published; [done|].
  apply quiet_kept; try done; [apply Hp|by left|].
  intros ch Hch. rewrite elem_of_app in Hch. destruct Hch as [Hch|Hch]; [|by apply Hl].
  apply in_challenges. auto.
Qed.

Lemma published_timer e t s :
  published e s -> (forall ch, ch ∈ timer_challenges t -> ch ∈ challenges e) ->
  published (e <| timer := t |>) s.
Proof.
  intros Hp Ht. eapply quiet_published; [done|].
  apply quiet_kept; try done; [apply Hp|by left|].
  intros ch Hch. rewrite elem_of_app in Hch. destruct Hch as [Hch|Hch]; [by apply Ht|].
  apply in_challenges. auto.
Qed.

Lemma published_closer e c s : published e s -> published (e <| closer := c |>) s.
Proof. intros []. by split. Qed.

Lemma published_reply e c a p s : published e s -> published (reply e c a p) s.
Proof. unfold reply. intros []. destruct (on_wire p); by split. Qed.

Lemma challenges_reply e c a p : challenges (reply e c a p) = challenges e.
Proof. unfold reply. by destruct (on_wire p). Qed.

Lemma published_returned e s :
  published e s -> driver e <> DrvAbsent -> published (e <| driver := DrvReturned |>) s.
Proof.
  intros Hp Hd. eapply quiet_published; [done|].
  apply quiet_kept; try done; [apply Hp|by right|].
  intros ch Hch. apply in_challenges. rewrite elem_of_app in Hch. by destruct Hch; auto.
Qed.

Lemma published_remove e i s : published e s -> published (remove_dispatch e i) s.
Proof.
  intros Hp. apply published_dispatches; [done|]. intros ch Hch%elem_of_delete_bind.
  apply in_challenges. auto.
Qed.

Lemma published_replace e i d s :
  published e s -> (forall ch, ch ∈ dispatch_challenges d -> ch ∈ challenges e) ->
  published (e <| dispatches := <[i := d]> (dispatches e) |>) s.
Proof.
  intros Hp Hd. apply published_dispatches; [done|].
  intros ch [Hch|Hch]%elem_of_insert_bind; [apply in_challenges; auto|auto].
Qed.

Lemma dispatch_challenge_in e i d ch :
  dispatches e !! i = Some d -> ch ∈ dispatch_challenges d -> ch ∈ challenges e.
Proof.
  intros Hi Hch. apply in_challenges. do 3 right. apply list_elem_of_bind. exists d.
  split; [done|]. by eapply list_elem_of_lookup_2.
Qed.

(** ** Tasks other than the source driver *)

Lemma dispatch_reply_published e i p e' s :
  published e s -> dispatch_reply e i p = Some e' -> published e' s.
Proof.
  intros Hp. unfold dispatch_reply. destruct (dispatches e !! i) as [d|] eqn:Hi; [|done].
  destruct d as [c o ack now|c code| | |]; try done.
  2: { intros [= <-]. by apply published_remove, published_reply. }
  assert (published (reply e c (Ok ack) p) s) as Hr by by apply published_reply.
  assert (forall ch, outcome_challenge o = Some ch ->
    ch ∈ challenges (reply e c (Ok ack) p)) as Hch.
  { intros ch Ho. rewrite challenges_reply. eapply dispatch_challenge_in; [done|].
    cbn. by apply in_option_list. }
  set (e1 := reply _ _ _ _) in *. clearbody e1.
  destruct p; [intros [= <-]; by apply published_remove|intros [= <-]..|].
  1, 2: apply published_remove, published_set_record; [done|apply kept_end_session].
  destruct (outcome_challenge o) as [ch|]; [intros [= <-]|].
  - apply published_replace; [done|]. cbn. intros ch' ->%list_elem_of_singleton. by apply Hch.
  - destruct (outcome_start_source o); intros [= <-]; [|by apply published_remove].
    apply published_replace; [done|]. by intros ch ?%not_elem_of_nil.
Qed.

Lemma challenges_publish e f p : challenges (publish_frame e f p) = challenges e.
Proof. unfold publish_frame. destruct (to_vec _); [|done]. by destruct (on_wire p). Qed.

Lemma dispatch_challenge_published e i p e' s :
  published e s -> dispatch_challenge e i p = Some e' -> published e' s.
Proof.
  intros Hp. unfold dispatch_challenge.
  destruct (dispatches e !! i) as [[| |ch start| |]|] eqn:Hi; try done.
  assert (published (publish_challenge e ch p) s) as Hc.
  { apply publish_challenge_published; [done|]. eapply dispatch_challenge_in; [done|]. by left. }
  destruct start; intros [= <-]; [|by apply published_remove].
  apply published_replace; [done|]. by intros ? ?%not_elem_of_nil.
Qed.

Lemma start_check_published e i e' s :
  published e s -> start_check e i = Some e' -> published e' s.
Proof.
  intros Hp. unfold start_check. destruct (dispatches e !! i) as [[]|]; try done.
  destruct (_ || _); intros [= <-]; [by apply published_remove|].
  apply published_replace; [done|]. by intros ? ?%not_elem_of_nil.
Qed.
Lemma start_source_published e i lost now e' s :
  published e s -> start_source_once e i lost now = Some e' -> published e' s.
Proof.
  intros Hp0. unfold start_source_once. destruct (dispatches e !! i) as [[]|]; try done.
  assert (published (remove_dispatch e i) s) as Hp by by apply published_remove.
  clear Hp0. set (e1 := remove_dispatch e i) in *. clearbody e1.
  destruct lost as [lost|]; [intros [= <-]; apply published_set_record; [done|apply kept_end_session]|].
  destruct (source_factory (record e1)) eqn:Hfac; intros [= <-];
    [|apply published_set_record; [done|apply kept_end_session]].
  destruct Hp as [Hf Hfac' Hd Hs Hw Hch].
  assert (driver e1 = DrvAbsent) as Hdrv.
  { destruct (driver e1); try done; by rewrite Hfac' in Hfac. }
  unfold driver_ok in Hd. rewrite Hdrv in Hd. destruct Hd as [Hprod Hn].
  split; try done.
  - unfold driver_ok. cbn. by rewrite Hprod, Hn.
  - intros raw (f & Hv & Hsid & Hok)%Hw. exists f. split_and!; try done.
    destruct f; try done. destruct Hok as (_ & _ & [Ho|[? Ho]] & _); congruence.
Qed.

Lemma evaluate_published e now nonce s :
  published e s -> published (evaluate_deadlines e now nonce) s.
Proof.
  intros Hp.
  assert (forall o, published (set_record e (end_session (record e) o now)
    <| timer := TimReturned |>) s) as Hover.
  { intros o. apply published_timer; [|by intros ? ?%not_elem_of_nil].
    apply published_set_record; [done|apply kept_end_session]. }
  unfold evaluate_deadlines. destruct (evaluate _ _) as [[]|]; try done; try apply Hover.
  - destruct nonce as [id|]; [|apply Hover].
    eapply quiet_published; [done|].
    split; try done; [by left|apply Hp|].
    intros ch Hch. apply in_challenges in Hch.
    assert (ch = mkChallengeState id (highest_sent (flow (record e))) \/ ch ∈ challenges e) as [->|?].
    { destruct Hch as [[= <-]|[?|[?%list_elem_of_singleton|?]]]; [by left| |by left|];
        right; apply in_challenges; auto. }
    + right. cbn. by rewrite (sent_highest _ _ (pub_flow _ _ Hp)).
    + by left.
  - apply published_timer; [done|]. cbn. destruct (challenge (record e)) as [ch|] eqn:Hc;
      [|by intros ? ?%not_elem_of_nil].
    intros ? ->%list_elem_of_singleton. apply in_challenges. auto.
  - apply published_record; [done|]. by split_and!.
  - apply published_timer; [|by intros ? ?%not_elem_of_nil].
    apply published_set_record; [done|]. by split_and!.
  - apply published_record; [done|]. by split_and!.
Qed.

Lemma timer_publish_published e p e' s :
  published e s -> timer_publish e p = Some e' -> published e' s.
Proof.
  intros Hp. unfold timer_publish. destruct (timer e) as [|ch now|ch|] eqn:Ht; try done.
  - assert (published (match ch with Some ch => publish_challenge e ch p | None => e end) s) as Hc.
    { destruct ch as [ch|]; [|done]. apply publish_challenge_published; [done|].
      apply in_challenges. do 2 right. left. rewrite Ht. by left. }
    set (e1 := match ch with Some _ => _ | None => _ end) in *. clearbody e1.
    intros [= <-]. apply published_timer; [|by intros ? ?%not_elem_of_nil].
    apply published_record; [done|]. by split_and!.
  - intros [= <-]. apply published_timer; [|by intros ? ?%not_elem_of_nil].
    apply publish_challenge_published; [done|]. apply in_challenges. do 2 right. left. rewrite Ht. by left.
Qed.

Lemma finish_published e settled now s :
  published e s -> published (snd (finish e settled now)) s.
Proof.
  intros Hp. unfold finish.
  assert (published (snd (run_owned_cleanup e settled)) s) as Hc.
  { unfold run_owned_cleanup. destruct (driver e) eqn:Hd; try done;
      apply published_returned; try done; by rewrite Hd. }
  destruct (run_owned_cleanup e settled) as [cleanup e1]. cbn in Hc.
  destruct (finish_closed (record e1) now cleanup) as [o r] eqn:Hf. cbn.
  apply published_record; [done|]. pose proof (kept_finish_closed (record e1) now cleanup) as Hk.
  by rewrite Hf in Hk.
Qed.

Lemma close_ack_published e pending p s :
  published e s -> published (publish_pending_close_ack e pending p) s.
Proof. destruct pending as [[c ack]|]; [apply published_reply|done]. Qed.
(** ** The source driver *)

(** The driver runs and has not ended the session. *)
Definition running (d : Driver) : Prop :=
  match d with DrvAbsent | DrvReturned | DrvEnded _ => False | _ => True end.

Lemma running_no_end e s raw :
  published e s -> running (driver e) -> raw ∈ wire e ->
  exists f, to_vec (frame_json f) = Ok raw /\ frame_session f = session_id (record e) /\
    match f with FrameEnd _ _ _ => False | _ => frame_ok e s raw f end.
Proof.
  intros Hp Hr (f & Hv & Hsid & Hok)%(pub_wire _ _ Hp). exists f. split_and!; try done.
  destruct f; try done. destruct Hok as (_ & _ & [Ho|[? Ho]] & _); by rewrite Ho in Hr.
Qed.

Lemma published_driver e d s :
  published e s -> running (driver e) -> d <> DrvAbsent ->
  driver_ok (e <| driver := d |>) s -> published (e <| driver := d |>) s.
Proof.
  intros Hp Hr Hd Hok. pose proof Hp as [Hf Hfac _ Hs _ Hch]. split; try done.
  - intros _. apply Hfac. by destruct (driver e).
  - intros raw (f & Hv & Hsid & Hfok)%(running_no_end _ _ _ Hp Hr). exists f.
    split_and!; try done. by destruct f.
Qed.

Lemma produce_published e v s :
  published e s -> driver e = DrvNext ->
  published (e <| produced := (produced e ++ [v])%list |> <| driver := DrvAttempt v |>) s.
Proof.
  intros Hp Hdrv. pose proof Hp as [Hf Hfac Hd Hs _ Hch].
  unfold driver_ok in Hd. rewrite Hdrv in Hd.
  split; try done.
  - intros _. apply Hfac. by rewrite Hdrv.
  - unfold driver_ok. cbn. rewrite length_app, <- Hd. cbn. split; [|lia].
    by rewrite lookup_app_r, Nat.sub_diag by lia.
  - intros i n (v' & body & Hv' & Hbody & ->)%Hs. exists v', body. split_and!; try done.
    by apply lookup_app_l_Some.
  - intros raw Hraw. destruct (running_no_end e s raw Hp) as (f & Hv & Hsid & Hfok);
      [by rewrite Hdrv|done|]. exists f. split_and!; try done. destruct f; try done.
    destruct Hfok as (i & ? & ? & ?). exists i. split_and!; try done. by apply lookup_app_l_Some.
Qed.

Lemma failed_published e v code now s :
  published e s -> running (driver e) -> staged (driver e) = Some v ->
  published (publication_failed e v code now) s.
Proof.
  intros Hp Hr Hst. unfold publication_failed. destruct (bool_decide _).
  - apply published_driver; [done..|]. pose proof (pub_driver _ _ Hp) as Hd.
    unfold driver_ok in *. cbn. destruct (driver e); try done; injection Hst as ->;
      [done..| | |done]; naive_solver.
  - apply (published_returned (set_record e _)).
    + apply published_set_record; [done|apply kept_end_session].
    + cbn. by destruct (driver e).
Qed.
Lemma check_data_frame_ok r v seq body s :
  lane_refines live_limits Idle (flow r) s -> check_data_frame r v = Ok (seq, body) ->
  seq = N.of_nat (S (List.length (sent s))) /\
  data_body (session_id r) (List.length (sent s)) v = Ok body /\
  has_room live_limits s (N.of_nat (String.length body)).
Proof.
  intros (Hl & Href & Hwf & _). unfold check_data_frame. destruct (_ || _); [done|].
  intros Hc. peel Hc as n Hn. peel Hc as b Hb. peel Hc as u Hu. injection Hc as -> ->.
  unfold next_frame_seq in Hn. apply ok_or_ok in Hn.
  apply checked_add_u64_Some in Hn as [-> _]. rewrite (ref_sent _ _ Href) in *.
  assert (len (sent s) + 1 = N.of_nat (S (List.length (sent s))))%N as Hseq by (unfold len; lia).
  rewrite Hseq in *. destruct u.
  rewrite <- Hl in Hwf. apply (validate_frame_slot_ok _ _ Href Hwf) in Hu as [Hroom _].
  rewrite Hl in Hroom. by split_and!.
Qed.

Lemma lane_published e v now s :
  published e s -> driver e = DrvLane v ->
  published match check_data_frame (record e) v with
            | Ok (seq, body) => e <| driver := DrvHandoff v seq body |>
            | Err code => publication_failed e v code now
            end s.
Proof.
  intros Hp Hdrv. pose proof (pub_driver _ _ Hp) as Hd. unfold driver_ok in Hd.
  rewrite Hdrv in Hd. destruct Hd as [Hv Hn].
  destruct (check_data_frame (record e) v) as [[seq body]|code] eqn:Hc.
  - apply check_data_frame_ok with (s := s) in Hc as (Hseq & Hb & Hroom); [|apply Hp].
    apply published_driver; [done|by rewrite Hdrv|done|]. unfold driver_ok. cbn. by split_and!.
  - apply failed_published; [done|by rewrite Hdrv..].
Qed.

Lemma handoff_published e v seq body s :
  published e s -> driver e = DrvHandoff v seq body ->
  published (e <| wire := (wire e ++ [body])%list |>) s.
Proof.
  intros Hp Hdrv. pose proof Hp as [Hf Hfac Hd Hs Hw Hch]. split; try done.
  intros raw Hin. change (raw ∈ (wire e ++ [body])%list) in Hin.
  apply elem_of_app in Hin as [Hin| ->%list_elem_of_singleton]; [by apply Hw|].
  unfold driver_ok in Hd. rewrite Hdrv in Hd. destruct Hd as (Hv & Hn & -> & Hb & Hroom).
  exists (FrameData (session_id (record e)) (N.of_nat (S (List.length (sent s)))) v).
  split_and!; try done. exists (List.length (sent s)). auto 6.
Qed.

(** The commit of a frame that had room. *)
Lemma commit_published e v seq body w s :
  published e s -> driver e = DrvCommit v seq body ->
  commit_frame (flow (record e)) seq (N.of_nat (String.length body)) = Ok w ->
  exists s', published (e <| record := record e <| flow := w |> |> <| driver := DrvAdmitted |>) s'.
Proof.
  intros Hp Hdrv Hc. pose proof Hp as [(Hl & Href & Hwf & _) Hfac Hd Hs _ Hch].
  unfold driver_ok in Hd. rewrite Hdrv in Hd. destruct Hd as (Hv & Hn & -> & Hb & Hroom).
  unfold commit_frame in Hc. peel Hc as u Hu. clear u Hu.
  assert (limits_u64 (limits (flow (record e)))) as Hlu by (rewrite Hl; apply live_limits_u64).
  rewrite <- Hl in Hwf, Hroom.
  pose proof (commit_locked_ok _ _ Hlu Href Hwf (N.of_nat (S (List.length (sent s)))) _ Hroom) as Hok.
  rewrite Hc in Hok.
  destruct Hok as (_ & Hmax & Hlim & Href').
  set (s' := mkSpec (sent s ++ [N.of_nat (String.length body)])%list (received s) (consumed s)).
  assert (List.length (sent s') = S (List.length (sent s))) as Hlen
    by (cbn; rewrite length_app; cbn; lia).
  exists s'. split; try done.
  - split_and!; [by rewrite <- Hl|done| |done]. rewrite <- Hl. eapply spec_step_wf; [done|]. by constructor.
  - intros _. apply Hfac. by rewrite Hdrv.
  - unfold driver_ok. cbn. rewrite length_app. cbn. lia.
  - intros i n. change (sent s') with (sent s ++ [N.of_nat (String.length body)])%list.
    rewrite lookup_snoc_Some. intros [[_ Hi]|[-> <-]]; [by apply Hs|]. exists v, body. by split_and!.
  - intros raw Hraw. destruct (running_no_end e s raw Hp) as (f & Hvf & Hsid & Hfok);
      [by rewrite Hdrv|done|]. exists f. split_and!; try done. destruct f; try done.
    + destruct Hfok as (i & ? & ? & ?). exists i. split_and!; try done. left. rewrite Hlen. lia.
    + cbn in *. unfold len in *. rewrite length_app. lia.
  - intros ch Hin. apply Hch in Hin. unfold len in *. rewrite Hlen. lia.
Qed.

Lemma end_published e o p s :
  published e s -> driver e = DrvEnding o ->
  published (publish_end e (terminal_from_end o) p <| driver := DrvEnded o |>) s.
Proof.
  intros Hp Hdrv. pose proof Hp as [Hf Hfac Hd Hs _ Hch]. unfold driver_ok in Hd. rewrite Hdrv in Hd.
  set (e1 := e <| record := record e <| end_sent := true |> |> <| driver := DrvEnded o |>).
  assert (published (e <| driver := DrvEnded o |>) s) as Hend.
  { apply published_driver; [done|by rewrite Hdrv|done|]. done. }
  assert (published e1 s) as Hp1.
  { split; try done; [intros _; apply Hfac; by rewrite Hdrv|].
    intros raw (f & Hv & Hsid & Hfok)%(running_no_end _ _ _ Hp ltac:(by rewrite Hdrv)).
    exists f. split_and!; try done. by destruct f. }
  unfold publish_end. destruct (end_sent (record e)); [done|].
  destruct (bool_decide _); [done|].
  set (f := FrameEnd _ _ _).
  assert (published (publish_frame e1 f p) s) as Hpub.
  { apply publish_frame_published; [done..|]. intros raw _.
    split_and!; [apply (sent_highest _ _ Hf)|done|right; by exists o|].
    intros _. cbn. rewrite (sent_highest _ _ Hf). unfold len. by rewrite <- Hd. }
  unfold publish_frame in *. destruct (to_vec _), (on_wire p); exact Hpub.
Qed.
Lemma drive_published e ev e' s :
  published e s -> drive_source e ev = Some e' -> exists s', published e' s'.
Proof.
  intros Hp. pose proof (pub_driver _ _ Hp) as Hd. unfold drive_source.
  destruct (driver e) as [| | |v|v|v seq body|v seq body| |v|o|o|] eqn:Hdrv;
    unfold driver_ok in Hd; rewrite Hdrv in Hd; try done; destruct ev; try done.
  - intros [= <-]. exists s. apply published_driver; [done|by rewrite Hdrv|by destruct (bool_decide _)|].
    unfold driver_ok. cbn. destruct (bool_decide _); [done|lia].
  - destruct item; intros [= <-]; exists s; [by apply produce_published|..];
      (apply published_driver; [done|by rewrite Hdrv|done..]).
  - destruct (cancelled _); [|done]. intros [= <-]. exists s.
    apply (published_returned (e <| record := _ |>)); [|cbn; by rewrite Hdrv].
    apply published_record; [done|]. by split_and!.
  - intros [= <-]. exists s.
    apply (published_driver (e <| record := _ |>));
      [apply published_record; [done|by split_and!]|cbn; by rewrite Hdrv|by destruct (bool_decide _)|].
    unfold driver_ok. cbn. destruct (bool_decide _); [done|lia].
  - intros He. exists s. pose proof (lane_published e v now s Hp Hdrv) as Hl.
    destruct (check_data_frame _ _) as [[seq body]|]; by injection He as <-.
  - intros He. exists s. pose proof (handoff_published _ _ _ _ _ Hp Hdrv) as Hw.
    destruct p; injection He as <-; try (apply failed_published; [done|by rewrite Hdrv..]).
    + apply (failed_published (e <| wire := _ |>)); [done|cbn; by rewrite Hdrv..].
    + apply (published_driver (e <| wire := _ |>)); [done|cbn; by rewrite Hdrv|done|done].
  - destruct (commit_frame _ _ _) as [w|] eqn:Hc; intros [= <-].
    + by eapply commit_published.
    + exists s. apply failed_published; [done|by rewrite Hdrv..].
  - intros [= <-]. exists s. apply (published_driver (e <| record := _ |>));
      [apply published_record; [done|by split_and!]|cbn; by rewrite Hdrv|done|done].
  - destruct (cancelled _); [|done]. intros [= <-]. exists s.
    apply (published_returned (e <| record := _ |>)); [|cbn; by rewrite Hdrv].
    apply published_record; [done|]. by split_and!.
  - destruct (credit_woken _); [|done]. intros [= <-]. exists s.
    apply published_driver; [done|by rewrite Hdrv|done|done].
  - intros [= <-]. exists s. by apply end_published.
  - intros [= <-]. exists s. apply (published_returned (set_record e _)); [|cbn; by rewrite Hdrv].
    apply published_set_record; [done|apply kept_end_session].
Qed.

Lemma exec_published e ev e' s :
  published e s -> exec e ev = Some e' -> exists s', published e' s'.
Proof.
  intros Hp. destruct ev; cbn [exec]; try (by intros; eapply drive_published).
  - destruct (lane_free e); [|done]. intros [= <-]. by apply dispatch_published with s.
  - destruct (lane_free e); [|done]. intros. exists s. by eapply dispatch_reply_published.
  - destruct (lane_free e); [|done]. intros. exists s. by eapply dispatch_challenge_published.
  - intros. exists s. by eapply start_check_published.
  - intros. exists s. by eapply start_source_published.
  - destruct (timer e); try done. intros [= <-]. exists s. by apply evaluate_published.
  - destruct (lane_free e); [|done]. intros. exists s. by eapply timer_publish_published.
  - destruct (timer e); try done. intros [= <-]. exists s.
    apply published_timer; [|by intros ? ?%not_elem_of_nil].
    apply published_set_record; [done|apply kept_end_session].
  - destruct (timer e); try done. destruct (cancelled _); [|done]. intros [= <-]. exists s.
    apply published_timer; [done|by intros ? ?%not_elem_of_nil].
  - destruct (closer e); try done. pose proof (finish_published e settled now s Hp) as Hf.
    destruct (finish e settled now) as [[cleanup o] e1]. intros He. apply (inj Some) in He as <-.
    exists s. apply published_closer, published_record; [done|by split_and!].
  - destruct (closer e); try done. destruct (lane_free e); [|done]. intros [= <-]. exists s.
    by apply published_closer, close_ack_published.
  - intros [= <-]. exists s. apply published_record; [done|by split_and!].
  - intros [= <-]. exists s. apply published_record; [done|by split_and!].
  - intros [= <-]. exists s. by apply finish_published.
Qed.

(** ** What a step leaves in place *)

Definition cursors (e : Engine) : N * N :=
  (highest_received (flow (record e)), highest_consumed (flow (record e))).

Record grows (e e' : Engine) : Prop := {
  grows_wire : wire e `prefix_of` wire e';
  grows_produced : produced e `prefix_of` produced e';
  grows_sid : session_id (record e') = session_id (record e);
  grows_cursors : cursors e' = cursors e;
}.

#[global] Instance grows_preorder : PreOrder grows.
Proof.
  split; [by intros e; split|]. intros e1 e2 e3 [] []. split; [by etrans..|congruence|congruence].
Qed.

Lemma grows_kept e e' :
  kept (record e) (record e') -> produced e' = produced e -> wire e' = wire e -> grows e e'.
Proof.
  intros (Ef & Es & _) Ep Ew. split; rewrite ?Ep, ?Ew; try done. unfold cursors. by rewrite Ef.
Qed.

Lemma grows_publish e f p : grows e (publish_frame e f p).
Proof.
  unfold publish_frame. destruct (to_vec _); [|done]. destruct (on_wire p); [|done].
  split; try done. by apply prefix_app_r.
Qed.

Lemma grows_challenge e ch p : grows e (publish_challenge e ch p).
Proof. unfold publish_challenge. destruct (bool_decide _); [done|apply grows_publish]. Qed.

Lemma grows_end e t p : grows e (publish_end e t p).
Proof.
  unfold publish_end. destruct (end_sent _); [done|].
  assert (grows e (e <| record := record e <| end_sent := true |> |>)) as He by by split.
  destruct (bool_decide _); [done|]. etrans; [exact He|apply grows_publish].
Qed.

Lemma grows_reply e c a p : grows e (reply e c a p).
Proof. unfold reply. by destruct (on_wire p). Qed.

Lemma grows_finish e settled now : grows e (snd (finish e settled now)).
Proof.
  unfold finish, run_owned_cleanup.
  assert (forall e1 cleanup, grows e e1 ->
    grows e (snd (let '(o, r) := finish_closed (record e1) now cleanup in
                  (cleanup, o, e1 <| record := r |>)))) as Hf.
  { intros e1 cleanup He. pose proof (kept_finish_closed (record e1) now cleanup) as Hk.
    destruct (finish_closed _ _ _) as [o r]. etrans; [exact He|]. by apply grows_kept. }
  destruct (driver e); apply Hf; by split.
Qed.

Lemma commit_frame_cursors w seq length w' :
  commit_frame w seq length = Ok w' ->
  highest_received w' = highest_received w /\ highest_consumed w' = highest_consumed w.
Proof.
  unfold commit_frame, commit_locked. intros Hc.
  peel Hc as u1 Hu1. peel Hc as n Hn. peel Hc as u2 Hu2. by injection Hc as <-.
Qed.

Lemma grows_failed e v code now : grows e (publication_failed e v code now).
Proof.
  unfold publication_failed. destruct (bool_decide _); [by split|].
  apply grows_kept; [apply kept_end_session|done..].
Qed.

Lemma drive_grows e ev e' : drive_source e ev = Some e' -> grows e e'.
Proof.
  unfold drive_source. destruct (driver e) as [| | |v|v|v seq body|v seq body| |v|o|o|], ev; try done.
  - intros [= <-]; by split.
  - destruct item; intros [= <-]; split; try done. by apply prefix_app_r.
  - destruct (cancelled _); intros [= <-]; by split.
  - intros [= <-]; by split.
  - destruct (check_data_frame _ _) as [[seq body]|]; intros [= <-]; [by split|apply grows_failed].
  - assert (grows e (e <| wire := (wire e ++ [body])%list |>)) as Hw
      by (split; try done; by apply prefix_app_r).
    destruct p; intros [= <-]; try apply grows_failed; [etrans; [exact Hw|apply grows_failed]|].
    etrans; [exact Hw|by split].
  - destruct (commit_frame _ _ _) as [w|] eqn:Hc; intros [= <-]; [|apply grows_failed].
    apply commit_frame_cursors in Hc as [Hr Hk]. split; try done. unfold cursors. cbn. congruence.
  - intros [= <-]; by split.
  - destruct (cancelled _); intros [= <-]; by split.
  - destruct (credit_woken _); intros [= <-]; by split.
  - intros [= <-]. etrans; [apply (grows_end e (terminal_from_end o) p)|by split].
  - intros [= <-]. apply grows_kept; [apply kept_end_session|done..].
Qed.

Lemma dispatch_reply_grows e i p e' : dispatch_reply e i p = Some e' -> grows e e'.
Proof.
  unfold dispatch_reply. destruct (dispatches e !! i) as [[c o ack now|c code| | |]|]; try done.
  - pose proof (grows_reply e c (Ok ack) p) as Hr.
    set (e1 := reply _ _ _ _) in *. clearbody e1. intros He. etrans; [exact Hr|].
    destruct p; [injection He as <-; by split|injection He as <-..|].
    1, 2: apply grows_kept; [apply kept_end_session|done..].
    destruct (outcome_challenge o); [|destruct (outcome_start_source o)]; injection He as <-; by split.
  - intros [= <-]. etrans; [apply (grows_reply e c (Err code) p)|by split].
Qed.

Lemma evaluate_grows e now nonce : grows e (evaluate_deadlines e now nonce).
Proof.
  unfold evaluate_deadlines. destruct (evaluate _ _) as [[]|]; try (by split);
    try (apply grows_kept; [apply kept_end_session|done..]).
  destruct nonce; [by split|]. apply grows_kept; [apply kept_end_session|done..].
Qed.

Lemma timer_grows e p e' : timer_publish e p = Some e' -> grows e e'.
Proof.
  unfold timer_publish. destruct (timer e) as [|[ch|] now|ch|]; try done; intros [= <-]; try by split.
  - (etrans; [apply (grows_challenge e ch p)|by split]).
  - (etrans; [apply (grows_challenge e ch p)|by split]).
Qed.

Lemma grows_close_ack e pending p : grows e (publish_pending_close_ack e pending p).
Proof. destruct pending as [[c ack]|]; [apply grows_reply|done]. Qed.

Lemma exec_grows e ev e' :
  exec e ev = Some e' -> match ev with EvControl _ _ _ => True | _ => grows e e' end.
Proof.
  destruct ev; cbn [exec]; try apply drive_grows; try done.
  - destruct (lane_free e); [apply dispatch_reply_grows|done].
  - destruct (lane_free e); [|done]. unfold dispatch_challenge.
    destruct (dispatches e !! i) as [[| |ch start| |]|]; try done.
    destruct start; intros [= <-]; (etrans; [apply (grows_challenge e ch p)|by split]).
  - unfold start_check. destruct (dispatches e !! i) as [[]|]; try done.
    destruct (_ || _); intros [= <-]; by split.
  - unfold start_source_once. destruct (dispatches e !! i) as [[]|]; try done.
    destruct lost; [|destruct (source_factory _)]; intros [= <-]; try (by split);
      apply grows_kept; try done; apply kept_end_session.
  - destruct (timer e); try done. intros [= <-]. apply evaluate_grows.
  - destruct (lane_free e); [apply timer_grows|done].
  - destruct (timer e); try done. intros [= <-]. apply grows_kept; [apply kept_end_session|done..].
  - destruct (timer e), (cancelled (record e)); try done; intros [= <-]; by split.
  - destruct (closer e); try done. pose proof (grows_finish e settled now) as Hf.
    destruct (finish e settled now) as [[cleanup o] e1]. intros [= <-]. etrans; [exact Hf|by split].
  - destruct (closer e) as [| |pending|]; try done. destruct (lane_free e); [|done].
    intros [= <-]. etrans; [apply (grows_close_ack e pending p)|by split].
  - intros [= <-]; by split.
  - intros [= <-]; by split.
  - intros [= <-]. apply grows_finish.
Qed.

(** A control moves the cursors to what it says, or leaves them. *)
Lemma dispatch_cursors e c now nonce s :
  published e s ->
  let e' := dispatch_control e c now nonce in
  wire e' = wire e /\ produced e' = produced e /\ session_id (record e') = session_id (record e) /\
  (cursors e' = cursors e \/
   cursors e' = (control_received (control_body c), control_consumed (control_body c))).
Proof.
  intros Hp. unfold dispatch_control. destruct (handle_control _ _ _ _) as [res r'] eqn:Hh.
  apply handle_control_effect in Hh as (Heff & _ & _).
  assert (cursors (e <| record := r' |>) = cursors e \/
    cursors (e <| record := r' |>) =
      (control_received (control_body c), control_consumed (control_body c))) as Hcur.
  { unfold cursors. cbn. destruct (effect_flow _ _ _ Heff) as [->|Hc]; [by left|right].
    destruct (pub_flow _ _ Hp) as (Hl & Href & Hwf & _). rewrite <- Hl in Hwf.
    assert (limits_u64 (limits (flow (record e)))) as Hu by (rewrite Hl; apply live_limits_u64).
    destruct (apply_credit_ok _ _ Hu Href Hwf _ _ _ _ Hc) as (_ & _ & []). cbn in *. congruence. }
  pose proof (effect_sid _ _ _ Heff) as Hsid.
  destruct res as [o|code]; [destruct (outcome_defer_cleanup o)|]; by split_and!.
Qed.

Lemma new_engine_published sid limit now : published (new_engine sid limit now) (mkSpec [] 0 0).
Proof.
  split; try done.
  - by intros raw ?%not_elem_of_nil.
  - by intros ch ?%not_elem_of_nil.
Qed.

Lemma run_published e evs e' s :
  published e s -> run e evs = Some e' -> exists s', published e' s'.
Proof.
  revert e s. induction evs as [|ev evs IH]; intros e s Hp; cbn [run]; [intros [= <-]; eauto|].
  destruct (exec e ev) as [e1|] eqn:He; [|done].
  destruct (exec_published _ _ _ _ Hp He) as [s1 Hp1]. by apply (IH e1 s1).
Qed.
End publication.
