(* ===== verification/LiveSource.v ===== *)
(** * Live provider: the source

    When the source of a session runs: it is started once, after the consumer's pulse was
    answered, and a driver that waits for credit is woken by it. *)

From Stdlib Require Import Ascii String.
From S2P Require Import Prelude RustStr Extern Json Protocol Wire Flow Live LiveTypes.
From S2P Require Import LiveDeadlines LiveProvider LiveEngine LivePublication.

Local Open Scope string_scope.

Section source.
Context `{Base64Url, Sha256}.
Local Existing Instance json_tree.
Context `{!CanonicalJson, !JsonCodec Json}.

(** ** Waiting for credit *)

(** The window and the wake-up of a record are as they were, and what frames are made with. *)
Definition steady (r r' : ProviderRecord) : Prop :=
  flow r' = flow r /\ credit_woken r' = credit_woken r
  /\ session_id r' = session_id r /\ data_body_limit r' = data_body_limit r.

Lemma steady_trans r1 r2 r3 : steady r1 r2 -> steady r2 r3 -> steady r1 r3.
Proof. intros (? & ? & ? & ?) (? & ? & ? & ?). split_and!; congruence. Qed.

Lemma steady_end_session r o now : steady r (end_session r o now).
Proof. unfold end_session, commit_end. by destruct (terminal r). Qed.

Lemma steady_finish_closed r now c : steady r (snd (finish_closed r now c)).
Proof. unfold finish_closed. by destruct (finished r). Qed.

(** The driver does nothing, or is over. *)
Record idles (e e' : Engine) : Prop := {
  idles_record : steady (record e) (record e');
  idles_driver : driver e' = driver e \/ driver e' = DrvReturned;
}.

Lemma idles_publish e f p : idles e (publish_frame e f p).
Proof. unfold publish_frame. destruct (to_vec _); [destruct (on_wire p)|]; by split; try left. Qed.

Lemma idles_challenge e ch p : idles e (publish_challenge e ch p).
Proof. unfold publish_challenge. destruct (bool_decide _); [by split; try left|apply idles_publish]. Qed.

Lemma idles_reply e c a p : idles e (reply e c a p).
Proof. unfold reply. destruct (on_wire p); by split; try left. Qed.

Lemma idles_set e e1 r :
  idles e e1 -> steady (record e1) r -> idles e (set_record e1 r).
Proof. intros [Hs Hd] Hs'. split; [|done]. by eapply steady_trans. Qed.

Lemma idles_over e e1 o now : idles e e1 -> idles e (set_record e1 (end_session (record e1) o now)).
Proof. intros He. apply idles_set; [done|apply steady_end_session]. Qed.

Lemma idles_same e e1 e2 :
  idles e e1 -> steady (record e1) (record e2) -> driver e2 = driver e1 -> idles e e2.
Proof. intros [Hs Hd] Hs' Hd'. rewrite <- Hd' in Hd. by split; [eapply steady_trans|]. Qed.

Lemma idles_refl e : idles e e.
Proof. by split; [|left]. Qed.

Lemma idles_finish e settled now : idles e (snd (finish e settled now)).
Proof.
  unfold finish, run_owned_cleanup.
  assert (forall e1 cleanup, idles e e1 ->
    idles e (snd (let '(o, r) := finish_closed (record e1) now cleanup in
                  (cleanup, o, e1 <| record := r |>)))) as Hf.
  { intros e1 cleanup He. pose proof (steady_finish_closed (record e1) now cleanup) as Hk.
    destruct (finish_closed _ _ _) as [o r]. by apply (idles_same e e1). }
  destruct (driver e) eqn:Hd; apply Hf; (split; [done|auto]).
Qed.

Lemma dispatch_reply_idles e i p e' : dispatch_reply e i p = Some e' -> idles e e'.
Proof.
  unfold dispatch_reply. destruct (dispatches e !! i) as [[c o ack now|c code| | |]|]; try done.
  - pose proof (idles_reply e c (Ok ack) p) as Hr. set (e1 := reply _ _ _ _) in *. clearbody e1.
    intros He. destruct p; [injection He as <-; by apply (idles_same e e1)|injection He as <-..|].
    1, 2: eapply idles_same; [apply (idles_over e e1); exact Hr|done..].
    destruct (outcome_challenge o); [|destruct (outcome_start_source o)]; injection He as <-;
      by apply (idles_same e e1).
  - intros [= <-]. eapply idles_same; [apply (idles_reply e c (Err code) p)|done..].
Qed.

Lemma evaluate_idles e now nonce : idles e (evaluate_deadlines e now nonce).
Proof.
  assert (forall o, idles e (set_record e (end_session (record e) o now) <| timer := TimReturned |>))
    as Hover by (intros o; eapply idles_same; [apply (idles_over e e o now), idles_refl|done..]).
  unfold evaluate_deadlines. destruct (evaluate _ _) as [[]|]; try apply Hover;
    try (by apply (idles_same e e); [apply idles_refl|..]).
  destruct nonce; [|apply Hover]. by apply (idles_same e e); [apply idles_refl|..].
Qed.

(** The steps of the other tasks. *)
Lemma exec_idles e ev e' :
  exec e ev = Some e' ->
  match ev with
  | EvControl _ _ _ | EvStart _ _ _ => True
  | _ => idles e e' \/ drive_source e ev = Some e'
  end.
Proof.
  destruct ev; cbn [exec]; auto.
  - destruct (lane_free e); [|done]. left. by eapply dispatch_reply_idles.
  - destruct (lane_free e); [|done]. unfold dispatch_challenge. intros He. left.
    destruct (dispatches e !! i) as [[| |ch start| |]|]; try done.
    destruct start; injection He as <-; (eapply idles_same; [apply (idles_challenge e ch p)|done..]).
  - unfold start_check. intros He. left. destruct (dispatches e !! i) as [[]|]; try done.
    destruct (_ || _); injection He as <-; by apply (idles_same e e); [apply idles_refl|..].
  - destruct (timer e); try done. intros [= <-]. left. apply evaluate_idles.
  - destruct (lane_free e); [|done]. unfold timer_publish. intros He. left.
    destruct (timer e) as [|[ch|] now|ch|]; try done; injection He as <-;
      try (by apply (idles_same e e); [apply idles_refl|..]);
      (eapply idles_same; [apply (idles_challenge e ch p)|done..]).
  - destruct (timer e); try done. intros [= <-]. left.
    eapply idles_same; [apply (idles_over e e (authority_end lost) now), idles_refl|done..].
  - destruct (timer e), (cancelled (record e)); try done. intros [= <-]. left.
    by apply (idles_same e e); [apply idles_refl|..].
  - destruct (closer e); try done. pose proof (idles_finish e settled now) as Hf.
    destruct (finish e settled now) as [[cleanup o] e1]. intros [= <-]. left. by apply (idles_same e e1).
  - destruct (closer e) as [| |[[c a]|]|]; try done; (destruct (lane_free e); [|done]); intros [= <-]; left.
    + eapply idles_same; [apply (idles_reply e c (Ok a) p)|done..].
    + by apply (idles_same e e); [apply idles_refl|..].
  - intros [= <-]. left. by apply (idles_same e e); [apply idles_refl|..].
  - intros [= <-]. left. by apply (idles_same e e); [apply idles_refl|..].
  - intros [= <-]. left. apply idles_finish.
Qed.

(** The window as it is has no room for the frame of a value, because of frames that are still
    to be acknowledged; or the frame numbers are used up. *)
Definition no_room (r : ProviderRecord) (v : Json) : Prop :=
  match next_frame_seq (flow r) with
  | Ok seq =>
      frames (flow r) <> [] /\
      exists body, to_vec (frame_json (FrameData (session_id r) seq v)) = Ok body
        /\ validate_frame_slot (flow r) (N.of_nat (String.length body)) (data_body_limit r)
           = Err WindowFull
  | Err _ => highest_sent (flow r) = u64_max
  end.

(** A driver that waits was woken, or there is no room yet. *)
Definition waiting_ok (e : Engine) : Prop :=
  match driver e with
  | DrvWait v => credit_woken (record e) = true \/ no_room (record e) v
  | _ => True
  end.

Lemma steady_waits r r' v :
  steady r r' -> credit_woken r = true \/ no_room r v -> credit_woken r' = true \/ no_room r' v.
Proof. intros (Hf & Hw & Hs & Hl). unfold no_room. by rewrite Hf, Hw, Hs, Hl. Qed.

Lemma waiting_idles e e' : waiting_ok e -> idles e e' -> waiting_ok e'.
Proof.
  intros Hw [Hs [Hd|Hd]]; unfold waiting_ok in *; rewrite Hd; [|done].
  destruct (driver e); try done. by eapply steady_waits.
Qed.

(** Credit that changes the window wakes the driver. *)
Lemma apply_control_wakes r c now nonce res r' :
  apply_control r c now nonce = (res, r') -> steady r r' \/ credit_woken r' = true.
Proof.
  assert (forall rc cc res r', apply_close r rc cc now = (res, r') ->
    steady r r' \/ credit_woken r' = true) as Hclose.
  { intros rc cc res0 r0. unfold apply_close.
    destruct (session_apply_credit _ _ _) as [r1|] eqn:Ha; intros [= <- <-]; [|by left].
    apply session_apply_credit_ok in Ha as (w & _ & ->). right.
    unfold fence_and_begin_close, commit_end. by destruct (terminal _). }
  destruct c; cbn [apply_control]; try apply Hclose.
  - unfold apply_activate. destruct (negb _); [|destruct nonce]; intros [= <- <-]; by left.
  - unfold apply_pulse. destruct (validate_credit _ _ _ _); [destruct (negb _)|];
      try (intros [= <- <-]; by left).
    destruct (apply_credit_and_note _ _ _ _) as [r1|] eqn:Ha; intros [= <- <-]; [|by left].
    apply apply_credit_and_note_ok in Ha as (w & d & _ & ->). by right.
  - unfold apply_ack. destruct (apply_credit_and_note _ _ _ _) as [r1|] eqn:Ha; intros [= <- <-];
      [|by left]. apply apply_credit_and_note_ok in Ha as (w & d & _ & ->). by right.
Qed.

Lemma handle_control_wakes r c now nonce res r' :
  handle_control r c now nonce = (res, r') -> steady r r' \/ credit_woken r' = true.
Proof.
  unfold handle_control. destruct (logical_control_hash c); [|intros [= <- <-]; by left].
  destruct (classify_control _ _ _) as [[]|]; try (intros [= <- <-]; by left).
  destruct (apply_control r c now nonce) as [[o|code] r1] eqn:Ha; intros [= <- <-];
    by apply apply_control_wakes in Ha.
Qed.

Lemma waiting_dispatch e c now nonce : waiting_ok e -> waiting_ok (dispatch_control e c now nonce).
Proof.
  intros Hw. unfold dispatch_control. destruct (handle_control _ _ _ _) as [res r'] eqn:Hh.
  apply handle_control_wakes in Hh.
  assert (waiting_ok (e <| record := r' |>)) as Hr.
  { unfold waiting_ok in *. cbn. destruct (driver e); try done.
    destruct Hh as [?|?]; [by eapply steady_waits|by left]. }
  destruct res as [o|]; [destruct (outcome_defer_cleanup o)|]; exact Hr.
Qed.

(** A frame of a legal length fits a window with nothing outstanding. *)
Lemma slot_refused w s length limit :
  lane_refines live_limits Idle w s -> validate_frame_slot w length limit = Err WindowFull ->
  frames w <> [].
Proof.
  intros (Hl & Href & _) Hv Hnil. pose proof (ref_frames _ _ Href) as Hf. rewrite Hnil in Hf.
  pose proof (ref_outstanding _ _ Href) as Ho.
  assert (outstanding s = []) as Hs by (by destruct (outstanding s)).
  rewrite Hs in Ho. change (total []) with 0%N in Ho. unfold validate_frame_slot, reject_if in Hv.
  rewrite Hl, Hnil, Ho in Hv.
  change (max_frame_bytes live_limits) with WINDOW_BYTES in Hv.
  change (window_bytes live_limits) with WINDOW_BYTES in Hv.
  destruct (N.ltb_spec (N.min WINDOW_BYTES limit) length); [done|].
  destruct (N.ltb_spec (WINDOW_BYTES - 0) length); [lia|done].
Qed.

(** The numbers of frames are used up. *)
Lemma next_frame_seq_none w s code :
  lane_refines live_limits Idle w s -> next_frame_seq w = Err code -> highest_sent w = u64_max.
Proof.
  intros (_ & Href & Hwf & _). unfold next_frame_seq, ok_or.
  destruct (checked_add_u64 _ _) eqn:Hc; [done|]. intros _. unfold checked_add_u64 in Hc.
  pose proof (wf_sequence _ _ Hwf). rewrite (ref_sent _ _ Href) in *.
  case_match eqn:Hle; [done|]. apply N.leb_gt in Hle. lia.
Qed.

Lemma next_frame_seq_exhausted w : highest_sent w = u64_max -> exists code, next_frame_seq w = Err code.
Proof. intros Hw. unfold next_frame_seq. rewrite Hw. by eexists. Qed.

Lemma check_refused r v s :
  lane_refines live_limits Idle (flow r) s -> check_data_frame r v = Err CodeResourceExhausted ->
  no_room r v.
Proof.
  intros Hf. unfold check_data_frame, no_room. destruct (_ || _); [done|].
  destruct (next_frame_seq (flow r)) as [seq|] eqn:Hn; cbn [map_err];
    [|intros _; by eapply next_frame_seq_none].
  destruct (to_vec _) as [body|]; cbn [map_err]; [|done].
  destruct (validate_frame_slot _ _ _) as [[]|code] eqn:Hv; cbn [map_err]; [done|].
  destruct code; try done; [|exfalso..].
  - intros _. split; [by eapply slot_refused|]. by exists body.
  - revert Hv. unfold validate_frame_slot, reject_if. destruct (_ <? _)%N; [done|]. by destruct (_ || _).
  - revert Hv. unfold validate_frame_slot, reject_if. destruct (_ <? _)%N; [done|]. by destruct (_ || _).
Qed.

Lemma commit_refused e s v seq body code :
  published e s -> driver e = DrvCommit v seq body ->
  commit_frame (flow (record e)) seq (N.of_nat (String.length body)) = Err code ->
  flow_error code = CodeResourceExhausted -> no_room (record e) v.
Proof.
  intros Hp Hdrv Hc Hcode. pose proof (pub_driver _ _ Hp) as Hd. unfold driver_ok in Hd.
  rewrite Hdrv in Hd. destruct Hd as (_ & _ & _ & _ & Hroom).
  destruct (pub_flow _ _ Hp) as (Hl & Href & Hwf & _). rewrite <- Hl in Hwf, Hroom.
  assert (limits_u64 (limits (flow (record e)))) as Hlu by (rewrite Hl; apply live_limits_u64).
  unfold commit_frame in Hc.
  rewrite (proj2 (validate_frame_slot_ok _ _ Href Hwf _ _)) in Hc by (split; [done|apply Hroom]).
  pose proof (commit_locked_ok _ _ Hlu Href Hwf seq _ Hroom) as Hok. rewrite Hc in Hok.
  assert (Hmax : highest_sent (flow (record e)) = u64_max)
    by (rewrite (ref_sent _ _ Href); by destruct code).
  unfold no_room. by destruct (next_frame_seq_exhausted _ Hmax) as [? ->].
Qed.

Lemma waiting_failed e v code now :
  (code = CodeResourceExhausted -> no_room (record e) v) ->
  waiting_ok (publication_failed e v code now).
Proof.
  intros Hc. unfold publication_failed. destruct (bool_decide_reflect (code = CodeResourceExhausted));
    [|done]. right. by apply Hc.
Qed.

Lemma waiting_drive e ev e' s :
  published e s -> waiting_ok e -> drive_source e ev = Some e' -> waiting_ok e'.
Proof.
  intros Hp Hw. unfold drive_source.
  destruct (driver e) as [| | |v|v|v seq body|v seq body| |v|o|o|] eqn:Hdrv, ev; try done.
  - intros [= <-]. unfold waiting_ok. cbn. by destruct (bool_decide _).
  - destruct item; by intros [= <-].
  - destruct (cancelled _); by intros [= <-].
  - intros [= <-]. unfold waiting_ok. cbn. by destruct (bool_decide _).
  - destruct (check_data_frame _ _) as [[seq body]|code] eqn:Hc; intros [= <-]; [done|].
    apply waiting_failed. intros ->. eapply check_refused; [apply Hp|done].
  - destruct p; intros [= <-]; try (by apply waiting_failed); [by destruct f; apply waiting_failed|done].
  - destruct (commit_frame _ _ _) as [w|code] eqn:Hc; intros [= <-]; [done|].
    apply waiting_failed. intros Hcode. by eapply commit_refused.
  - by intros [= <-].
  - destruct (cancelled _); by intros [= <-].
  - destruct (credit_woken _); by intros [= <-].
  - by intros [= <-].
  - by intros [= <-].
Qed.

Lemma waiting_start e i lost now e' :
  waiting_ok e -> start_source_once e i lost now = Some e' -> waiting_ok e'.
Proof.
  intros Hw. unfold start_source_once. destruct (dispatches e !! i) as [[]|]; try done.
  assert (forall o, waiting_ok (set_record (remove_dispatch e i)
    (end_session (record (remove_dispatch e i)) o now))) as Hover.
  { intros o. apply (waiting_idles e); [done|]. apply idles_over.
    by apply (idles_same e e); [apply idles_refl|..]. }
  destruct lost; [intros [= <-]; apply Hover|].
  destruct (source_factory _); intros He; apply (inj Some) in He as <-; [done|apply Hover].
Qed.

Lemma exec_waiting e ev e' s :
  published e s -> waiting_ok e -> exec e ev = Some e' -> waiting_ok e'.
Proof.
  intros Hp Hw He. apply exec_idles in He as Hi.
  assert (idles e e' \/ drive_source e ev = Some e' -> waiting_ok e') as Hgo
    by (intros [?|?]; [by eapply waiting_idles|by eapply waiting_drive]).
  destruct ev; try (by apply Hgo).
  - cbn [exec] in He. destruct (lane_free e); [|done]. injection He as <-. by apply waiting_dispatch.
  - by eapply waiting_start.
Qed.

(** ** Starting the source *)

(** The task of a control has the source to start. *)
Definition starts (d : Dispatch) : nat :=
  match d with
  | DspAck _ o _ _ => if outcome_start_source o then 1 else 0
  | DspChallenge _ start => if start then 1 else 0
  | DspStart | DspGuard => 1
  | DspError _ _ => 0
  end.

Definition starting (l : list Dispatch) : nat := sum_list_with starts l.

(** A pulse was answered, with the session active. *)
Definition answered (e : Engine) : Prop :=
  exists b id ack, (ControlPulse b id, Ok ack) ∈ replies e /\ ack_state ack = StateActive.

(** What a task that has the source to start rests on. *)
Definition start_ok (e : Engine) (d : Dispatch) : Prop :=
  match d with
  | DspAck c _ ack _ => (exists b id, c = ControlPulse b id) /\ ack_state ack = StateActive
  | _ => answered e
  end.

Record starting_ok (e : Engine) : Prop := {
  start_once : (starting (dispatches e) + (if source_factory (record e) then 0 else 1)
                <= if source_started (record e) then 1 else 0)%nat;
  start_tasks : forall d, d ∈ dispatches e -> starts d = 1%nat -> start_ok e d;
  start_driver : source_factory (record e) = false -> answered e;
}.

Lemma starting_delete i l d : l !! i = Some d -> starting l = (starting (delete i l) + starts d)%nat.
Proof.
  revert i. induction l as [|x l IH]; intros [|i] Hi; try done.
  - injection Hi as ->. unfold starting. cbn. lia.
  - cbn in Hi. apply IH in Hi. unfold starting in *.
    etrans; [exact (f_equal (Nat.add (starts x)) Hi)|]. apply Nat.add_assoc.
Qed.

Lemma starting_insert i l d d' :
  l !! i = Some d -> (starting (<[i:=d']> l) + starts d = starting l + starts d')%nat.
Proof.
  revert i. induction l as [|x l IH]; intros [|i] Hi; try done.
  - injection Hi as ->. unfold starting. cbn. lia.
  - cbn in Hi. apply IH in Hi. unfold starting in *.
    change (<[S i:=d']> (x :: l)) with (x :: <[i:=d']> l). cbn [sum_list_with].
    rewrite <- !Nat.add_assoc. by f_equal.
Qed.

Lemma starting_app l1 l2 : starting (l1 ++ l2) = (starting l1 + starting l2)%nat.
Proof. apply sum_list_with_app. Qed.

(** A step that has no part in starting the source. *)
Record undisturbed (e e' : Engine) : Prop := {
  same_dispatches : dispatches e' = dispatches e;
  same_factory : source_factory (record e') = source_factory (record e);
  same_started : source_started (record e') = source_started (record e);
  more_replies : replies e `prefix_of` replies e';
}.

Lemma answered_more e e' : replies e `prefix_of` replies e' -> answered e -> answered e'.
Proof.
  intros [l Hl] (b & id & ack & Hin & Hs). exists b, id, ack. split; [|done]. rewrite Hl.
  by apply elem_of_app; left.
Qed.

Lemma start_ok_more e e' d : replies e `prefix_of` replies e' -> start_ok e d -> start_ok e' d.
Proof. intros Hr. destruct d; try done; by apply answered_more. Qed.

Lemma starting_undisturbed e e' : starting_ok e -> undisturbed e e' -> starting_ok e'.
Proof.
  intros [Ho Ht Hd] [Ed Ef Es Hr]. split; rewrite ?Ed, ?Ef, ?Es; try done.
  - intros d Hin Hs. by eapply start_ok_more, Ht.
  - intros Hf. by eapply answered_more, Hd.
Qed.

(** What a control does about the source: only a pulse starts it, and only once. *)
Definition start_effect (r : ProviderRecord) (c : LiveControl)
    (res : result ControlOutcome LiveErrorCode) (r' : ProviderRecord) : Prop :=
  source_factory r' = source_factory r /\
  (source_started r = true -> source_started r' = true) /\
  forall o, res = Ok o -> outcome_start_source o = true ->
    source_started r = false /\ source_started r' = true /\
    (exists b id, c = ControlPulse b id) /\ outcome_state o = StateActive.

Lemma apply_control_starts r c now nonce res r' :
  apply_control r c now nonce = (res, r') -> start_effect r c res r'.
Proof.
  assert (forall rc cc res r', apply_close r rc cc now = (res, r') -> start_effect r c res r') as Hclose.
  { intros rc cc res0 r0. unfold apply_close.
    destruct (session_apply_credit _ _ _) as [r1|] eqn:Ha; intros [= <- <-]; [|by split_and!].
    apply session_apply_credit_ok in Ha as (w & _ & ->).
    unfold fence_and_begin_close, commit_end.
    destruct (terminal _); (split_and!; [done..|by intros o [= <-]]). }
  destruct c as [b|b id|b|b reason|b final]; cbn [apply_control]; try apply Hclose.
  - unfold apply_activate. destruct (negb _); [|destruct nonce]; intros [= <- <-];
      (split_and!; [done..|by intros o [= <-]]).
  - unfold apply_pulse. destruct (validate_credit _ _ _ _); [destruct (negb _)|];
      try (intros [= <- <-]; by split_and!).
    destruct (apply_credit_and_note _ _ _ _) as [r1|] eqn:Ha; intros [= <- <-]; [|by split_and!].
    apply apply_credit_and_note_ok in Ha as (w & d & _ & ->). cbn.
    split; [done|]. split; [cbn; intros ->; apply orb_true_r|]. intros o [= <-]. cbn.
    destruct (bool_decide (phase r = PhActivating)), (source_started r); try done. intros _.
    by split_and!; eauto.
  - unfold apply_ack. destruct (apply_credit_and_note _ _ _ _) as [r1|] eqn:Ha; intros [= <- <-];
      [|by split_and!]. apply apply_credit_and_note_ok in Ha as (w & d & _ & ->).
    split_and!; [done..|by intros o [= <-]].
Qed.

Lemma handle_control_starts r c now nonce res r' :
  handle_control r c now nonce = (res, r') -> start_effect r c res r'.
Proof.
  unfold handle_control. destruct (logical_control_hash c); [|intros [= <- <-]; by split_and!].
  destruct (classify_control _ _ _) as [[]|];
    try (intros [= <- <-]; split_and!; [done..|by intros o [= <-]]).
  destruct (apply_control r c now nonce) as [[o|code] r1] eqn:Ha; intros [= <- <-];
    by apply apply_control_starts in Ha.
Qed.

Lemma starting_dispatch e c now nonce : starting_ok e -> starting_ok (dispatch_control e c now nonce).
Proof.
  intros [Ho Ht Hd]. unfold dispatch_control. destruct (handle_control _ _ _ _) as [res r'] eqn:Hh.
  apply handle_control_starts in Hh as (Ef & Es & Hst).
  assert (forall e' news, dispatches e' = (dispatches e ++ news)%list ->
    source_factory (record e') = source_factory r' -> source_started (record e') = source_started r' ->
    replies e' = replies e ->
    (starting news = 0 \/ source_started (record e) = false /\ source_started r' = true /\
                           starting news = 1)%nat ->
    (forall d, d ∈ news -> starts d = 1%nat -> start_ok e d) -> starting_ok e') as Hall.
  { intros e' news Ed Ef' Es' Er Hnew Hok. split; rewrite ?Ed, ?Ef', ?Es', ?Ef.
    - rewrite starting_app. destruct Hnew as [->|(Hs & -> & ->)]; [|rewrite Hs in Ho; lia].
      destruct (source_started (record e)); [rewrite Es by done; lia|].
      destruct (source_started r'); lia.
    - intros d Hin Hs. apply (start_ok_more e); [by rewrite Er|].
      apply elem_of_app in Hin as [Hin|Hin]; auto.
    - intros Hf. apply (answered_more e); [by rewrite Er|auto]. }
  destruct res as [o|code]; [destruct (outcome_defer_cleanup o)|].
  - apply (Hall _ []); try done; [by rewrite app_nil_r|by left|by intros d ?%not_elem_of_nil].
  - apply (Hall _ [DspAck c o (ack_body r' o) now]); try done; unfold starting; cbn.
    + destruct (outcome_start_source o) eqn:Hs; [|by left].
      destruct (Hst o eq_refl Hs) as (? & ? & _). auto.
    + intros d ->%list_elem_of_singleton. cbn. destruct (outcome_start_source o) eqn:Hs; [|done].
      destruct (Hst o eq_refl Hs) as (_ & _ & Hp & Ha). by intros _.
  - apply (Hall _ [DspError c code]); try done; [by left|]. by intros d ->%list_elem_of_singleton.
Qed.

(** A task of a control goes on as [next], or is over. *)
Definition onto (e : Engine) (i : nat) (next : option Dispatch) : Engine :=
  match next with
  | Some d => e <| dispatches := <[i := d]> (dispatches e) |>
  | None => remove_dispatch e i
  end.

Definition next_starts (next : option Dispatch) : nat :=
  match next with Some d => starts d | None => 0 end.

Lemma starting_onto e e1 i d next :
  starting_ok e -> undisturbed e e1 -> dispatches e !! i = Some d ->
  (next_starts next <= starts d)%nat ->
  (next_starts next = 1%nat -> forall d', next = Some d' -> start_ok e1 d') ->
  starting_ok (onto e1 i next).
Proof.
  intros Hst Hu Hi Hle Hok. apply starting_undisturbed with (e' := e1) in Hst as [Ho Ht Hd]; [|done].
  rewrite <- (same_dispatches _ _ Hu) in Hi. destruct next as [d'|]; cbn in *.
  - split; [|intros x Hin Hx|done].
    + pose proof (starting_insert _ _ _ d' Hi) as Hsum.
      change (starting (<[i:=d']> (dispatches e1)) + (if source_factory (record e1) then 0 else 1)
              <= if source_started (record e1) then 1 else 0)%nat. lia.
    + apply list_elem_of_lookup in Hin as [j Hj].
      apply list_lookup_insert_Some in Hj as [(_ & <- & _)|[_ Hj]]; [by apply Hok|].
      apply Ht; [|done]. apply list_elem_of_lookup. eauto.
  - split; [|intros x Hin Hx|done].
    + pose proof (starting_delete _ _ _ Hi) as Hsum.
      change (starting (delete i (dispatches e1)) + (if source_factory (record e1) then 0 else 1)
              <= if source_started (record e1) then 1 else 0)%nat. lia.
    + apply Ht; [|done]. exact (list_elem_of_delete_inv _ _ _ Hin).
Qed.

Lemma undisturbed_refl e : undisturbed e e.
Proof. by split. Qed.

Lemma undisturbed_reply e c a p :
  undisturbed e (reply e c a p) /\ (on_wire p = true -> (c, a) ∈ replies (reply e c a p)).
Proof.
  unfold reply. destruct (on_wire p); [|by split]. split.
  - split; try done. by apply prefix_app_r.
  - intros _. apply elem_of_app. right. by apply list_elem_of_singleton.
Qed.

Lemma undisturbed_over e e1 o now :
  undisturbed e e1 -> undisturbed e (set_record e1 (end_session (record e1) o now)).
Proof.
  intros []. unfold end_session, commit_end. by split; cbn; destruct (terminal (record e1)).
Qed.

Lemma undisturbed_publish e f p : undisturbed e (publish_frame e f p).
Proof. unfold publish_frame. destruct (to_vec _); [destruct (on_wire p)|]; by split. Qed.

Lemma undisturbed_challenge e ch p : undisturbed e (publish_challenge e ch p).
Proof. unfold publish_challenge. destruct (bool_decide _); [by split|apply undisturbed_publish]. Qed.

Lemma starting_reply e i p e' : starting_ok e -> dispatch_reply e i p = Some e' -> starting_ok e'.
Proof.
  intros Hst. unfold dispatch_reply.
  destruct (dispatches e !! i) as [d|] eqn:Hi; [|done].
  assert (forall e1, undisturbed e e1 -> starting_ok (remove_dispatch e1 i)) as Hover.
  { intros e1 Hu. apply (starting_onto e e1 i _ None Hst Hu Hi); [apply Nat.le_0_l|done]. }
  destruct d as [c o ack now|c code| | |]; try done.
  - destruct (undisturbed_reply e c (Ok ack) p) as [Hu Hin].
    pose proof (start_tasks _ Hst _ ltac:(by eapply list_elem_of_lookup_2)) as Hok. cbn in Hok.
    set (e1 := reply _ _ _ _) in *.
    assert (outcome_start_source o = true -> on_wire p = true -> answered e1) as Hans.
    { intros Hs Hw. rewrite Hs in Hok. destruct (Hok eq_refl) as ((b & id & ->) & Ha).
      exists b, id, ack. auto. }
    clearbody e1. destruct p; intros He.
    + injection He as <-. by apply (Hover e1).
    + injection He as <-. by apply (Hover (set_record e1 _)), undisturbed_over.
    + injection He as <-. by apply (Hover (set_record e1 _)), undisturbed_over.
    + destruct (outcome_challenge o) as [ch|].
      * injection He as <-. apply (starting_onto e e1 i _ (Some (DspChallenge ch (outcome_start_source o))) Hst Hu Hi); [done|].
        cbn. destruct (outcome_start_source o); [|done]. intros _ d' [= <-]. by apply Hans.
      * destruct (outcome_start_source o) eqn:Hs; injection He as <-.
        -- apply (starting_onto e e1 i _ (Some DspStart) Hst Hu Hi); [cbn; by rewrite Hs|].
           intros _ d' [= <-]. by apply Hans.
        -- by apply (Hover e1).
  - destruct (undisturbed_reply e c (Err code) p) as [Hu _]. intros [= <-].
    by apply (Hover (reply e c (Err code) p)).
Qed.

Lemma starting_tasks e i e' ev :
  starting_ok e ->
  (exists p, ev = EvChallenge i p) \/ ev = EvStartCheck i \/ (exists lost now, ev = EvStart i lost now) ->
  exec e ev = Some e' -> starting_ok e'.
Proof.
  intros Hst Hev He. assert (exists d, dispatches e !! i = Some d) as [d Hi].
  { destruct Hev as [[p ->]|[->|(lost & now & ->)]]; cbn [exec] in He; [destruct (lane_free e); [|done]|..];
      unfold dispatch_challenge, start_check, start_source_once in He;
      destruct (dispatches e !! i); eauto; done. }
  assert (forall e1, undisturbed e e1 -> starting_ok (remove_dispatch e1 i)) as Hover.
  { intros e1 Hu. apply (starting_onto e e1 i _ None Hst Hu Hi); [apply Nat.le_0_l|done]. }
  pose proof (start_tasks _ Hst d ltac:(by eapply list_elem_of_lookup_2)) as Hok.
  destruct Hev as [[p ->]|[->|(lost & now & ->)]]; cbn [exec] in He.
  - destruct (lane_free e); [|done]. unfold dispatch_challenge in He. rewrite Hi in He.
    destruct d as [| |ch start| |]; try done. pose proof (undisturbed_challenge e ch p) as Hu.
    destruct start; apply (inj Some) in He as <-; [|by apply (Hover (publish_challenge e ch p))].
    apply (starting_onto e _ i _ (Some DspStart) Hst Hu Hi); [done|]. intros _ d' [= <-].
    apply (answered_more e); [apply Hu|by apply Hok].
  - unfold start_check in He. rewrite Hi in He. destruct d; try done.
    destruct (_ || _); apply (inj Some) in He as <-; [apply (Hover e), undisturbed_refl|].
    apply (starting_onto e e i _ (Some DspGuard) Hst (undisturbed_refl e) Hi); [done|].
    intros _ d' [= <-]. by apply Hok.
  - unfold start_source_once in He. rewrite Hi in He. destruct d; try done.
    pose proof (Hover e (undisturbed_refl e)) as Hr. destruct lost as [lost|].
    + apply (inj Some) in He as <-. eapply starting_undisturbed; [exact Hr|]. apply undisturbed_over, undisturbed_refl.
    + change (source_factory (record (remove_dispatch e i))) with (source_factory (record e)) in He.
      destruct (source_factory (record e)) eqn:Hfac.
      * apply (inj Some) in He as <-. destruct Hr as [_ Ht _]. split; [|exact Ht|intros _; by apply Hok].
        pose proof (start_once _ Hst) as Ho. rewrite Hfac, (starting_delete _ _ _ Hi) in Ho.
        change (starting (delete i (dispatches e)) + 1 <=
                if source_started (record e) then 1 else 0)%nat.
        cbn [starts] in Ho. lia.
      * apply (inj Some) in He as <-. eapply starting_undisturbed; [exact Hr|]. apply undisturbed_over, undisturbed_refl.
Qed.

Lemma undisturbed_failed e v code now : undisturbed e (publication_failed e v code now).
Proof.
  unfold publication_failed. destruct (bool_decide _); [by split|].
  destruct (undisturbed_over e e (provider_failure code "live publication failed") now
    (undisturbed_refl e)). by split.
Qed.

Lemma drive_undisturbed e ev e' : drive_source e ev = Some e' -> undisturbed e e'.
Proof.
  unfold drive_source. destruct (driver e) as [| | |v|v|v seq body|v seq body| |v|o|o|], ev; try done.
  - intros [= <-]; by split.
  - destruct item; intros [= <-]; by split.
  - destruct (cancelled _); intros [= <-]; by split.
  - intros [= <-]; by split.
  - destruct (check_data_frame _ _) as [[seq body]|]; intros He; apply (inj Some) in He as <-;
      [by split|apply undisturbed_failed].
  - destruct p; intros He; apply (inj Some) in He as <-; try apply undisturbed_failed; [|by split].
    destruct (undisturbed_failed (e <| wire := (wire e ++ [body])%list |>) v CodePeerLost now).
    by split.
  - destruct (commit_frame _ _ _) as [w|]; intros He; apply (inj Some) in He as <-;
      [by split|apply undisturbed_failed].
  - intros [= <-]; by split.
  - destruct (cancelled _); intros [= <-]; by split.
  - destruct (credit_woken _); intros [= <-]; by split.
  - intros He. apply (inj Some) in He as <-. unfold publish_end.
    destruct (end_sent _); [by split|]. destruct (bool_decide _); [by split|].
    destruct (undisturbed_publish (e <| record := record e <| end_sent := true |> |>)
      (FrameEnd (session_id (record e)) (highest_sent (flow (record e))) (terminal_from_end o)) p).
    by split.
  - intros He. apply (inj Some) in He as <-.
    destruct (undisturbed_over e e o now (undisturbed_refl e)). by split.
Qed.

Lemma undisturbed_evaluate e now nonce : undisturbed e (evaluate_deadlines e now nonce).
Proof.
  assert (forall o, undisturbed e (set_record e (end_session (record e) o now)
    <| timer := TimReturned |>)) as Hover.
  { intros o. destruct (undisturbed_over e e o now (undisturbed_refl e)). by split. }
  unfold evaluate_deadlines. destruct (evaluate _ _) as [[]|]; try apply Hover; try by split.
  destruct nonce; [by split|apply Hover].
Qed.

Lemma undisturbed_finish e settled now : undisturbed e (snd (finish e settled now)).
Proof.
  unfold finish, run_owned_cleanup, finish_closed.
  destruct (driver e); cbn [record]; destruct (finished _); by split.
Qed.

Lemma exec_starting e ev e' : starting_ok e -> exec e ev = Some e' -> starting_ok e'.
Proof.
  intros Hst He.
  assert (undisturbed e e' -> starting_ok e') as Hu by (intros; by eapply starting_undisturbed).
  destruct ev; try (by refine (starting_tasks e i e' _ Hst _ He); eauto 6); cbn [exec] in He;
    try (by apply Hu; eapply drive_undisturbed).
  - destruct (lane_free e); [|done]. injection He as <-. by apply starting_dispatch.
  - destruct (lane_free e); [|done]. by eapply starting_reply.
  - destruct (timer e); try done. injection He as <-. apply Hu, undisturbed_evaluate.
  - apply Hu. destruct (lane_free e); [|done]. unfold timer_publish in He.
    destruct (timer e) as [|[ch|] now|ch|]; try done; apply (inj Some) in He as <-; try by split.
    + destruct (undisturbed_challenge e ch p). by split.
    + destruct (undisturbed_challenge e ch p). by split.
  - apply Hu. destruct (timer e); try done. apply (inj Some) in He as <-.
    destruct (undisturbed_over e e (authority_end lost) now (undisturbed_refl e)). by split.
  - apply Hu. destruct (timer e), (cancelled (record e)); try done. injection He as <-. by split.
  - apply Hu. destruct (closer e); try done. pose proof (undisturbed_finish e settled now) as [].
    destruct (finish e settled now) as [[cleanup o] e1]. apply (inj Some) in He as <-. by split.
  - apply Hu. destruct (closer e) as [| |[[c a]|]|]; try done; (destruct (lane_free e); [|done]);
      apply (inj Some) in He as <-; [|by split]. destruct (undisturbed_reply e c (Ok a) p) as [[] _]. by split.
  - injection He as <-. apply Hu. by split.
  - injection He as <-. apply Hu. by split.
  - injection He as <-. apply Hu, undisturbed_finish.
Qed.

(** ** Runs *)

Lemma run_source sid limit now evs e :
  run (new_engine sid limit now) evs = Some e ->
  exists s, published e s /\ waiting_ok e /\ starting_ok e.
Proof.
  assert (forall e0, (exists s, published e0 s /\ waiting_ok e0 /\ starting_ok e0) ->
    run e0 evs = Some e -> exists s, published e s /\ waiting_ok e /\ starting_ok e) as Hrun.
  { induction evs as [|ev evs IH]; intros e0 Hok; cbn [run]; [intros [= <-]; eauto|].
    destruct (exec e0 ev) as [e1|] eqn:He; [|done]. apply IH. destruct Hok as (s & Hp & Hw & Hst).
    destruct (exec_published _ _ _ _ Hp He) as [s' Hp']. exists s'. split_and!; [done|..].
    - exact (exec_waiting e0 ev e1 s Hp Hw He).
    - exact (exec_starting e0 ev e1 Hst He). }
  apply Hrun. exists (mkSpec [] 0 0). split_and!; [apply new_engine_published|done|].
  split; try done. by intros d ?%not_elem_of_nil.
Qed.

Lemma run_sid e evs e' : run e evs = Some e' -> session_id (record e') = session_id (record e).
Proof.
  revert e. induction evs as [|ev evs IH]; intros e; cbn [run]; [by intros [= <-]|].
  destruct (exec e ev) as [e1|] eqn:He; [|done]. intros ->%IH. apply exec_grows in He as Hg.
  destruct ev; try apply Hg. cbn [exec] in He. destruct (lane_free e); [|done].
  injection He as <-. unfold dispatch_control.
  destruct (handle_control _ _ _ _) as [res r'] eqn:Hh. apply handle_control_effect in Hh as (Heff & _).
  pose proof (effect_sid _ _ _ Heff) as Hsid.
  destruct res as [o|]; [destruct (outcome_defer_cleanup o)|]; exact Hsid.
Qed.

(** C32: The source of a session runs only after a pulse of the consumer was answered with the
    session active, its factory is used at most once, and a task that is about to use it
    finds it. *)
Theorem source_starts_once sid limit now evs e :
  run (new_engine sid limit now) evs = Some e ->
  (driver e <> DrvAbsent \/ produced e <> [] -> answered e) /\
  (DspGuard ∈ dispatches e -> source_factory (record e) = true /\ driver e = DrvAbsent).
Proof.
  intros (s & Hp & _ & Hst)%run_source. split.
  - intros Hd. apply (start_driver _ Hst), (pub_factory _ _ Hp). destruct Hd as [Hd|Hd]; [done|].
    intros Ha. pose proof (pub_driver _ _ Hp) as Hok. unfold driver_ok in Hok. rewrite Ha in Hok.
    by destruct Hok.
  - intros Hin. pose proof (start_once _ Hst) as Ho.
    apply list_elem_of_lookup in Hin as [i Hi]. rewrite (starting_delete _ _ _ Hi) in Ho.
    cbn [starts] in Ho.
    destruct (source_factory (record e)) eqn:Hf; [|destruct (source_started (record e)); lia].
    split; [done|]. destruct (driver e) eqn:Hd; try done;
      by rewrite (pub_factory _ _ Hp) in Hf by (by rewrite Hd).
Qed.

(** C33: No credit is lost on a driver that waits for room.  A driver that waits was woken, and
    then its next step tries the value again; or the window, as it is now, still has no room
    for the frame of the value, because of frames sent that are still to be acknowledged, so
    that more credit is to come; or the session has used up its frame numbers. *)
Theorem waiting_driver_is_woken sid limit now evs e v :
  run (new_engine sid limit now) evs = Some e -> driver e = DrvWait v ->
  (credit_woken (record e) = true /\ exec e EvCredit = Some (e <| driver := DrvAttempt v |>)) \/
  no_room (record e) v.
Proof.
  intros (s & _ & Hw & _)%run_source Hd. unfold waiting_ok in Hw. rewrite Hd in Hw.
  destruct Hw as [Hk|?]; [left|by right]. split; [done|]. cbn. unfold drive_source. by rewrite Hd, Hk.
Qed.

(** C22: The frames of a session, whatever its tasks do: a data frame carries the value of the
    source its number counts to, a challenge counts no frame that was not sent, an end
    frame counts every frame sent, and one that says [Complete] every value of the source. *)
Theorem published_frames_exact sid limit now evs e :
  run (new_engine sid limit now) evs = Some e ->
  Forall (fun raw => exists f, to_vec (frame_json f) = Ok raw /\ frame_session f = sid /\
    match f with
    | FrameData _ seq v => exists i, seq = N.of_nat (S i) /\ produced e !! i = Some v
    | FrameChallenge _ _ n => (n <= highest_sent (flow (record e)))%N
    | FrameEnd _ n t =>
        n = highest_sent (flow (record e)) /\
        (terminal_reason t = EndComplete -> n = N.of_nat (List.length (produced e)))
    end) (wire e).
Proof.
  intros Hr. pose proof Hr as (s & Hp & _ & _)%run_source.
  assert (session_id (record e) = sid) as Hsid by (by eapply run_sid in Hr).
  apply Forall_forall.
  intros raw (f & Hv & Hs & Hok)%(pub_wire _ _ Hp). exists f. rewrite Hsid in Hs. split_and!; try done.
  rewrite (sent_highest _ _ (pub_flow _ _ Hp)). destruct f; [|done|].
  - destruct Hok as (i & ? & ? & _). eauto.
  - destruct Hok as (? & _ & _ & ?). done.
Qed.
End source.
