(* ===== verification/LiveConsumer.v ===== *)
(** * Live consumer: the subscription

    A consumer's side of a session, from [subscription.rs] and the data pump of
    [client_open.rs], both of [crates/trellis/src/live]: the core the handle shares with its
    pump, the polls of the application, the control exchanges and the pump.

    A step is what a task does from one [await] to the next; a poll that returns [Pending]
    is two steps, since the pump may run before the waker is registered, and so is
    discarding the queue before an outcome is committed.  Locks are not poisoned and
    telemetry is left out.  The counters of frames and controls go up by one at a time from
    zero and are taken not to reach the end of their range.  [core_discarded] is whether a
    queued slot was ever dropped, [controls] every control body published, and [delivered]
    the values handed to the application: no code reads them. *)

From Stdlib Require Import Ascii String.
From S2P Require Import Prelude RustStr Extern Json Protocol Wire Live LiveTypes.
From S2P Require Import LiveDeadlines LiveProvider LiveEngine.

Local Open Scope string_scope.

(** ** The core *)

Inductive Slot (T : Type) :=
| SlotValue (value : T) (encoded_len : N)
| SlotFiltered.
Arguments SlotValue {T} value encoded_len.
Arguments SlotFiltered {T}.

Inductive ConsumerPhase :=
| ConPrepared
| ConActivating
| ConActive
| ConDraining
| ConClosing
| ConClosed.

Global Instance ConsumerPhase_eq_dec : EqDecision ConsumerPhase.
Proof. solve_decision. Defined.

(** [start_permit] and [credit_permit] are the permits [notify_one] leaves; [waker] is
    whether one is registered, [woken] whether the application's task was woken since. *)
Record ConsumerCore (T : Type) := mkConsumerCore {
  core_session : string;
  core_phase : ConsumerPhase;
  queue : list (Slot T);
  queued_bytes : N;
  core_received : N;
  core_consumed : N;
  core_cancelled : bool;
  core_end : option LiveEnd;
  error_reported : bool;
  pending_end : option LiveEnd;
  start_permit : bool;
  credit_permit : bool;
  waker : bool;
  woken : bool;
  core_discarded : bool;
}.
Arguments mkConsumerCore {T}.
Arguments core_session {T}.
Arguments core_phase {T}.
Arguments queue {T}.
Arguments queued_bytes {T}.
Arguments core_received {T}.
Arguments core_consumed {T}.
Arguments core_cancelled {T}.
Arguments core_end {T}.
Arguments error_reported {T}.
Arguments pending_end {T}.
Arguments start_permit {T}.
Arguments credit_permit {T}.
Arguments waker {T}.
Arguments woken {T}.
Arguments core_discarded {T}.

Global Instance ConsumerCore_settable {T} : Settable (ConsumerCore T) := fun c =>
  mkConsumerCore (core_session c) (core_phase c) (queue c) (queued_bytes c) (core_received c)
    (core_consumed c) (core_cancelled c) (core_end c) (error_reported c) (pending_end c)
    (start_permit c) (credit_permit c) (waker c) (woken c) (core_discarded c).

Section core.
Context {T : Type}.
Implicit Types (c : ConsumerCore T) (q : list (Slot T)).

(** [ConsumerCore::new] *)
Definition new_core (session : string) : ConsumerCore T := {|
  core_session := session;
  core_phase := ConPrepared;
  queue := [];
  queued_bytes := 0;
  core_received := 0;
  core_consumed := 0;
  core_cancelled := false;
  core_end := None;
  error_reported := false;
  pending_end := None;
  start_permit := false;
  credit_permit := false;
  waker := false;
  woken := false;
  core_discarded := false;
|}.

Definition wake c : ConsumerCore T :=
  if waker c then c <| waker := false |> <| woken := true |> else c.

Definition set_pending_end c (e : LiveEnd) : ConsumerCore T :=
  wake (match pending_end c with None => c <| pending_end := Some e |> | Some _ => c end).

Definition core_commit_end c (e : LiveEnd) : ConsumerCore T :=
  match core_end c with
  | None => wake (c <| core_end := Some e |> <| core_phase := ConClosed |>)
  | Some _ => c
  end.

Definition has_queued c : bool := match queue c with [] => false | _ => true end.

Definition drain_complete c : option LiveEnd * ConsumerCore T :=
  if has_queued c then (None, c)
  else
    match pending_end c with
    | None => (None, c)
    | Some e => (Some e, core_commit_end (c <| pending_end := None |>) e)
    end.

Definition record_received c : ConsumerCore T := c <| core_received := (core_received c + 1)%N |>.

Definition release_filtered c : bool * ConsumerCore T :=
  if (WINDOW_FRAMES <? N.of_nat (List.length (queue c)) + 1)%N then (false, c)
  else (true, wake (c <| queue := (queue c ++ [SlotFiltered])%list |>)).

Definition core_admit c (value : T) (encoded_len : N) : bool * ConsumerCore T :=
  if (WINDOW_FRAMES <? N.of_nat (List.length (queue c)) + 1)%N
     || (WINDOW_BYTES <? queued_bytes c + encoded_len)%N then (false, c)
  else
    (true, wake (c <| queue := (queue c ++ [SlotValue value encoded_len])%list |>
                   <| queued_bytes := wrapping_add_u64 (queued_bytes c) encoded_len |>)).

(** The filtered slots at the front, and what follows. *)
Fixpoint leading_filtered q : N * list (Slot T) :=
  match q with
  | SlotFiltered :: q => let '(n, rest) := leading_filtered q in ((n + 1)%N, rest)
  | _ => (0%N, q)
  end.

(** [consume], with the queue taken apart. *)
Fixpoint consume_from q c : option T * ConsumerCore T :=
  match q with
  | [] => (None, c <| queue := [] |>)
  | SlotFiltered :: q =>
      consume_from q (c <| core_consumed := (core_consumed c + 1)%N |> <| credit_permit := true |>)
  | SlotValue value encoded_len :: q =>
      let '(n, rest) := leading_filtered q in
      (Some value,
       c <| queue := rest |>
         <| queued_bytes := wrapping_sub_u64 (queued_bytes c) encoded_len |>
         <| core_consumed := (core_consumed c + 1 + n)%N |>
         <| credit_permit := true |>)
  end.

Definition consume c : option T * ConsumerCore T := consume_from (queue c) c.

Definition discard_queue c : ConsumerCore T :=
  c <| queue := [] |>
    <| queued_bytes := 0%N |>
    <| core_discarded := core_discarded c || has_queued c |>.
End core.

(** ** Controls *)

(** The control a consumer builds from its cursors. *)
Definition control_base (session : string) (seq received consumed : N) : LiveControlBase := {|
  control_format := LIVE_VERSION;
  control_session := session;
  control_sequence := seq;
  control_received := received;
  control_consumed := consumed;
|}.

Definition activate_control (session : string) : LiveControl :=
  ControlActivate (control_base session 1 0 0).
Definition pulse_control (session : string) (seq : N) (challenge_id : string)
    (received consumed : N) : LiveControl :=
  ControlPulse (control_base session seq received consumed) challenge_id.
Definition credit_control (session : string) (seq received consumed : N) : LiveControl :=
  ControlAck (control_base session seq received consumed).
Definition close_control (session : string) (seq : N) (reason : ConsumerCloseReason)
    (received consumed : N) : LiveControl :=
  ControlClose (control_base session seq received consumed) reason.
Definition end_ack_control (session : string) (seq final_seq received consumed : N) : LiveControl :=
  ControlEndAck (control_base session seq received consumed) final_seq.

(** Which exchange the pump is in, with what it does once it is over.  [Credit] keeps the
    time it was due at and the cursor it reports, [EndAck] the outcome it confirms. *)
Inductive Purpose :=
| ForActivation
| ForCredit (now consumed : N)
| ForPulse
| ForEnd (e : LiveEnd).

(** ** The subscription *)

Record Exchange := mkExchange {
  exchange_control : LiveControl;
  exchange_seq : N;
  exchange_purpose : Purpose;
}.

Inductive Pump :=
| PumpStart
| PumpSubscribe
| PumpReconcile
| PumpSend (x : Exchange)
| PumpAwait (x : Exchange)
| PumpLoop
| PumpSelect
| PumpDrain
| PumpDiscarded (e : LiveEnd)
| PumpReturned.

(** The application's task: in its own code, about to register its waker, waiting to be
    woken, in a close exchange that ends at an instant, or without its handle. *)
Inductive App :=
| AppRunning
| AppRegister
| AppParked
| AppCloseSend (control : LiveControl) (deadline : N)
| AppCloseAwait (control : LiveControl) (deadline : N)
| AppDropped
| AppDropSend (control : LiveControl) (deadline : N)
| AppDropAwait (control : LiveControl) (deadline : N).

(** What the opening exchange pinned. *)
Record ConsumerPins := mkConsumerPins {
  pinned_session : string;
  pinned_session_key : string;
  pinned_identity_key : string;
  max_data_body_bytes : N;
  reservation_deadline : N;
}.

(** [LiveSubscription], [ConsumerControl], the locals of the pump and both tasks. *)
Record Consumer (T : Type) := mkConsumer {
  core : ConsumerCore T;
  activated : bool;
  guard_held : bool;
  close_result : option LiveCloseReceipt;
  close_started : bool;
  last_control_seq : N;
  cancellation : bool;
  pump : Pump;
  pump_deadlines : LiveDeadlines;
  next_expected : N;
  last_credit_sent : N;
  pending_credit : option (N * N * N);
  app : App;
  controls : list string;
  delivered : list T;
}.
Arguments mkConsumer {T}.
Arguments core {T}.
Arguments activated {T}.
Arguments guard_held {T}.
Arguments close_result {T}.
Arguments close_started {T}.
Arguments last_control_seq {T}.
Arguments cancellation {T}.
Arguments pump {T}.
Arguments pump_deadlines {T}.
Arguments next_expected {T}.
Arguments last_credit_sent {T}.
Arguments pending_credit {T}.
Arguments app {T}.
Arguments controls {T}.
Arguments delivered {T}.

Global Instance Consumer_settable {T} : Settable (Consumer T) := fun c =>
  mkConsumer (core c) (activated c) (guard_held c) (close_result c) (close_started c)
    (last_control_seq c) (cancellation c) (pump c) (pump_deadlines c) (next_expected c)
    (last_credit_sent c) (pending_credit c) (app c) (controls c) (delivered c).

(** [Poll<Option<Result<T, _>>>] *)
Inductive Poll (T : Type) :=
| PollItem (value : T)
| PollError (error : LiveStreamError)
| PollEnd
| PollPending.
Arguments PollItem {T} value.
Arguments PollError {T} error.
Arguments PollEnd {T}.
Arguments PollPending {T}.

(** A message of the data subscription; a header that is missing is [None]. *)
Record Message := mkMessage {
  message_context : option string;
  message_session_key : option string;
  message_proof : option string;
  message_subject : string;
  message_payload : string;
}.

Inductive Subscribed := SubscribeOk | SubscribeFailed | FlushFailed.

Inductive ConEvent :=
| CStart
| CCancelled
| CReservation
| CSubscribed (r : Subscribed)
| CReconciled (lost : option LiveAuthorityLost)
| CSend (sent : bool)
| CAck (response : option ControlAckBody) (now : N)
| CLoop
| CCredit (now : N)
| CGuardChanged (lost : option LiveAuthorityLost)
| CDeadline (now : N) (lost : option LiveAuthorityLost)
| CMessage (m : option Message) (lost : option LiveAuthorityLost)
| CDrainDeadline (now : N)
| CDrainNotified (now : N)
| CCommit
| CPoll (lost : option LiveAuthorityLost)
| CRegister
| CMapComplete
| CClose (now : N)
| CCloseSend (sent : bool)
| CCloseAck (response : option ControlAckBody) (now : N)
| CCloseAbandoned
| CDrop (runtime : bool) (now : N).

Definition cancelled_end : LiveEnd := mkLiveEnd EndCancelled None.

Section subscription.
Context {T : Type}.
Implicit Types c : Consumer T.

(** A prepared handle with its pump. *)
Definition new_consumer (pins : ConsumerPins) : Consumer T := {|
  core := new_core (pinned_session pins);
  activated := false;
  guard_held := true;
  close_result := None;
  close_started := false;
  last_control_seq := 0;
  cancellation := false;
  pump := PumpStart;
  pump_deadlines := prepared_until (reservation_deadline pins);
  next_expected := 1;
  last_credit_sent := 0;
  pending_credit := None;
  app := AppRunning;
  controls := [];
  delivered := [];
|}.

Definition next_control_seq c : N * Consumer T :=
  let seq := (last_control_seq c + 1)%N in (seq, c <| last_control_seq := seq |>).

(** ** Polls *)

Definition readable c : bool :=
  bool_decide (core_phase (core c) = ConActive) || bool_decide (core_phase (core c) = ConDraining).

(** The end of [poll_next], before the waker is registered. *)
Definition poll_drain c : Poll T * Consumer T :=
  let '(drained, k) := drain_complete (core c) in
  (match drained with Some _ => PollEnd | None => PollPending end, c <| core := k |>).

Definition poll_queue c : Poll T * Consumer T :=
  if readable c then
    match consume (core c) with
    | (Some value, k) => (PollItem value, c <| core := snd (drain_complete k) |>)
    | (None, k) => poll_drain (c <| core := k |>)
    end
  else poll_drain c.

(** The checks [poll_next] makes first: the guard slot, the activation, the fence of a
    dropped handle, and the authority ([lost] is what [check_now] finds). *)
Definition poll_start c : Consumer T :=
  let c := match core_end (core c) with Some _ => c <| guard_held := false |> | None => c end in
  if activated c then c
  else c <| activated := true |> <| core := core c <| start_permit := true |> |>.

Definition poll_authority c (lost : option LiveAuthorityLost) : Consumer T :=
  match core_end (core c), lost with
  | None, Some lost =>
      if bool_decide (core_phase (core c) = ConActive) && guard_held c then
        c <| core := core_commit_end (discard_queue (core c)) (authority_end lost) |>
      else c
  | _, _ => c
  end.

Definition poll_failed c (e : LiveEnd) : Poll T * Consumer T :=
  let k := discard_queue (core c) in
  match end_error e with
  | Some error =>
      if error_reported k then (PollEnd, c <| core := k |>)
      else (PollError error, c <| core := k <| error_reported := true |> |>)
  | None => (PollEnd, c <| core := k |>)
  end.

Definition poll_next c (lost : option LiveAuthorityLost) : Poll T * Consumer T :=
  let c := poll_start c in
  if core_cancelled (core c) then (PollEnd, c <| core := discard_queue (core c) |>)
  else
    let c := poll_authority c lost in
    match core_end (core c) with
    | Some e =>
        if negb (is_complete e) then poll_failed c e
        else
          let '(drained, k) := drain_complete (core c) in
          let c := c <| core := k |> in
          match drained with
          | Some _ => (PollEnd, c)
          | None => if has_queued k then poll_queue c else (PollEnd, c)
          end
    | None => poll_queue c
    end.

(** The application's task polls, takes what it is given, or registers its waker. *)
Definition app_poll c (lost : option LiveAuthorityLost) : Consumer T :=
  let '(polled, c) := poll_next (c <| core := core c <| woken := false |> |>) lost in
  match polled with
  | PollItem value => c <| delivered := (delivered c ++ [value])%list |> <| app := AppRunning |>
  | PollPending => c <| app := AppRegister |>
  | _ => c <| app := AppRunning |>
  end.

Definition app_register c : Consumer T :=
  let k := core c <| waker := true |> in
  let again := readable c && (has_queued k || match core_end k with Some _ => true | None => false end) in
  c <| core := if again then k <| woken := true |> else k |> <| app := AppParked |>.
End subscription.

(** ** Exchanges and the pump *)

Section pump.
Context {T : Type} `{Base64Url, Sha256, Ed25519}.
Local Existing Instance json_tree.
Context `{!CanonicalJson, !JsonCodec Json}.
Context (decode : Json -> result (option T) string) (pins : ConsumerPins).
Implicit Types c : Consumer T.

Definition control_body_bytes (control : LiveControl) : result string string :=
  to_vec (control_json control).

(** [send_control] up to the reply it awaits: [sent] is whether the body left. *)
Definition send_control c (control : LiveControl) (seq : N) (sent : bool) : Consumer T :=
  let c := c <| last_control_seq := seq |> in
  match control_body_bytes control with
  | Ok body => if sent then c <| controls := (controls c ++ [body])%list |> else c
  | Err _ => c
  end.

(** [retry_until_confirmed] builds the one control of a close exchange. *)
Definition close_exchange c (now : N) : LiveControl * N :=
  (close_control (pinned_session pins) (saturating_add_u64 (last_control_seq c) 1) CloseCancelled
     (core_received (core c)) (core_consumed (core c)),
   (now + millis CLOSE_EXCHANGE_MS)%N).

(** What [begin_close] makes of the acknowledgement, or of none. *)
Definition close_receipt (ack : option ControlAckBody) : LiveCloseReceipt :=
  let cleanup :=
    match ack with
    | Some ack =>
        match ack_cleanup ack with
        | Some StatusComplete => CleanupComplete
        | Some StatusIncomplete => CleanupIncomplete
        | None => CleanupUnknown
        end
    | None => CleanupUnknown
    end in
  mkLiveCloseReceipt cancelled_end
    (if bool_decide (cleanup = CleanupUnknown) then RemoteUnconfirmed else RemoteConfirmed) cleanup.

(** [close] up to its exchange, and after it. *)
Definition app_close c (now : N) : Consumer T :=
  let c := c <| core := wake (discard_queue (core c)) |> in
  match close_result c with
  | Some _ => c <| cancellation := true |> <| guard_held := false |> <| app := AppRunning |>
  | None =>
      let c := c <| close_started := true |> in
      let '(control, deadline) := close_exchange c now in
      c <| app := AppCloseSend control deadline |>
  end.

Definition app_closed c (ack : option ControlAckBody) : Consumer T :=
  c <| close_result := Some (close_receipt ack) |>
    <| cancellation := true |>
    <| guard_held := false |>
    <| app := AppRunning |>.

(** [Drop::drop]; a pump that has only to commit what it ends with still does. *)
Definition app_drop c (runtime : bool) (now : N) : Consumer T :=
  let c := c <| core := wake (discard_queue (core c <| core_cancelled := true |>)) |>
             <| cancellation := true |>
             <| guard_held := false |>
             <| pump := match pump c with PumpDiscarded e => PumpDiscarded e | _ => PumpReturned end |> in
  let '(control, deadline) := close_exchange c now in
  if close_started c || negb runtime then c <| close_started := true |> <| app := AppDropped |>
  else c <| close_started := true |> <| app := AppDropSend control deadline |>.

(** ** The pump *)

Definition pump_end c (e : LiveEnd) : Consumer T :=
  c <| core := core_commit_end (core c) e |> <| pump := PumpReturned |>.

(** [discard_queue], before the outcome is committed. *)
Definition pump_discard c (e : LiveEnd) : Consumer T :=
  c <| core := discard_queue (core c) |> <| pump := PumpDiscarded e |>.

Definition pump_send c (control : LiveControl) (seq : N) (purpose : Purpose) : Consumer T :=
  c <| pump := PumpSend (mkExchange control seq purpose) |>.

Definition verify_provider_frame (m : Message) (f : LiveFrame) : bool :=
  match message_context m, message_session_key m, message_proof m with
  | Some context, Some key, Some proof =>
      if negb (String.eqb key (pinned_session_key pins))
         || negb (String.eqb key (pinned_identity_key pins)) then false
      else if negb (String.eqb (frame_session f) (pinned_session pins)) then false
      else
        match parse_live_proof proof with
        | Err _ => false
        | Ok proof =>
            is_ok (verify_live_server_proof_encoded proof context (message_subject m)
                     (message_payload m) key)
        end
  | _, _, _ => false
  end.

(** The arms of [match &frame].  Between the admission of a value and the count of it as
    received there is no await, and the two are one step. *)
Definition pump_data c (seq : N) (value : Json) (encoded_len : N) : Consumer T :=
  if (next_expected c <? seq)%N then
    pump_end c (consumer_failure CodeDeliveryGap "live delivery sequence gap")
  else if (seq <? next_expected c)%N then c <| pump := PumpLoop |>
  else
    let c := c <| next_expected := (seq + 1)%N |> in
    let slow := consumer_failure CodeConsumerSlow "bounded live ingress exceeded" in
    match decode value with
    | Ok (Some value) =>
        match core_admit (core c) value encoded_len with
        | (false, k) => pump_end (c <| core := k |>) slow
        | (true, k) => c <| core := record_received k |> <| pump := PumpLoop |>
        end
    | Ok None =>
        match release_filtered (record_received (core c)) with
        | (false, k) => pump_end (c <| core := k |>) slow
        | (true, k) => c <| core := k |> <| pump := PumpLoop |>
        end
    | Err message => pump_end c (consumer_failure CodeProtocolError message)
    end.

Definition pump_challenge c (challenge_id : string) (last_sent : N) : Consumer T :=
  if (core_received (core c) <? last_sent)%N then
    pump_end c (consumer_failure CodeDeliveryGap "live challenge referred to unreceived data")
  else
    let '(seq, c) := next_control_seq c in
    pump_send c (pulse_control (pinned_session pins) seq challenge_id (core_received (core c))
                   (core_consumed (core c))) seq ForPulse.

Definition pump_final c (final_seq : N) (t : WireTerminal) : Consumer T :=
  if negb (final_seq =? core_received (core c))%N then
    pump_end c (consumer_failure CodeDeliveryGap "live end did not follow the complete sequence")
  else
    let '(seq, c) := next_control_seq c in
    pump_send c (end_ack_control (pinned_session pins) seq final_seq (core_received (core c))
                   (core_consumed (core c))) seq (ForEnd (end_from_terminal t)).

Definition pump_message c (m : Message) : Consumer T :=
  match parse_live_frame (message_payload m) (max_data_body_bytes pins) with
  | Err _ => c <| pump := PumpLoop |>
  | Ok frame =>
      if negb (verify_provider_frame m frame) then c <| pump := PumpLoop |>
      else
        match frame with
        | FrameData _ seq value => pump_data c seq value (N.of_nat (String.length (message_payload m)))
        | FrameChallenge _ challenge_id last_sent => pump_challenge c challenge_id last_sent
        | FrameEnd _ final_seq t => pump_final c final_seq t
        end
  end.

(** The arms of [match deadlines.evaluate(now)]. *)
Definition pump_credit c (now : N) : Consumer T :=
  let c := c <| pump_deadlines := credit_sent (pump_deadlines c) |> in
  let consumed := core_consumed (core c) in
  let c :=
    match pending_credit c with
    | Some _ => c
    | None =>
        if (last_credit_sent c <? consumed)%N then
          let '(seq, c) := next_control_seq c in
          c <| pending_credit := Some (seq, core_received (core c), consumed) |>
        else c
    end in
  match pending_credit c with
  | Some (seq, received, consumed) =>
      pump_send c (credit_control (pinned_session pins) seq received consumed) seq
        (ForCredit now consumed)
  | None => c <| pump := PumpLoop |>
  end.

Definition pump_deadline c (now : N) : Consumer T :=
  match evaluate (pump_deadlines c) now with
  | Some ReservationExpired =>
      pump_end c (consumer_failure CodeSetupTimeout
                    "live activation did not complete within the reservation")
  | Some PeerInactive =>
      pump_end c (consumer_failure CodePeerLost "live provider silent past the inactivity bound")
  | Some CreditDue => pump_credit c now
  | _ => c <| pump := PumpLoop |>
  end.

(** What the pump does once an exchange is over; [None] is any failure of it. *)
Definition pump_ack c (x : Exchange) (ack : option ControlAckBody) (now : N) : Consumer T :=
  match exchange_purpose x with
  | ForActivation =>
      match ack with
      | Some ack =>
          if bool_decide (ack_state ack = StateClosed) then
            pump_end c (consumer_failure CodeSetupTimeout "live session closed during activation")
          else c <| pump := PumpLoop |>
      | None =>
          if (now <? reservation_deadline pins)%N then c <| pump := PumpSend x |>
          else pump_end c (consumer_failure CodeSetupTimeout
                             "live activation did not complete within the reservation")
      end
  | ForCredit due consumed =>
      match ack with
      | Some _ => c <| last_credit_sent := N.max (last_credit_sent c) consumed |>
                    <| pending_credit := None |>
      | None => c <| pump_deadlines := note_consumption (pump_deadlines c) due 0 |>
      end <| pump := PumpLoop |>
  | ForPulse =>
      match ack with
      | Some ack =>
          if bool_decide (ack_state ack = StateActive) then
            if bool_decide (core_phase (core c) = ConActivating) then
              c <| pump_deadlines := commit_active (pump_deadlines c) now false |>
                <| core := core c <| core_phase := ConActive |> |>
            else c <| pump_deadlines := fresh_round_trip (pump_deadlines c) now false |>
          else c
      | None => c
      end <| pump := PumpLoop |>
  | ForEnd e =>
      if is_complete e then
        c <| core := set_pending_end (core c) e <| core_phase := ConDraining |> |>
          <| pump_deadlines := data_admitted (begin_draining (pump_deadlines c)) now |>
          <| pump := PumpLoop |>
      else pump_end c e
  end.

(** The top of the loop. *)
Definition pump_loop c : Consumer T :=
  match core_end (core c) with
  | Some _ => c <| pump := PumpReturned |>
  | None =>
      if bool_decide (core_phase (core c) = ConDraining) then
        let '(drained, k) := drain_complete (core c) in
        c <| core := k |>
          <| pump := match drained with Some _ => PumpReturned | None => PumpDrain end |>
      else c <| pump := PumpSelect |>
  end.

(** The branches of the select of a draining pump. *)
Definition drain_deadline c (now : N) : Consumer T :=
  if bool_decide (evaluate (pump_deadlines c) now = Some ConsumerStalled) then
    pump_discard c (consumer_failure CodeConsumerSlow "live draining queue was not consumed")
  else c <| pump := PumpLoop |>.

Definition drain_notified c (now : N) : Consumer T :=
  let consumed := core_consumed (core c) in
  let c :=
    if (last_credit_sent c <? consumed)%N then
      c <| pump_deadlines := note_consumption (pump_deadlines c) now (consumed - last_credit_sent c) |>
        <| last_credit_sent := consumed |>
    else c in
  let '(drained, k) := drain_complete (core c) in
  c <| core := k |>
    <| pump := match drained with Some _ => PumpReturned | None => PumpLoop end |>.

Definition pump_start c (ev : ConEvent) : option (Consumer T) :=
  match ev with
  | CStart =>
      if start_permit (core c) then
        Some (c <| core := core c <| start_permit := false |> |> <| pump := PumpSubscribe |>)
      else None
  | CCancelled => if cancellation c then Some (c <| pump := PumpReturned |>) else None
  | CReservation =>
      let c := pump_end c (consumer_failure CodeSetupTimeout
                             "live prepared session expired before activation") in
      Some (c <| core := wake (core c) |>)
  | _ => None
  end.

Definition pump_subscribed c (r : Subscribed) : Consumer T :=
  match r with
  | SubscribeOk =>
      c <| core := core c <| core_phase := ConActivating |> |> <| pump := PumpReconcile |>
  | SubscribeFailed =>
      pump_end c (consumer_failure CodeDisconnected "live data subscription could not be installed")
  | FlushFailed =>
      pump_end c (consumer_failure CodeDisconnected "live data subscription could not be flushed")
  end.

Definition pump_reconciled c (lost : option LiveAuthorityLost) : Consumer T :=
  match lost with
  | Some lost => pump_end c (authority_end lost)
  | None =>
      let '(seq, c) := next_control_seq c in
      pump_send c (activate_control (pinned_session pins)) seq ForActivation
  end.

(** The select of an active pump, but for the cancellation. *)
Definition pump_select c (ev : ConEvent) : option (Consumer T) :=
  match ev with
  | CCredit now =>
      if credit_permit (core c) then
        let c := c <| core := core c <| credit_permit := false |> |> <| pump := PumpLoop |> in
        let consumed := core_consumed (core c) in
        Some (if (last_credit_sent c <? consumed)%N then
                c <| pump_deadlines :=
                       note_consumption (pump_deadlines c) now (consumed - last_credit_sent c) |>
              else c)
      else None
  | CGuardChanged lost =>
      Some (match lost with
            | Some lost => pump_discard c (authority_end lost)
            | None => c <| pump := PumpLoop |>
            end)
  | CDeadline now lost =>
      Some (match lost with
            | Some lost => pump_discard c (authority_end lost)
            | None => pump_deadline c now
            end)
  | CMessage None _ =>
      Some (pump_end c (consumer_failure CodePeerLost "live delivery subscription ended"))
  | CMessage (Some m) lost =>
      Some (match lost with
            | Some lost => pump_discard c (authority_end lost)
            | None => pump_message c m
            end)
  | _ => None
  end.

(** The exchanges that are raced with the cancellation. *)
Definition cancellable (p : Pump) : bool :=
  match p with
  | PumpSelect | PumpDrain => true
  | PumpSend x | PumpAwait x =>
      match exchange_purpose x with ForActivation | ForPulse => true | _ => false end
  | _ => false
  end.

Definition pump_step c (ev : ConEvent) : option (Consumer T) :=
  match pump c, ev with
  | PumpStart, _ => pump_start c ev
  | PumpSubscribe, CSubscribed r => Some (pump_subscribed c r)
  | PumpReconcile, CReconciled lost => Some (pump_reconciled c lost)
  | PumpSend x, CSend sent =>
      Some (send_control c (exchange_control x) (exchange_seq x) sent <| pump := PumpAwait x |>)
  | PumpAwait x, CAck ack now => Some (pump_ack c x ack now)
  | PumpLoop, CLoop => Some (pump_loop c)
  | PumpDrain, CDrainDeadline now =>
      if elapsed (next_due (pump_deadlines c)) now then Some (drain_deadline c now) else None
  | PumpDrain, CDrainNotified now =>
      match core_end (core c) with Some _ => Some (drain_notified c now) | None => None end
  | PumpDiscarded e, CCommit => Some (pump_end c e)
  | p, CCancelled =>
      if cancellable p && cancellation c then Some (pump_discard c cancelled_end) else None
  | PumpSelect, _ => pump_select c ev
  | _, _ => None
  end.

(** ** The application *)

Definition app_step c (ev : ConEvent) : option (Consumer T) :=
  match app c, ev with
  | (AppRunning | AppParked), CPoll lost => Some (app_poll c lost)
  | AppRegister, CRegister => Some (app_register c)
  | AppRunning, CMapComplete => Some (c <| cancellation := true |>)
  | (AppRunning | AppParked), CClose now => Some (app_close c now)
  | AppCloseSend control deadline, CCloseSend sent =>
      Some (send_control c control (live_control_seq control) sent
              <| app := AppCloseAwait control deadline |>)
  | AppCloseAwait control deadline, CCloseAck ack now =>
      Some (if negb (bool_decide (is_Some ack)) && (now <? deadline)%N then
              c <| app := AppCloseSend control deadline |>
            else app_closed c ack)
  | (AppCloseSend _ _ | AppCloseAwait _ _), CCloseAbandoned => Some (c <| app := AppRunning |>)
  | (AppRunning | AppParked), CDrop runtime now => Some (app_drop c runtime now)
  | AppDropSend control deadline, CCloseSend sent =>
      Some (send_control c control (live_control_seq control) sent
              <| app := AppDropAwait control deadline |>)
  | AppDropAwait control deadline, CCloseAck ack now =>
      Some (if negb (bool_decide (is_Some ack)) && (now <? deadline)%N then
              c <| app := AppDropSend control deadline |>
            else c <| app := AppDropped |>)
  | _, _ => None
  end.

Definition app_event (ev : ConEvent) : bool :=
  match ev with
  | CPoll _ | CRegister | CMapComplete | CClose _ | CCloseSend _ | CCloseAck _ _
  | CCloseAbandoned | CDrop _ _ => true
  | _ => false
  end.

Definition con_exec c (ev : ConEvent) : option (Consumer T) :=
  if app_event ev then app_step c ev else pump_step c ev.
End pump.
