(* ===== verification/LiveSession.v ===== *)
(** * Live sessions

    A provider's session ([LiveEngine]) and a consumer's subscription ([LiveConsumer]) over
    a network that loses, repeats, delays and reorders messages, and on which anyone may
    publish: what a consumer accepts as the provider's was published by the provider, and
    the provider handles controls the consumer published. *)

From Stdlib Require Import Ascii String.
From S2P Require Import Prelude RustStr Extern Json Protocol Wire Flow Live LiveTypes.
From S2P Require Import LiveDeadlines LiveProvider LiveEngine LivePublication LiveConsumer.

Local Open Scope string_scope.

(** ** Slots *)

Section slots.
Context {T : Type}.

Definition slot_value (s : Slot T) : option T :=
  match s with SlotValue v _ => Some v | SlotFiltered => None end.

Definition slot_len (s : Slot T) : N := match s with SlotValue _ n => n | SlotFiltered => 0 end.

Definition values (l : list (Slot T)) : list T := omap slot_value l.

Definition filtered (l : list (Slot T)) : Prop := Forall (fun s => slot_value s = None) l.

Lemma values_filtered l : filtered l -> values l = [].
Proof. induction 1 as [|s l Hs _ IH]; [done|]. unfold values. cbn. by rewrite Hs. Qed.

Lemma total_filtered l : filtered l -> total (slot_len <$> l) = 0%N.
Proof. induction 1 as [|s l Hs _ IH]; [done|]. destruct s; [done|]. cbn. exact IH. Qed.

Lemma leading_filtered_spec q n rest :
  leading_filtered q = (n, rest) ->
  exists front, q = (front ++ rest)%list /\ filtered front /\ n = N.of_nat (List.length front).
Proof.
  revert n. induction q as [|[v len|] q IH]; intros n Hq; cbn in Hq.
  - injection Hq as <- <-. exists []. by split_and!; try constructor.
  - injection Hq as <- <-. exists []. by split_and!; try constructor.
  - destruct (leading_filtered q) as [m r]. injection Hq as <- <-.
    destruct (IH m eq_refl) as (front & -> & Hf & ->).
    exists (SlotFiltered :: front). split_and!; [done|by constructor|cbn; lia].
Qed.

(** What [consume] pops, and what it leaves. *)
Lemma consume_from_spec q k o k' :
  consume_from q k = (o, k') ->
  exists front rest, q = (front ++ rest)%list /\ queue k' = rest /\
    core_consumed k' = (core_consumed k + N.of_nat (List.length front))%N /\
    queued_bytes k' = match o with
                      | Some _ => wrapping_sub_u64 (queued_bytes k) (total (slot_len <$> front))
                      | None => queued_bytes k
                      end /\
    values front = option_list o /\ (o = None -> filtered front /\ rest = []) /\
    core_received k' = core_received k /\ core_discarded k' = core_discarded k /\
    core_phase k' = core_phase k /\ core_end k' = core_end k /\ pending_end k' = pending_end k.
Proof.
  revert k. induction q as [|[v len|] q IH]; intros k Hq; cbn in Hq.
  - injection Hq as <- <-. exists [], []. split_and!; try done; [cbn; lia|]. intros _. by split; constructor.
  - destruct (leading_filtered q) as [n rest] eqn:Hl.
    apply leading_filtered_spec in Hl as (front & -> & Hf & ->). injection Hq as <- <-.
    exists (SlotValue v len :: front), rest. split_and!; try done; cbn.
    + lia.
    + by rewrite total_filtered, N.add_0_r.
    + by rewrite values_filtered.
  - apply IH in Hq as (front & rest & -> & Hrest & Hc & Hb & Hv & Hn & ? & ? & ? & ? & ?).
    exists (SlotFiltered :: front), rest. split_and!; try done.
    + rewrite Hc. cbn. lia.
    + intros Ho. destruct (Hn Ho) as [? ?]. split; [by constructor|done].
Qed.
End slots.

(** ** The stream *)

Section stream.
Context {T : Type} `{Base64Url, Sha256}.
Local Existing Instance json_tree.
Context `{!CanonicalJson, !JsonCodec Json}.
Context (decode : Json -> result (option T) string).
Implicit Types (p : Engine) (k : ConsumerCore T).

(** The slot of the value at index [i] of the source. *)
Definition slot_at (p : Engine) (i : nat) (v : Json) : option (Slot T) :=
  match decode v with
  | Ok (Some t) =>
      match data_body (session_id (record p)) i v with
      | Ok body => Some (SlotValue t (N.of_nat (String.length body)))
      | Err _ => None
      end
  | Ok None => Some SlotFiltered
  | Err _ => None
  end.

Definition slots_ok (p : Engine) (slots : list (Slot T)) : Prop :=
  forall i slot, slots !! i = Some slot ->
    exists v, produced p !! i = Some v /\ slot_at p i v = Some slot.

(** What was received is what the source gave, the queue is the end of it, and what was
    handed to the application came before: all of it, unless a queued slot was dropped. *)
Definition stream_ok (p : Engine) (k : ConsumerCore T) (d : list T) : Prop :=
  exists past, let slots := (past ++ queue k)%list in
    N.of_nat (List.length slots) = core_received k /\ slots_ok p slots /\
    d `sublist_of` values past /\ (core_consumed k <= N.of_nat (List.length past))%N /\
    (core_discarded k = false ->
     core_consumed k = N.of_nat (List.length past) /\ d = values past) /\
    queued_bytes k = total (slot_len <$> queue k) /\ (queued_bytes k <= WINDOW_BYTES)%N.

Definition core_view (k : ConsumerCore T) : list (Slot T) * N * N * N * bool :=
  (queue k, queued_bytes k, core_received k, core_consumed k, core_discarded k).

Lemma stream_view p k k' d : core_view k' = core_view k -> stream_ok p k d -> stream_ok p k' d.
Proof.
  unfold core_view, stream_ok. intros [= Eq Eb Er Ec Ed]. by rewrite Eq, Eb, Er, Ec, Ed.
Qed.

Lemma wake_view k : core_view (wake k) = core_view k.
Proof. unfold wake. by destruct (waker k). Qed.

Lemma commit_view k e : core_view (core_commit_end k e) = core_view k.
Proof. unfold core_commit_end. destruct (core_end k); [done|]. by rewrite wake_view. Qed.

Lemma pending_view k e : core_view (set_pending_end k e) = core_view k.
Proof. unfold set_pending_end. rewrite wake_view. by destruct (pending_end k). Qed.

Lemma drain_view k : core_view (snd (drain_complete k)) = core_view k.
Proof.
  unfold drain_complete. destruct (has_queued k); [done|].
  destruct (pending_end k); [|done]. cbn [snd]. by rewrite commit_view.
Qed.

Lemma stream_discard p k d : stream_ok p k d -> stream_ok p (discard_queue k) d.
Proof.
  intros (past & Hn & Hs & Hd & Hc & Hx & Hb & Hw). exists (past ++ queue k)%list. cbn.
  rewrite app_nil_r. rewrite length_app in *. split_and!; try done.
  - etrans; [done|]. unfold values. rewrite omap_app. by apply sublist_inserts_r.
  - lia.
  - rewrite orb_false_iff. unfold has_queued. intros [Hk Hq].
    destruct (queue k); [|done]. rewrite app_nil_r. cbn. rewrite Nat.add_0_r. by apply Hx.
Qed.

Lemma window_bytes_u64 : (WINDOW_BYTES <= u64_max)%N.
Proof. done. Qed.

Lemma stream_consume p k d o k' :
  stream_ok p k d -> consume k = (o, k') -> stream_ok p k' (d ++ option_list o).
Proof.
  intros (past & Hn & Hs & Hd & Hc & Hx & Hb & Hw) Hq. unfold consume in Hq.
  apply consume_from_spec in Hq as
    (front & rest & Eq & Er & Ec & Eb & Ev & Enone & Erec & Edis & _).
  exists (past ++ front)%list. cbn zeta.
  rewrite Er, Erec, Ec, Edis, Eb, <- app_assoc, <- Eq. unfold values in *. rewrite omap_app, <- Ev.
  rewrite Eq in Hb. rewrite fmap_app, total_app in Hb. pose proof window_bytes_u64.
  assert (match o with
          | Some _ => wrapping_sub_u64 (queued_bytes k) (total (slot_len <$> front))
          | None => queued_bytes k end = total (slot_len <$> rest)) as Hbytes.
  { destruct o; [rewrite wrapping_sub_u64_exact by lia; lia|].
    destruct (Enone eq_refl) as [Hf ->]. rewrite Hb, (total_filtered front Hf). done. }
  split_and!; try done.
  - by apply sublist_app.
  - rewrite length_app. lia.
  - intros Hk. destruct (Hx Hk) as [-> ->]. rewrite length_app. split; [lia|done].
  - rewrite Hbytes. lia.
Qed.

(** ** Admission *)

Lemma data_on_wire `{!JsonCodecLaws Json} p s raw bound sid seq v :
  published p s -> raw ∈ wire p -> parse_live_frame raw bound = Ok (FrameData sid seq v) ->
  exists i, seq = N.of_nat (S i) /\ produced p !! i = Some v /\
    data_body (session_id (record p)) i v = Ok raw /\
    (i < List.length (sent s) \/
     (i = List.length (sent s) /\ has_room live_limits s (N.of_nat (String.length raw))))%nat.
Proof.
  intros Hp Hraw Hparse. destruct (pub_wire _ _ Hp _ Hraw) as (f & Hf & Hsid & Hok).
  apply (parse_frame_unique f) in Hparse as <-; [|done]. cbn in Hsid. subst sid.
  destruct Hok as (i & -> & Hv & Hi). exists i. by split_and!.
Qed.

Lemma total_slots (q : list (Slot T)) l :
  Forall2 (fun slot n => slot_len slot <= n)%N q l -> (total (slot_len <$> q) <= total l)%N.
Proof. induction 1; [done|]. unfold total in *. cbn in *. lia. Qed.

(** The slots behind the consumer's cursor are no longer than what the provider counts. *)
Lemma slots_sent p s past q :
  published p s -> slots_ok p (past ++ q) ->
  (List.length (past ++ q) <= List.length (sent s))%nat ->
  (total (slot_len <$> q) <= total (take (List.length q) (drop (List.length past) (sent s))))%N.
Proof.
  intros Hp Hs Hlen. rewrite length_app in Hlen. apply total_slots.
  apply Forall2_same_length_lookup_2; [rewrite length_take, length_drop; lia|].
  intros j slot n Hj Hn. apply lookup_take_Some in Hn as [Hn _]. rewrite lookup_drop in Hn.
  destruct (pub_sent _ _ Hp _ _ Hn) as (v & body & Hv & Hb & ->).
  destruct (Hs (List.length past + j)%nat slot) as (v' & Hv' & Hslot).
  { rewrite lookup_app_r, Nat.add_sub' by lia. done. }
  rewrite Hv in Hv'. injection Hv' as <-. unfold slot_at in Hslot. rewrite Hb in Hslot.
  destruct (decode v) as [[t|]|]; [injection Hslot as <-; cbn; lia..|done].
Qed.

(** The next data frame of the provider has room in the queue. *)
Lemma frame_has_room p s k d i v raw :
  published p s -> stream_ok p k d -> (consumed s <= core_consumed k)%N ->
  N.of_nat i = core_received k -> produced p !! i = Some v ->
  data_body (session_id (record p)) i v = Ok raw ->
  (i < List.length (sent s) \/
   (i = List.length (sent s) /\ has_room live_limits s (N.of_nat (String.length raw))))%nat ->
  (N.of_nat (List.length (queue k)) + 1 <= WINDOW_FRAMES)%N /\
  (queued_bytes k + N.of_nat (String.length raw) <= WINDOW_BYTES)%N.
Proof.
  intros Hp (past & Hn & Hs & _ & Hc & _ & Hb & _) Hcred Hi Hv Hraw Hsent.
  set (a := List.length past) in *. set (q := queue k) in *. rewrite length_app in Hn.
  assert (a + List.length q = i)%nat as Ei by lia.
  destruct (pub_flow _ _ Hp) as (_ & _ & Hwf & _).
  pose proof (slots_sent p s past q Hp Hs ltac:(rewrite length_app; lia)) as Hq.
  fold a in Hq.
  pose proof (wf_window_frames _ _ Hwf) as Hf. pose proof (wf_window_bytes _ _ Hwf) as Hw.
  rewrite Hb. unfold outstanding, len in Hf, Hw. rewrite length_drop in Hf.
  set (l := sent s) in *. set (m := N.to_nat (consumed s)) in *.
  assert (total (take (List.length q) (drop a l)) <= total (drop a l))%N as Htake
    by (rewrite <- (total_take_drop (List.length q) (drop a l)); lia).
  assert (total (drop a l) <= total (drop m l))%N as Hdrop.
  { replace a with (m + (a - m))%nat by lia. rewrite <- drop_drop. apply total_drop. }
  destruct Hsent as [Hlt|[Heq (_ & Hroom & Hbytes)]].
  - split; [change (WINDOW_FRAMES) with (window_frames live_limits); lia|].
    destruct (l !! i) as [n|] eqn:Hl; [|apply lookup_ge_None in Hl; lia].
    destruct (pub_sent _ _ Hp _ _ Hl) as (v' & body & Hv' & Hbody & ->).
    assert (body = raw) as -> by congruence.
    assert (total (take (S (List.length q)) (drop a l)) =
      total (take (List.length q) (drop a l)) + N.of_nat (String.length raw))%N as Hsucc.
    { erewrite take_S_r; [|by rewrite lookup_drop, Ei]. rewrite total_app. cbn. lia. }
    pose proof (total_take_drop (S (List.length q)) (drop a l)).
    change WINDOW_BYTES with (window_bytes live_limits). lia.
  - unfold outstanding, len in Hroom, Hbytes. rewrite length_drop in Hroom. fold l m in Hroom, Hbytes.
    change WINDOW_FRAMES with (window_frames live_limits).
    change WINDOW_BYTES with (window_bytes live_limits). lia.
Qed.

Lemma stream_push p k k' d i v slot :
  stream_ok p k d -> N.of_nat i = core_received k -> produced p !! i = Some v ->
  slot_at p i v = Some slot -> (queued_bytes k + slot_len slot <= WINDOW_BYTES)%N ->
  core_view k' = ((queue k ++ [slot])%list, (queued_bytes k + slot_len slot)%N,
                  (core_received k + 1)%N, core_consumed k, core_discarded k) ->
  stream_ok p k' d.
Proof.
  intros (past & Hn & Hs & Hd & Hc & Hx & Hb & Hw) Hi Hv Hslot Hroom [= Eq Eb Er Ec Ed].
  exists past. cbn zeta. rewrite Eq, Eb, Er, Ec, Ed, app_assoc, length_app.
  split_and!; try done.
  - cbn. lia.
  - intros j slot' Hj. rewrite lookup_snoc_Some in Hj. destruct Hj as [[_ Hj]|[-> <-]]; [by apply Hs|].
    exists v. by replace (List.length (past ++ queue k)) with i by lia.
  - rewrite fmap_app, total_app, Hb. cbn. lia.
Qed.

(** A provider's step leaves what was received in place. *)
Lemma stream_grows p p' k d :
  produced p `prefix_of` produced p' -> session_id (record p') = session_id (record p) ->
  stream_ok p k d -> stream_ok p' k d.
Proof.
  intros Hp Hsid (past & Hn & Hs & Hrest). exists past. split; [done|]. split; [|done].
  intros i slot (v & Hv & Hslot)%Hs. exists v. split; [by eapply prefix_lookup_Some|].
  unfold slot_at in *. by rewrite Hsid.
Qed.
End stream.

(** ** The end *)

Section ending.
Context {T : Type} `{Base64Url, Sha256}.
Local Existing Instance json_tree.
Context `{!CanonicalJson, !JsonCodec Json}.
Context (bound : N).
Implicit Types (p : Engine) (k : ConsumerCore T) (pm : Pump).

(** The provider said that [n] frames are all. *)
Definition complete_at p (n : N) : Prop :=
  exists raw sid t, raw ∈ wire p /\ parse_live_frame raw bound = Ok (FrameEnd sid n t) /\
    terminal_reason t = EndComplete.

Lemma complete_produced `{!JsonCodecLaws Json} p s n :
  published p s -> complete_at p n -> n = N.of_nat (List.length (produced p)).
Proof.
  intros Hp (raw & sid & t & Hraw & Hparse & Ht).
  destruct (pub_wire _ _ Hp _ Hraw) as (f & Hf & _ & Hok).
  apply (parse_frame_unique f) in Hparse as <-; [|done]. by apply Hok.
Qed.

Lemma complete_grows p p' n : wire p `prefix_of` wire p' -> complete_at p n -> complete_at p' n.
Proof.
  intros [l Hw] (raw & sid & t & Hraw & Hparse). exists raw, sid, t. split; [|done].
  rewrite Hw. by apply elem_of_app; left.
Qed.

(** The pump takes no more frames. *)
Definition stopping pm : Prop :=
  match pm with PumpLoop | PumpDrain | PumpDiscarded _ | PumpReturned => True | _ => False end.

(** The outcome the pump will commit or make pending. *)
Definition announced pm : option LiveEnd :=
  match pm with
  | PumpSend x | PumpAwait x => match exchange_purpose x with ForEnd e => Some e | _ => None end
  | _ => None
  end.

Record ends_ok p k pm : Prop := {
  ends_announced : forall e, announced pm = Some e -> is_complete e = true ->
    complete_at p (core_received k);
  ends_discarded : forall e, pm = PumpDiscarded e -> is_complete e = false;
  ends_pending : forall e, pending_end k = Some e ->
    is_complete e = true /\ complete_at p (core_received k) /\ stopping pm /\
    (core_phase k = ConDraining \/ is_Some (core_end k));
  ends_complete : forall e, core_end k = Some e -> is_complete e = true ->
    complete_at p (core_received k) /\ queue k = [] /\ stopping pm;
}.

Definition end_view (k : ConsumerCore T) :
    ConsumerPhase * list (Slot T) * N * option LiveEnd * option LiveEnd :=
  (core_phase k, queue k, core_received k, core_end k, pending_end k).

Lemma ends_view p k k' pm : end_view k' = end_view k -> ends_ok p k pm -> ends_ok p k' pm.
Proof.
  intros [= Eph Eq Er Ee Ep] [Ha Hd Hp Hc].
  split; rewrite ?Eph, ?Eq, ?Er, ?Ee, ?Ep; done.
Qed.

Lemma wake_ends k : end_view (wake k) = end_view k.
Proof. unfold wake. by destruct (waker k). Qed.

(** A local failure is committed. *)
Lemma ends_commit p k pm e :
  is_complete e = false -> ends_ok p k pm -> ends_ok p (core_commit_end k e) pm.
Proof.
  intros He Hk. unfold core_commit_end. destruct (core_end k) eqn:Hend; [done|].
  eapply ends_view; [apply wake_ends|]. destruct Hk as [Ha Hd Hp Hc]. split; try done.
  - intros e' (? & ? & ? & _)%Hp. split_and!; try done. by right.
  - cbn. intros e' [= <-]. congruence.
Qed.

Lemma ends_discard p k pm : ends_ok p k pm -> ends_ok p (discard_queue k) pm.
Proof.
  intros [Ha Hd Hp Hc]. split; try done. intros e He Hcomp. by destruct (Hc e He Hcomp) as (? & ? & ?).
Qed.

Lemma ends_drain p k pm : ends_ok p k pm -> ends_ok p (snd (drain_complete k)) pm.
Proof.
  intros Hk. unfold drain_complete. destruct (has_queued k) eqn:Hq; [done|].
  destruct (pending_end k) as [e|] eqn:Hpend; [|done]. cbn [snd].
  assert (queue k = []) as Hempty by (unfold has_queued in Hq; by destruct (queue k)).
  destruct Hk as [Ha Hd Hp Hc]. destruct (Hp e Hpend) as (He & Hcomp & Hst & _).
  unfold core_commit_end. cbn [core_end]. destruct (core_end k) as [e'|] eqn:Hend.
  - change (core_end (k <| pending_end := None |>)) with (core_end k). rewrite Hend.
    by split; cbn; rewrite ?Hend.
  - change (core_end (k <| pending_end := None |>)) with (core_end k). rewrite Hend.
    eapply ends_view; [apply wake_ends|]. by split.
Qed.

Lemma ends_consume p k pm o k' : ends_ok p k pm -> consume k = (o, k') -> ends_ok p k' pm.
Proof.
  intros [Ha Hd Hp Hc] Hq. unfold consume in Hq. apply consume_from_spec in Hq as
    (front & rest & Eq & Er & _ & _ & _ & _ & Erec & _ & Eph & Eend & Epend).
  split; rewrite ?Erec, ?Eph, ?Eend, ?Epend; try done.
  intros e He Hcomp. destruct (Hc e He Hcomp) as (? & Hnil & ?). split_and!; try done.
  rewrite Er. rewrite Hnil in Eq. symmetry in Eq. by apply app_nil in Eq as [_ ?].
Qed.

(** The pump goes on in a state that announces nothing. *)
Lemma ends_pump p k pm pm' :
  announced pm' = None -> (forall e, pm' = PumpDiscarded e -> is_complete e = false) ->
  (stopping pm -> stopping pm') -> ends_ok p k pm -> ends_ok p k pm'.
Proof.
  intros Ha' Hd' Hst [Ha Hd Hp Hc]. split; try done; [by rewrite Ha'|..].
  - intros e (? & ? & ? & ?)%Hp. split_and!; auto.
  - intros e He Hcomp. destruct (Hc e He Hcomp) as (? & ? & ?). auto.
Qed.

(** A pump that is not stopping has nothing pending and no complete outcome. *)
Lemma ends_running p k pm pm' :
  ~ stopping pm -> ends_ok p k pm ->
  (forall e, announced pm' = Some e -> is_complete e = true -> complete_at p (core_received k)) ->
  (forall e, pm' = PumpDiscarded e -> is_complete e = false) -> ends_ok p k pm'.
Proof.
  intros Hst [Ha Hd Hp Hc] Ha' Hd'. split; try done.
  - by intros e (_ & _ & ? & _)%Hp.
  - intros e He Hcomp. by destruct (Hc e He Hcomp) as (_ & _ & ?).
Qed.
End ending.

Lemma failure_incomplete code message : is_complete (consumer_failure code message) = false.
Proof. by destruct code. Qed.

Lemma lost_incomplete lost : is_complete (authority_end lost) = false.
Proof. by destruct lost. Qed.

Create HintDb live.
#[export] Hint Resolve failure_incomplete lost_incomplete : live.

(** ** What happens to the core between frames *)

Section moves.
Context {T : Type} `{Base64Url, Sha256}.
Local Existing Instance json_tree.
Context `{!CanonicalJson, !JsonCodec Json}.
Context (decode : Json -> result (option T) string) (bound : N).
Implicit Types (k : ConsumerCore T) (c : Consumer T).

(** The core moves without a new frame, and [items] are handed out. *)
Record core_moves k k' (items : list T) : Prop := {
  moves_received : core_received k' = core_received k;
  moves_consumed : (core_consumed k <= core_consumed k')%N;
  moves_stream : forall p d, stream_ok decode p k d -> stream_ok decode p k' (d ++ items);
  moves_ends : forall p pm, ends_ok bound p k pm -> ends_ok bound p k' pm;
}.

Lemma moves_trans k1 k2 k3 l1 l2 :
  core_moves k1 k2 l1 -> core_moves k2 k3 l2 -> core_moves k1 k3 (l1 ++ l2).
Proof.
  intros [Hr1 Hc1 Hs1 He1] [Hr2 Hc2 Hs2 He2]. split; [congruence|lia| |auto].
  intros p d Hd. rewrite app_assoc. auto.
Qed.

Lemma moves_view k k' : core_view k' = core_view k -> end_view k' = end_view k -> core_moves k k' [].
Proof.
  intros Hv He. split.
  - by injection He.
  - injection Hv as _ _ _ -> _. lia.
  - intros p d. rewrite app_nil_r. by apply stream_view.
  - intros p pm. by apply ends_view.
Qed.

Lemma moves_same k : core_moves k k [].
Proof. by apply moves_view. Qed.

Lemma moves_wake k : core_moves k (wake k) [].
Proof. apply moves_view; [apply wake_view|apply wake_ends]. Qed.

Lemma moves_discard k : core_moves k (discard_queue k) [].
Proof.
  split; try done.
  - intros p d. rewrite app_nil_r. apply stream_discard.
  - intros p pm. apply ends_discard.
Qed.

Lemma moves_commit k e : is_complete e = false -> core_moves k (core_commit_end k e) [].
Proof.
  intros He. pose proof (commit_view k e) as Hv. injection Hv as _ _ Hr Hc _. split; [done|lia| |].
  - intros p d. rewrite app_nil_r. apply stream_view, commit_view.
  - intros p pm. by apply ends_commit.
Qed.

Lemma moves_drain k : core_moves k (snd (drain_complete k)) [].
Proof.
  pose proof (drain_view k) as Hv. injection Hv as _ _ Hr Hc _. split; [done|lia| |].
  - intros p d. rewrite app_nil_r. apply stream_view, drain_view.
  - intros p pm. apply ends_drain.
Qed.

Lemma moves_consume k o k' : consume k = (o, k') -> core_moves k k' (option_list o).
Proof.
  intros Hq. pose proof Hq as Hs. unfold consume in Hs. apply consume_from_spec in Hs as
    (front & rest & _ & _ & Hc & _ & _ & _ & Hr & _). split; [done|lia| |].
  - intros p d Hd. by eapply stream_consume.
  - intros p pm Hk. by eapply ends_consume.
Qed.

(** ** Polls *)

(** The fields a poll has no part in. *)
Definition rest c :
    Pump * LiveDeadlines * N * option (N * N * N) * App * list string * list T :=
  (pump c, pump_deadlines c, next_expected c, pending_credit c, app c, controls c, delivered c).

Definition poll_items (polled : Poll T) : list T :=
  match polled with PollItem v => [v] | _ => [] end.

Definition polls c (result : Poll T * Consumer T) : Prop :=
  rest (snd result) = rest c /\
  core_moves (core c) (core (snd result)) (poll_items (fst result)).

Lemma poll_drain_polls c : polls c (poll_drain c).
Proof.
  unfold polls, poll_drain. pose proof (moves_drain (core c)) as Hm.
  destruct (drain_complete (core c)) as [[e|] k]; by split.
Qed.

Lemma poll_queue_polls c : polls c (poll_queue c).
Proof.
  unfold poll_queue. destruct (readable c); [|apply poll_drain_polls].
  destruct (consume (core c)) as [[v|] k] eqn:Hq; apply moves_consume in Hq.
  - split; [done|]. cbn. pose proof (moves_trans _ _ _ _ _ Hq (moves_drain k)) as Hm. done.
  - destruct (poll_drain_polls (c <| core := k |>)) as [Hr Hm]. split; [done|].
    exact (moves_trans _ _ _ _ _ Hq Hm).
Qed.

Lemma poll_failed_polls c e : polls c (poll_failed c e).
Proof.
  pose proof (moves_discard (core c)) as Hm. unfold poll_failed.
  assert (forall k, core_view k = core_view (discard_queue (core c)) ->
    end_view k = end_view (discard_queue (core c)) -> core_moves (core c) k []) as Hk.
  { intros k Hv He. exact (moves_trans _ _ _ _ _ Hm (moves_view _ _ Hv He)). }
  destruct (end_error e); [|by split]. destruct (error_reported _); split; by try apply Hk.
Qed.

Lemma poll_start_moves c : rest (poll_start c) = rest c /\ core_moves (core c) (core (poll_start c)) [].
Proof.
  unfold poll_start. destruct (core_end (core c)), (activated _); split; try done; by apply moves_view.
Qed.

Lemma poll_authority_moves c lost :
  rest (poll_authority c lost) = rest c /\ core_moves (core c) (core (poll_authority c lost)) [].
Proof.
  unfold poll_authority. destruct (core_end (core c)); [split; [done|apply moves_same]|].
  destruct lost as [lost|]; [|split; [done|apply moves_same]].
  destruct (_ && _); split; try done; [|apply moves_same].
  apply (moves_trans _ _ _ [] [] (moves_discard _)). apply moves_commit; auto with live.
Qed.

Lemma polls_after c c1 r :
  rest c1 = rest c -> core_moves (core c) (core c1) [] -> polls c1 r -> polls c r.
Proof.
  intros Hr Hm [Hr1 Hm1]. split; [congruence|]. exact (moves_trans _ _ _ _ _ Hm Hm1).
Qed.

Lemma poll_next_polls c lost : polls c (poll_next c lost).
Proof.
  unfold poll_next. destruct (poll_start_moves c) as [Hr Hm].
  apply (polls_after c (poll_start c)); [done..|]. generalize (poll_start c). clear c Hr Hm. intros c.
  destruct (core_cancelled (core c)); [split; [done|apply moves_discard]|].
  destruct (poll_authority_moves c lost) as [Hr Hm].
  apply (polls_after c (poll_authority c lost)); [done..|].
  generalize (poll_authority c lost). clear c Hr Hm. intros c.
  destruct (core_end (core c)) as [e|]; [|apply poll_queue_polls].
  destruct (negb (is_complete e)); [apply poll_failed_polls|].
  pose proof (moves_drain (core c)) as Hd. destruct (drain_complete (core c)) as [drained k].
  cbn [snd] in Hd. destruct drained; [by split|]. destruct (has_queued k); [|by split].
  apply (polls_after c (c <| core := k |>)); [done..|]. apply poll_queue_polls.
Qed.
End moves.

(** ** A consumer follows a provider *)

Section following.
Context {T : Type} `{Base64Url, Sha256, Ed25519}.
Local Existing Instance json_tree.
Context `{!CanonicalJson, !JsonCodec Json, !JsonCodecLaws Json}.
Context (decode : Json -> result (option T) string) (pins : ConsumerPins).
Implicit Types (p : Engine) (k : ConsumerCore T) (c : Consumer T).

Notation bound := (max_data_body_bytes pins).

(** The controls a consumer may still publish, and whether it has come as far as one says. *)
Definition pump_controls (pm : Pump) : list LiveControl :=
  match pm with PumpSend x | PumpAwait x => [exchange_control x] | _ => [] end.

Definition app_controls (a : App) : list LiveControl :=
  match a with
  | AppCloseSend l _ | AppCloseAwait l _ | AppDropSend l _ | AppDropAwait l _ => [l]
  | _ => []
  end.

Definition reached k (l : LiveControl) : Prop :=
  (control_received (control_body l) <= core_received k)%N /\
  (control_consumed (control_body l) <= core_consumed k)%N.

Record controls_ok c : Prop := {
  ok_pump : forall l, l ∈ pump_controls (pump c) -> reached (core c) l;
  ok_app : forall l, l ∈ app_controls (app c) -> reached (core c) l;
  ok_credit : forall seq r n, pending_credit c = Some (seq, r, n) ->
    (r <= core_received (core c) /\ n <= core_consumed (core c))%N;
  ok_sent : forall body, body ∈ controls c ->
    exists l, to_vec (control_json l) = Ok body /\ reached (core c) l;
}.

Definition next_ok c : Prop :=
  match pump c with
  | PumpDiscarded _ | PumpReturned => True
  | _ => next_expected c = (core_received (core c) + 1)%N
  end.

(** The provider counts no more than the consumer has received and consumed. *)
Definition behind p k : Prop :=
  (fst (cursors p) <= core_received k)%N /\ (snd (cursors p) <= core_consumed k)%N.

Record follows p c : Prop := {
  fol_stream : stream_ok decode p (core c) (delivered c);
  fol_next : next_ok c;
  fol_controls : controls_ok c;
  fol_behind : behind p (core c);
  fol_ends : ends_ok bound p (core c) (pump c);
}.

Lemma reached_mono k k' l :
  (core_received k <= core_received k')%N -> (core_consumed k <= core_consumed k')%N ->
  reached k l -> reached k' l.
Proof. unfold reached. lia. Qed.

(** The cursors go up, and what is new among the controls says no more than they do. *)
Lemma controls_step c c' :
  (core_received (core c) <= core_received (core c'))%N ->
  (core_consumed (core c) <= core_consumed (core c'))%N ->
  (forall l, l ∈ pump_controls (pump c') -> l ∈ pump_controls (pump c) \/ reached (core c') l) ->
  (forall l, l ∈ app_controls (app c') -> l ∈ app_controls (app c) \/ reached (core c') l) ->
  (pending_credit c' = pending_credit c \/ pending_credit c' = None \/
   exists seq, pending_credit c' = Some (seq, core_received (core c'), core_consumed (core c'))) ->
  (forall body, body ∈ controls c' -> body ∈ controls c \/
     exists l, to_vec (control_json l) = Ok body /\ reached (core c') l) ->
  controls_ok c -> controls_ok c'.
Proof.
  intros Hr Hc Hp Ha Hcr Hs [Hp0 Ha0 Hcr0 Hs0]. split.
  - intros l [Hl|?]%Hp; [|done]. by eapply reached_mono, Hp0.
  - intros l [Hl|?]%Ha; [|done]. by eapply reached_mono, Ha0.
  - intros seq r n Hpend. destruct Hcr as [Hsame|[Hnone|[seq' Hnew]]]; [|congruence|].
    + rewrite Hsame in Hpend. apply Hcr0 in Hpend. lia.
    + rewrite Hnew in Hpend. by injection Hpend as _ <- <-.
  - intros body [Hb|?]%Hs; [|done]. destruct (Hs0 _ Hb) as (l & Hl & Hk).
    exists l. split; [done|]. by eapply reached_mono.
Qed.

(** A step without a new frame. *)
Lemma follows_moves p c c' items :
  follows p c -> core_moves decode bound (core c) (core c') items ->
  delivered c' = (delivered c ++ items)%list -> next_ok c' ->
  ends_ok bound p (core c') (pump c') ->
  (forall l, l ∈ pump_controls (pump c') -> l ∈ pump_controls (pump c) \/ reached (core c') l) ->
  (forall l, l ∈ app_controls (app c') -> l ∈ app_controls (app c) \/ reached (core c') l) ->
  (pending_credit c' = pending_credit c \/ pending_credit c' = None \/
   exists seq, pending_credit c' = Some (seq, core_received (core c'), core_consumed (core c'))) ->
  (forall body, body ∈ controls c' -> body ∈ controls c \/
     exists l, to_vec (control_json l) = Ok body /\ reached (core c') l) ->
  follows p c'.
Proof.
  intros [Hs Hn Hk [Hb1 Hb2] He] Hm Hd Hn' He' Hp Ha Hcr Hsent.
  destruct Hm as [Hr Hc Hst _]. split; try done.
  - rewrite Hd. by apply Hst.
  - apply (controls_step c); try done. by rewrite Hr.
  - split; [by rewrite Hr|by etrans].
Qed.

(** The application's part of a step: the pump does nothing. *)
Lemma follows_app p c c' items :
  follows p c -> core_moves decode bound (core c) (core c') items ->
  delivered c' = (delivered c ++ items)%list ->
  pump c' = pump c -> next_expected c' = next_expected c -> pending_credit c' = pending_credit c ->
  (forall l, l ∈ app_controls (app c') -> l ∈ app_controls (app c) \/ reached (core c') l) ->
  controls c' = controls c -> follows p c'.
Proof.
  intros Hf Hm Hd Hpm Hne Hcr Ha Hs. eapply follows_moves; try done.
  - pose proof (fol_next _ _ Hf) as Hn. unfold next_ok in *.
    rewrite Hpm, Hne, (moves_received _ _ _ _ _ Hm). done.
  - rewrite Hpm. apply (moves_ends _ _ _ _ _ Hm), Hf.
  - rewrite Hpm. auto.
  - by left.
  - rewrite Hs. auto.
Qed.

(** [send_control] publishes at most what was prepared. *)
Lemma send_control_same c l seq sent :
  core (send_control c l seq sent) = core c /\ delivered (send_control c l seq sent) = delivered c /\
  next_expected (send_control c l seq sent) = next_expected c /\
  pending_credit (send_control c l seq sent) = pending_credit c /\
  app (send_control c l seq sent) = app c /\ pump (send_control c l seq sent) = pump c.
Proof. unfold send_control. destruct (control_body_bytes l); [destruct sent|]; done. Qed.

Lemma send_control_sent c l seq sent body :
  reached (core c) l -> body ∈ controls (send_control c l seq sent) ->
  body ∈ controls c \/ exists l, to_vec (control_json l) = Ok body /\ reached (core c) l.
Proof.
  intros Hl. unfold send_control, control_body_bytes.
  destruct (to_vec (control_json l)) as [b|] eqn:Hb; [|by left]. destruct sent; [|by left].
  cbn. intros [?|Hin]%elem_of_app; [by left|right].
  apply list_elem_of_singleton in Hin as ->. eauto.
Qed.

(** ** The application's steps *)

Lemma app_poll_follows p c lost : follows p c -> follows p (app_poll c lost).
Proof.
  intros Hf. unfold app_poll. set (c0 := c <| core := core c <| woken := false |> |>).
  assert (core_moves decode bound (core c) (core c0) []) as Hm0 by by apply moves_view.
  destruct (poll_next_polls decode bound c0 lost) as [Hr Hm].
  destruct (poll_next c0 lost) as [polled c1]. cbn [fst snd] in *.
  pose proof (moves_trans _ _ _ _ _ _ _ Hm0 Hm) as Hmv. cbn [app] in Hmv.
  injection Hr as Hpm _ Hne Hcr Happ Hs Hd.
  destruct polled; eapply follows_app; try done; cbn; rewrite ?Hd, ?app_nil_r; try done;
    by intros l ?%not_elem_of_nil.
Qed.

Lemma app_register_follows p c : follows p c -> follows p (app_register c).
Proof.
  intros Hf. unfold app_register. eapply (follows_app p c _ []); try done.
  - destruct (_ && _); by apply moves_view.
  - by rewrite app_nil_r.
  - by intros l ?%not_elem_of_nil.
Qed.

Lemma close_exchange_reached c now l deadline :
  close_exchange pins c now = (l, deadline) -> reached (core c) l.
Proof. intros [= <- <-]. by split. Qed.

Lemma app_close_follows p c now : follows p c -> follows p (app_close pins c now).
Proof.
  intros Hf. unfold app_close.
  assert (core_moves decode bound (core c) (wake (discard_queue (core c))) []) as Hm
    by apply (moves_trans _ _ _ _ _ [] [] (moves_discard _ _ _) (moves_wake _ _ _)).
  destruct (close_result _).
  - eapply (follows_app p c _ []); try done; [by rewrite app_nil_r|by intros ? ?%not_elem_of_nil].
  - destruct (close_exchange _ _ _) as [l deadline] eqn:Hx. apply close_exchange_reached in Hx.
    eapply (follows_app p c _ []); try done; [by rewrite app_nil_r|].
    cbn. intros l' ->%list_elem_of_singleton. by right.
Qed.

(** A control is sent by the application. *)
Lemma app_send_follows p c l a sent :
  follows p c -> app_controls (app c) = [l] -> app_controls a = [l] ->
  follows p (send_control c l (live_control_seq l) sent <| app := a |>).
Proof.
  intros Hf Hl Ha. pose proof (send_control_same c l (live_control_seq l) sent) as
    (Ec & Ed & En & Ecr & _ & Ep).
  assert (reached (core c) l) as Hreach
    by (apply (ok_app _ (fol_controls _ _ Hf)); rewrite Hl; by apply list_elem_of_singleton).
  pose proof (send_control_sent c l (live_control_seq l) sent) as Hs.
  set (c1 := send_control _ _ _ _) in *. clearbody c1.
  eapply (follows_moves p c _ []); try done; cbn; rewrite ?Ec, ?Ed, ?Ecr, ?Ep, ?app_nil_r; auto.
  - apply moves_same.
  - unfold next_ok. cbn. rewrite Ec, En, Ep. apply Hf.
  - apply Hf.
  - rewrite Ha, <- Hl. auto.
Qed.

Lemma app_state_follows p c a :
  follows p c -> app_controls a = [] \/ app_controls a = app_controls (app c) ->
  follows p (c <| app := a |>).
Proof.
  intros Hf Ha. eapply (follows_app p c _ []); try done; [apply moves_same|by rewrite app_nil_r|].
  cbn. destruct Ha as [-> | ->]; [by intros l ?%not_elem_of_nil|auto].
Qed.

Lemma app_drop_follows p c runtime now : follows p c -> follows p (app_drop pins c runtime now).
Proof.
  intros Hf. unfold app_drop. set (k := wake (discard_queue _)).
  assert (core_moves decode bound (core c) k []) as Hm.
  { apply (moves_trans _ _ (core c) (core c <| core_cancelled := true |>) _ [] []);
      [by apply moves_view|].
    apply (moves_trans _ _ _ _ _ [] [] (moves_discard _ _ _) (moves_wake _ _ _)). }
  set (c1 := c <| core := k |> <| cancellation := true |> <| guard_held := false |>
               <| pump := _ |>).
  assert (follows p c1) as Hf1.
  { eapply (follows_moves p c _ []); try done; cbn; rewrite ?app_nil_r; auto.
    - unfold next_ok. cbn. by destruct (pump c).
    - eapply ends_pump; [| | |apply (moves_ends _ _ _ _ _ Hm), (fol_ends _ _ Hf)];
        [by destruct (pump c)| |by destruct (pump c)].
      pose proof (ends_discarded _ _ _ _ (fol_ends _ _ Hf)) as Hd. destruct (pump c); naive_solver.
    - destruct (pump c); by intros l ?%not_elem_of_nil. }
  clearbody c1. destruct (close_exchange _ _ _) as [l deadline] eqn:Hx.
  apply close_exchange_reached in Hx.
  destruct (_ || _); (eapply (follows_app p c1 _ []); try done;
    [apply moves_same|by rewrite app_nil_r|]); cbn.
  - by intros l' ?%not_elem_of_nil.
  - intros l' ->%list_elem_of_singleton. by right.
Qed.

Lemma app_step_follows p c ev c' : follows p c -> app_step pins c ev = Some c' -> follows p c'.
Proof.
  intros Hf. unfold app_step. destruct (app c) as [| | |l t|l t| |l t|l t] eqn:Ha, ev; try done;
    intros [= <-]; try (by apply app_poll_follows || by apply app_close_follows
      || by apply app_drop_follows || by apply app_register_follows);
    try (eapply app_send_follows; by rewrite ?Ha).
  - eapply (follows_app p c _ []); try done; [apply moves_same|by rewrite app_nil_r|auto].
  - apply app_state_follows; [done|by left].
  - destruct (_ && _).
    + apply app_state_follows; [done|right; by rewrite Ha].
    + eapply (follows_app p c _ []); try done;
        [apply moves_same|by rewrite app_nil_r|by intros l' ?%not_elem_of_nil].
  - apply app_state_follows; [done|by left].
  - destruct (_ && _); apply app_state_follows; try done; [right; by rewrite Ha|by left].
Qed.

(** ** The pump's steps *)

(** The pump goes on, or returns, without an exchange. *)
Lemma follows_pump p c c' :
  follows p c -> core_moves decode bound (core c) (core c') [] -> delivered c' = delivered c ->
  app c' = app c -> controls c' = controls c ->
  (pending_credit c' = pending_credit c \/ pending_credit c' = None) ->
  pump_controls (pump c') = [] -> next_ok c' -> ends_ok bound p (core c') (pump c') -> follows p c'.
Proof.
  intros Hf Hm Hd Ha Hs Hcr Hp Hno He.
  apply (follows_moves p c c' []); rewrite ?Hd, ?Hs, ?Ha, ?Hp, ?app_nil_r; auto.
  - by intros l ?%not_elem_of_nil.
  - destruct Hcr; auto.
Qed.

Lemma follows_end p c n e :
  follows p c -> is_complete e = false -> follows p (pump_end (c <| next_expected := n |>) e).
Proof.
  intros Hf He. pose proof (moves_commit decode bound (core c) e He) as Hm.
  eapply follows_pump; try done; [by left|].
  eapply ends_pump; [done..|]. apply (moves_ends _ _ _ _ _ Hm), Hf.
Qed.

Lemma follows_discard p c e : follows p c -> is_complete e = false -> follows p (pump_discard c e).
Proof.
  intros Hf He. pose proof (moves_discard decode bound (core c)) as Hm.
  eapply follows_pump; try done; [by left|].
  eapply ends_pump; [done|by intros ? [= <-]|done|]. apply (moves_ends _ _ _ _ _ Hm), Hf.
Qed.

(** A step back to the top of the loop that leaves the core as it was. *)
Lemma follows_loop p c c' :
  follows p c -> next_ok (c <| pump := PumpLoop |>) ->
  core_view (core c') = core_view (core c) -> end_view (core c') = end_view (core c) ->
  delivered c' = delivered c ->
  next_expected c' = next_expected c -> app c' = app c -> controls c' = controls c ->
  (pending_credit c' = pending_credit c \/ pending_credit c' = None) ->
  pump c' = PumpLoop -> follows p c'.
Proof.
  intros Hf Hno Hv He Hd Hn Ha Hs Hcr Hp.
  eapply follows_pump; try done; rewrite ?Hp; try done.
  - by apply moves_view.
  - unfold next_ok in *. rewrite Hp, Hn. injection Hv as _ _ -> _ _. exact Hno.
  - eapply ends_view; [done|]. eapply ends_pump; [done..|apply Hf].
Qed.

(** An exchange is prepared with the cursors as they are. *)
Lemma follows_send p c l seq purpose c' :
  follows p c -> ~ stopping (pump c) -> reached (core c) l ->
  core c' = core c -> delivered c' = delivered c -> next_expected c' = next_expected c ->
  app c' = app c -> controls c' = controls c ->
  (pending_credit c' = pending_credit c \/
   exists seq, pending_credit c' = Some (seq, core_received (core c), core_consumed (core c))) ->
  pump c' = PumpSend (mkExchange l seq purpose) ->
  (forall e, purpose = ForEnd e -> is_complete e = true -> complete_at bound p (core_received (core c))) ->
  follows p c'.
Proof.
  intros Hf Hst Hl Hc Hd Hn Ha Hs Hcr Hp He.
  apply (follows_moves p c c' []); rewrite ?Hc, ?Hd, ?Hs, ?Ha, ?Hp, ?app_nil_r; auto.
  - apply moves_same.
  - pose proof (fol_next _ _ Hf) as Hno. unfold next_ok in *. rewrite Hp, Hn, Hc.
    destruct (pump c); try done; by exfalso; apply Hst.
  - apply (ends_running bound p _ (pump c)); [done|apply Hf| |by intros ? [=]].
    cbn. intros e. destruct purpose; intros [= ->]. by apply He.
  - cbn. intros l' ->%list_elem_of_singleton. by right.
  - destruct Hcr as [?|[? ?]]; eauto.
Qed.

Lemma cursors_spec p s : published p s -> cursors p = (received s, consumed s).
Proof.
  intros Hp. destruct (pub_flow _ _ Hp) as (_ & [] & _). unfold cursors. congruence.
Qed.

(** The next frame of the provider has room. *)
Lemma next_has_room p s c raw sid v :
  published p s -> follows p c -> pump c = PumpSelect -> raw ∈ wire p ->
  parse_live_frame raw bound = Ok (FrameData sid (next_expected c) v) ->
  exists i, N.of_nat i = core_received (core c) /\ produced p !! i = Some v /\
    data_body (session_id (record p)) i v = Ok raw /\
    (N.of_nat (List.length (queue (core c))) + 1 <= WINDOW_FRAMES)%N /\
    (queued_bytes (core c) + N.of_nat (String.length raw) <= WINDOW_BYTES)%N.
Proof.
  intros Hp Hf Hpm Hraw Hparse.
  destruct (data_on_wire p s _ _ _ _ _ Hp Hraw Hparse) as (i & Hseq & Hv & Hb & Hi).
  pose proof (fol_next _ _ Hf) as Hn. unfold next_ok in Hn. rewrite Hpm in Hn.
  exists i. assert (N.of_nat i = core_received (core c)) as Ei by lia.
  destruct (frame_has_room decode p s (core c) (delivered c) i v raw) as [Hq Hw]; try done; [apply Hf|].
  destruct (fol_behind _ _ Hf) as [_ Hc]. by rewrite (cursors_spec _ _ Hp) in Hc.
Qed.

Lemma pump_data_next p s c raw sid v o :
  published p s -> follows p c -> pump c = PumpSelect -> raw ∈ wire p ->
  parse_live_frame raw bound = Ok (FrameData sid (next_expected c) v) -> decode v = Ok o ->
  let c' := pump_data decode c (next_expected c) v (N.of_nat (String.length raw)) in
  follows p c' /\ pump c' = PumpLoop /\ core_received (core c') = (core_received (core c) + 1)%N.
Proof.
  intros Hp Hf Hpm Hraw Hparse Ho c'.
  destruct (next_has_room p s c raw sid v Hp Hf Hpm Hraw Hparse) as (i & Hi & Hv & Hb & Hq & Hw).
  assert (exists slot k, slot_at decode p i v = Some slot /\
    core_view k = ((queue (core c) ++ [slot])%list, (queued_bytes (core c) + slot_len slot)%N,
                   (core_received (core c) + 1)%N, core_consumed (core c), core_discarded (core c)) /\
    (queued_bytes (core c) + slot_len slot <= WINDOW_BYTES)%N /\
    core_end k = core_end (core c) /\ pending_end k = pending_end (core c) /\
    c' = c <| next_expected := (next_expected c + 1)%N |> <| core := k |> <| pump := PumpLoop |>)
    as (slot & k & Hslot & Hk & Hroom & Eend & Epend & Ec').
  { subst c'. unfold pump_data, slot_at. rewrite Ho, N.ltb_irrefl.
    apply N.ltb_ge in Hq as Hq'. apply N.ltb_ge in Hw as Hw'. cbv zeta.
    set (c1 := c <| next_expected := (next_expected c + 1)%N |>).
    change (core c1) with (core c). destruct o as [t|].
    - unfold core_admit. rewrite Hq', Hw', Hb. cbn [orb].
      pose proof window_bytes_u64. rewrite wrapping_add_u64_exact by lia.
      eexists _, _. split_and!; [reflexivity| | | | |reflexivity]; cbn; try done;
        unfold wake; by case_match.
    - unfold release_filtered. change (queue (record_received (core c))) with (queue (core c)).
      rewrite Hq'.
      eexists _, _. split_and!; [reflexivity| | | | |reflexivity]; cbn; rewrite ?N.add_0_r;
        [|lia|..]; unfold wake; by case_match. }
  rewrite Ec'. injection Hk as Ekq Ekb Ekr Ekc Ekd. split_and!; [|done|done].
  pose proof Hf as [Hs Hno Hctl [Hb1 Hb2] He]. split; cbn.
  - apply (stream_push decode p (core c) k _ i v slot); try done.
    unfold core_view. by rewrite Ekq, Ekb, Ekr, Ekc, Ekd.
  - unfold next_ok in *. cbn. rewrite Hpm in Hno. lia.
  - apply (controls_step c); cbn; rewrite ?Ekr, ?Ekc; auto; [lia|]. by intros l ?%not_elem_of_nil.
  - split; rewrite ?Ekr, ?Ekc; [lia|done].
  - rewrite Hpm in He. destruct He as [_ _ Hpend Hcomp]. split; try done; rewrite ?Eend, ?Epend.
    + by intros e (_ & _ & ? & _)%Hpend.
    + intros e Hend Hc. by destruct (Hcomp e Hend Hc) as (_ & _ & ?).
Qed.

Lemma pump_data_follows p s c raw sid seq v :
  published p s -> follows p c -> pump c = PumpSelect -> raw ∈ wire p ->
  parse_live_frame raw bound = Ok (FrameData sid seq v) ->
  follows p (pump_data decode c seq v (N.of_nat (String.length raw))).
Proof.
  intros Hp Hf Hpm Hraw Hparse.
  destruct (N.lt_trichotomy seq (next_expected c)) as [Hlt|[->|Hgt]].
  - unfold pump_data. rewrite (proj2 (N.ltb_ge _ _)) by lia. rewrite (proj2 (N.ltb_lt _ _) Hlt).
    eapply (follows_loop p c); try done; [|by left].
    pose proof (fol_next _ _ Hf) as Hn. unfold next_ok in *. by rewrite Hpm in Hn.
  - destruct (decode v) as [o|message] eqn:Ho; [by eapply pump_data_next|].
    unfold pump_data. rewrite N.ltb_irrefl, Ho. apply follows_end; auto with live.
  - unfold pump_data. rewrite (proj2 (N.ltb_lt _ _)) by lia.
    apply (follows_end p c (next_expected c)); auto with live.
Qed.

Lemma follows_failed p c e : follows p c -> is_complete e = false -> follows p (pump_end c e).
Proof. intros Hf He. exact (follows_end p c (next_expected c) e Hf He). Qed.

Lemma running_next p c : follows p c -> ~ stopping (pump c) -> next_ok (c <| pump := PumpLoop |>).
Proof.
  intros Hf Hst. pose proof (fol_next _ _ Hf) as Hn. unfold next_ok in *.
  destruct (pump c); try done; by exfalso; apply Hst.
Qed.

Lemma pump_challenge_follows p c id n :
  follows p c -> pump c = PumpSelect -> follows p (pump_challenge pins c id n).
Proof.
  intros Hf Hpm. unfold pump_challenge. destruct (_ <? _)%N; [apply follows_failed; auto with live|].
  eapply (follows_send p c); try done; [by rewrite Hpm; intros []|by split|by left].
Qed.

Lemma pump_final_follows p c raw sid n t :
  follows p c -> pump c = PumpSelect -> raw ∈ wire p ->
  parse_live_frame raw bound = Ok (FrameEnd sid n t) -> follows p (pump_final pins c n t).
Proof.
  intros Hf Hpm Hraw Hparse. unfold pump_final.
  destruct (N.eqb_spec n (core_received (core c))) as [->|]; cbn [negb];
    [|apply follows_failed; auto with live].
  eapply (follows_send p c); try done; [by rewrite Hpm; intros []|by split|by left|].
  intros e [= <-] Hcomp. exists raw, sid, t. split_and!; try done.
  unfold is_complete in Hcomp. by apply bool_decide_eq_true in Hcomp.
Qed.

(** What a consumer takes for the provider's was published by the provider. *)
Definition authentic p (m : Message) : Prop :=
  forall f, parse_live_frame (message_payload m) bound = Ok f ->
    verify_provider_frame pins m f = true -> message_payload m ∈ wire p.

Lemma pump_message_follows p s c m :
  published p s -> follows p c -> pump c = PumpSelect -> authentic p m ->
  follows p (pump_message decode pins c m).
Proof.
  intros Hp Hf Hpm Hm. unfold pump_message.
  assert (follows p (c <| pump := PumpLoop |>)) as Hloop.
  { eapply (follows_loop p c); try done; [|by left].
    apply (running_next p); [done|]. by rewrite Hpm; intros []. }
  destruct (parse_live_frame _ _) as [f|] eqn:Hparse; [|done].
  destruct (verify_provider_frame pins m f) eqn:Hv; cbn [negb]; [|done].
  pose proof (Hm f Hparse Hv) as Hraw. destruct f as [sid seq v|sid id n|sid n t].
  - by eapply pump_data_follows.
  - by apply pump_challenge_follows.
  - by eapply pump_final_follows.
Qed.

Lemma pump_credit_follows p c now :
  follows p c -> pump c = PumpSelect -> follows p (pump_credit pins c now).
Proof.
  intros Hf Hpm. unfold pump_credit. cbn zeta.
  assert (~ stopping (pump c)) as Hst by (by rewrite Hpm; intros []).
  change (pending_credit (c <| pump_deadlines := credit_sent (pump_deadlines c) |>))
    with (pending_credit c).
  destruct (pending_credit c) as [[[seq r] n]|] eqn:Hcr.
  - cbn. rewrite Hcr. apply (ok_credit _ (fol_controls _ _ Hf)) in Hcr as Hr.
    eapply (follows_send p c); try done; [exact Hr|by left].
  - cbn. destruct (_ <? _)%N; cbn.
    + eapply (follows_send p c); try done; [by split|]. right. eauto.
    + rewrite Hcr. eapply (follows_loop p c); try done; [by apply (running_next p)|by left].
Qed.

Lemma pump_deadline_follows p c now :
  follows p c -> pump c = PumpSelect -> follows p (pump_deadline pins c now).
Proof.
  intros Hf Hpm. unfold pump_deadline.
  assert (follows p (c <| pump := PumpLoop |>)) as Hloop.
  { eapply (follows_loop p c); try done; [|by left].
    apply (running_next p); [done|]. by rewrite Hpm; intros []. }
  destruct (evaluate _ _) as [[]|]; try done; try (apply follows_failed; by auto with live).
  by apply pump_credit_follows.
Qed.

(** A verified end is made pending. *)
Lemma pump_drains p c x e now :
  follows p c -> pump c = PumpAwait x -> exchange_purpose x = ForEnd e -> is_complete e = true ->
  follows p (c <| core := set_pending_end (core c) e <| core_phase := ConDraining |> |>
               <| pump_deadlines := data_admitted (begin_draining (pump_deadlines c)) now |>
               <| pump := PumpLoop |>).
Proof.
  intros Hf Hpm Hx He.
  assert (~ stopping (pump c)) as Hst by (by rewrite Hpm; intros []).
  pose proof (fol_ends _ _ Hf) as [Ha _ Hp Hc].
  pose proof (pending_view (core c) e) as Hv. injection Hv as Eq Eb Er Ec Ed.
  assert (pending_end (core c) = None) as Hnone.
  { destruct (pending_end (core c)); [|done]. by destruct (Hp _ eq_refl) as (_ & _ & ? & _). }
  assert (pending_end (set_pending_end (core c) e) = Some e /\
    core_end (set_pending_end (core c) e) = core_end (core c)) as [Epend Eend].
  { unfold set_pending_end, wake. rewrite Hnone. by destruct (waker _). }
  destruct Hf as [Hs Hn Hctl [Hb1 Hb2] _]. split.
  - apply (stream_view decode p (core c)); [exact (pending_view (core c) e)|done].
  - unfold next_ok in *. rewrite Hpm in Hn. cbn. by rewrite Er.
  - apply (controls_step c); cbn; rewrite ?Er, ?Ec; auto. by intros l ?%not_elem_of_nil.
  - split; cbn; by rewrite ?Er, ?Ec.
  - split; try done; cbn; rewrite ?Er, ?Epend, ?Eend.
    + intros e' [= <-]. split_and!; [done| |done|by left].
      apply (Ha e); [|done]. rewrite Hpm. cbn. by rewrite Hx.
    + intros e' Hend Hcomp. by destruct (Hc e' Hend Hcomp) as (_ & _ & ?).
Qed.

Lemma pump_ack_follows p c x ack now :
  follows p c -> pump c = PumpAwait x -> follows p (pump_ack pins c x ack now).
Proof.
  intros Hf Hpm. assert (~ stopping (pump c)) as Hst by (by rewrite Hpm; intros []).
  pose proof (running_next p c Hf Hst) as Hno.
  assert (follows p (c <| pump := PumpLoop |>)) as Hloop
    by (eapply (follows_loop p c); try done; by left).
  unfold pump_ack. destruct (exchange_purpose x) as [|due consumed| |e] eqn:Hx.
  - destruct ack as [ack|].
    + destruct (bool_decide _); [apply follows_failed; auto with live|done].
    + destruct (_ <? _)%N; [|apply follows_failed; auto with live].
      apply (follows_moves p c _ []); try done; cbn; auto.
      * apply moves_same.
      * by rewrite app_nil_r.
      * apply (ends_running bound p _ (pump c)); [done|apply Hf| |by intros ? [=]]. cbn. by rewrite Hx.
      * rewrite Hpm. auto.
  - destruct ack; (eapply (follows_loop p c); try done); [by right|by left].
  - destruct ack as [ack|]; [|done]. destruct (bool_decide _); [|done].
    destruct (bool_decide_reflect (core_phase (core c) = ConActivating)) as [Hph|];
      [|eapply (follows_loop p c); try done; by left].
    assert (core_moves decode bound (core c) (core c <| core_phase := ConActive |>) []) as Hm.
    { split; try done; [intros q d; by rewrite app_nil_r|].
      intros q pm [Ha Hd Hp Hc]. split; try done. rewrite Hph in Hp.
      intros e (? & ? & ? & [?|?])%Hp; [done|by split_and!; auto]. }
    eapply follows_pump; try done; [by left|].
    eapply ends_pump; [done..|]. apply (moves_ends _ _ _ _ _ Hm), Hf.
  - destruct (is_complete e) eqn:He; [by eapply pump_drains|by apply follows_failed].
Qed.

Lemma pump_loop_follows p c : follows p c -> pump c = PumpLoop -> follows p (pump_loop c).
Proof.
  intros Hf Hpm. pose proof (fol_next _ _ Hf) as Hn. unfold next_ok in Hn. rewrite Hpm in Hn.
  pose proof (fol_ends _ _ Hf) as He. unfold pump_loop.
  destruct (core_end (core c)) as [e|] eqn:Hend.
  - eapply follows_pump; try done; [apply moves_same|by left|]. by eapply ends_pump.
  - destruct (bool_decide_reflect (core_phase (core c) = ConDraining)) as [|Hph].
    + pose proof (moves_drain decode bound (core c)) as Hm.
      destruct (drain_complete (core c)) as [drained k]. cbn [snd] in Hm.
      pose proof (moves_received _ _ _ _ _ Hm) as Hr.
      eapply follows_pump; try done; [by left|by destruct drained| |].
      * unfold next_ok. cbn. destruct drained; [done|]. by rewrite Hr.
      * eapply ends_pump; [| | |apply (moves_ends _ _ _ _ _ Hm), He]; by destruct drained.
    + eapply follows_pump; try done; [apply moves_same|by left|].
      destruct He as [_ _ Hp _]. split; try done; cbn.
      * intros e (_ & _ & _ & [?|[? ?]])%Hp; [done|congruence].
      * intros e ?. congruence.
Qed.

Lemma drain_deadline_follows p c now :
  follows p c -> pump c = PumpDrain -> follows p (drain_deadline c now).
Proof.
  intros Hf Hpm. unfold drain_deadline.
  destruct (bool_decide _); [apply follows_discard; auto with live|].
  pose proof (fol_next _ _ Hf) as Hn. unfold next_ok in Hn. rewrite Hpm in Hn.
  eapply (follows_loop p c); try done. by left.
Qed.

Lemma drain_notified_follows p c now :
  follows p c -> pump c = PumpDrain -> follows p (drain_notified c now).
Proof.
  intros Hf Hpm. unfold drain_notified. cbn zeta.
  pose proof (fol_next _ _ Hf) as Hn. unfold next_ok in Hn. rewrite Hpm in Hn.
  set (c1 := if (_ <? _)%N then _ else c).
  assert (core c1 = core c /\ delivered c1 = delivered c /\ app c1 = app c /\
    controls c1 = controls c /\ pending_credit c1 = pending_credit c /\
    next_expected c1 = next_expected c) as (Ec & Ed & Ea & Es & Ecr & En)
    by (subst c1; by destruct (_ <? _)%N).
  clearbody c1. rewrite Ec. pose proof (moves_drain decode bound (core c)) as Hm.
  destruct (drain_complete (core c)) as [drained k]. cbn [snd] in Hm.
  pose proof (moves_received _ _ _ _ _ Hm) as Hr.
  eapply follows_pump; try done; [by left|by destruct drained| |].
  - unfold next_ok. cbn. destruct drained; [done|]. by rewrite Hr, En.
  - eapply ends_pump; [| | |apply (moves_ends _ _ _ _ _ Hm), (fol_ends _ _ Hf)]; by destruct drained.
Qed.

Lemma pump_start_follows p c ev c' :
  follows p c -> pump c = PumpStart -> pump_start c ev = Some c' -> follows p c'.
Proof.
  intros Hf Hpm. pose proof (fol_ends _ _ Hf) as He.
  assert (~ stopping (pump c)) as Hst by (by rewrite Hpm; intros []).
  pose proof (running_next p c Hf Hst) as Hno.
  destruct ev; try done; cbn [pump_start].
  - destruct (start_permit _); intros [= <-].
    eapply follows_pump; try done; [by apply moves_view|by left|].
    apply (ends_view _ _ (core c)); [done|]. by apply (ends_running _ _ _ (pump c)).
  - destruct (cancellation c); intros [= <-].
    eapply follows_pump; try done; [apply moves_same|by left|]. by eapply ends_pump.
  - intros Hc. apply (inj Some) in Hc as <-.
    pose proof (follows_failed p c (consumer_failure CodeSetupTimeout
      "live prepared session expired before activation") Hf eq_refl) as Hf1.
    set (c1 := pump_end _ _) in *. assert (pump c1 = PumpReturned) as Hp1 by done. clearbody c1.
    pose proof (moves_wake decode bound (core c1)) as Hm.
    eapply (follows_pump p c1); auto; unfold next_ok; cbn; rewrite ?Hp1; auto.
    rewrite <- Hp1. apply (moves_ends _ _ _ _ _ Hm), Hf1.
Qed.

Lemma pump_subscribed_follows p c r :
  follows p c -> pump c = PumpSubscribe -> follows p (pump_subscribed c r).
Proof.
  intros Hf Hpm. assert (~ stopping (pump c)) as Hst by (by rewrite Hpm; intros []).
  destruct r; cbn [pump_subscribed]; try (apply follows_failed; by auto with live).
  pose proof (running_next p c Hf Hst) as Hno. destruct Hf as [Hs Hn Hctl Hb [_ _ Hp Hc]].
  split; try done.
  - apply (controls_step c); cbn; auto. by intros l ?%not_elem_of_nil.
  - split; try done; cbn.
    + by intros e (_ & _ & ? & _)%Hp.
    + intros e He Hcomp. by destruct (Hc e He Hcomp) as (_ & _ & ?).
Qed.

Lemma pump_reconciled_follows p c lost :
  follows p c -> pump c = PumpReconcile -> follows p (pump_reconciled pins c lost).
Proof.
  intros Hf Hpm. unfold pump_reconciled.
  destruct lost as [lost|]; [apply follows_failed; auto with live|].
  eapply (follows_send p c); try done; [by rewrite Hpm; intros []| |by left].
  split; cbn; lia.
Qed.

Lemma pump_select_follows p s c ev c' :
  published p s -> follows p c -> pump c = PumpSelect ->
  (forall m lost, ev = CMessage (Some m) lost -> authentic p m) ->
  pump_select decode pins c ev = Some c' -> follows p c'.
Proof.
  intros Hp Hf Hpm Hm. assert (~ stopping (pump c)) as Hst by (by rewrite Hpm; intros []).
  pose proof (running_next p c Hf Hst) as Hno.
  destruct ev as [| | | | | | | |now|lost|now lost|m lost| | | | | | | | | | |];
    cbn [pump_select]; try done.
  - destruct (credit_permit _); [|done]. intros [= <-].
    destruct (_ <? _)%N; (eapply (follows_loop p c); try done; by left).
  - intros [= <-]. destruct lost; [apply follows_discard; auto with live|].
    eapply (follows_loop p c); try done. by left.
  - intros [= <-]. destruct lost; [apply follows_discard; auto with live|].
    by apply pump_deadline_follows.
  - destruct m as [m|]; intros [= <-]; [|apply follows_failed; auto with live].
    destruct lost; [apply follows_discard; auto with live|].
    eapply pump_message_follows; eauto.
Qed.

Lemma pump_sent_follows p c x sent :
  follows p c -> pump c = PumpSend x ->
  follows p (send_control c (exchange_control x) (exchange_seq x) sent <| pump := PumpAwait x |>).
Proof.
  intros Hf Hpm. assert (~ stopping (pump c)) as Hst by (by rewrite Hpm; intros []).
  pose proof (running_next p c Hf Hst) as Hno.
  assert (reached (core c) (exchange_control x)) as Hx
    by (apply (ok_pump _ (fol_controls _ _ Hf)); rewrite Hpm; by apply list_elem_of_singleton).
  pose proof (send_control_same c (exchange_control x) (exchange_seq x) sent) as
    (Ec & Ed & En & Ecr & Ea & _).
  pose proof (send_control_sent c (exchange_control x) (exchange_seq x) sent) as Hs.
  set (c1 := send_control _ _ _ _) in *. clearbody c1.
  apply (follows_moves p c _ []); cbn; rewrite ?Ec, ?Ed, ?Ecr, ?Ea, ?app_nil_r; auto.
  - apply moves_same.
  - unfold next_ok in *. cbn in *. by rewrite En.
  - apply (ends_running bound p _ (pump c)); [done|apply Hf| |by intros ? [=]].
    pose proof (ends_announced _ _ _ _ (fol_ends _ _ Hf)) as Ha. by rewrite Hpm in Ha.
  - rewrite Hpm. auto.
Qed.

Lemma pump_step_follows p s c ev c' :
  published p s -> follows p c ->
  (forall m lost, ev = CMessage (Some m) lost -> authentic p m) ->
  pump_step decode pins c ev = Some c' -> follows p c'.
Proof.
  intros Hp Hf Hm. unfold pump_step.
  assert (forall q, (if cancellable q && cancellation c then Some (pump_discard c cancelled_end)
                     else None) = Some c' -> follows p c') as Hcancel.
  { intros q. destruct (_ && _); [|done]. intros [= <-]. by apply follows_discard. }
  destruct (pump c) as [| | |x|x| | | |e|] eqn:Hpm; [by eapply pump_start_follows|..];
    destruct ev; try done; try apply Hcancel; try (by eapply pump_select_follows).
  - intros [= <-]. by apply pump_subscribed_follows.
  - intros [= <-]. by apply pump_reconciled_follows.
  - intros [= <-]. by apply pump_sent_follows.
  - intros [= <-]. by apply pump_ack_follows.
  - intros [= <-]. by apply pump_loop_follows.
  - destruct (elapsed _ _); [|done]. intros [= <-]. by apply drain_deadline_follows.
  - destruct (core_end _); [|done]. intros [= <-]. by apply drain_notified_follows.
  - intros [= <-]. apply follows_failed; [done|]. by apply (ends_discarded _ _ _ _ (fol_ends _ _ Hf)).
Qed.

(** ** The session *)

(** The provider handles a control the consumer published, and the consumer takes for the
    provider's frame only what the provider published; the rest is up to the tasks and the
    network. *)
Inductive session_step : Engine * Consumer T -> Engine * Consumer T -> Prop :=
| provider_step p c ev p' :
    exec p ev = Some p' ->
    (forall l now nonce, ev = EvControl l now nonce ->
       exists body, body ∈ controls c /\ parse_live_control body = Ok l) ->
    session_step (p, c) (p', c)
| consumer_step p c ev c' :
    con_exec decode pins c ev = Some c' ->
    (forall m lost, ev = CMessage (Some m) lost -> authentic p m) ->
    session_step (p, c) (p, c').

(** A session from its offer on. *)
Definition session (sid : string) (limit now : N) (p : Engine) (c : Consumer T) : Prop :=
  rtc session_step (new_engine sid limit now, new_consumer pins) (p, c).

Lemma follows_provider p s c ev p' :
  published p s -> follows p c -> exec p ev = Some p' ->
  (forall l now nonce, ev = EvControl l now nonce ->
     exists body, body ∈ controls c /\ parse_live_control body = Ok l) ->
  follows p' c.
Proof.
  intros Hp Hf He Hctl.
  assert (wire p `prefix_of` wire p' /\ produced p `prefix_of` produced p' /\
    session_id (record p') = session_id (record p) /\ behind p' (core c)) as (Hw & Hpr & Hsid & Hb).
  { pose proof (fol_behind _ _ Hf) as Hb. apply exec_grows in He as Hg.
    destruct ev; try (destruct Hg as [? ? ? Hcur]; unfold behind; by rewrite Hcur).
    cbn [exec] in He. destruct (lane_free p); [|done]. injection He as <-.
    destruct (dispatch_cursors p c0 now nonce s Hp) as (-> & -> & Hsid & Hcur). split_and!; try done.
    destruct (Hctl _ _ _ eq_refl) as (body & Hin & Hparse).
    destruct (ok_sent _ (fol_controls _ _ Hf) _ Hin) as (l & Hl & Hr).
    apply (parse_control_unique l) in Hparse as ->; [|done].
    unfold behind. by destruct Hcur as [-> | ->]. }
  destruct Hf as [Hs Hn Hk _ [Ha Hd Hpe Hco]]. split; try done.
  - by eapply stream_grows.
  - split; try done.
    + intros e ? ?. eapply complete_grows; eauto.
    + intros e (? & ? & ? & ?)%Hpe. split_and!; try done. by eapply complete_grows.
    + intros e He' Hc. destruct (Hco e He' Hc) as (? & ? & ?). split_and!; try done. by eapply complete_grows.
Qed.

Lemma follows_new p : cursors p = (0, 0)%N -> follows p (new_consumer pins).
Proof.
  intros Hc. split; try done.
  - exists []. by split_and!.
  - split; try done; by intros ? ?%not_elem_of_nil.
  - unfold behind. by rewrite Hc.
Qed.

Lemma session_follows sid limit now p c :
  session sid limit now p c -> exists s, published p s /\ follows p c.
Proof.
  unfold session. intros Hr. remember (p, c) as st eqn:Hst. revert p c Hst.
  pattern st. eapply rtc_ind_r; [| |exact Hr]; clear st Hr.
  - intros p c [= <- <-]. exists (mkSpec [] 0 0). split; [apply new_engine_published|by apply follows_new].
  - intros [p c] z _ Hstep IH p' c' ->. destruct (IH p c eq_refl) as (s & Hp & Hf).
    inversion Hstep as [? ? ev ? He Hctl|? ? ev ? He Hm]; subst.
    + destruct (exec_published _ _ _ _ Hp He) as [s' Hp']. exists s'. split; [done|].
      exact (follows_provider p s c' ev p' Hp Hf He Hctl).
    + exists s. split; [done|]. unfold con_exec in He. destruct (app_event ev).
      * by eapply app_step_follows.
      * by eapply pump_step_follows.
Qed.

(** ** What the application is given *)

(** The value of a data frame, when there is one for the application. *)
Definition decoded (v : Json) : option T := match decode v with Ok o => o | Err _ => None end.

Lemma values_decoded p slots :
  slots_ok decode p slots ->
  values slots = omap decoded (take (List.length slots) (produced p)) /\
  Forall (fun v => is_ok (decode v) = true) (take (List.length slots) (produced p)).
Proof.
  induction slots as [|slot slots IH] using rev_ind; intros Hs; [done|].
  destruct IH as [IHv IHd].
  { intros i x Hi. apply Hs. by apply lookup_app_l_Some. }
  destruct (Hs (List.length slots) slot) as (v & Hv & Hslot); [by rewrite list_lookup_middle|].
  assert (slot_value slot = decoded v /\ is_ok (decode v) = true) as [Hval Hok].
  { unfold slot_at, decoded in *. destruct (decode v) as [[t|]|]; [|by injection Hslot as <-|done].
    destruct (data_body _ _ _); [|done]. by injection Hslot as <-. }
  rewrite length_app, Nat.add_1_r. erewrite take_S_r by done. unfold values in *.
  rewrite !omap_app, IHv. split.
  - f_equal. cbn. by rewrite Hval.
  - apply Forall_app. split; [done|]. by repeat constructor.
Qed.

(** C9: Whatever the network loses, repeats, reorders or adds, and however the tasks interleave,
    an application is given values the source produced, in the order the source produced
    them and each at most once; until a queued value is dropped by a close, a cancellation
    or a failure, it is given all of them up to the last it was given. *)
Theorem delivered_in_order sid limit now p c :
  session sid limit now p c ->
  delivered c `sublist_of` omap decoded (produced p) /\
  (core_discarded (core c) = false ->
   delivered c = omap decoded (take (N.to_nat (core_consumed (core c))) (produced p))).
Proof.
  intros (s & Hp & Hf)%session_follows.
  destruct (fol_stream _ _ Hf) as (past & Hn & Hs & Hd & Hc & Hx & _).
  assert (slots_ok decode p past) as Hpast by (intros i x Hi; apply Hs; by apply lookup_app_l_Some).
  apply values_decoded in Hpast as [Hv _]. split.
  - etrans; [done|]. rewrite Hv. rewrite <- (take_drop (List.length past) (produced p)) at 2.
    rewrite omap_app. by apply sublist_inserts_r.
  - intros [-> ->]%Hx. by rewrite Nat2N.id.
Qed.

(** C4: A stream that ended with [Complete], with no queued value dropped, gave the application
    every value of the source. *)
Theorem complete_delivers_all sid limit now p c e :
  session sid limit now p c -> core_end (core c) = Some e -> is_complete e = true ->
  core_discarded (core c) = false ->
  delivered c = omap decoded (produced p) /\ Forall (fun v => is_ok (decode v) = true) (produced p).
Proof.
  intros (s & Hp & Hf)%session_follows Hend Hcomp Hkept.
  destruct (ends_complete _ _ _ _ (fol_ends _ _ Hf) e Hend Hcomp) as (Hall & Hq & _).
  apply (complete_produced _ _ s _ Hp) in Hall.
  destruct (fol_stream _ _ Hf) as (past & Hn & Hs & _ & _ & Hx & _).
  destruct (Hx Hkept) as [_ ->]. rewrite Hq, app_nil_r in Hn, Hs.
  apply values_decoded in Hs as [-> Hd].
  replace (List.length past) with (List.length (produced p)) in * by lia.
  by rewrite firstn_all in *.
Qed.

(** C16: The queue never runs out of room: a data frame of the provider that is next in order and
    can be decoded is admitted, since the provider counts as outstanding everything the
    application has not taken. *)
Theorem frames_are_admitted sid limit now p c m sid' v o :
  session sid limit now p c -> pump c = PumpSelect -> message_payload m ∈ wire p ->
  parse_live_frame (message_payload m) bound = Ok (FrameData sid' (next_expected c) v) ->
  verify_provider_frame pins m (FrameData sid' (next_expected c) v) = true ->
  decode v = Ok o ->
  (fst (cursors p) <= core_received (core c))%N /\ (snd (cursors p) <= core_consumed (core c))%N /\
  let c' := pump_message decode pins c m in
  pump c' = PumpLoop /\ core_received (core c') = (core_received (core c) + 1)%N.
Proof.
  intros (s & Hp & Hf)%session_follows Hpm Hm Hparse Hv Ho.
  destruct (fol_behind _ _ Hf) as [Hr Hc]. do 2 (split; [done|]). cbn zeta.
  unfold pump_message. rewrite Hparse, Hv. cbn [negb].
  by destruct (pump_data_next p s c _ sid' v o Hp Hf Hpm Hm Hparse Ho) as (_ & ? & ?).
Qed.
End following.
