(* ===== verification/LiveExamples.v ===== *)
(** * Live sessions: runs

    Sessions that are run step by step, with small stand-ins for the codec, the hash and the
    signatures: a session that completes, and sessions that show what the code does when a
    message is lost or repeated, a wake-up or a signature comes at the wrong time, or the
    transport is lost. *)

From Stdlib Require Import Ascii String.
From S2P Require Import Prelude RustStr Extern Json Base64 Protocol Wire Flow Live LiveTypes.
From S2P Require Import LiveDeadlines LiveProvider LiveEngine LivePublication LiveSource.
From S2P Require Import LiveConsumer LiveSession.

Local Open Scope string_scope.

(** ** Running a session *)

Inductive Step := P (ev : Event) | C (ev : ConEvent).

Section running.
Context {T : Type} `{Base64Url, Sha256, Ed25519}.
Local Existing Instance json_tree.
Context `{!CanonicalJson, !JsonCodec Json}.
Context (decode : Json -> result (option T) string) (pins : ConsumerPins).

Definition allowed (p : Engine) (c : Consumer T) (s : Step) : bool :=
  match s with
  | P (EvControl l _ _) =>
      existsb (fun body => match parse_live_control body with
                           | Ok l' => bool_decide (l' = l) | Err _ => false end) (controls c)
  | C (CMessage (Some m) _) => existsb (String.eqb (message_payload m)) (wire p)
  | _ => true
  end.

Fixpoint play (st : Engine * Consumer T) (steps : list Step) : option (Engine * Consumer T) :=
  match steps with
  | [] => Some st
  | s :: steps =>
      let '(p, c) := st in
      if allowed p c s then
        match s with
        | P ev => match exec p ev with Some p => play (p, c) steps | None => None end
        | C ev => match con_exec decode pins c ev with Some c => play (p, c) steps | None => None end
        end
      else None
  end.

Lemma play_steps st steps st' :
  play st steps = Some st' -> rtc (session_step decode pins) st st'.
Proof.
  revert st. induction steps as [|s steps IH]; intros [p c]; cbn [play]; [by intros [= <-]|].
  destruct (allowed p c s) eqn:Ha; [|done]. destruct s as [ev|ev].
  - destruct (exec p ev) as [p1|] eqn:He; [|done]. intros Hr%IH.
    eapply rtc_l; [|exact Hr]. eapply provider_step; [exact He|]. intros l now nonce ->.
    cbn [allowed] in Ha. apply existsb_exists in Ha as (body & Hin & Hp). exists body.
    split; [by apply list_elem_of_In|]. destruct (parse_live_control body) as [l'|]; [|done].
    apply bool_decide_eq_true in Hp. by subst.
  - destruct (con_exec decode pins c ev) as [c1|] eqn:He; [|done]. intros Hr%IH.
    eapply rtc_l; [|exact Hr]. eapply consumer_step; [exact He|]. intros m lost -> f _ _.
    cbn [allowed] in Ha. apply existsb_exists in Ha as (body & Hin & Hp%String.eqb_eq).
    rewrite Hp. by apply list_elem_of_In.
Qed.
End running.

(** ** The stand-ins *)

Local Existing Instances rfc4648 rfc4648_laws sample_sha256 sample_ed25519 sample_ed25519_laws json_tree.

Definition sample_session : string := "AAAAAAAAAAAAAAAAAAAAAA".
Definition nonce_a : string := "AAAAAAAAAAAAAAAAAAAAAQ".
Definition nonce_b : string := "AAAAAAAAAAAAAAAAAAAAAg".
Definition sample_context : string := Eval vm_compute in b64_encode (take_padded 32 "context").
Definition sample_key : string := Eval vm_compute in b64_encode (sample_key_bytes true).

Definition text_decode (v : Json) : result (option string) string :=
  match v with
  | JString s => Ok (Some s)
  | JNull => Ok None
  | _ => Err "not a text"
  end.

Definition sample_pins : ConsumerPins := {|
  pinned_session := sample_session;
  pinned_session_key := sample_key;
  pinned_identity_key := sample_key;
  max_data_body_bytes := 1000;
  reservation_deadline := millis OPEN_RESERVATION_MS;
|}.

(** The controls and frames of the runs, with what a consumer acknowledges. *)
Definition pulse (seq : N) (id : string) (received consumed : N) : LiveControl :=
  pulse_control sample_session seq id received consumed.
Definition data (seq : N) (v : Json) : LiveFrame := FrameData sample_session seq v.
Definition challenge_frame (id : string) (n : N) : LiveFrame := FrameChallenge sample_session id n.
Definition end_frame (n : N) : LiveFrame := FrameEnd sample_session n complete_terminal.

Definition sample_bodies : list Json :=
  (control_json <$> [activate_control sample_session; pulse 2 nonce_a 0 0; pulse 3 nonce_a 0 0;
                     pulse 3 nonce_b 0 0; pulse 4 nonce_b 0 0; pulse 3 nonce_b 1 0;
                     end_ack_control sample_session 3 3 3 1;
                     end_ack_control sample_session 3 2 2 0]) ++
  (frame_json <$> [challenge_frame nonce_a 0; challenge_frame nonce_b 0; challenge_frame nonce_b 1;
                   data 1 (JString "one"); data 2 JNull; data 2 (JString "two");
                   data 3 (JString "three"); end_frame 3; end_frame 2; end_frame 1]).

Definition sample_codec : JsonCodec Json := table_codec sample_bodies.
Definition sample_canonical : CanonicalJson := canonical_table sample_bodies.
Lemma sample_codec_laws : @JsonCodecLaws Json sample_codec.
Proof. apply table_codec_laws. Qed.

Local Existing Instances sample_codec sample_canonical sample_codec_laws.

(** The message a frame arrives in. *)
Definition message (f : LiveFrame) : Message :=
  let payload := match to_vec (frame_json f) with Ok raw => raw | Err _ => "" end in
  {| message_context := Some sample_context;
     message_session_key := Some sample_key;
     message_proof := match sign_live_server_proof sample_context "data" payload true with
                      | Ok proof => Some proof | Err _ => None end;
     message_subject := "data";
     message_payload := payload |}.

Definition receive (f : LiveFrame) : list Step := [C (CMessage (Some (message f)) None); C CLoop].

Definition begin (steps : list Step) : option (Engine * Consumer string) :=
  play text_decode sample_pins
    (new_engine sample_session 1000 0, new_consumer sample_pins) steps.

Definition active_ack : ControlAckBody := mkControlAckBody StateActive 0 0 None None.

(** The application polls, the pump activates, and the provider challenges. *)
Definition opening : list Step :=
  [C (CPoll None); C CRegister; C CStart; C (CSubscribed SubscribeOk); C (CReconciled None);
   C (CSend true);
   P (EvControl (activate_control sample_session) (millis 10) (Some nonce_a));
   P (EvReply 0 HandedOff); P (EvChallenge 0 HandedOff);
   C (CAck (Some (mkControlAckBody StateActivating 0 0 None None)) (millis 20)); C CLoop].

(** The consumer answers the challenge, and the source starts. *)
Definition pulsing : list Step :=
  [C (CMessage (Some (message (challenge_frame nonce_a 0))) None); C (CSend true);
   P (EvControl (pulse 2 nonce_a 0 0) (millis 30) None); P (EvReply 0 HandedOff);
   P (EvStartCheck 0); P (EvStart 0 None (millis 40))].

Definition pulsed : list Step := [C (CAck (Some active_ack) (millis 50)); C CLoop].

(** The source gives a value, which is published. *)
Definition emit (v : Json) (t : N) : list Step :=
  [P EvSourcePoll; P (EvSourceItem (SourceValue v)); P EvAttempt; P (EvLane t);
   P (EvHandoff HandedOff t); P (EvCommit t); P (EvAdmitted t)].

Definition finish_source (t : N) : list Step :=
  [P EvSourcePoll; P (EvSourceItem SourceEnd); P (EvEnd HandedOff); P (EvEnded t)].

(** A session that delivers what the source gives and completes; the second frame comes
    twice. *)
Definition complete_steps : list Step :=
  (opening ++ pulsing ++ pulsed
   ++ emit (JString "one") (millis 60) ++ emit JNull (millis 70) ++ receive (data 1 (JString "one"))
   ++ [C (CPoll None)] ++ emit (JString "three") (millis 80) ++ finish_source (millis 90)
   ++ receive (data 2 JNull) ++ receive (data 2 JNull) ++ receive (data 3 (JString "three"))
   ++ [C (CMessage (Some (message (end_frame 3))) None); C (CSend true); C (CAck None (millis 100));
       C CLoop; C (CPoll None)])%list.

Definition outcome_of (st : option (Engine * Consumer string)) :
    option (list string * option LiveEnd * bool * list Json) :=
  '(p, c) ← st; Some (delivered c, core_end (core c), core_discarded (core c), produced p).

Lemma complete_run :
  outcome_of (begin complete_steps) =
  Some (["one"; "three"], Some complete_end, false, [JString "one"; JNull; JString "three"]).
Proof. vm_compute. reflexivity. Qed.

Definition state_of (steps : list Step) : Engine * Consumer string :=
  match begin steps with
  | Some st => st
  | None => (new_engine sample_session 1000 0, new_consumer sample_pins)
  end.

Definition runs (steps : list Step) : bool := match begin steps with Some _ => true | None => false end.

Lemma state_session steps :
  session text_decode sample_pins sample_session 1000 0 (fst (state_of steps)) (snd (state_of steps)).
Proof.
  unfold session, state_of. destruct (begin steps) as [[p c]|] eqn:Hb; [|done].
  by eapply play_steps.
Qed.

(** ** Witnesses *)

Definition complete_provider : Engine := fst (state_of complete_steps).
Definition complete_consumer : Consumer string := snd (state_of complete_steps).

Lemma delivered_in_order_witness :
  delivered complete_consumer `sublist_of` omap (decoded text_decode) (produced complete_provider) /\
  (core_discarded (core complete_consumer) = false ->
   delivered complete_consumer =
   omap (decoded text_decode)
     (take (N.to_nat (core_consumed (core complete_consumer))) (produced complete_provider))).
Proof.
  exact (delivered_in_order text_decode sample_pins sample_session 1000 0 _ _
           (state_session complete_steps)).
Defined.

Lemma complete_delivers_all_witness :
  delivered complete_consumer = omap (decoded text_decode) (produced complete_provider) /\
  Forall (fun v => is_ok (text_decode v) = true) (produced complete_provider).
Proof.
  apply (complete_delivers_all text_decode sample_pins sample_session 1000 0 _ _ complete_end
           (state_session complete_steps)); vm_compute; reflexivity.
Defined.

(** The first data frame is on its way. *)
Definition receiving_steps : list Step :=
  (opening ++ pulsing ++ pulsed ++ emit (JString "one") (millis 60))%list.
Definition receiving_provider : Engine := fst (state_of receiving_steps).
Definition receiving_consumer : Consumer string := snd (state_of receiving_steps).

Lemma frames_are_admitted_witness :
  (fst (cursors receiving_provider) <= core_received (core receiving_consumer))%N /\
  (snd (cursors receiving_provider) <= core_consumed (core receiving_consumer))%N /\
  pump (pump_message text_decode sample_pins receiving_consumer (message (data 1 (JString "one"))))
    = PumpLoop /\
  core_received (core (pump_message text_decode sample_pins receiving_consumer
    (message (data 1 (JString "one"))))) = (core_received (core receiving_consumer) + 1)%N.
Proof.
  apply (frames_are_admitted text_decode sample_pins sample_session 1000 0 _ _
           (message (data 1 (JString "one"))) sample_session (JString "one") (Some "one")
           (state_session receiving_steps)).
  - vm_compute. reflexivity.
  - apply (bool_decide_unpack _). vm_compute. exact I.
  - vm_compute. reflexivity.
  - vm_compute. reflexivity.
  - vm_compute. reflexivity.
Defined.

(** The provider's part of a run. *)
Definition provider_events (steps : list Step) : list Event :=
  omap (fun s => match s with P ev => Some ev | C _ => None end) steps.

Definition provider_of (steps : list Step) : Engine :=
  default (new_engine sample_session 1000 0)
    (run (new_engine sample_session 1000 0) (provider_events steps)).

Lemma source_starts_once_witness :
  driver (provider_of complete_steps) = DrvReturned /\ answered (provider_of complete_steps).
Proof.
  split; [vm_compute; reflexivity|].
  apply (source_starts_once sample_session 1000 0 (provider_events complete_steps));
    [vm_compute; reflexivity|]. left. vm_compute. discriminate.
Defined.

Lemma published_frames_exact_witness :
  List.length (wire (provider_of complete_steps)) = 5%nat /\
  Forall (fun raw => exists f, to_vec (frame_json f) = Ok raw /\ frame_session f = sample_session /\
    match f with
    | FrameData _ seq v => exists i, seq = N.of_nat (S i) /\ produced (provider_of complete_steps) !! i = Some v
    | FrameChallenge _ _ n => (n <= highest_sent (flow (record (provider_of complete_steps))))%N
    | FrameEnd _ n t =>
        n = highest_sent (flow (record (provider_of complete_steps))) /\
        (terminal_reason t = EndComplete ->
         n = N.of_nat (List.length (produced (provider_of complete_steps))))
    end) (wire (provider_of complete_steps)).
Proof.
  split; [vm_compute; reflexivity|].
  apply (published_frames_exact sample_session 1000 0 (provider_events complete_steps)).
  vm_compute. reflexivity.
Defined.

(** A source that gives more than the window takes. *)
Definition wide_bodies : list Json :=
  (sample_bodies ++ ((fun n => frame_json (data (N.of_nat (S n)) JNull)) <$> seq 0 65))%list.

Definition wide_events : list Event :=
  (provider_events (opening ++ pulsing)
   ++ List.concat (replicate 64 (provider_events (emit JNull (millis 60))))
   ++ [EvSourcePoll; EvSourceItem (SourceValue JNull); EvAttempt; EvLane (millis 70)])%list.

Definition wide_provider : Engine :=
  default (new_engine sample_session 1000 0)
    (run (JsonCodec0 := table_codec wide_bodies)
       (new_engine sample_session 1000 0) wide_events).

Lemma waiting_driver_is_woken_witness :
  driver wide_provider = DrvWait JNull /\
  no_room (JsonCodec0 := table_codec wide_bodies) (record wide_provider) JNull.
Proof.
  split; [vm_compute; reflexivity|].
  destruct (waiting_driver_is_woken (JsonCodec0 := table_codec wide_bodies)
              sample_session 1000 0 wide_events wide_provider JNull) as [[Hk _]|Hn];
    [vm_compute; reflexivity..| |exact Hn].
  vm_compute in Hk. discriminate Hk.
Defined.

(** ** A wake-up that is lost

    [poll_next] registers its waker after it looked for an outcome, and looks again only
    while the phase is active or draining: an outcome committed in between, which sets the
    phase to closed and finds no waker, is never reported to a task that waits. *)
Definition lost_wakeup_steps : list Step :=
  (receiving_steps ++ receive (data 1 (JString "one"))
   ++ [C (CPoll None); C (CPoll None); C (CMessage None None); C CRegister])%list.

Definition peer_lost : LiveEnd := consumer_failure CodePeerLost "live delivery subscription ended".

Theorem wakeup_lost :
  exists p c, session text_decode sample_pins sample_session 1000 0 p c /\
    app c = AppParked /\ woken (core c) = false /\ core_end (core c) = Some peer_lost /\
    error_reported (core c) = false /\
    forall ev, app_event ev = false -> con_exec text_decode sample_pins c ev = None.
Proof.
  exists (fst (state_of lost_wakeup_steps)), (snd (state_of lost_wakeup_steps)).
  split; [apply state_session|]. do 4 (split; [vm_compute; reflexivity|]).
  assert (pump (snd (state_of lost_wakeup_steps)) = PumpReturned) as Hp by (vm_compute; reflexivity).
  intros ev Hev. unfold con_exec. rewrite Hev. unfold pump_step. rewrite Hp. by destruct ev.
Qed.

(** The same happens to values queued before the consumer learns that it is active: the
    acknowledgement of the first pulse is lost, a value is queued, the next pulse is
    acknowledged, and nothing wakes the task that waits. *)
Definition late_active_steps : list Step :=
  (opening ++ pulsing ++ [C (CAck None (millis 50)); C CLoop]
   ++ emit (JString "one") (millis 60) ++ receive (data 1 (JString "one"))
   ++ [C (CPoll None); C CRegister; P (EvTimer (millis 10030) (Some nonce_b));
       P (EvTimerPublish HandedOff); C (CMessage (Some (message (challenge_frame nonce_b 1))) None);
       C (CSend true); P (EvControl (pulse 3 nonce_b 1 0) (millis 10040) None);
       C (CAck (Some active_ack) (millis 10050)); C CLoop])%list.

Theorem queued_value_not_announced :
  exists p c, session text_decode sample_pins sample_session 1000 0 p c /\
    app c = AppParked /\ woken (core c) = false /\ readable c = true /\
    queue (core c) <> [] /\ pump c = PumpSelect.
Proof.
  exists (fst (state_of late_active_steps)), (snd (state_of late_active_steps)).
  split; [apply state_session|]. do 3 (split; [vm_compute; reflexivity|]).
  split; [vm_compute; discriminate|]. vm_compute. reflexivity.
Qed.

Lemma app_keeps_clock `{Base64Url, Sha256, Ed25519, !CanonicalJson, !JsonCodec Json} {T} pins
    (c c' : Consumer T) ev :
  app_step pins c ev = Some c' -> pump_deadlines c' = pump_deadlines c.
Proof.
  assert (forall (c : Consumer T) l seq sent, pump_deadlines (send_control c l seq sent) = pump_deadlines c)
    as Hsend.
  { intros c0 l seq sent. unfold send_control. destruct (control_body_bytes l); [by destruct sent|done]. }
  assert (forall lost, pump_deadlines (app_poll c lost) = pump_deadlines c) as Hpoll.
  { intros lost. unfold app_poll. set (c0 := c <| core := _ |>).
    destruct (poll_next_polls (fun _ => Err "") 0 c0 lost) as [Hr _].
    destruct (poll_next c0 lost) as [polled c1]. injection Hr as _ Hd _ _ _ _ _. by destruct polled. }
  unfold app_step. destruct (app c), ev; try done; intros Hc; apply (inj Some) in Hc as <-;
    try apply Hpoll; try done; try exact (Hsend _ _ _ _);
    unfold app_close, app_drop, app_closed, close_exchange; repeat case_match; done.
Qed.

(** ** The clock of a draining queue

    A draining pump waits for [end_notify], which only an outcome notifies, so that what the
    application takes from the queue does not move the stall deadline. *)
Theorem draining_clock_stands `{Base64Url, Sha256, Ed25519, !CanonicalJson, !JsonCodec Json} {T}
    (decode : Json -> result (option T) string) pins c ev c' :
  pump c = PumpLoop \/ pump c = PumpDrain ->
  con_exec decode pins c ev = Some c' -> core_end (core c') = None ->
  pump_deadlines c' = pump_deadlines c.
Proof.
  intros Hp. unfold con_exec. destruct (app_event ev).
  { intros He _. by eapply app_keeps_clock. }
  unfold pump_step. destruct Hp as [-> | ->]; destruct ev; try done.
  - intros [= <-] _. unfold pump_loop. destruct (core_end _); [done|]. destruct (bool_decide _); [|done].
    by destruct (drain_complete _).
  - destruct (cancellable _ && _); [by intros [= <-]|done].
  - destruct (elapsed _ _); [|done]. intros [= <-] _. unfold drain_deadline. by destruct (bool_decide _).
  - destruct (core_end (core c)) as [e|] eqn:He; [|done]. intros Hc. apply (inj Some) in Hc as <-.
    intros Hend. exfalso. unfold drain_notified, drain_complete, core_commit_end in Hend. cbv zeta in Hend.
    set (c1 := if (_ <? _)%N then _ else c) in Hend.
    assert (core c1 = core c) as Hk by (subst c1; by destruct (_ <? _)%N). rewrite Hk in Hend.
    clearbody c1. destruct (has_queued _); [cbn in Hend; congruence|].
    destruct (pending_end _); cbn in Hend; rewrite ?He in Hend; cbn in Hend; congruence.
Qed.

Definition slow_drain_steps : list Step :=
  (opening ++ pulsing ++ pulsed ++ emit (JString "one") (millis 60) ++ emit (JString "two") (millis 70)
   ++ finish_source (millis 90) ++ receive (data 1 (JString "one")) ++ receive (data 2 (JString "two"))
   ++ [C (CMessage (Some (message (end_frame 2))) None); C (CSend true); C (CAck None (millis 1000));
       C CLoop; C (CPoll None); C (CDrainDeadline (millis 36000)); C CCommit])%list.

Lemma slow_drain_run :
  outcome_of (begin slow_drain_steps) =
  Some (["one"], Some (consumer_failure CodeConsumerSlow "live draining queue was not consumed"),
        true, [JString "one"; JString "two"]).
Proof. vm_compute. reflexivity. Qed.

(** The queue is dropped before the failure is committed: a poll in between finds it empty
    and reports a complete stream, though a value was dropped. *)
Definition dropped_drain_steps : list Step :=
  (take (List.length slow_drain_steps - 1) slow_drain_steps ++ [C (CPoll None); C CCommit])%list.

Theorem dropped_value_reported_complete :
  outcome_of (begin dropped_drain_steps) =
  Some (["one"], Some complete_end, true, [JString "one"; JString "two"]).
Proof. vm_compute. reflexivity. Qed.

(** ** Controls out of step

    A consumer numbers every pulse anew, and a provider takes a control only if its number
    follows the last it took.  A pulse that is lost, and one that answers a challenge
    published twice, leave a gap no later control closes. *)
Definition lost_pulse_steps : list Step :=
  (opening
   ++ [C (CMessage (Some (message (challenge_frame nonce_a 0))) None); C (CSend true);
       P (EvTimer (millis 2010) None); P (EvTimerPublish HandedOff);
       C (CAck None (millis 5000)); C CLoop;
       C (CMessage (Some (message (challenge_frame nonce_a 0))) None); C (CSend true);
       P (EvControl (pulse 3 nonce_a 0 0) (millis 5010) None); P (EvReply 0 HandedOff)])%list.

Definition repeated_challenge_steps : list Step :=
  (opening ++ [P (EvTimer (millis 2010) None); P (EvTimerPublish HandedOff)] ++ pulsing ++ pulsed
   ++ [C (CMessage (Some (message (challenge_frame nonce_a 0))) None); C (CSend true);
       P (EvControl (pulse 3 nonce_a 0 0) (millis 2100) None); P (EvReply 0 HandedOff);
       C (CAck None (millis 2200)); C CLoop;
       P (EvTimer (millis 12000) (Some nonce_b)); P (EvTimerPublish HandedOff);
       C (CMessage (Some (message (challenge_frame nonce_b 0))) None); C (CSend true);
       P (EvControl (pulse 4 nonce_b 0 0) (millis 12100) None); P (EvReply 0 HandedOff)])%list.

Definition refused (steps : list Step) : list (N * LiveErrorCode) :=
  omap (fun '(l, a) => match a with Ok _ => None | Err code => Some (live_control_seq l, code) end)
    (replies (fst (state_of steps))).

Theorem controls_out_of_step :
  refused lost_pulse_steps = [(3%N, CodeControlGap)] /\
  refused repeated_challenge_steps = [(3%N, CodeInvalidChallenge); (4%N, CodeControlGap)].
Proof. split; vm_compute; reflexivity. Qed.

(** A control past the next number is refused and changes nothing. *)
Lemma gap_refused `{Base64Url, Sha256, !CanonicalJson} r c now nonce cached hash :
  control_receipt r = Some cached -> logical_control_hash c = Ok hash ->
  (cached_seq cached + 1 < live_control_seq c)%N ->
  handle_control r c now nonce = (Err CodeControlGap, r).
Proof.
  intros Hr Hh Hlt. unfold handle_control, classify_control. rewrite Hh, Hr.
  rewrite (proj2 (N.eqb_neq _ _)), (proj2 (N.ltb_ge _ _)), (proj2 (N.eqb_neq _ _)) by lia. done.
Qed.

(** ** A session whose acknowledgement cannot be signed

    The pulse that activates a session marks its source as started, and an acknowledgement
    that cannot be signed neither starts the source nor ends the session. *)
Definition unsigned_ack_steps : list Step :=
  (opening
   ++ [C (CMessage (Some (message (challenge_frame nonce_a 0))) None); C (CSend true);
       P (EvControl (pulse 2 nonce_a 0 0) (millis 30) None); P (EvReply 0 (Unsigned ManagerGone));
       C (CAck None (millis 3000)); C CLoop;
       P (EvTimer (millis 10030) (Some nonce_b)); P (EvTimerPublish HandedOff);
       C (CMessage (Some (message (challenge_frame nonce_b 0))) None); C (CSend true);
       P (EvControl (pulse 3 nonce_b 0 0) (millis 10040) None); P (EvReply 0 HandedOff);
       C (CAck (Some active_ack) (millis 10050)); C CLoop])%list.

Theorem unsigned_ack_strands_source :
  exists p c, session text_decode sample_pins sample_session 1000 0 p c /\
    core_phase (core c) = ConActive /\ phase (record p) = PhActive /\
    driver p = DrvAbsent /\ source_started (record p) = true /\ dispatches p = [] /\
    terminal (record p) = None.
Proof.
  exists (fst (state_of unsigned_ack_steps)), (snd (state_of unsigned_ack_steps)).
  split; [apply state_session|]. split_and!; vm_compute; reflexivity.
Qed.

(** ** A session whose transport was lost

    [suspend] cancels the sessions of a lost transport.  Their timers and drivers return,
    and nothing is left that would run their cleanup: unless a control still arrives, or
    the manager shuts down, they are never finished. *)
Record stranded (e : Engine) : Prop := {
  str_finished : finished (record e) = false;
  str_timer : timer e = TimReturned;
  str_driver : driver e = DrvAbsent \/ driver e = DrvReturned;
  str_closer : closer e = ClsAbsent;
  str_dispatches : dispatches e = [];
}.

Theorem suspended_sessions_linger `{Base64Url, Sha256, !CanonicalJson, !JsonCodec Json} e ev e' :
  stranded e -> exec e ev = Some e' ->
  match ev with EvControl _ _ _ | EvShutdownFinish _ _ => True | _ => stranded e' end.
Proof.
  intros Hs He. pose proof Hs as [Hf Ht Hd Hc Hl].
  destruct ev; try done; cbn [exec] in He; try (destruct (lane_free e); [|done]);
    try (unfold drive_source in He; destruct Hd as [Hd|Hd]; by rewrite Hd in He);
    unfold dispatch_reply, dispatch_challenge, start_check, start_source_once, timer_publish in He;
    rewrite ?Ht, ?Hc, ?Hl in He; try done.
  - injection He as <-. by split.
  - injection He as <-. by split.
Qed.

Definition suspended_steps : list Step :=
  (opening ++ pulsing ++ [P EvSourcePoll; P EvSuspend; P EvTimerCancelled;
                          P (EvSourceCancelled (millis 60))])%list.

Lemma suspended_sessions_linger_witness :
  stranded (fst (state_of suspended_steps)) /\
  match exec (fst (state_of suspended_steps)) (EvShutdown (millis 70)) with
  | Some e' => stranded e'
  | None => False
  end.
Proof.
  assert (stranded (fst (state_of suspended_steps))) as Hs.
  { split; try (vm_compute; reflexivity). right. vm_compute. reflexivity. }
  split; [exact Hs|].
  exact (suspended_sessions_linger _ (EvShutdown (millis 70)) _ Hs eq_refl).
Defined.

(** ** A terminal the consumer does not accept

    The message of a source's failure goes into its terminal with the characters it has,
    and a terminal whose message has a NUL is refused. *)
Lemma nul_message_refused :
  is_ok (validate_wire_terminal (terminal_from_end (source_failure_end (String nul "")))) = false.
Proof. vm_compute. reflexivity. Qed.
