(* ===== verification/Leases.v ===== *)
(** * Runtime leases

    [LeaseManager] of [crates/runtime/src/leases/mod.rs], the lease settings of
    [crates/runtime/src/config/mod.rs], and the renewal schedule of
    [crates/runtime/src/ownership.rs].

    An operation of the manager is a program that awaits calls of the key-value store: a
    tree whose inner nodes are the calls and whose branches are their answers.  What the
    other clients and the store do between a call and its answer is up to the system the
    program runs in.  Durations are nanoseconds. *)

From Stdlib Require Import Ascii String.
From S2P Require Import Prelude RustStr Kv LiveDeadlines.

Local Open Scope string_scope.

(** ** Programs *)

Inductive Call :=
| KvCreate (key value : string)
| KvUpdate (key value : string) (revision : N)
| KvDelete (key : string) (revision : N)
| KvEntry (key : string).

Definition answered_with (c : Call) : Type :=
  match c with
  | KvCreate _ _ | KvUpdate _ _ _ => N
  | KvDelete _ _ => unit
  | KvEntry _ => option Entry
  end.

Definition answer (c : Call) : Type := result (answered_with c) KvError.

Global Instance Call_eq_dec : EqDecision Call.
Proof. solve_decision. Defined.

Inductive Prog (A : Type) : Type :=
| Ret (a : A)
| Await (c : Call) (k : answer c -> Prog A).
Arguments Ret {A} a.
Arguments Await {A} c k.

Notation "'await' x ':=' c 'in' k" := (Await c (fun x => k))
  (at level 10, x name, c at level 150, k at level 200,
   format "'[v' 'await'  x  ':='  c  'in' '/' k ']'") : trellis_scope.

(** ** The manager *)

Record LeaseKey := mkLeaseKey { lease_key : string }.

(** A fence is the revision of the key at its acquisition. *)
Record LeaseFence := mkLeaseFence { acquisition_revision : N }.

Record LeaseGuard := mkLeaseGuard {
  guard_key : LeaseKey;
  fence : LeaseFence;
  current_revision : N;
}.

Inductive LeaseError :=
| InfrastructureMismatch (bucket field expected actual : string)
| Held (key : LeaseKey)
| NotHeld (key : LeaseKey)
| Stale (key : LeaseKey)
| Backend (key : option LeaseKey) (operation message : string).

(** [store] is whether the bucket was opened. *)
Record LeaseManager := mkLeaseManager {
  bucket : string;
  owner_id : string;
  ttl : N;
  renew_every : N;
  store : bool;
  replicas : N;
}.

Global Instance LeaseGuard_settable : Settable LeaseGuard :=
  fun g => mkLeaseGuard (guard_key g) (fence g) (current_revision g).
Global Instance LeaseManager_settable : Settable LeaseManager :=
  fun m => mkLeaseManager (bucket m) (owner_id m) (ttl m) (renew_every m) (store m) (replicas m).

Definition not_open : LeaseError := Backend None "open" "lease KV bucket is not open".

Definition acquire (m : LeaseManager) (key : LeaseKey) : Prog (result LeaseGuard LeaseError) :=
  if store m then
    await r := KvCreate (lease_key key) (owner_id m) in
    Ret match r with
        | Ok revision => Ok (mkLeaseGuard key (mkLeaseFence revision) revision)
        | Err error =>
            if bool_decide (kv_kind error = AlreadyExists) then Err (Held key)
            else Err (Backend (Some key) "acquire" (kv_message error))
        end
  else Ret (Err not_open).

Definition classify_revision_error (key : LeaseKey) (operation : string) (error : KvError) :
    Prog LeaseError :=
  if negb (bool_decide (kv_kind error = WrongLastRevision)) then
    Ret (Backend (Some key) operation (kv_message error))
  else
    await r := KvEntry (lease_key key) in
    Ret match r with
        | Ok (Some entry) =>
            if bool_decide (entry_operation entry = Put) then Stale key else NotHeld key
        | Ok None => NotHeld key
        | Err inspect_error =>
            Backend (Some key) operation
              ("revision mismatch (" +:+ kv_message error +:+
               "); failed to inspect current lease entry: " +:+ kv_message inspect_error)
        end.

Fixpoint prog_map {A B} (f : A -> B) (p : Prog A) : Prog B :=
  match p with
  | Ret a => Ret (f a)
  | Await c k => Await c (fun r => prog_map f (k r))
  end.

(** What [renew] makes of the entry it finds after an update that may have been applied. *)
Definition inspect_renewal (m : LeaseManager) (guard : LeaseGuard) (update_error : string)
    (r : result (option Entry) KvError) : LeaseGuard * result unit LeaseError :=
  let key := guard_key guard in
  match r with
  | Ok (Some entry) =>
      let put := bool_decide (entry_operation entry = Put) in
      let own := put && String.eqb (entry_value entry) (owner_id m) in
      if own && (current_revision guard <? entry_revision entry)%N then
        (guard <| current_revision := entry_revision entry |>, Ok tt)
      else if own then
        (guard, Err (Backend (Some key) "renew"
                       ("ambiguous update (" +:+ update_error +:+
                        ") did not advance the lease revision")))
      else if negb put then (guard, Err (NotHeld key))
      else (guard, Err (Stale key))
  | Ok None => (guard, Err (NotHeld key))
  | Err inspect_error =>
      (guard, Err (Backend (Some key) "renew"
                     ("ambiguous update (" +:+ update_error +:+
                      "); failed to inspect current lease entry: " +:+
                      kv_message inspect_error)))
  end.

(** [renew] from the failure of its update on. *)
Definition renew_failed (m : LeaseManager) (guard : LeaseGuard) (error : KvError) :
    Prog (LeaseGuard * result unit LeaseError) :=
  match kv_kind error with
  | TimedOut | WrongLastRevision =>
      await r := KvEntry (lease_key (guard_key guard)) in
      Ret (inspect_renewal m guard (kv_message error) r)
  | _ =>
      prog_map (fun e => (guard, Err e)) (classify_revision_error (guard_key guard) "renew" error)
  end.

(** [renew], with the guard it leaves. *)
Definition renew (m : LeaseManager) (guard : LeaseGuard) :
    Prog (LeaseGuard * result unit LeaseError) :=
  if store m then
    await r := KvUpdate (lease_key (guard_key guard)) (owner_id m) (current_revision guard) in
    match r with
    | Ok revision => Ret (guard <| current_revision := revision |>, Ok tt)
    | Err error => renew_failed m guard error
    end
  else Ret (guard, Err not_open).

Definition release (m : LeaseManager) (guard : LeaseGuard) : Prog (result unit LeaseError) :=
  if store m then
    await r := KvDelete (lease_key (guard_key guard)) (current_revision guard) in
    match r with
    | Ok _ => Ret (Ok tt)
    | Err error => prog_map Err (classify_revision_error (guard_key guard) "release" error)
    end
  else Ret (Err not_open).

(** ** Settings *)

Record LeasesConfig := mkLeasesConfig {
  cfg_bucket : option string;
  cfg_replicas : option N;
  cfg_ttl_ms : option N;
  cfg_renew_ms : option N;
}.

Record ResolvedLeasesConfig := mkResolvedLeasesConfig {
  res_bucket : string;
  res_replicas : N;
  res_ttl_ms : N;
  res_renew_ms : N;
}.

(** [ConfigError::InvalidLeasesConfig] by its field and reason. *)
Record LeasesConfigError := mkLeasesConfigError { cfg_field : string; cfg_reason : string }.

Definition checked_mul_u64 (a b : N) : option N :=
  if (a * b <=? u64_max)%N then Some (a * b)%N else None.

(** [LeasesConfig::resolve] *)
Definition resolve (c : LeasesConfig) : result ResolvedLeasesConfig LeasesConfigError :=
  let ttl_ms := default 30000%N (cfg_ttl_ms c) in
  let renew_ms := default 5000%N (cfg_renew_ms c) in
  let? _ := reject_if (ttl_ms =? 0)%N
              (mkLeasesConfigError "ttl_ms" "must be greater than zero") in
  let? _ := reject_if ((renew_ms =? 0)%N
                       || match checked_mul_u64 renew_ms 3 with
                          | Some interval => (ttl_ms <? interval)%N
                          | None => true
                          end)
              (mkLeasesConfigError "renew_ms"
                 "must be greater than zero and at most one third of ttl_ms") in
  let? replicas := ok_or (cfg_replicas c)
                     (mkLeasesConfigError "replicas" "must be configured explicitly") in
  Ok (mkResolvedLeasesConfig (default "trellis_runtime_leases" (cfg_bucket c)) replicas
        ttl_ms renew_ms).

(** ** Opening the bucket *)

(** [LeaseManager::new] *)
Definition new_manager (config : ResolvedLeasesConfig) (owner : string) : LeaseManager := {|
  bucket := res_bucket config;
  owner_id := owner;
  ttl := millis (res_ttl_ms config);
  renew_every := millis (res_renew_ms config);
  store := false;
  replicas := res_replicas config;
|}.

Record BucketConfig := mkBucketConfig {
  kv_bucket : string;
  kv_history : N;
  kv_max_age : N;
  kv_num_replicas : N;
}.

Definition lease_bucket_config (name : string) (max_age num_replicas : N) : BucketConfig :=
  mkBucketConfig name 1 max_age num_replicas.

(** An error of a chain of sources: whether it is a [CreateStreamError] or a
    [jetstream::Error] with the code [STREAM_NAME_EXIST]. *)
Inductive SourceError :=
| SourceCreateStream (name_exists : bool)
| SourceJetStream (name_exists : bool)
| SourceOther.

Record CreateKeyValueError := mkCreateKeyValueError {
  is_bucket_create : bool;
  sources : list SourceError;
  create_message : string;
}.

Fixpoint has_stream_exists_error (chain : list SourceError) : bool :=
  match chain with
  | [] => false
  | SourceCreateStream true :: _ => true
  | SourceJetStream true :: _ => true
  | _ :: chain => has_stream_exists_error chain
  end.

Definition is_bucket_create_race (error : CreateKeyValueError) : bool :=
  is_bucket_create error && has_stream_exists_error (sources error).

(** [get], [create] and [retry] are the answers of the calls in the order they are made. *)
Definition open_or_create_store (get : result unit string)
    (create : result unit CreateKeyValueError) (retry : result unit string) :
    result unit LeaseError :=
  match get with
  | Ok _ => Ok tt
  | Err open_error =>
      match create with
      | Ok _ => Ok tt
      | Err create_error =>
          if is_bucket_create_race create_error then
            map_err (fun retry_error =>
              Backend None "open"
                ("failed to open lease KV bucket after concurrent create: " +:+ retry_error))
              retry
          else
            Err (Backend None "open"
                   ("failed to open lease KV bucket (" +:+ open_error +:+
                    ") or create it (" +:+ create_message create_error +:+ ")"))
      end
  end.

Record BucketStatus := mkBucketStatus { status_max_age : N; status_num_replicas : N }.

Definition as_millis (d : N) : N := (d / 1000000)%N.

Definition validate_store_config (name : string) (max_age num_replicas : N)
    (status : result BucketStatus string) : result unit LeaseError :=
  let? status := map_err (Backend None "inspect bucket") status in
  let? _ := reject_if (negb (status_max_age status =? max_age)%N)
              (InfrastructureMismatch name "max_age"
                 (decimal (as_millis max_age) +:+ "ms")
                 (decimal (as_millis (status_max_age status)) +:+ "ms")) in
  reject_if (negb (num_replicas =? 0)%N
             && negb (status_num_replicas status =? num_replicas)%N)
    (InfrastructureMismatch name "replicas" (decimal num_replicas)
       (decimal (status_num_replicas status))).

(** [LeaseManager::open] *)
Definition open (config : ResolvedLeasesConfig) (owner : string) (get : result unit string)
    (create : result unit CreateKeyValueError) (retry : result unit string)
    (status : result BucketStatus string) : result LeaseManager LeaseError :=
  let m := new_manager config owner in
  let? _ := open_or_create_store get create retry in
  let? _ := validate_store_config (bucket m) (ttl m) (replicas m) status in
  Ok (m <| store := true |>).

(** ** The renewal schedule

    [hash] is what [DefaultHasher] makes of the owner's identity. *)
Section schedule.
Context (hash : string -> N).

Definition renewal_jitter (owner : string) (renew ttl : N) : N :=
  let margin := (ttl - renew - millis 1)%N in
  let bound := (as_millis (N.min (renew / 5) margin) mod u64_modulus)%N in
  if (bound =? 0)%N then 0 else millis (hash owner mod (bound + 1)).

Definition renewal_timeout (owner : string) (renew ttl : N) : N :=
  (ttl - (renew + renewal_jitter owner renew ttl))%N.

Definition first_renewal_deadline (verification_started : N) (owner : string) (renew ttl : N) : N :=
  (verification_started + (renew + renewal_jitter owner renew ttl))%N.

(** ** What the settings give *)

Lemma renewal_jitter_bound owner renew ttl :
  (renewal_jitter owner renew ttl <= ttl - renew - millis 1)%N /\
  (renewal_jitter owner renew ttl <= renew / 5)%N.
Proof.
  unfold renewal_jitter. set (x := N.min (renew / 5) (ttl - renew - millis 1)).
  assert (x <= ttl - renew - millis 1 /\ x <= renew / 5)%N by lia.
  assert (millis (as_millis x) <= x)%N.
  { unfold millis, as_millis. pose proof (N.Div0.mul_div_le x 1000000). lia. }
  pose proof (N.Div0.mod_le (as_millis x) u64_modulus) as Hm.
  revert Hm. generalize (as_millis x mod u64_modulus)%N as bound. intros bound Hm.
  destruct (N.eqb_spec bound 0) as [|Hb]; [lia|].
  assert (bound + 1 <> 0)%N as Hn by lia. pose proof (N.mod_lt (hash owner) _ Hn).
  unfold millis in *. nia.
Qed.

(** A round that starts when the schedule says so and times out does so as the lease ends. *)
Lemma round_ends_with_lease owner renew ttl :
  (renew + millis 1 <= ttl)%N ->
  (renew + renewal_jitter owner renew ttl + renewal_timeout owner renew ttl = ttl)%N /\
  (millis 1 <= renewal_timeout owner renew ttl)%N.
Proof.
  intros Ht. pose proof (renewal_jitter_bound owner renew ttl) as [Hj _].
  unfold renewal_timeout. revert Hj Ht. generalize (renewal_jitter owner renew ttl) (millis 1).
  lia.
Qed.

Lemma resolve_ok c r :
  resolve c = Ok r -> (0 < res_renew_ms r /\ res_renew_ms r * 3 <= res_ttl_ms r)%N.
Proof.
  unfold resolve. intros H. peel H as Ht. peel H as Hr. peel H as reps Hreps. injection H as <-.
  cbn. apply orb_false_iff in Hr as [Hz%N.eqb_neq Hm]. unfold checked_mul_u64 in Hm.
  destruct (_ <=? u64_max)%N; [|done]. apply N.ltb_ge in Hm. lia.
Qed.

(** The settings of an opened manager fit the bucket it opened. *)
Lemma open_ok config owner get create retry status m :
  open config owner get create retry status = Ok m ->
  m = new_manager config owner <| store := true |> /\
  exists st, status = Ok st /\ status_max_age st = ttl m.
Proof.
  unfold open. intros H. peel H as Ho. peel H as Hv. injection H as <-. split; [done|].
  unfold validate_store_config in Hv. peel Hv as st Hst. peel Hv as Ha.
  exists st. split; [done|]. by apply negb_false_iff, N.eqb_eq in Ha.
Qed.
End schedule.
