(* ===== verification/Ownership.v ===== *)
(** * Runtime ownership

    The lifecycle of a runtime process: it acquires the lease of every owner group of its
    mode, verifies and renews them, starts the subsystems, supervises them, and stops them
    before it releases the leases.  From [crates/runtime/src/ownership.rs] and the
    supervision of [crates/runtime/src/supervisor.rs].

    A step is what a task does from one [await] to the next, and carries what it was woken
    with.  The subsystems, the HTTP server, the start-up around them and the built-in
    providers are known by how their futures end.  Tasks of leases do not panic, and
    instants do not reach the end of their range.  [renewed] and [overran] are not in the
    code: when the last successful round of renewal started, and whether a round lasted
    longer than the schedule reckons with. *)

From Stdlib Require Import Ascii String.
From S2P Require Import Prelude RustStr Kv LiveDeadlines Leases.

Local Open Scope string_scope.

(** ** Modes, groups and subsystems *)

Inductive RuntimeMode := ModeAll | ModePlatform | ModeJobs | ModeHealth | ModeEvents.

Inductive SubsystemName := SubPlatform | SubJobs | SubHealth | SubEvents.

Inductive OwnerGroup := OwnPlatform | OwnJobs | OwnHealth | OwnEvents.

Global Instance SubsystemName_eq_dec : EqDecision SubsystemName.
Proof. solve_decision. Defined.
Global Instance OwnerGroup_eq_dec : EqDecision OwnerGroup.
Proof. solve_decision. Defined.

Definition subsystems (mode : RuntimeMode) : list SubsystemName :=
  match mode with
  | ModeAll => [SubPlatform; SubJobs; SubHealth; SubEvents]
  | ModePlatform => [SubPlatform]
  | ModeJobs => [SubJobs]
  | ModeHealth => [SubHealth]
  | ModeEvents => [SubEvents]
  end.

Definition for_mode (mode : RuntimeMode) : list OwnerGroup :=
  match mode with
  | ModeAll => [OwnPlatform; OwnJobs; OwnHealth; OwnEvents]
  | ModePlatform => [OwnPlatform]
  | ModeJobs => [OwnJobs]
  | ModeHealth => [OwnHealth]
  | ModeEvents => [OwnEvents]
  end.

Definition owner_key (group : OwnerGroup) : string :=
  match group with
  | OwnPlatform => "platform.owner"
  | OwnJobs => "jobs.owner"
  | OwnHealth => "health.owner"
  | OwnEvents => "events.owner"
  end.

Definition subsystem (group : OwnerGroup) : SubsystemName :=
  match group with
  | OwnPlatform => SubPlatform
  | OwnJobs => SubJobs
  | OwnHealth => SubHealth
  | OwnEvents => SubEvents
  end.

(** The group whose context a subsystem's [start] asks for. *)
Definition needed_owner (name : SubsystemName) : OwnerGroup :=
  match name with
  | SubPlatform => OwnPlatform
  | SubJobs => OwnJobs
  | SubHealth => OwnHealth
  | SubEvents => OwnEvents
  end.

(** ** Errors *)

(** [RuntimeError]; [OtherError] are the errors of what is around the lifecycle. *)
Inductive RuntimeError :=
| LeaseBucketOpen (owner : string) (source : LeaseError)
| OwnerHeld (name : SubsystemName) (key : LeaseKey) (owner : string) (source : LeaseError)
| OwnerAcquire (name : SubsystemName) (key : LeaseKey) (owner : string) (source : LeaseError)
| OwnerRenewal (name : SubsystemName) (key : LeaseKey) (owner : string) (source : LeaseError)
| OwnerRenewalRoundTimeout (owner : string)
| OwnerRenewalTaskExited (owner : string)
| OwnerRenewalShutdownTimeout (owner : string)
| OwnerRelease (name : SubsystemName) (key : LeaseKey) (owner : string) (source : LeaseError)
| OwnerContextMissing (name : SubsystemName)
| SubsystemTask (name : SubsystemName)
| SubsystemExited (name : SubsystemName)
| SubsystemShutdownTimeout (name : SubsystemName)
| HttpShutdownTimeout
| NatsFlush (message : string)
| NatsFlushTimeout
| OtherError (message : string).

Definition Outcome : Type := result unit RuntimeError.

Definition map_acquisition_error (g : OwnerGroup) (key : LeaseKey) (owner : string)
    (source : LeaseError) : RuntimeError :=
  match source with
  | Held _ => OwnerHeld (subsystem g) key owner source
  | _ => OwnerAcquire (subsystem g) key owner source
  end.

Definition map_renewal_error (g : OwnerGroup) (key : LeaseKey) (owner : string)
    (source : LeaseError) : RuntimeError := OwnerRenewal (subsystem g) key owner source.

(** [record_error]: the first error is kept, and the others are logged. *)
Definition record_error (first : option RuntimeError) (error : RuntimeError) :
    option RuntimeError :=
  match first with Some e => Some e | None => Some error end.

Definition first_error (first : option RuntimeError) : Outcome :=
  match first with Some e => Err e | None => Ok tt end.

Definition preserve_run_primary (primary shutdown : Outcome) : Outcome :=
  match primary with Err e => Err e | Ok _ => shutdown end.

Definition preserve_primary (run release flush : Outcome) : Outcome :=
  match run, release, flush with
  | Err e, _, _ => Err e
  | Ok _, Err e, _ => Err e
  | Ok _, Ok _, flush => flush
  end.

(** ** The state of a process *)

(** [Verifying] is a renewal [verify_held] runs, the stages from [Sleeping] on are those of
    [run_owned_lease].  [call] is the call a program awaits. *)
Inductive Stage :=
| Acquired
| Verifying (p : Prog (LeaseGuard * result unit LeaseError)) (call : N)
| Verified
| Sleeping (next_renewal : N)
| Renewing (next_renewal started deadline : N)
    (p : Prog (LeaseGuard * result unit LeaseError)) (call : N)
| Releasing (renewal : Outcome) (deadline : N) (p : Prog (result unit LeaseError)) (call : N)
| Finished (outcome : Outcome).

Record Lease := mkLease {
  group : OwnerGroup;
  guard : LeaseGuard;
  stage : Stage;
  renewed : N;
  overran : bool;
}.

Inductive JoinResult :=
| Joined (outcome : Outcome)
| Cancelled
| Panicked.

(** A [SubsystemHandle] and its task. *)
Record Subsystem := mkSubsystem {
  sub_name : SubsystemName;
  sub_stop : bool;
  sub_abort : bool;
  sub_end : option JoinResult;
}.

(** The join of the subsystems, together with the shutdown of the HTTP server: the handle
    that is next, whether it was aborted for not stopping in time, and the errors. *)
Record Join := mkJoin {
  join_abort : bool;
  join_deadline : N;
  join_index : nat;
  join_timed_out : bool;
  join_http : option Outcome;
  join_first : option RuntimeError;
  join_primary : Outcome;
}.

Inductive Phase :=
| Opening
| Acquiring (g : OwnerGroup) (todo : list OwnerGroup)
    (p : Prog (result LeaseGuard LeaseError)) (call : N)
| VerifyingAll (started deadline : N)
| CleaningUp (primary : RuntimeError) (lease : Lease)
| Preparing
| Starting (todo : list SubsystemName)
| Binding
| Bootstrapping
| Supervising
| Joining (join : Join)
| ClosingProviders (outcome : Outcome)
| ShuttingDown (outcome : Outcome) (deadline : N) (first : option RuntimeError)
| Flushing (outcome release : Outcome)
| Stopped (outcome : Outcome).

Record Runtime := mkRuntime {
  settings : ResolvedLeasesConfig;
  identity : string;
  mode : RuntimeMode;
  manager : LeaseManager;
  phase : Phase;
  owners : list (OwnerGroup * LeaseFence);
  leases : list Lease;
  stop : bool;
  handles : list Subsystem;
}.

Global Instance Lease_settable : Settable Lease :=
  fun l => mkLease (group l) (guard l) (stage l) (renewed l) (overran l).
Global Instance Subsystem_settable : Settable Subsystem :=
  fun s => mkSubsystem (sub_name s) (sub_stop s) (sub_abort s) (sub_end s).
Global Instance Join_settable : Settable Join :=
  fun j => mkJoin (join_abort j) (join_deadline j) (join_index j) (join_timed_out j)
             (join_http j) (join_first j) (join_primary j).
Global Instance Runtime_settable : Settable Runtime :=
  fun r => mkRuntime (settings r) (identity r) (mode r) (manager r) (phase r) (owners r)
             (leases r) (stop r) (handles r).

Definition new_runtime (config : ResolvedLeasesConfig) (owner : string) (m : RuntimeMode) :
    Runtime := {|
  settings := config; identity := owner; mode := m; manager := new_manager config owner;
  phase := Opening; owners := []; leases := []; stop := false; handles := [] |}.

Definition OWNERSHIP_SHUTDOWN_TIMEOUT : N := millis 5000.
Definition SUBSYSTEM_SHUTDOWN_TIMEOUT : N := millis 10000.

(** ** The steps *)

Section steps.
Context (hash : string -> N).

Definition jitter (m : LeaseManager) : N := renewal_jitter hash (owner_id m) (renew_every m) (ttl m).
Definition round_timeout (m : LeaseManager) : N :=
  renewal_timeout hash (owner_id m) (renew_every m) (ttl m).

(** A round that started at [started] and ends at [now] lasted so long that the next one
    starts later than the schedule reckons with. *)
Definition late_round (m : LeaseManager) (started now : N) : bool :=
  (started + (renew_every m + jitter m) <? now)%N.

(** *** A lease *)

(** [release_one] after the release, and the end of [run_owned_lease]. *)
Definition released (m : LeaseManager) (l : Lease) (renewal : Outcome)
    (r : result unit LeaseError) : Lease :=
  l <| stage := Finished
         match renewal with
         | Err primary => Err primary
         | Ok _ => map_err (OwnerRelease (subsystem (group l)) (guard_key (guard l)) (owner_id m)) r
         end |>.

Definition release_turn (m : LeaseManager) (l : Lease) (renewal : Outcome) (deadline : N)
    (p : Prog (result unit LeaseError)) (call : N) : Lease * option Call :=
  match p with
  | Ret r => (released m l renewal r, None)
  | Await c _ => (l <| stage := Releasing renewal deadline p call |>, Some c)
  end.

(** [release_one] *)
Definition release_one (m : LeaseManager) (l : Lease) (renewal : Outcome) (now call : N) :
    Lease * option Call :=
  release_turn m l renewal (now + OWNERSHIP_SHUTDOWN_TIMEOUT) (release m (guard l)) call.

Definition release_timeout (m : LeaseManager) (l : Lease) (renewal : Outcome) : Lease :=
  released m l renewal
    (Err (Backend (Some (guard_key (guard l))) "release" "operation exceeded shutdown bound")).

(** The loop of [run_owned_lease] around one renewal. *)
Definition renewal_turn (m : LeaseManager) (l : Lease) (next started deadline : N)
    (p : Prog (LeaseGuard * result unit LeaseError)) (now call : N) : Lease * option Call :=
  match p with
  | Await c _ => (l <| stage := Renewing next started deadline p call |>, Some c)
  | Ret (g, Ok _) =>
      (l <| guard := g |> <| renewed := started |>
         <| overran := overran l || late_round m started now |>
         <| stage := Sleeping (next + renew_every m) |>, None)
  | Ret (g, Err source) =>
      release_one m (l <| guard := g |>)
        (Err (map_renewal_error (group l) (guard_key (guard l)) (owner_id m) source)) now call
  end.

Definition lease_wakes (m : LeaseManager) (l : Lease) (now call : N) : option (Lease * option Call) :=
  match stage l with
  | Sleeping next =>
      if (next <=? now)%N then
        Some (renewal_turn m l next now (now + round_timeout m) (renew m (guard l)) now call)
      else None
  | _ => None
  end.

Definition lease_stops (m : LeaseManager) (l : Lease) (stop : bool) (now call : N) :
    option (Lease * option Call) :=
  match stage l with
  | Sleeping _ => if stop then Some (release_one m l (Ok tt) now call) else None
  | _ => None
  end.

Definition lease_elapses (m : LeaseManager) (l : Lease) (now call : N) :
    option (Lease * option Call) :=
  match stage l with
  | Renewing _ _ deadline _ _ =>
      if (deadline <=? now)%N then
        Some (release_one m l (Err (OwnerRenewalRoundTimeout (owner_id m))) now call)
      else None
  | Releasing renewal deadline _ _ =>
      if (deadline <=? now)%N then Some (release_timeout m l renewal, None) else None
  | _ => None
  end.

(** A program goes on with the answer of the call it awaits. *)
Definition resume {A} (p : Prog A) (a : forall c, option (answer c)) : option (Prog A) :=
  match p with
  | Ret _ => None
  | Await c k => k <$> a c
  end.

Definition lease_answered (m : LeaseManager) (l : Lease) (a : forall c, option (answer c))
    (now call : N) : option (Lease * option Call) :=
  match stage l with
  | Renewing next started deadline p _ =>
      (fun p => renewal_turn m l next started deadline p now call) <$> resume p a
  | Releasing renewal deadline p _ =>
      (fun p => release_turn m l renewal deadline p call) <$> resume p a
  | _ => None
  end.

(** *** Acquisition *)

(** [release_held] takes the leases from the last one on; its errors are logged. *)
Definition clean_up (r : Runtime) (primary : RuntimeError) (now call : N) :
    Runtime * option Call :=
  match last (leases r) with
  | None => (r <| phase := Stopped (Err primary) |>, None)
  | Some l =>
      let '(l, sent) := release_one (manager r) l (Ok tt) now call in
      (r <| leases := removelast (leases r) |> <| phase := CleaningUp primary l |>, sent)
  end.

Definition hold (r : Runtime) (g : OwnerGroup) (gd : LeaseGuard) : Runtime :=
  r <| owners := (owners r ++ [(g, fence gd)])%list |>
    <| leases := (leases r ++ [mkLease g gd Acquired 0 false])%list |>.

(** [run_owned_lease] is spawned for a lease. *)
Definition spawn (m : LeaseManager) (started now : N) (l : Lease) : Lease :=
  l <| stage := Sleeping (first_renewal_deadline hash started (owner_id m) (renew_every m) (ttl m)) |>
    <| renewed := started |> <| overran := late_round m started now |>.

(** The lease tasks are spawned once every renewal of [verify_held] has succeeded. *)
Definition spawn_when_verified (r : Runtime) (started now : N) : Runtime :=
  if forallb (fun l => match stage l with Verified => true | _ => false end) (leases r) then
    r <| leases := spawn (manager r) started now <$> leases r |> <| phase := Preparing |>
  else r <| phase := VerifyingAll started (started + round_timeout (manager r)) |>.

Definition group_key (g : OwnerGroup) : LeaseKey := mkLeaseKey (owner_key g).

(** The loop of [RuntimeOwnership::acquire] over the groups. *)
Fixpoint acquire_groups (r : Runtime) (todo : list OwnerGroup) (now call : N) :
    Runtime * option Call :=
  match todo with
  | [] => (spawn_when_verified r now now, None)
  | g :: todo =>
      match acquire (manager r) (group_key g) with
      | Await c k => (r <| phase := Acquiring g todo (Await c k) call |>, Some c)
      | Ret (Ok gd) => acquire_groups (hold r g gd) todo now call
      | Ret (Err source) =>
          clean_up r (map_acquisition_error g (group_key g) (identity r) source) now call
      end
  end.

Definition acquire_turn (r : Runtime) (g : OwnerGroup) (todo : list OwnerGroup)
    (p : Prog (result LeaseGuard LeaseError)) (now call : N) : Runtime * option Call :=
  match p with
  | Await c _ => (r <| phase := Acquiring g todo p call |>, Some c)
  | Ret (Ok gd) => acquire_groups (hold r g gd) todo now call
  | Ret (Err source) =>
      clean_up r (map_acquisition_error g (group_key g) (identity r) source) now call
  end.

(** [verify_held] around one renewal: the first failure ends it and drops the others. *)
Definition verify_turn (r : Runtime) (i : nat) (l : Lease) (started deadline : N)
    (p : Prog (LeaseGuard * result unit LeaseError)) (now call : N) : Runtime * option Call :=
  match p with
  | Await c _ => (r <| leases := <[i := l <| stage := Verifying p call |>]> (leases r) |>, Some c)
  | Ret (g, Ok _) =>
      (spawn_when_verified
         (r <| leases := <[i := l <| guard := g |> <| stage := Verified |>]> (leases r) |>)
         started now, None)
  | Ret (g, Err source) =>
      clean_up (r <| leases := <[i := l <| guard := g |>]> (leases r) |>)
        (map_renewal_error (group l) (guard_key (guard l)) (identity r) source) now call
  end.

(** *** Supervision *)

Definition stop_all (hs : list Subsystem) : list Subsystem :=
  (fun h => h <| sub_stop := true |>) <$> hs.
Definition abort_all (hs : list Subsystem) : list Subsystem :=
  (fun h => h <| sub_abort := true |>) <$> hs.

(** [stop_subsystems], on the paths that return [primary]. *)
Definition stop_subsystems (r : Runtime) (hs : list Subsystem) (primary : RuntimeError) (now : N) :
    Runtime :=
  r <| handles := stop_all hs |>
    <| phase := Joining (mkJoin false (now + SUBSYSTEM_SHUTDOWN_TIMEOUT) 0 false
                           (Some (Ok tt)) None (Err primary)) |>.

(** [finish_shutdown]; [lost] is the stop cause [OwnershipLost]. *)
Definition finish_shutdown (r : Runtime) (lost server_finished : bool) (primary : Outcome)
    (now : N) : Runtime :=
  let hs := stop_all (handles r) in
  r <| handles := if lost then abort_all hs else hs |>
    <| phase := Joining (mkJoin lost (now + SUBSYSTEM_SHUTDOWN_TIMEOUT) 0 false
                           (if server_finished then Some (Ok tt) else None) None primary) |>.

(** [RuntimeContext::owner] *)
Definition context_owner (r : Runtime) (g : OwnerGroup) : Outcome :=
  if existsb (fun o => bool_decide (fst o = g)) (owners r) then Ok tt
  else Err (OwnerContextMissing (subsystem g)).

(** [start_subsystems], around the start of one of them. *)
Definition subsystem_started (r : Runtime) (name : SubsystemName) (todo : list SubsystemName)
    (started : Outcome) (now : N) : Runtime :=
  match (let? _ := context_owner r (needed_owner name) in started) with
  | Ok _ =>
      r <| handles := (handles r ++ [mkSubsystem name false false None])%list |>
        <| phase := match todo with [] => Binding | _ => Starting todo end |>
  | Err primary => stop_subsystems r (rev (handles r)) primary now
  end.

Definition is_finished (l : Lease) : bool :=
  match stage l with Finished _ => true | _ => false end.

(** [wait_for_renewal_failure] with the task that was joined. *)
Definition renewal_failure (r : Runtime) (joined : option Outcome) : RuntimeError :=
  match joined with
  | Some (Err error) => error
  | Some (Ok _) | None => OwnerRenewalTaskExited (owner_id (manager r))
  end.

Definition swap_remove {A} (i : nat) (l : list A) : list A :=
  match last l with
  | Some x => take (List.length l - 1) (<[i := x]> l)
  | None => l
  end.

(** How a subsystem that ended on its own is reported. *)
Definition subsystem_failure (name : SubsystemName) (e : JoinResult) : RuntimeError :=
  match e with
  | Joined (Ok _) => SubsystemExited name
  | Joined (Err error) => error
  | Cancelled | Panicked => SubsystemTask name
  end.

(** What joining a handle records, in [join_subsystems] and in [abort_subsystems]. *)
Definition join_error (abort : bool) (name : SubsystemName) (e : JoinResult) :
    option RuntimeError :=
  match e with
  | Joined (Ok _) => None
  | Joined (Err error) => Some error
  | Cancelled => if abort then None else Some (SubsystemTask name)
  | Panicked => Some (SubsystemTask name)
  end.

Definition join_next (j : Join) (h : Subsystem) (e : JoinResult) : Join :=
  let error := if join_timed_out j then Some (SubsystemShutdownTimeout (sub_name h))
               else join_error (join_abort j) (sub_name h) e in
  j <| join_index := S (join_index j) |> <| join_timed_out := false |>
    <| join_first := match error with
                     | Some error => record_error (join_first j) error
                     | None => join_first j
                     end |>.

(** What [finish_shutdown] returns, the error of the server first. *)
Definition join_outcome (http : Outcome) (j : Join) : Outcome :=
  preserve_run_primary (join_primary j)
    (match http with Err e => Err e | Ok _ => first_error (join_first j) end).

(** *** Shutdown *)

(** [RuntimeOwnership::shutdown] *)
Definition shut_down (r : Runtime) (outcome : Outcome) (now : N) : Runtime :=
  r <| stop := true |>
    <| phase := match leases r with
                | [] => Flushing outcome (Ok tt)
                | _ => ShuttingDown outcome (now + OWNERSHIP_SHUTDOWN_TIMEOUT) None
                end |>.

Definition lease_joined (r : Runtime) (i : nat) (outcome joined : Outcome) (deadline : N)
    (first : option RuntimeError) : Runtime :=
  let rest := delete i (leases r) in
  let first := match joined with Ok _ => first | Err e => record_error first e end in
  r <| leases := rest |>
    <| phase := match rest with
                | [] => Flushing outcome (first_error first)
                | _ => ShuttingDown outcome deadline first
                end |>.

Definition shutdown_elapsed (r : Runtime) (outcome : Outcome) (first : option RuntimeError) :
    Runtime :=
  r <| leases := [] |>
    <| phase := Flushing outcome (first_error (record_error first
                  (OwnerRenewalShutdownTimeout (owner_id (manager r))))) |>.

(** *** Events *)

(** The task that awaits the answer of a call. *)
Inductive Target :=
| ForAcquire
| ForLease (i : nat)
| ForCleanUp.

Inductive RunEvent :=
| EvOpen (get : result unit string) (create : result unit CreateKeyValueError)
    (retry : result unit string) (status : result BucketStatus string)
| EvVerify (i : nat)
| EvVerifyTimeout
| EvCleanUpTimeout
| EvCleanUpNext
| EvPrepared (outcome : Outcome)
| EvStarted (outcome : Outcome)
| EvBound (outcome : Outcome)
| EvBootstrapped (outcome : Outcome)
| EvSignal
| EvHttpFinished (outcome : Outcome)
| EvRenewalFailed (i : nat)
| EvNoLeases
| EvSubsystemFailed (i : nat)
| EvSubsystemEnds (i : nat) (e : JoinResult)
| EvHttpClosed (outcome : Outcome)
| EvJoin
| EvJoinTimeout
| EvJoinedAll
| EvProvidersClosed (outcome : Outcome)
| EvLeaseJoined (i : nat)
| EvShutdownTimeout
| EvFlushed (outcome : Outcome)
| EvLeaseWakes (i : nat)
| EvLeaseStops (i : nat)
| EvLeaseElapses (i : nat).

Definition quiet (r : option Runtime) : option (Runtime * option Call) :=
  (fun r => (r, None)) <$> r.

Definition set_lease (r : Runtime) (i : nat) (next : option (Lease * option Call)) :
    option (Runtime * option Call) :=
  (fun '(l, sent) => (r <| leases := <[i := l]> (leases r) |>, sent)) <$> next.

(** [EvSubsystemEnds]: a task ends by itself, or as it is aborted. *)
Definition subsystem_ends (r : Runtime) (i : nat) (e : JoinResult) : option Runtime :=
  match handles r !! i with
  | Some h =>
      match sub_end h, e with
      | None, Cancelled =>
          if sub_abort h then Some (r <| handles := <[i := h <| sub_end := Some e |>]> (handles r) |>)
          else None
      | None, _ => Some (r <| handles := <[i := h <| sub_end := Some e |>]> (handles r) |>)
      | Some _, _ => None
      end
  | None => None
  end.

Definition opened (r : Runtime) (get : result unit string)
    (create : result unit CreateKeyValueError) (retry : result unit string)
    (status : result BucketStatus string) (now call : N) : Runtime * option Call :=
  match open (settings r) (identity r) get create retry status with
  | Err source => (r <| phase := Stopped (Err (LeaseBucketOpen (identity r) source)) |>, None)
  | Ok m => acquire_groups (r <| manager := m |>) (for_mode (mode r)) now call
  end.

(** Supervision waits for the first of several events; that of a lease task comes first. *)
Definition supervised (r : Runtime) (ev : RunEvent) (now : N) : option Runtime :=
  match ev with
  | EvRenewalFailed i =>
      match stage <$> leases r !! i with
      | Some (Finished outcome) =>
          Some (finish_shutdown (r <| leases := delete i (leases r) |>) true false
                  (Err (renewal_failure r (Some outcome))) now)
      | _ => None
      end
  | EvNoLeases =>
      match leases r with
      | [] => Some (finish_shutdown r true false (Err (renewal_failure r None)) now)
      | _ => None
      end
  | _ =>
      if existsb is_finished (leases r) || bool_decide (leases r = []) then None else
      match ev with
      | EvSignal => Some (finish_shutdown r false false (Ok tt) now)
      | EvHttpFinished outcome => Some (finish_shutdown r false true outcome now)
      | EvSubsystemFailed i =>
          match handles r !! i with
          | Some h =>
              match sub_end h with
              | Some e =>
                  Some (finish_shutdown (r <| handles := swap_remove i (handles r) |>) false false
                          (Err (subsystem_failure (sub_name h) e)) now)
              | None => None
              end
          | None => None
          end
      | _ => None
      end
  end.

Definition joining (r : Runtime) (j : Join) (ev : RunEvent) (now : N) : option Runtime :=
  match ev with
  | EvHttpClosed outcome =>
      match join_http j with
      | None => Some (r <| phase := Joining (j <| join_http := Some outcome |>) |>)
      | Some _ => None
      end
  | EvJoin =>
      match handles r !! join_index j with
      | Some h => (fun e => r <| phase := Joining (join_next j h e) |>) <$> sub_end h
      | None => None
      end
  | EvJoinTimeout =>
      match handles r !! join_index j with
      | Some h =>
          if (join_deadline j <=? now)%N && negb (join_abort j) && negb (join_timed_out j)
             && bool_decide (sub_end h = None)
          then Some (r <| handles := <[join_index j := h <| sub_abort := true |>]> (handles r) |>
                       <| phase := Joining (j <| join_timed_out := true |>) |>)
          else None
      | None => None
      end
  | EvJoinedAll =>
      match handles r !! join_index j, join_http j with
      | None, Some http => Some (r <| phase := ClosingProviders (join_outcome http j) |>)
      | _, _ => None
      end
  | _ => None
  end.

(** What the main task of the process does. *)
Definition main_event (r : Runtime) (ev : RunEvent) (now call : N) :
    option (Runtime * option Call) :=
  match phase r, ev with
  | Opening, EvOpen get create retry status => Some (opened r get create retry status now call)
  | VerifyingAll started deadline, EvVerify i =>
      match leases r !! i with
      | Some l =>
          match stage l with
          | Acquired =>
              Some (verify_turn r i l started deadline (renew (manager r) (guard l)) now call)
          | _ => None
          end
      | None => None
      end
  | VerifyingAll _ deadline, EvVerifyTimeout =>
      if (deadline <=? now)%N then
        Some (clean_up r (OwnerRenewalRoundTimeout (identity r)) now call)
      else None
  | CleaningUp primary l, EvCleanUpTimeout =>
      (fun '(l, sent) => (r <| phase := CleaningUp primary l |>, sent))
        <$> lease_elapses (manager r) l now call
  | CleaningUp primary l, EvCleanUpNext =>
      if is_finished l then Some (clean_up r primary now call) else None
  | Preparing, EvPrepared (Ok _) => quiet (Some (r <| phase := Starting (subsystems (mode r)) |>))
  | Preparing, EvPrepared (Err e) => quiet (Some (shut_down r (Err e) now))
  | Starting (name :: todo), EvStarted outcome =>
      quiet (Some (subsystem_started r name todo outcome now))
  | Binding, EvBound (Ok _) => quiet (Some (r <| phase := Bootstrapping |>))
  | Binding, EvBound (Err e) => quiet (Some (stop_subsystems r (handles r) e now))
  | Bootstrapping, EvBootstrapped (Ok _) => quiet (Some (r <| phase := Supervising |>))
  | Bootstrapping, EvBootstrapped (Err e) => quiet (Some (stop_subsystems r (handles r) e now))
  | Bootstrapping, EvSignal => quiet (Some (finish_shutdown r false false (Ok tt) now))
  | Supervising, _ => quiet (supervised r ev now)
  | Joining j, _ => quiet (joining r j ev now)
  | ClosingProviders outcome, EvProvidersClosed closed =>
      quiet (Some (shut_down r (preserve_run_primary outcome closed) now))
  | ShuttingDown outcome deadline first, EvLeaseJoined i =>
      match stage <$> leases r !! i with
      | Some (Finished joined) => quiet (Some (lease_joined r i outcome joined deadline first))
      | _ => None
      end
  | ShuttingDown outcome deadline first, EvShutdownTimeout =>
      if (deadline <=? now)%N then quiet (Some (shutdown_elapsed r outcome first)) else None
  | Flushing outcome release, EvFlushed flush =>
      quiet (Some (r <| phase := Stopped (preserve_primary outcome release flush) |>))
  | _, _ => None
  end.

Definition run_event (r : Runtime) (ev : RunEvent) (now call : N) :
    option (Runtime * option Call) :=
  match ev with
  | EvLeaseWakes i => l ← leases r !! i; set_lease r i (lease_wakes (manager r) l now call)
  | EvLeaseStops i => l ← leases r !! i; set_lease r i (lease_stops (manager r) l (stop r) now call)
  | EvLeaseElapses i => l ← leases r !! i; set_lease r i (lease_elapses (manager r) l now call)
  | EvSubsystemEnds i e => quiet (subsystem_ends r i e)
  | _ => main_event r ev now call
  end.

(** The call a task awaits. *)
Definition awaited_call (l : Lease) : option N :=
  match stage l with
  | Verifying _ n | Renewing _ _ _ _ n | Releasing _ _ _ n => Some n
  | _ => None
  end.

Definition awaited (r : Runtime) (target : Target) : option N :=
  match target, phase r with
  | ForAcquire, Acquiring _ _ _ n => Some n
  | ForLease i, _ => leases r !! i ≫= awaited_call
  | ForCleanUp, CleaningUp _ l => awaited_call l
  | _, _ => None
  end.

Definition run_answer (r : Runtime) (target : Target) (a : forall c, option (answer c))
    (now call : N) : option (Runtime * option Call) :=
  match target, phase r with
  | ForAcquire, Acquiring g todo p _ =>
      (fun p => acquire_turn r g todo p now call) <$> resume p a
  | ForLease i, phase =>
      l ← leases r !! i;
      match phase, stage l with
      | VerifyingAll started deadline, Verifying p _ =>
          (fun p => verify_turn r i l started deadline p now call) <$> resume p a
      | _, _ => set_lease r i (lease_answered (manager r) l a now call)
      end
  | ForCleanUp, CleaningUp primary l =>
      (fun '(l, sent) => (r <| phase := CleaningUp primary l |>, sent))
        <$> lease_answered (manager r) l a now call
  | _, _ => None
  end.
End steps.
