(* ===== verification/LeaseSystem.v ===== *)
(** * Runtimes that share a lease bucket

    Any number of runtime processes ([Ownership]) over one key-value bucket.  A call is on
    its way from the moment it is made; the store serves it at some later moment, or never,
    and the task that made it goes on with the store's reply or with an error of its own
    client, whichever comes first.  So a write may take effect after its caller has given up
    on it, and a reply may come long after its write took effect. *)

From Stdlib Require Import Ascii String.
From S2P Require Import Prelude RustStr Kv LiveDeadlines Leases Ownership.

Local Open Scope string_scope.

(** ** The store *)

Record Message := mkMessage {
  msg_key : string;
  msg_value : string;
  msg_op : Operation;
  msg_revision : N;
  msg_time : N;
}.

Definition entry_of (m : Message) : Entry := mkEntry (msg_value m) (msg_revision m) (msg_op m).

(** [store_log] is every message the bucket was ever given and [store_at] the last message
    of a key, while it is retained. *)
Class LeaseStore := {
  Store : Type;
  store_log : Store -> list Message;
  store_at : Store -> string -> option Message;
  store_serve : N -> forall c : Call, Store -> answer c * Store;
  store_expire : N -> string -> Store -> Store;
}.

Section store.
Context `{LeaseStore}.

Definition holds (m : option Message) : Prop :=
  match m with Some m => msg_op m = Put | None => False end.

Definition expected (revision : N) (m : option Message) : Prop :=
  match m with Some m => msg_revision m = revision | None => revision = 0%N end.

Definition unchanged (b b' : Store) : Prop :=
  store_log b' = store_log b /\ forall key, store_at b' key = store_at b key.

Definition written (b b' : Store) (m : Message) : Prop :=
  store_log b' = (store_log b ++ [m])%list /\
  store_at b' (msg_key m) = Some m /\
  (forall m', m' ∈ store_log b -> (msg_revision m' < msg_revision m)%N) /\
  forall key, key <> msg_key m -> store_at b' key = store_at b key.

(** What serving a call at [now] does.  A read may be answered by a replica that is behind. *)
Definition served (now : N) (b b' : Store) (c : Call) : answer c -> Prop :=
  match c with
  | KvCreate key value => fun a =>
      match a with
      | Ok revision =>
          ~ holds (store_at b key) /\ written b b' (mkMessage key value Put revision now)
      | Err _ => unchanged b b'
      end
  | KvUpdate key value revision => fun a =>
      match a with
      | Ok revision' =>
          expected revision (store_at b key) /\ written b b' (mkMessage key value Put revision' now)
      | Err _ => unchanged b b'
      end
  | KvDelete key revision => fun a =>
      match a with
      | Ok _ =>
          expected revision (store_at b key) /\
          exists revision', written b b' (mkMessage key "" Delete revision' now)
      | Err _ => unchanged b b'
      end
  | KvEntry key => fun a =>
      unchanged b b' /\
      match a with
      | Ok (Some e) => exists m, m ∈ store_log b /\ msg_key m = key /\ entry_of m = e
      | _ => True
      end
  end.
End store.

(** The laws.  Revisions are sequence numbers, and a message is retained for [max_age] at
    least, unless its key is written again. *)
Class LeaseStoreLaws `{LeaseStore} (max_age : N) : Prop := {
  log_revision_inj b m m' :
    m ∈ store_log b -> m' ∈ store_log b -> msg_revision m = msg_revision m' -> m = m';
  log_revision_pos b m : m ∈ store_log b -> (0 < msg_revision m)%N;
  store_at_last b key m :
    store_at b key = Some m ->
    m ∈ store_log b /\ msg_key m = key /\
    forall m', m' ∈ store_log b -> msg_key m' = key -> (msg_revision m' <= msg_revision m)%N;
  store_serve_spec now c b :
    served now b (snd (store_serve now c b)) c (fst (store_serve now c b));
  store_expire_log now key b : store_log (store_expire now key b) = store_log b;
  store_expire_at now key b k m :
    store_at b k = Some m -> (now < msg_time m + max_age)%N ->
    store_at (store_expire now key b) k = Some m;
}.

(** ** The system *)

(** A call on its way: who made it, when, and the reply once the store has served it. *)
Record Flight := mkFlight {
  from : nat;
  called : Call;
  sent : N;
  reply : option (answer called);
}.

Section system.
Context (hash : string -> N) (max_age : N) `{LeaseStore}.

(** [punctual] is whether no timer of a lease task has ever been late. *)
Record Sys := mkSys {
  clock : N;
  bucket_state : Store;
  runtimes : list Runtime;
  flights : list Flight;
  punctual : bool;
}.

#[global] Instance Sys_settable : Settable Sys :=
  fun s => mkSys (clock s) (bucket_state s) (runtimes s) (flights s) (punctual s).

Inductive SysEvent :=
| Tick (t : N)
| Serve (n : nat)
| Expire (key : string)
| Run (i : nat) (ev : RunEvent)
| Answered (i : nat) (target : Target)
| CallFails (i : nat) (target : Target) (error : KvError).

(** When the timer a lease task waits for is due. *)
Definition due (l : Lease) : option N :=
  match stage l with
  | Sleeping next => Some next
  | Renewing _ _ deadline _ _ => Some deadline
  | _ => None
  end.

Definition in_time (t : N) (r : Runtime) : bool :=
  forallb (fun l => match due l with Some d => (t <=? d)%N | None => true end) (leases r).

(** The status of the bucket is reported as it is. *)
Definition honest (ev : RunEvent) : bool :=
  match ev with
  | EvOpen _ _ _ (Ok st) => (status_max_age st =? max_age)%N
  | _ => true
  end.

Definition with_reply (f : Flight) (a : answer (called f)) : Flight :=
  mkFlight (from f) (called f) (sent f) (Some a).

(** The reply of a flight, to a program that awaits the call [c]. *)
Definition reply_to (f : Flight) (c : Call) : option (answer c) :=
  match decide (called f = c) with
  | left e => match e in _ = c return option (answer c) with eq_refl => reply f end
  | right _ => None
  end.

Definition moves (s : Sys) (i : nat) (next : option (Runtime * option Call)) : option Sys :=
  (fun '(r, call) =>
     s <| runtimes := <[i := r]> (runtimes s) |>
       <| flights := (flights s ++ match call with
                                   | Some c => [mkFlight i c (clock s) None]
                                   | None => []
                                   end)%list |>) <$> next.

Definition next_call (s : Sys) : N := N.of_nat (List.length (flights s)).

Definition exec_sys (s : Sys) (ev : SysEvent) : option Sys :=
  match ev with
  | Tick t =>
      if (clock s <? t)%N then
        Some (s <| clock := t |> <| punctual := punctual s && forallb (in_time t) (runtimes s) |>)
      else None
  | Serve n =>
      f ← flights s !! n;
      match reply f with
      | Some _ => None
      | None =>
          if (sent f <? clock s)%N then
            let '(a, b) := store_serve (clock s) (called f) (bucket_state s) in
            Some (s <| bucket_state := b |> <| flights := <[n := with_reply f a]> (flights s) |>)
          else None
      end
  | Expire key => Some (s <| bucket_state := store_expire (clock s) key (bucket_state s) |>)
  | Run i ev =>
      r ← runtimes s !! i;
      if honest ev then moves s i (run_event hash r ev (clock s) (next_call s)) else None
  | Answered i target =>
      r ← runtimes s !! i;
      n ← awaited r target;
      f ← flights s !! N.to_nat n;
      moves s i (run_answer hash r target (reply_to f) (clock s) (next_call s))
  | CallFails i target error =>
      r ← runtimes s !! i;
      match kv_kind error with
      | TimedOut | OtherKind =>
          moves s i (run_answer hash r target (fun c => Some (Err error)) (clock s) (next_call s))
      | _ => None
      end
  end.

Fixpoint run_sys (s : Sys) (evs : list SysEvent) : option Sys :=
  match evs with
  | [] => Some s
  | ev :: evs => s ← exec_sys s ev; run_sys s evs
  end.

(** The runtimes have not started, nothing is on its way, and the identities, which end in
    a fresh ULID, are distinct and were never used. *)
Definition initial (s : Sys) : Prop :=
  flights s = [] /\
  (forall i r, runtimes s !! i = Some r -> r = new_runtime (settings r) (identity r) (mode r)) /\
  (forall i j r r', runtimes s !! i = Some r -> runtimes s !! j = Some r' ->
     identity r = identity r' -> i = j) /\
  (forall i r m, runtimes s !! i = Some r -> m ∈ store_log (bucket_state s) ->
     msg_value m <> identity r) /\
  (forall i r, runtimes s !! i = Some r -> exists c, resolve c = Ok (settings r)).

Definition reachable (s : Sys) : Prop :=
  exists s0 evs, initial s0 /\ run_sys s0 evs = Some s.
End system.
