(* ===== verification/LeaseLanes.v ===== *)
(** * Runtime leases: the writes of a runtime to a key

    What the tasks of a runtime know of a lease key, whatever the other runtimes and the
    store do: which of the runtime's writes may still take effect, which messages of the key
    are its own, and for how long the store keeps them. *)

From Stdlib Require Import Ascii String.
From S2P Require Import Prelude RustStr Kv LiveDeadlines Leases Ownership LeaseSystem.

Local Open Scope string_scope.

(** The part of the system a lane depends on. *)
Record View `{LeaseStore} := mkView {
  now : N;
  vstore : Store;
  vflights : list Flight;
}.
Arguments mkView {_} _ _ _.

(** The key a call writes. *)
Definition call_key (c : Call) : option string :=
  match c with
  | KvCreate k _ | KvUpdate k _ _ | KvDelete k _ => Some k
  | KvEntry _ => None
  end.

Section lanes.
Context `{LeaseStore}.
Implicit Types (i j : nat) (v : View) (b : Store) (o k : string) (m : Message).

(** ** Lanes *)

(** The messages by which [o] held the key [k]. *)
Definition own b o k m : Prop :=
  m ∈ store_log b /\ msg_key m = k /\ msg_value m = o /\ msg_op m = Put.

(** A write of runtime [i] to [k] that may still take effect. *)
Definition pending (fl : list Flight) (i : nat) k (n : nat) : Prop :=
  exists f, fl !! n = Some f /\ from f = i /\ reply f = None /\ call_key (called f) = Some k.

(** No write is under way, and none of [o] is later than [base]. *)
Definition silent v i o k (base : N) : Prop :=
  (forall n, ~ pending (vflights v) i k n) /\
  forall m, own (vstore v) o k m -> (msg_revision m <= base)%N.

(** One write is under way, the call [c] with the number [n] made at [start] or later, or it
    took effect after [start]. *)
Definition round v i o k (base start n : N) (c : Call) : Prop :=
  (forall n', pending (vflights v) i k n' ->
     N.of_nat n' = n /\
     exists f, vflights v !! n' = Some f /\ called f = c /\ (start <= sent f)%N) /\
  (forall m, own (vstore v) o k m -> (base < msg_revision m)%N ->
     (start < msg_time m)%N /\ forall n', ~ pending (vflights v) i k n') /\
  (forall m m', own (vstore v) o k m -> own (vstore v) o k m' ->
     (base < msg_revision m)%N -> (base < msg_revision m')%N -> m = m') /\
  (forall r, c = KvDelete k r ->
     forall m, own (vstore v) o k m -> (msg_revision m <= base)%N).

(** The last message of [o] is in the store until it is as old as [max_age]. *)
Definition secured (max_age : N) v o k : Prop :=
  forall m, own (vstore v) o k m ->
    (forall m', own (vstore v) o k m' -> (msg_revision m' <= msg_revision m)%N) ->
    (now v < msg_time m + max_age)%N -> store_at (vstore v) k = Some m.

(** The key was written after the last message of [o], which will write no more. *)
Definition gone v i o k : Prop :=
  (forall n, ~ pending (vflights v) i k n) /\
  exists m, m ∈ store_log (vstore v) /\ msg_key m = k /\
    forall m', own (vstore v) o k m' -> (msg_revision m' < msg_revision m)%N.

(** The messages of [o] are those of one holding: from [first] on, with none between. *)
Definition one_holding v i o k (first : N) : Prop :=
  (exists m, own (vstore v) o k m /\ msg_revision m = first) /\
  (forall m, own (vstore v) o k m -> (first <= msg_revision m)%N) /\
  (forall m m', m ∈ store_log (vstore v) -> msg_key m = k -> own (vstore v) o k m' ->
     (first <= msg_revision m <= msg_revision m')%N -> own (vstore v) o k m) /\
  forall n f, vflights v !! n = Some f -> from f = i -> reply f = None ->
    forall value, called f <> KvCreate k value.

(** ** Calls *)

(** The writes of [o] are conditional on its own messages. *)
Definition call_ok b o (c : Call) : Prop :=
  match c with
  | KvCreate k value => value = o
  | KvUpdate k value revision => value = o /\ exists m, own b o k m /\ msg_revision m = revision
  | KvDelete k revision => exists m, own b o k m /\ msg_revision m = revision
  | KvEntry _ => True
  end.

Definition answer_ok b (c : Call) : answer c -> Prop :=
  match c with
  | KvCreate k value => fun a => forall revision, a = Ok revision ->
      exists m, own b value k m /\ msg_revision m = revision
  | KvUpdate k value base => fun a => forall revision, a = Ok revision ->
      exists m, own b value k m /\ msg_revision m = revision /\ (base < revision)%N
  | KvDelete k base => fun a => a = Ok tt ->
      exists m, m ∈ store_log b /\ msg_key m = k /\ msg_op m = Delete /\ (base < msg_revision m)%N
  | KvEntry k => fun a => forall e, a = Ok (Some e) ->
      exists m, m ∈ store_log b /\ msg_key m = k /\ entry_of m = e
  end.

Definition flight_ok v o (f : Flight) : Prop :=
  (sent f <= now v)%N /\ call_ok (vstore v) o (called f) /\
  forall a, reply f = Some a -> answer_ok (vstore v) (called f) a.

Definition grows b b' : Prop := forall m, m ∈ store_log b -> m ∈ store_log b'.

Lemma own_grows b b' o k m : grows b b' -> own b o k m -> own b' o k m.
Proof. intros Hg (? & ? & ? & ?). repeat split; auto. Qed.

Lemma call_ok_grows b b' o c : grows b b' -> call_ok b o c -> call_ok b' o c.
Proof. intros Hg. destruct c; cbn; naive_solver eauto using own_grows. Qed.

Lemma answer_ok_grows b b' c a : grows b b' -> answer_ok b c a -> answer_ok b' c a.
Proof. intros Hg. destruct c; cbn; intros Ha; naive_solver eauto using own_grows. Qed.

Lemma flight_ok_grows v v' o f :
  (now v <= now v')%N -> grows (vstore v) (vstore v') -> flight_ok v o f -> flight_ok v' o f.
Proof.
  intros Hn Hg (Hs & Hc & Ha). repeat split.
  - lia.
  - by eapply call_ok_grows.
  - intros a Hr. eapply answer_ok_grows; eauto.
Qed.

(** ** Another call is made *)

Definition extend v (i : nat) (call : option Call) : View :=
  mkView (now v) (vstore v)
    (vflights v ++ match call with Some c => [mkFlight i c (now v) None] | None => [] end)%list.

Lemma extend_pending v i call j k n :
  pending (vflights (extend v i call)) j k n ->
  pending (vflights v) j k n \/
  (n = List.length (vflights v) /\ i = j /\ exists c, call = Some c /\ call_key c = Some k).
Proof.
  intros (f & Hf & Hi & Hr & Hk). cbn in Hf.
  apply lookup_app_Some in Hf as [Hf|[Hle Hf]]; [left; by exists f|right].
  destruct call as [c|]; [|done]. apply list_lookup_singleton_Some in Hf as [Hn <-].
  cbn in *. repeat split; [lia|done|]. by exists c.
Qed.

Lemma pending_extend v i call j k n :
  pending (vflights v) j k n -> pending (vflights (extend v i call)) j k n.
Proof. intros (f & Hf & ?). exists f. split; [|done]. cbn. by apply lookup_app_l_Some. Qed.

(** A call that does not write [k] for [j] leaves its lane there as it is. *)
Definition unrelated (call : option Call) (i j : nat) k : Prop :=
  i = j -> forall c, call = Some c -> call_key c <> Some k.

Lemma extend_unrelated v i call j k n :
  unrelated call i j k -> pending (vflights (extend v i call)) j k n -> pending (vflights v) j k n.
Proof.
  intros Hu [?|(-> & -> & c & -> & Hk)]%extend_pending; [done|]. by destruct (Hu eq_refl c eq_refl).
Qed.

Lemma silent_extend v i call j o k base :
  unrelated call i j k -> silent v j o k base -> silent (extend v i call) j o k base.
Proof. intros Hu [Hp Ho]. split; [|done]. intros n Hn%extend_unrelated; [|done]. by apply (Hp n). Qed.

Lemma round_extend v i call j o k base start n c :
  unrelated call i j k -> round v j o k base start n c -> round (extend v i call) j o k base start n c.
Proof.
  intros Hu (Hp & Ho & Hone & Hd). split; [|split; [|done]].
  - intros n' Hn'%extend_unrelated; [|done]. destruct (Hp n' Hn') as [? (f & Hf & ?)].
    split; [done|]. exists f. split; [|done]. cbn. by apply lookup_app_l_Some.
  - intros m Hm Hb. destruct (Ho m Hm Hb) as [? Hn]. split; [done|].
    intros n' Hn'%extend_unrelated; [|done]. by apply (Hn n').
Qed.

Lemma gone_extend v i call j o k :
  unrelated call i j k -> gone v j o k -> gone (extend v i call) j o k.
Proof. intros Hu [Hp Hm]. split; [|done]. intros n Hn%extend_unrelated; [|done]. by apply (Hp n). Qed.

Lemma holding_extend v i call j o k first :
  (i = j -> forall value, call <> Some (KvCreate k value)) ->
  one_holding v j o k first -> one_holding (extend v i call) j o k first.
Proof.
  intros Hu (He & Hf & Hc & Hn). split; [done|]. split; [done|]. split; [done|].
  intros n f Hl Hj Hr value Hcall. cbn in Hl.
  apply lookup_app_Some in Hl as [Hl|[_ Hl]]; [by eapply Hn|].
  destruct call as [c|]; [|done]. apply list_lookup_singleton_Some in Hl as [_ <-].
  cbn in *. subst. by destruct (Hu eq_refl value).
Qed.

(** A lane in which nothing is under way begins a round. *)
Lemma silent_round v i o k base start c :
  silent v i o k base -> (start <= now v)%N ->
  round (extend v i (Some c)) i o k base start (N.of_nat (List.length (vflights v))) c.
Proof.
  intros [Hp Ho] Hs. split; [|split; [|split; [|done]]].
  - intros n [?|(-> & _ & c' & [= <-] & Hk)]%extend_pending; [by destruct (Hp n)|].
    split; [done|]. exists (mkFlight i c (now v) None). split; [|done].
    cbn. by rewrite lookup_app_r, Nat.sub_diag by lia.
  - intros m Hm Hb. apply Ho in Hm. lia.
  - intros m m' Hm _ Hb. apply Ho in Hm. lia.
Qed.
End lanes.

(** ** The store *)

Section environment.
Context `{LeaseStoreLaws}.
Implicit Types (i j : nat) (v : View) (b : Store) (o k : string) (m : Message).

(** Time passes, and messages grow old. *)
Definition later v (t : N) : View := mkView t (vstore v) (vflights v).
Definition expire v (key : string) : View :=
  mkView (now v) (store_expire (now v) key (vstore v)) (vflights v).

Lemma own_expire v key o k m : own (vstore (expire v key)) o k m <-> own (vstore v) o k m.
Proof. unfold own. cbn. by rewrite store_expire_log. Qed.

Lemma secured_later v t o k :
  (now v <= t)%N -> secured max_age v o k -> secured max_age (later v t) o k.
Proof. intros Ht Hs m Hm Hl Hn. cbn in Hn. apply Hs; [done|done|lia]. Qed.

Lemma secured_expire v key o k : secured max_age v o k -> secured max_age (expire v key) o k.
Proof.
  intros Hs m Hm Hl Hn. cbn in Hn. eapply store_expire_at; [|exact Hn]. apply Hs; [| |exact Hn].
  - by apply (own_expire v key).
  - intros m' Hm'. apply Hl. by apply (own_expire v key).
Qed.

(** *** A call is served *)

Definition serve v (n : nat) (f : Flight) : View :=
  let '(a, b) := store_serve (now v) (called f) (vstore v) in
  mkView (now v) b (<[n := with_reply f a]> (vflights v)).

Definition served_flight v (f : Flight) : Flight :=
  with_reply f (fst (store_serve (now v) (called f) (vstore v))).

(** The message a call leaves, if it is accepted. *)
Definition writes_message (c : Call) (m : Message) : Prop :=
  match c with
  | KvCreate k value | KvUpdate k value _ => msg_key m = k /\ msg_value m = value /\ msg_op m = Put
  | KvDelete k _ => msg_key m = k /\ msg_op m = Delete
  | KvEntry _ => False
  end.

Definition accepted b (c : Call) : Prop :=
  match c with
  | KvCreate k _ => ~ holds (store_at b k)
  | KvUpdate k _ revision | KvDelete k revision => expected revision (store_at b k)
  | KvEntry _ => False
  end.

Lemma serve_effect v n f :
  let v' := serve v n f in
  unchanged (vstore v) (vstore v') \/
  exists m, written (vstore v) (vstore v') m /\ msg_time m = now v /\
    writes_message (called f) m /\ accepted (vstore v) (called f).
Proof.
  unfold serve. pose proof (store_serve_spec (now v) (called f) (vstore v)) as Hs.
  destruct (store_serve (now v) (called f) (vstore v)) as [a b]. cbn in *. revert a Hs.
  destruct (called f) as [k value|k value revision|k revision|k]; intros a Hs; cbn in Hs.
  - destruct a as [rev|]; [right|by left]. destruct Hs as [Ha Hw]. by eexists.
  - destruct a as [rev|]; [right|by left]. destruct Hs as [Ha Hw]. by eexists.
  - destruct a as [[]|]; [right|by left]. destruct Hs as [Ha [rev Hw]]. by eexists.
  - left. by destruct Hs.
Qed.

Lemma serve_now v n f : now (serve v n f) = now v.
Proof. unfold serve. by destruct store_serve. Qed.

Lemma serve_grows v n f : grows (vstore v) (vstore (serve v n f)).
Proof.
  intros m Hm. destruct (serve_effect v n f) as [[-> _]|(m' & (-> & _) & _)]; [done|].
  apply elem_of_app. by left.
Qed.

Lemma written_own b b' m o k m' :
  written b b' m -> own b' o k m' -> own b o k m' \/ m' = m.
Proof.
  intros (Hl & _) (Hin & ?). rewrite Hl, elem_of_app, list_elem_of_singleton in Hin.
  destruct Hin; [left|by right]. by split.
Qed.

Lemma written_own_new b b' m o k m' :
  written b b' m -> own b o k m' -> (msg_revision m' < msg_revision m)%N.
Proof. intros (_ & _ & Hl & _) (Hin & _). by apply Hl. Qed.

Lemma written_self b b' m : written b b' m -> m ∈ store_log b'.
Proof. intros (-> & _). apply elem_of_app. right. by apply list_elem_of_singleton. Qed.

Lemma serve_lookup v n f n' :
  vflights v !! n = Some f ->
  (n' <> n /\ vflights (serve v n f) !! n' = vflights v !! n') \/
  (n' = n /\ vflights (serve v n f) !! n' = Some (served_flight v f)).
Proof.
  intros Hf. unfold serve, served_flight. destruct store_serve as [a b]. cbn.
  destruct (decide (n' = n)) as [->|].
  - right. split; [done|]. apply list_lookup_insert_eq. by eapply lookup_lt_Some.
  - left. split; [done|]. by apply list_lookup_insert_ne.
Qed.

Lemma serve_pending v n f j k n' :
  vflights v !! n = Some f -> pending (vflights (serve v n f)) j k n' ->
  n' <> n /\ pending (vflights v) j k n'.
Proof.
  intros Hf (f' & Hf' & Hj & Hr & Hk).
  destruct (serve_lookup v n f n' Hf) as [[? He]|[-> He]].
  - split; [done|]. exists f'. by rewrite <- He.
  - rewrite He in Hf'. injection Hf' as <-. done.
Qed.

(** The runtime [i], which writes as [o], does not see what the others' calls do as its
    own: the call was made by another runtime, or is for another key. *)
Definition foreign i o k o' (f : Flight) : Prop :=
  (from f <> i /\ o' <> o) \/ call_key (called f) <> Some k.

Lemma foreign_message i o k o' f b m :
  foreign i o k o' f -> call_ok b o' (called f) -> writes_message (called f) m ->
  msg_key m = k -> msg_value m = o -> msg_op m = Put -> False.
Proof.
  intros Hfor Hc Hw <- <- Hp. destruct (called f) as [k' value|k' value r|k' r|k'] eqn:Hcall.
  - destruct Hw as (Hk & Hv & _). cbn in Hc. destruct Hfor as [[_ Hne]|Hne]; [congruence|].
    rewrite Hcall in Hne. cbn in Hne. congruence.
  - destruct Hw as (Hk & Hv & _). cbn in Hc. destruct Hc as [Hc _].
    destruct Hfor as [[_ Hne]|Hne]; [congruence|]. rewrite Hcall in Hne. cbn in Hne. congruence.
  - destruct Hw as (_ & Hd). congruence.
  - done.
Qed.

Lemma foreign_own v n f i o k o' m :
  foreign i o k o' f -> flight_ok v o' f ->
  own (vstore (serve v n f)) o k m <-> own (vstore v) o k m.
Proof.
  intros Hfor (_ & Hc & _). split; [|apply own_grows, serve_grows].
  intros Hm. destruct (serve_effect v n f) as [[Hl _]|(m' & Hw & _ & Hm' & _)].
  - unfold own in *. by rewrite Hl in Hm.
  - destruct (written_own _ _ _ _ _ _ Hw Hm) as [?| ->]; [done|]. destruct Hm as (_ & ? & ? & ?).
    by destruct (foreign_message i o k o' f (vstore v) m').
Qed.

Lemma silent_serve v n f i o k o' base :
  vflights v !! n = Some f -> foreign i o k o' f -> flight_ok v o' f ->
  silent v i o k base -> silent (serve v n f) i o k base.
Proof.
  intros Hf Hfor Hok [Hp Ho]. split.
  - intros n' [_ Hn]%serve_pending; [|done]. by apply (Hp n').
  - intros m Hm. apply Ho. by eapply foreign_own.
Qed.

Lemma gone_serve v n f i o k o' :
  vflights v !! n = Some f -> foreign i o k o' f -> flight_ok v o' f ->
  gone v i o k -> gone (serve v n f) i o k.
Proof.
  intros Hf Hfor Hok (Hp & m & Hm & Hk & Hl). split.
  - intros n' [_ Hn]%serve_pending; [|done]. by apply (Hp n').
  - exists m. split; [by apply serve_grows|]. split; [done|]. intros m' Hm'. apply Hl.
    by eapply foreign_own.
Qed.

Lemma round_serve_foreign v n f i o k o' base start n' c :
  vflights v !! n = Some f -> foreign i o k o' f -> flight_ok v o' f ->
  round v i o k base start n' c -> round (serve v n f) i o k base start n' c.
Proof.
  intros Hf Hfor Hok (Hp & Ho & Hone & Hd). split; [|split; [|split]].
  - intros n1 [Hne Hn]%serve_pending; [|done]. destruct (Hp n1 Hn) as [? (f1 & Hf1 & ?)].
    split; [done|]. exists f1. split; [|done].
    destruct (serve_lookup v n f n1 Hf) as [[_ ->]|[? _]]; done.
  - intros m Hm%(foreign_own v n f i o k o') Hb; [|done..]. destruct (Ho m Hm Hb) as [? Hn].
    split; [done|]. intros n1 [_ Hn1]%serve_pending; [|done]. by apply (Hn n1).
  - intros m m' Hm%(foreign_own v n f i o k o') Hm'%(foreign_own v n f i o k o'); [|done..].
    by apply Hone.
  - intros r Hc m Hm%(foreign_own v n f i o k o'); [|done..]. by eapply Hd.
Qed.

(** The write of a round takes effect after its start, and then nothing is under way. *)
Lemma round_serve v n f i o k base start n' c :
  vflights v !! n = Some f -> from f = i -> reply f = None -> call_key (called f) = Some k ->
  flight_ok v o f -> (sent f < now v)%N ->
  (exists m, own (vstore v) o k m /\ msg_revision m = base) \/ base = 0%N ->
  round v i o k base start n' c -> round (serve v n f) i o k base start n' c.
Proof.
  intros Hf Hi Hr Hk (_ & Hc & _) Hsent Hbase (Hp & Ho & Hone & Hd).
  assert (pending (vflights v) i k n) as Hpend by (by exists f).
  destruct (Hp n Hpend) as [Hn (f' & Hf' & Hcall & Hst)]. rewrite Hf in Hf'.
  injection Hf' as <-.
  assert (forall n1, ~ pending (vflights (serve v n f)) i k n1) as Hnone.
  { intros n1 [Hne [Hn1 _]%Hp]%serve_pending; [|done]. apply Hne. lia. }
  assert (forall m, own (vstore v) o k m -> (msg_revision m <= base)%N) as Hold.
  { intros m Hm. destruct (N.le_gt_cases (msg_revision m) base) as [?|Hgt]; [done|].
    destruct (Ho m Hm Hgt) as [_ []%(fun h => h n)]. done. }
  split; [by intros n1 []%Hnone|].
  destruct (serve_effect v n f) as [[Hl _]|(m' & Hw & Ht & Hmsg & _)].
  - assert (forall m, own (vstore (serve v n f)) o k m -> (msg_revision m <= base)%N) as Hold'.
    { intros m Hm. apply Hold. unfold own in *. by rewrite Hl in Hm. }
    split; [intros m Hm%Hold' ?; lia|]. split; [intros m m1 Hm%Hold' ? ?; lia|]. by intros r _.
  - assert (forall m, own (vstore (serve v n f)) o k m -> (base < msg_revision m)%N -> m = m') as Hnew.
    { intros m [Hm%Hold| ->]%(written_own _ _ _ _ _ _ Hw) Hb; [lia|done]. }
    split; [intros m Hm Hb; rewrite (Hnew m Hm Hb); split; [lia|done]|].
    split; [intros m m1 Hm Hm1 Hb Hb1; by rewrite (Hnew m Hm Hb), (Hnew m1 Hm1 Hb1)|].
    intros r Hcd m Hm. destruct (written_own _ _ _ _ _ _ Hw Hm) as [?%Hold| ->]; [done|].
    rewrite Hcall, Hcd in Hmsg. destruct Hmsg as (_ & ?). destruct Hm as (_ & _ & _ & ?). congruence.
Qed.

(** Another runtime cannot write a key while the last message of [o] is in the store. *)
Lemma secured_serve v n f i o k o' :
  flight_ok v o' f -> (from f = i -> o' = o) -> (from f <> i -> o' <> o) ->
  (from f = i -> forall r, called f <> KvDelete k r) ->
  secured max_age v o k -> secured max_age (serve v n f) o k.
Proof.
  intros (_ & Hc & _) Hsame Hdiff Hdel Hs m Hm Hlast Hage. rewrite serve_now in Hage.
  destruct (serve_effect v n f) as [[Hl Hat]|(m' & Hw & Ht & Hmsg & Hacc)].
  - rewrite Hat. apply Hs; [by unfold own in *; rewrite Hl in Hm| |done].
    intros m1 Hm1. apply Hlast. unfold own in *. by rewrite Hl.
  - pose proof Hw as (_ & Hnew & _ & Hother).
    destruct (written_own _ _ _ _ _ _ Hw Hm) as [Hm0| ->];
      [|destruct Hm as (_ & <- & _); exact Hnew].
    assert (store_at (vstore v) k = Some m) as Hat.
    { apply Hs; [done| |done]. intros m1 Hm1. apply Hlast. eapply own_grows; [|done].
      apply serve_grows. }
    destruct (decide (msg_key m' = k)) as [Hk|Hk]; [exfalso|by rewrite Hother].
    destruct (store_at_last _ _ _ Hat) as (Hin & Hmk & _).
    assert (forall m2, own (vstore v) o' k m2 -> msg_revision m2 = msg_revision m -> o' = o) as Hsameo.
    { intros m2 (Hin2 & _ & Hv2 & _) Hr. rewrite (log_revision_inj _ _ _ Hin2 Hin Hr) in Hv2.
      destruct Hm0 as (_ & _ & Hv & _). congruence. }
    destruct (called f) as [k1 value|k1 value r|k1 r|k1] eqn:Hcall; cbn in Hmsg, Hacc, Hc; [..|done].
    + destruct Hmsg as (<- & _). rewrite Hk, Hat in Hacc. cbn in Hacc. by destruct Hm0 as (_ & _ & _ & ?).
    + destruct Hmsg as (<- & Hv' & Hp'). rewrite Hk in *. rewrite Hat in Hacc. cbn in Hacc.
      destruct Hc as (-> & m2 & Hm2 & Hr2). pose proof (Hsameo m2 Hm2 ltac:(congruence)) as ->.
      assert (own (vstore (serve v n f)) o k m') as Hm' by (split; [by eapply written_self|done]).
      apply Hlast in Hm'. pose proof (written_own_new _ _ _ _ _ _ Hw Hm0). lia.
    + destruct Hmsg as (<- & _). rewrite Hk in *. rewrite Hat in Hacc. cbn in Hacc.
      destruct Hc as (m2 & Hm2 & Hr2). pose proof (Hsameo m2 Hm2 ltac:(congruence)) as ->.
      destruct (decide (from f = i)) as [Hi|Hi]; [by eapply Hdel|by apply Hdiff in Hi].
Qed.

Lemma holding_serve v n f i o k o' first :
  vflights v !! n = Some f -> reply f = None ->
  flight_ok v o' f -> (from f = i -> o' = o) -> (from f <> i -> o' <> o) ->
  one_holding v i o k first -> one_holding (serve v n f) i o k first.
Proof.
  intros Hf Hr Hok Hsame Hdiff ((m0 & Hm0 & Hr0) & Hlow & Hcont & Hcreate).
  split; [exists m0; split; [by eapply own_grows, Hm0; apply serve_grows|done]|].
  assert (from f = i -> forall value, called f <> KvCreate k value) as Hcr by eauto. clear Hr.
  assert (forall m, own (vstore (serve v n f)) o k m ->
            own (vstore v) o k m \/
            (forall m1, m1 ∈ store_log (vstore v) -> msg_key m1 = k ->
               (first <= msg_revision m1)%N -> own (vstore v) o k m1)) as Hcase.
  { intros m Hm. destruct (serve_effect v n f) as [[Hl _]|(m' & Hw & _ & Hmsg & Hacc)].
    { left. unfold own in *. by rewrite Hl in Hm. }
    destruct (written_own _ _ _ _ _ _ Hw Hm) as [?| ->]; [by left|right].
    destruct Hok as (_ & Hc & _). destruct Hm as (_ & Hmk & Hmv & Hmp).
    destruct (called f) as [k1 value|k1 value r|k1 r|k1] eqn:Hcall; cbn in Hmsg, Hacc, Hc.
    - destruct (decide (from f = i)) as [Hi|Hi]; [|apply Hdiff in Hi; naive_solver].
      destruct Hmsg as (Hk1 & _). exfalso. apply (Hcr Hi value). congruence.
    - destruct Hc as [-> (m2 & Hm2 & Hr2)]. destruct Hmsg as (Hk1 & Hv1 & _).
      rewrite Hmk in Hk1. subst k1. rewrite Hmv in Hv1. subst o'.
      destruct (store_at (vstore v) k) as [m3|] eqn:Hat; cbn in Hacc.
      + destruct (store_at_last _ _ _ Hat) as (Hin3 & Hk3 & Hlast3). intros m1 Hin1 Hk1 Hge.
        assert (m3 = m2) as -> by (eapply log_revision_inj; [exact Hin3|apply Hm2|congruence]).
        apply (Hcont m1 m2); [done|done|done|]. split; [done|]. by apply Hlast3.
      + pose proof (log_revision_pos (vstore v) m2 (proj1 Hm2)). lia.
    - destruct Hmsg as (_ & Hd). congruence.
    - done. }
  split; [|split].
  - intros m Hm. destruct (N.le_gt_cases first (msg_revision m)) as [?|Hgt]; [done|].
    destruct (serve_effect v n f) as [[Hl _]|(m' & Hw & _)].
    + unfold own in Hm. rewrite Hl in Hm. apply (Hlow m Hm).
    + destruct (written_own _ _ _ _ _ _ Hw Hm) as [Ho| ->]; [by apply Hlow|].
      pose proof (written_own_new _ _ _ _ _ _ Hw Hm0). lia.
  - intros m m' Hin Hk Hm' [Hge Hle].
    assert (m ∈ store_log (vstore v) \/ (own (vstore (serve v n f)) o k m)) as [Hold|]; [|  |done].
    { destruct (serve_effect v n f) as [[Hl _]|(m1 & Hw & _)]; [left; by rewrite Hl in Hin|].
      pose proof Hw as (Hl & _ & Hlt & _).
      rewrite Hl, elem_of_app, list_elem_of_singleton in Hin. destruct Hin as [?| ->]; [by left|].
      destruct (written_own _ _ _ _ _ _ Hw Hm') as [Ho| ->]; [|by right].
      pose proof (written_own_new _ _ _ _ _ _ Hw Ho). lia. }
    eapply own_grows; [apply serve_grows|]. destruct (Hcase m' Hm') as [Ho|Hall]; [|by apply Hall].
    by apply (Hcont m m').
  - intros n1 f1 Hf1 Hi1 Hr1 value. destruct (serve_lookup v n f n1 Hf) as [[_ He]|[-> He]];
      rewrite He in Hf1; [by eapply Hcreate|]. by injection Hf1 as <-.
Qed.

Lemma served_ok v n f o : flight_ok v o f -> flight_ok (serve v n f) o (served_flight v f).
Proof.
  intros (Hs & Hc & _). split; [by rewrite serve_now|].
  split; [by eapply call_ok_grows; [apply serve_grows|]|]. intros a' [= <-].
  unfold serve. pose proof (store_serve_spec (now v) (called f) (vstore v)) as Hspec.
  destruct (store_serve (now v) (called f) (vstore v)) as [a b]. cbn in *. clear Hs.
  revert a Hspec Hc. destruct (called f) as [k value|k value r|k r|k]; cbn; intros a Hspec Hc.
  - intros rev ->. destruct Hspec as [_ Hw]. exists (mkMessage k value Put rev (now v)).
    split; [|done]. split; [by eapply written_self|done].
  - intros rev ->. destruct Hspec as [_ Hw]. exists (mkMessage k value Put rev (now v)).
    split; [split; [by eapply written_self|done]|]. split; [done|].
    destruct Hc as (_ & m & Hm & <-). apply (written_own_new _ _ _ _ _ _ Hw Hm).
  - intros ->. destruct Hspec as [_ [rev Hw]]. exists (mkMessage k "" Delete rev (now v)).
    split; [by eapply written_self|]. split; [done|]. split; [done|].
    destruct Hc as (m & Hm & <-). apply (written_own_new _ _ _ _ _ _ Hw Hm).
  - intros e ->. destruct Hspec as [[Hl _] Hr]. by rewrite Hl.
Qed.
End environment.
