(* ===== verification/LeaseInvariant.v ===== *)
(** * Runtime leases: what every task relies on

    The invariant of the system: each lease of a runtime in terms of the runtime's lane on
    its key, preserved by every step of every task. *)

From Stdlib Require Import Ascii String.
From S2P Require Import Prelude RustStr Kv LiveDeadlines Leases Ownership LeaseSystem LeaseLanes.

Local Open Scope string_scope.

Section invariant.
Context (hash : string -> N) `{LeaseStoreLaws}.
Implicit Types (i : nat) (v : View) (o k : string) (m : LeaseManager) (l : Lease).

(** ** Leases *)

Definition key_of l : string := owner_key (group l).
Definition revision_of l : N := current_revision (guard l).

(** The message the guard is at was written after [t]. *)
Definition fresh_since v o k (revision t : N) : Prop :=
  exists msg, own (vstore v) o k msg /\ msg_revision msg = revision /\ (t < msg_time msg)%N.

Definition lease_base v i m l : Prop :=
  guard_key (guard l) = group_key (group l) /\
  (exists msg, own (vstore v) (owner_id m) (key_of l) msg /\ msg_revision msg = revision_of l) /\
  one_holding v i (owner_id m) (key_of l) (acquisition_revision (fence (guard l))).

(** A renewal that started at [st]. *)
Definition renewal_round v i m l (st n : N) : Prop :=
  round v i (owner_id m) (key_of l) (revision_of l) st n
    (KvUpdate (key_of l) (owner_id m) (revision_of l)).

Definition renew_lane v i m l (st : N) (p : Prog (LeaseGuard * result unit LeaseError)) (n : N) :
    Prop :=
  (p = renew m (guard l) /\ renewal_round v i m l st n) \/
  exists e n', p = renew_failed m (guard l) e /\ renewal_round v i m l st n'.

Definition release_failed (g : LeaseGuard) (e : KvError) : Prog (result unit LeaseError) :=
  prog_map Err (classify_revision_error (guard_key g) "release" e).

Definition release_prog m (g : LeaseGuard) (p : Prog (result unit LeaseError)) : Prop :=
  p = release m g \/ exists e, p = release_failed g e.

Definition release_lane v i m l (p : Prog (result unit LeaseError)) (n : N) : Prop :=
  (p = release m (guard l) /\
   round v i (owner_id m) (key_of l) (revision_of l) 0 n (KvDelete (key_of l) (revision_of l))) \/
  exists e, p = release_failed (guard l) e.

(** [setup] is when the verification of a process that is still acquiring its leases
    started; tasks that were dropped after that have no lane. *)
Definition lease_lane v i m (setup : option N) l : Prop :=
  let quiet := silent v i (owner_id m) (key_of l) (revision_of l) in
  let kept := secured max_age v (owner_id m) (key_of l) in
  let fresh := fresh_since v (owner_id m) (key_of l) (revision_of l) in
  match stage l with
  | Acquired => is_Some setup -> quiet /\ kept
  | Verifying p n => forall st, setup = Some st -> renew_lane v i m l st p n /\ kept
  | Verified => forall st, setup = Some st -> quiet /\ kept /\ fresh st
  | Sleeping _ => quiet /\ kept /\ fresh (renewed l)
  | Renewing _ st _ p n => renew_lane v i m l st p n /\ kept /\ fresh (renewed l)
  | Releasing (Ok _) _ p n => release_lane v i m l p n
  | Releasing (Err _) _ p _ => release_prog m (guard l) p
  | Finished (Ok _) => gone v i (owner_id m) (key_of l)
  | Finished (Err _) => True
  end.

Definition lease_ok v i m (setup : option N) l : Prop :=
  lease_base v i m l /\ lease_lane v i m setup l.

(** ** Steps the lane does not take part in *)

Record calm v v' i o k : Prop := {
  calm_own msg : own (vstore v) o k msg -> own (vstore v') o k msg;
  calm_silent base : silent v i o k base -> silent v' i o k base;
  calm_round base st n c :
    (exists msg, own (vstore v) o k msg /\ msg_revision msg = base) \/ base = 0%N ->
    round v i o k base st n c -> round v' i o k base st n c;
  calm_gone : gone v i o k -> gone v' i o k;
  calm_holding first : one_holding v i o k first -> one_holding v' i o k first;
  calm_secured :
    (forall n f, vflights v !! n = Some f -> from f = i -> reply f = None ->
       forall r, called f <> KvDelete k r) ->
    secured max_age v o k -> secured max_age v' o k;
}.

Lemma silent_no_delete v i o k base :
  silent v i o k base ->
  forall n f, vflights v !! n = Some f -> from f = i -> reply f = None ->
  forall r, called f <> KvDelete k r.
Proof.
  intros [Hp _] n f Hf Hi Hr r Hc. apply (Hp n). exists f. repeat split; [done..|]. by rewrite Hc.
Qed.

Lemma round_no_delete v i o k base st n' c :
  round v i o k base st n' c -> (forall r, c <> KvDelete k r) ->
  forall n f, vflights v !! n = Some f -> from f = i -> reply f = None ->
  forall r, called f <> KvDelete k r.
Proof.
  intros (Hp & _) Hc n f Hf Hi Hr r Hcall. destruct (Hp n) as [_ (f' & Hf' & Hcf & _)].
  { exists f. repeat split; [done..|]. by rewrite Hcall. }
  rewrite Hf in Hf'. injection Hf' as <-. by apply (Hc r); congruence.
Qed.

Lemma fresh_calm v v' i o k revision t :
  calm v v' i o k -> fresh_since v o k revision t -> fresh_since v' o k revision t.
Proof. intros Hc (msg & Hm & ?). exists msg. split; [by apply (calm_own _ _ _ _ _ Hc)|done]. Qed.

Lemma lease_base_calm v v' i m l :
  calm v v' i (owner_id m) (key_of l) -> lease_base v i m l -> lease_base v' i m l.
Proof.
  intros Hc (Hk & (msg & Hm & Hr) & Hh). split; [done|]. split.
  - exists msg. split; [by apply (calm_own _ _ _ _ _ Hc)|done].
  - by apply (calm_holding _ _ _ _ _ Hc).
Qed.

Lemma quiet_calm v v' i o k base :
  calm v v' i o k -> silent v i o k base -> secured max_age v o k ->
  silent v' i o k base /\ secured max_age v' o k.
Proof.
  intros Hc Hs Hk. split; [by apply (calm_silent _ _ _ _ _ Hc)|].
  apply (calm_secured _ _ _ _ _ Hc); [|done]. by eapply silent_no_delete.
Qed.

Lemma renew_lane_calm v v' i m l st p n :
  calm v v' i (owner_id m) (key_of l) -> lease_base v i m l ->
  renew_lane v i m l st p n -> secured max_age v (owner_id m) (key_of l) ->
  renew_lane v' i m l st p n /\ secured max_age v' (owner_id m) (key_of l).
Proof.
  intros Hc (_ & Hb & _) Hl Hk. split.
  - destruct Hl as [[-> Hr]|(e & n' & -> & Hr)]; [left|right; exists e, n'];
      (split; [done|]); by apply (calm_round _ _ _ _ _ Hc); [left|].
  - apply (calm_secured _ _ _ _ _ Hc); [|done].
    destruct Hl as [[-> Hr]|(e & n' & -> & Hr)]; by eapply round_no_delete.
Qed.

Lemma lease_calm v v' i m setup l :
  calm v v' i (owner_id m) (key_of l) -> lease_ok v i m setup l -> lease_ok v' i m setup l.
Proof.
  intros Hc [Hb Hl]. split; [by eapply lease_base_calm|]. unfold lease_lane in *.
  destruct (stage l) as [|p n| |next|next st dl p n|[?|?] dl p n|[?|?]].
  - intros [? ?]%Hl. by eapply quiet_calm.
  - intros st [Hr Hk]%Hl. by eapply renew_lane_calm.
  - intros st (Hq & Hk & Hf)%Hl. destruct (quiet_calm _ _ _ _ _ _ Hc Hq Hk) as [? ?].
    split; [done|]. split; [done|]. by eapply fresh_calm.
  - destruct Hl as (Hq & Hk & Hf). destruct (quiet_calm _ _ _ _ _ _ Hc Hq Hk) as [? ?].
    split; [done|]. split; [done|]. by eapply fresh_calm.
  - destruct Hl as (Hr & Hk & Hf). destruct (renew_lane_calm _ _ _ _ _ _ _ _ Hc Hb Hr Hk) as [? ?].
    split; [done|]. split; [done|]. by eapply fresh_calm.
  - destruct Hl as [[-> Hr]|?]; [left|by right]. split; [done|].
    apply (calm_round _ _ _ _ _ Hc); [|done]. left. apply Hb.
  - done.
  - by apply (calm_gone _ _ _ _ _ Hc).
  - done.
Qed.

(** Time, the aging of messages, and calls that are not for the lane's key. *)
Lemma calm_later v t i o k : (now v <= t)%N -> calm v (later v t) i o k.
Proof. intros Ht. split; try done. intros _. by apply secured_later. Qed.

Lemma calm_expire v key i o k : calm v (expire v key) i o k.
Proof.
  assert (forall msg, own (vstore (expire v key)) o k msg <-> own (vstore v) o k msg) as Ho.
  { intros. apply own_expire. }
  split.
  - intros. by apply Ho.
  - intros base [Hp Hm]. split; [done|]. intros. by apply Hm, Ho.
  - intros base st n c _ (Hp & Hm & Hu & Hd). split; [done|]. split; [|split].
    + intros msg Hown%Ho. by apply Hm.
    + intros a b Ha%Ho Hb%Ho. by apply Hu.
    + intros r Hc msg Hown%Ho. by eapply Hd.
  - intros (Hp & msg & Hin & Hk & Hl). split; [done|]. exists msg.
    cbn. rewrite store_expire_log. split; [done|]. split; [done|]. intros. by apply Hl, Ho.
  - intros first ((msg & Hin & Hr) & Hl & Hc & Hn). split; [exists msg; split; [by apply Ho|done]|].
    split; [intros; by apply Hl, Ho|]. split; [|done]. cbn. rewrite store_expire_log.
    intros a b Ha Hk Hb Hle. apply Ho. apply (Hc a b); [done|done|by apply Ho|done].
  - intros _. apply secured_expire.
Qed.

Lemma calm_extend v j call i o k :
  unrelated call j i k -> calm v (extend v j call) i o k.
Proof.
  intros Hu. split; try done.
  - intros base. by apply silent_extend.
  - intros base st n c _. by apply round_extend.
  - by apply gone_extend.
  - intros first. apply holding_extend. intros Hj value Hcall. by apply (Hu Hj _ Hcall).
Qed.

Lemma calm_serve v n f i o k o' :
  vflights v !! n = Some f -> reply f = None -> (sent f < now v)%N -> flight_ok v o' f ->
  (from f = i -> o' = o) -> (from f <> i -> o' <> o) ->
  calm v (serve v n f) i o k.
Proof.
  intros Hf Hr Hs Hok Hsame Hdiff.
  assert (foreign i o k o' f \/ (from f = i /\ call_key (called f) = Some k)) as Hcase.
  { unfold foreign. destruct (decide (from f = i)); [|left; left; naive_solver].
    destruct (decide (call_key (called f) = Some k)); [by right|left; by right]. }
  assert (from f = i -> call_key (called f) = Some k -> pending (vflights v) i k n) as Hpend.
  { intros. by exists f. }
  split.
  - intros msg. apply own_grows, serve_grows.
  - intros base Hq. destruct Hcase as [Hfor|[Hi Hk]]; [by eapply silent_serve|].
    destruct Hq as [Hp _]. by destruct (Hp n); apply Hpend.
  - intros base st n' c Hbase Hround. destruct Hcase as [Hfor|[Hi Hk]].
    + by eapply round_serve_foreign.
    + rewrite (Hsame Hi) in Hok. by eapply round_serve.
  - intros Hg. destruct Hcase as [Hfor|[Hi Hk]]; [by eapply gone_serve|].
    destruct Hg as [Hp _]. by destruct (Hp n); apply Hpend.
  - intros first. by eapply holding_serve.
  - intros Hdel. eapply secured_serve; [done|done|done|]. intros Hi. by apply (Hdel n f).
Qed.

(** ** The turns of a lease *)

(** What a call was answered with: an error of the client, or what the store replied. *)
Definition answered v (n : N) (a : forall c, option (answer c)) : Prop :=
  forall c x, a c = Some x ->
    (exists e, x = Err e) \/
    (answer_ok (vstore v) c x /\ forall i k, ~ pending (vflights v) i k (N.to_nat n)).

(** The calls a lease makes are for its key, and none creates it. *)
Definition lease_call v m l (c : Call) : Prop :=
  call_ok (vstore v) (owner_id m) c /\
  (call_key c = None \/ call_key c = Some (key_of l) /\ forall k value, c <> KvCreate k value).

Definition turn_ok v i m setup l (res : Lease * option Call) : Prop :=
  lease_ok (extend v i (snd res)) i m setup (fst res) /\ group (fst res) = group l /\
  forall c, snd res = Some c -> lease_call v m l c.

Lemma extend_none v i : extend v i None = v.
Proof. destruct v. unfold extend. cbn. by rewrite app_nil_r. Qed.

(** A call that writes nothing. *)
Lemma calm_read v j i o k key : calm v (extend v j (Some (KvEntry key))) i o k.
Proof. apply calm_extend. by intros _ c [= <-]. Qed.

(** The lease stays in its lane as it makes a call other than a creation. *)
Lemma base_extend v i m l c :
  lease_call v m l c -> lease_base v i m l -> lease_base (extend v i (Some c)) i m l.
Proof.
  intros [_ Hk] (Hg & Hm & Hh). split; [done|]. split; [done|]. apply holding_extend; [|done].
  intros _ value [= ->]. destruct Hk as [?|[_ Hk]]; [done|]. by eapply Hk.
Qed.

Lemma base_guard v i m l revision :
  lease_base v i m l ->
  (exists msg, own (vstore v) (owner_id m) (key_of l) msg /\ msg_revision msg = revision) ->
  lease_base v i m (l <| guard := guard l <| current_revision := revision |> |>).
Proof. by intros (Hg & _ & Hh) Hm. Qed.

Lemma released_ok v i m setup l renewal r :
  lease_base v i m l ->
  (is_ok renewal = true -> r = Ok tt -> gone v i (owner_id m) (key_of l)) ->
  turn_ok v i m setup l (released m l renewal r, None).
Proof.
  intros Hb Hg. split; [|done]. cbn [fst snd]. rewrite extend_none. split; [done|].
  unfold lease_lane, released. cbn [stage modify]. change (stage (l <| stage := ?s |>)) with s.
  destruct renewal as [[]|e]; [|done]. destruct r as [[]|e]; [|done]. by apply Hg.
Qed.

Lemma release_await m l renewal dl n :
  store m = true -> guard_key (guard l) = group_key (group l) ->
  release_turn m l renewal dl (release m (guard l)) n =
  (l <| stage := Releasing renewal dl (release m (guard l)) n |>,
   Some (KvDelete (key_of l) (revision_of l))).
Proof. intros Hst Hg. unfold release. by rewrite Hst, Hg. Qed.

Lemma release_one_ok v i m setup l renewal t :
  store m = true -> lease_base v i m l ->
  (is_ok renewal = true -> silent v i (owner_id m) (key_of l) (revision_of l)) ->
  turn_ok v i m setup l (release_one m l renewal t (N.of_nat (List.length (vflights v)))).
Proof.
  intros Hst Hb Hq. pose proof Hb as (Hg & _). unfold release_one. rewrite release_await by done.
  assert (lease_call v m l (KvDelete (key_of l) (revision_of l))) as Hcall by (split; [apply Hb|by right]).
  split; [|split; [done|by intros c [= <-]]]. cbn [fst snd]. split; [by apply (base_extend v i m l)|].
  unfold lease_lane. change (stage (l <| stage := ?s |>)) with s.
  destruct renewal as [[]|e]; [|by left]. left. split; [done|].
  apply silent_round; [by apply Hq|lia].
Qed.

Lemma release_failed_cases g e :
  (exists r, release_failed g e = Ret (Err r)) \/
  exists rest, release_failed g e = Await (KvEntry (lease_key (guard_key g))) rest /\
    forall x, exists r, rest x = Ret (Err r).
Proof.
  unfold release_failed, classify_revision_error. case_match; [left|right]; cbn; eauto.
Qed.

Lemma base_read v i m l key :
  lease_base v i m l -> lease_base (extend v i (Some (KvEntry key))) i m l.
Proof. apply base_extend. by split; [|left]. Qed.

(** The answers [release] goes on with. *)
Lemma resume_release v i m setup l renewal dl p n a p' :
  store m = true -> lease_base v i m l ->
  (is_ok renewal = true -> release_lane v i m l p n) -> release_prog m (guard l) p ->
  answered v n a -> resume p a = Some p' ->
  turn_ok v i m setup l (release_turn m l renewal dl p' (N.of_nat (List.length (vflights v)))).
Proof.
  intros Hst Hb Hl Hp Ha Hres. pose proof Hb as (Hg & _). destruct Hp as [-> |[e ->]].
  2: { destruct (release_failed_cases (guard l) e) as [[r Hf]|(k & Hf & Hk)]; rewrite Hf in Hres; [done|].
       apply fmap_Some in Hres as (x & _ & ->). destruct (Hk x) as [r ->]. by apply released_ok. }
  unfold release in Hres. rewrite Hst in Hres. cbn in Hres. apply fmap_Some in Hres as (x & Hx & ->).
  destruct x as [[]|e].
  - apply released_ok; [done|]. intros Hok _. destruct (Hl Hok) as [[_ (Hp & _ & _ & Ho)]|[e He]].
    2: { destruct (release_failed_cases (guard l) e) as [[r Hf]|(k & Hf & _)]; rewrite Hf in He;
           unfold release in He; rewrite Hst in He; done. }
    destruct (Ha _ _ Hx) as [[e He]|[Hans Hn]]; [done|]. rewrite Hg in Hans.
    destruct (Hans eq_refl) as (msg & Hin & Hk & _ & Hlt).
    split; [|exists msg; split; [done|]; split; [done|]; intros m' Hm'].
    + intros n' Hn'. destruct (Hp n' Hn') as [<- _]. apply (Hn i (key_of l)). by rewrite Nat2N.id.
    + apply (Ho _ eq_refl) in Hm'. unfold revision_of in *. lia.
  - change (prog_map _ _) with (release_failed (guard l) e).
    destruct (release_failed_cases (guard l) e) as [[r Hf]|(k & Hf & Hk)]; rewrite Hf; [by apply released_ok|].
    cbn [release_turn]. split; [|split; [done|by intros c [= <-]; split; [|left]]].
    split; [by apply base_read|]. unfold lease_lane. change (stage (l <| stage := ?s |>)) with s.
    destruct renewal; right; by exists e.
Qed.

(** *** Renewal *)

Lemma round_done v i o k base st n c msg :
  round v i o k base st n c -> own (vstore v) o k msg -> (base < msg_revision msg)%N ->
  silent v i o k (msg_revision msg) /\ (st < msg_time msg)%N.
Proof.
  intros (_ & Ho & Hu & _) Hm Hb. destruct (Ho msg Hm Hb) as [Ht Hp]. split; [|done].
  split; [done|]. intros m' Hm'. destruct (N.le_gt_cases (msg_revision m') base) as [|Hgt]; [lia|].
  by rewrite (Hu m' msg).
Qed.

(** What comes of a renewal: a failure, a later revision, or a look at the entry. *)
Definition renewed_to v i m l (st : N) (p : Prog (LeaseGuard * result unit LeaseError)) : Prop :=
  (exists e, p = Ret (guard l, Err e)) \/
  (exists revision, p = Ret (guard l <| current_revision := revision |>, Ok tt) /\
     silent v i (owner_id m) (key_of l) revision /\
     fresh_since v (owner_id m) (key_of l) revision st) \/
  exists e n rest, p = Await (KvEntry (key_of l)) rest /\ p = renew_failed m (guard l) e /\
     renewal_round v i m l st n.

Lemma renew_failed_cases m g e :
  (exists r, renew_failed m g e = Ret (g, Err r)) \/
  renew_failed m g e = Await (KvEntry (lease_key (guard_key g)))
                         (fun r => Ret (inspect_renewal m g (kv_message e) r)).
Proof.
  unfold renew_failed, classify_revision_error. destruct (kv_kind e) eqn:Hk; cbn; eauto.
Qed.

Lemma inspect_renewal_cases m g text r :
  (exists e, inspect_renewal m g text r = (g, Err e)) \/
  exists entry, r = Ok (Some entry) /\ entry_operation entry = Put /\
    entry_value entry = owner_id m /\ (current_revision g < entry_revision entry)%N /\
    inspect_renewal m g text r = (g <| current_revision := entry_revision entry |>, Ok tt).
Proof.
  destruct r as [[entry|]|e]; cbn; [|eauto..].
  destruct (bool_decide_reflect (entry_operation entry = Put)) as [Hp|]; cbn; [|eauto].
  destruct (String.eqb_spec (entry_value entry) (owner_id m)) as [Hv|]; cbn; [|eauto].
  destruct (N.ltb_spec (current_revision g) (entry_revision entry)); cbn; [|eauto].
  right. by exists entry.
Qed.

Lemma resume_renew v i m l st p n a p' :
  store m = true -> lease_base v i m l -> renew_lane v i m l st p n ->
  answered v n a -> resume p a = Some p' -> renewed_to v i m l st p'.
Proof.
  intros Hst (Hg & _) Hl Ha Hres. assert (lease_key (guard_key (guard l)) = key_of l) as Hkey by by rewrite Hg.
  destruct Hl as [[-> Hr]|(e & n' & -> & Hr)].
  - unfold renew in Hres. rewrite Hst in Hres. cbn in Hres. apply fmap_Some in Hres as (x & Hx & ->).
    destruct x as [revision|e].
    + right. left. exists revision. split; [done|]. destruct (Ha _ _ Hx) as [[e He]|[Hans _]]; [done|].
      rewrite Hkey in Hans. destruct (Hans revision eq_refl) as (msg & Hm & <- & Hlt).
      destruct (round_done _ _ _ _ _ _ _ _ _ Hr Hm Hlt) as [Hs Ht]. split; [done|]. by exists msg.
    + destruct (renew_failed_cases m (guard l) e) as [[r Hf]|Hf]; [left; by exists r|].
      right. right. rewrite Hkey in Hf. exists e, n. by eexists.
  - destruct (renew_failed_cases m (guard l) e) as [[r Hf]|Hf]; rewrite Hf in Hres; [done|].
    apply fmap_Some in Hres as (x & Hx & ->).
    destruct (inspect_renewal_cases m (guard l) (kv_message e) x) as [[r Hi]|(entry & -> & Hp & Hv & Hlt & Hi)];
      rewrite Hi; [left; by exists r|]. right. left. exists (entry_revision entry). split; [done|].
    destruct (Ha _ _ Hx) as [[e' He]|[Hans _]]; [done|]. rewrite Hkey in Hans.
    destruct (Hans entry eq_refl) as (msg & Hin & Hk & <-).
    assert (own (vstore v) (owner_id m) (key_of l) msg) as Hm by done.
    destruct (round_done _ _ _ _ _ _ _ _ _ Hr Hm Hlt) as [Hs Ht]. split; [done|]. by exists msg.
Qed.

Lemma guard_id l : l <| guard := guard l |> = l.
Proof. by destruct l. Qed.

Lemma renewal_turn_ok v i m setup l next st dl p t :
  store m = true -> lease_base v i m l -> secured max_age v (owner_id m) (key_of l) ->
  fresh_since v (owner_id m) (key_of l) (revision_of l) (renewed l) ->
  renewed_to v i m l st p ->
  turn_ok v i m setup l (renewal_turn hash m l next st dl p t (N.of_nat (List.length (vflights v)))).
Proof.
  intros Hst Hb Hk Hf [[e ->]|[(revision & -> & Hs & Hfr)|(e & n & rest & Hp & Hpe & Hr)]].
  - unfold renewal_turn. rewrite guard_id. by apply release_one_ok.
  - split; [|done]. cbn [renewal_turn fst snd]. rewrite extend_none. split; [|done].
    destruct (base_guard v i m l revision Hb) as (? & ? & ?); [|done].
    destruct Hfr as (msg & ? & ? & _). by exists msg.
  - rewrite Hp. cbn [renewal_turn]. split; [|split; [done|by intros c [= <-]; split; [|left]]].
    split; [by apply base_read|]. unfold lease_lane. change (stage (l <| stage := ?s |>)) with s.
    cbn [fst snd]. rewrite <- Hp. split; [|split; [done|done]].
    right. exists e, n. split; [done|]. apply round_extend; [|done]. by intros _ c [= <-].
Qed.

(** A renewal starts. *)
Lemma renew_await m l :
  store m = true -> guard_key (guard l) = group_key (group l) ->
  exists rest, renew m (guard l) = Await (KvUpdate (key_of l) (owner_id m) (revision_of l)) rest.
Proof. intros Hst Hg. unfold renew. rewrite Hst, Hg. by eexists. Qed.

Lemma renew_call v i m l :
  lease_base v i m l -> lease_call v m l (KvUpdate (key_of l) (owner_id m) (revision_of l)).
Proof. intros (_ & Hm & _). split; [by split|]. by right. Qed.

Lemma renew_started v i m l st :
  silent v i (owner_id m) (key_of l) (revision_of l) -> (st <= now v)%N ->
  renew_lane (extend v i (Some (KvUpdate (key_of l) (owner_id m) (revision_of l)))) i m l st
    (renew m (guard l)) (N.of_nat (List.length (vflights v))).
Proof. intros Hs Ht. left. split; [done|]. by apply silent_round. Qed.

Lemma start_renewal_ok v i m setup l next dl t :
  store m = true -> lease_base v i m l ->
  silent v i (owner_id m) (key_of l) (revision_of l) ->
  secured max_age v (owner_id m) (key_of l) ->
  fresh_since v (owner_id m) (key_of l) (revision_of l) (renewed l) ->
  turn_ok v i m setup l
    (renewal_turn hash m l next (now v) dl (renew m (guard l)) t (N.of_nat (List.length (vflights v)))).
Proof.
  intros Hst Hb Hs Hk Hf. pose proof Hb as (Hg & _). destruct (renew_await m l Hst Hg) as [rest Hp].
  pose proof (renew_call v i m l Hb) as Hcall. rewrite Hp. cbn [renewal_turn].
  split; [|split; [done|by intros c [= <-]]]. cbn [fst snd]. split; [by apply (base_extend v i m l)|].
  unfold lease_lane. change (stage (l <| stage := ?s |>)) with s. rewrite <- Hp.
  split; [|done]. apply (renew_started v i m l); [done|lia].
Qed.
End invariant.
