(* ===== verification/LeaseRuns.v ===== *)
(** * Runtime leases: every run keeps the invariant

    The invariant of [LeaseInvariant] for a whole process, in each of its phases, and for
    the system: it holds at the start and every step of every task, of the store and of the
    clock keeps it. *)

From Stdlib Require Import Ascii String.
From S2P Require Import Prelude RustStr Kv LiveDeadlines Leases Ownership LeaseSystem LeaseLanes.
From S2P Require Import LeaseInvariant.

Local Open Scope string_scope.

Global Instance owner_key_inj : Inj (=) (=) owner_key.
Proof. by intros [] []. Qed.

Lemma for_mode_NoDup m : NoDup (for_mode m).
Proof. destruct m; by apply (bool_decide_unpack _). Qed.

Section runs.
Context (hash : string -> N) `{LeaseStoreLaws}.
Implicit Types (i : nat) (v : View) (m : LeaseManager) (l : Lease) (r : Runtime).

(** ** Processes *)

Definition setup (ph : Phase) : option N :=
  match ph with
  | Acquiring _ _ _ _ => Some 0%N
  | VerifyingAll st _ => Some st
  | _ => None
  end.

Definition leases_ok v i m (su : option N) (ls : list Lease) : Prop :=
  NoDup (group <$> ls) /\ forall l, l ∈ ls -> lease_ok (max_age := max_age) v i m su l.

Definition manager_ok r : Prop :=
  manager r = new_manager (settings r) (identity r) <| store := true |> /\ ttl (manager r) = max_age.

(** The release of a lease that was never verified. *)
Definition cleaning m l : Prop :=
  guard_key (guard l) = group_key (group l) /\
  match stage l with
  | Releasing _ _ p _ => release_prog m (guard l) p
  | Finished _ => True
  | _ => False
  end.

Definition phase_ok v i r : Prop :=
  match phase r with
  | Opening => leases r = [] /\ forall g, silent v i (identity r) (owner_key g) 0
  | Acquiring g todo p n =>
      Forall (fun l => stage l = Acquired) (leases r) /\
      NoDup ((group <$> leases r) ++ g :: todo) /\
      (forall g', g' ∈ todo -> silent v i (identity r) (owner_key g') 0) /\
      p = acquire (manager r) (group_key g) /\
      round v i (identity r) (owner_key g) 0 0 n (KvCreate (owner_key g) (identity r)) /\
      secured max_age v (identity r) (owner_key g)
  | VerifyingAll st _ => (st <= now v)%N
  | CleaningUp _ l => cleaning (manager r) l
  | _ => True
  end.

Definition runtime_ok v i r : Prop :=
  owner_id (manager r) = identity r /\
  (manager_ok r \/ leases r = [] /\ (phase r = Opening \/ exists o, phase r = Stopped o)) /\
  leases_ok v i (manager r) (setup (phase r)) (leases r) /\
  phase_ok v i r.

Definition same_process r r' : Prop :=
  identity r' = identity r /\ settings r' = settings r /\ mode r' = mode r.

(** What a step of process [i] leaves. *)
Definition step_ok v i r (res : Runtime * option Call) : Prop :=
  runtime_ok (extend v i (snd res)) i (fst res) /\ same_process r (fst res) /\
  forall c, snd res = Some c -> call_ok (vstore v) (identity r) c.

Lemma manager_store r : manager_ok r -> store (manager r) = true.
Proof. intros [-> _]. done. Qed.

Lemma manager_owner r : manager_ok r -> owner_id (manager r) = identity r.
Proof. intros [-> _]. done. Qed.

Lemma verifying_ok v i r st dl :
  manager_ok r -> phase r = VerifyingAll st dl ->
  leases_ok v i (manager r) (Some st) (leases r) -> (st <= now v)%N -> runtime_ok v i r.
Proof.
  intros Hm Hph Hl Hst. split; [by apply manager_owner|]. split; [by left|].
  unfold phase_ok. rewrite Hph. by split.
Qed.

(** The phases in which the leases have their tasks, or are given up. *)
Definition plain (ph : Phase) : bool :=
  match ph with
  | Opening | Acquiring _ _ _ _ | VerifyingAll _ _ | CleaningUp _ _ => false
  | _ => true
  end.

Lemma plain_ok v i r :
  manager_ok r -> plain (phase r) = true -> leases_ok v i (manager r) None (leases r) ->
  runtime_ok v i r.
Proof.
  intros Hm Hph Hl. split; [by apply manager_owner|]. split; [by left|].
  unfold phase_ok. by destruct (phase r).
Qed.

(** *** Lists of leases *)

Lemma leases_calm v v' i m su ls :
  (forall l, l ∈ ls -> calm (max_age := max_age) v v' i (owner_id m) (key_of l)) ->
  leases_ok v i m su ls -> leases_ok v' i m su ls.
Proof. intros Hc [Hn Hl]. split; [done|]. intros l Hin. eapply lease_calm; eauto. Qed.

Lemma lease_unset v i m su l :
  lease_ok (max_age := max_age) v i m su l -> lease_ok (max_age := max_age) v i m None l.
Proof.
  intros [Hb Hl]. split; [done|]. unfold lease_lane in *. by destruct (stage l).
Qed.

Lemma leases_unset v i m su ls : leases_ok v i m su ls -> leases_ok v i m None ls.
Proof. intros [Hn Hl]. split; [done|]. intros l Hin. by eapply lease_unset, Hl. Qed.

(** The other leases of a process are for other keys. *)
Lemma lease_call_unrelated v i m l l' c :
  lease_call v m l c -> group l' <> group l -> unrelated (Some c) i i (key_of l').
Proof.
  intros [_ Hk] Hne _ c' [= <-] Hk'. destruct Hk as [?|[Hk _]]; [congruence|].
  rewrite Hk in Hk'. injection Hk' as Hk'. apply Hne. by apply (inj owner_key).
Qed.

Lemma leases_insert v i m su ls idx l l' call :
  leases_ok v i m su ls -> ls !! idx = Some l ->
  turn_ok (max_age := max_age) v i m su l (l', call) ->
  leases_ok (extend v i call) i m su (<[idx := l']> ls).
Proof.
  intros [Hn Hl] Hidx (Hok & Hg & Hcall). cbn [fst snd] in *. split.
  - rewrite list_fmap_insert, list_insert_id; [done|]. by rewrite list_lookup_fmap, Hidx, Hg.
  - intros l2 [j Hj]%list_elem_of_lookup.
    destruct (decide (idx = j)) as [<-|Hne].
    { rewrite list_lookup_insert_eq in Hj by (by eapply lookup_lt_Some). by injection Hj as <-. }
    rewrite list_lookup_insert_ne in Hj by done.
    apply (lease_calm v); [|by eapply Hl, list_elem_of_lookup_2].
    apply calm_extend. destruct call as [c|]; [|by intros _ c].
    eapply lease_call_unrelated; [by apply Hcall|]. intros Heq. apply Hne.
    eapply (NoDup_lookup (group <$> ls) _ _ (group l)); [done|by rewrite list_lookup_fmap, Hidx|].
    rewrite list_lookup_fmap, Hj. cbn. by rewrite Heq.
Qed.

Lemma leases_sublist v i m su ls ls' :
  sublist ls' ls -> leases_ok v i m su ls -> leases_ok v i m su ls'.
Proof.
  intros Hs [Hn Hl]. split; [by eapply NoDup_fmap_sublist|]. intros l Hin. apply Hl.
  by eapply elem_of_sublist.
Qed.

(** *** Acquisition *)

Lemma release_one_await m l renewal t n :
  store m = true -> guard_key (guard l) = group_key (group l) ->
  release_one m l renewal t n =
  (l <| stage := Releasing renewal (t + OWNERSHIP_SHUTDOWN_TIMEOUT) (release m (guard l)) n |>,
   Some (KvDelete (key_of l) (revision_of l))).
Proof. apply release_await. Qed.

Lemma clean_up_ok v i r su primary n :
  manager_ok r -> leases_ok v i (manager r) su (leases r) ->
  step_ok v i r (clean_up r primary (now v) n).
Proof.
  intros Hm Hl%leases_unset. pose proof (manager_owner r Hm) as Ho. unfold clean_up.
  destruct (last (leases r)) as [l|] eqn:Hlast.
  - apply last_Some in Hlast as [ls Hls]. pose proof Hl as [Hn Hok].
    assert (lease_ok (max_age := max_age) v i (manager r) None l) as [Hb _].
    { apply Hok. rewrite Hls. apply elem_of_app. right. by left. }
    pose proof Hb as (Hg & Hmsg & _). rewrite release_one_await by (done || by apply manager_store).
    rewrite Hls, removelast_last. split; [|split; [done|by intros c [= <-]; cbn; rewrite <- Ho]].
    cbn [fst snd]. split; [done|]. split; [by left|]. split; [|split; [done|by left]].
    apply (leases_calm v); [|by eapply leases_sublist; [|exact Hl]; rewrite Hls; apply sublist_inserts_r].
    intros l' Hin. apply calm_extend. intros _ c [= <-] [= Hk%(inj owner_key)].
    rewrite Hls, fmap_app, NoDup_app in Hn. destruct Hn as (_ & Hn & _).
    eapply Hn; [by apply list_elem_of_fmap_2|]. cbn. rewrite <- Hk. by left.
  - apply last_None in Hlast. split; [|done]. cbn [fst snd]. rewrite extend_none.
    split; [done|]. split; [by left|]. by split.
Qed.

Lemma spawned_leases v i m st t ls :
  forallb (fun l => match stage l with Verified => true | _ => false end) ls = true ->
  leases_ok v i m (Some st) ls -> leases_ok v i m None (spawn hash m st t <$> ls).
Proof.
  intros Hv [Hn Hl]. split; [by rewrite <- list_fmap_compose|]. intros l Hin.
  apply list_elem_of_fmap in Hin as (l0 & -> & Hin). destruct (Hl l0 Hin) as [Hb Hlane].
  split; [done|]. assert (stage l0 = Verified) as Hs.
  { rewrite forallb_forall in Hv. apply list_elem_of_In, Hv in Hin. by destruct (stage l0). }
  unfold lease_lane in Hlane. rewrite Hs in Hlane. by apply Hlane.
Qed.

Lemma spawn_ok v i r st :
  manager_ok r -> leases_ok v i (manager r) (Some st) (leases r) -> (st <= now v)%N ->
  step_ok v i r (spawn_when_verified hash r st (now v), None).
Proof.
  intros Hm Hl Hst. pose proof (manager_owner r Hm) as Ho. split; [|split; [|done]];
    unfold spawn_when_verified; case_match eqn:Hv; try done;
    cbn [fst snd]; rewrite extend_none; (split; [done|]); (split; [by left|]); [|by split].
  split; [|done]. by apply spawned_leases.
Qed.

Lemma silent_secured v i o k : silent v i o k 0 -> secured max_age v o k.
Proof.
  intros [_ Hs] msg Hm. pose proof (Hs msg Hm). destruct Hm as [Hin _].
  apply log_revision_pos in Hin. lia.
Qed.

Lemma acquire_await m g :
  store m = true ->
  exists rest, acquire m (group_key g) = Await (KvCreate (owner_key g) (owner_id m)) rest.
Proof. intros Hst. unfold acquire. rewrite Hst. by eexists. Qed.

Lemma acquire_groups_ok v i r todo :
  manager_ok r -> leases_ok v i (manager r) (Some 0%N) (leases r) ->
  Forall (fun l => stage l = Acquired) (leases r) ->
  NoDup ((group <$> leases r) ++ todo) ->
  (forall g, g ∈ todo -> silent v i (identity r) (owner_key g) 0) ->
  step_ok v i r (acquire_groups hash r todo (now v) (N.of_nat (List.length (vflights v)))).
Proof.
  intros Hm Hl Hacq Hnd Hs. pose proof (manager_owner r Hm) as Ho. destruct todo as [|g todo].
  - cbn [acquire_groups]. apply spawn_ok; [done| |lia]. destruct Hl as [Hn Hl]. split; [done|].
    intros l Hin. destruct (Hl l Hin) as [Hb Hlane]. split; [done|].
    rewrite Forall_forall in Hacq. unfold lease_lane in *. rewrite (Hacq l Hin) in *.
    intros _. by apply Hlane.
  - cbn [acquire_groups]. destruct (acquire_await (manager r) g) as [rest Hp]; [by apply manager_store|].
    rewrite Hp. split; [|split; [done|by intros c [= <-]]]. cbn [fst snd].
    assert (forall g', g' <> g -> unrelated (Some (KvCreate (owner_key g) (owner_id (manager r)))) i i (owner_key g')) as Hu.
    { intros g' Hne _ c [= <-] [= Hk%(inj owner_key)]. done. }
    apply NoDup_app in Hnd as Hnd'. destruct Hnd' as (_ & Hnd1 & Hnd2).
    split; [done|]. split; [by left|]. split; [|split; [done|]].
    + apply (leases_calm v); [|done]. intros l Hin. apply calm_extend, Hu. intros Heq.
      eapply Hnd1; [by apply list_elem_of_fmap_2|]. rewrite Heq. by left.
    + split; [done|]. split; [|split; [by rewrite <- Hp|split]].
      * intros g' Hin. apply silent_extend; [|by apply Hs; right]. apply Hu.
        intros ->. by apply NoDup_cons in Hnd2 as [? _].
      * rewrite Ho. apply silent_round; [by apply Hs; left|lia].
      * apply (silent_secured v i), Hs. by left.
Qed.

Lemma acquired_ok v i m g revision n (a : forall c, option (answer c)) :
  round v i (owner_id m) (owner_key g) 0 0 n (KvCreate (owner_key g) (owner_id m)) ->
  secured max_age v (owner_id m) (owner_key g) -> answered v n a ->
  a (KvCreate (owner_key g) (owner_id m)) = Some (Ok revision) ->
  lease_ok (max_age := max_age) v i m (Some 0%N)
    (mkLease g (mkLeaseGuard (group_key g) (mkLeaseFence revision) revision) Acquired 0 false).
Proof.
  intros Hr Hsec Ha Hx. destruct (Ha _ _ Hx) as [[e He]|[Hans _]]; [done|].
  destruct (Hans revision eq_refl) as (msg & Hm & <-).
  assert (0 < msg_revision msg)%N as Hpos by (apply (log_revision_pos (vstore v)), Hm).
  destruct (round_done _ _ _ _ _ _ _ _ _ Hr Hm Hpos) as [Hs _].
  destruct Hr as (_ & _ & Hu & _).
  assert (forall x, own (vstore v) (owner_id m) (owner_key g) x -> x = msg) as Hone.
  { intros x Hx'. apply Hu; [done|done| |done]. apply (log_revision_pos (vstore v)), Hx'. }
  split; [|intros _; done]. split; [done|]. split; [by exists msg|]. split; [by exists msg|].
  split; [by intros x ->%Hone|]. split.
  - intros x y Hin Hk ->%Hone [Hge Hle]. assert (x = msg) as ->; [|done].
    eapply log_revision_inj; [exact Hin|apply Hm|]. cbn in Hge. lia.
  - intros n' f Hf Hi Hrep value Hc. destruct Hs as [Hs _]. apply (Hs n'). exists f.
    repeat split; [done..|]. by rewrite Hc.
Qed.

Lemma acquire_turn_ok v i r g todo p n a p' :
  manager_ok r -> leases_ok v i (manager r) (Some 0%N) (leases r) -> phase r = Acquiring g todo p n ->
  phase_ok v i r -> answered v n a -> resume p a = Some p' ->
  step_ok v i r (acquire_turn hash r g todo p' (now v) (N.of_nat (List.length (vflights v)))).
Proof.
  intros Hm Hl Hph Hok Ha Hres. unfold phase_ok in Hok. rewrite Hph in Hok.
  destruct Hok as (Hacq & Hnd & Hs & -> & Hr & Hsec). pose proof (manager_owner r Hm) as Ho.
  unfold acquire in Hres. rewrite (manager_store r Hm) in Hres. cbn in Hres.
  apply fmap_Some in Hres as (x & Hx & ->). rewrite <- Ho in Hr, Hsec.
  destruct x as [revision|e]; cbn [acquire_turn];
    [|destruct (bool_decide _); by eapply clean_up_ok].
  pose proof (acquired_ok v i (manager r) g revision n a Hr Hsec Ha Hx) as Hnew.
  set (gd := mkLeaseGuard (group_key g) (mkLeaseFence revision) revision) in *.
  assert (leases (hold r g gd) = leases r ++ [mkLease g gd Acquired 0 false])%list as Hhold by done.
  apply (acquire_groups_ok v i (hold r g gd)); [done|..|done]; rewrite Hhold.
  - destruct Hl as [Hn Hl]. split.
    + rewrite fmap_app. rewrite cons_middle, app_assoc in Hnd. by apply NoDup_app in Hnd as [? _].
    + intros l [Hin| ->%list_elem_of_singleton]%elem_of_app; [by apply Hl|done].
  - apply Forall_app. split; [done|]. by apply Forall_singleton.
  - by rewrite fmap_app, <- app_assoc.
Qed.

(** *** Verification *)

Lemma verify_turn_ok v i r idx l st dl p :
  manager_ok r -> leases_ok v i (manager r) (Some st) (leases r) -> (st <= now v)%N ->
  phase r = VerifyingAll st dl -> leases r !! idx = Some l ->
  secured max_age v (owner_id (manager r)) (key_of l) ->
  renewed_to v i (manager r) l st p ->
  step_ok v i r (verify_turn hash r idx l st dl p (now v) (N.of_nat (List.length (vflights v)))).
Proof.
  intros Hm Hl Hst Hph Hidx Hk Hto. pose proof (manager_owner r Hm) as Ho.
  assert (lease_ok (max_age := max_age) v i (manager r) (Some st) l) as [Hb _].
  { destruct Hl as [_ Hl]. by eapply Hl, list_elem_of_lookup_2. }
  destruct Hto as [[e ->]|[(revision & -> & Hs & Hfr)|(e & n & rest & Hp & Hpe & Hr)]]; cbn [verify_turn].
  - rewrite guard_id, list_insert_id by done.
    replace (r <| leases := leases r |>) with r by (by destruct r). by eapply clean_up_ok.
  - set (ls := <[idx := _]> (leases r)).
    assert (leases_ok v i (manager r) (Some st) ls) as Hls.
    { replace v with (extend v i None) by apply extend_none.
      eapply leases_insert; [done|done|]. split; [|done]. cbn [fst snd]. rewrite extend_none. split.
      - apply base_guard; [done|]. destruct Hfr as (msg & ? & ? & _). by exists msg.
      - by intros st' [= <-]. }
    pose (r' := r <| leases := ls |>). exact (spawn_ok v i r' st Hm Hls Hst).
  - rewrite Hp. cbn [verify_turn]. split; [|split; [done|by intros c [= <-]]].
    cbn [fst snd]. rewrite <- Hp. eapply (verifying_ok _ _ _ st dl); [done|done| |done].
    eapply leases_insert; [done|done|]. split; [|split; [done|by intros c [= <-]; split; [|left]]].
    cbn [fst snd]. split; [by apply base_read|]. intros st' [= <-]. split; [|done].
    right. exists e, n. split; [done|]. apply round_extend; [|done]. by intros _ c [= <-].
Qed.

Lemma verify_start_ok v i r idx l st dl :
  manager_ok r -> leases_ok v i (manager r) (Some st) (leases r) -> (st <= now v)%N ->
  phase r = VerifyingAll st dl -> leases r !! idx = Some l -> stage l = Acquired ->
  step_ok v i r (verify_turn hash r idx l st dl (renew (manager r) (guard l)) (now v)
                   (N.of_nat (List.length (vflights v)))).
Proof.
  intros Hm Hl Hst Hph Hidx Hacq. pose proof (manager_owner r Hm) as Ho.
  assert (lease_ok (max_age := max_age) v i (manager r) (Some st) l) as [Hb Hlane].
  { destruct Hl as [_ Hl]. by eapply Hl, list_elem_of_lookup_2. }
  unfold lease_lane in Hlane. rewrite Hacq in Hlane. destruct Hlane as [Hs Hk]; [done|].
  pose proof Hb as (Hg & _). destruct (renew_await (manager r) l (manager_store r Hm) Hg) as [rest Hp].
  pose proof (renew_call v i (manager r) l Hb) as Hcall.
  rewrite Hp. cbn [verify_turn]. split; [|split; [done|intros c [= <-]; rewrite <- Ho; apply Hcall]].
  cbn [fst snd]. rewrite <- Hp. eapply (verifying_ok _ _ _ st dl); [done|done| |done]. eapply leases_insert; [done|done|].
  split; [|split; [done|by intros c [= <-]]]. cbn [fst snd]. split; [by apply (base_extend v i _ l)|].
  intros st' [= <-]. split; [|done]. by apply (renew_started v i (manager r) l).
Qed.

(** *** Lease tasks *)

Lemma lease_manager v i r idx l : runtime_ok v i r -> leases r !! idx = Some l -> manager_ok r.
Proof. intros (_ & [?|[Hn _]] & _) Hl; [done|]. by rewrite Hn in Hl. Qed.

Lemma lease_of v i r idx l :
  runtime_ok v i r -> leases r !! idx = Some l ->
  lease_ok (max_age := max_age) v i (manager r) (setup (phase r)) l.
Proof. intros (_ & _ & [_ Hl] & _) Hidx. by eapply Hl, list_elem_of_lookup_2. Qed.

Lemma set_lease_ok v i r idx l l' call :
  runtime_ok v i r -> leases r !! idx = Some l -> stage l <> Acquired ->
  turn_ok (max_age := max_age) v i (manager r) (setup (phase r)) l (l', call) ->
  step_ok v i r (r <| leases := <[idx := l']> (leases r) |>, call).
Proof.
  intros Hr Hidx Hst Ht. pose proof (lease_manager _ _ _ _ _ Hr Hidx) as Hm.
  pose proof (manager_owner r Hm) as Ho. pose proof Hr as (_ & _ & Hl & Hph).
  split; [|split; [done|]].
  - cbn [fst snd]. split; [done|]. split; [by left|]. split; [by eapply leases_insert|].
    unfold phase_ok in *. change (phase (r <| leases := ?x |>)) with (phase r).
    destruct (phase r); try done.
    + destruct Hph as [Hn _]. by rewrite Hn in Hidx.
    + destruct Hph as [Hacq _]. rewrite Forall_lookup in Hacq. by destruct Hst; eapply Hacq.
  - intros c Hc. destruct Ht as (_ & _ & Hcall). rewrite <- Ho. by apply Hcall.
Qed.

Lemma lease_wakes_ok v i m su l res :
  store m = true -> lease_ok (max_age := max_age) v i m su l ->
  lease_wakes hash m l (now v) (N.of_nat (List.length (vflights v))) = Some res ->
  turn_ok (max_age := max_age) v i m su l res /\ stage l <> Acquired.
Proof.
  intros Hst [Hb Hl]. unfold lease_wakes, lease_lane in *. destruct (stage l); try done.
  case_match; [|done]. intros [= <-]. destruct Hl as (? & ? & ?). split; [|done].
  by apply start_renewal_ok.
Qed.

Lemma lease_stops_ok v i m su l stopped res :
  store m = true -> lease_ok (max_age := max_age) v i m su l ->
  lease_stops m l stopped (now v) (N.of_nat (List.length (vflights v))) = Some res ->
  turn_ok (max_age := max_age) v i m su l res /\ stage l <> Acquired.
Proof.
  intros Hst [Hb Hl]. unfold lease_stops, lease_lane in *. destruct (stage l); try done.
  destruct stopped; [|done]. intros [= <-]. destruct Hl as (? & ? & ?). split; [|done].
  by apply release_one_ok.
Qed.

Lemma lease_elapses_ok v i m su l res :
  store m = true -> lease_ok (max_age := max_age) v i m su l ->
  lease_elapses m l (now v) (N.of_nat (List.length (vflights v))) = Some res ->
  turn_ok (max_age := max_age) v i m su l res /\ stage l <> Acquired.
Proof.
  intros Hst [Hb Hl]. unfold lease_elapses, lease_lane in *. destruct (stage l); try done;
    (destruct (_ <=? _)%N; [|done]); intros [= <-]; (split; [|done]).
  - by apply release_one_ok.
  - by apply released_ok.
Qed.

Lemma lease_answered_ok v i m su l n a res :
  store m = true -> lease_ok (max_age := max_age) v i m su l ->
  awaited_call l = Some n -> answered v n a ->
  lease_answered hash m l a (now v) (N.of_nat (List.length (vflights v))) = Some res ->
  turn_ok (max_age := max_age) v i m su l res /\ stage l <> Acquired.
Proof.
  intros Hst [Hb Hl] Haw Ha. unfold lease_answered, awaited_call, lease_lane in *.
  destruct (stage l) as [| | | |next st dl p n'|renewal dl p n'|]; try done; injection Haw as ->;
    intros (p' & Hp & ->)%fmap_Some; (split; [|done]).
  - destruct Hl as (Hl & Hk & Hf). apply renewal_turn_ok; [done..|]. by eapply resume_renew.
  - eapply resume_release; [done|done| | |done|done].
    + intros Hok. by destruct renewal.
    + destruct renewal; [|done]. destruct Hl as [[-> _]|He]; [by left|by right].
Qed.

(** *** Cleaning up *)

Lemma cleaning_elapses m l t n l' call :
  cleaning m l -> lease_elapses m l t n = Some (l', call) -> cleaning m l' /\ call = None.
Proof.
  intros [Hg Hc]. unfold lease_elapses. destruct (stage l); try done. case_match; [|done].
  intros [= <- <-]. by split.
Qed.

Lemma cleaning_answered m l a t n l' call :
  store m = true -> cleaning m l -> lease_answered hash m l a t n = Some (l', call) ->
  cleaning m l' /\ forall c, call = Some c -> exists key, c = KvEntry key.
Proof.
  intros Hst [Hg Hc]. unfold lease_answered. destruct (stage l) as [| | | | |renewal dl p n'|]; try done.
  intros (p' & Hp & Hres)%fmap_Some.
  assert (release_prog m (guard l) p' /\ (forall c k, p' = Await c k -> exists key, c = KvEntry key) \/
          exists x, p' = Ret x) as Hp'.
  { destruct Hc as [-> |[e ->]].
    - unfold release in Hp. rewrite Hst in Hp. cbn in Hp. apply fmap_Some in Hp as ([[]|e] & _ & ->);
        [right; by eexists|]. change (prog_map _ _) with (release_failed (guard l) e).
      destruct (release_failed_cases (guard l) e) as [[r Hf]|(rest & Hf & _)]; [right; by eexists|].
      left. split; [right; by exists e|]. rewrite Hf. intros c k [= <- _]. by eexists.
    - destruct (release_failed_cases (guard l) e) as [[r Hf]|(rest & Hf & Hr)]; rewrite Hf in Hp; [done|].
      apply fmap_Some in Hp as (x & _ & ->). destruct (Hr x) as [r ->]. right. by eexists. }
  destruct p' as [r|c k]; cbn [release_turn] in Hres; injection Hres as -> ->; [done|].
  destruct Hp' as [[Hp1 Hp2]|[r Hr]]; [|done]. split; [done|]. intros c' [= <-]. by eapply Hp2.
Qed.

Lemma cleaning_step v i r primary l l' call :
  runtime_ok v i r -> phase r = CleaningUp primary l -> cleaning (manager r) l' ->
  (forall c, call = Some c -> exists key, c = KvEntry key) ->
  step_ok v i r (r <| phase := CleaningUp primary l' |>, call).
Proof.
  intros (Ho & Hm & Hl & Hph) Hphase Hc Hcall.
  assert (manager_ok r) as Hm' by (destruct Hm as [?|[_ [?|[? ?]]]]; [done|congruence..]).
  split; [|split; [done|by intros c [key ->]%Hcall]]. cbn [fst snd].
  split; [done|]. split; [by left|]. split; [|done]. rewrite Hphase in Hl.
  apply (leases_calm v); [|done]. intros l2 _. apply calm_extend. intros _ c [key ->]%Hcall. done.
Qed.

(** *** The steps of a process *)

(** In the phases in which the leases have their tasks, the main task gives some of them up
    at most. *)
Lemma plain_step v i r r' :
  runtime_ok v i r -> manager_ok r -> plain (phase r') = true -> same_process r r' ->
  manager r' = manager r -> sublist (leases r') (leases r) -> step_ok v i r (r', None).
Proof.
  intros (Ho & _ & Hl & _) Hm Hp (Hi & Hs & Hmo) Hman Hsub. split; [|done]. cbn [fst snd].
  rewrite extend_none. apply plain_ok; [|done|].
  - unfold manager_ok. by rewrite Hman, Hi, Hs.
  - rewrite Hman. by eapply leases_unset, leases_sublist.
Qed.

Lemma supervised_step r ev t r' :
  supervised r ev t = Some r' ->
  plain (phase r') = true /\ same_process r r' /\ manager r' = manager r /\
  sublist (leases r') (leases r).
Proof.
  unfold supervised. intros Hs.
  repeat case_match; try done; injection Hs as <-; repeat split; try done; cbn;
    first [apply sublist_delete | by match goal with Hn : leases _ = [] |- _ => rewrite Hn end].
Qed.

Lemma joining_step r j ev t r' :
  joining r j ev t = Some r' ->
  plain (phase r') = true /\ same_process r r' /\ manager r' = manager r /\
  sublist (leases r') (leases r).
Proof.
  unfold joining. intros Hs. destruct ev; try done; repeat (case_match; try done);
    try (apply fmap_Some in Hs as (? & _ & ->)); try (injection Hs as <-); done.
Qed.

Lemma opened_ok v i r get create retry status :
  runtime_ok v i r -> phase r = Opening -> honest max_age (EvOpen get create retry status) = true ->
  step_ok v i r (opened hash r get create retry status (now v) (N.of_nat (List.length (vflights v)))).
Proof.
  intros (Ho & _ & _ & Hph) Hopen Hh. unfold phase_ok in Hph. rewrite Hopen in Hph.
  destruct Hph as [Hn Hs]. unfold opened. destruct (open _ _ _ _ _ _) as [m|e] eqn:Hop.
  - apply open_ok in Hop as (Hm & st & -> & Hage). cbn in Hh. apply N.eqb_eq in Hh.
    pose (r' := r <| manager := m |>).
    assert (manager_ok r') as Hm' by (split; [exact Hm|]; change (ttl m = max_age); lia).
    change (step_ok v i r' (acquire_groups hash r' (for_mode (mode r')) (now v) (N.of_nat (List.length (vflights v))))).
    assert (leases r' = []) as Hn' by exact Hn.
    apply acquire_groups_ok; [done|rewrite Hn'..|]; [|done|apply for_mode_NoDup|by intros g _].
    split; [constructor|]. by intros l Hin%not_elem_of_nil.
  - split; [|done]. cbn [fst snd]. rewrite extend_none. split; [done|].
    split; [right; split; [done|]; right; by eexists|]. split; [|done].
    change (leases_ok v i (manager r) None (leases r)). rewrite Hn. split; [constructor|].
    by intros l Hin%not_elem_of_nil.
Qed.

Lemma main_event_ok v i r ev res :
  runtime_ok v i r -> honest max_age ev = true ->
  main_event hash r ev (now v) (N.of_nat (List.length (vflights v))) = Some res ->
  step_ok v i r res.
Proof.
  intros Hr Hh. unfold main_event. pose proof Hr as (Ho & Hm & Hl & Hph).
  assert (match phase r with Opening | Stopped _ => True | _ => manager_ok r end) as Hmok.
  { destruct Hm as [?|[_ [-> |[o ->]]]]; [by destruct (phase r)|done..]. }
  unfold phase_ok in Hph. destruct (phase r) eqn:Hphase; try done.
  - destruct ev; try done. intros [= <-]. by apply opened_ok.
  - destruct ev; try done.
    + destruct (leases r !! i0) as [l|] eqn:Hidx; [|done]. destruct (stage l) eqn:Hst; try done.
      intros [= <-]. by apply verify_start_ok.
    + destruct (_ <=? _)%N; [|done]. intros [= <-]. by eapply clean_up_ok.
  - destruct ev; try done.
    + intros ([l' call] & Hel & ->)%fmap_Some. destruct (cleaning_elapses _ _ _ _ _ _ Hph Hel) as [? ->].
      by eapply cleaning_step.
    + destruct (is_finished lease); [|done]. intros [= <-]. by eapply clean_up_ok.
  - destruct ev as [| | | | |[] | | | | | | | | | | | | | | | | | | | |]; try done;
      intros [= <-]; apply plain_step; try done. unfold shut_down. cbn. by destruct (leases r).
  - destruct todo as [|name todo]; [done|]. destruct ev; try done. intros [= <-].
    unfold subsystem_started. destruct (context_owner _ _) as [[]|]; [destruct outcome as [[]|]|];
      apply plain_step; try done. by destruct todo.
  - destruct ev as [| | | | | | |[] | | | | | | | | | | | | | | | | | |]; try done;
      intros [= <-]; by apply plain_step.
  - destruct ev as [| | | | | | | |[] | | | | | | | | | | | | | | | | |]; try done;
      intros [= <-]; by apply plain_step.
  - intros (r' & Hs & ->)%fmap_Some. apply supervised_step in Hs as (? & ? & ? & ?). by apply plain_step.
  - intros (r' & Hs & ->)%fmap_Some. apply joining_step in Hs as (? & ? & ? & ?). by apply plain_step.
  - destruct ev; try done. intros [= <-]. apply plain_step; try done.
    unfold shut_down. cbn. by destruct (leases r).
  - destruct ev; try done.
    + destruct (leases r !! i0) as [l|]; [|done]. cbn. destruct (stage l); try done.
      intros [= <-]. apply plain_step; try done; unfold lease_joined; cbn; [|apply sublist_delete].
      by case_match.
    + destruct (_ <=? _)%N; [|done]. intros [= <-]. apply plain_step; try done. apply sublist_nil_l.
  - destruct ev; try done. intros [= <-]. by apply plain_step.
Qed.

Lemma run_event_ok v i r ev res :
  runtime_ok v i r -> honest max_age ev = true ->
  run_event hash r ev (now v) (N.of_nat (List.length (vflights v))) = Some res ->
  step_ok v i r res.
Proof.
  intros Hr Hh.
  assert (forall idx (f : Lease -> option (Lease * option Call)),
    (forall l, leases r !! idx = Some l -> manager_ok r ->
       lease_ok (max_age := max_age) v i (manager r) (setup (phase r)) l -> forall res, f l = Some res ->
       turn_ok (max_age := max_age) v i (manager r) (setup (phase r)) l res /\ stage l <> Acquired) ->
    (leases r !! idx ≫= fun l => set_lease r idx (f l)) = Some res -> step_ok v i r res) as Htask.
  { intros idx f Hf (l & Hidx & Hs)%bind_Some. apply fmap_Some in Hs as ([l' call] & Hres & ->).
    destruct (Hf l Hidx (lease_manager _ _ _ _ _ Hr Hidx) (lease_of _ _ _ _ _ Hr Hidx) _ Hres).
    by eapply set_lease_ok. }
  destruct ev; try (by apply main_event_ok); cbn [run_event].
  - intros (r' & Hs & ->)%fmap_Some. unfold subsystem_ends in Hs.
    assert (exists hs, r' = r <| handles := hs |>) as [hs ->].
    { repeat case_match; try done; injection Hs as <-; by eexists. }
    split; [|done]. cbn [fst snd]. by rewrite extend_none.
  - apply Htask. intros l _ Hm Hok res' Hres. eapply lease_wakes_ok; eauto using manager_store.
  - apply Htask. intros l _ Hm Hok res' Hres. eapply lease_stops_ok; eauto using manager_store.
  - apply Htask. intros l _ Hm Hok res' Hres. eapply lease_elapses_ok; eauto using manager_store.
Qed.

Lemma run_answer_ok v i r target a res :
  runtime_ok v i r -> (forall n, awaited r target = Some n -> answered v n a) ->
  run_answer hash r target a (now v) (N.of_nat (List.length (vflights v))) = Some res ->
  step_ok v i r res.
Proof.
  intros Hr Ha. pose proof Hr as (Ho & Hm & Hl & Hph). unfold run_answer, awaited in *.
  destruct target as [|idx|].
  - destruct (phase r) eqn:Hphase; try done. intros (p' & Hp & ->)%fmap_Some.
    eapply acquire_turn_ok; [|done|done|done|by apply Ha|done].
    destruct Hm as [?|[_ [?|[o ?]]]]; [done|congruence..].
  - intros (l & Hidx & Hres)%bind_Some. rewrite Hidx in Ha. cbn in Ha.
    pose proof (lease_manager _ _ _ _ _ Hr Hidx) as Hmok.
    pose proof (lease_of _ _ _ _ _ Hr Hidx) as Hok.
    assert (set_lease r idx (lease_answered hash (manager r) l a (now v) (N.of_nat (List.length (vflights v)))) = Some res ->
            step_ok v i r res) as Htask.
    { intros ([l' call] & Hans & ->)%fmap_Some.
      destruct (awaited_call l) as [n|] eqn:Haw; [|unfold awaited_call, lease_answered in *; by destruct (stage l)].
      eapply lease_answered_ok in Hans as [Ht Hst]; [|by apply manager_store|done|done|by apply Ha].
      by eapply set_lease_ok. }
    destruct (phase r) eqn:Hphase; try by apply Htask. destruct (stage l) eqn:Hstage; try by apply Htask.
    clear Htask. apply fmap_Some in Hres as (p' & Hp & ->). destruct Hok as [Hb Hlane].
    unfold lease_lane in Hlane. rewrite Hstage in Hlane. destruct (Hlane started eq_refl) as [Hren Hk].
    unfold phase_ok in Hph. rewrite Hphase in Hph. eapply verify_turn_ok; try done.
    eapply resume_renew; [by apply manager_store|done|done| |done]. apply Ha.
    unfold awaited_call. by rewrite Hstage.
  - destruct (phase r) eqn:Hphase; try done. intros ([l' call] & Hans & ->)%fmap_Some.
    assert (manager_ok r) as Hmok by (destruct Hm as [?|[_ [?|[o ?]]]]; [done|congruence..]).
    unfold phase_ok in Hph. rewrite Hphase in Hph.
    destruct (cleaning_answered _ _ _ _ _ _ _ (manager_store r Hmok) Hph Hans) as [? ?].
    by eapply cleaning_step.
Qed.

(** *** Steps of others *)

Lemma runtime_calm v v' i r :
  (forall k, calm (max_age := max_age) v v' i (identity r) k) -> (now v <= now v')%N ->
  runtime_ok v i r -> runtime_ok v' i r.
Proof.
  intros Hc Hn (Ho & Hm & Hl & Hph). split; [done|]. split; [done|]. split.
  - apply (leases_calm v); [|done]. intros l _. by rewrite Ho.
  - unfold phase_ok in *. destruct (phase r) eqn:Hphase; try done; [..|lia].
    + destruct Hph as [? Hs]. split; [done|]. intros g. by apply (calm_silent _ _ _ _ _ (Hc _)).
    + destruct Hph as (? & ? & Hs & ? & Hr & Hsec). split; [done|]. split; [done|]. split; [|split; [done|split]].
      * intros g' Hg'. apply (calm_silent _ _ _ _ _ (Hc _)). by apply Hs.
      * apply (calm_round _ _ _ _ _ (Hc _)); [by right|done].
      * apply (calm_secured _ _ _ _ _ (Hc _)); [|done]. by eapply round_no_delete.
Qed.

(** ** The system *)

Definition view (s : Sys) : View := mkView (clock s) (bucket_state s) (flights s).

Definition sys_ok (s : Sys) : Prop :=
  (forall i j r r', runtimes s !! i = Some r -> runtimes s !! j = Some r' ->
     identity r = identity r' -> i = j) /\
  (forall n f, flights s !! n = Some f ->
     exists r, runtimes s !! from f = Some r /\ flight_ok (view s) (identity r) f) /\
  forall i r, runtimes s !! i = Some r ->
    runtime_ok (view s) i r /\ exists c, resolve c = Ok (settings r).

Lemma initial_ok s : initial s -> sys_ok s.
Proof.
  intros (Hf & Hnew & Hid & Hlog & Hres). split; [done|]. split; [by rewrite Hf|].
  intros i r Hi. split; [|by eapply Hres]. rewrite (Hnew i r Hi). split; [done|].
  split; [right; split; [done|by left]|]. split; [split; [constructor|by intros l ?%not_elem_of_nil]|].
  split; [done|]. intros g. split.
  - intros n (f & Hn & _). cbn in Hn. by rewrite Hf in Hn.
  - intros m (Hin & _ & Hv & _). by destruct (Hlog i r m).
Qed.

Lemma moves_ok s i r next s' :
  sys_ok s -> runtimes s !! i = Some r ->
  (forall res, next = Some res -> step_ok (view s) i r res) -> moves s i next = Some s' -> sys_ok s'.
Proof.
  intros (Hid & Hfl & Hrt) Hi Hnext ([r' call] & Hn & ->)%fmap_Some.
  destruct (Hnext _ Hn) as (Hok & (Hident & Hset & _) & Hcall). cbn [fst snd] in *.
  destruct (Hrt i r Hi) as [_ Hres].
  assert (forall j x, <[i := r']> (runtimes s) !! j = Some x ->
            (j = i /\ x = r') \/ (j <> i /\ runtimes s !! j = Some x)) as Hlook.
  { intros j x Hx. destruct (decide (j = i)) as [->|].
    - rewrite list_lookup_insert_eq in Hx by (by eapply lookup_lt_Some). left. by injection Hx.
    - rewrite list_lookup_insert_ne in Hx by done. by right. }
  assert (forall j x, runtimes s !! j = Some x -> exists x', <[i := r']> (runtimes s) !! j = Some x' /\ identity x' = identity x) as Hback.
  { intros j x Hx. destruct (decide (j = i)) as [->|].
    - exists r'. rewrite list_lookup_insert_eq by (by eapply lookup_lt_Some). split; [done|]. congruence.
    - exists x. by rewrite list_lookup_insert_ne. }
  split; [|split].
  - intros j1 j2 x y [[-> ->]|[Hn1 Hx]]%Hlook [[-> ->]|[Hn2 Hy]]%Hlook Heq; [done|..|by eapply Hid].
    + eapply Hid; [exact Hi|exact Hy|congruence].
    + eapply Hid; [exact Hx|exact Hi|congruence].
  - intros n f Hf. cbn in Hf. apply lookup_app_Some in Hf as [Hf|[_ Hf]].
    + destruct (Hfl n f Hf) as (x & Hx & Hfok). destruct (Hback _ _ Hx) as (x' & Hx' & Hidx).
      exists x'. split; [exact Hx'|]. rewrite Hidx.
      by apply (flight_ok_grows (view s)); [cbn; lia|intros m|].
    + destruct call as [c|]; [|done]. apply list_lookup_singleton_Some in Hf as [_ <-].
      exists r'. split; [cbn; by rewrite list_lookup_insert_eq by (by eapply lookup_lt_Some)|].
      split; [cbn; lia|]. split; [|done]. rewrite Hident. by apply Hcall.
  - intros j x [[-> ->]|[Hne Hx]]%Hlook.
    + split; [exact Hok|]. by rewrite Hset.
    + destruct (Hrt j x Hx) as [Hxok ?]. split; [|done].
      apply (runtime_calm (view s)); [|cbn; lia|done]. intros k.
      apply (calm_extend (view s) i call). by intros ->.
Qed.

Lemma answered_reply s n f :
  (forall n f, flights s !! n = Some f ->
     exists r, runtimes s !! from f = Some r /\ flight_ok (view s) (identity r) f) ->
  flights s !! N.to_nat n = Some f -> answered (view s) n (reply_to f).
Proof.
  intros Hfl Hf c x Hx. right. destruct (Hfl _ _ Hf) as (r & _ & _ & _ & Hans).
  destruct f as [i c' t rep]. unfold reply_to in Hx. cbn in Hx, Hans.
  destruct (decide (c' = c)) as [<-|]; [|done]. split; [by apply Hans|].
  intros j k (f' & Hf' & _ & Hr & _). cbn in Hf'. rewrite Hf in Hf'. injection Hf' as <-. cbn in Hr.
  congruence.
Qed.

Lemma env_ok s s' :
  sys_ok s -> runtimes s' = runtimes s -> (clock s <= clock s')%N ->
  (forall i r k, runtimes s !! i = Some r -> calm (max_age := max_age) (view s) (view s') i (identity r) k) ->
  (forall n f, flights s' !! n = Some f ->
     exists r, runtimes s !! from f = Some r /\ flight_ok (view s') (identity r) f) ->
  sys_ok s'.
Proof.
  intros (Hid & Hfl & Hrt) Hr Hc Hcalm Hf. unfold sys_ok. rewrite Hr. split; [done|]. split; [done|].
  intros i r Hi. destruct (Hrt i r Hi). split; [|done]. apply (runtime_calm (view s)); [|done|done].
  intros k. by apply Hcalm.
Qed.

Lemma exec_sys_ok s ev s' : sys_ok s -> exec_sys hash max_age s ev = Some s' -> sys_ok s'.
Proof.
  intros Hs. pose proof Hs as (Hid & Hfl & Hrt).
  destruct ev as [t|n|key|i ev|i target|i target error]; cbn [exec_sys].
  - destruct (N.ltb_spec (clock s) t); [|done]. intros [= <-]. apply (env_ok s); [done|done|cbn; lia|..].
    + intros i r k _. apply (calm_later (view s)). cbn. lia.
    + intros n f (r & Hr & Hok)%Hfl. exists r. split; [done|].
      by apply (flight_ok_grows (view s)); [cbn; lia|intros m|].
  - intros (f & Hf & Hn)%bind_Some. destruct (reply f) eqn:Hrep; [done|].
    destruct (N.ltb_spec (sent f) (clock s)) as [Hlt|]; [|done].
    destruct (Hfl n f Hf) as (r & Hr & Hok).
    destruct (store_serve (clock s) (called f) (bucket_state s)) as [a b] eqn:Hserve.
    injection Hn as <-. set (s' := _ <| flights := _ |>).
    assert (view s' = serve (view s) n f) as Hview by (unfold serve; cbn; by rewrite Hserve).
    apply (env_ok s); [done|done|cbn; lia|rewrite Hview..].
    + intros i r' k Hi. eapply calm_serve; [done..| |].
      * intros <-. congruence.
      * intros Hne Heq. apply Hne. by eapply Hid.
    + intros n' f' Hf'. destruct (serve_lookup (view s) n f n' Hf) as [[_ He]|[-> He]].
      * assert (flights s !! n' = Some f') as Hold.
        { change (vflights (view s) !! n' = Some f'). rewrite <- He, <- Hview. exact Hf'. }
        destruct (Hfl _ _ Hold) as (r' & ? & ?). exists r'. split; [done|].
        eapply (flight_ok_grows (view s)); [by rewrite serve_now|apply serve_grows|done].
      * rewrite <- Hview in He. change (vflights (view s') !! n = Some f') in Hf'.
        rewrite He in Hf'. apply (inj Some) in Hf' as <-. exists r. split; [done|]. by apply served_ok.
  - intros [= <-]. apply (env_ok s); [done|done|cbn; lia|..].
    + intros i r k _. apply (calm_expire (view s)).
    + intros n f (r & Hr & Hok)%Hfl. exists r. split; [done|].
      apply (flight_ok_grows (view s)); [cbn; lia| |done]. intros m. cbn. by rewrite store_expire_log.
  - intros (r & Hi & Hm)%bind_Some. destruct (honest max_age ev) eqn:Hh; [|done].
    destruct (Hrt i r Hi) as [Hok _]. eapply moves_ok; [done|done| |done].
    intros res Hres. eapply run_event_ok; [done|done|]. exact Hres.
  - intros (r & Hi & Hm)%bind_Some. apply bind_Some in Hm as (n & Hn & Hm).
    apply bind_Some in Hm as (f & Hf & Hm). destruct (Hrt i r Hi) as [Hok _].
    eapply moves_ok; [done|done| |done]. intros res Hres. eapply run_answer_ok; [done| |exact Hres].
    intros n' Hn'. assert (n' = n) as -> by congruence. by apply answered_reply.
  - intros (r & Hi & Hm)%bind_Some. destruct (Hrt i r Hi) as [Hok _].
    assert (moves s i (run_answer hash r target (fun c => Some (Err error)) (clock s) (next_call s)) = Some s')
      as Hm' by (by destruct (kv_kind error)).
    eapply moves_ok; [done|done| |done]. intros res Hres. eapply run_answer_ok; [done| |exact Hres].
    intros n' _ c x [= <-]. left. by eexists.
Qed.

Lemma run_sys_ok s evs s' : sys_ok s -> run_sys hash max_age s evs = Some s' -> sys_ok s'.
Proof.
  revert s. induction evs as [|ev evs IH]; intros s Hs; cbn [run_sys]; [by intros [= <-]|].
  intros (s1 & H1 & H2)%bind_Some. eapply IH; [|done]. by eapply exec_sys_ok.
Qed.

Lemma reachable_ok s : reachable hash max_age s -> sys_ok s.
Proof. intros (s0 & evs & Hi & Hr). eapply run_sys_ok; [|done]. by apply initial_ok. Qed.
End runs.
