(* ===== verification/LeaseSafety.v ===== *)
(** * Runtime leases: one owner at a time

    From the invariant of [LeaseRuns]: a runtime that renews its leases in time holds them,
    so two runtimes do not run the same subsystem; fences separate successive owners; a
    runtime that stops without an error leaves its keys free. *)

From Stdlib Require Import Ascii String.
From S2P Require Import Prelude RustStr Kv LiveDeadlines Leases Ownership LeaseSystem LeaseLanes.
From S2P Require Import LeaseInvariant LeaseRuns.

Local Open Scope string_scope.

(** ** What a process does with its subsystems *)

(** The subsystem [name] runs: its task was started and has not ended. *)
Definition runs (r : Runtime) (name : SubsystemName) : bool :=
  existsb (fun h => bool_decide (sub_name h = name) && bool_decide (sub_end h = None)) (handles r).

(** The lease is renewed, as far as its task knows. *)
Definition active (l : Lease) : bool :=
  match stage l with Sleeping _ | Renewing _ _ _ _ _ => true | _ => false end.

(** A renewal of the lease failed. *)
Definition lease_failed (l : Lease) : bool :=
  match stage l with Releasing (Err _) _ _ _ | Finished (Err _) => true | _ => false end.

(** A renewal failed for the subsystem, or the process stops because one did. *)
Definition lost (r : Runtime) (name : SubsystemName) : bool :=
  match phase r with Joining j => join_abort j | _ => false end
  || existsb (fun l => bool_decide (subsystem (group l) = name) && lease_failed l) (leases r).

Definition overrun (r : Runtime) : bool := existsb overran (leases r).

Section local.
Context (hash : string -> N).
Implicit Types (r : Runtime) (l : Lease) (h : Subsystem).

Definition tasked l : bool := active l || lease_failed l.

(** Every group of the process has a task that renews its lease or failed to. *)
Definition covered r : Prop :=
  forall g, g ∈ for_mode (mode r) -> exists l, l ∈ leases r /\ group l = g /\ tasked l = true.

Definition ended h : Prop := is_Some (sub_end h).

Definition local_ok r : Prop :=
  match phase r with
  | Opening => handles r = [] /\ stop r = false /\ leases r = []
  | Acquiring g todo _ _ =>
      handles r = [] /\ stop r = false /\ ((group <$> leases r) ++ g :: todo)%list = for_mode (mode r)
  | VerifyingAll _ _ => handles r = [] /\ stop r = false /\ group <$> leases r = for_mode (mode r)
  | CleaningUp _ _ => handles r = []
  | Preparing => handles r = [] /\ stop r = false /\ covered r
  | Starting _ | Binding | Bootstrapping | Supervising => stop r = false /\ covered r
  | Joining j =>
      stop r = false /\ (covered r \/ join_abort j = true /\ is_ok (join_primary j) = false) /\
      forall n h, handles r !! n = Some h -> (n < join_index j)%nat -> ended h
  | ClosingProviders o => stop r = false /\ Forall ended (handles r) /\ (covered r \/ is_ok o = false)
  | ShuttingDown _ _ _ | Flushing _ _ | Stopped _ => Forall ended (handles r)
  end.

(** *** Lease tasks *)

Lemma released_tasked m l renewal res :
  is_ok renewal = false -> tasked (released m l renewal res) = true.
Proof. by destruct renewal. Qed.

Lemma release_turn_tasked m l renewal dl p n l' call :
  is_ok renewal = false -> release_turn m l renewal dl p n = (l', call) ->
  tasked l' = true /\ group l' = group l.
Proof.
  intros Hr. unfold release_turn. destruct p; intros [= <- _]; (split; [|done]).
  - by apply released_tasked.
  - by destruct renewal.
Qed.

Lemma renewal_turn_tasked m l next st dl p t n l' call :
  renewal_turn hash m l next st dl p t n = (l', call) -> tasked l' = true /\ group l' = group l.
Proof.
  unfold renewal_turn. destruct p as [[g [[]|e]]|c k]; [by intros [= <- _]|..|by intros [= <- _]].
  intros Hr. by refine (release_turn_tasked _ _ _ _ _ _ _ _ _ Hr).
Qed.

Lemma wakes_tasked m l t n l' call :
  lease_wakes hash m l t n = Some (l', call) -> tasked l' = true /\ group l' = group l.
Proof.
  unfold lease_wakes. destruct (stage l); try done. destruct (_ <=? _)%N; [|done].
  intros [= H]. by eapply renewal_turn_tasked.
Qed.

Lemma tasked_stage l :
  tasked l = true ->
  match stage l with
  | Sleeping _ | Renewing _ _ _ _ _ => True
  | Releasing o _ _ _ | Finished o => is_ok o = false
  | _ => False
  end.
Proof. unfold tasked, active, lease_failed. by destruct (stage l) as [| | | | |[]|[]]. Qed.

Lemma elapses_tasked m l t n l' call :
  tasked l = true -> lease_elapses m l t n = Some (l', call) -> tasked l' = true /\ group l' = group l.
Proof.
  intros Ht%tasked_stage. unfold lease_elapses. destruct (stage l); try done;
    (destruct (_ <=? _)%N; [|done]).
  - intros [= Hr]. by refine (release_turn_tasked _ _ _ _ _ _ _ _ _ Hr).
  - intros [= <- _]. split; [|done]. by apply released_tasked.
Qed.

Lemma answered_tasked m l a t n l' call :
  tasked l = true -> lease_answered hash m l a t n = Some (l', call) ->
  tasked l' = true /\ group l' = group l.
Proof.
  intros Ht%tasked_stage. unfold lease_answered. destruct (stage l); try done;
    intros (p' & _ & Hr)%fmap_Some.
  - by eapply renewal_turn_tasked.
  - by refine (release_turn_tasked _ _ _ _ _ _ _ _ _ (eq_sym Hr)).
Qed.

Lemma covered_insert r idx l l' :
  covered r -> leases r !! idx = Some l -> group l' = group l ->
  (tasked l = true -> tasked l' = true) -> covered (r <| leases := <[idx := l']> (leases r) |>).
Proof.
  intros Hc Hidx Hg Ht g Hin. destruct (Hc g Hin) as (l0 & [j Hj]%list_elem_of_lookup & <- & Ht0).
  destruct (decide (j = idx)) as [->|Hne].
  - assert (l0 = l) as -> by congruence. exists l'. split; [|by split; [|apply Ht]].
    apply list_elem_of_lookup. exists idx. cbn. by rewrite list_lookup_insert_eq by (by eapply lookup_lt_Some).
  - exists l0. split; [|done]. apply list_elem_of_lookup. exists j. cbn.
    by rewrite list_lookup_insert_ne.
Qed.

Lemma fmap_group_insert (ls : list Lease) idx l l' :
  ls !! idx = Some l -> group l' = group l -> group <$> <[idx := l']> ls = group <$> ls.
Proof.
  intros Hidx Hg. rewrite list_fmap_insert, list_insert_id; [done|].
  by rewrite list_lookup_fmap, Hidx, Hg.
Qed.

Lemma set_lease_local r idx l l' :
  local_ok r -> leases r !! idx = Some l -> group l' = group l ->
  (stop r = false -> tasked l = true -> tasked l' = true) ->
  local_ok (r <| leases := <[idx := l']> (leases r) |>).
Proof.
  intros Hr Hidx Hg Ht. unfold local_ok in *. change (phase (r <| leases := ?x |>)) with (phase r).
  assert (stop r = false -> covered r -> covered (r <| leases := <[idx := l']> (leases r) |>)) as Hcov.
  { intros Hs Hc. eapply covered_insert; eauto. }
  pose proof (fmap_group_insert (leases r) idx l l' Hidx Hg) as Hgr.
  destruct (phase r); try done.
  - destruct Hr as (_ & _ & Hn). by rewrite Hn in Hidx.
  - destruct Hr as (? & ? & ?). split; [done|]. split; [done|]. cbn. by rewrite Hgr.
  - destruct Hr as (? & ? & ?). split; [done|]. split; [done|]. cbn. by rewrite Hgr.
  - destruct Hr as (? & ? & ?). split; [done|]. split; [done|]. by apply Hcov.
  - destruct Hr as (? & ?). split; [done|]. by apply Hcov.
  - destruct Hr as (? & ?). split; [done|]. by apply Hcov.
  - destruct Hr as (? & ?). split; [done|]. by apply Hcov.
  - destruct Hr as (? & ?). split; [done|]. by apply Hcov.
  - destruct Hr as (? & [?|?] & ?); (split; [done|]); (split; [|done]); [left; by apply Hcov|by right].
  - destruct Hr as (? & ? & [?|?]); (split; [done|]); (split; [done|]); [left; by apply Hcov|by right].
Qed.

(** *** The main task *)

Lemma clean_up_local r primary t n : handles r = [] -> local_ok (fst (clean_up r primary t n)).
Proof.
  intros Hh. unfold clean_up. destruct (last (leases r)) as [l|].
  - destruct (release_one _ _ _ _ _). done.
  - unfold local_ok. cbn. by rewrite Hh.
Qed.

Lemma spawn_local r st t :
  handles r = [] -> stop r = false -> group <$> leases r = for_mode (mode r) ->
  local_ok (spawn_when_verified hash r st t).
Proof.
  intros Hh Hs Hg. unfold spawn_when_verified. case_match; [|done]. split; [done|]. split; [done|].
  intros g Hin. change (g ∈ for_mode (mode r)) in Hin. rewrite <- Hg in Hin.
  apply list_elem_of_fmap in Hin as (l & -> & Hin). exists (spawn hash (manager r) st t l).
  split; [|done]. by apply list_elem_of_fmap_2.
Qed.

Lemma acquire_groups_local r todo t n :
  handles r = [] -> stop r = false -> ((group <$> leases r) ++ todo)%list = for_mode (mode r) ->
  local_ok (fst (acquire_groups hash r todo t n)).
Proof.
  revert r. induction todo as [|g todo IH]; intros r Hh Hs Hg; cbn [acquire_groups].
  - rewrite app_nil_r in Hg. by apply spawn_local.
  - destruct (acquire _ _) as [[gd|e]|c k]; [|by apply clean_up_local|done].
    apply IH; [done|done|]. unfold hold. cbn. by rewrite fmap_app, <- app_assoc.
Qed.

Lemma acquire_turn_local r g todo p t n :
  handles r = [] -> stop r = false -> ((group <$> leases r) ++ g :: todo)%list = for_mode (mode r) ->
  local_ok (fst (acquire_turn hash r g todo p t n)).
Proof.
  intros Hh Hs Hg. unfold acquire_turn. destruct p as [[gd|e]|c k]; [|by apply clean_up_local|done].
  apply acquire_groups_local; [done|done|]. unfold hold. cbn. by rewrite fmap_app, <- app_assoc.
Qed.

Lemma verify_turn_local r idx l st dl p t n :
  phase r = VerifyingAll st dl -> handles r = [] -> stop r = false ->
  group <$> leases r = for_mode (mode r) -> leases r !! idx = Some l ->
  local_ok (fst (verify_turn hash r idx l st dl p t n)).
Proof.
  intros Hph Hh Hs Hg Hidx. unfold verify_turn. destruct p as [[gd [[]|e]]|c k].
  - apply spawn_local; [done|done|]. cbn. by rewrite (fmap_group_insert _ _ l).
  - by apply clean_up_local.
  - unfold local_ok. cbn. rewrite Hph. split; [done|]. split; [done|]. by rewrite (fmap_group_insert _ _ l).
Qed.

Lemma shut_down_local r o t : Forall ended (handles r) -> local_ok (shut_down r o t).
Proof. intros He. unfold local_ok, shut_down. cbn. by destruct (leases r). Qed.

Lemma finish_shutdown_local r lst sf primary t :
  stop r = false -> (covered r \/ lst = true /\ is_ok primary = false) ->
  local_ok (finish_shutdown r lst sf primary t).
Proof. intros Hs Hc. split; [done|]. split; [done|]. intros n h _ Hn. cbn in Hn. lia. Qed.

Lemma stop_subsystems_local r hs e t :
  stop r = false -> covered r -> local_ok (stop_subsystems r hs e t).
Proof. intros Hs Hc. split; [done|]. split; [by left|]. intros n h _ Hn. cbn in Hn. lia. Qed.

Lemma supervised_local r ev t r' :
  stop r = false -> covered r -> supervised r ev t = Some r' -> local_ok r'.
Proof.
  intros Hs Hc. unfold supervised. intros Hr.
  repeat case_match; try done; injection Hr as <-; apply finish_shutdown_local; try done;
    try (by left); right; (split; [done|]); by cbn.
Qed.

Lemma joining_local r j ev t r' :
  phase r = Joining j -> local_ok r -> joining r j ev t = Some r' -> local_ok r'.
Proof.
  intros Hph Hr. unfold local_ok in Hr. rewrite Hph in Hr. destruct Hr as (Hs & Hc & He).
  unfold joining. destruct ev; try done.
  - destruct (join_http j); [done|]. by intros [= <-].
  - destruct (handles r !! join_index j) as [h|] eqn:Hh; [|done].
    intros (e & Hend & ->)%fmap_Some. split; [done|]. split; [done|]. intros n h' Hn Hlt. cbn in Hlt, Hn.
    destruct (decide (n = join_index j)) as [->|]; [|eapply He; [done|lia]].
    assert (h' = h) as -> by congruence. by exists e.
  - destruct (handles r !! join_index j) as [h|] eqn:Hh; [|done]. case_match; [|done]. intros [= <-].
    split; [done|]. split; [done|]. intros n h' Hn Hlt. cbn in Hn, Hlt.
    rewrite list_lookup_insert_ne in Hn by lia. by eapply He.
  - destruct (handles r !! join_index j) eqn:Hh; [done|]. destruct (join_http j) as [http|]; [|done].
    intros [= <-]. split; [done|]. split.
    + apply Forall_lookup. intros n h Hn. eapply He; [exact Hn|].
      apply lookup_ge_None in Hh. apply lookup_lt_Some in Hn. cbn in Hn. lia.
    + destruct Hc as [?|[_ Hp]]; [by left|right]. unfold join_outcome. by destruct (join_primary j).
Qed.

Lemma ends_ended r idx h e hs :
  handles r !! idx = Some h -> hs = <[idx := h <| sub_end := Some e |>]> (handles r) ->
  forall n h', hs !! n = Some h' -> ended h' \/ handles r !! n = Some h'.
Proof.
  intros Hidx -> n h' Hn. destruct (decide (n = idx)) as [->|].
  - rewrite list_lookup_insert_eq in Hn by (by eapply lookup_lt_Some). injection Hn as <-. left. by exists e.
  - rewrite list_lookup_insert_ne in Hn by done. by right.
Qed.

Lemma subsystem_ends_local r idx e r' : local_ok r -> subsystem_ends r idx e = Some r' -> local_ok r'.
Proof.
  intros Hr He. unfold subsystem_ends in He. destruct (handles r !! idx) as [h|] eqn:Hidx; [|done].
  assert (r' = r <| handles := <[idx := h <| sub_end := Some e |>]> (handles r) |>) as ->.
  { repeat case_match; try done; by injection He as <-. }
  pose proof (ends_ended r idx h e _ Hidx eq_refl) as Hends.
  assert (Forall ended (handles r) -> Forall ended (<[idx := h <| sub_end := Some e |>]> (handles r))) as Hall.
  { intros Ha. apply Forall_lookup. intros n h' [?|Hn]%Hends; [done|]. by eapply Forall_lookup. }
  unfold local_ok in *. change (phase (r <| handles := ?x |>)) with (phase r).
  destruct (phase r); try done; try (by destruct Hr as [Hn _]; rewrite Hn in Hidx).
  - by rewrite Hr in Hidx.
  - destruct Hr as (? & ? & Hj). split; [done|]. split; [done|]. intros n h' Hn Hlt.
    destruct (Hends n h' Hn) as [?|Hn']; [done|]. by eapply Hj.
  - destruct Hr as (? & ? & ?). split; [done|]. split; [by apply Hall|done].
  - by apply Hall.
  - by apply Hall.
  - by apply Hall.
Qed.

Lemma main_event_local r ev t n r' call :
  local_ok r -> main_event hash r ev t n = Some (r', call) -> local_ok r'.
Proof.
  intros Hr. unfold main_event. pose proof Hr as Hr0. unfold local_ok in Hr.
  assert (forall x, Some x = Some (r', call) -> local_ok (fst x) -> local_ok r') as Hfst by (by intros x [= ->]).
  destruct (phase r) eqn:Hph; try done.
  - destruct ev; try done. destruct Hr as (Hh & Hs & Hn). intros He. apply (Hfst _ He).
    unfold opened. destruct (open _ _ _ _ _ _); [|unfold local_ok; cbn; by rewrite Hh].
    apply acquire_groups_local; [done|done|]. cbn. by rewrite Hn.
  - destruct Hr as (Hh & Hs & Hg). destruct ev; try done.
    + destruct (leases r !! i) as [l|] eqn:Hidx; [|done]. destruct (stage l); try done.
      intros He. apply (Hfst _ He). by apply verify_turn_local.
    + destruct (_ <=? _)%N; [|done]. intros He. apply (Hfst _ He). by apply clean_up_local.
  - destruct ev; try done.
    + by intros ([l' c] & _ & [= -> ->])%fmap_Some.
    + destruct (is_finished lease); [|done]. intros He. apply (Hfst _ He). by apply clean_up_local.
  - destruct Hr as (Hh & Hs & Hc).
    destruct ev as [| | | | |[] | | | | | | | | | | | | | | | | | | | |]; try done; intros [= <- _]; [done|].
    apply shut_down_local. by rewrite Hh.
  - destruct Hr as (Hs & Hc). destruct todo as [|name todo]; [done|]. destruct ev; try done. intros [= <- _].
    unfold subsystem_started. destruct (context_owner _ _) as [[]|];
      [destruct outcome as [[]|]|]; try by apply stop_subsystems_local.
    unfold local_ok. cbn. by destruct todo.
  - destruct Hr as (Hs & Hc).
    destruct ev as [| | | | | | |[] | | | | | | | | | | | | | | | | | |]; try done; intros [= <- _]; [done|].
    by apply stop_subsystems_local.
  - destruct Hr as (Hs & Hc).
    destruct ev as [| | | | | | | |[] | | | | | | | | | | | | | | | | |]; try done; intros [= <- _]; [done|..].
    + by apply stop_subsystems_local.
    + apply finish_shutdown_local; [done|by left].
  - destruct Hr as (Hs & Hc). intros (x & Hx & [= -> ->])%fmap_Some. by eapply supervised_local.
  - intros (x & Hx & [= -> ->])%fmap_Some. by eapply joining_local.
  - destruct Hr as (Hs & He & _). destruct ev; try done. intros [= <- _]. by apply shut_down_local.
  - destruct ev; try done.
    + destruct (leases r !! i) as [l|]; [|done]. cbn. destruct (stage l); try done. intros [= <- _].
      unfold local_ok, lease_joined. cbn. by destruct (delete i (leases r)).
    + destruct (_ <=? _)%N; [|done]. by intros [= <- _].
  - destruct ev; try done. by intros [= <- _].
Qed.

Lemma run_event_local r ev t n r' call :
  local_ok r -> run_event hash r ev t n = Some (r', call) -> local_ok r'.
Proof.
  intros Hr. destruct ev; try (by apply main_event_local); cbn [run_event].
  - intros (x & Hx & [= -> ->])%fmap_Some. by eapply subsystem_ends_local.
  - intros (l & Hidx & ([l' c] & Hs & [= -> ->])%fmap_Some)%bind_Some.
    apply wakes_tasked in Hs as [? ?]. by eapply set_lease_local.
  - intros (l & Hidx & ([l' c] & Hs & [= -> ->])%fmap_Some)%bind_Some.
    unfold lease_stops in Hs. destruct (stage l); try done. destruct (stop r) eqn:Hst; [|done].
    assert (group l' = group l) as Hg.
    { injection Hs as Hs. unfold release_one, release_turn in Hs. by destruct (release _ _); injection Hs as <- _. }
    eapply set_lease_local; try done. by rewrite Hst.
  - intros (l & Hidx & ([l' c] & Hs & [= -> ->])%fmap_Some)%bind_Some.
    assert (group l' = group l) as Hg.
    { unfold lease_elapses, release_one, release_turn in Hs. repeat case_match; try done; by injection Hs as <- _. }
    eapply set_lease_local; try done. intros _ Ht. by eapply elapses_tasked in Hs as [? _].
Qed.

Lemma answered_group m l a t n l' call :
  lease_answered hash m l a t n = Some (l', call) -> group l' = group l.
Proof.
  unfold lease_answered. destruct (stage l); try done; intros (p' & _ & Hr)%fmap_Some.
  - by eapply renewal_turn_tasked.
  - unfold release_turn in Hr. by destruct p'; injection Hr as -> _.
Qed.

Lemma run_answer_local r target a t n r' call :
  local_ok r -> run_answer hash r target a t n = Some (r', call) -> local_ok r'.
Proof.
  intros Hr. unfold run_answer. pose proof Hr as Hr0. unfold local_ok in Hr. destruct target as [|idx|].
  - destruct (phase r) eqn:Hph; try done. destruct Hr as (Hh & Hs & Hg).
    intros (p' & _ & He)%fmap_Some. change r' with (fst (r', call)). rewrite He. by apply acquire_turn_local.
  - intros (l & Hidx & He)%bind_Some.
    assert (set_lease r idx (lease_answered hash (manager r) l a t n) = Some (r', call) -> local_ok r') as Htask.
    { intros ([l' c] & Hs & [= -> ->])%fmap_Some. pose proof (answered_group _ _ _ _ _ _ _ Hs).
      eapply set_lease_local; try done. intros _ Ht. by eapply answered_tasked in Hs as [? _]. }
    destruct (phase r) eqn:Hph; try by apply Htask. destruct (stage l); try by apply Htask.
    destruct Hr as (Hh & Hs & Hg). apply fmap_Some in He as (p' & _ & He).
    change r' with (fst (r', call)). rewrite He. by apply verify_turn_local.
  - destruct (phase r) eqn:Hph; try done. by intros ([l' c] & _ & [= -> ->])%fmap_Some.
Qed.

(** *** Which subsystems run *)

Definition named_in (mo : RuntimeMode) (hs : list Subsystem) : Prop :=
  forall h, h ∈ hs -> sub_name h ∈ subsystems mo.

Definition named r : Prop :=
  named_in (mode r) (handles r) /\
  match phase r with Starting todo => forall n, n ∈ todo -> n ∈ subsystems (mode r) | _ => True end.

Lemma named_map mo hs (f : Subsystem -> Subsystem) :
  (forall h, sub_name (f h) = sub_name h) -> named_in mo hs -> named_in mo (f <$> hs).
Proof. intros Hf Hn h (h0 & -> & Hin)%list_elem_of_fmap. rewrite Hf. by apply Hn. Qed.

Lemma named_insert mo hs idx h h' :
  hs !! idx = Some h -> sub_name h' = sub_name h -> named_in mo hs -> named_in mo (<[idx := h']> hs).
Proof.
  intros Hidx Hh Hn x [j Hj]%list_elem_of_lookup. destruct (decide (j = idx)) as [->|].
  - rewrite list_lookup_insert_eq in Hj by (by eapply lookup_lt_Some). injection Hj as <-. rewrite Hh.
    by eapply Hn, list_elem_of_lookup_2.
  - rewrite list_lookup_insert_ne in Hj by done. by eapply Hn, list_elem_of_lookup_2.
Qed.

Lemma named_swap mo hs idx : named_in mo hs -> named_in mo (swap_remove idx hs).
Proof.
  intros Hn h. unfold swap_remove. destruct (last hs) as [x|] eqn:Hl; [|apply Hn].
  intros [j [Hj _]%lookup_take_Some]%list_elem_of_lookup. destruct (decide (j = idx)) as [->|].
  - destruct (decide (idx < List.length hs)%nat) as [?|Hge].
    + rewrite list_lookup_insert_eq in Hj by done. injection Hj as <-. apply Hn.
      apply last_Some in Hl as [ls ->]. apply elem_of_app. right. by left.
    + rewrite list_insert_ge in Hj by lia. by eapply Hn, list_elem_of_lookup_2.
  - rewrite list_lookup_insert_ne in Hj by done. by eapply Hn, list_elem_of_lookup_2.
Qed.

(** Steps that leave the subsystems alone. *)
Definition keeps r r' : Prop :=
  mode r' = mode r /\ handles r' = handles r /\ forall todo, phase r' <> Starting todo.

Lemma keeps_named r r' : keeps r r' -> named r -> named r'.
Proof.
  intros (Hm & Hh & Hp) [Hn _]. unfold named. rewrite Hm, Hh. split; [done|].
  destruct (phase r'); try done. by edestruct Hp.
Qed.

Lemma clean_up_keeps r primary t n : keeps r (fst (clean_up r primary t n)).
Proof. unfold clean_up. destruct (last _); [|done]. by destruct (release_one _ _ _ _ _). Qed.

Lemma spawn_keeps r st t : keeps r (spawn_when_verified hash r st t).
Proof. unfold spawn_when_verified. by case_match. Qed.

Lemma acquire_groups_keeps r todo t n : keeps r (fst (acquire_groups hash r todo t n)).
Proof.
  revert r. induction todo as [|g todo IH]; intros r; cbn [acquire_groups]; [apply spawn_keeps|].
  destruct (acquire _ _) as [[gd|e]|c k]; [|apply clean_up_keeps|done]. apply (IH (hold r g gd)).
Qed.

Lemma verify_turn_keeps r idx l st dl p t n :
  phase r = VerifyingAll st dl -> keeps r (fst (verify_turn hash r idx l st dl p t n)).
Proof.
  intros Hph. unfold verify_turn. destruct p as [[g [[]|e]]|c k]; cbn [fst].
  - match goal with |- keeps _ (spawn_when_verified _ ?x _ _) => apply (spawn_keeps x) end.
  - match goal with |- keeps _ (fst (clean_up ?x _ _ _)) => apply (clean_up_keeps x) end.
  - split; [done|]. split; [done|]. intros todo. cbn. by rewrite Hph.
Qed.

Lemma main_event_named r ev t n r' call :
  named r -> main_event hash r ev t n = Some (r', call) -> named r'.
Proof.
  intros Hn. pose proof Hn as [Hin Hph]. unfold main_event.
  assert (forall x, Some x = Some (r', call) -> keeps r (fst x) -> named r') as Hfst.
  { intros x [= ->] Hk. by eapply keeps_named. }
  assert (forall hs, named_in (mode r) hs -> named_in (mode r) (stop_all hs)) as Hstop by (intros hs; by apply named_map).
  assert (forall b, named_in (mode r) (handles r) ->
            named_in (mode r) (if b : bool then abort_all (stop_all (handles r)) else stop_all (handles r))) as Habort.
  { intros [] ?; [apply named_map; [done|]|]; by apply Hstop. }
  destruct (phase r) eqn:Hphase; try done.
  - destruct ev; try done. intros He. apply (Hfst _ He). unfold opened.
    destruct (open _ _ _ _ _ _) as [m|]; [|done].
    match goal with |- keeps _ (fst (acquire_groups _ ?x _ _ _)) => exact (acquire_groups_keeps x _ _ _) end.
  - destruct ev; try done.
    + destruct (leases r !! i) as [l|]; [|done]. destruct (stage l); try done. intros He. apply (Hfst _ He).
      by apply verify_turn_keeps.
    + destruct (_ <=? _)%N; [|done]. intros He. apply (Hfst _ He). apply clean_up_keeps.
  - destruct ev; try done.
    + by intros ([l' c] & _ & [= -> ->])%fmap_Some.
    + destruct (is_finished lease); [|done]. intros He. apply (Hfst _ He). apply clean_up_keeps.
  - destruct ev as [| | | | |[] | | | | | | | | | | | | | | | | | | | |]; try done; intros He.
    + injection He as <- _. by split; [|cbn].
    + apply (Hfst _ He). unfold shut_down. cbn. split; [done|]. split; [done|]. cbn. by destruct (leases r).
  - destruct todo as [|name todo]; [done|]. destruct ev; try done. intros [= <- _]. unfold subsystem_started.
    destruct (context_owner _ _) as [[]|]; [destruct outcome as [[]|]|].
    + split; [|cbn; destruct todo; [done|]; intros x Hx; apply Hph; by right].
      intros h [Hh| ->%list_elem_of_singleton]%elem_of_app; [by apply Hin|]. cbn. apply Hph. by left.
    + split; [|done]. apply Hstop. intros h Hh. apply Hin. by apply list_elem_of_In, in_rev, list_elem_of_In.
    + split; [|done]. apply Hstop. intros h Hh. apply Hin. by apply list_elem_of_In, in_rev, list_elem_of_In.
  - destruct ev as [| | | | | | |[] | | | | | | | | | | | | | | | | | |]; try done; intros [= <- _]; [done|].
    split; [|done]. by apply Hstop.
  - destruct ev as [| | | | | | | |[] | | | | | | | | | | | | | | | | |]; try done; intros [= <- _]; [done|..];
      (split; [|done]); by apply Hstop.
  - intros (x & Hx & [= -> ->])%fmap_Some. unfold supervised in Hx.
    repeat case_match; try done; injection Hx as <-; (split; [|done]); cbn;
      repeat (apply named_map; [done|]); by try apply named_swap.
  - intros (x & Hx & [= -> ->])%fmap_Some. unfold joining in Hx. destruct ev; try done;
      repeat (case_match; try done); try (apply fmap_Some in Hx as (? & _ & ->)); try (injection Hx as <-);
      (split; [|done]); cbn; try done; by eapply named_insert.
  - destruct ev; try done. intros He. apply (Hfst _ He). unfold shut_down. cbn. split; [done|].
    split; [done|]. cbn. by destruct (leases r).
  - destruct ev; try done.
    + destruct (leases r !! i) as [l|]; [|done]. cbn. destruct (stage l); try done. intros He. apply (Hfst _ He).
      unfold lease_joined. split; [done|]. split; [done|]. cbn. by destruct (delete _ _).
    + destruct (_ <=? _)%N; [|done]. by intros [= <- _].
  - destruct ev; try done. by intros [= <- _].
Qed.

Lemma run_event_named r ev t n r' call :
  named r -> run_event hash r ev t n = Some (r', call) -> named r'.
Proof.
  intros Hn. destruct ev; try (by apply main_event_named); cbn [run_event].
  2-4: by intros (l & Hidx & ([l' c] & Hs & [= -> ->])%fmap_Some)%bind_Some.
  intros (x & Hx & [= -> ->])%fmap_Some. unfold subsystem_ends in Hx.
  destruct (handles r !! i) as [h|] eqn:Hidx; [|done]. destruct Hn as [Hin Hp].
  assert (x = r <| handles := <[i := h <| sub_end := Some e |>]> (handles r) |>) as ->.
  { destruct (sub_end h), e, (sub_abort h); try done; by injection Hx as <-. }
  split; [|exact Hp]. by eapply named_insert.
Qed.

Lemma run_answer_named r target a t n r' call :
  named r -> run_answer hash r target a t n = Some (r', call) -> named r'.
Proof.
  intros Hn. unfold run_answer. destruct target as [|idx|].
  - destruct (phase r) eqn:Hph; try done. intros (p' & _ & He)%fmap_Some. change r' with (fst (r', call)).
    rewrite He. unfold acquire_turn. destruct p' as [[gd|e]|c k]; (eapply keeps_named; [|exact Hn]).
    + exact (acquire_groups_keeps (hold r g gd) _ _ _).
    + apply clean_up_keeps.
    + done.
  - intros (l & Hidx & He)%bind_Some.
    assert (set_lease r idx (lease_answered hash (manager r) l a t n) = Some (r', call) -> named r') as Htask
      by (by intros ([l' c] & Hs & [= -> ->])%fmap_Some).
    destruct (phase r) eqn:Hph; try by apply Htask. destruct (stage l); try by apply Htask.
    apply fmap_Some in He as (p' & _ & He). change r' with (fst (r', call)). rewrite He.
    eapply keeps_named; [by apply verify_turn_keeps|done].
  - destruct (phase r) eqn:Hph; try done. intros ([l' c] & _ & [= -> ->])%fmap_Some. by eapply keeps_named, Hn.
Qed.
End local.

(** ** Time *)

Section timing.
Context (hash : string -> N) `{LeaseStoreLaws}.
Implicit Types (r : Runtime) (l : Lease) (m : LeaseManager).

(** How long after the start of a successful round the next one starts. *)
Definition window m : N := (renew_every m + jitter hash m)%N.

(** A lease that is renewed by the schedule, at the time [t]; [p] is whether no timer was
    late so far. *)
Definition timed (t : N) (p : bool) m l : Prop :=
  match stage l with
  | Sleeping next =>
      (renewed l <= t)%N /\ (next <= renewed l + window m)%N /\
      (p = true -> overran l = false -> (t <= renewed l + window m)%N)
  | Renewing next st dl _ _ =>
      (renewed l <= st)%N /\ (st <= t)%N /\ (next <= st)%N /\ dl = (st + round_timeout hash m)%N /\
      (p = true -> overran l = false -> (st <= renewed l + window m)%N /\ (t <= dl)%N)
  | _ => True
  end.

Definition all_timed (t : N) (p : bool) r : Prop :=
  forall l, l ∈ leases r -> timed t p (manager r) l.

Lemma inactive_timed t p m l : active l = false -> timed t p m l.
Proof. unfold active, timed. by destruct (stage l). Qed.

Lemma release_turn_inactive m l renewal dl p n :
  active (fst (release_turn m l renewal dl p n)) = false.
Proof. by destruct p. Qed.

Lemma renewal_turn_timed t p m l next st dl pr n :
  (st <= t)%N -> (renewed l <= st)%N -> (next <= st)%N -> dl = (st + round_timeout hash m)%N ->
  (p = true -> overran l = false -> (st <= renewed l + window m)%N /\ (t <= dl)%N) ->
  timed t p m (fst (renewal_turn hash m l next st dl pr t n)).
Proof.
  intros Hst Hren Hnext Hdl Hp. unfold renewal_turn. destruct pr as [[g [[]|e]]|c k]; [|..|done].
  - cbn. unfold timed. cbn. split; [done|]. split; [unfold window; lia|].
    intros _ [_ Hl]%orb_false_iff. unfold late_round in Hl. apply N.ltb_ge in Hl. unfold window. lia.
  - apply inactive_timed, release_turn_inactive.
Qed.

Lemma spawn_timed t p m st l : (st <= t)%N -> timed t p m (spawn hash m st t l).
Proof.
  intros Hst. unfold timed. cbn. split; [done|]. unfold first_renewal_deadline, window, jitter.
  split; [lia|]. intros _ Hl. unfold late_round, jitter in Hl. apply N.ltb_ge in Hl. lia.
Qed.

Lemma lease_event_timed t p m l f n l' call :
  timed t p m l ->
  (f = lease_wakes hash m l t n \/ (exists s, f = lease_stops m l s t n) \/ f = lease_elapses m l t n \/
   exists a, f = lease_answered hash m l a t n) ->
  f = Some (l', call) -> timed t p m l'.
Proof.
  intros Ht Hcase Hf. unfold timed in Ht. destruct Hcase as [-> |[[b ->]|[-> |[a ->]]]].
  - unfold lease_wakes in Hf. destruct (stage l) as [| | |next| | |]; try done.
    destruct (N.leb_spec next t); [|done]. apply (inj Some) in Hf.
    change l' with (fst (l', call)). rewrite <- Hf. destruct Ht as (? & ? & Hp).
    apply renewal_turn_timed; [lia|done|done|done|]. intros Hp' Ho. split; [by apply Hp|lia].
  - unfold lease_stops in Hf. destruct (stage l); try done. destruct b; [|done].
    apply (inj Some) in Hf. change l' with (fst (l', call)). rewrite <- Hf.
    apply inactive_timed, release_turn_inactive.
  - unfold lease_elapses in Hf. destruct (stage l); try done; (destruct (_ <=? t)%N; [|done]);
      apply (inj Some) in Hf; change l' with (fst (l', call)); rewrite <- Hf; apply inactive_timed;
      [apply release_turn_inactive|done].
  - unfold lease_answered in Hf. destruct (stage l) as [| | | |next st dl pr n'|o dl pr n'|]; try done;
      apply fmap_Some in Hf as (p' & _ & Hf); change l' with (fst (l', call)); rewrite Hf.
    + destruct Ht as (? & ? & ? & ? & ?). by apply renewal_turn_timed.
    + apply inactive_timed, release_turn_inactive.
Qed.

Lemma set_timed t p r idx l l' :
  all_timed t p r -> leases r !! idx = Some l -> timed t p (manager r) l' ->
  all_timed t p (r <| leases := <[idx := l']> (leases r) |>).
Proof.
  intros Ht Hidx Hl x [j Hj]%list_elem_of_lookup. cbn in Hj. destruct (decide (j = idx)) as [->|].
  - rewrite list_lookup_insert_eq in Hj by (by eapply lookup_lt_Some). by injection Hj as <-.
  - rewrite list_lookup_insert_ne in Hj by done. by eapply Ht, list_elem_of_lookup_2.
Qed.

Lemma clean_up_timed t p r primary n : all_timed t p r -> all_timed t p (fst (clean_up r primary t n)).
Proof.
  intros Ht. unfold clean_up. destruct (last (leases r)) as [l|] eqn:Hl; [|done].
  destruct (release_one _ _ _ _ _). intros x Hx. cbn in Hx. apply Ht.
  apply last_Some in Hl as [ls Hls]. rewrite Hls, removelast_last in Hx. rewrite Hls.
  apply elem_of_app. by left.
Qed.

Lemma spawn_when_timed t p r st :
  (st <= t)%N -> all_timed t p r -> all_timed t p (spawn_when_verified hash r st t).
Proof.
  intros Hst Ht. unfold spawn_when_verified. case_match; [|done]. intros x Hx. cbn in Hx.
  apply list_elem_of_fmap in Hx as (l & -> & _). by apply spawn_timed.
Qed.

Lemma acquire_groups_timed t p r todo n :
  all_timed t p r -> all_timed t p (fst (acquire_groups hash r todo t n)).
Proof.
  revert r. induction todo as [|g todo IH]; intros r Ht; cbn [acquire_groups].
  - by apply spawn_when_timed.
  - destruct (acquire _ _) as [[gd|e]|c k]; [|by apply clean_up_timed|done].
    apply IH. intros x [Hx| ->%list_elem_of_singleton]%elem_of_app; [by apply Ht|done].
Qed.

Lemma verify_turn_timed t p r idx l st dl pr n :
  (st <= t)%N -> all_timed t p r -> leases r !! idx = Some l -> active l = false ->
  all_timed t p (fst (verify_turn hash r idx l st dl pr t n)).
Proof.
  intros Hst Ht Hidx Ha. unfold verify_turn. destruct pr as [[g [[]|e]]|c k].
  - apply spawn_when_timed; [done|]. by eapply set_timed.
  - apply clean_up_timed. eapply set_timed; [done|done|]. by apply inactive_timed.
  - by eapply set_timed.
Qed.

Lemma sublist_timed t p r r' :
  manager r' = manager r -> sublist (leases r') (leases r) -> all_timed t p r -> all_timed t p r'.
Proof. intros Hm Hs Ht l Hl. rewrite Hm. apply Ht. by eapply elem_of_sublist. Qed.

Lemma main_event_timed t p r ev n r' call :
  all_timed t p r -> (forall st dl, phase r = VerifyingAll st dl -> (st <= t)%N) ->
  (phase r = Opening -> leases r = []) ->
  main_event hash r ev t n = Some (r', call) -> all_timed t p r'.
Proof.
  intros Ht Hst Hopen. unfold main_event.
  assert (forall x, Some x = Some (r', call) -> all_timed t p (fst x) -> all_timed t p r') as Hfst by (by intros x [= ->]).
  assert (forall x, manager x = manager r -> sublist (leases x) (leases r) -> Some (x, None) = Some (r', call) ->
            all_timed t p r') as Hsub by (intros x Hm Hs [= <- _]; by eapply sublist_timed).
  destruct (phase r) eqn:Hph; try done.
  - destruct ev; try done. intros He. apply (Hfst _ He). unfold opened.
    specialize (Hopen eq_refl). assert (forall m, all_timed t p (r <| manager := m |>)) as Hm.
    { intros m l Hl. change (l ∈ leases r) in Hl. by rewrite Hopen in Hl; apply not_elem_of_nil in Hl. }
    destruct (open _ _ _ _ _ _); [by apply acquire_groups_timed|done].
  - destruct ev; try done.
    + destruct (leases r !! i) as [l|] eqn:Hidx; [|done]. destruct (stage l) eqn:Hl; try done.
      intros He. apply (Hfst _ He). apply verify_turn_timed; try done; [by eapply Hst|].
      unfold active. by rewrite Hl.
    + destruct (_ <=? _)%N; [|done]. intros He. apply (Hfst _ He). by apply clean_up_timed.
  - destruct ev; try done.
    + by intros ([l' c] & _ & [= -> ->])%fmap_Some.
    + destruct (is_finished lease); [|done]. intros He. apply (Hfst _ He). by apply clean_up_timed.
  - destruct ev as [| | | | |[] | | | | | | | | | | | | | | | | | | | |]; try done; by apply Hsub.
  - destruct todo as [|name todo]; [done|]. destruct ev; try done. apply Hsub;
      unfold subsystem_started; destruct (context_owner _ _) as [[]|]; by try destruct outcome.
  - destruct ev as [| | | | | | |[] | | | | | | | | | | | | | | | | | |]; try done; by apply Hsub.
  - destruct ev as [| | | | | | | |[] | | | | | | | | | | | | | | | | |]; try done; by apply Hsub.
  - intros (x & Hx & [= -> ->])%fmap_Some. apply supervised_step in Hx as (_ & _ & ? & ?). by eapply sublist_timed.
  - intros (x & Hx & [= -> ->])%fmap_Some. apply joining_step in Hx as (_ & _ & ? & ?). by eapply sublist_timed.
  - destruct ev; try done. by apply Hsub.
  - destruct ev; try done.
    + destruct (leases r !! i) as [l|]; [|done]. cbn. destruct (stage l); try done. apply Hsub; [done|].
      apply sublist_delete.
    + destruct (_ <=? _)%N; [|done]. apply Hsub; [done|]. apply sublist_nil_l.
  - destruct ev; try done. by apply Hsub.
Qed.

Lemma run_event_timed t p r ev n r' call :
  all_timed t p r -> (forall st dl, phase r = VerifyingAll st dl -> (st <= t)%N) ->
  (phase r = Opening -> leases r = []) ->
  run_event hash r ev t n = Some (r', call) -> all_timed t p r'.
Proof.
  intros Ht Hst Hopen. destruct ev; try (by apply main_event_timed); cbn [run_event].
  1: { intros (x & Hx & [= -> ->])%fmap_Some. unfold subsystem_ends in Hx.
       repeat case_match; try done; by injection Hx as <-. }
  all: intros (l & Hidx & ([l' c] & Hs & [= -> ->])%fmap_Some)%bind_Some; (eapply set_timed; [done|done|]);
    eapply lease_event_timed; [by eapply Ht, list_elem_of_lookup_2| |exact Hs]; eauto.
Qed.

Lemma run_answer_timed t p r target a n r' call :
  all_timed t p r -> (forall st dl, phase r = VerifyingAll st dl -> (st <= t)%N) ->
  run_answer hash r target a t n = Some (r', call) -> all_timed t p r'.
Proof.
  intros Ht Hst. unfold run_answer. destruct target as [|idx|].
  - destruct (phase r); try done. intros (p' & _ & He)%fmap_Some. change r' with (fst (r', call)).
    rewrite He. unfold acquire_turn. destruct p' as [[gd|e]|c k]; [|by apply clean_up_timed|done].
    apply acquire_groups_timed. intros x [Hx| ->%list_elem_of_singleton]%elem_of_app; [by apply Ht|done].
  - intros (l & Hidx & He)%bind_Some.
    assert (set_lease r idx (lease_answered hash (manager r) l a t n) = Some (r', call) -> all_timed t p r') as Htask.
    { intros ([l' c] & Hs & [= -> ->])%fmap_Some. eapply set_timed; [done|done|].
      eapply lease_event_timed; [by eapply Ht, list_elem_of_lookup_2| |exact Hs]. eauto. }
    destruct (phase r) eqn:Hph; try by apply Htask. destruct (stage l) eqn:Hl; try by apply Htask.
    apply fmap_Some in He as (p' & _ & He). change r' with (fst (r', call)). rewrite He.
    apply verify_turn_timed; try done; [by eapply Hst|]. unfold active. by rewrite Hl.
  - destruct (phase r) eqn:Hph; try done. by intros ([l' c] & _ & [= -> ->])%fmap_Some.
Qed.

Lemma tick_timed t t' p p' m l :
  (t <= t')%N ->
  (p' = true -> p = true /\ forall d, due l = Some d -> (t' <= d)%N) ->
  timed t p m l -> timed t' p' m l.
Proof.
  intros Ht Hp. unfold timed, due in *. destruct (stage l) as [| | |next|next st dl pr n| |]; try done.
  - intros (? & ? & Hw). split; [lia|]. split; [done|]. intros Hp' Ho. destruct (Hp Hp') as [_ Hd].
    specialize (Hd next eq_refl). lia.
  - intros (? & ? & ? & ? & Hw). split; [done|]. split; [lia|]. split; [done|]. split; [done|].
    intros Hp' Ho. destruct (Hp Hp') as [Hpt Hd]. split; [by apply Hw|by apply Hd].
Qed.
End timing.

(** ** Leases that are given up *)

Section giving_up.
Context (hash : string -> N) `{LeaseStoreLaws}.
Implicit Types (i : nat) (v : View) (r : Runtime) (l : Lease).

(** As a process stops without an error, every lease has its task or was released. *)
Definition accounted v i r : Prop :=
  let gone_all := forall g, g ∈ for_mode (mode r) -> gone v i (identity r) (owner_key g) in
  match phase r with
  | ShuttingDown o _ first =>
      is_ok o = true -> first = None -> forall g, g ∈ for_mode (mode r) ->
      (exists l, l ∈ leases r /\ group l = g) \/ gone v i (identity r) (owner_key g)
  | Flushing o rel => leases r = [] /\ (is_ok o = true -> is_ok rel = true -> gone_all)
  | Stopped o => leases r = [] /\ (is_ok o = true -> gone_all)
  | _ => True
  end.

Lemma accounted_gone v v' i r :
  (forall g, (forall l, l ∈ leases r -> group l <> g) ->
     gone v i (identity r) (owner_key g) -> gone v' i (identity r) (owner_key g)) ->
  accounted v i r -> accounted v' i r.
Proof.
  intros Hg. unfold accounted. destruct (phase r); try done.
  - intros Ha Ho Hf g Hin. destruct (Ha Ho Hf g Hin) as [?|Hgone]; [by left|].
    destruct (decide (Exists (fun l => group l = g) (leases r))) as [(l & ? & ?)%Exists_exists|Hn];
      [left; by exists l|right]. apply Hg; [|done]. intros l Hl Heq. apply Hn, Exists_exists. by exists l.
  - intros [Hn Ha]. split; [done|]. intros Ho Hr g Hin. apply Hg; [|by apply Ha].
    rewrite Hn. by intros l ?%not_elem_of_nil.
  - intros [Hn Ha]. split; [done|]. intros Ho g Hin. apply Hg; [|by apply Ha].
    rewrite Hn. by intros l ?%not_elem_of_nil.
Qed.

Lemma accounted_calm v v' i r :
  (forall k, calm (max_age := max_age) v v' i (identity r) k) -> accounted v i r -> accounted v' i r.
Proof. intros Hc. apply accounted_gone. intros g _. apply (calm_gone _ _ _ _ _ (Hc _)). Qed.

Lemma set_lease_accounted v i r idx l l' call :
  accounted v i r -> leases r !! idx = Some l -> group l' = group l ->
  (forall c, call = Some c -> lease_call v (manager r) l c) ->
  accounted (extend v i call) i (r <| leases := <[idx := l']> (leases r) |>).
Proof.
  intros Ha Hidx Hg Hcall. apply (accounted_gone v).
  - intros g Hn. apply gone_extend. destruct call as [c|]; [|by intros _ c].
    assert (unrelated (Some c) i i (key_of (l' <| group := g |>))) as Hu; [|exact Hu].
    eapply lease_call_unrelated; [by apply Hcall|]. cbn. rewrite <- Hg. intros ->.
    apply (Hn l'); [|done]. apply list_elem_of_lookup. exists idx. cbn.
    by rewrite list_lookup_insert_eq by (by eapply lookup_lt_Some).
  - unfold accounted in *. change (phase (r <| leases := ?x |>)) with (phase r).
    destruct (phase r); try done; [|by destruct Ha as [Hn _]; rewrite Hn in Hidx..].
    intros Ho Hf g Hin. destruct (Ha Ho Hf g Hin) as [(l0 & [j Hj]%list_elem_of_lookup & <-)|?]; [left|by right].
    destruct (decide (j = idx)) as [->|].
    + exists l'. split; [|congruence]. apply list_elem_of_lookup. exists idx. cbn.
      by rewrite list_lookup_insert_eq by (by eapply lookup_lt_Some).
    + exists l0. split; [|done]. apply list_elem_of_lookup. exists j. cbn. by rewrite list_lookup_insert_ne.
Qed.

Lemma clean_up_accounted v i r primary t n call :
  accounted (extend v i call) i (fst (clean_up r primary t n)).
Proof.
  unfold clean_up. destruct (last (leases r)) as [l|] eqn:Hl.
  - by destruct (release_one _ _ _ _ _).
  - by apply last_None in Hl.
Qed.

Lemma acquire_groups_accounted v i r todo t n call :
  accounted (extend v i call) i (fst (acquire_groups hash r todo t n)).
Proof.
  revert r. induction todo as [|g todo IH]; intros r; cbn [acquire_groups].
  - unfold spawn_when_verified. by case_match.
  - destruct (acquire _ _) as [[gd|e]|c k]; [apply IH|apply clean_up_accounted|done].
Qed.

Lemma verify_turn_accounted v i r idx l st dl p t n call :
  phase r = VerifyingAll st dl -> accounted (extend v i call) i (fst (verify_turn hash r idx l st dl p t n)).
Proof.
  intros Hph. unfold verify_turn. destruct p as [[g [[]|e]]|c k]; cbn [fst].
  - unfold spawn_when_verified. by case_match.
  - apply clean_up_accounted.
  - unfold accounted. cbn. by rewrite Hph.
Qed.

Lemma shut_down_accounted v i r o t :
  (covered r \/ is_ok o = false) -> accounted v i (shut_down r o t).
Proof.
  intros Hc. unfold accounted, shut_down. cbn. destruct (leases r) as [|l ls] eqn:Hl.
  - split; [done|]. intros Ho _ g Hin. destruct Hc as [Hc|?]; [|congruence].
    destruct (Hc g Hin) as (l & Hin' & _). rewrite Hl in Hin'. by apply not_elem_of_nil in Hin'.
  - intros Ho _ g Hin. left. destruct Hc as [Hc|?]; [|congruence].
    destruct (Hc g Hin) as (l' & Hin' & ? & _). exists l'. by rewrite <- Hl.
Qed.

Lemma lease_joined_accounted v i r idx l o joined dl first :
  runtime_ok (max_age := max_age) v i r -> accounted v i r -> phase r = ShuttingDown o dl first ->
  leases r !! idx = Some l -> stage l = Finished joined ->
  accounted v i (lease_joined r idx o joined dl first).
Proof.
  intros Hr Ha Hph Hidx Hl. unfold accounted in Ha. rewrite Hph in Ha.
  pose proof (lease_of _ _ _ _ _ Hr Hidx) as [_ Hlane]. pose proof Hr as (Ho & _).
  set (first' := match joined with Ok _ => first | Err e => record_error first e end).
  assert (is_ok o = true -> first' = None -> forall g, g ∈ for_mode (mode r) ->
     (exists l, l ∈ delete idx (leases r) /\ group l = g) \/ gone v i (identity r) (owner_key g)) as Hall.
  { intros Hok Hf g Hin. unfold first' in Hf. destruct joined as [[]|e]; [|by destruct first].
    destruct (Ha Hok Hf g Hin) as [(l0 & [j Hj]%list_elem_of_lookup & <-)|?]; [|by right].
    destruct (decide (j = idx)) as [->|Hne].
    - right. assert (l0 = l) as -> by congruence. unfold lease_lane in Hlane. rewrite Hl in Hlane.
      by rewrite <- Ho.
    - left. exists l0. split; [|done]. apply list_elem_of_lookup.
      destruct (decide (j < idx)%nat).
      + exists j. by rewrite list_lookup_delete_lt.
      + exists (pred j). rewrite list_lookup_delete_ge by lia. by replace (S (pred j)) with j by lia. }
  unfold accounted, lease_joined. cbn. fold first'. destruct (delete idx (leases r)) as [|l1 ls] eqn:Hd; [|done].
  split; [done|]. intros Hok Hrel g Hin. assert (first' = None) as Hf by (by destruct first').
  destruct (Hall Hok Hf g Hin) as [(l0 & Hin0 & _)|?]; [by apply not_elem_of_nil in Hin0|done].
Qed.
End giving_up.
