(* ===== verification/LeaseExclusion.v ===== *)
(** * Runtime leases: the theorems

    What holds in every reachable state of runtimes that share a lease bucket. *)

From Stdlib Require Import Ascii String.
From S2P Require Import Prelude RustStr Kv LiveDeadlines Leases Ownership LeaseSystem LeaseLanes.
From S2P Require Import LeaseInvariant LeaseRuns LeaseSafety.

Local Open Scope string_scope.

Section exclusion.
Context (hash : string -> N) `{LeaseStoreLaws}.
Implicit Types (i : nat) (v : View) (r : Runtime) (l : Lease) (s : Sys).

(** ** Every run *)

Lemma main_event_accounted v i r ev r' call :
  runtime_ok (max_age := max_age) v i r -> local_ok r -> accounted v i r ->
  main_event hash r ev (now v) (N.of_nat (List.length (vflights v))) = Some (r', call) ->
  accounted (extend v i call) i r'.
Proof.
  intros Hr Hloc Ha. unfold main_event.
  assert (forall x, Some x = Some (r', call) -> accounted (extend v i call) i (fst x) ->
            accounted (extend v i call) i r') as Hfst by (by intros x [= ->]).
  assert (forall x, Some (x, None) = Some (r', call) -> accounted v i x -> accounted (extend v i call) i r') as Hnone
    by (intros x [= <- <-]; by rewrite extend_none).
  unfold local_ok in Hloc. pose proof Ha as Ha0. unfold accounted in Ha.
  destruct (phase r) eqn:Hph; try done.
  - destruct ev; try done. intros He. apply (Hfst _ He). unfold opened.
    destruct (open _ _ _ _ _ _); [apply acquire_groups_accounted|]. by destruct Hloc as (_ & _ & ?).
  - destruct ev; try done.
    + destruct (leases r !! i0) as [l|]; [|done]. destruct (stage l); try done. intros He. apply (Hfst _ He).
      by apply verify_turn_accounted.
    + destruct (_ <=? _)%N; [|done]. intros He. apply (Hfst _ He). apply clean_up_accounted.
  - destruct ev; try done.
    + by intros ([l' c] & _ & [= -> ->])%fmap_Some.
    + destruct (is_finished lease); [|done]. intros He. apply (Hfst _ He). apply clean_up_accounted.
  - destruct ev as [| | | | |[] | | | | | | | | | | | | | | | | | | | |]; try done; intros He;
      apply (Hnone _ He); [done|]. apply shut_down_accounted. by right.
  - destruct todo as [|name todo]; [done|]. destruct ev; try done. intros He. apply (Hnone _ He).
    unfold subsystem_started. destruct (context_owner _ _) as [[]|]; [destruct outcome|]; try done.
    unfold accounted. cbn. by destruct todo.
  - destruct ev as [| | | | | | |[] | | | | | | | | | | | | | | | | | |]; try done; intros He; by apply (Hnone _ He).
  - destruct ev as [| | | | | | | |[] | | | | | | | | | | | | | | | | |]; try done; intros He; by apply (Hnone _ He).
  - intros (x & Hx & [= -> ->])%fmap_Some. unfold supervised in Hx.
    repeat case_match; try done; by injection Hx as <-.
  - intros (x & Hx & [= -> ->])%fmap_Some. unfold joining in Hx. destruct ev; try done;
      repeat (case_match; try done); try (apply fmap_Some in Hx as (? & _ & ->)); try (injection Hx as <-); done.
  - destruct ev; try done. intros He. apply (Hnone _ He). apply shut_down_accounted.
    destruct Hloc as (_ & _ & [?|Ho]); [by left|right]. by destruct outcome.
  - destruct ev; try done.
    + destruct (leases r !! i0) as [l|] eqn:Hidx; [|done]. cbn. destruct (stage l) eqn:Hl; try done.
      intros He. apply (Hnone _ He). by eapply lease_joined_accounted.
    + destruct (_ <=? _)%N; [|done]. intros He. apply (Hnone _ He). split; [done|]. intros _. by destruct first.
  - destruct ev; try done. intros He. apply (Hnone _ He). destruct Ha as [Hn Ha]. split; [done|].
    cbn. destruct outcome, release, outcome0; naive_solver.
Qed.

Lemma run_event_accounted v i r ev r' call :
  runtime_ok (max_age := max_age) v i r -> local_ok r -> accounted v i r ->
  run_event hash r ev (now v) (N.of_nat (List.length (vflights v))) = Some (r', call) ->
  accounted (extend v i call) i r'.
Proof.
  intros Hr Hloc Ha. destruct ev; try (by apply main_event_accounted); cbn [run_event].
  1: { intros (x & Hx & [= -> ->])%fmap_Some. rewrite extend_none. unfold subsystem_ends in Hx.
       repeat case_match; try done; by injection Hx as <-. }
  all: intros (l & Hidx & ([l' c] & Hs & [= -> ->])%fmap_Some)%bind_Some;
    assert (store (manager r) = true) as Hst by (by eapply manager_store, lease_manager);
    assert (lease_ok (max_age := max_age) v i (manager r) (setup (phase r)) l) as Hok by (by eapply lease_of).
  - eapply lease_wakes_ok in Hs as [(_ & Hg & Hc) _]; [|done..]. by eapply set_lease_accounted.
  - eapply lease_stops_ok in Hs as [(_ & Hg & Hc) _]; [|done..]. by eapply set_lease_accounted.
  - eapply lease_elapses_ok in Hs as [(_ & Hg & Hc) _]; [|done..]. by eapply set_lease_accounted.
Qed.

Lemma run_answer_accounted v i r target a r' call :
  runtime_ok (max_age := max_age) v i r -> accounted v i r ->
  (forall n, awaited r target = Some n -> answered v n a) ->
  run_answer hash r target a (now v) (N.of_nat (List.length (vflights v))) = Some (r', call) ->
  accounted (extend v i call) i r'.
Proof.
  intros Hr Ha Hans. unfold run_answer, awaited in *. destruct target as [|idx|].
  - destruct (phase r); try done. intros (p' & _ & He)%fmap_Some. change r' with (fst (r', call)).
    rewrite He. unfold acquire_turn.
    destruct p' as [[gd|e]|c k]; [apply acquire_groups_accounted|apply clean_up_accounted|done].
  - intros (l & Hidx & He)%bind_Some. rewrite Hidx in Hans. cbn in Hans.
    assert (set_lease r idx (lease_answered hash (manager r) l a (now v) (N.of_nat (List.length (vflights v)))) =
              Some (r', call) -> accounted (extend v i call) i r') as Htask.
    { intros ([l' c] & Hs & [= -> ->])%fmap_Some.
      destruct (awaited_call l) as [n|] eqn:Haw; [|unfold awaited_call, lease_answered in *; by destruct (stage l)].
      eapply lease_answered_ok in Hs as [(_ & Hg & Hc) _]; [|by eapply manager_store, lease_manager|
        by eapply lease_of|done|by apply Hans]. by eapply set_lease_accounted. }
    destruct (phase r) eqn:Hph; try by apply Htask. destruct (stage l); try by apply Htask.
    apply fmap_Some in He as (p' & _ & He). change r' with (fst (r', call)). rewrite He.
    by apply verify_turn_accounted.
  - destruct (phase r) eqn:Hph; try done. by intros ([l' c] & _ & [= -> ->])%fmap_Some.
Qed.

(** What every process keeps, beside its leases. *)
Definition process_ok s i r : Prop :=
  (local_ok r /\ named r) /\ all_timed hash (clock s) (punctual s) r /\ accounted (view s) i r.

Definition safe s : Prop :=
  sys_ok (max_age := max_age) s /\ forall i r, runtimes s !! i = Some r -> process_ok s i r.

Lemma initial_safe s : initial s -> safe s.
Proof.
  intros Hi. split; [by apply initial_ok|]. destruct Hi as (_ & Hnew & _). intros i r Hr.
  rewrite (Hnew i r Hr). split; [split; [done|]; split; [by intros h ?%not_elem_of_nil|done]|].
  split; [|done]. by intros l ?%not_elem_of_nil.
Qed.

(** What the step of one process does to it. *)
Lemma moves_safe s i r next s' :
  safe s -> runtimes s !! i = Some r -> sys_ok (max_age := max_age) s' -> moves s i next = Some s' ->
  (forall x call, next = Some (x, call) ->
     (local_ok x /\ named x) /\ all_timed hash (clock s) (punctual s) x /\
     accounted (extend (view s) i call) i x) ->
  safe s'.
Proof.
  intros [_ Hp] Hi Hs' ([x call] & Hn & ->)%fmap_Some Hx. split; [done|]. intros j y Hy.
  cbn in Hy. destruct (decide (j = i)) as [->|Hne].
  - rewrite list_lookup_insert_eq in Hy by (by eapply lookup_lt_Some). injection Hy as <-. by apply Hx.
  - rewrite list_lookup_insert_ne in Hy by done. destruct (Hp j y Hy) as (? & ? & Ha).
    split; [done|]. split; [done|]. eapply (accounted_calm (max_age := max_age) (view s)); [|done].
    intros k. apply (calm_extend (view s) i call). by intros ->.
Qed.

Lemma exec_safe s ev s' : safe s -> exec_sys hash max_age s ev = Some s' -> safe s'.
Proof.
  intros Hs He. pose proof Hs as [Hok Hp]. pose proof (exec_sys_ok hash s ev s' Hok He) as Hok'.
  pose proof Hok as (Hid & Hfl & Hrt).
  assert (forall i r, runtimes s !! i = Some r ->
            (forall st dl, phase r = VerifyingAll st dl -> (st <= clock s)%N) /\
            (phase r = Opening -> leases r = [])) as Hphase.
  { intros i r Hi. destruct (Hrt i r Hi) as [(_ & _ & _ & Hph) _]. unfold phase_ok in Hph.
    split; [intros st dl Heq|intros Heq]; rewrite Heq in Hph; [exact Hph|]. by destruct Hph. }
  destruct ev as [t|n|key|i ev|i target|i target error]; cbn [exec_sys] in He.
  - destruct (N.ltb_spec (clock s) t); [|done]. injection He as <-. split; [done|]. intros i r Hi.
    destruct (Hp i r Hi) as (? & Ht & Ha). split; [done|]. split.
    + intros l Hl. eapply (tick_timed hash (clock s)); [cbn; lia| |by apply Ht]. cbn.
      intros [Hpu Hall]%andb_true_iff. split; [done|]. intros d Hd. rewrite forallb_forall in Hall.
      specialize (Hall r ltac:(by eapply list_elem_of_In, list_elem_of_lookup_2)).
      unfold in_time in Hall. rewrite forallb_forall in Hall. apply list_elem_of_In, Hall in Hl.
      rewrite Hd in Hl. by apply N.leb_le.
    + eapply (accounted_calm (max_age := max_age) (view s)); [|done]. intros k.
      apply (calm_later (view s)). cbn. lia.
  - apply bind_Some in He as (f & Hf & Hn). destruct (reply f) eqn:Hrep; [done|].
    destruct (N.ltb_spec (sent f) (clock s)) as [Hlt|]; [|done].
    destruct (Hfl n f Hf) as (rf & Hrf & Hfok).
    destruct (store_serve (clock s) (called f) (bucket_state s)) as [a b] eqn:Hserve.
    injection Hn as <-. split; [done|]. intros i r Hi. change (runtimes s !! i = Some r) in Hi.
    destruct (Hp i r Hi) as (? & ? & Ha).
    split; [done|]. split; [done|].
    assert (view (s <| bucket_state := b |> <| flights := <[n := with_reply f a]> (flights s) |>) =
            serve (view s) n f) as -> by (unfold serve; cbn; by rewrite Hserve).
    eapply (accounted_calm (max_age := max_age) (view s)); [|done]. intros k.
    eapply calm_serve; [done..| |].
    + intros <-. congruence.
    + intros Hne Heq. apply Hne. by eapply Hid.
  - injection He as <-. split; [done|]. intros i r Hi. destruct (Hp i r Hi) as (? & ? & Ha).
    split; [done|]. split; [done|]. eapply (accounted_calm (max_age := max_age) (view s)); [|done].
    intros k. apply (calm_expire (view s)).
  - apply bind_Some in He as (r & Hi & Hm). destruct (honest max_age ev); [|done].
    destruct (Hp i r Hi) as ([Hl Hnm] & Ht & Ha). destruct (Hphase i r Hi) as [? ?]. destruct (Hrt i r Hi) as [Hr _].
    eapply moves_safe; [done|done|done|done|]. intros x call Hx. split; [split; [by eapply run_event_local|by eapply run_event_named]|].
    split; [by eapply run_event_timed|]. by eapply (run_event_accounted (view s)).
  - apply bind_Some in He as (r & Hi & Hm). apply bind_Some in Hm as (n & Hn & Hm).
    apply bind_Some in Hm as (f & Hf & Hm).
    destruct (Hp i r Hi) as ([Hl Hnm] & Ht & Ha). destruct (Hphase i r Hi) as [? ?]. destruct (Hrt i r Hi) as [Hr _].
    eapply moves_safe; [done|done|done|done|]. intros x call Hx. split; [split; [by eapply run_answer_local|by eapply run_answer_named]|].
    split; [by eapply run_answer_timed|]. eapply (run_answer_accounted (view s)); [done|done| |exact Hx].
    intros n' Hn'. assert (n' = n) as -> by congruence. by apply answered_reply.
  - apply bind_Some in He as (r & Hi & Hm).
    destruct (Hp i r Hi) as ([Hl Hnm] & Ht & Ha). destruct (Hphase i r Hi) as [? ?]. destruct (Hrt i r Hi) as [Hr _].
    assert (moves s i (run_answer hash r target (fun c => Some (Err error)) (clock s) (next_call s)) = Some s')
      as Hm' by (by destruct (kv_kind error)).
    eapply moves_safe; [done|done|done|done|]. intros x call Hx. split; [split; [by eapply run_answer_local|by eapply run_answer_named]|].
    split; [by eapply run_answer_timed|]. eapply (run_answer_accounted (view s)); [done|done| |exact Hx].
    intros n' _ c y [= <-]. left. by eexists.
Qed.

Lemma reachable_safe s : reachable hash max_age s -> safe s.
Proof.
  intros (s0 & evs & Hi & Hr). apply initial_safe in Hi. revert s0 Hi Hr.
  induction evs as [|ev evs IH]; intros s0 Hs; cbn [run_sys]; [by intros [= <-]|].
  intros (s1 & H1 & H2)%bind_Some. eapply IH; [|done]. by eapply exec_safe.
Qed.

(** ** Holding a lease *)

Lemma latest_own b o k (base : N) :
  (exists m, own b o k m /\ (base < msg_revision m)%N) \/
  forall m, own b o k m -> (msg_revision m <= base)%N.
Proof.
  destruct (decide (Exists (fun m => (msg_key m = k /\ msg_value m = o /\ msg_op m = Put) /\
                                      (base < msg_revision m)%N) (store_log b)))
    as [(m & Hin & Hm & Hlt)%Exists_exists|Hn].
  - left. exists m. by split; [split|].
  - right. intros m [Hin Hm]. destruct (N.le_gt_cases (msg_revision m) base) as [|Hgt]; [done|].
    destruct Hn. apply Exists_exists. by exists m.
Qed.

(** An active lease whose last successful round started no longer ago than [max_age]. *)
Lemma active_held s i r l :
  safe s -> runtimes s !! i = Some r -> l ∈ leases r -> active l = true ->
  (clock s <= renewed l + ttl (manager r))%N ->
  exists m, store_at (bucket_state s) (key_of l) = Some m /\
    own (bucket_state s) (identity r) (key_of l) m.
Proof.
  intros [(_ & _ & Hrt) Hp] Hi Hl Ha Hage. destruct (Hrt i r Hi) as [Hr _].
  destruct (Hp i r Hi) as (_ & Ht & _). specialize (Ht l Hl).
  apply list_elem_of_lookup in Hl as [idx Hidx]. pose proof (lease_manager _ _ _ _ _ Hr Hidx) as [_ Httl].
  pose proof (lease_of _ _ _ _ _ Hr Hidx) as [_ Hlane]. pose proof Hr as (Ho & _).
  unfold active, timed, lease_lane in *. rewrite Ho in Hlane. rewrite Httl in Hage.
  destruct (stage l) as [| | |next|next st dl p n| |]; try done.
  - destruct Hlane as ([_ Hs] & Hk & (m & Hm & Hrev & Hfr)). exists m. split; [|done].
    apply Hk; [done| |cbn; lia]. intros m' Hm'. rewrite Hrev. by apply Hs.
  - destruct Hlane as (Hround & Hk & (m & Hm & Hrev & Hfr)). destruct Ht as (Hst & _).
    assert (exists n', renewal_round (view s) i (manager r) l st n') as [n' Hr'].
    { destruct Hround as [[_ ?]|(e & n' & _ & ?)]; by eexists. }
    unfold renewal_round in Hr'. rewrite Ho in Hr'.
    destruct (latest_own (bucket_state s) (identity r) (key_of l) (revision_of l)) as [(m' & Hm' & Hlt)|Hle].
    + destruct (round_done _ _ _ _ _ _ _ _ _ Hr' Hm' Hlt) as [[_ Hs] Hfr']. exists m'. split; [|done].
      apply Hk; [done|done|cbn; lia].
    + exists m. split; [|done]. apply Hk; [done| |cbn; lia]. intros m' Hm'. rewrite Hrev. by apply Hle.
Qed.

(** An active lease is renewed or given up before it ends. *)
Lemma active_in_time s i r l :
  safe s -> punctual s = true -> runtimes s !! i = Some r -> l ∈ leases r -> active l = true ->
  overran l = false -> (clock s <= renewed l + ttl (manager r))%N.
Proof.
  intros [(_ & _ & Hrt) Hp] Hpu Hi Hl Ha Hov. destruct (Hrt i r Hi) as [Hr [c Hc]].
  destruct (Hp i r Hi) as (_ & Ht & _). specialize (Ht l Hl).
  apply list_elem_of_lookup in Hl as [idx Hidx]. pose proof (lease_manager _ _ _ _ _ Hr Hidx) as [Hm _].
  apply resolve_ok in Hc as [Hpos Hthird].
  assert (renew_every (manager r) + millis 1 <= ttl (manager r))%N as Hfit.
  { rewrite Hm. change (millis (res_renew_ms (settings r)) + millis 1 <= millis (res_ttl_ms (settings r)))%N.
    unfold millis. lia. }
  destruct (round_ends_with_lease hash (owner_id (manager r)) _ _ Hfit) as [Hsum _].
  fold (jitter hash (manager r)) in Hsum. fold (round_timeout hash (manager r)) in Hsum.
  unfold active, timed, window in *. destruct (stage l) as [| | |next|next st dl p n| |]; try done.
  - destruct Ht as (_ & _ & Hw). specialize (Hw Hpu Hov). lia.
  - destruct Ht as (_ & _ & _ & Hdl & Hw). specialize (Hw Hpu Hov). lia.
Qed.

(** A subsystem that runs has a lease task, unless the renewal failed. *)
Lemma running_covered r name :
  local_ok r -> runs r name = true -> lost r name = false -> covered r.
Proof.
  intros Hloc Hruns [Hj _]%orb_false_iff.
  apply existsb_exists in Hruns as (h & Hin%list_elem_of_In & [_ He%bool_decide_eq_true]%andb_true_iff).
  assert (Forall ended (handles r) -> False) as Hend.
  { rewrite Forall_forall. intros Hall. destruct (Hall h Hin) as [e He']. congruence. }
  assert (handles r = [] -> False) as Hnil by (intros Hn; rewrite Hn in Hin; by apply not_elem_of_nil in Hin).
  unfold local_ok in Hloc. destruct (phase r); try (by destruct Hnil; apply Hloc); try (by destruct Hend);
    try apply Hloc; try (by destruct Hnil).
  - destruct Hloc as (_ & [?|[Hab _]] & _); [done|congruence].
  - by destruct Hend; apply Hloc.
Qed.

Lemma running_active r name :
  local_ok r -> named r -> runs r name = true -> lost r name = false ->
  exists l, l ∈ leases r /\ group l = needed_owner name /\ active l = true.
Proof.
  intros Hloc [Hnm _] Hruns Hlost. pose proof (running_covered r name Hloc Hruns Hlost) as Hc.
  apply existsb_exists in Hruns as (h & Hin%list_elem_of_In & [Hn%bool_decide_eq_true _]%andb_true_iff).
  assert (needed_owner name ∈ for_mode (mode r)) as Hg.
  { apply Hnm in Hin. rewrite Hn in Hin. destruct (mode r), name; cbn in Hin |- *; set_solver. }
  destruct (Hc _ Hg) as (l & Hl & Hgl & Ht). exists l. split; [done|]. split; [done|].
  unfold tasked in Ht. apply orb_true_iff in Ht as [?|Hf]; [done|].
  apply orb_false_iff in Hlost as [_ Hlost]. exfalso.
  assert (existsb (fun l => bool_decide (subsystem (group l) = name) && lease_failed l) (leases r) = true) as Hx;
    [|congruence].
  apply existsb_exists. exists l. split; [by apply list_elem_of_In|]. rewrite Hf, andb_true_r, Hgl.
  apply bool_decide_eq_true. by destruct name.
Qed.

(** ** The theorems *)

(** C18: A lease whose renewal task is at work (it waits for its next round or is in one; it has
    not failed, and the lease is not being released) is held: as long as its last successful
    round of renewal started no longer ago than the lease lasts, the key holds the identity of
    the runtime, whatever the other runtimes do and however late calls take effect. *)
Theorem renewed_lease_held s i r l :
  reachable hash max_age s -> runtimes s !! i = Some r -> l ∈ leases r -> active l = true ->
  (clock s <= renewed l + ttl (manager r))%N ->
  exists m, store_at (bucket_state s) (owner_key (group l)) = Some m /\
    msg_value m = identity r /\ msg_op m = Put.
Proof.
  intros Hs%reachable_safe Hi Hl Ha Hage.
  destruct (active_held s i r l Hs Hi Hl Ha Hage) as (m & ? & _ & _ & ?). by exists m.
Qed.

(** C5: Two runtimes do not run the same subsystem, as long as no timer of a lease task is late
    and no round of renewal lasts into the time of the next, unless the renewal of one of
    them has failed. *)
Theorem singleton_subsystems s i j ri rj name :
  reachable hash max_age s -> punctual s = true ->
  runtimes s !! i = Some ri -> runtimes s !! j = Some rj -> i <> j ->
  overrun ri = false -> overrun rj = false ->
  runs ri name = true -> runs rj name = true ->
  lost ri name || lost rj name = true.
Proof.
  intros Hs%reachable_safe Hpu Hi Hj Hne Hoi Hoj Hri Hrj. pose proof Hs as [(Hid & _) Hp].
  assert (forall k r, runtimes s !! k = Some r -> overrun r = false -> runs r name = true -> lost r name = false ->
            exists m, store_at (bucket_state s) (owner_key (needed_owner name)) = Some m /\ msg_value m = identity r)
    as Hheld.
  { intros k r Hk Ho Hr Hlost. destruct (Hp k r Hk) as ([Hloc Hnm] & _).
    destruct (running_active r name Hloc Hnm Hr Hlost) as (l & Hl & Hg & Ha).
    assert (overran l = false) as Hov.
    { destruct (overran l) eqn:Ho'; [|done]. unfold overrun in Ho. rewrite <- Ho. symmetry.
      apply existsb_exists. exists l. split; [by apply list_elem_of_In|done]. }
    pose proof (active_in_time s k r l Hs Hpu Hk Hl Ha Hov) as Hage.
    destruct (active_held s k r l Hs Hk Hl Ha Hage) as (m & Hat & _ & _ & Hv & _).
    exists m. split; [|done]. rewrite <- Hg. exact Hat. }
  destruct (lost ri name) eqn:Hli; [done|]. destruct (lost rj name) eqn:Hlj; [done|]. exfalso.
  destruct (Hheld i ri Hi Hoi Hri Hli) as (m & Hm & Hv).
  destruct (Hheld j rj Hj Hoj Hrj Hlj) as (m' & Hm' & Hv').
  apply Hne. eapply Hid; [done|done|congruence].
Qed.

(** A write that expects a revision older than the last of its key is refused. *)
Lemma overtaken_refused b k c revision mj t :
  mj ∈ store_log b -> msg_key mj = k -> (0 < revision < msg_revision mj)%N ->
  (exists value, c = KvUpdate k value revision) \/ c = KvDelete k revision ->
  unchanged b (snd (store_serve t c b)).
Proof.
  intros Hin Hk Hrev Hc. pose proof (store_serve_spec t c b) as Hs.
  destruct (store_serve t c b) as [a b']. cbn in Hs |- *.
  assert (~ expected revision (store_at b k)) as Hno.
  { unfold expected. destruct (store_at b k) as [m|] eqn:Hm; [|lia]. intros Heq.
    destruct (store_at_last _ _ _ Hm) as (_ & _ & Hlast). specialize (Hlast mj Hin Hk). lia. }
  destruct Hc as [[value ->]| ->]; cbn in Hs; destruct a; [by destruct Hs|done|by destruct Hs|done].
Qed.

(** C30: Fences separate owners.  The fence of a lease is the number of a write of its owner to
    the key.  Once another runtime has written the key after the fence of a lease, everything
    the first owner has written to the key is before that write; and the first owner's calls
    that are still on their way, its renewals and the deletion of a release, change nothing
    whenever they are served. *)
Theorem fences_separate_owners s i j ri rj li :
  reachable hash max_age s ->
  runtimes s !! i = Some ri -> runtimes s !! j = Some rj -> i <> j -> li ∈ leases ri ->
  (forall lj, lj ∈ leases rj -> group lj = group li -> exists mj,
     own (bucket_state s) (identity rj) (owner_key (group li)) mj
     /\ msg_revision mj = acquisition_revision (fence (guard lj))) /\
  forall mj, own (bucket_state s) (identity rj) (owner_key (group li)) mj ->
    (acquisition_revision (fence (guard li)) < msg_revision mj)%N ->
    (forall m, own (bucket_state s) (identity ri) (owner_key (group li)) m ->
       (msg_revision m < msg_revision mj)%N) /\
    (forall n f t, flights s !! n = Some f -> from f = i -> reply f = None ->
       call_key (called f) = Some (owner_key (group li)) ->
       unchanged (bucket_state s) (snd (store_serve t (called f) (bucket_state s)))).
Proof.
  intros [(Hid & Hfl & Hrt) _]%reachable_safe Hi Hj Hne [n Hn]%list_elem_of_lookup.
  destruct (Hrt i ri Hi) as [Hri _], (Hrt j rj Hj) as [Hrj _].
  pose proof (lease_of _ _ _ _ _ Hri Hn) as [(_ & _ & _ & _ & Hc & Hcreate) _].
  destruct Hri as (Hoi & _). rewrite Hoi in Hc. split.
  { intros lj [n' Hn']%list_elem_of_lookup Hg.
    pose proof (lease_of _ _ _ _ _ Hrj Hn') as [(_ & _ & (mj & Hmj & Hfj) & _) _].
    destruct Hrj as (Hoj & _). exists mj. split; [|done]. rewrite <- Hg, <- Hoj. exact Hmj. }
  intros mj (Hin & Hk & Hv & _) Hlt.
  assert (forall m, own (bucket_state s) (identity ri) (owner_key (group li)) m ->
    (msg_revision m < msg_revision mj)%N) as Hbefore.
  { intros m Hm. destruct (N.lt_ge_cases (msg_revision m) (msg_revision mj)) as [?|Hge]; [done|].
    exfalso. assert (own (bucket_state s) (identity ri) (key_of li) mj) as (_ & _ & Hvi & _)
      by (apply (Hc mj m); [done|done|done|cbn in *; lia]).
    apply Hne. eapply Hid; [done|done|congruence]. }
  split; [done|]. intros n' f t Hf Hfrom Hrep Hck.
  destruct (Hfl n' f Hf) as (rf & Hrf & _ & Hcall & _). rewrite Hfrom, Hi in Hrf. injection Hrf as <-.
  specialize (Hcreate n' f Hf Hfrom Hrep). clear Hrep Hf Hfrom.
  destruct (called f) as [k value|k value revision|k revision|k] eqn:Hcd; cbn in Hck, Hcall;
    [injection Hck as ->; by destruct (Hcreate value)|injection Hck as ->..|done].
  - destruct Hcall as (_ & m & Hm & <-). eapply overtaken_refused; [done..| |by left; eexists].
    split; [eapply log_revision_pos; apply Hm|by apply Hbefore].
  - destruct Hcall as (m & Hm & <-). eapply overtaken_refused; [done..| |by right].
    split; [eapply log_revision_pos; apply Hm|by apply Hbefore].
Qed.

(** A runtime that stops without an error leaves its keys free: the store holds none of its
    leases, so that the next runtime can acquire them at once. *)
Theorem clean_stop_frees_keys s i r g m :
  reachable hash max_age s -> runtimes s !! i = Some r -> phase r = Stopped (Ok tt) ->
  g ∈ for_mode (mode r) -> store_at (bucket_state s) (owner_key g) = Some m ->
  ~ (msg_value m = identity r /\ msg_op m = Put).
Proof.
  intros [_ Hp]%reachable_safe Hi Hph Hg Hat [Hv Hop]. destruct (Hp i r Hi) as (_ & _ & Ha).
  unfold accounted in Ha. rewrite Hph in Ha. destruct Ha as [_ Ha].
  destruct (Ha eq_refl g Hg) as (_ & m' & Hin' & Hk' & Hl').
  destruct (store_at_last _ _ _ Hat) as (Hin & Hk & Hlast).
  assert (own (bucket_state s) (identity r) (owner_key g) m) as Hown by done.
  apply Hl' in Hown. specialize (Hlast m' Hin' Hk'). lia.
Qed.
End exclusion.
