(* ===== verification/LeaseExamples.v ===== *)
(** * Runtime leases: runs

    A lease bucket in memory, and runs of runtimes that share it: one that starts and stops,
    and runs in which two runtimes run the same subsystem, because the lease of a failed
    renewal is released before the subsystem is stopped, because a round of renewal lasts
    into the time of the next, or because the loss is not noticed during start-up. *)

From Stdlib Require Import Ascii String.
From S2P Require Import Prelude RustStr Kv LiveDeadlines Leases Ownership LeaseSystem LeaseSafety.
From S2P Require Import LeaseLanes LeaseExclusion.

Local Open Scope string_scope.

(** ** A bucket in memory *)

Module MemBucket.

(** The messages in the order of their revisions, which are their positions, and the
    revisions that were removed for their age. *)
Record bucket := mkBucket {
  messages : list (string * string * Operation * N);
  removed : list N;
}.

Definition message_at (n : N) (x : string * string * Operation * N) : Message :=
  let '(k, value, op, t) := x in mkMessage k value op n t.

Fixpoint number (n : N) (l : list (string * string * Operation * N)) : list Message :=
  match l with
  | [] => []
  | x :: l => message_at (n + 1) x :: number (n + 1) l
  end.

Fixpoint scan (key : string) (n : N) (acc : option Message)
    (l : list (string * string * Operation * N)) : option Message :=
  match l with
  | [] => acc
  | x :: l =>
      let m := message_at (n + 1) x in
      scan key (n + 1) (if bool_decide (msg_key m = key) then Some m else acc) l
  end.

Definition log (b : bucket) : list Message := number 0 (messages b).

Definition at_key (b : bucket) (key : string) : option Message :=
  match scan key 0 None (messages b) with
  | Some m => if bool_decide (msg_revision m ∈ removed b) then None else Some m
  | None => None
  end.

Definition next (b : bucket) : N := (len (messages b) + 1)%N.

Definition append (b : bucket) (key value : string) (op : Operation) (t : N) : bucket :=
  mkBucket (messages b ++ [(key, value, op, t)]) (filter (fun r => r < next b)%N (removed b)).

Definition at_revision (revision : N) (m : option Message) : bool :=
  match m with Some m => (msg_revision m =? revision)%N | None => (revision =? 0)%N end.

Definition serve (t : N) (c : Call) (b : bucket) : answer c * bucket :=
  match c return answer c * bucket with
  | KvCreate key value =>
      match at_key b key with
      | Some (mkMessage _ _ Put _ _) => (Err (mkKvError AlreadyExists "key already exists"), b)
      | _ => (Ok (next b), append b key value Put t)
      end
  | KvUpdate key value revision =>
      if at_revision revision (at_key b key) then (Ok (next b), append b key value Put t)
      else (Err (mkKvError WrongLastRevision "wrong last revision"), b)
  | KvDelete key revision =>
      if at_revision revision (at_key b key) then (Ok tt, append b key "" Delete t)
      else (Err (mkKvError WrongLastRevision "wrong last revision"), b)
  | KvEntry key => (Ok (entry_of <$> at_key b key), b)
  end.

Definition expire (max_age t : N) (key : string) (b : bucket) : bucket :=
  match at_key b key with
  | Some m => if (msg_time m + max_age <=? t)%N then mkBucket (messages b) (msg_revision m :: removed b) else b
  | None => b
  end.

(** *** It is a lease bucket *)

Lemma number_bounds n l m : m ∈ number n l -> (n < msg_revision m <= n + len l)%N.
Proof.
  revert n. induction l as [|[[[k value] op] t] l IH]; intros n; cbn [number]; [by intros ?%not_elem_of_nil|].
  unfold len in *. cbn [List.length]. intros [-> |Hin]%elem_of_cons; [cbn; lia|]. apply IH in Hin. lia.
Qed.

Lemma number_inj n l m m' :
  m ∈ number n l -> m' ∈ number n l -> msg_revision m = msg_revision m' -> m = m'.
Proof.
  revert n. induction l as [|[[[k value] op] t] l IH]; intros n; cbn [number]; [by intros ?%not_elem_of_nil|].
  intros [-> |Hin]%elem_of_cons [-> |Hin']%elem_of_cons Hr; [done|..|by eapply IH].
  - apply number_bounds in Hin'. cbn in Hr. lia.
  - apply number_bounds in Hin. cbn in Hr. lia.
Qed.

Lemma number_app n l x : number n (l ++ [x])%list = (number n l ++ [message_at (n + len l + 1) x])%list.
Proof.
  revert n. induction l as [|y l IH]; intros n; cbn [number app]; unfold len; cbn [List.length].
  - by rewrite N.add_0_r.
  - rewrite IH. unfold len. replace (n + 1 + N.of_nat (List.length l) + 1)%N
      with (n + N.of_nat (S (List.length l)) + 1)%N by lia. done.
Qed.

Lemma scan_app key n acc l x :
  scan key n acc (l ++ [x])%list =
  if bool_decide (msg_key (message_at (n + len l + 1) x) = key)
  then Some (message_at (n + len l + 1) x) else scan key n acc l.
Proof.
  revert n acc. induction l as [|y l IH]; intros n acc; cbn [scan app]; unfold len; cbn [List.length].
  - by rewrite N.add_0_r.
  - rewrite IH. unfold len. replace (n + 1 + N.of_nat (List.length l) + 1)%N
      with (n + N.of_nat (S (List.length l)) + 1)%N by lia. done.
Qed.

Lemma scan_last key n acc l m :
  (forall m', acc = Some m' -> msg_key m' = key /\ (msg_revision m' <= n)%N) ->
  scan key n acc l = Some m ->
  (acc = Some m \/ m ∈ number n l) /\ msg_key m = key /\
  forall m', m' ∈ number n l -> msg_key m' = key -> (msg_revision m' <= msg_revision m)%N.
Proof.
  revert n acc. induction l as [|x l IH]; intros n acc Hacc Hs; cbn [scan number] in *.
  - split; [by left|]. split; [by apply Hacc|]. by intros m' ?%not_elem_of_nil.
  - set (y := message_at (n + 1) x) in *. assert (msg_revision y = n + 1)%N as Hy by (by destruct x as [[[??]?]?]).
    apply IH in Hs as (Hin & Hk & Hl).
    + split; [|split; [done|]].
      * destruct Hin as [Hin|Hin]; [|right; by right]. case_bool_decide; [|by left].
        injection Hin as <-. right. by left.
      * intros m' [-> |Hm']%elem_of_cons Hk'; [|by apply Hl]. rewrite bool_decide_true in Hin by done.
        destruct Hin as [[= <-]|Hin]; [lia|]. apply number_bounds in Hin. lia.
    + intros m'. case_bool_decide; [intros [= <-]; split; [done|lia]|].
      intros [? ?]%Hacc. split; [done|lia].
Qed.

Lemma at_key_last b key m :
  at_key b key = Some m ->
  m ∈ log b /\ msg_key m = key /\
  forall m', m' ∈ log b -> msg_key m' = key -> (msg_revision m' <= msg_revision m)%N.
Proof.
  unfold at_key. destruct (scan key 0 None (messages b)) as [m0|] eqn:Hs; [|done].
  case_bool_decide; [done|]. intros [= ->]. apply scan_last in Hs as ([?|?] & ? & ?); done.
Qed.

#[global] Instance store (max_age : N) : LeaseStore := {
  Store := bucket; store_log := log; store_at := at_key; store_serve := serve;
  store_expire := expire max_age;
}.

Section laws.
Context (max_age : N).
Local Existing Instance store.

Lemma append_written b key value op t :
  @written (store max_age) b (append b key value op t) (mkMessage key value op (next b) t).
Proof.
  assert (log (append b key value op t) = log b ++ [mkMessage key value op (next b) t])%list as Hlog.
  { unfold log, append. cbn [messages]. rewrite number_app. by rewrite N.add_0_l. }
  assert (forall m, m ∈ log b -> msg_revision m < next b)%N as Hlt.
  { intros m Hm%number_bounds. unfold next. lia. }
  split; [exact Hlog|]. split; [|split; [exact Hlt|]].
  - change (at_key (append b key value op t) key = Some (mkMessage key value op (next b) t)).
    unfold at_key, append. cbn [messages removed]. rewrite scan_app, N.add_0_l. cbn [message_at msg_key].
    rewrite bool_decide_true by done. rewrite bool_decide_false; [done|].
    intros [Hn _]%list_elem_of_filter. cbn in Hn. unfold next in *. lia.
  - intros k Hk. change (at_key (append b key value op t) k = at_key b k). cbn in Hk.
    unfold at_key, append. cbn [messages removed]. rewrite scan_app, N.add_0_l. cbn [message_at msg_key].
    rewrite bool_decide_false by done. destruct (scan k 0 None (messages b)) as [m|] eqn:Hs; [|done].
    apply scan_last in Hs as ([?|Hin] & _); [done| |done]. apply Hlt in Hin.
    replace (bool_decide (msg_revision m ∈ filter (fun r => r < next b)%N (removed b)))
      with (bool_decide (msg_revision m ∈ removed b)); [done|].
    apply bool_decide_ext. rewrite list_elem_of_filter. naive_solver.
Qed.

Lemma at_revision_expected revision m : at_revision revision m = true -> expected revision m.
Proof. destruct m; cbn; by intros ?%N.eqb_eq. Qed.

#[global] Instance store_laws : @LeaseStoreLaws (store max_age) max_age.
Proof.
  split.
  - intros b m m'. apply number_inj.
  - intros b m Hm%number_bounds. lia.
  - intros b key m. apply at_key_last.
  - intros t c b. cbn. destruct c as [key value|key value revision|key revision|key]; cbn.
    + destruct (at_key b key) as [[k v [] rev t']|] eqn:Hat; cbn; [done|..];
        (split; [by intros ?|apply append_written]).
    + destruct (at_revision revision (at_key b key)) eqn:Hat; cbn; [|done].
      split; [by apply at_revision_expected|apply append_written].
    + destruct (at_revision revision (at_key b key)) eqn:Hat; cbn; [|done].
      split; [by apply at_revision_expected|]. exists (next b). apply append_written.
    + split; [done|]. destruct (at_key b key) as [m|] eqn:Hat; cbn; [|done].
      apply at_key_last in Hat as (? & ? & _). by exists m.
  - intros t key b. cbn. unfold expire. destruct (at_key b key); [|done]. by destruct (_ <=? _)%N.
  - intros t key b k m Hat Ht. cbn in *. unfold expire.
    destruct (at_key b key) as [m'|] eqn:Hat'; [|done].
    destruct (N.leb_spec (msg_time m' + max_age) t) as [Hle|]; [|done].
    pose proof Hat as Hat0. unfold at_key in Hat0 |- *. cbn [messages removed].
    destruct (scan k 0 None (messages b)) as [m0|]; [|done].
    case_bool_decide as Hr; [done|]. injection Hat0 as ->. rewrite bool_decide_false; [done|].
    intros [Heq|?]%elem_of_cons; [|done].
    apply at_key_last in Hat as (Hin & _), Hat' as (Hin' & _).
    rewrite (number_inj _ _ _ _ Hin Hin' Heq) in Ht. lia.
Qed.
End laws.
End MemBucket.

(** ** Runs *)

Definition no_jitter (owner : string) : N := 0.

Definition sample_settings : ResolvedLeasesConfig :=
  mkResolvedLeasesConfig "trellis_runtime_leases" 1 15000 5000.

Definition lease_age : N := millis 15000.
Definition sec (n : N) : N := millis (n * 1000).

#[local] Instance sample_store : LeaseStore := MemBucket.store lease_age.
#[local] Instance sample_store_laws : LeaseStoreLaws lease_age := MemBucket.store_laws lease_age.

Definition sample_system : Sys :=
  @mkSys sample_store 0 (MemBucket.mkBucket [] [])
    [new_runtime sample_settings "a" ModeJobs; new_runtime sample_settings "b" ModeJobs] [] true.

Lemma sample_initial : initial sample_system.
Proof.
  split; [done|]. split; [|split; [|split]].
  - intros [|[|[|i]]] r; cbn; by try intros [= <-].
  - intros [|[|[|i]]] [|[|[|j]]] r r'; cbn; try done; by intros [= <-] [= <-].
  - intros i r m _ Hm. by apply not_elem_of_nil in Hm.
  - intros i r Hi. exists (mkLeasesConfig None (Some 1%N) (Some 15000%N) (Some 5000%N)).
    destruct i as [|[|[|i]]]; cbn in Hi; [injection Hi as <-|injection Hi as <-|done|done]; reflexivity.
Qed.

Definition play (evs : list SysEvent) : option Sys :=
  run_sys no_jitter lease_age sample_system evs.

(** The state a run ends in. *)
Definition after (evs : list SysEvent) : Sys := default sample_system (play evs).

Lemma play_reachable evs :
  is_Some (play evs) -> reachable no_jitter lease_age (after evs).
Proof.
  intros [s Hs]. exists sample_system, evs. split; [apply sample_initial|].
  unfold after. by rewrite Hs.
Qed.

(** Runtime [i] acquires and verifies its lease, from the time [t] on and with the calls
    from [n] on, and starts its subsystem. *)
Definition acquire_lease (i n : nat) (t : N) : list SysEvent :=
  [Run i (EvOpen (Ok tt) (Ok tt) (Ok tt) (Ok (mkBucketStatus lease_age 1)));
   Tick (t + 1); Serve n; Answered i ForAcquire;
   Run i (EvVerify 0); Tick (t + 2); Serve (S n); Answered i (ForLease 0)].

Definition start_subsystem (i : nat) : list SysEvent :=
  [Run i (EvPrepared (Ok tt)); Run i (EvStarted (Ok tt)); Run i (EvBound (Ok tt))].

Definition start_up (i n : nat) (t : N) : list SysEvent :=
  (acquire_lease i n t ++ start_subsystem i ++ [Run i (EvBootstrapped (Ok tt))])%list.

(** A runtime that is stopped by a signal. *)
Definition clean_stop : list SysEvent :=
  (start_up 0 0 0 ++
   [Run 0 EvSignal; Run 0 (EvSubsystemEnds 0 (Joined (Ok tt))); Run 0 EvJoin;
    Run 0 (EvHttpClosed (Ok tt)); Run 0 EvJoinedAll; Run 0 (EvProvidersClosed (Ok tt));
    Run 0 (EvLeaseStops 0); Tick 3; Serve 2; Answered 0 (ForLease 0); Run 0 (EvLeaseJoined 0);
    Run 0 (EvFlushed (Ok tt))])%list.

(** A renewal fails, and its lease is released and acquired by another runtime before the
    subsystem is told to stop. *)
Definition early_release : list SysEvent :=
  (start_up 0 0 0 ++
   [Tick (sec 5 + 1); Run 0 (EvLeaseWakes 0);
    CallFails 0 (ForLease 0) (mkKvError OtherKind "connection reset");
    Tick (sec 5 + 2); Serve 3] ++
   start_up 1 4 (sec 5 + 2))%list.

(** The reply of the first renewal is lost and the entry is read slowly, so that the next
    round starts late; it still waits when the lease ends and another runtime takes it. *)
Definition slow_round : list SysEvent :=
  ([Run 0 (EvOpen (Ok tt) (Ok tt) (Ok tt) (Ok (mkBucketStatus lease_age 1)));
    Tick 1; Serve 0; Answered 0 ForAcquire; Run 0 (EvVerify 0); Tick 2; Serve 1;
    Tick (sec 5); CallFails 0 (ForLease 0) (mkKvError TimedOut "timed out");
    Tick (sec 5 + 1); Serve 2; Tick (sec 9); Answered 0 (ForLease 0)] ++
   start_subsystem 0 ++
   [Run 0 (EvBootstrapped (Ok tt)); Run 0 (EvLeaseWakes 0);
    Tick (sec 15 + 2); Expire "jobs.owner"] ++
   start_up 1 4 (sec 15 + 2))%list.

(** The renewal fails while the runtime still starts. *)
Definition loss_in_startup : list SysEvent :=
  (acquire_lease 0 0 0 ++ start_subsystem 0 ++
   [Tick (sec 5 + 1); Run 0 (EvLeaseWakes 0);
    CallFails 0 (ForLease 0) (mkKvError OtherKind "connection reset");
    Tick (sec 5 + 2); Serve 3; Answered 0 (ForLease 0)] ++
   start_up 1 4 (sec 5 + 2) ++ [Tick (sec 10)])%list.

Definition both_run (s : Sys) : option (bool * bool * bool * bool) :=
  match runtimes s with
  | [a; b] => Some (runs a SubJobs, lost a SubJobs, runs b SubJobs, lost b SubJobs)
  | _ => None
  end.

(** The subsystem runs in both runtimes: the first has lost its lease. *)
Example early_release_runs :
  both_run <$> play early_release = Some (Some (true, true, true, false)).
Proof. vm_compute. reflexivity. Qed.

(** The subsystem runs in both runtimes, every timer was in time and neither runtime has
    noticed anything. *)
Example slow_round_runs :
  (fun s => (punctual s, both_run s)) <$> play slow_round = Some (true, Some (true, false, true, false)).
Proof. vm_compute. reflexivity. Qed.

(** Nearly five seconds after the lease task has ended with an error, the runtime that still
    starts has not noticed, and the other runs the same subsystem. *)
Example loss_in_startup_runs :
  (fun s => (both_run s, (fun r => match phase r with Bootstrapping => true | _ => false end) <$> (runtimes s !! 0%nat),
             (fun r => is_finished <$> leases r) <$> (runtimes s !! 0%nat))) <$> play loss_in_startup =
  Some (Some (true, true, true, false), Some true, Some [true]).
Proof. vm_compute. reflexivity. Qed.

(** ** Instances of the theorems *)

Definition nth_runtime (i : nat) (s : Sys) : Runtime :=
  default (new_runtime sample_settings "" ModeJobs) (runtimes s !! i).

Definition first_lease (r : Runtime) : Lease :=
  default (mkLease OwnJobs (mkLeaseGuard (mkLeaseKey "") (mkLeaseFence 0) 0) Acquired 0 false)
    (head (leases r)).

Definition message_of (key : string) (s : Sys) : Message :=
  default (mkMessage "" "" Put 0 0) (store_at (bucket_state s) key).

Lemma renewed_lease_held_witness :
  exists m, store_at (bucket_state (after (start_up 0 0 0))) "jobs.owner" = Some m /\
    msg_value m = "a" /\ msg_op m = Put.
Proof.
  apply (renewed_lease_held no_jitter (after (start_up 0 0 0)) 0 (nth_runtime 0 (after (start_up 0 0 0)))
           (first_lease (nth_runtime 0 (after (start_up 0 0 0))))).
  - apply play_reachable. vm_compute. by eexists.
  - vm_compute. reflexivity.
  - vm_compute. left.
  - vm_compute. reflexivity.
  - vm_compute. discriminate.
Defined.

Lemma singleton_subsystems_witness :
  lost (nth_runtime 0 (after early_release)) SubJobs
  || lost (nth_runtime 1 (after early_release)) SubJobs = true.
Proof.
  apply (singleton_subsystems no_jitter (after early_release) 0 1).
  - apply play_reachable. vm_compute. by eexists.
  - vm_compute. reflexivity.
  - vm_compute. reflexivity.
  - vm_compute. reflexivity.
  - discriminate.
  - vm_compute. reflexivity.
  - vm_compute. reflexivity.
  - vm_compute. reflexivity.
  - vm_compute. reflexivity.
Defined.

(** The renewal of the first runtime is still on its way when the second has the lease. *)
Lemma fences_separate_owners_witness :
  (forall m, own (bucket_state (after early_release)) "a" "jobs.owner" m -> (msg_revision m < 4)%N) /\
  exists f, flights (after early_release) !! 2%nat = Some f
    /\ called f = KvUpdate "jobs.owner" "a" 2
    /\ forall t, unchanged (bucket_state (after early_release))
         (snd (store_serve t (called f) (bucket_state (after early_release)))).
Proof.
  destruct (fences_separate_owners no_jitter (after early_release) 0 1
    (nth_runtime 0 (after early_release)) (nth_runtime 1 (after early_release))
    (first_lease (nth_runtime 0 (after early_release)))) as [_ Hwrite].
  - apply play_reachable. vm_compute. by eexists.
  - vm_compute. reflexivity.
  - vm_compute. reflexivity.
  - discriminate.
  - vm_compute. left.
  - destruct (Hwrite (mkMessage "jobs.owner" "b" Put 4 (sec 5 + 3))) as [Hbefore Hrefused].
    + vm_compute. split; [right; right; right; left|done].
    + vm_compute. reflexivity.
    + split; [exact Hbefore|].
      destruct (flights (after early_release) !! 2%nat) as [f|] eqn:Hf; [|vm_compute in Hf; discriminate].
      exists f. split; [done|].
      assert (called f = KvUpdate "jobs.owner" "a" 2 /\ from f = 0%nat /\ reply f = None) as (Hc & Hi & Hr)
        by (vm_compute in Hf; injection Hf as <-; split_and!; reflexivity).
      split; [exact Hc|]. intros t.
      apply (Hrefused 2%nat f t Hf Hi Hr). rewrite Hc. reflexivity.
Defined.

Lemma clean_stop_frees_keys_witness :
  ~ (msg_value (message_of "jobs.owner" (after clean_stop)) = "a" /\
     msg_op (message_of "jobs.owner" (after clean_stop)) = Put).
Proof.
  apply (clean_stop_frees_keys no_jitter (after clean_stop) 0 (nth_runtime 0 (after clean_stop)) OwnJobs).
  - apply play_reachable. vm_compute. by eexists.
  - vm_compute. reflexivity.
  - vm_compute. reflexivity.
  - vm_compute. left.
  - vm_compute. reflexivity.
Defined.
