(* ===== verification/IdlTypes.v ===== *)
(** * Semantic IDL packages

    The resolved packages the IDL tools work on ([idl/src/semantic.rs]): types, APIs with
    their actions, and resources, with the numeric bounds of scalars and the checks the
    compiler makes of them ([idl/src/compile.rs], [bounds]).  A [BTreeMap] is the list of its
    entries and a [BTreeSet] the list of its elements, both in their order. *)

From Stdlib Require Import Ascii String QArith.
From S2P Require Import Prelude RustStr Extern Json.

Local Open Scope string_scope.

(** ** Ordered maps *)

(** [BTreeMap::get] *)
Fixpoint bt_get {K V} `{EqDecision K} (k : K) (m : list (K * V)) : option V :=
  match m with
  | [] => None
  | (k', v) :: m => if decide (k = k') then Some v else bt_get k m
  end.

(** ** Numbers *)

(** A finite [f64]: [± mantissa * 2 ^ exponent]. *)
Record f64 := {
  f64_negative : bool;
  f64_mantissa : N;
  f64_exponent : Z;
}.

Definition f64_number (d : f64) : JsonNumber :=
  Float (f64_negative d) (f64_mantissa d) (f64_exponent d).

Definition f64_value (d : f64) : Q := number_value (f64_number d).

(** [m / 2 ^ shift] rounded to the nearest whole number, ties to even. *)
Definition round_shift (m : N) (shift : N) : N :=
  let q := N.shiftr m shift in
  let rest := (m - N.shiftl q shift)%N in
  let half := N.shiftl 1 (shift - 1) in
  if (half <? rest)%N || ((half =? rest)%N && N.odd q) then (q + 1)%N else q.

(** [value as f64] on an [i128]: exact up to 53 bits, and the nearest double beyond. *)
Definition i128_as_f64 (z : Z) : f64 :=
  let m := Z.abs_N z in
  let shift := (N.size m - 53)%N in
  {| f64_negative := (z <? 0)%Z;
     f64_mantissa := if (shift =? 0)%N then m else round_shift m shift;
     f64_exponent := Z.of_N shift |}.

Inductive NumericBound :=
| Integer (value : Z)
| Number (value : f64).

(** [NumericBound::compare]: two finite doubles are always ordered. *)
Definition bound_compare (self other : NumericBound) : option comparison :=
  match self with
  | Integer value =>
      match other with
      | Integer other => Some (value ?= other)%Z
      | Number other => Some (f64_value (i128_as_f64 value) ?= f64_value other)%Q
      end
  | Number value =>
      match other with
      | Integer other => Some (f64_value value ?= f64_value (i128_as_f64 other))%Q
      | Number other => Some (f64_value value ?= f64_value other)%Q
      end
  end.

Definition bound_value (b : NumericBound) : Q :=
  match b with Integer z => inject_Z z | Number d => f64_value d end.

Record Bounds := {
  b_min : option NumericBound;
  b_max : option NumericBound;
  min_count : option N;
  max_count : option N;
}.

(** ** Types *)

Record TypeRef := { ref_package : string; ref_id : string }.

Global Instance TypeRef_eq_dec : EqDecision TypeRef.
Proof. solve_decision. Defined.

Inductive Primitive :=
| PString | PBool | PInt32 | PUint32 | PInt64 | PUint64 | PNumber | PBytes
| PTimestamp | PUlid | PJson.

Global Instance Primitive_eq_dec : EqDecision Primitive.
Proof. solve_decision. Defined.

Inductive TypeExpression :=
| TPrimitive (p : Primitive) (b : Bounds)
| TNamed (r : TypeRef)
| TList (member : TypeExpression) (b : Bounds)
| TMap (member : TypeExpression)
| TNullable (member : TypeExpression)
| TCursorQuery
| TCursorPage (member : TypeExpression).

Record ModelField := {
  field_ty : TypeExpression;
  field_optional : bool;
  field_recursive : bool;
}.

Inductive TypeDefinition :=
| DModel (fields : list (string * ModelField))
| DEnum (symbols : list string)
| DAlias (value : TypeExpression).

(** ** APIs *)

Inductive ActionKind := KRpc | KOperation | KEvent | KLive.

Global Instance ActionKind_eq_dec : EqDecision ActionKind.
Proof. solve_decision. Defined.

Record ActionId := { action_kind : ActionKind; action_name : string }.

Global Instance ActionId_eq_dec : EqDecision ActionId.
Proof. solve_decision. Defined.

Inductive Pagination := Cursor.

Global Instance Pagination_eq_dec : EqDecision Pagination.
Proof. solve_decision. Defined.

Inductive ActionDefinition :=
| Rpc (input output : TypeRef) (errors : list string) (download : bool)
    (pagination : option Pagination)
| Operation (input output : TypeRef) (progress update : option TypeRef)
    (errors : list string) (signals : list (string * TypeRef)) (upload stream : bool)
| Event (payload : TypeRef) (parameters : list (list string))
| Live (input event : TypeRef).

Inductive InteractionDirection := Call | Invoke | Publish | Subscribe.

Global Instance InteractionDirection_eq_dec : EqDecision InteractionDirection.
Proof. solve_decision. Defined.

Record ActionSelection := {
  selected_action : ActionId;
  selected_direction : InteractionDirection;
}.

Global Instance ActionSelection_eq_dec : EqDecision ActionSelection.
Proof. solve_decision. Defined.

(** The actions a capability allows, and the capabilities of a group; the texts and marks for
    presentation and consent are left out. *)
Record CapabilityDefinition := { capability_allows : list ActionSelection }.
Record CapabilityGroupDefinition := { group_members : list string }.

(** The parts of [ApiDefinition] that comparisons and digests of surfaces read. *)
Record ApiDefinition := {
  api_identity : string;
  api_name : string;
  api_errors : list (string * option TypeRef);
  api_actions : list (ActionId * ActionDefinition);
  api_capabilities : list (string * CapabilityDefinition);
  api_groups : list (string * CapabilityGroupDefinition);
}.

Record InteractionSelection := {
  selection_api : string;
  selection_actions : list ActionSelection;
  required_capabilities : list string;
  optional_capabilities : list string;
}.

(** ** Packages *)

(** The types and APIs of a [SemanticPackage]. *)
Record SemanticPackage := {
  package_types : list (string * TypeDefinition);
  package_apis : list (string * ApiDefinition);
}.

Definition PackageGraph := list (string * SemanticPackage).

(** [graph.package(&r.package).and_then(|package| package.types().get(&r.id))] *)
Definition type_of (g : PackageGraph) (r : TypeRef) : option TypeDefinition :=
  package ← bt_get (ref_package r) g; bt_get (ref_id r) (package_types package).

(** [PackageGraph::api]: the first package that declares the API. *)
Fixpoint graph_api (g : PackageGraph) (id : string) : option ApiDefinition :=
  match g with
  | [] => None
  | (_, package) :: g =>
      match bt_get id (package_apis package) with
      | Some api => Some api
      | None => graph_api g id
      end
  end.

(** ** Resources *)

Record HistoricRepresentation := { historic_version : N; historic_ty : TypeRef }.

Record RetryPolicy := { retry_attempts : N; retry_backoff_ms : list N }.

Inductive KeyConcurrencyPolicy := KeyQueue | KeyReject | KeySupersede.

Record KeyConcurrency := { key_path : list string; key_policy : KeyConcurrencyPolicy }.

Inductive Replay := ReplayNew | ReplayAll.

(** [ResourceDefinition], without the presentation metadata of each resource. *)
Inductive ResourceDefinition :=
| RState (optional : bool) (schema : TypeRef) (version : N)
    (accepts : list HistoricRepresentation)
| RKv (optional : bool) (schema : TypeRef) (version : N)
    (accepts : list HistoricRepresentation) (history ttl_ms : N)
    (desired_max_value : option N)
| RStore (optional : bool) (ttl_ms : N) (desired_max_object desired_max_total : option N)
| RJob (optional : bool) (payload : TypeRef) (result update : option TypeRef)
    (deadline_ms : option N) (retry : option RetryPolicy)
    (key_concurrency : option KeyConcurrency)
| RConsumer (optional : bool) (events : list (string * string)) (concurrency : N)
    (replay : Replay) (retry : option RetryPolicy).

(** [ResourceDefinition::optional] *)
Definition optional_resource (r : ResourceDefinition) : bool :=
  match r with
  | RState o _ _ _ | RKv o _ _ _ _ _ _ | RStore o _ _ _ | RJob o _ _ _ _ _ _
  | RConsumer o _ _ _ _ => o
  end.

(** ** Well-formed bounds

    What the compiler admits: numeric bounds on numeric kinds only, whole ones within the
    kind's domain and doubles on [number]; counts on strings and lists only. *)

Definition bound_domain (p : Primitive) : option (Z * Z) :=
  match p with
  | PInt32 => Some (-2147483648, 2147483647)%Z
  | PUint32 => Some (0, 4294967295)%Z
  | PInt64 => Some (-9223372036854775808, 9223372036854775807)%Z
  | PUint64 => Some (0, 18446744073709551615)%Z
  | _ => None
  end.

Definition bound_fits (p : Primitive) (b : NumericBound) : bool :=
  match b with
  | Integer z =>
      match bound_domain p with
      | Some (lo, hi) => (lo <=? z)%Z && (z <=? hi)%Z
      | None => false
      end
  | Number _ => bool_decide (p = PNumber)
  end.

Definition option_all {A} (f : A -> bool) (o : option A) : bool :=
  match o with Some a => f a | None => true end.

Definition no_counts (b : Bounds) : bool :=
  bool_decide (min_count b = None) && bool_decide (max_count b = None).

Definition bounds_fit (p : Primitive) (b : Bounds) : bool :=
  option_all (bound_fits p) (b_min b) && option_all (bound_fits p) (b_max b)
  && (bool_decide (p = PString) || no_counts b).

Definition list_bounds_fit (b : Bounds) : bool :=
  match b_min b, b_max b with None, None => true | _, _ => false end.

Fixpoint expression_fits (e : TypeExpression) : bool :=
  match e with
  | TPrimitive p b => bounds_fit p b
  | TList m b => list_bounds_fit b && expression_fits m
  | TMap m | TNullable m | TCursorPage m => expression_fits m
  | TNamed _ | TCursorQuery => true
  end.

Definition definition_fits (d : TypeDefinition) : bool :=
  match d with
  | DModel fields => forallb (fun field => expression_fits (field_ty (snd field))) fields
  | DEnum _ => true
  | DAlias e => expression_fits e
  end.

(** ** Well-formed graphs *)

(** The types a definition names. *)
Fixpoint expression_refs (e : TypeExpression) : list TypeRef :=
  match e with
  | TNamed r => [r]
  | TList m _ | TMap m | TNullable m | TCursorPage m => expression_refs m
  | TPrimitive _ _ | TCursorQuery => []
  end.

Definition definition_refs (d : TypeDefinition) : list TypeRef :=
  match d with
  | DModel fields => List.concat (map (fun field => expression_refs (field_ty (snd field))) fields)
  | DEnum _ => []
  | DAlias e => expression_refs e
  end.

(** The fields of a model are in the order of a [BTreeMap], each name once. *)
Definition definition_keys (d : TypeDefinition) : Prop :=
  match d with DModel fields => NoDup fields.*1 | _ => True end.

(** Package names are made of lower-case letters, digits and dashes, and type names of
    letters and digits: none of them holds a dot or needs escaping in a reference. *)
Definition name_char (c : ascii) : bool :=
  is_ascii_lowercase c || is_ascii_uppercase c || is_ascii_digit c || Ascii.eqb c "-"
  || Ascii.eqb c "_".

Definition plain_ref (r : TypeRef) : bool :=
  all_chars name_char (ref_package r) && all_chars name_char (ref_id r).

(** A graph as the compiler resolves it: the types that definitions name are declared,
    names are plain, and bounds fit. *)
Record graph_wf (g : PackageGraph) : Prop := {
  wf_closed r d r' :
    type_of g r = Some d -> r' ∈ definition_refs d -> is_Some (type_of g r');
  wf_plain r d : type_of g r = Some d -> plain_ref r = true;
  wf_fits r d : type_of g r = Some d -> definition_fits d = true;
  wf_keys r d : type_of g r = Some d -> definition_keys d;
}.

(** Every type of a graph. *)
Definition graph_types (g : PackageGraph) : list TypeRef :=
  List.concat (map (fun '(p, package) =>
    map (fun '(id, _) => {| ref_package := p; ref_id := id |}) (package_types package)) g).

(** ** Lemmas *)

Section BtGet.
  Context {K V : Type} `{EqDecision K}.

Lemma bt_get_elem (k : K) (m : list (K * V)) v : bt_get k m = Some v -> (k, v) ∈ m.
Proof.
  induction m as [|[k' v'] m IH]; cbn; [done|].
  case_decide; [intros [= <-]; subst; left|]. right. auto.
Qed.

Lemma bt_get_nodup (k : K) (m : list (K * V)) v :
  NoDup m.*1 -> (k, v) ∈ m -> bt_get k m = Some v.
Proof.
  induction m as [|[k' v'] m IH]; cbn; [intros _ ?%elem_of_nil; done|].
  intros [Hk Hm]%NoDup_cons [[= -> ->]|Hin]%elem_of_cons.
  - by rewrite decide_True.
  - rewrite decide_False; [auto|]. intros ->. apply Hk, list_elem_of_fmap. by exists (k', v).
Qed.

End BtGet.

(** Fewer elements pass a stronger test. *)
Lemma filter_shrinks {A} (P Q : A -> Prop) `{forall x, Decision (P x), forall x, Decision (Q x)} l :
  (forall x, Q x -> P x) -> List.length (filter Q l) <= List.length (filter P l).
Proof.
  intros HPQ. induction l as [|x l IH]; [done|]. rewrite !filter_cons.
  repeat case_decide; cbn [List.length]; try lia. by exfalso; auto.
Qed.

Lemma filter_decreases {A} (P Q : A -> Prop) `{forall x, Decision (P x), forall x, Decision (Q x)} l a :
  (forall x, Q x -> P x) -> a ∈ l -> P a -> ~ Q a ->
  List.length (filter Q l) < List.length (filter P l).
Proof.
  intros HPQ Ha HP HQ. induction l as [|x l IH]; [by apply elem_of_nil in Ha|].
  pose proof (filter_shrinks P Q l HPQ). rewrite !filter_cons.
  apply elem_of_cons in Ha as [->|Ha].
  - rewrite decide_False, decide_True by done. cbn [List.length]. lia.
  - specialize (IH Ha). repeat case_decide; cbn [List.length]; try lia. by exfalso; auto.
Qed.

Lemma type_of_graph_types g r d : type_of g r = Some d -> r ∈ graph_types g.
Proof.
  unfold type_of. destruct (bt_get (ref_package r) g) as [p|] eqn:Hp; [cbn|done].
  intros Hd%bt_get_elem%list_elem_of_In. apply bt_get_elem, list_elem_of_In in Hp.
  apply list_elem_of_In, in_concat. eexists. split; [exact (in_map _ _ _ Hp)|]. cbn.
  apply in_map_iff. exists (ref_id r, d). by destruct r.
Qed.

Lemma field_refs fields name field r :
  (name, field) ∈ fields -> r ∈ expression_refs (field_ty field) ->
  r ∈ definition_refs (DModel fields).
Proof.
  intros Hin Hr. apply list_elem_of_In, in_concat. exists (expression_refs (field_ty field)).
  split; [|by apply list_elem_of_In]. apply in_map_iff. exists (name, field).
  split; [done|by apply list_elem_of_In].
Qed.

(** Comparing bounds that fit the same kind compares their values. *)
Lemma bound_compare_exact p a b :
  bound_fits p a = true -> bound_fits p b = true ->
  bound_compare a b = Some (bound_value a ?= bound_value b)%Q.
Proof.
  destruct a as [a|a], b as [b|b]; cbn; intros Ha Hb; try done.
  - f_equal. unfold Qcompare, inject_Z. cbn. by rewrite !Z.mul_1_r.
  - apply bool_decide_eq_true in Hb as ->. done.
  - apply bool_decide_eq_true in Ha as ->. done.
Qed.
