(* ===== verification/JsonSchema.v ===== *)
(** * JSON Schema

    The meaning of the JSON Schema keywords that projected types use, as the Draft 2020-12
    specification gives it.  A keyword that is not listed is an annotation and asserts
    nothing.  The regular expressions of [pattern] belong to the validator's engine. *)

From Stdlib Require Import Ascii String QArith Qpower.
From S2P Require Import Prelude RustStr Extern Json IdlTypes.

Local Open Scope string_scope.

(** [pattern_matches p s]: the regular expression [p] matches somewhere in [s]. *)
Class RegexEngine := pattern_matches : string -> string -> bool.

(** ** Values *)

(** A number is an integer when its value is whole, however it is written. *)
Definition number_is_integer (n : JsonNumber) : bool :=
  match n with
  | PosInt _ | NegInt _ => true
  | Float _ m e => (0 <=? e)%Z || (m mod 2 ^ Z.to_N (- e) =? 0)%N
  end.

Definition has_json_type (t : string) (v : Json) : bool :=
  match v with
  | JNull => String.eqb t "null"
  | JBool _ => String.eqb t "boolean"
  | JNumber n => String.eqb t "number" || (String.eqb t "integer" && number_is_integer n)
  | JString _ => String.eqb t "string"
  | JArray _ => String.eqb t "array"
  | JObject _ => String.eqb t "object"
  end.

Definition number_le (a b : JsonNumber) : bool := Qle_bool (number_value a) (number_value b).

(** ** Keywords without subschemas *)

Definition count_limit (arg : Json) : N :=
  match arg with JNumber (PosInt n) => n | _ => 0%N end.

Definition member_present (members : list (string * Json)) (name : Json) : bool :=
  match name with JString n => bool_decide (is_Some (map_get n members)) | _ => false end.

Section Validation.
  Context `{RegexEngine}.

Definition assertion (k : string) (arg v : Json) : bool :=
  match v with
  | JNumber n =>
      match arg with
      | JNumber limit =>
          if String.eqb k "minimum" then number_le limit n
          else if String.eqb k "maximum" then number_le n limit
          else true
      | _ => true
      end
  | JString s =>
      if String.eqb k "minLength" then (count_limit arg <=? chars_count s)%N
      else if String.eqb k "maxLength" then (chars_count s <=? count_limit arg)%N
      else if String.eqb k "pattern" then
        match arg with JString p => pattern_matches p s | _ => false end
      else true
  | JArray items =>
      if String.eqb k "minItems" then (count_limit arg <=? len items)%N
      else if String.eqb k "maxItems" then (len items <=? count_limit arg)%N
      else true
  | JObject members =>
      if String.eqb k "required" then
        match arg with JArray names => forallb (member_present members) names | _ => false end
      else true
  | _ => true
  end
  && (if String.eqb k "type" then
        match arg with JString t => has_json_type t v | _ => false end
      else true).

(** ** Schemas *)

(** A reference into the definitions of the root, whose names need no escaping. *)
Definition resolve_ref (defs : list (string * Json)) (arg : Json) : option Json :=
  match arg with
  | JString pointer =>
      key ← strip_prefix "#/$defs/" pointer;
      if all_chars (fun c => name_char c || Ascii.eqb c ".") key then map_get key defs
      else None
  | _ => None
  end.

(** The names that [properties], next to [additionalProperties], takes care of. *)
Definition declared_property (keywords : list (string * Json)) (name : string) : bool :=
  match map_get "properties" keywords with
  | Some (JObject subs) => bool_decide (is_Some (map_get name subs))
  | _ => false
  end.

(** [validates defs fuel schema v]: [v] is valid for [schema], following references to [defs]
    up to [fuel] deep. *)
Fixpoint validates (defs : list (string * Json)) (fuel : nat) : Json -> Json -> bool :=
  fix go (schema v : Json) {struct schema} : bool :=
    match schema with
    | JBool b => b
    | JObject keywords =>
        forallb (fun '(k, arg) =>
          assertion k arg v &&
          (if String.eqb k "$ref" then
             match fuel, resolve_ref defs arg with
             | S fuel, Some schema => validates defs fuel schema v
             | _, _ => false
             end
           else if String.eqb k "anyOf" then
             match arg with
             | JArray subs => existsb (fun sub => go sub v) subs
             | _ => false
             end
           else if String.eqb k "items" then
             match v with JArray items => forallb (fun item => go arg item) items | _ => true end
           else if String.eqb k "properties" then
             match arg, v with
             | JObject subs, JObject members =>
                 forallb (fun '(name, sub) =>
                   match map_get name members with Some w => go sub w | None => true end) subs
             | _, JObject _ => false
             | _, _ => true
             end
           else if String.eqb k "additionalProperties" then
             match v with
             | JObject members =>
                 forallb (fun '(name, w) => declared_property keywords name || go arg w) members
             | _ => true
             end
           else true)) keywords
    | _ => false
    end.

(** What one keyword of a schema asserts. *)
Definition keyword_ok (defs : list (string * Json)) (fuel : nat)
    (keywords : list (string * Json)) (v : Json) (keyword : string * Json) : bool :=
  let '(k, arg) := keyword in
  assertion k arg v &&
  (if String.eqb k "$ref" then
     match fuel, resolve_ref defs arg with
     | S fuel, Some schema => validates defs fuel schema v
     | _, _ => false
     end
   else if String.eqb k "anyOf" then
     match arg with JArray subs => existsb (fun sub => validates defs fuel sub v) subs | _ => false end
   else if String.eqb k "items" then
     match v with JArray items => forallb (validates defs fuel arg) items | _ => true end
   else if String.eqb k "properties" then
     match arg, v with
     | JObject subs, JObject members =>
         forallb (fun '(name, sub) =>
           match map_get name members with Some w => validates defs fuel sub w | None => true end) subs
     | _, JObject _ => false
     | _, _ => true
     end
   else if String.eqb k "additionalProperties" then
     match v with
     | JObject members =>
         forallb (fun '(name, w) => declared_property keywords name || validates defs fuel arg w)
           members
     | _ => true
     end
   else true).

(** A value is valid for a schema document when some depth of references shows it. *)
Definition document_defs (root : Json) : list (string * Json) :=
  match value_get "$defs" root with Some (JObject defs) => defs | _ => [] end.

Definition valid (root v : Json) : Prop :=
  exists fuel, validates (document_defs root) fuel root v = true.

(** ** Lemmas *)

Lemma forallb_ext {A} (f f' : A -> bool) l : (forall x, f x = f' x) -> forallb f l = forallb f' l.
Proof. intros Hf. induction l as [|x l IH]; cbn; [done|]. by rewrite Hf, IH. Qed.

(** The keywords with subschemas assert nothing else. *)
Lemma assertion_applicator k arg v :
  k ∈ ["$ref"; "anyOf"; "items"; "properties"; "additionalProperties"] -> assertion k arg v = true.
Proof. intros Hk. repeat (apply elem_of_cons in Hk as [->|Hk]); [..|by apply elem_of_nil in Hk]; by destruct v, arg. Qed.

Lemma validates_object defs fuel keywords v :
  validates defs fuel (JObject keywords) v = forallb (keyword_ok defs fuel keywords v) keywords.
Proof. destruct fuel; reflexivity. Qed.

End Validation.

(** ** Equal documents

    Two documents are equal member by member; doubles by their values. *)

Fixpoint strip_twos (m : positive) (e : Z) : positive * Z :=
  match m with
  | xO m => strip_twos m (e + 1)%Z
  | _ => (m, e)
  end.

(** One form for each double. *)
Definition normal_number (n : JsonNumber) : JsonNumber :=
  match n with
  | Float _ N0 _ => Float false 0 0
  | Float negative (Npos m) e => let (m, e) := strip_twos m e in Float negative (Npos m) e
  | _ => n
  end.

Fixpoint normal_json (v : Json) : Json :=
  match v with
  | JNumber n => JNumber (normal_number n)
  | JArray items => JArray (map normal_json items)
  | JObject members => JObject (map (fun '(k, w) => (k, normal_json w)) members)
  | _ => v
  end.

(** [Value == Value], on options *)
Definition same_document (a b : option Json) : bool :=
  bool_decide (normal_json <$> a = normal_json <$> b).

Lemma same_document_trans a b c :
  same_document a b = true -> same_document b c = true -> same_document a c = true.
Proof. unfold same_document. rewrite !bool_decide_eq_true. congruence. Qed.

Lemma same_document_sym a b : same_document a b = true -> same_document b a = true.
Proof. unfold same_document. rewrite !bool_decide_eq_true. congruence. Qed.

(** ** Validation looks at documents up to equality *)

Lemma json_nested_ind (P : Json -> Prop) :
  (forall v, match v with JArray _ | JObject _ => True | _ => P v end) ->
  (forall l, Forall P l -> P (JArray l)) ->
  (forall m, Forall (fun member => P (snd member)) m -> P (JObject m)) ->
  forall v, P v.
Proof.
  intros Hatom Harray Hobject. fix go 1. intros [|b|n|s|l|m];
    [exact (Hatom JNull)|exact (Hatom (JBool b))|exact (Hatom (JNumber n))|exact (Hatom (JString s))| |].
  - apply Harray. induction l as [|v l IH]; constructor; [apply go|exact IH].
  - apply Hobject. induction m as [|[k v] m IH]; constructor; [apply go|exact IH].
Qed.

Lemma strip_twos_value m e :
  (let (m', e') := strip_twos m e in inject_Z (Zpos m') * Qpower 2 e'
   == inject_Z (Zpos m) * Qpower 2 e)%Q.
Proof.
  revert e. induction m as [m IH|m IH|]; intros e; cbn [strip_twos]; [reflexivity| |reflexivity].
  specialize (IH (e + 1)%Z). destruct (strip_twos m (e + 1)) as [m' e']. rewrite IH.
  rewrite Qpower_plus by discriminate. rewrite (Pos2Z.inj_xO m), inject_Z_mult.
  change (inject_Z 2) with (2 : Q). change (Qpower 2 1) with (2 : Q). ring.
Qed.

Lemma normal_number_value n : (number_value (normal_number n) == number_value n)%Q.
Proof.
  destruct n as [n|z|negative [|m] e]; cbn [normal_number]; try reflexivity.
  - unfold number_value. destruct negative; cbn [Z.of_N Z.opp]; change (inject_Z 0) with (0 : Q);
      rewrite !Qmult_0_l; reflexivity.
  - pose proof (strip_twos_value m e) as Hm. destruct (strip_twos m e) as [m' e'].
    unfold number_value. destruct negative; [|exact Hm].
    rewrite !inject_Z_opp. cbn [Z.of_N].
    transitivity (- (inject_Z (Zpos m') * Qpower 2 e'))%Q; [ring|]. rewrite Hm. ring.
Qed.

Definition normal_members (m : list (string * Json)) : list (string * Json) :=
  map (fun '(k, w) => (k, normal_json w)) m.

Lemma map_get_normal k m : map_get k (normal_members m) = normal_json <$> map_get k m.
Proof. induction m as [|[k' v] m IH]; cbn; [done|]. by destruct (String.eqb k k'). Qed.

Section NormalValidation.
  Context `{RegexEngine}.

Lemma number_le_normal_l a n : number_le (normal_number a) n = number_le a n.
Proof. unfold number_le. by rewrite normal_number_value. Qed.

Lemma number_le_normal_r a n : number_le n (normal_number a) = number_le n a.
Proof. unfold number_le. by rewrite normal_number_value. Qed.

Lemma assertion_normal k arg v : assertion k (normal_json arg) v = assertion k arg v.
Proof.
  assert (Hcount : count_limit (normal_json arg) = count_limit arg).
  { destruct arg as [| |[n|z|negative [|m] e]| | |]; try done. cbn. by destruct (strip_twos m e). }
  unfold assertion. f_equal.
  - destruct v as [| |n|s|items|members]; try done; rewrite ?Hcount.
    all: destruct arg as [| |a| |names|]; cbn [normal_json]; try done;
      rewrite ?number_le_normal_l, ?number_le_normal_r; try done.
    destruct (String.eqb k "required"); [|done]. clear Hcount.
    induction names as [|name names IH]; [done|].
    cbn. rewrite IH. by destruct name.
  - by destruct arg.
Qed.

Lemma resolve_ref_normal defs arg :
  resolve_ref (normal_members defs) (normal_json arg) = normal_json <$> resolve_ref defs arg.
Proof.
  destruct arg as [| | |s| |]; try done. cbn [normal_json resolve_ref].
  destruct (strip_prefix "#/$defs/" s) as [key|]; [cbn|done].
  destruct (all_chars _ key); [apply map_get_normal|done].
Qed.

Lemma declared_property_normal keywords name :
  declared_property (normal_members keywords) name = declared_property keywords name.
Proof.
  unfold declared_property. rewrite map_get_normal.
  destruct (map_get "properties" keywords) as [[]|]; try done. cbn.
  change (map _ members) with (normal_members members). rewrite map_get_normal.
  apply bool_decide_ext. destruct (map_get name members); split; by intros [].
Qed.

Variable defs : list (string * Json).

(** A schema validates as its normal form does. *)
Definition normalizes (fuel : nat) (s : Json) : Prop :=
  forall v, validates (normal_members defs) fuel (normal_json s) v = validates defs fuel s v.

Lemma keyword_normal fuel keywords v k arg :
  (forall f s, fuel = S f -> normalizes f s) -> normalizes fuel arg ->
  (forall subs, arg = JArray subs -> Forall (normalizes fuel) subs) ->
  (forall subs, arg = JObject subs -> Forall (fun sub => normalizes fuel (snd sub)) subs) ->
  keyword_ok (normal_members defs) fuel (normal_members keywords) v (k, normal_json arg)
  = keyword_ok defs fuel keywords v (k, arg).
Proof.
  intros Hdeep Harg Harray Hobject. cbn [keyword_ok]. rewrite assertion_normal. f_equal.
  destruct (String.eqb k "$ref").
  { rewrite resolve_ref_normal. destruct fuel as [|fuel]; [done|].
    destruct (resolve_ref defs arg) as [s|]; [|done]. by apply Hdeep. }
  destruct (String.eqb k "anyOf").
  { destruct arg as [| | | |subs|]; try done. cbn [normal_json].
    specialize (Harray subs eq_refl). clear Hobject Harg.
    induction Harray as [|sub subs Hs _ IH]; [done|]. cbn. by rewrite Hs, IH. }
  destruct (String.eqb k "items").
  { destruct v; try done. apply forallb_ext. apply Harg. }
  destruct (String.eqb k "properties").
  { destruct arg as [| | | | |subs]; try done. destruct v as [| | | | |members]; try done.
    cbn [normal_json]. specialize (Hobject subs eq_refl). clear Harray Harg.
    induction Hobject as [|[name sub] subs Hs _ IH]; [done|].
    cbn. rewrite IH. f_equal. destruct (map_get name members); [apply Hs|done]. }
  destruct (String.eqb k "additionalProperties"); [|done].
  destruct v as [| | | | |members]; try done. apply forallb_ext. intros [name w].
  by rewrite declared_property_normal, Harg.
Qed.

Lemma validates_normal fuel s : normalizes fuel s.
Proof.
  revert s. induction fuel as [fuel IH] using lt_wf_ind. intros s.
  assert (Hdeep : forall f s, fuel = S f -> normalizes f s) by (intros f s' ->; apply IH; lia).
  enough (Hall : normalizes fuel s
    /\ (forall subs, s = JArray subs -> Forall (normalizes fuel) subs)
    /\ (forall subs, s = JObject subs -> Forall (fun sub => normalizes fuel (snd sub)) subs))
    by apply Hall.
  revert s. apply json_nested_ind; [intros v|intros l Hl|intros m Hm].
  - destruct v; try done; (split_and!; [|done|done]); intros w; by destruct fuel.
  - split_and!; [by intros v; destruct fuel| |done]. intros subs [= <-].
    eapply Forall_impl; [exact Hl|]. by intros v [? _].
  - split_and!; [|done|].
    + intros v. cbn [normal_json]. change (map _ m) with (normal_members m).
      rewrite !validates_object. generalize m at 1 3 as keywords. intros keywords.
      induction Hm as [|[k arg] m (Ha & Hb & Hc) _ IHm]; [done|]. cbn [normal_members map forallb].
      f_equal; [by apply keyword_normal|exact IHm].
    + intros subs [= <-]. eapply Forall_impl; [exact Hm|]. by intros v [? _].
Qed.

End NormalValidation.

(** Equal documents accept the same values. *)
Lemma valid_same `{RegexEngine} a b v :
  same_document (Some a) (Some b) = true -> valid a v <-> valid b v.
Proof.
  unfold same_document. intros [= Hab]%bool_decide_eq_true.
  assert (Hone : forall s, valid s v <-> exists fuel,
    validates (normal_members (document_defs s)) fuel (normal_json s) v = true).
  { intros s. unfold valid. split; intros [fuel Hf]; exists fuel;
      pose proof (validates_normal (document_defs s) fuel s v); congruence. }
  assert (Hdefs : forall s, normal_members (document_defs s) = document_defs (normal_json s)).
  { intros s. unfold document_defs, value_get. destruct s; try done. cbn.
    change (map _ members) with (normal_members members). rewrite map_get_normal.
    by destruct (map_get "$defs" members) as [[]|]. }
  by rewrite !Hone, !Hdefs, Hab.
Qed.
