(* ===== verification/IdlSchema.v ===== *)
(** * JSON schemas of types

    The projection of a resolved type and everything it reaches to one schema document
    ([idl/src/projection.rs]).  The functions keep the code's two mutable collections, the
    finished definitions and the types being visited; recursion follows references, so its
    depth is bounded by the number of types, which is the fuel [json_schema] starts with. *)

From Stdlib Require Import Ascii String QArith.
From S2P Require Import Prelude RustStr Extern Json IdlTypes.

Local Open Scope string_scope.

Inductive project_error :=
| PackageAbsent (package : string)
| TypeAbsent (id package : string)
| Panicked
| OutOfFuel.

(** [definition_key] *)
Definition definition_key (r : TypeRef) : string := ref_package r +:+ "." +:+ ref_id r.

(** [json!({"$ref": format!("#/$defs/{}", definition_key(r))})] *)
Definition ref_schema (r : TypeRef) : Json :=
  JObject [("$ref", JString ("#/$defs/" +:+ definition_key r))].

(** [value[k] = v] on an object *)
Definition set_member (k : string) (v : Json) (schema : Json) : Json :=
  match schema with JObject m => JObject (map_insert k v m) | _ => schema end.

(** [apply_count] *)
Definition apply_count (b : Bounds) (kmin kmax : string) (schema : Json) : Json :=
  let schema :=
    match min_count b with
    | Some count => set_member kmin (JNumber (PosInt count)) schema
    | None => schema
    end in
  match max_count b with
  | Some count => set_member kmax (JNumber (PosInt count)) schema
  | None => schema
  end.

(** [numeric_json]; a whole bound beyond [u64] panics. *)
Definition numeric_json (b : NumericBound) : option Json :=
  match b with
  | Integer z =>
      if ((-9223372036854775808 <=? z) && (z <=? 9223372036854775807))%Z then Some (JInt z)
      else if ((0 <=? z) && (z <=? 18446744073709551615))%Z then
        Some (JNumber (PosInt (Z.to_N z)))
      else None
  | Number d => Some (JNumber (f64_number d))
  end.

Definition INT64_PATTERN : string := "^(0|-?[1-9][0-9]*)$".
Definition UINT64_PATTERN : string := "^(0|[1-9][0-9]*)$".
Definition TIMESTAMP_PATTERN : string :=
  "^[0-9]{4}-[0-9]{2}-[0-9]{2}T[0-9]{2}:[0-9]{2}:[0-9]{2}(?:\.[0-9]{1,9})?Z$".
Definition ULID_PATTERN : string := "^[0-7][0-9A-HJKMNP-TV-Z]{25}$".

(** The schema of a primitive before its bounds. *)
Definition base_schema (p : Primitive) : Json :=
  object (match p with
  | PString => [("type", JString "string")]
  | PBool => [("type", JString "boolean")]
  | PInt32 =>
      [("type", JString "integer"); ("minimum", JInt (-2147483648));
       ("maximum", JInt 2147483647)]
  | PUint32 =>
      [("type", JString "integer"); ("minimum", JInt 0); ("maximum", JInt 4294967295)]
  | PInt64 =>
      [("type", JString "string"); ("pattern", JString INT64_PATTERN);
       ("x-trellis-integer", JString "int64");
       ("x-trellis-minimum", JString "-9223372036854775808");
       ("x-trellis-maximum", JString "9223372036854775807")]
  | PUint64 =>
      [("type", JString "string"); ("pattern", JString UINT64_PATTERN);
       ("x-trellis-integer", JString "uint64");
       ("x-trellis-minimum", JString "0");
       ("x-trellis-maximum", JString "18446744073709551615")]
  | PNumber => [("type", JString "number")]
  | PBytes =>
      [("type", JString "string"); ("contentEncoding", JString "base64");
       ("x-trellis-base64", JString "standard-padded")]
  | PTimestamp =>
      [("type", JString "string"); ("format", JString "date-time");
       ("pattern", JString TIMESTAMP_PATTERN);
       ("x-trellis-canonical", JString "utc-rfc3339")]
  | PUlid => [("type", JString "string"); ("pattern", JString ULID_PATTERN)]
  | PJson => []
  end).

(** [schema[k] = numeric_json(b)] for a bound that is there *)
Definition set_bound (k : string) (b : option NumericBound) (schema : Json) : option Json :=
  match b with
  | Some b => limit ← numeric_json b; Some (set_member k limit schema)
  | None => Some schema
  end.

Definition set_annotation (k : string) (b : option NumericBound) (schema : Json) : Json :=
  match b with
  | Some (Integer z) => set_member k (JString (z_decimal z)) schema
  | _ => schema
  end.

(** [primitive_schema] *)
Definition primitive_schema (p : Primitive) (b : Bounds) : option Json :=
  let schema := base_schema p in
  let schema :=
    match p with PString => apply_count b "minLength" "maxLength" schema | _ => schema end in
  match p with
  | PInt64 | PUint64 =>
      Some (set_annotation "x-trellis-maximum" (b_max b)
        (set_annotation "x-trellis-minimum" (b_min b) schema))
  | _ =>
      schema ← set_bound "minimum" (b_min b) schema;
      set_bound "maximum" (b_max b) schema
  end.

Definition list_schema (items : Json) (b : Bounds) : Json :=
  apply_count b "minItems" "maxItems"
    (JObject [("items", items); ("type", JString "array")]).

Definition map_schema (member : Json) : Json :=
  JObject [("additionalProperties", member); ("type", JString "object")].

Definition nullable_schema (member : Json) : Json :=
  JObject [("anyOf", JArray [member; JObject [("type", JString "null")]])].

Definition cursor_schema : Json :=
  JObject [("minLength", JInt 1); ("type", JString "string")].

Definition cursor_query_schema : Json :=
  JObject
    [("additionalProperties", JBool true);
     ("properties", JObject
        [("cursor", cursor_schema);
         ("limit", JObject
            [("maximum", JInt 9007199254740991); ("minimum", JInt 1);
             ("type", JString "integer")])]);
     ("type", JString "object")].

Definition cursor_page_schema (member : Json) : Json :=
  JObject
    [("additionalProperties", JBool true);
     ("properties", JObject
        [("items", JObject [("items", member); ("type", JString "array")]);
         ("page", JObject
            [("additionalProperties", JBool true);
             ("properties", JObject [("nextCursor", cursor_schema)]);
             ("type", JString "object")])]);
     ("required", JArray [JString "items"; JString "page"]);
     ("type", JString "object")].

Definition model_schema (properties : list (string * Json)) (required : list Json) : Json :=
  JObject
    [("additionalProperties", JBool true); ("properties", JObject properties);
     ("required", JArray required); ("type", JString "object")].

Definition enum_schema (symbols : list string) : Json :=
  JObject [("type", JString "string"); ("x-trellis-symbols", JArray (map JString symbols))].

(** ** The projection *)

(** The finished definitions and the types being visited. *)
Definition projection : Type := list (string * Json) * list TypeRef.

Section Projection.
  Variable g : PackageGraph.

Section Expressions.
  Variable project_named : TypeRef -> projection -> result projection project_error.

(** [project_expr] *)
Fixpoint project_expr (e : TypeExpression) (st : projection) :
  result (Json * projection) project_error :=
  match e with
  | TNamed r => let? st := project_named r st in Ok (ref_schema r, st)
  | TPrimitive p b =>
      let? schema := ok_or (primitive_schema p b) Panicked in Ok (schema, st)
  | TList m b => let? (items, st) := project_expr m st in Ok (list_schema items b, st)
  | TMap m => let? (member, st) := project_expr m st in Ok (map_schema member, st)
  | TNullable m => let? (member, st) := project_expr m st in Ok (nullable_schema member, st)
  | TCursorQuery => Ok (cursor_query_schema, st)
  | TCursorPage m =>
      let? (member, st) := project_expr m st in Ok (cursor_page_schema member, st)
  end.

(** The loop over the fields of a model *)
Fixpoint project_fields (fields : list (string * ModelField))
    (properties : list (string * Json)) (required : list Json) (st : projection) :
  result (Json * projection) project_error :=
  match fields with
  | [] => Ok (model_schema properties required, st)
  | (name, field) :: fields =>
      let? (schema, st) := project_expr (field_ty field) st in
      project_fields fields (map_insert name schema properties)
        (if field_optional field then required else (required ++ [JString name])%list) st
  end.

Definition project_definition (d : TypeDefinition) (st : projection) :
  result (Json * projection) project_error :=
  match d with
  | DModel fields => project_fields fields [] [] st
  | DEnum symbols => Ok (enum_schema symbols, st)
  | DAlias e => project_expr e st
  end.

End Expressions.

(** [project_named] *)
Fixpoint project_named (fuel : nat) (r : TypeRef) (st : projection) :
  result projection project_error :=
  match fuel with
  | O => Err OutOfFuel
  | S fuel =>
      let '(definitions, visiting) := st in
      let key := definition_key r in
      if bool_decide (is_Some (map_get key definitions)) || bool_decide (r ∈ visiting)
      then Ok st
      else
        let? package := ok_or (bt_get (ref_package r) g) (PackageAbsent (ref_package r)) in
        let? definition := ok_or (bt_get (ref_id r) (package_types package))
          (TypeAbsent (ref_id r) (ref_package r)) in
        let? (value, (definitions, visiting)) :=
          project_definition (project_named fuel) definition (definitions, r :: visiting) in
        Ok (map_insert key value definitions, filter (fun r' => r' <> r) visiting)
  end.

(** [json_schema] *)
Definition json_schema (root : TypeRef) : result Json project_error :=
  let? (definitions, _) := project_named (S (List.length (graph_types g))) root ([], []) in
  Ok (JObject
    [("$defs", JObject definitions);
     ("$ref", JString ("#/$defs/" +:+ definition_key root));
     ("$schema", JString "https://json-schema.org/draft/2020-12/schema")]).

End Projection.

(** ** The schemas on their own

    What the projection gives for an expression or a definition does not depend on the
    collections it keeps. *)

Fixpoint expr_schema (e : TypeExpression) : option Json :=
  match e with
  | TNamed r => Some (ref_schema r)
  | TPrimitive p b => primitive_schema p b
  | TList m b => items ← expr_schema m; Some (list_schema items b)
  | TMap m => member ← expr_schema m; Some (map_schema member)
  | TNullable m => member ← expr_schema m; Some (nullable_schema member)
  | TCursorQuery => Some cursor_query_schema
  | TCursorPage m => member ← expr_schema m; Some (cursor_page_schema member)
  end.

Fixpoint fields_schema (fields : list (string * ModelField))
    (properties : list (string * Json)) (required : list Json) : option Json :=
  match fields with
  | [] => Some (model_schema properties required)
  | (name, field) :: fields =>
      schema ← expr_schema (field_ty field);
      fields_schema fields (map_insert name schema properties)
        (if field_optional field then required else (required ++ [JString name])%list)
  end.

Definition def_schema (d : TypeDefinition) : option Json :=
  match d with
  | DModel fields => fields_schema fields [] []
  | DEnum symbols => Some (enum_schema symbols)
  | DAlias e => expr_schema e
  end.

(** ** Keys *)

Lemma key_split a b a' b' :
  all_chars name_char a = true -> all_chars name_char a' = true ->
  a +:+ "." +:+ b = a' +:+ "." +:+ b' -> a = a' /\ b = b'.
Proof.
  revert a'. induction a as [|c a IH]; intros [|c' a']; cbn; intros Ha Ha' Heq;
    simplify_eq; try done.
  apply andb_true_iff in Ha as [_ Ha], Ha' as [_ Ha'].
  match goal with H : _ = _ |- _ => destruct (IH a' Ha Ha' H) as [-> ->] end. done.
Qed.

Lemma definition_key_inj r r' :
  plain_ref r = true -> plain_ref r' = true -> definition_key r = definition_key r' -> r = r'.
Proof.
  intros [H _]%andb_true_iff [H' _]%andb_true_iff Heq.
  destruct (key_split _ _ _ _ H H' Heq). by destruct r, r'; cbn in *; subst.
Qed.

(** ** The collections *)

Section Collections.
  Variable g : PackageGraph.

(** A type is finished, or one of those being visited. *)
Definition covered (st : projection) (r : TypeRef) : Prop :=
  is_Some (map_get (definition_key r) st.1) \/ r ∈ st.2.

(** An entry of the definitions that belongs there. *)
Definition entry_ok (st : projection) (k : string) (v : Json) : Prop :=
  exists r d, k = definition_key r /\ type_of g r = Some d /\ def_schema d = Some v
    /\ forall r', r' ∈ definition_refs d -> covered st r'.

(** What a part of the projection does to the collections. *)
Record projected (st st' : projection) : Prop := {
  same_visiting : st'.2 = st.2;
  definitions_grow k v : map_get k st.1 = Some v -> map_get k st'.1 = Some v;
  definitions_new k v : map_get k st'.1 = Some v ->
    map_get k st.1 = Some v \/ entry_ok st' k v;
}.

Lemma covered_projected st st' r : projected st st' -> covered st r -> covered st' r.
Proof.
  intros Hp [[v Hv]|Hr]; [left; exists v; by eapply definitions_grow|].
  right. by rewrite (same_visiting _ _ Hp).
Qed.

Lemma projected_refl st : projected st st.
Proof. split; auto. Qed.

Lemma projected_trans a b c : projected a b -> projected b c -> projected a c.
Proof.
  intros Hab Hbc. split.
  - by rewrite (same_visiting _ _ Hbc), (same_visiting _ _ Hab).
  - intros k v Hk. exact (definitions_grow _ _ Hbc _ _ (definitions_grow _ _ Hab _ _ Hk)).
  - intros k v [Hk|Hk]%(definitions_new _ _ Hbc); [|by right].
    destruct (definitions_new _ _ Hab _ _ Hk) as [|(r & d & ? & ? & ? & Hrefs)]; [by left|].
    right. exists r, d. repeat split; try done. intros r' Hr'. eapply covered_projected; [exact Hbc|auto].
Qed.

Section Expressions.
  Variable named : TypeRef -> projection -> result projection project_error.
  Hypothesis named_ok : forall r st st',
    named r st = Ok st' -> projected st st' /\ covered st' r.

(** What a part of the projection that gives [schema] has done. *)
Definition gave (wanted : option Json) (refs : list TypeRef) (st : projection)
    (schema : Json) (st' : projection) : Prop :=
  wanted = Some schema /\ projected st st' /\ forall r, r ∈ refs -> covered st' r.

Lemma project_expr_ok e st schema st' :
  project_expr named e st = Ok (schema, st') ->
  gave (expr_schema e) (expression_refs e) st schema st'.
Proof.
  revert schema. induction e as [p b|r|m IH b|m IH|m IH| |m IH]; intros schema; cbn.
  - destruct (primitive_schema p b) as [s|]; cbn; intros [= <- <-].
    repeat split; auto. by intros r ?%elem_of_nil.
  - destruct (named r st) as [st1|] eqn:Hn; [|done]. intros [= <- <-].
    apply named_ok in Hn as [Hp Hc]. repeat split; try apply Hp.
    by intros r' ->%list_elem_of_singleton.
  - destruct (project_expr named m st) as [[s st1]|] eqn:Hm; [|done]. intros [= <- <-].
    destruct (IH s eq_refl) as (-> & Hp & Hr). by repeat split; try apply Hp.
  - destruct (project_expr named m st) as [[s st1]|] eqn:Hm; [|done]. intros [= <- <-].
    destruct (IH s eq_refl) as (-> & Hp & Hr). by repeat split; try apply Hp.
  - destruct (project_expr named m st) as [[s st1]|] eqn:Hm; [|done]. intros [= <- <-].
    destruct (IH s eq_refl) as (-> & Hp & Hr). by repeat split; try apply Hp.
  - intros [= <- <-]. repeat split; auto. by intros r ?%elem_of_nil.
  - destruct (project_expr named m st) as [[s st1]|] eqn:Hm; [|done]. intros [= <- <-].
    destruct (IH s eq_refl) as (-> & Hp & Hr). by repeat split; try apply Hp.
Qed.

Lemma project_fields_ok fields properties required st schema st' :
  project_fields named fields properties required st = Ok (schema, st') ->
  gave (fields_schema fields properties required) (definition_refs (DModel fields))
    st schema st'.
Proof.
  revert properties required st.
  induction fields as [|[name field] fields IH]; intros properties required st; cbn.
  - intros [= <- <-]. repeat split; auto. by intros r ?%elem_of_nil.
  - destruct (project_expr named (field_ty field) st) as [[s st1]|] eqn:He; [|done].
    destruct (project_expr_ok _ _ _ _ He) as (-> & Hp1 & Hr1). cbn.
    intros (Hs & Hp2 & Hr2)%IH. split; [done|]. split; [by eapply projected_trans|].
    intros r [Hr|Hr]%elem_of_app; [|by apply Hr2].
    eapply covered_projected; [exact Hp2|by apply Hr1].
Qed.

Lemma project_definition_ok d st schema st' :
  project_definition named d st = Ok (schema, st') ->
  gave (def_schema d) (definition_refs d) st schema st'.
Proof.
  destruct d as [fields|symbols|e]; cbn [project_definition].
  - apply project_fields_ok.
  - intros [= <- <-]. repeat split; auto. by intros r ?%elem_of_nil.
  - apply project_expr_ok.
Qed.

End Expressions.
End Collections.

(** ** References *)

Section Named.
  Variable g : PackageGraph.

(** The step of [project_named] that projects a definition. *)
Lemma project_named_inv fuel r st st' :
  project_named g fuel r st = Ok st' ->
  (st' = st /\ covered st r)
  \/ exists fuel' d value definitions visiting,
    fuel = S fuel' /\ ~ covered st r /\ type_of g r = Some d
    /\ project_definition (project_named g fuel') d (st.1, r :: st.2)
       = Ok (value, (definitions, visiting))
    /\ st' = (map_insert (definition_key r) value definitions,
              filter (fun r' => r' <> r) visiting).
Proof.
  destruct fuel as [|fuel]; cbn [project_named]; [done|]. destruct st as [defs vis].
  destruct (bool_decide (is_Some (map_get (definition_key r) defs))) eqn:Hd; cbn [orb].
  { intros [= <-]. left. split; [done|]. left. by apply bool_decide_eq_true in Hd. }
  destruct (bool_decide (r ∈ vis)) eqn:Hv.
  { intros [= <-]. left. split; [done|]. right. by apply bool_decide_eq_true in Hv. }
  apply bool_decide_eq_false in Hd, Hv. unfold type_of.
  destruct (bt_get (ref_package r) g) as [p|]; cbn; [|done].
  destruct (bt_get (ref_id r) (package_types p)) as [d|]; cbn; [|done].
  destruct (project_definition _ d _) as [[value [defs' vis']]|] eqn:Hp; [|done].
  intros [= <-]. right. exists fuel, d, value, defs', vis'.
  repeat split; try done. intros [?|?]; contradiction.
Qed.

Lemma filter_visiting r (l : list TypeRef) : r ∉ l -> filter (fun r' => r' <> r) (r :: l) = l.
Proof.
  intros Hr. rewrite filter_cons, decide_False by (intros Hne; by apply Hne).
  apply filter_all. intros x Hx ->. contradiction.
Qed.

Hypothesis wf : graph_wf g.

Lemma project_named_ok fuel r st st' :
  project_named g fuel r st = Ok st' -> projected g st st' /\ covered st' r.
Proof.
  revert r st st'. induction fuel as [|fuel IH]; intros r st st' H; [done|].
  apply project_named_inv in H as [[-> Hc]|(fuel' & d & value & defs & vis & Hf & Hnew & Hd & Hp & ->)].
  { split; [apply projected_refl|done]. }
  simplify_eq. pose proof (project_definition_ok g _ IH _ _ _ _ Hp) as (Hs & Hpr & Hrefs).
  assert (Hvis : filter (fun r' => r' <> r) vis = st.2).
  { pose proof (same_visiting _ _ _ Hpr) as Hv. cbn in Hv. rewrite Hv. apply filter_visiting.
    intros Hr. apply Hnew. by right. }
  assert (Hkey : forall v, map_get (definition_key r) defs = Some v -> v = value).
  { intros v [Hv|(r' & d' & Hk & Hd' & Hs' & _)]%(definitions_new _ _ _ Hpr).
    - contradict Hnew. left. by exists v.
    - apply definition_key_inj in Hk as <-; [|by eapply wf_plain..]. congruence. }
  assert (Hcov : forall r', covered (defs, vis) r' ->
    covered (map_insert (definition_key r) value defs, st.2) r').
  { intros r' Hr'. unfold covered. cbn [fst]. rewrite map_get_insert.
    destruct (String.eqb_spec (definition_key r') (definition_key r)); [left; by eexists|].
    destruct Hr' as [?|Hr']; [by left|]. right. cbn.
    rewrite <- Hvis. apply list_elem_of_filter. split; [congruence|done]. }
  rewrite Hvis. split; [split|].
  - done.
  - intros k v Hk%(definitions_grow _ _ _ Hpr). cbn [fst]. rewrite map_get_insert.
    destruct (String.eqb_spec k (definition_key r)) as [->|]; [|done].
    f_equal. symmetry. by apply Hkey.
  - intros k v. cbn [fst]. rewrite map_get_insert.
    destruct (String.eqb_spec k (definition_key r)) as [->|].
    + intros [= <-]. right. exists r, d. repeat split; try done. auto.
    + intros [Hk|(r' & d' & ? & ? & ? & Hr')]%(definitions_new _ _ _ Hpr); [by left|].
      right. exists r', d'. repeat split; try done. auto.
  - left. cbn [fst]. rewrite map_get_insert, String.eqb_refl. by eexists.
Qed.

(** The definitions of a schema document: each belongs to a declared type, and the types it
    refers to are among them. *)
Definition complete_definitions (defs : list (string * Json)) : Prop :=
  forall k v, map_get k defs = Some v ->
  exists r d, k = definition_key r /\ type_of g r = Some d /\ def_schema d = Some v
    /\ forall r', r' ∈ definition_refs d -> is_Some (map_get (definition_key r') defs).

Lemma json_schema_definitions root schema :
  json_schema g root = Ok schema ->
  exists defs,
    schema = JObject
      [("$defs", JObject defs);
       ("$ref", JString ("#/$defs/" +:+ definition_key root));
       ("$schema", JString "https://json-schema.org/draft/2020-12/schema")]
    /\ complete_definitions defs /\ is_Some (map_get (definition_key root) defs).
Proof.
  unfold json_schema. intros H. apply let_ok in H as ([defs vis] & Hn & [= <-]).
  apply project_named_ok in Hn as [Hp Hr]. pose proof (same_visiting _ _ _ Hp) as Hv.
  cbn in Hv. subst vis.
  assert (Hnone : forall r, covered (defs, []) r -> is_Some (map_get (definition_key r) defs))
    by (intros r [?|?%elem_of_nil]; done).
  exists defs. repeat split; [|by apply Hnone].
  intros k v [?|(r & d & ? & ? & ? & Hrefs)]%(definitions_new _ _ _ Hp); [done|].
  exists r, d. repeat split; try done. auto.
Qed.

End Named.

(** ** Errors *)

Lemma numeric_json_fits p b : bound_fits p b = true -> is_Some (numeric_json b).
Proof.
  destruct b as [z|d]; cbn; [|by eexists]. intros Hz.
  destruct (_ && _)%bool eqn:H1; [by eexists|].
  destruct ((0 <=? z)%Z && (z <=? 18446744073709551615)%Z) eqn:H2; [by eexists|].
  exfalso. destruct p; cbn in Hz; try done;
    apply andb_true_iff in Hz as [?%Z.leb_le ?%Z.leb_le];
    apply andb_false_iff in H1, H2; rewrite !Z.leb_gt in H1, H2; lia.
Qed.

Lemma primitive_schema_fits p b : bounds_fit p b = true -> is_Some (primitive_schema p b).
Proof.
  unfold bounds_fit. intros [[Hmin Hmax]%andb_true_iff _]%andb_true_iff.
  assert (Hset : forall k o schema, option_all (bound_fits p) o = true ->
    is_Some (set_bound k o schema)).
  { intros k [o|] schema Ho; cbn; [|by eexists].
    destruct (numeric_json_fits p o Ho) as [j ->]. by eexists. }
  unfold primitive_schema. destruct p; try by eexists.
  all: match goal with |- context [set_bound "minimum" ?o ?s] =>
    destruct (Hset "minimum" o s Hmin) as [s' ->]; cbn [mbind option_bind]; by apply Hset end.
Qed.

(** An error that a part of the projection gives comes from a reference, or from a bound
    that does not fit. *)
Section ExpressionErrors.
  Variable named : TypeRef -> projection -> result projection project_error.
  Variable bad : project_error -> Prop.
  Variable visiting : list TypeRef.
  Hypothesis named_visiting : forall r st st', named r st = Ok st' -> st'.2 = st.2.

Lemma project_expr_visiting e st schema st' :
  project_expr named e st = Ok (schema, st') -> st'.2 = st.2.
Proof.
  revert schema. induction e as [p b|r|m IH b|m IH|m IH| |m IH]; intros schema H; cbn in H;
    try (by destruct (project_expr named m st) as [[s st1]|]; [|done];
         injection H as <- <-; eapply IH).
  - by destruct (primitive_schema p b); [injection H as <- <-|].
  - destruct (named r st) eqn:Hn; [|done]. injection H as <- <-. by eapply named_visiting.
  - by injection H as <- <-.
Qed.

Lemma project_expr_err e st err :
  (forall r st err, r ∈ expression_refs e -> st.2 = visiting -> named r st = Err err -> ~ bad err) ->
  (expression_fits e = true \/ ~ bad Panicked) ->
  st.2 = visiting -> project_expr named e st = Err err -> ~ bad err.
Proof.
  induction e as [p b|r|m IH b|m IH|m IH| |m IH]; intros Hn Hfits Hst H; cbn in H; try done;
    try (destruct (project_expr named m st) as [[s st1]|err1] eqn:Hm; [done|];
         injection H as <-; apply IH; try done;
         destruct Hfits as [Hf|?]; first [by right|left; by apply andb_true_iff in Hf as [_ ?]]).
  - destruct (primitive_schema p b) eqn:Hp; cbn in H; [done|]. injection H as <-.
    destruct Hfits as [Hf|?]; [|done]. cbn in Hf.
    destruct (primitive_schema_fits _ _ Hf). congruence.
  - destruct (named r st) eqn:Hr; [done|]. injection H as <-.
    eapply Hn; [by apply list_elem_of_singleton|done..].
Qed.

Lemma project_fields_err fields properties required st err :
  (forall r st err, r ∈ definition_refs (DModel fields) -> st.2 = visiting ->
    named r st = Err err -> ~ bad err) ->
  (definition_fits (DModel fields) = true \/ ~ bad Panicked) ->
  st.2 = visiting -> project_fields named fields properties required st = Err err -> ~ bad err.
Proof.
  revert properties required st.
  induction fields as [|[name field] fields IH]; intros properties required st Hn Hfits Hst H;
    cbn in H; [done|].
  assert (Hf : (expression_fits (field_ty field) = true \/ ~ bad Panicked)
    /\ (definition_fits (DModel fields) = true \/ ~ bad Panicked)).
  { destruct Hfits as [[]%andb_true_iff|?]; auto. }
  destruct (project_expr named (field_ty field) st) as [[s st1]|err1] eqn:He.
  - apply (IH _ _ st1) in H; [done| |apply Hf|].
    + intros r st2 err2 Hr. apply Hn. cbn. apply elem_of_app. by right.
    + by rewrite (project_expr_visiting _ _ _ _ He).
  - injection H as <-. eapply project_expr_err; [|apply Hf|exact Hst|exact He].
    intros r st2 err2 Hr. apply Hn. cbn. apply elem_of_app. by left.
Qed.

Lemma project_definition_err d st err :
  (forall r st err, r ∈ definition_refs d -> st.2 = visiting -> named r st = Err err -> ~ bad err) ->
  (definition_fits d = true \/ ~ bad Panicked) ->
  st.2 = visiting -> project_definition named d st = Err err -> ~ bad err.
Proof.
  destruct d as [fields|symbols|e]; cbn [project_definition];
    [apply project_fields_err|done|apply project_expr_err].
Qed.

Lemma project_definition_visiting d st schema st' :
  project_definition named d st = Ok (schema, st') -> st'.2 = st.2.
Proof.
  destruct d as [fields|symbols|e]; cbn [project_definition].
  - generalize (@nil (string * Json)) (@nil Json). revert st.
    induction fields as [|[name field] fields IH]; intros st ps rs; cbn; [by intros [= <- <-]|].
    destruct (project_expr named (field_ty field) st) as [[s st1]|] eqn:He; [|done].
    intros ->%IH. by eapply project_expr_visiting.
  - by intros [= <- <-].
  - apply project_expr_visiting.
Qed.

End ExpressionErrors.

Section Errors.
  Variable g : PackageGraph.

Lemma project_named_visiting fuel r st st' :
  project_named g fuel r st = Ok st' -> st'.2 = st.2.
Proof.
  revert r st st'. induction fuel as [|fuel IH]; intros r st st' H; [done|].
  apply project_named_inv in H as [[-> _]|(fuel' & d & value & defs & vis & Hf & Hnew & _ & Hp & ->)];
    [done|]. simplify_eq.
  apply project_definition_visiting in Hp; [|exact IH]. cbn in Hp. subst vis. cbn.
  apply filter_visiting. intros Hr. apply Hnew. by right.
Qed.

(** The declared types that are not being visited. *)
Definition unvisited (visiting : list TypeRef) : list TypeRef :=
  filter (fun r => r ∉ visiting) (graph_types g).

Lemma unvisited_decreases visiting r :
  r ∈ graph_types g -> r ∉ visiting ->
  List.length (unvisited (r :: visiting)) < List.length (unvisited visiting).
Proof.
  intros Hr Hv. apply filter_decreases with (a := r); set_solver.
Qed.

(** The projection of a reference gives an error only when the type, or one that it
    reaches, is absent, or when a bound panics; never for want of fuel. *)
Lemma project_named_err (bad : project_error -> Prop) fuel r st err :
  ~ bad OutOfFuel \/ List.length (unvisited st.2) < fuel ->
  (~ bad Panicked \/ graph_wf g) ->
  ((forall p, ~ bad (PackageAbsent p)) /\ (forall i p, ~ bad (TypeAbsent i p))
   \/ graph_wf g /\ is_Some (type_of g r)) ->
  project_named g fuel r st = Err err -> ~ bad err.
Proof.
  revert r st err. induction fuel as [|fuel IH]; intros r st err Hfuel Hpanic Habsent H.
  { injection H as <-. destruct Hfuel; [done|lia]. }
  cbn in H. destruct st as [defs vis]. cbn in Hfuel.
  destruct (_ || _)%bool eqn:Hguard; [done|].
  apply orb_false_iff in Hguard as [_ Hvis%bool_decide_eq_false].
  destruct (type_of g r) as [d|] eqn:Hd.
  2: { destruct Habsent as [[Hno Hno']|[_ []]]; [|done]. unfold type_of in Hd.
       destruct (bt_get (ref_package r) g) as [package|]; cbn in Hd, H;
         [rewrite Hd in H; cbn in H|]; injection H as <-; auto. }
  pose proof (type_of_graph_types _ _ _ Hd) as Hin.
  pose proof (unvisited_decreases vis r Hin Hvis) as Hless.
  assert (Hp : project_definition (project_named g fuel) d (defs, r :: vis) = Err err).
  { unfold type_of in Hd. destruct (bt_get (ref_package r) g) as [package|]; cbn [mbind option_bind] in Hd;
      [|done].
    cbn [ok_or] in H. rewrite Hd in H. cbn [ok_or] in H.
    destruct (project_definition _ d _) as [[? [? ?]]|]; congruence. }
  revert Hp. apply project_definition_err with (visiting := r :: vis).
  - apply project_named_visiting.
  - intros r' st' err' Hr' Hst'. apply IH; [|done|].
    + destruct Hfuel as [?|Hfuel]; [by left|]. right. rewrite Hst'. lia.
    + destruct Habsent as [?|[Hwf _]]; [by left|]. right. split; [done|].
      by eapply wf_closed.
  - destruct Hpanic as [?|Hwf]; [by right|]. left. by eapply wf_fits.
  - done.
Qed.

End Errors.

(** The projection never runs out of fuel, whatever the graph. *)
Lemma json_schema_fuel g root : json_schema g root <> Err OutOfFuel.
Proof.
  unfold json_schema. intros H.
  destruct (project_named g _ root ([], [])) as [[defs vis]|err] eqn:Hn; [done|].
  injection H as ->.
  refine (project_named_err g (fun e => e = OutOfFuel) _ _ _ _ _ _ _ Hn eq_refl);
    [right|left; discriminate|left; split; discriminate].
  unfold unvisited. pose proof (length_filter (.∉ []) (graph_types g)). cbn. lia.
Qed.

(** A declared type of a well-formed graph has a schema. *)
Lemma json_schema_total g root :
  graph_wf g -> is_Some (type_of g root) -> exists schema, json_schema g root = Ok schema.
Proof.
  intros Hwf Hroot. unfold json_schema.
  destruct (project_named g _ root ([], [])) as [[defs vis]|err] eqn:Hn; [by eexists|].
  exfalso. refine (project_named_err g (fun _ => True) _ _ _ _ _ _ _ Hn I); auto.
  right. unfold unvisited. pose proof (length_filter (.∉ []) (graph_types g)). cbn. lia.
Qed.
