(* ===== verification/IdlMeaning.v ===== *)
(** * The values of a type

    Which JSON values a resolved type stands for, read off the type itself, and how they
    compare with what the schema of the projection accepts.  The documented wire values
    ([strict]) are 64-bit integers within their range and bounds, bytes in padded base64 and
    timestamps that are dates of the calendar; these are annotations that JSON Schema does not
    check, so without [strict] such a value only has the shape of the text.  A model is open to
    members it does not declare; [reserved] leaves out the values in which such a member has
    one of the given names. *)

From Stdlib Require Import Ascii String QArith.
From S2P Require Import Prelude RustStr Extern Json IdlTypes JsonSchema IdlSchema.

Local Open Scope string_scope.

Definition number_in (b : Bounds) (q : Q) : bool :=
  option_all (fun m => Qle_bool (bound_value m) q) (b_min b)
  && option_all (fun m => Qle_bool q (bound_value m)) (b_max b).

Definition count_in (b : Bounds) (n : N) : bool :=
  option_all (fun m => m <=? n)%N (min_count b) && option_all (fun m => n <=? m)%N (max_count b).

Definition in_domain (p : Primitive) (q : Q) : bool :=
  option_all (fun '(lo, hi) => Qle_bool (inject_Z lo) q && Qle_bool q (inject_Z hi))
    (bound_domain p).

(** The value of the decimal text of an integer. *)
Definition decimal_value (s : string) : option Z :=
  match s with
  | String "-" s => n ← digits_value 0 s; Some (- Z.of_N n)%Z
  | _ => n ← digits_value 0 s; Some (Z.of_N n)
  end.

Definition decimal_in (p : Primitive) (b : Bounds) (s : string) : bool :=
  match decimal_value s with
  | Some z => in_domain p (inject_Z z) && number_in b (inject_Z z)
  | None => false
  end.

(** Padded base64: groups of four characters, the last of which may end in [=]. *)
Definition is_base64 (c : ascii) : bool :=
  is_ascii_lowercase c || is_ascii_uppercase c || is_ascii_digit c
  || Ascii.eqb c "+" || Ascii.eqb c "/".

Fixpoint padded_base64 (s : string) : bool :=
  match s with
  | EmptyString => true
  | String a (String b (String c (String d rest))) =>
      is_base64 a && is_base64 b
      && (is_base64 c && is_base64 d && padded_base64 rest
          || is_base64 c && Ascii.eqb d "=" && String.eqb rest ""
          || Ascii.eqb c "=" && Ascii.eqb d "=" && String.eqb rest "")
  | _ => false
  end.

Definition days_in_month (year month : N) : N :=
  if (month =? 2)%N then
    if ((year mod 4 =? 0) && negb (year mod 100 =? 0) || (year mod 400 =? 0))%N then 29 else 28
  else if bool_decide (month ∈ [4; 6; 9; 11]%N) then 30 else 31.

(** The text [YYYY-MM-DDThh:mm:ss…] of an instant that is not in a leap second *)
Definition calendar_instant (s : string) : bool :=
  let part start n := digits_value 0 (String.substring start n s) in
  match part 0 4, part 5 2, part 8 2, part 11 2, part 14 2, part 17 2 with
  | Some year, Some month, Some day, Some hour, Some minute, Some second =>
      ((1 <=? month) && (month <=? 12) && (1 <=? day) && (day <=? days_in_month year month)
       && (hour <=? 23) && (minute <=? 59) && (second <=? 59))%N
  | _, _, _, _, _, _ => false
  end.

Section Meaning.
  Context `{RegexEngine}.
  Variable strict : bool.
  Variable reserved : TypeRef -> string -> bool.

Definition primitive_ok (p : Primitive) (b : Bounds) (v : Json) : bool :=
  match p with
  | PString => match v with JString s => count_in b (chars_count s) | _ => false end
  | PBool => match v with JBool _ => true | _ => false end
  | PInt32 | PUint32 =>
      match v with
      | JNumber n =>
          number_is_integer n && in_domain p (number_value n) && number_in b (number_value n)
      | _ => false
      end
  | PInt64 =>
      match v with
      | JString s => pattern_matches INT64_PATTERN s && (negb strict || decimal_in p b s)
      | _ => false
      end
  | PUint64 =>
      match v with
      | JString s => pattern_matches UINT64_PATTERN s && (negb strict || decimal_in p b s)
      | _ => false
      end
  | PNumber => match v with JNumber n => number_in b (number_value n) | _ => false end
  | PBytes => match v with JString s => negb strict || padded_base64 s | _ => false end
  | PTimestamp =>
      match v with
      | JString s => pattern_matches TIMESTAMP_PATTERN s && (negb strict || calendar_instant s)
      | _ => false
      end
  | PUlid => match v with JString s => pattern_matches ULID_PATTERN s | _ => false end
  | PJson => true
  end.

(** A cursor is a non-empty string. *)
Definition cursor_ok (v : Json) : bool :=
  match v with JString s => (1 <=? chars_count s)%N | _ => false end.

Definition limit_ok (v : Json) : bool :=
  match v with
  | JNumber n =>
      number_is_integer n && Qle_bool 1 (number_value n)
      && Qle_bool (number_value n) (inject_Z 9007199254740991)
  | _ => false
  end.

(** A member, when it is there, is as it should be. *)
Definition member_ok (ok : Json -> bool) (name : string) (members : list (string * Json)) : bool :=
  option_all ok (map_get name members).

Definition field_ok (ok : TypeExpression -> Json -> bool) (members : list (string * Json))
    (field : string * ModelField) : bool :=
  match map_get (fst field) members with
  | Some v => ok (field_ty (snd field)) v
  | None => field_optional (snd field)
  end.

(** Every member is one of the fields, or its name is not taken. *)
Definition members_free (taken : string -> bool) (fields : list (string * ModelField))
    (members : list (string * Json)) : bool :=
  forallb (fun member =>
    bool_decide (is_Some (bt_get (fst member) fields)) || negb (taken (fst member))) members.

Definition definition_ok (ok : TypeExpression -> Json -> bool) (r : TypeRef) (d : TypeDefinition)
    (v : Json) : bool :=
  match d with
  | DModel fields =>
      match v with
      | JObject members =>
          forallb (field_ok ok members) fields && members_free (reserved r) fields members
      | _ => false
      end
  | DEnum _ => match v with JString _ => true | _ => false end
  | DAlias e => ok e v
  end.

Definition page_ok (v : Json) : bool :=
  match v with JObject members => member_ok cursor_ok "nextCursor" members | _ => false end.

(** [has_type g fuel e v]: [v] is a value of [e], following names up to [fuel] deep. *)
Fixpoint has_type (g : PackageGraph) (fuel : nat) : TypeExpression -> Json -> bool :=
  fix go (e : TypeExpression) (v : Json) {struct e} : bool :=
    match e with
    | TPrimitive p b => primitive_ok p b v
    | TNamed r =>
        match fuel, type_of g r with
        | S fuel, Some d => definition_ok (has_type g fuel) r d v
        | _, _ => false
        end
    | TList m b =>
        match v with
        | JArray items => count_in b (len items) && forallb (go m) items
        | _ => false
        end
    | TMap m =>
        match v with
        | JObject members => forallb (fun member => go m (snd member)) members
        | _ => false
        end
    | TNullable m => go m v || bool_decide (v = JNull)
    | TCursorQuery =>
        match v with
        | JObject members =>
            member_ok cursor_ok "cursor" members && member_ok limit_ok "limit" members
        | _ => false
        end
    | TCursorPage m =>
        match v with
        | JObject members =>
            match map_get "items" members, map_get "page" members with
            | Some (JArray items), Some page => forallb (go m) items && page_ok page
            | _, _ => false
            end
        | _ => false
        end
    end.

(** A value of a declared type. *)
Definition value_of (g : PackageGraph) (r : TypeRef) (v : Json) : Prop :=
  exists fuel, has_type g fuel (TNamed r) v = true.

End Meaning.

(** A model that is open to any member it does not declare *)
Definition open_model : TypeRef -> string -> bool := fun _ _ => false.

Lemma members_free_open r fields members : members_free (open_model r) fields members = true.
Proof. apply forallb_forall. intros [name v] _. by rewrite orb_true_r. Qed.

(** ** Documented values and values of the right shape *)

(** The primitives whose values JSON Schema checks in full *)
Definition schema_checks (p : Primitive) : bool :=
  negb (bool_decide (p ∈ [PInt64; PUint64; PBytes; PTimestamp])).

Fixpoint expression_checked (e : TypeExpression) : bool :=
  match e with
  | TPrimitive p _ => schema_checks p
  | TNamed _ | TCursorQuery => true
  | TList m _ | TMap m | TNullable m | TCursorPage m => expression_checked m
  end.

Definition definition_checked (d : TypeDefinition) : bool :=
  match d with
  | DModel fields => forallb (fun field => expression_checked (field_ty (snd field))) fields
  | DEnum _ => true
  | DAlias e => expression_checked e
  end.

(** A family of types that is closed under references *)
Definition family (g : PackageGraph) (P : TypeRef -> Prop) : Prop :=
  forall r d r', P r -> type_of g r = Some d -> r' ∈ definition_refs d -> P r'.

(** The type, and every type it refers to, has only such primitives. *)
Definition fully_checked (g : PackageGraph) (r : TypeRef) : Prop :=
  exists P : TypeRef -> Prop, P r /\ family g P
    /\ forall r d, P r -> type_of g r = Some d -> definition_checked d = true.

Lemma forallb_impl {A} (f f' : A -> bool) l :
  (forall x, f x = true -> f' x = true) -> forallb f l = true -> forallb f' l = true.
Proof. intros Hf. rewrite !forallb_forall. auto. Qed.

(** Two meanings of which the first implies the second on the primitives of a family of types *)
Section Weaken.
  Context `{RegexEngine}.
  Variables strict strict' : bool.
  Variables reserved reserved' : TypeRef -> string -> bool.
  Variable checked : bool.
  Hypothesis primitives_weaken : forall p b v, (checked = true -> schema_checks p = true) ->
    primitive_ok strict p b v = true -> primitive_ok strict' p b v = true.
  Hypothesis reserved_weaken : forall r name, reserved' r name = true -> reserved r name = true.

  Variable g : PackageGraph.
  Variable P : TypeRef -> Prop.
  Hypothesis closed_family : family g P.
  Hypothesis all_checked : forall r d, P r -> type_of g r = Some d ->
    checked = true -> definition_checked d = true.

Notation before := (has_type strict reserved g).
Notation after := (has_type strict' reserved' g).

Lemma expression_weaken fuel e v :
  (forall r w, P r -> before fuel (TNamed r) w = true -> after fuel (TNamed r) w = true) ->
  (checked = true -> expression_checked e = true) -> (forall r, r ∈ expression_refs e -> P r) ->
  before fuel e v = true -> after fuel e v = true.
Proof.
  intros Hnamed. revert v. induction e as [p b|r|m IH b|m IH|m IH| |m IH]; intros v Hc Hr Hv.
  - destruct fuel; cbn in Hv |- *; by apply primitives_weaken.
  - apply Hnamed; [apply Hr; by left|done].
  - pose proof (fun w => IH w Hc Hr) as Hm. destruct fuel, v; cbn in Hv |- *; try done;
      apply andb_true_iff in Hv as [-> Hv]; by eapply forallb_impl.
  - pose proof (fun w => IH w Hc Hr) as Hm. destruct fuel, v; cbn in Hv |- *; try done;
      (eapply forallb_impl; [|exact Hv]); auto.
  - pose proof (IH v Hc Hr) as Hm. destruct fuel; cbn in Hv |- *;
      apply orb_true_iff in Hv as [Hv| ->]; rewrite ?orb_true_r; try done;
      apply orb_true_iff; left; exact (Hm Hv).
  - by destruct fuel.
  - pose proof (fun w => IH w Hc Hr) as Hm. destruct fuel, v as [| | | | |ms]; cbn in Hv |- *; try done;
      destruct (map_get "items" ms) as [[]|]; try done; destruct (map_get "page" ms); try done;
      apply andb_true_iff in Hv as [Hi ->]; rewrite andb_true_r; by eapply forallb_impl.
Qed.

Lemma definition_weaken fuel r d v :
  (forall r w, P r -> before fuel (TNamed r) w = true -> after fuel (TNamed r) w = true) ->
  P r -> type_of g r = Some d ->
  definition_ok reserved (before fuel) r d v = true ->
  definition_ok reserved' (after fuel) r d v = true.
Proof.
  intros Hnamed Hr Hd. pose proof (closed_family r d) as Hrefs.
  pose proof (all_checked r d Hr Hd) as Hc.
  destruct d as [fields|symbols|e]; [|done|by apply expression_weaken; eauto].
  destruct v as [| | | | |ms]; cbn [definition_ok]; try done.
  intros [Hf Hm]%andb_true_iff. apply andb_true_iff. split.
  - apply forallb_forall. intros [name field] Hin.
    pose proof (proj1 (forallb_forall _ _) Hf _ Hin) as Hok. revert Hok. unfold field_ok. cbn [fst snd].
    destruct (map_get name ms) as [w|]; [|done]. apply expression_weaken; [done| |].
    + intros Hck. by apply (proj1 (forallb_forall _ _) (Hc Hck) _ Hin).
    + intros r' Hr'. eapply Hrefs; [done..|]. eapply field_refs; [by apply list_elem_of_In|done].
  - eapply forallb_impl; [|exact Hm]. intros [name w]. cbn.
    intros [->|Hn]%orb_true_iff; [done|]. apply orb_true_iff. right.
    destruct (reserved' r name) eqn:Ht; [|done]. by rewrite (reserved_weaken _ _ Ht) in Hn.
Qed.

Lemma value_weaken r v : P r -> value_of strict reserved g r v -> value_of strict' reserved' g r v.
Proof.
  intros Hr [fuel Hv]. exists fuel. revert r v Hr Hv.
  induction fuel as [|fuel IH]; intros r v Hr Hv; [done|]. cbn in Hv |- *.
  destruct (type_of g r) as [d|] eqn:Hd; [|done]. exact (definition_weaken fuel r d v IH Hr Hd Hv).
Qed.

End Weaken.

(** A documented value has the shape of its type, and more members may be reserved of it. *)
Lemma documented_shape `{RegexEngine} strict strict' reserved g r v :
  (strict' = true -> strict = true) ->
  value_of strict reserved g r v -> value_of strict' open_model g r v.
Proof.
  intros Hs. eapply (value_weaken strict strict' reserved open_model false) with (P := fun _ => True); try done.
  intros p b w _. destruct strict', strict; try done; [by discriminate Hs|].
  destruct p; cbn; destruct w; try done; rewrite ?andb_true_iff; by intros [? ?].
Qed.

(** For a type that is checked in full the two are the same. *)
Lemma checked_documented `{RegexEngine} g r v :
  fully_checked g r -> value_of false open_model g r v -> value_of true open_model g r v.
Proof.
  intros (P & Hr & Hfam & Hc).
  eapply (value_weaken false true open_model open_model true) with (P := P); try done; [|by eauto].
  intros p b w Hp. specialize (Hp eq_refl). by destruct p.
Qed.

(** ** The schema of a primitive *)

Lemma Qle_bool_trans a b c : Qle_bool a b = true -> Qle_bool b c = true -> Qle_bool a c = true.
Proof. rewrite !Qle_bool_iff. apply Qle_trans. Qed.

(** A bound within the domain makes the domain's own limit redundant. *)
Lemma Qle_bool_redundant_l lo m q :
  Qle_bool lo m = true -> Qle_bool m q = Qle_bool lo q && Qle_bool m q.
Proof.
  intros Hlo. destruct (Qle_bool m q) eqn:Hm; [|by rewrite andb_false_r].
  by rewrite (Qle_bool_trans _ _ _ Hlo Hm).
Qed.

Lemma Qle_bool_redundant_r hi m q :
  Qle_bool m hi = true -> Qle_bool q m = Qle_bool q hi && Qle_bool q m.
Proof.
  intros Hhi. destruct (Qle_bool q m) eqn:Hm; [|by rewrite andb_false_r].
  by rewrite (Qle_bool_trans _ _ _ Hm Hhi).
Qed.

Lemma JInt_value z : exists n, JInt z = JNumber n /\ number_value n = inject_Z z.
Proof.
  unfold JInt. destruct (Z.ltb_spec z 0).
  - by exists (NegInt z).
  - exists (PosInt (Z.to_N z)). cbn. by rewrite Z2N.id.
Qed.

Lemma numeric_json_value b j :
  numeric_json b = Some j -> exists n, j = JNumber n /\ number_value n = bound_value b.
Proof.
  destruct b as [z|d]; cbn.
  - destruct (_ && _)%bool; [intros [= <-]; by apply JInt_value|].
    destruct ((0 <=? z)%Z && _)%bool eqn:Hz; [|done]. intros [= <-].
    apply andb_true_iff in Hz as [Hz%Z.leb_le _].
    eexists. split; [done|]. cbn. by rewrite Z2N.id.
  - intros [= <-]. by eexists.
Qed.

Lemma inject_Z_le a b : Qle_bool (inject_Z a) (inject_Z b) = (a <=? b)%Z.
Proof. unfold Qle_bool. cbn. by rewrite !Z.mul_1_r. Qed.

Section Schemas.
  Context `{RegexEngine}.
  Variable defs : list (string * Json).

Lemma integer_schema_means fuel lo hi v :
  validates defs fuel (JObject [("maximum", JNumber hi); ("minimum", JNumber lo);
    ("type", JString "integer")]) v
  = match v with
    | JNumber n => number_is_integer n && (number_le lo n && number_le n hi)
    | _ => false
    end.
Proof.
  destruct fuel, v as [| |n| | |]; cbn; unfold assertion; cbn; try done;
    by destruct (number_le n hi), (number_le lo n), (number_is_integer n).
Qed.

(** The limits of an integer schema are the bounds, or the ends of the domain. *)
Lemma limits_mean p lo hi b mn mx n :
  bound_domain p = Some (lo, hi) -> bounds_fit p b = true ->
  number_value mn = from_option bound_value (inject_Z lo) (b_min b) ->
  number_value mx = from_option bound_value (inject_Z hi) (b_max b) ->
  number_le mn n && number_le n mx = in_domain p (number_value n) && number_in b (number_value n).
Proof.
  unfold bounds_fit, in_domain, number_in, number_le. intros Hd Hfit -> ->. rewrite Hd. cbn.
  apply andb_true_iff in Hfit as [[Hmin Hmax]%andb_true_iff _].
  assert (Hends : forall o, option_all (bound_fits p) o = true -> p <> PNumber ->
    match o with
    | Some m => Qle_bool (inject_Z lo) (bound_value m) = true
        /\ Qle_bool (bound_value m) (inject_Z hi) = true
    | None => True
    end).
  { intros [[z|d]|] Ho Hp; cbn in Ho |- *; [|by apply bool_decide_eq_true in Ho|done].
    rewrite Hd in Ho. rewrite !inject_Z_le. by apply andb_true_iff in Ho. }
  assert (Hp : p <> PNumber) by by intros ->.
  pose proof (Hends _ Hmin Hp) as Hlo. pose proof (Hends _ Hmax Hp) as Hhi.
  destruct (b_min b) as [m|], (b_max b) as [m'|]; cbn;
    try pose proof (Qle_bool_redundant_l _ _ (number_value n) (proj1 Hlo)) as Hl;
    try pose proof (Qle_bool_redundant_r _ _ (number_value n) (proj2 Hhi)) as Hr;
    repeat match goal with |- context [Qle_bool ?a ?b] => destruct (Qle_bool a b) end; done.
Qed.

Lemma integer_primitive_means p lo hi b s fuel v :
  bound_domain p = Some (lo, hi) -> bounds_fit p b = true ->
  base_schema p = JObject [("maximum", JInt hi); ("minimum", JInt lo); ("type", JString "integer")] ->
  (s0 ← set_bound "minimum" (b_min b) (base_schema p); set_bound "maximum" (b_max b) s0) = Some s ->
  validates defs fuel s v
  = match v with
    | JNumber n =>
        number_is_integer n && in_domain p (number_value n) && number_in b (number_value n)
    | _ => false
    end.
Proof.
  intros Hd Hfit -> Hs.
  assert (exists mn mx,
    s = JObject [("maximum", JNumber mx); ("minimum", JNumber mn); ("type", JString "integer")]
    /\ number_value mn = from_option bound_value (inject_Z lo) (b_min b)
    /\ number_value mx = from_option bound_value (inject_Z hi) (b_max b)) as (mn & mx & -> & Hmn & Hmx).
  { destruct (JInt_value lo) as (nl & Hl & Hlv), (JInt_value hi) as (nh & Hh & Hhv).
    rewrite Hl, Hh in Hs.
    destruct (b_min b) as [m|], (b_max b) as [m'|]; cbn in Hs;
      repeat match type of Hs with context [numeric_json ?m] =>
        let j := fresh "j" in let n := fresh "n" in let Hn := fresh "Hn" in
        destruct (numeric_json m) as [j|] eqn:Hn; cbn in Hs; [|done];
        apply numeric_json_value in Hn as (n & -> & Hn) end;
      injection Hs as <-; eexists _, _; (split; [done|by split]). }
  rewrite integer_schema_means. destruct v as [| |n| | |]; try done.
  by rewrite <- andb_assoc, (limits_mean p lo hi b mn mx).
Qed.

Lemma number_primitive_means b s fuel v :
  (s0 ← set_bound "minimum" (b_min b) (base_schema PNumber);
   set_bound "maximum" (b_max b) s0) = Some s ->
  validates defs fuel s v
  = match v with JNumber n => number_in b (number_value n) | _ => false end.
Proof.
  unfold number_in. intros Hs.
  destruct (b_min b) as [m|], (b_max b) as [m'|]; cbn in Hs;
    repeat match type of Hs with context [numeric_json ?m] =>
      let j := fresh "j" in let n := fresh "n" in let Hn := fresh "Hn" in
      destruct (numeric_json m) as [j|] eqn:Hn; cbn in Hs; [|done];
      apply numeric_json_value in Hn as (n & -> & Hn) end;
    injection Hs as <-; destruct fuel, v; cbn; unfold assertion; cbn; try done;
    unfold number_le; rewrite ?andb_true_r; congruence || by rewrite andb_comm; congruence.
Qed.

Lemma unbounded p b :
  bounds_fit p b = true -> bound_domain p = None -> p <> PNumber -> b_min b = None /\ b_max b = None.
Proof.
  unfold bounds_fit. intros [[Hmin Hmax]%andb_true_iff _]%andb_true_iff Hd Hp.
  assert (Ho : forall o, option_all (bound_fits p) o = true -> o = None); [|auto].
  intros [[z|d]|]; cbn; rewrite ?Hd; [done|by rewrite bool_decide_eq_false_2|done].
Qed.

Lemma decimal_schema_means fuel pattern kind mx mn v :
  validates defs fuel (JObject
    [("pattern", JString pattern); ("type", JString "string"); ("x-trellis-integer", kind);
     ("x-trellis-maximum", mx); ("x-trellis-minimum", mn)]) v
  = match v with JString s => pattern_matches pattern s | _ => false end.
Proof. destruct fuel, v; cbn; unfold assertion; cbn; by rewrite ?andb_true_r. Qed.

Lemma decimal_primitive_means p pattern b s fuel v :
  p = PInt64 /\ pattern = INT64_PATTERN \/ p = PUint64 /\ pattern = UINT64_PATTERN ->
  primitive_schema p b = Some s ->
  validates defs fuel s v = match v with JString s => pattern_matches pattern s | _ => false end.
Proof.
  intros [[-> ->]|[-> ->]] [= <-];
    destruct (b_min b) as [[?|?]|], (b_max b) as [[?|?]|]; exact (decimal_schema_means _ _ _ _ _ _).
Qed.

Definition count_limits (kmin kmax : string) (b : Bounds) : list (string * Json) :=
  (optional kmax (fun n => JNumber (PosInt n)) (max_count b)
   ++ optional kmin (fun n => JNumber (PosInt n)) (min_count b))%list.

Lemma string_schema_limits b :
  apply_count b "minLength" "maxLength" (base_schema PString)
  = JObject (count_limits "minLength" "maxLength" b ++ [("type", JString "string")])%list.
Proof. unfold apply_count, count_limits. by destruct (min_count b), (max_count b). Qed.

Lemma list_schema_limits s b :
  list_schema s b
  = JObject (("items", s) :: (count_limits "minItems" "maxItems" b ++ [("type", JString "array")]))%list.
Proof. unfold list_schema, apply_count, count_limits. by destruct (min_count b), (max_count b). Qed.

Lemma length_limits_mean fuel keywords b s :
  forallb (keyword_ok defs fuel keywords (JString s)) (count_limits "minLength" "maxLength" b)
  = count_in b (chars_count s).
Proof.
  unfold count_limits, count_in. destruct (min_count b), (max_count b); cbn; unfold assertion; cbn;
    rewrite ?andb_true_r; [apply andb_comm|done..].
Qed.

Lemma items_limits_mean fuel keywords b items :
  forallb (keyword_ok defs fuel keywords (JArray items)) (count_limits "minItems" "maxItems" b)
  = count_in b (len items).
Proof.
  unfold count_limits, count_in. destruct (min_count b), (max_count b); cbn; unfold assertion; cbn;
    rewrite ?andb_true_r; [apply andb_comm|done..].
Qed.

(** The schema of a primitive accepts its values. *)
Lemma primitive_schema_means fuel p b s v :
  bounds_fit p b = true -> primitive_schema p b = Some s ->
  validates defs fuel s v = primitive_ok false p b v.
Proof.
  intros Hfit Hs. destruct p.
  3: by apply (integer_primitive_means PInt32 (-2147483648) 2147483647).
  3: by apply (integer_primitive_means PUint32 0 4294967295).
  5: by apply number_primitive_means.
  3: rewrite (decimal_primitive_means PInt64 INT64_PATTERN b) by auto.
  4: rewrite (decimal_primitive_means PUint64 UINT64_PATTERN b) by auto.
  3, 4: destruct v; cbn; by rewrite ?andb_true_r.
  all: destruct (unbounded _ _ Hfit) as [Hmin Hmax]; [done|done|];
    unfold primitive_schema in Hs; rewrite Hmin, Hmax in Hs; injection Hs as <-.
  1: { rewrite string_schema_limits, validates_object, forallb_app. cbn [forallb].
       destruct v; try by (rewrite andb_comm; cbn; unfold assertion).
       rewrite length_limits_mean. cbn. unfold assertion. cbn. by rewrite andb_true_r. }
  all: match goal with |- context [base_schema ?p] =>
    let s := eval vm_compute in (base_schema p) in change (base_schema p) with s end;
    destruct fuel, v; cbn; unfold assertion; cbn; rewrite ?andb_true_r; done.
Qed.

(** ** The schema of a type *)

Lemma list_schema_means fuel s b (ok : Json -> bool) v :
  (forall w, validates defs fuel s w = ok w) ->
  validates defs fuel (list_schema s b) v
  = match v with JArray items => count_in b (len items) && forallb ok items | _ => false end.
Proof.
  intros Hs. rewrite list_schema_limits, validates_object. cbn [forallb].
  rewrite forallb_app. cbn [forallb].
  destruct v; try by (rewrite andb_comm, <- andb_assoc, andb_comm; cbn; unfold assertion).
  rewrite items_limits_mean. cbn. unfold assertion. cbn. rewrite andb_true_r.
  rewrite andb_comm. f_equal. by apply forallb_ext.
Qed.

Lemma map_schema_means fuel s (ok : Json -> bool) v :
  (forall w, validates defs fuel s w = ok w) ->
  validates defs fuel (map_schema s) v
  = match v with JObject ms => forallb (fun member => ok (snd member)) ms | _ => false end.
Proof.
  intros Hs. unfold map_schema. rewrite validates_object. cbn [forallb keyword_ok].
  rewrite assertion_applicator by set_solver.
  destruct v; cbn; unfold assertion; cbn; rewrite ?andb_true_r; try done.
  apply forallb_ext. intros [name w]. apply Hs.
Qed.

Lemma null_schema_means fuel v :
  validates defs fuel (JObject [("type", JString "null")]) v = bool_decide (v = JNull).
Proof. destruct fuel, v; cbn; by case_bool_decide. Qed.

Lemma nullable_schema_means fuel s (ok : Json -> bool) v :
  (forall w, validates defs fuel s w = ok w) ->
  validates defs fuel (nullable_schema s) v = ok v || bool_decide (v = JNull).
Proof.
  intros Hs. unfold nullable_schema. rewrite validates_object.
  cbn [forallb keyword_ok]. rewrite assertion_applicator by set_solver.
  cbn [String.eqb Ascii.eqb Bool.eqb existsb andb].
  by rewrite Hs, null_schema_means, orb_false_r, andb_true_r.
Qed.

(** The parts of an object schema that is open to other members. *)
Lemma open_object_means fuel properties required members (rest : list (string * Json)) :
  rest = [("required", JArray (map JString required)); ("type", JString "object")]
  \/ rest = [("type", JString "object")] /\ required = [] ->
  validates defs fuel (JObject (("additionalProperties", JBool true)
    :: ("properties", JObject properties) :: rest)) (JObject members)
  = forallb (fun '(name, sub) => member_ok (validates defs fuel sub) name members) properties
    && forallb (fun name => bool_decide (is_Some (map_get name members))) required.
Proof.
  intros Hrest. rewrite validates_object.
  assert (Hopen : forall (f : string -> bool), forallb (fun '(name, w) =>
    f name || validates defs fuel (JBool true) w) members = true).
  { intros f. induction members as [|[name w] ms IH]; [done|]. cbn [forallb]. rewrite IH.
    destruct fuel; cbn; by rewrite orb_true_r. }
  assert (Hreq : forallb (member_present members) (map JString required)
    = forallb (fun name => bool_decide (is_Some (map_get name members))) required).
  { clear Hrest. induction required as [|r rs IH]; [done|]. cbn. by rewrite IH. }
  destruct Hrest as [->|[-> ->]]; cbn [forallb keyword_ok];
    rewrite (assertion_applicator "additionalProperties"), (assertion_applicator "properties")
      by set_solver;
    cbn [String.eqb Ascii.eqb Bool.eqb andb]; rewrite Hopen; cbn [andb].
  all: unfold assertion; cbn [String.eqb Ascii.eqb Bool.eqb has_json_type andb forallb];
    by rewrite ?andb_true_r, ?Hreq.
Qed.

(** A value of another JSON type than the schema asks for. *)
Lemma wrong_type fuel keywords t v :
  ("type", JString t) ∈ keywords -> has_json_type t v = false ->
  validates defs fuel (JObject keywords) v = false.
Proof.
  intros Hin Ht. rewrite validates_object. apply not_true_iff_false. intros Hall.
  eapply forallb_forall in Hall; [|by apply list_elem_of_In].
  apply andb_true_iff in Hall as [Ha _]. apply andb_true_iff in Ha as [_ Ha].
  cbn in Ha. congruence.
Qed.

Lemma cursor_schema_means fuel v : validates defs fuel cursor_schema v = cursor_ok v.
Proof. destruct fuel, v; cbn; unfold assertion; cbn; by rewrite ?andb_true_r. Qed.

Lemma cursor_query_means fuel v :
  validates defs fuel cursor_query_schema v
  = match v with
    | JObject ms => member_ok cursor_ok "cursor" ms && member_ok limit_ok "limit" ms
    | _ => false
    end.
Proof.
  destruct v as [| | | | |ms]; try by (eapply wrong_type; [repeat constructor|done]).
  unfold cursor_query_schema.
  rewrite (open_object_means fuel _ [] ms [("type", JString "object")]) by auto.
  cbn [forallb]. rewrite !andb_true_r. unfold member_ok. f_equal.
  - destruct (map_get "cursor" ms); [apply cursor_schema_means|done].
  - destruct (map_get "limit" ms); [|done]. cbn [option_all].
    change (JInt 9007199254740991) with (JNumber (PosInt 9007199254740991)).
    change (JInt 1) with (JNumber (PosInt 1)). rewrite integer_schema_means.
    destruct j; try done. cbn [limit_ok]. by rewrite <- andb_assoc.
Qed.

Lemma page_schema_means fuel v :
  validates defs fuel (JObject
    [("additionalProperties", JBool true);
     ("properties", JObject [("nextCursor", cursor_schema)]);
     ("type", JString "object")]) v = page_ok v.
Proof.
  destruct v as [| | | | |ms]; try by (eapply wrong_type; [repeat constructor|done]).
  rewrite (open_object_means fuel _ [] ms [("type", JString "object")]) by auto.
  cbn [forallb]. rewrite !andb_true_r. unfold page_ok, member_ok.
  destruct (map_get "nextCursor" ms); [apply cursor_schema_means|done].
Qed.

Lemma cursor_page_means fuel s (ok : Json -> bool) v :
  (forall w, validates defs fuel s w = ok w) ->
  validates defs fuel (cursor_page_schema s) v
  = match v with
    | JObject ms =>
        match map_get "items" ms, map_get "page" ms with
        | Some (JArray items), Some page => forallb ok items && page_ok page
        | _, _ => false
        end
    | _ => false
    end.
Proof.
  intros Hs.
  destruct v as [| | | | |ms]; try by (eapply wrong_type; [repeat constructor|done]).
  unfold cursor_page_schema.
  rewrite (open_object_means fuel _ ["items"; "page"] ms
    [("required", JArray [JString "items"; JString "page"]); ("type", JString "object")]) by auto.
  cbn [forallb]. unfold member_ok.
  destruct (map_get "items" ms) as [items|], (map_get "page" ms) as [page|]; cbn [option_all];
    rewrite ?andb_false_r; try (by destruct items); try done.
  rewrite page_schema_means.
  pose proof (list_schema_means fuel s (Build_Bounds None None None None) ok items Hs) as Hi.
  change (list_schema s _) with (JObject [("items", s); ("type", JString "array")]) in Hi.
  rewrite Hi, !bool_decide_eq_true_2 by (by eexists). destruct items; cbn; by rewrite ?andb_true_r.
Qed.

Lemma ref_schema_means fuel r v :
  plain_ref r = true ->
  validates defs fuel (ref_schema r) v
  = match fuel, map_get (definition_key r) defs with
    | S fuel, Some s => validates defs fuel s v
    | _, _ => false
    end.
Proof.
  intros [Hp Hi]%andb_true_iff. unfold ref_schema. rewrite validates_object.
  cbn [forallb keyword_ok]. rewrite assertion_applicator by set_solver.
  cbn [String.eqb Ascii.eqb Bool.eqb andb]. rewrite andb_true_r.
  assert (Hk : resolve_ref defs (JString ("#/$defs/" +:+ definition_key r))
    = map_get (definition_key r) defs); [|by rewrite Hk].
  assert (Hchars : all_chars (fun c => name_char c || Ascii.eqb c ".") (definition_key r) = true);
    [|cbn; by rewrite Hchars].
  assert (Himpl : forall c, name_char c = true -> name_char c || Ascii.eqb c "." = true)
    by by intros c ->.
  unfold definition_key. rewrite !all_chars_append.
  by rewrite (all_chars_impl _ _ _ Himpl Hp), (all_chars_impl _ _ _ Himpl Hi).
Qed.

(** ** The schema of a model *)

Lemma field_ok_split (ok : TypeExpression -> Json -> bool) ms name field :
  field_ok ok ms (name, field)
  = member_ok (ok (field_ty field)) name ms
    && (field_optional field || bool_decide (is_Some (map_get name ms))).
Proof.
  unfold field_ok, member_ok. cbn [fst snd]. destruct (map_get name ms); cbn [option_all].
  - rewrite bool_decide_eq_true_2 by by eexists. by rewrite orb_true_r, andb_true_r.
  - rewrite bool_decide_eq_false_2 by by intros []. by rewrite orb_false_r.
Qed.

Lemma forallb_map_insert (f : string * Json -> bool) k v m :
  map_get k m = None -> forallb f (map_insert k v m) = f (k, v) && forallb f m.
Proof.
  induction m as [|[k' v'] m IH]; cbn; [done|].
  destruct (String.eqb_spec k k'); [done|]. intros Hm.
  destruct (str_le k k'); cbn; [done|]. rewrite IH by done. by destruct (f (k', v')), (f (k, v)).
Qed.

Lemma fields_schema_means fuel (ok : TypeExpression -> Json -> bool) fields properties required s ms :
  (forall name field schema w, (name, field) ∈ fields -> expr_schema (field_ty field) = Some schema ->
    validates defs fuel schema w = ok (field_ty field) w) ->
  NoDup fields.*1 -> (forall name, name ∈ fields.*1 -> map_get name properties = None) ->
  fields_schema fields properties (map JString required) = Some s ->
  validates defs fuel s (JObject ms)
  = (forallb (fun '(name, sub) => member_ok (validates defs fuel sub) name ms) properties
     && forallb (fun name => bool_decide (is_Some (map_get name ms))) required)
    && forallb (field_ok ok ms) fields.
Proof.
  revert properties required. induction fields as [|[name field] fields IH];
    intros properties required Hok Hnd Hnew Hs.
  { cbn in Hs. injection Hs as <-. rewrite andb_true_r. apply open_object_means. by left. }
  cbn in Hs. destruct (expr_schema (field_ty field)) as [schema|] eqn:He; cbn in Hs; [|done].
  cbn [fmap list_fmap fst] in Hnd, Hnew. apply NoDup_cons in Hnd as [Hname Hnd].
  rewrite (IH (map_insert name schema properties)
    (if field_optional field then required else (required ++ [name])%list)).
  - rewrite forallb_map_insert by (apply Hnew; by left). cbn [forallb].
    rewrite field_ok_split. unfold member_ok at 1.
    assert (Hm : option_all (validates defs fuel schema) (map_get name ms)
      = member_ok (ok (field_ty field)) name ms).
    { unfold member_ok. destruct (map_get name ms); [|done]. eapply Hok; [by left|done]. }
    rewrite Hm. destruct (field_optional field); [|rewrite forallb_app; cbn [forallb]];
      repeat match goal with
      | |- context [forallb ?f ?l] => destruct (forallb f l)
      | |- context [member_ok ?f ?n ms] => destruct (member_ok f n ms)
      | |- context [bool_decide ?p] => destruct (bool_decide p)
      end; done.
  - intros n f sc w Hin. apply (Hok n). by right.
  - done.
  - intros n Hn. rewrite map_get_insert. destruct (String.eqb_spec n name) as [->|]; [done|].
    apply Hnew. by right.
  - rewrite <- Hs. f_equal. destruct (field_optional field); [done|]. by rewrite map_app.
Qed.

Lemma fields_model fields properties required s :
  fields_schema fields properties required = Some s -> exists ps rs, s = model_schema ps rs.
Proof.
  revert properties required. induction fields as [|[name field] fields IH]; cbn.
  - intros ps rs [= <-]. by eexists _, _.
  - intros ps rs. destruct (expr_schema (field_ty field)); [apply IH|done].
Qed.

(** ** Schemas of declared types *)

Section Graph.
  Variable g : PackageGraph.
  Hypothesis wf : graph_wf g.
  Hypothesis complete : complete_definitions g defs.

(** The names in an expression or a definition have their schemas. *)
Definition defined (refs : list TypeRef) : Prop :=
  forall r, r ∈ refs -> is_Some (type_of g r) /\ is_Some (map_get (definition_key r) defs).

Lemma defined_entry r s :
  is_Some (type_of g r) -> map_get (definition_key r) defs = Some s ->
  exists d, type_of g r = Some d /\ def_schema d = Some s /\ defined (definition_refs d).
Proof.
  intros [d Hd] Hs. destruct (complete _ _ Hs) as (r' & d' & Hk & Hd' & Hs' & Hrefs).
  apply definition_key_inj in Hk as <-; [|by eapply wf_plain..].
  exists d'. repeat split; [done..|by eapply wf_closed|auto].
Qed.

Lemma expr_schema_means fuel e s v :
  (forall r s w, is_Some (type_of g r) -> map_get (definition_key r) defs = Some s ->
    validates defs fuel (ref_schema r) w = has_type false open_model g fuel (TNamed r) w) ->
  expression_fits e = true -> defined (expression_refs e) -> expr_schema e = Some s ->
  validates defs fuel s v = has_type false open_model g fuel e v.
Proof.
  intros Hnamed. revert s v.
  induction e as [p b|r|m IH b|m IH|m IH| |m IH]; intros s v Hfits Hrefs Hs; cbn in Hfits, Hs.
  - destruct fuel; cbn [has_type]; by apply primitive_schema_means.
  - injection Hs as <-. destruct (Hrefs r) as [Hr [s Hs]]; [by apply list_elem_of_singleton|].
    by apply (Hnamed r s).
  - destruct (expr_schema m) as [s'|]; cbn in Hs; [injection Hs as <-|done].
    apply andb_true_iff in Hfits as [_ Hfits].
    rewrite (list_schema_means fuel s' b (has_type false open_model g fuel m)) by auto. by destruct fuel.
  - destruct (expr_schema m) as [s'|]; cbn in Hs; [injection Hs as <-|done].
    rewrite (map_schema_means fuel s' (has_type false open_model g fuel m)) by auto. by destruct fuel.
  - destruct (expr_schema m) as [s'|]; cbn in Hs; [injection Hs as <-|done].
    rewrite (nullable_schema_means fuel s' (has_type false open_model g fuel m)) by auto. by destruct fuel.
  - injection Hs as <-. rewrite cursor_query_means. by destruct fuel.
  - destruct (expr_schema m) as [s'|]; cbn in Hs; [injection Hs as <-|done].
    rewrite (cursor_page_means fuel s' (has_type false open_model g fuel m)) by auto. by destruct fuel.
Qed.

Lemma def_schema_means fuel r d s v :
  (forall r s w, is_Some (type_of g r) -> map_get (definition_key r) defs = Some s ->
    validates defs fuel (ref_schema r) w = has_type false open_model g fuel (TNamed r) w) ->
  definition_fits d = true -> definition_keys d -> defined (definition_refs d) ->
  def_schema d = Some s ->
  validates defs fuel s v = definition_ok open_model (has_type false open_model g fuel) r d v.
Proof.
  intros Hnamed Hfits Hkeys Hrefs Hs. destruct d as [fields|symbols|e]; cbn in Hs.
  - destruct v as [| | | | |ms].
    1-5: destruct (fields_model _ _ _ _ Hs) as (ps & rs & ->);
      eapply wrong_type; [repeat constructor|done].
    rewrite (fields_schema_means fuel (has_type false open_model g fuel) fields [] [] s); try done.
    { cbn. by rewrite members_free_open, andb_true_r. }
    intros name field schema w Hin Hsc. apply expr_schema_means; try done.
    + eapply forallb_forall in Hfits; [|by apply list_elem_of_In]. done.
    + intros r0 Hr0. apply Hrefs. by eapply field_refs.
  - injection Hs as <-. unfold enum_schema. rewrite validates_object.
    destruct v; cbn; unfold assertion; done.
  - by apply expr_schema_means.
Qed.

(** A reference to a declared type accepts its values. *)
Lemma ref_means fuel r s v :
  is_Some (type_of g r) -> map_get (definition_key r) defs = Some s ->
  validates defs fuel (ref_schema r) v = has_type false open_model g fuel (TNamed r) v.
Proof.
  revert r s v. induction fuel as [|fuel IH]; intros r s v Hr Hs;
    destruct (defined_entry _ _ Hr Hs) as (d & Hd & Hds & Hrefs);
    rewrite ref_schema_means by (by eapply wf_plain); rewrite ?Hs; cbn [has_type]; [done|].
  rewrite Hd. apply def_schema_means; [exact IH|by eapply wf_fits|by eapply wf_keys|done..].
Qed.

End Graph.
End Schemas.

(** The schema of a declared type of a well-formed graph checks the shape of its values. *)
Lemma json_schema_means `{RegexEngine} g root schema fuel v :
  graph_wf g -> is_Some (type_of g root) -> json_schema g root = Ok schema ->
  validates (document_defs schema) fuel schema v = has_type false open_model g fuel (TNamed root) v.
Proof.
  intros Hwf Hroot Hs.
  destruct (json_schema_definitions _ Hwf _ _ Hs) as (defs & -> & Hcomplete & [s Hr]).
  change (document_defs _) with defs. rewrite <- (ref_means defs g Hwf Hcomplete fuel root s v Hroot Hr).
  unfold ref_schema. rewrite !validates_object. cbn [forallb].
  set (pointer := JString ("#/$defs/" +:+ definition_key root)).
  set (here := keyword_ok defs fuel [("$ref", pointer)] v ("$ref", pointer)).
  change (keyword_ok defs fuel _ v ("$ref", pointer)) with here. destruct here; [|by rewrite andb_false_r]. by destruct v.
Qed.

(** A declared type of a well-formed graph has a schema, and the schema accepts exactly the
    values that have the shape of the type. *)
Lemma schema_exact `{RegexEngine} g root :
  graph_wf g -> is_Some (type_of g root) ->
  exists schema, json_schema g root = Ok schema
    /\ forall v, valid schema v <-> value_of false open_model g root v.
Proof.
  intros Hwf Hroot. destruct (json_schema_total g root Hwf Hroot) as [schema Hs].
  exists schema. split; [done|]. intros v. unfold valid, value_of.
  split; intros [fuel Hv]; exists fuel.
  - by rewrite <- (json_schema_means g root schema).
  - by rewrite (json_schema_means g root schema).
Qed.
