(* ===== verification/IdlBounds.v ===== *)
(** * Bounds of scalars and lists

    How the IDL compiler reads the constraints of a type and resolves a type expression
    ([idl/src/compile.rs], [bounds], [set_count], [primitive] and [resolve_type]), with the
    number parsing of the standard library that it uses.  What it lets through is what the
    other tools rely on: bounds that fit their kind. *)

From Stdlib Require Import Ascii String.
From S2P Require Import Prelude RustStr Extern Json IdlTypes.

Local Open Scope string_scope.

(** ** Numbers *)

(** [str::parse::<i128>()] *)
Definition parse_i128 (s : string) : option Z :=
  let '(negative, digits) :=
    match s with
    | String "-" rest => (true, rest)
    | String "+" rest => (false, rest)
    | _ => (false, s)
    end in
  if String.eqb digits "" then None else
  n ← digits_value 0 digits;
  let z := if negative : bool then (- Z.of_N n)%Z else Z.of_N n in
  if ((- 2 ^ 127 <=? z) && (z <? 2 ^ 127))%Z then Some z else None.

(** A parsed [f64] *)
Inductive parsed_f64 := Finite (d : f64) | NotFinite.

(** [num / den * 2 ^ -e] rounded to the nearest whole number, ties to even. *)
Definition round_scaled (num den : N) (e : Z) : N :=
  let '(num, den) :=
    if (0 <=? e)%Z then (num, N.shiftl den (Z.to_N e)) else (N.shiftl num (Z.to_N (- e)), den) in
  let q := (num / den)%N in
  let rest := (num mod den)%N in
  if (den <? 2 * rest)%N || ((den =? 2 * rest)%N && N.odd q) then (q + 1)%N else q.

(** The double nearest to a positive fraction: 53 bits of precision, exponents from -1074,
    and nothing finite from 2 ^ 1024 on. *)
Definition nearest_f64 (negative : bool) (num den : N) : parsed_f64 :=
  if (num =? 0)%N then Finite {| f64_negative := negative; f64_mantissa := 0; f64_exponent := 0 |}
  else
    let e0 := (Z.of_N (N.size num) - Z.of_N (N.size den) - 53)%Z in
    let above :=
      if (0 <=? e0)%Z then (N.shiftl den (53 + Z.to_N e0) <=? num)%N
      else (N.shiftl den 53 <=? N.shiftl num (Z.to_N (- e0)))%N in
    let e := Z.max (if above then e0 + 1 else e0) (-1074) in
    let m := round_scaled num den e in
    if (1024 <? Z.of_N (N.size m) + e)%Z then NotFinite
    else Finite {| f64_negative := negative; f64_mantissa := m; f64_exponent := e |}.

(** The digits at the start of a text: how many, their value, and the rest *)
Fixpoint take_digits (count acc : N) (s : string) : N * N * string :=
  match s with
  | String c rest =>
      if is_ascii_digit c
      then take_digits (count + 1) (acc * 10 + (byte_of c - 48)) rest
      else (count, acc, s)
  | EmptyString => (count, acc, s)
  end.

(** [str::parse::<f64>()] *)
Definition parse_f64 (s : string) : option parsed_f64 :=
  let '(negative, s) :=
    match s with
    | String "-" rest => (true, rest)
    | String "+" rest => (false, rest)
    | _ => (false, s)
    end in
  if bool_decide (to_ascii_lowercase s ∈ ["inf"; "infinity"; "nan"]) then Some NotFinite else
  let '(whole_count, whole, s) := take_digits 0 0 s in
  let '(fraction_count, digits, s) :=
    match s with String "." rest => take_digits 0 whole rest | _ => (0%N, whole, s) end in
  if (whole_count + fraction_count =? 0)%N then None else
  exponent ←
    match s with
    | EmptyString => Some 0%Z
    | String c rest =>
        if Ascii.eqb c "e" || Ascii.eqb c "E" then
          let '(minus, rest) :=
            match rest with
            | String "-" rest => (true, rest)
            | String "+" rest => (false, rest)
            | _ => (false, rest)
            end in
          let '(count, value, rest) := take_digits 0 0 rest in
          if (count =? 0)%N || negb (String.eqb rest "") then None
          else Some (if minus : bool then - Z.of_N value else Z.of_N value)%Z
        else None
    end;
  let scale := (exponent - Z.of_N fraction_count)%Z in
  Some (if (0 <=? scale)%Z then nearest_f64 negative (digits * 10 ^ Z.to_N scale) 1
        else nearest_f64 negative digits (10 ^ Z.to_N (- scale))).

Example parse_f64_examples :
  parse_f64 "0.1" = Some (Finite {| f64_negative := false; f64_mantissa := 7205759403792794;
                                    f64_exponent := -56 |})
  /\ parse_f64 "-2.5e3" = Some (Finite {| f64_negative := true; f64_mantissa := 5497558138880000;
                                          f64_exponent := -41 |})
  /\ parse_f64 "9007199254740993" = Some (Finite {| f64_negative := false;
       f64_mantissa := 4503599627370496; f64_exponent := 1 |})
  /\ parse_f64 "1e309" = Some NotFinite /\ parse_f64 "5." <> None
  /\ parse_f64 "." = None /\ parse_f64 "1e" = None.
Proof. vm_compute. repeat split; congruence. Qed.

(** ** Constraints *)

Inductive constraint_error :=
| BadNumber
| BoundNotFinite
| NotNonnegative (name : string)
| InvalidConstraint (name kind : string)
| MinimumExceedsMaximum
| NegativeUnsigned
| OutsideDomain (kind : string)
| UnknownPrimitive (name : string).

Definition no_bounds : Bounds :=
  {| b_min := None; b_max := None; min_count := None; max_count := None |}.

(** [set_count] *)
Definition set_count (b : Bounds) (name value : string) : result Bounds constraint_error :=
  let? value := ok_or (parse_unsigned u64_max value) (NotNonnegative name) in
  Ok (if starts_with "min_" name
      then {| b_min := b_min b; b_max := b_max b; min_count := Some value; max_count := max_count b |}
      else {| b_min := b_min b; b_max := b_max b; min_count := min_count b; max_count := Some value |}).

Definition numeric_kind (kind : string) : bool :=
  bool_decide (kind ∈ ["int32"; "uint32"; "int64"; "uint64"; "number"]).

(** A numeric bound of a kind *)
Definition parse_bound (kind value : string) : result NumericBound constraint_error :=
  if String.eqb kind "number" then
    let? value := ok_or (parse_f64 value) BadNumber in
    match value with
    | Finite d => Ok (Number d)
    | NotFinite => Err BoundNotFinite
    end
  else
    let? value := ok_or (parse_i128 value) BadNumber in
    Ok (Integer value).

(** One constraint *)
Definition set_constraint (kind : string) (b : Bounds) (constraint : string * string) :
  result Bounds constraint_error :=
  let '(name, value) := constraint in
  if bool_decide (name ∈ ["min"; "max"]) && numeric_kind kind then
    let? number := parse_bound kind value in
    Ok (if String.eqb name "min"
        then {| b_min := Some number; b_max := b_max b; min_count := min_count b;
                max_count := max_count b |}
        else {| b_min := b_min b; b_max := Some number; min_count := min_count b;
                max_count := max_count b |})
  else if bool_decide (name ∈ ["min_length"; "max_length"]) && String.eqb kind "string" then
    set_count b name value
  else if bool_decide (name ∈ ["min_items"; "max_items"]) && String.eqb kind "list" then
    set_count b name value
  else Err (InvalidConstraint name kind).

Fixpoint set_constraints (kind : string) (b : Bounds) (constraints : list (string * string)) :
  result Bounds constraint_error :=
  match constraints with
  | [] => Ok b
  | c :: constraints => let? b := set_constraint kind b c in set_constraints kind b constraints
  end.

Definition kind_domain (kind : string) : option (Z * Z) :=
  if String.eqb kind "int32" then Some (-2147483648, 2147483647)%Z
  else if String.eqb kind "uint32" then Some (0, 4294967295)%Z
  else if String.eqb kind "int64" then Some (-9223372036854775808, 9223372036854775807)%Z
  else if String.eqb kind "uint64" then Some (0, 18446744073709551615)%Z
  else None.

(** [bounds.min.into_iter().chain(bounds.max).any(|value| matches!(value, Integer(z) if ..))] *)
Definition any_integer (p : Z -> bool) (b : Bounds) : bool :=
  let test := fun o => match o with Some (Integer z) => p z | _ => false end in
  test (b_min b) || test (b_max b).

(** [bounds] *)
Definition bounds (kind : string) (constraints : list (string * string)) :
  result Bounds constraint_error :=
  let? b := set_constraints kind no_bounds constraints in
  let? _ := reject_if
    (match b_min b, b_max b with
     | Some mn, Some mx => bool_decide (bound_compare mn mx = Some Gt)
     | _, _ => false
     end
     || match min_count b, max_count b with
        | Some mn, Some mx => (mx <? mn)%N
        | _, _ => false
        end) MinimumExceedsMaximum in
  let? _ := reject_if
    (bool_decide (kind ∈ ["uint32"; "uint64"]) && any_integer (fun z => z <? 0)%Z b)
    NegativeUnsigned in
  let? _ := reject_if
    (match kind_domain kind with
     | Some (lo, hi) => any_integer (fun z => (z <? lo) || (hi <? z))%Z b
     | None => false
     end) (OutsideDomain kind) in
  Ok b.

(** [primitive] *)
Definition primitive (name : string) : result Primitive constraint_error :=
  if String.eqb name "string" then Ok PString
  else if String.eqb name "bool" then Ok PBool
  else if String.eqb name "int32" then Ok PInt32
  else if String.eqb name "uint32" then Ok PUint32
  else if String.eqb name "int64" then Ok PInt64
  else if String.eqb name "uint64" then Ok PUint64
  else if String.eqb name "number" then Ok PNumber
  else if String.eqb name "bytes" then Ok PBytes
  else if String.eqb name "timestamp" then Ok PTimestamp
  else if String.eqb name "ulid" then Ok PUlid
  else if String.eqb name "json" then Ok PJson
  else Err (UnknownPrimitive name).

(** ** What is let through fits *)

(** The bounds that setting constraints of a kind can give *)
Definition bounds_shape (kind : string) (b : Bounds) : Prop :=
  (numeric_kind kind = false -> b_min b = None /\ b_max b = None)
  /\ (kind <> "string" -> kind <> "list" -> no_counts b = true)
  /\ (forall n, b_min b = Some n \/ b_max b = Some n ->
      if String.eqb kind "number" then exists d, n = Number d else exists z, n = Integer z).

Lemma parse_bound_shape kind value n :
  parse_bound kind value = Ok n ->
  if String.eqb kind "number" then exists d, n = Number d else exists z, n = Integer z.
Proof.
  unfold parse_bound. destruct (String.eqb kind "number").
  - intros H. peel H as parsed Hp. destruct parsed; [|done]. injection H as <-. by eexists.
  - intros H. peel H as z Hp. injection H as <-. by eexists.
Qed.

Lemma set_count_shape kind b name value b' :
  set_count b name value = Ok b' -> kind = "string" \/ kind = "list" ->
  bounds_shape kind b -> bounds_shape kind b'.
Proof.
  intros H Hk (Hn & _ & Hb). unfold set_count in H. peel H as v Hv. injection H as <-.
  destruct (starts_with "min_" name); (split_and!; [exact Hn|naive_solver|exact Hb]).
Qed.

Lemma set_constraint_shape kind b c b' :
  set_constraint kind b c = Ok b' -> bounds_shape kind b -> bounds_shape kind b'.
Proof.
  destruct c as [name value]. unfold set_constraint. intros H Hshape.
  destruct (_ && numeric_kind kind) eqn:Hnum.
  - apply andb_true_iff in Hnum as [_ Hnum]. peel H as n Hn. apply parse_bound_shape in Hn.
    injection H as <-. destruct Hshape as (_ & Hc & Hb).
    destruct (String.eqb name "min"); (split_and!; [by rewrite Hnum|exact Hc|]); cbn;
      intros m [Hm|Hm]; first [by injection Hm as <-|apply Hb; auto].
  - destruct (_ && String.eqb kind "string") eqn:Hs.
    + apply andb_true_iff in Hs as [_ ->%String.eqb_eq]. eapply set_count_shape; eauto.
    + destruct (_ && String.eqb kind "list") eqn:Hl; [|done].
      apply andb_true_iff in Hl as [_ ->%String.eqb_eq]. eapply set_count_shape; eauto.
Qed.

Lemma set_constraints_shape kind b constraints b' :
  set_constraints kind b constraints = Ok b' -> bounds_shape kind b -> bounds_shape kind b'.
Proof.
  revert b. induction constraints as [|c cs IH]; intros b H Hb; cbn in H; [by injection H as <-|].
  peel H as b1 H1. eapply IH; [exact H|]. by eapply set_constraint_shape.
Qed.

Lemma no_bounds_shape kind : bounds_shape kind no_bounds.
Proof. split_and!; [done..|]. by intros n [|]. Qed.

Lemma any_integer_false q b z :
  any_integer q b = false -> b_min b = Some (Integer z) \/ b_max b = Some (Integer z) -> q z = false.
Proof. unfold any_integer. intros [Hmin Hmax]%orb_false_iff [H|H]; by rewrite H in *. Qed.

Lemma integer_bounds_fit p lo hi b :
  bound_domain p = Some (lo, hi) ->
  (forall n, b_min b = Some n \/ b_max b = Some n -> exists z, n = Integer z) ->
  any_integer (fun z => (z <? lo) || (hi <? z))%Z b = false -> no_counts b = true ->
  bounds_fit p b = true.
Proof.
  intros Hdom Hint Hd Hc. unfold bounds_fit. rewrite Hc, orb_true_r, andb_true_r.
  assert (Hfits : forall n, b_min b = Some n \/ b_max b = Some n -> bound_fits p n = true).
  { intros n Hn. destruct (Hint n Hn) as [z ->]. cbn. rewrite Hdom.
    apply (any_integer_false _ _ _ Hd), orb_false_iff in Hn as [?%Z.ltb_ge ?%Z.ltb_ge].
    apply andb_true_iff. by rewrite !Z.leb_le. }
  apply andb_true_iff. split; [destruct (b_min b)|destruct (b_max b)]; cbn; auto.
Qed.

(** The bounds of a primitive fit it. *)
Lemma bounds_fit_primitive name constraints p b :
  primitive name = Ok p -> bounds name constraints = Ok b -> bounds_fit p b = true.
Proof.
  intros Hp H. unfold bounds in H. peel H as b0 Hs.
  apply set_constraints_shape in Hs as (Hn & Hc & Hb); [|apply no_bounds_shape].
  skip H. skip H. peel H as Hd. injection H as <-. unfold primitive in Hp.
  repeat match type of Hp with (if String.eqb name ?k then _ else _) = _ =>
    destruct (String.eqb_spec name k) as [->|]; [injection Hp as <-|] end; [..|done].
  3: by apply (integer_bounds_fit PInt32 _ _ _ eq_refl Hb Hd), Hc.
  3: by apply (integer_bounds_fit PUint32 _ _ _ eq_refl Hb Hd), Hc.
  3: by apply (integer_bounds_fit PInt64 _ _ _ eq_refl Hb Hd), Hc.
  3: by apply (integer_bounds_fit PUint64 _ _ _ eq_refl Hb Hd), Hc.
  3: { unfold bounds_fit. rewrite Hc, orb_true_r by done. cbn in Hb.
       destruct (b_min b0) as [mn|], (b_max b0) as [mx|]; cbn;
         try destruct (Hb mn) as [d ->]; try destruct (Hb mx) as [d' ->]; auto. }
  1: { unfold bounds_fit. by destruct (Hn eq_refl) as [-> ->]. }
  all: unfold bounds_fit; destruct (Hn eq_refl) as [-> ->]; by rewrite Hc, orb_true_r.
Qed.

Lemma bounds_fit_list constraints b : bounds "list" constraints = Ok b -> list_bounds_fit b = true.
Proof.
  intros H. unfold bounds in H. peel H as b0 Hs.
  apply set_constraints_shape in Hs as (Hn & _); [|apply no_bounds_shape].
  skip H. skip H. skip H. injection H as <-.
  unfold list_bounds_fit. by destruct (Hn eq_refl) as [-> ->].
Qed.

(** ** Type expressions *)

(** [ast::TypeExpr] *)
Inductive TypeExpr :=
| XNamed (name : string)
| XPrimitive (name : string) (constraints : list (string * string))
| XList (member : TypeExpr) (constraints : list (string * string))
| XMap (member : TypeExpr)
| XNullable (member : TypeExpr)
| XCursorPage (member : TypeExpr).

Inductive resolve_error :=
| UnresolvedName (name : string)
| BadConstraint (e : constraint_error).

Section Resolution.
  (** What a name refers to in the scope of its source *)
  Variable resolve_type_ref : string -> result TypeRef resolve_error.

(** [resolve_type] *)
Fixpoint resolve_type (value : TypeExpr) : result TypeExpression resolve_error :=
  match value with
  | XNamed name =>
      if String.eqb name "CursorQuery" then Ok TCursorQuery
      else let? r := resolve_type_ref name in Ok (TNamed r)
  | XPrimitive name constraints =>
      let? p := map_err BadConstraint (primitive name) in
      let? b := map_err BadConstraint (bounds name constraints) in
      Ok (TPrimitive p b)
  | XList member constraints =>
      let? member := resolve_type member in
      let? b := map_err BadConstraint (bounds "list" constraints) in
      Ok (TList member b)
  | XMap member => let? member := resolve_type member in Ok (TMap member)
  | XNullable member => let? member := resolve_type member in Ok (TNullable member)
  | XCursorPage member => let? member := resolve_type member in Ok (TCursorPage member)
  end.

(** Whatever constraints are written, the bounds of a resolved type fit their kinds: numeric
    bounds on numbers only, whole ones within the range of the kind, and counts on strings and
    lists only.  The names in it are those that were resolved. *)
Theorem resolved_types_fit value e :
  resolve_type value = Ok e ->
  expression_fits e = true
  /\ forall r, r ∈ expression_refs e -> exists name, resolve_type_ref name = Ok r.
Proof.
  revert e. induction value as [name|name cs|m IH cs|m IH|m IH|m IH]; cbn; intros e H.
  - destruct (String.eqb name "CursorQuery"); [injection H as <-; split; [done|by intros r ?%elem_of_nil]|].
    peel H as r Hr. injection H as <-. split; [done|]. intros r' ->%list_elem_of_singleton. by exists name.
  - peel H as p Hp. peel H as b Hb. injection H as <-.
    split; [by eapply bounds_fit_primitive|by intros r ?%elem_of_nil].
  - peel H as m' Hm. peel H as b Hb. injection H as <-. destruct (IH _ Hm) as [Hf Hr]. cbn.
    by rewrite (bounds_fit_list _ _ Hb).
  - peel H as m' Hm. injection H as <-. exact (IH _ Hm).
  - peel H as m' Hm. injection H as <-. exact (IH _ Hm).
  - peel H as m' Hm. injection H as <-. exact (IH _ Hm).
Qed.

End Resolution.
