(* ===== verification/TypeGraph.v ===== *)
(** * Cycles among types

    Two passes of the IDL compiler over the types of a package ([idl/src/compile.rs]):
    [validate_type_graph] rejects aliases that only name each other, and
    [mark_recursive_model_fields] marks the fields through which a model contains itself, so
    that generated code puts them behind an indirection.  The recursion of both follows
    references and is bounded by the number of types; an index that is not there panics. *)

From Stdlib Require Import Ascii String.
From S2P Require Import Prelude RustStr Extern Json IdlTypes.

Local Open Scope string_scope.

Section TypeGraph.
  Variable identity : string.
  Variable types : list (string * TypeDefinition).

(** ** Alias cycles *)

Inductive graph_error := AliasCycle (id : string) | MissingIndex | NoFuel.

(** The local type that a type is another name for *)
Definition alias_target (d : TypeDefinition) : option string :=
  match d with
  | DAlias (TNamed r) => if String.eqb (ref_package r) identity then Some (ref_id r) else None
  | _ => None
  end.

(** [visit]: the types that are complete afterwards *)
Fixpoint visit (fuel : nat) (id : string) (aliases complete : list string) :
  result (list string) graph_error :=
  match fuel with
  | O => Err NoFuel
  | S fuel =>
      if bool_decide (id ∈ complete) then Ok complete
      else if bool_decide (id ∈ aliases) then Err (AliasCycle id)
      else
        let? definition := ok_or (bt_get id types) MissingIndex in
        let? complete :=
          match alias_target definition with
          | Some next => visit fuel next (id :: aliases) complete
          | None => Ok complete
          end in
        Ok (id :: complete)
  end.

Fixpoint visit_all (ids complete : list string) : result unit graph_error :=
  match ids with
  | [] => Ok tt
  | id :: ids =>
      let? complete := visit (S (List.length types)) id [] complete in
      visit_all ids complete
  end.

(** [validate_type_graph] *)
Definition validate_type_graph : result unit graph_error := visit_all types.*1 [].

(** ** Recursive models *)

(** [direct_model], for an expression whose names [named] resolves *)
Fixpoint direct_expr (named : string -> list string -> option (option string))
    (e : TypeExpression) (visited : list string) : option (option string) :=
  match e with
  | TNamed r =>
      if String.eqb (ref_package r) identity && negb (bool_decide (ref_id r ∈ visited))
      then named (ref_id r) (ref_id r :: visited)
      else Some None
  | TNullable m => direct_expr named m visited
  | _ => Some None
  end.

Fixpoint direct_named (fuel : nat) (id : string) (visited : list string) : option (option string) :=
  match fuel with
  | O => None
  | S fuel =>
      match bt_get id types with
      | None => None
      | Some (DModel _) => Some (Some id)
      | Some (DAlias e) => direct_expr (direct_named fuel) e visited
      | Some (DEnum _) => Some None
      end
  end.

(** The model that a field of this type holds directly, if any *)
Definition direct_model (e : TypeExpression) : option (option string) :=
  direct_expr (direct_named (S (List.length types))) e [].

(** [reaches] *)
Section Reaches.
  Variable edges : list (string * list string).
  Variable target : string.

Fixpoint any_reaches (reaches : string -> list string -> option (bool * list string))
    (nexts visited : list string) : option (bool * list string) :=
  match nexts with
  | [] => Some (false, visited)
  | next :: nexts =>
      match reaches next visited with
      | Some (false, visited) => any_reaches reaches nexts visited
      | other => other
      end
  end.

Fixpoint reaches (fuel : nat) (current : string) (visited : list string) :
  option (bool * list string) :=
  match fuel with
  | O => None
  | S fuel =>
      if String.eqb current target then Some (true, visited)
      else if bool_decide (current ∈ visited) then Some (false, visited)
      else
        match bt_get current edges with
        | Some nexts => any_reaches (reaches fuel) nexts (current :: visited)
        | None => None
        end
  end.
End Reaches.

(** The fields that hold a model directly, with that model *)
Fixpoint direct_fields (model : string) (fields : list (string * ModelField)) :
  option (list (string * string * string)) :=
  match fields with
  | [] => Some []
  | (name, field) :: fields =>
      target ← direct_model (field_ty field);
      rest ← direct_fields model fields;
      Some (match target with Some target => (model, name, target) :: rest | None => rest end)
  end.

Fixpoint all_direct_fields (l : list (string * TypeDefinition)) :
  option (list (string * string * string)) :=
  match l with
  | [] => Some []
  | (model, DModel fields) :: l =>
      here ← direct_fields model fields;
      rest ← all_direct_fields l;
      Some (here ++ rest)%list
  | _ :: l => all_direct_fields l
  end.

(** The models, each with the models it holds directly *)
Definition model_edges (fields : list (string * string * string)) : list (string * list string) :=
  omap (fun '(model, d) =>
    match d with
    | DModel _ =>
        Some (model, (snd <$> filter (fun field => fst (fst field) = model) fields))
    | _ => None
    end) types.

Definition mark_field (model name : string) (l : list (string * TypeDefinition)) :
  list (string * TypeDefinition) :=
  map (fun '(id, d) =>
    match d with
    | DModel fields =>
        if String.eqb id model
        then (id, DModel (map (fun '(n, field) =>
          if String.eqb n name
          then (n, {| field_ty := field_ty field; field_optional := field_optional field;
                      field_recursive := true |})
          else (n, field)) fields))
        else (id, d)
    | _ => (id, d)
    end) l.

Fixpoint mark_fields (edges : list (string * list string))
    (fields : list (string * string * string)) (l : list (string * TypeDefinition)) :
  option (list (string * TypeDefinition)) :=
  match fields with
  | [] => Some l
  | (model, name, target) :: fields =>
      match reaches edges model (S (List.length edges)) target [] with
      | Some (true, _) => mark_fields edges fields (mark_field model name l)
      | Some (false, _) => mark_fields edges fields l
      | None => None
      end
  end.

(** [mark_recursive_model_fields]: the types with their fields marked *)
Definition mark_recursive_model_fields : option (list (string * TypeDefinition)) :=
  fields ← all_direct_fields types;
  mark_fields (model_edges fields) fields types.

End TypeGraph.

(** ** Aliases end *)

Section Aliases.
  Variable identity : string.
  Variable types : list (string * TypeDefinition).

(** [id] is another name for [next]. *)
Definition alias_step (id next : string) : Prop :=
  exists d, bt_get id types = Some d /\ alias_target identity d = Some next.

(** Following the names that [id] stands for ends at a type of its own. *)
Inductive alias_ends : string -> Prop :=
| ends_here id d : bt_get id types = Some d -> alias_target identity d = None -> alias_ends id
| ends_next id next : alias_step id next -> alias_ends next -> alias_ends id.

Lemma visit_ok fuel id aliases complete complete' :
  visit identity types fuel id aliases complete = Ok complete' ->
  Forall alias_ends complete -> Forall alias_ends (id :: complete').
Proof.
  revert id aliases complete complete'.
  induction fuel as [|fuel IH]; intros id aliases complete complete' H Hall; [done|]. cbn in H.
  case_bool_decide as Hin.
  { injection H as <-. constructor; [|done]. by eapply Forall_forall in Hall. }
  case_bool_decide; [done|]. destruct (bt_get id types) as [d|] eqn:Hd; cbn in H; [|done].
  destruct (alias_target identity d) as [next|] eqn:Hn; cbn in H.
  - destruct (visit identity types fuel next (id :: aliases) complete) as [c|] eqn:Hv; [|done].
    injection H as <-. apply IH in Hv as [Hnext Hc]%Forall_cons; [|done].
    assert (alias_ends id) by (eapply ends_next; [by exists d|done]). by repeat constructor.
  - injection H as <-. assert (alias_ends id) by by eapply ends_here. by repeat constructor.
Qed.

Lemma visit_all_ok ids complete :
  visit_all identity types ids complete = Ok tt -> Forall alias_ends complete ->
  Forall alias_ends ids.
Proof.
  revert complete. induction ids as [|id ids IH]; intros complete H Hall; [constructor|].
  cbn [visit_all] in H. destruct (visit _ _ _ id [] complete) as [c|] eqn:Hv; [|done].
  apply visit_ok in Hv as [Hid Hc]%Forall_cons; [|done]. constructor; [done|by eapply IH].
Qed.

(** An alias cycle that is reported is one. *)
Lemma visit_cycle fuel id aliases complete x :
  visit identity types fuel id aliases complete = Err (AliasCycle x) ->
  (forall a, a ∈ aliases -> tc alias_step a id) -> tc alias_step x x.
Proof.
  revert id aliases complete. induction fuel as [|fuel IH]; intros id aliases complete H Hpath; [done|].
  cbn in H. case_bool_decide; [done|]. case_bool_decide as Hin.
  { injection H as <-. by apply Hpath. }
  destruct (bt_get id types) as [d|] eqn:Hd; cbn in H; [|done].
  destruct (alias_target identity d) as [next|] eqn:Hn; cbn in H; [|done].
  destruct (visit identity types fuel next (id :: aliases) complete) as [c|e] eqn:Hv; [done|].
  injection H as ->. apply IH in Hv; [done|].
  assert (Hstep : alias_step id next) by by exists d.
  intros a [->|Ha]%elem_of_cons; [by apply tc_once|].
  eapply tc_r; [by apply Hpath|done].
Qed.

Lemma visit_fuel fuel id aliases complete :
  List.length (filter (.∉ aliases) types.*1) < fuel ->
  visit identity types fuel id aliases complete <> Err NoFuel.
Proof.
  revert id aliases complete. induction fuel as [|fuel IH]; intros id aliases complete Hf; [lia|].
  cbn. case_bool_decide; [done|]. case_bool_decide as Hin; [done|].
  destruct (bt_get id types) as [d|] eqn:Hd; cbn; [|done].
  destruct (alias_target identity d) as [next|]; [|done].
  assert (Hid : id ∈ types.*1).
  { apply list_elem_of_fmap. exists (id, d). split; [done|by apply bt_get_elem]. }
  assert (Hless : List.length (filter (.∉ id :: aliases) types.*1)
    < List.length (filter (.∉ aliases) types.*1))
    by (apply filter_decreases with (a := id); set_solver).
  specialize (IH next (id :: aliases) complete). destruct (visit _ _ fuel next _ _) as [c|e]; [done|].
  intros [= ->]. apply IH; [lia|done].
Qed.

(** Every alias names a declared type. *)
Definition aliases_closed : Prop :=
  forall id next, alias_step id next -> is_Some (bt_get next types).

Lemma visit_index fuel id aliases complete :
  aliases_closed -> is_Some (bt_get id types) ->
  visit identity types fuel id aliases complete <> Err MissingIndex.
Proof.
  intros Hclosed. revert id aliases complete.
  induction fuel as [|fuel IH]; intros id aliases complete [d Hd]; [done|]. cbn.
  case_bool_decide; [done|]. case_bool_decide; [done|]. rewrite Hd. cbn.
  destruct (alias_target identity d) as [next|] eqn:Hn; [|done].
  specialize (IH next (id :: aliases) complete (Hclosed id next (ex_intro _ d (conj Hd Hn)))).
  by destruct (visit _ _ fuel next _ _) as [c|e]; [|intros [= ->]].
Qed.

(** The check of the aliases of a package is exact: it passes when every alias stands for a
    type of its own in the end, and what it reports is a cycle. *)
Theorem alias_check_exact :
  aliases_closed ->
  match validate_type_graph identity types with
  | Ok _ => forall id, id ∈ types.*1 -> alias_ends id
  | Err (AliasCycle id) => tc alias_step id id
  | Err _ => False
  end.
Proof.
  intros Hclosed. destruct (validate_type_graph identity types) as [[]|e] eqn:Hv.
  { intros id Hid. apply visit_all_ok in Hv; [|constructor]. by eapply Forall_forall in Hv. }
  unfold validate_type_graph in Hv.
  assert (Hids : forall id, id ∈ types.*1 -> is_Some (bt_get id types)).
  { intros id ((id' & d) & -> & Hin)%list_elem_of_fmap. clear -Hin.
    induction types as [|[k d'] l IH]; [by apply elem_of_nil in Hin|]. cbn.
    case_decide; [by eexists|]. apply IH. apply elem_of_cons in Hin as [[= -> ->]|]; [contradiction|done]. }
  revert Hv Hids. generalize (@nil string) as complete.
  generalize types.*1 at 1 2 as ids. induction ids as [|id ids IH]; intros complete Hv Hids; [done|].
  cbn [visit_all] in Hv.
  destruct (visit identity types (S (List.length types)) id [] complete) as [c|e'] eqn:Hone.
  { eapply IH; [exact Hv|]. intros x Hx. apply Hids. by right. }
  injection Hv as ->. destruct e as [x| |].
  - eapply visit_cycle; [exact Hone|]. by intros a ?%elem_of_nil.
  - eapply visit_index; [exact Hclosed| |exact Hone]. apply Hids. by left.
  - eapply visit_fuel; [|exact Hone].
    pose proof (length_filter (.∉ []) types.*1) as Hl. rewrite length_fmap in Hl. lia.
Qed.

End Aliases.

(** ** Reachability *)

Section Reachability.
  Variable edges : list (string * list string).
  Variable target : string.

Definition edge (x y : string) : Prop := exists nexts, bt_get x edges = Some nexts /\ y ∈ nexts.

(** The search adds to the visited models, and what it adds is not the target and has its
    successors among them. *)
Definition searched (visited visited' : list string) : Prop :=
  visited ⊆ visited'
  /\ forall x, x ∈ visited' -> x ∈ visited \/ x <> target /\ forall y, edge x y -> y ∈ visited'.

Lemma searched_trans a b c : searched a b -> searched b c -> searched a c.
Proof.
  intros [Hab Ha] [Hbc Hb]. split; [set_solver|].
  intros x [Hx|?]%Hb; [|by right]. destruct (Ha x Hx) as [?|[? Hy]]; [by left|].
  right. split; [done|]. intros y ?. by apply Hbc, Hy.
Qed.

Lemma any_reaches_false (f : string -> list string -> option (bool * list string)) nexts visited visited' :
  (forall x v v', f x v = Some (false, v') -> searched v v' /\ x ∈ v') ->
  any_reaches f nexts visited = Some (false, visited') ->
  searched visited visited' /\ forall y, y ∈ nexts -> y ∈ visited'.
Proof.
  intros Hf. revert visited. induction nexts as [|x nexts IH]; intros visited H; cbn in H.
  { injection H as <-. split; [split; auto|by intros y ?%elem_of_nil]. }
  destruct (f x visited) as [[[] v]|] eqn:Hx; try done. apply Hf in Hx as [H1 Hin].
  apply IH in H as [H2 Hrest]. split; [by eapply searched_trans|].
  intros y [->|Hy]%elem_of_cons; [by apply H2|auto].
Qed.

Lemma reaches_false_searched fuel current visited visited' :
  reaches edges target fuel current visited = Some (false, visited') ->
  searched visited visited' /\ current ∈ visited'.
Proof.
  revert current visited visited'.
  induction fuel as [|fuel IH]; intros current visited visited' H; [done|]. cbn in H.
  destruct (String.eqb_spec current target) as [|Hne]; [done|].
  case_bool_decide as Hin. { injection H as <-. split; [split; auto|done]. }
  destruct (bt_get current edges) as [nexts|] eqn:He; [|done].
  apply any_reaches_false in H as [[Hsub Hs] Hnexts]; [|exact IH].
  split; [|apply Hsub; by left]. split; [set_solver|].
  intros x [[->|?]%elem_of_cons|?]%Hs; [|by left|by right].
  right. split; [done|]. intros y (nexts' & Heq & Hy). rewrite He in Heq.
  injection Heq as <-. auto.
Qed.

Lemma reaches_false fuel current visited :
  reaches edges target fuel current [] = Some (false, visited) -> ~ rtc edge current target.
Proof.
  intros [[_ Hs] Hin]%reaches_false_searched Hpath.
  assert (Hall : forall x, rtc edge current x -> x ∈ visited).
  { clear Hpath. intros x Hx. induction Hx as [|a b c Hab _ IH]; [done|]. apply IH.
    destruct (Hs _ Hin) as [?%elem_of_nil|[_ Hy]]; [done|]. by apply Hy. }
  by destruct (Hs _ (Hall _ Hpath)) as [?%elem_of_nil|[? _]].
Qed.

Lemma reaches_true fuel current visited visited' :
  reaches edges target fuel current visited = Some (true, visited') -> rtc edge current target.
Proof.
  revert current visited visited'.
  induction fuel as [|fuel IH]; intros current visited visited' H; [done|]. cbn in H.
  destruct (String.eqb_spec current target) as [->|Hne]; [done|].
  case_bool_decide; [done|]. destruct (bt_get current edges) as [nexts|] eqn:He; [|done].
  assert (Hnext : exists y, y ∈ nexts /\ rtc edge y target).
  { clear He. revert H. generalize (current :: visited).
    induction nexts as [|x nexts IHn]; intros v H; cbn in H; [done|].
    destruct (reaches edges target fuel x v) as [[[] v']|] eqn:Hx; try done.
    - exists x. split; [by left|by eapply IH].
    - destruct (IHn _ H) as (y & Hy & ?). exists y. split; [by right|done]. }
  destruct Hnext as (y & Hy & Hpath). eapply rtc_l; [|exact Hpath]. by exists nexts.
Qed.

(** With an entry for every model that is reached, the search ends. *)
Hypothesis closed : forall x y, edge x y -> is_Some (bt_get y edges).

Lemma reaches_ends fuel current visited :
  List.length (filter (.∉ visited) edges.*1) < fuel -> is_Some (bt_get current edges) ->
  exists found visited', reaches edges target fuel current visited = Some (found, visited')
    /\ visited ⊆ visited'.
Proof.
  revert current visited. induction fuel as [|fuel IH]; intros current visited Hf [nexts He]; [lia|].
  cbn. destruct (String.eqb current target); [by eexists _, _|].
  case_bool_decide as Hin; [by eexists _, _|]. rewrite He.
  assert (Hcur : current ∈ edges.*1).
  { apply list_elem_of_fmap. exists (current, nexts). split; [done|by apply bt_get_elem]. }
  assert (Hless : List.length (filter (.∉ current :: visited) edges.*1)
    < List.length (filter (.∉ visited) edges.*1))
    by (apply filter_decreases with (a := current); set_solver).
  assert (Hnexts : forall y, y ∈ nexts -> is_Some (bt_get y edges))
    by (intros y Hy; apply (closed current); by exists nexts).
  assert (Hany : forall l v, (forall y, y ∈ l -> is_Some (bt_get y edges)) ->
    current :: visited ⊆ v ->
    exists found v', any_reaches (reaches edges target fuel) l v = Some (found, v') /\ v ⊆ v').
  { induction l as [|y l IHl]; intros v Hl Hv; cbn; [by eexists _, _|].
    destruct (IH y v) as ([] & v1 & -> & Hv1); [|apply Hl; by left|by eexists _, _|].
    - pose proof (filter_shrinks (.∉ current :: visited) (.∉ v) edges.*1 ltac:(set_solver)). lia.
    - destruct (IHl v1) as (found & v2 & -> & ?);
        [intros z Hz; apply Hl; by right|set_solver|]. exists found, v2. split; [done|set_solver]. }
  destruct (Hany nexts (current :: visited) Hnexts) as (found & v' & -> & ?); [done|].
  exists found, v'. split; [done|set_solver].
Qed.

End Reachability.

(** ** Recursive fields *)

Section Marking.
  Variable identity : string.
  Variable types : list (string * TypeDefinition).

(** ** What is held directly, by the structure of the types *)

(** A value of the type is, or wraps, a value of the local model itself and not a reference to
    it: names stand for their types and [null] is one more value; lists and maps hold their
    members elsewhere. *)
Inductive embeds : TypeExpression -> string -> Prop :=
| embeds_model r fields :
    ref_package r = identity -> bt_get (ref_id r) types = Some (DModel fields) ->
    embeds (TNamed r) (ref_id r)
| embeds_alias r e t :
    ref_package r = identity -> bt_get (ref_id r) types = Some (DAlias e) -> embeds e t ->
    embeds (TNamed r) t
| embeds_nullable e t : embeds e t -> embeds (TNullable e) t.

(** A model holds another directly through a field. *)
Definition holds_directly (l : list (string * TypeDefinition)) (m n : string) (f : ModelField)
    (t : string) : Prop :=
  exists fields, (m, DModel fields) ∈ l /\ (n, f) ∈ fields /\ embeds (field_ty f) t.

(** The same, in a number of steps *)
Inductive embeds_in : nat -> TypeExpression -> string -> Prop :=
| in_model r fields :
    ref_package r = identity -> bt_get (ref_id r) types = Some (DModel fields) ->
    embeds_in 0 (TNamed r) (ref_id r)
| in_alias n r e t :
    ref_package r = identity -> bt_get (ref_id r) types = Some (DAlias e) -> embeds_in n e t ->
    embeds_in (S n) (TNamed r) t
| in_nullable n e t : embeds_in n e t -> embeds_in (S n) (TNullable e) t.

Lemma embeds_steps e t : embeds e t -> exists n, embeds_in n e t.
Proof.
  induction 1 as [| ? ? ? ? ? _ [n ?]|? ? _ [n ?]]; [exists 0|exists (S n)..]; by econstructor.
Qed.

Lemma embeds_in_once n e t n' t' : embeds_in n e t -> embeds_in n' e t' -> n = n' /\ t = t'.
Proof.
  intros H. revert n' t'. induction H as [r fs Hp Hd|n r e t Hp Hd _ IH|n e t _ IH];
    intros n' t' H'; inversion H' as [r' fs' ? Hd'|n0 r' e' ? ? Hd' He|n0 e' ? He]; subst;
    try congruence; try done.
  - rewrite Hd in Hd'. injection Hd' as <-. by destruct (IH _ _ He) as [-> ->].
  - by destruct (IH _ _ He) as [-> ->].
Qed.

Lemma direct_expr_embeds (named : string -> list string -> option (option string)) e visited t :
  (forall r v, ref_package r = identity -> named (ref_id r) v = Some (Some t) -> embeds (TNamed r) t) ->
  direct_expr identity named e visited = Some (Some t) -> embeds e t.
Proof.
  intros Hn. induction e as [p b|r|m _ b|m _|m IH| |m _]; cbn; try done;
    [|by intros ?; constructor; auto].
  destruct (String.eqb_spec (ref_package r) identity) as [Hp|]; cbn; [|done].
  destruct (negb _); [by apply Hn|done].
Qed.

Lemma direct_model_embeds e t : direct_model identity types e = Some (Some t) -> embeds e t.
Proof.
  apply direct_expr_embeds. generalize (S (List.length types)) as fuel.
  induction fuel as [|fuel IH]; intros r v Hp; [done|]. cbn.
  destruct (bt_get (ref_id r) types) as [[fields| |e']|] eqn:Hd; try done.
  - intros [= <-]. by econstructor.
  - intros He. eapply embeds_alias; [done..|]. by eapply direct_expr_embeds.
Qed.

(** What the search has passed on its way takes longer. *)
Definition passed (visited : list string) (n : nat) : Prop :=
  forall id n' t, id ∈ visited ->
    embeds_in n' (TNamed {| ref_package := identity; ref_id := id |}) t -> n < n'.

Lemma direct_expr_found (named : string -> list string -> option (option string)) n e visited t :
  (forall m r v, m <= n -> embeds_in m (TNamed r) t -> passed v m ->
    named (ref_id r) (ref_id r :: v) <> Some None) ->
  embeds_in n e t -> passed visited n -> direct_expr identity named e visited <> Some None.
Proof.
  intros Hn He. revert Hn. induction He as [r fs Hp Hd|n r e t Hp Hd He _|n e t He IH];
    intros Hn Hv; cbn.
  3: { apply IH; [intros m r v Hm; apply Hn; lia|]. intros id n' t' Hid H'.
       specialize (Hv id n' t' Hid H'). lia. }
  all: rewrite Hp, String.eqb_refl; cbn; destruct r as [package id]; cbn in *; subst package;
    case_bool_decide as Hin; cbn;
    [|eapply (Hn _ {| ref_package := identity; ref_id := id |}); [done|by econstructor|done]].
  - specialize (Hv id 0 id Hin ltac:(by eapply in_model)). lia.
  - specialize (Hv id (S n) t Hin ltac:(by eapply in_alias)). lia.
Qed.

Lemma direct_named_found fuel n r visited t :
  embeds_in n (TNamed r) t -> passed visited n ->
  direct_named identity types fuel (ref_id r) (ref_id r :: visited) <> Some None.
Proof.
  revert n r visited. induction fuel as [|fuel IH]; intros n r visited He Hv; [done|]. cbn.
  assert (Hp : ref_package r = identity) by by inversion He.
  assert (Hr : r = {| ref_package := identity; ref_id := ref_id r |}) by (destruct r; cbn in *; by subst).
  inversion He as [r' fs _ Hd|n0 r' e ? _ Hd He'|]; subst; rewrite Hd; [done|].
  eapply direct_expr_found; [|exact He'|].
  - intros m r' v Hm Hm' Hv'. by eapply IH.
  - intros id n' t' [->|Hid]%elem_of_cons Hn'.
    + rewrite <- Hr in Hn'. destruct (embeds_in_once _ _ _ _ _ He Hn') as [<- _]. lia.
    + specialize (Hv id n' t' Hid Hn'). lia.
Qed.

(** The search for the model held directly finds it. *)
Lemma direct_model_spec e t :
  is_Some (direct_model identity types e) ->
  direct_model identity types e = Some (Some t) <-> embeds e t.
Proof.
  intros [o Ho]. split; [apply direct_model_embeds|]. intros Ht.
  pose proof Ht as [n Hn]%embeds_steps.
  assert (Hne : direct_model identity types e <> Some None).
  { eapply direct_expr_found; [|exact Hn|by intros id n' t' ?%elem_of_nil].
    intros m r v _ Hm Hv. by eapply direct_named_found. }
  destruct o as [t'|]; [|done]. pose proof (direct_model_embeds _ _ Ho) as [n' Hn']%embeds_steps.
  destruct (embeds_in_once _ _ _ _ _ Hn Hn') as [_ ->]. done.
Qed.

(** The compiler finds that a model holds another directly through a field. *)
Definition found_directly (l : list (string * TypeDefinition)) (m n : string) (f : ModelField)
    (t : string) : Prop :=
  exists fields, (m, DModel fields) ∈ l /\ (n, f) ∈ fields
    /\ direct_model identity types (field_ty f) = Some (Some t).

Lemma direct_expr_model (named : string -> list string -> option (option string)) e visited t :
  (forall id v, named id v = Some (Some t) -> exists fields, bt_get t types = Some (DModel fields)) ->
  direct_expr identity named e visited = Some (Some t) ->
  exists fields, bt_get t types = Some (DModel fields).
Proof.
  intros Hn. induction e; cbn; try done. destruct (_ && _)%bool; [apply Hn|done].
Qed.

Lemma direct_model_model e t :
  direct_model identity types e = Some (Some t) ->
  exists fields, bt_get t types = Some (DModel fields).
Proof.
  apply direct_expr_model. generalize (S (List.length types)) as fuel.
  induction fuel as [|fuel IH]; intros id v; [done|]. cbn.
  destruct (bt_get id types) as [[fields| |e']|] eqn:Hd; try done.
  - intros [= <-]. by exists fields.
  - by apply direct_expr_model.
Qed.

Lemma direct_fields_spec model fields l m n t :
  direct_fields identity types model fields = Some l ->
  (m, n, t) ∈ l <-> m = model
    /\ exists f, (n, f) ∈ fields /\ direct_model identity types (field_ty f) = Some (Some t).
Proof.
  revert l. induction fields as [|[name field] fields IH]; intros l H; cbn in H.
  { injection H as <-. split; [by intros ?%elem_of_nil|]. by intros (_ & f & ?%elem_of_nil & _). }
  destruct (direct_model identity types (field_ty field)) as [target|] eqn:Ht; cbn in H; [|done].
  destruct (direct_fields identity types model fields) as [rest|]; cbn in H; [|done].
  injection H as <-. specialize (IH rest eq_refl).
  assert (Hold : (m, n, t) ∈ rest -> m = model
    /\ exists f, (n, f) ∈ (name, field) :: fields
      /\ direct_model identity types (field_ty f) = Some (Some t)).
  { intros (-> & f & ? & ?)%IH. split; [done|]. exists f. split; [by right|done]. }
  split.
  - destruct target as [target|]; [|done]. intros [[= -> -> ->]|?]%elem_of_cons; [|auto].
    split; [done|]. exists field. split; [by left|done].
  - intros (-> & f & [[= -> ->]|Hin]%elem_of_cons & Hf).
    + rewrite Hf in Ht. injection Ht as <-. by left.
    + assert ((model, n, t) ∈ rest) by (apply IH; split; [done|by exists f]).
      destruct target; [by right|done].
Qed.

Lemma all_direct_fields_spec l fields m n t :
  all_direct_fields identity types l = Some fields ->
  (m, n, t) ∈ fields <-> exists f, found_directly l m n f t.
Proof.
  revert fields. induction l as [|[id d] l IH]; intros fields H; cbn in H.
  { injection H as <-. split; [by intros ?%elem_of_nil|]. by intros (f & fs & ?%elem_of_nil & _). }
  destruct d as [fs| |e].
  - destruct (direct_fields identity types id fs) as [here|] eqn:Hh; cbn in H; [|done].
    destruct (all_direct_fields identity types l) as [rest|]; cbn in H; [|done].
    injection H as <-. rewrite elem_of_app, (direct_fields_spec _ _ _ _ _ _ Hh), (IH rest eq_refl).
    split.
    + intros [(-> & f & Hin & Ht)|(f & fs' & Hin & ?)].
      * exists f, fs. split; [by left|done].
      * exists f, fs'. split; [by right|done].
    + intros (f & fs' & [[= -> ->]|Hin]%elem_of_cons & Hf & Ht).
      * left. split; [done|by exists f].
      * right. by exists f, fs'.
  - rewrite (IH fields H). split; intros (f & fs & Hin & ?); exists f, fs; (split; [|done]);
      [by right|by apply elem_of_cons in Hin as [[=]|]].
  - rewrite (IH fields H). split; intros (f & fs & Hin & ?); exists f, fs; (split; [|done]);
      [by right|by apply elem_of_cons in Hin as [[=]|]].
Qed.

Lemma model_edges_get fields m fs :
  (m, DModel fs) ∈ types ->
  bt_get m (model_edges types fields)
  = Some (snd <$> filter (fun field => fst (fst field) = m) fields).
Proof.
  unfold model_edges. induction types as [|[id d] l IH]; [by intros ?%elem_of_nil|].
  intros [[= <- <-]|Hin]%elem_of_cons; cbn; [by rewrite decide_True|].
  destruct d as [fs'| |]; cbn; [|by apply IH..].
  case_decide as Heq; [by subst|by apply IH].
Qed.

Lemma model_edges_edge fields m t :
  edge (model_edges types fields) m t -> exists n, (m, n, t) ∈ fields.
Proof.
  intros (nexts & Hget & Ht). unfold model_edges in Hget.
  assert (nexts = (snd <$> filter (fun field => fst (fst field) = m) fields)) as ->.
  { clear Ht. revert Hget. induction types as [|[id d] l IH]; [done|]. cbn.
    destruct d; cbn; [|apply IH..].
    case_decide as Heq; [subst; by intros [= <-]|apply IH]. }
  apply list_elem_of_fmap in Ht as ([[m' n] t'] & -> & [Hm Hin]%list_elem_of_filter).
  cbn in Hm. subst. by exists n.
Qed.

(** Marking one field leaves the others. *)
Lemma mark_field_inv model name l m fs' n f' :
  (m, DModel fs') ∈ mark_field model name l -> (n, f') ∈ fs' ->
  exists fs f, (m, DModel fs) ∈ l /\ (n, f) ∈ fs /\ field_ty f' = field_ty f
    /\ (field_recursive f' = true <-> field_recursive f = true \/ m = model /\ n = name).
Proof.
  unfold mark_field. intros Hin Hf. apply list_elem_of_In, in_map_iff in Hin as ([id d] & Heq & Hin).
  apply list_elem_of_In in Hin. destruct d as [fs| |]; [|by simplify_eq..].
  destruct (String.eqb_spec id model) as [->|Hne]; simplify_eq.
  - apply list_elem_of_In, in_map_iff in Hf as ([n0 f] & Heq & Hf). apply list_elem_of_In in Hf.
    exists fs, f. destruct (String.eqb_spec n0 name) as [->|Hn]; simplify_eq; cbn; naive_solver.
  - exists fs', f'. naive_solver.
Qed.

Lemma mark_fields_inv edges fields l l' m fs' n f' :
  mark_fields edges fields l = Some l' -> (m, DModel fs') ∈ l' -> (n, f') ∈ fs' ->
  exists fs f, (m, DModel fs) ∈ l /\ (n, f) ∈ fs /\ field_ty f' = field_ty f
    /\ (field_recursive f' = true <-> field_recursive f = true
        \/ exists t, (m, n, t) ∈ fields /\ rtc (edge edges) t m).
Proof.
  revert l. induction fields as [|[[model name] target] fields IH]; intros l H Hm Hn; cbn [mark_fields] in H.
  { injection H as <-. exists fs', f'. split_and!; [done..|].
    split; [by left|]. by intros [?|(t & ?%elem_of_nil & _)]. }
  destruct (reaches edges model _ target []) as [[[] v]|] eqn:Hr; [| |done].
  - apply reaches_true in Hr.
    destruct (IH _ H Hm Hn) as (fs1 & f1 & Hm1 & Hn1 & Hty1 & Hrec1).
    destruct (mark_field_inv _ _ _ _ _ _ _ Hm1 Hn1) as (fs & f & Hm0 & Hn0 & Hty & Hrec).
    exists fs, f. split_and!; [done..|congruence|]. rewrite Hrec1, Hrec. split.
    + intros [[?|[-> ->]]|(t & ? & ?)]; [by left|right|right].
      * exists target. split; [by left|done].
      * exists t. split; [by right|done].
    + intros [?|(t & [[= -> -> ->]|?]%elem_of_cons & ?)]; eauto.
  - apply reaches_false in Hr. destruct (IH _ H Hm Hn) as (fs & f & Hm0 & Hn0 & Hty & Hrec).
    exists fs, f. split_and!; [done..|]. rewrite Hrec. split.
    + intros [?|(t & ? & ?)]; [by left|right]. exists t. split; [by right|done].
    + intros [?|(t & [[= -> -> ->]|?]%elem_of_cons & ?)]; [by left|contradiction|eauto].
Qed.

(** The types of a package as the compiler has resolved them: each name once, local names
    declared, and no field marked yet. *)
Record package_resolved : Prop := {
  types_once : NoDup types.*1;
  fields_once id fields : (id, DModel fields) ∈ types -> NoDup fields.*1;
  local_closed id d r : bt_get id types = Some d -> r ∈ definition_refs d ->
    ref_package r = identity -> is_Some (bt_get (ref_id r) types);
  unmarked id fields name field :
    (id, DModel fields) ∈ types -> (name, field) ∈ fields -> field_recursive field = false;
}.

Hypothesis resolved : package_resolved.

Lemma direct_expr_ends (named : string -> list string -> option (option string)) e visited :
  (forall id, id ∉ visited -> is_Some (bt_get id types) -> is_Some (named id (id :: visited))) ->
  (forall r, r ∈ expression_refs e -> ref_package r = identity -> is_Some (bt_get (ref_id r) types)) ->
  is_Some (direct_expr identity named e visited).
Proof.
  intros Hn. induction e as [p b|r|m IH b|m IH|m IH| |m IH]; cbn; intros Hrefs; eauto.
  destruct (String.eqb_spec (ref_package r) identity) as [Hp|]; cbn; [|by eexists].
  case_bool_decide as Hv; cbn; [by eexists|]. apply Hn; [done|]. apply Hrefs; [by left|done].
Qed.

Lemma direct_named_ends fuel id visited :
  List.length (filter (.∉ visited) types.*1) < fuel -> is_Some (bt_get id types) ->
  is_Some (direct_named identity types fuel id visited).
Proof.
  revert id visited. induction fuel as [|fuel IH]; intros id visited Hf [d Hd]; [lia|]. cbn.
  rewrite Hd. destruct d as [fields| |e]; [by eexists..|].
  apply direct_expr_ends; [|intros r; by apply (local_closed resolved _ _ r Hd)].
  intros id' Hv [d' Hd']. apply IH; [|by eexists].
  assert (Hin : id' ∈ types.*1).
  { apply list_elem_of_fmap. exists (id', d'). split; [done|by apply bt_get_elem]. }
  assert (List.length (filter (.∉ id' :: visited) types.*1)
    < List.length (filter (.∉ visited) types.*1))
    by (apply filter_decreases with (a := id'); set_solver).
  lia.
Qed.

Lemma direct_model_ends e :
  (forall r, r ∈ expression_refs e -> ref_package r = identity -> is_Some (bt_get (ref_id r) types)) ->
  is_Some (direct_model identity types e).
Proof.
  apply direct_expr_ends. intros id _ Hid. apply direct_named_ends; [|done].
  pose proof (length_filter (.∉ [id]) types.*1) as Hl. rewrite length_fmap in Hl. lia.
Qed.

Lemma all_direct_fields_ends : is_Some (all_direct_fields identity types types).
Proof.
  assert (Hl : forall l, l ⊆ types -> is_Some (all_direct_fields identity types l)).
  { induction l as [|[id d] l IH]; intros Hsub; [by eexists|]. cbn.
    destruct IH as [rest Hrest]; [set_solver|]. rewrite Hrest.
    destruct d as [fields| |]; [|by eexists..].
    assert (Hin : (id, DModel fields) ∈ types) by set_solver.
    apply bt_get_nodup in Hin as Hget; [|by apply types_once].
    assert (Hf : forall fs, fs ⊆ fields -> is_Some (direct_fields identity types id fs)).
    { induction fs as [|[name field] fs IHf]; intros Hfs; [by eexists|]. cbn.
      destruct (direct_model_ends (field_ty field)) as [target ->].
      - intros r Hr. apply (local_closed resolved _ _ r Hget).
        apply (field_refs _ name field); [set_solver|done].
      - destruct IHf as [rest' ->]; [set_solver|]. by eexists. }
    destruct (Hf fields) as [here ->]; [done|]. by eexists. }
  by apply Hl.
Qed.

Lemma field_type_ends m fields n f :
  (m, DModel fields) ∈ types -> (n, f) ∈ fields -> is_Some (direct_model identity types (field_ty f)).
Proof.
  intros Hm Hn. apply direct_model_ends. intros r Hr. apply bt_get_nodup in Hm; [|by apply types_once].
  apply (local_closed resolved _ _ r Hm). by apply (field_refs _ n f).
Qed.

(** The search and the structure agree on the fields of the package. *)
Lemma found_holds m n f t : found_directly types m n f t <-> holds_directly types m n f t.
Proof.
  split; intros (fields & Hm & Hn & Ht); exists fields; (split_and!; [done..|]);
    by apply (direct_model_spec _ _ (field_type_ends _ _ _ _ Hm Hn)).
Qed.

(** One model holds another directly. *)
Definition contains (m t : string) : Prop := exists n f, holds_directly types m n f t.

(** One model holds another directly through a field without a mark. *)
Definition inline (l : list (string * TypeDefinition)) (m t : string) : Prop :=
  exists n f, holds_directly l m n f t /\ field_recursive f = false.

Section Edges.
  Variable fields : list (string * string * string).
  Hypothesis direct : all_direct_fields identity types types = Some fields.

Lemma edge_contains m t : edge (model_edges types fields) m t <-> contains m t.
Proof.
  split.
  - intros [n (f & Hf)%(all_direct_fields_spec _ _ _ _ _ direct)]%model_edges_edge.
    exists n, f. by apply found_holds.
  - intros (n & f & Hf%found_holds). pose proof Hf as (fs & Hm & _). eexists.
    split; [by eapply model_edges_get|]. apply list_elem_of_fmap. exists (m, n, t).
    split; [done|]. apply list_elem_of_filter. split; [done|].
    apply (all_direct_fields_spec _ _ _ _ _ direct). by exists f.
Qed.

Lemma contained_entry m n t : (m, n, t) ∈ fields -> is_Some (bt_get t (model_edges types fields)).
Proof.
  intros (f & fs & _ & _ & Ht)%(all_direct_fields_spec _ _ _ _ _ direct).
  apply direct_model_model in Ht as (fs' & Ht%bt_get_elem). eexists. by eapply model_edges_get.
Qed.

Lemma mark_fields_ends l l0 :
  l ⊆ fields -> is_Some (mark_fields (model_edges types fields) l l0).
Proof.
  revert l0. induction l as [|[[model name] target] l IH]; intros l0 Hsub; [by eexists|].
  cbn [mark_fields].
  destruct (reaches_ends (model_edges types fields) model) with
    (fuel := S (List.length (model_edges types fields))) (current := target) (visited := @nil string)
    as (found & v & -> & _).
  - intros x y [n Hn]%model_edges_edge. by eapply contained_entry.
  - pose proof (length_filter (.∉ []) (model_edges types fields).*1) as Hl.
    rewrite length_fmap in Hl. lia.
  - apply (contained_entry model name). set_solver.
  - destruct found; apply IH; set_solver.
Qed.

End Edges.

Lemma tc_first {A} (R : relation A) x z : tc R x z -> exists y, R x y /\ rtc R y z.
Proof. destruct 1 as [x y H|x y z H Hyz]; exists y; (split; [done|]); [done|by apply tc_rtc]. Qed.

Lemma found_directly_once m n f f' t t' :
  found_directly types m n f t -> found_directly types m n f' t' -> t = t'.
Proof.
  intros (fs & Hm & Hn & Ht) (fs' & Hm' & Hn' & Ht').
  apply bt_get_nodup in Hm as Hg, Hm' as Hg'; [|by apply types_once..].
  assert (fs = fs') as <- by congruence.
  apply bt_get_nodup in Hn, Hn'; [|by eapply fields_once..]. congruence.
Qed.

Lemma embeds_declared e t : embeds e t -> t ∈ types.*1.
Proof.
  induction 1 as [r fields _ Hd| |]; [|done..]. apply list_elem_of_fmap.
  exists (ref_id r, DModel fields). split; [done|by apply bt_get_elem].
Qed.

(** Without a cycle, what a model holds inline ends. *)
Lemma inline_ends l m : (forall m, ~ tc (inline l) m m) -> sn (inline l) m.
Proof.
  intros Hirr. apply tc_finite_sn; [done|]. exists types.*1. intros t Ht.
  induction Ht as [x y (n & f & (fs & _ & _ & Ht) & _)|]; [by eapply embeds_declared|done].
Qed.

(** C35: The marked fields are exactly those through which a model would contain itself, where
    what a field holds is read off the structure of its type, through aliases and nullable
    types.  What is held without a mark therefore has no cycle, and following it from any
    model comes to an end: a value of every model, with the marked fields behind an
    indirection, has a finite size. *)
Theorem recursion_broken :
  exists types', mark_recursive_model_fields identity types = Some types'
    /\ (forall m n f t, holds_directly types' m n f t ->
        field_recursive f = true <-> rtc contains t m)
    /\ (forall m, ~ tc (inline types') m m)
    /\ forall m, sn (inline types') m.
Proof.
  unfold mark_recursive_model_fields. destruct all_direct_fields_ends as [fields Hfields].
  rewrite Hfields. cbn. destruct (mark_fields_ends fields Hfields fields types) as [types' Ht]; [done|].
  assert (Hrtc : forall a b, rtc (edge (model_edges types fields)) a b <-> rtc contains a b).
  { intros a b. split; intros Hab; (eapply rtc_subrel; [|exact Hab]);
      intros x y; by apply edge_contains. }
  assert (Hexact : forall m n f t, holds_directly types' m n f t ->
    contains m t /\ (field_recursive f = true <-> rtc contains t m)).
  { intros m n f' t (fs' & Hm & Hn & Hd).
    destruct (mark_fields_inv _ _ _ _ _ _ _ _ Ht Hm Hn) as (fs & f & Hm0 & Hn0 & Hty & Hrec).
    rewrite Hty in Hd. assert (Hh : holds_directly types m n f t) by by exists fs.
    split; [by exists n, f|]. apply found_holds in Hh as Hf.
    rewrite Hrec, (unmarked resolved _ _ _ _ Hm0 Hn0). split.
    - intros [?|(t' & Hin & Hpath)]; [done|].
      apply (all_direct_fields_spec _ _ _ _ _ Hfields) in Hin as (f0 & Hf0).
      by rewrite (found_directly_once _ _ _ _ _ _ Hf Hf0), <- Hrtc.
    - intros Hpath. right. exists t. rewrite Hrtc. split; [|done].
      apply (all_direct_fields_spec _ _ _ _ _ Hfields). by exists f. }
  assert (Hcycle : forall m, ~ tc (inline types') m m).
  { intros m (t & (n & f & Hf & Hflag) & Htm)%tc_first. apply Hexact in Hf as [_ Hrec].
    assert (rtc contains t m) as Hback.
    { eapply rtc_subrel; [|exact Htm]. intros x y (n' & f' & Hf' & _). by apply Hexact in Hf' as [? _]. }
    apply Hrec in Hback. congruence. }
  exists types'. split_and!; [done|by intros; eapply Hexact|done|]. intros m. by apply inline_ends.
Qed.

End Marking.
