(* ===== verification/SurfaceDigest.v ===== *)
(** * The digest of a selected surface

    [selected_surface_digest] of [idl/src/canonical.rs]: what a consumer has selected of an
    API, written as fields that each begin with their length, and hashed.  The text of a schema
    is written once and kept in a table ([append_schema]); the model threads the text written
    so far and the table.  An index that is not there panics ([IndexPanic]).

    The second half takes the text apart again: the fields do not depend on the table, and
    they determine each selected action up to the texts of its schemas. *)

From Stdlib Require Import Ascii String QArith.
From S2P Require Import Prelude RustStr Extern Json Transcript IdlTypes JsonSchema IdlSchema.

Local Open Scope string_scope.

(** [serde_json::to_string] on a [Value] *)
Class JsonText := json_text : Json -> string.

(** The text determines the document, and the text of an object begins with a brace. *)
Class JsonTextLaws `{JsonText} : Prop := {
  json_text_inj a b : json_text a = json_text b -> same_document (Some a) (Some b) = true;
  json_text_object members : exists rest, json_text (JObject members) = String "{" rest;
}.

Inductive digest_error :=
| DigestApiAbsent (id : string)
| DigestActionAbsent (id : ActionId)
| DigestCapabilityAbsent (id : string)
| DigestSchema (e : project_error)
| IndexPanic.

(** ** Selections *)

(** [selection_key] *)
Definition selection_key (value : ActionSelection) : string :=
  match selected_direction value with
  | Call => "rpc"
  | Invoke => "operation"
  | Publish => "publish event"
  | Subscribe =>
      match action_kind (selected_action value) with
      | KEvent => "subscribe event"
      | _ => "live"
      end
  end +:+ " " +:+ action_name (selected_action value).

(** [actions.sort_by_key(|action| selection_key(action))], which is stable *)
Fixpoint insert_selected (x : ActionSelection) (l : list ActionSelection) : list ActionSelection :=
  match l with
  | [] => [x]
  | y :: rest =>
      if str_le (selection_key x) (selection_key y) then x :: l else y :: insert_selected x rest
  end.

Definition sort_selected (l : list ActionSelection) : list ActionSelection :=
  foldr insert_selected [] l.

(** The derived order of [ActionSelection]: by kind, name and direction. *)
Definition kind_rank (k : ActionKind) : N :=
  match k with KRpc => 0 | KOperation => 1 | KEvent => 2 | KLive => 3 end.

Definition direction_rank (d : InteractionDirection) : N :=
  match d with Call => 0 | Invoke => 1 | Publish => 2 | Subscribe => 3 end.

Definition selection_lt (a b : ActionSelection) : bool :=
  let ka := kind_rank (action_kind (selected_action a)) in
  let kb := kind_rank (action_kind (selected_action b)) in
  let na := action_name (selected_action a) in
  let nb := action_name (selected_action b) in
  (ka <? kb)%N
  || (ka =? kb)%N
    && (str_le na nb && negb (String.eqb na nb)
        || String.eqb na nb
          && (direction_rank (selected_direction a) <? direction_rank (selected_direction b))%N).

(** [BTreeSet::insert] *)
Fixpoint insert_allowed (x : ActionSelection) (l : list ActionSelection) : list ActionSelection :=
  match l with
  | [] => [x]
  | y :: rest =>
      if selection_lt x y then x :: l
      else if selection_lt y x then y :: insert_allowed x rest
      else l
  end.

(** [ApiDefinition::members] *)
Definition members (api : ApiDefinition) (id : string) : option (list string) :=
  match bt_get id (api_capabilities api) with
  | Some _ => Some [id]
  | None => group_members <$> bt_get id (api_groups api)
  end.

(** [&self.capabilities[member].allows] of each member *)
Fixpoint members_allow (api : ApiDefinition) (l : list string) :
  result (list ActionSelection) digest_error :=
  match l with
  | [] => Ok []
  | member :: l =>
      let? capability := ok_or (bt_get member (api_capabilities api)) IndexPanic in
      let? rest := members_allow api l in
      Ok (capability_allows capability ++ rest)%list
  end.

(** [ApiDefinition::selection_allows] *)
Definition selection_allows (api : ApiDefinition) (id : string) :
  result (option (list ActionSelection)) digest_error :=
  match members api id with
  | None => Ok None
  | Some l =>
      let? allowed := members_allow api l in
      Ok (Some (foldl (fun set x => insert_allowed x set) [] allowed))
  end.

(** ** Writing *)

(** [append_digest_field] *)
Definition append_digest_field (output value : string) : string :=
  output +:+ decimal (N.of_nat (String.length value)) +:+ ":" +:+ value.

(** The text written so far, and the texts of schemas *)
Definition writing : Type := string * list (TypeRef * string).

Definition append_field (st : writing) (value : string) : writing :=
  (append_digest_field (fst st) value, snd st).

Definition event_parameters (parameters : list (list string)) : Json :=
  JArray (map (fun path => JArray (map JString path)) parameters).

Section Writing.
  Context `{JsonText}.
  Variable g : PackageGraph.

(** [append_schema] *)
Definition append_schema (st : writing) (reference : TypeRef) : result writing digest_error :=
  match bt_get reference (snd st) with
  | Some schema => Ok (append_field st schema)
  | None =>
      let? document := map_err DigestSchema (json_schema g reference) in
      Ok (append_digest_field (fst st) (json_text document),
          (reference, json_text document) :: snd st)
  end.

Definition append_payload (st : writing) (payload : option TypeRef) : result writing digest_error :=
  match payload with
  | Some payload => append_schema st payload
  | None => Ok (append_field st "")
  end.

Section Api.
  Variable api : ApiDefinition.

(** [append_errors] *)
Fixpoint append_errors (st : writing) (errors : list string) : result writing digest_error :=
  match errors with
  | [] => Ok st
  | name :: errors =>
      let? payload := ok_or (bt_get name (api_errors api)) IndexPanic in
      let? st := append_payload (append_field st name) payload in
      append_errors st errors
  end.

(** [for (name, signal) in signals] *)
Fixpoint append_signals (st : writing) (signals : list (string * TypeRef)) :
  result writing digest_error :=
  match signals with
  | [] => Ok st
  | (name, signal) :: signals =>
      let? st := append_schema (append_field st name) signal in
      append_signals st signals
  end.

Definition upload_field (upload stream : bool) : string :=
  if stream then "stream" else if upload then "upload" else "".

(** One selected action *)
Definition append_action (st : writing) (action : ActionDefinition) : result writing digest_error :=
  match action with
  | Rpc input output errors download pagination =>
      let? st := append_schema st input in
      let? st := append_schema st output in
      let st := append_field st (if download then "download" else "") in
      let st := append_field st (match pagination with Some _ => "cursor" | None => "" end) in
      append_errors st errors
  | Operation input output progress update errors signals upload stream =>
      let? st := append_schema st input in
      let? st := append_schema st output in
      let? st := append_payload st progress in
      let? st := match update with Some update => append_schema st update | None => Ok st end in
      let? st := append_signals st signals in
      let st := append_field st (upload_field upload stream) in
      append_errors st errors
  | Event payload parameters =>
      let? st := append_schema st payload in
      Ok (append_field st (json_text (event_parameters parameters)))
  | Live input event =>
      let? st := append_schema st input in
      append_schema st event
  end.

Fixpoint append_actions (st : writing) (actions : list ActionSelection) :
  result writing digest_error :=
  match actions with
  | [] => Ok st
  | selection :: actions =>
      let st := append_field st (selection_key selection) in
      let? action := ok_or (bt_get (selected_action selection) (api_actions api))
        (DigestActionAbsent (selected_action selection)) in
      let? st := append_action st action in
      append_actions st actions
  end.

Fixpoint append_capabilities (required : bool) (st : writing) (capabilities : list string) :
  result writing digest_error :=
  match capabilities with
  | [] => Ok st
  | id :: capabilities =>
      match bt_get id (api_capabilities api), bt_get id (api_groups api) with
      | None, None => Err (DigestCapabilityAbsent id)
      | _, _ =>
          let st := append_field st (if required then "required" else "optional") in
          let st := append_field st id in
          let? allowed := selection_allows api id in
          let st := foldl (fun st action => append_field st (selection_key action)) st
            (default [] allowed) in
          append_capabilities required st capabilities
      end
  end.

End Api.

(** The text that [selected_surface_digest_cached] hashes, and the table it leaves *)
Definition selected_surface (selection : InteractionSelection) (schemas : list (TypeRef * string)) :
  result writing digest_error :=
  let? api := ok_or (graph_api g (selection_api selection))
    (DigestApiAbsent (selection_api selection)) in
  let st := append_field ("", schemas) (selection_api selection) in
  let? st := append_actions api st (sort_selected (selection_actions selection)) in
  let? st := append_capabilities api true st (required_capabilities selection) in
  append_capabilities api false st (optional_capabilities selection).

Context `{Sha256} `{Base64Url}.

(** [selected_surface_digest_cached] *)
Definition selected_surface_digest_cached (selection : InteractionSelection)
    (schemas : list (TypeRef * string)) :
  result (string * list (TypeRef * string)) digest_error :=
  let? (output, schemas) := selected_surface selection schemas in
  Ok (b64_encode (sha256 output), schemas).

(** [selected_surface_digest] *)
Definition selected_surface_digest (selection : InteractionSelection) : result string digest_error :=
  let? (digest, _) := selected_surface_digest_cached selection [] in
  Ok digest.

End Writing.

(** ** Fields *)

Definition frame (value : string) : string :=
  decimal (N.of_nat (String.length value)) +:+ ":" +:+ value.

Fixpoint frames (fields : list string) : string :=
  match fields with [] => "" | value :: fields => frame value +:+ frames fields end.

Lemma frames_app l l' : frames (l ++ l')%list = frames l +:+ frames l'.
Proof. induction l as [|v l IH]; [done|]. cbn [app frames]. by rewrite IH, append_assoc. Qed.

Lemma digits_split a b a' b' :
  all_chars is_ascii_digit a = true -> all_chars is_ascii_digit a' = true ->
  a +:+ ":" +:+ b = a' +:+ ":" +:+ b' -> a = a' /\ b = b'.
Proof.
  revert a'. induction a as [|c a IH]; intros [|c' a']; cbn; intros Ha Ha' Heq;
    simplify_eq; try done.
  apply andb_true_iff in Ha as [_ Ha], Ha' as [_ Ha'].
  match goal with H : _ = _ |- _ => destruct (IH a' Ha Ha' H) as [-> ->] end. done.
Qed.

Lemma frame_nonempty v rest : frame v +:+ rest <> "".
Proof.
  unfold frame. pose proof (decimal_nonempty (N.of_nat (String.length v))).
  by destruct (decimal _).
Qed.

(** The text determines the fields. *)
Lemma frames_inj l l' : frames l = frames l' -> l = l'.
Proof.
  revert l'. induction l as [|v l IH]; intros [|v' l']; cbn [frames]; intros Heq; [done| | |].
  - by destruct (frame_nonempty v' (frames l')).
  - by destruct (frame_nonempty v (frames l)).
  - unfold frame in Heq. rewrite !append_assoc in Heq.
    apply digits_split in Heq as [Hd Heq]; [|by apply (decimal_digits _ _ "")..].
    apply decimal_inj, Nat2N.inj in Hd. apply append_eq_length in Heq as [-> Heq]; [|done].
    f_equal. by apply IH.
Qed.

(** What the fields say of a reference, of named payloads, of an action and of a surface. *)
Section Fields.
  Context `{JsonText}.
  Variable g : PackageGraph.

Definition schema_text (r : TypeRef) (t : string) : Prop :=
  exists document, json_schema g r = Ok document /\ t = json_text document.

Definition payload_text (payload : option TypeRef) (t : string) : Prop :=
  match payload with Some r => schema_text r t | None => t = "" end.

Fixpoint entries_fields (entries : list (string * option TypeRef)) (fs : list string) : Prop :=
  match entries with
  | [] => fs = []
  | (name, payload) :: entries =>
      exists t rest, payload_text payload t /\ entries_fields entries rest /\ fs = name :: t :: rest
  end.

Definition declared_errors (api : ApiDefinition) (errors : list string)
    (entries : list (string * option TypeRef)) : Prop :=
  Forall2 (fun name entry =>
    fst entry = name /\ bt_get name (api_errors api) = Some (snd entry)) errors entries.

Definition errors_fields (api : ApiDefinition) (errors : list string) (fs : list string) : Prop :=
  exists entries, declared_errors api errors entries /\ entries_fields entries fs.

Definition signal_entries (signals : list (string * TypeRef)) : list (string * option TypeRef) :=
  map (fun '(name, signal) => (name, Some signal)) signals.

Definition update_fields (update : option TypeRef) (fs : list string) : Prop :=
  match update with Some r => exists t, schema_text r t /\ fs = [t] | None => fs = [] end.

Definition action_fields (api : ApiDefinition) (action : ActionDefinition) (fs : list string) :
  Prop :=
  match action with
  | Rpc input output errors download pagination =>
      exists ti to fe, schema_text input ti /\ schema_text output to
        /\ errors_fields api errors fe
        /\ fs = ti :: to :: (if download then "download" else "")
            :: (match pagination with Some _ => "cursor" | None => "" end) :: fe
  | Operation input output progress update errors signals upload stream =>
      exists ti to tp fu fsig fe, schema_text input ti /\ schema_text output to
        /\ payload_text progress tp /\ update_fields update fu
        /\ entries_fields (signal_entries signals) fsig /\ errors_fields api errors fe
        /\ fs = (ti :: to :: tp :: fu ++ fsig ++ upload_field upload stream :: fe)%list
  | Event payload parameters =>
      exists t, schema_text payload t /\ fs = [t; json_text (event_parameters parameters)]
  | Live input event =>
      exists ti te, schema_text input ti /\ schema_text event te /\ fs = [ti; te]
  end.

Fixpoint actions_fields (api : ApiDefinition) (actions : list ActionSelection) (fs : list string) :
  Prop :=
  match actions with
  | [] => fs = []
  | selection :: actions =>
      exists action fa rest, bt_get (selected_action selection) (api_actions api) = Some action
        /\ action_fields api action fa /\ actions_fields api actions rest
        /\ fs = (selection_key selection :: fa ++ rest)%list
  end.

Definition capability_tag (required : bool) : string :=
  if required then "required" else "optional".

Fixpoint capability_fields (api : ApiDefinition) (required : bool) (ids fs : list string) : Prop :=
  match ids with
  | [] => fs = []
  | id :: ids =>
      exists allowed rest, selection_allows api id = Ok allowed
        /\ capability_fields api required ids rest
        /\ fs = (capability_tag required :: id :: map selection_key (default [] allowed) ++ rest)%list
  end.

Definition surface_fields (selection : InteractionSelection) (fs : list string) : Prop :=
  exists api fa fr fo, graph_api g (selection_api selection) = Some api
    /\ actions_fields api (sort_selected (selection_actions selection)) fa
    /\ capability_fields api true (required_capabilities selection) fr
    /\ capability_fields api false (optional_capabilities selection) fo
    /\ fs = (selection_api selection :: fa ++ fr ++ fo)%list.

(** ** The table of schemas is transparent *)

Definition table_ok (schemas : list (TypeRef * string)) : Prop :=
  forall r t, bt_get r schemas = Some t -> schema_text r t.

(** A step that writes fields of which [P] holds. *)
Definition writes (P : list string -> Prop) (st : writing) (o : result writing digest_error) : Prop :=
  forall st', table_ok (snd st) -> o = Ok st' ->
  exists fs, P fs /\ fst st' = fst st +:+ frames fs /\ table_ok (snd st').

Lemma append_field_text st v : fst (append_field st v) = fst st +:+ frames [v].
Proof. unfold append_field, append_digest_field. cbn. unfold frame. by rewrite append_nil_r. Qed.

Lemma writes_ok P st fs : P fs -> forall st', fst st' = fst st +:+ frames fs -> snd st' = snd st ->
  writes P st (Ok st').
Proof. intros HP st' Hf Hs st'' Hok [= <-]. exists fs. by rewrite Hs. Qed.

(** One step after another. *)
Lemma writes_bind (P Q : list string -> Prop) (R : list string -> Prop) st o k :
  writes P st o -> (forall st', writes Q st' (k st')) ->
  (forall p q, P p -> Q q -> R (p ++ q)%list) ->
  writes R st (let? st' := o in k st').
Proof.
  intros Ho Hk HR st'' Hok. rewrite let_ok. intros (st' & Hst' & Hst'').
  destruct (Ho st' Hok Hst') as (p & Hp & Hfp & Hok').
  destruct (Hk st' st'' Hok' Hst'') as (q & Hq & Hfq & Hok'').
  exists (p ++ q)%list. split_and!; [by apply HR| |done].
  by rewrite Hfq, Hfp, frames_app, append_assoc.
Qed.

Lemma writes_field (Q R : list string -> Prop) st v o :
  writes Q (append_field st v) o -> (forall q, Q q -> R (v :: q)) -> writes R st o.
Proof.
  intros Ho HR st' Hok Hst'. destruct (Ho st' Hok Hst') as (q & Hq & Hf & Hok').
  exists (v :: q). split_and!; [by apply HR| |done].
  rewrite Hf, append_field_text, append_assoc. cbn. by rewrite append_nil_r.
Qed.

Lemma writes_nothing (P : list string -> Prop) st : P [] -> writes P st (Ok st).
Proof. intros HP. apply (writes_ok _ _ []); [done| |done]. cbn. by rewrite append_nil_r. Qed.

Lemma append_schema_writes st r :
  writes (fun fs => exists t, schema_text r t /\ fs = [t]) st (append_schema g st r).
Proof.
  intros st' Hok. unfold append_schema. destruct (bt_get r (snd st)) as [t|] eqn:Ht.
  - intros [= <-]. exists [t]. rewrite append_field_text. split_and!; [|done|done].
    exists t. split; [|done]. by apply Hok.
  - rewrite let_ok. intros (d & Hd & [= <-]). apply map_err_ok in Hd.
    assert (Hr : schema_text r (json_text d)) by (by exists d).
    exists [json_text d]. split_and!; [by exists (json_text d)|..]; cbn.
    + unfold append_digest_field, frame. by rewrite append_nil_r.
    + intros r' t'. cbn. case_decide as Heq; [|by apply Hok]. by intros [= <-]; subst r'.
Qed.

Lemma append_payload_writes st payload :
  writes (fun fs => exists t, payload_text payload t /\ fs = [t]) st (append_payload g st payload).
Proof.
  destruct payload as [r|]; [apply append_schema_writes|].
  apply (writes_ok _ _ [""]); [by exists ""|apply append_field_text|done].
Qed.

(** A field, and then the rest. *)
Definition field_then (v : string) (Q : list string -> Prop) (fs : list string) : Prop :=
  exists rest, Q rest /\ fs = v :: rest.

Definition both (P Q : list string -> Prop) (fs : list string) : Prop :=
  exists p q, P p /\ Q q /\ fs = (p ++ q)%list.

Lemma writes_impl (P Q : list string -> Prop) st o :
  writes P st o -> (forall fs, P fs -> Q fs) -> writes Q st o.
Proof. intros Ho HPQ st' Hok Hst'. destruct (Ho st' Hok Hst') as (fs & ? & ?). eauto. Qed.

Lemma writes_after v Q st o :
  writes Q (append_field st v) o -> writes (field_then v Q) st o.
Proof. intros Ho. eapply writes_field; [exact Ho|]. intros q Hq. by exists q. Qed.

Lemma writes_both P Q st o k :
  writes P st o -> (forall st', writes Q st' (k st')) ->
  writes (both P Q) st (let? st' := o in k st').
Proof. intros Ho Hk. eapply writes_bind; [exact Ho|exact Hk|]. intros p q Hp Hq. by exists p, q. Qed.

Lemma writes_err P st e : writes P st (Err e).
Proof. by intros ? ?. Qed.

#[local] Hint Resolve append_schema_writes append_payload_writes writes_err : writes.

(** [write_steps] composes the writers of a sequence of steps. *)
Ltac write_steps :=
  repeat first
    [ progress auto with writes
    | apply writes_both; [|intros]
    | apply writes_after ].

Lemma append_errors_writes api errors st :
  writes (errors_fields api errors) st (append_errors g api st errors).
Proof.
  revert st. induction errors as [|name errors IH]; intros st; cbn [append_errors].
  - apply writes_nothing. exists []. split; [constructor|done].
  - destruct (bt_get name (api_errors api)) as [payload|] eqn:Hname; cbn [ok_or]; [|auto with writes].
    eapply writes_impl; [apply writes_after; apply writes_both; [auto with writes|exact IH]|].
    intros fs (rest & (p & q & (t & Ht & ->) & (entries & Hd & Hq) & ->) & ->).
    exists ((name, payload) :: entries). split; [by constructor|]. by exists t, q.
Qed.

Lemma append_signals_writes signals st :
  writes (entries_fields (signal_entries signals)) st (append_signals g st signals).
Proof.
  revert st. induction signals as [|[name signal] signals IH]; intros st; cbn [append_signals].
  - by apply writes_nothing.
  - eapply writes_impl; [apply writes_after; apply writes_both; [auto with writes|exact IH]|].
    intros fs (rest & (p & q & (t & Ht & ->) & Hq & ->) & ->). by exists t, q.
Qed.

#[local] Hint Resolve append_errors_writes append_signals_writes : writes.

Lemma append_update_writes update st :
  writes (update_fields update) st
    (match update with Some update => append_schema g st update | None => Ok st end).
Proof. destruct update; [apply append_schema_writes|by apply writes_nothing]. Qed.

#[local] Hint Resolve append_update_writes : writes.

Lemma append_action_writes api action st :
  writes (action_fields api action) st (append_action g api st action).
Proof.
  destruct action as [i o errors d pg|i o pr up errors signals u s|p ps|i e]; cbn [append_action];
    eapply writes_impl.
  - write_steps.
  - unfold both, field_then. cbn. naive_solver.
  - write_steps.
  - intros fs (? & ? & (ti & Hi & ->) & (? & ? & (to & Ho & ->) & (? & ? & (tp & Hp & ->) & (fu & ? &
      Hu & (fsig & ? & Hs & (fe & He & ->) & ->) & ->) & ->) & ->) & ->).
    by exists ti, to, tp, fu, fsig, fe.
  - apply writes_both; [auto with writes|]. intros st'. apply (writes_ok _ _ [json_text (event_parameters ps)]);
      [exact eq_refl|apply append_field_text|done].
  - intros fs (? & ? & (t & Ht & ->) & <- & ->). by exists t.
  - write_steps.
  - unfold both. cbn. naive_solver.
Qed.

Lemma append_actions_writes api actions st :
  writes (actions_fields api actions) st (append_actions g api st actions).
Proof.
  revert st. induction actions as [|s actions IH]; intros st; cbn [append_actions].
  - by apply writes_nothing.
  - destruct (bt_get _ _) as [action|] eqn:Ha; cbn [ok_or]; [|auto with writes].
    eapply writes_impl; [apply writes_after, writes_both; [apply append_action_writes|exact IH]|].
    intros fs (rest & (fa & q & Hfa & Hq & ->) & ->). by exists action, fa, q.
Qed.

Lemma append_keys_writes allowed st :
  writes (eq (map selection_key allowed)) st
    (Ok (foldl (fun st action => append_field st (selection_key action)) st allowed)).
Proof.
  revert st. induction allowed as [|a allowed IH]; intros st; cbn [foldl].
  - by apply writes_nothing.
  - eapply writes_impl; [apply writes_after, IH|]. by intros fs (rest & <- & ->).
Qed.

Lemma append_capabilities_writes api required ids st :
  writes (capability_fields api required ids) st (append_capabilities api required st ids).
Proof.
  revert st. induction ids as [|id ids IH]; intros st; cbn [append_capabilities].
  - by apply writes_nothing.
  - assert (Hsome : writes (capability_fields api required (id :: ids)) st
      (let? allowed := selection_allows api id in
       append_capabilities api required
         (foldl (fun st action => append_field st (selection_key action))
            (append_field (append_field st (capability_tag required)) id)
            (default [] allowed)) ids)).
    { destruct (selection_allows api id) as [allowed|] eqn:Ha; [|auto with writes].
      eapply writes_impl.
      - apply writes_after, writes_after.
        exact (writes_both _ _ _ _ _ (append_keys_writes (default [] allowed) _) IH).
      - intros fs (? & (? & (? & rest & <- & Hrest & ->) & ->) & ->). by exists allowed, rest. }
    destruct (bt_get id (api_capabilities api)), (bt_get id (api_groups api)); auto with writes.
Qed.

(** The text of a surface is the frames of its fields, whatever the table has kept. *)
Lemma selected_surface_writes selection schemas output schemas' :
  table_ok schemas -> selected_surface g selection schemas = Ok (output, schemas') ->
  exists fs, surface_fields selection fs /\ output = frames fs.
Proof.
  unfold selected_surface. intros Hok Hs. peel Hs as api Hapi.
  match type of Hs with ?o = _ =>
    assert (Hw : writes (surface_fields selection) ("", schemas) o) end.
  { eapply writes_impl.
    - apply writes_after, writes_both; [apply append_actions_writes|intros st].
      apply writes_both; [apply append_capabilities_writes|intros st'].
      apply append_capabilities_writes.
    - intros fs (? & (fa & ? & Hfa & (f & f' & Hf & Hf' & ->) & ->) & ->).
      by exists api, fa, f, f'. }
  destruct (Hw _ Hok Hs) as (fs & Hfs & Hout & _). by exists fs.
Qed.

End Fields.

(** ** The fields determine the actions *)

(** A payload is empty or the text of a schema; a name is neither, and holds no space. *)
Definition payload_like (s : string) : bool :=
  match s with EmptyString => true | String c _ => Ascii.eqb c "{" end.

Definition plain_name (s : string) : bool := negb (contains_char " " s) && negb (payload_like s).

(** What may follow the named payloads of an action. *)
Definition closing (fs : list string) : Prop :=
  match fs with
  | [] => True
  | a :: rest =>
      payload_like a = false
      /\ (plain_name a = true -> match rest with b :: _ => payload_like b = false | [] => True end)
  end.

Definition stops (fs : list string) : Prop :=
  match fs with
  | a :: b :: _ => plain_name a = true -> payload_like b = false
  | _ => True
  end.

Lemma closing_stops fs : closing fs -> stops fs.
Proof. destruct fs as [|a [|b fs]]; cbn; [done..|]. by intros [_ ?]. Qed.

Lemma plain_not_payload s : plain_name s = true -> payload_like s = false.
Proof. intros [_ H%negb_true_iff]%andb_true_iff. done. Qed.

(** An action as the compiler admits it: of the kind of its identity, its errors and signals
    with plain names, each signal once, and a stream only with an upload. *)
Definition action_wf (id : ActionId) (action : ActionDefinition) : Prop :=
  match action_kind id, action with
  | KRpc, Rpc _ _ errors _ _ => Forall (fun name => plain_name name = true) errors
  | KOperation, Operation _ _ _ _ errors signals upload stream =>
      Forall (fun name => plain_name name = true) errors
      /\ Forall (fun name => plain_name name = true) signals.*1
      /\ NoDup signals.*1 /\ (stream = true -> upload = true)
  | KEvent, Event _ _ | KLive, Live _ _ => True
  | _, _ => False
  end.

Definition api_wf (api : ApiDefinition) : Prop :=
  forall id action, bt_get id (api_actions api) = Some action -> action_wf id action.

Definition apis_wf (g : PackageGraph) : Prop :=
  forall id api, graph_api g id = Some api -> api_wf api.

(** The directions in which an action of a kind is used. *)
Definition used_in (k : ActionKind) (direction : InteractionDirection) : Prop :=
  match k with
  | KRpc => direction = Call
  | KOperation => direction = Invoke
  | KEvent => direction = Publish \/ direction = Subscribe
  | KLive => direction = Subscribe
  end.

(** A selection as the compiler resolves it. *)
Record selection_wf (selection : InteractionSelection) : Prop := {
  wf_directions s : s ∈ selection_actions selection ->
    used_in (action_kind (selected_action s)) (selected_direction s);
  wf_capabilities : Forall (fun id => plain_name id = true)
    (required_capabilities selection ++ optional_capabilities selection)%list;
}.

Section Determined.
  Context `{JsonText} `{!JsonTextLaws}.
  Variables g g' : PackageGraph.

Definition same_text (r r' : TypeRef) : Prop := exists t, schema_text g r t /\ schema_text g' r' t.

Definition same_payload (p p' : option TypeRef) : Prop :=
  match p, p' with
  | Some r, Some r' => same_text r r'
  | None, None => True
  | _, _ => False
  end.

Definition same_entry (e e' : string * option TypeRef) : Prop :=
  fst e = fst e' /\ same_payload (snd e) (snd e').

Lemma schema_text_payload_like gg r t : schema_text gg r t -> exists rest, t = String "{" rest.
Proof.
  intros (d & Hd & ->). unfold json_schema in Hd. peel Hd as st Hst. destruct st as [defs vis].
  injection Hd as <-. apply json_text_object.
Qed.

Lemma payload_text_like gg p t : payload_text gg p t -> payload_like t = true.
Proof.
  destruct p as [r|]; cbn; [|by intros ->]. intros (rest & ->)%schema_text_payload_like. done.
Qed.

Lemma payload_text_same p p' t : payload_text g p t -> payload_text g' p' t -> same_payload p p'.
Proof.
  destruct p as [r|], p' as [r'|]; cbn; intros Ht Ht'; [by exists t| | |done]; subst.
  - by destruct (schema_text_payload_like _ _ _ Ht).
  - by destruct (schema_text_payload_like _ _ _ Ht').
Qed.

Definition plain_entries (entries : list (string * option TypeRef)) : Prop :=
  Forall (fun entry => plain_name (fst entry) = true) entries.

(** Named payloads are told apart from what follows them. *)
Lemma entries_determined entries entries' fs fs' rest rest' :
  entries_fields g entries fs -> entries_fields g' entries' fs' ->
  plain_entries entries -> plain_entries entries' -> stops rest -> stops rest' ->
  (fs ++ rest = fs' ++ rest')%list ->
  Forall2 same_entry entries entries' /\ rest = rest'.
Proof.
  revert entries' fs fs'.
  induction entries as [|[n p] entries IH]; intros [|[n' p'] entries'] fs fs'; cbn.
  - intros -> -> _ _ _ _ Heq. by split.
  - intros -> (t & r & Ht%payload_text_like & _ & ->) _ Hn Hs _ Heq. cbn in Heq. subst rest.
    apply Forall_cons in Hn as [Hn _]. by rewrite (Hs Hn) in Ht.
  - intros (t & r & Ht%payload_text_like & _ & ->) -> Hn _ _ Hs Heq. cbn in Heq. subst rest'.
    apply Forall_cons in Hn as [Hn _]. by rewrite (Hs Hn) in Ht.
  - intros (t & r & Ht & Hr & ->) (t' & r' & Ht' & Hr' & ->) [_ Hn]%Forall_cons [_ Hn']%Forall_cons
      Hs Hs' Heq. cbn in Heq. injection Heq as <- <- Heq.
    destruct (IH _ _ _ Hr Hr' Hn Hn' Hs Hs' Heq) as [HF ->]. split; [|done].
    constructor; [|done]. split; [done|]. by eapply payload_text_same.
Qed.

Lemma entries_closing gg entries fs rest :
  entries_fields gg entries fs -> plain_entries entries -> closing rest ->
  match (fs ++ rest)%list with a :: _ => payload_like a = false | [] => True end.
Proof.
  destruct entries as [|[n p] entries]; cbn.
  - intros -> _ Hr. cbn. by destruct rest; [|destruct Hr].
  - intros (t & r & _ & _ & ->) [Hn _]%Forall_cons _. by apply plain_not_payload.
Qed.

Lemma declared_plain api errors entries :
  Forall (fun name => plain_name name = true) errors -> declared_errors api errors entries ->
  plain_entries entries.
Proof.
  intros Hp Hd. induction Hd as [|name [n p] errors entries [Hn _] _ IH]; [constructor|].
  apply Forall_cons in Hp as [Hname Hp]. cbn in Hn. subst n. constructor; [done|by apply IH].
Qed.

Lemma signals_plain signals :
  Forall (fun name => plain_name name = true) signals.*1 -> plain_entries (signal_entries signals).
Proof.
  unfold plain_entries, signal_entries. induction signals as [|[n s] signals IH]; cbn; [constructor|].
  intros [Hn Hs]%Forall_cons. constructor; [done|by apply IH].
Qed.

Definition same_errors (api api' : ApiDefinition) (errors errors' : list string) : Prop :=
  exists entries entries', declared_errors api errors entries
    /\ declared_errors api' errors' entries' /\ Forall2 same_entry entries entries'.

Lemma errors_determined api api' errors errors' fs fs' rest rest' :
  errors_fields g api errors fs -> errors_fields g' api' errors' fs' ->
  Forall (fun name => plain_name name = true) errors ->
  Forall (fun name => plain_name name = true) errors' -> closing rest -> closing rest' ->
  (fs ++ rest = fs' ++ rest')%list -> same_errors api api' errors errors' /\ rest = rest'.
Proof.
  intros (es & Hd & Hes) (es' & Hd' & Hes') Hp Hp' Hr%closing_stops Hr'%closing_stops Heq.
  pose proof (declared_plain _ _ _ Hp Hd) as He. pose proof (declared_plain _ _ _ Hp' Hd') as He'.
  destruct (entries_determined _ _ _ _ _ _ Hes Hes' He He' Hr Hr' Heq) as [HF ->].
  split; [|done]. by exists es, es'.
Qed.

(** Two actions that differ at most in types with the same schemas. *)
Definition same_action (api api' : ApiDefinition) (a a' : ActionDefinition) : Prop :=
  match a, a' with
  | Rpc input output errors download pagination,
    Rpc input' output' errors' download' pagination' =>
      same_text input input' /\ same_text output output' /\ download = download'
      /\ pagination = pagination' /\ same_errors api api' errors errors'
  | Operation input output progress update errors signals upload stream,
    Operation input' output' progress' update' errors' signals' upload' stream' =>
      same_text input input' /\ same_text output output' /\ same_payload progress progress'
      /\ same_payload update update'
      /\ Forall2 same_entry (signal_entries signals) (signal_entries signals')
      /\ upload = upload' /\ stream = stream' /\ same_errors api api' errors errors'
  | Event payload parameters, Event payload' parameters' =>
      same_text payload payload' /\ parameters = parameters'
  | Live input event, Live input' event' => same_text input input' /\ same_text event event'
  | _, _ => False
  end.

Lemma map_injective {A B} (f : A -> B) l l' :
  (forall a b, f a = f b -> a = b) -> map f l = map f l' -> l = l'.
Proof.
  intros Hf. revert l'. induction l as [|a l IH]; intros [|b l']; cbn; [done..|].
  intros [= Hab%Hf Hl%IH]. congruence.
Qed.

Lemma event_parameters_inj ps ps' :
  json_text (event_parameters ps) = json_text (event_parameters ps') -> ps = ps'.
Proof.
  intros Heq%json_text_inj. unfold same_document in Heq. apply bool_decide_eq_true in Heq.
  injection Heq as Heq. rewrite !map_map in Heq. revert Heq. apply map_injective.
  intros a b [= Hab]. rewrite !map_map in Hab. revert Hab. apply map_injective. by intros ?? [=].
Qed.

Lemma upload_field_inj u s u' s' :
  (s = true -> u = true) -> (s' = true -> u' = true) ->
  upload_field u s = upload_field u' s' -> u = u' /\ s = s'.
Proof. destruct u, s, u', s'; cbn; intuition congruence. Qed.

(** The fields that follow an update are not the text of a schema. *)
Lemma update_determined update update' fu fu' rest rest' :
  update_fields g update fu -> update_fields g' update' fu' ->
  match rest with a :: _ => payload_like a = true -> a = "" | [] => True end ->
  match rest' with a :: _ => payload_like a = true -> a = "" | [] => True end ->
  (fu ++ rest = fu' ++ rest')%list -> same_payload update update' /\ rest = rest'.
Proof.
  destruct update as [r|], update' as [r'|]; cbn.
  - intros (t & Ht & ->) (t' & Ht' & ->) _ _ [= <- <-]. split; [by exists t|done].
  - intros (t & Ht & ->) -> _ Hr' Heq. cbn in Heq. subst rest'.
    destruct (schema_text_payload_like _ _ _ Ht) as [x ->]. by discriminate (Hr' eq_refl).
  - intros -> (t & Ht & ->) Hr _ Heq. cbn in Heq. subst rest.
    destruct (schema_text_payload_like _ _ _ Ht) as [x ->]. by discriminate (Hr eq_refl).
  - intros -> -> _ _ Heq. done.
Qed.

Lemma upload_stops gg api errors fe rest u s :
  errors_fields gg api errors fe -> Forall (fun name => plain_name name = true) errors ->
  closing rest -> stops (upload_field u s :: fe ++ rest)%list.
Proof.
  intros (es & Hd & Hes) Hp Hr. pose proof (declared_plain _ _ _ Hp Hd) as He.
  pose proof (entries_closing gg es fe rest Hes He Hr) as Hhead.
  unfold stops. by destruct (fe ++ rest)%list.
Qed.

Lemma signals_head gg signals fsig u s rest :
  entries_fields gg (signal_entries signals) fsig ->
  Forall (fun name => plain_name name = true) signals.*1 ->
  match (fsig ++ upload_field u s :: rest)%list with
  | a :: _ => payload_like a = true -> a = ""
  | [] => True
  end.
Proof.
  destruct signals as [|[n r] signals]; cbn.
  - intros -> _. cbn. by destruct u, s.
  - intros (t & r' & _ & _ & ->) [Hn%plain_not_payload _]%Forall_cons. cbn. congruence.
Qed.

Lemma operation_determined api api' errors errors' up up' signals signals' u u' s s'
    fu fu' fsig fsig' fe fe' rest rest' :
  update_fields g up fu -> update_fields g' up' fu' ->
  entries_fields g (signal_entries signals) fsig -> entries_fields g' (signal_entries signals') fsig' ->
  errors_fields g api errors fe -> errors_fields g' api' errors' fe' ->
  Forall (fun name => plain_name name = true) signals.*1 ->
  Forall (fun name => plain_name name = true) signals'.*1 ->
  Forall (fun name => plain_name name = true) errors ->
  Forall (fun name => plain_name name = true) errors' ->
  closing rest -> closing rest' ->
  (fu ++ fsig ++ upload_field u s :: fe ++ rest
   = fu' ++ fsig' ++ upload_field u' s' :: fe' ++ rest')%list ->
  same_payload up up' /\ Forall2 same_entry (signal_entries signals) (signal_entries signals')
  /\ upload_field u s = upload_field u' s' /\ same_errors api api' errors errors' /\ rest = rest'.
Proof.
  intros Hu Hu' Hs Hs' He He' Hps Hps' Hpe Hpe' Hr Hr' Heq.
  apply (update_determined _ _ _ _ _ _ Hu Hu') in Heq as [Hup Heq]; [|by eapply signals_head..].
  apply (entries_determined _ _ _ _ _ _ Hs Hs') in Heq as [Hsig Heq];
    [|by apply signals_plain|by apply signals_plain|by eapply upload_stops..].
  apply cons_parts in Heq as [Hf Heq].
  by destruct (errors_determined _ _ _ _ _ _ _ _ He He' Hpe Hpe' Hr Hr' Heq).
Qed.

(** An action is told apart from what follows it. *)
Lemma action_determined id api api' a a' fs fs' rest rest' :
  action_wf id a -> action_wf id a' -> action_fields g api a fs -> action_fields g' api' a' fs' ->
  closing rest -> closing rest' -> (fs ++ rest = fs' ++ rest')%list ->
  same_action api api' a a' /\ rest = rest'.
Proof.
  unfold action_wf. intros Hwf Hwf' Hfs Hfs' Hr Hr' Heq.
  destruct (action_kind id), a, a'; try done; cbn in Hfs, Hfs'.
  - destruct Hfs as (ti & to & fe & Hi & Ho & He & ->), Hfs' as (ti' & to' & fe' & Hi' & Ho' & He' & ->).
    components Heq. subst ti' to'.
    destruct (errors_determined _ _ _ _ _ _ _ _ He He' Hwf Hwf' Hr Hr' Heq) as [Hsame ->].
    split; [|done]. split_and!; [by exists ti|by exists to|by destruct download, download0| |done].
    by destruct pagination as [[]|], pagination0 as [[]|].
  - destruct Hfs as (ti & to & tp & fu & fsig & fe & Hi & Ho & Hp & Hu & Hs & He & ->),
      Hfs' as (ti' & to' & tp' & fu' & fsig' & fe' & Hi' & Ho' & Hp' & Hu' & Hs' & He' & ->).
    destruct Hwf as (Hpe & Hps & _ & Hst), Hwf' as (Hpe' & Hps' & _ & Hst').
    cbn in Heq. rewrite <- !app_assoc in Heq. cbn in Heq.
    do 3 (let E := fresh "E" in apply cons_parts in Heq as [E Heq]). subst ti' to' tp'.
    destruct (operation_determined _ _ _ _ _ _ _ _ _ _ _ _ _ _ _ _ _ _ _ _ Hu Hu' Hs Hs' He He'
      Hps Hps' Hpe Hpe' Hr Hr' Heq) as (Hup & Hsig & Hflag & Herr & ->).
    apply upload_field_inj in Hflag as [-> ->]; [|done..]. split; [|done].
    split_and!; [by exists ti|by exists to|by eapply payload_text_same|done..].
  - destruct Hfs as (t & Ht & ->), Hfs' as (t' & Ht' & ->). components Heq. subst t'.
    split; [|done]. split; [by exists t|by apply event_parameters_inj].
  - destruct Hfs as (ti & te & Hi & He & ->), Hfs' as (ti' & te' & Hi' & He' & ->).
    components Heq. subst ti' te'. split; [|done]. split; [by exists ti|by exists te].
Qed.

Lemma key_closing s rest : closing (selection_key s :: rest).
Proof.
  unfold selection_key. split.
  - by destruct (selected_direction s), (action_kind (selected_action s)).
  - unfold plain_name.
    assert (contains_char " " (selection_key s) = true) as Hc; [|unfold selection_key in Hc].
    { unfold selection_key. rewrite contains_char_append. cbn. by rewrite orb_true_r. }
    by rewrite Hc.
Qed.

Lemma capability_closing api required ids fs rest :
  capability_fields api required ids fs -> Forall (fun id => plain_name id = true) ids ->
  closing rest -> closing (fs ++ rest)%list.
Proof.
  destruct ids as [|id ids]; cbn; [by intros ->|].
  intros (allowed & r & _ & _ & ->) [Hid _]%Forall_cons _.
  split; [by destruct required|]. intros _. by apply plain_not_payload.
Qed.

Lemma actions_closing gg api actions fs rest :
  actions_fields gg api actions fs -> closing rest -> closing (fs ++ rest)%list.
Proof.
  destruct actions as [|s actions]; cbn [actions_fields]; [by intros ->|].
  intros (a & fa & r & _ & _ & _ & ->) _. apply key_closing.
Qed.

(** The same selection, in two graphs. *)
Lemma actions_determined api api' actions fs fs' rest rest' :
  api_wf api -> api_wf api' ->
  actions_fields g api actions fs -> actions_fields g' api' actions fs' ->
  closing rest -> closing rest' -> (fs ++ rest = fs' ++ rest')%list ->
  Forall (fun s => exists a a', bt_get (selected_action s) (api_actions api) = Some a
    /\ bt_get (selected_action s) (api_actions api') = Some a' /\ same_action api api' a a') actions.
Proof.
  intros Hwf Hwf'. revert fs fs'.
  induction actions as [|s actions IH]; intros fs fs'; cbn [actions_fields]; [constructor|].
  intros (a & fa & r & Ha & Hfa & Hr & ->) (a' & fa' & r' & Ha' & Hfa' & Hr' & ->) Hc Hc' Heq.
  cbn in Heq. rewrite <- !app_assoc in Heq. apply cons_parts in Heq as [_ Heq].
  pose proof (actions_closing _ _ _ _ _ Hr Hc) as Hn.
  pose proof (actions_closing _ _ _ _ _ Hr' Hc') as Hn'.
  destruct (action_determined _ _ _ _ _ _ _ _ _ (Hwf _ _ Ha) (Hwf' _ _ Ha') Hfa Hfa' Hn Hn' Heq)
    as [Hsame Heq'].
  constructor; [by exists a, a'|]. by apply (IH r r').
Qed.

End Determined.

(** ** Equal digests *)

Lemma insert_selected_perm x l : insert_selected x l ≡ₚ x :: l.
Proof.
  induction l as [|y l IH]; cbn; [done|]. case_match; [done|]. rewrite IH. apply Permutation_swap.
Qed.

Lemma sort_selected_perm l : sort_selected l ≡ₚ l.
Proof. induction l as [|x l IH]; cbn; [done|]. by rewrite insert_selected_perm, IH. Qed.

Section Digests.
  Context `{JsonText} `{!JsonTextLaws} `{Sha256} `{Base64Url} `{!Base64UrlLaws}.

(** Equal digests are of equal fields, unless SHA-256 collides. *)
Lemma surface_digest_fields g g' selection selection' digest :
  selected_surface_digest g selection = Ok digest ->
  selected_surface_digest g' selection' = Ok digest ->
  (exists fs, surface_fields g selection fs /\ surface_fields g' selection' fs) \/ sha256_collision.
Proof.
  assert (Hempty : forall gg, table_ok gg []) by done.
  unfold selected_surface_digest, selected_surface_digest_cached.
  intros Hd Hd'. peel Hd as st Hst. peel Hd' as st' Hst'.
  destruct st as [d table], st' as [d' table']. simplify_eq.
  peel Hst as w Hw. peel Hst' as w' Hw'. destruct w as [out t], w' as [out' t']. simplify_eq.
  apply selected_surface_writes in Hw as (fs & Hfs & ->); [|done].
  apply selected_surface_writes in Hw' as (fs' & Hfs' & ->); [|done].
  match goal with Heq : b64_encode _ = b64_encode _ |- _ => rename Heq into He end.
  apply (f_equal b64_decode) in He. rewrite !b64_decode_encode in He. injection He as He.
  destruct (sha256_binds _ _ He) as [Heq%frames_inj|]; [left|by right].
  exists fs. split; [done|]. congruence.
Qed.

(** The digest of one selection is the same in two graphs only when they agree on every
    selected action. *)
Lemma surface_digest_actions g g' selection digest :
  apis_wf g -> apis_wf g' -> selection_wf selection ->
  selected_surface_digest g selection = Ok digest ->
  selected_surface_digest g' selection = Ok digest ->
  (exists api api', graph_api g (selection_api selection) = Some api
    /\ graph_api g' (selection_api selection) = Some api'
    /\ forall s, s ∈ selection_actions selection ->
      exists a a', bt_get (selected_action s) (api_actions api) = Some a
        /\ bt_get (selected_action s) (api_actions api') = Some a'
        /\ same_action g g' api api' a a')
  \/ sha256_collision.
Proof.
  intros Hwf Hwf' [_ Hids] Hd Hd'.
  destruct (surface_digest_fields _ _ _ _ _ Hd Hd') as [(fs & Hfs & Hfs')|]; [left|by right].
  destruct Hfs as (api & fa & fr & fo & Hapi & Hfa & Hfr & Hfo & ->).
  destruct Hfs' as (api' & fa' & fr' & fo' & Hapi' & Hfa' & Hfr' & Hfo' & Heq).
  apply cons_parts in Heq as [_ Heq]. apply Forall_app in Hids as [Hr Ho].
  assert (Hclose : forall api fr fo, capability_fields api true (required_capabilities selection) fr ->
    capability_fields api false (optional_capabilities selection) fo -> closing (fr ++ fo)%list).
  { intros api0 r0 o0 Hr0 Ho0. eapply capability_closing; [exact Hr0|done|].
    rewrite <- (app_nil_r o0). by eapply capability_closing. }
  exists api, api'. split_and!; [done..|]. intros s Hs.
  assert (Hall := actions_determined g g' api api' _ fa fa' _ _ (Hwf _ _ Hapi) (Hwf' _ _ Hapi')
    Hfa Hfa' (Hclose _ _ _ Hfr Hfo) (Hclose _ _ _ Hfr' Hfo') Heq).
  rewrite Forall_forall in Hall. apply Hall. by rewrite sort_selected_perm.
Qed.

End Digests.
