(* ===== verification/Compatibility.v ===== *)
(** * Compatibility of APIs

    The directional comparison of types, actions and APIs ([idl/src/compatibility.rs]).  The
    comparison of types keeps the set of pairs it has visited; its recursion through names is
    bounded by the types of the source graph, which is the fuel it starts with, and [None]
    stands for running out of it.  A missing entry of [api.errors[name]] panics: the
    comparison of actions is [None] then. *)

From Stdlib Require Import Ascii String QArith.
From S2P Require Import Prelude RustStr Extern Json IdlTypes SurfaceDigest.

Local Open Scope string_scope.

Record CompatibilityIssue := { issue_path : string; issue_message : string }.

Record CompatibilityReport := {
  compatible : bool;
  report_issues : list CompatibilityIssue;
}.

(** ** Bounds *)

Definition ordering_is_ge (o : comparison) : bool :=
  match o with Lt => false | _ => true end.
Definition ordering_is_le (o : comparison) : bool :=
  match o with Gt => false | _ => true end.

(** [target.is_none_or(|limit| source.is_some_and(|value| ok(value, limit)))] *)
Definition within {A} (ok : A -> A -> bool) (source target : option A) : bool :=
  match target with
  | None => true
  | Some limit => match source with Some value => ok value limit | None => false end
  end.

(** [value.compare(limit).is_some_and(ok)] *)
Definition compares (ok : comparison -> bool) (value limit : NumericBound) : bool :=
  match bound_compare value limit with Some ordering => ok ordering | None => false end.

(** [bounds_subset] *)
Definition bounds_subset (source target : Bounds) : bool :=
  within (compares ordering_is_ge) (b_min source) (b_min target)
  && within (compares ordering_is_le) (b_max source) (b_max target)
  && within (fun value limit => limit <=? value)%N (min_count source) (min_count target)
  && within (fun value limit => value <=? limit)%N (max_count source) (max_count target).

(** ** Types *)

Definition visited_pairs : Type := list (TypeRef * TypeRef).

(** A mismatch, if there is one, and the pairs visited. *)
Definition outcome : Type := option (option string * visited_pairs).

(** [result.map(|path| format!("{prefix}{path}"))] *)
Definition prefixed (prefix : string) (o : outcome) : outcome :=
  match o with
  | Some (Some path, visited) => Some (Some (prefix +:+ path), visited)
  | _ => o
  end.

Section Comparison.
  Variables source_graph target_graph : PackageGraph.

Section Expressions.
  Variable type_mismatch : TypeRef -> TypeRef -> visited_pairs -> outcome.

(** [expression_mismatch] *)
Fixpoint expression_mismatch (source target : TypeExpression) (visited : visited_pairs)
    {struct target} : outcome :=
  match target with
  | TNamed t =>
      match source with
      | TNamed s => type_mismatch s t visited
      | _ => Some (Some ".kind", visited)
      end
  | TPrimitive b y =>
      match source with
      | TPrimitive a x =>
          if bool_decide (a <> b) || negb (bounds_subset x y)
          then Some (Some ".bounds", visited) else Some (None, visited)
      | _ => Some (Some ".kind", visited)
      end
  | TList b y =>
      match source with
      | TList a x =>
          if negb (bounds_subset x y) then Some (Some ".bounds", visited)
          else prefixed ".item" (expression_mismatch a b visited)
      | _ => Some (Some ".kind", visited)
      end
  | TMap b =>
      match source with
      | TMap a => expression_mismatch a b visited
      | _ => Some (Some ".kind", visited)
      end
  | TNullable b =>
      match source with
      | TNullable a => expression_mismatch a b visited
      | _ => expression_mismatch source b visited
      end
  | TCursorPage b =>
      match source with
      | TCursorPage a => expression_mismatch a b visited
      | _ => Some (Some ".kind", visited)
      end
  | TCursorQuery =>
      match source with
      | TCursorQuery => Some (None, visited)
      | _ => Some (Some ".kind", visited)
      end
  end.

(** The loop of [definition_mismatch] over the fields of the target *)
Fixpoint fields_mismatch (source target : list (string * ModelField)) (visited : visited_pairs) :
  outcome :=
  match target with
  | [] => Some (None, visited)
  | (name, t) :: target =>
      match bt_get name source with
      | Some s =>
          if negb (field_optional t) && field_optional s
          then Some (Some (".field." +:+ name +:+ ".required"), visited)
          else
            match expression_mismatch (field_ty s) (field_ty t) visited with
            | Some (Some path, visited) => Some (Some (".field." +:+ name +:+ path), visited)
            | Some (None, visited) => fields_mismatch source target visited
            | None => None
            end
      | None =>
          if negb (field_optional t)
          then Some (Some (".field." +:+ name +:+ ".missing"), visited)
          else fields_mismatch source target visited
      end
  end.

(** [definition_mismatch] *)
Definition definition_mismatch (source target : TypeDefinition) (visited : visited_pairs) :
  outcome :=
  match source, target with
  | DAlias s, DAlias t => expression_mismatch s t visited
  | DEnum _, DEnum _ => Some (None, visited)
  | DModel s, DModel t => fields_mismatch s t visited
  | _, _ => Some (Some ".kind", visited)
  end.

End Expressions.

(** [type_mismatch] *)
Fixpoint type_mismatch (fuel : nat) (source target : TypeRef) (visited : visited_pairs) : outcome :=
  match fuel with
  | O => None
  | S fuel =>
      if bool_decide (ref_package source <> ref_package target)
         || bool_decide (ref_id source <> ref_id target)
      then Some (Some ".type", visited)
      else if bool_decide ((source, target) ∈ visited) then Some (None, visited)
      else
        let visited := (source, target) :: visited in
        match type_of source_graph source with
        | None => Some (Some ".type", visited)
        | Some s =>
            match type_of target_graph target with
            | None => Some (Some ".type", visited)
            | Some t => definition_mismatch (type_mismatch fuel) s t visited
            end
        end
  end.

(** [type_mismatch] with an empty set of visited pairs *)
Definition find_mismatch (source target : TypeRef) : option string :=
  match type_mismatch (S (List.length (graph_types source_graph))) source target [] with
  | Some (mismatch, _) => mismatch
  | None => Some ""
  end.

(** [type_subset] with an empty set of visited pairs *)
Definition type_subset (source target : TypeRef) : bool :=
  match find_mismatch source target with None => true | Some _ => false end.

(** [optional_subset] *)
Definition optional_subset (source target : option TypeRef) : bool :=
  match source, target with
  | None, None => true
  | Some source, Some target => type_subset source target
  | _, _ => false
  end.

(** [compare_schema]: the issue it pushes *)
Definition compare_schema (source target : TypeRef) (path : string) : list CompatibilityIssue :=
  match find_mismatch source target with
  | Some detail =>
      [{| issue_path := path +:+ detail;
          issue_message := "schema is directionally incompatible" |}]
  | None => []
  end.

End Comparison.

(** ** Actions *)

Definition issue (path message : string) : list CompatibilityIssue :=
  [{| issue_path := path; issue_message := message |}].

(** [if condition { issue(..) }] *)
Definition issue_if (condition : bool) (path message : string) : list CompatibilityIssue :=
  if condition then issue path message else [].

(** An API and the graph that owns its types *)
Record ResolvedApi := { api_graph : PackageGraph; api_definition : ApiDefinition }.

(** [action_errors] *)
Definition action_errors (a : ActionDefinition) : option (list string) :=
  match a with
  | Rpc _ _ errors _ _ | Operation _ _ _ _ errors _ _ _ => Some errors
  | _ => None
  end.

Section Actions.
  Variables old_api new_api : ResolvedApi.

Definition old_graph : PackageGraph := api_graph old_api.
Definition new_graph : PackageGraph := api_graph new_api.

(** One error that both actions declare: [api.errors[name]] of both APIs *)
Definition compare_error (path name : string) : option (list CompatibilityIssue) :=
  old ← bt_get name (api_errors (api_definition old_api));
  new ← bt_get name (api_errors (api_definition new_api));
  Some (issue_if (negb (match old, new with
    | None, None => true
    | Some old, Some new => type_subset new_graph old_graph new old
    | _, _ => false
    end))
    (path +:+ ".error." +:+ name +:+ ".output")
    "known error payload is directionally incompatible").

Fixpoint collect_issues {A} (f : A -> option (list CompatibilityIssue)) (l : list A) :
  option (list CompatibilityIssue) :=
  match l with
  | [] => Some []
  | x :: l => here ← f x; rest ← collect_issues f l; Some (here ++ rest)%list
  end.

(** [compare_errors] *)
Definition compare_errors (old new : ActionDefinition) (path : string) :
  option (list CompatibilityIssue) :=
  match action_errors old, action_errors new with
  | Some old_errors, Some new_errors =>
      collect_issues (compare_error path) (filter (fun name => name ∈ new_errors) old_errors)
  | _, _ => Some []
  end.

(** One signal of the old operation *)
Definition compare_signal (path : string) (signals : list (string * TypeRef))
    (signal : string * TypeRef) : list CompatibilityIssue :=
  issue_if (negb (match bt_get (fst signal) signals with
    | Some new => type_subset old_graph new_graph (snd signal) new
    | None => false
    end))
    (path +:+ ".signal." +:+ fst signal) "signal is unavailable or incompatible".

(** [Option::or] *)
Definition option_or {A} (a b : option A) : option A :=
  match a with Some _ => a | None => b end.

(** [compare_action]: the issues it pushes *)
Definition compare_action (old new : ActionDefinition) (direction : InteractionDirection)
    (path : string) : option (list CompatibilityIssue) :=
  match old, new with
  | Rpc a b _ d p, Rpc x y _ w q =>
      errors ← compare_errors old new path;
      Some (compare_schema old_graph new_graph a x (path +:+ ".input")
        ++ compare_schema new_graph old_graph y b (path +:+ ".output")
        ++ issue_if (negb (Bool.eqb d w) || bool_decide (p <> q)) path
             "RPC transfer or pagination contract changed"
        ++ errors)%list
  | Operation a b c d _ e f g, Operation x y z w _ p q r =>
      errors ← compare_errors old new path;
      Some (compare_schema old_graph new_graph a x (path +:+ ".input")
        ++ compare_schema new_graph old_graph y b (path +:+ ".output")
        ++ issue_if (negb (optional_subset new_graph old_graph z c)) (path +:+ ".progress")
             "schema is directionally incompatible"
        ++ issue_if (negb (optional_subset new_graph old_graph (option_or w z) (option_or d c)))
             (path +:+ ".update") "schema is directionally incompatible"
        ++ List.concat (map (compare_signal path p) e)
        ++ issue_if (negb (Bool.eqb f q) || negb (Bool.eqb g r)) path
             "Operation upload contract changed"
        ++ errors)%list
  | Event a b, Event x y =>
      Some (match direction with
        | Publish => compare_schema old_graph new_graph a x (path +:+ ".payload")
        | Subscribe => compare_schema new_graph old_graph x a (path +:+ ".payload")
        | _ => issue path "invalid event interaction direction"
        end
        ++ issue_if (bool_decide (b <> y)) (path +:+ ".parameters")
             "event routing parameters changed")%list
  | Live a b, Live x y =>
      Some (compare_schema old_graph new_graph a x (path +:+ ".input")
        ++ compare_schema new_graph old_graph y b (path +:+ ".event"))%list
  | _, _ => Some (issue path "action kind changed")
  end.

End Actions.

(** ** Reports *)

(** The derived order of issues: by path, then by message *)
Definition issue_le (a b : CompatibilityIssue) : bool :=
  if String.eqb (issue_path a) (issue_path b) then str_le (issue_message a) (issue_message b)
  else str_le (issue_path a) (issue_path b).

Fixpoint insert_issue (i : CompatibilityIssue) (l : list CompatibilityIssue) :
  list CompatibilityIssue :=
  match l with
  | [] => [i]
  | j :: l => if issue_le i j then i :: j :: l else j :: insert_issue i l
  end.

(** [report] *)
Definition report (issues : list CompatibilityIssue) : CompatibilityReport :=
  let issues := foldr insert_issue [] issues in
  {| compatible := match issues with [] => true | _ => false end; report_issues := issues |}.

(** [kind] *)
Definition kind (k : ActionKind) : string :=
  match k with
  | KRpc => "rpc" | KOperation => "operation" | KEvent => "event" | KLive => "live"
  end.

(** One action of the previous API *)
Definition compare_replaced (previous replacement : ResolvedApi)
    (entry : ActionId * ActionDefinition) : option (list CompatibilityIssue) :=
  let '(id, action) := entry in
  match bt_get id (api_actions (api_definition replacement)) with
  | None =>
      Some (issue ("actions." +:+ kind (action_kind id) +:+ "." +:+ action_name id)
        "action was removed")
  | Some next =>
      let path := "api." +:+ api_name (api_definition previous) +:+ "."
        +:+ kind (action_kind id) +:+ "." +:+ action_name id in
      match action_kind id with
      | KEvent =>
          published ← compare_action previous replacement action next Publish (path +:+ ".publish");
          subscribed ← compare_action previous replacement action next Subscribe
            (path +:+ ".subscribe");
          Some (published ++ subscribed)%list
      | KOperation => compare_action previous replacement action next Invoke path
      | KRpc => compare_action previous replacement action next Call path
      | KLive => compare_action previous replacement action next Subscribe path
      end
  end.

(** [compare_implementation].  [same_digest]: both APIs have a digest, and it is the same. *)
Definition compare_implementation (same_digest : bool) (previous replacement : ResolvedApi) :
  option CompatibilityReport :=
  if same_digest then Some (report [])
  else if bool_decide (api_identity (api_definition previous)
      <> api_identity (api_definition replacement))
  then Some (report (issue "api" "API identity changed"))
  else
    issues ← collect_issues (compare_replaced previous replacement)
      (api_actions (api_definition previous));
    Some (report issues).

(** One selected action *)
Definition compare_chosen (consumer provider : ResolvedApi) (selected : ActionSelection) :
  option (list CompatibilityIssue) :=
  let id := selected_action selected in
  let path := "api." +:+ api_name (api_definition consumer) +:+ "."
    +:+ kind (action_kind id) +:+ "." +:+ action_name id in
  match bt_get id (api_actions (api_definition consumer)),
        bt_get id (api_actions (api_definition provider)) with
  | _, None => Some (issue path "selected provider action is unavailable")
  | Some old, Some new =>
      compare_action consumer provider old new (selected_direction selected) path
  | None, _ => Some (issue path "consumer selection references an unknown action")
  end.

Section Selected.
  Context `{JsonText} `{Sha256} `{Base64Url}.

(** [matches!((digest of consumer, digest of provider), (Ok(c), Ok(p)) if c == p)] *)
Definition same_surface_digest (consumer : PackageGraph) (selection : InteractionSelection)
    (provider : PackageGraph) : option bool :=
  match selected_surface_digest consumer selection, selected_surface_digest provider selection with
  | Err IndexPanic, _ | _, Err IndexPanic => None
  | Ok consumer, Ok provider => Some (String.eqb consumer provider)
  | _, _ => Some false
  end.

(** [compare_selected] *)
Definition compare_selected (consumer : PackageGraph) (selection : InteractionSelection)
    (provider : PackageGraph) : option CompatibilityReport :=
  match graph_api consumer (selection_api selection) with
  | None => Some (report (issue "selected.api" "consumer API is unavailable"))
  | Some consumer_api =>
      match graph_api provider (selection_api selection) with
      | None => Some (report (issue "selected.api" "provider API is unavailable"))
      | Some provider_api =>
          same ← same_surface_digest consumer selection provider;
          if same : bool then Some (report [])
          else
            issues ← collect_issues (compare_chosen
                {| api_graph := consumer; api_definition := consumer_api |}
                {| api_graph := provider; api_definition := provider_api |})
              (selection_actions selection);
            Some (report issues)
      end
  end.

(** ** The cache of comparisons *)

(** A compiled graph, and its digest *)
Record CompiledGraph := { compiled_graph : PackageGraph; root_digest : string }.

Record SelectedCompatibilityCacheKey := {
  consumer_digest : string;
  provider_digest : string;
  key_surface_digest : string;
}.

Global Instance SelectedCompatibilityCacheKey_eq_dec : EqDecision SelectedCompatibilityCacheKey.
Proof. solve_decision. Defined.

Definition SelectedCompatibilityCache : Type :=
  list (SelectedCompatibilityCacheKey * CompatibilityReport).

(** [SelectedCompatibilityCache::compare]; [None] when the comparison panics. *)
Definition compare (entries : SelectedCompatibilityCache) (consumer : CompiledGraph)
    (selection : InteractionSelection) (provider : CompiledGraph) :
  option (result CompatibilityReport digest_error * SelectedCompatibilityCache) :=
  match selected_surface_digest (compiled_graph consumer) selection with
  | Err IndexPanic => None
  | Err e => Some (Err e, entries)
  | Ok digest =>
      let key :=
        {| consumer_digest := root_digest consumer;
           provider_digest := root_digest provider;
           key_surface_digest := digest |} in
      match bt_get key entries with
      | Some found => Some (Ok found, entries)
      | None =>
          fresh ← compare_selected (compiled_graph consumer) selection (compiled_graph provider);
          Some (Ok fresh, (key, fresh) :: entries)
      end
  end.

End Selected.

(** ** Lemmas *)

Lemma issue_if_nil c path message : issue_if c path message = [] <-> c = false.
Proof. by destruct c. Qed.
