(* ===== verification/CompatibilitySafety.v ===== *)
(** * What compatibility promises

    A comparison of types that finds no mismatch has built a simulation: the pairs it has
    visited, each of which is compared in terms of the others.  From it follows that the
    values of the source are values of the target, and from that what a compatible
    replacement of an API serves to the callers of the previous one. *)

From Stdlib Require Import Ascii String QArith.
From S2P Require Import Prelude RustStr Extern Json IdlTypes JsonSchema IdlSchema IdlMeaning.
From S2P Require Import Compatibility.

Local Open Scope string_scope.

(** ** Simulations *)

(** [s] is compared with [t] in terms of a relation between names. *)
Fixpoint expr_rel (R : TypeRef -> TypeRef -> Prop) (s t : TypeExpression) {struct t} : Prop :=
  match t with
  | TNamed t => match s with TNamed s => R s t | _ => False end
  | TPrimitive b y => match s with TPrimitive a x => a = b /\ bounds_subset x y = true | _ => False end
  | TList b y => match s with TList a x => bounds_subset x y = true /\ expr_rel R a b | _ => False end
  | TMap b => match s with TMap a => expr_rel R a b | _ => False end
  | TNullable b => match s with TNullable a => expr_rel R a b | _ => expr_rel R s b end
  | TCursorPage b => match s with TCursorPage a => expr_rel R a b | _ => False end
  | TCursorQuery => match s with TCursorQuery => True | _ => False end
  end.

Definition field_rel (R : TypeRef -> TypeRef -> Prop) (source : list (string * ModelField))
    (field : string * ModelField) : Prop :=
  match bt_get (fst field) source with
  | Some s =>
      (field_optional s = true -> field_optional (snd field) = true)
      /\ expr_rel R (field_ty s) (field_ty (snd field))
  | None => field_optional (snd field) = true
  end.

Definition def_rel (R : TypeRef -> TypeRef -> Prop) (s t : TypeDefinition) : Prop :=
  match s, t with
  | DAlias s, DAlias t => expr_rel R s t
  | DEnum _, DEnum _ => True
  | DModel s, DModel t => Forall (field_rel R s) t
  | _, _ => False
  end.

Lemma expr_rel_mono (R R' : TypeRef -> TypeRef -> Prop) s t :
  (forall a b, R a b -> R' a b) -> expr_rel R s t -> expr_rel R' s t.
Proof.
  intros HR. revert s. induction t; intros s; destruct s; cbn; naive_solver.
Qed.

Lemma def_rel_mono (R R' : TypeRef -> TypeRef -> Prop) s t :
  (forall a b, R a b -> R' a b) -> def_rel R s t -> def_rel R' s t.
Proof.
  intros HR. destruct s, t; cbn; try done; [|by apply expr_rel_mono].
  intros Hf. eapply Forall_impl; [exact Hf|]. intros [name field]. unfold field_rel.
  destruct (bt_get _ _); [|done]. intros [? ?]. split; [done|by eapply expr_rel_mono].
Qed.

(** A relation that the definitions of related types justify. *)
Definition justified (sg tg : PackageGraph) (R : TypeRef -> TypeRef -> Prop) (s t : TypeRef) : Prop :=
  s = t /\ exists ds dt, type_of sg s = Some ds /\ type_of tg t = Some dt /\ def_rel R ds dt.

Definition simulation (sg tg : PackageGraph) (R : TypeRef -> TypeRef -> Prop) : Prop :=
  forall s t, R s t -> justified sg tg R s t.

Definition pairs (visited : visited_pairs) (s t : TypeRef) : Prop := (s, t) ∈ visited.

(** ** The comparison explores a simulation *)

Section Exploration.
  Variables sg tg : PackageGraph.

(** What a part of the comparison without a mismatch does to the visited pairs. *)
Definition explored (visited visited' : visited_pairs) : Prop :=
  visited ⊆ visited'
  /\ forall s t, (s, t) ∈ visited' -> (s, t) ∈ visited \/ justified sg tg (pairs visited') s t.

Lemma justified_mono (visited visited' : visited_pairs) s t :
  visited ⊆ visited' ->
  justified sg tg (pairs visited) s t -> justified sg tg (pairs visited') s t.
Proof.
  intros Hsub [-> (ds & dt & ? & ? & Hrel)]. split; [done|]. exists ds, dt.
  repeat split; [done..|]. eapply def_rel_mono; [|exact Hrel]. intros a b. apply Hsub.
Qed.

Lemma explored_refl visited : explored visited visited.
Proof. split; auto. Qed.

Lemma explored_trans a b c : explored a b -> explored b c -> explored a c.
Proof.
  intros [Hab Hja] [Hbc Hjb]. split; [set_solver|].
  intros s t [Hb|Hj]%Hjb; [|by right]. destruct (Hja s t Hb) as [?|Hj]; [by left|].
  right. by eapply justified_mono.
Qed.

Section Expressions.
  Variable named : TypeRef -> TypeRef -> visited_pairs -> outcome.
  Hypothesis named_ok : forall s t visited visited',
    named s t visited = Some (None, visited') -> explored visited visited' /\ (s, t) ∈ visited'.

Lemma prefixed_none prefix o visited :
  prefixed prefix o = Some (None, visited) -> o = Some (None, visited).
Proof. by destruct o as [[[path|] visited0]|]. Qed.

Lemma expression_explored s t visited visited' :
  expression_mismatch named s t visited = Some (None, visited') ->
  explored visited visited' /\ expr_rel (pairs visited') s t.
Proof.
  revert s. induction t as [b y|t|b IH y|b IH|b IH| |b IH]; intros s H.
  5: destruct s; cbn in H; apply IH in H as [??]; by split.
  all: destruct s as [a x|s|a x|a|a| |a]; cbn in H; try done.
  - case_bool_decide as Hab; cbn in H; [done|]. destruct (bounds_subset x y) eqn:Hb; [|done].
    injection H as <-. split; [apply explored_refl|]. by split.
  - by apply named_ok in H.
  - destruct (bounds_subset x y) eqn:Hb; cbn in H; [|done].
    apply prefixed_none, IH in H as [? ?]. by split_and!.
  - by apply IH in H.
  - injection H as <-. split; [apply explored_refl|done].
  - by apply IH in H.
Qed.

Lemma fields_explored s t visited visited' :
  fields_mismatch named s t visited = Some (None, visited') ->
  explored visited visited' /\ Forall (field_rel (pairs visited') s) t.
Proof.
  revert visited. induction t as [|[name t] ts IH]; intros visited H; cbn in H.
  { injection H as <-. split; [apply explored_refl|constructor]. }
  destruct (bt_get name s) as [f|] eqn:Hf.
  - destruct (negb (field_optional t) && field_optional f) eqn:Hopt; [done|].
    destruct (expression_mismatch named _ _ visited) as [[[path|] visited1]|] eqn:He; [done| |done].
    apply expression_explored in He as [Hex Hrel]. apply IH in H as [Hex' Hrest].
    split; [by eapply explored_trans|]. constructor; [|done]. unfold field_rel. cbn. rewrite Hf.
    split; [by intros Ho; destruct (field_optional t); [|rewrite Ho in Hopt]|].
    eapply expr_rel_mono; [|exact Hrel]. intros a b. apply Hex'.
  - destruct (field_optional t) eqn:Ho; cbn in H; [|done]. apply IH in H as [Hex Hrest].
    split; [done|]. constructor; [|done]. unfold field_rel. cbn. by rewrite Hf.
Qed.

Lemma definition_explored s t visited visited' :
  definition_mismatch named s t visited = Some (None, visited') ->
  explored visited visited' /\ def_rel (pairs visited') s t.
Proof.
  destruct s, t; cbn; try done; [apply fields_explored| |apply expression_explored].
  intros [= <-]. split; [apply explored_refl|done].
Qed.

End Expressions.

Lemma type_explored fuel s t visited visited' :
  type_mismatch sg tg fuel s t visited = Some (None, visited') ->
  explored visited visited' /\ (s, t) ∈ visited'.
Proof.
  revert s t visited visited'. induction fuel as [|fuel IH]; intros s t visited visited' H; [done|].
  cbn in H. destruct (_ || _)%bool eqn:Hrefs; [done|].
  apply orb_false_iff in Hrefs as [Hp%bool_decide_eq_false Hi%bool_decide_eq_false].
  apply dec_stable in Hp, Hi. assert (s = t) as <- by (by destruct s, t; cbn in *; subst).
  case_bool_decide as Hin. { injection H as <-. split; [apply explored_refl|done]. }
  destruct (type_of sg s) as [ds|] eqn:Hs; [|done].
  destruct (type_of tg s) as [dt|] eqn:Ht; [|done].
  apply definition_explored in H as [[Hsub Hj] Hrel]; [|exact IH].
  split; [|apply Hsub; by left]. split; [set_solver|].
  intros a b [[[= -> ->]|?]%elem_of_cons|?]%Hj; [|by left|by right].
  right. split; [done|]. by exists ds, dt.
Qed.

(** No mismatch: the two types are related by a simulation. *)
Lemma find_mismatch_simulation s t :
  find_mismatch sg tg s t = None -> exists R, simulation sg tg R /\ R s t.
Proof.
  unfold find_mismatch.
  destruct (type_mismatch _ _ _ s t []) as [[[path|] visited]|] eqn:H; [done| |done].
  intros _. apply type_explored in H as [[_ Hj] Hin]. exists (pairs visited).
  split; [|done]. intros a b Hab. by destruct (Hj a b Hab) as [?%elem_of_nil|].
Qed.

End Exploration.

(** ** Values *)

Lemma compares_exact p ok a b :
  bound_fits p a = true -> bound_fits p b = true ->
  compares ok a b = ok (bound_value a ?= bound_value b)%Q.
Proof. intros Ha Hb. unfold compares. by rewrite (bound_compare_exact p). Qed.

Lemma number_in_subset p x y q :
  bounds_fit p x = true -> bounds_fit p y = true -> bounds_subset x y = true ->
  number_in x q = true -> number_in y q = true.
Proof.
  unfold bounds_fit, bounds_subset, number_in.
  intros [[Hx1 Hx2]%andb_true_iff _]%andb_true_iff [[Hy1 Hy2]%andb_true_iff _]%andb_true_iff
    [[[Hmin Hmax]%andb_true_iff _]%andb_true_iff _]%andb_true_iff [Hq1 Hq2]%andb_true_iff.
  apply andb_true_iff. split.
  - destruct (b_min y) as [m'|]; [|done]. destruct (b_min x) as [m|]; [|done]. cbn in *.
    rewrite (compares_exact p) in Hmin by done.
    eapply Qle_bool_trans; [|exact Hq1]. apply Qle_bool_iff, Qge_alt.
    by destruct (_ ?= _)%Q.
  - destruct (b_max y) as [m'|]; [|done]. destruct (b_max x) as [m|]; [|done]. cbn in *.
    rewrite (compares_exact p) in Hmax by done.
    eapply Qle_bool_trans; [exact Hq2|]. apply Qle_bool_iff, Qle_alt.
    by destruct (_ ?= _)%Q.
Qed.

Lemma count_in_subset x y n :
  bounds_subset x y = true -> count_in x n = true -> count_in y n = true.
Proof.
  unfold bounds_subset, count_in.
  intros [[_ Hmin]%andb_true_iff Hmax]%andb_true_iff [H1 H2]%andb_true_iff.
  apply andb_true_iff. split.
  - destruct (min_count y), (min_count x); cbn in *; try done. apply N.leb_le in Hmin, H1.
    apply N.leb_le. lia.
  - destruct (max_count y), (max_count x); cbn in *; try done. apply N.leb_le in Hmax, H2.
    apply N.leb_le. lia.
Qed.

Lemma map_get_elem k m v : map_get k m = Some v -> (k, v) ∈ m.
Proof.
  induction m as [|[k' v'] m IH]; cbn; [done|].
  destruct (String.eqb_spec k k') as [->|]; [intros [= ->]; left|]. right. auto.
Qed.

(** The model declares a field of this name. *)
Definition declared_in (g : PackageGraph) (r : TypeRef) (name : string) : bool :=
  match type_of g r with
  | Some (DModel fields) => bool_decide (is_Some (bt_get name fields))
  | _ => false
  end.

Section Transfer.
  Context `{RegexEngine}.
  Variable strict : bool.

Lemma primitive_transfer p x y v :
  bounds_fit p x = true -> bounds_fit p y = true -> bounds_subset x y = true ->
  primitive_ok strict p x v = true -> primitive_ok strict p y v = true.
Proof.
  intros Hx Hy Hsub.
  assert (Hdec : forall s, negb strict || decimal_in p x s = true ->
    negb strict || decimal_in p y s = true).
  { intros s. destruct strict; [|done]. cbn. unfold decimal_in. destruct (decimal_value s); [|done].
    intros [-> ?]%andb_true_iff. by apply (number_in_subset p x y). }
  destruct p; cbn; destruct v; try done.
  - by apply count_in_subset.
  - intros [-> ?]%andb_true_iff. by apply (number_in_subset PInt32 x y).
  - intros [-> ?]%andb_true_iff. by apply (number_in_subset PUint32 x y).
  - intros [-> ?]%andb_true_iff. by apply Hdec.
  - intros [-> ?]%andb_true_iff. by apply Hdec.
  - by apply (number_in_subset PNumber x y).
Qed.

Variables sg tg : PackageGraph.
Hypothesis swf : graph_wf sg.
Hypothesis twf : graph_wf tg.

(** A value of the source in which the members beyond its type have names that the receiver
    does not declare *)
Notation from := (has_type strict (declared_in tg) sg).
Notation to := (has_type strict open_model tg).

Lemma expression_transfer R fuel s t v :
  (forall a b w, R a b -> from fuel (TNamed a) w = true -> to fuel (TNamed b) w = true) ->
  expression_fits s = true -> expression_fits t = true -> expr_rel R s t ->
  from fuel s v = true -> to fuel t v = true.
Proof.
  intros HR. revert s v.
  induction t as [b y|t|b IH y|b IH|b IH| |b IH]; intros s v Hs Ht Hrel Hv.
  - destruct s as [a x| | | | | |]; try done. destruct Hrel as [-> Hsub].
    destruct fuel; cbn in Hv |- *; by apply (primitive_transfer b x y).
  - destruct s as [|s| | | | |]; try done. by eapply HR.
  - destruct s as [| |a x| | | |]; try done. destruct Hrel as [Hsub Hrel].
    cbn in Hs, Ht. apply andb_true_iff in Hs as [_ Hs], Ht as [_ Ht].
    assert (Hstep : forall w, from fuel a w = true -> to fuel b w = true) by eauto.
    destruct fuel, v; cbn in Hv |- *; try done; apply andb_true_iff in Hv as [Hc Hi];
      rewrite (count_in_subset x y) by done; by eapply forallb_impl.
  - destruct s as [| | |a| | |]; try done. cbn in Hs, Ht, Hrel.
    assert (Hstep : forall w, from fuel a w = true -> to fuel b w = true) by eauto.
    destruct fuel, v; cbn in Hv |- *; try done; (eapply forallb_impl; [|exact Hv]); eauto.
  - cbn in Ht, Hrel.
    assert (Hnull : forall w, to fuel b w = true \/ w = JNull -> to fuel (TNullable b) w = true).
    { intros w Hw. destruct fuel; cbn; apply orb_true_iff;
        (destruct Hw as [?| ->]; [by left|right; by apply bool_decide_eq_true]). }
    apply Hnull. destruct s as [| | | |a| |]; try (left; exact (IH _ v Hs Ht Hrel Hv)).
    assert (Hor : from fuel a v = true \/ v = JNull).
    { destruct fuel; cbn in Hv; apply orb_true_iff in Hv as [?|?%bool_decide_eq_true]; auto. }
    destruct Hor as [Ha|]; [left; exact (IH a v Hs Ht Hrel Ha)|by right].
  - destruct s as [| | | | | |]; try done. by destruct fuel.
  - destruct s as [| | | | | |a]; try done. cbn in Hs, Ht, Hrel.
    assert (Hstep : forall w, from fuel a w = true -> to fuel b w = true) by eauto.
    destruct fuel, v as [| | | | |ms]; cbn in Hv |- *; try done;
      destruct (map_get "items" ms) as [[]|]; try done; destruct (map_get "page" ms); try done;
      apply andb_true_iff in Hv as [Hi ->]; rewrite andb_true_r; by eapply forallb_impl.
Qed.

Lemma definition_transfer R fuel r s t v :
  (forall a b w, R a b -> from fuel (TNamed a) w = true -> to fuel (TNamed b) w = true) ->
  type_of tg r = Some t ->
  definition_fits s = true -> definition_fits t = true -> def_rel R s t ->
  definition_ok (declared_in tg) (from fuel) r s v = true ->
  definition_ok open_model (to fuel) r t v = true.
Proof.
  intros HR Htr Hs Ht Hrel Hv. destruct s as [fs| |s], t as [ft| |t]; try done;
    [|exact (expression_transfer R fuel s t v HR Hs Ht Hrel Hv)].
  destruct v as [| | | | |ms]; cbn in Hv |- *; try done. rewrite members_free_open, andb_true_r.
  apply andb_true_iff in Hv as [Hfs Hdecl]. cbn in Hdecl, Hs, Ht, Hrel.
  apply forallb_forall. intros [name f] Hin.
  pose proof (proj1 (forallb_forall _ _) Ht _ Hin) as Hf. cbn in Hf.
  eapply Forall_forall in Hrel; [|by apply list_elem_of_In].
  unfold field_rel in Hrel. cbn [fst snd] in Hrel. unfold field_ok. cbn [fst snd].
  destruct (bt_get name fs) as [f'|] eqn:Hf'.
  - apply bt_get_elem, list_elem_of_In in Hf'.
    pose proof (proj1 (forallb_forall _ _) Hfs _ Hf') as Hok.
    pose proof (proj1 (forallb_forall _ _) Hs _ Hf') as Hfit. cbn in Hfit.
    unfold field_ok in Hok. cbn [fst snd] in Hok. destruct Hrel as [Hopt Hrel].
    destruct (map_get name ms) as [w|]; [exact (expression_transfer R fuel _ _ w HR Hfit Hf Hrel Hok)|by apply Hopt].
  - destruct (map_get name ms) as [w|] eqn:Hw; [|done].
    exfalso. apply map_get_elem, list_elem_of_In in Hw.
    pose proof (proj1 (forallb_forall _ _) Hdecl _ Hw) as Hd. cbn in Hd.
    unfold declared_in in Hd. rewrite Htr, Hf' in Hd.
    rewrite (bt_get_nodup name ft f) in Hd; [done|exact (wf_keys _ twf _ _ Htr)|by apply list_elem_of_In].
Qed.

(** The values of a type are values of every type that simulates it. *)
Lemma simulation_transfer R fuel a b v :
  simulation sg tg R -> R a b ->
  from fuel (TNamed a) v = true -> to fuel (TNamed b) v = true.
Proof.
  intros Hsim. revert a b v. induction fuel as [|fuel IH]; intros a b v Hab Hv; [done|].
  destruct (Hsim a b Hab) as [<- (ds & dt & Hs & Ht & Hrel)].
  cbn in Hv |- *. rewrite Hs in Hv. rewrite Ht.
  exact (definition_transfer R fuel a ds dt v IH Ht (wf_fits _ swf _ _ Hs) (wf_fits _ twf _ _ Ht) Hrel Hv).
Qed.

End Transfer.

(** ** The comparison ends *)

Section Termination.
  Variables sg tg : PackageGraph.

(** The types of the source that have not been visited. *)
Definition unexplored (visited : visited_pairs) : list TypeRef :=
  filter (fun r => (r, r) ∉ visited) (graph_types sg).

Lemma unexplored_shrinks visited visited' :
  visited ⊆ visited' -> List.length (unexplored visited') <= List.length (unexplored visited).
Proof.
  intros Hsub. apply filter_shrinks. set_solver.
Qed.

Lemma unexplored_decreases visited r :
  r ∈ graph_types sg -> (r, r) ∉ visited ->
  List.length (unexplored ((r, r) :: visited)) < List.length (unexplored visited).
Proof.
  intros Hr Hv. apply filter_decreases with (a := r); set_solver.
Qed.

(** A comparison that ends, and only adds to the visited pairs. *)
Definition ends (visited : visited_pairs) (o : outcome) : Prop :=
  exists mismatch visited', o = Some (mismatch, visited') /\ visited ⊆ visited'.

Lemma ends_now mismatch visited : ends visited (Some (mismatch, visited)).
Proof. by exists mismatch, visited. Qed.

Section Expressions.
  Variable named : TypeRef -> TypeRef -> visited_pairs -> outcome.
  Variable base : visited_pairs.
  Hypothesis named_ends : forall s t visited, base ⊆ visited -> ends visited (named s t visited).

Lemma expression_ends s t visited :
  base ⊆ visited -> ends visited (expression_mismatch named s t visited).
Proof.
  intros Hbase. revert s. induction t as [b y|t|b IH y|b IH|b IH| |b IH]; intros s.
  5: destruct s; cbn; apply IH.
  all: destruct s as [a x|s|a x|a|a| |a]; cbn; try apply ends_now; try apply IH.
  - destruct (_ || _)%bool; apply ends_now.
  - by apply named_ends.
  - destruct (negb _); [apply ends_now|]. destruct (IH a) as (m & visited' & -> & Hsub).
    destruct m as [path|]; by eexists _, visited'.
Qed.

Lemma definition_ends s t visited :
  base ⊆ visited -> ends visited (definition_mismatch named s t visited).
Proof.
  intros Hbase. destruct s as [fs| |s], t as [ft| |t]; cbn; try apply ends_now;
    [|by apply expression_ends].
  revert visited Hbase. induction ft as [|[name f] ft IH]; intros visited Hbase; cbn;
    [apply ends_now|].
  destruct (bt_get name fs) as [f'|]; [|destruct (negb _); [apply ends_now|by apply IH]].
  destruct (_ && _)%bool; [apply ends_now|].
  destruct (expression_ends (field_ty f') (field_ty f) visited Hbase) as (m & visited1 & -> & H1).
  destruct m as [path|]; [by eexists _, visited1|].
  destruct (IH visited1) as (m & visited2 & -> & H2); [set_solver|].
  exists m, visited2. split; [done|set_solver].
Qed.

End Expressions.

Lemma type_mismatch_ends fuel s t visited :
  List.length (unexplored visited) < fuel -> ends visited (type_mismatch sg tg fuel s t visited).
Proof.
  revert s t visited. induction fuel as [|fuel IH]; intros s t visited Hfuel; [lia|]. cbn.
  destruct (_ || _)%bool eqn:Hrefs; [apply ends_now|].
  apply orb_false_iff in Hrefs as [Hp%bool_decide_eq_false Hi%bool_decide_eq_false].
  apply dec_stable in Hp, Hi. assert (s = t) as <- by (by destruct s, t; cbn in *; subst).
  case_bool_decide as Hin; [apply ends_now|].
  assert (Hmore : forall o, ends ((s, s) :: visited) o -> ends visited o).
  { intros o (m & visited' & -> & ?). exists m, visited'. split; [done|set_solver]. }
  destruct (type_of sg s) as [ds|] eqn:Hs; [|apply Hmore, ends_now].
  destruct (type_of tg s) as [dt|]; [|apply Hmore, ends_now].
  apply Hmore. apply definition_ends with (base := (s, s) :: visited); [|done].
  intros a b visited' Hsub. apply IH.
  pose proof (unexplored_shrinks _ _ Hsub).
  pose proof (unexplored_decreases visited s (type_of_graph_types _ _ _ Hs) Hin). lia.
Qed.

(** The fuel of a comparison is enough. *)
Lemma comparison_ends s t :
  exists mismatch visited,
    type_mismatch sg tg (S (List.length (graph_types sg))) s t [] = Some (mismatch, visited).
Proof.
  destruct (type_mismatch_ends (S (List.length (graph_types sg))) s t []) as (m & v & H & _).
  - assert (Hle : List.length (unexplored []) <= List.length (graph_types sg)) by apply length_filter.
    lia.
  - by exists m, v.
Qed.

End Termination.

(** ** A comparison with a type that simulates it finds no mismatch *)

Section Completeness.
  Variables sg tg : PackageGraph.
  Variable R : TypeRef -> TypeRef -> Prop.
  Hypothesis sim : simulation sg tg R.

Section Expressions.
  Variable named : TypeRef -> TypeRef -> visited_pairs -> outcome.
  Hypothesis named_none : forall s t visited path visited',
    R s t -> named s t visited <> Some (Some path, visited').

Lemma expression_no_mismatch s t visited path visited' :
  expr_rel R s t -> expression_mismatch named s t visited <> Some (Some path, visited').
Proof.
  revert s path. induction t as [b y|t|b IH y|b IH|b IH| |b IH]; intros s path Hrel.
  5: destruct s; cbn in Hrel |- *; by apply IH.
  all: destruct s as [a x|s|a x|a|a| |a]; cbn in Hrel |- *; try done; try by apply IH.
  - destruct Hrel as [-> Hb]. by rewrite bool_decide_eq_false_2, Hb by (intros Hne; by apply Hne).
  - by apply named_none.
  - destruct Hrel as [Hb Hrel]. rewrite Hb. cbn. intros Hp.
    destruct (expression_mismatch named a b visited) as [[[path'|] v]|] eqn:He; try done.
    injection Hp as _ ->. by apply (IH a path' Hrel) in He.
Qed.

Lemma definition_no_mismatch s t visited path visited' :
  def_rel R s t -> definition_mismatch named s t visited <> Some (Some path, visited').
Proof.
  destruct s as [fs| |s], t as [ft| |t]; cbn; try done; [|apply expression_no_mismatch].
  intros Hrel. revert visited. induction Hrel as [|[name f] ft Hf Hrel IH]; intros visited; [done|].
  cbn. unfold field_rel in Hf. cbn in Hf.
  destruct (bt_get name fs) as [f'|]; [|rewrite Hf; cbn; apply IH].
  destruct Hf as [Hopt He]. destruct (field_optional f'); [rewrite Hopt by done|];
    rewrite ?andb_false_r; cbn [negb andb];
    (destruct (expression_mismatch named _ _ visited) as [[[path'|] v]|] eqn:Hm; [|apply IH|done]);
    by apply expression_no_mismatch in Hm.
Qed.

End Expressions.

Lemma type_no_mismatch fuel s t visited path visited' :
  R s t -> type_mismatch sg tg fuel s t visited <> Some (Some path, visited').
Proof.
  revert s t visited path visited'.
  induction fuel as [|fuel IH]; intros s t visited path visited' Hst; [done|].
  destruct (sim s t Hst) as [<- (ds & dt & Hs & Ht & Hrel)]. cbn.
  rewrite !bool_decide_eq_false_2 by (intros Hne; by apply Hne). cbn [orb].
  case_bool_decide; [done|]. rewrite Hs, Ht. by apply definition_no_mismatch.
Qed.

(** A comparison with a type that simulates the source finds no mismatch. *)
Lemma simulation_subset s t : R s t -> type_subset sg tg s t = true.
Proof.
  intros Hst. unfold type_subset, find_mismatch.
  destruct (comparison_ends sg tg s t) as ([path|] & visited & H); rewrite H; [|done].
  by apply type_no_mismatch in H.
Qed.

End Completeness.

(** ** Every type is compatible with itself *)

Lemma bounds_subset_refl b : bounds_subset b b = true.
Proof.
  assert (Hge : forall m, compares ordering_is_ge m m = true).
  { intros [z|d]; unfold compares; cbn; [by rewrite Z.compare_refl|].
    by rewrite (proj1 (Qeq_alt _ _) (Qeq_refl _)). }
  assert (Hle : forall m, compares ordering_is_le m m = true).
  { intros [z|d]; unfold compares; cbn; [by rewrite Z.compare_refl|].
    by rewrite (proj1 (Qeq_alt _ _) (Qeq_refl _)). }
  unfold bounds_subset. destruct b as [[mn|] [mx|] [lo|] [hi|]]; cbn;
    rewrite ?Hge, ?Hle, ?N.leb_refl; done.
Qed.

Lemma expr_rel_refl (R : TypeRef -> TypeRef -> Prop) e :
  (forall r, r ∈ expression_refs e -> R r r) -> expr_rel R e e.
Proof.
  induction e as [p b|r|m IH b|m IH|m IH| |m IH]; cbn; intros HR; auto using bounds_subset_refl.
  apply HR. by left.
Qed.

Lemma same_type_simulation g :
  graph_wf g -> simulation g g (fun s t => s = t /\ is_Some (type_of g s)).
Proof.
  intros Hwf s t [<- [d Hd]]. split; [done|]. exists d, d. split_and!; [done..|].
  assert (HR : forall r, r ∈ definition_refs d -> r = r /\ is_Some (type_of g r)).
  { intros r Hr. split; [done|]. by eapply wf_closed. }
  destruct d as [fields| |e]; cbn in HR |- *; [|done|by apply expr_rel_refl].
  apply Forall_forall. intros [name field] Hin. unfold field_rel. cbn.
  rewrite (bt_get_nodup name fields field); [|by apply (wf_keys _ Hwf _ _ Hd)|done].
  split; [done|]. apply expr_rel_refl. intros r Hr. apply HR. by eapply (field_refs fields).
Qed.

Lemma type_subset_refl g r : graph_wf g -> is_Some (type_of g r) -> type_subset g g r r = true.
Proof.
  intros Hwf Hr. eapply simulation_subset; [by apply same_type_simulation|done].
Qed.

(** C12: The comparison of types, with its set of visited pairs, ends within a depth of one more
    than the types of the source graph, whatever the two graphs hold; it reports no mismatch
    exactly when there is a simulation between the graphs that relates the two types. *)
Theorem subset_iff_simulation sg tg s t :
  exists mismatch visited,
    type_mismatch sg tg (S (List.length (graph_types sg))) s t [] = Some (mismatch, visited)
    /\ type_subset sg tg s t = bool_decide (mismatch = None)
    /\ (mismatch = None <-> exists R, simulation sg tg R /\ R s t).
Proof.
  destruct (comparison_ends sg tg s t) as (m & visited & Hm). exists m, visited.
  assert (Hsub : type_subset sg tg s t = bool_decide (m = None))
    by (unfold type_subset, find_mismatch; rewrite Hm; by destruct m).
  split_and!; [done..|]. split.
  - intros ->. apply find_mismatch_simulation. unfold find_mismatch. by rewrite Hm.
  - intros (R & Hsim & Hst). pose proof (simulation_subset sg tg R Hsim s t Hst) as Ht.
    rewrite Hsub in Ht. by apply bool_decide_eq_true in Ht.
Qed.
