(* ===== verification/ApiCompatibility.v ===== *)
(** * What a compatible API serves

    A compatible replacement of an API serves the callers of the previous one: it accepts
    what they may send, and what it sends they can decode.  Likewise a provider that is
    compatible with the actions a consumer has selected. *)

From Stdlib Require Import Ascii String QArith.
From S2P Require Import Prelude RustStr Extern Json IdlTypes JsonSchema IdlSchema IdlMeaning.
From S2P Require Import Transcript SurfaceDigest Compatibility CompatibilitySafety.

Local Open Scope string_scope.

Section Serving.
  Context `{RegexEngine}.

(** What is sent as [s] can be received as [t].  Models are open, so a value of [s] may have
    members that its model does not declare; it is a value of [t] unless such a member has the
    name of a field that the receiver's model of the same name declares, for the comparison
    does not look at what the sender puts there.  [strict] takes the documented values for
    the values of a type. *)
Variable strict : bool.

Definition flows (sg : PackageGraph) (s : TypeRef) (tg : PackageGraph) (t : TypeRef) : Prop :=
  forall v, value_of strict (declared_in tg) sg s v -> value_of strict open_model tg t v.

Definition optional_flows (sg : PackageGraph) (s : option TypeRef) (tg : PackageGraph)
    (t : option TypeRef) : Prop :=
  match s, t with
  | None, None => True
  | Some s, Some t => flows sg s tg t
  | _, _ => False
  end.

(** The payloads of the errors that both actions declare *)
Definition errors_flow (old new : ResolvedApi) (old_errors new_errors : list string) : Prop :=
  forall name, name ∈ old_errors -> name ∈ new_errors ->
  exists o n, bt_get name (api_errors (api_definition old)) = Some o
    /\ bt_get name (api_errors (api_definition new)) = Some n
    /\ optional_flows (api_graph new) n (api_graph old) o.

(** [new] serves who uses the action as [old] describes it, in a direction. *)
Definition serves (old_api new_api : ResolvedApi) (old new : ActionDefinition)
    (direction : InteractionDirection) : Prop :=
  let og := api_graph old_api in
  let ng := api_graph new_api in
  match old, new with
  | Rpc input output errors download pagination,
    Rpc input' output' errors' download' pagination' =>
      flows og input ng input' /\ flows ng output' og output
      /\ download = download' /\ pagination = pagination'
      /\ errors_flow old_api new_api errors errors'
  | Operation input output progress update errors signals upload stream,
    Operation input' output' progress' update' errors' signals' upload' stream' =>
      flows og input ng input' /\ flows ng output' og output
      /\ optional_flows ng progress' og progress
      /\ optional_flows ng (option_or update' progress') og (option_or update progress)
      /\ (forall name signal, (name, signal) ∈ signals ->
          exists signal', bt_get name signals' = Some signal' /\ flows og signal ng signal')
      /\ upload = upload' /\ stream = stream'
      /\ errors_flow old_api new_api errors errors'
  | Event payload parameters, Event payload' parameters' =>
      match direction with
      | Publish => flows og payload ng payload'
      | Subscribe => flows ng payload' og payload
      | _ => False
      end
      /\ parameters = parameters'
  | Live input event, Live input' event' =>
      flows og input ng input' /\ flows ng event' og event
  | _, _ => False
  end.

(** ** Issues *)

Lemma report_compatible issues : compatible (report issues) = true -> issues = [].
Proof.
  destruct issues as [|i issues]; [done|]. unfold report. cbn.
  destruct (foldr insert_issue [] issues) as [|j l]; cbn; [done|].
  by destruct (issue_le i j).
Qed.

Lemma collect_issues_none {A} (f : A -> option (list CompatibilityIssue)) l :
  collect_issues f l = Some [] -> forall x, x ∈ l -> f x = Some [].
Proof.
  induction l as [|y l IH]; cbn; [by intros _ x ?%elem_of_nil|].
  destruct (f y) as [here|] eqn:Hy; cbn; [|done].
  destruct (collect_issues f l) as [rest|]; cbn; [|done].
  intros [= [-> ->]%app_eq_nil] x [->|Hx]%elem_of_cons; auto.
Qed.

Section Actions.
  Variables old_api new_api : ResolvedApi.
  Hypothesis old_wf : graph_wf (api_graph old_api).
  Hypothesis new_wf : graph_wf (api_graph new_api).

Lemma subset_flows sg tg s t :
  graph_wf sg -> graph_wf tg -> type_subset sg tg s t = true -> flows sg s tg t.
Proof.
  unfold type_subset. intros Hs Ht Hsub v [fuel Hv].
  destruct (find_mismatch sg tg s t) eqn:Hm; [done|].
  apply find_mismatch_simulation in Hm as (R & Hsim & Hst).
  exists fuel. exact (simulation_transfer strict sg tg Hs Ht R fuel s t v Hsim Hst Hv).
Qed.

Lemma schema_flows sg tg s t path :
  graph_wf sg -> graph_wf tg -> compare_schema sg tg s t path = [] -> flows sg s tg t.
Proof.
  intros Hs Ht Hc. apply subset_flows; [done..|]. unfold compare_schema, type_subset in *.
  by destruct (find_mismatch sg tg s t).
Qed.

Lemma optional_subset_flows sg tg s t path message :
  graph_wf sg -> graph_wf tg ->
  issue_if (negb (optional_subset sg tg s t)) path message = [] -> optional_flows sg s tg t.
Proof.
  intros Hs Ht Hi%issue_if_nil%negb_false_iff. destruct s, t; cbn in *; try done.
  by apply subset_flows.
Qed.

Lemma compare_errors_none old new path old_errors new_errors :
  compare_errors old_api new_api old new path = Some [] ->
  action_errors old = Some old_errors -> action_errors new = Some new_errors ->
  errors_flow old_api new_api old_errors new_errors.
Proof.
  unfold compare_errors. intros Hc Heq Heq' name Ho Hn. rewrite Heq, Heq' in Hc.
  assert (Hname : compare_error old_api new_api path name = Some []).
  { eapply collect_issues_none; [exact Hc|]. by apply list_elem_of_filter. }
  unfold compare_error in Hname.
  destruct (bt_get name (api_errors (api_definition old_api))) as [o|]; cbn in Hname; [|done].
  destruct (bt_get name (api_errors (api_definition new_api))) as [n|]; cbn in Hname; [|done].
  exists o, n. split_and!; [done..|]. injection Hname as Hi%issue_if_nil%negb_false_iff.
  destruct o, n; cbn; try done. by apply subset_flows.
Qed.

(** An action without issues serves. *)
Lemma compare_action_none old new direction path :
  compare_action old_api new_api old new direction path = Some [] ->
  serves old_api new_api old new direction.
Proof.
  destruct old as [a b e d pg|a b c d er e f g|a b|a b],
    new as [x y e' w q|x y z w er' sigs q r|x y|x y]; cbn [compare_action serves]; try done.
  - destruct (compare_errors _ _ _ _ _) as [errors|] eqn:He; [|done]. cbn.
    intros [= (Hi & (Ho & (Hd%issue_if_nil & ->)%app_eq_nil)%app_eq_nil)%app_eq_nil].
    apply orb_false_iff in Hd as [Hd%negb_false_iff%Bool.eqb_prop Hp%bool_decide_eq_false].
    split_and!; [by eapply schema_flows|by eapply schema_flows|done|by apply dec_stable|].
    by apply (compare_errors_none _ _ _ _ _ He).
  - destruct (compare_errors _ _ _ _ _) as [errors|] eqn:He; [|done]. cbn.
    intros [= (Hi & (Ho & (Hz & (Hw & (Hs & (Hf%issue_if_nil & ->)%app_eq_nil)%app_eq_nil)
      %app_eq_nil)%app_eq_nil)%app_eq_nil)%app_eq_nil].
    apply orb_false_iff in Hf as [Hf%negb_false_iff%Bool.eqb_prop Hg%negb_false_iff%Bool.eqb_prop].
    split_and!; [by eapply schema_flows|by eapply schema_flows|by eapply optional_subset_flows
      |by eapply optional_subset_flows| |done|done|].
    + intros name signal Hin%list_elem_of_In%(in_map (compare_signal old_api new_api path sigs)).
      assert (Hnone : compare_signal old_api new_api path sigs (name, signal) = []).
      { destruct (compare_signal _ _ _ _ (name, signal)) as [|i l] eqn:Hc; [done|].
        assert (Hbad : In i (List.concat (map (compare_signal old_api new_api path sigs) e))).
        { apply in_concat. eexists. split; [exact Hin|]. left. done. }
        by rewrite Hs in Hbad. }
      unfold compare_signal in Hnone. apply issue_if_nil, negb_false_iff in Hnone. cbn in Hnone.
      destruct (bt_get name sigs) as [signal'|]; [|done]. exists signal'. split; [done|].
      by apply subset_flows.
    + by apply (compare_errors_none _ _ _ _ _ He).
  - intros [= (Hd & Hp%issue_if_nil%bool_decide_eq_false)%app_eq_nil].
    split; [|by apply dec_stable]. destruct direction; try done; by eapply schema_flows.
  - intros [= (Hi & Ho)%app_eq_nil]. split; by eapply schema_flows.
Qed.

End Actions.
End Serving.

(** C10: A replacement that is compatible, by comparison of its actions, serves every user of the
    previous API: in every action and every direction of use it accepts what they may send and
    sends what they can decode, with the one exception of a value in which a member beyond the
    sender's own model has the name of a field the receiver's model declares. *)
Theorem replacement_serves `{RegexEngine} previous replacement r :
  graph_wf (api_graph previous) -> graph_wf (api_graph replacement) ->
  compare_implementation false previous replacement = Some r -> compatible r = true ->
  api_identity (api_definition previous) = api_identity (api_definition replacement)
  /\ forall strict id action direction,
    (id, action) ∈ api_actions (api_definition previous) -> used_in (action_kind id) direction ->
    exists next, bt_get id (api_actions (api_definition replacement)) = Some next
      /\ serves strict previous replacement action next direction.
Proof.
  intros Hold Hnew. unfold compare_implementation.
  destruct (bool_decide _) eqn:Hid; [intros [= <-]; done|].
  apply bool_decide_eq_false, dec_stable in Hid.
  destruct (collect_issues _ _) as [issues|] eqn:Hc; [|done]. cbn.
  intros [= <-] ->%report_compatible. split; [done|]. intros strict id action direction Hin Hdir.
  pose proof (collect_issues_none _ _ Hc _ Hin) as Hone. unfold compare_replaced in Hone.
  destruct (bt_get id (api_actions (api_definition replacement))) as [next|]; [|done].
  exists next. split; [done|].
  destruct (action_kind id); cbn in Hdir; [subst; by eapply compare_action_none..| |subst; by eapply compare_action_none].
  destruct (compare_action _ _ _ _ Publish _) as [p|] eqn:Hp; cbn in Hone; [|done].
  destruct (compare_action _ _ _ _ Subscribe _) as [s|] eqn:Hs; cbn in Hone; [|done].
  injection Hone as [-> ->]%app_eq_nil. destruct Hdir as [->| ->]; by eapply compare_action_none.
Qed.

(** ** Equal surfaces *)

Lemma json_schema_declared g r document : json_schema g r = Ok document -> is_Some (type_of g r).
Proof.
  unfold json_schema. intros Hd. peel Hd as st Hst. clear Hd. cbn [project_named] in Hst.
  rewrite (bool_decide_false (r ∈ [])) in Hst by apply not_elem_of_nil. cbn in Hst.
  unfold type_of. peel Hst as package Hp. peel Hst as definition Hdef. rewrite Hp. cbn. by rewrite Hdef.
Qed.

Section Surfaces.
  Context `{RegexEngine} `{JsonText} `{!JsonTextLaws}.

Lemma same_text_sym g g' r r' : same_text g g' r r' -> same_text g' g r' r.
Proof. intros (t & ? & ?). by exists t. Qed.

Lemma same_payload_sym g g' p p' : same_payload g g' p p' -> same_payload g' g p' p.
Proof. destruct p, p'; cbn; auto using same_text_sym. Qed.

(** Types whose schemas have the same text accept the same values. *)
Lemma same_text_flows g g' r r' :
  graph_wf g -> graph_wf g' -> same_text g g' r r' -> flows false g r g' r'.
Proof.
  intros Hg Hg' (t & (d & Hd & Ht) & (d' & Hd' & Ht')) v Hv.
  pose proof (json_schema_declared _ _ _ Hd) as Hr.
  pose proof (json_schema_declared _ _ _ Hd') as Hr'.
  apply (documented_shape false false) in Hv; [|done].
  destruct (schema_exact g r Hg Hr) as (s & Hs & Hmeans).
  destruct (schema_exact g' r' Hg' Hr') as (s' & Hs' & Hmeans').
  apply Hmeans', (valid_same s s'), Hmeans; [|done]. apply json_text_inj. congruence.
Qed.

Lemma same_payload_flows g g' p p' :
  graph_wf g -> graph_wf g' -> same_payload g g' p p' -> optional_flows false g p g' p'.
Proof. intros Hg Hg'. destruct p, p'; cbn; auto using same_text_flows. Qed.

Lemma same_errors_get g g' api api' errors errors' name :
  same_errors g g' api api' errors errors' -> name ∈ errors ->
  exists o n, bt_get name (api_errors api) = Some o /\ bt_get name (api_errors api') = Some n
    /\ same_payload g g' o n.
Proof.
  intros (es & es' & Hd & Hd' & HF) Hin. revert errors errors' Hd Hd' Hin.
  induction HF as [|[x o] [x' n] es es' [Hx Hp] _ IH]; intros errors errors' Hd Hd' Hin.
  - apply Forall2_nil_inv_r in Hd as ->. by apply elem_of_nil in Hin.
  - apply Forall2_cons_inv_r in Hd as (y & l & [<- Ho] & Hd & ->).
    apply Forall2_cons_inv_r in Hd' as (y' & l' & [<- Hn] & Hd' & ->). cbn in *. subst x'.
    apply elem_of_cons in Hin as [->|Hin]; [by exists o, n|by eapply IH].
Qed.

Lemma same_signals_get g g' signals signals' name signal :
  Forall2 (same_entry g g') (signal_entries signals) (signal_entries signals') ->
  NoDup signals'.*1 -> (name, signal) ∈ signals ->
  exists signal', bt_get name signals' = Some signal' /\ same_text g g' signal signal'.
Proof.
  intros HF Hnd Hin.
  assert (exists signal', (name, signal') ∈ signals' /\ same_text g g' signal signal') as (s & Hs & ?).
  { clear Hnd. revert signals' HF. induction signals as [|[x s] signals IH]; [by apply elem_of_nil in Hin|].
    intros [|[x' s'] signals'] HF; [by inversion HF|]. cbn in HF.
    apply Forall2_cons in HF as [[Hx Hs] HF]. cbn in Hx, Hs. subst x'.
    apply elem_of_cons in Hin as [[= -> ->]|Hin]; [exists s'; split; [by left|done]|].
    destruct (IH Hin _ HF) as (s'' & ? & ?). exists s''. split; [by right|done]. }
  exists s. split; [|done]. by apply bt_get_nodup.
Qed.

Lemma same_action_serves old new id a a' direction :
  graph_wf (api_graph old) -> graph_wf (api_graph new) ->
  action_wf id a -> action_wf id a' -> used_in (action_kind id) direction ->
  same_action (api_graph old) (api_graph new) (api_definition old) (api_definition new) a a' ->
  serves false old new a a' direction.
Proof.
  intros Hg Hg' Hwf Hwf' Huse Hsame. unfold action_wf in *.
  assert (Herrors : forall errors errors',
    same_errors (api_graph old) (api_graph new) (api_definition old) (api_definition new) errors errors' ->
    errors_flow false old new errors errors').
  { intros errors errors' He name Hin _.
    destruct (same_errors_get _ _ _ _ _ _ _ He Hin) as (o & n & Ho & Hn & Hp).
    exists o, n. split_and!; [done..|]. by apply same_payload_flows, same_payload_sym. }
  destruct (action_kind id), a, a'; try done; cbn in Hsame, Huse |- *.
  - destruct Hsame as (Hi & Ho & -> & -> & He).
    split_and!; auto using same_text_flows, same_text_sym.
  - destruct Hsame as (Hi & Ho & Hp & Hu & Hs & -> & -> & He), Hwf' as (_ & _ & Hnd & _).
    split_and!; auto using same_text_flows, same_text_sym, same_payload_flows, same_payload_sym.
    + apply same_payload_flows; [done..|]. apply same_payload_sym.
      by destruct update, update0.
    + intros name signal Hin.
      destruct (same_signals_get _ _ _ _ _ _ Hs Hnd Hin) as (s' & ? & ?).
      exists s'. auto using same_text_flows.
  - destruct Hsame as (Hp & ->). split; [|done].
    destruct Huse as [-> | ->]; auto using same_text_flows, same_text_sym.
  - destruct Hsame as (Hi & He). split; auto using same_text_flows, same_text_sym.
Qed.

End Surfaces.

(** The provider serves the consumer in every action it has selected. *)
Definition provider_serves_consumer `{RegexEngine} (consumer : PackageGraph)
    (selection : InteractionSelection) (provider : PackageGraph) : Prop :=
  exists capi papi,
    graph_api consumer (selection_api selection) = Some capi
    /\ graph_api provider (selection_api selection) = Some papi
    /\ forall selected, selected ∈ selection_actions selection ->
      exists old new,
        bt_get (selected_action selected) (api_actions capi) = Some old
        /\ bt_get (selected_action selected) (api_actions papi) = Some new
        /\ serves false {| api_graph := consumer; api_definition := capi |}
            {| api_graph := provider; api_definition := papi |}
            old new (selected_direction selected).

Lemma compared_actions_serve `{RegexEngine} consumer selection provider capi papi issues :
  graph_wf consumer -> graph_wf provider ->
  graph_api consumer (selection_api selection) = Some capi ->
  graph_api provider (selection_api selection) = Some papi ->
  collect_issues (compare_chosen {| api_graph := consumer; api_definition := capi |}
    {| api_graph := provider; api_definition := papi |}) (selection_actions selection) = Some issues ->
  compatible (report issues) = true -> provider_serves_consumer consumer selection provider.
Proof.
  intros Hold Hnew Hcapi Hpapi Hc ->%report_compatible. exists capi, papi. split_and!; [done..|].
  intros selected Hin. pose proof (collect_issues_none _ _ Hc _ Hin) as Hone.
  unfold compare_chosen in Hone. cbn [api_definition] in Hone.
  destruct (bt_get _ (api_actions capi)) as [old|], (bt_get _ (api_actions papi)) as [new|];
    try done.
  exists old, new. split_and!; [done..|]. by eapply compare_action_none.
Qed.

(** C14: A provider that compares as compatible with a consumer's selection serves the consumer
    in every action it has selected, also when the comparison is skipped because the digests
    of the selected surface are equal, unless SHA-256 collides.  As for a replacement, a value
    in which a member beyond the sender's model has the name of a field the receiver declares
    is not promised. *)
Theorem provider_serves `{RegexEngine} `{JsonText} `{!JsonTextLaws} `{Sha256} `{Base64Url}
    `{!Base64UrlLaws} consumer selection provider r :
  graph_wf consumer -> graph_wf provider -> apis_wf consumer -> apis_wf provider ->
  selection_wf selection ->
  compare_selected consumer selection provider = Some r -> compatible r = true ->
  provider_serves_consumer consumer selection provider \/ sha256_collision.
Proof.
  intros Hold Hnew Hca Hpa Hsel. unfold compare_selected, same_surface_digest.
  destruct (graph_api consumer _) as [capi|] eqn:Hcapi; [|intros [= <-]; done].
  destruct (graph_api provider _) as [papi|] eqn:Hpapi; [|intros [= <-]; done].
  assert (Hslow : forall (o : option (list CompatibilityIssue)), o = collect_issues (compare_chosen
      {| api_graph := consumer; api_definition := capi |}
      {| api_graph := provider; api_definition := papi |}) (selection_actions selection) ->
    (issues ← o; Some (report issues)) = Some r -> compatible r = true ->
    provider_serves_consumer consumer selection provider).
  { intros [issues|] Ho; [|done]. intros [= <-]. by eapply compared_actions_serve. }
  destruct (selected_surface_digest consumer selection) as [d|e] eqn:Hd.
  2: { destruct e, (selected_surface_digest provider selection) as [|[]]; cbn; try done; intros;
       left; by eapply Hslow. }
  destruct (selected_surface_digest provider selection) as [d'|e] eqn:Hd'.
  2: { destruct e; cbn; try done; intros; left; by eapply Hslow. }
  cbn. destruct (String.eqb_spec d d') as [<-|_]; [|intros; left; by eapply Hslow].
  intros _ _. destruct (surface_digest_actions _ _ _ _ Hca Hpa Hsel Hd Hd')
    as [(api & api' & Hapi & Hapi' & Hall)|]; [left|by right].
  exists api, api'. split_and!; [done..|]. intros s Hs. destruct (Hall s Hs) as (a & a' & Ha & Ha' & Hsame).
  exists a, a'. split_and!; [done..|]. eapply same_action_serves; try done.
  - by eapply Hca.
  - by eapply Hpa.
  - by apply (wf_directions _ Hsel).
Qed.

(** C31: When the comparison of two types finds no mismatch, the target's schema accepts every
    value of the source, members that neither model declares included (excepted are values in
    which a member beyond the source's model has the name of a field the target declares), and
    a documented value of the source is a documented value of the target. *)
Theorem compatible_values_accepted `{RegexEngine} sg tg s t :
  graph_wf sg -> graph_wf tg -> type_subset sg tg s t = true ->
  exists schema, json_schema tg t = Ok schema
    /\ forall v, value_of false (declared_in tg) sg s v ->
      valid schema v /\ (value_of true (declared_in tg) sg s v -> value_of true open_model tg t v).
Proof.
  intros Hs Ht Hsub. pose proof (fun strict => subset_flows strict sg tg s t Hs Ht Hsub) as Hflows.
  assert (Hdecl : is_Some (type_of tg t)).
  { unfold type_subset in Hsub. destruct (find_mismatch sg tg s t) eqn:Hm; [done|].
    apply find_mismatch_simulation in Hm as (R & Hsim & Hst).
    destruct (Hsim s t Hst) as [_ (ds & dt & _ & Hdt & _)]. by exists dt. }
  destruct (schema_exact tg t Ht Hdecl) as (schema & Hsc & Hv).
  exists schema. split; [done|]. intros v Hval. split; [by apply Hv, Hflows|apply Hflows].
Qed.
