(* ===== verification/CompatibilityCache.v ===== *)
(** * The cache of comparisons

    [SelectedCompatibilityCache] of [idl/src/compatibility.rs] keeps the report of a comparison
    under the digests of the two graphs and of the selected surface.  The digest of a surface
    determines the selection it was computed from, so that a report that is found is the one
    a comparison would give. *)

From Stdlib Require Import Ascii String QArith Sorting.Sorted.
From stdpp Require Import sorting.
From S2P Require Import Prelude RustStr Extern Json Transcript IdlTypes JsonSchema IdlSchema.
From S2P Require Import SurfaceDigest Compatibility.

Local Open Scope string_scope.

(** ** A surface is written in one way *)

Section Functional.
  Context `{JsonText}.
  Variable g : PackageGraph.

Lemma schema_text_fun r t t' : schema_text g r t -> schema_text g r t' -> t = t'.
Proof. intros (d & Hd & ->) (d' & Hd' & ->). congruence. Qed.

Lemma payload_text_fun p t t' : payload_text g p t -> payload_text g p t' -> t = t'.
Proof. destruct p; [apply schema_text_fun|cbn; congruence]. Qed.

Lemma entries_fields_fun entries fs fs' :
  entries_fields g entries fs -> entries_fields g entries fs' -> fs = fs'.
Proof.
  revert fs fs'. induction entries as [|[n p] entries IH]; intros fs fs'; cbn; [congruence|].
  intros (t & r & Ht & Hr & ->) (t' & r' & Ht' & Hr' & ->).
  by rewrite (payload_text_fun _ _ _ Ht Ht'), (IH _ _ Hr Hr').
Qed.

Lemma declared_errors_fun api errors es es' :
  declared_errors api errors es -> declared_errors api errors es' -> es = es'.
Proof.
  intros Hd. revert es'. induction Hd as [|name [n p] errors es [Hn Hp] _ IH]; intros es' Hd'.
  - by apply Forall2_nil_inv_l in Hd'.
  - apply Forall2_cons_inv_l in Hd' as ([n' p'] & l & [Hn' Hp'] & Hd' & ->). cbn in *.
    rewrite (IH _ Hd'). congruence.
Qed.

Lemma errors_fields_fun api errors fs fs' :
  errors_fields g api errors fs -> errors_fields g api errors fs' -> fs = fs'.
Proof.
  intros (es & Hd & Hes) (es' & Hd' & Hes'). rewrite (declared_errors_fun _ _ _ _ Hd Hd') in Hes.
  by eapply entries_fields_fun.
Qed.

Lemma update_fields_fun update fs fs' :
  update_fields g update fs -> update_fields g update fs' -> fs = fs'.
Proof.
  destruct update as [r|]; cbn; [|congruence]. intros (t & Ht & ->) (t' & Ht' & ->).
  by rewrite (schema_text_fun _ _ _ Ht Ht').
Qed.

Lemma action_fields_fun api a fs fs' :
  action_fields g api a fs -> action_fields g api a fs' -> fs = fs'.
Proof.
  destruct a; cbn.
  - intros (? & ? & ? & Hi & Ho & He & ->) (? & ? & ? & Hi' & Ho' & He' & ->).
    by rewrite (schema_text_fun _ _ _ Hi Hi'), (schema_text_fun _ _ _ Ho Ho'),
      (errors_fields_fun _ _ _ _ He He').
  - intros (? & ? & ? & ? & ? & ? & Hi & Ho & Hp & Hu & Hs & He & ->)
      (? & ? & ? & ? & ? & ? & Hi' & Ho' & Hp' & Hu' & Hs' & He' & ->).
    by rewrite (schema_text_fun _ _ _ Hi Hi'), (schema_text_fun _ _ _ Ho Ho'),
      (payload_text_fun _ _ _ Hp Hp'), (update_fields_fun _ _ _ Hu Hu'),
      (entries_fields_fun _ _ _ Hs Hs'), (errors_fields_fun _ _ _ _ He He').
  - intros (? & Ht & ->) (? & Ht' & ->). by rewrite (schema_text_fun _ _ _ Ht Ht').
  - intros (? & ? & Hi & He & ->) (? & ? & Hi' & He' & ->).
    by rewrite (schema_text_fun _ _ _ Hi Hi'), (schema_text_fun _ _ _ He He').
Qed.

End Functional.

(** ** A surface determines its selection *)

(** The order of a [BTreeSet] *)
Definition selection_ordered (selection : InteractionSelection) : Prop :=
  StronglySorted selection_lt (selection_actions selection).

Definition used (s : ActionSelection) : Prop :=
  used_in (action_kind (selected_action s)) (selected_direction s).

Lemma selection_key_inj s s' : used s -> used s' -> selection_key s = selection_key s' -> s = s'.
Proof.
  destruct s as [[k n] d], s' as [[k' n'] d']. unfold used, selection_key. cbn.
  destruct k, d; intros Hu; (try done); (try (by destruct Hu)); clear Hu;
    destruct k', d'; intros Hu; (try done); (try (by destruct Hu)); clear Hu;
    cbn; intros [=]; by subst.
Qed.

Lemma selection_lt_antisym a b : selection_lt a b = true -> selection_lt b a = true -> a = b.
Proof.
  unfold selection_lt.
  destruct (N.ltb_spec (kind_rank (action_kind (selected_action a))) (kind_rank (action_kind (selected_action b)))),
    (N.ltb_spec (kind_rank (action_kind (selected_action b))) (kind_rank (action_kind (selected_action a)))),
    (N.eqb_spec (kind_rank (action_kind (selected_action a))) (kind_rank (action_kind (selected_action b)))),
    (N.eqb_spec (kind_rank (action_kind (selected_action b))) (kind_rank (action_kind (selected_action a))));
    try lia; cbn; try done.
  rewrite (String.eqb_sym (action_name (selected_action b))).
  destruct (String.eqb_spec (action_name (selected_action a)) (action_name (selected_action b)))
    as [Heq|Hne]; cbn; rewrite ?andb_false_r, ?andb_true_r, ?orb_false_r; cbn.
  - rewrite !N.ltb_lt. lia.
  - intros Hab Hba. by destruct Hne, (str_le_antisym _ _ Hab Hba).
Qed.

Section Selections.
  Context `{JsonText}.
  Variable g : PackageGraph.
  Variable api : ApiDefinition.

(** What follows the actions is no action. *)
Definition no_key (fs : list string) : Prop :=
  match fs with a :: _ => contains_char " " a = false | [] => True end.

Lemma selection_key_space s : contains_char " " (selection_key s) = true.
Proof. unfold selection_key. rewrite contains_char_append. cbn. by rewrite orb_true_r. Qed.

Lemma actions_selected l l' fs fs' rest rest' :
  Forall used l -> Forall used l' ->
  actions_fields g api l fs -> actions_fields g api l' fs' -> no_key rest -> no_key rest' ->
  (fs ++ rest = fs' ++ rest')%list -> l = l' /\ rest = rest'.
Proof.
  revert l' fs fs'. induction l as [|s l IH]; intros [|s' l'] fs fs' Hu Hu'; cbn [actions_fields].
  - intros -> -> _ _ Heq. done.
  - intros -> (a & fa & r & _ & _ & _ & ->) Hn _ Heq. cbn in Heq. subst rest.
    cbn in Hn. by rewrite selection_key_space in Hn.
  - intros (a & fa & r & _ & _ & _ & ->) -> _ Hn Heq. cbn in Heq. subst rest'.
    cbn in Hn. by rewrite selection_key_space in Hn.
  - intros (a & fa & r & Ha & Hfa & Hr & ->) (a' & fa' & r' & Ha' & Hfa' & Hr' & ->) Hn Hn' Heq.
    apply Forall_cons in Hu as [Hs Hu], Hu' as [Hs' Hu'].
    cbn in Heq. rewrite <- !app_assoc in Heq. apply cons_parts in Heq as [Hk Heq].
    apply selection_key_inj in Hk as <-; [|done..]. rewrite Ha in Ha'. injection Ha' as <-.
    rewrite (action_fields_fun _ _ _ _ _ Hfa Hfa') in Heq. apply app_inv_head in Heq.
    by destruct (IH _ _ _ Hu Hu' Hr Hr' Hn Hn' Heq) as [-> ->].
Qed.

Lemma capabilities_selected required ids ids' fs fs' rest rest' :
  capability_fields api required ids fs -> capability_fields api required ids' fs' ->
  hd_error rest <> Some (capability_tag required) ->
  hd_error rest' <> Some (capability_tag required) ->
  (fs ++ rest = fs' ++ rest')%list -> ids = ids' /\ rest = rest'.
Proof.
  revert ids' fs fs'. induction ids as [|id ids IH]; intros [|id' ids'] fs fs'; cbn [capability_fields].
  - intros -> -> _ _ Heq. done.
  - intros -> (a & r & _ & _ & ->) Hn _ Heq. cbn in Heq. by subst rest.
  - intros (a & r & _ & _ & ->) -> _ Hn Heq. cbn in Heq. by subst rest'.
  - intros (a & r & Ha & Hr & ->) (a' & r' & Ha' & Hr' & ->) Hn Hn' Heq.
    cbn in Heq. rewrite <- !app_assoc in Heq. apply cons_parts in Heq as [_ [<- Heq]%cons_parts].
    rewrite Ha in Ha'. injection Ha' as <-. apply app_inv_head in Heq.
    by destruct (IH _ _ _ Hr Hr' Hn Hn' Heq) as [-> ->].
Qed.

End Selections.

(** In one graph, a surface is that of one selection. *)
Lemma surface_selected `{JsonText} g s s' fs :
  selection_wf s -> selection_wf s' -> selection_ordered s -> selection_ordered s' ->
  surface_fields g s fs -> surface_fields g s' fs -> s = s'.
Proof.
  intros [Hu _] [Hu' _] Ho Ho' (api & fa & fr & fo & Hapi & Hfa & Hfr & Hfo & ->)
    (api' & fa' & fr' & fo' & Hapi' & Hfa' & Hfr' & Hfo' & Heq).
  apply cons_parts in Heq as [Hid Heq]. rewrite <- Hid in *. rewrite Hapi in Hapi'.
  injection Hapi' as <-.
  assert (Hused : forall s, (forall x, x ∈ selection_actions s -> used x) ->
    Forall used (sort_selected (selection_actions s))).
  { intros x Hx. rewrite sort_selected_perm. by apply Forall_forall. }
  assert (Hhead : forall required ids fs, capability_fields api required ids fs ->
    fs = [] \/ hd_error fs = Some (capability_tag required)).
  { intros required [|id ids] l; cbn; [by left|]. intros (? & ? & _ & _ & ->). by right. }
  assert (Hkey : forall ids ids' l l', capability_fields api true ids l ->
    capability_fields api false ids' l' -> no_key (l ++ l')).
  { intros ids ids' l l' [->|Hl]%Hhead [->|Hl']%Hhead; cbn; [done|..].
    - destruct l'; [done|]. by injection Hl' as ->.
    - destruct l; [done|]. by injection Hl as ->.
    - destruct l; [done|]. by injection Hl as ->. }
  apply (actions_selected g api) with (3 := Hfa) (4 := Hfa') in Heq as [Hacts Heq]; auto; [|eauto..].
  apply (capabilities_selected api true _ _ _ _ _ _ Hfr Hfr') in Heq as [Hreq Heq];
    [|destruct (Hhead _ _ _ Hfo) as [-> | ->]; done|destruct (Hhead _ _ _ Hfo') as [-> | ->]; done].
  rewrite <- (app_nil_r fo), <- (app_nil_r fo') in Heq.
  apply (capabilities_selected api false _ _ _ _ _ _ Hfo Hfo') in Heq as [Hopt _]; [|done..].
  assert (Hperm : selection_actions s ≡ₚ selection_actions s')
    by (rewrite <- (sort_selected_perm (selection_actions s)), Hacts; apply sort_selected_perm).
  assert (AntiSymm (=) selection_lt) by (intros ?? ?%Is_true_eq_true ?%Is_true_eq_true; by apply selection_lt_antisym).
  apply (StronglySorted_unique _ _ _ Ho Ho') in Hperm.
  destruct s, s'; cbn in *. congruence.
Qed.

(** ** The cache answers as a comparison does *)

Section Cache.
  Context `{JsonText} `{!JsonTextLaws} `{Sha256} `{Base64Url} `{!Base64UrlLaws}.

(** The graphs that are compared: the digest of a graph determines it. *)
Variable known : CompiledGraph -> Prop.
Hypothesis digest_determines : forall a b,
  known a -> known b -> root_digest a = root_digest b -> compiled_graph a = compiled_graph b.

Record request := {
  request_consumer : CompiledGraph;
  request_selection : InteractionSelection;
  request_provider : CompiledGraph;
}.

Definition request_ok (q : request) : Prop :=
  known (request_consumer q) /\ known (request_provider q)
  /\ selection_wf (request_selection q) /\ selection_ordered (request_selection q).

(** The caches that comparisons leave. *)
Inductive cached : SelectedCompatibilityCache -> Prop :=
| cached_empty : cached []
| cached_compare entries q answer entries' :
    cached entries -> request_ok q ->
    compare entries (request_consumer q) (request_selection q) (request_provider q)
      = Some (answer, entries') ->
    cached entries'.

(** An entry is the report of a request with its key. *)
Definition entry_of (key : SelectedCompatibilityCacheKey) (r : CompatibilityReport) : Prop :=
  exists q, request_ok q
    /\ consumer_digest key = root_digest (request_consumer q)
    /\ provider_digest key = root_digest (request_provider q)
    /\ selected_surface_digest (compiled_graph (request_consumer q)) (request_selection q)
       = Ok (key_surface_digest key)
    /\ compare_selected (compiled_graph (request_consumer q)) (request_selection q)
         (compiled_graph (request_provider q)) = Some r.

Lemma cached_entries entries key r : cached entries -> bt_get key entries = Some r -> entry_of key r.
Proof.
  intros Hc. revert key r. induction Hc as [|entries q answer entries' _ IH Hq Hcmp]; [done|].
  unfold compare in Hcmp. destruct (selected_surface_digest _ _) as [digest|e] eqn:Hd.
  2: { destruct e; by simplify_eq. }
  destruct (bt_get _ entries) as [found|]; [by simplify_eq|].
  destruct (compare_selected _ _ _) as [fresh|] eqn:Hf; cbn in Hcmp; [|done].
  injection Hcmp as <- <-. intros key r. cbn. case_decide as Hkey; [|by apply IH].
  intros [= <-]. exists q. by rewrite Hkey.
Qed.

(** C25: Whatever has been compared before, the cache answers a request with the report of the
    comparison, or with the error of the surface's digest, unless SHA-256 collides. *)
Theorem cache_transparent entries q answer entries' :
  cached entries -> request_ok q ->
  compare entries (request_consumer q) (request_selection q) (request_provider q)
    = Some (answer, entries') ->
  match answer with
  | Ok r => compare_selected (compiled_graph (request_consumer q)) (request_selection q)
      (compiled_graph (request_provider q)) = Some r
  | Err e => selected_surface_digest (compiled_graph (request_consumer q)) (request_selection q)
      = Err e
  end \/ sha256_collision.
Proof.
  intros Hc (Hkc & Hkp & Hwf & Hord) Hcmp. unfold compare in Hcmp.
  destruct (selected_surface_digest _ _) as [digest|e] eqn:Hd.
  2: { left. destruct e; by simplify_eq. }
  destruct (bt_get _ entries) as [found|] eqn:Hfound.
  2: { left. destruct (compare_selected _ _ _); cbn in Hcmp; [|done]. by injection Hcmp as <- <-. }
  injection Hcmp as <- <-. apply cached_entries in Hfound as
    (q' & (Hkc' & Hkp' & Hwf' & Hord') & Hcd & Hpd & Hd' & Hr); [|done]. cbn in *.
  rewrite <- (digest_determines _ _ Hkc Hkc' Hcd) in Hd', Hr.
  rewrite <- (digest_determines _ _ Hkp Hkp' Hpd) in Hr.
  destruct (surface_digest_fields _ _ _ _ _ Hd Hd') as [(fs & Hfs & Hfs')|]; [left|by right].
  by rewrite (surface_selected _ _ _ _ Hwf Hwf' Hord Hord' Hfs Hfs').
Qed.

End Cache.
