(* ===== verification/ActionCodecs.v ===== *)
(** * Codecs of actions

    The schemas of every channel of an action ([idl/src/semantic.rs], [action_codecs]), and
    which values each of them accepts: all documented values of the type the action declares
    for the channel, and beyond these only texts of the right shape in place of 64-bit
    integers, bytes and timestamps. *)

From Stdlib Require Import Ascii String QArith.
From S2P Require Import Prelude RustStr Extern Json IdlTypes JsonSchema IdlSchema IdlMeaning.
From S2P Require Import Compatibility.

Local Open Scope string_scope.



Section Codecs.
  Variable g : PackageGraph.







(** ** What the codecs accept *)



Section Exact.
  Context `{RegexEngine}.





Hypothesis wf : graph_wf g.








End Exact.
End Codecs.
