(* ===== verification/ResourceEvolution.v ===== *)
(** * Evolution of resources

    The comparison of a resource declaration with its replacement and with what the runtime
    has retained ([idl/src/compatibility.rs], [compare_resource_evolution] and
    [compare_resource]), and what it means for data at rest: along any chain of compatible
    replacements, the last declaration still reads every representation that an earlier one
    wrote or read. *)

From Stdlib Require Import Ascii String QArith.
From S2P Require Import Prelude RustStr Extern Json IdlTypes JsonSchema IdlSchema Compatibility.

Local Open Scope string_scope.

(** ** Declarations *)

Record ResourceCompatibilityReport := {
  resource_compatible : bool;
  migration_required : bool;
  resource_issues : list CompatibilityIssue;
}.

(** A resource declaration and the graph that owns its types *)
Record ResolvedResource := {
  resource_graph : PackageGraph;
  resource_definition : ResourceDefinition;
}.

Inductive ResourceKind := StateKind | KvKind | StoreKind | JobKind | ConsumerKind.

Global Instance ResourceKind_eq_dec : EqDecision ResourceKind.
Proof. solve_decision. Defined.

(** [std::mem::discriminant] *)
Definition resource_kind (r : ResourceDefinition) : ResourceKind :=
  match r with
  | RState _ _ _ _ => StateKind
  | RKv _ _ _ _ _ _ _ => KvKind
  | RStore _ _ _ _ => StoreKind
  | RJob _ _ _ _ _ _ _ => JobKind
  | RConsumer _ _ _ _ _ => ConsumerKind
  end.

(** [representation] *)
Definition representation (r : ResourceDefinition) :
  option (TypeRef * list HistoricRepresentation) * N :=
  match r with
  | RState _ schema version accepts | RKv _ schema version accepts _ _ _ =>
      (Some (schema, accepts), version)
  | _ => (None, 0%N)
  end.

(** [json_schema(graph, ty).ok()] *)
Definition schema_of (g : PackageGraph) (ty : TypeRef) : option Json :=
  match json_schema g ty with Ok schema => Some schema | Err _ => None end.

(** [accepts.iter().any(|candidate| candidate.version == version && ...)] *)
Definition accepts_schema (g : PackageGraph) (accepts : list HistoricRepresentation)
    (version : N) (schema : option Json) : bool :=
  existsb (fun candidate => (historic_version candidate =? version)%N
    && same_document (schema_of g (historic_ty candidate)) schema) accepts.

(** The comparison of two representations *)
Definition compare_representations (og ng : PackageGraph) (old new : TypeRef)
    (old_accepts new_accepts : list HistoricRepresentation) (old_version new_version : N) :
  list CompatibilityIssue :=
  let old_schema := schema_of og old in
  let new_schema := schema_of ng new in
  (issue_if ((old_version =? new_version)%N && negb (same_document old_schema new_schema))
     "schema" "schema changed without a representation version change"
   ++ issue_if (new_version <? old_version)%N
     "version" "representation version moved backwards"
   ++ List.concat (map (fun historic =>
        issue_if (negb (accepts_schema ng new_accepts (historic_version historic)
            (schema_of og (historic_ty historic))))
          ("accepts." +:+ decimal (historic_version historic))
          "replacement drops a retained historical representation") old_accepts)
   ++ issue_if (negb (old_version =? new_version)%N
        && negb (accepts_schema ng new_accepts old_version old_schema))
     "accepts" "replacement does not accept the previous representation")%list.

(** [compare_resource_evolution] *)
Definition compare_resource_evolution (previous replacement : ResolvedResource) :
  ResourceCompatibilityReport :=
  let old := resource_definition previous in
  let new := resource_definition replacement in
  if bool_decide (resource_kind old <> resource_kind new)
  then
    {| resource_compatible := false; migration_required := false;
       resource_issues := issue "kind" "resource kind changed" |}
  else
    let optional_issues :=
      issue_if (negb (Bool.eqb (optional_resource old) (optional_resource new)))
        "optional" "resource optionality changed" in
    let '(old_schema, old_version) := representation old in
    let '(new_schema, new_version) := representation new in
    let '(migration, issues) :=
      match old_schema, new_schema with
      | None, None => (false, [])
      | Some (old, old_accepts), Some (new, new_accepts) =>
          (negb (old_version =? new_version)%N,
           compare_representations (resource_graph previous) (resource_graph replacement)
             old new old_accepts new_accepts old_version new_version)
      | _, _ => (false, issue "kind" "resource kind changed")
      end in
    let issues := (optional_issues ++ issues)%list in
    {| resource_compatible := match issues with [] => true | _ => false end;
       migration_required := migration;
       resource_issues := issues |}.

(** ** Retained resources *)

Inductive RetainedResourceActual :=
| ActualUnavailable
| ActualState
| ActualKv (history ttl_ms : N) (max_value_bytes : option N)
| ActualStore (ttl_ms : N) (max_object_bytes max_total_bytes : option N)
| ActualJob
| ActualConsumer.

(** [compare_duration] *)
Definition compare_duration (path : string) (desired actual : N) : list CompatibilityIssue :=
  issue_if (negb (actual =? 0)%N && ((desired =? 0)%N || (actual <? desired)%N))
    path "retained duration is below the declaration".

(** [compare_capacity] *)
Definition compare_capacity (path : string) (desired actual : option N) :
  list CompatibilityIssue :=
  issue_if (match actual with
    | Some actual => match desired with Some desired => (actual <? desired)%N | None => true end
    | None => false
    end) path "retained capacity is below the declaration".

(** [compare_resource] *)
Definition compare_resource (declaration : ResourceDefinition) (actual : RetainedResourceActual) :
  ResourceCompatibilityReport :=
  let issues :=
    match actual with
    | ActualUnavailable =>
        issue_if (negb (optional_resource declaration)) "availability"
          "required resource is unavailable"
    | _ =>
        match declaration, actual with
        | RState _ _ _ _, ActualState | RJob _ _ _ _ _ _ _, ActualJob
        | RConsumer _ _ _ _ _, ActualConsumer => []
        | RKv _ _ _ _ history ttl_ms max_value, ActualKv actual_history actual_ttl actual_max =>
            (issue_if (actual_history <? history)%N "history"
               "retained history is below the declaration"
             ++ compare_duration "ttl" ttl_ms actual_ttl
             ++ compare_capacity "max_value" max_value actual_max)%list
        | RStore _ ttl_ms max_object max_total, ActualStore actual_ttl actual_object actual_total =>
            (compare_duration "ttl" ttl_ms actual_ttl
             ++ compare_capacity "max_object" max_object actual_object
             ++ compare_capacity "max_total" max_total actual_total)%list
        | _, _ => issue "kind" "retained resource kind differs"
        end
    end in
  {| resource_compatible := match issues with [] => true | _ => false end;
     migration_required := false;
     resource_issues := issues |}.

(** ** Data at rest *)

(** A declaration reads data written under a version and a schema: it is the current
    representation, or one that the declaration accepts. *)
Definition reads (r : ResolvedResource) (version : N) (schema : Json) : Prop :=
  exists ty accepts current,
    representation (resource_definition r) = (Some (ty, accepts), current)
    /\ (version = current /\ same_document (schema_of (resource_graph r) ty) (Some schema) = true
        \/ accepts_schema (resource_graph r) accepts version (Some schema) = true).

(** A step of evolution that the comparison lets through. *)
Definition evolves (previous replacement : ResolvedResource) : Prop :=
  resource_compatible (compare_resource_evolution previous replacement) = true.

Lemma accepts_schema_same g accepts version a b :
  accepts_schema g accepts version a = true -> same_document a b = true ->
  accepts_schema g accepts version b = true.
Proof.
  unfold accepts_schema. rewrite !existsb_exists.
  intros (h & Hin & [Hv Hs]%andb_true_iff) Hab. exists h. split; [done|].
  rewrite Hv. by eapply same_document_trans.
Qed.

Lemma concat_map_nil {A B} (f : A -> list B) l :
  List.concat (map f l) = [] -> forall x, In x l -> f x = [].
Proof.
  induction l as [|y l IH]; [done|]. cbn. intros [Hy Hl]%app_eq_nil x [->|Hx]; auto.
Qed.

(** What a compatible comparison of representations says *)
Lemma compare_representations_nil og ng old new oa na ov nv :
  compare_representations og ng old new oa na ov nv = [] ->
  (ov <= nv)%N
  /\ (ov = nv -> same_document (schema_of og old) (schema_of ng new) = true)
  /\ (ov <> nv -> accepts_schema ng na ov (schema_of og old) = true)
  /\ forall h, In h oa ->
    accepts_schema ng na (historic_version h) (schema_of og (historic_ty h)) = true.
Proof.
  unfold compare_representations.
  intros (Hsame%issue_if_nil & (Hback%issue_if_nil & (Hold & Hprev%issue_if_nil)%app_eq_nil)
    %app_eq_nil)%app_eq_nil.
  apply N.ltb_ge in Hback. split_and!; [done| | |].
  - intros ->. rewrite N.eqb_refl in Hsame. by apply negb_false_iff in Hsame.
  - intros Hne%N.eqb_neq. rewrite Hne in Hprev. by apply negb_false_iff in Hprev.
  - intros h Hin. apply (concat_map_nil _ _ Hold), issue_if_nil, negb_false_iff in Hin. done.
Qed.

Lemma evolves_reads previous replacement version schema :
  evolves previous replacement -> reads previous version schema -> reads replacement version schema.
Proof.
  unfold evolves, compare_resource_evolution, reads.
  destruct (bool_decide _); [done|].
  destruct (representation (resource_definition previous)) as [[[old oa]|] ov]; [|naive_solver].
  destruct (representation (resource_definition replacement)) as [[[new na]|] nv]; cbn.
  2: { by destruct (issue_if _ _ _). }
  intros Hc (ty & accepts & current & [= <- <- <-] & Hr). exists new, na, nv. split; [done|].
  destruct (_ ++ _)%list as [|i l] eqn:Hi in Hc; [clear Hc|done].
  apply app_eq_nil in Hi as [_ (_ & Hsame & Hprev & Hold)%compare_representations_nil].
  destruct Hr as [[-> Hs]|Ha].
  - destruct (decide (ov = nv)) as [->|Hne].
    + left. split; [done|]. eapply same_document_trans; [|exact Hs].
      by apply same_document_sym, Hsame.
    + right. eapply accepts_schema_same; [by apply Hprev|done].
  - right. unfold accepts_schema in Ha. apply existsb_exists in Ha as (h & Hin & Hh).
    apply andb_true_iff in Hh as [Hv%N.eqb_eq Hs]. subst version.
    eapply accepts_schema_same; [by apply Hold|done].
Qed.

(** A declaration has a schema for data written under a version. *)
Definition has_schema (r : ResolvedResource) (version : N) (schema : Json) : Prop :=
  exists ty accepts current,
    representation (resource_definition r) = (Some (ty, accepts), current)
    /\ (version = current /\ schema_of (resource_graph r) ty = Some schema
        \/ exists h, h ∈ accepts /\ historic_version h = version
          /\ schema_of (resource_graph r) (historic_ty h) = Some schema).

Lemma reads_has_schema r version schema :
  reads r version schema
  <-> exists schema', has_schema r version schema'
      /\ same_document (Some schema') (Some schema) = true.
Proof.
  assert (Hsome : forall o, same_document o (Some schema) = true -> exists s, o = Some s).
  { intros [s|]; [by exists s|]. unfold same_document. by rewrite bool_decide_eq_true. }
  unfold reads, has_schema, accepts_schema. split.
  - intros (ty & accepts & current & Hr & [[-> Hs]|Ha]).
    + destruct (Hsome _ Hs) as [s Heq]. rewrite Heq in Hs. exists s. split; [|done].
      exists ty, accepts, current. split; [done|]. by left.
    + apply existsb_exists in Ha as (h & Hin & [Hv%N.eqb_eq Hs]%andb_true_iff).
      destruct (Hsome _ Hs) as [s Heq]. rewrite Heq in Hs. exists s. split; [|done].
      exists ty, accepts, current. split; [done|]. right. exists h.
      split; [by apply list_elem_of_In|done].
  - intros (s & (ty & accepts & current & Hr & Hs) & Hsame).
    exists ty, accepts, current. split; [done|].
    destruct Hs as [[-> Hs]|(h & Hin%list_elem_of_In & <- & Hs)]; [left; by rewrite Hs|right].
    apply existsb_exists. exists h. by rewrite N.eqb_refl, Hs.
Qed.

(** C26: Along any chain of compatible replacements, the last declaration has, for every
    version that the first one wrote or read, a schema that accepts the same data. *)
Theorem representations_retained `{RegexEngine} first last version schema :
  rtc evolves first last -> has_schema first version schema ->
  exists schema', has_schema last version schema' /\ forall v, valid schema' v <-> valid schema v.
Proof.
  intros Hchain Hfirst.
  assert (Hreads : reads last version schema).
  { assert (Hr : reads first version schema).
    { apply reads_has_schema. exists schema. split; [done|]. unfold same_document.
      by rewrite bool_decide_true. }
    clear Hfirst. induction Hchain as [|a b c Hab _ IH]; [done|]. apply IH.
    by eapply evolves_reads. }
  apply reads_has_schema in Hreads as (schema' & Hs & Hsame). exists schema'. split; [done|].
  intros v. by apply valid_same.
Qed.

(** ** What is retained is enough *)

(** At least: zero stands for forever, and no limit for an unlimited one. *)
Definition lasts (desired actual : N) : Prop :=
  actual = 0%N \/ desired <> 0%N /\ (desired <= actual)%N.

Definition roomy (desired actual : option N) : Prop :=
  match actual with
  | None => True
  | Some actual => match desired with Some desired => (desired <= actual)%N | None => False end
  end.

(** What a declaration asks of the retained resource. *)
Definition satisfied (declaration : ResourceDefinition) (actual : RetainedResourceActual) : Prop :=
  match actual, declaration with
  | ActualUnavailable, _ => optional_resource declaration = true
  | ActualState, RState _ _ _ _ | ActualJob, RJob _ _ _ _ _ _ _
  | ActualConsumer, RConsumer _ _ _ _ _ => True
  | ActualKv history ttl_ms max_value, RKv _ _ _ _ history' ttl_ms' max_value' =>
      (history' <= history)%N /\ lasts ttl_ms' ttl_ms /\ roomy max_value' max_value
  | ActualStore ttl_ms max_object max_total, RStore _ ttl_ms' max_object' max_total' =>
      lasts ttl_ms' ttl_ms /\ roomy max_object' max_object /\ roomy max_total' max_total
  | _, _ => False
  end.

Lemma compare_duration_nil path desired actual :
  compare_duration path desired actual = [] <-> lasts desired actual.
Proof.
  unfold compare_duration, lasts. rewrite issue_if_nil, andb_false_iff, orb_false_iff,
    negb_false_iff, N.eqb_eq, N.eqb_neq, N.ltb_ge. done.
Qed.

Lemma compare_capacity_nil path desired actual :
  compare_capacity path desired actual = [] <-> roomy desired actual.
Proof.
  unfold compare_capacity, roomy. rewrite issue_if_nil.
  destruct actual, desired; [apply N.ltb_ge|done..].
Qed.

(** The comparison with what is retained says whether it is enough. *)
Theorem retained_suffices declaration actual :
  resource_compatible (compare_resource declaration actual) = true
  <-> satisfied declaration actual.
Proof.
  assert (Hnil : forall l : list CompatibilityIssue,
    match l with [] => true | _ => false end = true <-> l = []) by (by intros []).
  unfold compare_resource. cbn [resource_compatible]. rewrite Hnil.
  destruct actual, declaration; cbn [satisfied optional_resource]; try done;
    rewrite ?app_nil, ?issue_if_nil, ?compare_duration_nil, ?compare_capacity_nil,
      ?negb_false_iff, ?N.ltb_ge; done.
Qed.
