(* ===== verification/IdlExamples.v ===== *)
(** * An API and its replacement

    Two versions of a small package, on which the comparison of APIs, the projection of
    schemas and the passes over types are evaluated, and behaviours of the code at its edges. *)

From Stdlib Require Import Ascii String QArith.
From S2P Require Import Prelude RustStr Extern Json IdlTypes JsonSchema IdlSchema IdlMeaning.
From S2P Require Import Compatibility CompatibilitySafety ApiCompatibility ActionCodecs IdlBounds ResourceEvolution.
From S2P Require Import TypeGraph.

Local Open Scope string_scope.

(** A regular expression engine for the patterns of the schemas: lengths and first characters *)
Global Instance sample_regex : RegexEngine := fun pattern s =>
  if String.eqb pattern ULID_PATTERN then (chars_count s =? 26)%N
  else if String.eqb pattern TIMESTAMP_PATTERN then (20 <=? chars_count s)%N
  else match s with
       | EmptyString => false
       | String "-" rest => String.eqb pattern INT64_PATTERN && all_chars is_ascii_digit rest
       | _ => all_chars is_ascii_digit s
       end.

(** ** Deciding well-formedness *)

Definition type_checks (g : PackageGraph) (r : TypeRef) : bool :=
  match type_of g r with
  | Some d =>
      plain_ref r && definition_fits d
      && forallb (fun r' => bool_decide (is_Some (type_of g r'))) (definition_refs d)
      && (match d with DModel fields => bool_decide (NoDup fields.*1) | _ => true end)
  | None => true
  end.

Lemma graph_checks g : forallb (type_checks g) (graph_types g) = true -> graph_wf g.
Proof.
  intros Hall.
  assert (Hd : forall r d, type_of g r = Some d ->
    plain_ref r = true /\ definition_fits d = true
    /\ (forall r', r' ∈ definition_refs d -> is_Some (type_of g r')) /\ definition_keys d).
  { intros r d Hd. pose proof (type_of_graph_types _ _ _ Hd) as Hin%list_elem_of_In.
    eapply forallb_forall in Hall; [|exact Hin]. unfold type_checks in Hall. rewrite Hd in Hall.
    apply andb_true_iff in Hall as [[[Hp Hf]%andb_true_iff Hr]%andb_true_iff Hk].
    split_and!; [done..| |by destruct d; [apply bool_decide_eq_true in Hk|..]].
    intros r' Hr'. eapply forallb_forall in Hr; [|by apply list_elem_of_In].
    by apply bool_decide_eq_true in Hr. }
  split; intros; by eapply Hd.
Qed.

(** ** The package *)

Definition shop (id : string) : TypeRef := {| ref_package := "shop"; ref_id := id |}.
Definition plain (p : Primitive) : TypeExpression := TPrimitive p no_bounds.
Definition field (ty : TypeExpression) (optional : bool) : ModelField :=
  {| field_ty := ty; field_optional := optional; field_recursive := false |}.
Definition amount (max : Z) : TypeDefinition :=
  DAlias (TPrimitive PNumber {| b_min := Some (Number (i128_as_f64 0));
    b_max := Some (Number (i128_as_f64 max)); min_count := None; max_count := None |}).

Definition order_fields : list (string * ModelField) :=
  [("amount", field (TNamed (shop "Amount")) false);
   ("children", field (TList (TNamed (shop "Order")) no_bounds) true);
   ("note", field (TNullable (plain PString)) true);
   ("parent", field (TNamed (shop "Order")) true)].

Definition place : ActionId := {| action_kind := KRpc; action_name := "Place" |}.
Definition changed : ActionId := {| action_kind := KEvent; action_name := "Changed" |}.
Definition ship : ActionId := {| action_kind := KOperation; action_name := "Ship" |}.

Definition orders_api : ApiDefinition :=
  {| api_identity := "shop.orders@v1"; api_name := "orders";
     api_errors := [("Busy", None); ("Refused", Some (shop "Notice"))];
     api_actions :=
       [(place, Rpc (shop "Order") (shop "Receipt") ["Busy"; "Refused"] false None);
        (ship, Operation (shop "Order") (shop "Receipt") (Some (shop "Notice")) None ["Busy"]
           [("stop", shop "Notice")] false false);
        (changed, Event (shop "Notice") [["text"]])];
     api_capabilities := [("shop.orders.v1:orders.place",
       {| capability_allows := [{| selected_action := place; selected_direction := Call |}] |})];
     api_groups := [] |}.

Definition notice : TypeDefinition := DModel [("text", field (plain PString) false)].

Definition old_types : list (string * TypeDefinition) :=
  [("Amount", amount 100); ("Notice", notice); ("Order", DModel order_fields);
   ("Receipt", DModel [("id", field (plain PUlid) false)])].

(** The replacement takes larger amounts and a tag, and its receipts carry a time. *)
Definition new_types : list (string * TypeDefinition) :=
  [("Amount", amount 200); ("Notice", notice);
   ("Order", DModel (order_fields ++ [("tag", field (plain PString) true)])%list);
   ("Receipt", DModel [("at", field (plain PTimestamp) false); ("id", field (plain PUlid) false)])].

Definition old_shop : PackageGraph :=
  [("shop", {| package_types := old_types; package_apis := [("shop.orders@v1", orders_api)] |})].
Definition new_shop : PackageGraph :=
  [("shop", {| package_types := new_types; package_apis := [("shop.orders@v1", orders_api)] |})].

Lemma old_shop_wf : graph_wf old_shop.
Proof. apply graph_checks. vm_compute. reflexivity. Qed.

Lemma new_shop_wf : graph_wf new_shop.
Proof. apply graph_checks. vm_compute. reflexivity. Qed.

Definition old_orders : ResolvedApi := {| api_graph := old_shop; api_definition := orders_api |}.
Definition new_orders : ResolvedApi := {| api_graph := new_shop; api_definition := orders_api |}.

Definition small_order : Json :=
  object [("amount", JNumber (PosInt 7));
          ("children", JArray [object [("amount", JNumber (PosInt 0))]]);
          ("gift", JBool true);
          ("note", JNull)].

(** ** Witnesses *)

Lemma compatible_values_accepted_witness :
  type_subset old_shop new_shop (shop "Order") (shop "Order") = true
  /\ exists schema, json_schema new_shop (shop "Order") = Ok schema /\ valid schema small_order.
Proof.
  split; [vm_compute; reflexivity|].
  destruct (compatible_values_accepted old_shop new_shop (shop "Order") (shop "Order")
    old_shop_wf new_shop_wf) as (schema & Hs & Hv); [vm_compute; reflexivity|].
  exists schema. split; [done|]. apply Hv. exists 10. vm_compute. reflexivity.
Defined.

Lemma replacement_serves_witness :
  exists next, bt_get place (api_actions orders_api) = Some next
    /\ serves true old_orders new_orders
         (Rpc (shop "Order") (shop "Receipt") ["Busy"; "Refused"] false None) next Call.
Proof.
  destruct (replacement_serves old_orders new_orders (report [])) as [_ Hall];
    [exact old_shop_wf|exact new_shop_wf|vm_compute; reflexivity|reflexivity|].
  apply (Hall true place); [by left|done].
Defined.

Definition select (id : ActionId) (direction : InteractionDirection) : ActionSelection :=
  {| selected_action := id; selected_direction := direction |}.


Lemma resolved_types_fit_witness :
  exists e, resolve_type (fun name => Ok (shop name))
      (XList (XPrimitive "int32" [("min", "-5"); ("max", "+10")]) [("max_items", "3")]) = Ok e
    /\ expression_fits e = true.
Proof.
  eexists. split; [vm_compute; reflexivity|].
  eapply (proj1 (resolved_types_fit (fun name => Ok (shop name))
    (XList (XPrimitive "int32" [("min", "-5"); ("max", "+10")]) [("max_items", "3")]) _ _)).
  Unshelve. vm_compute. reflexivity.
Defined.

(** ** Resources *)

Definition profile_types : PackageGraph :=
  [("shop", {| package_types :=
      [("ProfileV1", DModel [("name", field (plain PString) false)]);
       ("ProfileV2", DModel [("email", field (plain PString) true); ("name", field (plain PString) false)]);
       ("ProfileV3", DModel [("email", field (plain PString) false); ("name", field (plain PString) false)])];
      package_apis := [] |})].

Definition profile (version : N) (ty : string) (accepts : list (N * string)) : ResolvedResource :=
  {| resource_graph := profile_types;
     resource_definition := RKv false (shop ty) version
       (map (fun '(v, t) => {| historic_version := v; historic_ty := shop t |}) accepts)
       8 0 None |}.

Definition first_schema : Json := default JNull (schema_of profile_types (shop "ProfileV1")).

Lemma representations_retained_witness :
  exists schema, has_schema (profile 3 "ProfileV3" [(1%N, "ProfileV1"); (2%N, "ProfileV2")]) 1 schema
    /\ forall v, valid schema v <-> valid first_schema v.
Proof.
  apply (representations_retained (profile 1 "ProfileV1" [])).
  - apply rtc_l with (profile 2 "ProfileV2" [(1%N, "ProfileV1")]); [vm_compute; reflexivity|].
    apply rtc_once. vm_compute. reflexivity.
  - exists (shop "ProfileV1"), [], 1%N. split; [reflexivity|]. left.
    split; [reflexivity|]. vm_compute. reflexivity.
Defined.

(** A replacement that forgets a version is refused. *)
Example forgotten_version :
  resource_issues (compare_resource_evolution (profile 2 "ProfileV2" [(1%N, "ProfileV1")])
    (profile 3 "ProfileV3" [(2%N, "ProfileV2")]))
  = [{| issue_path := "accepts.1";
        issue_message := "replacement drops a retained historical representation" |}].
Proof. vm_compute. reflexivity. Qed.

(** ** Cycles *)

Lemma alias_check_exact_witness :
  validate_type_graph "shop"
    [("A", DAlias (TNamed (shop "B"))); ("B", DAlias (plain PString))] = Ok tt
  /\ alias_ends "shop" [("A", DAlias (TNamed (shop "B"))); ("B", DAlias (plain PString))] "A".
Proof.
  assert (Hc : aliases_closed "shop" [("A", DAlias (TNamed (shop "B"))); ("B", DAlias (plain PString))]).
  { intros id next (d & Hd & Ht). apply bt_get_elem in Hd.
    repeat (apply elem_of_cons in Hd as [Hd|Hd]); [..|by apply elem_of_nil in Hd];
      injection Hd as -> ->; [injection Ht as <-; by eexists|discriminate Ht]. }
  split; [reflexivity|].
  exact (alias_check_exact "shop" _ Hc "A" ltac:(by left)).
Defined.

(** A cycle of names is found. *)
Example alias_cycle_found :
  validate_type_graph "shop"
    [("A", DAlias (TNamed (shop "B"))); ("B", DAlias (TNamed (shop "A")))]
  = Err (AliasCycle "A").
Proof. reflexivity. Qed.

(** A nullable alias of itself is not: it passes the check, and its schema refers to itself
    at the same value. *)
Example nullable_cycle_admitted :
  let types := [("A", DAlias (TNullable (TNamed (shop "A"))))] in
  validate_type_graph "shop" types = Ok tt
  /\ json_schema [("shop", {| package_types := types; package_apis := [] |})] (shop "A")
     = Ok (JObject
         [("$defs", JObject [("shop.A", nullable_schema (ref_schema (shop "A")))]);
          ("$ref", JString "#/$defs/shop.A");
          ("$schema", JString "https://json-schema.org/draft/2020-12/schema")]).
Proof. split; vm_compute; reflexivity. Qed.

Ltac by_computation :=
  match goal with |- ?P => refine (bool_decide_eq_true_1 P _); vm_compute; reflexivity end.

Lemma old_types_resolved : package_resolved "shop" old_types.
Proof.
  assert (Hcase : forall id d, (id, d) ∈ old_types ->
    match d with
    | DModel fields => NoDup fields.*1 /\ Forall (fun f => field_recursive (snd f) = false) fields
    | _ => True
    end /\ Forall (fun r => is_Some (bt_get (ref_id r) old_types)) (definition_refs d)).
  { intros id d Hd. repeat (apply elem_of_cons in Hd as [Hd|Hd]); [..|by apply elem_of_nil in Hd];
      injection Hd as -> ->; cbn; split_and!; repeat constructor; try by eexists.
    all: by_computation. }
  split.
  - by_computation.
  - intros id fields Hin. apply (Hcase id _ Hin).
  - intros id d r Hd%bt_get_elem Hr _. destruct (Hcase id d Hd) as [_ Hall].
    by eapply Forall_forall in Hall.
  - intros id fields name f Hin Hf. destruct (Hcase id _ Hin) as [[_ Hall] _].
    by eapply Forall_forall in Hall; [|exact Hf].
Qed.

Lemma recursion_broken_witness :
  exists types', mark_recursive_model_fields "shop" old_types = Some types'
    /\ forall n f t, holds_directly "shop" old_types types' "Order" n f t ->
      field_recursive f = true <-> rtc (contains "shop" old_types) t "Order".
Proof.
  destruct (recursion_broken "shop" old_types old_types_resolved) as (types' & Hm & Hx & _).
  exists types'. split; [done|]. intros n f t. apply Hx.
Defined.

(** The parent of an order is marked; its list of children is not held directly. *)
Example order_marked :
  (fun types => match bt_get "Order" types with
    | Some (DModel fields) => map (fun f => (fst f, field_recursive (snd f))) fields
    | _ => []
    end) <$> mark_recursive_model_fields "shop" old_types
  = Some [("amount", false); ("children", false); ("note", false); ("parent", true)].
Proof. vm_compute. reflexivity. Qed.

(** ** Edges *)

(** Models are open: an old order may carry a member named [tag] that is no string.  The
    comparison lets the new type through, and its schema rejects that order. *)
Definition tagged_order : Json :=
  object [("amount", JNumber (PosInt 7)); ("tag", JNumber (PosInt 1))].

Example undeclared_member_breaks :
  type_subset old_shop new_shop (shop "Order") (shop "Order") = true
  /\ value_of false open_model old_shop (shop "Order") tagged_order
  /\ ~ value_of false open_model new_shop (shop "Order") tagged_order.
Proof.
  split; [vm_compute; reflexivity|]. split; [exists 10; vm_compute; reflexivity|].
  intros [[|[|[|fuel]]] Hv]; by vm_compute in Hv.
Qed.

(** Compatibility does not compose: a field dropped by one replacement may come back with
    another type in the next. *)
Example compatibility_not_transitive :
  let package := fun fields =>
    [("shop", {| package_types := [("M", DModel fields)]; package_apis := [] |})] in
  let first := package [("x", field (plain PString) true)] in
  let second := package [] in
  let third := package [("x", field (plain PBool) true)] in
  type_subset first second (shop "M") (shop "M") = true
  /\ type_subset second third (shop "M") (shop "M") = true
  /\ type_subset first third (shop "M") (shop "M") = false.
Proof. vm_compute. repeat split. Qed.

(** What JSON Schema does not check: a 64-bit integer beyond its bound, a text that is no
    base64 and a thirteenth month are valid for the schema, and no documented values. *)
Definition unchecked_shop : PackageGraph :=
  [("shop", {| package_types := [
      ("At", DAlias (plain PTimestamp));
      ("Raw", DAlias (plain PBytes));
      ("Small", DAlias (TPrimitive PInt64
        {| b_min := None; b_max := Some (Integer 10); min_count := None; max_count := None |}))];
    package_apis := [] |})].

Example annotations_unchecked :
  Forall (fun '(name, text) =>
    is_ok (json_schema unchecked_shop (shop name)) = true
    /\ value_of false open_model unchecked_shop (shop name) (JString text)
    /\ ~ value_of true open_model unchecked_shop (shop name) (JString text))
    [("Small", "11"); ("Raw", "a*=="); ("At", "2026-13-01T00:00:00Z")].
Proof.
  repeat apply Forall_cons_2; [..|apply Forall_nil_2];
    (split; [vm_compute; reflexivity|]; split; [exists 5; vm_compute; reflexivity|]);
    intros [[|[|fuel]] Hv]; by vm_compute in Hv.
Qed.

Example documented_texts :
  Forall (fun '(name, text) => value_of true open_model unchecked_shop (shop name) (JString text))
    [("Small", "-9223372036854775808"); ("Raw", "aGk="); ("At", "2024-02-29T23:59:59.5Z")].
Proof.
  repeat apply Forall_cons_2; [..|apply Forall_nil_2]; exists 5; vm_compute; reflexivity.
Qed.
