(* ===== verification/SurfaceExamples.v ===== *)
(** * Selected surfaces of an API

    The digests and comparisons of the selected surfaces of a small package. *)

From Stdlib Require Import Ascii String QArith Sorting.Sorted.
From S2P Require Import Prelude RustStr Extern Json Transcript Base64 IdlTypes JsonSchema IdlSchema IdlMeaning.
From S2P Require Import SurfaceDigest Compatibility CompatibilitySafety ApiCompatibility CompatibilityCache.
From S2P Require Import IdlExamples.

Local Open Scope string_scope.

(** ** A text for documents

    Each part is framed by its length, so that the text can be taken apart. *)

Definition z_text (z : Z) : list string :=
  [if (z <? 0)%Z then "-" else "+"; decimal (Z.abs_N z)].

Definition number_text (n : JsonNumber) : string :=
  match n with
  | PosInt n => String "p" (decimal n)
  | NegInt z => String "n" (frames (z_text z))
  | Float negative m e => String "f" (frames ((if negative then "-" else "+") :: decimal m :: z_text e))
  end.

Fixpoint framed_text (v : Json) : string :=
  match v with
  | JNull => "null"
  | JBool true => "true"
  | JBool false => "false"
  | JNumber n => String "#" (number_text n)
  | JString s => String "'" s
  | JArray items => String "[" (frames (map framed_text items))
  | JObject members =>
      String "{" (frames (List.concat (map (fun '(k, w) => [k; framed_text w]) members)))
  end.

Lemma string_tail c a b : String c a = String c b -> a = b.
Proof. intros Heq. by injection Heq. Qed.

Lemma z_text_inj z z' : z_text z = z_text z' -> z = z'.
Proof.
  unfold z_text. destruct (Z.ltb_spec z 0), (Z.ltb_spec z' 0); intros [= Heq%decimal_inj]; lia.
Qed.

Lemma number_text_inj n n' : number_text n = number_text n' -> n = n'.
Proof.
  destruct n as [n|z|b m e], n' as [n'|z'|b' m' e']; cbn [number_text]; try done; intros Heq%string_tail.
  - by apply decimal_inj in Heq as ->.
  - apply frames_inj in Heq. by apply z_text_inj in Heq as ->.
  - apply frames_inj in Heq. apply cons_parts in Heq as [Hb [->%decimal_inj ->%z_text_inj]%cons_parts].
    by destruct b, b'.
Qed.

Lemma framed_text_inj v w : framed_text v = framed_text w -> v = w.
Proof.
  revert v w. apply (json_nested_ind (fun v => forall w, framed_text v = framed_text w -> v = w)).
  - intros [|[]|n|s| |]; try done;
      intros [|[]|n'|s'|l'|m']; cbn [framed_text]; try done; intros Heq%string_tail;
      [by apply number_text_inj in Heq as ->|by subst].
  - intros l IH [|[]| | |l'|]; cbn [framed_text]; try done. intros Heq%string_tail. apply frames_inj in Heq. f_equal. revert l' Heq.
    induction IH as [|v l Hv _ IH]; intros [|w l'] Heq; try done.
    injection Heq as ->%Hv Heq. f_equal. by apply IH.
  - intros m IH [|[]| | | |m']; cbn [framed_text]; try done. intros Heq%string_tail.
    apply frames_inj in Heq. f_equal. revert m' Heq.
    induction IH as [|[k v] m Hv _ IH]; intros [|[k' w] m'] Heq; try done.
    injection Heq as -> Hw%Hv Heq. cbn in Hw. subst w. f_equal. by apply IH.
Qed.

#[local] Instance framed_json : JsonText := framed_text.

#[local] Instance framed_json_laws : JsonTextLaws.
Proof.
  split.
  - intros a b ->%framed_text_inj. unfold same_document. by rewrite bool_decide_true.
  - intros members. by eexists.
Qed.

(** A hash that keeps everything: it has no collision. *)
#[local] Instance whole_text : Sha256 := fun s => s.

Lemma whole_text_collision : ~ sha256_collision.
Proof. by intros (x & y & ? & ?). Qed.

#[local] Existing Instances rfc4648 rfc4648_laws.

(** ** Selections *)

Definition orders_selection : InteractionSelection :=
  {| selection_api := "shop.orders@v1";
     selection_actions := [select place Call; select ship Invoke; select changed Subscribe];
     required_capabilities := ["shop.orders.v1:orders.place"]; optional_capabilities := [] |}.

Lemma orders_selection_wf : selection_wf orders_selection.
Proof.
  split.
  - intros s [->|[->|[->|[]%elem_of_nil]%elem_of_cons]%elem_of_cons]%elem_of_cons; cbn; auto.
  - repeat constructor.
Qed.

Lemma orders_api_wf : api_wf orders_api.
Proof.
  intros id action. cbn.
  repeat (case_decide; [subst; intros [= <-]; cbn; repeat split; repeat constructor;
    rewrite ?elem_of_nil; naive_solver|]). done.
Qed.

Lemma shop_apis_wf types :
  apis_wf [("shop", {| package_types := types; package_apis := [("shop.orders@v1", orders_api)] |})].
Proof. intros id api. cbn. case_decide; [intros [= <-]; apply orders_api_wf|done]. Qed.

(** A consumer of the old package works with the new provider; a consumer of the new package
    does not work with the old provider, which refuses its amounts and sends no times. *)
Example selected_forwards :
  option_map compatible (compare_selected old_shop orders_selection new_shop) = Some true
  /\ option_map report_issues (compare_selected new_shop
    {| selection_api := "shop.orders@v1"; selection_actions := [select place Call];
       required_capabilities := []; optional_capabilities := [] |} old_shop)
  = Some [{| issue_path := "api.orders.rpc.Place.input.field.amount.bounds";
             issue_message := "schema is directionally incompatible" |};
          {| issue_path := "api.orders.rpc.Place.output.field.at.missing";
             issue_message := "schema is directionally incompatible" |}].
Proof. split; vm_compute; reflexivity. Qed.

(** ** Witnesses *)

(** The old package with a type that the API does not reach: the digest does not see it. *)
Definition wider_shop : PackageGraph :=
  [("shop", {| package_types := (old_types ++ [("Weight", amount 5)])%list;
               package_apis := [("shop.orders@v1", orders_api)] |})].

Example unreached_type_ignored :
  same_surface_digest old_shop orders_selection wider_shop = Some true
  /\ same_surface_digest old_shop orders_selection new_shop = Some false.
Proof. split; vm_compute; reflexivity. Qed.

Lemma provider_serves_witness :
  provider_serves_consumer old_shop orders_selection wider_shop
  /\ provider_serves_consumer old_shop orders_selection new_shop.
Proof.
  assert (Hwider : graph_wf wider_shop) by (apply graph_checks; vm_compute; reflexivity).
  split.
  - destruct (provider_serves old_shop orders_selection wider_shop (report []) old_shop_wf Hwider
      (shop_apis_wf _) (shop_apis_wf _) orders_selection_wf) as [Hs|Hc];
      [vm_compute; reflexivity|reflexivity|exact Hs|destruct (whole_text_collision Hc)].
  - destruct (provider_serves old_shop orders_selection new_shop (report []) old_shop_wf new_shop_wf
      (shop_apis_wf _) (shop_apis_wf _) orders_selection_wf) as [Hs|Hc];
      [vm_compute; reflexivity|reflexivity|exact Hs|destruct (whole_text_collision Hc)].
Defined.

Definition old_compiled : CompiledGraph := {| compiled_graph := old_shop; root_digest := "old" |}.
Definition new_compiled : CompiledGraph := {| compiled_graph := new_shop; root_digest := "new" |}.

Definition both_known (g : CompiledGraph) : Prop := g = old_compiled \/ g = new_compiled.

Lemma both_determined a b :
  both_known a -> both_known b -> root_digest a = root_digest b -> compiled_graph a = compiled_graph b.
Proof. by intros [->| ->] [->| ->]. Qed.

Definition upgrade : request :=
  {| request_consumer := old_compiled; request_selection := orders_selection;
     request_provider := new_compiled |}.

Lemma upgrade_ok : request_ok both_known upgrade.
Proof.
  split_and!; [by left|by right|exact orders_selection_wf|]. repeat constructor.
Qed.

(** What the first comparison leaves answers the second one. *)
Lemma cache_transparent_witness :
  exists entries, compare [] old_compiled orders_selection new_compiled = Some (Ok (report []), entries)
    /\ compare entries old_compiled orders_selection new_compiled = Some (Ok (report []), entries)
    /\ compare_selected old_shop orders_selection new_shop = Some (report []).
Proof.
  destruct (compare [] old_compiled orders_selection new_compiled) as [[answer entries]|] eqn:Hfirst;
    [|vm_compute in Hfirst; discriminate].
  assert (Hcached : cached both_known entries)
    by exact (cached_compare both_known [] upgrade answer entries (cached_empty _) upgrade_ok Hfirst).
  assert (Hanswer : answer = Ok (report [])
    /\ compare entries old_compiled orders_selection new_compiled = Some (Ok (report []), entries)).
  { vm_compute in Hfirst. injection Hfirst as <- <-. split_and!; vm_compute; reflexivity. }
  destruct Hanswer as (-> & Hsecond). exists entries. split_and!; [done..|].
  destruct (cache_transparent both_known both_determined entries upgrade (Ok (report [])) entries
    Hcached upgrade_ok Hsecond) as [Hr|Hc]; [exact Hr|destruct (whole_text_collision Hc)].
Defined.
