(* ===== verification/Admission.v ===== *)
(** * Admission credentials

    [crates/protocol/src/admission.rs]: the short-lived documents with which a runtime is
    admitted to the broker (a provisioned identity's own credential, or the one Auth signs
    for an OAuth grant), and the exchange in which an admitted runtime asks for its first
    context and Auth answers. *)

From Stdlib Require Import Ascii String.
From S2P Require Import Prelude RustStr Extern Json Transcript Base64 Protocol Wire.
From S2P Require Import Authorization Identifiers SessionAuthority IssuerMetadata.

Local Open Scope string_scope.

Local Existing Instance json_tree.

Definition OAUTH_ADMISSION_FORMAT_V1 : string := "trellis.oauth-admission.v1".
Definition PROVISIONED_ADMISSION_FORMAT_V1 : string := "trellis.provisioned-admission.v1".

(** [i64::saturating_sub] *)
Definition saturating_sub_i64 (a b : Z) : Z :=
  Z.max (- 9223372036854775808) (Z.min (a - b) 9223372036854775807).

(** ** Documents *)

Record ProvisionedAdmission := {
  provisioned_format : string;
  provisioned_instance_id : string;
  provisioned_nats_account : string;
  provisioned_credential_id : string;
  provisioned_runtime_id : string;
  provisioned_nkey : string;
  provisioned_issued_at : Z;
  provisioned_expires_at : Z;
}.

Record SignedProvisionedAdmission := {
  provisioned_credential : ProvisionedAdmission;
  provisioned_signature : string;
}.

Record AdmissionGet := {
  get_instance_id : string;
  get_runtime_id : string;
  get_session_public_key : string;
  get_attachment_id : string;
  get_nonce : string;
  get_issued_at : Z;
}.

Record SignedAdmissionGet := { get_request : AdmissionGet; get_signature : string }.

Record AdmissionContext := {
  context_format : string;
  context_issuer_key_id : string;
  context_instance_id : string;
  context_nats_account : string;
  context_runtime_id : string;
  context_nonce : string;
  context_request_subject : string;
  context_reply_subject : string;
  context_authority : string;
  context_registry : Json;
  context_issued_at : Z;
  context_expires_at : Z;
}.

Record SignedAdmissionContext := {
  context_response : AdmissionContext;
  context_signature : string;
}.

Inductive OAuthAdmissionBinding :=
| AdmissionBrowser (browser_origin : string)
| AdmissionNative (native_dpop_jkt : string).

Record OAuthAdmission := {
  oauth_format : string;
  oauth_issuer_key_id : string;
  oauth_instance_id : string;
  oauth_nats_account : string;
  oauth_grant : string;
  oauth_refresh_family_id : string;
  oauth_login_session_id : string;
  oauth_principal_id : string;
  oauth_client_id : string;
  oauth_binding : OAuthAdmissionBinding;
  oauth_persistent_dpop_jkt : string;
  oauth_runtime_id : string;
  oauth_nkey : string;
  oauth_issued_at : Z;
  oauth_not_before : Z;
  oauth_expires_at : Z;
}.

Record SignedOAuthAdmission := {
  oauth_credential : OAuthAdmission;
  oauth_signature : string;
}.

Global Instance ProvisionedAdmission_eq_dec : EqDecision ProvisionedAdmission.
Proof. solve_decision. Defined.
Global Instance SignedProvisionedAdmission_eq_dec : EqDecision SignedProvisionedAdmission.
Proof. solve_decision. Defined.
Global Instance AdmissionContext_eq_dec : EqDecision AdmissionContext.
Proof. solve_decision. Defined.
Global Instance SignedAdmissionContext_eq_dec : EqDecision SignedAdmissionContext.
Proof. solve_decision. Defined.
Global Instance OAuthAdmissionBinding_eq_dec : EqDecision OAuthAdmissionBinding.
Proof. solve_decision. Defined.
Global Instance OAuthAdmission_eq_dec : EqDecision OAuthAdmission.
Proof. solve_decision. Defined.
Global Instance SignedOAuthAdmission_eq_dec : EqDecision SignedOAuthAdmission.
Proof. solve_decision. Defined.

(** ** Serialization *)

Definition provisioned_json (c : ProvisionedAdmission) : Json :=
  object [("format", JString (provisioned_format c));
          ("trellisInstanceId", JString (provisioned_instance_id c));
          ("audienceNatsAccount", JString (provisioned_nats_account c));
          ("credentialId", JString (provisioned_credential_id c));
          ("runtimeId", JString (provisioned_runtime_id c));
          ("ephemeralNkey", JString (provisioned_nkey c));
          ("issuedAt", JInt (provisioned_issued_at c));
          ("expiresAt", JInt (provisioned_expires_at c))].

Definition get_json (r : AdmissionGet) : Json :=
  object [("trellisInstanceId", JString (get_instance_id r));
          ("runtimeId", JString (get_runtime_id r));
          ("sessionPublicKey", JString (get_session_public_key r));
          ("attachmentId", JString (get_attachment_id r));
          ("requestNonce", JString (get_nonce r));
          ("issuedAt", JInt (get_issued_at r))].

Definition context_json (c : AdmissionContext) : Json :=
  object [("format", JString (context_format c));
          ("issuerKeyId", JString (context_issuer_key_id c));
          ("trellisInstanceId", JString (context_instance_id c));
          ("audienceNatsAccount", JString (context_nats_account c));
          ("runtimeId", JString (context_runtime_id c));
          ("requestNonce", JString (context_nonce c));
          ("requestSubject", JString (context_request_subject c));
          ("replySubject", JString (context_reply_subject c));
          ("sessionAuthority", JString (context_authority c));
          ("registry", context_registry c);
          ("issuedAt", JInt (context_issued_at c));
          ("expiresAt", JInt (context_expires_at c))].

Definition oauth_binding_json (b : OAuthAdmissionBinding) : Json :=
  match b with
  | AdmissionBrowser origin =>
      object [("bindingKind", JString "browser"); ("browserOrigin", JString origin)]
  | AdmissionNative jkt =>
      object [("bindingKind", JString "native"); ("nativeDpopJkt", JString jkt)]
  end.

Definition oauth_json (c : OAuthAdmission) : Json :=
  object [("format", JString (oauth_format c));
          ("issuerKeyId", JString (oauth_issuer_key_id c));
          ("trellisInstanceId", JString (oauth_instance_id c));
          ("audienceNatsAccount", JString (oauth_nats_account c));
          ("oauthGrantId", JString (oauth_grant c));
          ("refreshFamilyId", JString (oauth_refresh_family_id c));
          ("loginSessionId", JString (oauth_login_session_id c));
          ("principalId", JString (oauth_principal_id c));
          ("clientId", JString (oauth_client_id c));
          ("binding", oauth_binding_json (oauth_binding c));
          ("persistentDpopJkt", JString (oauth_persistent_dpop_jkt c));
          ("runtimeId", JString (oauth_runtime_id c));
          ("ephemeralNkey", JString (oauth_nkey c));
          ("issuedAt", JInt (oauth_issued_at c));
          ("notBefore", JInt (oauth_not_before c));
          ("expiresAt", JInt (oauth_expires_at c))].

(** ** Encodings *)

Definition ADMISSION_GET_DOMAIN_V1 : string := "trellis.admission.get.v1".

(** The error of every check of a format *)
Definition invalid : ProtocolError := authorization_error AuthInvalidFormat [] "invalid OAuth admission".

Section encodings.
Context `{Base64Url, Sha256}.

Definition canonical (n : nat) (value : string) : result string ProtocolError :=
  let? bytes := ok_or (b64_decode value) invalid in
  let? _ := reject_if (negb (Nat.eqb (String.length bytes) n)) invalid in
  let? _ := reject_if (negb (String.eqb (b64_encode bytes) value)) invalid in
  Ok bytes.

Definition admission_inbox_prefix (session_public_key : string) : result string ProtocolError :=
  let? key := canonical 32 session_public_key in
  Ok ("_INBOX.trellis." +:+ b64_encode (sha256 key)).

Definition admission_get_subject (session_public_key : string) : result string ProtocolError :=
  let? key := canonical 32 session_public_key in
  Ok ("trellis.auth.admission." +:+ b64_encode (sha256 key) +:+ ".get").
End encodings.

(** [Ulid::from_string(id)?.to_string() != id] *)
Definition canonical_ulid `{UlidParser} (id : string) : result unit ProtocolError :=
  let? text := ok_or (ulid_text id) invalid in
  reject_if (negb (String.eqb text id)) invalid.

(** A canonical user key of the broker *)
Definition user_nkey `{NkeyParser} (value : string) : result unit ProtocolError :=
  let? (user, text) := ok_or (nkey_public value) invalid in
  reject_if (negb user || negb (String.eqb text value)) invalid.

Definition longer_than (n : N) (s : string) : bool := (n <? N.of_nat (String.length s))%N.

(** ** Provisioned identities *)

Section provisioned.
Context `{Base64Url, Sha256, Ed25519, UlidParser, NkeyParser} `{!CanonicalJson}.
Context `{JsonCodec SignedProvisionedAdmission}.

(** [ProvisionedAdmission::digest] *)
Definition provisioned_digest (c : ProvisionedAdmission) : result string ProtocolError :=
  let? _ := reject_if
              (negb (String.eqb (provisioned_format c) PROVISIONED_ADMISSION_FORMAT_V1)
               || String.eqb (provisioned_nats_account c) ""
               || longer_than 256 (provisioned_nats_account c)
               || (provisioned_issued_at c <? 0)%Z
               || (provisioned_expires_at c <=? provisioned_issued_at c)%Z
               || (60 <? saturating_sub_i64 (provisioned_expires_at c) (provisioned_issued_at c))%Z)
              invalid in
  let? _ := canonical_ulid (provisioned_instance_id c) in
  let? _ := canonical 32 (provisioned_credential_id c) in
  let? _ := canonical 16 (provisioned_runtime_id c) in
  let? _ := user_nkey (provisioned_nkey c) in
  signed_json_digest PROVISIONED_ADMISSION_FORMAT_V1 (provisioned_json c).

Definition sign_provisioned_admission (credential : ProvisionedAdmission) (identity_key : SigningKey) :
  result SignedProvisionedAdmission ProtocolError :=
  let? digest := provisioned_digest credential in
  Ok {| provisioned_credential := credential;
        provisioned_signature := b64_encode (sign identity_key digest) |}.

Definition verify_provisioned_admission (bytes identity_public_key instance account nkey : string)
    (now : Z) : result SignedProvisionedAdmission ProtocolError :=
  let? _ := reject_if (String.eqb bytes "" || longer_than (64 * 1024) bytes) invalid in
  let? signed := map_err JsonError (from_slice bytes) in
  let body := provisioned_credential signed in
  let? digest := provisioned_digest body in
  let? _ := reject_if
              (negb (String.eqb (provisioned_instance_id body) instance)
               || negb (String.eqb (provisioned_nats_account body) account)
               || negb (String.eqb (provisioned_nkey body) nkey)
               || (saturating_add_i64 now 5 <? provisioned_issued_at body)%Z
               || (provisioned_expires_at body <=? now)%Z)
              invalid in
  let? key_bytes := canonical 32 identity_public_key in
  let? key := ok_or (verifying_key_from_bytes key_bytes) invalid in
  let? signature := canonical 64 (provisioned_signature signed) in
  let? _ := reject_if (negb (verify_strict key digest signature)) invalid in
  Ok signed.
End provisioned.

(** ** The first context *)

Section context.
Context `{Base64Url, Sha256, Ed25519, UlidParser, UrlParser} `{!CanonicalJson}.
Context `{JsonCodec Json, JsonCodec AdmissionContext, JsonCodec SignedAdmissionContext}.
Context `{JsonCodec SignedSessionAuthority}.

(** A token of a reply subject that is empty, a wildcard or holds a space *)
Definition bad_token (token : string) : bool :=
  String.eqb token "" || contains_char "*" token || contains_char ">" token
  || has_whitespace token.

Definition get_transcript (request : AdmissionGet) (subject reply : string) : Json :=
  JArray [JString subject; JString reply; get_json request].

Definition admission_get_digest (request : AdmissionGet) (subject reply : string) :
  result string ProtocolError :=
  let? _ := canonical 16 (get_runtime_id request) in
  let? _ := validate_id (get_attachment_id request) "attachmentId" in
  let? _ := canonical 16 (get_nonce request) in
  let? _ := reject_if
              (String.eqb (get_instance_id request) "" || longer_than 256 (get_instance_id request)
               || (get_issued_at request <? 0)%Z) invalid in
  let? own_subject := admission_get_subject (get_session_public_key request) in
  let? _ := reject_if (negb (String.eqb own_subject subject)) invalid in
  let? prefix := admission_inbox_prefix (get_session_public_key request) in
  let? _ := reject_if
              (negb (starts_with (prefix +:+ ".") reply) || String.eqb reply ""
               || longer_than 512 reply || existsb bad_token (split "." reply)) invalid in
  signed_json_digest ADMISSION_GET_DOMAIN_V1 (get_transcript request subject reply).

Definition sign_admission_get (request : AdmissionGet) (subject reply : string)
    (signer : SigningKey) : result SignedAdmissionGet ProtocolError :=
  let? _ := reject_if
              (negb (String.eqb (b64_encode (verifying_key_to_bytes (verifying_key signer)))
                 (get_session_public_key request))) invalid in
  let? digest := admission_get_digest request subject reply in
  Ok {| get_request := request; get_signature := b64_encode (sign signer digest) |}.

Definition verify_admission_get (signed : SignedAdmissionGet) (subject reply instance : string)
    (now : Z) : result unit ProtocolError :=
  let request := get_request signed in
  let? _ := reject_if
              (negb (String.eqb (get_instance_id request) instance)
               || (saturating_add_i64 now 5 <? get_issued_at request)%Z
               || (30 <? saturating_sub_i64 now (get_issued_at request))%Z) invalid in
  let? digest := admission_get_digest request subject reply in
  let? key_bytes := canonical 32 (get_session_public_key request) in
  let? key := ok_or (verifying_key_from_bytes key_bytes) invalid in
  let? signature := canonical 64 (get_signature signed) in
  reject_if (negb (verify_strict key digest signature)) invalid.

(** The punctuation around a signed reply, and the text of a signature *)
Definition SIGNED_ENVELOPE_BYTES : N := 28 + 86.

Definition validate_admission_context (response : AdmissionContext) : result unit ProtocolError :=
  let? _ := canonical 16 (context_runtime_id response) in
  let? _ := canonical 16 (context_nonce response) in
  reject_if
    (negb (String.eqb (context_format response) ADMISSION_GET_DOMAIN_V1)
     || String.eqb (context_issuer_key_id response) ""
     || String.eqb (context_instance_id response) ""
     || String.eqb (context_nats_account response) ""
     || (context_issued_at response <? 0)%Z
     || (context_expires_at response <=? context_issued_at response)%Z
     || (30 <? context_expires_at response - context_issued_at response)%Z
     || String.eqb (context_authority response) ""
     || longer_than MAX_SESSION_AUTHORITY_BYTES (context_authority response)) invalid.

Definition check_admission_context (response : AdmissionContext) : result unit ProtocolError :=
  let? _ := validate_admission_context response in
  let? bytes := map_err (fun _ => invalid) (to_vec response) in
  reject_if (MAX_ADMISSION_RESPONSE_BYTES
             <? saturating_add_u64 (N.of_nat (String.length bytes)) SIGNED_ENVELOPE_BYTES)%N invalid.

Definition admission_context_digest (response : AdmissionContext) : result string ProtocolError :=
  let? _ := validate_admission_context response in
  let value := context_json response in
  let? bytes := map_err (fun _ => invalid) (to_vec value) in
  let? _ := reject_if (longer_than MAX_ADMISSION_RESPONSE_BYTES bytes) invalid in
  signed_json_digest ADMISSION_GET_DOMAIN_V1 value.

Definition sign_admission_context (response : AdmissionContext) (signer : SigningKey) :
  result SignedAdmissionContext ProtocolError :=
  let? _ := reject_if
              (negb (String.eqb (context_issuer_key_id response) (key_id_of (verifying_key signer))))
              invalid in
  let? _ := check_admission_context response in
  let? digest := admission_context_digest response in
  Ok {| context_response := response; context_signature := b64_encode (sign signer digest) |}.

(** [registry.get("attachmentId").and_then(Value::as_str)] *)
Definition registry_attachment (registry : Json) : option string :=
  match value_get "attachmentId" registry with Some (JString id) => Some id | _ => None end.

Definition verify_admission_context (bytes : string) (issuer : AuthorityIssuerKey)
    (request : AdmissionGet) (subject reply account : string) (now : Z) :
  result SignedAdmissionContext ProtocolError :=
  let? _ := reject_if (String.eqb bytes "" || longer_than MAX_ADMISSION_RESPONSE_BYTES bytes)
              invalid in
  let? _ := admission_get_digest request subject reply in
  let? signed := map_err (fun _ => invalid) (from_slice bytes) in
  let response := context_response signed in
  let? _ := reject_if
              (negb (bool_decide (issuer_state issuer = IssuerActive))
               || negb (String.eqb (context_issuer_key_id response) (key_id issuer))
               || negb (String.eqb (context_instance_id response) (get_instance_id request))
               || negb (String.eqb (context_nats_account response) account)
               || negb (String.eqb (context_runtime_id response) (get_runtime_id request))
               || negb (String.eqb (context_nonce response) (get_nonce request))
               || negb (bool_decide (registry_attachment (context_registry response)
                                     = Some (get_attachment_id request)))
               || negb (String.eqb (context_request_subject response) subject)
               || negb (String.eqb (context_reply_subject response) reply)
               || (saturating_add_i64 now 5 <? context_issued_at response)%Z
               || (context_expires_at response <=? now)%Z) invalid in
  let? digest := admission_context_digest response in
  let? key := issuer_verifying_key issuer in
  let? signature := canonical 64 (context_signature signed) in
  let? _ := reject_if (negb (verify_strict key digest signature)) invalid in
  let? context := parse_session_authority (context_authority response) MAX_SESSION_AUTHORITY_BYTES in
  let body := unsigned context in
  let? _ := reject_if
              (negb (String.eqb (runtime_id body) (get_runtime_id request))
               || negb (String.eqb (session_public_key body) (get_session_public_key request))
               || negb (String.eqb (trellis_instance_id body) (get_instance_id request))
               || negb (String.eqb (audience_nats_account body) account)
               || (expires_at body <? context_expires_at response)%Z) invalid in
  Ok signed.
End context.

(** ** OAuth grants *)

Section oauth.
Context `{Base64Url, Sha256, Ed25519, UlidParser, UrlParser, NkeyParser} `{!CanonicalJson}.
Context `{JsonCodec SignedOAuthAdmission}.

Definition loopback_host (host : option string) : bool :=
  match host with
  | Some host => String.eqb host "localhost" || String.eqb host "127.0.0.1" || String.eqb host "[::1]"
  | None => false
  end.

Definition validate_oauth_binding (binding : OAuthAdmissionBinding) (persistent_dpop_jkt : string) :
  result unit ProtocolError :=
  match binding with
  | AdmissionNative jkt => reject_if (negb (String.eqb jkt persistent_dpop_jkt)) invalid
  | AdmissionBrowser browser_origin =>
      let? origin := ok_or (url_parse browser_origin) invalid in
      reject_if
        (negb (String.eqb (url_origin origin) browser_origin)
         || negb (String.eqb (url_scheme origin) "https")
            && negb (loopback_host (url_host origin) && String.eqb (url_scheme origin) "http"))
        invalid
  end.

(** [OAuthAdmission::validate] *)
Definition validate_oauth (c : OAuthAdmission) : result unit ProtocolError :=
  let? _ := reject_if
              (negb (String.eqb (oauth_format c) OAUTH_ADMISSION_FORMAT_V1)
               || String.eqb (oauth_client_id c) "" || longer_than 2048 (oauth_client_id c)
               || String.eqb (oauth_refresh_family_id c) ""
               || longer_than 256 (oauth_refresh_family_id c)
               || String.eqb (oauth_nats_account c) ""
               || (oauth_issued_at c <? 0)%Z
               || (oauth_not_before c <? oauth_issued_at c)%Z
               || (oauth_expires_at c <=? oauth_not_before c)%Z) invalid in
  let? _ := for_each canonical_ulid
              [oauth_instance_id c; oauth_grant c; oauth_login_session_id c; oauth_principal_id c] in
  let? _ := canonical 32 (oauth_issuer_key_id c) in
  let? _ := canonical 32 (oauth_persistent_dpop_jkt c) in
  let? _ := canonical 16 (oauth_runtime_id c) in
  let? _ := user_nkey (oauth_nkey c) in
  validate_oauth_binding (oauth_binding c) (oauth_persistent_dpop_jkt c).

Definition sign_oauth_admission (credential : OAuthAdmission) (issuer : SigningKey) :
  result SignedOAuthAdmission ProtocolError :=
  let? _ := validate_oauth credential in
  let? _ := reject_if
              (negb (String.eqb (oauth_issuer_key_id credential) (key_id_of (verifying_key issuer))))
              invalid in
  let? digest := signed_json_digest OAUTH_ADMISSION_FORMAT_V1 (oauth_json credential) in
  Ok {| oauth_credential := credential; oauth_signature := b64_encode (sign issuer digest) |}.

Definition verify_oauth_admission (bytes : string) (issuer : AuthorityIssuerKey)
    (instance account nkey : string) (now : Z) (maximum_lifetime_seconds : N) :
  result SignedOAuthAdmission ProtocolError :=
  let? _ := reject_if (longer_than (16 * 1024) bytes || (maximum_lifetime_seconds =? 0)%N) invalid in
  let? signed := map_err JsonError (from_slice bytes) in
  let body := oauth_credential signed in
  let? _ := validate_oauth body in
  let? _ := reject_if
              (negb (bool_decide (issuer_state issuer = IssuerActive))
               || negb (String.eqb (oauth_issuer_key_id body) (key_id issuer))
               || negb (String.eqb (oauth_instance_id body) instance)
               || negb (String.eqb (oauth_nats_account body) account)
               || negb (String.eqb (oauth_nkey body) nkey)
               || (now <? oauth_not_before body)%Z
               || (oauth_expires_at body <=? now)%Z
               || (Z.of_N maximum_lifetime_seconds
                   <? oauth_expires_at body - oauth_not_before body)%Z)
              (authorization_error AuthScopeMismatch []
                 "OAuth admission outside selected scope or validity") in
  let? key := issuer_verifying_key issuer in
  let? digest := signed_json_digest OAUTH_ADMISSION_FORMAT_V1 (oauth_json body) in
  let? signature := canonical 64 (oauth_signature signed) in
  let? _ := reject_if (negb (verify_strict key digest signature))
              (authorization_error AuthInvalidSignature [] "invalid admission signature") in
  Ok signed.
End oauth.

(** ** Encodings are canonical *)

Lemma append_inj_r (a b c : string) : a +:+ c = b +:+ c -> a = b.
Proof.
  intros Heq. assert (String.length a = String.length b) as Hlen.
  { apply (f_equal String.length) in Heq. rewrite !length_append in Heq. lia. }
  by destruct (append_eq_length _ _ _ _ Hlen Heq).
Qed.

Section canonical_lemmas.
Context `{Base64Url, Sha256}.

Lemma canonical_bytes n value bytes :
  canonical n value = Ok bytes -> value = b64_encode bytes /\ String.length bytes = n.
Proof.
  unfold canonical. intros Hc. peel Hc as b Hb. peel Hc as Hl. peel Hc as He. injection Hc as <-.
  apply negb_false_iff, Nat.eqb_eq in Hl. by apply negb_false_iff, String.eqb_eq in He.
Qed.

Context `{!Base64UrlLaws}.

Lemma canonical_encode n bytes :
  String.length bytes = n -> canonical n (b64_encode bytes) = Ok bytes.
Proof.
  intros <-. unfold canonical. rewrite b64_decode_encode. cbn. by rewrite Nat.eqb_refl, String.eqb_refl.
Qed.

Lemma encode_inj a b : b64_encode a = b64_encode b -> a = b.
Proof. intros Heq. apply (f_equal b64_decode) in Heq. rewrite !b64_decode_encode in Heq. congruence. Qed.

(** The subject and the inbox of a session key are its own: another key that shares one of
    them is a collision of SHA-256. *)
Theorem admission_subject_binds key key' subject prefix :
  admission_get_subject key = Ok subject -> admission_inbox_prefix key = Ok prefix ->
  admission_get_subject key' = Ok subject \/ admission_inbox_prefix key' = Ok prefix ->
  key = key' \/ sha256_collision.
Proof.
  unfold admission_get_subject, admission_inbox_prefix. intros Hs Hp.
  peel Hs as b Hb. apply ok_inj in Hs as <-. rewrite Hb in Hp. apply ok_inj in Hp as <-.
  apply canonical_bytes in Hb as [-> _].
  intros [Hs'|Hp'].
  - peel Hs' as b' Hb'. apply canonical_bytes in Hb' as [-> _].
    apply ok_inj, append_inj_l, append_inj_r, encode_inj in Hs'.
    destruct (sha256_binds _ _ Hs') as [->|]; [by left|by right].
  - peel Hp' as b' Hb'. apply canonical_bytes in Hb' as [-> _].
    apply ok_inj, append_inj_l, encode_inj in Hp'.
    destruct (sha256_binds _ _ Hp') as [->|]; [by left|by right].
Qed.
End canonical_lemmas.

(** ** A provisioned identity's credential *)

Section provisioned_lemmas.
Context `{Base64Url, Sha256, Ed25519, UlidParser, NkeyParser} `{!CanonicalJson}.
Context `{JsonCodec SignedProvisionedAdmission}.

Lemma provisioned_digest_window c digest :
  provisioned_digest c = Ok digest ->
  (0 <= provisioned_issued_at c < provisioned_expires_at c)%Z
  /\ (provisioned_expires_at c <= provisioned_issued_at c + 60)%Z.
Proof.
  unfold provisioned_digest. intros Hd. peel Hd as Hc. clear Hd.
  rewrite !orb_false_iff, !Z.ltb_ge, Z.leb_gt in Hc. unfold saturating_sub_i64 in Hc.
  destruct Hc as (((_ & ?) & ?) & ?). lia.
Qed.

(** What an accepted credential establishes, and what is accepted. *)
Lemma verify_provisioned_ok bytes public instance account nkey now signed :
  verify_provisioned_admission bytes public instance account nkey now = Ok signed <->
  let body := provisioned_credential signed in
  bytes <> "" /\ (N.of_nat (String.length bytes) <= 64 * 1024)%N /\ from_slice bytes = Ok signed
  /\ provisioned_instance_id body = instance /\ provisioned_nats_account body = account
  /\ provisioned_nkey body = nkey
  /\ (provisioned_issued_at body <= saturating_add_i64 now 5)%Z
  /\ (now < provisioned_expires_at body)%Z
  /\ exists digest key_bytes key sig, provisioned_digest body = Ok digest
    /\ canonical 32 public = Ok key_bytes /\ verifying_key_from_bytes key_bytes = Some key
    /\ canonical 64 (provisioned_signature signed) = Ok sig /\ verify_strict key digest sig = true.
Proof.
  unfold verify_provisioned_admission, longer_than. split.
  - intros Hv. peel Hv as Hsize. peel Hv as s Hs. peel Hv as digest Hd. peel Hv as Hc.
    peel Hv as kb Hkb. peel Hv as key Hk. peel Hv as sig Hsig. peel Hv as Hver. injection Hv as <-.
    apply orb_false_iff in Hsize as [Hne%String.eqb_neq Hsize%N.ltb_ge].
    rewrite !orb_false_iff, !negb_false_iff, !String.eqb_eq, Z.ltb_ge, Z.leb_gt in Hc.
    apply negb_false_iff in Hver. destruct Hc as ((((? & ?) & ?) & ?) & ?).
    cbn zeta. split_and!; try done. by exists digest, kb, key, sig.
  - cbn zeta. intros (Hne & Hsize & Hs & Hi & Ha & Hn & Hiss & Hexp & digest & kb & key & sig & Hd
      & Hkb & Hk & Hsig & Hver).
    rewrite (proj2 (String.eqb_neq _ _) Hne), (proj2 (N.ltb_ge _ _) Hsize), Hs.
    cbn [orb reject_if map_err]. rewrite Hd, Hi, Ha, Hn, !String.eqb_refl,
      (proj2 (Z.ltb_ge _ _) Hiss), (proj2 (Z.leb_gt _ _) Hexp). cbn [orb negb reject_if].
    rewrite Hkb, Hk. cbn [ok_or]. by rewrite Hsig, Hver.
Qed.
End provisioned_lemmas.

(** ** The exchange for the first context *)

Section context_lemmas.
Context `{Base64Url, Sha256, Ed25519, UlidParser, UrlParser} `{!CanonicalJson}.
Context `{JsonCodec Json, JsonCodec AdmissionContext, JsonCodec SignedAdmissionContext}.
Context `{JsonCodec SignedSessionAuthority}.

Lemma verify_admission_get_ok signed subject reply instance now :
  verify_admission_get signed subject reply instance now = Ok tt <->
  let request := get_request signed in
  get_instance_id request = instance
  /\ (get_issued_at request <= saturating_add_i64 now 5)%Z
  /\ (saturating_sub_i64 now (get_issued_at request) <= 30)%Z
  /\ exists digest key_bytes key sig, admission_get_digest request subject reply = Ok digest
    /\ canonical 32 (get_session_public_key request) = Ok key_bytes
    /\ verifying_key_from_bytes key_bytes = Some key
    /\ canonical 64 (get_signature signed) = Ok sig /\ verify_strict key digest sig = true.
Proof.
  unfold verify_admission_get. split.
  - intros Hv. peel Hv as Hc. peel Hv as digest Hd. peel Hv as kb Hkb. peel Hv as key Hk.
    peel Hv as sig Hsig. apply reject_if_ok, negb_false_iff in Hv.
    rewrite !orb_false_iff, negb_false_iff, String.eqb_eq, !Z.ltb_ge in Hc.
    destruct Hc as ((? & ?) & ?). cbn zeta. split_and!; try done. by exists digest, kb, key, sig.
  - cbn zeta. intros (Hi & Hiss & Hold & digest & kb & key & sig & Hd & Hkb & Hk & Hsig & Hver).
    rewrite Hi, String.eqb_refl, (proj2 (Z.ltb_ge _ _) Hiss), (proj2 (Z.ltb_ge _ _) Hold).
    cbn [orb negb reject_if]. rewrite Hd, Hkb, Hk. cbn [ok_or]. by rewrite Hsig, Hver.
Qed.

Lemma validate_admission_context_ok response :
  validate_admission_context response = Ok tt ->
  (0 <= context_issued_at response < context_expires_at response)%Z
  /\ (context_expires_at response <= context_issued_at response + 30)%Z
  /\ context_authority response <> "".
Proof.
  unfold validate_admission_context. intros Hv. do 2 skip Hv. apply reject_if_ok in Hv.
  rewrite !orb_false_iff, !Z.ltb_ge, Z.leb_gt, !String.eqb_neq in Hv.
  destruct Hv as (((((_ & ?) & ?) & ?) & ?) & _). split_and!; [lia..|done].
Qed.

(** The authority in a reply is the requesting runtime's own. *)
Definition own_authority (request : AdmissionGet) (account : string) (response : AdmissionContext) :
  Prop :=
  exists context,
    parse_session_authority (context_authority response) MAX_SESSION_AUTHORITY_BYTES = Ok context
    /\ runtime_id (unsigned context) = get_runtime_id request
    /\ session_public_key (unsigned context) = get_session_public_key request
    /\ trellis_instance_id (unsigned context) = get_instance_id request
    /\ audience_nats_account (unsigned context) = account
    /\ (context_expires_at response <= expires_at (unsigned context))%Z.

(** The reply answers the request that was sent on these subjects. *)
Definition answers_get (request : AdmissionGet) (subject reply account : string)
    (response : AdmissionContext) : Prop :=
  context_instance_id response = get_instance_id request
  /\ context_nats_account response = account
  /\ context_runtime_id response = get_runtime_id request
  /\ context_nonce response = get_nonce request
  /\ registry_attachment (context_registry response) = Some (get_attachment_id request)
  /\ context_request_subject response = subject /\ context_reply_subject response = reply.

Lemma verify_admission_context_ok bytes issuer request subject reply account now signed :
  verify_admission_context bytes issuer request subject reply account now = Ok signed <->
  let response := context_response signed in
  bytes <> "" /\ (N.of_nat (String.length bytes) <= MAX_ADMISSION_RESPONSE_BYTES)%N
  /\ (exists proof, admission_get_digest request subject reply = Ok proof) /\ from_slice bytes = Ok signed
  /\ issuer_state issuer = IssuerActive /\ context_issuer_key_id response = key_id issuer
  /\ answers_get request subject reply account response
  /\ (context_issued_at response <= saturating_add_i64 now 5)%Z
  /\ (now < context_expires_at response)%Z
  /\ own_authority request account response
  /\ exists digest key sig, admission_context_digest response = Ok digest
    /\ issuer_verifying_key issuer = Ok key
    /\ canonical 64 (context_signature signed) = Ok sig /\ verify_strict key digest sig = true.
Proof.
  unfold verify_admission_context, longer_than, answers_get, own_authority. split.
  - intros Hv. peel Hv as Hsize. peel Hv as d0 Hd0. peel Hv as s Hs. peel Hv as Hc.
    peel Hv as digest Hd. peel Hv as key Hk. peel Hv as sig Hsig. peel Hv as Hver.
    peel Hv as context Hctx. peel Hv as Hown. injection Hv as <-.
    apply orb_false_iff in Hsize as [Hne%String.eqb_neq Hsize%N.ltb_ge].
    rewrite !orb_false_iff, !negb_false_iff, !String.eqb_eq, !bool_decide_eq_true, Z.ltb_ge,
      Z.leb_gt in Hc.
    rewrite !orb_false_iff, !negb_false_iff, !String.eqb_eq, Z.ltb_ge in Hown.
    apply negb_false_iff in Hver. destruct Hc as ((((((((((? & ?) & ?) & ?) & ?) & ?) & ?) & ?) & ?) & ?) & ?).
    destruct Hown as ((((? & ?) & ?) & ?) & ?).
    cbn zeta. split_and!; try done; [by exists d0|by exists context|by exists digest, key, sig].
  - cbn zeta. intros (Hne & Hsize & [d0 Hd0] & Hs & Hst & Hid & (Hi & Ha & Hr & Hn & Hat & Hsub & Hrep)
      & Hiss & Hexp & (context & Hctx & Hor & Hok & Hoi & Hoa & Hoe)
      & digest & key & sig & Hd & Hk & Hsig & Hver).
    rewrite (proj2 (String.eqb_neq _ _) Hne), (proj2 (N.ltb_ge _ _) Hsize), Hd0, Hs.
    cbn [orb reject_if map_err].
    rewrite Hst, Hid, Hi, Ha, Hr, Hn, Hat, Hsub, Hrep, !String.eqb_refl,
      !bool_decide_eq_true_2, (proj2 (Z.ltb_ge _ _) Hiss), (proj2 (Z.leb_gt _ _) Hexp) by done.
    cbn [orb negb reject_if]. rewrite Hd, Hk, Hsig, Hver. cbn [negb reject_if].
    rewrite Hctx, Hor, Hok, Hoi, Hoa, !String.eqb_refl, (proj2 (Z.ltb_ge _ _) Hoe). done.
Qed.
End context_lemmas.

(** ** A credential for a grant *)

Section oauth_lemmas.
Context `{Base64Url, Sha256, Ed25519, UlidParser, UrlParser, NkeyParser} `{!CanonicalJson}.
Context `{JsonCodec SignedOAuthAdmission}.

Lemma verify_oauth_ok bytes issuer instance account nkey now lifetime signed :
  verify_oauth_admission bytes issuer instance account nkey now lifetime = Ok signed <->
  let body := oauth_credential signed in
  (N.of_nat (String.length bytes) <= 16 * 1024)%N /\ lifetime <> 0%N /\ from_slice bytes = Ok signed
  /\ validate_oauth body = Ok tt
  /\ issuer_state issuer = IssuerActive /\ oauth_issuer_key_id body = key_id issuer
  /\ oauth_instance_id body = instance /\ oauth_nats_account body = account
  /\ oauth_nkey body = nkey
  /\ (oauth_not_before body <= now < oauth_expires_at body)%Z
  /\ (oauth_expires_at body - oauth_not_before body <= Z.of_N lifetime)%Z
  /\ exists key digest sig, issuer_verifying_key issuer = Ok key
    /\ signed_json_digest OAUTH_ADMISSION_FORMAT_V1 (oauth_json body) = Ok digest
    /\ canonical 64 (oauth_signature signed) = Ok sig /\ verify_strict key digest sig = true.
Proof.
  unfold verify_oauth_admission, longer_than. split.
  - intros Hv. peel Hv as Hsize. peel Hv as s Hs. peel Hv as u Hval. destruct u. peel Hv as Hc.
    peel Hv as key Hk. peel Hv as digest Hd. peel Hv as sig Hsig. peel Hv as Hver. injection Hv as <-.
    apply orb_false_iff in Hsize as [Hsize%N.ltb_ge Hl%N.eqb_neq].
    rewrite !orb_false_iff, !negb_false_iff, !String.eqb_eq, bool_decide_eq_true, !Z.ltb_ge,
      Z.leb_gt in Hc. apply negb_false_iff in Hver.
    destruct Hc as (((((((? & ?) & ?) & ?) & ?) & ?) & ?) & ?).
    cbn zeta. split_and!; try done. by exists key, digest, sig.
  - cbn zeta. intros (Hsize & Hl & Hs & Hval & Hst & Hid & Hi & Ha & Hn & [Hnb Hexp] & Hlife
      & key & digest & sig & Hk & Hd & Hsig & Hver).
    rewrite (proj2 (N.ltb_ge _ _) Hsize), (proj2 (N.eqb_neq _ _) Hl), Hs. cbn [orb reject_if map_err].
    rewrite Hval, Hst, Hid, Hi, Ha, Hn, !String.eqb_refl, bool_decide_eq_true_2,
      (proj2 (Z.ltb_ge _ _) Hnb), (proj2 (Z.leb_gt _ _) Hexp), (proj2 (Z.ltb_ge _ _) Hlife) by done.
    cbn [orb negb reject_if]. by rewrite Hk, Hd, Hsig, Hver.
Qed.
End oauth_lemmas.

(** ** What is signed is accepted *)

(** A time of [i64] *)
Definition is_i64 (z : Z) : Prop := (-9223372036854775808 <= z <= 9223372036854775807)%Z.

(** A derived [Serialize] writes the two members of a signed reply between its punctuation, and
    the text of a signature as it is: it has no character to escape. *)
Class EnvelopeLaw `{JsonCodec AdmissionContext, JsonCodec SignedAdmissionContext} : Prop :=
  envelope_length : forall signed bytes,
    all_chars is_base64url (context_signature signed) = true -> to_vec signed = Ok bytes ->
    exists inner, to_vec (context_response signed) = Ok inner
      /\ String.length bytes = (String.length inner + 28 + String.length (context_signature signed))%nat.

Section signing.
Context `{Base64UrlLaws, Sha256, Ed25519Laws, UlidParser, UrlParser, NkeyParser} `{!CanonicalJson}.
Context `{JsonCodec Json, JsonCodec AdmissionContext, JsonCodecLaws SignedAdmissionContext}.
Context `{!EnvelopeLaw}.
Context `{JsonCodec SignedSessionAuthority, JsonCodecLaws SignedProvisionedAdmission}.
Context `{JsonCodecLaws SignedOAuthAdmission}.

Lemma signature_canonical key digest : canonical 64 (b64_encode (sign key digest)) = Ok (sign key digest).
Proof. apply canonical_encode, sign_length. Qed.

Lemma key_canonical key :
  canonical 32 (b64_encode (verifying_key_to_bytes key)) = Ok (verifying_key_to_bytes key).
Proof. apply canonical_encode, verifying_key_length. Qed.

(** A provisioned identity that signs its credential is admitted under its key, in the scope
    and for the runtime key it names, until the credential expires. *)
Theorem provisioned_admission_verifies credential key signed bytes now :
  sign_provisioned_admission credential key = Ok signed ->
  to_vec signed = Ok bytes -> bytes <> "" -> (N.of_nat (String.length bytes) <= 64 * 1024)%N ->
  is_i64 now -> (provisioned_issued_at credential <= now < provisioned_expires_at credential)%Z ->
  verify_provisioned_admission bytes (b64_encode (verifying_key_to_bytes (verifying_key key)))
    (provisioned_instance_id credential) (provisioned_nats_account credential)
    (provisioned_nkey credential) now = Ok signed.
Proof.
  unfold sign_provisioned_admission. intros Hs Hvec Hne Hsize Hi Hnow.
  peel Hs as digest Hd. injection Hs as <-. apply verify_provisioned_ok. cbn.
  split_and!; try done.
  - by apply from_slice_to_vec.
  - unfold saturating_add_i64, is_i64 in *. lia.
  - lia.
  - eexists _, _, _, _. split_and!; [exact Hd|apply key_canonical|apply verifying_key_bytes
      |apply signature_canonical|apply verify_sign].
Qed.

Lemma admission_get_verifies request subject reply key signed now :
  sign_admission_get request subject reply key = Ok signed -> is_i64 now ->
  (get_issued_at request <= now <= get_issued_at request + 30)%Z ->
  verify_admission_get signed subject reply (get_instance_id request) now = Ok tt.
Proof.
  unfold sign_admission_get. intros Hs Hi Hnow. peel Hs as Hk. peel Hs as digest Hd. injection Hs as <-.
  apply negb_false_iff, String.eqb_eq in Hk. apply verify_admission_get_ok. cbn.
  split_and!; [done|unfold saturating_add_i64, is_i64 in *; lia
    |unfold saturating_sub_i64, is_i64 in *; lia|].
  rewrite <- Hk. eexists _, _, _, _. split_and!; [exact Hd|apply key_canonical|apply verifying_key_bytes
    |apply signature_canonical|apply verify_sign].
Qed.

Lemma envelope_room n m :
  (saturating_add_u64 (N.of_nat n) SIGNED_ENVELOPE_BYTES <= MAX_ADMISSION_RESPONSE_BYTES)%N ->
  m = (n + 28 + 86)%nat -> m <> 0%nat /\ (N.of_nat m <= MAX_ADMISSION_RESPONSE_BYTES)%N.
Proof.
  unfold saturating_add_u64, SIGNED_ENVELOPE_BYTES, MAX_ADMISSION_RESPONSE_BYTES, u64_max. lia.
Qed.

(** The limit that is checked before signing leaves room for the signature. *)
Lemma signed_context_fits response key signed bytes :
  sign_admission_context response key = Ok signed -> to_vec signed = Ok bytes ->
  bytes <> "" /\ (N.of_nat (String.length bytes) <= MAX_ADMISSION_RESPONSE_BYTES)%N.
Proof.
  unfold sign_admission_context, check_admission_context. intros Hs Hvec.
  peel Hs as Hid. peel Hs as u Hcheck. peel Hs as digest Hd. injection Hs as <-.
  skip Hcheck. peel Hcheck as inner Hin. apply reject_if_ok in Hcheck. apply N.ltb_ge in Hcheck.
  assert (String.length (b64_encode (sign key digest)) = 86%nat) as Hsig
    by (by rewrite b64_length, sign_length).
  destruct (envelope_length _ _ (b64_alphabet (sign key digest) : all_chars is_base64url
    (context_signature {| context_response := response; context_signature := b64_encode (sign key digest) |})
    = true) Hvec) as (inner' & Hin' & Hlen).
  cbn [context_response context_signature] in Hin', Hlen. rewrite Hin in Hin'. injection Hin' as <-.
  rewrite Hsig in Hlen. destruct (envelope_room _ _ Hcheck Hlen) as [Hne Hle].
  split; [|done]. by intros ->.
Qed.

(** C37: The exchange for the first context completes.  What a runtime asks with its session key
    is accepted for half a minute; and any reply that Auth signs for it, with the runtime's own
    authority, is accepted by the runtime until it expires: the check before signing leaves room
    for the signature. *)
Theorem admission_exchange_completes request subject reply session asked response issuer signed bytes
    account now now' :
  sign_admission_get request subject reply session = Ok asked ->
  sign_admission_context response issuer = Ok signed -> is_weak (verifying_key issuer) = false ->
  to_vec signed = Ok bytes ->
  answers_get request subject reply account response -> own_authority request account response ->
  is_i64 now -> (get_issued_at request <= now <= get_issued_at request + 30)%Z ->
  is_i64 now' -> (context_issued_at response <= now' < context_expires_at response)%Z ->
  verify_admission_get asked subject reply (get_instance_id request) now = Ok tt
  /\ verify_admission_context bytes (issuer_of issuer IssuerActive) request subject reply account now'
     = Ok signed.
Proof.
  intros Hask Hs Hweak Hvec Hans Hown Hi Hnow Hi' Hnow'.
  split; [by eapply admission_get_verifies|].
  destruct (signed_context_fits _ _ _ _ Hs Hvec) as [Hne Hsize].
  unfold sign_admission_get in Hask. peel Hask as Hk. peel Hask as asked_digest Had.
  unfold sign_admission_context in Hs. peel Hs as Hid. skip Hs. peel Hs as digest Hd. injection Hs as <-.
  apply negb_false_iff, String.eqb_eq in Hid. apply verify_admission_context_ok. cbn.
  split_and!; try done.
  - by exists asked_digest.
  - by apply from_slice_to_vec.
  - unfold saturating_add_i64, is_i64 in *. lia.
  - lia.
  - eexists _, _, _. split_and!; [exact Hd| |apply signature_canonical|apply verify_sign].
    apply issuer_verifying_key_ok. split; [by apply parse_verifying_key_encode|done].
Qed.

(** The credential Auth signs for a grant admits its runtime key while it is valid, when it lasts
    no longer than the broker allows. *)
Theorem oauth_admission_verifies credential issuer signed bytes now lifetime :
  sign_oauth_admission credential issuer = Ok signed -> is_weak (verifying_key issuer) = false ->
  to_vec signed = Ok bytes -> (N.of_nat (String.length bytes) <= 16 * 1024)%N ->
  (oauth_not_before credential <= now < oauth_expires_at credential)%Z ->
  (oauth_expires_at credential - oauth_not_before credential <= Z.of_N lifetime)%Z ->
  verify_oauth_admission bytes (issuer_of issuer IssuerActive) (oauth_instance_id credential)
    (oauth_nats_account credential) (oauth_nkey credential) now lifetime = Ok signed.
Proof.
  unfold sign_oauth_admission. intros Hs Hweak Hvec Hsize Hnow Hlife.
  peel Hs as u Hval. destruct u. peel Hs as Hid. peel Hs as digest Hd. injection Hs as <-.
  apply negb_false_iff, String.eqb_eq in Hid. apply verify_oauth_ok. cbn.
  split_and!; try done; try lia; [by apply from_slice_to_vec|].
  eexists _, _, _. split_and!; [|exact Hd|apply signature_canonical|apply verify_sign].
  apply issuer_verifying_key_ok. split; [by apply parse_verifying_key_encode|done].
Qed.
End signing.

(** ** Documents and their signatures *)













Section authenticity.
Context `{Base64UrlLaws, Sha256, Ed25519Laws, UlidParser, UrlParser, NkeyParser} `{!CanonicalJson}.
Context `{!CanonicalJsonLaws}.
Context `{JsonCodec Json, JsonCodec AdmissionContext, JsonCodec SignedAdmissionContext}.
Context `{JsonCodec SignedSessionAuthority, JsonCodec SignedProvisionedAdmission}.
Context `{JsonCodec SignedOAuthAdmission}.





End authenticity.
