(* ===== verification/SessionProof.v ===== *)
(** * Session proofs

    [crates/protocol/src/session_proof.rs]: the proof with which a device asks to be enrolled.
    It is a signature of the device's identity key over a transcript of the request, the origin
    it is made for and the keys it binds, fresh within a policy's window. *)

From Stdlib Require Import Ascii String QArith Sorting.Sorted.
From S2P Require Import Prelude RustStr Extern Json Transcript Base64 Protocol Wire.

Local Open Scope string_scope.

Local Existing Instance json_tree.

Definition SESSION_PROOF_FORMAT_V1 : string := "trellis.session-proof.v1".
Definition MAXIMUM_REQUEST_ID_BYTES : N := 256.
Definition MAXIMUM_TEXT_BYTES : N := 16 * 1024.
Definition MAXIMUM_PROOF_WINDOW_MS : Z := 5 * 60 * 1000.
Definition MAXIMUM_SAFE_JSON_INTEGER : Z := 9007199254740991.

Inductive SessionProofPurpose := DeviceEnrollment.

Definition purpose_as_str (purpose : SessionProofPurpose) : string :=
  match purpose with DeviceEnrollment => "deviceEnrollment" end.

Record SessionProofInput := {
  proof_purpose : SessionProofPurpose;
  proof_request_id : string;
  proof_issued_at : Z;
  proof_signer_key_id : string;
  transcript_fields : list string;
}.

Record DeviceEnrollmentSessionProofInput := {
  enrollment_origin : string;
  unsigned_request : Json;
}.

(** An envelope, and the same as it arrives *)
Record SessionProof := { proof_format : string; proof_signature : string }.
Record WireSessionProof := { wire_format : string; wire_signature : string }.

Record SessionProofPolicy := { maximum_age_ms : Z; maximum_future_skew_ms : Z }.

Definition proof_error (code : SessionProofErrorCode) (tokens : list string) (message : string) :
  ProtocolError := SessionProofError code tokens message.

(** An operation of [i64] that is checked *)
Definition checked_i64 (z : Z) : option Z :=
  if (-9223372036854775808 <=? z)%Z && (z <=? 9223372036854775807)%Z then Some z else None.

(** [SessionProofPolicy::new] *)
Definition new_policy (age skew : Z) : result SessionProofPolicy ProtocolError :=
  let within z := (0 <=? z)%Z && (z <=? MAXIMUM_PROOF_WINDOW_MS)%Z in
  let? _ := reject_if (negb (within age) || negb (within skew))
              (proof_error ProofInvalidFormat []
                 "proof age and future skew must be between zero and five minutes") in
  let? _ := ok_or (checked_i64 (age + skew))
              (proof_error ProofInvalidFormat [] "proof validity window overflows") in
  Ok {| maximum_age_ms := age; maximum_future_skew_ms := skew |}.

Definition default_policy : SessionProofPolicy :=
  {| maximum_age_ms := 30000; maximum_future_skew_ms := 30000 |}.

(** ** Checks of values *)

Definition validate_text (value : string) (path : list string) : result unit ProtocolError :=
  reject_if
    (String.eqb value "" || (MAXIMUM_TEXT_BYTES <? N.of_nat (String.length value))%N
     || negb (String.eqb (trim value) value) || any_char is_ascii_control value)
    (proof_error ProofInvalidFormat path "value must be bounded, nonempty protocol-safe text").

Definition text (value : string) (path : list string) : result string ProtocolError :=
  let? _ := validate_text value path in
  Ok value.

Definition validate_request_id (value : string) : result unit ProtocolError :=
  let? _ := validate_text value ["requestId"] in
  reject_if (MAXIMUM_REQUEST_ID_BYTES <? N.of_nat (String.length value))%N
    (proof_error ProofInvalidFormat ["requestId"] "request ID exceeds 256 UTF-8 bytes").

Definition unsafe_message : string :=
  "integer must be within the interoperable JSON safe-integer range".

Definition validate_safe_integer (value : Z) (path : list string) : result unit ProtocolError :=
  reject_if (negb ((- MAXIMUM_SAFE_JSON_INTEGER <=? value)%Z && (value <=? MAXIMUM_SAFE_JSON_INTEGER)%Z))
    (proof_error ProofUnsafeJsonInteger path unsafe_message).

Definition unsafe_integer (number : JsonNumber) : bool :=
  match number_as_i64 number with
  | Some z => (MAXIMUM_SAFE_JSON_INTEGER <? Z.abs z)%Z
  | None =>
      match number_as_u64 number with
      | Some n => (MAX_SAFE_INTEGER <? n)%N
      | None => unsafe_double number
      end
  end.

(** [validate_safe_json_integers]; [path] leads to the value. *)
Fixpoint validate_safe_json_integers (value : Json) (path : list string) :
  result unit ProtocolError :=
  match value with
  | JNumber number =>
      reject_if (unsafe_integer number) (proof_error ProofUnsafeJsonInteger path unsafe_message)
  | JArray values =>
      (fix go index values :=
         match values with
         | [] => Ok tt
         | value :: values =>
             let? _ := validate_safe_json_integers value (path ++ [decimal index])%list in
             go (index + 1)%N values
         end) 0%N values
  | JObject members =>
      (fix go members :=
         match members with
         | [] => Ok tt
         | (name, value) :: members =>
             let? _ := validate_safe_json_integers value (path ++ [name])%list in
             go members
         end) members
  | _ => Ok tt
  end.

Section keys.
Context `{Base64Url, Ed25519, Sha256}.

Definition decode_base64url (n : nat) (encoded : string) (path : list string)
    (code : SessionProofErrorCode) : result string ProtocolError :=
  let? _ := reject_if (contains_char "=" encoded)
              (proof_error ProofInvalidEncoding path "padded base64url is not accepted") in
  let? decoded := ok_or (b64_decode encoded)
                    (proof_error ProofInvalidEncoding path "value is not unpadded base64url") in
  let? _ := reject_if
              (negb (Nat.eqb (String.length decoded) n)
               || negb (String.eqb (b64_encode decoded) encoded))
              (proof_error code path
                 ("value must canonically encode exactly " +:+ decimal (N.of_nat n) +:+ " bytes")) in
  Ok decoded.

Definition decode_public_key (encoded : string) (path : list string) :
  result VerifyingKey ProtocolError :=
  let? bytes := decode_base64url 32 encoded path ProofInvalidPublicKey in
  let? key := ok_or (verifying_key_from_bytes bytes)
                (proof_error ProofInvalidPublicKey path "value is not a valid Ed25519 public key") in
  let? _ := reject_if (is_weak key)
              (proof_error ProofInvalidPublicKey path "weak Ed25519 public keys are not accepted") in
  Ok key.

Definition derived_key_id (key : VerifyingKey) : string :=
  b64_encode (sha256 (verifying_key_to_bytes key)).

Definition validate_key_id (value : string) (path : list string) : result unit ProtocolError :=
  let? _ := decode_base64url 32 value path ProofInvalidKeyId in
  Ok tt.

(** [digest(value, path)]: the bytes of a digest *)
Definition digest_bytes (value : string) (path : list string) : result string ProtocolError :=
  decode_base64url 32 value path ProofInvalidEncoding.
End keys.

(** ** The input of a proof *)

Section proofs.
Context `{Base64Url, Ed25519, Sha256} `{!CanonicalJson}.

(** [required_text] *)
Definition required_text (request : list (string * Json)) (field : string) :
  result string ProtocolError :=
  ok_or (value ← map_get field request; as_str value)
    (proof_error ProofInvalidFormat [field] "required string is missing").

Definition ENROLLMENT_ROUTE : string := "/auth/device/enroll".

(** [SessionProofInput::device_enrollment] *)
Definition device_enrollment (input : DeviceEnrollmentSessionProofInput) :
  result SessionProofInput ProtocolError :=
  let whole := unsigned_request input in
  let? _ := validate_safe_json_integers whole [] in
  let? request := ok_or (as_object whole)
                    (proof_error ProofInvalidFormat ["request"] "unsigned request must be an object") in
  let? _ := reject_if (bool_decide (is_Some (map_get "proof" request)))
              (proof_error ProofInvalidFormat ["proof"] "unsigned request must omit proof") in
  let? request_id := required_text request "requestId" in
  let? identity_key_id := required_text request "identityKeyId" in
  let? session_key := required_text request "sessionKey" in
  let? connection_id := required_text request "connectionId" in
  let? participant_id := required_text request "participantId" in
  let? _ := text participant_id ["participantId"] in
  let? issued_at := ok_or (value ← map_get "iat" request; as_i64 value)
                      (proof_error ProofInvalidFormat ["iat"] "iat must be an integer") in
  let? _ := reject_if
              (match map_get "name" request with
               | None => false
               | Some name =>
                   match as_str name with Some name => (128 <? chars_count name)%N | None => true end
               end)
              (proof_error ProofInvalidFormat ["name"]
                 "name must be a string of at most 128 characters") in
  let? _ := validate_key_id identity_key_id ["identityKeyId"] in
  let? session_key := decode_public_key session_key ["sessionKey"] in
  let? canonical := canonicalize_json whole in
  let request_digest := sha256 canonical in
  let? _ := validate_request_id request_id in
  let? _ := validate_safe_integer issued_at ["issuedAt"] in
  let? origin := text (enrollment_origin input) ["origin"] in
  let? identity := digest_bytes identity_key_id ["identityKeyId"] in
  let? connection := text connection_id ["connectionId"] in
  Ok {| proof_purpose := DeviceEnrollment;
        proof_request_id := request_id;
        proof_issued_at := issued_at;
        proof_signer_key_id := identity_key_id;
        transcript_fields := [origin; ENROLLMENT_ROUTE; identity;
          verifying_key_to_bytes session_key; connection; request_digest] |}.

(** [SessionProofInput::digest] *)
Definition proof_digest (input : SessionProofInput) : result string ProtocolError :=
  transcript_digest
    (proof_error ProofInvalidFormat [] "signature input component exceeds u32 length")
    (SESSION_PROOF_FORMAT_V1 :: purpose_as_str (proof_purpose input) :: proof_request_id input
       :: z_decimal (proof_issued_at input) :: transcript_fields input).

(** [SessionProofInput::validate_signer] *)
Definition validate_signer (input : SessionProofInput) (key : VerifyingKey) :
  result unit ProtocolError :=
  reject_if (negb (String.eqb (proof_signer_key_id input) (derived_key_id key)))
    (proof_error ProofInvalidKeyId ["signerKeyId"]
       "signer key id does not match the verification key").

Definition format_message : string := "format must equal '" +:+ SESSION_PROOF_FORMAT_V1 +:+ "'".

Definition parse_wire_proof (wire : WireSessionProof) : result SessionProof ProtocolError :=
  let? _ := reject_if (negb (String.eqb (wire_format wire) SESSION_PROOF_FORMAT_V1))
              (proof_error ProofInvalidFormat ["format"] format_message) in
  let? _ := decode_base64url 64 (wire_signature wire) ["signature"] ProofInvalidSignature in
  Ok {| proof_format := wire_format wire; proof_signature := wire_signature wire |}.

Definition parse_session_proof `{!FromValue WireSessionProof} (value : Json) :
  result SessionProof ProtocolError :=
  let? wire := map_err (proof_error ProofInvalidFormat []) (from_value value) in
  parse_wire_proof wire.

(** [session_proof_signing_digest] *)
Definition session_proof_signing_digest (input : SessionProofInput) : result string ProtocolError :=
  let? digest := proof_digest input in
  Ok (b64_encode digest).

Definition sign_session_proof (input : SessionProofInput) (signing_key : SigningKey) :
  result SessionProof ProtocolError :=
  let? _ := validate_signer input (verifying_key signing_key) in
  let? digest := proof_digest input in
  Ok {| proof_format := SESSION_PROOF_FORMAT_V1;
        proof_signature := b64_encode (sign signing_key digest) |}.

Definition verify_session_proof (input : SessionProofInput) (proof : SessionProof)
    (expected_signer_public_key : string) (now_ms : Z) (policy : SessionProofPolicy) :
  result unit ProtocolError :=
  let? _ := validate_safe_integer now_ms ["now"] in
  let? _ := reject_if (negb (String.eqb (proof_format proof) SESSION_PROOF_FORMAT_V1))
              (proof_error ProofInvalidFormat ["proof"; "format"] format_message) in
  let? oldest := ok_or (checked_i64 (now_ms - maximum_age_ms policy))
                   (proof_error ProofProofIatOutOfRange ["issuedAt"]
                      "proof age calculation underflowed") in
  let? newest := ok_or (checked_i64 (now_ms + maximum_future_skew_ms policy))
                   (proof_error ProofProofIatOutOfRange ["issuedAt"]
                      "proof future-skew calculation overflowed") in
  let? _ := reject_if (negb ((oldest <=? proof_issued_at input)%Z && (proof_issued_at input <=? newest)%Z))
              (proof_error ProofProofIatOutOfRange ["issuedAt"]
                 "proof issue time is outside the accepted policy window") in
  let? key := decode_public_key expected_signer_public_key ["signerPublicKey"] in
  let? _ := validate_signer input key in
  let? digest := proof_digest input in
  let? signature := decode_base64url 64 (proof_signature proof) ["proof"; "signature"]
                      ProofInvalidSignature in
  reject_if (negb (verify_strict key digest signature))
    (proof_error ProofInvalidSignature ["proof"; "signature"] "signature verification failed").

(** ** The digest of a request that carries its proof *)

(** The request without the signature of its proof *)
Definition strip_signature (request : Json) : result Json ProtocolError :=
  let? members := ok_or (as_object request)
                    (proof_error ProofInvalidFormat [] "proof-bearing request must be an object") in
  let? proof := ok_or (value ← map_get "proof" members; as_object value)
                  (proof_error ProofInvalidFormat ["proof"] "proof must be an object") in
  let? _ := reject_if
              (negb (bool_decide ((value ← map_get "format" proof; as_str value)
                                  = Some SESSION_PROOF_FORMAT_V1)))
              (proof_error ProofInvalidFormat ["proof"; "format"] format_message) in
  let? _ := ok_or (map_get "signature" proof)
              (proof_error ProofInvalidFormat ["proof"; "signature"] "signature member is required") in
  Ok (JObject (map_insert "proof" (JObject (map_remove "signature" proof)) members)).

(** [session_proof_request_digest] *)
Definition session_proof_request_digest (request : Json) : result string ProtocolError :=
  let? unsigned := strip_signature request in
  let? _ := validate_safe_json_integers unsigned [] in
  let? canonical := canonicalize_json unsigned in
  Ok (b64_encode (sha256 canonical)).
End proofs.

(** ** Checked requests are exact *)

Lemma unsafe_integer_double n : unsafe_integer n = false -> unsafe_double n = false.
Proof.
  unfold unsafe_integer, MAXIMUM_SAFE_JSON_INTEGER.
  destruct n as [n|z|b m e]; cbn [number_as_i64 number_as_u64 unsafe_double]; [|rewrite Z.ltb_ge, N.ltb_ge; unfold MAX_SAFE_INTEGER; lia|done].
  destruct (n <? _)%N; [rewrite Z.ltb_ge, N.ltb_ge; unfold MAX_SAFE_INTEGER; lia|done].
Qed.

Lemma validate_safe_exact value path :
  validate_safe_json_integers value path = Ok tt -> json_exact value.
Proof.
  revert value path. fix go 1.
  intros [| |n| |l|m] path; cbn [validate_safe_json_integers json_exact]; try done.
  - intros Hn%reject_if_ok. by apply unsafe_integer_double.
  - generalize 0%N. induction l as [|v l IH]; [done|]. intros index. rewrite let_ok.
    intros ([] & Hv & Hl). split; [by eapply go|by eapply IH].
  - induction m as [|[k v] m IH]; [done|]. rewrite let_ok. intros ([] & Hv & Hm).
    split; [by eapply go|by apply IH].
Qed.

Section decoding.
Context `{Base64Url, Ed25519, Sha256}.

Lemma decode_bytes n encoded path code bytes :
  decode_base64url n encoded path code = Ok bytes ->
  encoded = b64_encode bytes /\ String.length bytes = n.
Proof.
  unfold decode_base64url. intros Hd. skip Hd. peel Hd as b Hb. peel Hd as Hc. injection Hd as <-.
  apply orb_false_iff in Hc as [Hl%negb_false_iff%Nat.eqb_eq He%negb_false_iff%String.eqb_eq]. done.
Qed.

Context `{!Base64UrlLaws}.

Lemma decode_encoded bytes path code :
  decode_base64url (String.length bytes) (b64_encode bytes) path code = Ok bytes.
Proof.
  unfold decode_base64url.
  rewrite (all_chars_excludes is_base64url "="%char (b64_encode bytes) eq_refl (b64_alphabet bytes)).
  cbn [reject_if]. rewrite b64_decode_encode. cbn. by rewrite Nat.eqb_refl, String.eqb_refl.
Qed.

Lemma decode_public_key_encoded `{!Ed25519Laws} key path :
  is_weak key = false ->
  decode_public_key (b64_encode (verifying_key_to_bytes key)) path = Ok key.
Proof.
  intros Hw. unfold decode_public_key.
  pose proof (decode_encoded (verifying_key_to_bytes key) path ProofInvalidPublicKey) as Hd.
  rewrite verifying_key_length in Hd. rewrite Hd, verifying_key_bytes. cbn [ok_or]. by rewrite Hw.
Qed.
End decoding.

(** ** What an input says of the request *)

Section inputs.
Context `{Base64Url, Ed25519, Sha256} `{!CanonicalJson}.

(** The parts of a request that its proof covers *)
Record covers (input : DeviceEnrollmentSessionProofInput) (proof : SessionProofInput) : Prop := {
  covers_exact : json_exact (unsigned_request input);
  covers_request_id :
    value_get "requestId" (unsigned_request input) = Some (JString (proof_request_id proof));
  covers_signer :
    value_get "identityKeyId" (unsigned_request input) = Some (JString (proof_signer_key_id proof));
  covers_fields : exists identity session_text session_key connection canonical,
    proof_signer_key_id proof = b64_encode identity
    /\ value_get "sessionKey" (unsigned_request input) = Some (JString session_text)
    /\ decode_public_key session_text ["sessionKey"] = Ok session_key
    /\ value_get "connectionId" (unsigned_request input) = Some (JString connection)
    /\ canonicalize_json (unsigned_request input) = Ok canonical
    /\ transcript_fields proof = [enrollment_origin input; ENROLLMENT_ROUTE; identity;
         verifying_key_to_bytes session_key; connection; sha256 canonical];
}.

Lemma required_text_ok request field s :
  required_text request field = Ok s -> map_get field request = Some (JString s).
Proof.
  unfold required_text. intros Hr%ok_or_ok. destruct (map_get field request) as [[]|]; try done.
  by injection Hr as ->.
Qed.

Lemma device_enrollment_covers input proof : device_enrollment input = Ok proof -> covers input proof.
Proof.
  unfold device_enrollment. intros Hd. peel Hd as u Hsafe. destruct u. peel Hd as request Hobj.
  skip Hd. peel Hd as rid Hrid. peel Hd as ikey Hikey. peel Hd as skey Hskey. peel Hd as conn Hconn.
  do 2 skip Hd. peel Hd as iat Hiat. do 2 skip Hd. peel Hd as key Hkey. peel Hd as canonical Hcan.
  do 2 skip Hd. peel Hd as origin Horigin. peel Hd as identity Hidentity. peel Hd as conn' Hconn'.
  injection Hd as <-.
  apply required_text_ok in Hrid, Hikey, Hskey, Hconn.
  apply decode_bytes in Hidentity as [Hidentity _].
  unfold text in Horigin, Hconn'. skip Horigin. skip Hconn'. injection Horigin as <-. injection Hconn' as <-.
  assert (Hget : forall k, value_get k (unsigned_request input) = map_get k request)
    by (intros k; unfold value_get; by rewrite Hobj).
  split; cbn [proof_request_id proof_signer_key_id transcript_fields]; rewrite ?Hget; try done.
  - by eapply validate_safe_exact.
  - exists identity, skey, key, conn, canonical. by rewrite ?Hget.
Qed.

(** ** What is accepted *)

Lemma verify_session_proof_ok input proof public now policy :
  verify_session_proof input proof public now policy = Ok tt <->
  (Z.abs now <= MAXIMUM_SAFE_JSON_INTEGER)%Z /\ proof_format proof = SESSION_PROOF_FORMAT_V1
  /\ (exists oldest newest, checked_i64 (now - maximum_age_ms policy) = Some oldest
      /\ checked_i64 (now + maximum_future_skew_ms policy) = Some newest
      /\ (oldest <= proof_issued_at input <= newest)%Z)
  /\ exists key digest sig, decode_public_key public ["signerPublicKey"] = Ok key
    /\ proof_signer_key_id input = derived_key_id key /\ proof_digest input = Ok digest
    /\ decode_base64url 64 (proof_signature proof) ["proof"; "signature"] ProofInvalidSignature = Ok sig
    /\ verify_strict key digest sig = true.
Proof.
  unfold verify_session_proof, validate_safe_integer, validate_signer. split.
  - intros Hv. peel Hv as Hnow. peel Hv as Hf. peel Hv as oldest Ho. peel Hv as newest Hn.
    peel Hv as Hw. peel Hv as key Hk. peel Hv as Hid. peel Hv as digest Hd. peel Hv as sig Hsig.
    apply reject_if_ok, negb_false_iff in Hv.
    apply negb_false_iff, andb_true_iff in Hnow as [Hlo%Z.leb_le Hhi%Z.leb_le].
    apply negb_false_iff, andb_true_iff in Hw as [Hold%Z.leb_le Hnew%Z.leb_le].
    apply negb_false_iff, String.eqb_eq in Hf, Hid.
    split_and!; [lia|done|by exists oldest, newest|by exists key, digest, sig].
  - intros (Hnow & Hf & (oldest & newest & Ho & Hn & [Hold Hnew]) & key & digest & sig & Hk & Hid & Hd & Hsig & Hver).
    assert ((- MAXIMUM_SAFE_JSON_INTEGER <=? now)%Z && (now <=? MAXIMUM_SAFE_JSON_INTEGER)%Z = true) as ->
      by (apply andb_true_iff; rewrite !Z.leb_le; lia).
    cbn [negb reject_if]. rewrite Hf, String.eqb_refl, Ho, Hn. cbn [negb reject_if ok_or].
    rewrite (proj2 (Z.leb_le _ _) Hold), (proj2 (Z.leb_le _ _) Hnew). cbn [andb negb reject_if].
    rewrite Hk, Hid, String.eqb_refl. cbn [negb reject_if]. by rewrite Hd, Hsig, Hver.
Qed.

End inputs.

(** The limits of a policy *)
Definition policy_ok (policy : SessionProofPolicy) : Prop :=
  (0 <= maximum_age_ms policy <= MAXIMUM_PROOF_WINDOW_MS)%Z
  /\ (0 <= maximum_future_skew_ms policy <= MAXIMUM_PROOF_WINDOW_MS)%Z.

Lemma new_policy_ok age skew policy :
  new_policy age skew = Ok policy <->
  policy = {| maximum_age_ms := age; maximum_future_skew_ms := skew |} /\ policy_ok policy.
Proof.
  unfold new_policy, policy_ok, MAXIMUM_PROOF_WINDOW_MS. split.
  - intros Hp. peel Hp as Hw. skip Hp. injection Hp as <-. split; [done|].
    apply orb_false_iff in Hw as [Ha%negb_false_iff%andb_true_iff Hs%negb_false_iff%andb_true_iff].
    rewrite !Z.leb_le in Ha, Hs. done.
  - intros [-> [Ha Hs]]. cbn in Ha, Hs.
    assert (Hw : forall z, (0 <= z <= 300000)%Z -> (0 <=? z)%Z && (z <=? 5 * 60 * 1000)%Z = true)
      by (intros z Hz; apply andb_true_iff; rewrite !Z.leb_le; lia).
    rewrite !Hw by done. cbn [negb orb reject_if]. unfold checked_i64.
    assert ((-9223372036854775808 <=? age + skew)%Z && (age + skew <=? 9223372036854775807)%Z = true) as ->
      by (apply andb_true_iff; rewrite !Z.leb_le; lia). done.
Qed.

(** ** Requests that carry their proof *)

Lemma json_sorted_object m :
  json_sorted (JObject m) <-> StronglySorted name_lt (fst <$> m) /\ members_all json_sorted m.
Proof.
  cbn [json_sorted]. apply and_iff_compat_l. induction m as [|[k v] m IH]; [split; [by constructor|done]|].
  unfold members_all in *. rewrite Forall_cons, IH. done.
Qed.

Lemma map_get_members (P : Json -> Prop) k m v : members_all P m -> map_get k m = Some v -> P v.
Proof.
  induction 1 as [|[k' w] m Hw _ IH]; cbn; [done|].
  destruct (String.eqb k k'); [by intros [= <-]|done].
Qed.

Lemma Forall_filtered {A} (P Q : A -> Prop) `{forall x, Decision (Q x)} l :
  Forall P l -> Forall P (filter Q l).
Proof.
  rewrite !Forall_forall. intros Hl x [_ Hx]%list_elem_of_filter. by apply Hl.
Qed.

Lemma map_remove_sorted k m : json_sorted (JObject m) -> json_sorted (JObject (map_remove k m)).
Proof.
  rewrite !json_sorted_object. unfold map_remove, members_all. intros [Hs Hm]. split.
  - clear Hm. induction m as [|[k' v] m IH]; [done|]. rewrite fmap_cons in Hs.
    apply StronglySorted_inv in Hs as [Hs Hall]. rewrite filter_cons. case_decide; [|by apply IH].
    rewrite fmap_cons. constructor; [by apply IH|].
    rewrite Forall_fmap in Hall |- *. by apply Forall_filtered.
  - by apply Forall_filtered.
Qed.

Lemma strip_sorted request u : json_sorted request -> strip_signature request = Ok u -> json_sorted u.
Proof.
  unfold strip_signature. intros Hr Hs. peel Hs as members Hm. peel Hs as proof Hp. do 2 skip Hs.
  injection Hs as <-. destruct request; try done. injection Hm as ->.
  destruct (map_get "proof" members) as [[| | | | |p]|] eqn:Hget; try done. injection Hp as ->.
  apply json_sorted_object in Hr as [Hs Hall]. apply json_sorted_object.
  pose proof (map_get_members _ _ _ _ Hall Hget) as Hproof.
  split; [by apply map_insert_sorted|]. apply map_insert_members; [|done]. by apply map_remove_sorted.
Qed.

Section proof_theorems.
Context `{Base64UrlLaws, Ed25519Laws, Sha256} `{!CanonicalJson}.

(** A proof that a device signs for its enrollment is accepted under its key, exactly
    within the window of the policy around the time it names; no arithmetic on times can
    overflow. *)
Theorem session_proof_accepted proof key signed now policy :
  sign_session_proof proof key = Ok signed ->
  is_weak (verifying_key key) = false -> policy_ok policy ->
  (Z.abs now <= MAXIMUM_SAFE_JSON_INTEGER)%Z ->
  verify_session_proof proof signed (b64_encode (verifying_key_to_bytes (verifying_key key))) now policy
    = Ok tt
  <-> (now - maximum_age_ms policy <= proof_issued_at proof <= now + maximum_future_skew_ms policy)%Z.
Proof.
  intros Hs Hweak [Ha Hf] Hnow. unfold MAXIMUM_PROOF_WINDOW_MS, MAXIMUM_SAFE_JSON_INTEGER in *.
  unfold sign_session_proof, validate_signer in Hs. peel Hs as Hid. peel Hs as digest Hd. injection Hs as <-.
  apply negb_false_iff, String.eqb_eq in Hid.
  assert (Hck : forall z, (Z.abs z <= 9007199254740991 + 300000)%Z -> checked_i64 z = Some z).
  { intros z Hz. unfold checked_i64.
    assert ((-9223372036854775808 <=? z)%Z && (z <=? 9223372036854775807)%Z = true) as ->
      by (apply andb_true_iff; rewrite !Z.leb_le; lia). done. }
  rewrite verify_session_proof_ok. rewrite !Hck by lia. split.
  - intros (_ & _ & (oldest & newest & [= <-] & [= <-] & ?) & _). done.
  - intros Hw. split_and!; [done|done|by eexists _, _|].
    exists (verifying_key key), digest, (sign key digest).
    split_and!; [by apply decode_public_key_encoded|done|done| |apply verify_sign].
    pose proof (decode_encoded (sign key digest) ["proof"; "signature"] ProofInvalidSignature) as Hsig.
    by rewrite sign_length in Hsig.
Qed.

Context `{!CanonicalJsonLaws}.

(** C39: A proof speaks for one request at one origin: two enrollments whose proofs have the
    same digest ask the same of the same origin, in every member of the request, unless SHA-256
    collides. *)
Theorem session_proof_binds a b pa pb digest :
  device_enrollment a = Ok pa -> device_enrollment b = Ok pb ->
  json_sorted (unsigned_request a) -> json_sorted (unsigned_request b) ->
  proof_digest pa = Ok digest -> proof_digest pb = Ok digest ->
  (enrollment_origin a = enrollment_origin b
   /\ json_same (unsigned_request a) (unsigned_request b)
   /\ proof_request_id pa = proof_request_id pb /\ proof_issued_at pa = proof_issued_at pb
   /\ proof_signer_key_id pa = proof_signer_key_id pb) \/ sha256_collision.
Proof.
  intros Ha%device_enrollment_covers Hb%device_enrollment_covers Hsa Hsb Hda Hdb.
  destruct (covers_fields _ _ Ha) as (ia & ta & ka & ca & xa & Hia & _ & _ & _ & Hxa & Hfa).
  destruct (covers_fields _ _ Hb) as (ib & tb & kb & cb & xb & Hib & _ & _ & _ & Hxb & Hfb).
  unfold proof_digest in Hda, Hdb. rewrite Hfa in Hda. rewrite Hfb in Hdb.
  destruct (transcript_digest_binds _ _ _ _ _ Hda Hdb) as [Heq|]; [|by right].
  do 9 (let E := fresh "E" in apply cons_parts in Heq as [E Heq]). apply cons_parts in Heq as [Hx _].
  destruct (sha256_binds _ _ Hx) as [<-|]; [left|by right].
  unfold canonicalize_json in Hxa, Hxb. rewrite map_err_ok in Hxa. rewrite map_err_ok in Hxb.
  split_and!; [done| |done|by apply z_decimal_inj|congruence].
  eapply canonical_text_same; eauto using covers_exact.
Qed.
(** The digest of a request that carries its proof covers everything but the signature. *)
Theorem request_digest_covers a b digest :
  json_sorted a -> json_sorted b ->
  session_proof_request_digest a = Ok digest -> session_proof_request_digest b = Ok digest ->
  (exists ua ub, strip_signature a = Ok ua /\ strip_signature b = Ok ub /\ json_same ua ub)
  \/ sha256_collision.
Proof.
  unfold session_proof_request_digest, canonicalize_json. intros Hsa Hsb Ha Hb.
  peel Ha as ua Hua. peel Ha as u Hxa. destruct u. peel Ha as ta Hta. injection Ha as <-.
  peel Hb as ub Hub. peel Hb as u Hxb. destruct u. peel Hb as tb Htb. injection Hb as Heq.
  apply (f_equal b64_decode) in Heq. rewrite !b64_decode_encode in Heq. injection Heq as Heq.
  destruct (sha256_binds _ _ Heq) as [<-|]; [left|by right].
  exists ua, ub. split_and!; [done..|].
  eapply canonical_text_same; eauto using strip_sorted, validate_safe_exact.
Qed.
End proof_theorems.

(** The signature is left out: a request with another signature has the same digest. *)
Definition with_signature (signature : Json) (request : Json) : Json :=
  match request with
  | JObject members =>
      match map_get "proof" members with
      | Some (JObject proof) =>
          JObject (map_insert "proof" (JObject (map_insert "signature" signature proof)) members)
      | _ => request
      end
  | _ => request
  end.

Lemma map_insert_twice k v w m : map_insert k v (map_insert k w m) = map_insert k v m.
Proof.
  induction m as [|[k' v'] m IH]; cbn; [by rewrite String.eqb_refl|].
  destruct (String.eqb_spec k k') as [<-|Hne]; cbn; [by rewrite String.eqb_refl|].
  destruct (str_le k k') eqn:Hle; cbn; [by rewrite String.eqb_refl|].
  destruct (String.eqb_spec k k'); [done|]. by rewrite Hle, IH.
Qed.

Lemma map_remove_insert k v m : map_remove k (map_insert k v m) = map_remove k m.
Proof.
  unfold map_remove. induction m as [|[k' v'] m IH]; cbn [map_insert].
  - rewrite filter_cons. by case_decide.
  - destruct (String.eqb_spec k k') as [<-|Hne]; [|destruct (str_le k k')].
    + rewrite !filter_cons. by repeat case_decide.
    + rewrite (filter_cons _ (k, v)). by case_decide.
    + rewrite !filter_cons, IH. by case_decide.
Qed.

Theorem signature_excluded `{Base64Url, Sha256} `{!CanonicalJson} signature request u :
  strip_signature request = Ok u ->
  session_proof_request_digest (with_signature signature request) = session_proof_request_digest request.
Proof.
  intros Hs. unfold session_proof_request_digest. enough (strip_signature (with_signature signature request)
    = strip_signature request) as -> by done.
  unfold strip_signature in Hs. peel Hs as members Hm. peel Hs as proof Hp. peel Hs as Hf.
  peel Hs as old Hold. apply negb_false_iff in Hf. destruct request; try done. injection Hm as ->.
  cbn [with_signature]. destruct (map_get "proof" members) as [[| | | | |p]|] eqn:Hget; try done.
  injection Hp as ->. unfold strip_signature. cbn [as_object ok_or].
  assert (Hfmt : map_get "format" (map_insert "signature" signature proof) = map_get "format" proof)
    by (by rewrite map_get_insert).
  rewrite !map_get_insert, Hget, !String.eqb_refl. cbn [mbind option_bind as_object ok_or].
  rewrite Hfmt, Hf, map_get_insert, String.eqb_refl, Hold, map_insert_twice, map_remove_insert. done.
Qed.
