(* ===== verification/Pagination.v ===== *)
(** * Pagination cursors

    [crates/protocol/src/pagination.rs]: an opaque cursor names the last item of a page and is
    bound to the endpoint and the query it was given for. *)

From Stdlib Require Import Ascii String.
From S2P Require Import Prelude RustStr Extern Json Transcript Base64 Protocol Wire.

Local Open Scope string_scope.

Local Existing Instance json_tree.

Inductive InvalidPagination := invalid_pagination.

Record Cursor (T : Type) := { cursor_v : N; cursor_query_digest : string; cursor_after : T }.
Arguments cursor_v {T} _.
Arguments cursor_query_digest {T} _.
Arguments cursor_after {T} _.

Section cursors.
Context `{Base64Url, Sha256} `{!CanonicalJson}.

Definition query_value (endpoint : string) (query : Json) : Json :=
  object [("endpoint", JString endpoint); ("query", query)].

Definition pagination_query_digest (endpoint : string) (query : Json) :
  result string InvalidPagination :=
  let? canonical := map_err (fun _ => invalid_pagination)
                      (canonicalize_json (query_value endpoint query)) in
  Ok (sha256_base64url canonical).

Context {T : Type} `{JsonCodec (Cursor T)}.

Definition encode_pagination_cursor (query_digest : string) (after : T) :
  result string InvalidPagination :=
  let cursor := {| cursor_v := 1; cursor_query_digest := query_digest; cursor_after := after |} in
  let? bytes := map_err (fun _ => invalid_pagination) (to_vec cursor) in
  Ok (b64_encode bytes).

Definition decode_pagination_cursor (encoded query_digest : string) : result T InvalidPagination :=
  let? _ := reject_if (String.eqb encoded "") invalid_pagination in
  let? bytes := ok_or (b64_decode encoded) invalid_pagination in
  let? cursor := map_err (fun _ => invalid_pagination) (from_slice bytes) in
  let? _ := reject_if
              (negb (cursor_v cursor =? 1)%N
               || negb (String.eqb (cursor_query_digest cursor) query_digest)) invalid_pagination in
  Ok (cursor_after cursor).
End cursors.

Section theorems.
Context `{Base64UrlLaws, Sha256} `{!CanonicalJson} `{!CanonicalJsonLaws}.

Lemma query_digest_binds endpoint query endpoint' query' digest :
  json_plain query -> json_plain query' ->
  pagination_query_digest endpoint query = Ok digest ->
  pagination_query_digest endpoint' query' = Ok digest ->
  (endpoint = endpoint' /\ json_same query query') \/ sha256_collision.
Proof.
  assert (Hplain : forall e q, json_plain q -> json_plain (query_value e q)) 
    by (intros e q Hq; unfold query_value; plain; exact Hq).
  intros Hq%(Hplain endpoint) Hq'%(Hplain endpoint'). unfold pagination_query_digest, canonicalize_json.
  intros Hd Hd'. peel Hd as t Ht. peel Hd' as t' Ht'. injection Hd as <-. injection Hd' as Heq.
  unfold sha256_base64url in Heq. apply (f_equal b64_decode) in Heq. rewrite !b64_decode_encode in Heq.
  injection Heq as Heq. destruct (sha256_binds _ _ Heq) as [->|]; [left|by right].
  rewrite map_err_ok in Ht. rewrite map_err_ok in Ht'. destruct Hq as [Hs He], Hq' as [Hs' He'].
  pose proof (canonical_text_same _ _ _ Hs Hs' He He' Ht Ht') as Hsame.
  member "endpoint" of Hsame as Hendpoint. member "query" of Hsame as Hquery. done.
Qed.

Context {T : Type} `{JsonCodec (Cursor T), !JsonCodecLaws (Cursor T)}.

(** The JSON text of an object is not empty. *)
Hypothesis cursor_text : forall (cursor : Cursor T) bytes, to_vec cursor = Ok bytes -> bytes <> "".

(** A cursor gives back the position it was made of, for its own query only. *)
Lemma decode_encoded_cursor digest digest' after encoded :
  encode_pagination_cursor digest after = Ok encoded ->
  decode_pagination_cursor encoded digest'
  = if String.eqb digest digest' then Ok after else Err invalid_pagination.
Proof.
  unfold encode_pagination_cursor, decode_pagination_cursor. intros He. peel He as bytes Hb.
  injection He as <-. pose proof (cursor_text _ _ Hb) as Hne.
  assert (b64_encode bytes <> "") as Hne'%String.eqb_neq.
  { intros Heq. apply (f_equal b64_decode) in Heq. rewrite b64_decode_encode in Heq.
    pose proof (b64_length bytes) as Hl. pose proof (b64_decode_encode "") as H0'.
    assert (b64_encode "" = "") as Hempty.
    { pose proof (b64_length "") as Hl0. by destruct (b64_encode ""). }
    rewrite Hempty in H0'. congruence. }
  rewrite Hne', b64_decode_encode. cbn [reject_if ok_or]. rewrite (from_slice_to_vec _ _ Hb).
  cbn. by destruct (String.eqb digest digest').
Qed.

(** A cursor continues the listing it was given for: decoding it for a query gives back its
    position when the query is the one it was made for, and otherwise fails, unless SHA-256
    collides. *)
Theorem cursor_bound_to_query endpoint query endpoint' query' digest digest' after encoded :
  json_plain query -> json_plain query' ->
  pagination_query_digest endpoint query = Ok digest ->
  pagination_query_digest endpoint' query' = Ok digest' ->
  encode_pagination_cursor digest after = Ok encoded ->
  decode_pagination_cursor encoded digest = Ok after
  /\ (is_ok (decode_pagination_cursor encoded digest') = true ->
      (endpoint = endpoint' /\ json_same query query') \/ sha256_collision).
Proof.
  intros Hq Hq' Hd Hd' He. rewrite !(decode_encoded_cursor _ _ _ _ He), String.eqb_refl.
  split; [done|]. destruct (String.eqb_spec digest digest') as [<-|]; [|done]. intros _.
  by eapply query_digest_binds.
Qed.
End theorems.
