(* ===== verification/AdmissionExamples.v ===== *)
(** * Admissions, proofs and cursors at work

    The exchange for a first context, an enrollment and a listing, evaluated. *)

From Stdlib Require Import Ascii String.
From S2P Require Import Prelude RustStr Extern Json Transcript Base64 Protocol Wire.
From S2P Require Import SessionProof Pagination.
From S2P Require Import Authorization Identifiers SessionAuthority IssuerMetadata Admission.

Local Open Scope string_scope.

Local Existing Instance json_tree.
Local Existing Instances rfc4648 rfc4648_laws sample_sha256 sample_ed25519 sample_ed25519_laws
  sample_ulid sample_url.

(** ** The first context *)

Definition sample_get : AdmissionGet := {|
  get_instance_id := sample_id;
  get_runtime_id := "AAAAAAAAAAAAAAAAAAAAAA";
  get_session_public_key := sample_session_key;
  get_attachment_id := sample_id;
  get_nonce := "AAAAAAAAAAAAAAAAAAAAAA";
  get_issued_at := 195;
|}.

Definition ok_text (r : result string ProtocolError) : string :=
  match r with Ok text => text | Err _ => "" end.

Definition sample_get_subject : string :=
  Eval vm_compute in ok_text (admission_get_subject sample_session_key).
Definition sample_get_reply : string :=
  Eval vm_compute in ok_text (admission_inbox_prefix sample_session_key) +:+ ".reply".

Definition sample_context : AdmissionContext := {|
  context_format := ADMISSION_GET_DOMAIN_V1;
  context_issuer_key_id := sample_issuer_id;
  context_instance_id := sample_id;
  context_nats_account := "ACCOUNT";
  context_runtime_id := "AAAAAAAAAAAAAAAAAAAAAA";
  context_nonce := "AAAAAAAAAAAAAAAAAAAAAA";
  context_request_subject := sample_get_subject;
  context_reply_subject := sample_get_reply;
  context_authority := "0";
  context_registry := object [("attachmentId", JString sample_id)];
  context_issued_at := 200;
  context_expires_at := 220;
|}.

Definition admission_texts : list Json :=
  [get_transcript sample_get sample_get_subject sample_get_reply; context_json sample_context].

Definition sample_signed_context : SignedAdmissionContext :=
  Eval vm_compute in
    let canonical : CanonicalJson := canonical_table admission_texts in
    {| context_response := sample_context;
       context_signature := b64_encode (sign sample_signer
         (ok_text (signed_json_digest ADMISSION_GET_DOMAIN_V1 (context_json sample_context)))) |}.

(** The text of a reply: its signature after as much as the punctuation takes. *)
Definition envelope_text (s : SignedAdmissionContext) : string :=
  "............................" +:+ context_signature s.

Section examples.
Let canonical : CanonicalJson := canonical_table admission_texts.
Let canonical_laws : CanonicalJsonLaws := canonical_table_laws admission_texts.
Let value_codec : JsonCodec Json := table_codec admission_texts.
Let authority_codec : JsonCodec SignedSessionAuthority := table_codec [sample_signed].
Let context_codec : JsonCodec AdmissionContext :=
  {| to_vec := fun _ => Ok ""; from_slice := fun _ => Err "unsupported" |}.
Let signed_codec : JsonCodec SignedAdmissionContext :=
  {| to_vec := fun s => if decide (s = sample_signed_context) then Ok (envelope_text s)
                        else Err "unsupported";
     from_slice := fun _ => Ok sample_signed_context |}.
Let no_provisioned : JsonCodec SignedProvisionedAdmission :=
  {| to_vec := fun _ => Err "unsupported"; from_slice := fun _ => Err "unsupported" |}.
Let no_oauth : JsonCodec SignedOAuthAdmission :=
  {| to_vec := fun _ => Err "unsupported"; from_slice := fun _ => Err "unsupported" |}.
Let no_nkeys : NkeyParser := fun _ => None.
Local Existing Instances canonical canonical_laws value_codec authority_codec context_codec
  signed_codec no_provisioned no_oauth no_nkeys.

Lemma signed_codec_laws : JsonCodecLaws SignedAdmissionContext.
Proof. intros s bytes. cbn. destruct (decide _) as [->|]; [by intros _|done]. Qed.

Lemma envelope_codec_law : EnvelopeLaw.
Proof.
  intros s bytes _. cbn. destruct (decide _); [|done]. intros [= <-]. by exists "".
Qed.

Local Existing Instances signed_codec_laws envelope_codec_law.

Lemma sample_own_authority : own_authority sample_get "ACCOUNT" sample_context.
Proof. exists sample_signed. split_and!; vm_compute; congruence. Qed.

Lemma admission_exchange_completes_witness :
  exists asked,
    verify_admission_get asked sample_get_subject sample_get_reply sample_id 200 = Ok tt
    /\ verify_admission_context (envelope_text sample_signed_context)
         (issuer_of sample_signer IssuerActive) sample_get sample_get_subject sample_get_reply
         "ACCOUNT" 210 = Ok sample_signed_context.
Proof.
  destruct (sign_admission_get sample_get sample_get_subject sample_get_reply sample_signer)
    as [asked|e] eqn:Hask; [|vm_compute in Hask; discriminate].
  exists asked.
  assert (Hs : sign_admission_context sample_context sample_signer = Ok sample_signed_context)
    by (vm_compute; reflexivity).
  apply (admission_exchange_completes sample_get sample_get_subject sample_get_reply sample_signer asked
    sample_context sample_signer sample_signed_context (envelope_text sample_signed_context) "ACCOUNT"
    200 210 Hask Hs).
  - reflexivity.
  - vm_compute. reflexivity.
  - split_and!; reflexivity.
  - exact sample_own_authority.
  - split; vm_compute; congruence.
  - split; vm_compute; congruence.
  - split; vm_compute; congruence.
  - split; vm_compute; congruence.
Defined.

End examples.

(** ** Enrollment *)

Module Enrollment.

Definition request : Json :=
  object [("requestId", JString "request-1"); ("identityKeyId", JString sample_issuer_id);
          ("sessionKey", JString sample_session_key); ("connectionId", JString "connection-1");
          ("participantId", JString "device"); ("iat", JNumber (PosInt 1000));
          ("name", JString "Sensor")].

Definition input : DeviceEnrollmentSessionProofInput :=
  {| enrollment_origin := "https://trellis.example"; unsigned_request := request |}.

Section examples.
Let canonical : CanonicalJson := canonical_table [request].
Let canonical_laws : CanonicalJsonLaws := canonical_table_laws [request].
Local Existing Instances canonical canonical_laws.

Lemma session_proof_accepted_witness :
  exists proof signed, device_enrollment input = Ok proof
    /\ sign_session_proof proof sample_signer = Ok signed
    /\ verify_session_proof proof signed sample_session_key 20000 default_policy = Ok tt
    /\ verify_session_proof proof signed sample_session_key 40000 default_policy <> Ok tt.
Proof.
  destruct (device_enrollment input) as [proof|e] eqn:Hp; [|vm_compute in Hp; discriminate].
  destruct (sign_session_proof proof sample_signer) as [signed|e] eqn:Hs;
    [|vm_compute in Hp; injection Hp as <-; vm_compute in Hs; discriminate].
  assert (Hiat : proof_issued_at proof = 1000%Z) by (vm_compute in Hp; injection Hp as <-; reflexivity).
  exists proof, signed. split_and!; [done|done|..].
  - apply (session_proof_accepted proof sample_signer signed 20000 default_policy Hs eq_refl).
    + split; split; vm_compute; congruence.
    + vm_compute. congruence.
    + rewrite Hiat. split; vm_compute; congruence.
  - intros Hv. apply (session_proof_accepted proof sample_signer signed 40000 default_policy Hs eq_refl) in Hv.
    + rewrite Hiat in Hv. vm_compute in Hv. by destruct Hv.
    + split; split; vm_compute; congruence.
    + vm_compute. congruence.
Defined.

Lemma session_proof_binds_witness :
  exists proof digest, device_enrollment input = Ok proof /\ proof_digest proof = Ok digest
    /\ ((enrollment_origin input = enrollment_origin input /\ json_same request request
         /\ proof_request_id proof = proof_request_id proof
         /\ proof_issued_at proof = proof_issued_at proof
         /\ proof_signer_key_id proof = proof_signer_key_id proof) \/ sha256_collision).
Proof.
  destruct (device_enrollment input) as [proof|e] eqn:Hp; [|vm_compute in Hp; discriminate].
  destruct (proof_digest proof) as [digest|e] eqn:Hd;
    [|vm_compute in Hp; injection Hp as <-; vm_compute in Hd; discriminate].
  exists proof, digest. split_and!; [done|done|].
  assert (Hsorted : json_sorted request) by (apply object_sorted; repeat constructor).
  exact (session_proof_binds input input proof proof digest Hp Hp Hsorted Hsorted Hd Hd).
Defined.
End examples.
End Enrollment.

(** ** Listing *)

Module Listing.

Global Instance Cursor_eq_dec : EqDecision (Cursor N).
Proof. solve_decision. Defined.

Definition query : Json := object [("sort", JString "asc")].
Definition texts : list Json := [query_value "Events.Query" query; query_value "Jobs.Query" query].

Definition query_digest (endpoint : string) : string :=
  let canonical : CanonicalJson := canonical_table texts in
  match pagination_query_digest endpoint query with Ok digest => digest | Err _ => "" end.

Section examples.
Let canonical : CanonicalJson := canonical_table texts.
Let canonical_laws : CanonicalJsonLaws := canonical_table_laws texts.
Let table : list (Cursor N) :=
  [{| cursor_v := 1; cursor_query_digest := query_digest "Events.Query"; cursor_after := 7%N |}].
Let codec : JsonCodec (Cursor N) := table_codec table.
Let codec_laws : JsonCodecLaws (Cursor N) := table_codec_laws table.
Local Existing Instances canonical canonical_laws codec codec_laws.

Lemma table_text (cursor : Cursor N) bytes : to_vec cursor = Ok bytes -> bytes <> "".
Proof.
  unfold to_vec, codec, table_codec.
  match goal with |- context [list_find ?P ?l] => destruct (list_find P l) as [[n ?]|] end; [|done].
  destruct (_ <=? _)%N; [|done]. intros [= <-]. apply decimal_nonempty.
Qed.

Lemma cursor_bound_to_query_witness :
  exists encoded, encode_pagination_cursor (query_digest "Events.Query") 7%N = Ok encoded
    /\ decode_pagination_cursor encoded (query_digest "Events.Query") = Ok 7%N.
Proof.
  destruct (encode_pagination_cursor (query_digest "Events.Query") 7%N) as [encoded|e] eqn:He;
    [|vm_compute in He; discriminate].
  exists encoded. split; [done|].
  assert (Hplain : json_plain query) by (unfold query; plain).
  apply (cursor_bound_to_query table_text "Events.Query" query "Jobs.Query" query
    (query_digest "Events.Query") (query_digest "Jobs.Query") 7%N encoded Hplain Hplain);
    [vm_compute; reflexivity|vm_compute; reflexivity|exact He].
Defined.
End examples.
End Listing.
