(* ===== verification/TransportGenerations.v ===== *)
(** * Transport generations

    One physical NATS attachment of a client connection, [TransportGeneration] of
    [crates/trellis/src/client/transport_generations.rs]: the leases that pin it, the
    fences that end their admission, the intake of framework owners, and the detached
    sweeps that dispose retired intake once accepted work is over.

    The code shares a generation between tasks.  Here a task is a value of [Task], which
    names the next thing the task does that others can observe: a section under the lease
    lock, an operation on an atomic, a notification, a call of a handle, or an await.  The
    intake lock is taken together with the first of the things done under it, and given
    back with the last.  [step] lets any task that can move make one move. *)

From Stdlib Require Import Ascii String.
From S2P Require Import Prelude.

Local Open Scope N_scope.
Local Open Scope trellis_scope.

(** ** One generation *)

Inductive GenerationState := Current | Draining | Closed.

Global Instance GenerationState_eq_dec : EqDecision GenerationState.
Proof. solve_decision. Defined.

Inductive GenerationIntakeRetireReason :=
| Superseded
| AuthorityReduced
| PhysicalFailure
| Shutdown.

Definition is_forced (reason : GenerationIntakeRetireReason) : bool :=
  match reason with
  | AuthorityReduced | PhysicalFailure | Shutdown => true
  | Superseded => false
  end.

(** A framework owner's handle: a trait object, known by its identity. *)
Definition Handle : Type := N.

Record LeaseState := mkLeaseState {
  live : N;
  disposing : bool;
  forced : bool;
  closed : bool }.

Global Instance LeaseState_settable : Settable LeaseState :=
  fun r => mkLeaseState (live r) (disposing r) (forced r) (closed r).

(** What the leases and the intake need of the struct.  [lease_wake] and [work] are the
    versions of their watch channels: their values are never read.  [intake_locked] tells
    whether a task holds the lock of [intake]. *)
Record TransportGeneration := mkTransportGeneration {
  state : GenerationState;
  lease_state : LeaseState;
  lease_wake : N;
  disposal_force : bool;
  work : N;
  intake : list Handle;
  intake_locked : bool;
  intake_active : bool;
  intake_installed : N;
  intake_disposing : N }.

Global Instance TransportGeneration_settable : Settable TransportGeneration :=
  fun r => mkTransportGeneration (state r) (lease_state r) (lease_wake r) (disposal_force r)
             (work r) (intake r) (intake_locked r) (intake_active r) (intake_installed r)
             (intake_disposing r).

(** [open_generation] builds a generation that is draining until it is promoted. *)
Definition opened : TransportGeneration :=
  mkTransportGeneration Draining (mkLeaseState 0 false false false) 0 false 0 [] false true 0 0.

Definition wake_lease_waiters (g : TransportGeneration) : TransportGeneration :=
  g <| lease_wake := lease_wake g + 1 |>.

Definition request_work (g : TransportGeneration) : TransportGeneration :=
  g <| work := work g + 1 |>.

(** Every writer of [state] holds the lease lock, so the exchange fails only spuriously
    and is then repeated. *)
Definition set_state_locked (next : GenerationState) (g : TransportGeneration)
    : TransportGeneration :=
  if decide (state g = Closed) then g
  else
    let g' := g <| state := next |> in
    if decide (state g = next) then g' else wake_lease_waiters g'.

Definition leases (g : TransportGeneration) : N := live (lease_state g).

Definition fenced (lease : LeaseState) : bool := disposing lease || forced lease || closed lease.

Definition is_fenced (g : TransportGeneration) : bool := fenced (lease_state g).

(** [connected] is the state the NATS client reports of its connection. *)
Definition lease (connected : bool) (g : TransportGeneration) : option TransportGeneration :=
  if is_fenced g || bool_decide (state g = Closed) || negb connected then None
  else Some (g <| lease_state := (lease_state g) <| live := leases g + 1 |> |>).

(** [Clone for TransportLease]. *)
Definition clone_lease (g : TransportGeneration) : TransportGeneration :=
  g <| lease_state := (lease_state g) <| live := leases g + 1 |> |>.

(** The locked section of [Drop for TransportLease], and whether the count is zero. *)
Definition release_lease (g : TransportGeneration) : TransportGeneration * bool :=
  let remaining := leases g - 1 in
  (g <| lease_state := (lease_state g) <| live := remaining |> |>, bool_decide (remaining = 0)).

Definition promote_to_current (g : TransportGeneration) : TransportGeneration * bool :=
  if is_fenced g then (g, false)
  else
    let g' := set_state_locked Current g in
    (g', bool_decide (state g' = Current)).

(** The locked section of [close_leases], and whether the fence was set already. *)
Definition close_leases (g : TransportGeneration) : TransportGeneration * bool :=
  (g <| lease_state := (lease_state g) <| closed := true |> |>, closed (lease_state g)).

(** The locked section of [force_leases], and whether it latched the force. *)
Definition force_leases (g : TransportGeneration) : TransportGeneration * bool :=
  (g <| lease_state := (lease_state g) <| forced := true |> |>, negb (forced (lease_state g))).

(** Whether [wait_lease_idle] returns when it looks at the generation under the lock. *)
Definition permitted (g : TransportGeneration) : bool :=
  forced (lease_state g) || disposing (lease_state g) ||
  bool_decide (state g = Draining) && bool_decide (leases g = 0).

(** ** Tasks *)

Inductive Task :=
(* [push_intake] *)
| PushLock (handle : Handle)
| PushState (handle : Handle) (fenced : bool)
| PushStore (handle : Handle)
| PushActive
(* [take_intake], then [retire_handles] *)
| TakeLock (next : option GenerationState) (reason : GenerationIntakeRetireReason)
| TakeActive (next : option GenerationState) (reason : GenerationIntakeRetireReason)
| TakeHandles (next : option GenerationState) (reason : GenerationIntakeRetireReason)
| TakeClose (handles : list Handle) (reason : GenerationIntakeRetireReason)
| TakeWake (handles : list Handle) (reason : GenerationIntakeRetireReason)
| Retire (handles rest : list Handle) (reason : GenerationIntakeRetireReason)
(* [spawn_disposal] *)
| Force (handles : list Handle)
| ForceSend (handles : list Handle)
| ForceWake (handles : list Handle)
| Spawn (handles : list Handle)
(* the detached sweep *)
| SweepNext (handles : list Handle)
| SweepSelect (handle : Handle) (rest : list Handle)
| Dispose (handle : Handle) (rest : list Handle)
| DisposeAwait (rest : list Handle)
| SweepRelease
| SweepReap
(* [wait_lease_idle] in a sweep; [seen] is the version its receiver has seen *)
| WaitCheck (handle : Handle) (rest : list Handle) (seen : N)
| WaitWake (handle : Handle) (rest : list Handle)
| WaitForce (handle : Handle) (rest : list Handle) (seen : N)
| WaitSelect (handle : Handle) (rest : list Handle) (seen : N)
(* [Drop for TransportLease] after the last release *)
| ReleaseWake
| ReleaseReap
(* [reap] on this generation *)
| ReapState
| ReapLeases
| ReapInstalled
| ReapDisposing
| ReapClose
| ReapWake
| Done.

(** What tasks share: the generation, the number of lease values that exist ([held]), the
    handles ever given to [push_intake], and what happened to handles: the reasons they
    were retired for, whether their intake has stopped, whether [dispose] was called, and
    whether they were dropped without it.  [dropped] tells that the last reference to the
    generation is gone, with the senders it owned. *)
Record Shared := mkShared {
  generation : TransportGeneration;
  held : N;
  given : list Handle;
  retired : list (Handle * GenerationIntakeRetireReason);
  stopped : list Handle;
  disposed : list Handle;
  abandoned : list Handle;
  dropped : bool }.

Global Instance Shared_settable : Settable Shared :=
  fun r => mkShared (generation r) (held r) (given r) (retired r) (stopped r) (disposed r)
             (abandoned r) (dropped r).

Definition unlock (g : TransportGeneration) : TransportGeneration := g <| intake_locked := false |>.

Definition lock (g : TransportGeneration) : TransportGeneration := g <| intake_locked := true |>.

(** [push_intake]: the fence is read under the lease lock, the state after it. *)
Definition push_task (t : Task) (g : TransportGeneration) : option (TransportGeneration * Task) :=
  match t with
  | PushLock h => if intake_locked g then None else Some (lock g, PushState h (is_fenced g))
  | PushState h fenced =>
      if fenced || bool_decide (state g = Closed)
      then Some (unlock g, Retire [h] [h] PhysicalFailure)
      else Some (g, PushStore h)
  | PushStore h =>
      Some (g <| intake := intake g ++ [h] |> <| intake_installed := intake_installed g + 1 |>,
            PushActive)
  | PushActive => Some (unlock (g <| intake_active := true |>), Done)
  | _ => None
  end.

(** [take_intake]; its caller goes on with [retire_handles]. *)
Definition take_task (t : Task) (g : TransportGeneration) : option (TransportGeneration * Task) :=
  match t with
  | TakeLock next reason =>
      if intake_locked g then None
      else Some (lock (match next with Some s => set_state_locked s g | None => g end),
                 TakeActive next reason)
  | TakeActive next reason => Some (g <| intake_active := false |>, TakeHandles next reason)
  | TakeHandles next reason =>
      let handles := intake g in
      let g' := g <| intake := [] |>
                  <| intake_installed := intake_installed g - N.of_nat (length handles) |> in
      if decide (next = Some Closed) then Some (g', TakeClose handles reason)
      else Some (unlock g', Retire handles handles reason)
  | TakeClose handles reason =>
      let (g', already) := close_leases g in
      if already : bool then Some (unlock g', Retire handles handles reason)
      else Some (g', TakeWake handles reason)
  | TakeWake handles reason =>
      Some (unlock (wake_lease_waiters g), Retire handles handles reason)
  | _ => None
  end.

(** [spawn_disposal] up to the spawn, whose task is the sweep. *)
Definition spawn_disposal (t : Task) (g : TransportGeneration)
    : option (TransportGeneration * Task) :=
  match t with
  | Force handles =>
      let (g', newly) := force_leases g in
      Some (g', if newly : bool then ForceSend handles else Spawn handles)
  | ForceSend handles => Some (g <| disposal_force := true |>, ForceWake handles)
  | ForceWake handles => Some (wake_lease_waiters g, Spawn handles)
  | Spawn handles =>
      Some (g <| intake_disposing := intake_disposing g + 1 |>, SweepNext handles)
  | _ => None
  end.

(** [wait_lease_idle].  Where it selects, [first] picks the branch; a branch that is not
    ready cannot be picked.  [force.changed()] also resolves when its sender is gone. *)
Definition wait_lease_idle (first : bool) (gone : bool) (t : Task) (g : TransportGeneration)
    : option (TransportGeneration * Task) :=
  match t with
  | WaitCheck h rest seen =>
      if forced (lease_state g) || disposing (lease_state g) then Some (g, Dispose h rest)
      else if bool_decide (state g = Draining) && bool_decide (leases g = 0)
      then Some (g <| lease_state := (lease_state g) <| disposing := true |> |>, WaitWake h rest)
      else Some (g, WaitForce h rest seen)
  | WaitWake h rest => Some (wake_lease_waiters g, Dispose h rest)
  | WaitForce h rest seen =>
      if disposal_force g then Some (g, Dispose h rest) else Some (g, WaitSelect h rest seen)
  | WaitSelect h rest seen =>
      if first
      then if decide (seen = lease_wake g) then None
           else Some (g, WaitCheck h rest (lease_wake g))
      else if disposal_force g || gone then Some (g, WaitCheck h rest seen) else None
  | _ => None
  end.

(** [reap] for one draining generation, under the manager's lock until [close_leases]. *)
Definition reap_task (t : Task) (g : TransportGeneration) : option (TransportGeneration * Task) :=
  let continue (b : bool) (t : Task) := Some (g, if b then t else Done) in
  match t with
  | ReapState => continue (bool_decide (state g = Draining)) ReapLeases
  | ReapLeases => continue (bool_decide (leases g = 0)) ReapInstalled
  | ReapInstalled => continue (bool_decide (intake_installed g = 0)) ReapDisposing
  | ReapDisposing => continue (bool_decide (intake_disposing g = 0)) ReapClose
  | ReapClose =>
      let (g', already) := close_leases g in
      Some (g', if already : bool then TakeLock (Some Closed) Superseded else ReapWake)
  | ReapWake => Some (wake_lease_waiters g, TakeLock (Some Closed) Superseded)
  | _ => None
  end.

(** [retire_handles] signals every handle; without handles it returns at once. *)
Definition retire_handles (t : Task) (s : Shared) : option (Shared * Task) :=
  match t with
  | Retire [] _ _ => Some (s, Done)
  | Retire handles [] reason =>
      Some (s, if is_forced reason then Force handles else Spawn handles)
  | Retire handles (h :: rest) reason =>
      Some (s <| retired := (h, reason) :: retired s |>, Retire handles rest reason)
  | _ => None
  end.

(** The task [spawn_disposal] spawns.  Unless the force is latched it waits for the handle
    before it disposes it; the force cuts the wait short. *)
Definition sweep_task (first : bool) (t : Task) (s : Shared) : option (Shared * Task) :=
  let g := generation s in
  match t with
  | SweepNext [] => Some (s, SweepRelease)
  | SweepNext (h :: rest) =>
      Some (s, if disposal_force g then Dispose h rest else SweepSelect h rest)
  | SweepSelect h rest =>
      if first
      then if decide (h ∈ stopped s) then Some (s, WaitCheck h rest (lease_wake g)) else None
      else if disposal_force g || dropped s then Some (s, Dispose h rest) else None
  | Dispose h rest => Some (s <| disposed := h :: disposed s |>, DisposeAwait rest)
  | DisposeAwait rest => Some (s, SweepNext rest)
  | _ => None
  end.

(** [Drop for DisposalGuard], however the sweep ends. *)
Definition drop_guard (t : Task) (g : TransportGeneration) : option (TransportGeneration * Task) :=
  match t with
  | SweepRelease => Some (g <| intake_disposing := intake_disposing g - 1 |>, SweepReap)
  | SweepReap => Some (request_work g, Done)
  | _ => None
  end.

(** [Drop for TransportLease] once the count is zero. *)
Definition notify_release (t : Task) (g : TransportGeneration)
    : option (TransportGeneration * Task) :=
  match t with
  | ReleaseWake => Some (wake_lease_waiters g, ReleaseReap)
  | ReleaseReap => Some (request_work g, Done)
  | _ => None
  end.

(** One move of a task. *)
Definition run_task (first : bool) (t : Task) (s : Shared) : option (Shared * Task) :=
  let g := generation s in
  let on (r : option (TransportGeneration * Task)) :=
    '(g', t') ← r; Some (s <| generation := g' |>, t') in
  match t with
  | PushLock _ | PushState _ _ | PushStore _ | PushActive => on (push_task t g)
  | TakeLock _ _ | TakeActive _ _ | TakeHandles _ _ | TakeClose _ _ | TakeWake _ _ =>
      on (take_task t g)
  | Retire _ _ _ => retire_handles t s
  | Force _ | ForceSend _ | ForceWake _ | Spawn _ => on (spawn_disposal t g)
  | SweepNext _ | SweepSelect _ _ | Dispose _ _ | DisposeAwait _ => sweep_task first t s
  | WaitCheck _ _ _ | WaitWake _ _ | WaitForce _ _ _ | WaitSelect _ _ _ =>
      on (wait_lease_idle first (dropped s) t g)
  | SweepRelease | SweepReap => on (drop_guard t g)
  | ReleaseWake | ReleaseReap => on (notify_release t g)
  | ReapState | ReapLeases | ReapInstalled | ReapDisposing | ReapClose | ReapWake =>
      on (reap_task t g)
  | Done => None
  end.

(** The handles a task owns. *)
Definition task_handles (t : Task) : list Handle :=
  match t with
  | PushLock h | PushState h _ | PushStore h => [h]
  | TakeClose hs _ | TakeWake hs _ | Retire hs _ _ => hs
  | Force hs | ForceSend hs | ForceWake hs | Spawn hs | SweepNext hs => hs
  | SweepSelect h rest | Dispose h rest | WaitWake h rest => h :: rest
  | WaitCheck h rest _ | WaitForce h rest _ | WaitSelect h rest _ => h :: rest
  | DisposeAwait rest => rest
  | _ => []
  end.

(** The sweeps, which have no reference to the generation itself. *)
Definition detached (t : Task) : bool :=
  match t with
  | SweepNext _ | SweepSelect _ _ | Dispose _ _ | DisposeAwait _ | SweepRelease | SweepReap
  | WaitCheck _ _ _ | WaitWake _ _ | WaitForce _ _ _ | WaitSelect _ _ _ | Done => true
  | _ => false
  end.

(** Where a sweep can end early: a handle panics, or the runtime cancels the task. *)
Definition awaits (t : Task) : bool :=
  match t with
  | SweepNext _ | SweepSelect _ _ | WaitSelect _ _ _ | DisposeAwait _ => true
  | _ => false
  end.

(** ** Interleavings *)

Record World := mkWorld { shared : Shared; tasks : list Task }.

Inductive Op :=
| PushIntake (handle : Handle)
| RetireIntake (reason : GenerationIntakeRetireReason)
| RetireIntakeDraining (reason : GenerationIntakeRetireReason)
| RetireIntakeClosed (reason : GenerationIntakeRetireReason)
| Reap.

Definition entry (op : Op) : Task :=
  match op with
  | PushIntake h => PushLock h
  | RetireIntake reason => TakeLock None reason
  | RetireIntakeDraining reason => TakeLock (Some Draining) reason
  | RetireIntakeClosed reason => TakeLock (Some Closed) reason
  | Reap => ReapState
  end.

Inductive Action :=
| Do (i : nat) (first : bool)
| Interrupt (i : nat)
| Call (op : Op)
| Lease (connected : bool)
| CloneLease
| DropLease
| Promote
| StopIntake (handle : Handle)
| DropGeneration.

(** A call needs a reference to the generation; a handle is a box, pushed once. *)
Definition call (op : Op) (s : Shared) : option Shared :=
  if dropped s then None
  else
    match op with
    | PushIntake h => if decide (h ∈ given s) then None else Some (s <| given := h :: given s |>)
    | _ => Some s
    end.

Definition step (a : Action) (w : World) : option World :=
  let s := shared w in
  let g := generation s in
  match a with
  | Do i first =>
      t ← tasks w !! i;
      '(s', t') ← run_task first t s;
      Some (mkWorld s' (<[i := t']> (tasks w)))
  | Interrupt i =>
      t ← tasks w !! i;
      if awaits t
      then Some (mkWorld (s <| abandoned := task_handles t ++ abandoned s |>)
                   (<[i := SweepRelease]> (tasks w)))
      else None
  | Call op => s' ← call op s; Some (mkWorld s' (tasks w ++ [entry op]))
  | Lease connected =>
      if dropped s then None
      else
        match lease connected g with
        | Some g' => Some (mkWorld (s <| generation := g' |> <| held := held s + 1 |>) (tasks w))
        | None => Some w
        end
  | CloneLease =>
      if decide (held s = 0) then None
      else Some (mkWorld (s <| generation := clone_lease g |> <| held := held s + 1 |>) (tasks w))
  | DropLease =>
      if decide (held s = 0) then None
      else
        let (g', zero) := release_lease g in
        Some (mkWorld (s <| generation := g' |> <| held := held s - 1 |>)
                (tasks w ++ [if zero : bool then ReleaseWake else Done]))
  | Promote =>
      if dropped s then None
      else Some (mkWorld (s <| generation := (promote_to_current g).1 |>) (tasks w))
  | StopIntake h => Some (mkWorld (s <| stopped := h :: stopped s |>) (tasks w))
  | DropGeneration =>
      if decide (held s = 0) then
        if forallb detached (tasks w) then
          Some (mkWorld (s <| dropped := true |> <| abandoned := intake g ++ abandoned s |>
                           <| generation := g <| intake := [] |> <| intake_installed := 0 |> |>)
                  (tasks w))
        else None
      else None
  end.

Fixpoint runs (actions : list Action) (w : World) : option World :=
  match actions with
  | [] => Some w
  | a :: actions => w' ← step a w; runs actions w'
  end.

Definition initial : World := mkWorld (mkShared opened 0 [] [] [] [] [] false) [].

Definition reachable (w : World) : Prop := exists actions, runs actions initial = Some w.

(** ** What no task undoes *)

Ltac run_cases H :=
  unfold run_task, push_task, take_task, retire_handles, spawn_disposal, sweep_task,
    wait_lease_idle, drop_guard, notify_release, reap_task, close_leases, force_leases in H;
  repeat case_match; simplify_eq/=; repeat (simplify_option_eq; repeat case_match; simplify_eq/=).

Ltac step_cases H :=
  unfold step, call, lease, clone_lease, release_lease, promote_to_current in H;
  repeat case_match; simplify_eq/=; repeat (simplify_option_eq; repeat case_match; simplify_eq/=).

Notation lease_of s := (lease_state (generation s)).

(** The facts that stay true once they are. *)
Record later (s s' : Shared) : Prop := {
  later_forced : forced (lease_of s) = true -> forced (lease_of s') = true;
  later_disposing : disposing (lease_of s) = true -> disposing (lease_of s') = true;
  later_closed : closed (lease_of s) = true -> closed (lease_of s') = true;
  later_terminal : state (generation s) = Closed -> state (generation s') = Closed;
  later_dropped : dropped s = true -> dropped s' = true;
  later_stopped : stopped s ⊆ stopped s';
  later_retired : (retired s).*1 ⊆ (retired s').*1;
  later_disposed : disposed s ⊆ disposed s';
  later_wake : lease_wake (generation s) <= lease_wake (generation s') }.

Global Instance later_preorder : PreOrder later.
Proof.
  split.
  - intros s. by split.
  - intros s1 s2 s3 [] []. split; eauto; try (by etrans).
Qed.

Lemma set_state_locked_lease next g : lease_state (set_state_locked next g) = lease_state g.
Proof. unfold set_state_locked. by repeat case_decide. Qed.

Lemma set_state_locked_intake next g :
  let g' := set_state_locked next g in
  intake g' = intake g /\ intake_installed g' = intake_installed g /\
  intake_disposing g' = intake_disposing g /\ intake_locked g' = intake_locked g /\
  disposal_force g' = disposal_force g.
Proof. unfold set_state_locked. by repeat case_decide. Qed.

Lemma set_state_locked_terminal next g :
  state g = Closed -> state (set_state_locked next g) = Closed.
Proof. unfold set_state_locked. by repeat case_decide. Qed.

Lemma set_state_locked_wake next g : lease_wake g <= lease_wake (set_state_locked next g).
Proof. unfold set_state_locked. repeat case_decide; simpl; lia. Qed.

(** A transition that a waiter has to see is broadcast. *)
Lemma set_state_locked_broadcast next g :
  lease_wake (set_state_locked next g) = lease_wake g -> state (set_state_locked next g) = state g.
Proof. unfold set_state_locked. repeat case_decide; simpl; [done..|lia]. Qed.

Create HintDb generations.
#[local] Hint Resolve set_state_locked_terminal set_state_locked_wake : generations.

Ltac solve_later :=
  split; simpl; rewrite ?set_state_locked_lease;
  first [done | by eauto with generations | set_solver | lia].

Lemma run_task_later first t s s' t' : run_task first t s = Some (s', t') -> later s s'.
Proof. intros H. run_cases H; solve_later. Qed.

Lemma step_later a w w' : step a w = Some w' -> later (shared w) (shared w').
Proof.
  intros H. destruct a; try (step_cases H; solve_later).
  simpl in H. destruct (tasks w !! i); [|done]. simpl in H.
  destruct (run_task _ _ _) as [[s' t']|] eqn:Hr; simplify_eq/=. by eapply run_task_later.
Qed.

Lemma runs_later actions w w' : runs actions w = Some w' -> later (shared w) (shared w').
Proof.
  revert w. induction actions as [|a actions IH]; simpl; intros w H; simplify_eq; [done|].
  destruct (step a w) as [w1|] eqn:Ha; simplify_eq/=. etrans; eauto using step_later.
Qed.

(** ** Induction over runs *)

Lemma runs_app actions1 actions2 w :
  runs (actions1 ++ actions2) w = runs actions1 w ≫= runs actions2.
Proof.
  revert w. induction actions1 as [|a actions1 IH]; intros w; [done|].
  simpl. destruct (step a w); simpl; [apply IH|done].
Qed.

Lemma reachable_runs actions w w' : reachable w -> runs actions w = Some w' -> reachable w'.
Proof.
  intros [before Hb] H. exists (before ++ actions). by rewrite runs_app, Hb.
Qed.

Lemma runs_preserve (ok : Action -> bool) (P : World -> Prop) :
  (forall a w w', ok a = true -> P w -> step a w = Some w' -> P w') ->
  forall actions w w', forallb ok actions = true -> P w -> runs actions w = Some w' -> P w'.
Proof.
  intros Hstep. induction actions as [|a actions IH]; simpl; intros w w' Hok Hw H.
  - by simplify_eq.
  - apply andb_true_iff in Hok as [Ha Hok]. destruct (step a w) eqn:?; simplify_eq/=. eauto.
Qed.

Lemma reachable_ind (P : World -> Prop) :
  P initial ->
  (forall a w w', P w -> step a w = Some w' -> P w') ->
  forall w, reachable w -> P w.
Proof.
  intros H0 Hstep w [actions H]. revert H0 H.
  apply (runs_preserve (fun _ => true)); [eauto|]. by induction actions.
Qed.

(** ** Counting over tasks *)

Definition task_sum (f : Task -> N) (ts : list Task) : N := foldr (fun t n => f t + n) 0 ts.

Lemma task_sum_app f ts1 ts2 : task_sum f (ts1 ++ ts2) = task_sum f ts1 + task_sum f ts2.
Proof. induction ts1; simpl; lia. Qed.

Lemma task_sum_insert f ts i t t' :
  ts !! i = Some t -> task_sum f (<[i := t']> ts) + f t = task_sum f ts + f t'.
Proof.
  revert i. induction ts as [|u ts IH]; intros [|i] H; simplify_eq/=; [lia|].
  specialize (IH i H). lia.
Qed.

Lemma task_sum_member f ts i t : ts !! i = Some t -> f t <= task_sum f ts.
Proof.
  revert i. induction ts as [|u ts IH]; intros [|i] H; simplify_eq/=; [lia|].
  specialize (IH i H). lia.
Qed.


(** ** Books

    [intake_locked], [intake_installed] and [intake_disposing] count what they are meant
    to, and every handle is in one place. *)

Definition holds_lock (t : Task) : N :=
  match t with
  | PushState _ _ | PushStore _ | PushActive | TakeActive _ _ | TakeHandles _ _
  | TakeClose _ _ | TakeWake _ _ => 1
  | _ => 0
  end.

Definition sweeps (t : Task) : N :=
  match t with
  | SweepNext _ | SweepSelect _ _ | Dispose _ _ | DisposeAwait _ | SweepRelease
  | WaitCheck _ _ _ | WaitWake _ _ | WaitForce _ _ _ | WaitSelect _ _ _ => 1
  | _ => 0
  end.

Fixpoint occ (h : Handle) (l : list Handle) : N :=
  match l with
  | [] => 0
  | x :: l => (if decide (x = h) then 1 else 0) + occ h l
  end.

Lemma occ_app h l1 l2 : occ h (l1 ++ l2) = occ h l1 + occ h l2.
Proof. induction l1; simpl; lia. Qed.

Lemma occ_elem h l : h ∈ l <-> 0 < occ h l.
Proof.
  induction l as [|x l IH]; simpl; [split; [by intros ?%elem_of_nil|lia]|].
  rewrite elem_of_cons, IH. case_decide; naive_solver lia.
Qed.

Lemma occ_nodup h l : NoDup l -> occ h l = if decide (h ∈ l) then 1 else 0.
Proof.
  induction 1 as [|x l Hx Hl IH]; [by rewrite decide_False by apply not_elem_of_nil|].
  simpl. rewrite IH. destruct (decide (x = h)) as [->|Hne].
  - rewrite (decide_False (P := h ∈ l)) by done.
    by rewrite decide_True by apply list_elem_of_here.
  - destruct (decide (h ∈ l)), (decide (h ∈ x :: l)); set_solver.
Qed.

Definition placed (h : Handle) (s : Shared) : N :=
  occ h (intake (generation s)) + occ h (disposed s) + occ h (abandoned s).

Definition locks (s : Shared) : N := if intake_locked (generation s) then 1 else 0.

Record books (w : World) : Prop := {
  books_lock : task_sum holds_lock (tasks w) = locks (shared w);
  books_installed :
    intake_installed (generation (shared w)) = N.of_nat (length (intake (generation (shared w))));
  books_sweeps : intake_disposing (generation (shared w)) = task_sum sweeps (tasks w);
  books_given : NoDup (given (shared w));
  books_handles h :
    occ h (given (shared w)) =
    placed h (shared w) + task_sum (fun t => occ h (task_handles t)) (tasks w) }.

Lemma run_task_lock first t s s' t' :
  run_task first t s = Some (s', t') -> holds_lock t <= locks s ->
  locks s' + holds_lock t = locks s + holds_lock t'.
Proof.
  unfold locks. intros H.
  run_cases H; first [lia | congruence].
Qed.

Lemma run_task_sweeps first t s s' t' :
  run_task first t s = Some (s', t') -> sweeps t <= intake_disposing (generation s) ->
  intake_disposing (generation s') + sweeps t = intake_disposing (generation s) + sweeps t'.
Proof.
  intros H. run_cases H; try lia.
  pose proof (set_state_locked_intake g (generation s)) as (_ & _ & -> & _). lia.
Qed.

Lemma run_task_installed first t s s' t' :
  run_task first t s = Some (s', t') ->
  intake_installed (generation s) = N.of_nat (length (intake (generation s))) ->
  intake_installed (generation s') = N.of_nat (length (intake (generation s'))).
Proof.
  intros H. run_cases H; rewrite ?length_app; simpl; try lia.
  pose proof (set_state_locked_intake g (generation s)) as (-> & -> & _). lia.
Qed.

Lemma run_task_given first t s s' t' : run_task first t s = Some (s', t') -> given s' = given s.
Proof. intros H. by run_cases H. Qed.

Lemma run_task_handles h first t s s' t' :
  run_task first t s = Some (s', t') ->
  placed h s' + occ h (task_handles t') = placed h s + occ h (task_handles t).
Proof.
  unfold placed. intros H.
  run_cases H; rewrite ?occ_app; simpl; repeat case_decide; simplify_eq; try lia.
  pose proof (set_state_locked_intake g (generation s)) as (-> & _). lia.
Qed.

Lemma books_do first i w w' : books w -> step (Do i first) w = Some w' -> books w'.
Proof.
  intros [Hl Hi Hs Hg Hh] H. simpl in H. destruct (tasks w !! i) as [t|] eqn:Ht; [|done].
  simpl in H. destruct (run_task first t (shared w)) as [[s' t']|] eqn:Hr; simplify_eq/=.
  pose proof (fun f => task_sum_insert f _ _ _ t' Ht) as Hsum.
  pose proof (fun f => task_sum_member f _ _ _ Ht) as Hin. split; simpl.
  - pose proof (run_task_lock _ _ _ _ _ Hr) as Hq.
    specialize (Hsum holds_lock). specialize (Hin holds_lock). lia.
  - by eapply run_task_installed.
  - pose proof (run_task_sweeps _ _ _ _ _ Hr) as Hq.
    specialize (Hsum sweeps). specialize (Hin sweeps). lia.
  - by rewrite (run_task_given _ _ _ _ _ Hr).
  - intros h. rewrite (run_task_given _ _ _ _ _ Hr), Hh.
    pose proof (run_task_handles h _ _ _ _ _ Hr) as Hq.
    specialize (Hsum (fun t => occ h (task_handles t))). simpl in Hsum. lia.
Qed.

Lemma books_interrupt i w w' : books w -> step (Interrupt i) w = Some w' -> books w'.
Proof.
  intros [Hl Hi Hs Hg Hh] H. simpl in H. destruct (tasks w !! i) as [t|] eqn:Ht; [|done].
  simpl in H. destruct (awaits t) eqn:Ha; simplify_eq/=.
  pose proof (fun f => task_sum_insert f _ _ _ SweepRelease Ht) as Hsum. split; simpl.
  - unfold locks in *. specialize (Hsum holds_lock). destruct t; simplify_eq/=; lia.
  - done.
  - specialize (Hsum sweeps). destruct t; simplify_eq/=; lia.
  - done.
  - intros h. rewrite Hh. unfold placed. simpl. rewrite occ_app.
    specialize (Hsum (fun t => occ h (task_handles t))). simpl in Hsum. lia.
Qed.

Lemma books_step a w w' : books w -> step a w = Some w' -> books w'.
Proof.
  intros Hw H. destruct a; eauto using books_do, books_interrupt; destruct Hw as [Hl Hi Hs Hg Hh].
  all: step_cases H; split; simpl; rewrite ?task_sum_app; simpl; rewrite ?N.add_0_r; try done.
  all: try (by constructor).
  all: try (intros h; rewrite Hh; unfold placed; simpl; rewrite ?task_sum_app, ?occ_app; simpl;
    lia).
  all: pose proof (set_state_locked_intake Current (generation (shared w))) as (E1&E2&E3&E4&_);
    unfold placed, locks; simpl; by rewrite ?E1, ?E2, ?E3, ?E4.
Qed.

Lemma reachable_books w : reachable w -> books w.
Proof.
  apply reachable_ind; [|eauto using books_step]. split; simpl; try done. constructor.
Qed.

(** ** Disposal *)

(** Why a handle may be disposed: the generation was terminated by force or is gone, or
    the handle's intake has stopped and disposal began with no lease left. *)
Definition cleared (s : Shared) (h : Handle) : Prop :=
  forced (lease_of s) = true \/ dropped s = true \/
  h ∈ stopped s /\ disposing (lease_of s) = true.

Definition was_retired (s : Shared) (h : Handle) : Prop := h ∈ (retired s).*1.

Lemma cleared_later s s' h : later s s' -> cleared s h -> cleared s' h.
Proof.
  intros Hl [?|[?|[??]]].
  - left. by eapply later_forced.
  - right. left. by eapply later_dropped.
  - right. right. split; [by eapply later_stopped|by eapply later_disposing].
Qed.

Lemma retired_later s s' h : later s s' -> was_retired s h -> was_retired s' h.
Proof. intros Hl. apply (later_retired _ _ Hl). Qed.

(** What a task relies on; nothing another task does makes it false. *)
Definition task_ok (s : Shared) (t : Task) : Prop :=
  match t with
  | Retire hs rest _ => Forall (fun h => h ∈ rest \/ was_retired s h) hs
  | ForceSend hs | ForceWake hs => forced (lease_of s) = true /\ Forall (was_retired s) hs
  | WaitCheck h rest _ | WaitForce h rest _ | WaitSelect h rest _ =>
      h ∈ stopped s /\ Forall (was_retired s) (h :: rest)
  | WaitWake h rest =>
      (h ∈ stopped s /\ disposing (lease_of s) = true) /\ Forall (was_retired s) (h :: rest)
  | Dispose h rest => cleared s h /\ Forall (was_retired s) (h :: rest)
  | Force _ | Spawn _ | SweepNext _ | SweepSelect _ _ | DisposeAwait _ =>
      Forall (was_retired s) (task_handles t)
  | _ => True
  end.

Lemma task_ok_later s s' t : later s s' -> task_ok s t -> task_ok s' t.
Proof.
  intros Hl. pose proof (fun h => cleared_later s s' h Hl) as Hc.
  assert (forall hs, Forall (was_retired s) hs -> Forall (was_retired s') hs) as Hr.
  { intros hs Hhs. eapply Forall_impl; [done|]. eauto using retired_later. }
  destruct t; simpl; auto.
  - intros Hhs. eapply Forall_impl; [done|]. intros h [?|?]; eauto using retired_later.
  - intros [? ?]. split; [by eapply later_forced|auto].
  - intros [? ?]. split; [by eapply later_forced|auto].
  - intros [? ?]. auto.
  - intros [? ?]. split; [by eapply later_stopped|auto].
  - intros [[? ?] ?]. split_and!; [by eapply later_stopped|by eapply later_disposing|auto].
  - intros [? ?]. split; [by eapply later_stopped|auto].
  - intros [? ?]. split; [by eapply later_stopped|auto].
Qed.

Record safe (s : Shared) : Prop := {
  safe_live : live (lease_of s) = held s;
  safe_latch : disposal_force (generation s) = true -> forced (lease_of s) = true;
  safe_disposing : disposing (lease_of s) = true -> held s = 0;
  safe_disposed : Forall (fun h => cleared s h /\ was_retired s h) (disposed s) }.

Lemma disposed_later s s' hs :
  later s s' ->
  Forall (fun h => cleared s h /\ was_retired s h) hs ->
  Forall (fun h => cleared s' h /\ was_retired s' h) hs.
Proof.
  intros Hl Hd. eapply Forall_impl; [done|]. intros h []. eauto using cleared_later, retired_later.
Qed.

Lemma retire_starts (P : Handle -> Prop) hs : Forall (fun h => h ∈ hs \/ P h) hs.
Proof. apply Forall_forall. auto. Qed.

Lemma retire_ends (P : Handle -> Prop) hs : Forall (fun h => h ∈ [] \/ P h) hs -> Forall P hs.
Proof. intros H. eapply Forall_impl; [done|]. by intros h [?%elem_of_nil|?]. Qed.

Ltac split_orb :=
  match goal with H : _ || _ = true |- _ => apply orb_true_iff in H as [?|?] end.

Lemma run_task_ok first t s s' t' :
  run_task first t s = Some (s', t') -> safe s -> task_ok s t -> task_ok s' t'.
Proof.
  intros H [_ Hlatch _ _] Ht.
  pose proof (task_ok_later _ _ t (run_task_later _ _ _ _ _ H) Ht) as Ht'.
  run_cases H; try done; eauto using retire_starts, retire_ends.
  - eapply Forall_impl; [exact Ht'|]. intros x [[->|?]%elem_of_cons|?]; [right|by left|by right].
    apply elem_of_cons. by left.
  - apply Ht'.
  - split; [left; auto|done].
  - split; [|done]. split_orb; [left; auto|by right; left].
  - by destruct Ht' as [_ [_ ?]%Forall_cons].
  - split; [|apply Ht']. split_orb; [by left|right; right]. by split; [apply Ht|].
  - destruct Ht' as [? ?]. by split_and!.
  - split; [right; right|]; apply Ht'.
  - split; [left; auto|apply Ht'].
Qed.

Lemma run_task_safe first t s s' t' :
  run_task first t s = Some (s', t') -> safe s -> task_ok s t -> safe s'.
Proof.
  intros H Hs Ht. pose proof (run_task_later _ _ _ _ _ H) as Hl.
  destruct Hs as [Hlive Hlatch Hd Hdd].
  split.
  - run_cases H; by rewrite ?set_state_locked_lease.
  - run_cases H; rewrite ?set_state_locked_lease; try done.
    all: try (intros _; by apply Ht); intros; apply Hlatch; try congruence.
    by destruct (set_state_locked_intake g (generation s)) as (_ & _ & _ & _ & <-).
  - run_cases H; rewrite ?set_state_locked_lease; try done. intros _. by rewrite <- Hlive.
  - run_cases H; try by apply (disposed_later _ _ _ Hl).
    constructor; [|by apply (disposed_later _ _ _ Hl)].
    destruct Ht as [? [? _]%Forall_cons]. split; eauto using cleared_later, retired_later.
Qed.

Definition sound (w : World) : Prop := safe (shared w) /\ Forall (task_ok (shared w)) (tasks w).

Lemma tasks_ok_later s s' ts : later s s' -> Forall (task_ok s) ts -> Forall (task_ok s') ts.
Proof. intros Hl Hts. eapply Forall_impl; eauto using task_ok_later. Qed.

Lemma lease_admits connected g g' :
  lease connected g = Some g' ->
  is_fenced g = false /\ state g <> Closed /\ connected = true /\ g' = clone_lease g.
Proof.
  unfold lease. destruct (is_fenced g), connected; repeat case_bool_decide; simpl; intros;
    by simplify_eq.
Qed.

Lemma safe_lease s :
  safe s -> disposing (lease_of s) = false ->
  safe (s <| generation := clone_lease (generation s) |> <| held := held s + 1 |>).
Proof.
  intros [Hlive Hlatch Hd Hdd] Hnd. split; simpl; try done; [|congruence].
  unfold leases. by rewrite Hlive.
Qed.

Lemma safe_release s :
  safe s ->
  safe (s <| generation := (release_lease (generation s)).1 |> <| held := held s - 1 |>).
Proof.
  intros [Hlive Hlatch Hd Hdd]. split; simpl; try done.
  - unfold leases. by rewrite Hlive.
  - intros ?. rewrite Hd; [done|]. done.
Qed.

Lemma safe_promote s : safe s -> safe (s <| generation := (promote_to_current (generation s)).1 |>).
Proof.
  intros [Hlive Hlatch Hd Hdd]. unfold promote_to_current. case_match; [by split|].
  split; simpl; rewrite ?set_state_locked_lease; try done.
  - destruct (set_state_locked_intake Current (generation s)) as (_ & _ & _ & _ & ->). done.
  - eapply Forall_impl; [done|]. intros h. unfold cleared. simpl. by rewrite set_state_locked_lease.
Qed.

Lemma sound_step a w w' : sound w -> step a w = Some w' -> sound w'.
Proof.
  intros [Hs Ht] H. pose proof (step_later _ _ _ H) as Hl.
  pose proof (tasks_ok_later _ _ _ Hl Ht) as Ht'. destruct a.
  - simpl in H. destruct (tasks w !! i) as [t|] eqn:Hi; [|done]. simpl in H.
    destruct (run_task first t (shared w)) as [[s' t']|] eqn:Hr; simplify_eq/=.
    pose proof (Forall_lookup_1 _ _ _ _ Ht Hi). split; simpl; [by eapply run_task_safe|].
    apply Forall_insert; [done|]. by eapply run_task_ok.
  - simpl in H. destruct (tasks w !! i) as [t|]; [|done]. simpl in H.
    destruct (awaits t); simplify_eq/=. split; [by destruct Hs|by apply Forall_insert].
  - step_cases H; (split; [by destruct Hs|]); apply Forall_app; split; try done;
      by repeat constructor.
  - simpl in H. destruct (dropped (shared w)); [done|].
    destruct (lease _ _) as [g'|] eqn:Hg; simplify_eq/=; [|done].
    apply lease_admits in Hg as (Hf & _ & _ & ->). split; [|done]. apply safe_lease; [done|].
    unfold is_fenced, fenced in Hf. by destruct (disposing _).
  - simpl in H. case_decide; simplify_eq. split; [|done]. apply safe_lease; [done|].
    destruct (disposing _) eqn:?; [|done]. by destruct Hs as [_ _ Hd _]; apply Hd in Heqb.
  - simpl in H. case_decide; simplify_eq. split; [by apply safe_release|].
    apply Forall_app; split; [done|]. case_bool_decide; by repeat constructor.
  - simpl in H. case_match; simplify_eq. split; [by apply safe_promote|done].
  - simpl in H. simplify_eq. split; [|done]. destruct Hs. split; try done.
    by apply (disposed_later _ _ _ Hl).
  - simpl in H. repeat case_match; simplify_eq. split; [|done]. destruct Hs. split; try done.
    by apply (disposed_later _ _ _ Hl).
Qed.

Lemma reachable_sound w : reachable w -> sound w.
Proof. apply reachable_ind; [|eauto using sound_step]. by repeat constructor. Qed.

(** ** Wake-ups *)

(** A task that has changed what waiters wait for and is about to notify them. *)
Definition wake_pending (t : Task) : bool :=
  match t with
  | ForceSend _ | ForceWake _ | WaitWake _ _ | ReleaseWake => true
  | _ => false
  end.

(** The version a wait in progress has seen, with whether it has found nothing to do. *)
Definition receiver (t : Task) : option (N * bool) :=
  match t with
  | WaitCheck _ _ seen => Some (seen, false)
  | WaitForce _ _ seen | WaitSelect _ _ seen => Some (seen, true)
  | _ => None
  end.

(** A wait that has seen the last version has nothing to do, or is about to be notified. *)
Definition alert (w : World) : Prop :=
  forall i t seen checked,
    tasks w !! i = Some t -> receiver t = Some (seen, checked) ->
    seen <= lease_wake (generation (shared w)) /\
    (checked = true -> seen = lease_wake (generation (shared w)) ->
     permitted (generation (shared w)) = false \/
     exists j u, tasks w !! j = Some u /\ wake_pending u = true).

Lemma set_state_locked_announced next g :
  let g' := set_state_locked next g in
  lease_wake g < lease_wake g' \/ lease_wake g' = lease_wake g /\ permitted g' = permitted g.
Proof.
  intros g'. pose proof (set_state_locked_wake next g) as Hle. fold g' in Hle.
  destruct (decide (lease_wake g' = lease_wake g)) as [Heq|]; [right|left; lia].
  split; [done|]. unfold permitted, leases, g'.
  by rewrite (set_state_locked_lease next g), (set_state_locked_broadcast next g).
Qed.

(** A move notifies, or it neither lets a wait end unannounced nor forgets to notify. *)
Lemma run_task_wake first t s s' t' :
  run_task first t s = Some (s', t') ->
  lease_wake (generation s) < lease_wake (generation s') \/
  lease_wake (generation s') = lease_wake (generation s) /\
  (permitted (generation s') = true -> permitted (generation s) = true \/ wake_pending t' = true) /\
  (wake_pending t = true -> wake_pending t' = true).
Proof.
  intros H. run_cases H; try (by right; auto); try (left; simpl; lia).
  - destruct (set_state_locked_announced g (generation s)) as [?|[? Hp]]; [by left|right].
    split_and!; [done| |done]. intros ?. left. by rewrite <- Hp.
  - right. split_and!; [done| |done]. intros _. left. unfold permitted. by destruct (forced _).
Qed.

Lemma alert_tasks w s' ts' :
  alert w ->
  (forall i t, ts' !! i = Some t -> is_Some (receiver t) -> tasks w !! i = Some t) ->
  (forall j u, tasks w !! j = Some u -> wake_pending u = true -> ts' !! j = Some u) ->
  lease_wake (generation (shared w)) < lease_wake (generation s') \/
  lease_wake (generation s') = lease_wake (generation (shared w)) /\
  (permitted (generation s') = true ->
   permitted (generation (shared w)) = true \/
   exists j u, ts' !! j = Some u /\ wake_pending u = true) ->
  alert (mkWorld s' ts').
Proof.
  intros Hw Hr Hp Hwake i t seen checked Ht Hseen. simpl in *.
  destruct (Hw i t seen checked) as [Hle Hnone]; [by eapply Hr|done|].
  destruct Hwake as [Hlt|[-> Hperm]]; [lia|]. split; [done|]. intros Hc Heq.
  destruct (permitted (generation s')) eqn:Hp'; [right|by left].
  destruct (Hnone Hc Heq) as [Hno|(j & u & Hj & Hu)]; [|by eauto].
  destruct (Hperm eq_refl) as [?|?]; [congruence|done].
Qed.

Lemma run_task_receiver first t s s' t' seen checked :
  run_task first t s = Some (s', t') -> receiver t' = Some (seen, checked) ->
  seen = lease_wake (generation s') /\ checked = false \/
  generation s' = generation s /\
  (receiver t = Some (seen, true) \/
   receiver t = Some (seen, false) /\ permitted (generation s) = false).
Proof.
  intros H Hr. run_cases H; auto; right; split; auto; right; split; auto.
  all: unfold permitted; match goal with E : _ || _ = false |- _ => rewrite E end.
  all: by repeat case_bool_decide.
Qed.

Lemma alert_do first i w w' : alert w -> step (Do i first) w = Some w' -> alert w'.
Proof.
  intros Hw H. simpl in H. destruct (tasks w !! i) as [t|] eqn:Hi; [|done]. simpl in H.
  destruct (run_task first t (shared w)) as [[s' t']|] eqn:Hr; simplify_eq/=.
  pose proof (run_task_wake _ _ _ _ _ Hr) as Hwake.
  pose proof (lookup_lt_Some _ _ _ Hi) as Hlen.
  assert (<[i:=t']> (tasks w) !! i = Some t') as Hi' by by apply list_lookup_insert_eq.
  intros j u seen checked Hj Hseen. simpl in *. destruct (decide (j = i)) as [->|Hji].
  - rewrite Hi' in Hj. simplify_eq.
    destruct (run_task_receiver _ _ _ _ _ _ _ Hr Hseen) as [[-> ->]|[Hg Hold]]; [done|].
    rewrite Hg. destruct Hold as [Hold|[Hold Hno]]; [|by destruct (Hw _ _ _ _ Hi Hold); auto].
    destruct (Hw _ _ _ _ Hi Hold) as [Hle Hnone]. split; [done|]. intros _ Heq.
    destruct (Hnone eq_refl Heq) as [?|(k & v & Hk & Hv)]; [by left|right].
    destruct (decide (k = i)) as [->|]; [by destruct t; simplify_eq|].
    exists k, v. by rewrite list_lookup_insert_ne.
  - rewrite list_lookup_insert_ne in Hj by done.
    destruct (Hw j u seen checked Hj Hseen) as [Hle Hnone].
    destruct Hwake as [Hlt|(-> & Hperm & Hpend)]; [lia|]. split; [done|]. intros Hc Heq.
    destruct (permitted (generation s')) eqn:Hp'; [right|by left].
    destruct (Hnone Hc Heq) as [Hno|(k & v & Hk & Hv)].
    + destruct (Hperm eq_refl); [congruence|eauto].
    + destruct (decide (k = i)) as [->|]; [simplify_eq; eauto|].
      exists k, v. by rewrite list_lookup_insert_ne.
Qed.

(** A lease count above zero permits nothing by itself. *)
Lemma permitted_count g n :
  n <> 0 -> permitted (g <| lease_state := (lease_state g) <| live := n |> |>) = true ->
  permitted g = true.
Proof.
  unfold permitted, leases. simpl. intros Hn.
  rewrite (bool_decide_false (n = 0)), andb_false_r, orb_false_r by done. by intros ->.
Qed.

Lemma lookup_snoc_receiver ts u i t :
  (ts ++ [u]) !! i = Some t -> receiver u = None -> is_Some (receiver t) -> ts !! i = Some t.
Proof.
  intros [?|[_ Hi]]%lookup_app_Some Hu Ht; [done|].
  apply list_lookup_singleton_Some in Hi as [_ <-]. rewrite Hu in Ht. by destruct Ht.
Qed.

Lemma alert_step a w w' : alert w -> step a w = Some w' -> alert w'.
Proof.
  intros Hw H. destruct a; [by eapply alert_do|..]; simpl in H.
  - destruct (tasks w !! i) as [t|] eqn:Hi; [|done]. simpl in H.
    destruct (awaits t) eqn:Ha; simplify_eq/=.
    apply (alert_tasks w); [done| | |by right; auto].
    + intros j u [(<- & <- & _)|[_ ?]]%list_lookup_insert_Some Hu; [by destruct Hu|done].
    + intros j u Hj Hu. rewrite list_lookup_insert_ne; [done|].
      intros ->. simplify_eq. by destruct t.
  - destruct (call op (shared w)) as [s'|] eqn:Hc; simplify_eq/=.
    apply (alert_tasks w); [done| | |].
    + intros i t Hi. apply lookup_snoc_receiver with (1 := Hi). by destruct op.
    + intros j u Hj _. by apply lookup_app_l_Some.
    + right. unfold call in Hc. repeat case_match; simplify_eq/=; auto.
  - case_match; [done|]. destruct (lease _ _) eqn:Hg; simplify_eq; [|done].
    apply lease_admits in Hg as (_ & _ & _ & ->).
    apply (alert_tasks w); [done..|]. right. split; [done|]. intros Hp. left.
    eapply permitted_count; [|exact Hp]. lia.
  - case_decide; simplify_eq. apply (alert_tasks w); [done..|]. right. split; [done|].
    intros Hp. left. eapply permitted_count; [|exact Hp]. lia.
  - case_decide; simplify_eq. apply (alert_tasks w); [done| | |right; split; [done|]].
    + intros i t Hi. apply lookup_snoc_receiver with (1 := Hi). by case_match.
    + intros j u Hj _. by apply lookup_app_l_Some.
    + case_bool_decide; intros Hp; [right|left; by eapply permitted_count].
      exists (length (tasks w)), ReleaseWake. split; [|done]. by apply list_lookup_middle.
  - case_match; simplify_eq. apply (alert_tasks w); [done..|]. simpl. unfold promote_to_current.
    case_match; [by right; auto|]. simpl.
    destruct (set_state_locked_announced Current (generation (shared w))) as [?|[? ->]]; auto.
  - simplify_eq. apply (alert_tasks w); [done..|]. by right; auto.
  - repeat case_match; simplify_eq. apply (alert_tasks w); [done..|]. by right; auto.
Qed.

Lemma reachable_alert w : reachable w -> alert w.
Proof. apply reachable_ind; [|eauto using alert_step]. by intros [|i] t seen checked. Qed.

(** ** Theorems *)

Lemma runs_do w i t s' t' actions :
  tasks w !! i = Some t -> run_task true t (shared w) = Some (s', t') ->
  runs (Do i true :: actions) w = runs actions (mkWorld s' (<[i := t']> (tasks w))).
Proof. intros Hi Hr. simpl. by rewrite Hi; simpl; rewrite Hr. Qed.

(** A sweep in [wait_lease_idle] that is permitted to go on disposes its handle. *)
Lemma permitted_check_disposes w i h rest seen :
  tasks w !! i = Some (WaitCheck h rest seen) -> permitted (generation (shared w)) = true ->
  exists n w', (n <= 3)%nat /\ runs (repeat (Do i true) n) w = Some w' /\
    h ∈ disposed (shared w').
Proof.
  intros Hi Hp. pose proof (lookup_lt_Some _ _ _ Hi) as Hlen. unfold permitted in Hp.
  destruct (forced _ || disposing _) eqn:Hf; simpl in Hp.
  - exists 2%nat. eexists. split; [lia|]. simpl repeat.
    erewrite runs_do; [|done|simpl; by rewrite Hf].
    erewrite runs_do; [|by apply list_lookup_insert_eq|done].
    split; [done|]. simpl. by left.
  - exists 3%nat. eexists. split; [lia|]. simpl repeat.
    erewrite runs_do; [|done|simpl; by rewrite Hf, Hp].
    erewrite runs_do; [|by apply list_lookup_insert_eq|done].
    erewrite runs_do; [|apply list_lookup_insert_eq; cbn [tasks]; by rewrite length_insert|done].
    split; [done|]. simpl. by left.
Qed.

(** C17: Accepted work is never cut off by an orderly retirement.  Whatever calls, moves of
    tasks, leases and interruptions came before, a handle that was disposed had been
    retired, and unless the generation was terminated by force or is gone, the handle's
    intake had stopped, disposal had begun, and no lease exists, nor will one ever be
    given out again. *)
Theorem disposal_waits_for_work (w : World) (h : Handle) :
  reachable w -> h ∈ disposed (shared w) ->
  h ∈ (retired (shared w)).*1 /\
  (forced (lease_of (shared w)) = true \/ dropped (shared w) = true \/
   h ∈ stopped (shared w) /\ disposing (lease_of (shared w)) = true /\ held (shared w) = 0 /\
   forall actions w', runs actions w = Some w' -> held (shared w') = 0).
Proof.
  intros Hw Hh. destruct (reachable_sound w Hw) as [[_ _ Hd Hdd] _].
  rewrite Forall_forall in Hdd. destruct (Hdd h Hh) as [[?|[?|[Hs Hdis]]] Hret]; auto.
  split; [done|]. right. right. split_and!; auto. intros actions w' Hr.
  assert (reachable w') as [[_ _ Hd' _] _]%reachable_sound by by eapply reachable_runs.
  apply Hd'. by apply (runs_later _ _ _ Hr).
Qed.

(** A fence is final.  Once a generation disposes, was forced or was closed, no later
    state gives out a fresh lease or makes it current, and a closed generation stays
    closed. *)
Theorem fence_is_final (w w' : World) (actions : list Action) (connected : bool) :
  is_fenced (generation (shared w)) = true -> runs actions w = Some w' ->
  lease connected (generation (shared w')) = None /\
  (promote_to_current (generation (shared w'))).2 = false /\
  (state (generation (shared w)) = Closed -> state (generation (shared w')) = Closed).
Proof.
  intros Hf Hr. pose proof (runs_later _ _ _ Hr) as Hl.
  assert (is_fenced (generation (shared w')) = true) as Hf'.
  { unfold is_fenced, fenced in *. destruct Hl. rewrite !orb_true_iff in *. naive_solver. }
  split_and!; [|unfold promote_to_current; by rewrite Hf'|apply Hl].
  unfold lease. by rewrite Hf'.
Qed.

(** C29: Every handle is accounted for.  A handle given to a generation is in one place: in
    its intake, with one task, disposed, or dropped with an interrupted sweep or with the
    generation.  The counters the reaper reads count the installed handles and the sweeps
    in flight, and one task at most holds the intake lock. *)
Theorem handles_accounted (w : World) (h : Handle) :
  reachable w ->
  let g := generation (shared w) in
  intake_installed g = N.of_nat (length (intake g)) /\
  intake_disposing g = task_sum sweeps (tasks w) /\
  task_sum holds_lock (tasks w) <= 1 /\
  occ h (intake g) + occ h (disposed (shared w)) + occ h (abandoned (shared w)) +
    task_sum (fun t => occ h (task_handles t)) (tasks w) =
  if decide (h ∈ given (shared w)) then 1 else 0.
Proof.
  intros Hw. destruct (reachable_books w Hw) as [Hl Hi Hs Hg Hh]. simpl.
  split_and!; [done|done| |].
  - rewrite Hl. unfold locks. case_match; lia.
  - specialize (Hh h). unfold placed in Hh. rewrite <- Hh. by apply occ_nodup.
Qed.

(** C21: No wake-up is lost.  A sweep that sleeps although its handle may be disposed is
    about to be notified by another task; once no such task is left, at most four moves of
    the sweep itself dispose the handle. *)
Theorem waiting_sweep_disposes (w : World) (i : nat) (h : Handle) (rest : list Handle) (seen : N) :
  reachable w -> tasks w !! i = Some (WaitSelect h rest seen) ->
  permitted (generation (shared w)) = true ->
  forallb (fun t => negb (wake_pending t)) (tasks w) = true ->
  exists n w', (n <= 4)%nat /\ runs (repeat (Do i true) n) w = Some w' /\
    h ∈ disposed (shared w').
Proof.
  intros Hw Hi Hp Hnone.
  destruct (reachable_alert w Hw i _ seen true Hi eq_refl) as [_ Hal].
  assert (seen <> lease_wake (generation (shared w))) as Hseen.
  { intros Heq. destruct (Hal eq_refl Heq) as [?|(j & u & Hj & Hu)]; [congruence|].
    rewrite forallb_forall in Hnone. apply list_elem_of_lookup_2, list_elem_of_In, Hnone in Hj.
    by rewrite Hu in Hj. }
  set (w1 := mkWorld (shared w)
               (<[i := WaitCheck h rest (lease_wake (generation (shared w)))]> (tasks w))).
  destruct (permitted_check_disposes w1 i h rest (lease_wake (generation (shared w))))
    as (n & w' & Hn & Hr & Hd); [|done|].
  { apply list_lookup_insert_eq. by eapply lookup_lt_Some. }
  exists (S n), w'. split; [lia|]. split; [|done]. simpl repeat. rewrite <- Hr.
  apply (runs_do w i (WaitSelect h rest seen)); [done|]. simpl.
  rewrite decide_False by done. by destruct (shared w).
Qed.

(** ** A close that does not force

    [retire_handles] returns before [spawn_disposal] when it has no handles, so a forced
    close of a generation whose handles are with an earlier sweep latches no force. *)

Record cut_off (h : Handle) (s : Shared) : Prop := {
  cut_closed : state (generation s) = Closed;
  cut_unforced : forced (lease_of s) = false;
  cut_undisposing : disposing (lease_of s) = false;
  cut_unlatched : disposal_force (generation s) = false;
  cut_intake : intake (generation s) = [];
  cut_handle : h ∉ disposed s }.

(** A task that neither forces nor brings handles, and has [h] only to wait for it. *)
Definition harmless (h : Handle) (t : Task) : Prop :=
  match t with
  | PushLock _ | PushState _ _ | PushStore _ | Force _ | ForceSend _ | ForceWake _
  | WaitWake _ _ => False
  | TakeClose hs _ | TakeWake hs _ | Retire hs _ _ => hs = []
  | WaitCheck _ _ _ | WaitForce _ _ _ | WaitSelect _ _ _ => True
  | _ => h ∉ task_handles t
  end.

Definition waits_on (h : Handle) (t : Task) : Prop :=
  match t with
  | WaitCheck h' _ _ | WaitForce h' _ _ | WaitSelect h' _ _ => h' = h
  | _ => False
  end.

Lemma set_state_locked_closed next g : state g = Closed -> set_state_locked next g = g.
Proof. unfold set_state_locked. intros. by rewrite decide_True. Qed.

Lemma cut_off_run h first t s s' t' :
  run_task first t s = Some (s', t') -> cut_off h s -> harmless h t ->
  cut_off h s' /\ harmless h t' /\ (waits_on h t -> waits_on h t').
Proof.
  intros H [Hc Hf Hd Hl Hi Hh] Ht.
  run_cases H; try congruence; try done; try (split_orb; congruence).
  all: split_and!; [|set_solver|done].
  all: split; simpl; rewrite ?set_state_locked_closed; by try set_solver.
Qed.

(** Neither another handle nor the end of this very sweep. *)
Definition leaves_alone (i : nat) (a : Action) : bool :=
  match a with
  | Call (PushIntake _) => false
  | Interrupt j => bool_decide (j <> i)
  | _ => true
  end.

Definition stranded (h : Handle) (i : nat) (w : World) : Prop :=
  cut_off h (shared w) /\ Forall (harmless h) (tasks w) /\
  exists t, tasks w !! i = Some t /\ waits_on h t.

Lemma stranded_tasks h i w s' ts' :
  stranded h i w -> cut_off h s' -> tasks w `prefix_of` ts' -> Forall (harmless h) ts' ->
  stranded h i (mkWorld s' ts').
Proof.
  intros (_ & _ & t & Hi & Ht) Hc Hp Hts. split_and!; [done|done|].
  exists t. split; [|done]. by eapply prefix_lookup_Some.
Qed.

Lemma stranded_do h i j first w w' :
  stranded h i w -> step (Do j first) w = Some w' -> stranded h i w'.
Proof.
  intros (Hc & Hts & t & Hi & Ht) H. simpl in H. destruct (tasks w !! j) as [u|] eqn:Hj; [|done].
  simpl in H. destruct (run_task first u (shared w)) as [[s' u']|] eqn:Hr; simplify_eq/=.
  pose proof (Forall_lookup_1 _ _ _ _ Hts Hj) as Hu.
  destruct (cut_off_run h _ _ _ _ _ Hr Hc Hu) as (Hc' & Hu' & Hw). split_and!; [done| |].
  - by apply Forall_insert.
  - simpl. destruct (decide (j = i)) as [->|Hji].
    + exists u'. split; [|simplify_eq; auto]. apply list_lookup_insert_eq. by eapply lookup_lt_Some.
    + exists t. by rewrite list_lookup_insert_ne.
Qed.

Lemma stranded_step h i a w w' :
  leaves_alone i a = true -> stranded h i w -> step a w = Some w' -> stranded h i w'.
Proof.
  intros Ha Hw H. destruct a; [by eapply stranded_do|..]; pose proof Hw as ([] & Hts & t & Hi & Ht);
    simpl in H.
  - simpl in Ha. apply bool_decide_eq_true in Ha. destruct (tasks w !! i0); [|done]. simpl in H.
    case_match; simplify_eq.
    split_and!; [by split|apply Forall_insert; [done|apply not_elem_of_nil]|].
    exists t. simpl. by rewrite list_lookup_insert_ne.
  - destruct (call op (shared w)) as [s'|] eqn:Hc; simplify_eq/=.
    assert (s' = shared w) as -> by (unfold call in Hc; repeat case_match; by simplify_eq).
    eapply stranded_tasks; [done|by split|by apply prefix_app_r|].
    apply Forall_app. split; [done|].
    destruct op; repeat constructor; try done; apply not_elem_of_nil.
  - case_match; [done|]. destruct (lease _ _) eqn:Hg; simplify_eq; [|done].
    by apply lease_admits in Hg as (_ & ? & _).
  - case_decide; simplify_eq. by eapply stranded_tasks.
  - case_decide; simplify_eq. eapply stranded_tasks; [done|by split|by apply prefix_app_r|].
    apply Forall_app. split; [done|]. case_match; repeat constructor; apply not_elem_of_nil.
  - case_match; simplify_eq. eapply stranded_tasks; [done| |done|done].
    unfold promote_to_current. case_match; [by split|]. simpl.
    by rewrite set_state_locked_closed; [split|].
  - simplify_eq. by eapply stranded_tasks.
  - repeat case_match; simplify_eq. by eapply stranded_tasks.
Qed.

(** A sweep waits for [h], nothing is forced or disposing yet, the intake is empty, and no task
    forces, brings handles or has [h] but to wait for it. *)
Definition sweep_alone (h : Handle) (i : nat) (w : World) : Prop :=
  forced (lease_of (shared w)) = false /\ disposing (lease_of (shared w)) = false /\
  disposal_force (generation (shared w)) = false /\ intake (generation (shared w)) = [] /\
  h ∉ disposed (shared w) /\ Forall (harmless h) (tasks w) /\
  exists t, tasks w !! i = Some t /\ waits_on h t.

(** The first move of a close fences a sweep off that waits alone. *)
Lemma close_strands h i k first reason w w1 :
  sweep_alone h i w -> tasks w !! k = Some (TakeLock (Some Closed) reason) ->
  step (Do k first) w = Some w1 -> stranded h i w1.
Proof.
  intros (Hf & Hd & Hl & Hin & Hh & Hts & t & Hi & Ht) Hk H. simpl in H. rewrite Hk in H. simpl in H.
  destruct (intake_locked _); [done|]. simpl in H. simplify_eq/=.
  assert (i <> k) by (intros ->; rewrite Hk in Hi; by simplify_eq).
  split_and!.
  - split; simpl; rewrite ?set_state_locked_lease; try done.
    + unfold set_state_locked. by repeat case_match.
    + unfold set_state_locked. by repeat case_match.
    + destruct (set_state_locked_intake Closed (generation (shared w))) as [-> _]. done.
  - apply Forall_insert; [done|apply not_elem_of_nil].
  - exists t. simpl. by rewrite list_lookup_insert_ne.
Qed.

(** The task that has just moved *)
Ltac own_task := apply list_lookup_insert_eq; cbn [tasks]; by rewrite ?length_insert.

(** A close of an empty intake runs to its end by its own moves. *)
Lemma empty_close_ends k reason w :
  tasks w !! k = Some (TakeLock (Some Closed) reason) ->
  intake_locked (generation (shared w)) = false -> intake (generation (shared w)) = [] ->
  exists n w', (n <= 6)%nat /\ runs (repeat (Do k true) n) w = Some w' /\ tasks w' !! k = Some Done.
Proof.
  intros Hk Hlock Hin. pose proof (lookup_lt_Some _ _ _ Hk) as Hlen.
  destruct (set_state_locked_intake Closed (generation (shared w))) as (Hin' & _).
  pose proof (set_state_locked_lease Closed (generation (shared w))) as Hlease.
  destruct (closed (lease_state (generation (shared w)))) eqn:Hclosed.
  - exists 5%nat. eexists. split; [lia|]. simpl repeat.
    erewrite runs_do; [|done|simpl; by rewrite Hlock].
    erewrite runs_do; [|own_task|done].
    erewrite runs_do; [|own_task|simpl; rewrite Hin', Hin; reflexivity].
    erewrite runs_do; [|own_task|simpl; rewrite Hlease, Hclosed; reflexivity].
    erewrite runs_do; [|own_task|done].
    split; [done|]. apply list_lookup_insert_eq. cbn [tasks]. by rewrite ?length_insert.
  - exists 6%nat. eexists. split; [lia|]. simpl repeat.
    erewrite runs_do; [|done|simpl; by rewrite Hlock].
    erewrite runs_do; [|own_task|done].
    erewrite runs_do; [|own_task|simpl; rewrite Hin', Hin; reflexivity].
    erewrite runs_do; [|own_task|simpl; rewrite Hlease, Hclosed; reflexivity].
    do 2 (erewrite runs_do; [|own_task|done]).
    split; [done|]. apply list_lookup_insert_eq. cbn [tasks]. by rewrite ?length_insert.
Qed.

(** C40: A close does not reach a sweep that is already waiting, also when its reason is one
    that forces.  Take any state in which a sweep waits for a handle, nothing is forced or
    disposing, the intake is empty and no other task forces, brings handles or owns the
    handle, and in which a close has the intake lock to itself.  The close runs to its end in
    at most six moves; and from its first move on the sweep goes on waiting, whatever happens
    short of another installation or the sweep's interruption (leases released, further
    closes for any reason, the generation dropped): it never disposes its handle, and once
    the generation is gone it always has a next move, so it never sleeps again either. *)
Theorem forced_close_strands_sweep w i k h reason :
  sweep_alone h i w -> tasks w !! k = Some (TakeLock (Some Closed) reason) ->
  intake_locked (generation (shared w)) = false ->
  (exists n w', (n <= 6)%nat /\ runs (repeat (Do k true) n) w = Some w' /\
     tasks w' !! k = Some Done) /\
  forall first w1 actions w',
    step (Do k first) w = Some w1 ->
    forallb (leaves_alone i) actions = true -> runs actions w1 = Some w' ->
    state (generation (shared w')) = Closed /\ h ∉ disposed (shared w') /\
    exists t, tasks w' !! i = Some t /\ waits_on h t /\
      (dropped (shared w') = true -> exists first, is_Some (run_task first t (shared w'))).
Proof.
  intros Halone Hk Hlock. split; [apply (empty_close_ends k reason); [done|done|apply Halone]|].
  intros first w1 actions w' Hstep Ha Hr.
  assert (stranded h i w') as ([] & _ & t & Ht & Hw).
  { eapply (runs_preserve (leaves_alone i)); [intros *; apply stranded_step|exact Ha| |exact Hr].
    by eapply close_strands. }
  split_and!; [done|done|]. exists t. split_and!; [done|done|]. intros Hdrop. exists false.
  destruct t; try done; simpl; repeat case_match; try done. by rewrite Hdrop, orb_true_r in *.
Qed.

(** ** Closed instances *)

(** One intake is installed and serves a lease; the generation is superseded, and the sweep
    waits for the lease; then the connection is lost and the generation is closed. *)
Definition lost_while_draining : list Action :=
  Call (PushIntake 7) :: repeat (Do 0 true) 4 ++
  [Promote; Lease true; Call (RetireIntakeDraining Superseded)] ++ repeat (Do 1 true) 7 ++
  StopIntake 7 :: repeat (Do 1 true) 3 ++ [Call (RetireIntakeClosed PhysicalFailure)].

Lemma forced_close_strands_sweep_witness :
  exists w, runs lost_while_draining initial = Some w /\ is_forced PhysicalFailure = true /\
    forall first w1 actions w',
      step (Do 2 first) w = Some w1 ->
      forallb (leaves_alone 1) actions = true -> runs actions w1 = Some w' ->
      7 ∉ disposed (shared w').
Proof.
  destruct (runs lost_while_draining initial) as [w|] eqn:Hr; [|by vm_compute in Hr].
  exists w. split_and!; [done|done|]. vm_compute in Hr. injection Hr as <-.
  destruct (forced_close_strands_sweep
    (mkWorld (mkShared (mkTransportGeneration Draining (mkLeaseState 1 false false false) 2 false 0
       [] false false 0 1) 1 [7] [(7, Superseded)] [7] [] [] false)
       [Done; WaitSelect 7 [] 2; TakeLock (Some Closed) PhysicalFailure]) 1 2 7 PhysicalFailure)
    as [_ Hall]; [|done|done|].
  - repeat split; [apply not_elem_of_nil|repeat constructor; apply not_elem_of_nil|].
    eexists. by split.
  - intros first w1 actions w' H1 Ha H2. apply (Hall first w1 actions w' H1 Ha H2).
Defined.

(** As [lost_while_draining], up to the wait for the lease; then the lease is released. *)
Definition waiting_run : list Action :=
  Call (PushIntake 7) :: repeat (Do 0 true) 4 ++
  [Promote; Lease true; Call (RetireIntakeDraining Superseded)] ++ repeat (Do 1 true) 7 ++
  StopIntake 7 :: repeat (Do 1 true) 3 ++ [DropLease; Do 2 true; Do 2 true].

Definition orderly_run : list Action := waiting_run ++ repeat (Do 1 true) 4.

(** [push_intake] reads the fence and lets go of the lease lock before it registers the
    handle, so a sweep can begin disposal in between: the handle is installed after the
    disposal-start fence, on a generation that is not closed. *)
Example install_races_disposal :
  let actions := Call (PushIntake 7) :: repeat (Do 0 true) 4 ++
    Call (RetireIntakeDraining Superseded) :: repeat (Do 1 true) 7 ++
    [StopIntake 7; Do 1 true; Call (PushIntake 8); Do 2 true; Do 1 true; Do 2 true; Do 2 true] in
  exists w, runs actions initial = Some w /\ disposing (lease_of (shared w)) = true /\
    intake (generation (shared w)) = [8].
Proof. eexists. split; [vm_compute; reflexivity|]. done. Qed.

Lemma disposal_waits_for_work_witness :
  exists w, runs orderly_run initial = Some w /\ 7 ∈ disposed (shared w) /\
    forced (lease_of (shared w)) = false /\ 7 ∈ (retired (shared w)).*1 /\
    forall actions w', runs actions w = Some w' -> held (shared w') = 0.
Proof.
  destruct (runs orderly_run initial) as [w|] eqn:Hr; [|by vm_compute in Hr].
  assert (7 ∈ disposed (shared w)) as Hd by (vm_compute in Hr; simplify_eq; by left).
  destruct (disposal_waits_for_work w 7 (ex_intro _ _ Hr) Hd) as [Hret Hwhy].
  exists w. split_and!; [done|done|by vm_compute in Hr; simplify_eq|done|].
  destruct Hwhy as [Hf|[Hf|(_ & _ & _ & H)]]; [by vm_compute in Hr; simplify_eq..|exact H].
Defined.

Lemma handles_accounted_witness :
  exists w, runs orderly_run initial = Some w /\
    occ 7 (intake (generation (shared w))) + occ 7 (disposed (shared w)) +
      occ 7 (abandoned (shared w)) +
      task_sum (fun t => occ 7 (task_handles t)) (tasks w) = 1.
Proof.
  destruct (runs orderly_run initial) as [w|] eqn:Hr; [|by vm_compute in Hr].
  exists w. split; [done|].
  destruct (handles_accounted w 7 (ex_intro _ _ Hr)) as (_ & _ & _ & ->).
  rewrite decide_True; [done|]. vm_compute in Hr. simplify_eq. by left.
Defined.

Lemma waiting_sweep_disposes_witness :
  exists w, runs waiting_run initial = Some w /\
    exists n w', (n <= 4)%nat /\ runs (repeat (Do 1 true) n) w = Some w' /\
      7 ∈ disposed (shared w').
Proof.
  destruct (runs waiting_run initial) as [w|] eqn:Hr; [|by vm_compute in Hr].
  exists w. split; [done|].
  apply (waiting_sweep_disposes w 1 7 [] 2 (ex_intro _ _ Hr)); vm_compute in Hr; by simplify_eq.
Defined.
